(* ===== verification/_CoqProject ===== *)
-Q . S2P
Prelude.v
Types.v
Std.v
Protocol.v
Scenario.v
Assertions.v
Tree.v
Spec.v
Profile.v
Oci.v
Checker.v
Fixture.v
Effects.v
Vm.v
Driver.v
WorkloadDriver.v
Os.v
Runtime.v
Launch.v
RuntimeApi.v
Lifecycle.v
RuntimeLoops.v
Composition.v
Agent.v
Serial.v
AgentStream.v
GuestInit.v
HostSerial.v
NetworkRun.v
GuestRun.v
EndToEnd.v
Identity.v
Root.v
Store.v
MemFs.v
StoreSample.v
StoreFiles.v
StoreSafe.v
StoreReplay.v
RunFiles.v
Image.v
Cpio.v
Text.v
Sanitize.v
RunBase.v
Process.v
ProcessSafe.v
Failure.v
Qemu.v
QemuArguments.v
MachineSafe.v
FailureSafe.v
Artifacts.v
Recording.v
Replay.v
Preflight.v
Publication.v
RunFrames.v
RunSample.v
RecordSample.v
RunReplay.v
RecordRun.v
Tools.v
Commands.v
Cli.v
