(* ===== verification/Prelude.v ===== *)
(** * A verification of SimFerret: host, channel, guest, verdict and store

    SimFerret records and replays one deterministic execution of a guest in a
    virtual machine.  The command line ([main.rs]) calls a host process ([run.rs])
    that derives a plan from a scenario and a seed ([scenario.rs]), launches a
    QEMU machine ([vm.rs]), sends commands to a guest agent ([agent.rs], started by
    [guest.rs]) over a serial channel ([protocol.rs]) and records the agent's
    events.  The agent configures the network, injects one outage, makes requests
    to a fixture ([fixture.rs]) and supervises a packaged workload ([runtime.rs]).
    The host judges what it recorded ([assertions.rs] for the network scenario,
    [checker.rs] for a workload), publishes it as a run directory, and replays such
    a directory to compare.  A workload is a binary or an OCI image that the host
    verifies, turns into a canonical filesystem and keeps in a store addressed by
    content ([workload/*.rs]).

    ** The files and what they model

    Shared: [Prelude] (bytes, 64-bit arithmetic, the Rust formatting directives,
    list searches, [result], errors), [Types] (the data of [protocol.rs],
    [scenario.rs], [assertions.rs] and the launch identity), [Std] (UTF-8, address
    and integer parsing of the standard library), [Effects] (the state-and-error
    monad with fuel, its triples, termination under fuel), [Os] (the guest's system
    calls as an interface, with their documented bounds and a scripted instance).

    Data and its checks: [Protocol] (tags, descriptions, both framings,
    hexadecimal), [Scenario] (validation, the generator, choice plans),
    [Assertions] (the network report), [Tree] (canonical trees, the identity
    encoding, the guest template, symbolic links), [Spec] (the workload
    specification), [Profile] (overlay and ELF checks of [workload/mod.rs]), [Oci]
    (descriptors, layers, the derived graph), [Checker] (the trace and the five
    workload properties), [Fixture] (the TFTP client and the files served to it),
    [Identity] (machine and network identities of [vm.rs], the restricted profile,
    the fixture digest, and the comparison of a replay).

    Driving a machine: [Vm] (the machine as an interface [RunningVm] with laws),
    [Driver] (the network driver, its replay, the comparisons), [WorkloadDriver]
    (the workload driver), [HostSerial] (the serial writer, the event reader and
    the channel operations of the QEMU machine, which implement [RunningVm]).

    The guest: [Runtime], [Launch] and [RuntimeApi] (the process runtime over
    [Os]: supervision, materialization and spawning, the operations), [Agent] (the
    agent over [Os], a writer, a socket and a runtime, the latter implemented by
    the Linux runtime and by [runtime_stub.rs]), [GuestInit] (the first process).

    The store: [Root] (a directory opened without following links, one method of
    [HostFs] per system call, and the laws of a filesystem as a tree, [FsLaws]),
    [Store] (assembly, publication and loading), [MemFs] (a filesystem in memory
    that satisfies the laws and may stop after any number of calls) and
    [StoreSample].

    A run: [RunFiles] (the paths of the host, [RunFs]), [Image] (the guest image and
    its cache), [Tools] (the tools it carries), [RunBase] (options, the adapter
    interface [VmAdapter]), [Process] (probes, process groups and QMP over
    [ProcessHost]), [Qemu] (the adapter of [vm.rs] over [QemuHost]), [Text],
    [Sanitize] and [Failure] (the bundle of an attempt that failed), [Artifacts]
    (the manifest, the digests, the publication), [Recording] and [Replay] (the
    attempts, in the monad of [Failure.Attempt] that carries the diagnostics),
    [Commands] ([record] and [replay]) and [Cli] ([main.rs]).

    Proof files: [Lifecycle] (the runtime refines an abstract machine),
    [RuntimeLoops] (bounds, order and termination of the runtime's loops),
    [Composition] (the runtime's events and the checker), [Serial] (the command
    channel), [AgentStream] (the agent's event stream), [NetworkRun] (the run a
    plan stands for), [GuestRun] (the agent serves a script), [EndToEnd] (host and
    guest together), [StoreFiles], [StoreSafe] and [StoreReplay] (reading the store,
    crash safety, assembly and loading), [Cpio] (a reader of the archive),
    [ProcessSafe] and [MachineSafe] (what is left of processes, over time),
    [QemuArguments] (the option syntax), [FailureSafe] (what a bundle shows),
    [Publication], [Preflight] and [RunReplay] (a published run and the checks of a
    replay), [RunFrames] and [RecordRun] (the whole attempt), with the inputs of
    [RunSample] and [RecordSample].

    A function of the source is the definition of the same name in the file of its
    component; a loop or a block the proofs speak of is a definition of its own,
    composed as the source composes it.  A method on [&mut self] is a computation
    over the record of its struct.  [Result] is [result]; a panic or exhausted
    fuel is [None].  [Drop] is the combinator [Failure.dropping], or
    [dropping_failed] for a guard that is disarmed.

    ** What the theorems show

    - The parts agree: [EndToEnd.network_scenario_passes] (a valid network scenario
      passes, from the host's driver through the channel and the agent to the
      fixture and back), [HostSerial.host_sees_agent] and [AgentStream] (the host
      receives exactly a well-formed stream, on any guest system),
      [Composition.runtime_checker_compose] (what the runtime reports is what the
      checker rebuilds), [Lifecycle.runtime_refines] (every run of the runtime is a
      run of a small machine).
    - A recording can be replayed: [RecordRun.recorded_run_replays] composes the
      preparation, the machine, the publication and the clean-up of a recording that
      returns, and shows that its directory passes the checks of every replay and
      that a replay that finishes is judged identical;
      [RunReplay.check_recording_refines] says what those checks accept, and
      [Cli.printed_command_replays] that the printed command leads back to the run.
    - Verdicts mean what they say: the network report passes exactly on the
      declarative contract, a passing workload report implies the process history
      and the exact responses, reconstruction rebuilds the streams.
    - The store: a publication that stops anywhere leaves a store without a
      half-written closure ([StoreSafe.publish_crash_safe]), [load] returns exactly
      what is stored under its digests ([StoreFiles.load_refines]), and what is
      assembled is what is loaded ([StoreReplay.assemble_load]).
    - Machines and processes: the arguments have exactly the intended fields, a probe
      and a launch return within their timeouts and leave no process behind, and a
      machine that is waited for and dropped is gone.
    - Failures: a bundle is bounded, well-formed text without private paths, and the
      error keeps its kind ([FailureSafe.failure_bundle_shareable]); the checks of an
      identity name the field that differs.
    - Encodings: frames, the guest archive, identities and the options of QEMU
      round-trip; the parsers accept exactly what they document.
    - Safety of untrusted input: symbolic links stay inside the root, layers keep a
      tree well formed, ELF files are checked completely.
    - Resources: bounded batches, a windowed writer, a cleanup barrier that ends with
      nothing left, a confined child, and termination of every wait under stated
      assumptions on the system.

    ** Parameters

    Third-party code is a parameter: [serde_json] ([Protocol.Serde], [SerdeLine],
    [SerdeValue], [SerdePretty], and the decoder that stops before trailing data),
    [toml] (arguments of the parsers), [sha2] ([Tree.Sha256]), [flate2] ([Gzip] and
    [Oci.OciDecoders], with [tar]), derived [Debug] renderings ([Driver.PrettyDebug],
    [DebugStr], [ReportDebug]) and the escapes of a character ([EscapeUnicode]).
    Where a proof relies on their documented behaviour the assumption is a class of
    laws ([SerdeLaws], [Sha256Laws], [SerdePrettyLaws], ...) with a concrete
    instance.  The operating system is an interface of one method per call: [Os] and
    [GuestHost] in the guest; [HostFs], [RunFs], [ToolHost], [ProcessHost] and
    [QemuHost] on the host, with the laws [FsLaws], [RunFsLaws], [RunFrames],
    [ToolLaws], [ProcessLaws] and [QuietHost]: which entry a call may change, that
    paths are canonical, that signals end a process group, that clocks advance.  The
    datagram socket, the machine and a working guest network ([GuestRun.GuestNet])
    are interfaces in the same way.  [MachineFrames] asks of a machine that it writes
    only the files of its configuration.

    ** Fuel and bounds

    Structural recursion is used where a loop consumes its input.  The loops of the
    runtime and the drivers that wait on the system carry fuel, one unit per turn:
    [RuntimeLoops.poll_returns], [WorkloadDriver.drive_workload_returns] and
    [EndToEnd.network_scenario_passes] prove how much is enough, on systems whose
    calls are interrupted finitely often and whose clock advances, and on machines
    that deliver finitely many events.  The waits of the adapter take one unit per
    nanosecond of their timeout, besides the interruptions and the bytes of a
    request; the walk over the kernel modules takes the levels of the tree.  Loops
    over a buffer take its length.  Counters are reduced modulo 2^64 where the
    source's may wrap.

    ** Not modelled

    The hook that a QEMU child runs before [exec], and the threads of a machine as
    schedules of their own: the code they run is modelled with the channel
    ([HostSerial]), their start and end are calls of [QemuHost].  What happens inside
    QEMU and the guest's kernel: the channel between two ends is the byte stream that
    [host_sees_agent] quantifies over.  The recorded workload run is modelled as a
    whole, but the composition with its replay is proved for network runs only.  The
    descriptors a process drops at its end.  Tests, scripts and build files are left
    out. *)

From stdpp Require Export base gmap strings list pretty sorting option numbers.
From Stdlib Require Import Strings.Byte.
From Stdlib Require Export ZArith Lia.

#[global] Open Scope Z_scope.
#[global] Set Default Proof Using "Type".

(** ** Hint databases of the development *)

Create HintDb sf discriminated.

(** ** Bytes *)

Notation byte := Byte.byte.
Notation bytes := (list Byte.byte).

#[export] Instance byte_eq_dec : EqDecision byte := Byte.byte_eq_dec.

#[export] Program Instance byte_countable : Countable byte :=
  inj_countable Byte.to_N Byte.of_N _.
Next Obligation. apply Byte.of_to_N. Qed.

(** The numeric value of a [u8]. *)
Definition byte_Z (b : byte) : Z := Z.of_N (Byte.to_N b).

(** The truncating conversion [z as u8]. *)
Definition byte_of_Z (z : Z) : byte :=
  match Byte.of_N (Z.to_N (z mod 256)) with
  | Some b => b
  | None => Byte.x00
  end.

Lemma byte_Z_range b : 0 <= byte_Z b < 256.
Proof.
  unfold byte_Z. pose proof (Byte.to_N_bounded b). lia.
Qed.

Lemma byte_of_Z_byte_Z b : byte_of_Z (byte_Z b) = b.
Proof.
  unfold byte_of_Z. rewrite Z.mod_small by apply byte_Z_range.
  unfold byte_Z. by rewrite N2Z.id, Byte.of_to_N.
Qed.

Lemma byte_Z_of_Z z : byte_Z (byte_of_Z z) = z mod 256.
Proof.
  unfold byte_of_Z, byte_Z.
  pose proof (Z.mod_pos_bound z 256 ltac:(lia)) as Hz.
  destruct (Byte.of_N (Z.to_N (z mod 256))) as [b|] eqn:E.
  - apply Byte.to_of_N in E. rewrite E. lia.
  - apply Byte.of_N_None_iff in E. lia.
Qed.

Lemma byte_Z_inj a b : byte_Z a = byte_Z b -> a = b.
Proof.
  intros H. rewrite <- (byte_of_Z_byte_Z a), <- (byte_of_Z_byte_Z b). by f_equal.
Qed.

(** ** Strings

    A Rust [String] is its UTF-8 byte sequence, so it is modelled by the
    standard library's [string], whose characters are 8-bit. *)

Definition as_bytes (s : string) : bytes := String.list_byte_of_string s.
Definition str_of (l : bytes) : string := String.string_of_list_byte l.

Lemma str_of_as_bytes s : str_of (as_bytes s) = s.
Proof. apply String.string_of_list_byte_of_string. Qed.

Lemma as_bytes_str_of l : as_bytes (str_of l) = l.
Proof. apply String.list_byte_of_string_of_list_byte. Qed.

Lemma as_bytes_inj s t : as_bytes s = as_bytes t -> s = t.
Proof. intros H. rewrite <- (str_of_as_bytes s), <- (str_of_as_bytes t). by f_equal. Qed.

Lemma str_of_inj s t : str_of s = str_of t -> s = t.
Proof. intros H. rewrite <- (as_bytes_str_of s), <- (as_bytes_str_of t). by f_equal. Qed.

Lemma as_bytes_app s t : as_bytes (s +:+ t) = as_bytes s ++ as_bytes t.
Proof.
  unfold as_bytes, String.list_byte_of_string.
  induction s as [|c s IH]; simpl; [done|]. by f_equal.
Qed.

(** [len] of a vector or slice, and [str::len], as integers. *)
Definition zlen {A} (l : list A) : Z := Z.of_nat (length l).
Definition str_len (s : string) : Z := zlen (as_bytes s).

Lemma zlen_nil {A} : zlen (@nil A) = 0.
Proof. done. Qed.
Lemma zlen_cons {A} (x : A) l : zlen (x :: l) = zlen l + 1.
Proof. unfold zlen. simpl. lia. Qed.
Lemma zlen_app {A} (l k : list A) : zlen (l ++ k) = zlen l + zlen k.
Proof. unfold zlen. rewrite length_app. lia. Qed.
Lemma zlen_nonneg {A} (l : list A) : 0 <= zlen l.
Proof. unfold zlen. lia. Qed.
Lemma zlen_map {A B} (f : A -> B) l : zlen (map f l) = zlen l.
Proof. unfold zlen. by rewrite length_map. Qed.

#[export] Hint Resolve zlen_nonneg : sf.

(** ** Machine integers

    Fixed-width integers are integers of [Z]; the operations that can leave
    the width are written out.  [usize] is 64 bits wide on the supported
    x86-64 hosts and guests. *)

Definition U16_MAX : Z := 2 ^ 16 - 1.
Definition U32_MAX : Z := 2 ^ 32 - 1.
Definition U64_MAX : Z := 2 ^ 64 - 1.
Definition I32_MAX : Z := 2 ^ 31 - 1.
Definition I32_MIN : Z := - 2 ^ 31.

Definition u32_range (z : Z) : Prop := 0 <= z <= U32_MAX.
Definition u64_range (z : Z) : Prop := 0 <= z <= U64_MAX.

(** [+] and [+=] on [u64]/[usize] in a release build: wrap around. *)
Definition add64 (a b : Z) : Z := (a + b) mod 2 ^ 64.
Definition mul64 (a b : Z) : Z := (a * b) mod 2 ^ 64.
Definition sub64 (a b : Z) : Z := (a - b) mod 2 ^ 64.

Definition checked_add64 (a b : Z) : option Z :=
  if a + b <=? U64_MAX then Some (a + b) else None.
Definition checked_mul64 (a b : Z) : option Z :=
  if a * b <=? U64_MAX then Some (a * b) else None.
Definition saturating_add64 (a b : Z) : Z := Z.min (a + b) U64_MAX.
Definition saturating_sub64 (a b : Z) : Z := Z.max (a - b) 0.
Definition saturating_mul64 (a b : Z) : Z := Z.min (a * b) U64_MAX.
Definition saturating_add_i32 (a b : Z) : Z := Z.max I32_MIN (Z.min (a + b) I32_MAX).

Lemma add64_small a b : 0 <= a -> 0 <= b -> a + b <= U64_MAX -> add64 a b = a + b.
Proof. unfold add64, U64_MAX. intros. apply Z.mod_small. lia. Qed.

Lemma sub64_small a b : 0 <= b <= a -> a <= U64_MAX -> sub64 a b = a - b.
Proof. unfold sub64, U64_MAX. intros. apply Z.mod_small. lia. Qed.

Lemma checked_add64_Some a b c :
  checked_add64 a b = Some c <-> c = a + b /\ a + b <= U64_MAX.
Proof.
  unfold checked_add64. destruct (Z.leb_spec (a + b) U64_MAX); split;
    intros H'; destruct_and?; simplify_eq; try lia; auto with lia.
Qed.

Lemma checked_mul64_Some a b c :
  checked_mul64 a b = Some c <-> c = a * b /\ a * b <= U64_MAX.
Proof.
  unfold checked_mul64. destruct (Z.leb_spec (a * b) U64_MAX); split;
    intros H'; destruct_and?; simplify_eq; try lia; auto with lia.
Qed.

(** ** Big- and little-endian integers *)

(** [to_be_bytes] of an [n]-byte integer. *)
Fixpoint be_bytes (n : nat) (z : Z) : bytes :=
  match n with
  | O => []
  | S n => byte_of_Z (Z.shiftr z (8 * Z.of_nat n)) :: be_bytes n z
  end.

(** [from_be_bytes] and [from_le_bytes]. *)
Definition be_Z (l : bytes) : Z := fold_left (fun acc b => 256 * acc + byte_Z b) l 0.
Fixpoint le_Z (l : bytes) : Z :=
  match l with
  | [] => 0
  | b :: l => byte_Z b + 256 * le_Z l
  end.

Lemma length_be_bytes n z : length (be_bytes n z) = n.
Proof. induction n as [|n IH]; simpl; [done|]. by rewrite IH. Qed.

Lemma be_Z_acc l : forall acc,
  fold_left (fun acc b => 256 * acc + byte_Z b) l acc
  = acc * 256 ^ zlen l + be_Z l.
Proof.
  unfold be_Z. induction l as [|b l IH]; intros acc; cbn [fold_left].
  - change (zlen []) with 0. lia.
  - rewrite IH, (IH (256 * 0 + byte_Z b)), zlen_cons.
    rewrite Z.pow_add_r by (auto with sf || lia). lia.
Qed.

Lemma be_Z_cons b l : be_Z (b :: l) = byte_Z b * 256 ^ zlen l + be_Z l.
Proof. unfold be_Z at 1. cbn [fold_left]. rewrite be_Z_acc. lia. Qed.

Lemma be_Z_range l : 0 <= be_Z l < 256 ^ zlen l.
Proof.
  induction l as [|b l IH]; [done|].
  rewrite be_Z_cons, zlen_cons, Z.pow_add_r by (auto with sf || lia).
  pose proof (byte_Z_range b). nia.
Qed.

Lemma be_Z_be_bytes n z : be_Z (be_bytes n z) = z mod 256 ^ Z.of_nat n.
Proof.
  induction n as [|n IH]; [simpl; by rewrite Z.mod_1_r|].
  cbn [be_bytes]. rewrite be_Z_cons, IH, byte_Z_of_Z.
  unfold zlen. rewrite length_be_bytes, Nat2Z.inj_succ, Z.pow_succ_r by lia.
  rewrite Z.shiftr_div_pow2 by lia.
  replace (2 ^ (8 * Z.of_nat n)) with (256 ^ Z.of_nat n)
    by (rewrite Z.pow_mul_r by lia; done).
  pose proof (Z.pow_pos_nonneg 256 (Z.of_nat n) ltac:(lia) ltac:(lia)).
  rewrite (Z.mul_comm 256), Z.rem_mul_r by lia. lia.
Qed.

Lemma be_bytes_mod n z m :
  Z.of_nat n <= m -> be_bytes n (z mod 256 ^ m) = be_bytes n z.
Proof.
  induction n as [|n IH]; intros Hm; [done|]. cbn [be_bytes]. rewrite IH by lia. f_equal.
  apply byte_Z_inj. rewrite !byte_Z_of_Z, !Z.shiftr_div_pow2 by lia.
  apply Z.bits_inj'. intros i Hi. change 256 with (2 ^ 8).
  rewrite <- Z.pow_mul_r, <- !Z.shiftr_div_pow2, <- !Z.land_ones by lia.
  rewrite !Z.land_spec, !Z.shiftr_spec, Z.land_spec, !Z.testbit_ones_nonneg by lia.
  destruct (Z.ltb_spec i 8); [|by rewrite !andb_false_r].
  replace (i + 8 * Z.of_nat n <? 8 * m) with true by (symmetry; apply Z.ltb_lt; lia).
  by rewrite andb_true_r.
Qed.

Lemma be_bytes_be_Z n l : length l = n -> be_bytes n (be_Z l) = l.
Proof.
  revert n. induction l as [|b l IH]; intros [|n] Hn; simplify_eq/=; [done|].
  rewrite be_Z_cons. unfold zlen. f_equal.
  - apply byte_Z_inj. rewrite byte_Z_of_Z, Z.shiftr_div_pow2 by lia.
    rewrite Z.pow_mul_r by lia. change (2 ^ 8) with 256.
    pose proof (be_Z_range l). unfold zlen in *.
    rewrite Z.div_add_l, Z.div_small, Z.add_0_r by lia. apply Z.mod_small, byte_Z_range.
  - rewrite <- (be_bytes_mod (length l) _ (Z.of_nat (length l))) by lia.
    rewrite Z.add_comm, Z.mod_add, be_bytes_mod by lia. by apply IH.
Qed.

Lemma be_bytes_inj n a b :
  0 <= a < 256 ^ Z.of_nat n -> 0 <= b < 256 ^ Z.of_nat n ->
  be_bytes n a = be_bytes n b -> a = b.
Proof.
  intros Ha Hb H. apply (f_equal be_Z) in H. rewrite !be_Z_be_bytes in H.
  by rewrite !Z.mod_small in H.
Qed.

Lemma be_bytes4_inj a b :
  u32_range a -> u32_range b -> be_bytes 4 a = be_bytes 4 b -> a = b.
Proof. unfold u32_range, U32_MAX. intros. apply (be_bytes_inj 4); simpl; lia || done. Qed.

Lemma be_bytes8_inj a b :
  u64_range a -> u64_range b -> be_bytes 8 a = be_bytes 8 b -> a = b.
Proof. unfold u64_range, U64_MAX. intros. apply (be_bytes_inj 8); simpl; lia || done. Qed.

Lemma le_Z_range l : 0 <= le_Z l < 256 ^ zlen l.
Proof.
  induction l as [|b l IH]; [done|].
  rewrite zlen_cons, Z.pow_add_r by (auto with sf || lia). simpl.
  pose proof (byte_Z_range b). lia.
Qed.

(** Linear arithmetic with division and remainder by constants. *)
Ltac lia_mod := Z.div_mod_to_equations; lia.

(** ** Errors and results

    [io::Error] is its kind and its message; [io::Result] is a sum. *)

Inductive ErrorKind :=
  | NotFound | PermissionDenied | InvalidInput | InvalidData | UnexpectedEof
  | Interrupted | WouldBlock | TimedOut | WriteZero | BrokenPipe | AlreadyExists
  | Unsupported | Other.

#[export] Instance ErrorKind_eq_dec : EqDecision ErrorKind.
Proof. solve_decision. Defined.

Record io_error := IoError { error_kind : ErrorKind; error_message : string }.

#[export] Instance io_error_eq_dec : EqDecision io_error.
Proof. solve_decision. Defined.

(** An [io::Error] with its [raw_os_error]. *)
Record RawError := Raw { raw_error : io_error; raw_os_error : option Z }.
Definition no_errno (e : io_error) : RawError := Raw e None.

Inductive result (A : Type) :=
  | Ok (a : A)
  | Err (e : io_error).
Arguments Ok {A} a.
Arguments Err {A} e.

#[export] Instance result_eq_dec {A} `{EqDecision A} : EqDecision (result A).
Proof. solve_decision. Defined.

(** The [?] operator. *)
#[export] Instance result_bind : MBind result := fun A B f r =>
  match r with Ok a => f a | Err e => Err e end.
#[export] Instance result_ret : MRet result := @Ok.

Definition map_err {A} (f : io_error -> io_error) (r : result A) : result A :=
  match r with Ok a => Ok a | Err e => Err (f e) end.

Definition ok_or {A} (o : option A) (e : io_error) : result A :=
  match o with Some a => Ok a | None => Err e end.

Definition is_ok {A} (r : result A) : bool := match r with Ok _ => true | Err _ => false end.

(** [io::Error::new(InvalidInput, message)], the [invalid] helper that
    [scenario.rs], [workload/root.rs] and [diagnostics.rs] each define, and the
    [InvalidData] variant of [run.rs]. *)
Definition invalid (message : string) : io_error := IoError InvalidInput message.
Definition invalid_data (message : string) : io_error := IoError InvalidData message.

Lemma bind_Ok {A B} (r : result A) (f : A -> result B) b :
  (r ≫= f) = Ok b <-> exists a, r = Ok a /\ f a = Ok b.
Proof.
  destruct r; simpl; split; [by eauto|by intros (?&[= ->]&?)|done|by intros (?&?&?)].
Qed.

(** Every error of [r] is of kind [k]. *)
Definition fails_with {A} (k : ErrorKind) (r : result A) : Prop :=
  forall e, r = Err e -> e.(error_kind) = k.

Lemma fails_with_bind {A B} k (r : result A) (f : A -> result B) :
  fails_with k r -> (forall a, fails_with k (f a)) -> fails_with k (r ≫= f).
Proof. intros Hr Hf e. destruct r as [a|e']; cbn; [apply Hf|]. intros [= ->]. by apply Hr. Qed.

(** Take apart a hypothesis saying that a guarded computation returned [Ok]. *)
Ltac inv_ok_step H :=
  lazymatch type of H with
  | Ok _ = Ok _ => injection H as H
  | Err _ = Ok _ => discriminate H
  | (_ ≫= _) = Ok _ =>
      apply bind_Ok in H; let a := fresh "a" in let Ha := fresh "Ha" in
      destruct H as (a & Ha & H)
  | (if ?c then _ else _) = Ok _ =>
      let E := fresh "E" in destruct c eqn:E; try discriminate H
  | (match ?c with _ => _ end) = Ok _ =>
      let E := fresh "E" in destruct c eqn:E; try discriminate H
  end.
Ltac inv_ok H := repeat (inv_ok_step H).

(** Turn boolean tests in the context into propositions. *)
Ltac bool_facts :=
  repeat match goal with
  | H : bool_decide _ = true |- _ => apply bool_decide_eq_true in H
  | H : bool_decide _ = false |- _ => apply bool_decide_eq_false in H
  | H : negb _ = true |- _ => apply negb_true_iff in H
  | H : negb _ = false |- _ => apply negb_false_iff in H
  | H : (_ && _)%bool = true |- _ =>
      apply andb_true_iff in H; destruct H
  | H : (_ || _)%bool = false |- _ =>
      apply orb_false_iff in H; destruct H
  | H : (_ <=? _) = true |- _ => apply Z.leb_le in H
  | H : (_ <=? _) = false |- _ => apply Z.leb_gt in H
  | H : (_ <? _) = true |- _ => apply Z.ltb_lt in H
  | H : (_ <? _) = false |- _ => apply Z.ltb_ge in H
  | H : (_ =? _) = true |- _ => apply Z.eqb_eq in H
  | H : (_ =? _) = false |- _ => apply Z.eqb_neq in H
  end.

Lemma lookup_map {A B} (f : A -> B) (l : list A) i : map f l !! i = f <$> l !! i.
Proof. apply list_lookup_fmap. Qed.

(** Induction two elements at a time. *)
Lemma list_pair_ind {A} (P : list A -> Prop) :
  P [] -> (forall a, P [a]) -> (forall a b l, P l -> P (a :: b :: l)) -> forall l, P l.
Proof.
  intros H0 H1 H2. fix IH 1. intros [|a [|b l]]; [exact H0|apply H1|]. apply H2, IH.
Qed.

(** ** Iterator adaptors *)

(** [iter().find_map(f)]. *)
Fixpoint find_map {A B} (f : A -> option B) (l : list A) : option B :=
  match l with
  | [] => None
  | x :: l => match f x with Some y => Some y | None => find_map f l end
  end.

(** [iter().position(f)]. *)
Fixpoint position {A} (f : A -> bool) (l : list A) : option nat :=
  match l with
  | [] => None
  | x :: l => if f x then Some O else S <$> position f l
  end.

(** [iter().rposition(f)]. *)
Definition rposition {A} (f : A -> bool) (l : list A) : option nat :=
  (fun i => length l - 1 - i)%nat <$> position f (rev l).

Lemma find_map_Some {A B} (f : A -> option B) l y :
  find_map f l = Some y <->
  exists l1 x l2, l = l1 ++ x :: l2 /\ f x = Some y /\ Forall (fun z => f z = None) l1.
Proof.
  induction l as [|x l IH]; simpl.
  - split; [done|]. intros ([|? ?]&?&?&?&?); done.
  - destruct (f x) eqn:E.
    + split.
      * intros [= ->]. exists [], x, l. by repeat split.
      * intros ([|z l1]&x'&l2&Hl&Hf&Hall); simplify_eq/=; [congruence|].
        inversion Hall; congruence.
    + rewrite IH. split.
      * intros (l1&x'&l2&->&Hf&Hall). exists (x :: l1), x', l2. by repeat constructor.
      * intros ([|z l1]&x'&l2&Hl&Hf&Hall); simplify_eq/=.
        inversion Hall; subst. eauto 8.
Qed.

Lemma find_map_None {A B} (f : A -> option B) l :
  find_map f l = None <-> Forall (fun z => f z = None) l.
Proof.
  induction l as [|x l IH]; simpl; [by split|].
  rewrite Forall_cons_iff, <- IH. destruct (f x); naive_solver.
Qed.

Lemma find_map_In {A B} (f : A -> option B) l y :
  find_map f l = Some y -> exists x, In x l /\ f x = Some y.
Proof.
  intros (l1&x&l2&->&?&?)%find_map_Some. exists x. split; [|done].
  apply in_or_app. simpl. auto.
Qed.

Lemma find_map_is_Some {A B} (f : A -> option B) l :
  is_Some (find_map f l) <-> exists x, In x l /\ is_Some (f x).
Proof.
  induction l as [|x l IH]; simpl.
  - split; [intros [? [=]]|naive_solver].
  - destruct (f x) eqn:E; [naive_solver|]. rewrite IH. split.
    + naive_solver.
    + intros (x'&[->|?]&?); [rewrite E in *; by destruct H|eauto].
Qed.

Lemma find_map_ext {A B} (f g : A -> option B) l :
  (forall x, In x l -> f x = g x) -> find_map f l = find_map g l.
Proof.
  induction l as [|x l IH]; intros H; simpl; [done|].
  rewrite (H x (or_introl eq_refl)). destruct (g x); [done|].
  apply IH. intros y Hy. apply H. by right.
Qed.

(** Elements on which the searched function answers [None] can be dropped. *)
Lemma find_map_filter {A B} (p : A -> bool) (f : A -> option B) l :
  (forall x, p x = false -> f x = None) ->
  find_map f (List.filter p l) = find_map f l.
Proof.
  intros H. induction l as [|x l IH]; simpl; [done|].
  destruct (p x) eqn:E; simpl; [by rewrite IH|]. by rewrite (H x E).
Qed.

Lemma find_as_find_map {A} (p : A -> bool) l :
  List.find p l = find_map (fun x => if p x then Some x else None) l.
Proof. induction l as [|x l IH]; simpl; [done|]. by destruct (p x). Qed.

Lemma find_filter {A} (p q : A -> bool) l :
  (forall x, p x = false -> q x = false) ->
  List.find q (List.filter p l) = List.find q l.
Proof.
  intros H. rewrite !find_as_find_map. apply find_map_filter.
  intros x Hx. by rewrite H.
Qed.

Lemma find_fmap {A B} (g : A -> B) (p : A -> bool) l :
  g <$> List.find p l = find_map (fun x => if p x then Some (g x) else None) l.
Proof. induction l as [|x l IH]; simpl; [done|]. by destruct (p x). Qed.

(** A search sees only the elements it can answer on, and of those only what
    it looks at: [k] is the part of an element the searched functions use, and
    [p] holds for every element they answer on. *)
Lemma find_map_key {A K B} (p : A -> bool) (k : A -> K) (f g : A -> option B) l1 l2 :
  (forall x, p x = false -> f x = None) -> (forall x, p x = false -> g x = None) ->
  (forall x y, k x = k y -> f x = g y) ->
  map k (List.filter p l1) = map k (List.filter p l2) ->
  find_map f l1 = find_map g l2.
Proof.
  intros Hf Hg Hk. rewrite <- (find_map_filter p f l1) by done.
  rewrite <- (find_map_filter p g l2) by done.
  generalize (List.filter p l1) as k1, (List.filter p l2) as k2.
  induction k1 as [|x k1 IH]; intros [|y k2] E; simplify_eq/=; [done|].
  rewrite (Hk x y) by done. destruct (g y); [done|]. by apply IH.
Qed.

Lemma if_Some {A} (b : bool) (x z : A) :
  (if b then Some x else None) = Some z <-> b = true /\ z = x.
Proof. destruct b; naive_solver. Qed.

(** [x] is the first element of [l] with the property [P]. *)
Definition first_such {A} (P : A -> Prop) (l : list A) (x : A) : Prop :=
  exists l1 l2, l = l1 ++ x :: l2 /\ P x /\ Forall (fun z => ~ P z) l1.

Lemma first_such_spec {A} (P : A -> Prop) l x : first_such P l x -> P x /\ In x l.
Proof.
  intros (l1&l2&->&HP&_). split; [done|]. apply in_or_app. simpl. auto.
Qed.

Lemma first_such_ext {A} (P Q : A -> Prop) l x :
  (forall z, P z <-> Q z) -> first_such P l x <-> first_such Q l x.
Proof.
  intros H. unfold first_such. setoid_rewrite H. split; intros (l1&l2&?&?&Hall);
    exists l1, l2; split_and!; try done; (eapply Forall_impl; [|exact Hall]);
    intros z; simpl; rewrite H; done.
Qed.

Lemma find_map_first {A B} (f : A -> option B) (R : A -> B -> Prop) l y :
  (forall x z, f x = Some z <-> R x z) ->
  find_map f l = Some y <-> exists x, first_such (fun x => exists z, R x z) l x /\ R x y.
Proof.
  intros HR. rewrite find_map_Some. unfold first_such. split.
  - intros (l1&x&l2&->&Hf&Hall). apply HR in Hf. exists x. split; [|done].
    exists l1, l2. split_and!; [done|eauto|]. eapply Forall_impl; [|exact Hall].
    intros z Hz [w Hw%HR]. simpl in *. congruence.
  - intros (x&(l1&l2&->&_&Hall)&Hxy). exists l1, x, l2. rewrite HR. split_and!; [done..|].
    eapply Forall_impl; [|exact Hall]. intros z Hz. simpl in *.
    destruct (f z) eqn:E; [|done]. apply HR in E. naive_solver.
Qed.

Lemma find_first {A} (p : A -> bool) (P : A -> Prop) l x :
  (forall x, p x = true <-> P x) -> List.find p l = Some x <-> first_such P l x.
Proof.
  intros HP. rewrite find_as_find_map.
  rewrite (find_map_first _ (fun x z => P x /\ z = x)).
  - unfold first_such. split.
    + intros (x'&(l1&l2&->&_&Hall)&?&->). exists l1, l2. split_and!; [done..|].
      eapply Forall_impl; [|exact Hall]. simpl. naive_solver.
    + intros (l1&l2&->&Hx&Hall). exists x. split; [|done]. exists l1, l2.
      split_and!; [done|by eauto|]. eapply Forall_impl; [|exact Hall]. simpl. naive_solver.
  - intros a z. specialize (HP a). destruct (p a); naive_solver.
Qed.

Lemma find_is_Some {A} (p : A -> bool) l :
  is_Some (List.find p l) <-> exists x, In x l /\ p x = true.
Proof.
  rewrite find_as_find_map, find_map_is_Some. split; intros (x&Hx&H); exists x.
  - destruct (p x); [done|]. by destruct H.
  - rewrite H. eauto.
Qed.

Lemma position_Some {A} (f : A -> bool) l i :
  position f l = Some i <->
  exists l1 x l2, l = l1 ++ x :: l2 /\ length l1 = i /\ f x = true
                  /\ Forall (fun z => f z = false) l1.
Proof.
  revert i. induction l as [|x l IH]; intros i; simpl.
  - split; [done|]. intros ([|? ?]&?&?&?&?); done.
  - destruct (f x) eqn:E.
    + split.
      * intros [= <-]. by exists [], x, l.
      * intros ([|z l1]&x'&l2&Hl&Hn&Hf&Hall); simplify_eq/=; [done|].
        inversion Hall; congruence.
    + split.
      * intros (j&Hj&->)%fmap_Some. apply IH in Hj as (l1&x'&l2&->&<-&?&?).
        exists (x :: l1), x', l2. by repeat constructor.
      * intros ([|z l1]&x'&l2&Hl&Hn&Hf&Hall); simplify_eq/=; [congruence|].
        apply Forall_cons_iff in Hall as [? ?].
        apply fmap_Some. exists (length l1).
        split; [apply IH; eauto 8|done].
Qed.

Lemma position_None {A} (f : A -> bool) l :
  position f l = None <-> Forall (fun z => f z = false) l.
Proof.
  induction l as [|x l IH]; simpl; [by split|].
  rewrite Forall_cons_iff, <- IH. destruct (f x) eqn:E; [naive_solver|].
  destruct (position f l); naive_solver.
Qed.

Lemma rposition_Some {A} (f : A -> bool) l i :
  rposition f l = Some i <->
  exists l1 x l2, l = l1 ++ x :: l2 /\ length l1 = i /\ f x = true
    /\ Forall (fun z => f z = false) l2.
Proof.
  unfold rposition. rewrite fmap_Some. setoid_rewrite position_Some. split.
  - intros (j&(l1&x&l2&Hl&Hj&Hx&Hall)&->). exists (rev l2), x, (rev l1).
    rewrite <- (rev_involutive l), Hl, rev_app_distr. simpl. rewrite <- app_assoc.
    split_and!; [done| |done|by apply Forall_rev].
    rewrite !length_app, !length_rev. simpl. lia.
  - intros (l1&x&l2&->&<-&Hx&Hall). exists (length l2). split.
    + exists (rev l2), x, (rev l1). rewrite rev_app_distr. simpl. rewrite <- app_assoc.
      split_and!; [done|by rewrite length_rev|done|by apply Forall_rev].
    + rewrite length_app. simpl. lia.
Qed.

Lemma rposition_None {A} (f : A -> bool) l :
  rposition f l = None <-> Forall (fun z => f z = false) l.
Proof.
  unfold rposition. rewrite fmap_None, position_None. split; intros H; [|by apply Forall_rev].
  rewrite <- (rev_involutive l). by apply Forall_rev.
Qed.

(** ** Splitting and joining byte strings *)

(** [slice.split(|b| b == sep)]: always at least one piece. *)
Fixpoint split_on (sep : byte) (l : bytes) : list bytes :=
  match l with
  | [] => [[]]
  | b :: l =>
      if bool_decide (b = sep) then [] :: split_on sep l
      else match split_on sep l with
           | [] => [[b]]
           | p :: ps => (b :: p) :: ps
           end
  end.

(** [parts.join(&sep)]. *)
Fixpoint join_with (sep : byte) (parts : list bytes) : bytes :=
  match parts with
  | [] => []
  | [p] => p
  | p :: ps => p ++ sep :: join_with sep ps
  end.

(** [slice.starts_with(p)]. *)
Fixpoint starts_with (p l : bytes) : bool :=
  match p, l with
  | [], _ => true
  | _ :: _, [] => false
  | a :: p, b :: l => bool_decide (a = b) && starts_with p l
  end.

(** [slice.contains(&b)]. *)
Definition contains_byte (b : byte) (l : bytes) : bool :=
  existsb (fun c => bool_decide (c = b)) l.

Lemma split_on_ne sep l : split_on sep l <> [].
Proof. destruct l; simpl; [done|]. case_bool_decide; [done|]. by destruct (split_on sep l). Qed.

Lemma split_on_cons_ne sep b l :
  b <> sep ->
  exists p ps, split_on sep l = p :: ps /\ split_on sep (b :: l) = (b :: p) :: ps.
Proof.
  intros Hb. simpl. rewrite bool_decide_eq_false_2 by done.
  destruct (split_on sep l) as [|p ps] eqn:E; [by apply split_on_ne in E|eauto].
Qed.

Lemma join_split sep l : join_with sep (split_on sep l) = l.
Proof.
  induction l as [|b l IH]; [done|]. destruct (decide (b = sep)) as [->|Hb].
  - simpl. rewrite bool_decide_eq_true_2 by done.
    destruct (split_on sep l) eqn:E; [by apply split_on_ne in E|]. simpl in *. by rewrite IH.
  - destruct (split_on_cons_ne sep b l Hb) as (p&ps&Hs&->).
    rewrite Hs in IH. by destruct ps; simpl in *; rewrite IH.
Qed.

Lemma split_on_no_sep sep l : Forall (fun p => sep ∉ p) (split_on sep l).
Proof.
  induction l as [|b l IH].
  - simpl. repeat constructor. set_solver.
  - destruct (decide (b = sep)) as [->|Hb].
    + simpl. rewrite bool_decide_eq_true_2 by done. constructor; [set_solver|done].
    + destruct (split_on_cons_ne sep b l Hb) as (p&ps&Hs&->).
      rewrite Hs in IH. inversion IH; subst. constructor; [set_solver|done].
Qed.

Lemma split_on_piece sep p : sep ∉ p -> split_on sep p = [p].
Proof.
  induction p as [|b p IH]; intros H; [done|]. simpl.
  rewrite bool_decide_eq_false_2 by set_solver. by rewrite IH by set_solver.
Qed.

Lemma split_on_app sep p l :
  sep ∉ p -> split_on sep (p ++ sep :: l) = p :: split_on sep l.
Proof.
  induction p as [|b p IH]; intros H; simpl.
  - by rewrite bool_decide_eq_true_2.
  - rewrite bool_decide_eq_false_2 by set_solver. by rewrite IH by set_solver.
Qed.

Lemma split_join sep ps :
  ps <> [] -> Forall (fun p => sep ∉ p) ps -> split_on sep (join_with sep ps) = ps.
Proof.
  induction ps as [|p ps IH]; intros Hne Hall; [done|]. inversion Hall; subst.
  destruct ps as [|q ps]; [by apply split_on_piece|].
  change (join_with sep (p :: q :: ps)) with (p ++ sep :: join_with sep (q :: ps)).
  rewrite split_on_app by done. by rewrite IH.
Qed.

Lemma starts_with_iff p l : starts_with p l = true <-> exists r, l = p ++ r.
Proof.
  revert l. induction p as [|a p IH]; intros l; simpl; [naive_solver|].
  destruct l as [|b l]; [naive_solver|].
  rewrite andb_true_iff, bool_decide_eq_true, IH. naive_solver.
Qed.

Lemma starts_with_app p r : starts_with p (p ++ r) = true.
Proof. apply starts_with_iff. eauto. Qed.

Lemma contains_byte_iff b l : contains_byte b l = true <-> b ∈ l.
Proof.
  unfold contains_byte. rewrite existsb_exists, list_elem_of_In. split.
  - intros (x&?&->%bool_decide_eq_true). done.
  - intros. exists b. by rewrite bool_decide_eq_true.
Qed.

Lemma contains_byte_false b l : contains_byte b l = false <-> b ∉ l.
Proof. rewrite <- contains_byte_iff. by destruct (contains_byte b l). Qed.

(** ** Formatting

    The [format!] directives the program uses: ["{}"] on integers,
    ["{:04}"], ["{:016x}"] and ["{:08x}"].  The widths of the hexadecimal
    directives equal the number of digits of their integer types, so exactly
    [n] digits are printed. *)

Definition DIGITS : bytes := as_bytes "0123456789abcdef".
Definition hex_char (v : Z) : byte := nth (Z.to_nat v) DIGITS Byte.x00.

(** ["{}"] of an integer. *)
Definition fmt_dec (z : Z) : string := pretty z.

(** ["{:0w}"] of an unsigned integer: at least [w] characters, zero-filled. *)
Definition fmt_pad (w : nat) (z : Z) : string :=
  let digits := as_bytes (fmt_dec z) in
  str_of (repeat "0"%byte (w - length digits) ++ digits).

(** ["{:0nx}"] of an unsigned integer of [4 * n] bits. *)
Fixpoint hex_digits (n : nat) (z : Z) : bytes :=
  match n with
  | O => []
  | S n => hex_char (Z.land (Z.shiftr z (4 * Z.of_nat n)) 15) :: hex_digits n z
  end.
Definition fmt_hex (n : nat) (z : Z) : string := str_of (hex_digits n z).

(** ["{}"] of a Boolean. *)
Definition fmt_bool (b : bool) : string := if b then "true" else "false".

Definition lower_hex (b : byte) : bool :=
  ((48 <=? byte_Z b) && (byte_Z b <=? 57)) || ((97 <=? byte_Z b) && (byte_Z b <=? 102)).

Lemma nibble_cases (P : Z -> Prop) :
  P 0 -> P 1 -> P 2 -> P 3 -> P 4 -> P 5 -> P 6 -> P 7 ->
  P 8 -> P 9 -> P 10 -> P 11 -> P 12 -> P 13 -> P 14 -> P 15 ->
  forall v, 0 <= v < 16 -> P v.
Proof.
  intros. assert (v = 0 \/ v = 1 \/ v = 2 \/ v = 3 \/ v = 4 \/ v = 5 \/ v = 6 \/ v = 7 \/
    v = 8 \/ v = 9 \/ v = 10 \/ v = 11 \/ v = 12 \/ v = 13 \/ v = 14 \/ v = 15) as Hv by lia.
  by repeat destruct Hv as [->|Hv]; subst.
Qed.

Lemma hex_char_lower v : 0 <= v < 16 -> lower_hex (hex_char v) = true.
Proof.
  revert v. apply (nibble_cases (fun v => lower_hex (hex_char v) = true)); reflexivity.
Qed.

Lemma land_15_range z : 0 <= Z.land z 15 < 16.
Proof. change 15 with (Z.ones 4). rewrite Z.land_ones by lia. by apply Z.mod_pos_bound. Qed.

Lemma length_hex_digits n z : length (hex_digits n z) = n.
Proof. induction n as [|n IH]; simpl; [done|]. by rewrite IH. Qed.

Lemma hex_digits_lower n z : Forall (fun b => lower_hex b = true) (hex_digits n z).
Proof.
  induction n as [|n IH]; simpl; constructor; [|done].
  apply hex_char_lower, land_15_range.
Qed.

(** ** Ordered maps

    A [BTreeMap] is a finite map whose iteration order is the key order.
    Byte-string keys are ordered lexicographically, as [Vec<u8>] is. *)

Fixpoint bytes_leb (a b : bytes) : bool :=
  match a, b with
  | [], _ => true
  | _ :: _, [] => false
  | x :: a, y :: b =>
      (byte_Z x <? byte_Z y) || ((byte_Z x =? byte_Z y) && bytes_leb a b)
  end.

Lemma bytes_leb_total a b : bytes_leb a b = true \/ bytes_leb b a = true.
Proof.
  revert b. induction a as [|x a IH]; intros [|y b]; simpl; [by auto..|].
  rewrite !orb_true_iff, !andb_true_iff, !Z.ltb_lt, !Z.eqb_eq.
  destruct (IH b); destruct (Z.lt_trichotomy (byte_Z x) (byte_Z y)) as [|[|]]; auto with lia.
Qed.

Lemma bytes_leb_trans a b c :
  bytes_leb a b = true -> bytes_leb b c = true -> bytes_leb a c = true.
Proof.
  revert b c. induction a as [|x a IH]; intros [|y b] [|z c]; simpl; try done.
  rewrite !orb_true_iff, !andb_true_iff, !Z.ltb_lt, !Z.eqb_eq.
  intros [?|[? ?]] [?|[? ?]]; [lia..|]. right. split; [lia|eauto].
Qed.

Lemma bytes_leb_antisym a b :
  bytes_leb a b = true -> bytes_leb b a = true -> a = b.
Proof.
  revert b. induction a as [|x a IH]; intros [|y b]; simpl; try done.
  rewrite !orb_true_iff, !andb_true_iff, !Z.ltb_lt, !Z.eqb_eq.
  intros [?|[? ?]] [?|[? ?]]; [lia..|]. f_equal; [by apply byte_Z_inj|auto].
Qed.

(** A decidable total order on keys. *)
Class KeyOrder (K : Type) := {
  key_leb : K -> K -> bool;
  key_leb_total a b : key_leb a b = true \/ key_leb b a = true;
  key_leb_trans a b c : key_leb a b = true -> key_leb b c = true -> key_leb a c = true;
  key_leb_antisym a b : key_leb a b = true -> key_leb b a = true -> a = b;
}.

#[export] Instance bytes_key_order : KeyOrder bytes := {|
  key_leb := bytes_leb;
  key_leb_total := bytes_leb_total;
  key_leb_trans := bytes_leb_trans;
  key_leb_antisym := bytes_leb_antisym |}.

#[export] Program Instance Z_key_order : KeyOrder Z := {| key_leb := Z.leb |}.
Next Obligation. intros. rewrite !Z.leb_le. lia. Qed.
Next Obligation. intros ???. rewrite !Z.leb_le. lia. Qed.
Next Obligation. intros ??. rewrite !Z.leb_le. lia. Qed.

#[export] Program Instance string_key_order : KeyOrder string := {|
  key_leb a b := bytes_leb (as_bytes a) (as_bytes b) |}.
Next Obligation. intros. apply bytes_leb_total. Qed.
Next Obligation. intros ???. apply bytes_leb_trans. Qed.
Next Obligation. intros ?? H1 H2. apply as_bytes_inj. by apply bytes_leb_antisym. Qed.

Section btree.
Context {K : Type} `{Countable K} `{!KeyOrder K} {V : Type}.

Definition entry_le (a b : K * V) : Prop := key_leb a.1 b.1 = true.

#[export] Instance entry_le_dec a b : Decision (entry_le a b).
Proof. unfold entry_le. apply _. Defined.

(** [map.iter()]: the entries in ascending key order. *)
Definition btree_iter (m : gmap K V) : list (K * V) :=
  merge_sort entry_le (map_to_list m).

(** [map.values()] *)
Definition btree_values (m : gmap K V) : list V := map snd (btree_iter m).

Lemma btree_iter_perm m : btree_iter m ≡ₚ map_to_list m.
Proof. apply merge_sort_Permutation. Qed.

Lemma btree_iter_elem m k v : (k, v) ∈ btree_iter m <-> m !! k = Some v.
Proof. rewrite btree_iter_perm. apply elem_of_map_to_list. Qed.

Lemma btree_iter_NoDup m : NoDup (map fst (btree_iter m)).
Proof.
  change (map fst) with (fmap (M:=list) (@fst K V)).
  rewrite btree_iter_perm. apply NoDup_fst_map_to_list.
Qed.

Lemma btree_iter_sorted m : StronglySorted entry_le (btree_iter m).
Proof.
  apply StronglySorted_merge_sort.
  - intros a b c. apply key_leb_trans.
  - intros a b. apply key_leb_total.
Qed.

Lemma btree_iter_inj m1 m2 : btree_iter m1 = btree_iter m2 -> m1 = m2.
Proof.
  intros E. apply map_eq. intros k. apply option_eq. intros v.
  by rewrite <- !btree_iter_elem, E.
Qed.

(** Sorting by distinct keys has one result. *)
Lemma entry_sorted_unique (l l2 : list (K * V)) :
  NoDup (map fst l) -> StronglySorted entry_le l -> StronglySorted entry_le l2 ->
  l ≡ₚ l2 -> l = l2.
Proof.
  revert l2. induction l as [|a l IH]; intros l2 Hnd Hs Hs2 Hp.
  { by apply Permutation_nil in Hp as ->. }
  destruct l2 as [|b l2]; [by apply Permutation_sym, Permutation_nil in Hp|].
  inversion_clear Hs as [|? ? Hs1 Ha]. inversion_clear Hs2 as [|? ? Hs3 Hb].
  assert (a = b) as <-.
  { assert (a ∈ b :: l2) as Hain by (rewrite <- Hp; left).
    assert (b ∈ a :: l) as Hbin by (rewrite Hp; left).
    apply elem_of_cons in Hain as [|Hain]; [done|].
    apply elem_of_cons in Hbin as [|Hbin]; [done|].
    rewrite Forall_forall in Ha, Hb.
    assert (a.1 = b.1) as Hk by (apply key_leb_antisym; [apply Ha|apply Hb]; by apply list_elem_of_In).
    exfalso. inversion_clear Hnd as [|? ? Hnin _]. apply Hnin.
    rewrite Hk. apply list_elem_of_In, in_map, list_elem_of_In. done. }
  f_equal. apply IH; [by inversion Hnd|done..|].
  by apply Permutation_cons_inv in Hp.
Qed.

(** A strongly sorted list of entries with distinct keys is the iteration of
    the map it lists. *)
Lemma btree_iter_unique m l :
  NoDup (map fst l) -> StronglySorted entry_le l ->
  (forall k v, (k, v) ∈ l <-> m !! k = Some v) -> l = btree_iter m.
Proof.
  intros Hnd Hs Hl. apply entry_sorted_unique; [done..|apply btree_iter_sorted|].
  apply NoDup_Permutation.
  - by apply (NoDup_fmap_1 fst).
  - apply (NoDup_fmap_1 fst). apply btree_iter_NoDup.
  - intros [k v]. by rewrite Hl, btree_iter_elem.
Qed.
End btree.

(** ** Formatting

    [str]'s derived [Debug] text: the value in quotes, escaped. *)
Class DebugStr := { debug_str : string -> string }.

(** ** Third-party code

    The [sha2] crate: [Sha256::digest], and its documented output length. *)
Class Sha256 := { sha256_digest : bytes -> bytes }.

Class Sha256Laws `{Sha256} := {
  sha256_digest_length b : length (sha256_digest b) = 32%nat;
}.

