(* ===== verification/Types.v ===== *)
(** The data exchanged between the controller, the guest agent and the
    checkers: the launch identity of [workload/spec.rs], the assertion report of
    [assertions.rs], and the command and event vocabulary of [protocol.rs].
    The Rust modules refer to each other, so their plain data lives in one
    file and the operations in the file of their component. *)

From S2P Require Import Prelude.

(** ** [workload/spec.rs]: the normalized launch identity *)

Record LaunchIdentity := {
  executable : string;
  arguments : list string;
  environment : list string;
  working_directory : string;
  uid : Z;
  gid : Z;
}.

#[export] Instance LaunchIdentity_eq_dec : EqDecision LaunchIdentity.
Proof. solve_decision. Defined.

(** ** [assertions.rs]: the assertion report *)

Inductive AssertionName :=
  | Safety
  | ControlledOutage
  | Restoration
  | BoundedRecovery
  | ProcessSafety
  | ResponseIntegrity.

#[export] Instance AssertionName_eq_dec : EqDecision AssertionName.
Proof. solve_decision. Defined.

Record AssertionResult := {
  name : AssertionName;
  assertion_passed : bool;
  detail : string;
}.

#[export] Instance AssertionResult_eq_dec : EqDecision AssertionResult.
Proof. solve_decision. Defined.

Record AssertionReport := {
  passed : bool;
  assertions : list AssertionResult;
}.

#[export] Instance AssertionReport_eq_dec : EqDecision AssertionReport.
Proof. solve_decision. Defined.

Definition NETWORK_PROFILE : list AssertionName :=
  [Safety; ControlledOutage; Restoration; BoundedRecovery].

Definition WORKLOAD_PROFILE : list AssertionName :=
  [ProcessSafety; ResponseIntegrity; ControlledOutage; Restoration; BoundedRecovery].

(** ** [protocol.rs]: commands and events *)

Inductive RequestPhase := PreOutage | Outage | Recovery.

#[export] Instance RequestPhase_eq_dec : EqDecision RequestPhase.
Proof. solve_decision. Defined.

Inductive OutputStream := Stdout | Stderr.

#[export] Instance OutputStream_eq_dec : EqDecision OutputStream.
Proof. solve_decision. Defined.

Inductive ProcessExit :=
  | Exited (code : Z)
  | Signaled (signal : Z).

#[export] Instance ProcessExit_eq_dec : EqDecision ProcessExit.
Proof. solve_decision. Defined.

Inductive LaunchFailure :=
  | NoRuntime
  | InvocationActive
  | InvocationRepeated
  | Materialization
  | Executable
  | WorkingDirectory
  | Pipe
  | Fork
  | Setup.

#[export] Instance LaunchFailure_eq_dec : EqDecision LaunchFailure.
Proof. solve_decision. Defined.

Inductive RequestError :=
  | AdministrativeProhibited
  | Transport
  | InvalidResponse.

#[export] Instance RequestError_eq_dec : EqDecision RequestError.
Proof. solve_decision. Defined.

Inductive Command :=
  | ConfigureNetwork (interface guest_cidr gateway : string)
  | ActivateOutage (peer_cidr : string)
  | RestoreNetwork (peer_cidr : string)
  | Request (request_id payload : string) (phase : RequestPhase)
  | Check (outage_event_bound liveness_event_bound : Z)
  | Start (invocation : Z) (launch : LaunchIdentity)
  | StdinWrite (invocation offset : Z) (data : string)
  | StdinEof (invocation : Z)
  | Terminate (invocation : Z)
  | Shutdown.

#[export] Instance Command_eq_dec : EqDecision Command.
Proof. solve_decision. Defined.

Record CommandFrame := {
  cmd_protocol_version : Z;
  cmd_command_id : Z;
  command : Command;
}.

#[export] Instance CommandFrame_eq_dec : EqDecision CommandFrame.
Proof. solve_decision. Defined.

Inductive Event :=
  | AgentReady
  | NetworkConfigured (interface guest_cidr gateway : string)
  | OutageActivated (peer_cidr rule : string)
  | NetworkRestored (peer_cidr : string)
  | RequestAttempted (request_id payload : string) (phase : RequestPhase)
  | RequestSucceeded
      (request_id request_payload response_id response_payload : string)
      (phase : RequestPhase)
  | RequestUnavailable
      (request_id : string) (phase : RequestPhase) (error : RequestError)
      (errno : option Z)
  | AssertionsEvaluated (report : AssertionReport)
  | WorkloadStarted (invocation : Z) (launch : LaunchIdentity)
  | InputAccepted (invocation offset nbytes : Z) (eof : bool)
  | TerminationRequested (invocation signal : Z)
  | WorkloadOutput
      (invocation : Z) (stream : OutputStream) (offset sequence : Z) (data : string)
  | WorkloadExited
      (invocation : Z) (exit : ProcessExit) (stdout_bytes : Z)
      (stdout_sha256 : string) (stderr_bytes : Z) (stderr_sha256 : string)
      (frames : Z)
  | LaunchFailed (invocation : Z) (failure : LaunchFailure) (detail : string)
  | CleanupComplete (invocation reaped : Z)
  | AgentStopped.

#[export] Instance Event_eq_dec : EqDecision Event.
Proof. solve_decision. Defined.

Record DiagnosticFields := {
  guest_pid : option Z;
  host_received_at_unix_nanos : option Z;
  temporary_path : option string;
}.

#[export] Instance DiagnosticFields_eq_dec : EqDecision DiagnosticFields.
Proof. solve_decision. Defined.

Record EventFrame := {
  protocol_version : Z;
  event_id : Z;
  command_id : Z;
  event : Event;
  diagnostics : DiagnosticFields;
}.

#[export] Instance EventFrame_eq_dec : EqDecision EventFrame.
Proof. solve_decision. Defined.

Record NormalizedEvent := {
  norm_protocol_version : Z;
  norm_event_id : Z;
  norm_command_id : Z;
  norm_event : Event;
}.

#[export] Instance NormalizedEvent_eq_dec : EqDecision NormalizedEvent.
Proof. solve_decision. Defined.

(** ** [scenario.rs]: scenarios and choice plans *)

Record PlannedRequest := {
  request_id : string;
  payload : string;
}.

#[export] Instance PlannedRequest_eq_dec : EqDecision PlannedRequest.
Proof. solve_decision. Defined.

(** [Scenario] and [WorkloadScenario] carry the same fields; they are separate
    versioned contracts and are validated and planned differently. *)
Record Scenario := {
  version : Z;
  scenario_name : string;
  request_count : Z;
  payload_bytes : Z;
  fixture_peer : string;
  outage_event_bound : Z;
  liveness_event_bound : Z;
  corrupt_responses : bool;
}.

Record WorkloadScenario := {
  w_version : Z;
  w_name : string;
  w_request_count : Z;
  w_payload_bytes : Z;
  w_fixture_peer : string;
  w_outage_event_bound : Z;
  w_liveness_event_bound : Z;
  w_corrupt_responses : bool;
}.

Record ChoicePlan := {
  plan_version : Z;
  plan_seed : Z;
  plan_activation : Z;   (** [outage_activation_request_index] *)
  plan_restoration : Z;  (** [restoration_request_index] *)
  plan_requests : list PlannedRequest;
}.

#[export] Instance ChoicePlan_eq_dec : EqDecision ChoicePlan.
Proof. solve_decision. Defined.

Record WorkloadChoicePlan := {
  w_plan_version : Z;
  seed : Z;
  process_fault_request_index : Z;
  outage_activation_request_index : Z;
  restoration_request_index : Z;
  requests : list PlannedRequest;
}.

#[export] Instance WorkloadChoicePlan_eq_dec : EqDecision WorkloadChoicePlan.
Proof. solve_decision. Defined.
