(* ===== verification/Std.v ===== *)
(** The parts of Rust's standard library that the program's decisions depend
    on: UTF-8 validation and lossy decoding, [IpAddr] parsing, and decimal
    [u32] parsing.  The definitions follow the documented behaviour of
    [core::str], [core::net::parser] and [core::num]. *)

From stdpp Require Import ssreflect.
From Stdlib Require Import Strings.Byte.
From S2P Require Import Prelude.

(** ** UTF-8 *)

Definition between (lo hi : Z) (b : byte) : bool := (lo <=? byte_Z b) && (byte_Z b <=? hi).
Definition is_cont : byte -> bool := between 128 191.

(** What the first character position of a byte string holds: a well-formed
    sequence of [n] bytes, a malformed one whose offending part is [n] bytes
    long ([error_len() == Some(n)]), or a sequence cut off by the end of the
    input ([error_len() == None]). *)
Inductive utf8_status := UWell (n : nat) | UBad (n : nat) | UCut.

(** The continuation bytes [second], [third], [fourth] against their ranges. *)
Definition utf8_tail (ranges : list (Z * Z)) (l : bytes) : utf8_status :=
  (fix go (k : nat) (ranges : list (Z * Z)) (l : bytes) : utf8_status :=
     match ranges with
     | [] => UWell k
     | (lo, hi) :: ranges =>
         match l with
         | [] => UCut
         | b :: l => if between lo hi b then go (S k) ranges l else UBad k
         end
     end) 1%nat ranges l.

Definition utf8_step (b : byte) (l : bytes) : utf8_status :=
  let v := byte_Z b in
  let c := (128, 191) in
  if v <? 128 then UWell 1
  else if between 194 223 b then utf8_tail [c] l
  else if v =? 224 then utf8_tail [(160, 191); c] l
  else if between 225 236 b then utf8_tail [c; c] l
  else if v =? 237 then utf8_tail [(128, 159); c] l
  else if between 238 239 b then utf8_tail [c; c] l
  else if v =? 240 then utf8_tail [(144, 191); c; c] l
  else if between 241 243 b then utf8_tail [c; c; c] l
  else if v =? 244 then utf8_tail [(128, 143); c; c] l
  else UBad 1.

Definition REPLACEMENT : bytes := [Byte.xef; Byte.xbf; Byte.xbd].

(** [str::from_utf8]: [None] on success, otherwise [valid_up_to] and
    [error_len].  Every round consumes at least one byte, so the length of the
    input is enough fuel. *)
Fixpoint utf8_error (fuel : nat) (upto : Z) (l : bytes) : option (Z * option Z) :=
  match fuel, l with
  | _, [] => None
  | O, _ => None
  | S fuel, b :: rest =>
      match utf8_step b rest with
      | UWell n => utf8_error fuel (upto + Z.of_nat n) (drop n l)
      | UBad n => Some (upto, Some (Z.of_nat n))
      | UCut => Some (upto, None)
      end
  end.

Definition utf8_error_text (e : Z * option Z) : string :=
  match e with
  | (upto, Some n) =>
      "invalid utf-8 sequence of " +:+ fmt_dec n +:+ " bytes from index " +:+ fmt_dec upto
  | (upto, None) => "incomplete utf-8 byte sequence from index " +:+ fmt_dec upto
  end.

Definition from_utf8 (l : bytes) : string + string :=
  match utf8_error (length l) 0 l with
  | None => inl (str_of l)
  | Some e => inr (utf8_error_text e)
  end.

(** [String::from_utf8_lossy]. *)
Fixpoint utf8_lossy (fuel : nat) (l : bytes) : bytes :=
  match fuel, l with
  | _, [] => []
  | O, _ => []
  | S fuel, b :: rest =>
      match utf8_step b rest with
      | UWell n => take n l ++ utf8_lossy fuel (drop n l)
      | UBad n => REPLACEMENT ++ utf8_lossy fuel (drop n l)
      | UCut => REPLACEMENT
      end
  end.

Definition from_utf8_lossy (l : bytes) : string := str_of (utf8_lossy (length l) l).

Definition is_ascii (l : bytes) : Prop := Forall (fun b => byte_Z b < 128) l.

Lemma utf8_lossy_ascii l fuel : is_ascii l -> (length l <= fuel)%nat -> utf8_lossy fuel l = l.
Proof.
  intros H. revert fuel. induction H as [|b l Hb Hl IH]; intros fuel Hf; [by destruct fuel|].
  destruct fuel as [|fuel]; simpl in *; [lia|].
  rewrite /utf8_step. rewrite (proj2 (Z.ltb_lt _ _) Hb). simpl. by rewrite drop_0 IH //; lia.
Qed.

Lemma from_utf8_ascii l : is_ascii l -> from_utf8 l = inl (str_of l).
Proof.
  intros Hl. unfold from_utf8. enough (forall fuel n, utf8_error fuel n l = None) as -> by done.
  induction l as [|b l IH]; intros [|fuel] n; try done.
  apply list.Forall_cons in Hl as [Hb Hl]. cbn [utf8_error]. unfold utf8_step.
  rewrite (proj2 (Z.ltb_lt _ _) Hb). cbn [drop]. by apply IH.
Qed.

(** Well-formed text is closed under concatenation. *)
Lemma utf8_tail_app ranges l m n :
  utf8_tail ranges l = UWell n ->
  utf8_tail ranges (l ++ m) = UWell n /\ (n <= S (length l))%nat.
Proof.
  unfold utf8_tail. assert (Hk : forall k : nat, (k <= k + length l)%nat) by lia. revert Hk.
  change (S (length l)) with (1 + length l)%nat. generalize 1%nat as k. revert l.
  induction ranges as [|[lo hi] ranges IH]; intros l k Hk.
  - intros [= <-]. split; [done|apply Hk].
  - destruct l as [|b l]; [done|]. cbn [app]. destruct (between lo hi b); [|done].
    intros Hn. destruct (IH l (S k)) as [Happ Hle]; [intros; lia|done|]. split; [done|]. cbn. lia.
Qed.

Lemma utf8_step_app b l m n :
  utf8_step b l = UWell n -> utf8_step b (l ++ m) = UWell n /\ (n <= S (length l))%nat.
Proof.
  unfold utf8_step. destruct (byte_Z b <? 128); [intros [= <-]; split; [done|lia]|].
  repeat (match goal with |- context [if ?c then _ else _] => destruct c end; [apply utf8_tail_app|]).
  done.
Qed.

Lemma utf8_error_app fuel1 fuel2 fuel upto1 upto2 upto a m :
  utf8_error fuel1 upto1 a = None -> (length a <= fuel1)%nat ->
  utf8_error fuel2 upto2 m = None -> (length m <= fuel2)%nat ->
  utf8_error fuel upto (a ++ m) = None.
Proof.
  intros Ha Hf1 Hm Hf2. revert fuel1 a upto1 upto Ha Hf1.
  induction fuel as [|fuel IH]; intros fuel1 a upto1 upto Ha Hf1; [by destruct (a ++ m)|].
  destruct a as [|b a]; cbn [app].
  - clear Ha Hf1 IH. revert m fuel upto upto2 Hm Hf2. induction fuel2 as [|f IH].
    + intros [|]; cbn; [done|lia].
    + intros [|b l] fuel upto upto2; [done|]. cbn [utf8_error length].
      destruct (utf8_step b l) as [n| |] eqn:E; [|done..]. intros Hm Hf2.
      destruct (drop n (b :: l)) as [|c r] eqn:Ed; [by destruct fuel|].
      destruct fuel as [|fuel]; [done|]. rewrite -Ed. rewrite -Ed in Hm.
      destruct n as [|n].
      { exfalso. revert E. clear. unfold utf8_step. destruct (_ <? _); [done|].
        unfold utf8_tail. repeat (case_match; try done). }
      cbn [drop] in *. rewrite Ed. rewrite Ed in Hm. eapply (IH (c :: r)); [exact Hm|].
      apply (f_equal length) in Ed. rewrite length_drop /= in Ed. cbn. lia.
  - destruct fuel1 as [|fuel1]; [cbn in Hf1; lia|]. cbn [utf8_error] in Ha |- *.
    destruct (utf8_step b a) as [n| |] eqn:E; [|done..].
    apply (utf8_step_app b a m) in E as E'. destruct E' as [-> Hn].
    change (b :: a ++ m) with ((b :: a) ++ m). rewrite drop_app_le; [|done].
    eapply IH; [exact Ha|]. rewrite length_drop. cbn [length] in *.
    destruct n; [|lia]. exfalso. revert E. clear. unfold utf8_step. destruct (_ <? _); [done|].
    unfold utf8_tail. repeat (case_match; try done).
Qed.

Definition utf8_valid (l : bytes) : Prop := utf8_error (length l) 0 l = None.

Lemma from_utf8_valid l : utf8_valid l <-> from_utf8 l = inl (str_of l).
Proof. unfold utf8_valid, from_utf8. by destruct (utf8_error _ _ _). Qed.
Lemma utf8_valid_app a b : utf8_valid a -> utf8_valid b -> utf8_valid (a ++ b).
Proof. intros Ha Hb. by eapply (utf8_error_app (length a) (length b)). Qed.

Lemma from_utf8_lossy_ascii s : is_ascii (as_bytes s) -> from_utf8_lossy (as_bytes s) = s.
Proof. intros. by rewrite /from_utf8_lossy utf8_lossy_ascii // str_of_as_bytes. Qed.

(** ** [IpAddr] parsing *)

Inductive IpAddr := V4 (a b c d : Z) | V6 (groups : list Z).

#[export] Instance IpAddr_eq_dec : EqDecision IpAddr.
Proof. solve_decision. Defined.

(** A parser position is the remaining input. *)
Definition to_digit (radix : Z) (b : byte) : option Z :=
  let v := byte_Z b in
  let d := if between 48 57 b then Some (v - 48)
           else if between 97 102 b then Some (v - 87)
           else if between 65 70 b then Some (v - 55)
           else None in
  match d with
  | Some d => if d <? radix then Some d else None
  | None => None
  end.

Fixpoint read_digits (radix : Z) (l : bytes) : list Z * bytes :=
  match l with
  | b :: rest =>
      match to_digit radix b with
      | Some d => let '(ds, r) := read_digits radix rest in (d :: ds, r)
      | None => ([], l)
      end
  | [] => ([], [])
  end.

Definition digits_value (radix : Z) (ds : list Z) : Z :=
  fold_left (fun acc d => acc * radix + d) ds 0.

(** [read_number(radix, Some(max_digits), allow_zero_prefix)] into an integer
    type whose largest value is [top]. *)
Definition read_number (radix max_digits top : Z) (allow_zero_prefix : bool) (l : bytes)
  : option (Z * bytes) :=
  let '(ds, rest) := read_digits radix l in
  if max_digits <? zlen ds then None
  else
    match ds with
    | [] => None
    | d :: _ =>
        if negb allow_zero_prefix && (d =? 0) && (1 <? zlen ds) then None
        else let v := digits_value radix ds in if v <=? top then Some (v, rest) else None
    end.

Definition read_char (c : byte) (l : bytes) : option bytes :=
  match l with
  | b :: rest => if bool_decide (b = c) then Some rest else None
  | [] => None
  end.

Definition read_octet (l : bytes) : option (Z * bytes) := read_number 10 3 255 false l.

Definition read_ipv4 (l : bytes) : option ((Z * Z * Z * Z) * bytes) :=
  '(a, l) ← read_octet l; l ← read_char "."%byte l;
  '(b, l) ← read_octet l; l ← read_char "."%byte l;
  '(c, l) ← read_octet l; l ← read_char "."%byte l;
  '(d, l) ← read_octet l;
  Some ((a, b, c, d), l).

(** [read_groups] into a slice of [limit] groups; [i] groups are read so far.
    The Boolean says that an embedded IPv4 address ended the sequence. *)
Fixpoint read_groups (left : nat) (i : nat) (l : bytes) : list Z * bool * bytes :=
  match left with
  | O => ([], false, l)
  | S left' =>
      let at_sep := if (i =? 0)%nat then Some l else read_char ":"%byte l in
      let v4 := match left' with O => None | S _ => at_sep ≫= read_ipv4 end in
      match v4 with
      | Some ((a, b, c, d), r) => ([a * 256 + b; c * 256 + d], true, r)
      | None =>
          match at_sep ≫= read_number 16 4 65535 true with
          | Some (g, r) =>
              let '(gs, v4, r) := read_groups left' (S i) r in (g :: gs, v4, r)
          | None => ([], false, l)
          end
      end
  end.

Definition read_ipv6 (l : bytes) : option (list Z * bytes) :=
  let '(head, head_ipv4, l) := read_groups 8 0 l in
  if (length head =? 8)%nat then Some (head, l)
  else if head_ipv4 then None
  else
    l ← read_char ":"%byte l; l ← read_char ":"%byte l;
    let '(tail, _, l) := read_groups (8 - (length head + 1)) 0 l in
    Some (head ++ repeat 0 (8 - length head - length tail) ++ tail, l).

(** [str::parse::<IpAddr>]: IPv4 first, then IPv6, and the whole input must be
    consumed. *)
Definition parse_ip (s : string) : option IpAddr :=
  match read_ipv4 (as_bytes s) with
  | Some ((a, b, c, d), []) => Some (V4 a b c d)
  | Some (_, _ :: _) => None
  | None =>
      match read_ipv6 (as_bytes s) with
      | Some (groups, []) => Some (V6 groups)
      | _ => None
      end
  end.

Example parse_ip_examples :
  parse_ip "10.0.2.2" = Some (V4 10 0 2 2) /\ parse_ip "010.0.2.2" = None /\
  parse_ip "::1" = Some (V6 [0; 0; 0; 0; 0; 0; 0; 1]) /\ parse_ip "10.0.2.256" = None /\
  parse_ip "::ffff:10.0.2.2" = Some (V6 [0; 0; 0; 0; 0; 65535; 2560; 514]).
Proof. vm_compute. auto 6. Qed.

Lemma to_digit_dec b d : to_digit 10 b = Some d -> 0 <= d < 10 /\ b = byte_of_Z (48 + d).
Proof.
  unfold to_digit. destruct (between 48 57 b) eqn:E1.
  - unfold between in E1. bool_facts. destruct (Z.ltb_spec (byte_Z b - 48) 10); [|done]. intros [= <-]. split; [lia|].
    replace (48 + (byte_Z b - 48)) with (byte_Z b) by lia. by rewrite byte_of_Z_byte_Z.
  - destruct (between 97 102 b) eqn:E2.
    { unfold between in E2. bool_facts. destruct (Z.ltb_spec (byte_Z b - 87) 10); [lia|done]. }
    destruct (between 65 70 b) eqn:E3; [|done].
    unfold between in E3. bool_facts. destruct (Z.ltb_spec (byte_Z b - 55) 10); [lia|done].
Qed.

Lemma read_digits_dec l : forall ds rest,
  read_digits 10 l = (ds, rest) ->
  Forall (fun d => 0 <= d < 10) ds /\ l = map (fun d => byte_of_Z (48 + d)) ds ++ rest.
Proof.
  induction l as [|b l IH]; intros ds rest; simpl; [by intros [= <- <-]|].
  destruct (to_digit 10 b) as [d|] eqn:E; [|by intros [= <- <-]].
  destruct (read_digits 10 l) as [ds' r] eqn:Er. intros [= <- <-].
  apply to_digit_dec in E as [? ->]. destruct (IH _ _ eq_refl) as [? ->]. by split; [constructor|].
Qed.

(** The digits of an accepted octet: at most three, no leading zero. *)
Lemma read_octet_digits l v rest :
  read_octet l = Some (v, rest) ->
  exists ds, Forall (fun d => 0 <= d < 10) ds /\ l = map (fun d => byte_of_Z (48 + d)) ds ++ rest
    /\ v = digits_value 10 ds
    /\ ((exists d, ds = [d]) \/ (exists d e, ds = [d; e] /\ d <> 0)
        \/ (exists d e f, ds = [d; e; f] /\ d <> 0)).
Proof.
  unfold read_octet, read_number. destruct (read_digits 10 l) as [ds r] eqn:E.
  apply read_digits_dec in E as [Hds ->].
  destruct (Z.ltb_spec 3 (zlen ds)) as [|Hlen]; [done|].
  destruct ds as [|d ds]; [done|]. destruct (_ && _) eqn:E0; [done|].
  destruct (_ <=? 255); [|done]. intros [= <- <-]. exists (d :: ds). split_and!; [done..|].
  simpl in E0. apply andb_false_iff in E0. rewrite Z.eqb_neq Z.ltb_ge in E0.
  destruct ds as [|e [|f [|g ds]]]; [by eauto| | |].
  - right; left. exists d, e. split; [done|]. destruct E0 as [|E0]; [done|]. by vm_compute in E0.
  - right; right. exists d, e, f. split; [done|]. destruct E0 as [|E0]; [done|]. by vm_compute in E0.
  - rewrite !zlen_cons in Hlen. pose proof (zlen_nonneg ds). lia.
Qed.

Lemma read_octet_value l rest v :
  read_octet l = Some (v, rest) -> v = 10 \/ v = 0 \/ v = 2 ->
  l = as_bytes (fmt_dec v) ++ rest.
Proof.
  intros (ds & Hds & -> & Hv & Hform)%read_octet_digits Hcase. f_equal.
  assert (ds = if v =? 10 then [1; 0] else [v]) as ->.
  { destruct Hform as [(d&->)|[(d&e&->&?)|(d&e&f&->&?)]];
      rewrite ?Forall_cons_iff in Hds; unfold digits_value in Hv; simpl in Hv; destruct_and!;
      destruct (Z.eqb_spec v 10); try lia; repeat f_equal; lia. }
  by destruct Hcase as [->|[->| ->]].
Qed.

Lemma read_char_Some c l rest : read_char c l = Some rest -> l = c :: rest.
Proof. unfold read_char. destruct l; [done|]. case_bool_decide; naive_solver. Qed.

(** The only text that parses to the fixed private peer is its canonical form. *)
Lemma parse_ip_peer s : parse_ip s = Some (V4 10 0 2 2) <-> s = "10.0.2.2"%string.
Proof.
  split; [|by intros ->]. unfold parse_ip.
  destruct (read_ipv4 (as_bytes s)) as [[[[[a b] c] d] r]|] eqn:E.
  2: { destruct (read_ipv6 _) as [[? [|]]|]; done. }
  destruct r; [|done]. intros [= -> -> -> ->]. unfold read_ipv4 in E.
  apply bind_Some in E as ([? ?]&H1&E). apply bind_Some in E as (?&H2%read_char_Some&E).
  apply bind_Some in E as ([? ?]&H3&E). apply bind_Some in E as (?&H4%read_char_Some&E).
  apply bind_Some in E as ([? ?]&H5&E). apply bind_Some in E as (?&H6%read_char_Some&E).
  apply bind_Some in E as ([? ?]&H7&E). simplify_eq.
  apply read_octet_value in H1; [|lia]. apply read_octet_value in H3; [|lia].
  apply read_octet_value in H5; [|lia]. apply read_octet_value in H7; [|lia]. subst.
  apply as_bytes_inj. rewrite H1. reflexivity.
Qed.

(** ** [str] methods

    The patterns searched for are ASCII, so they act on the UTF-8 bytes. *)

Definition is_ascii_digit : byte -> bool := between 48 57.
Definition is_ascii_hexdigit (b : byte) : bool :=
  between 48 57 b || between 97 102 b || between 65 70 b.
Definition is_ascii_alphanumeric (b : byte) : bool :=
  between 48 57 b || between 65 90 b || between 97 122 b.
Definition to_ascii_lowercase (b : byte) : byte :=
  if between 65 90 b then byte_of_Z (byte_Z b + 32) else b.

Fixpoint trim_start_matches (c : byte) (l : bytes) : bytes :=
  match l with
  | b :: rest => if bool_decide (b = c) then trim_start_matches c rest else l
  | [] => []
  end.
Definition trim_end_matches (c : byte) (l : bytes) : bytes := rev (trim_start_matches c (rev l)).
Definition trim_matches (c : byte) (l : bytes) : bytes := trim_end_matches c (trim_start_matches c l).

(** [str::trim_end] on the bytes of valid UTF-8 text, reversed: the characters
    with the Unicode [White_Space] property, of one, two or three bytes. *)
Definition white_1 (b : byte) : bool := between 9 13 b || bool_decide (b = Byte.x20).
Definition white_2 (a b : byte) : bool :=
  bool_decide (a = Byte.xc2) && (bool_decide (b = Byte.x85) || bool_decide (b = Byte.xa0)).
Definition white_3 (a b c : byte) : bool :=
  (bool_decide (a = Byte.xe1) && bool_decide (b = Byte.x9a) && bool_decide (c = Byte.x80))
  || (bool_decide (a = Byte.xe2) && bool_decide (b = Byte.x80)
      && (between 128 138 c || bool_decide (c = Byte.xa8) || bool_decide (c = Byte.xa9)
          || bool_decide (c = Byte.xaf)))
  || (bool_decide (a = Byte.xe2) && bool_decide (b = Byte.x81) && bool_decide (c = Byte.x9f))
  || (bool_decide (a = Byte.xe3) && bool_decide (b = Byte.x80) && bool_decide (c = Byte.x80)).
Fixpoint trim_white (l : bytes) : bytes :=
  match l with
  | [] => []
  | c :: l1 =>
      if white_1 c then trim_white l1
      else match l1 with
           | [] => l
           | b :: l2 =>
               if white_2 b c then trim_white l2
               else match l2 with
                    | [] => l
                    | a :: l3 => if white_3 a b c then trim_white l3 else l
                    end
           end
  end.
Definition trim_end (l : bytes) : bytes := rev (trim_white (rev l)).

(** [Path::file_name]: the last component, unless it is the parent or there is
    none. *)
Definition file_name (path : bytes) : option bytes :=
  match list.last (List.filter (fun p => negb (bool_decide (p = [])) && negb (bool_decide (p = as_bytes ".")))
                     (split_on "/"%byte path)) with
  | Some p => if bool_decide (p = as_bytes "..") then None else Some p
  | None => None
  end.

Fixpoint strip_prefix (p l : bytes) : option bytes :=
  match p, l with
  | [], _ => Some l
  | a :: p, b :: l => if bool_decide (a = b) then strip_prefix p l else None
  | _ :: _, [] => None
  end.

Definition split_once (c : byte) (l : bytes) : option (bytes * bytes) :=
  (fun i => (take i l, drop (S i) l)) <$> position (fun b => bool_decide (b = c)) l.

(** [str::parse] of an unsigned type: an optional plus sign and at least one
    digit, within the width. *)
Definition parse_uint (top : Z) (l : bytes) : option Z :=
  let digits := match l with b :: rest => if bool_decide (b = "+"%byte) then rest else l
                           | [] => [] end in
  match digits with
  | [] => None
  | _ =>
      if forallb is_ascii_digit digits then
        let v := digits_value 10 (map (fun b => byte_Z b - 48) digits) in
        if v <=? top then Some v else None
      else None
  end.
Definition parse_u32 (l : bytes) : option Z := parse_uint U32_MAX l.
Definition parse_u64 (l : bytes) : option Z := parse_uint U64_MAX l.

(** [u8::is_ascii_whitespace], and [split(|b| b.is_ascii_whitespace())]. *)
Definition is_ascii_whitespace (b : byte) : bool :=
  bool_decide (byte_Z b = 32) || bool_decide (byte_Z b = 9) || bool_decide (byte_Z b = 10)
  || bool_decide (byte_Z b = 12) || bool_decide (byte_Z b = 13).
Fixpoint split_by (p : byte -> bool) (l : bytes) : list bytes :=
  match l with
  | [] => [[]]
  | b :: rest =>
      if p b then [] :: split_by p rest
      else match split_by p rest with
           | piece :: pieces => (b :: piece) :: pieces
           | [] => [[b]]
           end
  end.

(** [CString::new]: the bytes, or the error of an interior NUL. *)
Definition CString_new (l : bytes) : bytes + string :=
  match position (fun b => bool_decide (b = Byte.x00)) l with
  | Some i => inr ("nul byte found in provided data at position: " +:+ fmt_dec (Z.of_nat i))
  | None => inl l
  end.

(** [Path::join] on the bytes of Unix paths. *)
Definition path_join (base rel : bytes) : bytes :=
  match rel with
  | b :: _ =>
      if bool_decide (b = "/"%byte) then rel
      else match list.last base with
           | None => rel
           | Some c => if bool_decide (c = "/"%byte) then base ++ rel
                       else base ++ "/"%byte :: rel
           end
  | [] => match list.last base with
          | None => []
          | Some c => if bool_decide (c = "/"%byte) then base else base ++ ["/"%byte]
          end
  end.

Lemma strip_prefix_Some p l r : strip_prefix p l = Some r <-> l = p ++ r.
Proof.
  revert l. induction p as [|a p IH]; intros l; simpl.
  - split; [by intros [= ->]|by intros ->].
  - destruct l as [|b l]; [done|]. case_bool_decide; simplify_eq.
    + rewrite IH. naive_solver.
    + naive_solver.
Qed.

Lemma drop_S_app {A} (l : list A) x k : drop (S (length l)) (l ++ x :: k) = k.
Proof. induction l as [|y l IH]; simpl; [by rewrite drop_0|done]. Qed.

Lemma split_once_Some c l a b :
  split_once c l = Some (a, b) <-> l = a ++ c :: b /\ c ∉ a.
Proof.
  unfold split_once. rewrite fmap_Some. setoid_rewrite position_Some. split.
  - intros (i&(l1&x&l2&->&<-&Hx&Hall)&[= -> ->]). apply bool_decide_eq_true in Hx as ->.
    rewrite take_app_length drop_S_app.
    split; [done|]. intros Hc. rewrite list.Forall_forall in Hall.
    specialize (Hall _ Hc). by apply bool_decide_eq_false in Hall.
  - intros [-> Hc]. exists (length a). split.
    + exists a, c, b. split_and!; [done..|by apply bool_decide_eq_true|].
      apply list.Forall_forall. intros x Hx. apply bool_decide_eq_false. by intros ->.
    + by rewrite take_app_length drop_S_app.
Qed.

Lemma split_once_None c l : split_once c l = None <-> c ∉ l.
Proof.
  unfold split_once. rewrite fmap_None position_None list.Forall_forall. split.
  - intros H Hc. specialize (H _ Hc). by apply bool_decide_eq_false in H.
  - intros H x Hx. apply bool_decide_eq_false. by intros ->.
Qed.

Lemma trim_start_matches_spec c l :
  exists n, l = repeat c n ++ trim_start_matches c l /\ head (trim_start_matches c l) <> Some c.
Proof.
  induction l as [|b l [n [E H]]]; [by exists 0%nat|]. simpl. case_bool_decide; subst.
  - exists (S n). simpl. by rewrite {1}E.
  - exists 0%nat. simpl. split; [done|]. congruence.
Qed.
