(* ===== verification/Protocol.v ===== *)
(** The guest protocol of [protocol.rs], with the parser diagnostics of
    [diagnostics.rs]: tags and value-free descriptions of commands and events,
    process exit records, the two frame encodings (length-prefixed and
    line-delimited, the latter with per-byte acknowledgements), and the
    hexadecimal form of exact bytes.

    [serde_json] is third-party: the encoder and decoder of a frame body are
    the methods of the class [Serde], and what the framing relies on of them
    is the class [SerdeLaws]. *)

From stdpp Require Import ssreflect.
From Stdlib Require Import Strings.Byte.
From S2P Require Import Prelude Types.

Definition PROTOCOL_VERSION : Z := 1.
Definition MAX_FRAME_LENGTH : Z := 1024 * 1024.
Definition MAX_REQUEST_DATA_LENGTH : Z := 64 * 1024.
Definition SERIAL_ACK : byte := Byte.x00.
Definition MAX_STDIN_FRAME_BYTES : Z := 4096.
Definition MAX_OUTPUT_FRAME_BYTES : Z := 4096.
Definition MAX_INVOCATION_INPUT_BYTES : Z := Z.shiftl 16 20.
Definition MAX_INVOCATION_OUTPUT_BYTES : Z := Z.shiftl 16 20.
(** [libc::SIGKILL] *)
Definition TERMINATION_SIGNAL : Z := 9.
(** [libc::EACCES] *)
Definition EACCES : Z := 13.

(** ** Tags and descriptions *)

Definition Command_kind (c : Command) : string :=
  match c with
  | ConfigureNetwork _ _ _ => "configure_network"
  | ActivateOutage _ => "activate_outage"
  | RestoreNetwork _ => "restore_network"
  | Request _ _ _ => "request"
  | Check _ _ => "check"
  | Start _ _ => "start"
  | StdinWrite _ _ _ => "stdin_write"
  | StdinEof _ => "stdin_eof"
  | Terminate _ => "terminate"
  | Shutdown => "shutdown"
  end.

Definition Command_describe (c : Command) : string :=
  match c with
  | Start invocation _ => "start(invocation " +:+ fmt_dec invocation +:+ ")"
  | StdinWrite invocation offset data =>
      "stdin_write(invocation " +:+ fmt_dec invocation +:+ ", offset " +:+ fmt_dec offset
      +:+ ", hex_bytes " +:+ fmt_dec (str_len data) +:+ ")"
  | StdinEof invocation => "stdin_eof(invocation " +:+ fmt_dec invocation +:+ ")"
  | Terminate invocation => "terminate(invocation " +:+ fmt_dec invocation +:+ ")"
  | Request request_id _ _ => "request(request_id " +:+ request_id +:+ ")"
  | c => Command_kind c
  end.

Definition Event_kind (e : Event) : string :=
  match e with
  | AgentReady => "agent_ready"
  | NetworkConfigured _ _ _ => "network_configured"
  | OutageActivated _ _ => "outage_activated"
  | NetworkRestored _ => "network_restored"
  | RequestAttempted _ _ _ => "request_attempted"
  | RequestSucceeded _ _ _ _ _ => "request_succeeded"
  | RequestUnavailable _ _ _ _ => "request_unavailable"
  | AssertionsEvaluated _ => "assertions_evaluated"
  | WorkloadStarted _ _ => "workload_started"
  | InputAccepted _ _ _ _ => "input_accepted"
  | TerminationRequested _ _ => "termination_requested"
  | WorkloadOutput _ _ _ _ _ => "workload_output"
  | WorkloadExited _ _ _ _ _ _ _ => "workload_exited"
  | LaunchFailed _ _ _ => "launch_failed"
  | CleanupComplete _ _ => "cleanup_complete"
  | AgentStopped => "agent_stopped"
  end.

Definition OutputStream_name (s : OutputStream) : string :=
  match s with Stdout => "stdout" | Stderr => "stderr" end.

(** The derived [Debug] forms that [describe] prints. *)
Definition RequestPhase_debug (p : RequestPhase) : string :=
  match p with PreOutage => "PreOutage" | Outage => "Outage" | Recovery => "Recovery" end.

Definition RequestError_debug (e : RequestError) : string :=
  match e with
  | AdministrativeProhibited => "AdministrativeProhibited"
  | Transport => "Transport"
  | InvalidResponse => "InvalidResponse"
  end.

Definition LaunchFailure_debug (f : LaunchFailure) : string :=
  match f with
  | NoRuntime => "NoRuntime"
  | InvocationActive => "InvocationActive"
  | InvocationRepeated => "InvocationRepeated"
  | Materialization => "Materialization"
  | Executable => "Executable"
  | WorkingDirectory => "WorkingDirectory"
  | Pipe => "Pipe"
  | Fork => "Fork"
  | Setup => "Setup"
  end.

Definition option_i32_debug (o : option Z) : string :=
  match o with
  | Some z => "Some(" +:+ fmt_dec z +:+ ")"
  | None => "None"
  end.

Definition ProcessExit_debug (e : ProcessExit) : string :=
  match e with
  | Exited code => "Exited { code: " +:+ fmt_dec code +:+ " }"
  | Signaled signal => "Signaled { signal: " +:+ fmt_dec signal +:+ " }"
  end.

Definition Event_describe (e : Event) : string :=
  match e with
  | WorkloadStarted invocation _ =>
      "workload_started(invocation " +:+ fmt_dec invocation +:+ ")"
  | InputAccepted invocation offset nbytes eof =>
      "input_accepted(invocation " +:+ fmt_dec invocation +:+ ", offset " +:+ fmt_dec offset
      +:+ ", bytes " +:+ fmt_dec nbytes +:+ ", eof " +:+ fmt_bool eof +:+ ")"
  | TerminationRequested invocation signal =>
      "termination_requested(invocation " +:+ fmt_dec invocation
      +:+ ", signal " +:+ fmt_dec signal +:+ ")"
  | WorkloadOutput invocation stream offset sequence data =>
      "workload_output(invocation " +:+ fmt_dec invocation
      +:+ ", stream " +:+ OutputStream_name stream +:+ ", offset " +:+ fmt_dec offset
      +:+ ", sequence " +:+ fmt_dec sequence
      +:+ ", hex_bytes " +:+ fmt_dec (str_len data) +:+ ")"
  | WorkloadExited invocation _ stdout_bytes _ stderr_bytes _ frames =>
      "workload_exited(invocation " +:+ fmt_dec invocation
      +:+ ", stdout_bytes " +:+ fmt_dec stdout_bytes
      +:+ ", stderr_bytes " +:+ fmt_dec stderr_bytes
      +:+ ", frames " +:+ fmt_dec frames +:+ ")"
  | LaunchFailed invocation failure _ =>
      "launch_failed(invocation " +:+ fmt_dec invocation
      +:+ ", failure " +:+ LaunchFailure_debug failure +:+ ")"
  | CleanupComplete invocation reaped =>
      "cleanup_complete(invocation " +:+ fmt_dec invocation
      +:+ ", reaped " +:+ fmt_dec reaped +:+ ")"
  | NetworkConfigured _ _ _ => "network_configured"
  | OutageActivated _ _ => "outage_activated"
  | NetworkRestored _ => "network_restored"
  | RequestAttempted _ _ phase =>
      "request_attempted(phase " +:+ RequestPhase_debug phase +:+ ")"
  | RequestSucceeded _ _ _ _ phase =>
      "request_succeeded(phase " +:+ RequestPhase_debug phase +:+ ")"
  | RequestUnavailable _ phase error errno =>
      "request_unavailable(phase " +:+ RequestPhase_debug phase
      +:+ ", error " +:+ RequestError_debug error
      +:+ ", errno " +:+ option_i32_debug errno +:+ ")"
  | AssertionsEvaluated report =>
      "assertions_evaluated(passed " +:+ fmt_bool report.(passed) +:+ ")"
  | AgentReady => "agent_ready"
  | AgentStopped => "agent_stopped"
  end.

(** ** Process exit records *)

(** The validation part of the two [deserialize_with] functions: the argument
    is the [i32] serde produced, the error is serde's custom message. *)
Definition deserialize_exit_code (code : Z) : Z + string :=
  if (0 <=? code) && (code <=? 255) then inl code
  else inr "a process exit code must be between 0 and 255"%string.

Definition deserialize_signal (signal : Z) : Z + string :=
  if (1 <=? signal) && (signal <=? 64) then inl signal
  else inr "a process termination signal must be between 1 and 64"%string.

(** The exit records, and the events, that the deserializers accept. *)
Definition exit_readable (e : ProcessExit) : bool :=
  match e with
  | Exited code => match deserialize_exit_code code with inl _ => true | inr _ => false end
  | Signaled signal => match deserialize_signal signal with inl _ => true | inr _ => false end
  end.
Definition event_readable (e : Event) : bool :=
  match e with WorkloadExited _ exit _ _ _ _ _ => exit_readable exit | _ => true end.
Definition frame_readable (f : EventFrame) : Prop := event_readable f.(event) = true.
Definition normalized_readable (e : NormalizedEvent) : Prop := event_readable e.(norm_event) = true.
Definition all_readable {T} (v : T) : Prop := True.

Definition status_code (e : ProcessExit) : Z :=
  match e with
  | Exited code => code
  | Signaled signal => saturating_add_i32 128 signal
  end.

(** ** Event normalization *)

Definition DiagnosticFields_default : DiagnosticFields :=
  {| guest_pid := None; host_received_at_unix_nanos := None; temporary_path := None |}.

Definition DiagnosticFields_is_empty (d : DiagnosticFields) : bool :=
  bool_decide (d = DiagnosticFields_default).

Definition normalize (frame : EventFrame) : NormalizedEvent :=
  {| norm_protocol_version := frame.(protocol_version);
     norm_event_id := frame.(event_id);
     norm_command_id := frame.(command_id);
     norm_event := frame.(event) |}.

Definition require_version (version : Z) : result unit :=
  if version =? PROTOCOL_VERSION then Ok tt
  else Err (invalid_data ("unsupported protocol version " +:+ fmt_dec version)).

(** ** Parser diagnostics ([diagnostics.rs]) *)

Inductive Category := CatIo | CatSyntax | CatData | CatEof.

(** What a [serde_json::Error] exposes, and what a [toml::de::Error] does. *)
Record JsonError := { classify : Category; line : Z; column : Z }.
Record TomlError := { span : option (Z * Z) }.

Definition json_error (context : string) (error : JsonError) : io_error :=
  let category := match error.(classify) with
    | CatIo => "an I/O failure"
    | CatSyntax => "a syntax error"
    | CatData => "a data error"
    | CatEof => "unexpected end of input"
    end in
  invalid (context +:+ ": " +:+ category +:+ " at line " +:+ fmt_dec error.(line)
           +:+ " column " +:+ fmt_dec error.(column)).

Definition toml_error (context : string) (error : TomlError) : io_error :=
  match error.(span) with
  | Some (start, stop) =>
      invalid (context +:+ ": invalid document at byte offset " +:+ fmt_dec start
               +:+ ".." +:+ fmt_dec stop)
  | None => invalid (context +:+ ": invalid document")
  end.

(** ** Readers, writers and frame bodies *)

(** One call of [read] on a one-byte buffer either delivers a byte or fails;
    a reader is what its successive calls deliver, and an exhausted reader
    answers [Ok(0)]. *)
Inductive read_step := RByte (b : byte) | RError (e : io_error).
Notation reader := (list read_step).

Definition is_interrupted (e : io_error) : bool := bool_decide (e.(error_kind) = Interrupted).

(** [impl Write]. *)
Class Write (W : Type) := {
  write_all : W -> bytes -> result unit * W;
  flush : W -> result unit * W;
}.

(** [Vec<u8>] as a writer: it never fails. *)
#[export] Instance Write_vec : Write bytes := {|
  write_all w bs := (Ok tt, w ++ bs);
  flush w := (Ok tt, w) |}.

Definition NEWLINE : byte := "010"%byte.

Class Serde (T : Type) := {
  to_vec : T -> bytes + string;         (** [serde_json::to_vec], its error text *)
  from_slice : bytes -> T + JsonError;  (** [serde_json::from_slice] *)
}.

(** Documented behaviour of [serde_json] on the protocol's types: a value that
    serializes is read back when the type's own [deserialize_with] functions accept
    it ([readable]; every exit record serializes, one out of range is refused), and
    compact output escapes control characters, so it has no raw line feed. *)
Class SerdeLaws (T : Type) (readable : T -> Prop) `{Serde T} := {
  from_to_vec v body : readable v -> to_vec v = inl body -> from_slice body = inl v;
  to_vec_one_line v body : to_vec v = inl body -> NEWLINE ∉ body;
}.

Definition frame_too_long (k : ErrorKind) : io_error := IoError k "frame exceeds maximum length".

Section frames.
Context {T : Type} `{!Serde T}.

Definition write_frame {W} `{!Write W} (writer : W) (value : T) : result unit * W :=
  match to_vec value with
  | inr message => (Err (IoError Other message), writer)
  | inl body =>
      if MAX_FRAME_LENGTH <? zlen body then (Err (frame_too_long InvalidInput), writer)
      else
        match write_all writer (be_bytes 4 (zlen body mod 2 ^ 32)) with
        | (Err e, writer) => (Err e, writer)
        | (Ok _, writer) =>
            match write_all writer body with
            | (Err e, writer) => (Err e, writer)
            | (Ok _, writer) => flush writer
            end
        end
  end.

Definition write_line_frame {W} `{!Write W} (writer : W) (value : T) : result unit * W :=
  match to_vec value with
  | inr message => (Err (IoError Other message), writer)
  | inl body =>
      if MAX_FRAME_LENGTH <? zlen body then (Err (frame_too_long InvalidInput), writer)
      else
        match write_all writer body with
        | (Err e, writer) => (Err e, writer)
        | (Ok _, writer) =>
            match write_all writer [NEWLINE] with
            | (Err e, writer) => (Err e, writer)
            | (Ok _, writer) => flush writer
            end
        end
  end.

(** [serde_json::from_slice(&body).map(Some).map_err(json_error)]. *)
Definition parse_body (body : bytes) : result (option T) :=
  match from_slice body with
  | inl v => Ok (Some v)
  | inr e => Err (json_error "malformed frame" e)
  end.

(** The retry loop around the first byte of [read_frame]. *)
Fixpoint read_first (r : reader) : result (option byte) * reader :=
  match r with
  | [] => (Ok None, [])
  | RByte b :: r => (Ok (Some b), r)
  | RError e :: r => if is_interrupted e then read_first r else (Err e, r)
  end.

(** [Read::read_exact] of a buffer of [n] bytes: it retries interrupted reads
    and reports the end of the input as [UnexpectedEof]. *)
Fixpoint read_exact (n : nat) (acc : bytes) (r : reader) : result bytes * reader :=
  match n with
  | O => (Ok acc, r)
  | S n' =>
      (fix go (r : reader) : result bytes * reader :=
         match r with
         | [] => (Err (IoError UnexpectedEof "failed to fill whole buffer"), [])
         | RByte b :: r => read_exact n' (acc ++ [b]) r
         | RError e :: r => if is_interrupted e then go r else (Err e, r)
         end) r
  end.

Definition read_frame (r : reader) : result (option T) * reader :=
  match read_first r with
  | (Err e, r) => (Err e, r)
  | (Ok None, r) => (Ok None, r)
  | (Ok (Some first), r) =>
      match read_exact 3 [first] r with
      | (Err e, r) => (Err e, r)
      | (Ok prefix, r) =>
          let len := be_Z prefix in
          if MAX_FRAME_LENGTH <? len then (Err (frame_too_long InvalidData), r)
          else
            match read_exact (Z.to_nat len) [] r with
            | (Err e, r) => (Err e, r)
            | (Ok body, r) => (parse_body body, r)
            end
      end
  end.

Definition truncated_line : io_error :=
  IoError UnexpectedEof "truncated line-delimited frame".

Fixpoint read_line_loop (body : bytes) (r : reader) : result (option T) * reader :=
  match r with
  | [] => if bool_decide (body = []) then (Ok None, []) else (Err truncated_line, [])
  | RByte b :: r =>
      if bool_decide (b = NEWLINE) then (parse_body body, r)
      else if MAX_FRAME_LENGTH <=? zlen body then (Err (frame_too_long InvalidData), r)
      else read_line_loop (body ++ [b]) r
  | RError e :: r => if is_interrupted e then read_line_loop body r else (Err e, r)
  end.

Definition read_line_frame (r : reader) : result (option T) * reader := read_line_loop [] r.

Fixpoint read_acknowledged_loop {W} `{!Write W} (body : bytes) (r : reader) (acks : W)
  : result (option T) * reader * W :=
  match r with
  | [] =>
      if bool_decide (body = []) then (Ok None, [], acks) else (Err truncated_line, [], acks)
  | RByte b :: r =>
      match write_all acks [SERIAL_ACK] with
      | (Err e, acks) => (Err e, r, acks)
      | (Ok _, acks) =>
          match flush acks with
          | (Err e, acks) => (Err e, r, acks)
          | (Ok _, acks) =>
              if bool_decide (b = NEWLINE) then (parse_body body, r, acks)
              else if MAX_FRAME_LENGTH <=? zlen body
              then (Err (frame_too_long InvalidData), r, acks)
              else read_acknowledged_loop (body ++ [b]) r acks
          end
      end
  | RError e :: r =>
      if is_interrupted e then read_acknowledged_loop body r acks else (Err e, r, acks)
  end.

Definition read_acknowledged_line_frame {W} `{!Write W} (r : reader) (acks : W)
  : result (option T) * reader * W := read_acknowledged_loop [] r acks.

End frames.

(** ** Exact bytes as lowercase hexadecimal *)

Definition encode_bytes (bs : bytes) : string :=
  str_of (flat_map (fun b =>
    [hex_char (Z.shiftr (byte_Z b) 4); hex_char (Z.land (byte_Z b) 15)]) bs).

Definition hex_digit (b : byte) : result Z :=
  let v := byte_Z b in
  if (48 <=? v) && (v <=? 57) then Ok (v - 48)
  else if (97 <=? v) && (v <=? 102) then Ok (v - 97 + 10)
  else Err (invalid_data "byte frame contains a non-hexadecimal character").

Fixpoint decode_pairs (text : bytes) : result bytes :=
  match text with
  | a :: b :: rest =>
      high ← hex_digit a;
      low ← hex_digit b;
      out ← decode_pairs rest;
      Ok (byte_of_Z (Z.lor (Z.shiftl high 4) low) :: out)
  | _ => Ok []
  end.

Definition decode_bytes (text : string) (limit : Z) : result bytes :=
  let l := as_bytes text in
  if negb (zlen l mod 2 =? 0) || (saturating_mul64 limit 2 <? zlen l)
  then Err (invalid_data ("byte frame must encode at most " +:+ fmt_dec limit +:+ " bytes"))
  else decode_pairs l.

(** ** Properties of the hexadecimal form *)

Lemma hex_digit_char v : 0 <= v < 16 -> hex_digit (hex_char v) = Ok v.
Proof. revert v. apply (nibble_cases (fun v => hex_digit (hex_char v) = Ok v)); reflexivity. Qed.

Lemma hex_digit_Ok b v : hex_digit b = Ok v -> 0 <= v < 16 /\ b = hex_char v.
Proof.
  unfold hex_digit. intros H.
  assert (0 <= v < 16) as Hv by (inv_ok H; bool_facts; lia).
  split; [done|]. apply byte_Z_inj.
  assert (byte_Z b = if v <? 10 then v + 48 else v + 87) as ->.
  { inv_ok H; bool_facts; destruct (Z.ltb_spec v 10); lia. }
  revert v Hv H.
  by apply (nibble_cases (fun v => hex_digit b = Ok v ->
    (if v <? 10 then v + 48 else v + 87) = byte_Z (hex_char v))).
Qed.

Lemma nibbles_join h l :
  0 <= h < 16 -> 0 <= l < 16 -> Z.lor (Z.shiftl h 4) l = 16 * h + l.
Proof.
  intros Hh Hl. rewrite Z.shiftl_mul_pow2 //; try lia.
  revert h Hh. apply nibble_cases; revert l Hl;
    by apply nibble_cases.
Qed.

Lemma byte_nibbles b :
  0 <= Z.shiftr (byte_Z b) 4 < 16 /\ 0 <= Z.land (byte_Z b) 15 < 16 /\
  byte_of_Z (Z.lor (Z.shiftl (Z.shiftr (byte_Z b) 4) 4) (Z.land (byte_Z b) 15)) = b.
Proof.
  pose proof (byte_Z_range b). pose proof (land_15_range (byte_Z b)).
  assert (0 <= Z.shiftr (byte_Z b) 4 < 16).
  { rewrite Z.shiftr_div_pow2 //. change (2 ^ 4) with 16.
    split; [apply Z.div_pos; lia|apply Z.div_lt_upper_bound; lia]. }
  split_and!; [lia..|]. rewrite nibbles_join //.
  change 15 with (Z.ones 4). rewrite Z.land_ones // Z.shiftr_div_pow2 //.
  rewrite -Z_div_mod_eq_full. apply byte_of_Z_byte_Z.
Qed.

Lemma nibbles_byte h l :
  0 <= h < 16 -> 0 <= l < 16 ->
  byte_Z (byte_of_Z (Z.lor (Z.shiftl h 4) l)) = 16 * h + l.
Proof. intros. rewrite byte_Z_of_Z nibbles_join // Z.mod_small //. lia. Qed.

Lemma decode_pairs_Ok text bs :
  zlen text mod 2 = 0 ->
  decode_pairs text = Ok bs <-> text = as_bytes (encode_bytes bs).
Proof.
  rewrite /encode_bytes as_bytes_str_of. revert bs.
  induction text as [| a | a b text IH] using list_pair_ind; intros bs Heven.
  - split; [by intros [= <-]|]. by destruct bs.
  - done.
  - rewrite !zlen_cons in Heven. simpl. rewrite !bind_Ok. split.
    + intros (h & [Hh ->]%hex_digit_Ok & Hr). apply bind_Ok in Hr as (l & [Hl ->]%hex_digit_Ok & Hr).
      apply bind_Ok in Hr as (out & Hout & [= <-]). apply IH in Hout as ->; [|lia_mod].
      simpl. rewrite nibbles_byte // Z.shiftr_div_pow2 //.
      change 15 with (Z.ones 4). rewrite Z.land_ones //. change (2 ^ 4) with 16.
      do 2 f_equal; [|f_equal]; f_equal; lia_mod.
    + destruct bs as [|c bs]; [done|]. simpl. intros [= -> -> ->].
      destruct (byte_nibbles c) as (Hh & Hl & Hc).
      eexists. split; [by apply hex_digit_char|].
      rewrite hex_digit_char //=. rewrite (proj2 (IH bs ltac:(lia_mod))) //= Hc //.
Qed.

Lemma str_len_encode_bytes bs : str_len (encode_bytes bs) = 2 * zlen bs.
Proof.
  rewrite /str_len /encode_bytes as_bytes_str_of.
  induction bs as [|b bs IH]; [done|]. simpl. rewrite !zlen_cons IH. lia.
Qed.

Lemma decode_bytes_spec text limit bs :
  0 <= limit < 2 ^ 63 ->
  decode_bytes text limit = Ok bs <-> text = encode_bytes bs /\ zlen bs <= limit.
Proof.
  intros Hlimit. rewrite /decode_bytes /saturating_mul64 Z.min_l; [|unfold U64_MAX; lia].
  destruct (Z.eqb_spec (zlen (as_bytes text) mod 2) 0) as [He|Ho]; simpl.
  - destruct (Z.ltb_spec (limit * 2) (zlen (as_bytes text))) as [Hlt|Hle].
    + split; [done|]. intros [-> ?]. fold (str_len (encode_bytes bs)) in Hlt.
      rewrite str_len_encode_bytes in Hlt. lia.
    + rewrite decode_pairs_Ok //. split.
      * intros Ht%as_bytes_inj. split; [done|]. subst text.
        fold (str_len (encode_bytes bs)) in Hle. rewrite str_len_encode_bytes in Hle. lia.
      * by intros [-> ?].
  - split; [done|]. intros [-> ?]. fold (str_len (encode_bytes bs)) in Ho.
    rewrite str_len_encode_bytes in Ho. exfalso. apply Ho. rewrite Z.mul_comm. apply Z.mod_mul. lia.
Qed.

(** [decode_bytes] is the exact inverse of [encode_bytes] on byte strings
    within the limit: it accepts a text if and only if the text is the
    lowercase hexadecimal form of at most [limit] bytes, and then returns
    exactly those bytes. *)
Theorem decode_bytes_iff text limit bs :
  0 <= limit < 2 ^ 63 ->
  decode_bytes text limit = Ok bs <-> text = encode_bytes bs /\ zlen bs <= limit.
Proof. apply decode_bytes_spec. Qed.

Lemma decode_bytes_iff_witness :
  decode_bytes "00ff" MAX_OUTPUT_FRAME_BYTES = Ok [Byte.x00; Byte.xff].
Proof. apply decode_bytes_iff; [vm_compute; by split|]. by split. Defined.

(** ** Properties of the frame encodings *)

(** [delivers r bs rest]: reading [bs] byte by byte from [r], retrying
    interrupted reads, leaves the reader [rest]. *)
Inductive delivers : reader -> bytes -> reader -> Prop :=
  | delivers_done r : delivers r [] r
  | delivers_byte b r bs rest : delivers r bs rest -> delivers (RByte b :: r) (b :: bs) rest
  | delivers_retry e r b bs rest :
      is_interrupted e = true -> delivers r (b :: bs) rest ->
      delivers (RError e :: r) (b :: bs) rest.

#[export] Hint Constructors delivers : sf.

Lemma delivers_map bs rest : delivers (map RByte bs ++ rest) bs rest.
Proof. induction bs; simpl; eauto with sf. Qed.

Lemma delivers_app r bs1 bs2 rest :
  delivers r (bs1 ++ bs2) rest <-> exists mid, delivers r bs1 mid /\ delivers mid bs2 rest.
Proof.
  split.
  - remember (bs1 ++ bs2) as bs eqn:E. intros H. revert bs1 bs2 E.
    induction H as [r|b r bs rest H IH|e r b bs rest He H IH]; intros bs1 bs2 E.
    + symmetry in E. apply app_eq_nil in E as [-> ->]. eauto with sf.
    + destruct bs1 as [|c bs1]; simplify_eq/=; [exists (RByte b :: r); eauto with sf|].
      destruct (IH _ _ eq_refl) as (mid&?&?). eauto with sf.
    + destruct bs1 as [|c bs1]; simplify_eq/=; [exists (RError e :: r); eauto with sf|].
      destruct (IH (c :: bs1) bs2 eq_refl) as (mid&?&?). eauto with sf.
  - intros (mid & H1 & H2). induction H1; simpl; eauto with sf.
Qed.

Lemma read_first_Some r b rest : read_first r = (Ok (Some b), rest) <-> delivers r [b] rest.
Proof.
  split.
  - induction r as [|[c|e] r IH]; simpl; [done| |].
    + intros [= -> ->]. eauto with sf.
    + destruct (is_interrupted e) eqn:E; [|done]. eauto with sf.
  - remember [b] as bs eqn:E. induction 1 as [|? ? ? ? H|e ? ? ? ? He]; simplify_eq/=.
    + by inversion H.
    + rewrite He. auto.
Qed.

Lemma read_exact_Ok n : forall acc r out rest,
  read_exact n acc r = (Ok out, rest) <->
  exists bs, length bs = n /\ out = acc ++ bs /\ delivers r bs rest.
Proof.
  induction n as [|n IH]; intros acc r out rest; simpl.
  - split.
    + intros [= <- <-]. exists []. rewrite app_nil_r. eauto with sf.
    + intros ([|? ?]&?&->&H); [|done]. inversion H. by rewrite app_nil_r.
  - induction r as [|[b|e] r IHr].
    + split; [done|]. intros ([|? ?]&?&->&H); [done|]. inversion H.
    + rewrite IH. split.
      * intros (bs&<-&->&?). exists (b :: bs). rewrite -app_assoc. eauto with sf.
      * intros ([|c bs]&?&->&H); [done|]. inversion H; simplify_eq/=.
        exists bs. by rewrite -app_assoc.
    + destruct (is_interrupted e) eqn:E.
      * rewrite IHr. split; intros ([|c bs]&?&->&H); try done; exists (c :: bs);
          (split_and!; [done..|]); [eauto with sf|by inversion H].
      * split; [done|]. intros ([|c bs]&?&->&H); [done|]. inversion H; congruence.
Qed.

Section frame_properties.
Context {T : Type} `{!Serde T}.

Lemma parse_body_Some body (v : T) : parse_body body = Ok (Some v) <-> from_slice body = inl v.
Proof. unfold parse_body. destruct (from_slice body); naive_solver. Qed.

Lemma read_line_loop_Some r : forall body (v : T) rest,
  zlen body <= MAX_FRAME_LENGTH ->
  read_line_loop body r = (Ok (Some v), rest) <->
  exists more, NEWLINE ∉ more /\ zlen (body ++ more) <= MAX_FRAME_LENGTH
               /\ from_slice (body ++ more) = inl v /\ delivers r (more ++ [NEWLINE]) rest.
Proof.
  induction r as [|[b|e] r IH]; intros body v rest Hb; simpl.
  - split; [by case_bool_decide|]. intros (more&_&_&_&H). by destruct more; inversion H.
  - case_bool_decide as Hnl; [subst b|].
    + split.
      * intros [= Hp <-]. apply parse_body_Some in Hp. exists []. rewrite app_nil_r.
        split_and!; [set_solver|done..|]. eauto with sf.
      * intros ([|c more]&Hn&_&Hv&H); simpl in *; inversion H; simplify_eq.
        -- rewrite app_nil_r in Hv. inversion H4; subst. apply parse_body_Some in Hv. congruence.
        -- set_solver.
    + destruct (Z.leb_spec MAX_FRAME_LENGTH (zlen body)) as [Hfull|Hroom].
      * split; [done|]. intros ([|c more]&Hn&Hlen&_&H); inversion H; simplify_eq.
        rewrite zlen_app zlen_cons in Hlen. pose proof (zlen_nonneg more). lia.
      * rewrite IH; [|rewrite zlen_app zlen_cons zlen_nil; lia]. split.
        -- intros (more&?&?&?&?). exists (b :: more). rewrite -app_assoc in H0 H1.
           split_and!; [set_solver|done..|]. simpl. eauto with sf.
        -- intros ([|c more]&Hn&Hlen&Hv&H); inversion H; simplify_eq.
           exists more. rewrite -app_assoc. split_and!; [set_solver|done..].
  - destruct (is_interrupted e) eqn:E.
    + rewrite IH //. split; intros (more&?&?&?&H); exists more; (split_and!; [done..|]).
      * destruct more; simpl in *; eauto with sf.
      * destruct more; simpl in *; by inversion H.
    + split; [done|]. intros (more&?&?&?&H). destruct more; inversion H; congruence.
Qed.

(** The line-delimited reader returns a value exactly when the input
    delivers, up to retried interrupted reads, one line of at most
    [MAX_FRAME_LENGTH] bytes whose body decodes to that value; it consumes the
    line and its terminator and nothing else. *)
Theorem read_line_frame_iff r (v : T) rest :
  read_line_frame r = (Ok (Some v), rest) <->
  exists body, NEWLINE ∉ body /\ zlen body <= MAX_FRAME_LENGTH
               /\ from_slice body = inl v /\ delivers r (body ++ [NEWLINE]) rest.
Proof. by apply (read_line_loop_Some r []). Qed.

(** The length-prefixed reader returns a value exactly when the input
    delivers a four-byte big-endian length of at most [MAX_FRAME_LENGTH]
    followed by that many bytes that decode to the value. *)
Theorem read_frame_iff r (v : T) rest :
  read_frame r = (Ok (Some v), rest) <->
  exists body, zlen body <= MAX_FRAME_LENGTH /\ from_slice body = inl v
               /\ delivers r (be_bytes 4 (zlen body) ++ body) rest.
Proof.
  unfold read_frame. split.
  - destruct (read_first r) as [[[b|]|] r1] eqn:E1; try done.
    destruct (read_exact 3 [b] r1) as [[prefix|] r2] eqn:E2; try done.
    case_match eqn:Hle; [done|]. apply Z.ltb_ge in Hle.
    destruct (read_exact _ [] r2) as [[body|] r3] eqn:E3; try done.
    intros [= Hp <-]. apply parse_body_Some in Hp. apply read_first_Some in E1.
    apply read_exact_Ok in E2 as (p&Hp3&->&E2). apply read_exact_Ok in E3 as (bs&Hbs&->&E3).
    pose proof (be_Z_range ([b] ++ p)) as Hr.
    assert (zlen bs = be_Z ([b] ++ p)) as Hlen by (unfold zlen; lia).
    exists bs. split_and!; [lia|done|].
    apply delivers_app. exists r2. split; [|done].
    replace (be_bytes 4 (zlen bs)) with ([b] ++ p); [by apply delivers_app; eauto|].
    rewrite Hlen. symmetry. by apply be_bytes_be_Z; rewrite /= Hp3.
  - intros (body&Hlen&Hv&H). apply delivers_app in H as (r2&H1&H2).
    pose proof (length_be_bytes 4 (zlen body)) as Hp4.
    destruct (be_bytes 4 (zlen body)) as [|b0 p] eqn:Hpre; [done|].
    change (b0 :: p) with ([b0] ++ p) in H1. apply delivers_app in H1 as (r1&Hb&Hp).
    apply read_first_Some in Hb as ->.
    rewrite (proj2 (read_exact_Ok 3 [b0] r1 ([b0] ++ p) r2)); [|by exists p; simplify_eq/=].
    change ([b0] ++ p) with (b0 :: p). rewrite -Hpre be_Z_be_bytes.
    pose proof (zlen_nonneg body). unfold MAX_FRAME_LENGTH in *.
    rewrite Z.mod_small; [|lia]. case_match eqn:Hlt; [apply Z.ltb_lt in Hlt; lia|].
    rewrite (proj2 (read_exact_Ok _ [] r2 body rest)).
    + by apply parse_body_Some in Hv as ->.
    + exists body. split_and!; [unfold zlen; lia|done|done].
Qed.

Lemma write_line_frame_vec out (v : T) :
  write_line_frame out v =
  match to_vec v with
  | inr message => (Err (IoError Other message), out)
  | inl body =>
      if MAX_FRAME_LENGTH <? zlen body then (Err (frame_too_long InvalidInput), out)
      else (Ok tt, out ++ body ++ [NEWLINE])
  end.
Proof.
  unfold write_line_frame. destruct (to_vec v); [|done]. case_match; [done|]. simpl.
  by rewrite -app_assoc.
Qed.

Lemma write_frame_vec out (v : T) :
  write_frame out v =
  match to_vec v with
  | inr message => (Err (IoError Other message), out)
  | inl body =>
      if MAX_FRAME_LENGTH <? zlen body then (Err (frame_too_long InvalidInput), out)
      else (Ok tt, out ++ be_bytes 4 (zlen body) ++ body)
  end.
Proof.
  unfold write_frame. destruct (to_vec v) as [body|]; [|done]. case_match; [done|].
  cbn -[be_bytes]. change (2 ^ 32) with (256 ^ 4). rewrite be_bytes_mod //.
  by rewrite -app_assoc.
Qed.

(** C16. What the two writers put on the wire is read back: after a successful
    write of a value that its type's deserializers accept (for event frames: an
    exit code from 0 to 255, a signal from 1 to 64) to a buffer, any input
    delivering the appended bytes, however its reads are interrupted, yields the
    written value and leaves the rest of the input untouched.  This holds for the line-delimited and for the
    length-prefixed encoding. *)
Theorem frame_roundtrip (readable : T -> Prop) `{!SerdeLaws T readable} (out out' : bytes) (v : T) :
  readable v ->
  (write_line_frame out v = (Ok tt, out') ->
   exists sent, out' = out ++ sent /\
     forall r rest, delivers r sent rest -> read_line_frame r = (Ok (Some v), rest)) /\
  (write_frame out v = (Ok tt, out') ->
   exists sent, out' = out ++ sent /\
     forall r rest, delivers r sent rest -> read_frame r = (Ok (Some v), rest)).
Proof.
  intros Hread. rewrite write_line_frame_vec write_frame_vec.
  destruct (to_vec v) as [body|] eqn:E; [|by split].
  destruct (Z.ltb_spec MAX_FRAME_LENGTH (zlen body)); [by split|].
  split; intros [= <-]; eexists; (split; [done|]); intros r rest Hr.
  - apply read_line_frame_iff. exists body. split_and!; eauto using from_to_vec, to_vec_one_line.
  - apply read_frame_iff. exists body. split_and!; eauto using from_to_vec.
Qed.

(** Bytes of a reader prefix. *)
Definition read_bytes (r : reader) : bytes :=
  omap (fun s => match s with RByte b => Some b | RError _ => None end) r.

(** On a transport that accepts acknowledgements, the acknowledged reader
    gives the same result and stops at the same point as [read_line_frame],
    and it writes exactly one acknowledgement per byte it consumed, also when
    it fails. *)
Theorem acknowledged_refines_line r acks :
  exists used, r = used ++ (read_line_frame (T := T) r).2 /\
    read_acknowledged_line_frame r acks
    = ((read_line_frame (T := T) r).1, (read_line_frame (T := T) r).2,
       acks ++ repeat SERIAL_ACK (length (read_bytes used))).
Proof.
  unfold read_line_frame, read_acknowledged_line_frame. generalize (@nil byte) as body.
  revert acks. induction r as [|[b|e] r IH]; intros acks body; simpl.
  - exists []. case_bool_decide; simpl; by rewrite app_nil_r.
  - case_bool_decide; [by exists [RByte b]|].
    destruct (MAX_FRAME_LENGTH <=? zlen body); [by exists [RByte b]|].
    destruct (IH (acks ++ [SERIAL_ACK]) (body ++ [b])) as (used&Hr&->).
    exists (RByte b :: used). simpl. rewrite -app_assoc /=. split; [by f_equal|done].
  - destruct (is_interrupted e); [|exists [RError e]; simpl; by rewrite app_nil_r].
    destruct (IH acks body) as (used&Hr&->). exists (RError e :: used). simpl.
    split; [by f_equal|done].
Qed.
End frame_properties.

(** A concrete codec: one ASCII letter per value of a finite table. *)
Definition table_serde {T} `{EqDecision T} (table : list T) : Serde T := {|
  to_vec v :=
    match position (fun u => bool_decide (u = v)) table with
    | Some i => if (Z.of_nat i <? 64) then inl [byte_of_Z (32 + Z.of_nat i)]
                else inr "unsupported"%string
    | None => inr "unsupported"%string
    end;
  from_slice l :=
    match l with
    | [b] => match table !! Z.to_nat (byte_Z b - 32) with
             | Some v => inl v
             | None => inr {| classify := CatSyntax; line := 1; column := 1 |}
             end
    | _ => inr {| classify := CatSyntax; line := 1; column := 1 |}
    end |}.

Lemma table_serde_to_vec {T} `{EqDecision T} (table : list T) v body :
  to_vec (Serde := table_serde table) v = inl body ->
  exists i, table !! i = Some v /\ (i < 64)%nat /\ body = [byte_of_Z (32 + Z.of_nat i)] /\
    byte_Z (byte_of_Z (32 + Z.of_nat i)) = 32 + Z.of_nat i.
Proof.
  cbn. destruct (position _ table) as [i|] eqn:Ep; [|done].
  apply position_Some in Ep as (l1&x&l2&->&Hl&Hx&_). apply bool_decide_eq_true in Hx as ->.
  destruct (Z.of_nat i <? 64) eqn:Ei; [|done]. apply Z.ltb_lt in Ei. intros [= <-].
  exists i. split_and!; [by rewrite -Hl lookup_app_r // Nat.sub_diag|lia|done|].
  rewrite byte_Z_of_Z Z.mod_small; lia.
Qed.

#[export] Instance table_serde_laws {T} `{EqDecision T} (readable : T -> Prop) (table : list T) :
  SerdeLaws T readable (H := table_serde table).
Proof.
  constructor; [intros v body _ E|intros v body E];
    apply table_serde_to_vec in E as (i&Hi&Hlt&->&Hb).
  - cbn. rewrite Hb. replace (Z.to_nat (32 + Z.of_nat i - 32)) with i by lia. by rewrite Hi.
  - intros Hn%list_elem_of_singleton. rewrite -Hn in Hb. change (byte_Z NEWLINE) with 10 in Hb. lia.
Qed.

(** A concrete codec of event frames that refuses what the deserializers refuse. *)
Definition checked_serde (table : list EventFrame) : Serde EventFrame := {|
  to_vec := to_vec (Serde := table_serde table);
  from_slice data :=
    match from_slice (Serde := table_serde table) data with
    | inl f => if event_readable f.(event) then inl f
               else inr {| classify := CatData; line := 1; column := 1 |}
    | inr e => inr e
    end |}.

Lemma checked_serde_laws (table : list EventFrame) :
  SerdeLaws EventFrame frame_readable (H := checked_serde table).
Proof.
  pose proof (table_serde_laws frame_readable table) as [Hr Hl]. constructor; [|exact Hl].
  intros v body Hv E. cbn [checked_serde from_slice]. rewrite (Hr v body Hv E). by rewrite Hv.
Qed.

Definition exit_frame (exit : ProcessExit) : EventFrame :=
  {| protocol_version := PROTOCOL_VERSION; event_id := 1; command_id := 1;
     event := WorkloadExited 1 exit 0 "" 0 "" 0; diagnostics := DiagnosticFields_default |}.
#[local] Instance exit_serde : Serde EventFrame :=
  checked_serde (map exit_frame [Exited 255; Signaled 64; Exited 256]).
#[local] Instance exit_serde_laws : SerdeLaws EventFrame frame_readable := checked_serde_laws _.

(** The greatest exit code and signal are read back; a greater exit code is
    written and refused. *)
Lemma frame_roundtrip_witness :
  read_line_frame [RError (IoError Interrupted ""); RByte " "%byte; RByte NEWLINE; RByte "x"%byte]
  = (Ok (Some (exit_frame (Exited 255))), [RByte "x"%byte]) /\
  read_frame (map RByte [Byte.x00; Byte.x00; Byte.x00; Byte.x01; "!"%byte] ++ [RByte "x"%byte])
  = (Ok (Some (exit_frame (Signaled 64))), [RByte "x"%byte]) /\
  to_vec (exit_frame (Exited 256)) = inl [Byte.x22] /\
  from_slice [Byte.x22] <> inl (exit_frame (Exited 256)).
Proof.
  split; [|split; [|by split; [vm_compute|]]].
  - destruct (proj1 (frame_roundtrip frame_readable [] [" "%byte; NEWLINE] (exit_frame (Exited 255)) eq_refl))
      as (sent&Hs&H); [vm_compute; reflexivity|].
    apply H. simpl in Hs. rewrite -Hs. apply delivers_retry; [done|]. apply (delivers_map [" "%byte; NEWLINE]).
  - destruct (proj2 (frame_roundtrip frame_readable [] [Byte.x00; Byte.x00; Byte.x00; Byte.x01; "!"%byte]
      (exit_frame (Signaled 64)) eq_refl)) as (sent&Hs&H); [vm_compute; reflexivity|].
    apply H. simpl in Hs. rewrite -Hs. apply delivers_map.
Defined.

(** ** Descriptions are value-free *)

Definition redact_launch : LaunchIdentity :=
  {| executable := ""; arguments := []; environment := []; working_directory := "";
     uid := 0; gid := 0 |}.

(** The coordinates of an event a shareable report may name: every free-form
    string, launch identity, digest and assertion detail is blanked, and exact
    stream bytes keep only their encoded length. *)
Definition coordinates (e : Event) : Event :=
  match e with
  | NetworkConfigured _ _ _ => NetworkConfigured "" "" ""
  | OutageActivated _ _ => OutageActivated "" ""
  | NetworkRestored _ => NetworkRestored ""
  | RequestAttempted _ _ phase => RequestAttempted "" "" phase
  | RequestSucceeded _ _ _ _ phase => RequestSucceeded "" "" "" "" phase
  | RequestUnavailable _ phase error errno => RequestUnavailable "" phase error errno
  | AssertionsEvaluated report =>
      AssertionsEvaluated {| passed := report.(passed); assertions := [] |}
  | WorkloadStarted invocation _ => WorkloadStarted invocation redact_launch
  | WorkloadOutput invocation stream offset sequence data =>
      WorkloadOutput invocation stream offset sequence
        (str_of (repeat "0"%byte (length (as_bytes data))))
  | WorkloadExited invocation _ stdout_bytes _ stderr_bytes _ frames =>
      WorkloadExited invocation (Exited 0) stdout_bytes "" stderr_bytes "" frames
  | LaunchFailed invocation failure _ => LaunchFailed invocation failure ""
  | e => e
  end.

Lemma describe_coordinates e : Event_describe (coordinates e) = Event_describe e.
Proof.
  destruct e; try done. simpl. rewrite /str_len as_bytes_str_of /zlen.
  by rewrite repeat_length.
Qed.

(** [Event::describe] names only value-free coordinates: two events that
    agree on their tags, enumerations and numeric coordinates have the same
    description, whatever launch values, stream bytes, digests and guest
    strings they carry; and every description starts with the event's
    protocol tag. *)
Theorem describe_value_free e1 e2 :
  coordinates e1 = coordinates e2 ->
  Event_describe e1 = Event_describe e2 /\
  exists suffix, Event_describe e1 = Event_kind e1 +:+ suffix.
Proof.
  intros H. split.
  - by rewrite -(describe_coordinates e1) H describe_coordinates.
  - destruct e1; simpl; try (by exists ""%string); eexists; reflexivity.
Qed.

Lemma describe_value_free_witness :
  Event_describe (WorkloadOutput 1 Stdout 0 1 "736563726574")
  = Event_describe (WorkloadOutput 1 Stdout 0 1 "7075626c6963").
Proof. apply describe_value_free. reflexivity. Defined.

(** A process exit record that passes deserialization has a shell status
    between 0 and 255, exactly [code] or [128 + signal]; for any other [i32]
    the status saturates instead of leaving the [i32] range. *)
Theorem status_code_bounds z :
  I32_MIN <= z <= I32_MAX ->
  (forall code, deserialize_exit_code z = inl code ->
     status_code (Exited code) = z /\ 0 <= z <= 255) /\
  (forall signal, deserialize_signal z = inl signal ->
     status_code (Signaled signal) = 128 + z /\ 129 <= 128 + z <= 192) /\
  I32_MIN <= status_code (Exited z) <= I32_MAX /\
  I32_MIN <= status_code (Signaled z) <= I32_MAX.
Proof.
  intros Hz. unfold deserialize_exit_code, deserialize_signal, status_code, saturating_add_i32.
  unfold I32_MIN, I32_MAX in *. split_and!; try lia.
  - intros code. case_match eqn:E; [|done]. bool_facts. intros [= <-]. lia.
  - intros signal. case_match eqn:E; [|done]. bool_facts. intros [= <-]. lia.
Qed.

Lemma status_code_bounds_witness :
  status_code (Signaled 9) = 137 /\ I32_MIN <= status_code (Signaled I32_MAX) <= I32_MAX.
Proof.
  split.
  - apply (status_code_bounds 9); [vm_compute; by split|reflexivity].
  - apply (status_code_bounds I32_MAX). vm_compute; by split.
Defined.
