(* ===== verification/Scenario.v ===== *)
(** Scenarios and seeded choice plans ([scenario.rs]): validation, the
    SplitMix64 generator, and the derivation of a choice plan from a seed.
    TOML decoding is third-party and enters as a parameter of [parse]. *)

From stdpp Require Import ssreflect.
From Stdlib Require Import Strings.Byte.
From S2P Require Import Prelude Std Types Protocol.

Definition SCENARIO_VERSION : Z := 1.
Definition CHOICE_PLAN_VERSION : Z := 1.
Definition MAX_SCENARIO_SOURCE_BYTES : Z := 1024 * 1024.
Definition MAX_SCENARIO_NAME_BYTES : Z := 256.
Definition MAX_REQUEST_COUNT : Z := 256.
Definition MAX_TOTAL_PAYLOAD_BYTES : Z := 1024 * 1024.
Definition WORKLOAD_SCENARIO_VERSION : Z := 1.
Definition WORKLOAD_CHOICE_PLAN_VERSION : Z := 1.
Definition MIN_WORKLOAD_REQUEST_COUNT : Z := 4.
Definition MAX_WORKLOAD_PAYLOAD_BYTES : Z := 63.

(** ** Validation *)

(** The last check of the two [validate] functions: the peer address. *)
Definition validate_peer (fixture_peer : string) : result unit :=
  match parse_ip fixture_peer with
  | None => Err (invalid "invalid fixture_peer: invalid IP address syntax")
  | Some peer =>
      if bool_decide (peer <> V4 10 0 2 2)
      then Err (invalid "fixture_peer must be the fixed private peer 10.0.2.2")
      else Ok tt
  end.

Definition Workload_validate (s : WorkloadScenario) : result unit :=
  if negb (s.(w_version) =? WORKLOAD_SCENARIO_VERSION)
  then Err (invalid ("unsupported workload scenario version " +:+ fmt_dec s.(w_version)))
  else if bool_decide (s.(w_name) = ""%string) || (MAX_SCENARIO_NAME_BYTES <? str_len s.(w_name))
  then Err (invalid ("scenario name must contain between 1 and "
                     +:+ fmt_dec MAX_SCENARIO_NAME_BYTES +:+ " bytes"))
  else if negb ((MIN_WORKLOAD_REQUEST_COUNT <=? s.(w_request_count))
                && (s.(w_request_count) <=? MAX_REQUEST_COUNT))
  then Err (invalid ("request_count must be between " +:+ fmt_dec MIN_WORKLOAD_REQUEST_COUNT
                     +:+ " and " +:+ fmt_dec MAX_REQUEST_COUNT))
  else if (s.(w_payload_bytes) =? 0) || (MAX_WORKLOAD_PAYLOAD_BYTES <? s.(w_payload_bytes))
  then Err (invalid ("payload_bytes must be between 1 and "
                     +:+ fmt_dec MAX_WORKLOAD_PAYLOAD_BYTES
                     +:+ ", because the fixture's hex-encoded token must stay under 128 bytes"))
  else
    total ← ok_or (checked_mul64 s.(w_request_count) s.(w_payload_bytes))
                  (invalid "scenario payload budget overflowed");
    if MAX_TOTAL_PAYLOAD_BYTES <? total
    then Err (invalid ("request_count * payload_bytes must not exceed "
                       +:+ fmt_dec MAX_TOTAL_PAYLOAD_BYTES))
    else if (s.(w_outage_event_bound) =? 0) || (s.(w_liveness_event_bound) <? 2)
    then Err (invalid
      "outage_event_bound must be positive and liveness_event_bound must be at least 2")
    else validate_peer s.(w_fixture_peer).

Definition Scenario_validate (s : Scenario) : result unit :=
  if negb (s.(version) =? SCENARIO_VERSION)
  then Err (invalid ("unsupported scenario version " +:+ fmt_dec s.(version)))
  else if bool_decide (s.(scenario_name) = ""%string)
          || (MAX_SCENARIO_NAME_BYTES <? str_len s.(scenario_name))
  then Err (invalid ("scenario name must contain between 1 and "
                     +:+ fmt_dec MAX_SCENARIO_NAME_BYTES +:+ " bytes"))
  else if negb ((3 <=? s.(request_count)) && (s.(request_count) <=? MAX_REQUEST_COUNT))
  then Err (invalid ("request_count must be between 3 and " +:+ fmt_dec MAX_REQUEST_COUNT))
  else if (s.(payload_bytes) =? 0) || (MAX_REQUEST_DATA_LENGTH / 4 <? s.(payload_bytes))
  then Err (invalid ("payload_bytes must be between 1 and "
                     +:+ fmt_dec (MAX_REQUEST_DATA_LENGTH / 4)))
  else
    total ← ok_or (checked_mul64 s.(request_count) s.(payload_bytes))
                  (invalid "scenario payload budget overflowed");
    if MAX_TOTAL_PAYLOAD_BYTES <? total
    then Err (invalid ("request_count * payload_bytes must not exceed "
                       +:+ fmt_dec MAX_TOTAL_PAYLOAD_BYTES))
    else if (s.(outage_event_bound) =? 0) || (s.(liveness_event_bound) <? 2)
    then Err (invalid
      "outage_event_bound must be positive and liveness_event_bound must be at least 2")
    else validate_peer s.(fixture_peer).

(** [parse] of a source that [read] bounded to one byte past the limit. *)
Section parse.
Variable toml_scenario : string -> Scenario + TomlError.
Variable toml_workload : string -> WorkloadScenario + TomlError.

Definition source_too_long : io_error :=
  invalid ("scenario source must not exceed " +:+ fmt_dec MAX_SCENARIO_SOURCE_BYTES +:+ " bytes").

Definition Scenario_parse (source : bytes) : result (Scenario * bytes) :=
  if MAX_SCENARIO_SOURCE_BYTES <? zlen source then Err source_too_long
  else
    match from_utf8 source with
    | inr message => Err (invalid_data message)
    | inl text =>
        match toml_scenario text with
        | inr e => Err (toml_error "malformed scenario" e)
        | inl scenario => _ ← Scenario_validate scenario; Ok (scenario, source)
        end
    end.

Definition Workload_parse (source : bytes) : result (WorkloadScenario * bytes) :=
  if MAX_SCENARIO_SOURCE_BYTES <? zlen source then Err source_too_long
  else
    match from_utf8 source with
    | inr message => Err (invalid_data message)
    | inl text =>
        match toml_workload text with
        | inr e => Err (toml_error "malformed scenario" e)
        | inl scenario => _ ← Workload_validate scenario; Ok (scenario, source)
        end
    end.
End parse.

(** ** SplitMix64 *)

(** [next]: the output and the advanced state. *)
Definition next (state : Z) : Z * Z :=
  let state := add64 state 0x9e3779b97f4a7c15 in
  let value := state in
  let value := mul64 (Z.lxor value (Z.shiftr value 30)) 0xbf58476d1ce4e5b9 in
  let value := mul64 (Z.lxor value (Z.shiftr value 27)) 0x94d049bb133111eb in
  (Z.lxor value (Z.shiftr value 31), state).

#[global] Arguments next : simpl never.

(** The loop of [hex_bytes]: [remaining] rounds from [index]. *)
Fixpoint hex_bytes_loop (remaining : nat) (index value random : Z) : bytes * Z :=
  match remaining with
  | O => ([], random)
  | S remaining =>
      let '(value, random) := if index mod 8 =? 0 then next random else (value, random) in
      let b := byte_of_Z (Z.shiftr value ((index mod 8) * 8)) in
      let '(output, random) := hex_bytes_loop remaining (index + 1) value random in
      (hex_char (Z.shiftr (byte_Z b) 4) :: hex_char (Z.land (byte_Z b) 15) :: output, random)
  end.

Definition hex_bytes (length random : Z) : string * Z :=
  let '(output, random) := hex_bytes_loop (Z.to_nat length) 0 0 random in
  (str_of output, random).

(** ** Choice plans

    A division by zero or an index out of bounds panics; [None] is that
    outcome.  Subtraction on [usize] wraps, as in a release build. *)

Definition rem64 (a b : Z) : option Z := if b =? 0 then None else Some (a mod b).

(** The closure that draws the planned request [index]. *)
Definition plan_request (payload_bytes index random : Z) : PlannedRequest * Z :=
  let '(nonce, random) := next random in
  let '(payload, random) := hex_bytes payload_bytes random in
  ({| request_id := "request-" +:+ fmt_pad 4 index +:+ "-" +:+ fmt_hex 16 nonce;
      payload := payload |}, random).

Fixpoint plan_requests_from (remaining : nat) (payload_bytes index random : Z)
  : list PlannedRequest :=
  match remaining with
  | O => []
  | S remaining =>
      let '(request, random) := plan_request payload_bytes index random in
      request :: plan_requests_from remaining payload_bytes (index + 1) random
  end.

Definition Scenario_choices (s : Scenario) (seed : Z) : option ChoicePlan :=
  let '(r1, random) := next seed in
  draw1 ← rem64 r1 (sub64 s.(request_count) 2);
  let activation := add64 1 draw1 in
  let '(r2, random) := next random in
  draw2 ← rem64 r2 (sub64 (sub64 s.(request_count) activation) 1);
  let restoration := add64 (add64 activation 1) draw2 in
  Some {| plan_version := CHOICE_PLAN_VERSION;
          plan_seed := seed;
          plan_activation := activation;
          plan_restoration := restoration;
          plan_requests :=
            plan_requests_from (Z.to_nat s.(request_count)) s.(payload_bytes) 0 random |}.

(** [(1..request_count).filter(...)]. *)
Definition fault_candidates (request_count activation restoration : Z) : list Z :=
  List.filter (fun index => negb (index =? activation) && negb (index =? restoration))
    (map Z.of_nat (seq 1 (Z.to_nat (request_count - 1)))).

Definition Workload_choices (s : WorkloadScenario) (seed : Z) : option WorkloadChoicePlan :=
  let '(r1, random) := next seed in
  draw1 ← rem64 r1 (sub64 s.(w_request_count) 2);
  let activation := add64 1 draw1 in
  let '(r2, random) := next random in
  draw2 ← rem64 r2 (sub64 (sub64 s.(w_request_count) activation) 1);
  let restoration := add64 (add64 activation 1) draw2 in
  let candidates := fault_candidates s.(w_request_count) activation restoration in
  let '(r3, random) := next random in
  draw3 ← rem64 r3 (zlen candidates);
  process_fault ← candidates !! Z.to_nat draw3;
  Some {| w_plan_version := WORKLOAD_CHOICE_PLAN_VERSION;
          seed := seed;
          process_fault_request_index := process_fault;
          outage_activation_request_index := activation;
          restoration_request_index := restoration;
          requests :=
            plan_requests_from (Z.to_nat s.(w_request_count)) s.(w_payload_bytes) 0 random |}.

(** ** Validation accepts exactly the documented bounds *)

Definition workload_valid (s : WorkloadScenario) : Prop :=
  s.(w_version) = 1 /\ 1 <= str_len s.(w_name) <= 256 /\
  4 <= s.(w_request_count) <= 256 /\ 1 <= s.(w_payload_bytes) <= 63 /\
  1 <= s.(w_outage_event_bound) /\ 2 <= s.(w_liveness_event_bound) /\
  s.(w_fixture_peer) = "10.0.2.2"%string.

Definition scenario_valid (s : Scenario) : Prop :=
  s.(version) = 1 /\ 1 <= str_len s.(scenario_name) <= 256 /\
  3 <= s.(request_count) <= 256 /\ 1 <= s.(payload_bytes) <= 16384 /\
  s.(request_count) * s.(payload_bytes) <= 1048576 /\
  1 <= s.(outage_event_bound) /\ 2 <= s.(liveness_event_bound) /\
  s.(fixture_peer) = "10.0.2.2"%string.

Lemma validate_peer_Ok p : validate_peer p = Ok tt <-> p = "10.0.2.2"%string.
Proof.
  unfold validate_peer. split.
  - destruct (parse_ip p) as [ip|] eqn:E; [|done]. case_bool_decide as Hip; [done|].
    intros _. apply parse_ip_peer. by rewrite E Hip.
  - by intros ->.
Qed.

Lemma str_len_pos s : s <> ""%string <-> 1 <= str_len s.
Proof.
  rewrite /str_len /zlen. destruct s as [|c s].
  - split; [done|]. simpl. lia.
  - change (as_bytes (String c s)) with (as_bytes (String c EmptyString) ++ as_bytes s).
    simpl. split; [lia|done].
Qed.

Lemma Scenario_validate_iff s :
  0 <= s.(payload_bytes) -> 0 <= s.(outage_event_bound) ->
  Scenario_validate s = Ok tt <-> scenario_valid s.
Proof.
  intros Hs1 Hs2. unfold Scenario_validate, scenario_valid. split.
  - intros H. inv_ok H. unfold ok_or in *. case_match eqn:Hmul; [|done]. simplify_eq.
    apply checked_mul64_Some in Hmul as [-> _]. apply validate_peer_Ok in H.
    bool_facts.
    match goal with H : _ <> _ |- _ => apply str_len_pos in H end.
    unfold SCENARIO_VERSION, MAX_SCENARIO_NAME_BYTES, MAX_REQUEST_COUNT,
      MAX_TOTAL_PAYLOAD_BYTES in *. change (MAX_REQUEST_DATA_LENGTH / 4) with 16384 in *.
    split_and!; try lia; done.
  - intros (Hv & Hn & Hc & Hp & Ht & Ho & Hl & Hpeer).
    rewrite Hv bool_decide_eq_false_2; [|apply str_len_pos; lia]. simpl.
    rewrite (proj2 (Z.ltb_ge MAX_SCENARIO_NAME_BYTES _)); [|unfold MAX_SCENARIO_NAME_BYTES; lia].
    rewrite !(proj2 (Z.leb_le _ _)); [|unfold MAX_REQUEST_COUNT; lia..]. simpl.
    rewrite (proj2 (Z.eqb_neq (payload_bytes s) 0)); [|lia].
    change (MAX_REQUEST_DATA_LENGTH / 4) with 16384. rewrite (proj2 (Z.ltb_ge 16384 _)); [|lia].
    rewrite (proj2 (checked_mul64_Some _ _ _) (conj eq_refl _)); [|unfold U64_MAX; lia]. simpl.
    rewrite (proj2 (Z.ltb_ge _ _)); [|unfold MAX_TOTAL_PAYLOAD_BYTES; lia].
    rewrite (proj2 (Z.eqb_neq _ _)); [|lia].
    rewrite (proj2 (Z.ltb_ge _ _)); [|lia]. by apply validate_peer_Ok.
Qed.

Lemma Workload_validate_iff w :
  0 <= w.(w_payload_bytes) -> 0 <= w.(w_outage_event_bound) ->
  Workload_validate w = Ok tt <-> workload_valid w.
Proof.
  intros Hw1 Hw2. unfold Workload_validate, workload_valid. split.
  - intros H. inv_ok H. unfold ok_or in *. case_match eqn:Hmul; [|done]. simplify_eq.
    apply validate_peer_Ok in H. bool_facts.
    match goal with H : _ <> _ |- _ => apply str_len_pos in H end.
    unfold WORKLOAD_SCENARIO_VERSION, MAX_SCENARIO_NAME_BYTES, MAX_REQUEST_COUNT,
      MIN_WORKLOAD_REQUEST_COUNT, MAX_WORKLOAD_PAYLOAD_BYTES in *. split_and!; try lia; done.
  - intros (Hv & Hn & Hc & Hp & Ho & Hl & Hpeer).
    rewrite Hv bool_decide_eq_false_2; [|apply str_len_pos; lia]. simpl.
    rewrite (proj2 (Z.ltb_ge MAX_SCENARIO_NAME_BYTES _)); [|unfold MAX_SCENARIO_NAME_BYTES; lia].
    rewrite !(proj2 (Z.leb_le _ _));
      [|unfold MAX_REQUEST_COUNT, MIN_WORKLOAD_REQUEST_COUNT; lia..]. simpl.
    rewrite (proj2 (Z.eqb_neq (w_payload_bytes w) 0)); [|lia].
    rewrite (proj2 (Z.ltb_ge MAX_WORKLOAD_PAYLOAD_BYTES _));
      [|unfold MAX_WORKLOAD_PAYLOAD_BYTES; lia].
    rewrite (proj2 (checked_mul64_Some _ _ _) (conj eq_refl _)); [|unfold U64_MAX; nia]. simpl.
    rewrite (proj2 (Z.ltb_ge _ _)); [|unfold MAX_TOTAL_PAYLOAD_BYTES; nia].
    rewrite (proj2 (Z.eqb_neq _ _)); [|lia].
    rewrite (proj2 (Z.ltb_ge _ _)); [|lia]. by apply validate_peer_Ok.
Qed.

(** Validation accepts a scenario of unsigned fields exactly when every
    documented bound holds: version, name length, request count, payload
    bytes, payload budget, event bounds, and the fixed private peer in its
    canonical spelling.  For the workload contract the payload budget and the
    overflow check are implied by the other bounds. *)
Theorem validate_iff s w :
  0 <= s.(payload_bytes) -> 0 <= s.(outage_event_bound) ->
  0 <= w.(w_payload_bytes) -> 0 <= w.(w_outage_event_bound) ->
  (Scenario_validate s = Ok tt <-> scenario_valid s) /\
  (Workload_validate w = Ok tt <-> workload_valid w).
Proof. intros. split; [by apply Scenario_validate_iff|by apply Workload_validate_iff]. Qed.

Definition sample_scenario : Scenario :=
  {| version := 1; scenario_name := "network-outage"; request_count := 6;
     payload_bytes := 8; fixture_peer := "10.0.2.2"; outage_event_bound := 8;
     liveness_event_bound := 8; corrupt_responses := false |}.

Definition sample_workload : WorkloadScenario :=
  {| w_version := 1; w_name := "workload-network-outage"; w_request_count := 6;
     w_payload_bytes := 8; w_fixture_peer := "10.0.2.2"; w_outage_event_bound := 8;
     w_liveness_event_bound := 8; w_corrupt_responses := false |}.

Lemma validate_iff_witness :
  scenario_valid sample_scenario /\ workload_valid sample_workload.
Proof.
  split.
  - apply (validate_iff sample_scenario sample_workload); vm_compute; done.
  - apply (validate_iff sample_scenario sample_workload); vm_compute; done.
Defined.

(** ** The generator is a permutation of the seeds *)

Lemma xorshift_inj k x y :
  0 < k -> 0 <= x -> 0 <= y ->
  Z.lxor x (Z.shiftr x k) = Z.lxor y (Z.shiftr y k) -> x = y.
Proof.
  intros Hk Hx Hy H. apply Z.lxor_eq. set (d := Z.lxor x y).
  assert (0 <= d) as Hd by (apply Z.lxor_nonneg; lia).
  assert (d = Z.shiftr d k) as Hdk.
  { unfold d. rewrite Z.shiftr_lxor. apply Z.bits_inj'. intros i Hi.
    apply (f_equal (fun z => Z.testbit z i)) in H. rewrite !Z.lxor_spec in H.
    rewrite !Z.lxor_spec.
    by destruct (Z.testbit x i), (Z.testbit y i), (Z.testbit (Z.shiftr x k) i),
      (Z.testbit (Z.shiftr y k) i). }
  rewrite Z.shiftr_div_pow2 in Hdk; [|lia].
  assert (2 <= 2 ^ k) by (rewrite -{1}(Z.pow_1_r 2); apply Z.pow_le_mono_r; lia).
  destruct (Z.eq_dec d 0) as [|Hne]; [done|].
  assert (d / 2 ^ k < d) by (apply Z.div_lt; lia). lia.
Qed.

Lemma mul64_inj c inv x y :
  (c * inv) mod 2 ^ 64 = 1 -> 0 <= x < 2 ^ 64 -> 0 <= y < 2 ^ 64 ->
  mul64 x c = mul64 y c -> x = y.
Proof.
  intros Hinv Hx Hy H. unfold mul64 in H.
  assert (forall z, 0 <= z < 2 ^ 64 -> ((z * c) mod 2 ^ 64 * inv) mod 2 ^ 64 = z) as Hz.
  { intros z Hz. rewrite Z.mul_mod_idemp_l //. rewrite -Z.mul_assoc -Z.mul_mod_idemp_r // Hinv.
    rewrite Z.mul_1_r. by apply Z.mod_small. }
  by rewrite -(Hz x Hx) -(Hz y Hy) H.
Qed.

Lemma lxor_shiftr_range k x :
  0 <= k -> 0 <= x < 2 ^ 64 -> 0 <= Z.lxor x (Z.shiftr x k) < 2 ^ 64.
Proof.
  intros Hk Hx. assert (0 <= Z.shiftr x k < 2 ^ 64).
  { rewrite Z.shiftr_div_pow2 //. pose proof (Z.pow_pos_nonneg 2 k ltac:(lia) Hk).
    split; [apply Z.div_pos; lia|]. apply Z.div_lt_upper_bound; [lia|]. nia. }
  assert (0 <= Z.lxor x (Z.shiftr x k)) by (apply Z.lxor_nonneg; lia).
  split; [done|]. destruct (Z.eq_dec (Z.lxor x (Z.shiftr x k)) 0) as [->|Hne]; [done|].
  apply Z.log2_lt_pow2; [lia|].
  eapply Z.le_lt_trans; [apply Z.log2_lxor; lia|].
  apply Z.max_lub_lt.
  - destruct (Z.eq_dec x 0) as [->|]; [done|]. apply Z.log2_lt_pow2; lia.
  - destruct (Z.eq_dec (Z.shiftr x k) 0) as [->|]; [done|]. apply Z.log2_lt_pow2; lia.
Qed.

Lemma mod64_range z : 0 <= z mod 2 ^ 64 < 2 ^ 64.
Proof. by apply Z.mod_pos_bound. Qed.

Lemma next_range s : 0 <= (next s).1 < 2 ^ 64 /\ 0 <= (next s).2 < 2 ^ 64.
Proof.
  split; [|apply mod64_range].
  apply lxor_shiftr_range; [lia|apply mod64_range].
Qed.

(** The generator loses no seed: two seeds with the same first draw are
    equal, so distinct seeds start distinct random streams; draws and states
    stay within [u64]. *)
Theorem next_injective s t :
  u64_range s -> u64_range t ->
  ((next s).1 = (next t).1 -> s = t) /\ u64_range (next s).1 /\ u64_range (next s).2.
Proof.
  unfold u64_range, U64_MAX. intros Hs Ht. pose proof (next_range s) as [H1 H2].
  split; [|lia]. clear H1 H2. unfold next, fst. intros H.
  apply xorshift_inj in H; [|lia|apply mod64_range|apply mod64_range].
  apply (mul64_inj _ 3573116690164977347) in H; [|done|apply lxor_shiftr_range; [lia|apply mod64_range]..].
  apply xorshift_inj in H; [|lia|apply mod64_range|apply mod64_range].
  apply (mul64_inj _ 10871156337175269513) in H; [|done|apply lxor_shiftr_range; [lia|apply mod64_range]..].
  apply xorshift_inj in H; [|lia|apply mod64_range|apply mod64_range].
  unfold add64 in H. lia_mod.
Qed.

Lemma next_injective_witness : (next 42).1 <> (next 43).1 /\ u64_range (next 42).1.
Proof.
  split.
  - intros H. by apply (next_injective 42 43) in H; [|vm_compute; by split..].
  - apply (next_injective 42 43); vm_compute; by split.
Defined.

(** ** Choice plans are well placed *)

(** Every planned payload is [payload_bytes] bytes in lowercase hexadecimal. *)
Definition payload_wf (payload_bytes : Z) (payload : string) : Prop :=
  str_len payload = 2 * payload_bytes /\
  Forall (fun b => lower_hex b = true) (as_bytes payload).

Lemma hex_bytes_loop_wf n : forall index value random,
  zlen (hex_bytes_loop n index value random).1 = 2 * Z.of_nat n /\
  Forall (fun b => lower_hex b = true) (hex_bytes_loop n index value random).1.
Proof.
  induction n as [|n IH]; intros index value random; simpl; [done|].
  destruct (if index mod 8 =? 0 then _ else _) as [v r].
  specialize (IH (index + 1) v r). destruct (hex_bytes_loop n (index + 1) v r) as [out r'].
  simpl in *. destruct IH as [Hlen Hall]. rewrite !zlen_cons Hlen.
  destruct (byte_nibbles (byte_of_Z (Z.shiftr v (index mod 8 * 8)))) as (H1 & H2 & _).
  split; [lia|]. by repeat constructor; [apply hex_char_lower..|].
Qed.

Lemma hex_bytes_wf n random : 0 <= n -> payload_wf n (hex_bytes n random).1.
Proof.
  intros Hn. unfold hex_bytes. pose proof (hex_bytes_loop_wf (Z.to_nat n) 0 0 random) as H.
  destruct (hex_bytes_loop _ _ _ _) as [out r]. simpl in *.
  rewrite /payload_wf /str_len as_bytes_str_of. destruct H as [-> ?]. split; [lia|done].
Qed.

Lemma plan_requests_lookup n pb : forall i r k q,
  0 <= pb -> plan_requests_from n pb i r !! k = Some q ->
  payload_wf pb q.(payload) /\
  exists nonce, q.(request_id)
    = "request-" +:+ fmt_pad 4 (i + Z.of_nat k) +:+ "-" +:+ fmt_hex 16 nonce.
Proof.
  induction n as [|n IH]; intros i r k q Hpb; simpl; [done|].
  unfold plan_request. destruct (next r) as [nonce r1].
  pose proof (hex_bytes_wf pb r1 Hpb) as Hp. destruct (hex_bytes pb r1) as [p r2].
  destruct k as [|k]; simpl.
  - intros [= <-]. simpl in *. split; [done|]. exists nonce. by rewrite Z.add_0_r.
  - intros H. apply IH in H as [? [nonce' Hid]]; [|done]. split; [done|].
    exists nonce'. rewrite Hid. do 3 f_equal. lia.
Qed.

Lemma length_plan_requests n pb i r : length (plan_requests_from n pb i r) = n.
Proof.
  revert i r. induction n as [|n IH]; intros i r; simpl; [done|].
  destruct (plan_request pb i r). simpl. by rewrite IH.
Qed.

(** The four-digit index field keeps request identifiers apart. *)
Lemma fmt_pad4_distinct :
  NoDup (map (fun i => as_bytes (fmt_pad 4 (Z.of_nat i))) (seq 0 256)) /\
  Forall (fun i => length (as_bytes (fmt_pad 4 (Z.of_nat i))) = 4%nat) (seq 0 256).
Proof. split; apply (bool_decide_unpack _); vm_compute; exact I. Qed.

Lemma fmt_pad4_inj i j :
  (i < 256)%nat -> (j < 256)%nat ->
  fmt_pad 4 (Z.of_nat i) = fmt_pad 4 (Z.of_nat j) -> i = j.
Proof.
  intros Hi Hj H. destruct fmt_pad4_distinct as [Hnd _].
  apply (NoDup_lookup _ i j (as_bytes (fmt_pad 4 (Z.of_nat i))) Hnd);
    rewrite lookup_map lookup_seq_lt //=. by rewrite H.
Qed.

Lemma request_id_inj i j m n :
  (i < 256)%nat -> (j < 256)%nat ->
  "request-" +:+ fmt_pad 4 (Z.of_nat i) +:+ "-" +:+ fmt_hex 16 m
  = "request-" +:+ fmt_pad 4 (Z.of_nat j) +:+ "-" +:+ fmt_hex 16 n -> i = j.
Proof.
  intros Hi Hj H. apply fmt_pad4_inj; [done..|]. apply as_bytes_inj.
  destruct fmt_pad4_distinct as [_ Hlen]. rewrite Forall_forall in Hlen.
  apply (f_equal as_bytes) in H. rewrite !as_bytes_app in H. apply app_inv_head in H.
  apply (f_equal (take 4)) in H. rewrite !take_app_le in H;
    try (rewrite Hlen; [lia|apply in_seq; lia]).
  by rewrite !take_ge in H; try (rewrite Hlen; [lia|apply in_seq; lia]).
Qed.

Lemma plan_requests_ids_NoDup n pb r :
  (n <= 256)%nat -> 0 <= pb -> NoDup (map request_id (plan_requests_from n pb 0 r)).
Proof.
  intros Hn Hpb. apply NoDup_alt. intros i j id Hi Hj.
  rewrite !lookup_map in Hi Hj.
  apply fmap_Some in Hi as (q1 & Hi & ->). apply fmap_Some in Hj as (q2 & Hj & Hid).
  pose proof (lookup_lt_Some _ _ _ Hi) as Hi'. pose proof (lookup_lt_Some _ _ _ Hj) as Hj'.
  rewrite length_plan_requests in Hi' Hj'.
  apply plan_requests_lookup in Hi as [_ [m Hm]]; [|done].
  apply plan_requests_lookup in Hj as [_ [m' Hm']]; [|done].
  rewrite Hm Hm' in Hid. by apply request_id_inj in Hid; [|lia..].
Qed.

Record requests_wf (count payload_bytes : Z) (requests : list PlannedRequest) : Prop := {
  requests_count : zlen requests = count;
  requests_ids : NoDup (map request_id requests);
  requests_payloads : Forall (fun q => payload_wf payload_bytes q.(payload)) requests;
}.

Lemma plan_requests_wf count pb r :
  0 <= count <= 256 -> 0 <= pb ->
  requests_wf count pb (plan_requests_from (Z.to_nat count) pb 0 r).
Proof.
  intros Hc Hpb. constructor.
  - rewrite /zlen length_plan_requests. lia.
  - apply plan_requests_ids_NoDup; lia.
  - apply Forall_lookup. intros k q Hq. by apply plan_requests_lookup in Hq as [? _].
Qed.

(** The two seeded fault transitions, shared by both planners. *)
Lemma transition_indexes count r1 r2 :
  3 <= count <= 256 ->
  exists draw1 draw2, rem64 r1 (sub64 count 2) = Some draw1 /\
    let activation := add64 1 draw1 in
    rem64 r2 (sub64 (sub64 count activation) 1) = Some draw2 /\
    let restoration := add64 (add64 activation 1) draw2 in
    1 <= activation < restoration /\ restoration < count.
Proof.
  intros Hc. unfold rem64. rewrite (sub64_small count 2); [|unfold U64_MAX; lia..].
  rewrite (proj2 (Z.eqb_neq _ _)); [|lia].
  pose proof (Z.mod_pos_bound r1 (count - 2) ltac:(lia)) as H1.
  exists (r1 mod (count - 2)). rewrite (add64_small 1); [|unfold U64_MAX; lia..].
  rewrite (sub64_small count); [|unfold U64_MAX; lia..].
  rewrite sub64_small; [|unfold U64_MAX; lia..].
  set (left := count - (1 + r1 mod (count - 2)) - 1) in *.
  rewrite (proj2 (Z.eqb_neq _ _)); [|lia].
  pose proof (Z.mod_pos_bound r2 left ltac:(lia)) as H2.
  exists (r2 mod left). rewrite !(add64_small (1 + _)); [|unfold U64_MAX; lia..].
  rewrite add64_small; [|unfold U64_MAX; lia..]. split_and!; try done; lia.
Qed.

Lemma fault_candidates_spec count a r x :
  x ∈ fault_candidates count a r <-> 1 <= x < count /\ x <> a /\ x <> r.
Proof.
  rewrite /fault_candidates list_elem_of_In filter_In in_map_iff andb_true_iff.
  rewrite !negb_true_iff !Z.eqb_neq. split.
  - intros [(k & <- & Hk%in_seq) ?]. lia.
  - intros (Hx & ? & ?). split; [|done]. exists (Z.to_nat x). rewrite in_seq. lia.
Qed.

Lemma fault_candidates_nonempty count a r :
  4 <= count -> 1 <= a < r -> r < count -> 0 < zlen (fault_candidates count a r).
Proof.
  intros Hc Ha Hr.
  assert (exists x, x ∈ fault_candidates count a r) as [x Hx].
  { destruct (decide (a = 1)) as [->|]; [|exists 1; apply fault_candidates_spec; lia].
    destruct (decide (r = 2)) as [->|]; [exists 3|exists 2]; apply fault_candidates_spec; lia. }
  destruct (fault_candidates count a r); [by apply not_elem_of_nil in Hx|].
  rewrite zlen_cons. pose proof (zlen_nonneg l). lia.
Qed.

(** C17. Planning a valid workload scenario never panics, and its plan places
    every choice inside the request sequence: the outage starts after the
    first request and ends later, before the last request has been answered,
    the process fault lies strictly inside and on neither transition; the
    plan has one request per count with pairwise distinct identifiers and
    hexadecimal payloads of the declared size. *)
Theorem workload_choices_wf s sd :
  workload_valid s ->
  exists plan, Workload_choices s sd = Some plan /\
    plan.(w_plan_version) = 1 /\ plan.(seed) = sd /\
    1 <= plan.(outage_activation_request_index) < plan.(restoration_request_index) /\
    plan.(restoration_request_index) < s.(w_request_count) /\
    1 <= plan.(process_fault_request_index) < s.(w_request_count) /\
    plan.(process_fault_request_index) <> plan.(outage_activation_request_index) /\
    plan.(process_fault_request_index) <> plan.(restoration_request_index) /\
    requests_wf s.(w_request_count) s.(w_payload_bytes) plan.(requests).
Proof.
  intros (_ & _ & Hc & Hp & _). unfold Workload_choices.
  destruct (next sd) as [r1 st1]. destruct (next st1) as [r2 st2].
  destruct (transition_indexes s.(w_request_count) r1 r2) as (d1 & d2 & Hd1 & Hd2 & Ha & Hr);
    [lia|]. rewrite Hd1. cbn [mbind option_bind]. rewrite Hd2. cbn [mbind option_bind]. destruct (next st2) as [r3 st3].
  set (a := add64 1 d1) in *. set (r := add64 (add64 a 1) d2) in *.
  pose proof (fault_candidates_nonempty s.(w_request_count) a r ltac:(lia) Ha Hr) as Hne.
  rewrite /rem64 (proj2 (Z.eqb_neq _ _)); [|lia]. cbn [mbind option_bind].
  set (cs := fault_candidates _ _ _) in *.
  pose proof (Z.mod_pos_bound r3 (zlen cs) Hne) as Hm.
  destruct (lookup_lt_is_Some_2 cs (Z.to_nat (r3 mod zlen cs))) as [f Hf];
    [unfold zlen in *; lia|]. rewrite Hf /=. eexists. split; [done|]. simpl.
  apply list_elem_of_lookup_2, fault_candidates_spec in Hf.
  split_and!; try done; try lia. apply plan_requests_wf; lia.
Qed.

Lemma workload_choices_wf_witness :
  exists plan, Workload_choices sample_workload 42 = Some plan /\
    plan.(process_fault_request_index) <> plan.(outage_activation_request_index).
Proof.
  destruct (workload_choices_wf sample_workload 42) as (plan & H & _ & _ & _ & _ & _ & Hne & _).
  - vm_compute. split_and!; done.
  - exists plan. by split.
Defined.

(** Planning a valid network scenario never panics, and the outage window
    of its plan lies inside the request sequence, so at least one request
    precedes it, one falls inside it and one follows it. *)
Theorem scenario_choices_wf s sd :
  scenario_valid s ->
  exists plan, Scenario_choices s sd = Some plan /\
    plan.(plan_version) = 1 /\ plan.(plan_seed) = sd /\
    1 <= plan.(plan_activation) < plan.(plan_restoration) /\
    plan.(plan_restoration) < s.(request_count) /\
    requests_wf s.(request_count) s.(payload_bytes) plan.(plan_requests).
Proof.
  intros (_ & _ & Hc & Hp & _). unfold Scenario_choices.
  destruct (next sd) as [r1 st1]. destruct (next st1) as [r2 st2].
  destruct (transition_indexes s.(request_count) r1 r2) as (d1 & d2 & Hd1 & Hd2 & Ha & Hr);
    [lia|]. rewrite Hd1. cbn [mbind option_bind]. rewrite Hd2. cbn [mbind option_bind]. eexists. split; [done|]. simpl.
  split_and!; try done; try lia. apply plan_requests_wf; lia.
Qed.

Lemma scenario_choices_wf_witness :
  exists plan, Scenario_choices sample_scenario 7 = Some plan /\
    1 <= plan.(plan_activation) < plan.(plan_restoration).
Proof.
  destruct (scenario_choices_wf sample_scenario 7) as (plan & H & _ & _ & Hw & _).
  - vm_compute. split_and!; done.
  - exists plan. by split.
Defined.
