(* ===== verification/Assertions.v ===== *)
(** The network-fixture assertions of [assertions.rs]: the searches over the
    recorded events, the report built from them, and the selection of events
    the agent keeps for it ([is_assertion_event] of [agent.rs]).

    Each search of [evaluate] is a definition of its own and [evaluate]
    composes them as the source does.  Event identifiers are [u64]; the
    subtractions of the source are guarded by a comparison in the same
    condition, so they never leave the width. *)

From stdpp Require Import ssreflect.
From Stdlib Require Import Strings.Byte.
From S2P Require Import Prelude Types Protocol.

Definition exit_code (r : AssertionReport) : Z := if r.(passed) then 0 else 1.

Definition assertion_result (n : AssertionName) (p : bool) (d : string) : AssertionResult :=
  {| name := n; assertion_passed := p; detail := d |}.

(** ** The searches *)

(** The request attempt a successful outcome answers: same identifier, payload
    and phase, issued by the same command, before the outcome. *)
Definition attempt_matches (outcome : EventFrame) (rid pay : string) (ph : RequestPhase)
    (attempt : EventFrame) : bool :=
  match attempt.(event) with
  | RequestAttempted attempted_id payload attempted_phase =>
      bool_decide (attempted_id = rid) && bool_decide (payload = pay)
      && bool_decide (attempted_phase = ph)
      && (attempt.(command_id) =? outcome.(command_id))
      && (attempt.(event_id) <? outcome.(event_id))
  | _ => false
  end.

Definition matching_success_attempt (events : list EventFrame) (outcome : EventFrame)
    : option EventFrame :=
  match outcome.(event) with
  | RequestSucceeded rid req_payload resp_id resp_payload ph =>
      if negb (bool_decide (rid = resp_id)) || negb (bool_decide (req_payload = resp_payload))
      then None
      else List.find (attempt_matches outcome rid req_payload ph) events
  | _ => None
  end.

Definition find_configured (events : list EventFrame) : option (Z * string) :=
  find_map (fun frame =>
    match frame.(event) with
    | NetworkConfigured _ _ gateway => Some (frame.(event_id), gateway +:+ "/32")
    | _ => None
    end) events.

Definition find_activation (events : list EventFrame) (configured_id : Z)
    (expected_peer : string) : option (Z * string) :=
  find_map (fun frame =>
    match frame.(event) with
    | OutageActivated peer_cidr rule =>
        if (configured_id <? frame.(event_id)) && bool_decide (peer_cidr = expected_peer)
           && bool_decide (rule = "prohibit " +:+ expected_peer)
        then Some (frame.(event_id), peer_cidr) else None
    | _ => None
    end) events.

Definition find_restoration (events : list EventFrame) (activation_id : Z)
    (activated_peer : string) : option Z :=
  find_map (fun frame =>
    match frame.(event) with
    | NetworkRestored peer_cidr =>
        if (activation_id <? frame.(event_id)) && bool_decide (peer_cidr = activated_peer)
        then Some frame.(event_id) else None
    | _ => None
    end) events.

Definition mismatch_detail (events : list EventFrame) (frame : EventFrame) : option string :=
  match frame.(event) with
  | RequestSucceeded _ _ _ _ _ =>
      match matching_success_attempt events frame with
      | None => Some ("response event " +:+ fmt_dec frame.(event_id)
                      +:+ " does not match its request attempt")
      | Some _ => None
      end
  | RequestUnavailable _ _ InvalidResponse _ =>
      Some ("request event " +:+ fmt_dec frame.(event_id)
            +:+ " received a non-canonical response")
  | _ => None
  end.

Definition find_mismatch (events : list EventFrame) : option string :=
  find_map (mismatch_detail events) events.

Definition is_pre_outage (events : list EventFrame) (activation_id : Z) (outcome : EventFrame)
    : bool :=
  match outcome.(event) with
  | RequestSucceeded _ _ _ _ PreOutage =>
      (outcome.(event_id) <? activation_id)
      && match matching_success_attempt events outcome with
         | Some attempt => attempt.(event_id) <? activation_id
         | None => false
         end
  | _ => false
  end.

Definition find_pre_outage (events : list EventFrame) (activation_id : Z) : option EventFrame :=
  List.find (is_pre_outage events activation_id) events.

Definition outage_outcome (attempt : EventFrame) (rid : string) (restoration_id bound : Z)
    (outcome : EventFrame) : option (Z * Z) :=
  match outcome.(event) with
  | RequestUnavailable outcome_id Outage AdministrativeProhibited (Some e) =>
      if (e =? EACCES) && bool_decide (outcome_id = rid)
         && (outcome.(command_id) =? attempt.(command_id))
         && (attempt.(event_id) <? outcome.(event_id))
         && (outcome.(event_id) <? restoration_id)
         && (outcome.(event_id) - attempt.(event_id) <=? bound)
      then Some (attempt.(event_id), outcome.(event_id) - attempt.(event_id)) else None
  | _ => None
  end.

Definition outage_attempt (events : list EventFrame) (activation_id restoration_id bound : Z)
    (attempt : EventFrame) : option (Z * Z) :=
  match attempt.(event) with
  | RequestAttempted rid _ Outage =>
      if (activation_id <? attempt.(event_id)) && (attempt.(event_id) <? restoration_id)
      then find_map (outage_outcome attempt rid restoration_id bound) events
      else None
  | _ => None
  end.

Definition find_outage (events : list EventFrame) (activation_id restoration_id bound : Z)
    : option (Z * Z) :=
  find_map (outage_attempt events activation_id restoration_id bound) events.

Definition recovery_outcome (events : list EventFrame) (restoration_id bound : Z)
    (outcome : EventFrame) : option (Z * Z) :=
  match outcome.(event) with
  | RequestSucceeded _ _ _ _ Recovery =>
      if (restoration_id <? outcome.(event_id))
         && (outcome.(event_id) - restoration_id <=? bound)
      then
        match matching_success_attempt events outcome with
        | Some attempt =>
            if restoration_id <? attempt.(event_id)
            then Some (outcome.(event_id), outcome.(event_id) - restoration_id) else None
        | None => None
        end
      else None
  | _ => None
  end.

Definition find_recovery (events : list EventFrame) (restoration_id bound : Z)
    : option (Z * Z) :=
  find_map (recovery_outcome events restoration_id bound) events.

(** ** The report *)

Definition report_of (assertions : list AssertionResult) : AssertionReport :=
  {| passed := forallb assertion_passed assertions; assertions := assertions |}.

Definition evaluate (events : list EventFrame) (outage_event_bound recovery_event_bound : Z)
    : AssertionReport :=
  let configured := find_configured events in
  let activation :=
    '(configured_id, expected_peer) ← configured;
    find_activation events configured_id expected_peer in
  let activation_id := fst <$> activation in
  let restoration_id :=
    '(activation_id, activated_peer) ← activation;
    find_restoration events activation_id activated_peer in
  let mismatch := find_mismatch events in
  let pre_outage := activation_id ≫= find_pre_outage events in
  let safety :=
    match mismatch, pre_outage with
    | Some detail, _ => assertion_result Safety false detail
    | None, Some frame =>
        assertion_result Safety true
          ("matching pre-outage response observed at event " +:+ fmt_dec frame.(event_id))
    | None, None =>
        assertion_result Safety false "no matching pre-outage response traversed the network"
    end in
  let outage :=
    match activation_id, restoration_id with
    | Some a, Some r => find_outage events a r outage_event_bound
    | _, _ => None
    end in
  let controlled_outage :=
    match outage with
    | Some (attempt_id, distance) =>
        assertion_result ControlledOutage true
          ("request event " +:+ fmt_dec attempt_id +:+ " was administratively prohibited after "
           +:+ fmt_dec distance +:+ " event(s)")
    | None =>
        assertion_result ControlledOutage false
          ("no post-activation request reported EACCES within "
           +:+ fmt_dec outage_event_bound +:+ " event(s)")
    end in
  let restoration :=
    match restoration_id with
    | Some id =>
        assertion_result Restoration true
          ("network restoration was confirmed at event " +:+ fmt_dec id)
    | None =>
        assertion_result Restoration false
          "network restoration was not confirmed after outage activation"
    end in
  let recovery :=
    restoration_id ≫= fun r => find_recovery events r recovery_event_bound in
  let bounded_recovery :=
    match recovery with
    | Some (id, distance) =>
        assertion_result BoundedRecovery true
          ("matching recovery response event " +:+ fmt_dec id +:+ " arrived after "
           +:+ fmt_dec distance +:+ " event(s)")
    | None =>
        assertion_result BoundedRecovery false
          ("no matching post-restoration response arrived within "
           +:+ fmt_dec recovery_event_bound +:+ " event(s)")
    end in
  report_of [safety; controlled_outage; restoration; bounded_recovery].

(** ** [agent.rs]: the events kept for the report *)

Definition is_assertion_event (e : Event) : bool :=
  match e with
  | NetworkConfigured _ _ _ | OutageActivated _ _ | NetworkRestored _
  | RequestAttempted _ _ _ | RequestSucceeded _ _ _ _ _ | RequestUnavailable _ _ _ _
  | AssertionsEvaluated _ => true
  | _ => false
  end.

(** ** What a passing report says *)

(** The predicates of the contract, on single frames. *)
Definition configures (gateway : string) (f : EventFrame) : Prop :=
  exists interface guest_cidr, f.(event) = NetworkConfigured interface guest_cidr gateway.

Definition activates (configured_id : Z) (peer : string) (f : EventFrame) : Prop :=
  f.(event) = OutageActivated peer ("prohibit " +:+ peer) /\ configured_id < f.(event_id).

Definition restores (activation_id : Z) (peer : string) (f : EventFrame) : Prop :=
  f.(event) = NetworkRestored peer /\ activation_id < f.(event_id).

(** [attempt] is the request that [outcome] reports as answered: the response
    equals the request, and the attempt is the first earlier one of the same
    command with the same identifier, payload and phase. *)
Definition answers (events : list EventFrame) (ph : RequestPhase)
    (outcome attempt : EventFrame) : Prop :=
  exists rid pay,
    outcome.(event) = RequestSucceeded rid pay rid pay ph /\
    first_such (fun a => a.(event) = RequestAttempted rid pay ph /\
                         a.(command_id) = outcome.(command_id) /\
                         a.(event_id) < outcome.(event_id)) events attempt.

(** Every response echoes its own request, and none was rejected. *)
Definition responses_intact (events : list EventFrame) : Prop :=
  forall f, In f events ->
    (forall rid pay rid' pay' ph, f.(event) = RequestSucceeded rid pay rid' pay' ph ->
       exists attempt, answers events ph f attempt) /\
    (forall rid ph e, f.(event) <> RequestUnavailable rid ph InvalidResponse e).

Definition pre_outage_traffic (events : list EventFrame) (activation_id : Z) : Prop :=
  exists outcome attempt, In outcome events /\ answers events PreOutage outcome attempt /\
    outcome.(event_id) < activation_id.

Definition outage_observed (events : list EventFrame) (activation_id restoration_id bound : Z)
    : Prop :=
  exists attempt outcome rid pay,
    In attempt events /\ In outcome events /\
    attempt.(event) = RequestAttempted rid pay Outage /\
    outcome.(event) = RequestUnavailable rid Outage AdministrativeProhibited (Some EACCES) /\
    outcome.(command_id) = attempt.(command_id) /\
    activation_id < attempt.(event_id) < outcome.(event_id) /\
    outcome.(event_id) < restoration_id /\
    outcome.(event_id) - attempt.(event_id) <= bound.

Definition recovery_observed (events : list EventFrame) (restoration_id bound : Z) : Prop :=
  exists outcome attempt, In outcome events /\ answers events Recovery outcome attempt /\
    restoration_id < attempt.(event_id) /\
    outcome.(event_id) - restoration_id <= bound.

(** The contract of a network run: the first configuration names the peer, the
    outage was activated on it and lifted again, in that order, and traffic
    flowed before, was administratively prohibited during, and flowed again
    after the outage, within the bounds. *)
Definition network_run (events : list EventFrame) (outage_bound recovery_bound : Z) : Prop :=
  exists cfg gateway act rst,
    let peer := gateway +:+ "/32" in
    first_such (fun f => exists g, configures g f) events cfg /\ configures gateway cfg /\
    first_such (activates cfg.(event_id) peer) events act /\
    first_such (restores act.(event_id) peer) events rst /\
    responses_intact events /\
    pre_outage_traffic events act.(event_id) /\
    outage_observed events act.(event_id) rst.(event_id) outage_bound /\
    recovery_observed events rst.(event_id) recovery_bound.

Lemma matching_success_attempt_iff events outcome attempt :
  matching_success_attempt events outcome = Some attempt <->
  exists ph, answers events ph outcome attempt.
Proof.
  unfold matching_success_attempt, answers.
  destruct (outcome.(event)) as [| | | | |rid pay rid' pay' ph| | | | | | | | | |] eqn:E;
    try (split; [done|intros (?&?&?&?&_); done]).
  assert (Hf : forall x, attempt_matches outcome rid pay ph x = true <->
    (x.(event) = RequestAttempted rid pay ph /\ x.(command_id) = outcome.(command_id) /\
     x.(event_id) < outcome.(event_id))).
  { intros x. unfold attempt_matches. destruct (x.(event)); try naive_solver.
    rewrite !andb_true_iff !bool_decide_eq_true Z.eqb_eq Z.ltb_lt. naive_solver. }
  split.
  - intros H. destruct (bool_decide_reflect (rid = rid')) as [<-|]; [|done].
    destruct (bool_decide_reflect (pay = pay')) as [<-|]; [|done].
    exists ph, rid, pay. split; [done|]. by apply (find_first _ _ _ _ Hf).
  - intros (ph'&rid0&pay0&Heq&Hfirst). simplify_eq.
    rewrite !bool_decide_eq_true_2 //=. by apply (find_first _ _ _ _ Hf).
Qed.

Lemma find_configured_iff events id peer :
  find_configured events = Some (id, peer) <->
  exists cfg gateway, first_such (fun f => exists g, configures g f) events cfg /\
    configures gateway cfg /\ id = cfg.(event_id) /\ peer = gateway +:+ "/32".
Proof.
  unfold find_configured.
  rewrite (find_map_first _ (fun f z => exists g, configures g f /\
    z = (f.(event_id), g +:+ "/32"))).
  - setoid_rewrite (first_such_ext _ (fun f => exists g, configures g f)).
    + split; [intros (f&?&g&?&[= -> ->])|intros (f&g&?&?&->&->)]; eauto 8.
    + naive_solver.
  - intros f z. unfold configures. destruct (f.(event)); naive_solver.
Qed.

Lemma find_activation_iff events cid peer id q :
  find_activation events cid peer = Some (id, q) <->
  exists act, first_such (activates cid peer) events act /\ id = act.(event_id) /\ q = peer.
Proof.
  unfold find_activation.
  rewrite (find_map_first _ (fun f z => activates cid peer f /\ z = (f.(event_id), peer))).
  - setoid_rewrite (first_such_ext _ (activates cid peer)); [|naive_solver].
    split; [intros (f&?&?&[= -> ->])|intros (f&Hf&->&->)]; [by eauto|].
    exists f. pose proof (first_such_spec _ _ _ Hf). naive_solver.
  - intros f z. unfold activates. destruct (f.(event)); try naive_solver.
    rewrite if_Some !andb_true_iff ?bool_decide_eq_true Z.ltb_lt. naive_solver.
Qed.

Lemma find_restoration_iff events aid peer id :
  find_restoration events aid peer = Some id <->
  exists rst, first_such (restores aid peer) events rst /\ id = rst.(event_id).
Proof.
  unfold find_restoration.
  rewrite (find_map_first _ (fun f z => restores aid peer f /\ z = f.(event_id))).
  - setoid_rewrite (first_such_ext _ (restores aid peer)); [|naive_solver].
    split; [intros (f&?&?&->)|intros (f&Hf&->)]; [by eauto|].
    exists f. pose proof (first_such_spec _ _ _ Hf). naive_solver.
  - intros f z. unfold restores. destruct (f.(event)); try naive_solver.
    rewrite if_Some !andb_true_iff ?bool_decide_eq_true Z.ltb_lt. naive_solver.
Qed.

Lemma answers_before events ph outcome attempt :
  answers events ph outcome attempt ->
  attempt.(event_id) < outcome.(event_id) /\
  exists rid pay, outcome.(event) = RequestSucceeded rid pay rid pay ph.
Proof. intros (rid&pay&?&((_&_&?)&_)%first_such_spec). eauto. Qed.

Lemma answers_match events ph outcome attempt :
  answers events ph outcome attempt -> matching_success_attempt events outcome = Some attempt.
Proof. intros H. apply matching_success_attempt_iff. eauto. Qed.

Lemma match_answers events outcome attempt rid pay rid' pay' ph :
  matching_success_attempt events outcome = Some attempt ->
  outcome.(event) = RequestSucceeded rid pay rid' pay' ph ->
  answers events ph outcome attempt.
Proof.
  intros [ph' Ha]%matching_success_attempt_iff E. destruct (Ha) as (r&q&Heq&_).
  rewrite Heq in E. by simplify_eq.
Qed.

Lemma find_mismatch_None events :
  find_mismatch events = None <-> responses_intact events.
Proof.
  unfold find_mismatch, responses_intact. rewrite find_map_None Forall_forall.
  apply forall_proper => f. split; intros H Hin; specialize (H Hin).
  - unfold mismatch_detail in H. split.
    + intros rid pay rid' pay' ph E. rewrite E in H.
      destruct (matching_success_attempt events f) as [a|] eqn:Ha; [|done].
      exists a. by eapply match_answers.
    + intros rid ph e E. by rewrite E in H.
  - destruct H as [H1 H2]. unfold mismatch_detail. destruct (f.(event)) eqn:E; try done.
    + destruct (H1 _ _ _ _ _ eq_refl) as [a Ha].
      by rewrite (answers_match _ _ _ _ Ha).
    + destruct error; try done. by destruct (H2 _ _ _ eq_refl).
Qed.

Lemma find_pre_outage_is_Some events aid :
  is_Some (find_pre_outage events aid) <-> pre_outage_traffic events aid.
Proof.
  unfold find_pre_outage, pre_outage_traffic. rewrite find_is_Some.
  apply exist_proper => f. unfold is_pre_outage. split.
  - intros [Hin H]. destruct (f.(event)) eqn:E; try done. destruct phase; try done.
    apply andb_true_iff in H as [Hlt H].
    destruct (matching_success_attempt events f) as [a|] eqn:Ha; [|done].
    exists a. split_and!; [done|by eapply match_answers|lia].
  - intros (a&Hin&Ha&Hlt). split; [done|]. destruct (answers_before _ _ _ _ Ha) as (?&r&q&E).
    rewrite E (answers_match _ _ _ _ Ha). lia.
Qed.

Lemma find_outage_is_Some events aid rid bound :
  is_Some (find_outage events aid rid bound) <-> outage_observed events aid rid bound.
Proof.
  unfold find_outage, outage_observed. rewrite find_map_is_Some.
  apply exist_proper => a. unfold outage_attempt. split.
  - intros [Hin [z H]]. destruct (a.(event)) eqn:E; try done. destruct phase; try done.
    destruct ((aid <? a.(event_id)) && (a.(event_id) <? rid)) eqn:Hw; [|done].
    apply find_map_In in H as (o & Hino & H). unfold outage_outcome in H.
    destruct (o.(event)) eqn:Eo; try done. destruct phase, error, errno; try done.
    apply if_Some in H as [H _]. bool_facts. exists o, request_id, payload.
    subst. split_and!; (done || lia).
  - intros (o&r&q&Hin&Hino&E&Eo&Hc&Hw&Hr&Hb). split; [done|]. rewrite E.
    rewrite (proj2 (andb_true_iff _ _)); [|lia].
    apply find_map_is_Some. exists o. split; [done|]. unfold outage_outcome. rewrite Eo.
    eexists. apply if_Some. split; [|done]. rewrite !andb_true_iff bool_decide_eq_true.
    split_and!; (done || lia).
Qed.

Lemma find_recovery_is_Some events rid bound :
  is_Some (find_recovery events rid bound) <-> recovery_observed events rid bound.
Proof.
  unfold find_recovery, recovery_observed. rewrite find_map_is_Some.
  apply exist_proper => f. unfold recovery_outcome. split.
  - intros [Hin [z H]]. destruct (f.(event)) eqn:E; try done. destruct phase; try done.
    destruct (_ && _) eqn:Hw; [|done].
    destruct (matching_success_attempt events f) as [a|] eqn:Ha; [|done].
    apply if_Some in H as [H _].
    exists a. split_and!; [done|by eapply match_answers|lia..].
  - intros (a&Hin&Ha&Hlt&Hb). split; [done|].
    destruct (answers_before _ _ _ _ Ha) as (?&r&q&E).
    rewrite E (answers_match _ _ _ _ Ha). rewrite (proj2 (andb_true_iff _ _)); [|lia].
    eexists. apply if_Some. split; [lia|done].
Qed.

Lemma evaluate_passed events ob rb :
  (evaluate events ob rb).(passed) = true <->
  exists cid peer aid rid,
    find_configured events = Some (cid, peer) /\
    find_activation events cid peer = Some (aid, peer) /\
    find_restoration events aid peer = Some rid /\
    find_mismatch events = None /\ is_Some (find_pre_outage events aid) /\
    is_Some (find_outage events aid rid ob) /\ is_Some (find_recovery events rid rb).
Proof.
  unfold evaluate. cbn [report_of passed forallb]. split.
  - destruct (find_configured events) as [[cid peer]|] eqn:Ec;
      cbn [mbind option_bind fmap option_fmap option_map];
      [|destruct (find_mismatch events); done].
    destruct (find_activation events cid peer) as [[aid q]|] eqn:Ea;
      cbn [mbind option_bind fmap option_fmap option_map];
      [|destruct (find_mismatch events); done].
    assert (q = peer) as -> by (apply find_activation_iff in Ea; naive_solver).
    cbn [fst]. destruct (find_restoration events aid peer) as [rid|] eqn:Er;
      cbn [mbind option_bind fmap option_fmap option_map];
      [|by rewrite /= !andb_false_r].
    destruct (find_mismatch events) eqn:Em; [done|].
    destruct (find_pre_outage events aid) as [p|] eqn:Ep; [|done].
    destruct (find_outage events aid rid ob) as [[? ?]|] eqn:Eo; [|done].
    destruct (find_recovery events rid rb) as [[? ?]|] eqn:Ey; [|done].
    intros _. exists cid, peer, aid, rid. rewrite Ep Eo Ey. split_and!; eauto.
  - intros (cid&peer&aid&rid&->&Ha&Hr&->&[p Hp]&[[? ?] Ho]&[[? ?] Hy]).
    cbn [mbind option_bind fmap option_fmap option_map]. rewrite Ha.
    cbn [mbind option_bind fmap option_fmap option_map fst]. by rewrite Hr /= Hp Ho Hy.
Qed.

Lemma evaluate_network_run events outage_bound recovery_bound :
  (evaluate events outage_bound recovery_bound).(passed) = true <->
  network_run events outage_bound recovery_bound.
Proof.
  rewrite evaluate_passed. unfold network_run.
  setoid_rewrite find_configured_iff. setoid_rewrite find_activation_iff.
  setoid_rewrite find_restoration_iff. setoid_rewrite find_mismatch_None.
  setoid_rewrite find_pre_outage_is_Some. setoid_rewrite find_outage_is_Some.
  setoid_rewrite find_recovery_is_Some. split.
  - intros (cid&peer&aid&rid&(cfg&g&?&?&->&->)&(act&?&->&_)&(rst&?&->)&?&?&?&?).
    exists cfg, g, act, rst. by split_and!.
  - intros (cfg&g&act&rst&?&?&?&?&?&?&?&?).
    exists (event_id cfg), (g +:+ "/32"), (event_id act), (event_id rst). split_and!; eauto 8.
Qed.

(** C7. A network run's report passes exactly when the recorded events satisfy
    the contract of the fixture: the first network configuration fixes the
    peer, the outage is activated on that peer with its prohibit rule and
    lifted later, every response echoes its own request and none was
    non-canonical, a pre-outage response arrives before activation, a request
    inside the outage is refused with [EACCES] within the outage bound, and a
    request made after restoration is answered within the recovery bound.  The
    report always lists the network profile's assertions in order, and the
    process exit code is 0 exactly when it passes. *)
Theorem evaluate_iff_network_run events outage_bound recovery_bound :
  let report := evaluate events outage_bound recovery_bound in
  (report.(passed) = true <-> network_run events outage_bound recovery_bound) /\
  (exit_code report = 0 <-> network_run events outage_bound recovery_bound) /\
  map name report.(assertions) = NETWORK_PROFILE /\
  (report.(passed) = true <-> Forall (fun a => a.(assertion_passed) = true) report.(assertions)).
Proof.
  intros report.
  pose proof (evaluate_network_run events outage_bound recovery_bound) as Hp. fold report in Hp.
  split_and!; [exact Hp| | |].
  - rewrite -Hp /exit_code. by destruct (passed report).
  - unfold report, evaluate. cbv zeta. cbn [report_of assertions map].
    repeat (apply (f_equal2 cons); [repeat case_match; reflexivity|]). done.
  - unfold report, evaluate, report_of. cbv zeta. cbn [passed assertions].
    by rewrite forallb_forall List.Forall_forall.
Qed.

(** ** What a report depends on *)

(** Two histories are the same to the checker when their assertion events
    agree up to diagnostics. *)
Definition same_assertion_events (e1 e2 : list EventFrame) : Prop :=
  map normalize (List.filter (fun f => is_assertion_event f.(event)) e1)
  = map normalize (List.filter (fun f => is_assertion_event f.(event)) e2).

(** The searches look at fewer: the guest's own report is not one of them. *)
Definition is_searched (e : Event) : bool :=
  match e with AssertionsEvaluated _ => false | e => is_assertion_event e end.
Definition same_searched (e1 e2 : list EventFrame) : Prop :=
  map normalize (List.filter (fun f => is_searched f.(event)) e1)
  = map normalize (List.filter (fun f => is_searched f.(event)) e2).

Lemma searched_normalized l :
  map normalize (List.filter (fun f => is_searched f.(event)) l)
  = List.filter (fun e => is_searched e.(norm_event))
      (map normalize (List.filter (fun f => is_assertion_event f.(event)) l)).
Proof.
  induction l as [|f l IH]; [done|]. cbn [List.filter].
  destruct (event f) eqn:E; cbn; rewrite ?E /= IH //.
Qed.

Lemma same_assertion_searched e1 e2 : same_assertion_events e1 e2 -> same_searched e1 e2.
Proof. unfold same_searched. intros E. by rewrite !searched_normalized E. Qed.

Lemma normalize_fields f g :
  normalize f = normalize g ->
  f.(event) = g.(event) /\ f.(event_id) = g.(event_id) /\ f.(command_id) = g.(command_id).
Proof. by intros [= ? ? ? ?]. Qed.

Lemma same_find_map {B} (f g : EventFrame -> option B) e1 e2 :
  same_searched e1 e2 ->
  (forall x, is_searched x.(event) = false -> f x = None /\ g x = None) ->
  (forall x y, x.(event) = y.(event) -> x.(event_id) = y.(event_id) ->
     x.(command_id) = y.(command_id) -> f x = g y) ->
  find_map f e1 = find_map g e2.
Proof.
  intros E Hn Hk. eapply find_map_key, E.
  - intros x. apply Hn.
  - intros x. apply Hn.
  - intros x y (?&?&?)%normalize_fields. by apply Hk.
Qed.

Section retention.
Context (e1 e2 : list EventFrame) (E : same_searched e1 e2).

Lemma same_matching x y :
  x.(event) = y.(event) -> x.(event_id) = y.(event_id) -> x.(command_id) = y.(command_id) ->
  event_id <$> matching_success_attempt e1 x = event_id <$> matching_success_attempt e2 y.
Proof using E.
  intros Ee Ei Ec. unfold matching_success_attempt. rewrite Ee.
  destruct (y.(event)); try done. case_match; [done|].
  rewrite !find_fmap. apply same_find_map; [done|..]; unfold attempt_matches.
  - intros a Ha. by destruct (a.(event)).
  - intros a b Ea Eb Ec'. by rewrite Ea Eb Ec' Ei Ec.
Qed.

(** Results that look at a matching attempt only through its identifier. *)
Lemma same_matching_case {B} (F : Z -> B) (d : B) x y :
  x.(event) = y.(event) -> x.(event_id) = y.(event_id) -> x.(command_id) = y.(command_id) ->
  match matching_success_attempt e1 x with Some a => F a.(event_id) | None => d end
  = match matching_success_attempt e2 y with Some a => F a.(event_id) | None => d end.
Proof using E.
  intros Ee Ei Ec. pose proof (same_matching x y Ee Ei Ec) as H.
  destruct (matching_success_attempt e1 x), (matching_success_attempt e2 y);
    simplify_eq/=; congruence.
Qed.

Lemma same_mismatch : find_mismatch e1 = find_mismatch e2.
Proof using E.
  apply same_find_map; [done|..]; unfold mismatch_detail.
  - intros x Hx. by destruct (x.(event)).
  - intros x y Ee Ei Ec. pose proof (fun B F d => @same_matching_case B F d x y Ee Ei Ec) as HM.
    rewrite Ee Ei. destruct (y.(event)); try done.
    apply (HM _ (fun _ => None)).
Qed.

Lemma same_pre_outage aid :
  event_id <$> find_pre_outage e1 aid = event_id <$> find_pre_outage e2 aid.
Proof using E.
  unfold find_pre_outage. rewrite !find_fmap.
  apply same_find_map; [done|..]; unfold is_pre_outage.
  - intros x Hx. by destruct (x.(event)).
  - intros x y Ee Ei Ec. pose proof (fun B F d => @same_matching_case B F d x y Ee Ei Ec) as HM.
    rewrite Ee Ei. destruct (y.(event)); try done.
    destruct phase; try done.
    by rewrite (HM _ (fun i => i <? aid) false).
Qed.

Lemma same_outage aid rid bound : find_outage e1 aid rid bound = find_outage e2 aid rid bound.
Proof using E.
  apply same_find_map; [done|..]; unfold outage_attempt.
  - intros x Hx. by destruct (x.(event)).
  - intros x y Ee Ei Ec. rewrite Ee Ei. destruct (y.(event)); try done.
    destruct phase; try done. case_match; [|done].
    apply same_find_map; [done|..]; unfold outage_outcome.
    + intros o Ho. by destruct (o.(event)).
    + intros o o' Eo Eoi Eoc. by rewrite Eo Eoi Eoc Ei Ec.
Qed.

Lemma same_recovery rid bound : find_recovery e1 rid bound = find_recovery e2 rid bound.
Proof using E.
  apply same_find_map; [done|..]; unfold recovery_outcome.
  - intros x Hx. by destruct (x.(event)).
  - intros x y Ee Ei Ec. pose proof (fun B F d => @same_matching_case B F d x y Ee Ei Ec) as HM.
    rewrite Ee Ei. destruct (y.(event)); try done.
    destruct phase; try done. destruct (_ && _); [|done].
    apply (HM _ (fun i => if rid <? i then _ else None)).
Qed.

Lemma same_configured : find_configured e1 = find_configured e2.
Proof using E.
  apply same_find_map; [done|..]; [intros x Hx; by destruct (x.(event))|].
  intros x y -> -> _. done.
Qed.

Lemma same_activation cid peer : find_activation e1 cid peer = find_activation e2 cid peer.
Proof using E.
  apply same_find_map; [done|..]; [intros x Hx; by destruct (x.(event))|].
  intros x y -> -> _. done.
Qed.

Lemma same_restoration aid peer : find_restoration e1 aid peer = find_restoration e2 aid peer.
Proof using E.
  apply same_find_map; [done|..]; [intros x Hx; by destruct (x.(event))|].
  intros x y -> -> _. done.
Qed.
End retention.

Lemma evaluate_searched e1 e2 outage_bound recovery_bound :
  same_searched e1 e2 ->
  evaluate e1 outage_bound recovery_bound = evaluate e2 outage_bound recovery_bound.
Proof.
  intros E. unfold evaluate. cbv zeta.
  rewrite (same_configured _ _ E) (same_mismatch _ _ E).
  destruct (find_configured e2) as [[cid peer]|]; cbn [mbind option_bind]; [|done].
  rewrite (same_activation _ _ E).
  destruct (find_activation e2 cid peer) as [[aid q]|];
    cbn [mbind option_bind fmap option_fmap option_map fst]; [|done].
  rewrite (same_restoration _ _ E). pose proof (same_pre_outage _ _ E aid) as Hp.
  assert (forall (F : Z -> AssertionResult) (d : AssertionResult),
    match find_pre_outage e1 aid with Some f => F f.(event_id) | None => d end
    = match find_pre_outage e2 aid with Some f => F f.(event_id) | None => d end) as Hcase.
  { intros F d. destruct (find_pre_outage e1 aid), (find_pre_outage e2 aid);
      simplify_eq/=; congruence. }
  f_equal. f_equal; [destruct (find_mismatch e2); [done|]|].
  - apply (Hcase (fun i => assertion_result Safety true
      ("matching pre-outage response observed at event " +:+ fmt_dec i))).
  - destruct (find_restoration e2 aid q) as [rid|]; cbn [mbind option_bind]; [|done].
    by rewrite (same_outage _ _ E) (same_recovery _ _ E).
Qed.

Lemma evaluate_same e1 e2 outage_bound recovery_bound :
  same_assertion_events e1 e2 ->
  evaluate e1 outage_bound recovery_bound = evaluate e2 outage_bound recovery_bound.
Proof. intros E. by apply evaluate_searched, same_assertion_searched. Qed.

(** The report depends only on the normalized assertion events: it is the
    same for two histories whose assertion events agree up to diagnostics.
    Hence the agent may drop every other event from its history, and a replayed
    run with equal normalized events has an equal report, details included. *)
Theorem evaluate_same_events e1 e2 outage_bound recovery_bound :
  same_assertion_events e1 e2 ->
  evaluate e1 outage_bound recovery_bound = evaluate e2 outage_bound recovery_bound.
Proof. apply evaluate_same. Qed.

(** A complete run, followed by guest events the agent does not keep. *)
Definition sample_frame (id cmd : Z) (e : Event) : EventFrame :=
  {| protocol_version := 1; event_id := id; command_id := cmd; event := e;
     diagnostics := DiagnosticFields_default |}.

Definition sample_run : list EventFrame := [
  sample_frame 1 0 AgentReady;
  sample_frame 2 1 (NetworkConfigured "eth0" "10.0.2.15/24" "10.0.2.2");
  sample_frame 3 2 (RequestAttempted "r1" "aa" PreOutage);
  sample_frame 4 2 (RequestSucceeded "r1" "aa" "r1" "aa" PreOutage);
  sample_frame 5 3 (OutageActivated "10.0.2.2/32" "prohibit 10.0.2.2/32");
  sample_frame 6 4 (RequestAttempted "r2" "bb" Outage);
  sample_frame 7 4 (RequestUnavailable "r2" Outage AdministrativeProhibited (Some 13));
  sample_frame 8 5 (NetworkRestored "10.0.2.2/32");
  sample_frame 9 6 (RequestAttempted "r3" "cc" Recovery);
  sample_frame 10 6 (RequestSucceeded "r3" "cc" "r3" "cc" Recovery);
  sample_frame 11 7 AgentStopped ].

Lemma evaluate_same_events_witness :
  (evaluate sample_run 1 2).(passed) = true /\
  evaluate (List.filter (fun f => is_assertion_event f.(event)) sample_run) 1 2
  = evaluate sample_run 1 2.
Proof.
  split; [by vm_compute|]. apply evaluate_same_events. by vm_compute.
Defined.
