(* ===== verification/Tree.v ===== *)
(** The canonical workload filesystem of [workload/tree.rs]: entries and the
    byte-ordered tree, the identity encoding, the [newc] guest template, path
    normalization and symbolic-link resolution.

    The [sha2] crate is third-party: [Sha256::digest] is the method of the class
    [Sha256], and its documented output length the class [Sha256Laws].  A
    [BTreeMap] is a [gmap] iterated in key order ([btree_iter]). *)

From stdpp Require Import ssreflect.
From Stdlib Require Import Strings.Byte.
From S2P Require Import Prelude Protocol.

(** ** Limits of [workload/mod.rs] *)

Definition MAX_LAYOUT_BYTES : Z := Z.shiftl 1 20.
Definition MAX_FILE_BYTES : Z := Z.shiftl 16 20.
Definition MAX_EXPANDED_LAYER_BYTES : Z := Z.shiftl 256 20.
Definition MAX_ENTRIES : Z := 4096.
Definition MAX_LAYERS : Z := 16.
Definition MAX_PATH_BYTES : Z := 1024.
Definition MAX_SYMLINK_TARGET_BYTES : Z := 4096.
Definition MAX_SYMLINK_HOPS : nat := 40.
Definition MAX_VIEW_ENTRIES : Z := Z.shiftl 1 15.
Definition MAX_CACHE_METADATA_BYTES : Z := Z.shiftl 4 20.
Definition MAX_TEMPLATE_BYTES : Z :=
  MAX_EXPANDED_LAYER_BYTES + MAX_VIEW_ENTRIES * (MAX_PATH_BYTES + 128).
Definition RESERVED_OWNER : Z := U32_MAX.
Definition GUEST_TEMPLATE_ROOT : string := "workload".

(** ** Entries *)

Definition CANONICAL_PREFIX : bytes := as_bytes "simferret-canonical-filesystem-v1" ++ [Byte.x00].
Definition DEFAULT_DIRECTORY_MODE : Z := 493. (** 0o755 *)
Definition SYMLINK_MODE : Z := 511. (** 0o777 *)
Definition ROOT_PATH : bytes := ["."%byte].

Inductive EntryKind := Directory | File | Symlink.

#[export] Instance EntryKind_eq_dec : EqDecision EntryKind.
Proof. solve_decision. Defined.

Definition EntryKind_name (k : EntryKind) : string :=
  match k with
  | Directory => "directory"
  | File => "file"
  | Symlink => "symbolic link"
  end.

Record Entry := MkEntry {
  kind : EntryKind;
  mode : Z;
  entry_uid : Z;
  entry_gid : Z;
  mtime : Z;
  data : option bytes;
  target : option bytes;
}.

#[export] Instance Entry_eq_dec : EqDecision Entry.
Proof. solve_decision. Defined.

Definition Entry_directory (mode uid gid mtime : Z) : Entry :=
  MkEntry Directory mode uid gid mtime None None.
Definition default_directory : Entry := Entry_directory DEFAULT_DIRECTORY_MODE 0 0 0.
Definition Entry_file (data : bytes) (mode uid gid mtime : Z) : Entry :=
  MkEntry File mode uid gid mtime (Some data) None.
Definition Entry_symlink (target : bytes) (uid gid mtime : Z) : Entry :=
  MkEntry Symlink SYMLINK_MODE uid gid mtime None (Some target).

Definition file_bytes (e : Entry) : bytes := default [] e.(data).
Definition link_target (e : Entry) : bytes := default [] e.(target).

(** ** The tree *)

Definition Tree : Type := gmap bytes Entry.

Definition Tree_new : Tree := ∅.
Definition Tree_get (t : Tree) (path : bytes) : option Entry := t !! path.
Definition Tree_contains (t : Tree) (path : bytes) : bool := bool_decide (is_Some (t !! path)).
Definition Tree_insert (t : Tree) (path : bytes) (e : Entry) : Tree := <[path := e]> t.
Definition Tree_len (t : Tree) : Z := Z.of_nat (size t).
Definition Tree_iter (t : Tree) : list (bytes * Entry) := btree_iter t.

Definition insert_default_directory (t : Tree) (path : bytes) : Tree :=
  match t !! path with
  | Some _ => t
  | None => <[path := default_directory]> t
  end.

Definition SLASH : byte := "/"%byte.

Definition subtree_prefix (path : bytes) : bytes :=
  if bool_decide (path = ROOT_PATH) then [] else path ++ [SLASH].

(** [is_empty] on a slice. *)
Definition is_empty {A} (l : list A) : bool := match l with [] => true | _ => false end.

(** The closure of [remove_subtree], negated twice as in the source. *)
Definition subtree_keeps (path candidate : bytes) : bool :=
  let prefix := subtree_prefix path in
  negb (bool_decide (candidate = path)
        || (negb (is_empty prefix) && starts_with prefix candidate)
        || bool_decide (path = ROOT_PATH)).

Definition remove_subtree (t : Tree) (path : bytes) : Tree :=
  filter (fun ce => subtree_keeps path ce.1 = true) t.

Definition children_keeps (path candidate : bytes) : bool :=
  let prefix := subtree_prefix path in
  bool_decide (candidate = ROOT_PATH)
  || (negb (is_empty prefix) && negb (starts_with prefix candidate)).

Definition remove_children (t : Tree) (path : bytes) : Tree :=
  filter (fun ce => children_keeps path ce.1 = true) t.

(** [usize] sums wrap in a release build. *)
Definition expanded_bytes (t : Tree) : Z :=
  fold_left add64 (omap (fun e => zlen <$> e.(data)) (btree_values t)) 0.

Definition validate_canonical_tree (t : Tree) (max_entries max_expanded_bytes : Z)
    : result unit :=
  if max_entries <? Tree_len t then
    Err (invalid ("canonical tree exceeds " +:+ fmt_dec max_entries +:+ " entries"))
  else if max_expanded_bytes <? expanded_bytes t then
    Err (invalid ("canonical tree exceeds " +:+ fmt_dec max_expanded_bytes +:+ " expanded bytes"))
  else Ok tt.

(** ** Hexadecimal and digests *)

Definition hex (bs : bytes) : string :=
  str_of (flat_map (fun b =>
    [hex_char (Z.shiftr (byte_Z b) 4); hex_char (Z.land (byte_Z b) 15)]) bs).

Definition sha256_bytes `{Sha256} (bs : bytes) : string := hex (sha256_digest bs).

(** ** The identity encoding *)

Definition put_bytes32 (value : bytes) : bytes := be_bytes 4 (zlen value) ++ value.

Definition kind_tag (k : EntryKind) : byte :=
  match k with Directory => "D"%byte | File => "F"%byte | Symlink => "L"%byte end.

Definition encode_entry `{Sha256} (path : bytes) (e : Entry) : bytes :=
  kind_tag e.(kind) :: put_bytes32 path
  ++ be_bytes 4 e.(mode) ++ be_bytes 4 e.(entry_uid) ++ be_bytes 4 e.(entry_gid)
  ++ be_bytes 4 e.(mtime)
  ++ match e.(kind) with
     | Directory => []
     | File => be_bytes 8 (zlen (file_bytes e)) ++ sha256_digest (file_bytes e)
     | Symlink => put_bytes32 (link_target e)
     end.

Definition encode `{Sha256} (t : Tree) : bytes :=
  flat_map (fun '(path, e) => encode_entry path e) (Tree_iter t).

Definition canonical_digest `{Sha256} (t : Tree) : string :=
  hex (sha256_digest (CANONICAL_PREFIX ++ encode t)).

(** ** The [newc] template *)

(** [while !output.len().is_multiple_of(4) { output.push(0) }], which pushes at
    most three bytes. *)
Fixpoint pad4_loop (fuel : nat) (output : bytes) : bytes :=
  if zlen output mod 4 =? 0 then output
  else match fuel with O => output | S fuel => pad4_loop fuel (output ++ [Byte.x00]) end.

Definition pad4 (output : bytes) : bytes := pad4_loop 3 output.

Definition append_cpio (output name : bytes) (mode uid gid mtime : Z) (contents : bytes)
    : result bytes :=
  let name_size := zlen name + 1 in
  content_size ← (if zlen contents <=? U32_MAX then Ok (zlen contents)
                  else Err (invalid "guest template file is too large"));
  name_size ← (if name_size <=? U32_MAX then Ok name_size
               else Err (invalid "guest template name is too large"));
  let fields := [1; mode; uid; gid; 1; mtime; content_size; 0; 0; 0; 0; name_size; 0] in
  let output := output ++ as_bytes "070701" in
  let output := output ++ flat_map (hex_digits 8) fields in
  let output := pad4 (output ++ name ++ [Byte.x00]) in
  Ok (pad4 (output ++ contents)).

Definition S_IFDIR : Z := 16384.  (** 0o040000 *)
Definition S_IFREG : Z := 32768.  (** 0o100000 *)
Definition S_IFLNK : Z := 40960.  (** 0o120000 *)

Definition append_template_entry (output name : bytes) (e : Entry) : result bytes :=
  let '(mode, contents) :=
    match e.(kind) with
    | Directory => (Z.lor S_IFDIR e.(mode), [])
    | File => (Z.lor S_IFREG e.(mode), file_bytes e)
    | Symlink => (Z.lor S_IFLNK e.(mode), link_target e)
    end in
  append_cpio output name mode e.(entry_uid) e.(entry_gid) e.(mtime) contents.

(** The loop over the entries, which skips the root emitted before. *)
Fixpoint template_loop (root_name : bytes) (entries : list (bytes * Entry)) (output : bytes)
    : result bytes :=
  match entries with
  | [] => Ok output
  | (path, e) :: entries =>
      if bool_decide (path = ROOT_PATH) then template_loop root_name entries output
      else
        output ← append_template_entry output (root_name ++ [SLASH] ++ path) e;
        template_loop root_name entries output
  end.

Definition template_entries (t : Tree) (root_name : string) : result bytes :=
  root ← ok_or (t !! ROOT_PATH) (invalid "canonical tree has no root entry");
  if negb (bool_decide (root.(kind) = Directory)) then
    Err (invalid "canonical root must be a directory")
  else
    output ← append_template_entry [] (as_bytes root_name) root;
    template_loop (as_bytes root_name) (Tree_iter t) output.

Definition template (t : Tree) (root_name : string) : result bytes :=
  output ← template_entries t root_name;
  append_cpio output (as_bytes "TRAILER!!!") 0 0 0 0 [].

(** ** Paths *)

Definition parent_of (path : bytes) : option bytes :=
  if bool_decide (path = ROOT_PATH) then None
  else match rposition (fun b => bool_decide (b = SLASH)) path with
       | Some index => Some (take index path)
       | None => Some ROOT_PATH
       end.

(** The loop of [ancestors].  Each step either strips a component or reaches
    the root, so a path of [n] bytes takes at most [n + 2] steps. *)
Fixpoint ancestors_loop (fuel : nat) (current : option bytes) : list bytes :=
  match fuel, current with
  | S fuel, Some value => value :: ancestors_loop fuel (parent_of value)
  | _, _ => []
  end.

Definition ancestors (path : bytes) : list bytes :=
  ancestors_loop (length path + 2) (parent_of path).

Definition join_path (parent name : bytes) : bytes :=
  if bool_decide (parent = ROOT_PATH) then name else parent ++ [SLASH] ++ name.

Definition DOT : bytes := ["."%byte].
Definition DOTDOT : bytes := ["."%byte; "."%byte].

(** [part.is_empty() || part == b"."]. *)
Definition trivial_part (part : bytes) : bool := is_empty part || bool_decide (part = DOT).

Fixpoint normalize_parts (parts : list bytes) : result (list bytes) :=
  match parts with
  | [] => Ok []
  | part :: rest =>
      if trivial_part part then normalize_parts rest
      else if bool_decide (part = DOTDOT) then
        Err (invalid "layer paths must not contain '..' components")
      else rest ← normalize_parts rest; Ok (part :: rest)
  end.

Definition normalize_layer_path (raw : bytes) : result bytes :=
  if is_empty raw || contains_byte Byte.x00 raw then
    Err (invalid "a layer path is empty or contains a NUL byte")
  else if bool_decide (head raw = Some SLASH) then
    Err (invalid "absolute layer paths are unsupported")
  else
    parts ← normalize_parts (split_on SLASH raw);
    let path := if is_empty parts then ROOT_PATH else join_with SLASH parts in
    if MAX_PATH_BYTES <? zlen path then
      Err (invalid ("layer path is longer than " +:+ fmt_dec MAX_PATH_BYTES +:+ " bytes"))
    else Ok path.

(** ** Symbolic links *)

Definition validate_symlink_syntax (target : bytes) : result unit :=
  if is_empty target || contains_byte Byte.x00 target then
    Err (invalid "a symbolic link target is empty or contains a NUL byte")
  else if MAX_SYMLINK_TARGET_BYTES <? zlen target then
    Err (invalid "a symbolic link target exceeds the length limit")
  else if bool_decide (head target = Some SLASH) then
    Err (invalid "absolute symbolic link targets are unsupported")
  else Ok tt.

(** The components the walk pushes for a path: the non-trivial pieces. *)
Definition walk_parts (path : bytes) : list bytes :=
  List.filter (fun part => negb (trivial_part part)) (split_on SLASH path).

Definition walk_candidate (resolved : list bytes) (part : bytes) : bytes :=
  let candidate := join_with SLASH resolved in
  (if is_empty candidate then candidate else candidate ++ [SLASH]) ++ part.

(** The [while] loop of [resolve_symlink]: [pending] are the components from
    [index] on, and [budget] the link expansions left of [MAX_SYMLINK_HOPS]. *)
Fixpoint walk (t : Tree) (budget : nat) : list bytes -> list bytes -> result unit :=
  fix go (resolved pending : list bytes) {struct pending} : result unit :=
    match pending with
    | [] => Ok tt
    | part :: rest =>
        if bool_decide (part = DOTDOT) then
          match resolved with
          | [] => Err (invalid "a symbolic link target escapes the workload root")
          | _ => go (removelast resolved) rest
          end
        else
          match t !! walk_candidate resolved part with
          | Some e =>
              if bool_decide (e.(kind) = Symlink) then
                match budget with
                | O => Err (invalid "a symbolic link chain exceeds the hop limit")
                | S budget =>
                    _ ← validate_symlink_syntax (link_target e);
                    walk t budget resolved (walk_parts (link_target e) ++ rest)
                end
              else go (resolved ++ [part]) rest
          | None => go (resolved ++ [part]) rest
          end
    end.

Definition resolve_symlink (t : Tree) (link_path target : bytes) : result unit :=
  _ ← validate_symlink_syntax target;
  walk t MAX_SYMLINK_HOPS []
    (walk_parts (default [] (parent_of link_path)) ++ walk_parts target).

Fixpoint validate_symlinks_loop (t : Tree) (entries : list (bytes * Entry)) : result unit :=
  match entries with
  | [] => Ok tt
  | (path, e) :: entries =>
      if negb (bool_decide (e.(kind) = Symlink)) then validate_symlinks_loop t entries
      else
        _ ← resolve_symlink t path (link_target e);
        validate_symlinks_loop t entries
  end.

Definition validate_symlinks (t : Tree) : result unit := validate_symlinks_loop t (Tree_iter t).

(** ** Canonical paths

    A canonical path is the root or a slash-separated sequence of ordinary
    components.  The lemmas below relate the byte-level operations of the
    source to the component sequence. *)

Definition path_part (part : bytes) : Prop :=
  part <> [] /\ part <> DOT /\ part <> DOTDOT /\ SLASH ∉ part /\ Byte.x00 ∉ part.

Definition path_of (parts : list bytes) : bytes :=
  if is_empty parts then ROOT_PATH else join_with SLASH parts.

Definition canonical_path (p : bytes) : Prop :=
  exists parts, Forall path_part parts /\ p = path_of parts /\ zlen p <= MAX_PATH_BYTES.

Lemma is_empty_true {A} (l : list A) : is_empty l = true <-> l = [].
Proof. by destruct l. Qed.

Lemma is_empty_false {A} (l : list A) : is_empty l = false <-> l <> [].
Proof. by destruct l. Qed.

Lemma trivial_part_false part : trivial_part part = false <-> part <> [] /\ part <> DOT.
Proof. unfold trivial_part. by rewrite orb_false_iff is_empty_false bool_decide_eq_false. Qed.

Lemma normalize_parts_iff ps qs :
  normalize_parts ps = Ok qs <->
  DOTDOT ∉ ps /\ qs = List.filter (fun part => negb (trivial_part part)) ps.
Proof.
  revert qs. induction ps as [|p ps IH]; intros qs; simpl.
  - split; [intros [= <-]|intros [_ ->]]; [|done]. split; [|done]. apply not_elem_of_nil.
  - rewrite not_elem_of_cons. destruct (trivial_part p) eqn:Ht; simpl.
    + rewrite IH. split; [|naive_solver]. intros [??]; split_and!; try done.
      intros <-. done.
    + destruct (bool_decide_reflect (p = DOTDOT)) as [->|Hp]; [naive_solver|].
      rewrite bind_Ok. setoid_rewrite IH. split.
      * intros (a&[? ->]&[= <-]). split_and!; done.
      * intros ((?&?)&->). eexists. split; [by split|done].
Qed.

Lemma normalize_layer_path_iff raw p :
  normalize_layer_path raw = Ok p <->
  raw <> [] /\ Byte.x00 ∉ raw /\ head raw <> Some SLASH /\ DOTDOT ∉ split_on SLASH raw /\
  p = path_of (walk_parts raw) /\ zlen p <= MAX_PATH_BYTES.
Proof.
  unfold normalize_layer_path.
  destruct (is_empty raw || contains_byte Byte.x00 raw) eqn:E1.
  { split; [done|]. intros (?&?&_). apply orb_true_iff in E1 as [?%is_empty_true|E1]; [done|].
    by apply contains_byte_iff in E1. }
  apply orb_false_iff in E1 as [?%is_empty_false ?%contains_byte_false].
  destruct (bool_decide_reflect (head raw = Some SLASH)); [naive_solver|].
  rewrite bind_Ok. setoid_rewrite normalize_parts_iff. split.
  - intros (ps&[? ->]&Hr). change (List.filter _ _) with (walk_parts raw) in Hr.
    destruct (_ <? _) eqn:Hl in Hr; [done|]. injection Hr as <-. split_and!; try done.
    unfold path_of. lia.
  - intros (_&_&_&?&->&?). eexists. split; [by split|].
    change (List.filter _ _) with (walk_parts raw). unfold path_of in *.
    by destruct (_ <? _) eqn:Hl; [lia|].
Qed.

Lemma walk_parts_join ps :
  ps <> [] -> Forall path_part ps -> walk_parts (join_with SLASH ps) = ps.
Proof.
  intros Hne Hps. unfold walk_parts. rewrite split_join; [|done|].
  - clear Hne. induction Hps as [|p ps Hp _ IH]; [done|]. simpl.
    destruct Hp as (?&?&_). rewrite (proj2 (trivial_part_false p)) //=. by rewrite IH.
  - eapply Forall_impl; [|exact Hps]. by intros ? (?&?&?&?&?).
Qed.

Lemma walk_parts_path_of ps : Forall path_part ps -> walk_parts (path_of ps) = ps.
Proof.
  destruct ps as [|p ps]; [done|]. intros. by apply walk_parts_join.
Qed.

Lemma path_of_inj ps qs :
  Forall path_part ps -> Forall path_part qs -> path_of ps = path_of qs -> ps = qs.
Proof.
  intros Hp Hq E. by rewrite -(walk_parts_path_of ps) // -(walk_parts_path_of qs) // E.
Qed.

Lemma join_with_elem ps b :
  b ∈ join_with SLASH ps -> b = SLASH \/ exists p, p ∈ ps /\ b ∈ p.
Proof.
  induction ps as [|p ps IH]; simpl; [by intros ?%not_elem_of_nil|].
  destruct ps as [|q ps].
  - intros H. right. exists p. split; [constructor|done].
  - rewrite elem_of_app elem_of_cons. intros [H|[->|H]].
    + right. exists p. split; [constructor|done].
    + by left.
    + destruct (IH H) as [?|(r&?&?)]; [by left|]. right. exists r. split; [by constructor|done].
Qed.

Lemma path_of_parts_no_nul ps : Forall path_part ps -> Byte.x00 ∉ path_of ps.
Proof.
  intros Hps. unfold path_of. destruct ps as [|p ps]; [by apply contains_byte_false|].
  simpl is_empty. intros [?|(q&Hq&Hb)]%join_with_elem; [done|].
  rewrite list.Forall_forall in Hps. by destruct (Hps q Hq) as (_&_&_&_&?).
Qed.

Lemma walk_parts_good raw :
  Byte.x00 ∉ raw -> DOTDOT ∉ split_on SLASH raw -> Forall path_part (walk_parts raw).
Proof.
  intros Hnul Hdd. rewrite list.Forall_forall. intros p Hp. unfold walk_parts in Hp.
  apply list_elem_of_In, filter_In in Hp as [Hp Ht]. apply list_elem_of_In in Hp.
  apply negb_true_iff, trivial_part_false in Ht as [??]. split_and!; try done.
  - intros ->. done.
  - pose proof (split_on_no_sep SLASH raw) as Hs. rewrite list.Forall_forall in Hs. by apply Hs.
  - intros Hz. apply Hnul. rewrite -(join_split SLASH raw).
    clear -Hp Hz. induction (split_on SLASH raw) as [|q ps IH]; [by apply not_elem_of_nil in Hp|].
    simpl. apply elem_of_cons in Hp as [->|Hp].
    + destruct ps; [done|]. apply elem_of_app. by left.
    + destruct ps as [|r ps]; [by apply not_elem_of_nil in Hp|].
      apply elem_of_app. right. apply elem_of_cons. right. by apply IH.
Qed.

Lemma split_on_join_app ps r :
  ps <> [] -> Forall (fun p => SLASH ∉ p) ps ->
  split_on SLASH (join_with SLASH ps ++ SLASH :: r) = ps ++ split_on SLASH r.
Proof.
  intros Hne Hps. induction Hps as [|p ps Hp Hps IH]; [done|].
  destruct ps as [|q ps]; simpl.
  - by rewrite split_on_app.
  - simpl in IH. rewrite -app_assoc -app_comm_cons split_on_app // IH //.
Qed.

Lemma parts_no_slash ps : Forall path_part ps -> Forall (fun p => SLASH ∉ p) ps.
Proof. intros H. eapply Forall_impl; [|exact H]. by intros ? (?&?&?&?&?). Qed.

Lemma join_with_app ps qs :
  ps <> [] -> qs <> [] ->
  join_with SLASH (ps ++ qs) = join_with SLASH ps ++ SLASH :: join_with SLASH qs.
Proof.
  intros Hp Hq. induction ps as [|p ps IH]; [done|]. destruct ps as [|r ps].
  - simpl. by destruct qs.
  - change ((p :: r :: ps) ++ qs) with (p :: ((r :: ps) ++ qs)).
    transitivity (p ++ SLASH :: join_with SLASH ((r :: ps) ++ qs)); [done|].
    rewrite IH //. simpl. by rewrite -app_assoc.
Qed.

Lemma path_of_cons_join ps : ps <> [] -> path_of ps = join_with SLASH ps.
Proof. by destruct ps. Qed.

(** A component path lies below another exactly when its bytes start with the
    other's subtree prefix. *)
Lemma subtree_prefix_iff ps qs :
  Forall path_part ps -> Forall path_part qs -> ps <> [] ->
  starts_with (subtree_prefix (path_of ps)) (path_of qs) = true <->
  exists rest, rest <> [] /\ qs = ps ++ rest.
Proof.
  intros Hp Hq Hne. unfold subtree_prefix. rewrite bool_decide_eq_false_2; last first.
  { intros E. apply Hne, (path_of_inj ps []); [done|constructor|done]. }
  rewrite starts_with_iff (path_of_cons_join ps) //. split.
  - intros [r Hr]. rewrite -app_assoc /= in Hr.
    assert (Hqs : qs <> []).
    { intros ->. assert (Hs : SLASH ∈ ROOT_PATH).
      { change ROOT_PATH with (path_of []). rewrite Hr. apply elem_of_app. right. constructor. }
      by apply contains_byte_iff in Hs. }
    rewrite path_of_cons_join // in Hr.
    exists (split_on SLASH r). split; [apply split_on_ne|].
    rewrite -(split_on_join_app ps r Hne (parts_no_slash _ Hp)) -Hr.
    by rewrite split_join; [|done|by apply parts_no_slash].
  - intros (rest&Hrest&->). exists (join_with SLASH rest).
    rewrite path_of_cons_join; last by destruct ps. rewrite join_with_app // -app_assoc //.
Qed.

(** ** Parents and ancestors *)

Lemma slash_position_None p :
  rposition (fun b => bool_decide (b = SLASH)) p = None <-> SLASH ∉ p.
Proof.
  rewrite rposition_None list.Forall_forall. split.
  - intros H Hin. specialize (H _ Hin). by rewrite bool_decide_eq_true_2 in H.
  - intros H b Hb. apply bool_decide_eq_false_2. by intros ->.
Qed.

Lemma parent_of_path_of ps x :
  Forall path_part ps -> path_part x -> parent_of (path_of (ps ++ [x])) = Some (path_of ps).
Proof.
  intros Hp Hx. assert (Hall : Forall path_part (ps ++ [x])).
  { apply Forall_app. split; [done|]. by constructor. }
  unfold parent_of. rewrite bool_decide_eq_false_2; last first.
  { intros E. assert (ps ++ [x] = []) as H; [|by destruct ps].
    apply path_of_inj; [done|constructor|done]. }
  rewrite path_of_cons_join; last by destruct ps.
  destruct Hx as (_&_&_&Hs&_). destruct (decide (ps = [])) as [->|Hne].
  - simpl. by rewrite (proj2 (slash_position_None x) Hs).
  - rewrite join_with_app //. simpl join_with.
    assert (rposition (fun b => bool_decide (b = SLASH))
      (join_with SLASH ps ++ SLASH :: x) = Some (length (join_with SLASH ps))) as ->.
    { apply rposition_Some. exists (join_with SLASH ps), SLASH, x.
      split_and!; [done|done|by apply bool_decide_eq_true_2|].
      by apply rposition_None, slash_position_None. }
    by rewrite take_app_length path_of_cons_join.
Qed.

Lemma parent_of_shorter p q :
  parent_of p = Some q -> (length q < length p)%nat \/ q = ROOT_PATH.
Proof.
  unfold parent_of. case_bool_decide; [done|].
  destruct (rposition _ p) as [i|] eqn:E; intros [= <-]; [|by right].
  apply rposition_Some in E as (l1&x&l2&->&<-&_&_). left.
  rewrite take_app_length length_app /=. lia.
Qed.

Lemma ancestors_loop_fuel n m p :
  (length p + 2 <= n)%nat -> (length p + 2 <= m)%nat ->
  ancestors_loop n (parent_of p) = ancestors_loop m (parent_of p).
Proof.
  revert m p. induction n as [|n IH]; intros m p Hn Hm; [lia|].
  destruct m as [|m]; [lia|]. simpl. destruct (parent_of p) as [q|] eqn:E; [|done].
  f_equal. destruct (parent_of_shorter _ _ E) as [H| ->].
  - apply IH; lia.
  - destruct n as [|n], m as [|m]; done.
Qed.

(** The fuel of [ancestors] is never exhausted: it satisfies the unfolding of
    the source's loop on every path. *)
Lemma ancestors_unfold p :
  ancestors p = match parent_of p with Some q => q :: ancestors q | None => [] end.
Proof.
  unfold ancestors. rewrite Nat.add_comm. simpl.
  destruct (parent_of p) as [q|] eqn:E; [|done]. f_equal.
  destruct (parent_of_shorter _ _ E) as [H| ->]; [|done].
  apply (ancestors_loop_fuel (S (length p))); lia.
Qed.

Lemma ancestors_path_of ps q :
  Forall path_part ps ->
  q ∈ ancestors (path_of ps) <-> exists anc rest, ps = anc ++ rest /\ rest <> [] /\ q = path_of anc.
Proof.
  induction ps as [|x ps IH] using rev_ind; intros Hall.
  - change (path_of []) with ROOT_PATH. rewrite ancestors_unfold /=. split.
    + by intros ?%not_elem_of_nil.
    + intros (anc&rest&E&Hne&_). by destruct anc, rest.
  - apply Forall_app in Hall as [Hps Hx]. inversion Hx as [|? ? Hx' _]; subst.
    rewrite ancestors_unfold parent_of_path_of // elem_of_cons IH //. split.
    + intros [->|(anc&rest&->&Hne&->)].
      * by exists ps, [x].
      * exists anc, (rest ++ [x]). rewrite app_assoc. split_and!; [done|by destruct rest|done].
    + intros (anc&rest&E&Hne&->). destruct rest as [|y rest _] using rev_ind; [done|].
      rewrite app_assoc in E. apply app_inj_tail in E as [-> ->].
      destruct (decide (rest = [])) as [->|Hr]; [left; by rewrite app_nil_r|].
      right. by exists anc, rest.
Qed.

Lemma normalize_canonical raw p : normalize_layer_path raw = Ok p -> canonical_path p.
Proof.
  intros (?&?&?&?&->&?)%normalize_layer_path_iff. exists (walk_parts raw).
  split_and!; [by apply walk_parts_good|done|done].
Qed.

(** [normalize_layer_path] accepts exactly the relative, NUL-free paths
    without a [..] component whose normal form fits the length bound, and
    returns the path of the non-trivial components.  Every result is a
    canonical path, canonical paths are fixed points, so normalizing twice is
    normalizing once. *)
Theorem normalize_layer_path_spec raw p :
  (normalize_layer_path raw = Ok p <->
     raw <> [] /\ Byte.x00 ∉ raw /\ head raw <> Some SLASH /\ DOTDOT ∉ split_on SLASH raw /\
     p = path_of (walk_parts raw) /\ zlen p <= MAX_PATH_BYTES) /\
  (canonical_path p <-> normalize_layer_path p = Ok p) /\
  (normalize_layer_path raw = Ok p -> canonical_path p).
Proof.
  split_and!; [apply normalize_layer_path_iff| |apply normalize_canonical].
  split; [|apply normalize_canonical]. intros (ps&Hps&->&Hlen). apply normalize_layer_path_iff.
  rewrite walk_parts_path_of //. pose proof (path_of_parts_no_nul _ Hps) as Hnul.
  destruct (decide (ps = [])) as [->|Hne].
  - split_and!; try done. change (split_on _ _) with [DOT].
    by intros ?%list_elem_of_singleton.
  - rewrite path_of_cons_join // in Hlen Hnul *.
    rewrite split_join //; [|by apply parts_no_slash].
    rewrite list.Forall_forall in Hps. destruct ps as [|q ps]; [done|].
    destruct (Hps q) as (?&?&?&Hs&?); [constructor|].
    destruct q as [|b q]; [done|]. split_and!; try done.
    + simpl. by destruct ps.
    + simpl. destruct ps; simpl; intros [= ->]; apply Hs; constructor.
    + intros Hd. by destruct (Hps _ Hd) as (_&_&?&_).
Qed.

Lemma normalize_layer_path_spec_witness :
  canonical_path (as_bytes "usr/bin") /\
  normalize_layer_path (as_bytes "./usr//bin/") = Ok (as_bytes "usr/bin").
Proof.
  split; [|by vm_compute].
  apply (normalize_layer_path_spec (as_bytes "./usr//bin/")). by vm_compute.
Defined.

Lemma canonical_path_head p :
  canonical_path p -> exists b r, p = b :: r /\ b <> SLASH.
Proof.
  intros (ps&Hps&->&_). destruct Hps as [|q ps (Hq&_&_&Hs&_) _]; [by exists "."%byte, []|].
  destruct q as [|b q]; [done|]. exists b. simpl.
  assert (b <> SLASH) by (intros ->; apply Hs; constructor).
  destruct ps; eauto.
Qed.

(** ** Removal *)

Lemma filter_keys_lookup {V} (keep : bytes -> bool) (m : gmap bytes V) k :
  filter (fun kv => keep kv.1 = true) m !! k = if keep k then m !! k else None.
Proof.
  destruct (keep k) eqn:E.
  - destruct (m !! k) as [v|] eqn:Ek.
    + by apply map_lookup_filter_Some.
    + apply map_lookup_filter_None. by left.
  - apply map_lookup_filter_None. right. intros v _. simpl. by rewrite E.
Qed.

Lemma remove_subtree_lookup t p q :
  remove_subtree t p !! q = if subtree_keeps p q then t !! q else None.
Proof. apply filter_keys_lookup. Qed.

Lemma remove_children_lookup t p q :
  remove_children t p !! q = if children_keeps p q then t !! q else None.
Proof. apply filter_keys_lookup. Qed.

Lemma subtree_prefix_empty p : is_empty (subtree_prefix p) = bool_decide (p = ROOT_PATH).
Proof. unfold subtree_prefix. case_bool_decide; [done|]. by destruct p. Qed.

Lemma ancestor_iff p q :
  canonical_path p -> canonical_path q ->
  p ∈ ancestors q <->
  (p = ROOT_PATH /\ q <> ROOT_PATH) \/
  (p <> ROOT_PATH /\ starts_with (subtree_prefix p) q = true).
Proof.
  intros (ps&Hps&->&_) (qs&Hqs&->&_). rewrite ancestors_path_of //.
  assert (Hroot : forall xs, Forall path_part xs -> path_of xs = ROOT_PATH <-> xs = []).
  { intros xs Hxs. split; [|by intros ->]. apply (path_of_inj xs []); [done|constructor]. }
  rewrite !Hroot //. destruct (decide (ps = [])) as [->|Hne].
  - split.
    + intros (anc&rest&->&?&E). left. split; [done|]. by destruct anc, rest.
    + intros [[_ Hq]|[? _]]; [|done]. by exists [], qs.
  - rewrite subtree_prefix_iff //. split.
    + intros (anc&rest&->&?&E). right. split; [done|]. apply Forall_app in Hqs as [??].
      apply path_of_inj in E as <-; [|done..]. eauto.
    + intros [[? _]|[_ (rest&?&->)]]; [done|]. by exists ps, rest.
Qed.

Lemma ancestor_bool p q :
  canonical_path p -> canonical_path q ->
  bool_decide (p ∈ ancestors q) =
  if decide (p = ROOT_PATH) then negb (bool_decide (q = ROOT_PATH))
  else starts_with (subtree_prefix p) q.
Proof.
  intros Hp Hq. apply eq_bool_prop_intro. rewrite bool_decide_spec ancestor_iff //.
  destruct (decide (p = ROOT_PATH)) as [->|H].
  - case_bool_decide; naive_solver.
  - rewrite Is_true_true. naive_solver.
Qed.

Lemma root_not_below p :
  p <> ROOT_PATH -> starts_with (subtree_prefix p) ROOT_PATH = false.
Proof.
  intros Hp. apply not_true_is_false. unfold subtree_prefix. rewrite bool_decide_eq_false_2 //.
  intros [r Hr]%starts_with_iff. destruct p as [|b [|? ?]]; simplify_eq/=.
Qed.

Lemma remove_lookups t p q :
  canonical_path p -> canonical_path q ->
  remove_subtree t p !! q =
    (if bool_decide (q = p) || bool_decide (p ∈ ancestors q) then None else t !! q) /\
  remove_children t p !! q = (if bool_decide (p ∈ ancestors q) then None else t !! q).
Proof.
  intros Hp Hq. rewrite remove_subtree_lookup remove_children_lookup.
  unfold subtree_keeps, children_keeps. rewrite subtree_prefix_empty ancestor_bool //.
  destruct (decide (p = ROOT_PATH)) as [->|Hpr].
  - rewrite (bool_decide_eq_true_2 (ROOT_PATH = ROOT_PATH)) //= orb_true_r orb_false_r.
    by destruct (bool_decide (q = ROOT_PATH)).
  - rewrite (bool_decide_eq_false_2 (p = ROOT_PATH)) //= orb_false_r.
    destruct (decide (q = ROOT_PATH)) as [->|Hqr].
    + rewrite root_not_below // (bool_decide_eq_true_2 (ROOT_PATH = ROOT_PATH)) //.
      by destruct (bool_decide (ROOT_PATH = p)).
    + rewrite (bool_decide_eq_false_2 (q = ROOT_PATH)) //=.
      by destruct (starts_with _ q), (bool_decide (q = p)).
Qed.

Lemma ancestors_canonical p q : canonical_path p -> q ∈ ancestors p -> canonical_path q.
Proof.
  intros (ps&Hps&->&Hl). rewrite ancestors_path_of //. intros (anc&rest&->&Hr&->).
  apply Forall_app in Hps as [Ha Hr']. exists anc. split_and!; [done..|].
  destruct (decide (anc = [])) as [->|Hne]; [done|].
  rewrite path_of_cons_join in Hl; last by destruct anc.
  rewrite join_with_app // zlen_app zlen_cons in Hl. rewrite path_of_cons_join //.
  pose proof (zlen_nonneg (join_with SLASH rest)). lia.
Qed.

Lemma ancestors_trans a b c :
  canonical_path c -> a ∈ ancestors b -> b ∈ ancestors c -> a ∈ ancestors c.
Proof.
  intros (cp&Hc&->&_) Hab. rewrite !ancestors_path_of //.
  intros (ys&s&->&Hs&->). apply Forall_app in Hc as [Hy Hs'].
  rewrite ancestors_path_of // in Hab. destruct Hab as (xs&r&->&Hr&->).
  exists xs, (r ++ s). rewrite app_assoc. split_and!; [done|by destruct r|done].
Qed.

Lemma ancestors_irrefl p : canonical_path p -> p ∉ ancestors p.
Proof.
  intros (ps&Hps&->&_). rewrite ancestors_path_of //. intros (anc&rest&->&Hr&E).
  pose proof (proj1 (proj1 (Forall_app _ _ _) Hps)) as Ha. apply path_of_inj in E; [|done..].
  apply (f_equal length) in E. rewrite length_app in E. destruct rest; [done|]. simpl in E. lia.
Qed.

(** On canonical paths the byte-prefix tests of [remove_subtree] and
    [remove_children] select exactly the hierarchy: the former removes the path
    and everything whose ancestor chain contains it, the latter only the
    descendants, and every other entry is kept unchanged. *)
Theorem remove_spec t p q :
  canonical_path p -> canonical_path q ->
  remove_subtree t p !! q =
    (if bool_decide (q = p) || bool_decide (p ∈ ancestors q) then None else t !! q) /\
  remove_children t p !! q = (if bool_decide (p ∈ ancestors q) then None else t !! q).
Proof. apply remove_lookups. Qed.

Lemma canonical_path_dec p : normalize_layer_path p = Ok p -> canonical_path p.
Proof. apply normalize_canonical. Qed.

Lemma remove_spec_witness :
  let t := <[as_bytes "a/b" := default_directory]> (<[as_bytes "ab" := default_directory]> ∅) in
  remove_subtree t (as_bytes "a") !! as_bytes "a/b" = None /\
  remove_subtree t (as_bytes "a") !! as_bytes "ab" = Some default_directory.
Proof.
  intros t. split.
  - rewrite (proj1 (remove_spec t (as_bytes "a") (as_bytes "a/b") _ _)); [by vm_compute|..];
      apply canonical_path_dec; by vm_compute.
  - rewrite (proj1 (remove_spec t (as_bytes "a") (as_bytes "ab") _ _)); [by vm_compute|..];
      apply canonical_path_dec; by vm_compute.
Defined.

(** ** The encoding identifies the tree *)

Definition entry_wf (path : bytes) (e : Entry) : Prop :=
  zlen path <= MAX_PATH_BYTES /\
  u32_range e.(mode) /\ u32_range e.(entry_uid) /\ u32_range e.(entry_gid) /\
  u32_range e.(mtime) /\
  match e.(kind) with
  | Directory => e.(data) = None /\ e.(target) = None
  | File => (exists d, e.(data) = Some d /\ zlen d <= MAX_FILE_BYTES) /\ e.(target) = None
  | Symlink => e.(data) = None /\
      exists tg, e.(target) = Some tg /\ zlen tg <= MAX_SYMLINK_TARGET_BYTES
  end.

(** The shape every assembled tree has: entries built by the constructors above
    within the limits of the assembler. *)
Definition tree_wf (t : Tree) : Prop := map_Forall entry_wf t.

Lemma hex_inj a b : hex a = hex b -> a = b.
Proof.
  intros E. assert (H : forall l, decode_pairs (as_bytes (hex l)) = Ok l).
  { intros l. apply decode_pairs_Ok; [|done].
    change (str_len (encode_bytes l) mod 2 = 0). rewrite str_len_encode_bytes. lia_mod. }
  assert (Ok a = Ok b) as [= ->]; [|done]. by rewrite -!H E.
Qed.

Lemma app_be_bytes_inj n a b r s :
  0 <= a < 256 ^ Z.of_nat n -> 0 <= b < 256 ^ Z.of_nat n ->
  be_bytes n a ++ r = be_bytes n b ++ s -> a = b /\ r = s.
Proof.
  intros Ha Hb E. apply app_inj_1 in E as [E ->]; [|by rewrite !length_be_bytes].
  by apply be_bytes_inj in E as ->.
Qed.

Lemma app_be_bytes4_inj a b r s :
  u32_range a -> u32_range b -> be_bytes 4 a ++ r = be_bytes 4 b ++ s -> a = b /\ r = s.
Proof. unfold u32_range, U32_MAX. intros ??. apply app_be_bytes_inj; lia. Qed.

Lemma put_bytes32_inj v w r s :
  zlen v <= U32_MAX -> zlen w <= U32_MAX ->
  put_bytes32 v ++ r = put_bytes32 w ++ s -> v = w /\ r = s.
Proof.
  unfold put_bytes32. rewrite -!app_assoc. intros Hv Hw E.
  apply app_be_bytes4_inj in E as [El E]; [|split; [apply zlen_nonneg|done]..].
  apply app_inj_1 in E; [done|]. unfold zlen in El. lia.
Qed.

Lemma tree_wf_iter t : tree_wf t -> Forall (fun pe => entry_wf pe.1 pe.2) (Tree_iter t).
Proof.
  intros Hwf. apply list.Forall_forall. intros [p e] Hpe%btree_iter_elem. by apply Hwf.
Qed.

Section identity.
Context `{Sha256Laws}.
#[local] Set Default Proof Using "All".

(** Two different byte strings with the same SHA-256 digest. *)
Definition sha256_collision : Prop :=
  exists a b : bytes, a <> b /\ sha256_digest a = sha256_digest b.

Lemma digest_eq a b : sha256_digest a = sha256_digest b -> a = b \/ sha256_collision.
Proof.
  intros E. destruct (decide (a = b)) as [->|Hne]; [by left|]. right. by exists a, b.
Qed.

(** The type-specific end of an entry's encoding. *)
Lemma encode_entry_inj p e q f r s :
  entry_wf p e -> entry_wf q f ->
  encode_entry p e ++ r = encode_entry q f ++ s ->
  p = q /\ r = s /\ (e = f \/ sha256_collision).
Proof.
  intros (Hp&Hm&Hu&Hg&Ht&Hk) (Hq&Hm'&Hu'&Hg'&Ht'&Hk') E.
  unfold encode_entry in E. rewrite -!app_comm_cons -!app_assoc in E.
  apply cons_eq_inj in E as [Htag E]. assert (MAX_PATH_BYTES <= U32_MAX) by done.
  apply put_bytes32_inj in E as [-> E]; [|lia..].
  apply app_be_bytes4_inj in E as [Em E]; [|done..].
  apply app_be_bytes4_inj in E as [Eu E]; [|done..].
  apply app_be_bytes4_inj in E as [Eg E]; [|done..].
  apply app_be_bytes4_inj in E as [Et E]; [|done..].
  assert (Ek : e.(kind) = f.(kind)) by (by destruct (e.(kind)), (f.(kind))).
  destruct e as [k m u g mt d tg], f as [k' m' u' g' mt' d' tg'].
  cbn [kind mode entry_uid entry_gid mtime data target] in *. subst k' m' u' g' mt'.
  split; [done|]. destruct k.
  - destruct Hk as [-> ->], Hk' as [-> ->]. by auto.
  - destruct Hk as [(x&->&Hx) ->], Hk' as [(y&->&Hy) ->].
    change ((be_bytes 8 (zlen x) ++ sha256_digest x) ++ r
      = (be_bytes 8 (zlen y) ++ sha256_digest y) ++ s) in E. rewrite -!app_assoc in E.
    unfold MAX_FILE_BYTES in *. rewrite Z.shiftl_mul_pow2 in Hx Hy; [|done..].
    apply app_be_bytes_inj in E as [El E]; [|pose proof (zlen_nonneg x);
      pose proof (zlen_nonneg y); simpl; lia..].
    apply app_inj_1 in E as [Ed ->]; [|by rewrite !sha256_digest_length].
    split; [done|]. apply digest_eq in Ed as [->|?]; auto.
  - destruct Hk as [-> (x&->&Hx)], Hk' as [-> (y&->&Hy)].
    change (put_bytes32 x ++ r = put_bytes32 y ++ s) in E.
    assert (MAX_SYMLINK_TARGET_BYTES <= U32_MAX) by done.
    apply put_bytes32_inj in E as [-> ->]; [by auto|lia..].
Qed.

Lemma encode_list_inj l1 l2 :
  Forall (fun pe => entry_wf pe.1 pe.2) l1 -> Forall (fun pe => entry_wf pe.1 pe.2) l2 ->
  flat_map (fun '(p, e) => encode_entry p e) l1 = flat_map (fun '(p, e) => encode_entry p e) l2 ->
  l1 = l2 \/ sha256_collision.
Proof.
  intros H1. revert l2. induction H1 as [|[p e] l1 Hpe _ IH]; intros l2 H2 E.
  - destruct H2 as [|[q f] l2 _ _]; [by left|]. done.
  - destruct H2 as [|[q f] l2 Hqf H2]; [done|]. cbn [flat_map] in E.
    apply encode_entry_inj in E as (->&E&[->|?]); [|by auto|done..].
    destruct (IH l2 H2 E) as [->|?]; auto.
Qed.

(** The canonical digest identifies a workload filesystem: two assembled
    trees with equal canonical digests are equal in every path, type, mode,
    owner, group, timestamp, file byte and link target, unless they exhibit two
    different byte strings with the same SHA-256 digest.  The serialization
    underneath it is injective with no collision involved for anything but
    file contents. *)
Theorem canonical_digest_identifies t1 t2 :
  tree_wf t1 -> tree_wf t2 ->
  canonical_digest t1 = canonical_digest t2 -> t1 = t2 \/ sha256_collision.
Proof.
  intros H1 H2 E%hex_inj. apply digest_eq in E as [E|?]; [|by auto].
  apply app_inj_1 in E as [_ E]; [|done].
  destruct (encode_list_inj _ _ (tree_wf_iter _ H1) (tree_wf_iter _ H2) E) as [Hl|?]; [|by auto].
  left. by apply btree_iter_inj.
Qed.
End identity.

(** A toy digest of the right length, to evaluate the definitions with. *)
Definition toy_sha256 : Sha256 := {| sha256_digest b := be_bytes 32 (zlen b) |}.
Definition toy_sha256_laws : @Sha256Laws toy_sha256.
Proof. constructor. intros b. apply length_be_bytes. Defined.

Definition sample_tree : Tree :=
  <[ROOT_PATH := default_directory]>
  (<[as_bytes "app" := Entry_file (as_bytes "ELF") 493 0 0 0]>
  (<[as_bytes "lib" := Entry_symlink (as_bytes "usr/lib") 0 0 0]> ∅)).

Lemma sample_tree_wf : tree_wf sample_tree.
Proof.
  unfold sample_tree, tree_wf. apply map_Forall_insert_2; [|apply map_Forall_insert_2;
    [|apply map_Forall_insert_2; [|apply map_Forall_empty]]];
    unfold entry_wf, u32_range; cbn [kind mode entry_uid entry_gid mtime data target
      Entry_file Entry_symlink default_directory Entry_directory];
    split_and!; try done; eexists; split; done.
Qed.

Definition reassembled_tree : Tree :=
  insert_default_directory (delete ROOT_PATH sample_tree) ROOT_PATH.

Lemma reassembled_tree_eq : reassembled_tree = sample_tree.
Proof.
  unfold reassembled_tree, insert_default_directory. rewrite lookup_delete_eq insert_delete_eq.
  apply insert_id. apply lookup_insert_eq.
Qed.

(** The same tree, assembled in another order. *)
Lemma canonical_digest_identifies_witness :
  reassembled_tree = sample_tree \/ @sha256_collision toy_sha256.
Proof.
  apply (@canonical_digest_identifies toy_sha256 toy_sha256_laws).
  - rewrite reassembled_tree_eq. apply sample_tree_wf.
  - apply sample_tree_wf.
  - by rewrite reassembled_tree_eq.
Defined.

(** ** Symbolic links stay inside the root *)

Definition symlink_syntax (target : bytes) : Prop :=
  target <> [] /\ Byte.x00 ∉ target /\ zlen target <= MAX_SYMLINK_TARGET_BYTES /\
  head target <> Some SLASH.

(** Path resolution against the tree, with the root as the ceiling: [resolves t
    here pending hops final] walks the components [pending] from the directory
    [here] and ends at [final] after following [hops] links.  There is no rule
    for [..] at the root: such a walk escapes and does not resolve. *)
Inductive resolves (t : Tree) : list bytes -> list bytes -> nat -> list bytes -> Prop :=
  | resolves_done here : resolves t here [] 0 here
  | resolves_up here x rest hops final :
      resolves t here rest hops final ->
      resolves t (here ++ [x]) (DOTDOT :: rest) hops final
  | resolves_link here part rest e hops final :
      part <> DOTDOT ->
      t !! walk_candidate here part = Some e -> e.(kind) = Symlink ->
      symlink_syntax (link_target e) ->
      resolves t here (walk_parts (link_target e) ++ rest) hops final ->
      resolves t here (part :: rest) (S hops) final
  | resolves_down here part rest hops final :
      part <> DOTDOT ->
      (forall e, t !! walk_candidate here part = Some e -> e.(kind) <> Symlink) ->
      resolves t (here ++ [part]) rest hops final ->
      resolves t here (part :: rest) hops final.

Lemma validate_symlink_syntax_iff tg : validate_symlink_syntax tg = Ok tt <-> symlink_syntax tg.
Proof.
  unfold validate_symlink_syntax, symlink_syntax.
  destruct (is_empty tg) eqn:E1; [apply is_empty_true in E1; naive_solver|].
  destruct (contains_byte Byte.x00 tg) eqn:E2; [apply contains_byte_iff in E2; naive_solver|].
  apply is_empty_false in E1. apply contains_byte_false in E2. simpl.
  destruct (Z.ltb_spec MAX_SYMLINK_TARGET_BYTES (zlen tg)).
  { split; [done|]. intros (_&_&?&_). lia. }
  case_bool_decide; split; try done; naive_solver.
Qed.

Lemma walk_unfold t budget resolved pending :
  walk t budget resolved pending =
  match pending with
  | [] => Ok tt
  | part :: rest =>
      if bool_decide (part = DOTDOT) then
        match resolved with
        | [] => Err (invalid "a symbolic link target escapes the workload root")
        | _ => walk t budget (removelast resolved) rest
        end
      else
        match t !! walk_candidate resolved part with
        | Some e =>
            if bool_decide (e.(kind) = Symlink) then
              match budget with
              | O => Err (invalid "a symbolic link chain exceeds the hop limit")
              | S budget =>
                  _ ← validate_symlink_syntax (link_target e);
                  walk t budget resolved (walk_parts (link_target e) ++ rest)
              end
            else walk t budget (resolved ++ [part]) rest
        | None => walk t budget (resolved ++ [part]) rest
        end
  end.
Proof. by destruct budget, pending. Qed.

Lemma walk_sound t budget : forall pending resolved,
  walk t budget resolved pending = Ok tt ->
  exists hops final, (hops <= budget)%nat /\ resolves t resolved pending hops final.
Proof.
  induction budget as [budget IHb] using lt_wf_ind. intros pending.
  induction pending as [|part rest IH]; intros resolved H; rewrite walk_unfold in H.
  { exists 0%nat, resolved. split; [lia|constructor]. }
  destruct (bool_decide_reflect (part = DOTDOT)) as [->|Hdd].
  { destruct resolved as [|x resolved _] using rev_ind; [done|].
    rewrite removelast_last in H. destruct (resolved ++ [x]) eqn:E; [by destruct resolved|].
    rewrite -E. destruct (IH _ H) as (h&f&?&?). exists h, f. split; [done|by constructor]. }
  destruct (t !! walk_candidate resolved part) as [e|] eqn:Et.
  2: { destruct (IH _ H) as (h&f&?&?). exists h, f. split; [done|].
       apply resolves_down; [done| |done]. naive_solver. }
  destruct (bool_decide_reflect (e.(kind) = Symlink)) as [Hk|Hk].
  - destruct budget as [|budget]; [done|]. apply bind_Ok in H as ([]&Hs&H).
    destruct (IHb budget ltac:(lia) _ _ H) as (h&f&?&?). exists (S h), f. split; [lia|].
    eapply resolves_link; [done..| |done]. by apply validate_symlink_syntax_iff.
  - destruct (IH _ H) as (h&f&?&?). exists h, f. split; [done|].
    apply resolves_down; [done| |done]. naive_solver.
Qed.

Lemma walk_complete t here pending hops final :
  resolves t here pending hops final ->
  forall budget, (hops <= budget)%nat -> walk t budget here pending = Ok tt.
Proof.
  induction 1 as [here|here x rest h f _ IH|here part rest e h f Hd He Hk Hs _ IH
                 |here part rest h f Hd He _ IH]; intros budget Hb; rewrite walk_unfold.
  - done.
  - rewrite bool_decide_eq_true_2 //. rewrite removelast_last IH //. by destruct here.
  - rewrite bool_decide_eq_false_2 // He bool_decide_eq_true_2 //.
    destruct budget as [|budget]; [lia|].
    rewrite (proj2 (validate_symlink_syntax_iff _) Hs). cbn [mbind result_bind].
    apply IH. lia.
  - rewrite bool_decide_eq_false_2 //.
    destruct (t !! walk_candidate here part) as [e|] eqn:E; [|by apply IH].
    rewrite bool_decide_eq_false_2; [by apply IH|by apply He].
Qed.

(** A component the walk can stand on. *)
Definition walk_part (part : bytes) : Prop :=
  part <> [] /\ part <> DOT /\ SLASH ∉ part.

Lemma walk_parts_wf path : Forall walk_part (walk_parts path).
Proof.
  apply list.Forall_forall. intros p Hp. apply list_elem_of_In, filter_In in Hp as [Hp Ht].
  apply negb_true_iff, trivial_part_false in Ht as [??]. split_and!; [done..|].
  pose proof (split_on_no_sep SLASH path) as Hs. rewrite list.Forall_forall in Hs.
  apply Hs. by apply list_elem_of_In.
Qed.

Lemma resolves_inside t here pending hops final :
  resolves t here pending hops final ->
  Forall walk_part pending -> Forall (fun p => walk_part p /\ p <> DOTDOT) here ->
  Forall (fun p => walk_part p /\ p <> DOTDOT) final.
Proof.
  induction 1 as [here|here x rest h f _ IH|here part rest e h f Hd He Hk Hs _ IH
                 |here part rest h f Hd He _ IH]; intros Hp Hh.
  - done.
  - inversion Hp; subst. apply Forall_app in Hh as [? _]. by apply IH.
  - inversion Hp; subst. apply IH; [|done]. apply Forall_app. split; [apply walk_parts_wf|done].
  - inversion Hp; subst. apply IH; [done|]. apply Forall_app. split; [done|].
    constructor; [by split|constructor].
Qed.

Lemma validate_symlinks_loop_iff t l :
  validate_symlinks_loop t l = Ok tt <->
  Forall (fun pe => pe.2.(kind) = Symlink ->
    resolve_symlink t pe.1 (link_target pe.2) = Ok tt) l.
Proof.
  induction l as [|[p e] l IH]; cbn [validate_symlinks_loop]; [by split|].
  rewrite Forall_cons_iff -IH. destruct (bool_decide_reflect (e.(kind) = Symlink)); simpl.
  - rewrite bind_Ok. split.
    + intros ([]&?&?). naive_solver.
    + intros [??]. exists tt. naive_solver.
  - naive_solver.
Qed.

(** C18. [validate_symlinks] accepts a tree exactly when every symbolic link in
    it resolves inside the workload root: its target and the target of every
    link met on the way are relative and well formed, no step climbs above the
    root, at most [MAX_SYMLINK_HOPS] links are followed, and the walk ends at a
    path of ordinary components.  The check always terminates. *)
Theorem validate_symlinks_iff t :
  validate_symlinks t = Ok tt <->
  forall p e, t !! p = Some e -> e.(kind) = Symlink ->
    symlink_syntax (link_target e) /\
    exists hops final, (hops <= MAX_SYMLINK_HOPS)%nat /\
      Forall (fun part => walk_part part /\ part <> DOTDOT) final /\
      resolves t [] (walk_parts (default [] (parent_of p)) ++ walk_parts (link_target e))
        hops final.
Proof.
  unfold validate_symlinks. rewrite validate_symlinks_loop_iff list.Forall_forall.
  split.
  - intros H p e Hp Hk. specialize (H (p, e) (proj2 (btree_iter_elem _ _ _) Hp) Hk).
    apply bind_Ok in H as ([]&Hs%validate_symlink_syntax_iff&H). split; [done|].
    apply walk_sound in H as (h&f&?&Hr). exists h, f. split_and!; [done| |done].
    eapply resolves_inside; [exact Hr| |constructor].
    apply Forall_app. split; apply walk_parts_wf.
  - intros H [p e] Hp%btree_iter_elem Hk.
    destruct (H p e Hp Hk) as (Hs&h&f&Hh&_&Hr). unfold resolve_symlink.
    rewrite (proj2 (validate_symlink_syntax_iff _) Hs). cbn [mbind result_bind].
    by eapply walk_complete.
Qed.

(** The example of the source: [a -> .] and [b -> a/../outside] pass a lexical
    count of [..] components but are rejected. *)
Example validate_symlinks_dot_trick :
  validate_symlinks (<[as_bytes "a" := Entry_symlink (as_bytes ".") 0 0 0]>
    (<[as_bytes "b" := Entry_symlink (as_bytes "a/../outside") 0 0 0]> ∅))
  = Err (invalid "a symbolic link target escapes the workload root").
Proof. vm_compute. reflexivity. Qed.

(** ** The guest template fits its bound *)

Definition zsum (l : list Z) : Z := foldr Z.add 0 l.

Lemma zsum_bounds l m : Forall (fun z => 0 <= z <= m) l -> 0 <= zsum l <= zlen l * m.
Proof.
  induction 1 as [|z l Hz _ IH]; [done|].
  change (zsum (z :: l)) with (z + zsum l). rewrite zlen_cons. lia.
Qed.

Lemma zsum_nonneg l : Forall (fun z => 0 <= z) l -> 0 <= zsum l.
Proof.
  induction 1 as [|z l Hz _ IH]; [done|]. change (0 <= z + zsum l). lia.
Qed.

Lemma fold_add64_sum l acc :
  Forall (fun z => 0 <= z) l -> 0 <= acc -> acc + zsum l <= U64_MAX ->
  fold_left add64 l acc = acc + zsum l.
Proof.
  intros Hl. revert acc. induction Hl as [|z l Hz Hl IH]; intros acc Ha Hs.
  - simpl in *. lia.
  - change (zsum (z :: l)) with (z + zsum l) in *.
    pose proof (zsum_nonneg l Hl).
    simpl fold_left. rewrite IH add64_small; lia.
Qed.

Lemma pad4_loop_zlen n o :
  (- zlen o) mod 4 <= Z.of_nat n -> zlen (pad4_loop n o) = zlen o + (- zlen o) mod 4.
Proof.
  revert o. induction n as [|n IH]; intros o Hn; cbn [pad4_loop].
  - destruct (Z.eqb_spec (zlen o mod 4) 0); lia_mod.
  - destruct (Z.eqb_spec (zlen o mod 4) 0); [lia_mod|].
    rewrite IH !zlen_app zlen_cons zlen_nil; lia_mod.
Qed.

(** Three steps always suffice. *)
Lemma pad4_spec o : zlen (pad4 o) mod 4 = 0 /\ zlen o <= zlen (pad4 o) <= zlen o + 3.
Proof. unfold pad4. rewrite pad4_loop_zlen; lia_mod. Qed.

Lemma zlen_fields l : zlen (flat_map (hex_digits 8) l) = 8 * zlen l.
Proof.
  induction l as [|z l IH]; [done|]. cbn [flat_map]. rewrite zlen_app IH zlen_cons.
  unfold zlen at 1. rewrite length_hex_digits. lia.
Qed.

Lemma append_cpio_spec o name mode uid gid mtime contents :
  zlen name < U32_MAX -> zlen contents <= U32_MAX ->
  exists out, append_cpio o name mode uid gid mtime contents = Ok out /\
    zlen out mod 4 = 0 /\ zlen out <= zlen o + 117 + zlen name + zlen contents.
Proof.
  intros Hn Hc. unfold append_cpio. rewrite (proj2 (Z.leb_le _ _) Hc). cbn [mbind result_bind].
  rewrite (proj2 (Z.leb_le (zlen name + 1) U32_MAX)); [|lia]. cbn [mbind result_bind].
  pose proof (zlen_fields [1; mode; uid; gid; 1; mtime; zlen contents; 0; 0; 0; 0;
    zlen name + 1; 0]) as Hf.
  set (header := flat_map (hex_digits 8) _) in *. clearbody header.
  eexists. split; [reflexivity|].
  destruct (pad4_spec (((o ++ as_bytes "070701") ++ header) ++ name ++ [Byte.x00])) as (_&H1).
  match goal with |- zlen (pad4 ?b) mod 4 = 0 /\ _ => destruct (pad4_spec b) as (Ha&H2) end.
  split; [done|]. rewrite !zlen_app zlen_cons zlen_nil in H1. rewrite zlen_app in H2.
  rewrite !zlen_cons zlen_nil in Hf. change (zlen (as_bytes "070701")) with 6 in H1. lia.
Qed.

Definition entry_contents (e : Entry) : bytes :=
  match e.(kind) with Directory => [] | File => file_bytes e | Symlink => link_target e end.

Lemma append_template_entry_spec o name e :
  zlen name < U32_MAX -> zlen (entry_contents e) <= U32_MAX ->
  exists out, append_template_entry o name e = Ok out /\
    zlen out mod 4 = 0 /\ zlen out <= zlen o + 117 + zlen name + zlen (entry_contents e).
Proof.
  intros Hn Hc. unfold append_template_entry, entry_contents in *.
  destruct (e.(kind)); by apply append_cpio_spec.
Qed.

(** The bytes an entry adds to the template and to the manifest. *)
Definition template_cost (pe : bytes * Entry) : Z :=
  126 + zlen pe.1 + zlen (entry_contents pe.2).

Lemma entry_contents_small p e : entry_wf p e -> zlen (entry_contents e) <= MAX_FILE_BYTES.
Proof.
  intros (_&_&_&_&_&Hk). unfold entry_contents, file_bytes, link_target.
  destruct (e.(kind)).
  - done.
  - destruct Hk as [(d&->&?) _]. done.
  - destruct Hk as [_ (tg&->&?)]. simpl. unfold MAX_FILE_BYTES, MAX_SYMLINK_TARGET_BYTES in *.
    rewrite Z.shiftl_mul_pow2; lia.
Qed.

Lemma template_loop_spec l o :
  Forall (fun pe => entry_wf pe.1 pe.2) l -> zlen o mod 4 = 0 ->
  exists out, template_loop (as_bytes GUEST_TEMPLATE_ROOT) l o = Ok out /\
    zlen out mod 4 = 0 /\ zlen out <= zlen o + zsum (map template_cost l).
Proof.
  intros Hl. revert o. induction Hl as [|[p e] l Hpe Hl IH]; intros o Ho.
  { exists o. simpl. split_and!; [done..|lia]. }
  pose proof (entry_contents_small _ _ Hpe) as Hc. destruct Hpe as (Hp&_).
  simpl in Hp, Hc. pose proof (zlen_nonneg p). pose proof (zlen_nonneg (entry_contents e)).
  change (zsum (map template_cost ((p, e) :: l))) with
    (126 + zlen p + zlen (entry_contents e) + zsum (map template_cost l)).
  cbn [template_loop]. case_bool_decide.
  - destruct (IH o Ho) as (out&->&?&?). exists out. split_and!; [done..|lia].
  - destruct (append_template_entry_spec o
      (as_bytes GUEST_TEMPLATE_ROOT ++ [SLASH] ++ p) e) as (o1&->&Ha&Hz).
    + rewrite !zlen_app. change (zlen (as_bytes GUEST_TEMPLATE_ROOT)) with 8.
      change (zlen [SLASH]) with 1. unfold MAX_PATH_BYTES, U32_MAX in *. lia.
    + unfold MAX_FILE_BYTES, U32_MAX in *. rewrite Z.shiftl_mul_pow2 in Hc; lia.
    + cbn [mbind result_bind]. destruct (IH o1 Ha) as (out&->&?&?). exists out.
      split_and!; [done..|]. rewrite !zlen_app in Hz.
      change (zlen (as_bytes GUEST_TEMPLATE_ROOT)) with 8 in Hz.
      change (zlen [SLASH]) with 1 in Hz. lia.
Qed.

Definition data_len (e : Entry) : Z := default 0 (zlen <$> e.(data)).

Lemma zlen_be_bytes n z : zlen (be_bytes n z) = Z.of_nat n.
Proof. unfold zlen. by rewrite length_be_bytes. Qed.

(** Everything the template spends on an entry beyond a fixed header is either
    file data or already counted by the manifest. *)
Lemma template_cost_bound `{Sha256Laws} p e :
  entry_wf p e -> template_cost (p, e) <= 105 + zlen (encode_entry p e) + data_len e.
Proof.
  intros (_&_&_&_&_&Hk). unfold template_cost, encode_entry, entry_contents, put_bytes32.
  rewrite zlen_cons !zlen_app !zlen_be_bytes. cbn [fst snd].
  destruct (e.(kind)); rewrite ?zlen_app ?zlen_be_bytes.
  - destruct Hk as [Hd _]. unfold data_len. rewrite Hd /= !zlen_nil. lia.
  - destruct Hk as [(d&Hd&_) _]. unfold data_len, file_bytes. rewrite Hd. cbn.
    pose proof (zlen_nonneg (sha256_digest d)). lia.
  - destruct Hk as [Hd _]. unfold data_len. rewrite Hd. cbn [default fmap option_fmap option_map from_option]. lia.
Qed.

Lemma template_costs_bound `{Sha256Laws} l :
  Forall (fun pe => entry_wf pe.1 pe.2) l ->
  zsum (map template_cost l) <=
  105 * zlen l + zlen (flat_map (fun '(p, e) => encode_entry p e) l)
  + zsum (map (fun pe => data_len pe.2) l).
Proof.
  induction 1 as [|[p e] l Hpe _ IH]; [done|]. cbn [map flat_map].
  change (zsum (?a :: ?b)) with (a + zsum b). rewrite zlen_cons zlen_app.
  pose proof (template_cost_bound _ _ Hpe). cbn [fst snd] in *. lia.
Qed.

Lemma omap_data_sum (l : list Entry) :
  zsum (omap (fun e => zlen <$> e.(data)) l) = zsum (map data_len l).
Proof.
  induction l as [|e l IH]; [done|]. cbn [map].
  change (zsum (data_len e :: ?b)) with (data_len e + zsum b). rewrite -IH.
  unfold data_len. cbn [omap list_omap]. by destruct (e.(data)).
Qed.

Lemma tree_len_iter t : Tree_len t = zlen (Tree_iter t).
Proof.
  unfold Tree_len, zlen, Tree_iter. rewrite (btree_iter_perm t).
  by rewrite length_map_to_list.
Qed.

(** Under the entry limit the [usize] sum of file sizes does not wrap. *)
Lemma expanded_bytes_sum t :
  tree_wf t -> Tree_len t <= MAX_VIEW_ENTRIES ->
  expanded_bytes t = zsum (map (fun pe => data_len pe.2) (Tree_iter t)).
Proof.
  intros Hwf Hlen. rewrite tree_len_iter in Hlen. apply tree_wf_iter in Hwf.
  assert (Hd : Forall (fun z => 0 <= z <= MAX_FILE_BYTES)
    (map (fun pe => data_len pe.2) (Tree_iter t))).
  { apply List.Forall_map. eapply List.Forall_impl; [|exact Hwf].
    intros [p e] (_&_&_&_&_&Hk). unfold data_len. cbn [snd] in *.
    destruct (e.(kind)); [destruct Hk as [-> _]|destruct Hk as [(d&->&?) _]|destruct Hk as [-> _]];
      cbn; try done. pose proof (zlen_nonneg d). lia. }
  pose proof (zsum_bounds _ _ Hd) as Hs. rewrite zlen_map in Hs.
  unfold expanded_bytes, btree_values.
  rewrite fold_add64_sum ?omap_data_sum ?map_map; [done| |done|]; fold (Tree_iter t).
  - apply list.Forall_forall. intros z Hz. apply list_elem_of_omap in Hz as (e&_&Hz).
    apply fmap_Some in Hz as (d&_&->). apply zlen_nonneg.
  - unfold MAX_FILE_BYTES, MAX_VIEW_ENTRIES, U64_MAX in *.
    rewrite Z.shiftl_mul_pow2 // in Hs. rewrite Z.shiftl_mul_pow2 // in Hlen.
    pose proof (zlen_nonneg (Tree_iter t)). nia.
Qed.

(** A tree that passes the assembler's checks has a guest template, the
    template is a sequence of four-byte aligned records, and it never exceeds
    [MAX_TEMPLATE_BYTES]: the manifest bound already pays for every path and
    link target.  So publication cannot fail on the template's size. *)
Theorem template_fits `{Sha256Laws} t root :
  tree_wf t -> t !! ROOT_PATH = Some root -> root.(kind) = Directory ->
  validate_canonical_tree t MAX_VIEW_ENTRIES MAX_EXPANDED_LAYER_BYTES = Ok tt ->
  zlen (encode t) <= MAX_CACHE_METADATA_BYTES ->
  exists out, template t GUEST_TEMPLATE_ROOT = Ok out /\
    zlen out mod 4 = 0 /\ zlen out <= MAX_TEMPLATE_BYTES.
Proof.
  intros Hwf Hroot Hk Hv Henc. unfold validate_canonical_tree in Hv.
  destruct (Z.ltb_spec MAX_VIEW_ENTRIES (Tree_len t)) as [|Hlen]; [done|].
  destruct (Z.ltb_spec MAX_EXPANDED_LAYER_BYTES (expanded_bytes t)) as [|Hexp]; [done|].
  rewrite expanded_bytes_sum // in Hexp. rewrite tree_len_iter in Hlen.
  pose proof (tree_wf_iter _ Hwf) as Hall. pose proof (template_costs_bound _ Hall) as Hcost.
  unfold template, template_entries. rewrite Hroot. cbn [ok_or mbind result_bind].
  rewrite bool_decide_eq_true_2 //. cbn [negb].
  destruct (append_template_entry_spec [] (as_bytes GUEST_TEMPLATE_ROOT) root)
    as (o1&->&Ha&Hz1); [done|by rewrite /entry_contents Hk|].
  cbn [mbind result_bind].
  destruct (template_loop_spec _ o1 Hall Ha) as (o2&->&Ha2&Hz2). cbn [mbind result_bind].
  destruct (append_cpio_spec o2 (as_bytes "TRAILER!!!") 0 0 0 0 []) as (out&->&Ha3&Hz3); [done..|].
  exists out. split_and!; [done..|].
  change (zlen (as_bytes "TRAILER!!!")) with 10 in Hz3. rewrite !zlen_nil in Hz1 Hz3.
  change (zlen (as_bytes GUEST_TEMPLATE_ROOT)) with 8 in Hz1.
  unfold entry_contents in Hz1. rewrite Hk zlen_nil in Hz1.
  unfold encode in Henc. change MAX_CACHE_METADATA_BYTES with 4194304 in *.
  change MAX_EXPANDED_LAYER_BYTES with 268435456 in *. change MAX_VIEW_ENTRIES with 32768 in *.
  change MAX_TEMPLATE_BYTES with (268435456 + 32768 * 1152). lia.
Qed.

Lemma template_fits_witness :
  exists out, template sample_tree GUEST_TEMPLATE_ROOT = Ok out /\ zlen out <= MAX_TEMPLATE_BYTES.
Proof.
  destruct (@template_fits toy_sha256 toy_sha256_laws sample_tree default_directory)
    as (out&Ho&_&Hz).
  - apply sample_tree_wf.
  - apply lookup_insert_eq.
  - reflexivity.
  - vm_compute. reflexivity.
  - vm_compute. discriminate.
  - exists out. exact (conj Ho Hz).
Defined.
