(* ===== verification/Spec.v ===== *)
(** The workload specification and launch identity of [workload/spec.rs]:
    locators, digests, argument and environment vectors, numeric users, working
    directories, and the launch check that assembler and guest runtime share.

    The [toml] decoder is third-party: the three document decoders are section
    variables of [WorkloadSpec_parse]. *)

From stdpp Require Import ssreflect.
From Stdlib Require Import Strings.Byte.
From S2P Require Import Prelude Types Std Protocol Tree.

Definition WORKLOAD_SPEC_VERSION : Z := 1.
Definition MAX_SPECIFICATION_BYTES : Z := Z.shiftl 1 20.
Definition MAX_ARGUMENTS : Z := 256.
Definition MAX_ARGUMENT_BYTES : Z := 4096.
Definition MAX_ENVIRONMENT_ENTRIES : Z := 256.
Definition MAX_ENVIRONMENT_ENTRY_BYTES : Z := 4096.
Definition MAX_ENVIRONMENT_BYTES : Z := 64 * 1024.

Definition DEFAULT_USER : string := "65534:65534".
Definition BINARY_INSTALL_PATH : string := "bin/simferret-workload".

Definition NUL : byte := Byte.x00.
Definition COLON : byte := ":"%byte.
Definition EQUALS : byte := "="%byte.
(** A double quote, as a one-character string. *)
Definition QUOTE : string := str_of [Byte.x22].

(** ** Documents *)

Inductive SourceKind := SourceBinary | SourceOci.

#[export] Instance SourceKind_eq_dec : EqDecision SourceKind.
Proof. solve_decision. Defined.

Definition SourceKind_name (k : SourceKind) : string :=
  match k with SourceBinary => "binary" | SourceOci => "oci" end.

Record BinarySource := {
  bin_path : string;
  bin_arguments : list string;
  bin_environment : list string;
  bin_working_directory : string;
  bin_user : string;
}.

Record OciSource := {
  oci_layout : string;
  oci_manifest_digest : string;
}.

Inductive WorkloadSource :=
  | Binary (source : BinarySource)
  | Oci (source : OciSource).

Record WorkloadSpec := {
  spec_version : Z;
  spec_source : WorkloadSource;
}.

Record KindProbe := { probe_version : Z; probe_kind : SourceKind }.

Record BinaryDocument := {
  bdoc_version : Z;
  bdoc_kind : SourceKind;
  bdoc_path : string;
  bdoc_args : list string;
  bdoc_env : list string;
  bdoc_working_directory : string;
  bdoc_user : string;
}.

Record OciDocument := {
  odoc_version : Z;
  odoc_kind : SourceKind;
  odoc_layout : string;
  odoc_manifest_digest : string;
}.

(** ** Fields *)

Fixpoint locator_loop (field : string) (components : list bytes) : result unit :=
  match components with
  | [] => Ok tt
  | component :: rest =>
      if bool_decide (component = DOTDOT) then
        Err (invalid (field +:+ " must not escape the workload specification directory"))
      else if is_empty component then
        Err (invalid (field +:+ " must not contain an empty path component"))
      else locator_loop field rest
  end.

Definition validate_locator (field value : string) : result unit :=
  let l := as_bytes value in
  if is_empty l then Err (invalid (field +:+ " must not be empty"))
  else if starts_with [SLASH] l then
    Err (invalid (field +:+ " must be relative to the workload specification"))
  else if contains_byte NUL l then Err (invalid (field +:+ " contains a NUL byte"))
  else locator_loop field (split_on SLASH l).

Definition digest_shape : io_error :=
  invalid "the digest must be a sha256: prefixed lowercase hex digest".

Definition parse_digest (value : string) : result string :=
  match strip_prefix (as_bytes "sha256:") (as_bytes value) with
  | None => Err digest_shape
  | Some hex =>
      if negb (zlen hex =? 64) || negb (forallb is_ascii_hexdigit hex) then Err digest_shape
      else Ok (str_of (map to_ascii_lowercase hex))
  end.

Fixpoint arguments_loop (field : string) (values : list string) : result unit :=
  match values with
  | [] => Ok tt
  | value :: rest =>
      if MAX_ARGUMENT_BYTES <? str_len value then
        Err (invalid ("an entry of " +:+ field +:+ " exceeds "
                      +:+ fmt_dec MAX_ARGUMENT_BYTES +:+ " bytes"))
      else if contains_byte NUL (as_bytes value) then
        Err (invalid ("an entry of " +:+ field +:+ " contains a NUL byte"))
      else arguments_loop field rest
  end.

Definition normalize_arguments (values : list string) (field : string) : result (list string) :=
  if MAX_ARGUMENTS <? zlen values then
    Err (invalid (field +:+ " must not contain more than " +:+ fmt_dec MAX_ARGUMENTS
                  +:+ " entries"))
  else
    _ ← arguments_loop field values;
    Ok values.

(** The two environment checks are the same loop with different diagnostics;
    [EnvironmentErrors] are the messages, by the entry's index. *)
Record EnvironmentErrors := {
  entry_too_long : io_error;
  total_too_long : io_error;
  entry_nul : io_error;
  not_name_value : Z -> io_error;
  repeated_name : Z -> io_error;
}.

(** [total] cannot wrap: it is bounded by [MAX_ENVIRONMENT_BYTES] before an
    entry of bounded length is added. *)
Fixpoint environment_loop (msgs : EnvironmentErrors) (index total : Z) (seen : list bytes)
    (values : list string) : result unit :=
  match values with
  | [] => Ok tt
  | entry :: rest =>
      if MAX_ENVIRONMENT_ENTRY_BYTES <? str_len entry then Err msgs.(entry_too_long)
      else
        let total := total + str_len entry in
        if MAX_ENVIRONMENT_BYTES <? total then Err msgs.(total_too_long)
        else if contains_byte NUL (as_bytes entry) then Err msgs.(entry_nul)
        else
          match split_once EQUALS (as_bytes entry) with
          | None => Err (msgs.(not_name_value) index)
          | Some (name, _) =>
              if is_empty name then Err (msgs.(not_name_value) index)
              else if bool_decide (name ∈ seen) then Err (msgs.(repeated_name) index)
              else environment_loop msgs (index + 1) total (seen ++ [name]) rest
          end
  end.

Definition specification_environment_errors : EnvironmentErrors := {|
  entry_too_long := invalid ("environment entry exceeds "
    +:+ fmt_dec MAX_ENVIRONMENT_ENTRY_BYTES +:+ " bytes");
  total_too_long := invalid ("environment must not exceed "
    +:+ fmt_dec MAX_ENVIRONMENT_BYTES +:+ " bytes");
  entry_nul := invalid "environment entry contains a NUL byte";
  not_name_value i := invalid ("environment entry " +:+ fmt_dec i +:+ " is not NAME=VALUE");
  repeated_name i := invalid ("environment entry " +:+ fmt_dec i
    +:+ " repeats an earlier name");
|}.

Definition normalize_environment (values : list string) : result (list string) :=
  if MAX_ENVIRONMENT_ENTRIES <? zlen values then
    Err (invalid ("environment must not contain more than "
                  +:+ fmt_dec MAX_ENVIRONMENT_ENTRIES +:+ " entries"))
  else
    _ ← environment_loop specification_environment_errors 0 0 [] values;
    Ok values.

Definition user_shape : io_error :=
  invalid "the user must be an explicit nonzero uid:gid pair".

Definition check_credentials (u g : Z) : result unit :=
  if (u =? 0) || (g =? 0) then Err (invalid "root credentials are not supported")
  else if (u =? RESERVED_OWNER) || (g =? RESERVED_OWNER) then
    Err (invalid "the reserved owner identifier is not a credential")
  else Ok tt.

Definition parse_user (value : string) : result (Z * Z) :=
  match split_on COLON (as_bytes value) with
  | [u; g] =>
      if is_empty u || is_empty g || negb (forallb is_ascii_digit u)
         || negb (forallb is_ascii_digit g)
      then Err user_shape
      else
        u ← ok_or (parse_u32 u) (invalid "the user uid is out of range");
        g ← ok_or (parse_u32 g) (invalid "the user gid is out of range");
        _ ← check_credentials u g;
        Ok (u, g)
  | _ => Err user_shape
  end.

Definition normalize_user (value : option string) : result (Z * Z) :=
  match value with
  | None => parse_user DEFAULT_USER
  | Some value => if is_empty (as_bytes value) then parse_user DEFAULT_USER else parse_user value
  end.

Definition normalize_required_user (value : string) : result (Z * Z) :=
  if is_empty (as_bytes value) then
    Err (invalid "user must be an explicit nonzero uid:gid pair")
  else parse_user value.

(** ** The launch check *)

Definition validate_launch_path (field value : string) : result unit :=
  let l := as_bytes value in
  if is_empty l || negb (starts_with [SLASH] l) then
    Err (invalid (field +:+ " must be an absolute in-root path"))
  else if contains_byte NUL l then Err (invalid (field +:+ " contains a NUL byte"))
  else if existsb (fun component => bool_decide (component = DOTDOT)) (split_on SLASH l) then
    Err (invalid (field +:+ " escapes the workload root"))
  else Ok tt.

Fixpoint launch_arguments_loop (values : list string) : result unit :=
  match values with
  | [] => Ok tt
  | argument :: rest =>
      if MAX_ARGUMENT_BYTES <? str_len argument then
        Err (invalid ("a workload argument exceeds " +:+ fmt_dec MAX_ARGUMENT_BYTES +:+ " bytes"))
      else if contains_byte NUL (as_bytes argument) then
        Err (invalid "a workload argument contains a NUL byte")
      else launch_arguments_loop rest
  end.

Definition launch_environment_errors : EnvironmentErrors := {|
  entry_too_long := invalid ("a workload environment entry exceeds "
    +:+ fmt_dec MAX_ENVIRONMENT_ENTRY_BYTES +:+ " bytes");
  total_too_long := invalid ("the workload environment exceeds "
    +:+ fmt_dec MAX_ENVIRONMENT_BYTES +:+ " bytes");
  entry_nul := invalid "a workload environment entry contains a NUL byte";
  not_name_value _ := invalid "a workload environment entry is not NAME=VALUE";
  repeated_name _ := invalid "the workload environment has a duplicate name";
|}.

Definition validate_launch_identity (launch : LaunchIdentity) : result unit :=
  _ ← validate_launch_path "executable" launch.(executable);
  match launch.(arguments) with
  | [] => Err (invalid "the workload argument vector is empty")
  | first :: _ =>
      if MAX_ARGUMENTS <? zlen launch.(arguments) then
        Err (invalid ("the workload argument vector exceeds " +:+ fmt_dec MAX_ARGUMENTS
                      +:+ " entries"))
      else
        _ ← launch_arguments_loop launch.(arguments);
        _ ← validate_launch_path "the first workload argument" first;
        if MAX_ENVIRONMENT_ENTRIES <? zlen launch.(environment) then
          Err (invalid ("the workload environment exceeds " +:+ fmt_dec MAX_ENVIRONMENT_ENTRIES
                        +:+ " entries"))
        else
          _ ← environment_loop launch_environment_errors 0 0 [] launch.(environment);
          _ ← validate_launch_path "the workload working directory" launch.(working_directory);
          check_credentials launch.(uid) launch.(gid)
  end.

(** ** Working directories *)

Definition is_symlink (t : Tree) (p : bytes) : bool :=
  match t !! p with Some e => bool_decide (e.(kind) = Symlink) | None => false end.

Definition normalize_working_directory (value : option string) (t : Tree) : result string :=
  let value := match value with
    | None => "/"
    | Some value => if is_empty (as_bytes value) then "/" else value
    end in
  if negb (starts_with [SLASH] (as_bytes value)) then
    Err (invalid "the working directory must be absolute")
  else
    let stripped := trim_matches SLASH (as_bytes value) in
    relative ← (if is_empty stripped then Ok ROOT_PATH
                else map_err (fun _ => invalid "the working directory is not a valid in-root path")
                       (normalize_layer_path stripped));
    if existsb (is_symlink t) (ancestors relative ++ [relative]) then
      Err (invalid "the working directory traverses a symbolic link")
    else if negb (bool_decide (relative = ROOT_PATH))
            && negb (bool_decide (kind <$> t !! relative = Some Directory)) then
      Err (invalid "the working directory is not a directory in the workload")
    else if bool_decide (relative = ROOT_PATH) then Ok "/"
    else
      match from_utf8 relative with
      | inl text => Ok ("/" +:+ text)
      | inr _ => Err (invalid "the working directory is not UTF-8")
      end.

(** ** Specifications *)

Section parse.
Variable toml_probe : string -> KindProbe + TomlError.
Variable toml_binary : string -> BinaryDocument + TomlError.
Variable toml_oci : string -> OciDocument + TomlError.

Definition WorkloadSpec_parse (source : bytes) : result WorkloadSpec :=
  if MAX_SPECIFICATION_BYTES <? zlen source then
    Err (invalid ("workload specification must not exceed "
                  +:+ fmt_dec MAX_SPECIFICATION_BYTES +:+ " bytes"))
  else
    match from_utf8 source with
    | inr message => Err (invalid ("workload specification is not UTF-8: " +:+ message))
    | inl text =>
        match toml_probe text with
        | inr e => Err (toml_error "malformed workload specification" e)
        | inl probe =>
            if negb (probe.(probe_version) =? WORKLOAD_SPEC_VERSION) then
              Err (invalid ("unsupported workload specification version "
                            +:+ fmt_dec probe.(probe_version)))
            else
              match probe.(probe_kind) with
              | SourceBinary =>
                  match toml_binary text with
                  | inr e => Err (toml_error "malformed binary workload" e)
                  | inl d =>
                      if negb (bool_decide (d.(bdoc_kind) = SourceBinary)) then
                        Err (invalid ("binary workload must declare kind = " +:+ QUOTE +:+ "binary"
                                      +:+ QUOTE))
                      else
                        _ ← validate_locator "path" d.(bdoc_path);
                        if is_empty (as_bytes d.(bdoc_user)) then
                          Err (invalid
                            "binary workload must declare an explicit nonzero uid:gid user")
                        else
                          _ ← normalize_arguments d.(bdoc_args) "args";
                          _ ← normalize_environment d.(bdoc_env);
                          Ok {| spec_version := d.(bdoc_version);
                                spec_source := Binary {|
                                  bin_path := d.(bdoc_path);
                                  bin_arguments := d.(bdoc_args);
                                  bin_environment := d.(bdoc_env);
                                  bin_working_directory := d.(bdoc_working_directory);
                                  bin_user := d.(bdoc_user) |} |}
                  end
              | SourceOci =>
                  match toml_oci text with
                  | inr e => Err (toml_error "malformed OCI workload" e)
                  | inl d =>
                      if negb (bool_decide (d.(odoc_kind) = SourceOci)) then
                        Err (invalid ("OCI workload must declare kind = " +:+ QUOTE +:+ "oci"
                                      +:+ QUOTE))
                      else
                        _ ← validate_locator "layout" d.(odoc_layout);
                        _ ← parse_digest d.(odoc_manifest_digest);
                        Ok {| spec_version := d.(odoc_version);
                              spec_source := Oci {|
                                oci_layout := d.(odoc_layout);
                                oci_manifest_digest := d.(odoc_manifest_digest) |} |}
                  end
              end
        end
    end.
End parse.

(** ** What the checks accept *)

(** An absolute path whose components never climb. *)
Definition launch_path (value : string) : Prop :=
  head (as_bytes value) = Some SLASH /\ NUL ∉ as_bytes value /\
  DOTDOT ∉ split_on SLASH (as_bytes value).

Definition argument_ok (value : string) : Prop :=
  str_len value <= MAX_ARGUMENT_BYTES /\ NUL ∉ as_bytes value.

(** [entry] is [NAME=VALUE] with the nonempty name [name]. *)
Definition entry_name (entry : string) (name : bytes) : Prop :=
  name <> [] /\ EQUALS ∉ name /\ exists value, as_bytes entry = name ++ EQUALS :: value.

Definition environment_valid (env : list string) : Prop :=
  zlen env <= MAX_ENVIRONMENT_ENTRIES /\
  zsum (map str_len env) <= MAX_ENVIRONMENT_BYTES /\
  Forall (fun e => str_len e <= MAX_ENVIRONMENT_ENTRY_BYTES /\ NUL ∉ as_bytes e) env /\
  exists names, Forall2 entry_name env names /\ NoDup names.

Definition credential (z : Z) : Prop := z <> 0 /\ z <> RESERVED_OWNER.

Definition launch_valid (launch : LaunchIdentity) : Prop :=
  launch_path launch.(executable) /\ launch_path launch.(working_directory) /\
  zlen launch.(arguments) <= MAX_ARGUMENTS /\ Forall argument_ok launch.(arguments) /\
  (exists first rest, launch.(arguments) = first :: rest /\ launch_path first) /\
  environment_valid launch.(environment) /\
  credential launch.(uid) /\ credential launch.(gid).

Lemma validate_launch_path_iff field value :
  validate_launch_path field value = Ok tt <-> launch_path value.
Proof.
  unfold validate_launch_path, launch_path. destruct (as_bytes value) as [|b l]; [naive_solver|].
  cbn [is_empty starts_with orb head].
  destruct (bool_decide_reflect (SLASH = b)) as [<-|Hb]; cbn [andb negb orb];
    [|split; [done|]; intros ([= ->]&_); done].
  destruct (contains_byte NUL (SLASH :: l)) eqn:E.
  { apply contains_byte_iff in E. naive_solver. }
  apply contains_byte_false in E.
  destruct (existsb _ _) eqn:Ex.
  - split; [done|]. intros (_&_&Hd). apply existsb_exists in Ex as (c&Hc&Hcd).
    apply bool_decide_eq_true in Hcd as ->. by apply list_elem_of_In in Hc.
  - split; [|done]. intros _. split_and!; [done..|]. intros Hd.
    apply not_true_iff_false in Ex. apply Ex, existsb_exists. exists DOTDOT.
    split; [by apply list_elem_of_In|by apply bool_decide_eq_true].
Qed.

Lemma argument_ok_bool value :
  (MAX_ARGUMENT_BYTES <? str_len value) = false /\ contains_byte NUL (as_bytes value) = false
  <-> argument_ok value.
Proof. unfold argument_ok. by rewrite Z.ltb_ge contains_byte_false. Qed.

Lemma launch_arguments_loop_iff values :
  launch_arguments_loop values = Ok tt <-> Forall argument_ok values.
Proof.
  induction values as [|v values IH]; cbn [launch_arguments_loop]; [by split|].
  rewrite Forall_cons_iff -IH -argument_ok_bool.
  destruct (_ <? _), (contains_byte _ _); naive_solver.
Qed.

Lemma arguments_loop_iff field values :
  arguments_loop field values = Ok tt <-> Forall argument_ok values.
Proof.
  induction values as [|v values IH]; cbn [arguments_loop]; [by split|].
  rewrite Forall_cons_iff -IH -argument_ok_bool.
  destruct (_ <? _), (contains_byte _ _); naive_solver.
Qed.

Lemma normalize_arguments_iff values field out :
  normalize_arguments values field = Ok out <->
  out = values /\ zlen values <= MAX_ARGUMENTS /\ Forall argument_ok values.
Proof.
  unfold normalize_arguments. rewrite -(arguments_loop_iff field).
  destruct (Z.ltb_spec MAX_ARGUMENTS (zlen values)).
  - split; [done|]. lia.
  - rewrite bind_Ok. split.
    + intros ([]&?&[= <-]). done.
    + intros (->&_&?). by exists tt.
Qed.

Lemma entry_name_split entry name :
  entry_name entry name <->
  name <> [] /\ exists value, split_once EQUALS (as_bytes entry) = Some (name, value).
Proof.
  unfold entry_name. setoid_rewrite split_once_Some. naive_solver.
Qed.

Lemma str_len_nonneg s : 0 <= str_len s.
Proof. apply zlen_nonneg. Qed.

Lemma zsum_str_len_nonneg values : 0 <= zsum (map str_len values).
Proof.
  apply zsum_nonneg, List.Forall_map, list.Forall_forall. intros s _. apply str_len_nonneg.
Qed.

Lemma environment_loop_iff msgs values : forall index total seen,
  total <= MAX_ENVIRONMENT_BYTES -> NoDup seen ->
  environment_loop msgs index total seen values = Ok tt <->
  total + zsum (map str_len values) <= MAX_ENVIRONMENT_BYTES /\
  Forall (fun e => str_len e <= MAX_ENVIRONMENT_ENTRY_BYTES /\ NUL ∉ as_bytes e) values /\
  exists names, Forall2 entry_name values names /\ NoDup (seen ++ names).
Proof.
  induction values as [|e values IH]; intros index total seen Ht Hs; cbn [environment_loop].
  { split; [|done]. intros _. split_and!; [simpl; lia|constructor|].
    exists []. rewrite app_nil_r. split; [constructor|done]. }
  change (zsum (map str_len (e :: values))) with (str_len e + zsum (map str_len values)).
  pose proof (zsum_str_len_nonneg values).
  rewrite Forall_cons_iff.
  destruct (Z.ltb_spec MAX_ENVIRONMENT_ENTRY_BYTES (str_len e)).
  { split; [done|]. intros (_&((?&_)&_)&_). lia. }
  destruct (Z.ltb_spec MAX_ENVIRONMENT_BYTES (total + str_len e)) as [|Hle].
  { split; [done|]. intros (?&_). lia. }
  destruct (contains_byte NUL (as_bytes e)) eqn:En.
  { apply contains_byte_iff in En. naive_solver. }
  apply contains_byte_false in En.
  destruct (split_once EQUALS (as_bytes e)) as [[name value]|] eqn:Esp.
  2: { split; [done|]. intros (_&_&names&HF&_). inversion HF as [|? n ? ? Hn]; subst.
       apply entry_name_split in Hn as (_&v&Hv). congruence. }
  assert (Hname : forall n, entry_name e n <-> n = name /\ name <> []).
  { intros n. rewrite entry_name_split Esp. naive_solver. }
  destruct (is_empty name) eqn:Ee.
  { apply is_empty_true in Ee. split; [done|]. intros (_&_&names&HF&_).
    inversion HF as [|? n ? ? Hn]; subst. apply Hname in Hn. naive_solver. }
  apply is_empty_false in Ee.
  case_bool_decide as Hseen.
  { split; [done|]. intros (_&_&names&HF&Hnd). inversion HF as [|? n ? ns Hn]; subst.
    apply Hname in Hn as [-> _]. apply list.NoDup_app in Hnd as (_&Hd&_).
    exfalso. apply (Hd name Hseen). constructor. }
  rewrite IH; [|done|].
  2: { apply list.NoDup_app. split_and!; [done| |apply NoDup_singleton].
       intros x Hx ->%list_elem_of_singleton. done. }
  rewrite Z.add_assoc. split.
  - intros (?&?&names&HF&Hnd). split_and!; [done..|]. exists (name :: names).
    rewrite -app_assoc /= in Hnd. split; [|done]. constructor; [by apply Hname|done].
  - intros (?&(_&?)&names&HF&Hnd). split_and!; [done..|].
    inversion HF as [|? n ? ns Hn]; subst. apply Hname in Hn as [-> _].
    exists ns. rewrite -app_assoc /=. done.
Qed.

Lemma environment_check_iff msgs values :
  zlen values <= MAX_ENVIRONMENT_ENTRIES ->
  environment_loop msgs 0 0 [] values = Ok tt <-> environment_valid values.
Proof.
  intros Hlen. rewrite environment_loop_iff; [|done|constructor].
  unfold environment_valid. rewrite Z.add_0_l. naive_solver.
Qed.

Lemma normalize_environment_iff values out :
  normalize_environment values = Ok out <-> out = values /\ environment_valid values.
Proof.
  unfold normalize_environment. destruct (Z.ltb_spec MAX_ENVIRONMENT_ENTRIES (zlen values)).
  { split; [done|]. intros [_ (?&_)]. lia. }
  rewrite -(environment_check_iff specification_environment_errors) // bind_Ok. split.
  - by intros ([]&?&[= <-]).
  - intros [-> ?]. by exists tt.
Qed.

Lemma check_credentials_iff u g : check_credentials u g = Ok tt <-> credential u /\ credential g.
Proof.
  unfold check_credentials, credential.
  destruct (Z.eqb_spec u 0), (Z.eqb_spec g 0); simpl; try naive_solver.
  destruct (Z.eqb_spec u RESERVED_OWNER), (Z.eqb_spec g RESERVED_OWNER); simpl; naive_solver.
Qed.

Lemma launch_check_iff launch :
  validate_launch_identity launch = Ok tt <-> launch_valid launch.
Proof.
  unfold validate_launch_identity, launch_valid. rewrite bind_Ok. split.
  - intros ([]&He%validate_launch_path_iff&H).
    destruct (launch.(arguments)) as [|first rest] eqn:Ea; [done|].
    destruct (Z.ltb_spec MAX_ARGUMENTS (zlen (first :: rest))); [done|].
    apply bind_Ok in H as ([]&Hargs%launch_arguments_loop_iff&H).
    apply bind_Ok in H as ([]&Hf%validate_launch_path_iff&H).
    destruct (Z.ltb_spec MAX_ENVIRONMENT_ENTRIES (zlen (launch.(environment)))); [done|].
    apply bind_Ok in H as ([]&Henv&H). apply environment_check_iff in Henv; [|done].
    apply bind_Ok in H as ([]&Hw%validate_launch_path_iff&[? ?]%check_credentials_iff).
    split_and!; try done. eauto.
  - intros (He&Hw&Hn&Hargs&(first&rest&Ea&Hf)&Henv&Hu&Hg). exists tt.
    split; [by apply validate_launch_path_iff|]. rewrite !Ea in Hn Hargs *.
    destruct (Z.ltb_spec MAX_ARGUMENTS (zlen (first :: rest))); [lia|].
    rewrite (proj2 (launch_arguments_loop_iff _) Hargs). cbn [mbind result_bind].
    rewrite (proj2 (validate_launch_path_iff _ _) Hf). cbn [mbind result_bind].
    destruct (Z.ltb_spec MAX_ENVIRONMENT_ENTRIES (zlen (launch.(environment)))) as [Hl|Hl].
    { destruct Henv as (?&_). lia. }
    rewrite (proj2 (environment_check_iff _ _ Hl) Henv). cbn [mbind result_bind].
    rewrite (proj2 (validate_launch_path_iff _ _) Hw). cbn [mbind result_bind].
    by apply check_credentials_iff.
Qed.

(** [validate_launch_identity] accepts exactly the launch identities of the
    profile: absolute executable, first argument and working directory that
    never climb above the root, bounded NUL-free arguments, at least one of
    them, a bounded environment of [NAME=VALUE] entries with distinct nonempty
    names, and non-root, non-reserved credentials. *)
Theorem validate_launch_identity_iff launch :
  validate_launch_identity launch = Ok tt <-> launch_valid launch.
Proof. apply launch_check_iff. Qed.

(** ** Users and digests *)

Lemma digits_nonneg l acc :
  0 <= acc -> forallb is_ascii_digit l = true ->
  0 <= fold_left (fun acc d => acc * 10 + d) (map (fun b => byte_Z b - 48) l) acc.
Proof.
  revert acc. induction l as [|b l IH]; intros acc Ha Hl; [done|]. simpl in *.
  apply andb_true_iff in Hl as [Hb Hl]. apply IH; [|done].
  unfold is_ascii_digit, between in Hb. lia.
Qed.

Lemma parse_u32_digits l :
  l <> [] -> forallb is_ascii_digit l = true ->
  let v := digits_value 10 (map (fun b => byte_Z b - 48) l) in
  0 <= v /\ parse_u32 l = if v <=? U32_MAX then Some v else None.
Proof.
  intros Hne Hd v. split; [by apply digits_nonneg|]. unfold parse_u32, parse_uint.
  destruct l as [|b l]; [done|]. rewrite bool_decide_eq_false_2.
  - by rewrite Hd.
  - intros ->. done.
Qed.

(** A user is accepted exactly when it is two nonempty digit strings around
    one colon, both within 32 bits, nonzero and not the reserved identifier;
    the credentials are their decimal values, and the default user is
    accepted. *)
Theorem parse_user_iff value u g :
  (parse_user value = Ok (u, g) <->
   exists su sg, as_bytes value = su ++ COLON :: sg /\
     su <> [] /\ sg <> [] /\ forallb is_ascii_digit su = true /\
     forallb is_ascii_digit sg = true /\
     u = digits_value 10 (map (fun b => byte_Z b - 48) su) /\
     g = digits_value 10 (map (fun b => byte_Z b - 48) sg) /\
     0 < u < RESERVED_OWNER /\ 0 < g < RESERVED_OWNER) /\
  normalize_user None = Ok (65534, 65534).
Proof.
  split; [|by vm_compute].
  assert (Hcol : forall l, forallb is_ascii_digit l = true -> COLON ∉ l).
  { intros l Hl Hin. rewrite forallb_forall in Hl.
    by specialize (Hl COLON (proj1 (list_elem_of_In _ _) Hin)). }
  unfold parse_user. split.
  - destruct (split_on COLON (as_bytes value)) as [|su [|sg [|? ?]]] eqn:E; try done.
    destruct (is_empty su) eqn:Eu; [done|]. destruct (is_empty sg) eqn:Eg; [done|].
    destruct (forallb is_ascii_digit su) eqn:Du; [|done].
    destruct (forallb is_ascii_digit sg) eqn:Dg; [|done]. cbn [negb orb].
    apply is_empty_false in Eu, Eg.
    destruct (parse_u32_digits su Eu Du) as [Hu ->], (parse_u32_digits sg Eg Dg) as [Hg ->].
    destruct (Z.leb_spec (digits_value 10 (map (fun b => byte_Z b - 48) su)) U32_MAX); [|done].
    destruct (Z.leb_spec (digits_value 10 (map (fun b => byte_Z b - 48) sg)) U32_MAX); [|done].
    cbn [ok_or mbind result_bind]. intros Hr.
    apply bind_Ok in Hr as ([]&[[??][??]]%check_credentials_iff&[= <- <-]).
    exists su, sg. unfold RESERVED_OWNER in *. split_and!; try done; try lia.
    by rewrite -(join_split COLON (as_bytes value)) E.
  - intros (su&sg&E&Eu&Eg&Du&Dg&->&->&Hu&Hg). rewrite E split_on_app; [|by apply Hcol].
    rewrite split_on_piece; [|by apply Hcol]. rewrite Du Dg.
    destruct (parse_u32_digits su Eu Du) as [_ ->], (parse_u32_digits sg Eg Dg) as [_ ->].
    apply is_empty_false in Eu as ->, Eg as ->. cbn [negb orb].
    unfold RESERVED_OWNER in *.
    rewrite !(proj2 (Z.leb_le _ _)); [|lia..]. cbn [ok_or mbind result_bind].
    rewrite (proj2 (check_credentials_iff _ _)) //. unfold credential, RESERVED_OWNER. lia.
Qed.

Lemma lowercase_hexdigit b :
  is_ascii_hexdigit b = true -> lower_hex (to_ascii_lowercase b) = true.
Proof. destruct b; vm_compute; done. Qed.

(** [parse_digest] accepts a value exactly when it is [sha256:] followed by
    64 hexadecimal digits of either case, and returns them in lowercase, so the
    result is a lowercase digest whatever the case of the input. *)
Theorem parse_digest_iff value hex :
  (parse_digest value = Ok hex <->
   exists digits, as_bytes value = as_bytes "sha256:" ++ digits /\ zlen digits = 64 /\
     forallb is_ascii_hexdigit digits = true /\ as_bytes hex = map to_ascii_lowercase digits) /\
  (parse_digest value = Ok hex ->
     str_len hex = 64 /\ Forall (fun b => lower_hex b = true) (as_bytes hex)).
Proof.
  assert (Hiff : parse_digest value = Ok hex <->
   exists digits, as_bytes value = as_bytes "sha256:" ++ digits /\ zlen digits = 64 /\
     forallb is_ascii_hexdigit digits = true /\ as_bytes hex = map to_ascii_lowercase digits).
  { unfold parse_digest. setoid_rewrite <- strip_prefix_Some.
    destruct (strip_prefix (as_bytes "sha256:") (as_bytes value)) as [d|]; [|naive_solver].
    destruct (Z.eqb_spec (zlen d) 64); [|by split; [|intros (d'&[= <-]&?&_)]].
    destruct (forallb is_ascii_hexdigit d) eqn:Ed;
      [|by split; [|intros (d'&[= <-]&?&?&_); congruence]]. simpl. split.
    - intros [= <-]. exists d. by rewrite as_bytes_str_of.
    - intros (d'&[= <-]&_&_&E). by rewrite -E str_of_as_bytes. }
  split; [done|]. intros (d&_&Hl&Hd&E)%Hiff. unfold str_len. rewrite E zlen_map.
  split; [done|]. apply List.Forall_map, list.Forall_forall. intros b Hb.
  apply lowercase_hexdigit. rewrite forallb_forall in Hd. apply Hd. by apply list_elem_of_In.
Qed.

Lemma parse_digest_iff_witness :
  str_len (str_of (repeat "a"%byte 64)) = 64 /\
  parse_digest ("sha256:" +:+ str_of (repeat "A"%byte 64)) = Ok (str_of (repeat "a"%byte 64)).
Proof.
  split; [|by vm_compute].
  apply (parse_digest_iff ("sha256:" +:+ str_of (repeat "A"%byte 64))). by vm_compute.
Defined.

(** ** Working directories *)

(** [value] names the directory [p] of the tree, and no entry on the way to it
    is a symbolic link. *)
Definition plain_directory (t : Tree) (p : bytes) : Prop :=
  canonical_path p /\
  (p = ROOT_PATH \/ exists e, t !! p = Some e /\ e.(kind) = Directory) /\
  (forall q e, q ∈ p :: ancestors p -> t !! q = Some e -> e.(kind) <> Symlink).

Lemma is_symlink_false t p :
  is_symlink t p = false <-> forall e, t !! p = Some e -> e.(kind) <> Symlink.
Proof.
  unfold is_symlink. destruct (t !! p) as [e|]; [|naive_solver].
  rewrite bool_decide_eq_false. naive_solver.
Qed.

Lemma from_utf8_text l text : from_utf8 l = inl text -> text = str_of l.
Proof. unfold from_utf8. destruct (utf8_error _ _ _); by intros [= <-]. Qed.

Lemma canonical_no_dotdot p : canonical_path p -> DOTDOT ∉ split_on SLASH p.
Proof.
  intros (ps&Hps&->&_). destruct (decide (ps = [])) as [->|Hne].
  - change (split_on _ _) with [DOT]. by intros ?%list_elem_of_singleton.
  - rewrite path_of_cons_join // split_join //; [|by apply parts_no_slash].
    rewrite list.Forall_forall in Hps. intros Hd. by destruct (Hps _ Hd) as (_&_&?&_).
Qed.

Lemma canonical_no_nul p : canonical_path p -> NUL ∉ p.
Proof. intros (ps&Hps&->&_). by apply path_of_parts_no_nul. Qed.

(** A slash in front of a canonical path is an acceptable launch path. *)
Lemma canonical_launch_path p : canonical_path p -> launch_path ("/" +:+ str_of p).
Proof.
  intros Hp. unfold launch_path.
  assert (E : as_bytes ("/" +:+ str_of p) = SLASH :: p).
  { by rewrite as_bytes_app as_bytes_str_of. }
  rewrite E. split_and!; [done| |].
  - rewrite not_elem_of_cons. split; [done|by apply canonical_no_nul].
  - change (SLASH :: p) with ([] ++ SLASH :: p). rewrite split_on_app; [|apply not_elem_of_nil].
    rewrite not_elem_of_cons. split; [done|by apply canonical_no_dotdot].
Qed.

(** A normalized working directory is [/] or a slash in front of the
    canonical path of a directory entry of the tree, is reached without
    traversing a symbolic link, and passes the launch check's path rule. *)
Theorem normalize_working_directory_sound value t d :
  normalize_working_directory value t = Ok d ->
  launch_path d /\
  exists p, plain_directory t p /\ d = if bool_decide (p = ROOT_PATH) then "/" else "/" +:+ str_of p.
Proof.
  unfold normalize_working_directory. destruct (negb _); [done|]. intros H.
  apply bind_Ok in H as (p&Hp&H).
  assert (Hc : canonical_path p).
  { destruct (is_empty _) in Hp.
    - injection Hp as <-. by apply canonical_path_dec; vm_compute.
    - destruct (normalize_layer_path _) as [q|] eqn:E in Hp; [|done]. injection Hp as <-.
      by eapply normalize_canonical. }
  destruct (existsb _ _) eqn:Ex in H; [done|].
  assert (Hlinks : forall q e, q ∈ p :: ancestors p -> t !! q = Some e -> e.(kind) <> Symlink).
  { intros q e Hq. apply is_symlink_false. apply not_true_iff_false. intros Hs.
    apply not_true_iff_false in Ex. apply Ex, existsb_exists. exists q. split; [|done].
    apply in_or_app. apply elem_of_cons in Hq as [->|Hq]; [right; by left|left].
    by apply list_elem_of_In. }
  destruct (decide (p = ROOT_PATH)) as [->|Hne].
  - rewrite bool_decide_eq_true_2 //= in H. injection H as <-.
    split; [apply validate_launch_path_iff with "x"; by vm_compute|].
    exists ROOT_PATH. split; [|done]. split_and!; [done|by left|done].
  - rewrite bool_decide_eq_false_2 //= in H. case_bool_decide as Hk; [|done]. simpl in H.
    destruct (from_utf8 p) as [text|] eqn:Et; [|done]. injection H as <-.
    apply from_utf8_text in Et as ->. split; [by apply canonical_launch_path|].
    exists p. rewrite bool_decide_eq_false_2 //. split; [|done]. split_and!; [done| |done].
    right. by apply fmap_Some in Hk as (e&?&?); eauto.
Qed.

Lemma normalize_working_directory_sound_witness :
  launch_path "/app" /\ normalize_working_directory (Some "/app/")
    (<[as_bytes "app" := default_directory]> ∅) = Ok "/app".
Proof.
  split; [|by vm_compute].
  apply (normalize_working_directory_sound (Some "/app/")
    (<[as_bytes "app" := default_directory]> ∅) "/app"). by vm_compute.
Defined.
