(* ===== verification/Profile.v ===== *)
(** The workload profile checks of [workload/mod.rs]: the runtime overlay's
    compatibility with a tree and launch identity, and the static ELF check of
    a binary workload with its bounds-checked field reads. *)

From stdpp Require Import ssreflect.
From Stdlib Require Import Strings.Byte.
From S2P Require Import Prelude Types Std Protocol Tree Spec.

(** ** The runtime overlay *)

Definition OVERLAY_TMP : bytes := as_bytes "tmp".
Definition OVERLAY_DEV : bytes := as_bytes "dev".

Definition below_or_at (path : bytes) : bool :=
  bool_decide (path = OVERLAY_TMP) || bool_decide (path = OVERLAY_DEV)
  || starts_with (as_bytes "tmp/") path || starts_with (as_bytes "dev/") path.

Fixpoint overlay_loop (entries : list (bytes * Entry)) : result unit :=
  match entries with
  | [] => Ok tt
  | (path, e) :: rest =>
      if below_or_at path && negb (bool_decide (e.(kind) = Directory)) then
        let overlay := if starts_with OVERLAY_TMP path then "/tmp" else "/dev" in
        Err (invalid ("a workload entry below " +:+ overlay
                      +:+ " collides with the runtime overlay"))
      else overlay_loop rest
  end.

Definition validate_overlay_compatibility (t : Tree) (launch : LaunchIdentity) : result unit :=
  _ ← overlay_loop (Tree_iter t);
  if below_or_at (trim_start_matches SLASH (as_bytes launch.(executable))) then
    Err (invalid "the workload executable is replaced by the runtime overlay")
  else
    let working_directory := trim_start_matches SLASH (as_bytes launch.(working_directory)) in
    if starts_with (as_bytes "tmp/") working_directory
       || starts_with (as_bytes "dev/") working_directory then
      Err (invalid "the workload working directory does not survive the runtime overlay")
    else Ok tt.

(** ** Static ELF executables *)

Definition NATIVE_PROGRAM_HEADER_BYTES : Z := 56.
Definition MAX_PROGRAM_TABLE_BYTES : Z := 65536.
Definition GUEST_PAGE_BYTES : Z := 4096.
Definition MAX_GUEST_USER_ADDRESS : Z := 140737488351232. (** 0x0000_7fff_ffff_f000 *)
Definition MIN_GUEST_MAPPING_ADDRESS : Z := 65536.

Definition truncated : io_error := invalid "truncated ELF binary".

(** [bytes.get(offset..end)] is [None] when [end] exceeds the length. *)
Definition elf_read_exact (bs : bytes) (offset length : Z) : result bytes :=
  stop ← ok_or (checked_add64 offset length) truncated;
  if stop <=? zlen bs then Ok (take (Z.to_nat length) (drop (Z.to_nat offset) bs))
  else Err truncated.

Definition read_u16 (bs : bytes) (offset : Z) : result Z :=
  value ← elf_read_exact bs offset 2; Ok (le_Z value).
Definition read_u32 (bs : bytes) (offset : Z) : result Z :=
  value ← elf_read_exact bs offset 4; Ok (le_Z value).
Definition read_u64 (bs : bytes) (offset : Z) : result Z :=
  value ← elf_read_exact bs offset 8; Ok (le_Z value).

Definition bad_table : io_error := invalid "invalid ELF program table".
Definition bad_segment : io_error := invalid "invalid ELF loadable segment".

(** The arm of the loop for a loadable segment. *)
Definition elf_load (bs : bytes) (offset : Z) : result unit :=
  file_offset ← read_u64 bs (add64 offset 8);
  address ← read_u64 bs (add64 offset 16);
  file_size ← read_u64 bs (add64 offset 32);
  memory_size ← read_u64 bs (add64 offset 40);
  if memory_size <? file_size then
    Err (invalid "ELF loadable segment is larger in the file than in memory")
  else
    segment_end ← ok_or (checked_add64 file_offset file_size) bad_segment;
    if zlen bs <? segment_end then
      Err (invalid "ELF loadable segment extends past the file")
    else if negb (file_size =? 0)
            && negb (file_offset mod GUEST_PAGE_BYTES =? address mod GUEST_PAGE_BYTES) then
      Err (invalid "ELF loadable segment file offset and address are not page-congruent")
    else
      address_end ← ok_or (checked_add64 address memory_size) bad_segment;
      if (MAX_GUEST_USER_ADDRESS <=? address) || (MAX_GUEST_USER_ADDRESS <? address_end) then
        Err (invalid "ELF loadable segment is outside the guest user address space")
      else if negb (memory_size =? 0)
              && (Z.land address (Z.lnot (GUEST_PAGE_BYTES - 1)) <? MIN_GUEST_MAPPING_ADDRESS) then
        Err (invalid "ELF fixed-address segment is below the guest minimum mapping address")
      else Ok tt.

(** [for index in 0..entry_count]; the result counts the loadable segments. *)
Fixpoint elf_loop (bs : bytes) (table_offset entry_size : Z) (remaining : nat)
    (index loadable : Z) : result Z :=
  match remaining with
  | O => Ok loadable
  | S remaining =>
      step ← ok_or (checked_mul64 index entry_size) bad_table;
      offset ← ok_or (checked_add64 table_offset step) bad_table;
      segment ← read_u32 bs offset;
      if segment =? 1 then
        _ ← elf_load bs offset;
        elf_loop bs table_offset entry_size remaining (index + 1) (loadable + 1)
      else if segment =? 3 then
        Err (invalid "binary workload must be statically linked; use an OCI source for a dynamic closure")
      else elf_loop bs table_offset entry_size remaining (index + 1) loadable
  end.

(** The identification checks; [bytes[..4]], [bytes[4]] and [bytes[5]] are in
    range once the length is. *)
Definition elf_magic : bytes := [Byte.x7f; "E"%byte; "L"%byte; "F"%byte].

Definition not_elf : io_error :=
  invalid "binary workload must be a little-endian x86-64 Linux ELF executable".

Definition elf_identification (bs : bytes) : result unit :=
  if (zlen bs <? 64) || negb (bool_decide (take 4 bs = elf_magic))
     || negb (bool_decide (bs !! 4%nat = Some Byte.x02))
     || negb (bool_decide (bs !! 5%nat = Some Byte.x01))
  then Err not_elf
  else
    machine ← read_u16 bs 18;
    if negb (machine =? 62) then Err not_elf else Ok tt.

Definition validate_static_elf (bs : bytes) : result unit :=
  _ ← elf_identification bs;
  elf_type ← read_u16 bs 16;
  if negb (elf_type =? 2) then
    Err (invalid "binary workload must be a fixed-address executable ELF file, not a relocatable, core, or static-PIE image")
  else
    table_offset ← read_u64 bs 32;
    entry_size ← read_u16 bs 54;
    entry_count ← read_u16 bs 56;
    if negb (entry_size =? NATIVE_PROGRAM_HEADER_BYTES) then
      Err (invalid "invalid ELF program header size")
    else if MAX_PROGRAM_TABLE_BYTES / NATIVE_PROGRAM_HEADER_BYTES <? entry_count then
      Err (invalid "ELF program table exceeds the loader limit")
    else
      table_size ← ok_or (checked_mul64 entry_size entry_count) bad_table;
      table_end ← ok_or (checked_add64 table_offset table_size) bad_table;
      if zlen bs <? table_end then Err (invalid "ELF program table extends past the file")
      else
        entry ← read_u64 bs 24;
        if MAX_GUEST_USER_ADDRESS <=? entry then
          Err (invalid "ELF entry point is outside the guest user address space")
        else
          loadable ← elf_loop bs table_offset entry_size (Z.to_nat entry_count) 0 0;
          if loadable =? 0 then Err (invalid "binary workload has no loadable segment")
          else Ok tt.

(** ** What the ELF check accepts *)

(** The little-endian field of [n] bytes at [offset]. *)
Definition field (bs : bytes) (n : nat) (offset : Z) : Z :=
  le_Z (take n (drop (Z.to_nat offset) bs)).

(** A program header the guest loader can map: the file range lies in the file
    and is no larger than the memory range, the two share a page offset, and the
    memory range lies in the guest's user space above its mapping floor. *)
Definition mappable (bs : bytes) (header : Z) : Prop :=
  let file_offset := field bs 8 (header + 8) in
  let address := field bs 8 (header + 16) in
  let file_size := field bs 8 (header + 32) in
  let memory_size := field bs 8 (header + 40) in
  file_size <= memory_size /\ file_offset + file_size <= zlen bs /\
  (file_size <> 0 -> file_offset mod 4096 = address mod 4096) /\
  address < MAX_GUEST_USER_ADDRESS /\ address + memory_size <= MAX_GUEST_USER_ADDRESS /\
  (memory_size <> 0 -> MIN_GUEST_MAPPING_ADDRESS <= address - address mod 4096).

Record static_elf (bs : bytes) : Prop := {
  elf_length : 64 <= zlen bs;
  elf_ident : take 6 bs = elf_magic ++ [Byte.x02; Byte.x01];
  elf_machine : field bs 2 18 = 62;
  elf_exec : field bs 2 16 = 2;
  elf_header_size : field bs 2 54 = 56;
  elf_table_limit : 56 * field bs 2 56 <= MAX_PROGRAM_TABLE_BYTES;
  elf_table_in_file : field bs 8 32 + 56 * field bs 2 56 <= zlen bs;
  elf_entry : field bs 8 24 < MAX_GUEST_USER_ADDRESS;
  elf_headers : forall i, 0 <= i < field bs 2 56 ->
    let header := field bs 8 32 + 56 * i in
    field bs 4 header <> 3 /\ (field bs 4 header = 1 -> mappable bs header);
  elf_has_load : exists i, 0 <= i < field bs 2 56 /\ field bs 4 (field bs 8 32 + 56 * i) = 1;
}.

Lemma field_range bs n offset : 0 <= field bs n offset < 256 ^ Z.of_nat n.
Proof.
  unfold field. pose proof (le_Z_range (take n (drop (Z.to_nat offset) bs))) as H.
  assert (zlen (take n (drop (Z.to_nat offset) bs)) <= Z.of_nat n).
  { unfold zlen. rewrite length_take. lia. }
  pose proof (Z.pow_le_mono_r 256 (zlen (take n (drop (Z.to_nat offset) bs))) (Z.of_nat n)).
  lia.
Qed.

Lemma field_u64 bs offset : 0 <= field bs 8 offset <= U64_MAX.
Proof. pose proof (field_range bs 8 offset). unfold U64_MAX. simpl in *. lia. Qed.

Lemma field_u16 bs offset : 0 <= field bs 2 offset < 65536.
Proof. apply (field_range bs 2 offset). Qed.

Section elf.
Context (bs : bytes) (Hbs : zlen bs <= U64_MAX).
#[local] Set Default Proof Using "All".

Lemma elf_read_exact_in offset n :
  0 <= offset -> 0 <= n -> offset + n <= zlen bs ->
  elf_read_exact bs offset n = Ok (take (Z.to_nat n) (drop (Z.to_nat offset) bs)).
Proof.
  intros Ho Hn Hb. unfold elf_read_exact.
  rewrite (proj2 (checked_add64_Some offset n (offset + n))); [|lia].
  cbn [ok_or mbind result_bind]. by rewrite (proj2 (Z.leb_le _ _)).
Qed.

Lemma read_u16_in offset :
  0 <= offset -> offset + 2 <= zlen bs -> read_u16 bs offset = Ok (field bs 2 offset).
Proof. intros. unfold read_u16. by rewrite elf_read_exact_in. Qed.

Lemma read_u32_in offset :
  0 <= offset -> offset + 4 <= zlen bs -> read_u32 bs offset = Ok (field bs 4 offset).
Proof. intros. unfold read_u32. by rewrite elf_read_exact_in. Qed.

Lemma read_u64_in offset :
  0 <= offset -> offset + 8 <= zlen bs -> read_u64 bs offset = Ok (field bs 8 offset).
Proof. intros. unfold read_u64. by rewrite elf_read_exact_in. Qed.

Lemma page_start a : Z.land a (Z.lnot (GUEST_PAGE_BYTES - 1)) = a - a mod 4096.
Proof.
  change (GUEST_PAGE_BYTES - 1) with (Z.ones 12). rewrite -Z.ldiff_land Z.ldiff_ones_r //.
  rewrite Z.shiftr_div_pow2 // Z.shiftl_mul_pow2 //. change (2 ^ 12) with 4096. lia_mod.
Qed.

Lemma elf_load_iff header :
  0 <= header -> header + 56 <= zlen bs -> elf_load bs header = Ok tt <-> mappable bs header.
Proof.
  intros Hh Hz. unfold elf_load, mappable.
  rewrite !add64_small; [|lia..]. rewrite !read_u64_in; [|lia..]. cbn [mbind result_bind].
  pose proof (field_u64 bs (header + 8)). pose proof (field_u64 bs (header + 16)).
  pose proof (field_u64 bs (header + 32)). pose proof (field_u64 bs (header + 40)).
  set (fo := field bs 8 (header + 8)) in *. set (ad := field bs 8 (header + 16)) in *.
  set (fs := field bs 8 (header + 32)) in *. set (ms := field bs 8 (header + 40)) in *.
  clearbody fo ad fs ms. cbv zeta.
  destruct (Z.ltb_spec ms fs); [split; [done|lia]|].
  unfold checked_add64. destruct (Z.leb_spec (fo + fs) U64_MAX); cbn [ok_or mbind result_bind];
    [|split; [done|lia]].
  destruct (Z.ltb_spec (zlen bs) (fo + fs)); [split; [done|lia]|].
  unfold GUEST_PAGE_BYTES at 1 2.
  destruct (Z.eqb_spec fs 0), (Z.eqb_spec (fo mod 4096) (ad mod 4096)); cbn [negb andb];
    try (split; [done|]; intros (_&_&Hc&_); by specialize (Hc ltac:(done))).
  all: destruct (Z.leb_spec (ad + ms) U64_MAX); cbn [ok_or mbind result_bind];
    [|split; [done|unfold MAX_GUEST_USER_ADDRESS, U64_MAX in *; lia]].
  all: destruct (Z.leb_spec MAX_GUEST_USER_ADDRESS ad); cbn [orb]; [split; [done|lia]|].
  all: destruct (Z.ltb_spec MAX_GUEST_USER_ADDRESS (ad + ms)); [split; [done|lia]|].
  all: rewrite page_start; destruct (Z.eqb_spec ms 0), (Z.ltb_spec (ad - ad mod 4096)
    MIN_GUEST_MAPPING_ADDRESS); cbn [negb andb]; split; try done; intros; lia.
Qed.

Lemma elf_loop_spec toff n : forall index loadable,
  0 <= toff -> 0 <= index -> toff + 56 * (index + Z.of_nat n) <= zlen bs ->
  let header i := toff + 56 * i in
  ((exists k, elf_loop bs toff 56 n index loadable = Ok k) <->
   forall i, index <= i < index + Z.of_nat n ->
     field bs 4 (header i) <> 3 /\ (field bs 4 (header i) = 1 -> mappable bs (header i))) /\
  (forall k, elf_loop bs toff 56 n index loadable = Ok k ->
     loadable <= k /\
     (k <> loadable <-> exists i, index <= i < index + Z.of_nat n /\ field bs 4 (header i) = 1)).
Proof.
  induction n as [|n IH]; intros index loadable Ht Hi Hz header; cbn [elf_loop].
  { split; [split; [lia|by eauto]|]. intros k [= <-]. split; [lia|]. split; [done|].
    intros (i&?&_). lia. }
  unfold checked_mul64. rewrite (proj2 (Z.leb_le (index * 56) U64_MAX)); [|lia].
  cbn [ok_or mbind result_bind].
  unfold checked_add64. rewrite (proj2 (Z.leb_le (toff + index * 56) U64_MAX)); [|lia].
  cbn [ok_or mbind result_bind]. replace (toff + index * 56) with (header index) by (unfold header; lia).
  rewrite read_u32_in; [|unfold header; lia..]. cbn [mbind result_bind].
  assert (Hload : elf_load bs (header index) = Ok tt <-> mappable bs (header index)).
  { apply elf_load_iff; unfold header; lia. }
  assert (Hrange : forall P : Z -> Prop, (forall i, index <= i < index + Z.of_nat (S n) -> P i) <->
    P index /\ forall i, index + 1 <= i < index + 1 + Z.of_nat n -> P i).
  { intros P. split; [intros H; split; [|intros i ?]; apply H; lia|].
    intros [H0 H1] i ?. destruct (decide (i = index)) as [->|]; [done|]. apply H1. lia. }
  assert (Hex : forall P : Z -> Prop, (exists i, index <= i < index + Z.of_nat (S n) /\ P i) <->
    P index \/ exists i, index + 1 <= i < index + 1 + Z.of_nat n /\ P i).
  { intros P. split.
    - intros (i&?&?). destruct (decide (i = index)) as [->|]; [by left|]. right. exists i.
      split; [lia|done].
    - intros [?|(i&?&?)]; [exists index|exists i]; split; (done || lia). }
  setoid_rewrite (Hrange (fun i => field bs 4 (header i) <> 3 /\ _)).
  setoid_rewrite (Hex (fun i => field bs 4 (header i) = 1)).
  destruct (Z.eqb_spec (field bs 4 (header index)) 1) as [E|E].
  - destruct (IH (index + 1) (loadable + 1)) as [IH1 IH2]; [lia..|]. split.
    + rewrite -IH1 E. setoid_rewrite bind_Ok. split.
      * intros (k&[]&Hl&Hk). apply Hload in Hl. split; [done|eauto].
      * intros [[_ Hm] [k Hk]]. exists k, tt. split; [by apply Hload, Hm|done].
    + intros k (?&_&Hk)%bind_Ok. destruct (IH2 k Hk) as [? ?]. split; [lia|].
      split; [by left|]. intros _. lia.
  - destruct (Z.eqb_spec (field bs 4 (header index)) 3) as [E3|E3].
    { split; [|done]. split; [by intros [? ?]|]. by intros [[? _] _]. }
    destruct (IH (index + 1) loadable) as [IH1 IH2]; [lia..|]. split.
    + rewrite IH1. split; [|by intros [_ ?]]. intros H. by split.
    + intros k Hk. destruct (IH2 k Hk) as [? Hk2]. split; [done|]. rewrite Hk2. split; [by right|].
      by intros [?|?].
Qed.

Lemma take_6 (l : bytes) (a b : byte) (m : bytes) :
  length m = 4%nat ->
  take 6 l = m ++ [a; b] <-> take 4 l = m /\ l !! 4%nat = Some a /\ l !! 5%nat = Some b.
Proof.
  intros Hm. destruct l as [|b0 [|b1 [|b2 [|b3 [|b4 [|b5 l]]]]]];
    destruct m as [|m0 [|m1 [|m2 [|m3 [|? ?]]]]]; simplify_eq/=; naive_solver.
Qed.

Lemma elf_identification_iff :
  elf_identification bs = Ok tt <->
  64 <= zlen bs /\ take 6 bs = elf_magic ++ [Byte.x02; Byte.x01] /\ field bs 2 18 = 62.
Proof.
  unfold elf_identification. rewrite take_6 //.
  destruct (Z.ltb_spec (zlen bs) 64); cbn [orb]; [split; [done|lia]|].
  do 3 (case_bool_decide; cbn [negb orb]; [|naive_solver]).
  rewrite read_u16_in; [|lia..]. cbn [mbind result_bind].
  destruct (Z.eqb_spec (field bs 2 18) 62); naive_solver.
Qed.
End elf.

(** C19. [validate_static_elf] accepts a file exactly when it is a little-endian
    x86-64 fixed-address executable whose program table uses the native header
    size, fits the loader's limit and lies inside the file, whose entry point
    is in guest user space, which names no interpreter, and all of whose
    loadable segments, at least one, can be mapped by the guest.  No input
    makes a field read go out of range. *)
Theorem validate_static_elf_iff bs :
  zlen bs <= U64_MAX -> validate_static_elf bs = Ok tt <-> static_elf bs.
Proof.
  intros Hbs. unfold validate_static_elf. rewrite bind_Ok.
  split.
  - intros ([]&(Hlen&Hid&Hm)%elf_identification_iff&H); [|done].
    rewrite !read_u16_in ?read_u64_in in H; [|lia..]. cbn [mbind result_bind] in H.
    destruct (Z.eqb_spec (field bs 2 16) 2) as [Ht|]; [|done]. cbn [negb] in H.
    destruct (Z.eqb_spec (field bs 2 54) NATIVE_PROGRAM_HEADER_BYTES) as [Hs|]; [|done].
    cbn [negb] in H. rewrite Hs in H. change (MAX_PROGRAM_TABLE_BYTES / _) with 1170 in H.
    unfold NATIVE_PROGRAM_HEADER_BYTES in *.
    destruct (Z.ltb_spec 1170 (field bs 2 56)) as [|Hc]; [done|].
    pose proof (field_u16 bs 56). pose proof (field_u64 bs 32).
    apply bind_Ok in H as (ts&Hts&H). destruct (checked_mul64 _ _) eqn:E in Hts; [|done].
    apply checked_mul64_Some in E as [-> _]. injection Hts as <-.
    apply bind_Ok in H as (te&Hte&H). destruct (checked_add64 _ _) eqn:E in Hte; [|done].
    apply checked_add64_Some in E as [-> _]. injection Hte as <-.
    destruct (Z.ltb_spec (zlen bs) (field bs 8 32 + 56 * field bs 2 56)) as [|Hin]; [done|].
    destruct (Z.leb_spec MAX_GUEST_USER_ADDRESS (field bs 8 24)) as [|He]; [done|].
    apply bind_Ok in H as (k&Hk&H).
    destruct (elf_loop_spec bs Hbs (field bs 8 32) (Z.to_nat (field bs 2 56)) 0 0)
      as [HL1 HL2]; [lia..|]. rewrite Z2Nat.id in HL1 HL2; [|lia].
    destruct (HL2 k Hk) as [? Hload]. destruct (Z.eqb_spec k 0) as [|Hk0]; [done|].
    constructor; try done; [unfold MAX_PROGRAM_TABLE_BYTES; lia|..].
    + intros i Hi. by apply (proj1 HL1 (ex_intro _ k Hk) i).
    + by apply Hload.
  - intros [Hlen Hid Hm Ht Hs Hc Hin He Hh Hl]. exists tt.
    split; [by apply elf_identification_iff|]. rewrite !read_u16_in ?read_u64_in; [|lia..].
    cbn [mbind result_bind]. rewrite Ht Hs. cbn [negb Z.eqb Pos.eqb].
    change (MAX_PROGRAM_TABLE_BYTES / _) with 1170. unfold MAX_PROGRAM_TABLE_BYTES in Hc.
    pose proof (field_u16 bs 56). pose proof (field_u64 bs 32).
    destruct (Z.eqb_spec 56 NATIVE_PROGRAM_HEADER_BYTES) as [_|]; [|done]. cbn [negb].
    destruct (Z.ltb_spec 1170 (field bs 2 56)); [lia|].
    rewrite (proj2 (checked_mul64_Some 56 _ (56 * field bs 2 56)));
      [|unfold U64_MAX; lia]. cbn [ok_or mbind result_bind].
    rewrite (proj2 (checked_add64_Some _ _ (field bs 8 32 + 56 * field bs 2 56)));
      [|lia]. cbn [ok_or mbind result_bind].
    destruct (Z.ltb_spec (zlen bs) (field bs 8 32 + 56 * field bs 2 56)); [lia|].
    destruct (Z.leb_spec MAX_GUEST_USER_ADDRESS (field bs 8 24)); [lia|].
    destruct (elf_loop_spec bs Hbs (field bs 8 32) (Z.to_nat (field bs 2 56)) 0 0)
      as [HL1 HL2]; [lia..|]. rewrite Z2Nat.id in HL1 HL2; [|lia].
    destruct (proj2 HL1 Hh) as [k Hk]. rewrite Hk. cbn [mbind result_bind].
    destruct (HL2 k Hk) as [? Hload]. destruct (Z.eqb_spec k 0) as [->|]; [|done].
    by apply Hload in Hl.
Qed.

(** A minimal executable: the header and one loadable segment at [0x400000]. *)
Definition le_bytes (n : nat) (z : Z) : bytes := rev (be_bytes n z).
Definition sample_elf : bytes :=
  elf_magic ++ [Byte.x02; Byte.x01] ++ repeat Byte.x00 10
  ++ le_bytes 2 2 ++ le_bytes 2 62 ++ le_bytes 4 1
  ++ le_bytes 8 4194424 ++ le_bytes 8 64 ++ le_bytes 8 0
  ++ le_bytes 4 0 ++ le_bytes 2 64 ++ le_bytes 2 56 ++ le_bytes 2 1 ++ repeat Byte.x00 6
  ++ le_bytes 4 1 ++ le_bytes 4 5 ++ le_bytes 8 0 ++ le_bytes 8 4194304 ++ le_bytes 8 4194304
  ++ le_bytes 8 120 ++ le_bytes 8 120 ++ le_bytes 8 4096.

Lemma validate_static_elf_iff_witness : zlen sample_elf = 120 /\ static_elf sample_elf.
Proof.
  split; [by vm_compute|].
  apply (validate_static_elf_iff sample_elf); [by vm_compute|by vm_compute].
Defined.

(** ** What the overlay check guarantees *)

Lemma below_or_at_iff p :
  canonical_path p ->
  below_or_at p = true <->
  p = OVERLAY_TMP \/ p = OVERLAY_DEV \/ OVERLAY_TMP ∈ ancestors p \/ OVERLAY_DEV ∈ ancestors p.
Proof.
  intros Hp. assert (Ht : canonical_path OVERLAY_TMP) by (by apply canonical_path_dec; vm_compute).
  assert (Hd : canonical_path OVERLAY_DEV) by (by apply canonical_path_dec; vm_compute).
  rewrite (ancestor_iff OVERLAY_TMP) // (ancestor_iff OVERLAY_DEV) //.
  unfold below_or_at. rewrite !orb_true_iff !bool_decide_eq_true.
  change (as_bytes "tmp/") with (subtree_prefix OVERLAY_TMP).
  change (as_bytes "dev/") with (subtree_prefix OVERLAY_DEV).
  assert (OVERLAY_TMP <> ROOT_PATH) by done. assert (OVERLAY_DEV <> ROOT_PATH) by done. tauto.
Qed.

Lemma overlay_loop_iff l :
  overlay_loop l = Ok tt <->
  Forall (fun pe => below_or_at pe.1 = true -> pe.2.(kind) = Directory) l.
Proof.
  induction l as [|[p e] l IH]; cbn [overlay_loop]; [by split|]. rewrite Forall_cons_iff -IH.
  cbn [fst snd]. destruct (below_or_at p); cbn [andb]; [|split; [by split|by intros [_ ?]]].
  case_bool_decide; cbn [negb]; [split; [by split|by intros [_ ?]]|].
  split; [done|]. intros [Hd _]. by specialize (Hd eq_refl).
Qed.

(** What the guest runtime keeps of a template: everything outside the two
    overlay subtrees. *)
Definition without_overlay (t : Tree) : Tree :=
  remove_subtree (remove_subtree t OVERLAY_TMP) OVERLAY_DEV.

Lemma without_overlay_lookup t p :
  below_or_at p = false -> without_overlay t !! p = t !! p.
Proof.
  intros Hb. unfold without_overlay. rewrite !remove_subtree_lookup.
  unfold below_or_at in Hb. apply orb_false_iff in Hb as [Hb H4].
  apply orb_false_iff in Hb as [Hb H3]. apply orb_false_iff in Hb as [H1 H2].
  unfold subtree_keeps. rewrite H1 H2.
  change (subtree_prefix OVERLAY_TMP) with (as_bytes "tmp/").
  change (subtree_prefix OVERLAY_DEV) with (as_bytes "dev/"). by rewrite H3 H4.
Qed.

(** When the overlay check accepts a tree and a launch identity whose
    executable is the canonical path [p], nothing but directories lies at or
    below [/tmp] and [/dev], and dropping both subtrees, as the runtime does,
    leaves the executable and every directory on the way to it unchanged; a
    working directory [/w] below either is refused. *)
Theorem overlay_preserves_launch t launch p :
  validate_overlay_compatibility t launch = Ok tt ->
  canonical_path p -> as_bytes launch.(executable) = SLASH :: p ->
  (forall q e, t !! q = Some e -> below_or_at q = true -> e.(kind) = Directory) /\
  (forall q, q ∈ p :: ancestors p -> without_overlay t !! q = t !! q) /\
  (forall w, canonical_path w -> as_bytes launch.(working_directory) = SLASH :: w ->
     OVERLAY_TMP ∉ ancestors w /\ OVERLAY_DEV ∉ ancestors w).
Proof.
  intros H Hp He. apply bind_Ok in H as ([]&Hl%overlay_loop_iff&H).
  assert (Htrim : forall w, canonical_path w -> trim_start_matches SLASH (SLASH :: w) = w).
  { intros w Hw. cbn [trim_start_matches]. rewrite (bool_decide_eq_true_2 (SLASH = SLASH)) //.
    destruct (canonical_path_head w Hw) as (b&r&->&Hb). cbn [trim_start_matches].
    by rewrite bool_decide_eq_false_2. }
  rewrite He Htrim // in H. destruct (below_or_at p) eqn:Hb; [done|].
  split_and!.
  - intros q e Hq. rewrite list.Forall_forall in Hl. apply (Hl (q, e)). by apply btree_iter_elem.
  - intros q Hq.
    assert (Hcq : canonical_path q).
    { apply elem_of_cons in Hq as [->|Hq]; [done|by eapply ancestors_canonical]. }
    apply without_overlay_lookup. apply not_true_iff_false. intros Hbq.
    apply not_true_iff_false in Hb. apply Hb. apply elem_of_cons in Hq as [->|Hq]; [done|].
    apply below_or_at_iff; [done|]. apply below_or_at_iff in Hbq; [|done].
    destruct Hbq as [->|[->|[Ha|Ha]]]; [by right; right; left|by right; right; right|..].
    + right; right; left. by eapply ancestors_trans.
    + right; right; right. by eapply ancestors_trans.
  - intros w Hw Hwd. rewrite Hwd Htrim // in H. cbv zeta in H.
    destruct (_ || _) eqn:E in H; [done|]. apply orb_false_iff in E as [E1 E2].
    split; intros Ha; apply ancestor_iff in Ha;
      try done; try (by apply canonical_path_dec; vm_compute).
    + destruct Ha as [[? _]|[_ Ha]]; [done|].
      change (subtree_prefix OVERLAY_TMP) with (as_bytes "tmp/") in Ha. congruence.
    + destruct Ha as [[? _]|[_ Ha]]; [done|].
      change (subtree_prefix OVERLAY_DEV) with (as_bytes "dev/") in Ha. congruence.
Qed.

Definition sample_launch : LaunchIdentity := {|
  executable := "/app"; arguments := ["/app"; "--serve"]; environment := ["HOME=/"];
  working_directory := "/"; uid := 1000; gid := 1000;
|}.

Lemma overlay_preserves_launch_witness :
  without_overlay (<[as_bytes "tmp" := default_directory]> sample_tree) !! as_bytes "app"
  = (<[as_bytes "tmp" := default_directory]> sample_tree : Tree) !! as_bytes "app".
Proof.
  apply (overlay_preserves_launch (<[as_bytes "tmp" := default_directory]> sample_tree)
    sample_launch (as_bytes "app")).
  - by vm_compute.
  - apply canonical_path_dec. by vm_compute.
  - reflexivity.
  - constructor.
Defined.
