(* ===== verification/Oci.v ===== *)
(** The OCI image reader of [workload/oci.rs]: JSON access, descriptors and
    manifest selection, launch normalization, layer members, whiteout and
    opaque markers, layer application, and the derivation of a workload graph
    from verified raw objects.

    Third-party decoders are the class [OciDecoders]: [serde_json::from_slice]
    into a [Value], the bounded [MultiGzDecoder] read, and the raw member
    iterator of the [tar] crate.  Their results are arbitrary: nothing is
    assumed of them. *)

From stdpp Require Import ssreflect.
From Stdlib Require Import Strings.Byte.
From S2P Require Import Prelude Types Std Protocol Tree Spec.

(** ** Third-party values *)

#[local] Set Warnings "-register-all".

(** [serde_json::Value]; a number is what [as_i64] answers on it, an object a
    map as a list of bindings. *)
Inductive Value :=
  | VNull
  | VBool (b : bool)
  | VNumber (as_i64 : option Z)
  | VString (s : string)
  | VArray (items : list Value)
  | VObject (bindings : list (string * Value)).

Definition Map : Type := list (string * Value).

Definition map_get (m : Map) (key : string) : option Value :=
  snd <$> List.find (fun kv => bool_decide (kv.1 = key)) m.
Definition contains_key (m : Map) (key : string) : bool :=
  match map_get m key with Some _ => true | None => false end.

Definition as_str (v : Value) : option string := match v with VString s => Some s | _ => None end.
Definition as_array (v : Value) : option (list Value) :=
  match v with VArray l => Some l | _ => None end.
Definition value_as_object (v : Value) : option Map :=
  match v with VObject m => Some m | _ => None end.
Definition as_i64 (v : Value) : option Z := match v with VNumber n => n | _ => None end.
Definition as_bool (v : Value) : option bool := match v with VBool b => Some b | _ => None end.
Definition is_null (v : Value) : bool := match v with VNull => true | _ => false end.
(** [Value::get(key)]: [None] on anything but an object. *)
Definition value_get (v : Value) (key : string) : option Value :=
  m ← value_as_object v; map_get m key.

(** [tar::EntryType], with the types the source distinguishes. *)
Inductive EntryType :=
  | TDirectory | TSymlink | TRegular | TLink | TChar | TBlock | TFifo | TGNUSparse
  | TGNULongName | TGNULongLink | TXHeader | TXGlobalHeader | TOther.

(** One member as the raw iterator yields it; a header accessor that fails on a
    malformed field is [None].  The numeric fields are unsigned. *)
Record TarEntry := {
  tar_size : N;                (** [Entry::size] *)
  tar_position : N;            (** [raw_file_position] *)
  tar_type : EntryType;
  tar_path : bytes;
  tar_mode : option N;
  tar_uid : option N;
  tar_gid : option N;
  tar_mtime : option N;
  tar_header_size : option N;  (** [header().size()] *)
  tar_link : option bytes;     (** [header().link_name_bytes()] *)
  tar_body : option bytes;     (** [read_to_end] *)
}.

Class OciDecoders := {
  json_from_slice : bytes -> Value + JsonError;
  (** At most [limit] decompressed bytes, or the decoder's message. *)
  gunzip_take : bytes -> Z -> bytes + string;
  (** [entries().raw(true)]: [None] for a malformed archive, a [None] member
      for a malformed header. *)
  tar_raw_entries : bytes -> option (list (option TarEntry));
}.

(** ** JSON access *)

Definition LAYOUT_VERSION : string := "1.0.0".
Definition MANIFEST_MEDIA_TYPE : string := "application/vnd.oci.image.manifest.v1+json".
Definition CONFIG_MEDIA_TYPE : string := "application/vnd.oci.image.config.v1+json".
Definition PLAIN_LAYER_MEDIA_TYPE : string := "application/vnd.oci.image.layer.v1.tar".
Definition GZIP_LAYER_MEDIA_TYPE : string := "application/vnd.oci.image.layer.v1.tar+gzip".

Definition as_object (value : Value) (what : string) : result Map :=
  ok_or (value_as_object value) (invalid (what +:+ " is not a JSON object")).

Definition required_string (object : Map) (key what : string) : result string :=
  ok_or (map_get object key ≫= as_str) (invalid (what +:+ " has no " +:+ key +:+ " string")).

(** [filter(|value| !value.is_null())]. *)
Definition non_null (o : option Value) : option Value :=
  match o with Some v => if is_null v then None else Some v | None => None end.

Definition optional_string (object : Map) (key : string) : result (option string) :=
  match non_null (map_get object key) with
  | None => Ok None
  | Some value => ok_or (Some <$> as_str value) (invalid (key +:+ " is not a string"))
  end.

Definition optional_string_value (value : option Value) (what : string)
    : result (option string) :=
  match value with
  | None => Ok None
  | Some value =>
      if is_null value then Ok None
      else ok_or (Some <$> as_str value) (invalid (what +:+ " is not a string"))
  end.

Definition required_integer (object : Map) (key what : string) : result Z :=
  ok_or (map_get object key ≫= as_i64) (invalid (what +:+ " has no " +:+ key +:+ " integer")).

(** The mapped and collected items of [string_list] and of the environment. *)
Fixpoint strings_of (message : string) (items : list Value) : result (list string) :=
  match items with
  | [] => Ok []
  | item :: rest =>
      s ← ok_or (as_str item) (invalid message);
      rest ← strings_of message rest;
      Ok (s :: rest)
  end.

Definition string_list (value : option Value) (what : string) : result (list string) :=
  match value with
  | None => Ok []
  | Some value =>
      if is_null value then Ok []
      else
        let message := what +:+ " must be a list of strings" in
        items ← ok_or (as_array value) (invalid message);
        strings_of message items
  end.

Definition blob_path (digest : string) : result string :=
  hex ← parse_digest digest; Ok ("blobs/sha256/" +:+ hex).

Definition parse_json `{OciDecoders} (bs : bytes) (what : string) : result Value :=
  match json_from_slice bs with
  | inl v => Ok v
  | inr e => Err (json_error ("malformed " +:+ what +:+ " JSON") e)
  end.

(** ** Descriptors *)

Record Descriptor := {
  media_type : option string;
  digest : string;
  descriptor_size : Z;
}.

Definition declares (object : Map) (key : string) : bool :=
  match map_get object key with Some v => negb (is_null v) | None => false end.

Definition parse_descriptor (value : Value) (what : string) : result Descriptor :=
  object ← as_object value (what +:+ " descriptor");
  digest ← required_string object "digest" (what +:+ " descriptor");
  hex ← parse_digest digest;
  size ← required_integer object "size" (what +:+ " descriptor");
  if size <? 0 then Err (invalid (what +:+ " descriptor declares a negative size"))
  else
    media_type ← optional_string object "mediaType";
    if declares object "urls" then Err (invalid (what +:+ " descriptor declares URLs"))
    else if declares object "data" then
      Err (invalid (what +:+ " descriptor carries embedded data"))
    else Ok {| media_type := media_type; digest := "sha256:" +:+ hex; descriptor_size := size |}.

Definition verify_descriptor `{Sha256} (descriptor : Descriptor) (data : bytes) (what : string)
    : result unit :=
  if negb (descriptor.(descriptor_size) =? zlen data) then
    Err (invalid (what +:+ " descriptor size does not match stored bytes"))
  else if negb (bool_decide (descriptor.(digest) = "sha256:" +:+ sha256_bytes data)) then
    Err (invalid (what +:+ " descriptor digest does not match stored bytes"))
  else Ok tt.

Definition EXTENSIONS : list string := ["variant"; "os.version"; "os.features"].

Fixpoint reject_extensions (m : Map) (what : string) (extensions : list string) : result unit :=
  match extensions with
  | [] => Ok tt
  | extension :: rest =>
      if contains_key m extension then
        Err (invalid ("selected " +:+ what +:+ " declares " +:+ extension))
      else reject_extensions m what rest
  end.

Definition select_manifest_descriptor (index : Value) (manifest_digest : string)
    : result Descriptor :=
  index ← as_object index "index";
  version ← required_integer index "schemaVersion" "index";
  if negb (version =? 2) then Err (invalid "unsupported index schema version")
  else
    manifests ← ok_or (map_get index "manifests" ≫= as_array)
                  (invalid "index has no manifest list");
    match List.filter (fun value =>
            bool_decide (value_get value "digest" ≫= as_str = Some manifest_digest)) manifests with
    | [] => Err (invalid "index has no descriptor for the recorded manifest")
    | [selected] =>
        descriptor ← parse_descriptor selected "selected";
        if negb (bool_decide (descriptor.(media_type) = Some MANIFEST_MEDIA_TYPE)) then
          Err (invalid "the selected descriptor is not an OCI image manifest")
        else
          platform ← ok_or (value_get selected "platform" ≫= value_as_object)
                       (invalid "selected descriptor has no platform");
          if negb (bool_decide (map_get platform "architecture" ≫= as_str = Some "amd64"))
             || negb (bool_decide (map_get platform "os" ≫= as_str = Some "linux")) then
            Err (invalid "selected descriptor is not linux/amd64")
          else
            _ ← reject_extensions platform "descriptor" EXTENSIONS;
            Ok descriptor
    | selected =>
        Err (invalid ("index has " +:+ fmt_dec (zlen selected)
                      +:+ " descriptors for the recorded manifest"))
    end.

(** ** Launch normalization *)

Definition unsupported_fields (oci : Map) : result unit :=
  _ ← match non_null (map_get oci "Volumes") with
      | Some volumes =>
          m ← as_object volumes "Volumes";
          if negb (is_empty m) then Err (invalid "the Volumes launch field is not supported")
          else Ok tt
      | None => Ok tt
      end;
  _ ← match non_null (map_get oci "StopSignal") with
      | Some signal =>
          signal ← ok_or (as_str signal) (invalid "StopSignal must be a string");
          if negb (is_empty (as_bytes signal)) then
            Err (invalid "the StopSignal launch field is not supported")
          else Ok tt
      | None => Ok tt
      end;
  match non_null (map_get oci "ArgsEscaped") with
  | Some escaped =>
      escaped ← ok_or (as_bool escaped) (invalid "ArgsEscaped must be a boolean");
      if (escaped : bool) then Err (invalid "the ArgsEscaped launch field is not supported")
      else Ok tt
  | None => Ok tt
  end.

Definition launch_environment (oci : option Map) : result (list string) :=
  match oci ≫= fun oci => map_get oci "Env" with
  | None => Ok []
  | Some value =>
      if is_null value then Ok []
      else
        items ← ok_or (as_array value) (invalid "config environment is not a list");
        entries ← strings_of "config environment is not a list of strings" items;
        normalize_environment entries
  end.

Definition MODE_EXECUTE : Z := 73. (** 0o111 *)

Definition not_a_file : io_error :=
  invalid "the executable argument is not a file in the workload".

Definition normalize_launch (config : Map) (t : Tree) : result LaunchIdentity :=
  architecture ← required_string config "architecture" "config";
  is_linux ← (if negb (bool_decide (architecture = "amd64")) then Ok false
              else os ← required_string config "os" "config"; Ok (bool_decide (os = "linux")));
  if negb is_linux then Err (invalid "selected config is not linux/amd64")
  else
    _ ← reject_extensions config "config" EXTENSIONS;
    oci ← match non_null (map_get config "config") with
          | Some value => m ← as_object value "config launch section"; Ok (Some m)
          | None => Ok None
          end;
    _ ← match oci with Some oci => unsupported_fields oci | None => Ok tt end;
    entrypoint ← string_list (oci ≫= fun oci => map_get oci "Entrypoint") "Entrypoint";
    cmd ← string_list (oci ≫= fun oci => map_get oci "Cmd") "Cmd";
    match entrypoint ++ cmd with
    | [] => Err (invalid "workload has no executable")
    | executable :: _ =>
        arguments ← normalize_arguments (entrypoint ++ cmd) "arguments";
        if negb (starts_with [SLASH] (as_bytes executable)) then
          Err (invalid "the executable argument must be an absolute path")
        else
          relative ← map_err
            (fun _ => invalid "the executable argument is not a valid in-root path")
            (normalize_layer_path (trim_start_matches SLASH (as_bytes executable)));
          entry ← ok_or (Tree_get t relative) not_a_file;
          if negb (bool_decide (entry.(kind) = File)) then Err not_a_file
          else if Z.land entry.(mode) MODE_EXECUTE =? 0 then
            Err (invalid "the executable argument is not executable")
          else
            user ← optional_string_value (oci ≫= fun oci => map_get oci "User") "User";
            '(uid, gid) ← normalize_user user;
            environment ← launch_environment oci;
            wd ← optional_string_value (oci ≫= fun oci => map_get oci "WorkingDir") "WorkingDir";
            working_directory ← normalize_working_directory wd t;
            let launch := {|
              executable := "/" +:+ from_utf8_lossy relative;
              arguments := arguments;
              environment := environment;
              working_directory := working_directory;
              uid := uid;
              gid := gid |} in
            _ ← validate_launch_identity launch;
            Ok launch
    end.

(** ** Layer bytes *)

Definition expand_layer `{OciDecoders} (data : bytes) (media_type : string) : result bytes :=
  if bool_decide (media_type = PLAIN_LAYER_MEDIA_TYPE) then
    if MAX_EXPANDED_LAYER_BYTES <? zlen data then Err (invalid "layer expansion limit")
    else Ok data
  else if negb (bool_decide (media_type = GZIP_LAYER_MEDIA_TYPE)) then
    Err (invalid "the layer has an unsupported media type; expected an OCI tar or tar+gzip layer")
  else
    match gunzip_take data (MAX_EXPANDED_LAYER_BYTES + 1) with
    | inr message => Err (invalid ("malformed gzip layer: " +:+ message))
    | inl expanded =>
        if MAX_EXPANDED_LAYER_BYTES <? zlen expanded then Err (invalid "layer expansion limit")
        else Ok expanded
    end.

Record Member := {
  member_name : bytes;
  member_entry : Entry;
}.

Inductive Marker :=
  | Whiteout (target : bytes)
  | Opaque (target : bytes).

Definition Marker_target (m : Marker) : bytes :=
  match m with Whiteout t => t | Opaque t => t end.

Definition member_error (layer member : Z) (message : string) : io_error :=
  invalid ("layer " +:+ fmt_dec layer +:+ " member " +:+ fmt_dec member +:+ message).

Definition unsigned (o : option N) (e : io_error) : result Z := ok_or (Z.of_N <$> o) e.

Definition reject_declared_size (entry : TarEntry) (layer member : Z) : result unit :=
  size ← unsigned entry.(tar_header_size)
           (member_error layer member " has a malformed size field");
  if negb (size =? 0) then Err (member_error layer member " declares a nonzero size")
  else Ok tt.

(** The match on the entry type. *)
Definition member_of_type (entry : TarEntry) (layer member mode uid gid mtime : Z)
    : result Entry :=
  match entry.(tar_type) with
  | TDirectory =>
      _ ← reject_declared_size entry layer member;
      Ok (Entry_directory mode uid gid mtime)
  | TSymlink =>
      _ ← reject_declared_size entry layer member;
      target ← ok_or entry.(tar_link)
                 (member_error layer member " is a symbolic link with no target");
      _ ← validate_symlink_syntax target;
      Ok (Entry_symlink target uid gid mtime)
  | TRegular =>
      size ← unsigned entry.(tar_header_size)
               (member_error layer member " has a malformed size field");
      if MAX_FILE_BYTES <? size then
        Err (member_error layer member (" is a file over " +:+ fmt_dec MAX_FILE_BYTES +:+ " bytes"))
      else
        data ← ok_or entry.(tar_body) (member_error layer member " is an unreadable file");
        if negb (zlen data =? size) then Err (member_error layer member " is a truncated file")
        else Ok (Entry_file data mode uid gid mtime)
  | TLink => Err (member_error layer member " is a hard link, which is unsupported")
  | TChar | TBlock | TFifo => Err (member_error layer member " has an unsupported file type")
  | TGNUSparse => Err (member_error layer member " is a sparse file, which is unsupported")
  | TGNULongName | TGNULongLink | TXHeader | TXGlobalHeader =>
      Err (member_error layer member " carries unsupported extended metadata")
  | TOther => Err (member_error layer member " has an unsupported file type")
  end.

(** The header checks of one member. *)
Definition parse_member (entry : TarEntry) (layer member : Z) : result Member :=
  name ← normalize_layer_path entry.(tar_path);
  mode ← unsigned entry.(tar_mode) (member_error layer member " has a malformed mode field");
  if 4095 <? mode then Err (member_error layer member " has an unsupported mode")
  else if negb (Z.land mode 3072 =? 0) then
    Err (member_error layer member " is setuid or setgid")
  else
    uid ← unsigned entry.(tar_uid) (member_error layer member " has a malformed uid field");
    gid ← unsigned entry.(tar_gid) (member_error layer member " has a malformed gid field");
    mtime ← unsigned entry.(tar_mtime) (member_error layer member " has a malformed mtime field");
    if (U32_MAX <=? uid) || (U32_MAX <=? gid) then
      Err (member_error layer member " has an out-of-range ownership")
    else if U32_MAX <? mtime then
      Err (member_error layer member " has an out-of-range timestamp")
    else
      e ← member_of_type entry layer member mode uid gid mtime;
      Ok {| member_name := name; member_entry := e |}.

Definition size_overflow : io_error :=
  invalid "malformed layer archive: member size overflow".

(** The physical end of a member: its position plus its size rounded up to
    whole 512-byte blocks. *)
Definition member_end (entry : TarEntry) : result Z :=
  size ← ok_or (checked_add64 (Z.of_N entry.(tar_size)) 511) size_overflow;
  let padded_size := Z.land size (Z.lnot 511) in
  ok_or (checked_add64 (Z.of_N entry.(tar_position)) padded_size) size_overflow.

Fixpoint parse_members (layer member : Z) (entries : list (option TarEntry))
    (members : list Member) (end_of_last : Z) : result (list Member * Z) :=
  match entries with
  | [] => Ok (members, end_of_last)
  | entry :: rest =>
      entry ← ok_or entry (member_error layer member " has a malformed header");
      end_of_last ← member_end entry;
      m ← parse_member entry layer member;
      if MAX_ENTRIES <? zlen (members ++ [m]) then
        Err (invalid ("layer exceeds " +:+ fmt_dec MAX_ENTRIES +:+ " entries"))
      else parse_members layer (member + 1) rest (members ++ [m]) end_of_last
  end.

Definition missing_marker : io_error :=
  invalid "layer archive is missing its end-of-archive marker".

Definition parse_layer `{OciDecoders} (expanded : bytes) (layer : Z) : result (list Member) :=
  entries ← ok_or (tar_raw_entries expanded)
              (invalid ("layer " +:+ fmt_dec layer +:+ " has a malformed archive header"));
  '(members, end_of_last) ← parse_members layer 0 entries [] 0;
  terminator_end ← ok_or (checked_add64 end_of_last 1024) missing_marker;
  if negb (terminator_end <=? zlen expanded) then Err missing_marker
  else if existsb (fun b => negb (bool_decide (b = Byte.x00)))
            (take 1024 (drop (Z.to_nat end_of_last) expanded)) then Err missing_marker
  else Ok members.

(** ** Markers *)

Definition WH : bytes := as_bytes ".wh.".
Definition WH_OPAQUE : bytes := as_bytes ".wh..wh..opq".

Definition is_empty_file (e : Entry) : bool :=
  match e.(data) with None => true | Some d => is_empty d end.

Definition is_marker_file (e : Entry) : bool :=
  bool_decide (e.(kind) = File) && is_empty_file e.

Definition split_marker (member : Member) : result (option Marker) :=
  let components := walk_parts member.(member_name) in
  match rev components with
  | [] => Ok None
  | base :: parents =>
      if existsb (starts_with WH) (rev parents) then
        Err (invalid "a whiteout marker is not a basename")
      else
        let parent := default ROOT_PATH (parent_of member.(member_name)) in
        if bool_decide (base = WH_OPAQUE) then
          if negb (is_marker_file member.(member_entry)) then
            Err (invalid "an opaque marker must be an empty regular file")
          else Ok (Some (Opaque parent))
        else if starts_with WH base then
          if negb (is_marker_file member.(member_entry)) then
            Err (invalid "a whiteout marker must be an empty regular file")
          else
            let target := drop 4 base in
            if is_empty target || bool_decide (target = DOT) || bool_decide (target = DOTDOT)
               || contains_byte SLASH target || contains_byte Byte.x00 target then
              Err (invalid "invalid whiteout marker target")
            else Ok (Some (Whiteout (join_path parent target)))
        else Ok None
  end.

(** ** Layer application *)

(** The first loop: reject duplicates and separate markers from additions. *)
Fixpoint sort_members (seen : list bytes) (members : list Member)
    : result (list Marker * list Member) :=
  match members with
  | [] => Ok ([], [])
  | member :: rest =>
      if bool_decide (member.(member_name) ∈ seen) then
        Err (invalid "a layer contains duplicate normalized paths")
      else
        marker ← split_marker member;
        '(markers, additions) ← sort_members (member.(member_name) :: seen) rest;
        match marker with
        | None => Ok (markers, member :: additions)
        | Some marker => Ok (marker :: markers, additions)
        end
  end.

(** The directories this layer provides, as a [BTreeSet]. *)
Definition provided_directories (additions : list Member) : list bytes :=
  flat_map (fun m =>
    (if bool_decide (m.(member_entry).(kind) = Directory) then [m.(member_name)] else [])
    ++ ancestors m.(member_name)) additions.

Definition marker_chain (marker : Marker) : list bytes :=
  match marker with
  | Opaque target => target :: ancestors target
  | Whiteout target => ancestors target
  end.

(** A marker may not traverse a lower-layer symbolic link that this layer does
    not replace by a directory. *)
Definition marker_blocked (t : Tree) (provided : list bytes) (marker : Marker) : bool :=
  existsb (fun ancestor => is_symlink t ancestor && negb (bool_decide (ancestor ∈ provided)))
    (marker_chain marker).

Definition apply_marker (t : Tree) (marker : Marker) : Tree :=
  match marker with
  | Whiteout target => remove_subtree t target
  | Opaque target => remove_children t target
  end.

Definition not_directory (t : Tree) (p : bytes) : bool :=
  match t !! p with Some e => negb (bool_decide (e.(kind) = Directory)) | None => false end.

(** One addition: its ancestors become directories, an entry of another kind
    is removed with its subtree, and the member is inserted. *)
Definition apply_addition (t : Tree) (member : Member) : result Tree :=
  let name := member.(member_name) in
  if existsb (not_directory t) (ancestors name) then
    Err (invalid "a layer path traverses a non-directory ancestor")
  else
    let t := fold_left insert_default_directory (ancestors name) t in
    let existing := kind <$> t !! name in
    let t :=
      match member.(member_entry).(kind) with
      | Directory =>
          if bool_decide (is_Some existing) && negb (bool_decide (existing = Some Directory))
          then remove_subtree t name else t
      | _ => if bool_decide (existing = Some Directory) then remove_subtree t name else t
      end in
    Ok (Tree_insert t name member.(member_entry)).

Fixpoint apply_additions (t : Tree) (additions : list Member) : result Tree :=
  match additions with
  | [] => Ok t
  | member :: rest => t ← apply_addition t member; apply_additions t rest
  end.

Definition opaque_misplaced (t : Tree) (marker : Marker) : bool :=
  match marker with Opaque target => not_directory t target | Whiteout _ => false end.

Definition apply_layer (t : Tree) (members : list Member) : result Tree :=
  '(markers, additions) ← sort_members [] members;
  if existsb (marker_blocked t (provided_directories additions)) markers then
    Err (invalid "a layer marker traverses a symbolic link")
  else
    let t := fold_left apply_marker markers t in
    t ← apply_additions t additions;
    if existsb (opaque_misplaced t) markers then
      Err (invalid "an opaque marker targets a non-directory entry")
    else Ok t.

(** ** The workload graph *)

Record LayerEvidence := {
  evidence_media_type : string;
  evidence_digest : string;
  evidence_diff_id : string;
  evidence_bytes : Z;
  evidence_expanded_bytes : Z;
}.

Record OciObjects := {
  obj_layout : bytes;
  obj_index : bytes;
  obj_manifest : bytes;
  obj_config : bytes;
  obj_layers : list bytes;
  obj_manifest_digest : string;
}.

Record OciGraph := {
  graph_tree : Tree;
  graph_launch : LaunchIdentity;
  graph_layers : list LayerEvidence;
}.

Section graph.
Context `{Sha256} `{OciDecoders}.

Definition layer_name (position : Z) : string := "layer " +:+ fmt_dec position.

(** The body of the layer loop; [diff_ids[position]] is in range because the
    counts were compared. *)
Definition graph_layer (position : Z) (value diff_id : Value) (data : bytes) (t : Tree)
    : result (Tree * LayerEvidence) :=
  descriptor ← parse_descriptor value (layer_name position);
  media_type ← ok_or descriptor.(media_type)
                 (invalid (layer_name position +:+ " has no media type"));
  if negb (bool_decide (media_type = PLAIN_LAYER_MEDIA_TYPE))
     && negb (bool_decide (media_type = GZIP_LAYER_MEDIA_TYPE)) then
    Err (invalid (layer_name position +:+
      " has an unsupported media type; expected an OCI tar or tar+gzip layer"))
  else
    _ ← verify_descriptor descriptor data (layer_name position);
    expanded ← expand_layer data media_type;
    diff_id ← ok_or (as_str diff_id) (invalid "config diff_id is not a string");
    diff_id ← parse_digest diff_id;
    if negb (bool_decide (sha256_bytes expanded = diff_id)) then
      Err (invalid (layer_name position +:+ " DiffID does not match uncompressed bytes"))
    else
      members ← parse_layer expanded position;
      t ← apply_layer t members;
      _ ← validate_canonical_tree t MAX_VIEW_ENTRIES MAX_EXPANDED_LAYER_BYTES;
      Ok (t, {| evidence_media_type := media_type;
                evidence_digest := descriptor.(digest);
                evidence_diff_id := "sha256:" +:+ diff_id;
                evidence_bytes := zlen data;
                evidence_expanded_bytes := zlen expanded |}).

Fixpoint graph_layers_loop (position : Z) (layers : list (Value * Value * bytes)) (t : Tree)
    : result (Tree * list LayerEvidence) :=
  match layers with
  | [] => Ok (t, [])
  | (value, diff_id, data) :: rest =>
      '(t, e) ← graph_layer position value diff_id data t;
      '(t, es) ← graph_layers_loop (position + 1) rest t;
      Ok (t, e :: es)
  end.

Definition parse_graph (objects : OciObjects) : result OciGraph :=
  layout_value ← parse_json objects.(obj_layout) "oci-layout";
  layout ← as_object layout_value "oci-layout";
  layout_version ← required_string layout "imageLayoutVersion" "oci-layout";
  if negb (bool_decide (layout_version = LAYOUT_VERSION)) then
    Err (invalid ("unsupported image layout version; expected "
                  +:+ QUOTE +:+ LAYOUT_VERSION +:+ QUOTE))
  else
  index_value ← parse_json objects.(obj_index) "index";
  descriptor ← select_manifest_descriptor index_value objects.(obj_manifest_digest);
  _ ← verify_descriptor descriptor objects.(obj_manifest) "manifest";
  manifest_value ← parse_json objects.(obj_manifest) "manifest";
  manifest ← as_object manifest_value "manifest";
  schema ← required_integer manifest "schemaVersion" "manifest";
  if negb (schema =? 2) then Err (invalid "unsupported manifest schema version")
  else
  manifest_type ← required_string manifest "mediaType" "manifest";
  if negb (bool_decide (manifest_type = MANIFEST_MEDIA_TYPE)) then
    Err (invalid "manifest media type is unsupported")
  else
  config_value ← ok_or (map_get manifest "config") (invalid "manifest has no config descriptor");
  config_descriptor ← parse_descriptor config_value "config";
  _ ← verify_descriptor config_descriptor objects.(obj_config) "config";
  if negb (bool_decide (config_descriptor.(media_type) = Some CONFIG_MEDIA_TYPE)) then
    Err (invalid "config media type is unsupported")
  else
  config_value ← parse_json objects.(obj_config) "config";
  config ← as_object config_value "config";
  layer_values ← ok_or (map_get manifest "layers" ≫= as_array)
                   (invalid "manifest has no layer list");
  if is_empty layer_values then Err (invalid "manifest has no layers")
  else if MAX_LAYERS <? zlen layer_values then
    Err (invalid ("manifest has more than " +:+ fmt_dec MAX_LAYERS +:+ " layers"))
  else if negb (zlen layer_values =? zlen objects.(obj_layers)) then
    Err (invalid "raw layer count does not match the manifest layer count")
  else
  rootfs_value ← ok_or (non_null (map_get config "rootfs")) (invalid "config has no rootfs");
  rootfs ← as_object rootfs_value "config rootfs";
  rootfs_type ← required_string rootfs "type" "config rootfs";
  if negb (bool_decide (rootfs_type = "layers")) then
    Err (invalid "config rootfs type is not layers")
  else
  diff_ids ← ok_or (map_get rootfs "diff_ids" ≫= as_array)
               (invalid "config rootfs has no diff_ids");
  if negb (zlen diff_ids =? zlen layer_values) then
    Err (invalid "config diff_id count does not match layer count")
  else
  '(t, evidence) ← graph_layers_loop 0
      (combine (combine layer_values diff_ids) objects.(obj_layers)) Tree_new;
  let t := insert_default_directory t ROOT_PATH in
  if negb (bool_decide (kind <$> t !! ROOT_PATH = Some Directory)) then
    Err (invalid "canonical root must be a directory")
  else
  _ ← validate_symlinks t;
  launch ← normalize_launch config t;
  Ok {| graph_tree := t; graph_launch := launch; graph_layers := evidence |}.
End graph.

(** ** The shape of an assembled tree *)

(** An entry within the assembler's limits and without set-id bits or a
    reserved owner. *)
Definition entry_ok (p : bytes) (e : Entry) : Prop :=
  entry_wf p e /\ Z.land e.(mode) 3072 = 0 /\
  e.(entry_uid) <> RESERVED_OWNER /\ e.(entry_gid) <> RESERVED_OWNER.

(** Every path is canonical, every entry acceptable, and every entry's
    ancestors are present and directories. *)
Definition tree_inv (t : Tree) : Prop :=
  forall p e, t !! p = Some e ->
    canonical_path p /\ entry_ok p e /\
    forall q, q ∈ ancestors p -> exists d, t !! q = Some d /\ d.(kind) = Directory.

Definition member_ok (m : Member) : Prop :=
  canonical_path m.(member_name) /\ entry_ok m.(member_name) m.(member_entry).

Lemma tree_inv_empty : tree_inv Tree_new.
Proof. intros p e H. by rewrite lookup_empty in H. Qed.

Lemma default_directory_ok p : canonical_path p -> entry_ok p default_directory.
Proof. intros (ps&_&_&Hl). by split_and!. Qed.

Lemma tree_inv_remove_subtree t p :
  canonical_path p -> tree_inv t -> tree_inv (remove_subtree t p).
Proof.
  intros Hp Hinv q e Hq.
  assert (Hq0 : t !! q = Some e) by (rewrite remove_subtree_lookup in Hq; by destruct subtree_keeps).
  destruct (Hinv q e Hq0) as (Hc&Hok&Hanc). split_and!; [done..|]. intros a Ha.
  destruct (Hanc a Ha) as (d&Hd&Hk). exists d. split; [|done].
  destruct (remove_lookups t p q Hp Hc) as [Eq _]. rewrite Eq in Hq.
  destruct (remove_lookups t p a Hp (ancestors_canonical _ _ Hc Ha)) as [-> _].
  case_bool_decide; [done|]. case_bool_decide as Hpq; [done|]. cbn [orb] in *.
  rewrite !bool_decide_eq_false_2 //.
  - intros Hpa. apply Hpq. by eapply ancestors_trans.
  - intros ->. done.
Qed.

Lemma tree_inv_remove_children t p :
  canonical_path p -> tree_inv t -> tree_inv (remove_children t p).
Proof.
  intros Hp Hinv q e Hq.
  assert (Hq0 : t !! q = Some e) by (rewrite remove_children_lookup in Hq; by destruct children_keeps).
  destruct (Hinv q e Hq0) as (Hc&Hok&Hanc). split_and!; [done..|]. intros a Ha.
  destruct (Hanc a Ha) as (d&Hd&Hk). exists d. split; [|done].
  destruct (remove_lookups t p q Hp Hc) as [_ Eq]. rewrite Eq in Hq.
  destruct (remove_lookups t p a Hp (ancestors_canonical _ _ Hc Ha)) as [_ ->].
  case_bool_decide as Hpq; [done|]. rewrite bool_decide_eq_false_2 //.
  intros Hpa. apply Hpq. by eapply ancestors_trans.
Qed.

Lemma default_directories_lookup l t q :
  fold_left insert_default_directory l t !! q =
  match t !! q with
  | Some e => Some e
  | None => if bool_decide (q ∈ l) then Some default_directory else None
  end.
Proof.
  revert t. induction l as [|p l IH]; intros t; cbn [fold_left].
  { destruct (t !! q); [done|]. by rewrite bool_decide_eq_false_2; [|apply not_elem_of_nil]. }
  rewrite IH. unfold insert_default_directory. destruct (decide (q = p)) as [->|Hne].
  - rewrite (bool_decide_eq_true_2 (p ∈ p :: l)); [|constructor].
    destruct (t !! p) eqn:E; [by rewrite E|]. by rewrite lookup_insert_eq.
  - assert (Hl : (match t !! p with Some _ => t | None => <[p:=default_directory]> t end) !! q = t !! q).
    { destruct (t !! p); [done|]. by rewrite lookup_insert_ne. }
    rewrite Hl. destruct (t !! q); [done|].
    erewrite bool_decide_ext; [reflexivity|]. rewrite elem_of_cons. naive_solver.
Qed.

Lemma not_directory_false t p :
  not_directory t p = false <-> forall e, t !! p = Some e -> e.(kind) = Directory.
Proof.
  unfold not_directory. destruct (t !! p) as [e|]; [|naive_solver].
  rewrite negb_false_iff bool_decide_eq_true. naive_solver.
Qed.

Lemma existsb_false {A} (f : A -> bool) l :
  existsb f l = false <-> forall x, x ∈ l -> f x = false.
Proof.
  rewrite -not_true_iff_false existsb_exists. setoid_rewrite <- list_elem_of_In. split.
  - intros H x Hx. apply not_true_iff_false. intros Hf. apply H. eauto.
  - intros H (x&Hx&Hf). rewrite H // in Hf.
Qed.

(** Creating the missing ancestors of a path none of whose ancestors is
    anything but a directory. *)
Lemma tree_inv_ancestors t name :
  canonical_path name -> tree_inv t -> existsb (not_directory t) (ancestors name) = false ->
  let t1 := fold_left insert_default_directory (ancestors name) t in
  tree_inv t1 /\ forall q, q ∈ ancestors name -> exists d, t1 !! q = Some d /\ d.(kind) = Directory.
Proof.
  intros Hn Hinv Hnd t1. rewrite existsb_false in Hnd.
  assert (Hanc : forall q, q ∈ ancestors name -> exists d, t1 !! q = Some d /\ d.(kind) = Directory).
  { intros q Hq. unfold t1. rewrite default_directories_lookup.
    destruct (t !! q) as [e|] eqn:E.
    - exists e. split; [done|]. apply (proj1 (not_directory_false t q)); [by apply Hnd|done].
    - rewrite bool_decide_eq_true_2 //. by exists default_directory. }
  split; [|done]. intros p e Hp. unfold t1 in Hp. rewrite default_directories_lookup in Hp.
  destruct (t !! p) as [e'|] eqn:E.
  - injection Hp as ->. destruct (Hinv p e E) as (Hc&Hok&Ha). split_and!; [done..|].
    intros q Hq. destruct (Ha q Hq) as (d&Hd&Hk). exists d. split; [|done].
    unfold t1. by rewrite default_directories_lookup Hd.
  - case_bool_decide as Hin; [|done]. injection Hp as <-.
    assert (Hc : canonical_path p) by (by eapply ancestors_canonical).
    split_and!; [done|by apply default_directory_ok|].
    intros q Hq. apply Hanc. by eapply ancestors_trans.
Qed.

(** The tree an addition is inserted into: nothing below the new path unless
    it becomes a directory. *)
Lemma tree_inv_insert t name e :
  canonical_path name -> tree_inv t -> entry_ok name e ->
  (forall q, q ∈ ancestors name -> exists d, t !! q = Some d /\ d.(kind) = Directory) ->
  (e.(kind) <> Directory -> forall q x, t !! q = Some x -> name ∉ ancestors q) ->
  tree_inv (Tree_insert t name e).
Proof.
  intros Hn Hinv Hok Hanc Hbelow p x Hp. unfold Tree_insert in *.
  destruct (decide (p = name)) as [->|Hne].
  - rewrite lookup_insert_eq in Hp. injection Hp as <-. split_and!; [done..|].
    intros q Hq. destruct (Hanc q Hq) as (d&?&?). exists d. split; [|done].
    rewrite lookup_insert_ne //. intros ->. by apply (ancestors_irrefl q).
  - rewrite lookup_insert_ne // in Hp. destruct (Hinv p x Hp) as (Hc&Hpok&Ha).
    split_and!; [done..|]. intros q Hq. destruct (decide (q = name)) as [->|Hqn].
    + rewrite lookup_insert_eq. exists e. split; [done|].
      destruct (decide (e.(kind) = Directory)) as [|Hk]; [done|]. by destruct (Hbelow Hk p x Hp).
    + rewrite lookup_insert_ne //. by apply Ha.
Qed.

Lemma remove_subtree_below t name q x :
  canonical_path name -> tree_inv t ->
  remove_subtree t name !! q = Some x -> q <> name /\ name ∉ ancestors q /\ t !! q = Some x.
Proof.
  intros Hn Hinv Hq.
  assert (Hq0 : t !! q = Some x) by (rewrite remove_subtree_lookup in Hq; by destruct subtree_keeps).
  destruct (Hinv q x Hq0) as (Hc&_). destruct (remove_lookups t name q Hn Hc) as [E _].
  rewrite E in Hq. case_bool_decide; [done|]. by case_bool_decide.
Qed.

Lemma tree_inv_addition t m t' :
  member_ok m -> tree_inv t -> apply_addition t m = Ok t' -> tree_inv t'.
Proof.
  intros [Hn Hok] Hinv. unfold apply_addition.
  destruct (existsb _ _) eqn:Hex; [done|]. cbv zeta. intros [= <-].
  destruct (tree_inv_ancestors t _ Hn Hinv Hex) as [Hinv1 Hanc1].
  set (t1 := fold_left insert_default_directory (ancestors (member_name m)) t) in *.
  clearbody t1. clear Hinv Hex. set (name := member_name m) in *.
  (* after a removal there is nothing at or below [name] *)
  assert (Hrm : tree_inv (Tree_insert (remove_subtree t1 name) name (member_entry m))).
  { apply tree_inv_insert; [done|by apply tree_inv_remove_subtree|done| |].
    - intros q Hq. destruct (Hanc1 q Hq) as (d&Hd&Hk). exists d. split; [|done].
      assert (Hc : canonical_path q) by (by eapply ancestors_canonical).
      destruct (remove_lookups t1 name q Hn Hc) as [-> _].
      rewrite !bool_decide_eq_false_2 //.
      + intros Hnq. apply (ancestors_irrefl name Hn). by eapply ancestors_trans.
      + intros ->. by apply (ancestors_irrefl name Hn).
    - intros _ q x Hq. by apply (remove_subtree_below t1 name q x). }
  (* otherwise the invariant already excludes anything below a non-directory *)
  assert (Hkeep : (member_entry m).(kind) = Directory \/ kind <$> t1 !! name <> Some Directory ->
    tree_inv (Tree_insert t1 name (member_entry m))).
  { intros Hcase. apply tree_inv_insert; try done. intros Hk q x Hq Hnq.
    destruct Hcase as [|Hcase]; [done|]. destruct (Hinv1 q x Hq) as (_&_&Ha).
    destruct (Ha name Hnq) as (d&Hd&Hkd). apply Hcase. by rewrite Hd /= Hkd. }
  destruct ((member_entry m).(kind)) eqn:Hk.
  - case_bool_decide; cbn [andb]; [case_bool_decide; cbn [negb]|]; auto.
  - case_bool_decide; auto.
  - case_bool_decide; auto.
Qed.

Lemma tree_inv_additions l t t' :
  Forall member_ok l -> tree_inv t -> apply_additions t l = Ok t' -> tree_inv t'.
Proof.
  intros Hl. revert t. induction Hl as [|m l Hm _ IH]; intros t Hinv H.
  - by injection H as <-.
  - apply bind_Ok in H as (t1&H1&H). eapply IH; [|done]. by eapply tree_inv_addition.
Qed.

Lemma path_of_snoc ps x :
  Forall path_part ps -> path_of (ps ++ [x]) = join_path (path_of ps) x.
Proof.
  intros Hps. unfold join_path. destruct (decide (ps = [])) as [->|Hne]; [done|].
  rewrite bool_decide_eq_false_2.
  - rewrite path_of_cons_join; last by destruct ps. by rewrite join_with_app // path_of_cons_join.
  - intros E. apply Hne, (path_of_inj ps []); [done|constructor|done].
Qed.

Lemma zlen_join_path p x y : zlen x <= zlen y -> zlen (join_path p x) <= zlen (join_path p y).
Proof.
  intros. unfold join_path. case_bool_decide; [done|]. rewrite !zlen_app. lia.
Qed.

(** Markers name canonical paths. *)
Lemma split_marker_target m marker :
  canonical_path m.(member_name) -> split_marker m = Ok (Some marker) ->
  canonical_path (Marker_target marker).
Proof.
  intros (ps&Hps&En&Hlen). unfold split_marker. rewrite En walk_parts_path_of //.
  destruct ps as [|base parents _] using rev_ind; [done|].
  rewrite rev_app_distr. cbn [rev app]. destruct (existsb _ _); [done|].
  apply Forall_app in Hps as [Hp Hb]. inversion Hb as [|? ? Hbase _]; subst.
  rewrite parent_of_path_of //. cbn [default].
  assert (Hparent : canonical_path (path_of parents)).
  { apply (ancestors_canonical (path_of (parents ++ [base]))).
    - exists (parents ++ [base]). split_and!; [by apply Forall_app|done|by rewrite -En].
    - rewrite ancestors_unfold parent_of_path_of //. constructor. }
  case_bool_decide.
  { destruct (negb _); [done|]. by intros [= <-]. }
  destruct (starts_with WH base); [|done]. destruct (negb _); [done|].
  destruct (_ || _) eqn:E; [done|]. intros [= <-]. cbn [Marker_target].
  rewrite !orb_false_iff in E. destruct E as ((((E1&E2)&E3)&E4)&E5).
  apply is_empty_false in E1. apply bool_decide_eq_false in E2, E3.
  apply contains_byte_false in E4, E5.
  exists (parents ++ [drop 4 base]). rewrite path_of_snoc //. split_and!; [|done|].
  - apply Forall_app. split; [done|]. constructor; [by split_and!|constructor].
  - rewrite En path_of_snoc // in Hlen.
    pose proof (zlen_join_path (path_of parents) (drop 4 base) base) as Hz.
    unfold zlen in Hz at 1 2. rewrite length_drop in Hz. lia.
Qed.

Lemma sort_members_ok seen members markers additions :
  Forall member_ok members -> sort_members seen members = Ok (markers, additions) ->
  Forall (fun m => canonical_path (Marker_target m)) markers /\ Forall member_ok additions.
Proof.
  intros Hm. revert seen markers additions.
  induction Hm as [|m members Hm _ IH]; intros seen markers additions H.
  { injection H as <- <-. split; constructor. }
  cbn [sort_members] in H. case_bool_decide; [done|].
  apply bind_Ok in H as (o&Ho&H). apply bind_Ok in H as ([ms as_]&Hr&H).
  destruct (IH _ _ _ Hr) as [IH1 IH2]. destruct o as [marker|]; injection H as <- <-.
  - split; [|done]. constructor; [|done]. eapply split_marker_target; [|done]. apply Hm.
  - split; [done|]. by constructor.
Qed.

Lemma tree_inv_markers markers t :
  Forall (fun m => canonical_path (Marker_target m)) markers -> tree_inv t ->
  tree_inv (fold_left apply_marker markers t).
Proof.
  intros Hm. revert t. induction Hm as [|m markers Hm _ IH]; intros t Hinv; [done|].
  cbn [fold_left]. apply IH. destruct m; simpl in *.
  - by apply tree_inv_remove_subtree.
  - by apply tree_inv_remove_children.
Qed.

Lemma tree_inv_layer t members t' :
  Forall member_ok members -> tree_inv t -> apply_layer t members = Ok t' -> tree_inv t'.
Proof.
  intros Hm Hinv H. apply bind_Ok in H as ([markers additions]&Hs&H).
  destruct (sort_members_ok _ _ _ _ Hm Hs) as [Hmk Hadd].
  destruct (existsb _ _) in H; [done|]. apply bind_Ok in H as (t1&H1&H).
  destruct (existsb _ _) in H; [done|]. injection H as <-.
  eapply tree_inv_additions; [done| |done]. by apply tree_inv_markers.
Qed.

(** ** Parsed members are acceptable *)

Lemma unsigned_Ok o e z : unsigned o e = Ok z -> 0 <= z.
Proof.
  unfold unsigned. destruct o as [n|]; [|done]. intros [= <-]. apply N2Z.is_nonneg.
Qed.

Lemma member_of_type_wf entry layer member name mode uid gid mtime e :
  canonical_path name -> 0 <= mode <= 4095 -> Z.land mode 3072 = 0 ->
  0 <= uid < U32_MAX -> 0 <= gid < U32_MAX -> 0 <= mtime <= U32_MAX ->
  member_of_type entry layer member mode uid gid mtime = Ok e -> entry_ok name e.
Proof.
  intros (ps&_&_&Hname) Hm Hsid Hu Hg Ht. unfold member_of_type.
  assert (Hmax : 4095 <= U32_MAX) by done.
  destruct (tar_type entry); try done; intros H.
  - apply bind_Ok in H as ([]&_&[= <-]). unfold entry_ok, entry_wf, u32_range, RESERVED_OWNER.
    cbn. split_and!; (done || lia).
  - apply bind_Ok in H as ([]&_&H). apply bind_Ok in H as (tg&_&H).
    apply bind_Ok in H as ([]&(_&_&Htg&_)%validate_symlink_syntax_iff&[= <-]).
    unfold entry_ok, entry_wf, u32_range, RESERVED_OWNER, SYMLINK_MODE. cbn.
    split_and!; try (done || lia). by exists tg.
  - apply bind_Ok in H as (size&Hs%unsigned_Ok&H).
    destruct (Z.ltb_spec MAX_FILE_BYTES size); [done|]. apply bind_Ok in H as (d&_&H).
    destruct (Z.eqb_spec (zlen d) size); [|done]. injection H as <-.
    unfold entry_ok, entry_wf, u32_range, RESERVED_OWNER. cbn -[MAX_FILE_BYTES].
    split_and!; try (done || lia). exists d. split; [done|lia].
Qed.

Lemma parse_member_ok entry layer member m : parse_member entry layer member = Ok m -> member_ok m.
Proof.
  unfold parse_member. intros H. apply bind_Ok in H as (name&Hn%normalize_canonical&H).
  apply bind_Ok in H as (md&Hmd%unsigned_Ok&H).
  destruct (Z.ltb_spec 4095 md); [done|].
  destruct (Z.eqb_spec (Z.land md 3072) 0); [|done]. cbn [negb] in H.
  apply bind_Ok in H as (u&Hu%unsigned_Ok&H). apply bind_Ok in H as (g&Hg%unsigned_Ok&H).
  apply bind_Ok in H as (mt&Hmt%unsigned_Ok&H).
  destruct (Z.leb_spec U32_MAX u), (Z.leb_spec U32_MAX g); try done. cbn [orb] in H.
  destruct (Z.ltb_spec U32_MAX mt); [done|]. apply bind_Ok in H as (en&He&[= <-]).
  split; [done|]. cbn. eapply member_of_type_wf, He; (done || lia).
Qed.

Lemma parse_members_ok layer member entries members last out stop :
  Forall member_ok members -> zlen members <= MAX_ENTRIES ->
  parse_members layer member entries members last = Ok (out, stop) ->
  Forall member_ok out /\ zlen out <= MAX_ENTRIES.
Proof.
  revert member members last.
  induction entries as [|entry entries IH]; intros member members last Hm Hl H.
  { by injection H as <- <-. }
  cbn [parse_members] in H. apply bind_Ok in H as (en&_&H). apply bind_Ok in H as (st&_&H).
  apply bind_Ok in H as (m&Hp%parse_member_ok&H).
  destruct (Z.ltb_spec MAX_ENTRIES (zlen (members ++ [m]))); [done|].
  eapply IH; [|done|done]. apply Forall_app. split; [done|]. by constructor.
Qed.

Lemma parse_layer_ok `{OciDecoders} expanded layer members :
  parse_layer expanded layer = Ok members ->
  Forall member_ok members /\ zlen members <= MAX_ENTRIES.
Proof.
  unfold parse_layer. intros Hr. apply bind_Ok in Hr as (entries&_&Hr).
  apply bind_Ok in Hr as ([ms stop]&Hms&Hr). apply bind_Ok in Hr as (te&_&Hr).
  destruct (negb _); [done|]. destruct (existsb _ _); [done|]. injection Hr as <-.
  eapply parse_members_ok; [constructor| |done]. done.
Qed.

(** Applying a parsed layer keeps the shape of the assembled tree: whatever
    archive bytes the decoders produce, if the layer parses and applies then
    every path of the result is canonical, every entry is within the limits
    without set-id bits or reserved owner, and every entry's ancestors are
    present directories. *)
Theorem apply_layer_preserves `{OciDecoders} t expanded layer members t' :
  tree_inv t -> parse_layer expanded layer = Ok members -> apply_layer t members = Ok t' ->
  tree_inv t'.
Proof. intros Hinv [Hm _]%parse_layer_ok Ha. by eapply tree_inv_layer. Qed.

(** A layer with a directory, a file in it and a whiteout. *)
Definition sample_tar_entry (ty : EntryType) (path body : string) : option TarEntry :=
  Some {| tar_size := N.of_nat (length (as_bytes body)); tar_position := 0; tar_type := ty;
          tar_path := as_bytes path; tar_mode := Some 493%N; tar_uid := Some 0%N;
          tar_gid := Some 0%N; tar_mtime := Some 0%N;
          tar_header_size := Some (N.of_nat (length (as_bytes body)));
          tar_link := None; tar_body := Some (as_bytes body) |}.

Definition sample_decoders : OciDecoders := {|
  json_from_slice _ := inl VNull;
  gunzip_take d _ := inl d;
  tar_raw_entries _ := Some [sample_tar_entry TDirectory "./usr/" "";
                             sample_tar_entry TRegular "usr/app" "ELF";
                             sample_tar_entry TRegular "usr/.wh.old" ""];
|}.

Definition sample_layer : bytes := repeat Byte.x00 2048.

Definition sample_members : list Member :=
  match @parse_layer sample_decoders sample_layer 0 with Ok ms => ms | Err _ => [] end.

Definition sample_lower : Tree :=
  <[as_bytes "usr" := default_directory]>
  (<[as_bytes "usr/old" := Entry_file [] 420 0 0 0]>
  (<[ROOT_PATH := default_directory]> ∅)).

Definition sample_upper : Tree :=
  match apply_layer Tree_new sample_members with Ok t => t | Err _ => ∅ end.

Lemma sample_upper_ok : apply_layer Tree_new sample_members = Ok sample_upper.
Proof.
  assert (H : is_ok (apply_layer Tree_new sample_members) = true) by (by vm_compute).
  unfold sample_upper. by destruct (apply_layer Tree_new sample_members).
Qed.

Lemma apply_layer_preserves_witness :
  tree_inv sample_upper /\ Tree_len sample_upper = 3.
Proof.
  split; [|by vm_compute].
  apply (@apply_layer_preserves sample_decoders Tree_new sample_layer 0 sample_members).
  - apply tree_inv_empty.
  - vm_compute. reflexivity.
  - apply sample_upper_ok.
Defined.

(** ** Markers act on the lower layers only *)

(** The marker a member is, if any. *)
Definition marker_of (m : Member) : option Marker :=
  match split_marker m with Ok o => o | Err _ => None end.

Definition is_addition (m : Member) : bool :=
  match marker_of m with None => true | Some _ => false end.

Lemma sort_members_iff seen members markers additions :
  sort_members seen members = Ok (markers, additions) <->
  NoDup (map member_name members) /\
  Forall (fun m => m.(member_name) ∉ seen /\ is_ok (split_marker m) = true) members /\
  markers = omap marker_of members /\ additions = List.filter is_addition members.
Proof.
  revert seen markers additions. induction members as [|m members IH];
    intros seen markers additions; cbn [sort_members].
  { split; [intros [= <- <-]|by intros (_&_&->&->)]. split_and!; (done || constructor). }
  rewrite Forall_cons_iff. cbn [map omap list_omap List.filter]. rewrite list.NoDup_cons.
  case_bool_decide as Hseen; [split; [done|]; by intros (_&((?&_)&_)&_)|].
  destruct (split_marker m) as [o|err] eqn:Es; cbn [mbind result_bind is_ok];
    [|split; [done|]; by intros (_&((_&?)&_)&_)].
  assert (marker_of m = o) as -> by (unfold marker_of; by rewrite Es).
  assert (is_addition m = match o with None => true | Some _ => false end) as ->
    by (unfold is_addition, marker_of; by rewrite Es).
  transitivity (exists ms ads, sort_members (m.(member_name) :: seen) members = Ok (ms, ads) /\
    match o with
    | None => markers = ms /\ additions = m :: ads
    | Some mk => markers = mk :: ms /\ additions = ads
    end).
  { destruct (sort_members _ members) as [[ms ads]|]; cbn [mbind result_bind].
    - destruct o; naive_solver.
    - naive_solver. }
  setoid_rewrite IH. split.
  - intros (ms&ads&(Hnd&Hall&->&->)&Ho).
    assert (Hnot : member_name m ∉ map member_name members).
    { intros (x&Ex&Hx)%list_elem_of_fmap. rewrite list.Forall_forall in Hall.
      destruct (Hall x Hx) as [Hn _]. apply Hn. rewrite Ex. constructor. }
    split_and!; try done.
    + eapply List.Forall_impl; [|exact Hall]. intros x [Hx ?]. split; [|done].
      intros Hx'. apply Hx. by constructor.
    + by destruct o as [mk|], Ho as [-> ->].
    + by destruct o as [mk|], Ho as [-> ->].
  - intros ((Hnot&Hnd)&(_&Hall)&->&->).
    exists (omap marker_of members), (List.filter is_addition members). split.
    + split_and!; try done. apply list.Forall_forall. intros x Hx.
      rewrite list.Forall_forall in Hall. destruct (Hall x Hx) as [??]. split; [|done].
      rewrite not_elem_of_cons. split; [|done]. intros E. apply Hnot. rewrite -E.
      apply list_elem_of_fmap. by exists x.
    + by destruct o.
Qed.

Definition marker_keeps (q : bytes) (marker : Marker) : bool :=
  match marker with
  | Whiteout p => subtree_keeps p q
  | Opaque p => children_keeps p q
  end.

Lemma markers_lookup markers t q :
  fold_left apply_marker markers t !! q = if forallb (marker_keeps q) markers then t !! q else None.
Proof.
  revert t. induction markers as [|m markers IH]; intros t; cbn [fold_left forallb]; [done|].
  rewrite IH. destruct m as [p|p]; cbn [apply_marker marker_keeps];
    rewrite ?remove_subtree_lookup ?remove_children_lookup.
  - destruct (subtree_keeps p q); cbn [andb]; [done|]. by destruct (forallb _ _).
  - destruct (children_keeps p q); cbn [andb]; [done|]. by destruct (forallb _ _).
Qed.

Lemma forallb_perm {A} (f : A -> bool) l k : l ≡ₚ k -> forallb f l = forallb f k.
Proof.
  induction 1 as [|x l k _ IH|x y l|l k m _ IH1 _ IH2]; simpl; [done|by rewrite IH| |congruence].
  by destruct (f x), (f y).
Qed.

Lemma existsb_perm {A} (f : A -> bool) l k : l ≡ₚ k -> existsb f l = existsb f k.
Proof.
  induction 1 as [|x l k _ IH|x y l|l k m _ IH1 _ IH2]; simpl; [done|by rewrite IH| |congruence].
  by destruct (f x), (f y).
Qed.

Lemma markers_perm t l k : l ≡ₚ k -> fold_left apply_marker l t = fold_left apply_marker k t.
Proof.
  intros Hp. apply map_eq. intros q. by rewrite !markers_lookup (forallb_perm _ _ _ Hp).
Qed.

(** C21. The place of whiteout and opaque markers in a layer archive does not
    matter: reordering the members of a layer in any way that keeps the order
    of the additions gives the same tree. *)
Theorem apply_layer_marker_order t members members' t' :
  members ≡ₚ members' ->
  List.filter is_addition members = List.filter is_addition members' ->
  apply_layer t members = Ok t' -> apply_layer t members' = Ok t'.
Proof.
  intros Hp Hadd H. apply bind_Ok in H as ([markers additions]&Hs&H).
  apply sort_members_iff in Hs as (Hnd&Hall&->&->).
  assert (Hs' : sort_members [] members' =
    Ok (omap marker_of members', List.filter is_addition members)).
  { apply sort_members_iff. split_and!; [| |done|done].
    - by rewrite -(Permutation_map member_name Hp).
    - by rewrite -Hp. }
  assert (Hmk : omap marker_of members' ≡ₚ omap marker_of members) by (by rewrite Hp).
  unfold apply_layer. rewrite Hs'. cbn [mbind result_bind].
  rewrite (existsb_perm _ _ _ Hmk) (markers_perm _ _ _ Hmk).
  destruct (existsb _ _); [done|]. apply bind_Ok in H as (t1&->&H). cbn [mbind result_bind].
  by rewrite (existsb_perm _ _ _ Hmk).
Qed.

(** A layer whose whiteout comes first and one whose whiteout comes last. *)
Lemma apply_layer_marker_order_witness :
  apply_layer sample_lower (rev (take 1 (rev sample_members)) ++ take 2 sample_members)
  = apply_layer sample_lower sample_members.
Proof.
  destruct (apply_layer sample_lower sample_members) as [t|e] eqn:E.
  - apply (apply_layer_marker_order sample_lower sample_members).
    + transitivity (take 2 sample_members ++ rev (take 1 (rev sample_members)));
        [by vm_compute|apply Permutation_app_comm].
    + by vm_compute.
    + exact E.
  - assert (H : is_ok (apply_layer sample_lower sample_members) = true) by (by vm_compute).
    by rewrite E in H.
Defined.

(** ** Where the entries of an applied layer come from *)

Lemma apply_addition_origin t m t' q e :
  apply_addition t m = Ok t' -> t' !! q = Some e ->
  (q = m.(member_name) /\ e = m.(member_entry)) \/
  (q ∈ ancestors m.(member_name) /\ e = default_directory) \/ t !! q = Some e.
Proof.
  unfold apply_addition. destruct (existsb _ _); [done|]. cbv zeta. intros [= <-].
  unfold Tree_insert. destruct (decide (q = m.(member_name))) as [->|Hne].
  { rewrite lookup_insert_eq. intros [= <-]. by left. }
  rewrite lookup_insert_ne //. set (t1 := fold_left insert_default_directory _ t).
  assert (Hr : remove_subtree t1 (member_name m) !! q = Some e -> t1 !! q = Some e).
  { rewrite remove_subtree_lookup. by destruct subtree_keeps. }
  assert (Ht1 : t1 !! q = Some e ->
    (q ∈ ancestors m.(member_name) /\ e = default_directory) \/ t !! q = Some e).
  { unfold t1. rewrite default_directories_lookup. destruct (t !! q); [by right|].
    case_bool_decide; [|done]. intros [= <-]. by left. }
  intros H. right. apply Ht1. clearbody t1. destruct ((member_entry m).(kind)).
  - destruct (_ && _); auto.
  - case_bool_decide; auto.
  - case_bool_decide; auto.
Qed.

Lemma apply_additions_origin l t t' q e :
  apply_additions t l = Ok t' -> t' !! q = Some e ->
  (exists m, m ∈ l /\ q = m.(member_name) /\ e = m.(member_entry)) \/
  (e = default_directory /\ exists m, m ∈ l /\ q ∈ ancestors m.(member_name)) \/
  t !! q = Some e.
Proof.
  revert t. induction l as [|m l IH]; intros t H Hq.
  { injection H as <-. by auto. }
  apply bind_Ok in H as (t1&H1&H).
  destruct (IH t1 H Hq) as [(x&?&?&?)|[(?&x&?&?)|Ht1]].
  - left. exists x. split_and!; [by constructor|done..].
  - right; left. split; [done|]. exists x. split; [by constructor|done].
  - destruct (apply_addition_origin t m t1 q e H1 Ht1) as [[-> ->]|[[? ->]|?]].
    + left. exists m. split_and!; [constructor|done..].
    + right; left. split; [done|]. exists m. split; [constructor|done].
    + by auto.
Qed.

(** An addition stays in place when later additions put nothing but
    directories on the way to it. *)
Lemma apply_addition_survives t m t' q e :
  member_ok m -> tree_inv t -> canonical_path q ->
  apply_addition t m = Ok t' -> t !! q = Some e -> q <> m.(member_name) ->
  (m.(member_name) ∈ ancestors q -> m.(member_entry).(kind) = Directory) -> t' !! q = Some e.
Proof.
  intros [Hn _] Hinv Hc. unfold apply_addition. destruct (existsb _ _) eqn:Hex; [done|].
  cbv zeta. intros [= <-] Hq Hne Hdir. unfold Tree_insert. rewrite lookup_insert_ne //.
  destruct (tree_inv_ancestors t _ Hn Hinv Hex) as [Hinv1 _].
  set (t1 := fold_left insert_default_directory _ t) in *.
  assert (Hq1 : t1 !! q = Some e) by (unfold t1; by rewrite default_directories_lookup Hq).
  clearbody t1.
  assert (Hkeep : member_name m ∉ ancestors q -> remove_subtree t1 (member_name m) !! q = Some e).
  { intros Hnq. destruct (remove_lookups t1 (member_name m) q Hn Hc) as [-> _].
    by rewrite !bool_decide_eq_false_2. }
  destruct (decide (member_name m ∈ ancestors q)) as [Hin|Hnin].
  - destruct (Hinv1 q e Hq1) as (_&_&Ha). destruct (Ha _ Hin) as (d&Hd&Hk).
    rewrite (Hdir Hin) Hd /= Hk.
    by rewrite (bool_decide_eq_true_2 (Some Directory = Some Directory)) // andb_false_r.
  - destruct ((member_entry m).(kind)).
    + destruct (_ && _); auto.
    + case_bool_decide; auto.
    + case_bool_decide; auto.
Qed.

Lemma apply_additions_survive l t t' q e :
  Forall member_ok l -> tree_inv t -> canonical_path q ->
  apply_additions t l = Ok t' -> t !! q = Some e -> q ∉ map member_name l ->
  (forall m, m ∈ l -> m.(member_name) ∈ ancestors q -> m.(member_entry).(kind) = Directory) ->
  t' !! q = Some e.
Proof.
  intros Hl. revert t. induction Hl as [|m l Hm _ IH]; intros t Hinv Hc H Hq Hnot Hdir.
  { by injection H as <-. }
  apply bind_Ok in H as (t1&H1&H). cbn [map] in Hnot. apply not_elem_of_cons in Hnot as [? ?].
  eapply (IH t1); [by eapply tree_inv_addition|done|done| |done|].
  - eapply apply_addition_survives; try done. apply Hdir. constructor.
  - intros x Hx. apply Hdir. by constructor.
Qed.

Lemma apply_addition_inserts t m t' :
  apply_addition t m = Ok t' -> t' !! m.(member_name) = Some m.(member_entry).
Proof.
  unfold apply_addition. destruct (existsb _ _); [done|]. intros [= <-]. apply lookup_insert_eq.
Qed.

Lemma apply_additions_contains l t t' m :
  Forall member_ok l -> NoDup (map member_name l) -> tree_inv t ->
  apply_additions t l = Ok t' -> m ∈ l ->
  (forall x, x ∈ l -> x.(member_name) ∈ ancestors m.(member_name) ->
     x.(member_entry).(kind) = Directory) ->
  t' !! m.(member_name) = Some m.(member_entry).
Proof.
  intros Hl. revert t. induction Hl as [|x l Hx Hl IH]; intros t Hnd Hinv H Hm Hdir.
  { by apply not_elem_of_nil in Hm. }
  apply bind_Ok in H as (t1&H1&H). cbn [map] in Hnd. apply list.NoDup_cons in Hnd as [Hnot Hnd].
  assert (Hinv1 : tree_inv t1) by (by eapply tree_inv_addition).
  apply elem_of_cons in Hm as [->|Hm].
  - eapply apply_additions_survive; [done|exact Hinv1|apply Hx|done| |done|].
    + by eapply apply_addition_inserts.
    + intros y Hy. apply Hdir. by constructor.
  - apply (IH t1); try done. intros y Hy. apply Hdir. by constructor.
Qed.

Definition marker_spares (marker : Marker) (q : bytes) : Prop :=
  match marker with
  | Whiteout p => q <> p /\ p ∉ ancestors q
  | Opaque p => p ∉ ancestors q
  end.

Lemma marker_keeps_spares marker q :
  canonical_path (Marker_target marker) -> canonical_path q ->
  marker_keeps q marker = true <-> marker_spares marker q.
Proof.
  intros Hm Hq. set (e0 := default_directory).
  pose proof (remove_lookups (<[q := e0]> ∅) (Marker_target marker) q Hm Hq) as [E1 E2].
  destruct marker as [p|p]; cbn [Marker_target marker_keeps marker_spares] in *.
  - rewrite remove_subtree_lookup lookup_insert_eq in E1.
    destruct (subtree_keeps p q).
    + split; [|done]. intros _. case_bool_decide; [done|]. by case_bool_decide.
    + split; [done|]. intros [??]. by rewrite !bool_decide_eq_false_2 in E1.
  - rewrite remove_children_lookup lookup_insert_eq in E2.
    destruct (children_keeps p q).
    + split; [|done]. intros _. by case_bool_decide.
    + split; [done|]. intros ?. by rewrite !bool_decide_eq_false_2 in E2.
Qed.

(** Every entry of an applied layer is accounted for: it is an addition of
    the layer, a default directory made for an addition's missing ancestor, or
    an unchanged lower entry that no whiteout or opaque marker of the layer
    covers.  Conversely every addition is in the result, markers of the same
    layer notwithstanding, unless the layer itself puts a non-directory on the
    way to it. *)
Theorem apply_layer_origin t members t' :
  Forall member_ok members -> tree_inv t -> apply_layer t members = Ok t' ->
  (forall q e, t' !! q = Some e ->
    (exists m, m ∈ members /\ marker_of m = None /\ q = m.(member_name) /\ e = m.(member_entry)) \/
    (e = default_directory /\
     exists m, m ∈ members /\ marker_of m = None /\ q ∈ ancestors m.(member_name)) \/
    (t !! q = Some e /\
     forall m marker, m ∈ members -> marker_of m = Some marker -> marker_spares marker q)) /\
  (forall m, m ∈ members -> marker_of m = None ->
    (forall x, x ∈ members -> x.(member_name) ∈ ancestors m.(member_name) ->
       x.(member_entry).(kind) = Directory) ->
    t' !! m.(member_name) = Some m.(member_entry)).
Proof.
  intros Hok Hinv H. apply bind_Ok in H as ([markers additions]&Hs&H).
  destruct (sort_members_ok _ _ _ _ Hok Hs) as [Hmk Hadd].
  apply sort_members_iff in Hs as (Hnd&_&Hmarkers&Hadditions).
  assert (Hin : forall m, m ∈ additions <-> m ∈ members /\ marker_of m = None).
  { intros m. rewrite Hadditions !list_elem_of_In filter_In. unfold is_addition.
    destruct (marker_of m); naive_solver. }
  destruct (existsb _ _) in H; [done|]. apply bind_Ok in H as (t1&H1&H).
  destruct (existsb _ _) in H; [done|]. injection H as <-. split.
  - intros q e Hq.
    destruct (apply_additions_origin _ _ _ q e H1 Hq) as [(m&Hm&->&->)|[(->&m&Hm&Ha)|Ht]].
    + left. exists m. apply Hin in Hm as [??]. done.
    + right; left. split; [done|]. exists m. apply Hin in Hm as [??]. done.
    + right; right. rewrite markers_lookup in Ht. destruct (forallb _ _) eqn:Hf; [|done].
      split; [done|]. intros m marker Hm Hmark. destruct (Hinv q e Ht) as (Hc&_).
      assert (Hmem : marker ∈ markers).
      { rewrite Hmarkers. apply list_elem_of_omap. by exists m. }
      rewrite list.Forall_forall in Hmk. apply marker_keeps_spares; [by apply Hmk|done|].
      rewrite forallb_forall in Hf. apply Hf. by apply list_elem_of_In.
  - intros m Hm Hnone Hdir.
    eapply apply_additions_contains; [exact Hadd| | |exact H1|by apply Hin|].
    + rewrite Hadditions. clear -Hnd. induction members as [|x members IH]; [constructor|].
      cbn [map] in Hnd. apply list.NoDup_cons in Hnd as [Hx Hnd]. simpl.
      destruct (is_addition x); [|by apply IH]. cbn [map]. apply list.NoDup_cons.
      split; [|by apply IH]. intros (y&Ey&Hy)%list_elem_of_fmap. apply Hx. rewrite Ey.
      apply list_elem_of_fmap. exists y. split; [done|].
      apply list_elem_of_In, filter_In in Hy as [Hy _]. by apply list_elem_of_In.
    + by apply tree_inv_markers.
    + intros x Hx. apply Hin in Hx as [? _]. by apply Hdir.
Qed.

Lemma sample_lower_inv : tree_inv sample_lower.
Proof.
  assert (H : forall p e, sample_lower !! p = Some e ->
    canonical_path p /\ entry_ok p e /\ forallb (fun q => bool_decide
      (kind <$> sample_lower !! q = Some Directory)) (ancestors p) = true).
  { intros p e Hp. unfold sample_lower in Hp.
    repeat (apply lookup_insert_Some in Hp as [[<- <-]|[_ Hp]];
      [split_and!; [apply canonical_path_dec; by vm_compute| |by vm_compute]|]);
      [..|by rewrite lookup_empty in Hp];
      unfold entry_ok, entry_wf, u32_range; cbn; split_and!; try done; by eexists. }
  intros p e Hp. destruct (H p e Hp) as (?&?&Hanc). split_and!; [done..|]. intros q Hq.
  rewrite forallb_forall in Hanc. specialize (Hanc q (proj1 (list_elem_of_In _ _) Hq)).
  apply bool_decide_eq_true, fmap_Some in Hanc as (d&?&?). by exists d.
Qed.

Definition sample_applied : Tree :=
  match apply_layer sample_lower sample_members with Ok t => t | Err _ => ∅ end.

Lemma sample_applied_ok : apply_layer sample_lower sample_members = Ok sample_applied.
Proof.
  assert (H : is_ok (apply_layer sample_lower sample_members) = true) by (by vm_compute).
  unfold sample_applied. by destruct (apply_layer sample_lower sample_members).
Qed.

Lemma sample_members_ok : Forall member_ok sample_members.
Proof. eapply (@parse_layer_ok sample_decoders sample_layer 0). vm_compute. reflexivity. Qed.

(** The whiteout hides [usr/old] of the lower layer. *)
Lemma apply_layer_origin_witness : sample_applied !! as_bytes "usr/old" = None.
Proof.
  destruct (sample_applied !! as_bytes "usr/old") as [e|] eqn:E; [exfalso|done].
  apply (apply_layer_origin _ _ _ sample_members_ok sample_lower_inv sample_applied_ok) in E.
  destruct E as [(m&Hm&_&Hn&_)|[(_&m&Hm&_&Ha)|[_ Hk]]].
  - assert (H : as_bytes "usr/old" ∈ map member_name sample_members)
      by (apply list_elem_of_fmap; eauto). revert H. vm_compute. set_solver.
  - assert (H : as_bytes "usr/old" ∈ flat_map (fun m => ancestors (member_name m)) sample_members).
    { apply list_elem_of_In, in_flat_map. exists m. by rewrite -!list_elem_of_In. }
    revert H. vm_compute. set_solver.
  - destruct (Hk (nth 2 sample_members {| member_name := []; member_entry := default_directory |})
      (Whiteout (as_bytes "usr/old"))) as [Hne _]; [|by vm_compute|done].
    vm_compute. do 2 right. left.
Defined.

(** ** Derived graphs *)

Section graph_theorems.
Context `{Sha256} `{OciDecoders}.
#[local] Set Default Proof Using "All".

(** The recorded evidence names the exact bytes of the layer. *)
Definition evidence_matches (ev : LayerEvidence) (data : bytes) : Prop :=
  ev.(evidence_digest) = "sha256:" +:+ sha256_bytes data /\ ev.(evidence_bytes) = zlen data.

Lemma verify_descriptor_Ok d data what :
  verify_descriptor d data what = Ok tt ->
  d.(digest) = "sha256:" +:+ sha256_bytes data /\ d.(descriptor_size) = zlen data.
Proof.
  unfold verify_descriptor. destruct (Z.eqb_spec d.(descriptor_size) (zlen data)); [|done].
  cbn [negb]. case_bool_decide; [|done]. done.
Qed.

Lemma graph_layer_ok position value diff_id data t t' ev :
  tree_inv t -> graph_layer position value diff_id data t = Ok (t', ev) ->
  tree_inv t' /\ evidence_matches ev data.
Proof.
  intros Hinv Hr. unfold graph_layer in Hr. apply bind_Ok in Hr as (d&_&Hr).
  apply bind_Ok in Hr as (mt&_&Hr). destruct (_ && _); [done|].
  apply bind_Ok in Hr as ([]&Hv&Hr). apply bind_Ok in Hr as (expanded&_&Hr).
  apply bind_Ok in Hr as (di&_&Hr). apply bind_Ok in Hr as (di'&_&Hr).
  destruct (negb _); [done|]. apply bind_Ok in Hr as (ms&[Hms _]%parse_layer_ok&Hr).
  apply bind_Ok in Hr as (t1&Ht1&Hr). apply bind_Ok in Hr as ([]&_&[= <- <-]).
  split; [by eapply tree_inv_layer|]. by apply verify_descriptor_Ok in Hv as [? _].
Qed.

Lemma graph_layers_ok layers : forall position t t' evs,
  tree_inv t -> graph_layers_loop position layers t = Ok (t', evs) ->
  tree_inv t' /\ Forall2 evidence_matches evs (map snd layers).
Proof.
  induction layers as [|[[value diff_id] data] layers IH]; intros position t t' evs Hinv Hr.
  { injection Hr as <- <-. split; [done|constructor]. }
  cbn [graph_layers_loop] in Hr. apply bind_Ok in Hr as ([t1 ev]&Hl&Hr).
  apply bind_Ok in Hr as ([t2 evs']&Hrest&[= <- <-]).
  destruct (graph_layer_ok _ _ _ _ _ _ _ Hinv Hl) as [Hinv1 Hev].
  destruct (IH _ _ _ _ Hinv1 Hrest) as [Hinv2 Hevs]. split; [done|]. by constructor.
Qed.

Lemma tree_inv_root t : tree_inv t -> tree_inv (insert_default_directory t ROOT_PATH).
Proof.
  intros Hinv. unfold insert_default_directory. destruct (t !! ROOT_PATH) eqn:E; [done|].
  assert (Hc : canonical_path ROOT_PATH) by (by apply canonical_path_dec; vm_compute).
  apply (tree_inv_insert t ROOT_PATH default_directory);
    [done|done|by apply default_directory_ok| |done].
  intros q Hq. by apply not_elem_of_nil in Hq.
Qed.

Lemma map_snd_combine {A B} (l : list A) (k : list B) :
  (length k <= length l)%nat -> map snd (combine l k) = k.
Proof.
  revert k. induction l as [|x l IH]; intros [|y k] Hl; simpl in *; try done; [lia|].
  f_equal. apply IH. lia.
Qed.

Definition launchable (t : Tree) (launch : LaunchIdentity) : Prop :=
  exists p e, canonical_path p /\ launch.(executable) = "/" +:+ from_utf8_lossy p /\
    t !! p = Some e /\ e.(kind) = File /\ Z.land e.(mode) MODE_EXECUTE <> 0.

Lemma normalize_launch_ok config t launch :
  normalize_launch config t = Ok launch -> launch_valid launch /\ launchable t launch.
Proof.
  intros Hr. unfold normalize_launch in Hr. apply bind_Ok in Hr as (arch&_&Hr).
  apply bind_Ok in Hr as (lin&_&Hr). destruct (negb lin); [done|].
  apply bind_Ok in Hr as ([]&_&Hr). apply bind_Ok in Hr as (oci&_&Hr).
  apply bind_Ok in Hr as ([]&_&Hr). apply bind_Ok in Hr as (entrypoint&_&Hr).
  apply bind_Ok in Hr as (cmd&_&Hr). destruct (entrypoint ++ cmd) as [|exe args]; [done|].
  apply bind_Ok in Hr as (arguments&_&Hr). destruct (negb _) in Hr; [done|].
  apply bind_Ok in Hr as (relative&Hrel&Hr).
  destruct (normalize_layer_path _) as [p|] eqn:Ep in Hrel; [|done]. injection Hrel as ->.
  apply normalize_canonical in Ep. apply bind_Ok in Hr as (entry&He&Hr).
  destruct (Tree_get t relative) as [e|] eqn:Eg; [|done]. injection He as ->.
  case_bool_decide; [|done]. cbn [negb] in Hr.
  destruct (Z.eqb_spec (Z.land entry.(mode) MODE_EXECUTE) 0); [done|].
  apply bind_Ok in Hr as (user&_&Hr). apply bind_Ok in Hr as ([u g]&_&Hr).
  apply bind_Ok in Hr as (env&_&Hr). apply bind_Ok in Hr as (wd&_&Hr).
  apply bind_Ok in Hr as (wdir&_&Hr). apply bind_Ok in Hr as ([]&Hv%launch_check_iff&[= <-]).
  split; [done|]. exists relative, entry. by split_and!.
Qed.

(** C20. Whatever the decoders answer, a graph derived from raw objects is a
    well-formed workload: its tree has canonical paths, acceptable entries and
    present directory ancestors, a directory root and only links that resolve
    inside it; its launch identity satisfies the profile and names an
    executable regular file of the tree; and the layer evidence records the
    digest and size of exactly the layer bytes it was derived from. *)
Theorem parse_graph_sound objects g :
  parse_graph objects = Ok g ->
  tree_inv g.(graph_tree) /\
  (exists root, g.(graph_tree) !! ROOT_PATH = Some root /\ root.(kind) = Directory) /\
  validate_symlinks g.(graph_tree) = Ok tt /\
  launch_valid g.(graph_launch) /\ launchable g.(graph_tree) g.(graph_launch) /\
  Forall2 evidence_matches g.(graph_layers) objects.(obj_layers).
Proof.
  intros Hr. unfold parse_graph in Hr. inv_ok Hr. cbv zeta in Hr. inv_ok Hr. subst g. cbn.
  repeat match goal with
  | Hb : negb _ = false |- _ => apply negb_false_iff in Hb
  | Hb : (zlen _ =? zlen _) = true |- _ => apply Z.eqb_eq in Hb; unfold zlen in Hb
  end.
  match goal with Hl : graph_layers_loop _ _ _ = Ok _ |- _ =>
    apply (graph_layers_ok _ _ _ _ _ tree_inv_empty) in Hl as [Hinv Hev] end.
  match goal with Hn : normalize_launch _ _ = Ok _ |- _ =>
    apply normalize_launch_ok in Hn as [Hvalid Hlaunch] end.
  match goal with Hs : validate_symlinks _ = Ok ?u |- _ => destruct u; rename Hs into Hlinks end.
  match goal with Hk : bool_decide (kind <$> _ = Some Directory) = true |- _ =>
    apply bool_decide_eq_true, fmap_Some in Hk as (root&Hroot&Hkind) end.
  split_and!; [by apply tree_inv_root|by exists root|done..|].
  rewrite map_snd_combine // in Hev. rewrite length_combine. lia.
Qed.
End graph_theorems.

(** A one-layer image that runs [/usr/app]. *)
Definition toy_digest (data : bytes) : Value :=
  VString ("sha256:" +:+ @sha256_bytes toy_sha256 data).
Definition toy_descriptor (ty : string) (data : bytes) (rest : Map) : Value :=
  VObject ([("mediaType", VString ty); ("digest", toy_digest data);
            ("size", VNumber (Some (zlen data)))] ++ rest).

Definition sample_objects : OciObjects := {|
  obj_layout := as_bytes "LLL"; obj_index := as_bytes "IIII";
  obj_manifest := as_bytes "M"; obj_config := as_bytes "CC";
  obj_layers := [sample_layer];
  obj_manifest_digest := "sha256:" +:+ @sha256_bytes toy_sha256 (as_bytes "M");
|}.

Definition platform : Value := VObject [("architecture", VString "amd64"); ("os", VString "linux")].

Definition sample_json (bs : bytes) : Value :=
  match bs with
  | [_; _; _] => VObject [("imageLayoutVersion", VString "1.0.0")]
  | [_; _; _; _] =>
      VObject [("schemaVersion", VNumber (Some 2));
               ("manifests", VArray [toy_descriptor MANIFEST_MEDIA_TYPE (as_bytes "M")
                                       [("platform", platform)]])]
  | [_] =>
      VObject [("schemaVersion", VNumber (Some 2)); ("mediaType", VString MANIFEST_MEDIA_TYPE);
               ("config", toy_descriptor CONFIG_MEDIA_TYPE (as_bytes "CC") []);
               ("layers", VArray [toy_descriptor PLAIN_LAYER_MEDIA_TYPE sample_layer []])]
  | _ =>
      VObject [("architecture", VString "amd64"); ("os", VString "linux");
               ("rootfs", VObject [("type", VString "layers");
                                   ("diff_ids", VArray [toy_digest sample_layer])]);
               ("config", VObject [("Entrypoint", VArray [VString "/usr/app"]);
                                   ("Env", VArray [VString "HOME=/"])])]
  end.

Definition image_decoders : OciDecoders := {|
  json_from_slice bs := inl (sample_json bs);
  gunzip_take d _ := inl d;
  tar_raw_entries := @tar_raw_entries sample_decoders;
|}.

Definition sample_parse : result OciGraph := @parse_graph toy_sha256 image_decoders sample_objects.

Lemma sample_parse_ok : exists g, sample_parse = Ok g.
Proof.
  assert (H : is_ok sample_parse = true) by (by vm_compute).
  destruct sample_parse as [g|]; [by exists g|done].
Qed.

Lemma parse_graph_sound_witness :
  exists g, sample_parse = Ok g /\ launchable g.(graph_tree) g.(graph_launch).
Proof.
  destruct sample_parse_ok as [g Hg]. exists g. split; [exact Hg|].
  apply (@parse_graph_sound toy_sha256 image_decoders sample_objects g Hg).
Defined.
