(* ===== verification/Checker.v ===== *)
(** The workload checker of [checker.rs]: the reconstruction of each
    invocation's streams from the recorded events, the trace of process and
    network facts, and the evaluation of the process, response-integrity,
    outage and recovery properties.

    The five fields a stream has in [InvocationStreams] (bytes, pending bytes,
    lines, offset, first event of the current line) are the record
    [StreamState], one per stream, as the source's [match stream] selects them
    together.  [u64] counters wrap; a slice index out of range is a panic,
    modelled by [None].  SHA-256 is the class of the prelude. *)

From stdpp Require Import ssreflect.
From Stdlib Require Import Strings.Byte.
From S2P Require Import Prelude Types Std Protocol Assertions Tree.

Definition MAX_RESPONSE_LINE_BYTES : Z := 1024.
Definition READY_LINE : string := "ready version=1".
Definition FRESH_STATE_LINE : string := "state value=fresh root=fresh".
Definition STATE_LINE_PREFIX : string := "state value=".
Definition ESCAPED_DESCENDANT_LINE : string := "descendant state=escaped".
Definition NETWORK_INTERFACE : string := "eth0".
Definition GUEST_CIDR : string := "10.0.2.15/24".
Definition FIXTURE_PEER : string := "10.0.2.2".

Definition echo_token (seed invocation : Z) : string :=
  "echo-" +:+ fmt_dec invocation +:+ "-" +:+ fmt_hex 16 seed.

Definition request_phase (index activation restoration : Z) : RequestPhase :=
  if index <? activation then PreOutage
  else if index <? restoration then Outage
  else Recovery.

Definition expected_network_line (request : PlannedRequest) (phase : RequestPhase) : string :=
  match phase with
  | Outage => "network state=unavailable request=" +:+ request.(request_id)
              +:+ " errno=" +:+ fmt_dec EACCES
  | PreOutage | Recovery => "network state=ok request=" +:+ request.(request_id)
  end.

(** ** Streams *)

Record CompletedLine := {
  text : string;
  line_event_id : Z;
  first_event_id : Z;
}.

Record StreamState := MkStream {
  stream_bytes : bytes;
  pending : bytes;
  lines : list CompletedLine;
  stream_offset : Z;
  line_event : option Z;
}.

Definition empty_stream : StreamState := MkStream [] [] [] 0 None.

Record InvocationStreams := MkStreams {
  stdout : StreamState;
  stderr : StreamState;
  stdout_over_bound : bool;
  stdout_over_bound_seen : bool;
  input_offset : Z;
  input_commands : list Z;
  data_input_events : list Z;
  eof_inputs : Z;
  input_eof : bool;
  s_sequence : Z;
  s_frames : Z;
  s_violations : list string;
}.

Definition InvocationStreams_default : InvocationStreams :=
  MkStreams empty_stream empty_stream false false 0 [] [] 0 false 0 0 [].

(** What the line-splitting loop of [push] changes. *)
Record Splitter := MkSplitter {
  sp_pending : bytes;
  sp_lines : list CompletedLine;
  sp_line_event : option Z;
  sp_violations : list string;
  sp_over_bound : bool;
  sp_over_bound_seen : bool;
}.

(** One iteration of [while let Some(index) = pending.iter().position(...)]. *)
Definition split_line (invocation event_id : Z) (stream : OutputStream) (index : nat)
    (s : Splitter) : Splitter :=
  let line := take index s.(sp_pending) in
  let rest := drop (S index) s.(sp_pending) in
  let text := from_utf8_lossy line in
  let too_long := MAX_RESPONSE_LINE_BYTES <? str_len text in
  let is_stdout := bool_decide (stream = Stdout) in
  {| sp_pending := rest;
     sp_lines := s.(sp_lines) ++
       [{| text := text; line_event_id := event_id;
           first_event_id := default event_id s.(sp_line_event) |}];
     sp_line_event := if is_empty rest then None else Some event_id;
     sp_violations :=
       if too_long then
         s.(sp_violations) ++ ["invocation " +:+ fmt_dec invocation +:+ " "
           +:+ OutputStream_name stream +:+ " line exceeds the response bound"]
       else s.(sp_violations);
     sp_over_bound := if is_stdout then false else s.(sp_over_bound);
     sp_over_bound_seen := if too_long && is_stdout then true else s.(sp_over_bound_seen) |}.

(** Each iteration drops at least the newline, so as many iterations as there
    are pending bytes suffice. *)
Fixpoint split_lines (fuel : nat) (invocation event_id : Z) (stream : OutputStream)
    (s : Splitter) : Splitter :=
  match fuel with
  | O => s
  | S fuel =>
      match position (fun b => bool_decide (b = NEWLINE)) s.(sp_pending) with
      | None => s
      | Some index =>
          split_lines fuel invocation event_id stream
            (split_line invocation event_id stream index s)
      end
  end.

Definition select_stream (s : InvocationStreams) (stream : OutputStream) : StreamState :=
  match stream with Stdout => s.(stdout) | Stderr => s.(stderr) end.

Definition streams_push (s : InvocationStreams) (event_id invocation : Z)
    (stream : OutputStream) (offset sequence : Z) (data : bytes) : InvocationStreams :=
  let violations :=
    if bool_decide (checked_add64 s.(s_sequence) 1 = Some sequence) then s.(s_violations)
    else s.(s_violations) ++ ["invocation " +:+ fmt_dec invocation +:+ " sequence jumped from "
           +:+ fmt_dec s.(s_sequence) +:+ " to " +:+ fmt_dec sequence +:+ " at event "
           +:+ fmt_dec event_id] in
  let st := select_stream s stream in
  let violations :=
    if offset =? st.(stream_offset) then violations
    else violations ++ ["invocation " +:+ fmt_dec invocation +:+ " " +:+ OutputStream_name stream
           +:+ " offset " +:+ fmt_dec offset +:+ " is not contiguous with "
           +:+ fmt_dec st.(stream_offset)] in
  let line_event :=
    if is_empty st.(pending) && negb (is_empty data) then Some event_id else st.(line_event) in
  let sp := split_lines (length (st.(pending) ++ data)) invocation event_id stream
    (MkSplitter (st.(pending) ++ data) st.(lines) line_event violations
       s.(stdout_over_bound) s.(stdout_over_bound_seen)) in
  let st := MkStream (st.(stream_bytes) ++ data) sp.(sp_pending) sp.(sp_lines)
              (saturating_add64 offset (zlen data)) sp.(sp_line_event) in
  let unterminated := bool_decide (stream = Stdout) && negb sp.(sp_over_bound)
    && (MAX_RESPONSE_LINE_BYTES <? zlen sp.(sp_pending)) in
  {| stdout := match stream with Stdout => st | Stderr => s.(stdout) end;
     stderr := match stream with Stdout => s.(stderr) | Stderr => st end;
     stdout_over_bound := if unterminated then true else sp.(sp_over_bound);
     stdout_over_bound_seen := if unterminated then true else sp.(sp_over_bound_seen);
     input_offset := s.(input_offset);
     input_commands := s.(input_commands);
     data_input_events := s.(data_input_events);
     eof_inputs := s.(eof_inputs);
     input_eof := s.(input_eof);
     s_sequence := sequence;
     s_frames := add64 s.(s_frames) 1;
     s_violations :=
       if unterminated then
         sp.(sp_violations) ++ ["invocation " +:+ fmt_dec invocation
           +:+ " stdout line exceeds the response bound before its newline"]
       else sp.(sp_violations) |}.

(** The violations one accepted input adds. *)
Definition input_violations (s : InvocationStreams)
    (invocation event_id command_id offset nbytes : Z) (eof : bool) : list string :=
  let inv := "invocation " +:+ fmt_dec invocation in
  let at_event := " at event " +:+ fmt_dec event_id in
  (if bool_decide (checked_add64 s.(input_offset) nbytes = Some offset) then []
   else [inv +:+ " input offset " +:+ fmt_dec offset +:+ " does not follow "
         +:+ fmt_dec s.(input_offset) +:+ " plus " +:+ fmt_dec nbytes +:+ " byte(s)" +:+ at_event])
  ++ (if eof && negb (nbytes =? 0)
      then [inv +:+ " accepted an end-of-input with " +:+ fmt_dec nbytes +:+ " bytes" +:+ at_event]
      else [])
  ++ (if negb eof && (nbytes =? 0)
      then [inv +:+ " accepted an empty input command" +:+ at_event] else [])
  ++ (if eof && s.(input_eof)
      then [inv +:+ " accepted a second end-of-input" +:+ at_event] else [])
  ++ (if negb eof && s.(input_eof)
      then [inv +:+ " accepted an input command after the end of input" +:+ at_event] else [])
  ++ match rev s.(input_commands) with
     | previous :: _ =>
         if command_id <=? previous
         then [inv +:+ " input command " +:+ fmt_dec command_id +:+ " does not advance past "
               +:+ fmt_dec previous +:+ at_event]
         else []
     | [] => []
     end.

Definition push_input (s : InvocationStreams)
    (invocation event_id command_id offset nbytes : Z) (eof : bool) : InvocationStreams :=
  {| stdout := s.(stdout);
     stderr := s.(stderr);
     stdout_over_bound := s.(stdout_over_bound);
     stdout_over_bound_seen := s.(stdout_over_bound_seen);
     input_offset := offset;
     input_commands := s.(input_commands) ++ [command_id];
     data_input_events :=
       if eof then s.(data_input_events) else s.(data_input_events) ++ [event_id];
     eof_inputs := if eof then add64 s.(eof_inputs) 1 else s.(eof_inputs);
     input_eof := if eof then true else s.(input_eof);
     s_sequence := s.(s_sequence);
     s_frames := s.(s_frames);
     s_violations := s.(s_violations)
       ++ input_violations s invocation event_id command_id offset nbytes eof |}.

(** ** The trace *)

Record StartRecord := {
  start_invocation : Z;
  start_launch : LaunchIdentity;
  start_event : Z;
}.

Record ExitRecord := {
  exit_invocation : Z;
  exit_status : ProcessExit;
  exit_stdout_bytes : Z;
  exit_stdout_sha256 : string;
  exit_stderr_bytes : Z;
  exit_stderr_sha256 : string;
  exit_frames : Z;
  exit_event : Z;
}.

Record TerminationRecord := {
  termination_invocation : Z;
  termination_signal : Z;
  termination_event : Z;
}.

Record CleanupRecord := {
  cleanup_invocation : Z;
  cleanup_reaped : Z;
  cleanup_event : Z;
}.

Record LaunchFailureRecord := {
  failure_invocation : Z;
  failure_kind : LaunchFailure;
}.

Record ConfiguredRecord := {
  configured_gateway : string;
  configured_event : Z;
}.

Record WorkloadTrace := MkTrace {
  starts : list StartRecord;
  exits : list ExitRecord;
  terminations : list TerminationRecord;
  cleanups : list CleanupRecord;
  launch_failures : list LaunchFailureRecord;
  activations : list (string * Z);
  restorations : list (string * Z);
  configured : option ConfiguredRecord;
  invocations : gmap Z InvocationStreams;
  violations : list string;
}.

Definition WorkloadTrace_default : WorkloadTrace :=
  MkTrace [] [] [] [] [] [] [] None ∅ [].

Definition started (t : WorkloadTrace) (invocation : Z) : bool :=
  existsb (fun s => s.(start_invocation) =? invocation) t.(starts).
Definition exited (t : WorkloadTrace) (invocation : Z) : bool :=
  existsb (fun e => e.(exit_invocation) =? invocation) t.(exits).
Definition terminated (t : WorkloadTrace) (invocation : Z) : bool :=
  existsb (fun e => e.(termination_invocation) =? invocation) t.(terminations).
Definition cleaned (t : WorkloadTrace) (invocation : Z) : bool :=
  existsb (fun e => e.(cleanup_invocation) =? invocation) t.(cleanups).
Definition launch_failed (t : WorkloadTrace) (invocation : Z) : bool :=
  existsb (fun f => f.(failure_invocation) =? invocation) t.(launch_failures).

(** Field updates: one per field [push] assigns. *)
Definition add_violation (t : WorkloadTrace) (v : string) : WorkloadTrace :=
  MkTrace t.(starts) t.(exits) t.(terminations) t.(cleanups) t.(launch_failures)
    t.(activations) t.(restorations) t.(configured) t.(invocations) (t.(violations) ++ [v]).
Definition add_start (t : WorkloadTrace) (r : StartRecord) : WorkloadTrace :=
  MkTrace (t.(starts) ++ [r]) t.(exits) t.(terminations) t.(cleanups) t.(launch_failures)
    t.(activations) t.(restorations) t.(configured) t.(invocations) t.(violations).
Definition add_exit (t : WorkloadTrace) (r : ExitRecord) : WorkloadTrace :=
  MkTrace t.(starts) (t.(exits) ++ [r]) t.(terminations) t.(cleanups) t.(launch_failures)
    t.(activations) t.(restorations) t.(configured) t.(invocations) t.(violations).
Definition add_termination (t : WorkloadTrace) (r : TerminationRecord) : WorkloadTrace :=
  MkTrace t.(starts) t.(exits) (t.(terminations) ++ [r]) t.(cleanups) t.(launch_failures)
    t.(activations) t.(restorations) t.(configured) t.(invocations) t.(violations).
Definition add_cleanup (t : WorkloadTrace) (r : CleanupRecord) : WorkloadTrace :=
  MkTrace t.(starts) t.(exits) t.(terminations) (t.(cleanups) ++ [r]) t.(launch_failures)
    t.(activations) t.(restorations) t.(configured) t.(invocations) t.(violations).
Definition add_launch_failure (t : WorkloadTrace) (r : LaunchFailureRecord) : WorkloadTrace :=
  MkTrace t.(starts) t.(exits) t.(terminations) t.(cleanups) (t.(launch_failures) ++ [r])
    t.(activations) t.(restorations) t.(configured) t.(invocations) t.(violations).
Definition add_activation (t : WorkloadTrace) (r : string * Z) : WorkloadTrace :=
  MkTrace t.(starts) t.(exits) t.(terminations) t.(cleanups) t.(launch_failures)
    (t.(activations) ++ [r]) t.(restorations) t.(configured) t.(invocations) t.(violations).
Definition add_restoration (t : WorkloadTrace) (r : string * Z) : WorkloadTrace :=
  MkTrace t.(starts) t.(exits) t.(terminations) t.(cleanups) t.(launch_failures)
    t.(activations) (t.(restorations) ++ [r]) t.(configured) t.(invocations) t.(violations).
Definition set_configured (t : WorkloadTrace) (r : ConfiguredRecord) : WorkloadTrace :=
  MkTrace t.(starts) t.(exits) t.(terminations) t.(cleanups) t.(launch_failures)
    t.(activations) t.(restorations) (Some r) t.(invocations) t.(violations).
(** [self.invocations.entry(invocation).or_default()] followed by an update. *)
Definition update_invocation (t : WorkloadTrace) (invocation : Z)
    (f : InvocationStreams -> InvocationStreams) : WorkloadTrace :=
  MkTrace t.(starts) t.(exits) t.(terminations) t.(cleanups) t.(launch_failures)
    t.(activations) t.(restorations) t.(configured)
    (<[invocation := f (default InvocationStreams_default (t.(invocations) !! invocation))]>
       t.(invocations))
    t.(violations).

(** ** Folding one event *)

Definition names_before_start (what : string) (event_id invocation : Z) : string :=
  what +:+ " at event " +:+ fmt_dec event_id +:+ " names invocation " +:+ fmt_dec invocation
  +:+ " before it started".
Definition names_after_exit (what : string) (event_id invocation : Z) : string :=
  what +:+ " at event " +:+ fmt_dec event_id +:+ " names invocation " +:+ fmt_dec invocation
  +:+ " after it exited".
Definition twice (what : string) (event_id invocation : Z) : string :=
  "invocation " +:+ fmt_dec invocation +:+ " " +:+ what +:+ " twice, the second time at event "
  +:+ fmt_dec event_id.

Definition push_started (t : WorkloadTrace) (event_id invocation : Z) (launch : LaunchIdentity)
    : WorkloadTrace :=
  let t := if started t invocation then add_violation t (twice "started" event_id invocation)
           else t in
  add_start t {| start_invocation := invocation; start_launch := launch; start_event := event_id |}.

Definition push_exited (t : WorkloadTrace) (r : ExitRecord) : WorkloadTrace :=
  let invocation := r.(exit_invocation) in
  if negb (started t invocation) then
    add_violation t (names_before_start "workload-exited" r.(exit_event) invocation)
  else if exited t invocation then
    add_violation t (twice "exited" r.(exit_event) invocation)
  else add_exit t r.

Definition push_termination (t : WorkloadTrace) (event_id invocation signal : Z)
    : WorkloadTrace :=
  if negb (started t invocation) then
    add_violation t (names_before_start "termination-requested" event_id invocation)
  else if exited t invocation then
    add_violation t (names_after_exit "termination-requested" event_id invocation)
  else if terminated t invocation then
    add_violation t (twice "was terminated" event_id invocation)
  else add_termination t {| termination_invocation := invocation; termination_signal := signal;
                            termination_event := event_id |}.

Definition push_cleanup (t : WorkloadTrace) (event_id invocation reaped : Z) : WorkloadTrace :=
  if negb (started t invocation) then
    add_violation t (names_before_start "cleanup-complete" event_id invocation)
  else if cleaned t invocation then
    add_violation t (twice "completed cleanup" event_id invocation)
  else
    let inv := "invocation " +:+ fmt_dec invocation +:+ " completed cleanup at event "
      +:+ fmt_dec event_id in
    match List.find (fun e => e.(exit_invocation) =? invocation) t.(exits) with
    | None => add_violation t (inv +:+ " before it exited")
    | Some exit =>
        if event_id <? exit.(exit_event) then add_violation t (inv +:+ " before its exit record")
        else if reaped =? 0 then add_violation t (inv +:+ " without reaping a process")
        else add_cleanup t {| cleanup_invocation := invocation; cleanup_reaped := reaped;
                              cleanup_event := event_id |}
    end.

Definition push_launch_failed (t : WorkloadTrace) (event_id invocation : Z)
    (failure : LaunchFailure) : WorkloadTrace :=
  if launch_failed t invocation then
    add_violation t (twice "reported a launch failure" event_id invocation)
  else if exited t invocation then
    add_violation t ("invocation " +:+ fmt_dec invocation
      +:+ " reported a launch failure at event " +:+ fmt_dec event_id +:+ " after it exited")
  else add_launch_failure t {| failure_invocation := invocation; failure_kind := failure |}.

Definition push_configured (t : WorkloadTrace) (event_id : Z)
    (interface guest_cidr gateway : string) : WorkloadTrace :=
  match t.(configured) with
  | Some c =>
      add_violation t ("a second network configuration arrived at event " +:+ fmt_dec event_id
        +:+ " after event " +:+ fmt_dec c.(configured_event))
  | None =>
      if negb (bool_decide (interface = NETWORK_INTERFACE))
         || negb (bool_decide (guest_cidr = GUEST_CIDR))
         || negb (bool_decide (gateway = FIXTURE_PEER)) then
        add_violation t ("the network configuration at event " +:+ fmt_dec event_id
          +:+ " is not the fixed private profile")
      else set_configured t {| configured_gateway := gateway; configured_event := event_id |}
  end.

Definition push_activation (t : WorkloadTrace) (event_id : Z) (peer_cidr rule : string)
    : WorkloadTrace :=
  match t.(activations) with
  | (_, activation_id) :: _ =>
      add_violation t ("a second outage activation arrived at event " +:+ fmt_dec event_id
        +:+ " after event " +:+ fmt_dec activation_id)
  | [] =>
      if negb (bool_decide (rule = "prohibit " +:+ peer_cidr)) then
        add_violation t ("the outage activation at event " +:+ fmt_dec event_id
          +:+ " does not name its prohibition rule")
      else add_activation t (peer_cidr, event_id)
  end.

Definition push_restoration (t : WorkloadTrace) (event_id : Z) (peer_cidr : string)
    : WorkloadTrace :=
  match t.(restorations) with
  | (_, restoration_id) :: _ =>
      add_violation t ("a second network restoration arrived at event " +:+ fmt_dec event_id
        +:+ " after event " +:+ fmt_dec restoration_id)
  | [] => add_restoration t (peer_cidr, event_id)
  end.

Definition push_output (t : WorkloadTrace) (event_id invocation : Z) (stream : OutputStream)
    (offset sequence : Z) (data : string) : WorkloadTrace :=
  if negb (started t invocation) then
    add_violation t (names_before_start "output frame" event_id invocation)
  else if exited t invocation then
    add_violation t (names_after_exit "output frame" event_id invocation)
  else
    match decode_bytes data MAX_OUTPUT_FRAME_BYTES with
    | Err _ =>
        add_violation t ("invocation " +:+ fmt_dec invocation
          +:+ " emitted an unreadable output frame at event " +:+ fmt_dec event_id)
    | Ok data =>
        update_invocation t invocation (fun s =>
          streams_push s event_id invocation stream offset sequence data)
    end.

Definition push_input_accepted (t : WorkloadTrace)
    (event_id command_id invocation offset nbytes : Z) (eof : bool) : WorkloadTrace :=
  if negb (started t invocation) then
    add_violation t (names_before_start "input-accepted" event_id invocation)
  else if exited t invocation then
    add_violation t (names_after_exit "input-accepted" event_id invocation)
  else if terminated t invocation then
    add_violation t ("input-accepted at event " +:+ fmt_dec event_id +:+ " names invocation "
      +:+ fmt_dec invocation +:+ " after it was terminated")
  else
    update_invocation t invocation (fun s =>
      push_input s invocation event_id command_id offset nbytes eof).

Definition push (t : WorkloadTrace) (frame : EventFrame) : WorkloadTrace :=
  let id := frame.(event_id) in
  match frame.(event) with
  | WorkloadStarted invocation launch => push_started t id invocation launch
  | WorkloadExited invocation exit stdout_bytes stdout_sha256 stderr_bytes stderr_sha256 frames =>
      push_exited t {| exit_invocation := invocation; exit_status := exit;
                       exit_stdout_bytes := stdout_bytes; exit_stdout_sha256 := stdout_sha256;
                       exit_stderr_bytes := stderr_bytes; exit_stderr_sha256 := stderr_sha256;
                       exit_frames := frames; exit_event := id |}
  | TerminationRequested invocation signal => push_termination t id invocation signal
  | CleanupComplete invocation reaped => push_cleanup t id invocation reaped
  | LaunchFailed invocation failure _ => push_launch_failed t id invocation failure
  | NetworkConfigured interface guest_cidr gateway =>
      push_configured t id interface guest_cidr gateway
  | OutageActivated peer_cidr rule => push_activation t id peer_cidr rule
  | NetworkRestored peer_cidr => push_restoration t id peer_cidr
  | WorkloadOutput invocation stream offset sequence data =>
      push_output t id invocation stream offset sequence data
  | InputAccepted invocation offset nbytes eof =>
      push_input_accepted t id frame.(command_id) invocation offset nbytes eof
  | _ => t
  end.

(** ** Accessors *)

Definition all_violations (t : WorkloadTrace) : list string :=
  t.(violations) ++ flat_map s_violations (btree_values t.(invocations)).

Definition stdout_lines (t : WorkloadTrace) (invocation : Z) : list CompletedLine :=
  match t.(invocations) !! invocation with Some s => s.(stdout).(lines) | None => [] end.
Definition stderr_lines (t : WorkloadTrace) (invocation : Z) : list CompletedLine :=
  match t.(invocations) !! invocation with Some s => s.(stderr).(lines) | None => [] end.
Definition stdout_line_count (t : WorkloadTrace) (invocation : Z) : Z :=
  zlen (stdout_lines t invocation).
Definition stdout_line (t : WorkloadTrace) (invocation index : Z) : option string :=
  text <$> (stdout_lines t invocation !! Z.to_nat index).
Definition stderr_bytes_of (t : WorkloadTrace) (invocation : Z) : Z :=
  match t.(invocations) !! invocation with
  | Some s => zlen s.(stderr).(stream_bytes) + zlen s.(stderr).(pending)
  | None => 0
  end.
Definition over_bound_line (t : WorkloadTrace) (invocation : Z) : bool :=
  match t.(invocations) !! invocation with
  | Some s => s.(stdout_over_bound) || s.(stdout_over_bound_seen)
  | None => false
  end.
Definition stdout_pending (t : WorkloadTrace) (invocation : Z) : bool :=
  match t.(invocations) !! invocation with
  | Some s => negb (is_empty s.(stdout).(pending))
  | None => false
  end.

Definition any_stdout_line (t : WorkloadTrace) (wanted : string) : option CompletedLine :=
  List.find (fun l => bool_decide (l.(text) = wanted))
    (flat_map (fun s => s.(stdout).(lines)) (btree_values t.(invocations))).

(** The inner loop of [stdout_line_with_ack]: the line at [index] answers the
    data acknowledgement at [index - 1]; the startup line answers none. *)
Fixpoint line_with_ack (wanted : string) (acks : list (option Z)) (lines : list CompletedLine)
    : option (CompletedLine * Z) :=
  match lines with
  | [] => None
  | line :: rest =>
      let tail := line_with_ack wanted (tl acks) rest in
      if negb (bool_decide (line.(text) = wanted)) then tail
      else match head acks with
           | Some (Some ack) => Some (line, ack)
           | _ => tail
           end
  end.

Definition stdout_line_with_ack (t : WorkloadTrace) (wanted : string)
    : option (CompletedLine * Z) :=
  find_map (fun s =>
    line_with_ack wanted (None :: map Some s.(data_input_events)) s.(stdout).(lines))
    (btree_values t.(invocations)).

(** ** The properties *)

Definition passed_result (n : AssertionName) (d : string) : AssertionResult :=
  {| name := n; assertion_passed := true; detail := d |}.
Definition failed_result (n : AssertionName) (d : string) : AssertionResult :=
  {| name := n; assertion_passed := false; detail := d |}.

Section properties.
Context `{Sha256}.

(** [format!("{:x}", Sha256::digest(bytes))]. *)
Definition sha256 (bs : bytes) : string := hex (sha256_digest bs).

Definition count_lines (wanted : string) (l : list CompletedLine) : Z :=
  zlen (List.filter (fun line => bool_decide (line.(text) = wanted)) l).

Definition is_stale (line : CompletedLine) : bool :=
  starts_with (as_bytes STATE_LINE_PREFIX) (as_bytes line.(text))
  && negb (bool_decide (line.(text) = FRESH_STATE_LINE)).

Definition process_safety (t : WorkloadTrace) (choices : WorkloadChoicePlan)
    (launch : LaunchIdentity) : AssertionResult :=
  let fail := failed_result ProcessSafety in
  match all_violations t with
  | violation :: _ => fail ("stream structure violation: " +:+ violation)
  | [] =>
  match t.(launch_failures) with
  | failure :: _ =>
      fail ("invocation " +:+ fmt_dec failure.(failure_invocation) +:+ " reported launch failure "
            +:+ LaunchFailure_debug failure.(failure_kind))
  | [] =>
  match t.(starts) with
  | [start1; start2] =>
  if negb (start1.(start_invocation) =? 1) || negb (bool_decide (start1.(start_launch) = launch))
     || negb (start2.(start_invocation) =? 2) || negb (bool_decide (start2.(start_launch) = launch))
  then fail "the started invocation identities do not match the materialized workload"
  else if negb (zlen t.(terminations) =? 1) then
    fail ("expected exactly one termination record, observed " +:+ fmt_dec (zlen t.(terminations)))
  else
  match List.find (fun r => r.(termination_invocation) =? 1) t.(terminations) with
  | None => fail "the first invocation was never terminated"
  | Some term =>
  if negb (term.(termination_signal) =? TERMINATION_SIGNAL) then
    fail ("termination signal " +:+ fmt_dec term.(termination_signal)
          +:+ " is not the fixed SIGKILL")
  else
  match List.find (fun r => r.(exit_invocation) =? 1) t.(exits) with
  | None => fail "the first invocation has no exit record"
  | Some first_exit =>
  if negb (bool_decide (first_exit.(exit_status) = Signaled TERMINATION_SIGNAL)) then
    fail ("the first invocation did not report SIGKILL: "
          +:+ ProcessExit_debug first_exit.(exit_status))
  else
  match List.find (fun r => r.(cleanup_invocation) =? 1) t.(cleanups) with
  | None => fail "the first invocation has no cleanup-complete barrier"
  | Some first_cleanup =>
  if negb ((term.(termination_event) <? first_exit.(exit_event))
           && (first_exit.(exit_event) <? first_cleanup.(cleanup_event))) then
    fail "the termination, exit, and cleanup barrier for the first invocation are out of order"
  else if first_cleanup.(cleanup_reaped) <? 2 then
    fail ("the cleanup barrier reaped " +:+ fmt_dec first_cleanup.(cleanup_reaped)
          +:+ " process(es), so the escaped descendant was not confirmed killed")
  else if start2.(start_event) <=? first_cleanup.(cleanup_event) then
    fail "the second invocation started before the first cleanup barrier completed"
  else
  match any_stdout_line t ESCAPED_DESCENDANT_LINE with
  | None => fail "the first invocation never reported an escaped descendant"
  | Some escaped =>
  if term.(termination_event) <? escaped.(line_event_id) then
    fail "the escaped descendant was reported after the termination was requested"
  else
  match List.find (fun r => r.(exit_invocation) =? 2) t.(exits) with
  | None => fail "the second invocation has no exit record"
  | Some second_exit =>
  if negb (bool_decide (second_exit.(exit_status) = Exited 0)) then
    fail ("the second invocation did not exit cleanly: "
          +:+ ProcessExit_debug second_exit.(exit_status))
  else if negb (cleaned t 2) then
    fail "the second invocation has no cleanup-complete barrier"
  else
  let fresh_one := count_lines FRESH_STATE_LINE (stdout_lines t 1) in
  let fresh_two := count_lines FRESH_STATE_LINE (stdout_lines t 2) in
  match List.find is_stale (stdout_lines t 1 ++ stdout_lines t 2) with
  | Some stale =>
      fail ("an invocation observed the first invocation's root mutation at event "
            +:+ fmt_dec stale.(line_event_id))
  | None =>
  if negb (fresh_one =? 1) || negb (fresh_two =? 1) then
    fail ("each invocation must report a fresh root once, observed " +:+ fmt_dec fresh_one
          +:+ " and " +:+ fmt_dec fresh_two)
  else if choices.(process_fault_request_index) =? 0 then
    fail "the process fault must follow at least one recorded request"
  else
    passed_result ProcessSafety
      ("invocation 1 was killed and cleaned up before invocation 2 started fresh at request "
       +:+ fmt_dec choices.(process_fault_request_index))
  end end end end end end
  | _ => fail ("expected exactly two workload starts, observed " +:+ fmt_dec (zlen t.(starts)))
  end end end.

(** ** Response integrity *)

Fixpoint network_lines_from (index : Z) (choices : WorkloadChoicePlan)
    (requests : list PlannedRequest) : list string :=
  match requests with
  | [] => []
  | request :: rest =>
      expected_network_line request
        (request_phase index choices.(outage_activation_request_index)
           choices.(restoration_request_index))
      :: network_lines_from (index + 1) choices rest
  end.

Definition network_lines (choices : WorkloadChoicePlan) : list string :=
  network_lines_from 0 choices choices.(requests).

(** The expected response lines of one invocation; slicing past the end of the
    planned requests panics. *)
Definition expected_lines (choices : WorkloadChoicePlan) (invocation : Z) : option (list string) :=
  let fault_index := choices.(process_fault_request_index) in
  if zlen (network_lines choices) <? fault_index then None
  else
    let head := [READY_LINE; "echo value=" +:+ echo_token choices.(seed) invocation;
                 FRESH_STATE_LINE] in
    if invocation =? 1 then
      Some (head ++ take (Z.to_nat fault_index) (network_lines choices)
            ++ [ESCAPED_DESCENDANT_LINE])
    else Some (head ++ drop (Z.to_nat fault_index) (network_lines choices)).

(** The first index at which the texts differ, over the shorter length. *)
Fixpoint first_mismatch (index : Z) (actual : list CompletedLine) (expected : list string)
    : option Z :=
  match actual, expected with
  | line :: actual, wanted :: expected =>
      if bool_decide (line.(text) = wanted) then first_mismatch (index + 1) actual expected
      else Some index
  | _, _ => None
  end.

(** The first response line that does not follow its acknowledgement; [rest]
    are the lines after the startup line. *)
Fixpoint first_premature (index : Z) (acks : list Z) (rest : list CompletedLine) : option Z :=
  match acks, rest with
  | ack :: acks, line :: rest =>
      if line.(first_event_id) <=? ack then Some index
      else first_premature (index + 1) acks rest
  | _, _ => None
  end.

(** The body of the invocation loop: the failure it returns early with. *)
Definition invocation_failure (t : WorkloadTrace) (invocation : Z) (expected : list string)
    : option string :=
  let actual := stdout_lines t invocation in
  let inv := "invocation " +:+ fmt_dec invocation in
  if negb (zlen actual =? zlen expected) then
    Some (inv +:+ " produced " +:+ fmt_dec (zlen actual) +:+ " response lines; expected "
          +:+ fmt_dec (zlen expected))
  else
    match first_mismatch 0 actual expected with
    | Some index =>
        Some (inv +:+ " response line " +:+ fmt_dec index +:+ " does not match its command")
    | None =>
        let '(acks, eofs) :=
          match t.(invocations) !! invocation with
          | Some s => (s.(data_input_events), s.(eof_inputs))
          | None => ([], 0)
          end in
        let expected_inputs := zlen expected - 1 in
        let expected_eofs := if invocation =? 2 then 1 else 0 in
        if negb (zlen acks =? expected_inputs) || negb (eofs =? expected_eofs) then
          Some (inv +:+ " acknowledged " +:+ fmt_dec (zlen acks) +:+ " input command(s) and "
                +:+ fmt_dec eofs +:+ " end(s) of input; expected " +:+ fmt_dec expected_inputs
                +:+ " and " +:+ fmt_dec expected_eofs)
        else
          match first_premature 0 acks (tl actual) with
          | Some index =>
              Some (inv +:+ " response line " +:+ fmt_dec index
                    +:+ " was recorded before the input command it answers")
          | None => None
          end
    end.

(** The body of the exit loop. *)
Definition exit_failure (t : WorkloadTrace) (exit : ExitRecord) : option string :=
  let streams := t.(invocations) !! exit.(exit_invocation) in
  let '(out, err) :=
    match streams with
    | Some s => (s.(stdout).(stream_bytes), s.(stderr).(stream_bytes))
    | None => ([], [])
    end in
  let inv := "invocation " +:+ fmt_dec exit.(exit_invocation) in
  let pending_failure :=
    match streams with
    | None => None
    | Some s =>
        if negb (is_empty s.(stdout).(pending)) then
          Some (inv +:+ " ended with " +:+ fmt_dec (zlen s.(stdout).(pending))
                +:+ " byte(s) after its last complete line")
        else if negb (is_empty s.(stderr).(pending)) || negb (is_empty s.(stderr).(stream_bytes))
        then Some (inv +:+ " wrote "
               +:+ fmt_dec (zlen s.(stderr).(stream_bytes) + zlen s.(stderr).(pending))
               +:+ " stderr byte(s)")
        else None
    end in
  match pending_failure with
  | Some d => Some d
  | None =>
      if negb (exit.(exit_stdout_bytes) =? zlen out) || negb (exit.(exit_stderr_bytes) =? zlen err)
         || negb (exit.(exit_frames) =? match streams with Some s => s.(s_frames) | None => 0 end)
      then Some (inv +:+ " exit totals do not match the recorded output frames")
      else if negb (bool_decide (exit.(exit_stdout_sha256) = sha256 out))
              || negb (bool_decide (exit.(exit_stderr_sha256) = sha256 err))
      then Some (inv +:+ " exit digests do not match the recorded output frames")
      else None
  end.

Definition response_integrity (t : WorkloadTrace) (choices : WorkloadChoicePlan)
    : option AssertionResult :=
  let fail d := Some (failed_result ResponseIntegrity d) in
  expected1 ← expected_lines choices 1;
  match invocation_failure t 1 expected1 with
  | Some d => fail d
  | None =>
  expected2 ← expected_lines choices 2;
  match invocation_failure t 2 expected2 with
  | Some d => fail d
  | None =>
  match stderr_lines t 1 ++ stderr_lines t 2 with
  | error :: _ =>
      fail ("the workload reported an application error at event "
            +:+ fmt_dec error.(line_event_id))
  | [] =>
  match find_map (exit_failure t) t.(exits) with
  | Some d => fail d
  | None =>
  match all_violations t with
  | violation :: _ => fail ("stream structure violation: " +:+ violation)
  | [] =>
      Some (passed_result ResponseIntegrity
        ("all " +:+ fmt_dec (zlen choices.(requests)) +:+ " responses matched the recorded input"))
  end end end end end.

(** ** Outage, restoration and recovery *)

(** The first planned request whose phase is [phase]. *)
Fixpoint first_in_phase (index : Z) (choices : WorkloadChoicePlan) (phase : RequestPhase)
    (requests : list PlannedRequest) : option PlannedRequest :=
  match requests with
  | [] => None
  | request :: rest =>
      if bool_decide (request_phase index choices.(outage_activation_request_index)
                        choices.(restoration_request_index) = phase)
      then Some request
      else first_in_phase (index + 1) choices phase rest
  end.

Definition find_trace_activation (t : WorkloadTrace) (scenario : WorkloadScenario)
    : option (string * Z) :=
  c ← t.(configured);
  if bool_decide (c.(configured_gateway) = scenario.(w_fixture_peer)) then
    List.find (fun a => bool_decide (a.1 = scenario.(w_fixture_peer) +:+ "/32")
                        && (c.(configured_event) <? a.2)) t.(activations)
  else None.

Definition find_trace_restoration (t : WorkloadTrace) (activation : option (string * Z))
    : option (string * Z) :=
  a ← activation;
  List.find (fun r => bool_decide (r.1 = a.1) && (a.2 <? r.2)) t.(restorations).

Definition trace_outage (t : WorkloadTrace) (scenario : WorkloadScenario)
    (choices : WorkloadChoicePlan) (activation restoration : option (string * Z))
    : option (Z * Z) :=
  a ← activation;
  request ← first_in_phase 0 choices Outage choices.(requests);
  '(line, acknowledged) ← stdout_line_with_ack t (expected_network_line request Outage);
  let before_restoration :=
    match restoration with None => true | Some r => line.(line_event_id) <? r.2 end in
  if (a.2 <? acknowledged) && (a.2 <? line.(line_event_id)) && before_restoration
     && (line.(line_event_id) - a.2 <=? scenario.(w_outage_event_bound))
  then Some (line.(line_event_id), line.(line_event_id) - a.2) else None.

Definition trace_recovery (t : WorkloadTrace) (scenario : WorkloadScenario)
    (choices : WorkloadChoicePlan) (restoration : option (string * Z)) : option (Z * Z) :=
  r ← restoration;
  request ← first_in_phase 0 choices Recovery choices.(requests);
  '(line, acknowledged) ← stdout_line_with_ack t (expected_network_line request Recovery);
  if (r.2 <? acknowledged) && (r.2 <? line.(line_event_id))
     && (line.(line_event_id) - r.2 <=? scenario.(w_liveness_event_bound))
  then Some (line.(line_event_id), line.(line_event_id) - r.2) else None.

Definition trace_restart (t : WorkloadTrace) (scenario : WorkloadScenario)
    (choices : WorkloadChoicePlan) : option (Z * Z) :=
  start ← List.find (fun s => s.(start_invocation) =? 2) t.(starts);
  line ← List.find (fun l => bool_decide
           (l.(text) = "echo value=" +:+ echo_token choices.(seed) 2)) (stdout_lines t 2);
  if (start.(start_event) <? line.(line_event_id))
     && (line.(line_event_id) - start.(start_event) <=? scenario.(w_liveness_event_bound))
  then Some (line.(line_event_id), line.(line_event_id) - start.(start_event)) else None.

Definition fault_properties (t : WorkloadTrace) (scenario : WorkloadScenario)
    (choices : WorkloadChoicePlan) : AssertionResult * AssertionResult * AssertionResult :=
  let peer := scenario.(w_fixture_peer) +:+ "/32" in
  let activation := find_trace_activation t scenario in
  let restoration := find_trace_restoration t activation in
  let controlled_outage :=
    match trace_outage t scenario choices activation restoration with
    | Some (event_id, distance) =>
        passed_result ControlledOutage
          ("the workload observed the administrative prohibition at event " +:+ fmt_dec event_id
           +:+ " after " +:+ fmt_dec distance +:+ " event(s)")
    | None =>
        failed_result ControlledOutage
          ("no workload request reported EACCES within "
           +:+ fmt_dec scenario.(w_outage_event_bound) +:+ " event(s) of activation")
    end in
  let restoration_result :=
    match restoration with
    | Some (_, event_id) =>
        passed_result Restoration ("network restoration of " +:+ peer
          +:+ " was confirmed at event " +:+ fmt_dec event_id)
    | None =>
        failed_result Restoration ("network restoration of " +:+ peer
          +:+ " was not confirmed after activation")
    end in
  let bounded_recovery :=
    match trace_recovery t scenario choices restoration, trace_restart t scenario choices with
    | Some (event_id, distance), Some (restart_id, restart_distance) =>
        passed_result BoundedRecovery
          ("the workload recovered at event " +:+ fmt_dec event_id +:+ " after "
           +:+ fmt_dec distance
           +:+ " event(s) and the restarted invocation answered at event " +:+ fmt_dec restart_id
           +:+ " after " +:+ fmt_dec restart_distance +:+ " event(s)")
    | None, _ =>
        failed_result BoundedRecovery
          ("no matching workload response arrived within "
           +:+ fmt_dec scenario.(w_liveness_event_bound) +:+ " event(s) of restoration")
    | Some _, None =>
        failed_result BoundedRecovery
          ("the restarted invocation did not answer within "
           +:+ fmt_dec scenario.(w_liveness_event_bound) +:+ " event(s) of its start")
    end in
  (controlled_outage, restoration_result, bounded_recovery).

Definition trace_of (events : list EventFrame) : WorkloadTrace :=
  fold_left push events WorkloadTrace_default.

Definition evaluate_workload (events : list EventFrame) (scenario : WorkloadScenario)
    (choices : WorkloadChoicePlan) (launch : LaunchIdentity) : option AssertionReport :=
  let t := trace_of events in
  let '(controlled_outage, restoration, bounded_recovery) := fault_properties t scenario choices in
  let safety := process_safety t choices launch in
  integrity ← response_integrity t choices;
  Some (report_of [safety; integrity; controlled_outage; restoration; bounded_recovery]).
End properties.

(** ** Reference view of the recorded events *)

(** The complete lines of a byte string, and what follows the last newline. *)
Definition complete_lines (bs : bytes) : list bytes := removelast (split_on NEWLINE bs).
Definition trailing (bs : bytes) : bytes := List.last (split_on NEWLINE bs) [].

(** The bytes an event carries for one stream of one invocation. *)
Definition output_data (i : Z) (stream : OutputStream) (f : EventFrame) : bytes :=
  match f.(event) with
  | WorkloadOutput inv st _ _ data =>
      if (inv =? i) && bool_decide (st = stream) then
        match decode_bytes data MAX_OUTPUT_FRAME_BYTES with Ok bs => bs | Err _ => [] end
      else []
  | _ => []
  end.

(** Everything an invocation wrote to a stream, in event order. *)
Definition stream_data (i : Z) (stream : OutputStream) (events : list EventFrame) : bytes :=
  flat_map (output_data i stream) events.

Definition start_of (f : EventFrame) : option StartRecord :=
  match f.(event) with
  | WorkloadStarted invocation launch =>
      Some {| start_invocation := invocation; start_launch := launch; start_event := f.(event_id) |}
  | _ => None
  end.

Definition exit_of (f : EventFrame) : option ExitRecord :=
  match f.(event) with
  | WorkloadExited invocation exit ob osha eb esha frames =>
      Some {| exit_invocation := invocation; exit_status := exit; exit_stdout_bytes := ob;
              exit_stdout_sha256 := osha; exit_stderr_bytes := eb; exit_stderr_sha256 := esha;
              exit_frames := frames; exit_event := f.(event_id) |}
  | _ => None
  end.

Definition termination_of (f : EventFrame) : option TerminationRecord :=
  match f.(event) with
  | TerminationRequested invocation signal =>
      Some {| termination_invocation := invocation; termination_signal := signal;
              termination_event := f.(event_id) |}
  | _ => None
  end.

Definition cleanup_of (f : EventFrame) : option CleanupRecord :=
  match f.(event) with
  | CleanupComplete invocation reaped =>
      Some {| cleanup_invocation := invocation; cleanup_reaped := reaped;
              cleanup_event := f.(event_id) |}
  | _ => None
  end.

Definition failure_of (f : EventFrame) : option LaunchFailureRecord :=
  match f.(event) with
  | LaunchFailed invocation failure _ =>
      Some {| failure_invocation := invocation; failure_kind := failure |}
  | _ => None
  end.

Definition configured_of (f : EventFrame) : option ConfiguredRecord :=
  match f.(event) with
  | NetworkConfigured _ _ gateway =>
      Some {| configured_gateway := gateway; configured_event := f.(event_id) |}
  | _ => None
  end.

Definition activation_of (f : EventFrame) : option (string * Z) :=
  match f.(event) with OutageActivated peer _ => Some (peer, f.(event_id)) | _ => None end.

Definition restoration_of (f : EventFrame) : option (string * Z) :=
  match f.(event) with NetworkRestored peer => Some (peer, f.(event_id)) | _ => None end.

(** The acknowledged data inputs of an invocation, by event identifier. *)
Definition data_ack_of (i : Z) (f : EventFrame) : option Z :=
  match f.(event) with
  | InputAccepted inv _ _ false => if inv =? i then Some f.(event_id) else None
  | _ => None
  end.

(** ** Line splitting *)

Lemma split_on_snoc_app sep a b :
  split_on sep (a ++ b)
  = removelast (split_on sep a) ++ split_on sep (List.last (split_on sep a) [] ++ b).
Proof.
  induction a as [|x a IH]; [done|]. destruct (decide (x = sep)) as [->|Hx].
  - change ((sep :: a) ++ b) with ([] ++ sep :: (a ++ b)).
    change (sep :: a) with ([] ++ sep :: a). rewrite !split_on_app; [|apply not_elem_of_nil..].
    rewrite IH. destruct (split_on sep a) as [|p ps] eqn:E; [by destruct (split_on_ne sep a)|].
    done.
  - destruct (split_on_cons_ne sep x a Hx) as (p&ps&Ea&Exa).
    destruct (split_on_cons_ne sep x (a ++ b) Hx) as (q&qs&Eab&Exab).
    change ((x :: a) ++ b) with (x :: (a ++ b)). rewrite Exab Exa. rewrite Eab Ea in IH.
    destruct ps as [|p' ps].
    + cbn [removelast List.last app] in IH |- *.
      destruct (split_on_cons_ne sep x (p ++ b) Hx) as (r&rs&E1&E2).
      rewrite E2. rewrite E1 in IH. by simplify_eq.
    + cbn [removelast List.last app] in IH |- *. by simplify_eq.
Qed.

Lemma position_newline p :
  match position (fun b => bool_decide (b = NEWLINE)) p with
  | None => split_on NEWLINE p = [p]
  | Some i => split_on NEWLINE p = take i p :: split_on NEWLINE (drop (S i) p)
              /\ (length (drop (S i) p) < length p)%nat
  end.
Proof.
  destruct (position _ p) as [i|] eqn:E.
  - apply position_Some in E as (l1&x&l2&->&<-&Hx&Hall). apply bool_decide_eq_true in Hx as ->.
    rewrite take_app_length drop_S_app. split; [|rewrite length_app /=; lia].
    apply split_on_app. intros Hin. rewrite list.Forall_forall in Hall.
    specialize (Hall _ Hin). by apply bool_decide_eq_false in Hall.
  - apply position_None in E. apply split_on_piece. intros Hin.
    rewrite list.Forall_forall in E. specialize (E _ Hin). by apply bool_decide_eq_false in E.
Qed.

(** With enough fuel the loop splits off exactly the complete lines. *)
Lemma split_lines_spec fuel inv id stream s :
  (length s.(sp_pending) <= fuel)%nat ->
  let s' := split_lines fuel inv id stream s in
  s'.(sp_pending) = trailing s.(sp_pending) /\
  map text s'.(sp_lines) = map text s.(sp_lines) ++ map from_utf8_lossy (complete_lines s.(sp_pending))
  /\ (s'.(sp_violations) = [] -> s.(sp_violations) = []).
Proof.
  revert s. induction fuel as [|fuel IH]; intros s Hf; cbn [split_lines].
  { destruct (s.(sp_pending)) eqn:E; [|simpl in Hf; lia]. by rewrite app_nil_r. }
  pose proof (position_newline s.(sp_pending)) as Hp.
  destruct (position _ s.(sp_pending)) as [i|].
  - destruct Hp as [Hsplit Hlen].
    destruct (IH (split_line inv id stream i s)) as (E1&E2&E3); [cbn; lia|].
    set (s1 := split_line inv id stream i s) in *.
    assert (Hs1 : s1.(sp_pending) = drop (S i) s.(sp_pending)) by done.
    rewrite E1 E2 Hs1. unfold trailing, complete_lines. rewrite Hsplit.
    destruct (split_on NEWLINE (drop (S i) (sp_pending s))) as [|p ps] eqn:E;
      [by destruct (split_on_ne NEWLINE (drop (S i) (sp_pending s)))|].
    split_and!; [done| |].
    + unfold s1. cbn [split_line sp_lines]. rewrite map_app -app_assoc. done.
    + intros Hv. specialize (E3 Hv). unfold s1 in E3. cbn [split_line sp_violations] in E3.
      destruct (_ <? _) in E3; [by destruct (sp_violations s)|done].
  - unfold trailing, complete_lines. rewrite Hp. by rewrite app_nil_r.
Qed.

(** A stream holds exactly the bytes [bs], split into lines. *)
Definition stream_ok (st : StreamState) (bs : bytes) : Prop :=
  st.(stream_bytes) = bs /\ st.(pending) = trailing bs /\
  map text st.(lines) = map from_utf8_lossy (complete_lines bs).

Lemma stream_ok_empty : stream_ok empty_stream [].
Proof. done. Qed.

Lemma last_app_cons {A} (l : list A) x k d : List.last (l ++ x :: k) d = List.last (x :: k) d.
Proof.
  induction l as [|y l IH]; [done|]. rewrite -IH. cbn [app List.last].
  destruct (l ++ x :: k) eqn:E; [by destruct l|done].
Qed.

Lemma trailing_app a b : trailing (a ++ b) = trailing (trailing a ++ b).
Proof.
  unfold trailing. rewrite split_on_snoc_app.
  destruct (split_on NEWLINE (List.last (split_on NEWLINE a) [] ++ b)) as [|p ps] eqn:E;
    [by destruct (split_on_ne NEWLINE (List.last (split_on NEWLINE a) [] ++ b))|].
  apply last_app_cons.
Qed.

Lemma complete_lines_app a b :
  complete_lines (a ++ b) = complete_lines a ++ complete_lines (trailing a ++ b).
Proof.
  unfold complete_lines, trailing. rewrite split_on_snoc_app removelast_app //.
  apply split_on_ne.
Qed.

(** ** A clean trace agrees with the reference view *)

Lemma streams_push_ok s id inv stream offset sequence data bo be :
  stream_ok s.(stdout) bo -> stream_ok s.(stderr) be ->
  let s' := streams_push s id inv stream offset sequence data in
  stream_ok s'.(stdout) (match stream with Stdout => bo ++ data | Stderr => bo end) /\
  stream_ok s'.(stderr) (match stream with Stdout => be | Stderr => be ++ data end).
Proof.
  intros Ho He s'. subst s'. unfold streams_push. cbv zeta.
  set (sp := split_lines _ _ _ _ _).
  match goal with sp := split_lines ?n _ _ _ ?s0 |- _ =>
    destruct (split_lines_spec n inv id stream s0) as (E1&E2&_); [done|] end.
  fold sp in E1, E2. clearbody sp. cbn [sp_pending sp_lines] in E1, E2.
  assert (Hst : forall bs, stream_ok (select_stream s stream) bs ->
    stream_ok (MkStream (stream_bytes (select_stream s stream) ++ data) (sp_pending sp)
      (sp_lines sp) (saturating_add64 offset (zlen data)) (sp_line_event sp)) (bs ++ data)).
  { intros bs (Hb&Hp&Hl). unfold stream_ok. cbn [stream_bytes pending lines].
    by rewrite E1 E2 Hb Hp Hl (trailing_app bs) (complete_lines_app bs) map_app. }
  cbn [stdout stderr]. split; destruct stream; try done; by apply Hst.
Qed.

Lemma streams_push_violations s id inv stream offset sequence data :
  (streams_push s id inv stream offset sequence data).(s_violations) = [] -> s.(s_violations) = [].
Proof.
  unfold streams_push. cbv zeta. cbn [s_violations]. set (sp := split_lines _ _ _ _ _).
  match goal with sp := split_lines ?n _ _ _ ?s0 |- _ =>
    destruct (split_lines_spec n inv id stream s0) as (_&_&E3); [done|] end.
  fold sp in E3. clearbody sp. cbn [sp_violations] in E3. intros Hv.
  assert (Hsp : sp_violations sp = [])
    by (destruct (_ && _) in Hv; [by apply app_eq_nil in Hv as [? _]|done]).
  specialize (E3 Hsp). destruct (offset =? _) in E3; [|by apply app_eq_nil in E3 as [_ ?]].
  destruct (bool_decide _) in E3; [done|by apply app_eq_nil in E3 as [? _]].
Qed.

Definition clean (t : WorkloadTrace) : Prop := all_violations t = [].

Lemma clean_iff t :
  clean t <-> t.(violations) = [] /\
    forall i s, t.(invocations) !! i = Some s -> s.(s_violations) = [].
Proof.
  unfold clean, all_violations. split.
  - intros [Hv Hs]%app_eq_nil. split; [done|]. intros i s His.
    apply btree_iter_elem in His. destruct (s_violations s) as [|v vs] eqn:E; [done|].
    assert (Hin : In v (flat_map s_violations (btree_values (invocations t)))).
    { apply in_flat_map. exists s. split; [|rewrite E; by left].
      apply in_map_iff. exists (i, s). split; [done|]. by apply list_elem_of_In. }
    by rewrite Hs in Hin.
  - intros [-> Hs]. cbn [app]. destruct (flat_map _ _) as [|v vs] eqn:E; [done|].
    assert (Hin : In v (flat_map s_violations (btree_values (invocations t)))) by (rewrite E; by left).
    apply in_flat_map in Hin as (s&Hs1&Hv). apply in_map_iff in Hs1 as ([i s']&<-&His).
    apply list_elem_of_In, btree_iter_elem in His. by rewrite (Hs i s' His) in Hv.
Qed.

Lemma add_violation_not_clean t v : ~ clean (add_violation t v).
Proof. rewrite clean_iff. intros [Hv _]. cbn in Hv. by destruct (violations t). Qed.

Definition opt_list {A} (o : option A) : list A := match o with Some x => [x] | None => [] end.

(** The records and bytes of a trace are those of the events. *)
Record trace_agrees (events : list EventFrame) (t : WorkloadTrace) : Prop := {
  ta_starts : t.(starts) = omap start_of events;
  ta_exits : t.(exits) = omap exit_of events;
  ta_terminations : t.(terminations) = omap termination_of events;
  ta_cleanups : t.(cleanups) = omap cleanup_of events;
  ta_failures : t.(launch_failures) = omap failure_of events;
  ta_configured : opt_list t.(configured) = omap configured_of events;
  ta_activations : t.(activations) = omap activation_of events;
  ta_restorations : t.(restorations) = omap restoration_of events;
  ta_streams : forall i,
    let s := default InvocationStreams_default (t.(invocations) !! i) in
    stream_ok s.(stdout) (stream_data i Stdout events) /\
    stream_ok s.(stderr) (stream_data i Stderr events) /\
    s.(data_input_events) = omap (data_ack_of i) events;
}.

Lemma trace_agrees_nil : trace_agrees [] WorkloadTrace_default.
Proof. constructor; done. Qed.

Lemma omap_snoc {A B} (f : A -> option B) l x : omap f (l ++ [x]) = omap f l ++ opt_list (f x).
Proof. by rewrite omap_app. Qed.

Lemma stream_data_snoc i st events f :
  stream_data i st (events ++ [f]) = stream_data i st events ++ output_data i st f.
Proof. unfold stream_data. rewrite flat_map_app. cbn. by rewrite app_nil_r. Qed.

(** How a step that is not an output or an input extends the agreement. *)
Lemma trace_agrees_records events t t' f :
  trace_agrees events t ->
  t'.(starts) = t.(starts) ++ opt_list (start_of f) ->
  t'.(exits) = t.(exits) ++ opt_list (exit_of f) ->
  t'.(terminations) = t.(terminations) ++ opt_list (termination_of f) ->
  t'.(cleanups) = t.(cleanups) ++ opt_list (cleanup_of f) ->
  t'.(launch_failures) = t.(launch_failures) ++ opt_list (failure_of f) ->
  opt_list t'.(configured) = opt_list t.(configured) ++ opt_list (configured_of f) ->
  t'.(activations) = t.(activations) ++ opt_list (activation_of f) ->
  t'.(restorations) = t.(restorations) ++ opt_list (restoration_of f) ->
  t'.(invocations) = t.(invocations) ->
  (forall i st, output_data i st f = []) -> (forall i, data_ack_of i f = None) ->
  trace_agrees (events ++ [f]) t'.
Proof.
  intros [] E1 E2 E3 E4 E5 E6 E7 E8 E9 Ho Hd. constructor; rewrite ?omap_snoc; try congruence.
  intros i. rewrite !stream_data_snoc !Ho !app_nil_r omap_snoc Hd E9 app_nil_r. apply ta_streams0.
Qed.

(** How an update of one invocation's streams extends it. *)
Lemma trace_agrees_update events t f i g :
  trace_agrees events t ->
  start_of f = None -> exit_of f = None -> termination_of f = None -> cleanup_of f = None ->
  failure_of f = None -> configured_of f = None -> activation_of f = None ->
  restoration_of f = None ->
  (forall j st, j <> i -> output_data j st f = []) -> (forall j, j <> i -> data_ack_of j f = None) ->
  (let s := default InvocationStreams_default (t.(invocations) !! i) in
   stream_ok (g s).(stdout) (stream_data i Stdout (events ++ [f])) /\
   stream_ok (g s).(stderr) (stream_data i Stderr (events ++ [f])) /\
   (g s).(data_input_events) = omap (data_ack_of i) (events ++ [f])) ->
  trace_agrees (events ++ [f]) (update_invocation t i g).
Proof.
  intros [] E1 E2 E3 E4 E5 E6 E7 E8 Ho Hd Hg.
  constructor; rewrite ?omap_snoc ?E1 ?E2 ?E3 ?E4 ?E5 ?E6 ?E7 ?E8;
    cbn [opt_list]; rewrite ?app_nil_r; try done.
  intros j. cbn [update_invocation invocations]. destruct (decide (j = i)) as [->|Hne].
  - rewrite lookup_insert_eq. apply Hg.
  - rewrite lookup_insert_ne // !stream_data_snoc !Ho // !app_nil_r omap_snoc Hd // app_nil_r.
    apply ta_streams0.
Qed.

Lemma clean_update t i g :
  (forall s, (g s).(s_violations) = [] -> s.(s_violations) = []) ->
  clean (update_invocation t i g) -> clean t.
Proof.
  rewrite !clean_iff. cbn [update_invocation violations invocations]. intros Hg [Hv Hs].
  split; [done|]. intros j s Hj. destruct (decide (j = i)) as [->|Hne].
  - apply Hg. specialize (Hs i _ (lookup_insert_eq _ _ _)). by rewrite Hj in Hs.
  - apply (Hs j s). by rewrite lookup_insert_ne.
Qed.

(** The rejecting branches of a handler leave a violation behind; the accepting
    branch of a record handler appends the event's record. *)
Ltac not_clean H := exfalso; exact (add_violation_not_clean _ _ H).
Ltac records_step Ha Hc E :=
  eapply trace_agrees_records; [exact Ha|..];
  unfold start_of, exit_of, termination_of, cleanup_of, failure_of, configured_of,
    activation_of, restoration_of, output_data, data_ack_of;
  rewrite ?E /= ?app_nil_r; try (by match goal with Et : configured _ = None |- _ => rewrite Et end);
  done.

(** Violations are never removed. *)
Lemma push_clean t f : clean (push t f) -> clean t.
Proof.
  assert (Hadd : forall v, clean (add_violation t v) -> clean t).
  { intros v Hc. not_clean Hc. }
  unfold push. destruct (f.(event)); try done.
  - unfold push_configured. destruct (t.(configured)); [apply Hadd|].
    destruct (_ || _); [apply Hadd|done].
  - unfold push_activation. destruct (t.(activations)) as [|[? ?] ?]; [|apply Hadd].
    destruct (negb _); [apply Hadd|done].
  - unfold push_restoration. destruct (t.(restorations)) as [|[? ?] ?]; [done|apply Hadd].
  - unfold push_started. cbv zeta. destruct (started t invocation); [apply Hadd|done].
  - unfold push_input_accepted. destruct (negb _); [apply Hadd|]. destruct (exited _ _); [apply Hadd|].
    destruct (terminated _ _); [apply Hadd|]. apply clean_update. intros s Hv.
    cbn [push_input s_violations] in Hv. by apply app_eq_nil in Hv as [? _].
  - unfold push_termination. destruct (negb _); [apply Hadd|]. destruct (exited _ _); [apply Hadd|].
    destruct (terminated _ _); [apply Hadd|done].
  - unfold push_output. destruct (negb _); [apply Hadd|]. destruct (exited _ _); [apply Hadd|].
    destruct (decode_bytes _ _); [|apply Hadd]. apply clean_update. intros s.
    apply streams_push_violations.
  - unfold push_exited. cbv zeta. destruct (negb _); [apply Hadd|].
    destruct (exited _ _); [apply Hadd|done].
  - unfold push_launch_failed. destruct (launch_failed _ _); [apply Hadd|].
    destruct (exited _ _); [apply Hadd|done].
  - unfold push_cleanup. destruct (negb _); [apply Hadd|]. destruct (cleaned _ _); [apply Hadd|].
    destruct (List.find _ _); [|apply Hadd]. destruct (_ <? _); [apply Hadd|].
    destruct (reaped =? 0); [apply Hadd|done].
Qed.

Lemma push_output_agrees events t f inv stream offset sequence data :
  f.(event) = WorkloadOutput inv stream offset sequence data ->
  trace_agrees events t -> clean (push_output t f.(event_id) inv stream offset sequence data) ->
  trace_agrees (events ++ [f]) (push_output t f.(event_id) inv stream offset sequence data).
Proof.
  intros E Ha Hc. unfold push_output in *.
  destruct (negb (started t inv)); [not_clean Hc|]. destruct (exited t inv); [not_clean Hc|].
  destruct (decode_bytes data MAX_OUTPUT_FRAME_BYTES) as [bs|] eqn:Ed; [|not_clean Hc].
  apply trace_agrees_update; try done;
    try (unfold start_of, exit_of, termination_of, cleanup_of, failure_of, configured_of,
      activation_of, restoration_of; by rewrite E).
    + intros j st Hj. unfold output_data. rewrite E. by destruct (Z.eqb_spec inv j).
    + intros j _. unfold data_ack_of. by rewrite E.
    + destruct (ta_streams _ _ Ha inv) as (Ho&He&Hd).
      destruct (streams_push_ok _ (event_id f) inv stream offset sequence bs _ _ Ho He)
        as (Ho'&He').
      rewrite !stream_data_snoc omap_snoc.
      assert (Hout : forall st, output_data inv st f = if bool_decide (stream = st) then bs else []).
      { intros st. unfold output_data. rewrite E Z.eqb_refl Ed. by case_bool_decide. }
      rewrite !Hout. assert (data_ack_of inv f = None) as -> by (unfold data_ack_of; by rewrite E).
      cbv zeta. rewrite !app_nil_r. split_and!; [..|exact Hd].
      * destruct stream; cbn in Ho' |- *; by rewrite ?app_nil_r.
      * destruct stream; cbn in He' |- *; by rewrite ?app_nil_r.
Qed.

Lemma push_input_agrees events t f inv offset nbytes eof :
  f.(event) = InputAccepted inv offset nbytes eof ->
  trace_agrees events t ->
  clean (push_input_accepted t f.(event_id) f.(command_id) inv offset nbytes eof) ->
  trace_agrees (events ++ [f])
    (push_input_accepted t f.(event_id) f.(command_id) inv offset nbytes eof).
Proof.
  intros E Ha Hc. unfold push_input_accepted in *.
  destruct (negb (started t inv)); [not_clean Hc|]. destruct (exited t inv); [not_clean Hc|].
  destruct (terminated t inv); [not_clean Hc|].
  apply trace_agrees_update; try done;
    try (unfold start_of, exit_of, termination_of, cleanup_of, failure_of, configured_of,
      activation_of, restoration_of; by rewrite E).
    + intros j st _. unfold output_data. by rewrite E.
    + intros j Hj. unfold data_ack_of. rewrite E. destruct eof; [done|].
      by destruct (Z.eqb_spec inv j).
    + destruct (ta_streams _ _ Ha inv) as (Ho&He&Hd).
      assert (Hout : forall st, output_data inv st f = []) by (intros st; unfold output_data; by rewrite E).
      rewrite !stream_data_snoc !Hout !app_nil_r omap_snoc. cbv zeta.
      cbn [push_input stdout stderr data_input_events]. split_and!; [done..|].
      unfold data_ack_of at 2. rewrite E Z.eqb_refl. destruct eof; cbn [opt_list].
      * by rewrite app_nil_r.
      * by rewrite Hd.
Qed.

Lemma push_agrees events t f :
  trace_agrees events t -> clean (push t f) -> trace_agrees (events ++ [f]) (push t f).
Proof.
  intros Ha Hc. unfold push in *. destruct (f.(event)) eqn:E; try (records_step Ha Hc E).
  - unfold push_configured in *. destruct (t.(configured)) eqn:Et; [not_clean Hc|].
    destruct (_ || _) in Hc |- *; [not_clean Hc|]. records_step Ha Hc E.
  - unfold push_activation in *. destruct (t.(activations)) as [|[? ?] ?]; [|not_clean Hc].
    destruct (negb _) in Hc |- *; [not_clean Hc|]. records_step Ha Hc E.
  - unfold push_restoration in *. destruct (t.(restorations)) as [|[? ?] ?]; [|not_clean Hc].
    records_step Ha Hc E.
  - unfold push_started in *. cbv zeta in *.
    destruct (started t invocation); [not_clean Hc|]. records_step Ha Hc E.
  - by apply push_input_agrees.
  - unfold push_termination in *. destruct (negb _) in Hc |- *; [not_clean Hc|].
    destruct (exited _ _) in Hc |- *; [not_clean Hc|].
    destruct (terminated _ _) in Hc |- *; [not_clean Hc|]. records_step Ha Hc E.
  - by apply push_output_agrees.
  - unfold push_exited in *. cbn [exit_invocation] in *.
    destruct (negb _) in Hc |- *; [not_clean Hc|].
    destruct (exited _ _) in Hc |- *; [not_clean Hc|]. records_step Ha Hc E.
  - unfold push_launch_failed in *. destruct (launch_failed _ _) in Hc |- *; [not_clean Hc|].
    destruct (exited _ _) in Hc |- *; [not_clean Hc|]. records_step Ha Hc E.
  - unfold push_cleanup in *. destruct (negb _) in Hc |- *; [not_clean Hc|].
    destruct (cleaned _ _) in Hc |- *; [not_clean Hc|].
    destruct (List.find _ _) in Hc |- *; [|not_clean Hc].
    destruct (_ <? _) in Hc |- *; [not_clean Hc|].
    destruct (reaped =? 0) in Hc |- *; [not_clean Hc|]. records_step Ha Hc E.
Qed.

Lemma trace_of_snoc events f : trace_of (events ++ [f]) = push (trace_of events) f.
Proof. unfold trace_of. by rewrite fold_left_app. Qed.

Lemma clean_trace_agrees events : clean (trace_of events) -> trace_agrees events (trace_of events).
Proof.
  induction events as [|f events IH] using rev_ind; intros Hc; [apply trace_agrees_nil|].
  rewrite trace_of_snoc in Hc |- *. apply push_agrees; [|done]. apply IH.
  by eapply push_clean.
Qed.

(** ** What a passing workload report says about the events *)

(** The two-invocation process history: started, killed, cleaned up together
    with its descendant, restarted, exited cleanly. *)
Definition process_history (events : list EventFrame) (launch : LaunchIdentity) : Prop :=
  exists id1 id2 term exit1 cleanup1 exit2 cleanup2,
    omap start_of events =
      [{| start_invocation := 1; start_launch := launch; start_event := id1 |};
       {| start_invocation := 2; start_launch := launch; start_event := id2 |}] /\
    omap termination_of events =
      [{| termination_invocation := 1; termination_signal := TERMINATION_SIGNAL;
          termination_event := term |}] /\
    omap failure_of events = [] /\
    In exit1 (omap exit_of events) /\ exit1.(exit_invocation) = 1 /\
    exit1.(exit_status) = Signaled TERMINATION_SIGNAL /\
    In cleanup1 (omap cleanup_of events) /\ cleanup1.(cleanup_invocation) = 1 /\
    2 <= cleanup1.(cleanup_reaped) /\
    term < exit1.(exit_event) < cleanup1.(cleanup_event) /\ cleanup1.(cleanup_event) < id2 /\
    In exit2 (omap exit_of events) /\ exit2.(exit_invocation) = 2 /\
    exit2.(exit_status) = Exited 0 /\
    In cleanup2 (omap cleanup_of events) /\ cleanup2.(cleanup_invocation) = 2.

(** Each invocation's standard output consists of exactly the expected lines,
    each acknowledged data input has one, and every exit record reports the
    totals and digests of the recorded bytes, none of them on stderr. *)
Definition responses_match `{Sha256} (events : list EventFrame) (choices : WorkloadChoicePlan)
    : Prop :=
  (forall i, i = 1 \/ i = 2 ->
     exists expected, expected_lines choices i = Some expected /\
       map from_utf8_lossy (complete_lines (stream_data i Stdout events)) = expected /\
       zlen (omap (data_ack_of i) events) = zlen expected - 1) /\
  (forall exit, In exit (omap exit_of events) ->
     let out := stream_data exit.(exit_invocation) Stdout events in
     trailing out = [] /\ stream_data exit.(exit_invocation) Stderr events = [] /\
     exit.(exit_stdout_bytes) = zlen out /\ exit.(exit_stderr_bytes) = 0 /\
     exit.(exit_stdout_sha256) = sha256 out /\ exit.(exit_stderr_sha256) = sha256 []).

(** Line [k] of an invocation's standard output was completed by the event
    with identifier [id]. *)
Definition completed_at (events : list EventFrame) (i : Z) (k : nat) (id : Z) : Prop :=
  exists pre f post, events = pre ++ f :: post /\ f.(event_id) = id /\
    (length (complete_lines (stream_data i Stdout pre)) <= k
     < length (complete_lines (stream_data i Stdout (pre ++ [f]))))%nat.

(** The line [wanted], completed by event [id], answers the data input that was
    acknowledged by event [ack]: it is the line after as many as there were
    acknowledgements before [ack], the startup line counted. *)
Definition answers (events : list EventFrame) (wanted : string) (id ack : Z) : Prop :=
  exists i k line, complete_lines (stream_data i Stdout events) !! S k = Some line /\
    from_utf8_lossy line = wanted /\ omap (data_ack_of i) events !! k = Some ack /\
    completed_at events i (S k) id.

(** The network was configured, faulted and restored on the scenario's peer; a
    request accepted inside the outage was refused within the bound, one accepted
    after the restoration was answered within the bound, and the restarted
    invocation echoed its token within the bound. *)
Definition fault_history (events : list EventFrame) (scenario : WorkloadScenario)
    (choices : WorkloadChoicePlan) : Prop :=
  let peer := scenario.(w_fixture_peer) in
  exists c a r request_o refused refused_ack request_r answered answered_ack start k line echoed,
    omap configured_of events = [{| configured_gateway := peer; configured_event := c |}] /\
    In (peer +:+ "/32", a) (omap activation_of events) /\
    In (peer +:+ "/32", r) (omap restoration_of events) /\ c < a < r /\
    first_in_phase 0 choices Outage choices.(requests) = Some request_o /\
    answers events (expected_network_line request_o Outage) refused refused_ack /\
    a < refused_ack /\ a < refused < r /\ refused - a <= scenario.(w_outage_event_bound) /\
    first_in_phase 0 choices Recovery choices.(requests) = Some request_r /\
    answers events (expected_network_line request_r Recovery) answered answered_ack /\
    r < answered_ack /\ r < answered /\ answered - r <= scenario.(w_liveness_event_bound) /\
    In start (omap start_of events) /\ start.(start_invocation) = 2 /\
    complete_lines (stream_data 2 Stdout events) !! k = Some line /\
    from_utf8_lossy line = "echo value=" +:+ echo_token choices.(seed) 2 /\
    completed_at events 2 k echoed /\
    start.(start_event) < echoed <= start.(start_event) + scenario.(w_liveness_event_bound).

(** Peel one early return off a passing property. *)
Ltac peel H :=
  lazymatch type of H with
  | assertion_passed (failed_result _ _) = true => discriminate H
  | assertion_passed (if ?c then _ else _) = true =>
      let E := fresh "E" in destruct c eqn:E; [discriminate H|]
  | assertion_passed (match ?c with _ => _ end) = true =>
      let E := fresh "E" in destruct c eqn:E; try discriminate H
  end.

(** Read the boolean tests of a passed guard as propositions. *)
Ltac reflect_guards :=
  repeat match goal with
  | Hb : negb _ = false |- _ => apply negb_false_iff in Hb
  | Hb : (_ || _) = false |- _ => apply orb_false_iff in Hb as [? ?]
  | Hb : (_ && _) = true |- _ => apply andb_true_iff in Hb as [? ?]
  | Hb : List.find _ _ = Some _ |- _ => apply find_some in Hb as [? ?]
  | Hb : existsb _ _ = true |- _ => apply existsb_exists in Hb as (?&?&?)
  | Hb : (_ =? _) = true |- _ => apply Z.eqb_eq in Hb
  | Hb : (_ <? _) = true |- _ => apply Z.ltb_lt in Hb
  | Hb : (_ <=? _) = true |- _ => apply Z.leb_le in Hb
  | Hb : (_ <? _) = false |- _ => apply Z.ltb_ge in Hb
  | Hb : (_ <=? _) = false |- _ => apply Z.leb_gt in Hb
  | Hb : bool_decide _ = true |- _ => apply bool_decide_eq_true in Hb
  end.

Lemma process_safety_clean t choices launch :
  (process_safety t choices launch).(assertion_passed) = true -> clean t.
Proof. unfold process_safety, clean. cbv zeta. by destruct (all_violations t). Qed.

Lemma zlen_1 {A} (l : list A) : zlen l = 1 -> exists x, l = [x].
Proof. destruct l as [|x [|y l]]; [done|by exists x|]. rewrite !zlen_cons. pose proof (zlen_nonneg l). lia. Qed.

Lemma process_safety_history events choices launch :
  (process_safety (trace_of events) choices launch).(assertion_passed) = true ->
  process_history events launch.
Proof.
  intros Hp. pose proof (clean_trace_agrees _ (process_safety_clean _ _ _ Hp)) as [].
  set (t := trace_of events) in *. unfold process_safety in Hp. cbv zeta in Hp.
  destruct (all_violations t); [|discriminate Hp].
  destruct (launch_failures t) eqn:Ef; [|discriminate Hp].
  destruct (starts t) as [|s1 [|s2 [|? ?]]]; [discriminate Hp..| |discriminate Hp].
  do 20 (try peel Hp). clear Hp. unfold cleaned in *. reflect_guards.
  repeat match goal with Hz : zlen _ = 1 |- _ => apply zlen_1 in Hz as [? Hz] end.
  assert (t0 = x0) as -> by (by rewrite E0 in H13; destruct H13).
  exists (start_event s1), (start_event s2), (termination_event x0), e, c, e0, x.
  rewrite -ta_starts0 -ta_exits0 -ta_terminations0 -ta_cleanups0 -ta_failures0 E0.
  destruct s1, s2, x0. cbn in *. subst. split_and!; done || lia.
Qed.

Lemma first_mismatch_None n actual expected :
  zlen actual = zlen expected -> first_mismatch n actual expected = None ->
  map text actual = expected.
Proof.
  revert n expected. induction actual as [|l actual IH]; intros n [|w expected] Hl;
    cbn [first_mismatch map]; rewrite ?zlen_cons ?zlen_nil in Hl; [done|..].
  1: pose proof (zlen_nonneg expected); lia.
  1: pose proof (zlen_nonneg actual); lia.
  destruct (bool_decide (text l = w)) eqn:E; [|done].
  apply bool_decide_eq_true in E as ->. intros Hm. f_equal. apply (IH (n + 1)); [lia|done].
Qed.

(** [invocations.get(&i)] with a default is the default's accessors. *)
Lemma stdout_lines_default t i :
  stdout_lines t i = (default InvocationStreams_default (t.(invocations) !! i)).(stdout).(lines).
Proof. unfold stdout_lines. by destruct (_ !! i). Qed.

Lemma invocation_failure_None events i expected :
  clean (trace_of events) -> invocation_failure (trace_of events) i expected = None ->
  map from_utf8_lossy (complete_lines (stream_data i Stdout events)) = expected /\
  zlen (omap (data_ack_of i) events) = zlen expected - 1.
Proof.
  intros Hc. destruct (clean_trace_agrees _ Hc) as []. destruct (ta_streams0 i) as (Ho&_&Hd).
  unfold invocation_failure. cbv zeta. rewrite stdout_lines_default.
  destruct (negb _) eqn:El; [done|]. destruct (first_mismatch _ _ _) eqn:Em; [done|].
  reflect_guards. apply first_mismatch_None in Em; [|done]. destruct Ho as (_&_&Hl).
  rewrite Hl in Em. rewrite -Hd.
  destruct (invocations (trace_of events) !! i) as [s|] eqn:Es; cbn [default];
    destruct (_ || _) eqn:Eg; try done; reflect_guards; intros _; done.
Qed.

Lemma exit_failure_None `{Sha256} events exit :
  clean (trace_of events) -> exit_failure (trace_of events) exit = None ->
  let out := stream_data exit.(exit_invocation) Stdout events in
  trailing out = [] /\ stream_data exit.(exit_invocation) Stderr events = [] /\
  exit.(exit_stdout_bytes) = zlen out /\ exit.(exit_stderr_bytes) = 0 /\
  exit.(exit_stdout_sha256) = sha256 out /\ exit.(exit_stderr_sha256) = sha256 [].
Proof.
  intros Hc. destruct (clean_trace_agrees _ Hc) as [].
  destruct (ta_streams0 exit.(exit_invocation)) as ((Eo&Po&_)&(Ee&Pe&_)&_).
  unfold exit_failure. cbv zeta. rewrite -Po -Ee -Eo.
  destruct (invocations (trace_of events) !! exit_invocation exit) as [s|]; cbn [default id].
  1: destruct (pending (stdout s)); [|done].
  1: destruct (pending (stderr s)); [|done].
  1: destruct (stream_bytes (stderr s)); [|done].
  all: cbn [is_empty negb orb].
  all: destruct (negb (exit_stdout_bytes exit =? _) || _ || _) eqn:Et; [done|].
  all: destruct (negb (bool_decide _) || negb (bool_decide _)) eqn:Es; [done|].
  all: reflect_guards; done.
Qed.

Lemma response_integrity_match `{Sha256} events choices r :
  response_integrity (trace_of events) choices = Some r -> r.(assertion_passed) = true ->
  responses_match events choices.
Proof.
  unfold response_integrity. cbv zeta. set (t := trace_of events).
  destruct (expected_lines choices 1) as [e1|] eqn:E1; [|done]. cbn [mbind option_bind].
  destruct (invocation_failure t 1 e1) eqn:F1; [intros [= <-]; done|].
  destruct (expected_lines choices 2) as [e2|] eqn:E2; [|done]. cbn [mbind option_bind].
  destruct (invocation_failure t 2 e2) eqn:F2; [intros [= <-]; done|].
  destruct (stderr_lines t 1 ++ stderr_lines t 2) eqn:Es; [|intros [= <-]; done].
  destruct (find_map (exit_failure t) (exits t)) eqn:Ex; [intros [= <-]; done|].
  destruct (all_violations t) eqn:Ev; [|intros [= <-]; done]. intros _ _.
  split.
  - intros i [->| ->].
    + exists e1. split; [done|]. by apply invocation_failure_None.
    + exists e2. split; [done|]. by apply invocation_failure_None.
  - intros exit Hin. apply exit_failure_None; [done|]. apply find_map_None in Ex.
    rewrite (ta_exits _ _ (clean_trace_agrees _ Ev)) in Ex.
    rewrite list.Forall_forall in Ex. by apply Ex, list_elem_of_In.
Qed.

(** ** Which event completed a line *)

Lemma split_lines_ids fuel inv id stream s :
  exists new, (split_lines fuel inv id stream s).(sp_lines) = s.(sp_lines) ++ new /\
    Forall (fun l => l.(line_event_id) = id) new.
Proof.
  revert s. induction fuel as [|fuel IH]; intros s; cbn [split_lines];
    [exists []; by rewrite app_nil_r|].
  destruct (position _ _) as [n|]; [|exists []; by rewrite app_nil_r].
  destruct (IH (split_line inv id stream n s)) as (new&->&Hn). cbn [split_line sp_lines].
  eexists (_ :: new). rewrite -app_assoc. split; [done|]. by constructor.
Qed.

Lemma streams_push_ids s id inv stream offset sequence data :
  exists new, (streams_push s id inv stream offset sequence data).(stdout).(lines)
              = s.(stdout).(lines) ++ new /\ Forall (fun l => l.(line_event_id) = id) new.
Proof.
  unfold streams_push. cbv zeta. cbn [stdout]. destruct stream; cbn [select_stream lines].
  - apply split_lines_ids.
  - exists []. by rewrite app_nil_r.
Qed.

Definition line_ids (events : list EventFrame) (t : WorkloadTrace) : Prop :=
  forall i k l, stdout_lines t i !! k = Some l -> completed_at events i k l.(line_event_id).

Lemma completed_at_snoc events f i k id :
  completed_at events i k id -> completed_at (events ++ [f]) i k id.
Proof. intros (pre&g&post&->&E&Hk). exists pre, g, (post ++ [f]). by rewrite -app_assoc. Qed.

Lemma stdout_lines_length events t i :
  trace_agrees events t ->
  length (stdout_lines t i) = length (complete_lines (stream_data i Stdout events)).
Proof.
  intros Ha. destruct (ta_streams _ _ Ha i) as ((_&_&Hl)&_).
  rewrite stdout_lines_default -(length_map text) Hl length_map //.
Qed.

(** A step extends each invocation's lines by lines it completed. *)
Lemma push_lines t f i :
  exists new, stdout_lines (push t f) i = stdout_lines t i ++ new /\
    Forall (fun l => l.(line_event_id) = f.(event_id)) new.
Proof.
  assert (Hid : forall t', t'.(invocations) = t.(invocations) ->
    exists new, stdout_lines t' i = stdout_lines t i ++ new /\
      Forall (fun l => l.(line_event_id) = f.(event_id)) new).
  { intros t' E. exists []. unfold stdout_lines. by rewrite E app_nil_r. }
  assert (Hup : forall j g, (forall s, exists new, (g s).(stdout).(lines) = s.(stdout).(lines) ++ new /\
      Forall (fun l => l.(line_event_id) = f.(event_id)) new) ->
    exists new, stdout_lines (update_invocation t j g) i = stdout_lines t i ++ new /\
      Forall (fun l => l.(line_event_id) = f.(event_id)) new).
  { intros j g Hg. rewrite !stdout_lines_default. cbn [update_invocation invocations].
    destruct (decide (i = j)) as [->|Hne]; [rewrite lookup_insert_eq; apply Hg|].
    rewrite lookup_insert_ne //. exists []. by rewrite app_nil_r. }
  unfold push. destruct (f.(event)); try (by apply Hid);
    unfold push_configured, push_activation, push_restoration, push_started, push_input_accepted,
      push_termination, push_output, push_exited, push_launch_failed, push_cleanup; cbv zeta;
    repeat (case_match; try (by apply Hid)); try (by apply Hid).
  - apply Hup. intros s. exists []. by rewrite app_nil_r.
  - apply Hup. intros s. apply streams_push_ids.
Qed.

Lemma clean_line_ids events : clean (trace_of events) -> line_ids events (trace_of events).
Proof.
  induction events as [|f events IH] using rev_ind; intros Hc i k l Hl.
  { exfalso. unfold stdout_lines in Hl. cbn in Hl. by rewrite lookup_empty in Hl. }
  pose proof (clean_trace_agrees _ Hc) as Ha'. rewrite trace_of_snoc in Hc, Hl, Ha'.
  pose proof (push_clean _ _ Hc) as Hc0. pose proof (clean_trace_agrees _ Hc0) as Ha.
  pose proof (lookup_lt_Some _ _ _ Hl) as Hlt. rewrite (stdout_lines_length _ _ i Ha') in Hlt.
  destruct (push_lines (trace_of events) f i) as (new&E&Hn). rewrite E in Hl.
  apply lookup_app_Some in Hl as [Hl|[Hle Hl]].
  - apply completed_at_snoc, (IH Hc0 _ _ _ Hl).
  - exists events, f, []. split_and!; [done| |by rewrite -(stdout_lines_length _ _ i Ha)|done].
    rewrite list.Forall_forall in Hn. symmetry. apply Hn. by eapply list_elem_of_lookup_2.
Qed.

(** ** The fault properties *)

Lemma line_with_ack_Some wanted acks lines l ack :
  line_with_ack wanted acks lines = Some (l, ack) ->
  exists k, lines !! k = Some l /\ acks !! k = Some (Some ack) /\ l.(text) = wanted.
Proof.
  revert acks. induction lines as [|l0 lines IH]; intros acks; cbn [line_with_ack]; [done|].
  assert (Ht : line_with_ack wanted (tl acks) lines = Some (l, ack) ->
    exists k, (l0 :: lines) !! k = Some l /\ acks !! k = Some (Some ack) /\ l.(text) = wanted).
  { intros (k&?&?&?)%IH. exists (S k). by destruct acks. }
  destruct (negb _) eqn:E; [done|]. destruct acks as [|[a|] acks]; try done.
  intros [= <- <-]. exists O. reflect_guards. done.
Qed.

Lemma stdout_line_with_ack_answers events wanted l ack :
  clean (trace_of events) -> stdout_line_with_ack (trace_of events) wanted = Some (l, ack) ->
  answers events wanted l.(line_event_id) ack.
Proof.
  intros Hc Hf. apply find_map_In in Hf as (s&Hin&Hs).
  apply in_map_iff in Hin as ([i s']&<-&His). apply list_elem_of_In, btree_iter_elem in His.
  apply line_with_ack_Some in Hs as ([|k]&Hl&Ha&Ht); [done|]. cbn in Ha.
  apply (list_lookup_fmap_Some Some (data_input_events s') k (Some ack)) in Ha as (?&[= <-]&Ha).
  pose proof (clean_line_ids _ Hc i (S k) l) as Hids.
  destruct (ta_streams _ _ (clean_trace_agrees _ Hc) i) as ((_&_&Ho)&_&Hd).
  unfold stdout_lines in Hids. rewrite His in Hids, Ho, Hd. cbn [default id snd] in *.
  rewrite Hd in Ha. specialize (Hids Hl).
  assert (Hk : map text (lines (stdout s')) !! S k = Some wanted).
  { rewrite (list_lookup_fmap text) Hl /= Ht //. }
  rewrite Ho in Hk. apply (list_lookup_fmap_Some from_utf8_lossy) in Hk as (line&->&Hk).
  by exists i, k, line.
Qed.

Lemma find_trace_activation_Some t scenario pa a :
  find_trace_activation t scenario = Some (pa, a) ->
  exists c, t.(configured)
      = Some {| configured_gateway := scenario.(w_fixture_peer); configured_event := c |} /\
    In (pa, a) t.(activations) /\ pa = scenario.(w_fixture_peer) +:+ "/32" /\ c < a.
Proof.
  unfold find_trace_activation. intros ([g c]&Hc&Hf)%bind_Some. cbn in Hf.
  destruct (bool_decide _) eqn:E; [|done]. reflect_guards. cbn in *. subst. by exists c.
Qed.

Lemma find_trace_restoration_Some t pa a pr r :
  find_trace_restoration t (Some (pa, a)) = Some (pr, r) ->
  In (pr, r) t.(restorations) /\ pr = pa /\ a < r.
Proof. unfold find_trace_restoration. cbn. intros. by reflect_guards. Qed.

Lemma trace_outage_Some events scenario choices a r x :
  clean (trace_of events) ->
  trace_outage (trace_of events) scenario choices (Some a) (Some r) = Some x ->
  exists request refused ack, first_in_phase 0 choices Outage choices.(requests) = Some request /\
    answers events (expected_network_line request Outage) refused ack /\ a.2 < ack /\
    a.2 < refused < r.2 /\ refused - a.2 <= scenario.(w_outage_event_bound).
Proof.
  intros Hc. unfold trace_outage. cbn. intros (q&Hq&([l ack]&Hl&Hb)%bind_Some)%bind_Some.
  destruct (_ && _) eqn:E in Hb; [|done]. reflect_guards.
  exists q, l.(line_event_id), ack. by apply stdout_line_with_ack_answers in Hl.
Qed.

Lemma trace_recovery_Some events scenario choices r x :
  clean (trace_of events) ->
  trace_recovery (trace_of events) scenario choices (Some r) = Some x ->
  exists request answered ack, first_in_phase 0 choices Recovery choices.(requests) = Some request /\
    answers events (expected_network_line request Recovery) answered ack /\ r.2 < ack /\
    r.2 < answered /\ answered - r.2 <= scenario.(w_liveness_event_bound).
Proof.
  intros Hc. unfold trace_recovery. cbn. intros (q&Hq&([l ack]&Hl&Hb)%bind_Some)%bind_Some.
  destruct (_ && _) eqn:E in Hb; [|done]. reflect_guards.
  exists q, l.(line_event_id), ack. by apply stdout_line_with_ack_answers in Hl.
Qed.

Lemma trace_restart_Some events scenario choices x :
  clean (trace_of events) -> trace_restart (trace_of events) scenario choices = Some x ->
  exists start k line echoed, In start (omap start_of events) /\ start.(start_invocation) = 2 /\
    complete_lines (stream_data 2 Stdout events) !! k = Some line /\
    from_utf8_lossy line = "echo value=" +:+ echo_token choices.(seed) 2 /\
    completed_at events 2 k echoed /\
    start.(start_event) < echoed <= start.(start_event) + scenario.(w_liveness_event_bound).
Proof.
  intros Hc. unfold trace_restart. intros (s&Hs&(l&Hl&Hb)%bind_Some)%bind_Some.
  apply find_some in Hs as [Hs Hs2]. apply find_some in Hl as [Hl Hl2].
  destruct (_ && _) eqn:E in Hb; [|done]. reflect_guards.
  pose proof (clean_trace_agrees _ Hc) as Ha. rewrite (ta_starts _ _ Ha) in Hs.
  apply list_elem_of_In, list_elem_of_lookup in Hl as (k&Hk).
  pose proof (clean_line_ids _ Hc _ _ _ Hk) as Hid.
  assert (Ht : map text (stdout_lines (trace_of events) 2) !! k = Some (text l))
    by (rewrite (list_lookup_fmap text) Hk //).
  destruct (ta_streams _ _ Ha 2) as ((_&_&Ho)&_).
  rewrite stdout_lines_default Ho in Ht.
  apply (list_lookup_fmap_Some from_utf8_lossy) in Ht as (line&Hline&Hk').
  exists s, k, line, l.(line_event_id). rewrite -Hline. split_and!; done || lia.
Qed.

Lemma fault_properties_history events scenario choices outage restoration recovery :
  clean (trace_of events) ->
  fault_properties (trace_of events) scenario choices = (outage, restoration, recovery) ->
  outage.(assertion_passed) = true -> restoration.(assertion_passed) = true ->
  recovery.(assertion_passed) = true -> fault_history events scenario choices.
Proof.
  intros Hc. destruct (clean_trace_agrees _ Hc) as []. unfold fault_properties. cbv zeta.
  destruct (find_trace_activation (trace_of events) scenario) as [[pa a]|] eqn:Ea;
    [|intros [= <- <- <-]; done].
  destruct (find_trace_restoration (trace_of events) _) as [[pr r]|] eqn:Er;
    [|intros [= <- <- <-]; done].
  destruct (trace_outage _ _ _ _ _) as [[o od]|] eqn:Eo; [|intros [= <- <- <-]; done].
  destruct (trace_recovery _ _ _ _) as [[v vd]|] eqn:Ev; [|intros [= <- <- <-]; done].
  destruct (trace_restart _ _ _) as [[u ud]|] eqn:Eu; [|intros [= <- <- <-]; done].
  intros _ _ _ _.
  apply find_trace_activation_Some in Ea as (c&Ec&Hina&->&Hca).
  apply find_trace_restoration_Some in Er as (Hinr&->&Har).
  apply trace_outage_Some in Eo as (qo&ro&ao&?&?&?&?&?); [|done].
  apply trace_recovery_Some in Ev as (qr&rr&ar&?&?&?&?&?); [|done].
  apply trace_restart_Some in Eu as (s&k&line&e&?&?&?&?&?&?); [|done].
  rewrite Ec in ta_configured0. rewrite ta_activations0 in Hina. rewrite ta_restorations0 in Hinr.
  exists c, a, r, qo, ro, ao, qr, rr, ar, s, k, line, e. by rewrite -ta_configured0.
Qed.

(** ** The whole evaluation *)

Lemma network_lines_length choices : zlen (network_lines choices) = zlen choices.(requests).
Proof.
  unfold network_lines. generalize 0 as n.
  induction (requests choices) as [|q qs IH]; intros n; cbn [network_lines_from]; [done|].
  by rewrite !zlen_cons IH.
Qed.

Lemma expected_lines_Some choices i :
  0 <= choices.(process_fault_request_index) <= zlen choices.(requests) ->
  is_Some (expected_lines choices i).
Proof.
  intros Hi. unfold expected_lines. cbv zeta. rewrite network_lines_length.
  destruct (_ <? _) eqn:E; [reflect_guards; lia|]. destruct (i =? 1); eauto.
Qed.

Lemma response_integrity_Some `{Sha256} t choices :
  0 <= choices.(process_fault_request_index) <= zlen choices.(requests) ->
  exists r, response_integrity t choices = Some r /\ r.(name) = ResponseIntegrity.
Proof.
  intros Hi. unfold response_integrity. cbv zeta.
  destruct (expected_lines_Some choices 1 Hi) as [e1 ->].
  destruct (expected_lines_Some choices 2 Hi) as [e2 ->]. cbn [mbind option_bind].
  repeat case_match; eexists; split; reflexivity.
Qed.

Lemma process_safety_name t choices launch : (process_safety t choices launch).(name) = ProcessSafety.
Proof. unfold process_safety. cbv zeta. by repeat case_match. Qed.

Lemma fault_properties_names t scenario choices o r b :
  fault_properties t scenario choices = (o, r, b) ->
  o.(name) = ControlledOutage /\ r.(name) = Restoration /\ b.(name) = BoundedRecovery.
Proof.
  unfold fault_properties. cbv zeta. intros [= <- <- <-].
  split_and!; repeat case_match; reflexivity.
Qed.

Lemma push_normalized t f g : normalize f = normalize g -> push t f = push t g.
Proof. intros (E1&E2&E3)%normalize_fields. unfold push. by rewrite E1 E2 E3. Qed.

Lemma trace_of_normalized e1 e2 : map normalize e1 = map normalize e2 -> trace_of e1 = trace_of e2.
Proof.
  unfold trace_of. generalize WorkloadTrace_default as t. revert e2.
  induction e1 as [|f e1 IH]; intros [|g e2] t E; simplify_eq/=; [done|].
  rewrite (push_normalized t f g) //; [by apply IH|]. by unfold normalize; f_equal.
Qed.

Lemma evaluate_workload_Some `{Sha256} events scenario choices launch :
  0 <= choices.(process_fault_request_index) <= zlen choices.(requests) ->
  is_Some (evaluate_workload events scenario choices launch).
Proof.
  intros Hi. unfold evaluate_workload. cbv zeta.
  destruct (fault_properties _ _ _) as [[outage restoration] recovery].
  destruct (response_integrity_Some (trace_of events) choices Hi) as (r&->&_). by eexists.
Qed.

(** C8. A passing workload report is evidence about the recorded events: the
    launch was started exactly twice, killed once and cleaned up with its
    descendant before the restart, and the second invocation exited cleanly; both
    invocations wrote exactly the planned response lines, one per acknowledged
    input after the startup line, and nothing on standard error, with exit records
    that carry the totals and digests of those bytes; and the planned outage and
    recovery requests were answered after their network transitions, within the
    scenario's event bounds. *)
Theorem evaluate_workload_sound `{Sha256} events scenario choices launch report :
  evaluate_workload events scenario choices launch = Some report -> report.(passed) = true ->
  process_history events launch /\ responses_match events choices /\
  fault_history events scenario choices.
Proof.
  unfold evaluate_workload. cbv zeta.
  destruct (fault_properties _ _ _) as [[outage restoration] recovery] eqn:Ef.
  destruct (response_integrity _ _) as [integrity|] eqn:Ei; [|done]. intros [= <-] Hp.
  cbn [passed report_of forallb] in Hp. reflect_guards.
  split_and!; [by eapply process_safety_history|by eapply response_integrity_match|].
  eapply fault_properties_history; try done. by eapply process_safety_clean.
Qed.

(** On every plan whose process fault index lies within its requests, the
    evaluation of any recorded history returns a report; it holds the five
    workload properties in profile order, and passes exactly when each does. *)
Theorem evaluate_workload_total `{Sha256} events scenario choices launch :
  0 <= choices.(process_fault_request_index) <= zlen choices.(requests) ->
  exists report, evaluate_workload events scenario choices launch = Some report /\
    map name report.(assertions) = WORKLOAD_PROFILE /\
    (report.(passed) = true <-> Forall (fun a => a.(assertion_passed) = true) report.(assertions)).
Proof.
  intros Hi. unfold evaluate_workload. cbv zeta.
  destruct (fault_properties _ _ _) as [[outage restoration] recovery] eqn:Ef.
  apply fault_properties_names in Ef as (E1&E2&E3).
  destruct (response_integrity_Some (trace_of events) choices Hi) as (r&->&Er). cbn [mbind option_bind].
  eexists. split; [done|]. cbn [report_of assertions passed map].
  rewrite process_safety_name Er E1 E2 E3. split; [done|].
  by rewrite forallb_forall List.Forall_forall.
Qed.

(** The workload report depends only on the normalized events: two recordings
    that agree up to diagnostics have the same report, details included. *)
Theorem evaluate_workload_normalized `{Sha256} e1 e2 scenario choices launch :
  map normalize e1 = map normalize e2 ->
  evaluate_workload e1 scenario choices launch = evaluate_workload e2 scenario choices launch.
Proof. intros E. unfold evaluate_workload. by rewrite (trace_of_normalized _ _ E). Qed.

(** C22. When the fold over the events reports no violation, every invocation's
    reconstructed streams are exactly the recorded bytes in event order, cut into
    lines at the newlines however the bytes were split into output frames, each
    line carrying the identifier of the event that completed it. *)
Theorem reconstruction events i :
  all_violations (trace_of events) = [] ->
  let s := default InvocationStreams_default ((trace_of events).(invocations) !! i) in
  stream_ok s.(stdout) (stream_data i Stdout events) /\
  stream_ok s.(stderr) (stream_data i Stderr events) /\
  s.(data_input_events) = omap (data_ack_of i) events /\
  forall k l, s.(stdout).(lines) !! k = Some l -> completed_at events i k l.(line_event_id).
Proof.
  intros Hc. destruct (ta_streams _ _ (clean_trace_agrees _ Hc) i) as (?&?&?).
  split_and!; [done..|]. intros k l Hl. apply (clean_line_ids _ Hc i k l).
  by rewrite stdout_lines_default.
Qed.

(** ** A sample run *)

Definition workload_choices : WorkloadChoicePlan :=
  {| w_plan_version := 1; seed := 7; process_fault_request_index := 1;
     outage_activation_request_index := 1; restoration_request_index := 2;
     requests := [{| request_id := "r1"; payload := "aa" |}; {| request_id := "r2"; payload := "bb" |};
                  {| request_id := "r3"; payload := "cc" |}] |}.

Definition workload_scenario : WorkloadScenario :=
  {| w_version := 1; w_name := "sample"; w_request_count := 3; w_payload_bytes := 1;
     w_fixture_peer := FIXTURE_PEER; w_outage_event_bound := 4; w_liveness_event_bound := 4;
     w_corrupt_responses := false |}.

Definition workload_launch : LaunchIdentity :=
  {| executable := "/app"; arguments := []; environment := []; working_directory := "/";
     uid := 1000; gid := 1000 |}.

(** A recorder for one invocation at a time: the events so far, and the
    invocation's output bytes, frames and input offset. *)
Record Recorder := MkRecorder {
  rec_events : list EventFrame;
  rec_output : bytes;
  rec_frames : Z;
  rec_input : Z;
}.

Definition rec_event (r : Recorder) (e : Event) : Recorder :=
  MkRecorder (r.(rec_events) ++ [sample_frame (zlen r.(rec_events) + 1) (zlen r.(rec_events)) e])
    r.(rec_output) r.(rec_frames) r.(rec_input).

Definition rec_start (r : Recorder) (i : Z) : Recorder :=
  let r := rec_event r (WorkloadStarted i workload_launch) in MkRecorder r.(rec_events) [] 0 0.

Definition rec_line (i : Z) (r : Recorder) (line : string) : Recorder :=
  let data := as_bytes line ++ [NEWLINE] in
  let r := rec_event r (WorkloadOutput i Stdout (zlen r.(rec_output)) (r.(rec_frames) + 1)
             (encode_bytes data)) in
  MkRecorder r.(rec_events) (r.(rec_output) ++ data) (r.(rec_frames) + 1) r.(rec_input).

Definition rec_command (i : Z) (r : Recorder) (line : string) : Recorder :=
  let r := rec_event r (InputAccepted i (r.(rec_input) + 4) 4 false) in
  rec_line i (MkRecorder r.(rec_events) r.(rec_output) r.(rec_frames) (r.(rec_input) + 4)) line.

Definition rec_exit (i : Z) (r : Recorder) (exit : ProcessExit) (reaped : Z) : Recorder :=
  let r := rec_event r (WorkloadExited i exit (zlen r.(rec_output))
             (@sha256 toy_sha256 r.(rec_output)) 0 (@sha256 toy_sha256 []) r.(rec_frames)) in
  rec_event r (CleanupComplete i reaped).

Definition workload_run : list EventFrame :=
  let r := rec_event (MkRecorder [] [] 0 0) (NetworkConfigured "eth0" "10.0.2.15/24" "10.0.2.2") in
  let r := rec_line 1 (rec_start r 1) READY_LINE in
  let r := fold_left (rec_command 1)
    ["echo value=echo-1-0000000000000007"; FRESH_STATE_LINE; "network state=ok request=r1";
     ESCAPED_DESCENDANT_LINE] r in
  let r := rec_exit 1 (rec_event r (TerminationRequested 1 9)) (Signaled 9) 2 in
  let r := rec_line 2 (rec_start r 2) READY_LINE in
  let r := fold_left (rec_command 2) ["echo value=echo-2-0000000000000007"; FRESH_STATE_LINE] r in
  let r := rec_event r (OutageActivated "10.0.2.2/32" "prohibit 10.0.2.2/32") in
  let r := rec_command 2 r "network state=unavailable request=r2 errno=13" in
  let r := rec_event r (NetworkRestored "10.0.2.2/32") in
  let r := rec_command 2 r "network state=ok request=r3" in
  let r := rec_event r (InputAccepted 2 r.(rec_input) 0 true) in
  (rec_exit 2 r (Exited 0) 1).(rec_events).

Notation workload_report :=
  (@evaluate_workload toy_sha256 workload_run workload_scenario workload_choices workload_launch).

Lemma workload_run_passes : passed <$> workload_report = Some true.
Proof. vm_compute. reflexivity. Qed.

Lemma passed_Some (o : option AssertionReport) :
  passed <$> o = Some true -> exists report, o = Some report /\ report.(passed) = true.
Proof. intros (r&->&Hp)%fmap_Some. by exists r. Qed.

Lemma workload_report_Some :
  exists report, workload_report = Some report /\ report.(passed) = true.
Proof.
  apply passed_Some, workload_run_passes.
Qed.

Lemma evaluate_workload_sound_witness :
  process_history workload_run workload_launch /\
  @responses_match toy_sha256 workload_run workload_choices /\
  fault_history workload_run workload_scenario workload_choices.
Proof.
  destruct workload_report_Some as (report&Hr&Hp).
  exact (@evaluate_workload_sound toy_sha256 workload_run workload_scenario workload_choices
           workload_launch report Hr Hp).
Defined.

Lemma evaluate_workload_total_witness :
  exists report,
    @evaluate_workload toy_sha256 [] workload_scenario workload_choices workload_launch = Some report /\
    map name report.(assertions) = WORKLOAD_PROFILE /\
    (report.(passed) = true <-> Forall (fun a => a.(assertion_passed) = true) report.(assertions)).
Proof. apply (@evaluate_workload_total toy_sha256). by vm_compute. Defined.

(** The same run received at another time. *)
Definition received_at (nanos : Z) (f : EventFrame) : EventFrame :=
  {| protocol_version := f.(protocol_version); event_id := f.(event_id);
     command_id := f.(command_id); event := f.(event);
     diagnostics := {| guest_pid := Some 42; host_received_at_unix_nanos := Some nanos;
                       temporary_path := None |} |}.

Lemma evaluate_workload_normalized_witness :
  @evaluate_workload toy_sha256 (map (received_at 5) workload_run) workload_scenario
    workload_choices workload_launch = workload_report.
Proof. apply (@evaluate_workload_normalized toy_sha256). by vm_compute. Defined.

Lemma reconstruction_witness :
  map from_utf8_lossy (complete_lines (stream_data 2 Stdout workload_run))
  = [READY_LINE; "echo value=echo-2-0000000000000007"; FRESH_STATE_LINE;
     "network state=unavailable request=r2 errno=13"; "network state=ok request=r3"] /\
  stream_ok (default InvocationStreams_default ((trace_of workload_run).(invocations) !! 2)).(stdout)
    (stream_data 2 Stdout workload_run).
Proof.
  split; [by vm_compute|]. apply (reconstruction workload_run 2). by vm_compute.
Defined.
