(* ===== verification/Fixture.v ===== *)
(** The guest's network request of [fixture.rs]: one TFTP read from the fixture
    peer, and the strict parser of the fixture's response.

    The socket is the environment: the datagrams it will deliver, in order (an
    exhausted list is a read timeout), the outcome of each send, and a log of
    what was sent.  The receive loop is structural in the datagrams. *)

From stdpp Require Import ssreflect.
From Stdlib Require Import Strings.Byte.
From S2P Require Import Prelude Types Std Protocol.

Definition tftp_invalid (message : string) : RawError := no_errno (invalid_data message).

Definition SocketAddr : Type := IpAddr * Z.

(** A datagram, already cut to the 516-byte receive buffer. *)
Record Socket := MkSocket {
  incoming : list ((bytes * SocketAddr) + RawError);
  send_results : list (option RawError);
  outgoing : list (bytes * SocketAddr);
}.

Definition read_timeout : RawError := Raw (IoError WouldBlock "the read timed out") (Some 11).

Definition send_to (s : Socket) (data : bytes) (to : SocketAddr) : (unit + RawError) * Socket :=
  match s.(send_results) with
  | Some e :: rest => (inr e, MkSocket s.(incoming) rest s.(outgoing))
  | None :: rest => (inl tt, MkSocket s.(incoming) rest (s.(outgoing) ++ [(data, to)]))
  | [] => (inl tt, MkSocket s.(incoming) [] (s.(outgoing) ++ [(data, to)]))
  end.

(** ** The response *)

(** [str::lines]: split at newlines, dropping one carriage return before each
    and a final empty piece. *)
Definition strip_cr (l : bytes) : bytes :=
  match list.last l with
  | Some b => if bool_decide (b = Byte.x0d) then removelast l else l
  | None => l
  end.
Definition str_lines (text : bytes) : list bytes :=
  let pieces := split_on NEWLINE text in
  let final := List.last pieces [] in
  map strip_cr (removelast pieces) ++ (if bool_decide (final = []) then [] else [final]).

Definition fixture_response (request_id payload : string) : string :=
  "request_id=" +:+ request_id +:+ str_of [NEWLINE] +:+ "payload=" +:+ payload +:+ str_of [NEWLINE].

Definition parse_fixture_response (contents : bytes) : (string * string) + RawError :=
  match from_utf8 contents with
  | inr e => inr (tftp_invalid e)
  | inl text =>
      let lines := str_lines (as_bytes text) in
      match lines !! 0%nat ≫= strip_prefix (as_bytes "request_id=") with
      | None => inr (tftp_invalid "missing fixture request_id")
      | Some request_id =>
      match lines !! 1%nat ≫= strip_prefix (as_bytes "payload=") with
      | None => inr (tftp_invalid "missing fixture payload")
      | Some payload =>
          if bool_decide (is_Some (lines !! 2%nat)) then
            inr (tftp_invalid "extra fixture response fields")
          else if negb (bool_decide
                    (as_bytes (fixture_response (str_of request_id) (str_of payload)) = contents))
          then inr (tftp_invalid "fixture response is not canonically encoded")
          else inl (str_of request_id, str_of payload)
      end end
  end.

(** ** The transfer *)

Definition PACKET_BYTES : Z := 516.

Definition read_request (filename : string) : bytes :=
  [Byte.x00; Byte.x01] ++ as_bytes filename ++ [Byte.x00] ++ as_bytes "octet" ++ [Byte.x00].

(** [u16::from_be_bytes([packet[i], packet[i+1]])] of the zero-filled buffer. *)
Definition packet_u16 (packet : bytes) (i : nat) : Z :=
  be_Z [nth i packet Byte.x00; nth (S i) packet Byte.x00].

(** The checks of one accepted packet: its block contents, or the error. *)
Definition check_packet (packet : bytes) (expected_block : Z) (contents : bytes)
    : bytes + RawError :=
  if zlen packet <? 4 then inr (tftp_invalid "truncated TFTP packet")
  else if packet_u16 packet 0 =? 5 then
    inr (no_errno (IoError NotFound "TFTP server returned an error"))
  else if negb (packet_u16 packet 0 =? 3) || negb (packet_u16 packet 2 =? expected_block) then
    inr (tftp_invalid "unexpected TFTP packet")
  else if MAX_REQUEST_DATA_LENGTH <? zlen (contents ++ drop 4 packet) then
    inr (tftp_invalid "TFTP response exceeds protocol limit")
  else inl (contents ++ drop 4 packet).

Definition acknowledgement (packet : bytes) : bytes :=
  [Byte.x00; Byte.x04; nth 2 packet Byte.x00; nth 3 packet Byte.x00].

(** The receive loop: [incoming] is the rest of the datagrams. *)
Fixpoint tftp_loop (datagrams : list ((bytes * SocketAddr) + RawError)) (s : Socket)
    (contents : bytes) (expected_block : Z) (server : option SocketAddr)
    : (bytes + RawError) * Socket :=
  match datagrams with
  | [] => (inr read_timeout, MkSocket [] s.(send_results) s.(outgoing))
  | inr e :: rest => (inr e, MkSocket rest s.(send_results) s.(outgoing))
  | inl (packet, source) :: rest =>
      let s := MkSocket rest s.(send_results) s.(outgoing) in
      if bool_decide (is_Some server /\ server <> Some source) then
        tftp_loop rest s contents expected_block server
      else
        match check_packet packet expected_block contents with
        | inr e => (inr e, s)
        | inl contents =>
            match send_to s (acknowledgement packet) source with
            | (inr e, s) => (inr e, s)
            | (inl _, s) =>
                if zlen packet <? PACKET_BYTES then (inl contents, s)
                else if expected_block + 1 <=? U16_MAX then
                  tftp_loop rest s contents (expected_block + 1) (Some source)
                else (inr (tftp_invalid "TFTP block overflow"), s)
            end
        end
  end.

(** The socket is bound and configured before the first send; [bound] is the
    outcome of those three calls. *)
Definition tftp_request (peer filename : string) (bound : option RawError) (s : Socket)
    : ((string * string) + RawError) * Socket :=
  match parse_ip peer with
  | None => (inr (no_errno (IoError InvalidInput "invalid IP address syntax")), s)
  | Some ip =>
      match bound with
      | Some e => (inr e, s)
      | None =>
          match send_to s (read_request filename) (ip, 69) with
          | (inr e, s) => (inr e, s)
          | (inl _, s) =>
              match tftp_loop s.(incoming) s [] 1 None with
              | (inr e, s) => (inr e, s)
              | (inl contents, s) => (parse_fixture_response contents, s)
              end
          end
      end
  end.

(** ** Canonical responses *)

Lemma strip_cr_id l : strip_cr l = l <-> list.last l <> Some Byte.x0d.
Proof.
  unfold strip_cr. destruct (list.last l) as [b|] eqn:E; [|by split].
  destruct (bool_decide (b = Byte.x0d)) eqn:Eb.
  - apply bool_decide_eq_true in Eb as ->. split; [|done]. intros Hl. exfalso.
    apply last_Some in E as (k&->). rewrite removelast_last in Hl.
    apply (f_equal length) in Hl. rewrite length_app /= in Hl. lia.
  - apply bool_decide_eq_false in Eb. split; [|done]. intros _ [= ->]. done.
Qed.

(** The text of a canonical response, and the pieces it splits into. *)
Lemma fixture_response_bytes i p :
  as_bytes (fixture_response i p)
  = (as_bytes "request_id=" ++ as_bytes i) ++ NEWLINE :: (as_bytes "payload=" ++ as_bytes p)
    ++ NEWLINE :: [].
Proof.
  unfold fixture_response. rewrite !as_bytes_app !as_bytes_str_of -!app_assoc //.
Qed.

Lemma newline_app a b : NEWLINE ∉ a -> NEWLINE ∉ b -> NEWLINE ∉ a ++ b.
Proof. intros Ha Hb [?|?]%elem_of_app; done. Qed.

Lemma str_lines_two a b :
  NEWLINE ∉ a -> NEWLINE ∉ b -> str_lines (a ++ NEWLINE :: b ++ NEWLINE :: []) = [strip_cr a; strip_cr b].
Proof.
  intros Ha Hb. unfold str_lines. by rewrite split_on_app // split_on_app.
Qed.

Lemma strip_cr_newline l : NEWLINE ∉ l -> NEWLINE ∉ strip_cr l.
Proof.
  intros Hl. unfold strip_cr. destruct (list.last l) as [b|] eqn:E; [|done].
  destruct (bool_decide _); [|done]. apply last_Some in E as (k&->). rewrite removelast_last.
  intros Hin. apply Hl, elem_of_app. by left.
Qed.

Lemma str_lines_newline text k l : str_lines text !! k = Some l -> NEWLINE ∉ l.
Proof.
  unfold str_lines. pose proof (split_on_no_sep NEWLINE text) as Hp.
  pose proof (split_on_ne NEWLINE text) as Hne. rewrite (app_removelast_last [] Hne) in Hp.
  apply list.Forall_app in Hp as [Hp1 Hp2]. intros Hk.
  apply lookup_app_Some in Hk as [Hk|[_ Hk]].
  - apply (list_lookup_fmap_Some strip_cr) in Hk as (p&->&Hk). apply strip_cr_newline.
    rewrite list.Forall_forall in Hp1. by eapply Hp1, list_elem_of_lookup_2.
  - case_bool_decide; [done|]. apply list_lookup_singleton_Some in Hk as [_ <-].
    by inversion Hp2.
Qed.

Lemma parse_fixture_response_inl contents i p :
  parse_fixture_response contents = inl (i, p) -> contents = as_bytes (fixture_response i p).
Proof.
  unfold parse_fixture_response. destruct (from_utf8 contents); [|done].
  repeat (case_match; try done). intros [= <- <-].
  by match goal with Hn : negb _ = false |- _ => apply negb_false_iff, bool_decide_eq_true in Hn end.
Qed.

(** The fixture parser accepts exactly the canonical encodings: UTF-8 text that
    is the request line and the payload line of the returned values, with no
    embedded newline, no carriage return before a newline and nothing else. *)
Theorem parse_fixture_response_iff contents i p :
  parse_fixture_response contents = inl (i, p) <->
  contents = as_bytes (fixture_response i p) /\ (exists t, from_utf8 contents = inl t) /\
  NEWLINE ∉ as_bytes i /\ NEWLINE ∉ as_bytes p /\
  list.last (as_bytes "request_id=" ++ as_bytes i) <> Some Byte.x0d /\
  list.last (as_bytes "payload=" ++ as_bytes p) <> Some Byte.x0d.
Proof.
  unfold parse_fixture_response. split.
  - destruct (from_utf8 contents) as [t|] eqn:Eu; [|done].
    assert (Ht : as_bytes t = contents).
    { unfold from_utf8 in Eu. destruct (utf8_error _ _ _); [done|]. injection Eu as <-. apply as_bytes_str_of. }
    rewrite Ht. destruct (str_lines contents !! 0%nat) as [l0|] eqn:E0; [|done]. cbn [mbind option_bind].
    destruct (strip_prefix (as_bytes "request_id=") l0) as [ri|] eqn:Er; [|done].
    destruct (str_lines contents !! 1%nat) as [l1|] eqn:E1; [|done]. cbn [mbind option_bind].
    destruct (strip_prefix (as_bytes "payload=") l1) as [pl|] eqn:Ep; [|done].
    case_bool_decide; [done|]. destruct (negb _) eqn:En; [done|].
    apply negb_false_iff, bool_decide_eq_true in En. intros [= <- <-].
    apply strip_prefix_Some in Er as ->. apply strip_prefix_Some in Ep as ->.
    pose proof (str_lines_newline _ _ _ E0) as N0. pose proof (str_lines_newline _ _ _ E1) as N1.
    assert (Hl : str_lines contents = [strip_cr (as_bytes "request_id=" ++ ri);
                                       strip_cr (as_bytes "payload=" ++ pl)]).
    { rewrite -En fixture_response_bytes !as_bytes_str_of. by apply str_lines_two. }
    rewrite Hl in E0, E1. cbn in E0, E1. injection E0 as E0. injection E1 as E1.
    rewrite !as_bytes_str_of. split_and!; [done|by exists t| | | |].
    + intros Hin. apply N0, elem_of_app. by right.
    + intros Hin. apply N1, elem_of_app. by right.
    + by apply strip_cr_id.
    + by apply strip_cr_id.
  - intros (->&(t&Eu)&Ni&Np&Ci&Cp). rewrite Eu.
    assert (Ht : as_bytes t = as_bytes (fixture_response i p)).
    { unfold from_utf8 in Eu. destruct (utf8_error _ _ _); [done|]. injection Eu as <-. by rewrite as_bytes_str_of. }
    assert (Hl : str_lines (as_bytes t) = [as_bytes "request_id=" ++ as_bytes i; as_bytes "payload=" ++ as_bytes p]).
    { rewrite Ht fixture_response_bytes str_lines_two.
      - by rewrite !(proj2 (strip_cr_id _)).
      - apply newline_app; [|done]. apply contains_byte_false. by vm_compute.
      - apply newline_app; [|done]. apply contains_byte_false. by vm_compute. }
    rewrite Hl. cbn [lookup list_lookup mbind option_bind].
    rewrite !(proj2 (strip_prefix_Some _ _ _) eq_refl). rewrite bool_decide_false; [|by intros []].
    rewrite !str_of_as_bytes bool_decide_true //.
Qed.

(** ** The transfer *)

(** A data packet with block number [block]. *)
Definition data_packet (packet : bytes) (block : Z) : Prop :=
  4 <= zlen packet /\ packet_u16 packet 0 = 3 /\ packet_u16 packet 2 = block.

(** Consecutive blocks, all full but the last. *)
Fixpoint blocks (block : Z) (packets : list bytes) : Prop :=
  match packets with
  | [] => False
  | [p] => data_packet p block /\ zlen p < PACKET_BYTES
  | p :: rest => data_packet p block /\ PACKET_BYTES <= zlen p /\ blocks (block + 1) rest
  end.

Definition payload_of (packets : list bytes) : bytes := concat (map (drop 4) packets).

(** The packets of one source among the datagrams. *)
Definition from_source (server : SocketAddr) (datagrams : list (bytes * SocketAddr)) : list bytes :=
  map fst (List.filter (fun d => bool_decide (d.2 = server)) datagrams).

Lemma check_packet_inl packet block contents out :
  check_packet packet block contents = inl out ->
  data_packet packet block /\ out = contents ++ drop 4 packet /\ zlen out <= MAX_REQUEST_DATA_LENGTH.
Proof.
  unfold check_packet. destruct (zlen packet <? 4) eqn:E1; [done|].
  destruct (packet_u16 packet 0 =? 5); [done|]. destruct (_ || _) eqn:E2; [done|].
  destruct (MAX_REQUEST_DATA_LENGTH <? _) eqn:E3; [done|]. intros E. injection E as <-.
  apply Z.ltb_ge in E1, E3. apply orb_false_iff in E2 as [Ea Eb].
  apply negb_false_iff, Z.eqb_eq in Ea, Eb. by split_and!.
Qed.

Lemma send_to_inl s data to s' :
  send_to s data to = (inl tt, s') ->
  s'.(incoming) = s.(incoming) /\ s'.(outgoing) = s.(outgoing) ++ [(data, to)].
Proof. unfold send_to. destruct (send_results s) as [|[e|] rest]; intros [= <-]; done. Qed.

(** What a finished loop consumed, returned and sent. *)
Definition transferred (datagrams : list ((bytes * SocketAddr) + RawError)) (s s' : Socket)
    (contents out : bytes) (block : Z) (start : option SocketAddr) : Prop :=
  exists server consumed rest, datagrams = map inl consumed ++ rest /\ s'.(incoming) = rest /\
    (start = Some server \/ start = None /\ snd <$> head consumed = Some server) /\
    let packets := from_source server consumed in
    out = contents ++ payload_of packets /\ zlen out <= MAX_REQUEST_DATA_LENGTH /\
    blocks block packets /\
    s'.(outgoing) = s.(outgoing) ++ map (fun p => (acknowledgement p, server)) packets.

Lemma tftp_loop_sound datagrams s contents block start out s' :
  tftp_loop datagrams s contents block start = (inl out, s') ->
  transferred datagrams s s' contents out block start.
Proof.
  revert s contents block start. induction datagrams as [|[[packet source]|e] rest IH];
    intros s contents block start; cbn [tftp_loop]; [done| |done].
  destruct (bool_decide (is_Some start /\ start <> Some source)) eqn:Eskip.
  - apply bool_decide_eq_true in Eskip as [[server ->] Hne]. intros E.
    apply IH in E as (server'&consumed&rest'&->&Hin&Hs&Hout&Hlen&Hb&Hsent).
    destruct Hs as [[= <-]|[? _]]; [|done].
    exists server, ((packet, source) :: consumed), rest'. split_and!; [done|done|by left|..].
    all: unfold from_source in *; cbn [List.filter snd];
      rewrite bool_decide_false; [done|congruence].
  - apply bool_decide_eq_false in Eskip. destruct (check_packet _ _ _) as [contents'|] eqn:Ec; [|done].
    apply check_packet_inl in Ec as (Hd&->&Hl).
    destruct (send_to _ _ _) as [[[]|e] s1] eqn:Es; [|done]. apply send_to_inl in Es as [Hi Ho].
    assert (Hsrv : start = Some source \/ start = None).
    { destruct start as [a|]; [|by right]. left. destruct (decide (a = source)) as [->|Hne]; [done|].
      exfalso. apply Eskip. split; [by eexists|congruence]. }
    assert (Hfs : forall l, from_source source ((packet, source) :: l) = packet :: from_source source l).
    { intros l. unfold from_source. cbn [List.filter snd]. by rewrite bool_decide_true. }
    destruct (_ <? PACKET_BYTES) eqn:Elast.
    + intros [= <- <-]. apply Z.ltb_lt in Elast.
      exists source, [(packet, source)], rest. cbv zeta. rewrite Hfs.
      split_and!; [done|done|naive_solver|..];
        cbn [from_source List.filter map blocks payload_of concat]; rewrite ?app_nil_r //.
    + destruct (_ <=? U16_MAX); [|done]. intros E. apply Z.ltb_ge in Elast.
      apply IH in E as (server'&consumed&rest'&->&Hin&Hs&Hout&Hlen&Hb&Hsent).
      destruct Hs as [[= <-]|[? _]]; [|done].
      exists source, ((packet, source) :: consumed), rest'. cbv zeta. rewrite Hfs.
      split_and!; [done|done|naive_solver|..].
      * rewrite Hout -app_assoc //.
      * done.
      * cbn [blocks]. by destruct (from_source source consumed).
      * rewrite Hsent Ho -app_assoc //.
Qed.

(** A successful request is one complete transfer: the guest asked the peer's
    TFTP port for the file, took the packets of the first source that answered and
    of no other, which are consecutive data blocks from 1, all full but the last,
    acknowledged each once and in order, and returned the values whose canonical
    response the blocks spell, within the protocol limit. *)
Theorem tftp_request_sound peer filename bound s i p s' :
  tftp_request peer filename bound s = (inl (i, p), s') ->
  exists ip server consumed,
    parse_ip peer = Some ip /\
    s.(incoming) = map inl consumed ++ s'.(incoming) /\ snd <$> head consumed = Some server /\
    let packets := from_source server consumed in
    blocks 1 packets /\ payload_of packets = as_bytes (fixture_response i p) /\
    zlen (payload_of packets) <= MAX_REQUEST_DATA_LENGTH /\
    s'.(outgoing) = s.(outgoing) ++ (read_request filename, (ip, 69))
      :: map (fun q => (acknowledgement q, server)) packets.
Proof.
  unfold tftp_request. destruct (parse_ip peer) as [ip|]; [|done]. destruct bound; [done|].
  destruct (send_to _ _ _) as [[[]|e] s1] eqn:Es; [|done]. apply send_to_inl in Es as [Hi Ho].
  destruct (tftp_loop _ _ _ _ _) as [[contents|e] s2] eqn:El; [|done]. intros [= Hp <-].
  apply tftp_loop_sound in El as (server&consumed&rest&Hd&Hin&[?|[_ Hh]]&Hout&Hlen&Hb&Hsent); [done|].
  apply parse_fixture_response_inl in Hp. exists ip, server, consumed.
  rewrite -Hin Hi in Hd. rewrite Hsent Ho -app_assoc. cbn [app] in Hout. rewrite -Hout.
  by split_and!.
Qed.

(** ** The fixture's files ([run.rs], [fixture_entries]) *)

(** One file per planned request, named by its identifier; the first payload is
    corrupted when the scenario asks for it. *)
Definition fixture_entries (requests : list PlannedRequest) (corrupt_responses : bool)
    : list (string * bytes) :=
  imap (fun index request =>
          let payload := if corrupt_responses && Nat.eqb index 0
                         then request.(payload) +:+ "-corrupted" else request.(payload) in
          (request.(request_id), as_bytes (fixture_response request.(request_id) payload)))
       requests.

(** ** A serving peer *)

(** The data packets by which a server sends [content], from block [block]: full
    blocks of 512 bytes and a last shorter one.  The fuel is the length of the
    content. *)
Fixpoint packets_loop (fuel : nat) (block : Z) (content : bytes) : list bytes :=
  match fuel with
  | O => []
  | S fuel =>
      ([Byte.x00; Byte.x03] ++ be_bytes 2 block ++ take 512 content)
      :: (if zlen content <? 512 then [] else packets_loop fuel (block + 1) (drop 512 content))
  end.
Definition data_packets (content : bytes) : list bytes :=
  packets_loop (S (length content)) 1 content.

(** A socket on which [server] sends [content] and nothing fails. *)
Definition serving (server : SocketAddr) (content : bytes) : Socket :=
  MkSocket (map (fun p => inl (p, server)) (data_packets content)) [] [].

Lemma data_packet_made block data :
  0 <= block <= U16_MAX -> zlen data <= 512 ->
  let p := [Byte.x00; Byte.x03] ++ be_bytes 2 block ++ data in
  packet_u16 p 0 = 3 /\ packet_u16 p 2 = block /\ zlen p = 4 + zlen data /\ drop 4 p = data.
Proof.
  intros Hb Hd p. split_and!; [done| | |done].
  - change (packet_u16 p 2) with (be_Z (be_bytes 2 block)). rewrite be_Z_be_bytes.
    unfold U16_MAX in Hb. rewrite Z.mod_small //. change (256 ^ Z.of_nat 2) with 65536. lia.
  - assert (Hb2 : zlen (be_bytes 2 block) = 2) by (unfold zlen; by rewrite length_be_bytes).
    unfold p. rewrite !zlen_app Hb2. change (zlen [Byte.x00; Byte.x03]) with 2. lia.
Qed.

Lemma tftp_loop_complete server fuel content s contents block start :
  s.(send_results) = [] -> (length content < fuel)%nat ->
  start = None \/ start = Some server -> 1 <= block -> block + zlen content / 512 <= U16_MAX ->
  zlen contents + zlen content <= MAX_REQUEST_DATA_LENGTH ->
  exists s', tftp_loop (map (fun p => inl (p, server)) (packets_loop fuel block content)) s contents
               block start = (inl (contents ++ content), s').
Proof.
  revert content s contents block start. induction fuel as [|fuel IH];
    intros content s contents block start Hs Hfuel Hstart Hb Hblocks Hlen; [lia|].
  pose proof (zlen_nonneg content) as Hpos. assert (Hdiv : 0 <= zlen content / 512) by (apply Z.div_pos; lia).
  cbn [packets_loop map tftp_loop]. rewrite bool_decide_false; cycle 1.
  { destruct Hstart as [->| ->]; [by intros [[? ?] ?]|by intros [_ ?]]. }
  assert (Htake : zlen (take 512 content) = Z.min 512 (zlen content)).
  { unfold zlen. rewrite length_take. lia. }
  destruct (data_packet_made block (take 512 content)) as (H0&H2&Hz&Hdrop); [lia|lia|].
  set (packet := [Byte.x00; Byte.x03] ++ be_bytes 2 block ++ take 512 content) in *.
  unfold check_packet. rewrite H0 H2 Hdrop. change (3 =? 5) with false. change (3 =? 3) with true.
  rewrite Z.eqb_refl. cbn [negb orb].
  destruct (zlen packet <? 4) eqn:E4; [apply Z.ltb_lt in E4; lia|].
  destruct (MAX_REQUEST_DATA_LENGTH <? zlen (contents ++ take 512 content)) eqn:Em.
  { apply Z.ltb_lt in Em. rewrite zlen_app in Em. lia. }
  unfold send_to. cbn [send_results]. rewrite Hs.
  unfold PACKET_BYTES. destruct (zlen content <? 512) eqn:Elast.
  - apply Z.ltb_lt in Elast. destruct (zlen packet <? 516) eqn:Ep; [|apply Z.ltb_ge in Ep; lia].
    rewrite take_ge; [|unfold zlen in *; lia]. by eexists.
  - apply Z.ltb_ge in Elast. destruct (zlen packet <? 516) eqn:Ep; [apply Z.ltb_lt in Ep; lia|].
    assert (Hrest : zlen (drop 512 content) = zlen content - 512).
    { unfold zlen in *. rewrite length_drop. lia. }
    assert (Hd : zlen content / 512 = 1 + zlen (drop 512 content) / 512).
    { rewrite Hrest. replace (zlen content) with (1 * 512 + (zlen content - 512)) at 1 by lia.
      rewrite Z.div_add_l; lia. }
    pose proof (zlen_nonneg (drop 512 content)).
    assert (0 <= zlen (drop 512 content) / 512) by (apply Z.div_pos; lia).
    destruct (block + 1 <=? U16_MAX) eqn:Eb; [|apply Z.leb_gt in Eb; lia].
    match goal with |- context [tftp_loop _ ?s1 _ _ _] =>
      destruct (IH (drop 512 content) s1 (contents ++ take 512 content) (block + 1) (Some server))
        as [s' Hs'] end.
    + done.
    + rewrite length_drop. unfold zlen in *. lia.
    + by right.
    + lia.
    + lia.
    + rewrite zlen_app. lia.
    + exists s'. cbn [map] in Hs'. rewrite Hs'. by rewrite -app_assoc take_drop.
Qed.

(** The values whose canonical response parses. *)
Definition canonical (i p : string) : Prop :=
  (exists t, from_utf8 (as_bytes (fixture_response i p)) = inl t) /\
  NEWLINE ∉ as_bytes i /\ NEWLINE ∉ as_bytes p /\
  list.last (as_bytes "request_id=" ++ as_bytes i) <> Some Byte.x0d /\
  list.last (as_bytes "payload=" ++ as_bytes p) <> Some Byte.x0d /\
  str_len (fixture_response i p) <= MAX_REQUEST_DATA_LENGTH.

Lemma tftp_request_served peer ip filename server i p :
  parse_ip peer = Some ip -> canonical i p ->
  exists s', tftp_request peer filename None (serving server (as_bytes (fixture_response i p)))
             = (inl (i, p), s').
Proof.
  intros Hip (Hu&Hi&Hp&Hci&Hcp&Hlen). unfold tftp_request. rewrite Hip. unfold send_to.
  cbn [serving send_results incoming outgoing]. unfold str_len in Hlen.
  set (content := as_bytes (fixture_response i p)) in *. pose proof (zlen_nonneg content).
  unfold data_packets.
  match goal with |- context [tftp_loop _ ?s1 _ _ _] =>
    destruct (tftp_loop_complete server (S (length content)) content s1 [] 1 None) as [s' ->] end.
  - done.
  - lia.
  - by left.
  - lia.
  - unfold MAX_REQUEST_DATA_LENGTH in Hlen. unfold U16_MAX.
    assert (zlen content / 512 <= 64 * 1024 / 512) by (apply Z.div_le_mono; lia).
    change (64 * 1024 / 512) with 128 in *. lia.
  - by rewrite zlen_nil.
  - exists s'. cbn [app]. by rewrite (proj2 (parse_fixture_response_iff content i p)).
Qed.

(** A request to a working peer is answered: when the socket works and a
    server sends the canonical response of a pair of values in the protocol's
    blocks, however many they are, the request returns exactly that pair.  Every
    response the agent's own bound admits is covered, the last block being empty
    when the length is a multiple of 512. *)
Theorem tftp_request_complete peer ip filename server i p :
  parse_ip peer = Some ip -> canonical i p ->
  exists s', tftp_request peer filename None (serving server (as_bytes (fixture_response i p)))
             = (inl (i, p), s').
Proof. apply tftp_request_served. Qed.

(** A transfer whose response fits in one block. *)
Definition peer_addr : SocketAddr := (V4 10 0 2 2, 3000).
Definition sample_packet : bytes :=
  [Byte.x00; Byte.x03; Byte.x00; Byte.x01] ++ as_bytes (fixture_response "r1" "aa").
Definition sample_socket : Socket := MkSocket [inl (sample_packet, peer_addr)] [] [].

Lemma tftp_request_sound_witness : exists s' server consumed,
  tftp_request "10.0.2.2" "r1" None sample_socket = (inl ("r1", "aa"), s') /\
  blocks 1 (from_source server consumed) /\ snd <$> head consumed = Some server.
Proof.
  eexists.
  destruct (tftp_request_sound "10.0.2.2" "r1" None sample_socket "r1" "aa"
    (tftp_request "10.0.2.2" "r1" None sample_socket).2) as (ip&server&consumed&_&_&Hh&Hb&_);
    [by vm_compute|].
  exists server, consumed. split_and!; [by vm_compute|done|done].
Defined.

Lemma tftp_request_complete_witness : exists s',
  tftp_request "10.0.2.2" "r1" None (serving peer_addr (as_bytes (fixture_response "r1" "aa")))
  = (inl ("r1", "aa"), s').
Proof.
  apply (tftp_request_complete "10.0.2.2" (V4 10 0 2 2)); [by vm_compute|].
  split_and!; [eexists; vm_compute; reflexivity|..]; try (by vm_compute);
    apply contains_byte_false; by vm_compute.
Defined.
