(* ===== verification/Effects.v ===== *)
(** The effects of the stateful components: a state-and-error monad whose loops
    carry fuel, its Hoare triples, and termination under fuel.  The driver runs
    in it over a controller and a machine, the guest agent and the process
    runtime over their state and an operating system. *)

From stdpp Require Import ssreflect.
From S2P Require Import Prelude.

(** ** The monad *)

(** A computation may exhaust its fuel ([None]), fail, or return a value; the
    state survives a failure, as the machine and the diagnostics do. *)
Definition M (S A : Type) : Type := S -> option (result A * S).

#[export] Instance M_ret S : MRet (M S) := fun A a s => Some (Ok a, s).
#[export] Instance M_bind S : MBind (M S) := fun A B f m s =>
  match m s with
  | Some (Ok a, s') => f a s'
  | Some (Err e, s') => Some (Err e, s')
  | None => None
  end.

Definition throw {S A} (e : io_error) : M S A := fun s => Some (Err e, s).
Definition gets {S A} (f : S -> A) : M S A := fun s => Some (Ok (f s), s).
Definition modify {S} (f : S -> S) : M S unit := fun s => Some (Ok tt, f s).
Definition out_of_fuel {S A} : M S A := fun _ => None.
Definition lift {S A} (r : result A) : M S A := fun s => Some (r, s).

(** [if condition { return Err(error) }]. *)
Definition fail_if {S} (b : bool) (e : io_error) : M S unit :=
  if b then throw e else mret tt.

(** [let _ = m]: the failure becomes a value. *)
Definition catch {S A} (m : M S A) : M S (result A) := fun s =>
  match m s with Some (r, s') => Some (Ok r, s') | None => None end.

(** [m.map_err(f)?]. *)
Definition rethrow {S A} (f : io_error -> io_error) (m : M S A) : M S A := fun s =>
  match m s with Some (r, s') => Some (map_err f r, s') | None => None end.

(** A computation on a part of the state. *)
Definition zoom {S T A} (get : S -> T) (put : T -> S -> S) (m : M T A) : M S A := fun s =>
  match m (get s) with Some (r, t) => Some (r, put t s) | None => None end.

(** What a computation that returned a value went through. *)
Lemma M_bind_Ok {S A B} (m : M S A) (k : A -> M S B) s b s' :
  (m ≫= k) s = Some (Ok b, s') <-> exists a s1, m s = Some (Ok a, s1) /\ k a s1 = Some (Ok b, s').
Proof.
  unfold mbind, M_bind. split.
  - destruct (m s) as [[[a|e] s1]|]; [|done..]. intros Hk. by exists a, s1.
  - by intros (a&s1&->&Hk).
Qed.
Lemma lift_Ok {S A} (r : result A) (s : S) a s' : lift r s = Some (Ok a, s') <-> r = Ok a /\ s' = s.
Proof. unfold lift. split; [by intros [= -> ->]|by intros [-> ->]]. Qed.
Lemma rethrow_Ok {S A} f (m : M S A) s a s' :
  rethrow f m s = Some (Ok a, s') <-> m s = Some (Ok a, s').
Proof. unfold rethrow. destruct (m s) as [[[a'|e] s1]|]; cbn; naive_solver. Qed.
Lemma zoom_Ok {S T A} get put (m : M T A) (s : S) a s' :
  zoom get put m s = Some (Ok a, s') <-> exists t, m (get s) = Some (Ok a, t) /\ s' = put t s.
Proof. unfold zoom. destruct (m (get s)) as [[r t]|]; naive_solver. Qed.

(** ** Triples: what holds after a value and after a failure *)

Definition triple {S A} (P : S -> Prop) (m : M S A) (Q : A -> S -> Prop)
    (E : io_error -> S -> Prop) : Prop :=
  forall s, P s ->
    match m s with
    | Some (Ok a, s') => Q a s'
    | Some (Err e, s') => E e s'
    | None => True
    end.

(** The common shape: an invariant that also survives failures. *)
Definition keeps {S A} (I : S -> Prop) (m : M S A) : Prop :=
  triple I m (fun _ => I) (fun _ => I).

Section triples.
Context {S : Type}.
Implicit Types (P I : S -> Prop).

Lemma triple_ret {A} P (a : A) Q E : (forall s, P s -> Q a s) -> triple P (mret a : M S A) Q E.
Proof. intros Hq s Hs. by apply Hq. Qed.

Lemma triple_throw {A} P e (Q : A -> S -> Prop) E :
  (forall s, P s -> E e s) -> triple P (throw e) Q E.
Proof. intros He s Hs. by apply He. Qed.

Lemma triple_gets {A} P (f : S -> A) Q E : (forall s, P s -> Q (f s) s) -> triple P (gets f) Q E.
Proof. intros Hq s Hs. by apply Hq. Qed.

Lemma triple_modify P (f : S -> S) Q E :
  (forall s, P s -> Q tt (f s)) -> triple P (modify f) Q E.
Proof. intros Hq s Hs. by apply Hq. Qed.

Lemma triple_fuel {A} P (Q : A -> S -> Prop) E : triple P out_of_fuel Q E.
Proof. done. Qed.

Lemma triple_lift {A} P (r : result A) (Q : A -> S -> Prop) (E : io_error -> S -> Prop) :
  (forall s, P s -> match r with Ok a => Q a s | Err e => E e s end) -> triple P (lift r) Q E.
Proof. intros Hq s Hs. specialize (Hq s Hs). by destruct r. Qed.

Lemma triple_bind {A B} P (m : M S A) (k : A -> M S B) R Q E :
  triple P m R E -> (forall a, triple (R a) (k a) Q E) -> triple P (m ≫= k) Q E.
Proof.
  intros Hm Hk s Hs. specialize (Hm s Hs). unfold mbind, M_bind.
  destruct (m s) as [[[a|e] s']|]; [by apply Hk|done|done].
Qed.

Lemma triple_fail_if P (b : bool) e (Q : unit -> S -> Prop) (E : io_error -> S -> Prop) :
  (forall s, P s -> b = true -> E e s) -> (forall s, P s -> b = false -> Q tt s) ->
  triple P (fail_if b e) Q E.
Proof. intros He Hq s Hs. unfold fail_if. destruct b; [by apply He|by apply Hq]. Qed.

Lemma triple_if {A} P (b : bool) (m1 m2 : M S A) Q E :
  (b = true -> triple P m1 Q E) -> (b = false -> triple P m2 Q E) ->
  triple P (if b then m1 else m2) Q E.
Proof. destruct b; auto. Qed.

Lemma triple_consequence {A} P P' (m : M S A) (Q Q' : A -> S -> Prop) (E E' : io_error -> S -> Prop) :
  triple P m Q E -> (forall s, P' s -> P s) -> (forall a s, Q a s -> Q' a s) ->
  (forall e s, E e s -> E' e s) -> triple P' m Q' E'.
Proof.
  intros Hm Hp Hq He s Hs. specialize (Hm s (Hp s Hs)).
  destruct (m s) as [[[a|e] s']|]; auto.
Qed.

(** A fact that does not mention the state may be assumed. *)
Lemma triple_pure {A} P (φ : Prop) (m : M S A) Q E :
  (φ -> triple P m Q E) -> triple (fun s => P s /\ φ) m Q E.
Proof. intros Hm s [Hs Hφ]. by apply (Hm Hφ). Qed.

(** A fact about the initial state may be assumed. *)
Lemma triple_at {A} P (m : M S A) Q E :
  (forall s0, P s0 -> triple (fun s => s = s0) m Q E) -> triple P m Q E.
Proof. intros Hm s Hs. by apply (Hm s Hs). Qed.

(** ** Termination under fuel *)

(** [m] returns from every state whose measure is below the fuel, and never
    raises the measure. *)
Definition returns {A} (measure : S -> nat) (fuel : nat) (m : M S A) : Prop :=
  forall s, (measure s < fuel)%nat ->
    exists r s', m s = Some (r, s') /\ (measure s' <= measure s)%nat.

Lemma returns_bind {A B} measure fuel (m : M S A) (k : A -> M S B) :
  returns measure fuel m -> (forall a, returns measure fuel (k a)) ->
  returns measure fuel (m ≫= k).
Proof.
  intros Hm Hk s Hs. destruct (Hm s Hs) as (r&s1&E&Hle). unfold mbind, M_bind. rewrite E.
  destruct r as [a|e]; [|by exists (Err e), s1].
  destruct (Hk a s1) as (r&s2&E2&Hle2); [lia|]. exists r, s2. split; [done|lia].
Qed.

Lemma returns_ret {A} measure fuel (a : A) : returns measure fuel (mret a : M S A).
Proof. intros s Hs. by exists (Ok a), s. Qed.
Lemma returns_throw {A} measure fuel e : returns measure fuel (throw e : M S A).
Proof. intros s Hs. by exists (Err e), s. Qed.
Lemma returns_gets {A} measure fuel (f : S -> A) : returns measure fuel (gets f).
Proof. intros s Hs. by exists (Ok (f s)), s. Qed.
Lemma returns_lift {A} measure fuel (r : result A) : returns measure fuel (lift r : M S A).
Proof. intros s Hs. by exists r, s. Qed.
Lemma returns_modify measure fuel (f : S -> S) :
  (forall s, measure (f s) <= measure s)%nat -> returns measure fuel (modify f).
Proof. intros Hf s Hs. exists (Ok tt), (f s). split; [done|apply Hf]. Qed.
Lemma returns_fail_if measure fuel b e : returns measure fuel (fail_if b e : M S unit).
Proof. unfold fail_if. destruct b; [apply returns_throw|apply returns_ret]. Qed.
Lemma returns_if {A} measure fuel (b : bool) (m1 m2 : M S A) :
  returns measure fuel m1 -> returns measure fuel m2 ->
  returns measure fuel (if b then m1 else m2).
Proof. by destruct b. Qed.
End triples.

(** Walk a computation with the rules above. *)
Create HintDb returns discriminated.
#[export] Hint Resolve returns_ret returns_throw returns_gets returns_lift returns_fail_if
  returns_if : returns.
Ltac solve_returns :=
  repeat first
    [ solve [eauto with returns]
    | apply returns_bind; [|intros ?]
    | apply returns_if
    | case_match ].

(** ** Waiting on a clock

    A monotonic clock may return the same instant again, but fewer than [grain]
    more times: [stall] counts the readings it may still repeat.  A loop that reads
    it before each turn and ends at a deadline has a bounded number of turns. *)

(** Time passes, or stands still and the clock's patience does not grow. *)
Definition clock_later (c : Z) (stall : nat) (c' : Z) (stall' : nat) : Prop :=
  c < c' \/ c = c' /\ (stall' <= stall)%nat.
(** A reading that returned [t]. *)
Definition clock_read (c : Z) (stall : nat) (t c' : Z) (stall' : nat) : Prop :=
  c <= t <= c' /\ (c < c' \/ (stall' < stall)%nat).

(** The readings left before a deadline, and before a timeout that has not started. *)
Definition readings_left (grain : nat) (deadline c : Z) (stall : nat) : nat :=
  if deadline <=? c then 0%nat else (Z.to_nat (deadline - c) * grain + stall)%nat.
Definition readings (grain : nat) (timeout : Z) : nat := ((Z.to_nat timeout + 1) * grain)%nat.

Lemma clock_later_trans c1 n1 c2 n2 c3 n3 :
  clock_later c1 n1 c2 n2 -> clock_later c2 n2 c3 n3 -> clock_later c1 n1 c3 n3.
Proof. unfold clock_later. lia. Qed.
Lemma clock_read_later c n t c' n' : clock_read c n t c' n' -> clock_later c n c' n'.
Proof. unfold clock_read, clock_later. lia. Qed.

Section readings.
Context (grain : nat).

Lemma lexicographic (a b m n : nat) : (a < b -> m < grain -> a * grain + m < b * grain + n)%nat.
Proof. intros Hab Hm. pose proof (Nat.mul_le_mono_r (Datatypes.S a) b grain Hab). lia. Qed.

Lemma readings_left_past deadline c n : deadline <= c -> readings_left grain deadline c n = 0%nat.
Proof. intros Hd. unfold readings_left. by rewrite (proj2 (Z.leb_le _ _)). Qed.

Lemma readings_left_advanced deadline c n c' n' : (n' < grain)%nat -> c < c' -> c < deadline ->
  (readings_left grain deadline c' n' < readings_left grain deadline c n)%nat.
Proof.
  intros Hn Hc Hd. unfold readings_left. rewrite (proj2 (Z.leb_gt deadline c)) //.
  destruct (Z.leb_spec deadline c'); [apply (lexicographic 0 _ 0 _); lia|apply lexicographic; [lia|done]].
Qed.
Lemma readings_left_later deadline c n c' n' : (n' < grain)%nat -> clock_later c n c' n' ->
  (readings_left grain deadline c' n' <= readings_left grain deadline c n)%nat.
Proof.
  intros Hn [Hc|[<- Hle]].
  - destruct (Z.leb_spec deadline c) as [Hd|Hd].
    + rewrite !readings_left_past; lia.
    + by apply Nat.lt_le_incl, readings_left_advanced.
  - unfold readings_left. destruct (deadline <=? c); lia.
Qed.
Lemma readings_left_read deadline c n t c' n' : (n' < grain)%nat -> clock_read c n t c' n' -> t < deadline ->
  (readings_left grain deadline c' n' < readings_left grain deadline c n)%nat.
Proof.
  intros Hn [Ht Hs] Hd. destruct (decide (c < c')) as [Hlt|Hge].
  - apply readings_left_advanced; [done|done|lia].
  - unfold readings_left. replace c' with c by lia. rewrite (proj2 (Z.leb_gt deadline _)); lia.
Qed.
Lemma readings_left_timeout timeout c n t c' n' : (n' < grain)%nat -> clock_read c n t c' n' ->
  (readings_left grain (t + timeout) c' n' < readings grain timeout)%nat.
Proof.
  intros Hn [Ht _]. unfold readings_left, readings. destruct (_ <=? _); [apply Nat.mul_pos_pos; lia|].
  rewrite -(Nat.add_0_r ((_ + 1) * grain)). apply lexicographic; lia.
Qed.
End readings.
