(* ===== verification/Vm.v ===== *)
(** The machine interface the host driver runs against ([vm.rs], trait
    [RunningVm]) and the identity records a run reports.

    A machine is any type with the trait's operations; the driver is proved
    against the interface.  Four classes of laws say what a client may know of a
    machine: [VmLog], a ghost log of the commands it was sent; [VmTape], a ghost log
    of the frames it delivered, which [Taped] adds to any machine; [FiniteVm], a
    bound on the events it will still deliver, which the run deadline of [vm.rs]
    provides; and [FeedVm], the events a machine holds ready.  [ScriptVm] is an
    instance of each. *)

From stdpp Require Import ssreflect.
From S2P Require Import Prelude Types Std Protocol.

(** ** Identity records *)

Record FileIdentity := {
  file_path : string;
  file_sha256 : string;
}.

Record NicIdentity := {
  nic_model : string;
  nic_mac_address : string;
  nic_bus : string;
  nic_pci_address : string;
  nic_option_rom : bool;
}.

Record BackendIdentity := {
  backend_kind : string;
  backend_id : string;
  backend_restricted : bool;
}.

Record ReplayFilterIdentity := {
  filter_kind : string;
  filter_id : string;
  filter_backend_id : string;
  filter_queue : string;
}.

Record AddressingIdentity := {
  addressing_guest_cidr : string;
  addressing_gateway : string;
  addressing_peer : string;
}.

Record RouteIdentity := {
  route_destination : string;
  route_gateway : string;
  route_interface : string;
}.

Record FixtureIdentity := {
  fixture_transport : string;
  fixture_behavior : string;
  fixture_content_sha256 : string;
}.

Record FaultIdentity := {
  fault_mechanism : string;
  fault_direction : string;
  fault_peer_cidr : string;
  fault_rule : string;
  fault_tool : FileIdentity;
}.

Record NetworkIdentity := {
  net_nic : NicIdentity;
  net_backend : BackendIdentity;
  net_replay_filter : option ReplayFilterIdentity;
  net_addressing : AddressingIdentity;
  net_route : RouteIdentity;
  net_fixture : FixtureIdentity;
  net_fault : FaultIdentity;
}.

(** ** The machine interface *)

Class RunningVm (V : Type) := {
  vm_send : CommandFrame -> V -> result unit * V;
  vm_receive : V -> result EventFrame * V;
  vm_try_receive : V -> result (option EventFrame) * V;
  vm_finish_events : V -> result unit * V;
}.

(** The commands a machine accepted, in order. *)
Class VmLog (V : Type) `{RunningVm V} := {
  sent : V -> list CommandFrame;
  sent_send f v : sent (vm_send f v).2
    = match (vm_send f v).1 with Ok _ => sent v ++ [f] | Err _ => sent v end;
  sent_receive v : sent (vm_receive v).2 = sent v;
  sent_try_receive v : sent (vm_try_receive v).2 = sent v;
  sent_finish v : sent (vm_finish_events v).2 = sent v;
}.

(** The frames a machine delivered, in order. *)
Class VmTape (V : Type) `{RunningVm V} := {
  received : V -> list EventFrame;
  received_send f v : received (vm_send f v).2 = received v;
  received_receive v f v' : vm_receive v = (Ok f, v') -> received v' = received v ++ [f];
  received_try_receive v o v' :
    vm_try_receive v = (Ok o, v') -> received v' = received v ++ option_list o;
  received_finish v v' : vm_finish_events v = (Ok tt, v') -> received v' = received v;
}.

(** A machine that will deliver at most [remaining] more events, whatever it is
    sent. *)
Class FiniteVm (V : Type) `{RunningVm V} := {
  remaining : V -> nat;
  remaining_send f v : (remaining (vm_send f v).2 <= remaining v)%nat;
  remaining_receive v : (remaining (vm_receive v).2 <= remaining v)%nat;
  remaining_receive_Ok v f v' : vm_receive v = (Ok f, v') -> (remaining v' < remaining v)%nat;
  remaining_try_receive v : (remaining (vm_try_receive v).2 <= remaining v)%nat;
  remaining_try_receive_Ok v f v' :
    vm_try_receive v = (Ok (Some f), v') -> (remaining v' < remaining v)%nat;
  remaining_finish v : (remaining (vm_finish_events v).2 <= remaining v)%nat;
}.

(** A machine that has the events [fs] to deliver before the end of its channel
    and accepts [n] more commands. *)
Class FeedVm (V : Type) `{RunningVm V} := {
  feeds : nat -> list EventFrame -> V -> Prop;
  feeds_less n fs v : feeds (S n) fs v -> feeds n fs v;
  feeds_send n fs f v : feeds (S n) fs v -> exists v', vm_send f v = (Ok tt, v') /\ feeds n fs v';
  feeds_receive n f fs v :
    feeds n (f :: fs) v -> exists v', vm_receive v = (Ok f, v') /\ feeds n fs v';
  feeds_finish n v : feeds n [] v -> exists v', vm_finish_events v = (Ok tt, v');
}.

(** ** Any machine, with a tape *)

Record Taped (V : Type) := MkTaped { on_tape : V; tape : list EventFrame }.
Arguments MkTaped {V}.
Arguments on_tape {V}.
Arguments tape {V}.

(** An operation, and the frames its result adds to the tape. *)
Definition taping {V A} (frames : A -> list EventFrame) (op : V -> result A * V) (t : Taped V)
    : result A * Taped V :=
  let '(r, v) := op t.(on_tape) in
  (r, MkTaped v (t.(tape) ++ match r with Ok a => frames a | Err _ => [] end)).

#[export] Instance taped_vm {V} `{RunningVm V} : RunningVm (Taped V) := {
  vm_send f := taping (fun _ => []) (vm_send f);
  vm_receive := taping (fun f => [f]) vm_receive;
  vm_try_receive := taping (fun o => option_list o) vm_try_receive;
  vm_finish_events := taping (fun _ => []) vm_finish_events;
}.

Lemma taping_Ok {V A} frames (op : V -> result A * V) t a t' :
  taping frames op t = (Ok a, t') -> t'.(tape) = t.(tape) ++ frames a.
Proof. unfold taping. destruct (op _) as [r v]. by intros [= -> <-]. Qed.
Lemma taping_on {V A} frames (op : V -> result A * V) t :
  (taping frames op t).1 = (op t.(on_tape)).1 /\
  (taping frames op t).2.(on_tape) = (op t.(on_tape)).2.
Proof. unfold taping. by destruct (op _). Qed.

#[export] Program Instance taped_tape {V} `{RunningVm V} : VmTape (Taped V) := {| received := tape |}.
Next Obligation.
  intros V HV f t. cbn. unfold taping. destruct (vm_send _ _) as [[[]|e] v]; apply app_nil_r.
Qed.
Next Obligation. intros V HV t f t' E. cbn in E. by apply taping_Ok in E. Qed.
Next Obligation. intros V HV t o t' E. cbn in E. by apply taping_Ok in E. Qed.
Next Obligation. intros V HV t t' E. cbn in E. apply taping_Ok in E. by rewrite app_nil_r in E. Qed.

#[export] Program Instance taped_log {V} `{VmLog V} : VmLog (Taped V) :=
  {| sent t := sent t.(on_tape) |}.
Next Obligation.
  intros V HV HL f t. cbn. destruct (taping_on (fun _ : unit => []) (vm_send f) t) as [-> ->]. apply sent_send.
Qed.
Next Obligation. intros V HV HL t. cbn. rewrite (proj2 (taping_on _ _ t)). apply sent_receive. Qed.
Next Obligation. intros V HV HL t. cbn. rewrite (proj2 (taping_on _ _ t)). apply sent_try_receive. Qed.
Next Obligation. intros V HV HL t. cbn. rewrite (proj2 (taping_on _ _ t)). apply sent_finish. Qed.

(** ** A scripted machine *)

(** The events it will deliver; [None] stands for a moment at which no event is
    queued, which [try_receive] reports and [receive] waits through. *)
Record ScriptVm := MkScript {
  script_events : list (option EventFrame);
  script_sent : list CommandFrame;
}.

Definition channel_closed : io_error := IoError UnexpectedEof "the guest channel is closed".

Fixpoint next_event (l : list (option EventFrame)) : option (EventFrame * list (option EventFrame)) :=
  match l with
  | [] => None
  | None :: l => next_event l
  | Some f :: l => Some (f, l)
  end.

#[export] Instance script_vm : RunningVm ScriptVm := {
  vm_send f v := (Ok tt, MkScript v.(script_events) (v.(script_sent) ++ [f]));
  vm_receive v :=
    match next_event v.(script_events) with
    | Some (f, l) => (Ok f, MkScript l v.(script_sent))
    | None => (Err channel_closed, MkScript [] v.(script_sent))
    end;
  vm_try_receive v :=
    match v.(script_events) with
    | [] => (Err channel_closed, v)
    | o :: l => (Ok o, MkScript l v.(script_sent))
    end;
  vm_finish_events v :=
    match next_event v.(script_events) with
    | Some _ => (Err (invalid_data "surplus event"), v)
    | None => (Ok tt, v)
    end;
}.

#[export] Program Instance script_log : VmLog ScriptVm := {| sent := script_sent |}.
Next Obligation. done. Qed.
Next Obligation. intros v. cbn. by destruct (next_event _) as [[? ?]|]. Qed.
Next Obligation. intros v. cbn. by destruct (script_events v). Qed.
Next Obligation. intros v. cbn. by destruct (next_event _). Qed.

Lemma next_event_length l f l' :
  next_event l = Some (f, l') -> (length l' < length l)%nat.
Proof.
  induction l as [|[g|] l IH]; cbn; intros; simplify_eq/=; [lia|]. specialize (IH H). lia.
Qed.

#[export] Program Instance script_finite : FiniteVm ScriptVm :=
  {| remaining v := length v.(script_events) |}.
Next Obligation. done. Qed.
Next Obligation.
  intros v. cbn. destruct (next_event _) as [[f l]|] eqn:E; cbn; [|lia].
  apply next_event_length in E. lia.
Qed.
Next Obligation.
  intros v f v' E. cbn in E. destruct (next_event _) as [[g l]|] eqn:En; simplify_eq/=.
  by apply next_event_length in En.
Qed.
Next Obligation. intros v. cbn. destruct (script_events v) eqn:E; cbn; rewrite ?E; cbn; lia. Qed.
Next Obligation.
  intros v f v' E. cbn in E. destruct (script_events v) as [|? ?] eqn:Es; [done|]. simplify_eq.
  rewrite Es. cbn. lia.
Qed.
Next Obligation. intros v. cbn. by destruct (next_event _). Qed.

(** The script that delivers exactly [frames]. *)
Definition script_of (frames : list EventFrame) : ScriptVm := MkScript (map Some frames) [].

#[export] Program Instance script_feed : FeedVm ScriptVm :=
  {| feeds _ fs v := v.(script_events) = map Some fs |}.
Next Obligation. done. Qed.
Next Obligation. intros ? fs f v Hv. by eexists. Qed.
Next Obligation. intros ? f fs v Hv. cbn in *. rewrite Hv. by eexists. Qed.
Next Obligation. intros ? v Hv. cbn in *. rewrite Hv. by eexists. Qed.
