(* ===== verification/Driver.v ===== *)
(** The host driver for the network scenario ([run.rs], [Controller] and
    [drive_scenario_inner]), the failure diagnostics it feeds, the report and
    event comparisons, and the passive replay of a recorded event stream.

    The driver is a computation of the monad of [Vm] over a controller state
    whose machine is any [RunningVm].  A value that [run.rs] can only reach by a
    panic (an index out of range) is [None], as is exhausted fuel.  The
    [{:#?}] rendering of a normalized event is the parameter [pretty_debug]: it
    occurs in two diagnostics only. *)

From stdpp Require Import ssreflect.
From S2P Require Import Prelude Types Std Protocol Assertions Checker Effects Vm.

(** ** Failure diagnostics *)

Record FaultTransitionDiagnostic := {
  transition_event_id : Z;
  transition : string;
  transition_peer_cidr : option string;
  transition_rule : option string;
}.

Record TrafficDiagnostics := {
  requests_attempted : Z;
  requests_succeeded : Z;
  requests_unavailable : Z;
}.

Record PacketCounterDiagnostics := {
  counters_available : bool;
  counters_incoming : option Z;
  counters_outgoing : option Z;
  counters_reason : string;
}.

Record FailureDiagnostics := MkDiagnostics {
  operation : string;
  stage : string;
  backend_mode : string;
  fixture_mode : string;
  network_status : string;
  network : option NetworkIdentity;
  fault_transitions : list FaultTransitionDiagnostic;
  traffic : TrafficDiagnostics;
  packet_counters : PacketCounterDiagnostics;
}.

Definition FailureDiagnostics_new (op : string) : FailureDiagnostics :=
  {| operation := op;
     stage := "launch";
     backend_mode := op;
     fixture_mode :=
       if bool_decide (op = "record") then "controlled-content" else "empty-passive";
     network_status := "not-yet-validated";
     network := None;
     fault_transitions := [];
     traffic := {| requests_attempted := 0; requests_succeeded := 0; requests_unavailable := 0 |};
     packet_counters := {| counters_available := false; counters_incoming := None;
       counters_outgoing := None;
       counters_reason :=
         "the selected QEMU user backend and replay filter expose no packet-counter API" |} |}.

Definition set_network (d : FailureDiagnostics) (n : NetworkIdentity) : FailureDiagnostics :=
  MkDiagnostics d.(operation) d.(stage) d.(backend_mode) d.(fixture_mode)
    "validated-local-profile" (Some n) d.(fault_transitions) d.(traffic) d.(packet_counters).

Definition with_transition (d : FailureDiagnostics) (t : FaultTransitionDiagnostic)
    : FailureDiagnostics :=
  MkDiagnostics d.(operation) d.(stage) d.(backend_mode) d.(fixture_mode) d.(network_status)
    d.(network) (d.(fault_transitions) ++ [t]) d.(traffic) d.(packet_counters).

Definition with_traffic (d : FailureDiagnostics) (t : TrafficDiagnostics) : FailureDiagnostics :=
  MkDiagnostics d.(operation) d.(stage) d.(backend_mode) d.(fixture_mode) d.(network_status)
    d.(network) d.(fault_transitions) t d.(packet_counters).

Definition observe (d : FailureDiagnostics) (e : NormalizedEvent) : FailureDiagnostics :=
  let fault := net_fault <$> d.(network) in
  let t := d.(traffic) in
  match e.(norm_event) with
  | OutageActivated _ _ =>
      with_transition d {| transition_event_id := e.(norm_event_id); transition := "activated";
        transition_peer_cidr := fault_peer_cidr <$> fault;
        transition_rule := fault_rule <$> fault |}
  | NetworkRestored _ =>
      with_transition d {| transition_event_id := e.(norm_event_id); transition := "restored";
        transition_peer_cidr := fault_peer_cidr <$> fault; transition_rule := None |}
  | RequestAttempted _ _ _ =>
      with_traffic d {| requests_attempted := add64 t.(requests_attempted) 1;
        requests_succeeded := t.(requests_succeeded);
        requests_unavailable := t.(requests_unavailable) |}
  | RequestSucceeded _ _ _ _ _ =>
      with_traffic d {| requests_attempted := t.(requests_attempted);
        requests_succeeded := add64 t.(requests_succeeded) 1;
        requests_unavailable := t.(requests_unavailable) |}
  | RequestUnavailable _ _ _ _ =>
      with_traffic d {| requests_attempted := t.(requests_attempted);
        requests_succeeded := t.(requests_succeeded);
        requests_unavailable := add64 t.(requests_unavailable) 1 |}
  | _ => d
  end.

(** ** Report shape *)

(** The loop of [valid_profile] over [seen]. *)
Fixpoint profile_loop (profile : list AssertionName) (seen : list bool)
    (assertions : list AssertionResult) : option (list bool) :=
  match assertions with
  | [] => Some seen
  | a :: rest =>
      match position (fun n => bool_decide (n = a.(name))) profile with
      | None => None
      | Some index =>
          if bool_decide (seen !! index = Some true) then None
          else profile_loop profile (<[index := true]> seen) rest
      end
  end.

Definition valid_profile (report : AssertionReport) (profile : list AssertionName) : bool :=
  match profile_loop profile (replicate (length profile) false) report.(assertions) with
  | None => false
  | Some seen =>
      forallb id seen
      && eqb report.(passed) (forallb assertion_passed report.(assertions))
  end.

Definition valid_report (report : AssertionReport) : bool := valid_profile report NETWORK_PROFILE.

(** ** Responses *)

Definition response_matches (c : Command) (event_index : Z) (e : Event) : bool :=
  match c, event_index with
  | ConfigureNetwork interface guest_cidr gateway, 0 =>
      match e with
      | NetworkConfigured i g w =>
          bool_decide (i = interface) && bool_decide (g = guest_cidr) && bool_decide (w = gateway)
      | _ => false
      end
  | ActivateOutage peer_cidr, 0 =>
      match e with
      | OutageActivated p rule =>
          bool_decide (p = peer_cidr) && bool_decide (rule = "prohibit " +:+ peer_cidr)
      | _ => false
      end
  | RestoreNetwork peer_cidr, 0 =>
      match e with NetworkRestored p => bool_decide (p = peer_cidr) | _ => false end
  | Request request_id payload phase, 0 =>
      match e with
      | RequestAttempted i p ph =>
          bool_decide (i = request_id) && bool_decide (p = payload) && bool_decide (ph = phase)
      | _ => false
      end
  | Request request_id payload phase, 1 =>
      match e with
      | RequestSucceeded i p _ _ ph =>
          bool_decide (i = request_id) && bool_decide (p = payload) && bool_decide (ph = phase)
      | RequestUnavailable i ph _ _ => bool_decide (i = request_id) && bool_decide (ph = phase)
      | _ => false
      end
  | Check _ _, 0 => match e with AssertionsEvaluated report => valid_report report | _ => false end
  | Shutdown, 0 => match e with AgentStopped => true | _ => false end
  | _, _ => false
  end.

Definition validate_response (c : Command) (event_index : Z) (frame : EventFrame) : result unit :=
  if response_matches c event_index frame.(event) then Ok tt
  else Err (invalid_data ("event " +:+ fmt_dec (event_index + 1) +:+ " ("
         +:+ Event_describe frame.(event) +:+ ") does not match the " +:+ Command_kind c
         +:+ " command")).

(** ** The controller *)

Record Controller (V : Type) := MkController {
  c_vm : V;
  c_diagnostics : FailureDiagnostics;
  c_next_command_id : Z;
  c_next_event_id : Z;
  c_send_commands : bool;
  c_expected_events : option (list NormalizedEvent);
  c_raw_events : list EventFrame;
  c_events : list NormalizedEvent;
}.
Arguments MkController {V}.
Arguments c_vm {V}.
Arguments c_diagnostics {V}.
Arguments c_next_command_id {V}.
Arguments c_next_event_id {V}.
Arguments c_send_commands {V}.
Arguments c_expected_events {V}.
Arguments c_raw_events {V}.
Arguments c_events {V}.

(** The rendering of a normalized event by its derived [Debug]. *)
Class PrettyDebug := { pretty_debug : NormalizedEvent -> string }.

Section driver.
Context {V : Type} `{RunningVm V} `{PrettyDebug}.
Notation C := (Controller V).

Definition Controller_new (vm : V) (send_commands : bool)
    (expected_events : option (list NormalizedEvent)) (d : FailureDiagnostics) : C :=
  MkController vm d 1 1 send_commands expected_events [] [].

(** A machine operation, on the controller's machine. *)
Definition on_vm {A} (op : V -> result A * V) : M C A := fun c =>
  let '(r, vm) := op c.(c_vm) in
  Some (r, MkController vm c.(c_diagnostics) c.(c_next_command_id) c.(c_next_event_id)
             c.(c_send_commands) c.(c_expected_events) c.(c_raw_events) c.(c_events)).

(** [self.next_command_id += 1]. *)
Definition bump_command (c : C) : C :=
  MkController c.(c_vm) c.(c_diagnostics) (add64 c.(c_next_command_id) 1) c.(c_next_event_id)
    c.(c_send_commands) c.(c_expected_events) c.(c_raw_events) c.(c_events).
(** [self.next_event_id += 1]. *)
Definition bump_event (c : C) : C :=
  MkController c.(c_vm) c.(c_diagnostics) c.(c_next_command_id) (add64 c.(c_next_event_id) 1)
    c.(c_send_commands) c.(c_expected_events) c.(c_raw_events) c.(c_events).
Definition observe_event (e : NormalizedEvent) (c : C) : C :=
  MkController c.(c_vm) (observe c.(c_diagnostics) e) c.(c_next_command_id) c.(c_next_event_id)
    c.(c_send_commands) c.(c_expected_events) c.(c_raw_events) c.(c_events).
(** [self.raw_events.push(..); self.events.push(..)]. *)
Definition push_event (f : EventFrame) (c : C) : C :=
  MkController c.(c_vm) c.(c_diagnostics) c.(c_next_command_id) c.(c_next_event_id)
    c.(c_send_commands) c.(c_expected_events) (c.(c_raw_events) ++ [f])
    (c.(c_events) ++ [normalize f]).

(** The comparison with the recording, on replay. *)
Definition check_expected (c : C) (normalized : NormalizedEvent) : result unit :=
  match c.(c_expected_events) with
  | None => Ok tt
  | Some expected =>
      let index := zlen c.(c_events) in
      match expected !! length c.(c_events) with
      | Some e =>
          if bool_decide (e = normalized) then Ok tt
          else Err (invalid_data ("normalized event divergence at index " +:+ fmt_dec index
                 +:+ str_of [NEWLINE] +:+ "expected: " +:+ pretty_debug e +:+ str_of [NEWLINE] +:+ "actual: "
                 +:+ pretty_debug normalized))
      | None =>
          Err (invalid_data ("replay produced surplus normalized event at index "
            +:+ fmt_dec index +:+ str_of [NEWLINE] +:+ "actual: " +:+ pretty_debug normalized))
      end
  end.

Definition receive_failed (c : Command) (event_index expected_events : Z) (e : io_error)
    : io_error :=
  IoError e.(error_kind) ("failed receiving event " +:+ fmt_dec (event_index + 1) +:+ "/"
    +:+ fmt_dec expected_events +:+ " for the " +:+ Command_kind c +:+ " command: "
    +:+ e.(error_message)).

(** One iteration of the receive loop of [issue]. *)
Definition receive_event (c : Command) (command_id expected_events event_index : Z)
    : M C EventFrame :=
  event ← on_vm (fun v => let '(r, v) := vm_receive v in
                          (map_err (receive_failed c event_index expected_events) r, v));
  next_event_id ← gets c_next_event_id;
  _ ← fail_if (negb (event.(protocol_version) =? PROTOCOL_VERSION)
               || negb (event.(Types.command_id) =? command_id)
               || negb (event.(event_id) =? next_event_id))
        (invalid_data ("unexpected event envelope: version="
          +:+ fmt_dec event.(protocol_version) +:+ ", event_id=" +:+ fmt_dec event.(event_id)
          +:+ ", command_id=" +:+ fmt_dec event.(Types.command_id)));
  _ ← modify bump_event;
  _ ← lift (validate_response c event_index event);
  _ ← modify (observe_event (normalize event));
  checked ← gets (fun s => check_expected s (normalize event));
  _ ← lift checked;
  _ ← modify (push_event event);
  mret event.

Fixpoint receive_events (c : Command) (command_id expected_events event_index : Z) (n : nat)
    : M C (list EventFrame) :=
  match n with
  | O => mret []
  | S n =>
      event ← receive_event c command_id expected_events event_index;
      rest ← receive_events c command_id expected_events (event_index + 1) n;
      mret (event :: rest)
  end.

Definition response_count (c : Command) : nat :=
  match c with Request _ _ _ => 2 | _ => 1 end.

Definition issue (c : Command) : M C (list EventFrame) :=
  command_id ← gets c_next_command_id;
  _ ← modify bump_command;
  send_commands ← gets c_send_commands;
  _ ← (if send_commands : bool then
         on_vm (vm_send {| cmd_protocol_version := PROTOCOL_VERSION;
                           cmd_command_id := command_id; command := c |})
       else mret tt);
  receive_events c command_id (Z.of_nat (response_count c)) 0 (response_count c).

(** ** Driving a network scenario *)

Definition configure_command (scenario : Scenario) : Command :=
  ConfigureNetwork "eth0" "10.0.2.15/24" scenario.(fixture_peer).
Definition activate_command (scenario : Scenario) : Command :=
  ActivateOutage (scenario.(fixture_peer) +:+ "/32").
Definition restore_command (scenario : Scenario) : Command :=
  RestoreNetwork (scenario.(fixture_peer) +:+ "/32").
Definition request_command (choices : ChoicePlan) (index : Z) (request : PlannedRequest) : Command :=
  Request request.(request_id) request.(payload)
    (if index <? choices.(plan_activation) then PreOutage
     else if index <? choices.(plan_restoration) then Outage else Recovery).

(** [for (index, request) in choices.requests.iter().enumerate()]. *)
Fixpoint requests_loop (scenario : Scenario) (choices : ChoicePlan) (index : Z)
    (requests : list PlannedRequest) : M C unit :=
  match requests with
  | [] => mret tt
  | request :: rest =>
      _ ← (if index =? choices.(plan_activation) then issue (activate_command scenario)
           else mret []);
      _ ← (if index =? choices.(plan_restoration) then issue (restore_command scenario)
           else mret []);
      _ ← issue (request_command choices index request);
      requests_loop scenario choices (index + 1) rest
  end.

Definition drive_body (scenario : Scenario) (choices : ChoicePlan)
    : M C (list NormalizedEvent * AssertionReport) :=
  _ ← issue (configure_command scenario);
  _ ← requests_loop scenario choices 0 choices.(plan_requests);
  raw_events ← gets c_raw_events;
  let host_assertions :=
    evaluate raw_events scenario.(outage_event_bound) scenario.(liveness_event_bound) in
  check_events ← issue (Check scenario.(outage_event_bound) scenario.(liveness_event_bound));
  guest_assertions ←
    match check_events with
    | frame :: _ =>
        match frame.(event) with
        | AssertionsEvaluated report => mret report
        | e => throw (invalid_data ("expected an assertions-evaluated report, received "
                        +:+ Event_describe e))
        end
    | [] => out_of_fuel
    end;
  _ ← fail_if (negb (bool_decide (guest_assertions = host_assertions)))
        (invalid_data "guest assertion report does not match host evaluation");
  _ ← issue Shutdown;
  _ ← on_vm vm_finish_events;
  c ← gets id;
  _ ← match c.(c_expected_events) with
      | Some expected =>
          fail_if (negb (zlen c.(c_events) =? zlen expected))
            (invalid_data ("replay ended after " +:+ fmt_dec (zlen c.(c_events))
               +:+ " normalized events; expected " +:+ fmt_dec (zlen expected)))
      | None => mret tt
      end;
  mret (c.(c_events), host_assertions).

Definition drive_scenario_inner (scenario : Scenario) (choices : ChoicePlan) (vm : V)
    (send_commands : bool) (expected_events : option (list NormalizedEvent))
    (d : FailureDiagnostics) : option (result (list NormalizedEvent * AssertionReport) * C) :=
  drive_body scenario choices (Controller_new vm send_commands expected_events d).

Definition drive_scenario scenario choices vm d := drive_scenario_inner scenario choices vm true None d.
Definition drive_replay_scenario scenario choices expected_events vm d :=
  drive_scenario_inner scenario choices vm false (Some expected_events) d.
End driver.

(** ** Comparing and replaying recorded events *)

Definition events_diverge (index : Z) (e a : NormalizedEvent) : io_error :=
  invalid_data ("normalized event divergence at index " +:+ fmt_dec index +:+ ": expected "
    +:+ Event_describe e.(norm_event) +:+ " at event " +:+ fmt_dec e.(norm_event_id)
    +:+ ", found " +:+ Event_describe a.(norm_event) +:+ " at event "
    +:+ fmt_dec a.(norm_event_id)).

(** [for index in 0..expected.len().max(actual.len())]. *)
Fixpoint compare_events_from (index : Z) (expected actual : list NormalizedEvent) : result unit :=
  match expected, actual with
  | e :: expected, a :: actual =>
      if bool_decide (e = a) then compare_events_from (index + 1) expected actual
      else Err (events_diverge index e a)
  | e :: _, [] =>
      Err (invalid_data ("replay ended before normalized event index " +:+ fmt_dec index
        +:+ ": expected " +:+ Event_describe e.(norm_event) +:+ " at event "
        +:+ fmt_dec e.(norm_event_id)))
  | [], a :: _ =>
      Err (invalid_data ("replay produced surplus normalized event at index " +:+ fmt_dec index
        +:+ ": " +:+ Event_describe a.(norm_event) +:+ " at event "
        +:+ fmt_dec a.(norm_event_id)))
  | [], [] => Ok tt
  end.

Definition compare_events (expected actual : list NormalizedEvent) : result unit :=
  compare_events_from 0 expected actual.

Section replay.
Context {V : Type} `{RunningVm V}.

(** The replay keeps the machine and the diagnostics. *)
Definition replay_vm {A} (op : V -> result A * V) : M (V * FailureDiagnostics) A := fun '(v, d) =>
  let '(r, v) := op v in Some (r, (v, d)).

Fixpoint replay_loop (index : Z) (expected : list NormalizedEvent)
    : M (V * FailureDiagnostics) (list EventFrame) :=
  match expected with
  | [] => mret []
  | e :: rest =>
      frame ← replay_vm vm_receive;
      _ ← fail_if (negb (frame.(protocol_version) =? PROTOCOL_VERSION)
                   || negb (frame.(event_id) =? e.(norm_event_id)))
            (invalid_data ("unexpected event envelope at index " +:+ fmt_dec index
               +:+ ": version=" +:+ fmt_dec frame.(protocol_version) +:+ ", event_id="
               +:+ fmt_dec frame.(event_id) +:+ " (expected event "
               +:+ fmt_dec e.(norm_event_id) +:+ ")"));
      _ ← fail_if (negb (bool_decide (normalize frame = e)))
            (events_diverge index e (normalize frame));
      _ ← modify (fun '(v, d) => (v, observe d (normalize frame)));
      frames ← replay_loop (index + 1) rest;
      mret (frame :: frames)
  end.

Definition replay_workload_events (expected : list NormalizedEvent)
    : M (V * FailureDiagnostics) (list EventFrame) :=
  match list.last expected with
  | None => throw (invalid_data "the recording has no normalized events")
  | Some e =>
      _ ← fail_if (negb (bool_decide (e.(norm_event) = AgentStopped)))
            (invalid_data "the recorded event stream does not end with agent-stopped");
      frames ← replay_loop 0 expected;
      _ ← replay_vm vm_finish_events;
      mret frames
  end.
End replay.

(** A replay that succeeds read exactly the expected events and sent nothing. *)
Lemma replay_loop_sound {V} `{VmLog V} index es (s s' : V * FailureDiagnostics) frames :
  replay_loop index es s = Some (Ok frames, s') ->
  map normalize frames = es /\ sent s'.1 = sent s.1.
Proof.
  revert index s frames. induction es as [|e es IH]; intros index [v d] frames; cbn [replay_loop].
  { by intros [= <- <-]. }
  cbv [mbind M_bind replay_vm]. pose proof (sent_receive v) as Hs.
  destruct (vm_receive v) as [[f|?] v1]; [|done]. unfold fail_if at 1.
  destruct (negb _ || negb _); [done|]. unfold fail_if. cbv [mret M_ret].
  destruct (negb _) eqn:Hn; [done|]. apply negb_false_iff, bool_decide_eq_true in Hn.
  cbv [modify]. destruct (replay_loop _ es _) as [[[fs|?] s1]|] eqn:E; [|done..].
  intros [= <- <-]. apply IH in E as [<- E]. cbn [map fst]. rewrite Hn. split; [done|].
  by rewrite E.
Qed.

Lemma replay_workload_events_sound {V} `{VmLog V} es (s s' : V * FailureDiagnostics) frames :
  replay_workload_events es s = Some (Ok frames, s') ->
  map normalize frames = es /\ sent s'.1 = sent s.1.
Proof.
  unfold replay_workload_events. destruct (list.last es) as [e|]; [|done].
  cbv [mbind M_bind]. unfold fail_if. destruct (negb _); [done|]. cbv [mret M_ret].
  destruct (replay_loop 0 es s) as [[[fs|?] [v1 d1]]|] eqn:E; [|done..].
  apply replay_loop_sound in E as [Hn Hs]. unfold replay_vm.
  pose proof (sent_finish v1) as Hf. destruct (vm_finish_events v1) as [[[]|?] v2]; [|done].
  intros [= <- <-]. cbn [fst snd] in *. split; [done|congruence].
Qed.

(** The machine that delivers the recorded frames is replayed in full. *)
Lemma script_replay_loop index frames l d :
  Forall (fun f => f.(protocol_version) = PROTOCOL_VERSION) frames ->
  exists d', replay_loop index (map normalize frames) (MkScript (map Some frames) l, d)
    = Some (Ok frames, (MkScript [] l, d')).
Proof.
  intros Hv. revert index d. induction Hv as [|f frames Hf _ IH]; intros index d; [by exists d|].
  cbn [map replay_loop]. cbv [mbind M_bind replay_vm]. cbn [vm_receive script_vm script_events next_event].
  unfold fail_if at 1. cbn [normalize norm_event_id]. rewrite Hf !Z.eqb_refl. cbn [negb orb].
  cbv [mret M_ret]. unfold fail_if. rewrite bool_decide_true //. cbn [negb]. cbv [mret M_ret modify].
  destruct (IH (index + 1) (observe d (normalize f))) as [d' E].
  exists d'. cbn [script_sent]. change (norm_event_id _) with (event_id f). by rewrite E.
Qed.

Lemma script_replays_workload frames f d :
  Forall (fun f => f.(protocol_version) = PROTOCOL_VERSION) frames ->
  list.last frames = Some f -> f.(event) = AgentStopped ->
  exists s, replay_workload_events (map normalize frames) (script_of frames, d) = Some (Ok frames, s).
Proof.
  intros Hv Hl Hf. unfold replay_workload_events.
  assert (list.last (map normalize frames) = Some (normalize f)) as ->.
  { change (map normalize frames) with (normalize <$> frames). by rewrite fmap_last Hl. }
  cbv [mbind M_bind]. unfold fail_if. cbn [normalize norm_event]. rewrite Hf bool_decide_true //.
  cbn [negb]. cbv [mret M_ret].
  destruct (script_replay_loop 0 frames [] d Hv) as [d' E]. unfold script_of. rewrite E.
  by eexists.
Qed.

(** ** What a finished drive has recorded *)

(** The [k]-th identifier a counter that starts at 1 assigns. *)
Definition nth_id (k : nat) : Z := (1 + Z.of_nat k) mod 2 ^ 64.

Lemma nth_id_S k : add64 (nth_id k) 1 = nth_id (S k).
Proof.
  unfold add64, nth_id. rewrite Zplus_mod_idemp_l. f_equal. lia.
Qed.

Lemma nth_id_small k : Z.of_nat k < U64_MAX -> nth_id k = 1 + Z.of_nat k.
Proof. unfold nth_id, U64_MAX. intros. apply Z.mod_small. lia. Qed.

(** The frames that carry commands, in issue order. *)
Definition command_frames (cmds : list Command) : list CommandFrame :=
  imap (fun k c => {| cmd_protocol_version := PROTOCOL_VERSION; cmd_command_id := nth_id k;
                      command := c |}) cmds.

Lemma command_frames_snoc cmds c :
  command_frames (cmds ++ [c]) = command_frames cmds
    ++ [{| cmd_protocol_version := PROTOCOL_VERSION; cmd_command_id := nth_id (length cmds);
           command := c |}].
Proof. unfold command_frames. rewrite imap_app /= Nat.add_0_r //. Qed.

(** [frame] is the [j]-th response to the command [c] with identifier [id]. *)
Definition answers_command (c : Command) (id : Z) (j : nat) (frame : EventFrame) : Prop :=
  frame.(protocol_version) = PROTOCOL_VERSION /\ frame.(Types.command_id) = id /\
  response_matches c (Z.of_nat j) frame.(event) = true.

Definition response_group (c : Command) (id : Z) (g : list EventFrame) : Prop :=
  length g = response_count c /\ forall j f, g !! j = Some f -> answers_command c id j f.

(** The events answer the commands, in order, each with its responses. *)
Definition transcript (cmds : list Command) (frames : list EventFrame) : Prop :=
  exists groups, frames = concat groups /\ length groups = length cmds /\
    forall k c g, cmds !! k = Some c -> groups !! k = Some g -> response_group c (nth_id k) g.

Definition event_ids (frames : list EventFrame) : Prop :=
  forall k f, frames !! k = Some f -> f.(event_id) = nth_id k.

Lemma transcript_nil : transcript [] [].
Proof. by exists []. Qed.

Lemma transcript_snoc cmds frames c g :
  transcript cmds frames -> response_group c (nth_id (length cmds)) g ->
  transcript (cmds ++ [c]) (frames ++ g).
Proof.
  intros (groups&->&Hl&Hg) Hc. exists (groups ++ [g]). split_and!.
  - by rewrite concat_app /= app_nil_r.
  - rewrite !length_app /=. lia.
  - intros k c' g' [Hk|[Hk Hk']]%lookup_app_Some Hg'.
    + apply (Hg k); [done|]. apply lookup_lt_Some in Hk. rewrite lookup_app_l in Hg'; [done|lia].
    + rewrite lookup_app_r in Hg'; [|lia]. rewrite Hl in Hg'.
      apply list_lookup_singleton_Some in Hk' as [Hz <-].
      apply list_lookup_singleton_Some in Hg' as [_ <-].
      assert (k = length cmds) as -> by lia. done.
Qed.

Lemma event_ids_snoc frames f :
  event_ids frames -> f.(event_id) = nth_id (length frames) -> event_ids (frames ++ [f]).
Proof.
  intros Hids Hf k g [Hk|[Hk Hk']]%lookup_app_Some; [by apply Hids|].
  apply list_lookup_singleton_Some in Hk' as [Hz <-].
  by assert (k = length frames) as -> by lia.
Qed.

(** The commands the scenario's requests make the driver issue. *)
Fixpoint request_commands (scenario : Scenario) (choices : ChoicePlan) (index : Z)
    (requests : list PlannedRequest) : list Command :=
  match requests with
  | [] => []
  | request :: rest =>
      (if index =? choices.(plan_activation) then [activate_command scenario] else [])
      ++ (if index =? choices.(plan_restoration) then [restore_command scenario] else [])
      ++ request_command choices index request
      :: request_commands scenario choices (index + 1) rest
  end.

Definition scenario_commands (scenario : Scenario) (choices : ChoicePlan) : list Command :=
  configure_command scenario :: request_commands scenario choices 0 choices.(plan_requests).
Definition check_command (scenario : Scenario) : Command :=
  Check scenario.(outage_event_bound) scenario.(liveness_event_bound).

Section recording.
Context {V : Type} `{VmLog V} `{PrettyDebug}.
Notation C := (Controller V).

(** The controller after issuing [cmds] and recording [raw], from [c0]. *)
Record recorded (c0 : C) (cmds : list Command) (raw : list EventFrame) (c : C) : Prop := {
  r_raw : c.(c_raw_events) = raw;
  r_events : c.(c_events) = map normalize raw;
  r_ids : event_ids raw;
  r_next_event : c.(c_next_event_id) = nth_id (length raw);
  r_next_command : c.(c_next_command_id) = nth_id (length cmds);
  r_send : c.(c_send_commands) = c0.(c_send_commands);
  r_expected : c.(c_expected_events) = c0.(c_expected_events);
  r_prefix : forall es, c0.(c_expected_events) = Some es -> map normalize raw `prefix_of` es;
  r_sent : sent c.(c_vm) = sent c0.(c_vm)
    ++ (if c0.(c_send_commands) then command_frames cmds else []);
}.

Lemma recorded_new vm send expected d :
  recorded (Controller_new vm send expected d) [] [] (Controller_new vm send expected d).
Proof.
  constructor; try done; cbn.
  - intros es _. apply prefix_nil.
  - destruct send; by rewrite app_nil_r.
Qed.

Definition no_claim (e : io_error) (c : C) : Prop := True.

Lemma prefix_of_snoc_lookup {A} (l es : list A) x :
  l `prefix_of` es -> es !! length l = Some x -> (l ++ [x]) `prefix_of` es.
Proof.
  intros [k ->] Hx. rewrite lookup_app_r // Nat.sub_diag in Hx.
  destruct k as [|y k]; [done|]. cbn in Hx. simplify_eq. exists k. by rewrite -app_assoc.
Qed.

Lemma check_expected_Ok c0 cmds raw c f :
  recorded c0 cmds raw c -> check_expected c (normalize f) = Ok tt ->
  forall es, c0.(c_expected_events) = Some es -> map normalize (raw ++ [f]) `prefix_of` es.
Proof.
  intros [] Hc es Hes. unfold check_expected in Hc. rewrite r_expected0 Hes r_events0 in Hc.
  rewrite map_app. apply prefix_of_snoc_lookup; [by apply r_prefix0|].
  destruct (es !! _) as [e|]; [|done]. destruct (bool_decide _) eqn:E; [|done].
  by apply bool_decide_eq_true in E as ->.
Qed.

Lemma receive_event_spec c0 cmds raw cmd id n j :
  triple (recorded c0 cmds raw) (receive_event cmd id n (Z.of_nat j))
    (fun f c => recorded c0 cmds (raw ++ [f]) c /\ answers_command cmd id j f) no_claim.
Proof.
  unfold receive_event. eapply triple_bind with
    (R := fun _ => recorded c0 cmds raw).
  { intros c Hc. unfold on_vm. pose proof (sent_receive c.(c_vm)) as Hs.
    destruct (vm_receive (c_vm c)) as [[f|e] v]; [|done]. destruct Hc. constructor; try done.
    cbn in *. by rewrite Hs. }
  intros f. eapply triple_bind with (R := fun next c => recorded c0 cmds raw c /\ next = nth_id (length raw)).
  { apply triple_gets. intros c Hc. split; [done|]. by destruct Hc. }
  intros next. eapply triple_bind with (R := fun _ c => recorded c0 cmds raw c
    /\ f.(protocol_version) = PROTOCOL_VERSION /\ f.(Types.command_id) = id
    /\ f.(event_id) = nth_id (length raw)).
  { apply triple_fail_if; [done|]. intros c [Hc ->] Hb. split; [done|]. by reflect_guards. }
  intros _ c (Hc&Hv&Hid&He).
  cbv [mbind M_bind modify lift gets mret M_ret validate_response].
  destruct (response_matches _ _ _) eqn:Hm; [|done].
  change (check_expected (observe_event (normalize f) (bump_event c)) (normalize f))
    with (check_expected c (normalize f)).
  destruct (check_expected c (normalize f)) as [[]|] eqn:Hx; [|done].
  split; [|done]. pose proof (check_expected_Ok _ _ _ _ _ Hc Hx) as Hpre. destruct Hc.
  constructor; try done; cbn [push_event observe_event bump_event c_vm c_raw_events c_events
    c_next_event_id c_next_command_id c_send_commands c_expected_events].
  - by rewrite r_raw0.
  - by rewrite r_events0 map_app.
  - by apply event_ids_snoc.
  - by rewrite r_next_event0 nth_id_S length_app Nat.add_1_r.
Qed.

Lemma receive_events_spec c0 cmds raw cmd id n j m :
  triple (recorded c0 cmds raw) (receive_events cmd id n (Z.of_nat j) m)
    (fun fs c => recorded c0 cmds (raw ++ fs) c /\ length fs = m /\
       forall k f, fs !! k = Some f -> answers_command cmd id (j + k) f) no_claim.
Proof.
  revert raw j. induction m as [|m IH]; intros raw j; cbn [receive_events].
  { apply triple_ret. intros c Hc. by rewrite app_nil_r. }
  eapply triple_bind; [apply receive_event_spec|]. intros f.
  replace (Z.of_nat j + 1) with (Z.of_nat (S j)) by lia.
  eapply triple_bind with (R := fun fs c => (recorded c0 cmds ((raw ++ [f]) ++ fs) c /\
    length fs = m /\ forall k g, fs !! k = Some g -> answers_command cmd id (S j + k) g) /\
    answers_command cmd id j f).
  - intros c [Hc Hf]. specialize (IH (raw ++ [f]) (S j) c Hc).
    by destruct (receive_events _ _ _ _ _ _) as [[[fs|e] c']|].
  - intros fs. apply triple_ret. intros c [(Hc&Hl&Hk) Hf]. rewrite -app_assoc in Hc.
    split_and!; [done|by rewrite /= Hl|]. intros [|k] g Hg; simplify_eq/=.
    + by rewrite Nat.add_0_r.
    + rewrite Nat.add_succ_r. by apply (Hk k).
Qed.

Lemma issue_spec c0 cmds raw cmd :
  triple (recorded c0 cmds raw) (issue cmd)
    (fun fs c => recorded c0 (cmds ++ [cmd]) (raw ++ fs) c /\
       response_group cmd (nth_id (length cmds)) fs) no_claim.
Proof.
  unfold issue. intros c Hc.
  assert (Hid : c.(c_next_command_id) = nth_id (length cmds)) by by destruct Hc.
  cbv [gets modify mbind M_bind]. rewrite Hid.
  set (c1 := bump_command c). cbn [c_send_commands c1 bump_command].
  assert (Hsend : c.(c_send_commands) = c0.(c_send_commands)) by by destruct Hc.
  set (frame := {| cmd_protocol_version := _ |}).
  assert (Hc1 : forall v, sent v = sent c.(c_vm) ++ (if c.(c_send_commands) then [frame] else []) ->
    recorded c0 (cmds ++ [cmd]) raw (MkController v c1.(c_diagnostics) c1.(c_next_command_id)
      c1.(c_next_event_id) c1.(c_send_commands) c1.(c_expected_events) c1.(c_raw_events)
      c1.(c_events))).
  { intros v Hv. destruct Hc. constructor; try done; cbn.
    - by rewrite Hid nth_id_S length_app Nat.add_1_r.
    - rewrite Hv r_sent0 Hsend. destruct (c_send_commands c0); rewrite -?app_assoc ?app_nil_r //.
      by rewrite command_frames_snoc. }
  destruct (c_send_commands c) eqn:Es.
  - unfold on_vm. pose proof (sent_send frame c.(c_vm)) as Hs.
    change (c_vm c1) with (c_vm c).
    destruct (vm_send frame (c_vm c)) as [[[]|e] v]; [|done]. cbn in Hs.
    specialize (Hc1 v Hs). pose proof (receive_events_spec c0 _ raw cmd (nth_id (length cmds))
      (Z.of_nat (response_count cmd)) 0 (response_count cmd) _ Hc1) as Hr.
    by destruct (receive_events _ _ _ _ _ _) as [[[fs|e] c']|].
  - assert (Hv : sent (c_vm c) = sent (c_vm c) ++ []) by by rewrite app_nil_r.
    specialize (Hc1 _ Hv). pose proof (receive_events_spec c0 _ raw cmd (nth_id (length cmds))
      (Z.of_nat (response_count cmd)) 0 (response_count cmd) _ Hc1) as Hr.
    cbv [mret M_ret]. by destruct (receive_events _ _ _ _ _ _) as [[[fs|e] c']|].
Qed.

(** Everything issued so far has been answered. *)
Definition issued (c0 : C) (cmds : list Command) (raw : list EventFrame) (c : C) : Prop :=
  recorded c0 cmds raw c /\ transcript cmds raw.

Lemma issue_issued c0 cmds raw cmd :
  triple (issued c0 cmds raw) (issue cmd)
    (fun fs c => issued c0 (cmds ++ [cmd]) (raw ++ fs) c /\
       response_group cmd (nth_id (length cmds)) fs) no_claim.
Proof.
  intros c [Hc Ht]. pose proof (issue_spec c0 cmds raw cmd c Hc) as Hi.
  destruct (issue cmd c) as [[[fs|e] c']|]; [|done|done]. destruct Hi as [Hc' Hg].
  split; [|done]. split; [done|]. by apply transcript_snoc.
Qed.

(** Some frames answer the commands. *)
Definition progressed (c0 : C) (cmds : list Command) (c : C) : Prop :=
  exists raw, issued c0 cmds raw c.

Lemma issue_progressed c0 cmds cmd :
  triple (progressed c0 cmds) (issue cmd) (fun _ => progressed c0 (cmds ++ [cmd])) no_claim.
Proof.
  intros c [raw Hc]. pose proof (issue_issued c0 cmds raw cmd c Hc) as Hi.
  destruct (issue cmd c) as [[[fs|e] c']|]; [|done|done]. destruct Hi as [Hi _]. by eexists.
Qed.

Lemma requests_loop_progressed c0 cmds scenario choices index requests :
  triple (progressed c0 cmds) (requests_loop scenario choices index requests)
    (fun _ => progressed c0 (cmds ++ request_commands scenario choices index requests)) no_claim.
Proof.
  assert (Hopt : forall cmds (b : bool) cmd,
    triple (progressed c0 cmds) (if b then issue cmd else mret [])
      (fun _ => progressed c0 (cmds ++ (if b then [cmd] else []))) no_claim).
  { intros cs [] cmd; [apply issue_progressed|]. apply triple_ret. intros c. by rewrite app_nil_r. }
  revert cmds index. induction requests as [|q qs IH]; intros cmds index; cbn [requests_loop].
  { apply triple_ret. intros c. by rewrite app_nil_r. }
  cbn [request_commands]. rewrite !app_assoc cons_middle !app_assoc.
  eapply triple_bind; [apply Hopt|intros ?]. eapply triple_bind; [apply Hopt|intros ?].
  eapply triple_bind; [apply issue_progressed|intros ?]. apply IH.
Qed.

(** What the drive has established when it returns. *)
Definition drive_record (scenario : Scenario) (choices : ChoicePlan) (c0 : C)
    (r : list NormalizedEvent * AssertionReport) (c : C) : Prop :=
  exists raw checked stopped,
    let all := scenario_commands scenario choices ++ [check_command scenario] ++ [Shutdown] in
    issued c0 all (raw ++ [checked] ++ [stopped]) c /\
    transcript (scenario_commands scenario choices) raw /\
    response_group (check_command scenario) (nth_id (length (scenario_commands scenario choices)))
      [checked] /\
    response_group Shutdown (nth_id (S (length (scenario_commands scenario choices)))) [stopped] /\
    r.1 = map normalize (raw ++ [checked] ++ [stopped]) /\
    r.2 = evaluate raw scenario.(outage_event_bound) scenario.(liveness_event_bound) /\
    checked.(event) = AssertionsEvaluated r.2 /\ stopped.(event) = AgentStopped /\
    forall es, c0.(c_expected_events) = Some es -> r.1 = es.

Lemma response_group_one cmd id fs :
  response_group cmd id fs -> response_count cmd = 1%nat ->
  exists f, fs = [f] /\ response_matches cmd 0 f.(event) = true.
Proof.
  intros [Hl Hf] Hc. rewrite Hc in Hl. destruct fs as [|f [|]]; try done. exists f.
  split; [done|]. by apply (Hf 0%nat f).
Qed.

Lemma issued_finish c0 cmds raw c v :
  issued c0 cmds raw c -> sent v = sent c.(c_vm) ->
  issued c0 cmds raw (MkController v c.(c_diagnostics) c.(c_next_command_id) c.(c_next_event_id)
    c.(c_send_commands) c.(c_expected_events) c.(c_raw_events) c.(c_events)).
Proof. intros [[] Ht] Hv. split; [|done]. constructor; try done. cbn. by rewrite Hv. Qed.

Lemma prefix_length_eq {A} (l es : list A) : l `prefix_of` es -> zlen l = zlen es -> l = es.
Proof.
  intros [k ->]. rewrite zlen_app. destruct k as [|x k]; [by rewrite app_nil_r|].
  rewrite zlen_cons. pose proof (zlen_nonneg k). lia.
Qed.

Lemma drive_body_spec scenario choices vm send expected d :
  let c0 := Controller_new vm send expected d in
  triple (fun c => c = c0) (drive_body scenario choices) (drive_record scenario choices c0) no_claim.
Proof.
  intros c0. unfold drive_body.
  eapply triple_bind with (R := fun _ => progressed c0 [configure_command scenario]).
  { intros c ->. apply (issue_progressed c0 []). exists []. split; [apply recorded_new|apply transcript_nil]. }
  intros _. eapply triple_bind; [apply requests_loop_progressed|]. intros ?.
  change ([_] ++ request_commands _ _ _ _) with (scenario_commands scenario choices).
  apply triple_at. intros c1 [raw Hi].
  eapply triple_bind with (R := fun r c => r = raw /\ c = c1).
  { apply triple_gets. intros c ->. split; [|done]. by destruct Hi as [[]]. }
  intros r. apply triple_at. intros c [Hr Hc]. rewrite Hr Hc. clear r c Hr Hc.
  eapply triple_bind; [intros c ->; by apply issue_issued|]. intros fs.
  apply triple_at. intros c2 [Hi2 Hg2].
  destruct (response_group_one _ _ _ Hg2 eq_refl) as (checked&->&Hm).
  cbn [response_matches] in Hm. destruct (event checked) as [| | | | | | |report| | | | | | | |] eqn:Ee;
    try done.
  set (host := evaluate _ _ _).
  eapply triple_bind with (R := fun g c => g = report /\ c = c2); [by apply triple_ret|].
  intros g. eapply triple_bind with (R := fun _ c => report = host /\ c = c2).
  { apply triple_fail_if; [done|]. intros c [-> ->] Hb. by reflect_guards. }
  intros _. apply triple_at. intros c [-> Hc]. rewrite Hc. clear c Hc.
  eapply triple_bind; [intros c ->; by apply issue_issued|]. intros fs.
  apply triple_at. intros c3 [Hi3 Hg3].
  destruct (response_group_one _ _ _ Hg3 eq_refl) as (stopped&->&Hs). rewrite length_app Nat.add_1_r in Hg3.
  cbn [response_matches] in Hs. destruct (event stopped) eqn:Eo; try done.
  rewrite -!app_assoc in Hi3.
  eapply triple_bind with (R := fun _ => issued c0 (scenario_commands scenario choices
    ++ [check_command scenario] ++ [Shutdown]) (raw ++ [checked] ++ [stopped])).
  { intros c ->. unfold on_vm. pose proof (sent_finish c3.(c_vm)) as Hf.
    destruct (vm_finish_events (c_vm c3)) as [[[]|e] v]; [|done]. by apply issued_finish. }
  intros _. eapply triple_bind with (R := fun c' c => c' = c /\ issued c0 (scenario_commands scenario choices
    ++ [check_command scenario] ++ [Shutdown]) (raw ++ [checked] ++ [stopped]) c).
  { by apply triple_gets. }
  intros c'. apply triple_at. intros c4 [-> Hi4].
  assert (Hev : c4.(c_events) = map normalize (raw ++ [checked] ++ [stopped])) by by destruct Hi4 as [[]].
  eapply triple_bind with (R := fun _ c => c = c4 /\ forall es, c0.(c_expected_events) = Some es -> c4.(c_events) = es).
  { intros c ->. assert (Hex : c4.(c_expected_events) = c0.(c_expected_events)) by by destruct Hi4 as [[]].
    rewrite Hex. destruct (c_expected_events c0) as [es|] eqn:Ees; [|done].
    unfold fail_if. destruct (negb _) eqn:El; [done|]. reflect_guards. cbv [mret M_ret]. split; [done|].
    intros es' [= <-]. rewrite Hev in El |- *. apply prefix_length_eq; [|done].
    destruct Hi4 as [[] _]. by apply r_prefix0. }
  intros _. apply triple_ret. intros c [-> Hes]. exists raw, checked, stopped. cbv zeta.
  split_and!; try done; by destruct Hi.
Qed.
End recording.

(** ** The driver always returns *)

Section total.
Context {V : Type} `{RunningVm V} `{PrettyDebug}.
Notation C := (Controller V).
Notation total := (returns (fun _ : C => O) 1).

Lemma total_on_vm {A} (op : V -> result A * V) : total (on_vm op).
Proof. intros c _. unfold on_vm. destruct (op (c_vm c)). by do 2 eexists. Qed.
Lemma total_modify (f : C -> C) : total (modify f).
Proof. by apply returns_modify. Qed.
#[local] Hint Resolve total_on_vm total_modify : returns.

Lemma total_receive_events c id n j m : total (receive_events c id n j m).
Proof.
  revert j. induction m as [|m IH]; intros j; cbn [receive_events]; [solve_returns|].
  unfold receive_event. solve_returns.
Qed.
#[local] Hint Resolve total_receive_events : returns.

Lemma total_issue c : total (issue c).
Proof. unfold issue. solve_returns. Qed.
#[local] Hint Resolve total_issue : returns.

Lemma total_requests_loop scenario choices index requests :
  total (requests_loop scenario choices index requests).
Proof.
  revert index. induction requests as [|q qs IH]; intros index; cbn [requests_loop]; solve_returns.
Qed.
#[local] Hint Resolve total_requests_loop : returns.

Lemma receive_events_length c id n j m s fs s' :
  receive_events c id n j m s = Some (Ok fs, s') -> length fs = m.
Proof.
  revert j s fs. induction m as [|m IH]; intros j s fs; cbn [receive_events].
  { by intros [= <- _]. }
  cbv [mbind M_bind]. destruct (receive_event c id n j s) as [[[f|] s1]|]; [|done..].
  destruct (receive_events c id n (j + 1) m s1) as [[[gs|] s2]|] eqn:E; [|done..].
  intros [= <- <-]. cbn. f_equal. by eapply IH.
Qed.

Lemma issue_length c s fs s' : issue c s = Some (Ok fs, s') -> length fs = response_count c.
Proof.
  unfold issue. cbv [mbind M_bind gets modify].
  destruct (if _ : bool then _ else _) as [[[[]|] s1]|]; [|done..]. apply receive_events_length.
Qed.

Lemma drive_total scenario choices vm send expected d :
  exists r c, drive_scenario_inner scenario choices vm send expected d = Some (r, c).
Proof.
  cut (total (drive_body scenario choices)).
  { intros Ht. destruct (Ht (Controller_new vm send expected d)) as (r&c&E&_); [lia|]. by exists r, c. }
  unfold drive_body. do 3 (apply returns_bind; [solve_returns|intros ?]).
  intros s _. unfold mbind at 1, M_bind at 1.
  destruct (total_issue (Check (outage_event_bound scenario) (liveness_event_bound scenario)) s)
    as (r&s1&E&_); [lia|]. rewrite E. destruct r as [fs|e]; [|by exists (Err e), s1].
  apply issue_length in E. destruct fs as [|f fs]; [done|].
  match goal with |- exists r s', ?m s1 = _ /\ _ => enough (Hm : total m) end.
  { apply Hm. lia. }
  solve_returns.
Qed.
End total.

(** ** A machine that delivers the answers *)

Section feed.
Context {V : Type} `{FeedVm V} `{PrettyDebug}.
(** The frames of the whole run, and what the controller compares them with. *)
Context (all : list EventFrame) (send : bool) (expected : option (list NormalizedEvent)).
Context (Hids : event_ids all)
  (Hexp : match expected with Some es => es = map normalize all | None => True end).
Notation C := (Controller V).

#[local] Set Default Proof Using "All".

(** The controller has taken [raw] and issued [n] commands; the machine still has
    the rest and accepts [m] commands. *)
Record ready (raw rest : list EventFrame) (n m : nat) (c : C) : Prop := {
  p_all : raw ++ rest = all;
  p_feeds : feeds m rest c.(c_vm);
  p_raw : c.(c_raw_events) = raw;
  p_events : c.(c_events) = map normalize raw;
  p_next_event : c.(c_next_event_id) = nth_id (length raw);
  p_next_command : c.(c_next_command_id) = nth_id n;
  p_send : c.(c_send_commands) = send;
  p_expected : c.(c_expected_events) = expected;
}.

Lemma check_expected_met raw f rest (c : C) :
  raw ++ f :: rest = all -> c.(c_expected_events) = expected ->
  c.(c_events) = map normalize raw -> check_expected c (normalize f) = Ok tt.
Proof.
  intros Hall He Hr. unfold check_expected. rewrite He Hr length_map.
  destruct expected as [es|]; [|done].
  by rewrite Hexp -Hall map_app lookup_app_r length_map // Nat.sub_diag /= bool_decide_true.
Qed.

Lemma ready_receive raw f rest n m c cmd id k j :
  ready raw (f :: rest) n m c -> answers_command cmd id j f ->
  exists c', receive_event cmd id k (Z.of_nat j) c = Some (Ok f, c') /\
    ready (raw ++ [f]) rest n m c'.
Proof.
  intros [] (Hv&Hid&Hm). unfold receive_event.
  cbv [mbind M_bind on_vm gets modify lift].
  destruct (feeds_receive _ _ _ _ p_feeds0) as (v'&Ev&Hv'). rewrite Ev. cbn [map_err c_next_event_id].
  assert (Hf : event_id f = nth_id (length raw)).
  { apply Hids. rewrite -p_all0 lookup_app_r // Nat.sub_diag //. }
  rewrite p_next_event0 Hf Hv Hid !Z.eqb_refl. cbn [negb orb fail_if mret M_ret].
  unfold validate_response. rewrite Hm (check_expected_met raw f rest) //.
  eexists. split; [done|]. constructor; try done; cbn.
  - by rewrite -app_assoc.
  - by rewrite p_raw0.
  - by rewrite ?p_events0 map_app.
  - by rewrite nth_id_S length_app Nat.add_1_r.
Qed.

Lemma ready_receives raw g rest n m c cmd id k j :
  ready raw (g ++ rest) n m c ->
  (forall i f, g !! i = Some f -> answers_command cmd id (j + i) f) ->
  exists c', receive_events cmd id k (Z.of_nat j) (length g) c = Some (Ok g, c') /\
    ready (raw ++ g) rest n m c'.
Proof.
  revert raw j c. induction g as [|f g IH]; intros raw j c Hr Hg.
  { exists c. by rewrite app_nil_r. }
  destruct (ready_receive raw f (g ++ rest) n m c cmd id k j) as (c1&E1&Hr1); [done..| |].
  { rewrite -(Nat.add_0_r j). by apply (Hg 0%nat). }
  destruct (IH (raw ++ [f]) (S j) c1) as (c2&E2&Hr2); [done| |].
  { intros i f' Hi. rewrite Nat.add_succ_comm. by apply Hg. }
  exists c2. cbn [length receive_events]. cbv [mbind M_bind]. rewrite E1.
  replace (Z.of_nat j + 1) with (Z.of_nat (S j)) by lia. rewrite E2.
  by rewrite -app_assoc in Hr2.
Qed.

Lemma ready_issue raw g rest n m c cmd :
  ready raw (g ++ rest) n (S m) c -> response_group cmd (nth_id n) g ->
  exists c', issue cmd c = Some (Ok g, c') /\ ready (raw ++ g) rest (S n) m c'.
Proof.
  intros [] [Hl Hg]. unfold issue. cbv [mbind M_bind gets modify].
  cbn [bump_command c_send_commands]. rewrite p_next_command0 -Hl.
  assert (Hsent : exists c1, (if c_send_commands c then
      on_vm (vm_send {| cmd_protocol_version := PROTOCOL_VERSION; cmd_command_id := nth_id n; command := cmd |})
      else mret tt) (bump_command c) = Some (Ok tt, c1) /\ ready raw (g ++ rest) (S n) m c1).
  { destruct (c_send_commands c) eqn:Es.
    - unfold on_vm. cbn [bump_command c_vm].
      destruct (feeds_send m (g ++ rest) {| cmd_protocol_version := PROTOCOL_VERSION; cmd_command_id := nth_id n; command := cmd |} _ p_feeds0)
        as (v'&Ev&Hv'). rewrite Ev. eexists. split; [done|]. constructor; try done; cbn.
      + by rewrite p_next_command0 nth_id_S.
      + by rewrite Es.
    - eexists. split; [done|]. constructor; try done; cbn.
      + by apply feeds_less.
      + by rewrite p_next_command0 nth_id_S.
      + by rewrite Es. }
  destruct Hsent as (c1&E1&Hr1). rewrite E1.
  by apply (ready_receives raw g rest (S n) m c1 cmd (nth_id n) _ 0).
Qed.

(** Issue a list of commands. *)
Fixpoint issues (cmds : list Command) : M C unit :=
  match cmds with
  | [] => mret tt
  | cmd :: cmds => _ ← issue cmd; issues cmds
  end.

Lemma requests_loop_issues scenario choices index requests c :
  requests_loop scenario choices index requests c
  = issues (request_commands scenario choices index requests) c.
Proof using Type.
  revert index c. induction requests as [|q qs IH]; intros index c; [done|].
  cbn [requests_loop request_commands]. cbv [mbind M_bind].
  assert (Hq : forall c, match issue (request_command choices index q) c with
      | Some (Ok _, s') => requests_loop scenario choices (index + 1) qs s'
      | Some (Err e, s') => Some (Err e, s') | None => None end
    = issues (request_command choices index q :: request_commands scenario choices (index + 1) qs) c).
  { intros c1. cbn [issues]. cbv [mbind M_bind].
    destruct (issue _ c1) as [[[fs|e] c2]|]; [apply IH|done|done]. }
  destruct (index =? plan_activation choices), (index =? plan_restoration choices);
    cbn [app issues]; cbv [mbind M_bind mret M_ret].
  all: repeat (destruct (issue _ _) as [[[?|?] ?]|]; try done).
  all: apply Hq || apply IH.
Qed.

Definition grouped (n : nat) (cmds : list Command) (groups : list (list EventFrame)) : Prop :=
  length groups = length cmds /\
  forall k c g, cmds !! k = Some c -> groups !! k = Some g -> response_group c (nth_id (n + k)) g.

Lemma ready_issues raw cmds groups rest n m c :
  ready raw (concat groups ++ rest) n (length cmds + m) c -> grouped n cmds groups ->
  exists c', issues cmds c = Some (Ok tt, c') /\
    ready (raw ++ concat groups) rest (n + length cmds) m c'.
Proof.
  revert raw groups n c. induction cmds as [|cmd cmds IH];
    intros raw [|g groups] n c Hr [Hl Hg]; try done.
  { exists c. cbn [concat]. rewrite app_nil_r Nat.add_0_r //. }
  cbn [concat length Nat.add] in *. rewrite -!app_assoc in Hr.
  destruct (ready_issue raw g (concat groups ++ rest) n _ c cmd Hr) as (c1&E1&Hr1).
  { rewrite -(Nat.add_0_r n). by apply (Hg 0%nat). }
  destruct (IH (raw ++ g) groups (S n) c1) as (c2&E2&Hr2); [done| |].
  { split; [by injection Hl|]. intros k cm g' Hk Hk'. rewrite Nat.add_succ_comm. by apply (Hg (S k)). }
  exists c2. cbn [issues]. cbv [mbind M_bind]. rewrite E1 E2.
  rewrite -Nat.add_succ_comm app_assoc //.
Qed.
End feed.

(** A machine that delivers a complete record drives the scenario to its end. *)
Lemma drive_feeds {V} `{FeedVm V} `{PrettyDebug} scenario choices (vm : V) send expected d
    raw checked stopped report m :
  let n := length (scenario_commands scenario choices) in
  let frames := raw ++ [checked] ++ [stopped] in
  feeds (n + 2 + m) frames vm ->
  match expected with Some es => es = map normalize frames | None => True end ->
  event_ids frames -> transcript (scenario_commands scenario choices) raw ->
  response_group (check_command scenario) (nth_id n) [checked] ->
  response_group Shutdown (nth_id (S n)) [stopped] ->
  report = evaluate raw scenario.(outage_event_bound) scenario.(liveness_event_bound) ->
  checked.(event) = AssertionsEvaluated report ->
  exists c, drive_scenario_inner scenario choices vm send expected d
            = Some (Ok (map normalize frames, report), c).
Proof.
  intros n frames Hfeeds Hexp Hids (groups&->&Hl&Hg) Hchk Hstop Hrep Hev.
  assert (Hr : ready frames send expected [] (concat groups ++ [checked] ++ [stopped]) 0 (n + (2 + m))
    (Controller_new vm send expected d)).
  { rewrite Nat.add_assoc. by constructor. }
  destruct groups as [|g groups]; [done|].
  destruct (ready_issues frames send expected Hids Hexp []
    (configure_command scenario :: request_commands scenario choices 0 choices.(plan_requests))
    (g :: groups) ([checked] ++ [stopped]) 0 (2 + m) _ Hr) as (c1&E1&Hr1); [done..|]. clear Hr.
  cbn [app Nat.add] in Hr1. change (S (length _)) with n in Hr1.
  destruct (ready_issue frames send expected Hids Hexp _ [checked] [stopped] n (S m) c1
    (check_command scenario) Hr1) as (c2&E2&Hr2); [done..|].
  destruct (ready_issue frames send expected Hids Hexp _ [stopped] [] (S n) m c2 Shutdown Hr2)
    as (c3&E3&Hr3); [done|].
  unfold drive_scenario_inner, drive_body. cbn [issues] in E1. cbv [mbind M_bind] in E1 |- *.
  destruct (issue (configure_command scenario) _) as [[[fs|e] c0]|]; [|done..].
  rewrite requests_loop_issues E1. cbv [gets].
  assert (Hraw : c1.(c_raw_events) = concat (g :: groups)) by by destruct Hr1.
  rewrite Hraw -Hrep. change (Check _ _) with (check_command scenario). rewrite E2 Hev.
  cbv [mret M_ret fail_if]. rewrite bool_decide_true //. cbn [negb]. rewrite E3.
  unfold on_vm. destruct Hr3. destruct (feeds_finish _ _ p_feeds0) as [v' ->].
  cbn [c_expected_events c_events id].
  assert (Hes : c_events c3 = map normalize frames).
  { rewrite p_events0. unfold frames. by rewrite -app_assoc. }
  rewrite p_expected0 Hes. destruct expected as [es|]; [|by eexists].
  rewrite Hexp Z.eqb_refl. cbn [negb]. by eexists.
Qed.

Section theorems.
Context {V : Type} `{VmLog V} `{PrettyDebug}.

Lemma drive_record_of scenario choices vm send expected d r c :
  drive_scenario_inner scenario choices vm send expected d = Some (Ok r, c) ->
  drive_record scenario choices (Controller_new vm send expected d) r c.
Proof.
  intros E. pose proof (drive_body_spec scenario choices vm send expected d _ eq_refl) as Ht.
  unfold drive_scenario_inner in E. by rewrite E in Ht.
Qed.

Lemma record_sound_aux scenario choices vm d events report c :
  drive_scenario scenario choices vm d = Some (Ok (events, report), c) ->
  exists raw checked stopped,
    let commands := scenario_commands scenario choices ++ [check_command scenario; Shutdown] in
    let frames := raw ++ [checked; stopped] in
    transcript commands frames /\ event_ids frames /\ events = map normalize frames /\
    report = evaluate raw scenario.(outage_event_bound) scenario.(liveness_event_bound) /\
    checked.(event) = AssertionsEvaluated report /\
    sent c.(c_vm) = sent vm ++ command_frames commands.
Proof.
  intros (raw&checked&stopped&[[] Ht]&_&_&_&E1&E2&E3&E4&_)%drive_record_of.
  exists raw, checked, stopped. split_and!; done.
Qed.
End theorems.

(** ** Report shape *)

(** [seen] after the names [done] were met. *)
Definition seen_after (profile done : list AssertionName) : list bool :=
  map (fun n => bool_decide (n ∈ done)) profile.

Lemma seen_after_insert profile done n index :
  NoDup profile -> profile !! index = Some n ->
  <[index := true]> (seen_after profile done) = seen_after profile (done ++ [n]).
Proof.
  intros Hnd Hi. apply list_eq. intros k. unfold seen_after.
  change (map ?f profile) with (f <$> profile). rewrite list_lookup_fmap.
  destruct (decide (k = index)) as [->|Hk].
  - rewrite list_lookup_insert_eq; [|rewrite length_map; by eapply lookup_lt_Some].
    rewrite Hi /= bool_decide_true //. set_solver.
  - rewrite list_lookup_insert_ne // list_lookup_fmap. destruct (profile !! k) as [m|] eqn:Em; [|done].
    cbn. f_equal. apply bool_decide_ext. rewrite elem_of_app list_elem_of_singleton.
    split; [by left|]. intros [?| ->]; [done|]. exfalso. apply Hk. by eapply NoDup_lookup.
Qed.

Lemma profile_loop_spec profile done assertions seen :
  NoDup profile -> NoDup done ->
  (profile_loop profile (seen_after profile done) assertions = Some seen <->
   NoDup (done ++ map name assertions) /\ map name assertions ⊆ profile /\
   seen = seen_after profile (done ++ map name assertions)).
Proof.
  intros Hp. revert done. induction assertions as [|a rest IH]; intros done Hd; cbn [profile_loop map].
  { rewrite app_nil_r. split; [intros [= <-]|intros (_&_&->)]; [|done]. split_and!; [done|set_solver|done]. }
  destruct (position _ profile) as [index|] eqn:Epos.
  - apply position_Some in Epos as (l1&x&l2&Hprof&Hlen&Hx&_). apply bool_decide_eq_true in Hx as ->.
    assert (Hi : profile !! index = Some a.(name)).
    { rewrite Hprof -Hlen lookup_app_r // Nat.sub_diag //. }
    assert (Hseen : seen_after profile done !! index = Some (bool_decide (a.(name) ∈ done))).
    { unfold seen_after. change (map ?f profile) with (f <$> profile).
      by rewrite list_lookup_fmap Hi. }
    rewrite Hseen. destruct (decide (a.(name) ∈ done)) as [Hin|Hin].
    + rewrite bool_decide_true; [|by rewrite bool_decide_true]. split; [done|].
      intros (Hnd&_). apply list.NoDup_app in Hnd as (_&Hdis&_). exfalso. apply (Hdis _ Hin). left.
    + rewrite bool_decide_false; [|by rewrite bool_decide_false]. rewrite (seen_after_insert _ _ a.(name)) //.
      rewrite IH; last first.
      { apply list.NoDup_app. split_and!; [done| |apply NoDup_singleton]. intros y Hy ->%list_elem_of_singleton. done. }
      rewrite -app_assoc. cbn [app]. assert (a.(name) ∈ profile) by by eapply list_elem_of_lookup_2.
      split; intros (?&?&?); split_and!; try done; set_solver.
  - split; [done|]. intros (_&Hsub&_). exfalso. apply position_None in Epos.
    rewrite list.Forall_forall in Epos. specialize (Epos a.(name)).
    rewrite bool_decide_true in Epos; [|done]. assert (a.(name) ∈ profile) by set_solver.
    by specialize (Epos H).
Qed.

Lemma forallb_seen_after profile names :
  forallb id (seen_after profile names) = true <-> profile ⊆ names.
Proof.
  unfold seen_after. rewrite forallb_forall. split.
  - intros Hall n Hn. specialize (Hall (bool_decide (n ∈ names))). cbv [id] in Hall.
    apply (bool_decide_eq_true (n ∈ names)), Hall.
    apply in_map_iff. exists n. by rewrite -list_elem_of_In.
  - intros Hsub b (n&<-&Hn)%in_map_iff. apply bool_decide_eq_true, Hsub, list_elem_of_In, Hn.
Qed.

(** A report has a valid shape for a profile exactly when it lists each of the
    profile's assertion names once, in any order, and its summary flag is the
    conjunction of its assertions. *)
Theorem valid_profile_iff report profile :
  NoDup profile ->
  valid_profile report profile = true <->
  map name report.(assertions) ≡ₚ profile /\
  report.(passed) = forallb assertion_passed report.(assertions).
Proof.
  intros Hp. unfold valid_profile.
  assert (Hinit : replicate (length profile) false = seen_after profile []).
  { unfold seen_after. clear Hp. induction profile as [|n l IH]; [done|]. cbn. by rewrite IH. }
  rewrite Hinit. destruct (profile_loop _ _ _) as [seen|] eqn:E.
  - apply profile_loop_spec in E as (Hnd&Hsub&->); [|done|constructor]. cbn [app] in *.
    rewrite andb_true_iff forallb_seen_after eqb_true_iff. split; intros [Hs ->]; split; try done.
    + apply NoDup_Permutation; [done..|]. intros n. split; [apply Hsub|apply Hs].
    + intros n. by rewrite Hs.
  - split; [done|]. intros [Hperm _]. exfalso.
    assert (Hs : profile_loop profile (seen_after profile []) report.(assertions)
      = Some (seen_after profile ([] ++ map name report.(assertions)))).
    { apply profile_loop_spec; [done|constructor|]. cbn [app].
      split_and!; [by rewrite Hperm|intros n; by rewrite Hperm|done]. }
    by rewrite E in Hs.
Qed.

(** ** Comparisons *)

Lemma compare_events_from_iff index expected actual :
  compare_events_from index expected actual = Ok tt <-> actual = expected.
Proof.
  revert index actual. induction expected as [|e expected IH]; intros index [|a actual];
    cbn [compare_events_from]; [done..|].
  destruct (bool_decide (e = a)) eqn:E.
  - apply bool_decide_eq_true in E as ->. rewrite IH. split; [by intros ->|by intros [= ->]].
  - apply bool_decide_eq_false in E. split; [done|]. intros [= -> _]. done.
Qed.

(** The event comparison of a replay accepts exactly equal streams: every
    divergence, missing event and surplus event is reported. *)
Theorem compare_events_iff expected actual :
  compare_events expected actual = Ok tt <-> actual = expected.
Proof. apply compare_events_from_iff. Qed.

(** ** Recording and replaying a scenario *)

(** C23. A recorded network run is complete and well formed for any machine: the
    driver sent exactly the commands of the plan with consecutive identifiers, the
    recorded frames answer them one by one with consecutive event identifiers, the
    published events are their normalizations, and the published report is the
    host's own evaluation, which the guest's report had to equal. *)
Theorem record_sound {V} `{VmLog V} `{PrettyDebug} scenario choices (vm : V) d events report c :
  drive_scenario scenario choices vm d = Some (Ok (events, report), c) ->
  exists raw checked stopped,
    let commands := scenario_commands scenario choices ++ [check_command scenario; Shutdown] in
    let frames := raw ++ [checked; stopped] in
    transcript commands frames /\ event_ids frames /\ events = map normalize frames /\
    report = evaluate raw scenario.(outage_event_bound) scenario.(liveness_event_bound) /\
    checked.(event) = AssertionsEvaluated report /\
    sent c.(c_vm) = sent vm ++ command_frames commands.
Proof. apply record_sound_aux. Qed.

Lemma same_assertion_normalized e1 e2 :
  map normalize e1 = map normalize e2 -> same_assertion_events e1 e2.
Proof.
  unfold same_assertion_events. revert e2.
  induction e1 as [|f e1 IH]; intros [|g e2] E; simplify_eq/=; [done|].
  assert (Ef : f.(event) = g.(event)) by done. rewrite Ef.
  destruct (is_assertion_event (event g)); cbn [map]; [|by apply IH].
  rewrite (IH e2) //. f_equal. unfold normalize. by f_equal.
Qed.

(** A replay that succeeds reproduces the recording: whatever machine replays
    it, the driver sends no command, and the replayed events and report are those
    of the recording. *)
Theorem replay_agrees {V1 V2} `{VmLog V1} `{VmLog V2} `{PrettyDebug} scenario choices
    (vm1 : V1) (vm2 : V2) d1 d2 events report c1 events' report' c2 :
  drive_scenario scenario choices vm1 d1 = Some (Ok (events, report), c1) ->
  drive_replay_scenario scenario choices events vm2 d2 = Some (Ok (events', report'), c2) ->
  events' = events /\ report' = report /\ sent c2.(c_vm) = sent vm2.
Proof.
  intros (raw&checked&stopped&_&_&_&_&E1&E2&_)%drive_record_of.
  intros (raw'&checked'&stopped'&Hi&_&_&_&E1'&E2'&_&_&Hes)%drive_record_of.
  specialize (Hes _ eq_refl). cbn [fst snd] in *. split; [done|]. split.
  - rewrite E2 E2'. apply evaluate_same, same_assertion_normalized.
    rewrite E1 E1' !map_app in Hes. by apply app_inj_2 in Hes as [? _].
  - destruct Hi as [[] _]. by rewrite app_nil_r in r_sent0.
Qed.

(** A passive replay of frames that form a complete record succeeds. *)
Lemma script_replays `{PrettyDebug} scenario choices raw checked stopped report d :
  let n := length (scenario_commands scenario choices) in
  let frames := raw ++ [checked] ++ [stopped] in
  event_ids frames -> transcript (scenario_commands scenario choices) raw ->
  response_group (check_command scenario) (nth_id n) [checked] ->
  response_group Shutdown (nth_id (S n)) [stopped] ->
  report = evaluate raw scenario.(outage_event_bound) scenario.(liveness_event_bound) ->
  checked.(event) = AssertionsEvaluated report ->
  exists c, drive_replay_scenario scenario choices (map normalize frames) (script_of frames) d
            = Some (Ok (map normalize frames, report), c).
Proof.
  intros n frames Hids Ht Hchk Hstop Hrep Hev. unfold drive_replay_scenario.
  by apply (drive_feeds scenario choices _ false _ d raw checked stopped report 0).
Qed.

(** Recording and replaying a network scenario is a round trip: feeding the
    frames of any successful recording back to a passive replay succeeds with the
    recorded events and report. *)
Theorem replay_reproduces {V} `{VmLog V} `{PrettyDebug} scenario choices (vm : V) d d' events report c :
  drive_scenario scenario choices vm d = Some (Ok (events, report), c) ->
  exists c', drive_replay_scenario scenario choices events (script_of c.(c_raw_events)) d'
             = Some (Ok (events, report), c').
Proof.
  intros (raw&checked&stopped&[[] _]&Ht&Hc&Hs&E1&E2&E3&_)%drive_record_of. cbn [fst snd] in *.
  rewrite r_raw0 E1. by apply script_replays.
Qed.

(** Driving a network scenario always returns, with a result or an error: no
    machine behaviour makes it loop or index out of range. *)
Theorem drive_returns {V} `{RunningVm V} `{PrettyDebug} scenario choices (vm : V) send expected d :
  exists r c, drive_scenario_inner scenario choices vm send expected d = Some (r, c).
Proof. apply drive_total. Qed.

(** ** A sample recording *)

Definition plain_debug : PrettyDebug := {| pretty_debug e := Event_describe e.(norm_event) |}.

Definition drive_scenario_sample : Scenario :=
  {| version := 1; scenario_name := "sample"; request_count := 3; payload_bytes := 1;
     fixture_peer := "10.0.2.2"; outage_event_bound := 2; liveness_event_bound := 2;
     corrupt_responses := false |}.
Definition drive_choices_sample : ChoicePlan :=
  {| plan_version := 1; plan_seed := 7; plan_activation := 1; plan_restoration := 2;
     plan_requests := [{| request_id := "r1"; payload := "aa" |};
                       {| request_id := "r2"; payload := "bb" |};
                       {| request_id := "r3"; payload := "cc" |}] |}.

Definition guest_frames : list EventFrame := [
  sample_frame 1 1 (NetworkConfigured "eth0" "10.0.2.15/24" "10.0.2.2");
  sample_frame 2 2 (RequestAttempted "r1" "aa" PreOutage);
  sample_frame 3 2 (RequestSucceeded "r1" "aa" "r1" "aa" PreOutage);
  sample_frame 4 3 (OutageActivated "10.0.2.2/32" "prohibit 10.0.2.2/32");
  sample_frame 5 4 (RequestAttempted "r2" "bb" Outage);
  sample_frame 6 4 (RequestUnavailable "r2" Outage AdministrativeProhibited (Some 13));
  sample_frame 7 5 (NetworkRestored "10.0.2.2/32");
  sample_frame 8 6 (RequestAttempted "r3" "cc" Recovery);
  sample_frame 9 6 (RequestSucceeded "r3" "cc" "r3" "cc" Recovery) ].
Definition guest_report : AssertionReport := evaluate guest_frames 2 2.
Definition guest_recording : list EventFrame :=
  guest_frames ++ [sample_frame 10 7 (AssertionsEvaluated guest_report); sample_frame 11 8 AgentStopped].

Notation sample_drive := (@drive_scenario ScriptVm _ plain_debug drive_scenario_sample
  drive_choices_sample (script_of guest_recording) (FailureDiagnostics_new "record")).

(** The recording succeeds, and its report passes. *)
Lemma sample_drive_Ok :
  exists c, sample_drive = Some (Ok (map normalize guest_recording, guest_report), c)
            /\ c.(c_raw_events) = guest_recording /\ guest_report.(passed) = true.
Proof. eexists. split_and!; vm_compute; reflexivity. Qed.

Lemma record_sound_witness : exists raw checked stopped c,
  map normalize guest_recording = map normalize (raw ++ [checked; stopped]) /\
  transcript (scenario_commands drive_scenario_sample drive_choices_sample
    ++ [check_command drive_scenario_sample; Shutdown]) (raw ++ [checked; stopped]) /\
  sent c.(c_vm) = sent (script_of guest_recording)
    ++ command_frames (scenario_commands drive_scenario_sample drive_choices_sample
         ++ [check_command drive_scenario_sample; Shutdown]).
Proof.
  destruct sample_drive_Ok as (c&E&_&_).
  destruct (@record_sound ScriptVm _ _ plain_debug _ _ _ _ _ _ _ E) as (raw&checked&stopped&Ht&_&Hn&_&_&Hs).
  exists raw, checked, stopped, c. exact (conj Hn (conj Ht Hs)).
Defined.

Lemma replay_reproduces_witness : exists c,
  @drive_replay_scenario ScriptVm _ plain_debug drive_scenario_sample drive_choices_sample
    (map normalize guest_recording) (script_of guest_recording) (FailureDiagnostics_new "replay")
  = Some (Ok (map normalize guest_recording, guest_report), c).
Proof.
  destruct sample_drive_Ok as (c&E&Hr&_). rewrite -{2}Hr.
  exact (@replay_reproduces ScriptVm _ _ plain_debug _ _ _ _ (FailureDiagnostics_new "replay") _ _ _ E).
Defined.

(** The recorded guest, with other diagnostics. *)
Definition replayed_guest : ScriptVm := script_of (map (received_at 9) guest_recording).

Lemma replayed_guest_Ok : exists c,
  @drive_replay_scenario ScriptVm _ plain_debug drive_scenario_sample drive_choices_sample
    (map normalize guest_recording) replayed_guest (FailureDiagnostics_new "replay")
  = Some (Ok (map normalize guest_recording, guest_report), c).
Proof. eexists. vm_compute. reflexivity. Qed.

Lemma replay_agrees_witness : exists c,
  sent (V := ScriptVm) c.(c_vm) = [] /\
  @drive_replay_scenario ScriptVm _ plain_debug drive_scenario_sample drive_choices_sample
    (map normalize guest_recording) replayed_guest (FailureDiagnostics_new "replay")
  = Some (Ok (map normalize guest_recording, guest_report), c).
Proof.
  destruct sample_drive_Ok as (c1&E1&_&_). destruct replayed_guest_Ok as (c2&E2). exists c2.
  split; [|exact E2].
  exact (proj2 (proj2 (@replay_agrees ScriptVm ScriptVm _ _ _ _ plain_debug _ _ _ _ _ _ _ _ _ _ _ _ E1 E2))).
Defined.

Lemma valid_profile_iff_witness :
  map name guest_report.(assertions) ≡ₚ NETWORK_PROFILE /\
  guest_report.(passed) = forallb assertion_passed guest_report.(assertions).
Proof.
  apply (valid_profile_iff guest_report NETWORK_PROFILE); [|by vm_compute].
  by apply (bool_decide_unpack _).
Defined.
