(* ===== verification/WorkloadDriver.v ===== *)
(** The host driver for a workload run ([run.rs], [workload_steps],
    [WorkloadController] and [drive_workload_scenario]).

    The control loop reads events until the one it awaits arrives, so its loops
    carry fuel: one unit per received event.  A machine that delivers finitely
    many events ([FiniteVm]) never exhausts it, which [drive_workload_returns]
    proves.  [None] also stands for the panics of the source (an index or a slice
    out of range), which the same theorem excludes for the plans of
    [scenario.rs]. *)

From stdpp Require Import ssreflect.
From S2P Require Import Prelude Types Std Protocol Assertions Tree Checker Effects Vm Driver.

(** ** The plan of steps *)

Inductive WorkloadStep :=
  | StepEcho (invocation : Z)
  | StepState (invocation : Z)
  | StepSpawnDescendant (invocation : Z)
  | StepStart (invocation : Z)
  | StepTerminate (invocation : Z)
  | StepActivate
  | StepRestore
  | StepRequest (invocation : Z) (index : Z)
  | StepStdinEof (invocation : Z).

#[export] Instance WorkloadStep_eq_dec : EqDecision WorkloadStep.
Proof. solve_decision. Defined.

(** [for index in 0..choices.requests.len()], from [index] on, with [count]
    requests left. *)
Fixpoint steps_from (choices : WorkloadChoicePlan) (invocation index : Z) (count : nat)
    : list WorkloadStep :=
  match count with
  | O => [StepStdinEof invocation]
  | S count =>
      let '(fault, invocation) :=
        if index =? choices.(process_fault_request_index) then
          let next := add64 invocation 1 in
          ([StepSpawnDescendant invocation; StepTerminate invocation;
            StepStart next; StepEcho next; StepState next], next)
        else ([], invocation) in
      fault
      ++ (if index =? choices.(outage_activation_request_index) then [StepActivate] else [])
      ++ (if index =? choices.(restoration_request_index) then [StepRestore] else [])
      ++ StepRequest invocation index
      :: steps_from choices invocation (index + 1) count
  end.

Definition workload_steps (choices : WorkloadChoicePlan) : list WorkloadStep :=
  [StepStart 1; StepEcho 1; StepState 1]
  ++ steps_from choices 1 0 (length choices.(requests)).

Definition is_terminal_workload_event (e : Event) : bool :=
  match e with
  | TerminationRequested _ _ | WorkloadExited _ _ _ _ _ _ _ | LaunchFailed _ _ _
  | CleanupComplete _ _ => true
  | _ => false
  end.

Definition is_output (e : Event) : bool :=
  match e with WorkloadOutput _ _ _ _ _ => true | _ => false end.

(** ** The controller *)

Record WorkloadController (V : Type) := MkWorkload {
  w_vm : V;
  w_diagnostics : FailureDiagnostics;
  w_next_command_id : Z;
  w_next_event_id : Z;
  w_raw_events : list EventFrame;
  w_events : list NormalizedEvent;
  w_trace : WorkloadTrace;
  w_consumed_lines : gmap Z Z;
}.
Arguments MkWorkload {V}.
Arguments w_vm {V}.
Arguments w_diagnostics {V}.
Arguments w_next_command_id {V}.
Arguments w_next_event_id {V}.
Arguments w_raw_events {V}.
Arguments w_events {V}.
Arguments w_trace {V}.
Arguments w_consumed_lines {V}.

Section controller.
Context {V : Type} `{RunningVm V}.
Notation C := (WorkloadController V).

Definition WorkloadController_new (vm : V) (d : FailureDiagnostics) : C :=
  MkWorkload vm d 1 1 [] [] WorkloadTrace_default ∅.

Definition w_on_vm {A} (op : V -> result A * V) : M C A := fun c =>
  let '(r, vm) := op c.(w_vm) in
  Some (r, MkWorkload vm c.(w_diagnostics) c.(w_next_command_id) c.(w_next_event_id)
             c.(w_raw_events) c.(w_events) c.(w_trace) c.(w_consumed_lines)).

(** [self.next_command_id += 1]. *)
Definition w_bump_command (c : C) : C :=
  MkWorkload c.(w_vm) c.(w_diagnostics) (add64 c.(w_next_command_id) 1) c.(w_next_event_id)
    c.(w_raw_events) c.(w_events) c.(w_trace) c.(w_consumed_lines).

Definition w_issue (cmd : Command) : M C Z :=
  command_id ← gets w_next_command_id;
  _ ← modify w_bump_command;
  _ ← w_on_vm (vm_send {| cmd_protocol_version := PROTOCOL_VERSION;
                          cmd_command_id := command_id; command := cmd |});
  mret command_id.

(** The state change of [absorb] for an accepted frame. *)
Definition fold_frame (frame : EventFrame) (c : C) : C :=
  MkWorkload c.(w_vm) (observe c.(w_diagnostics) (normalize frame)) c.(w_next_command_id)
    (add64 c.(w_next_event_id) 1) (c.(w_raw_events) ++ [frame])
    (c.(w_events) ++ [normalize frame]) (push c.(w_trace) frame) c.(w_consumed_lines).

Definition absorb (frame : EventFrame) : M C EventFrame :=
  next_event_id ← gets w_next_event_id;
  next_command_id ← gets w_next_command_id;
  _ ← fail_if (negb (frame.(protocol_version) =? PROTOCOL_VERSION)
               || negb (frame.(event_id) =? next_event_id)
               || (frame.(command_id) =? 0)
               || (next_command_id <=? frame.(command_id)))
        (invalid_data ("unexpected event envelope: version="
           +:+ fmt_dec frame.(protocol_version) +:+ ", event_id=" +:+ fmt_dec frame.(event_id)
           +:+ ", command_id=" +:+ fmt_dec frame.(command_id) +:+ " (last issued command "
           +:+ fmt_dec (saturating_sub64 next_command_id 1) +:+ ")"));
  _ ← modify (fold_frame frame);
  mret frame.

Definition receive_one : M C EventFrame :=
  frame ← w_on_vm vm_receive;
  absorb frame.

(** [while let Some(frame) = self.vm.try_receive()?]. *)
Fixpoint drain (fuel : nat) : M C unit :=
  match fuel with
  | O => out_of_fuel
  | S fuel =>
      next ← w_on_vm vm_try_receive;
      match next with
      | None => mret tt
      | Some frame => _ ← absorb frame; drain fuel
      end
  end.

Fixpoint expect (fuel : nat) (command_id : Z) (description : string) (allow_terminal : bool)
    (predicate : Event -> bool) : M C EventFrame :=
  match fuel with
  | O => out_of_fuel
  | S fuel =>
      frame ← receive_one;
      if predicate frame.(event) then
        _ ← fail_if (negb (frame.(Types.command_id) =? command_id))
              (invalid_data ("the " +:+ Event_kind frame.(event) +:+ " response carries command "
                 +:+ fmt_dec frame.(Types.command_id) +:+ " instead of " +:+ fmt_dec command_id));
        mret frame
      else
        _ ← fail_if (command_id <? frame.(Types.command_id))
              (invalid_data ("an event for command " +:+ fmt_dec frame.(Types.command_id)
                 +:+ " arrived while waiting for " +:+ description));
        _ ← fail_if (negb (is_output frame.(event))
                     && negb (allow_terminal && is_terminal_workload_event frame.(event)))
              (invalid_data ("unexpected " +:+ Event_describe frame.(event)
                 +:+ " while waiting for " +:+ description));
        expect fuel command_id description allow_terminal predicate
  end.

Definition unexpected_input (e : Event) : io_error :=
  invalid_data ("unexpected " +:+ Event_describe e +:+ " while waiting for input-accepted").

Fixpoint await_input_accepted (fuel : nat) (command_id invocation expected_start nsent : Z)
    : M C bool :=
  match fuel with
  | O => out_of_fuel
  | S fuel =>
      frame ← receive_one;
      match frame.(event) with
      | InputAccepted actual offset nbytes eof =>
          _ ← fail_if (negb (frame.(Types.command_id) =? command_id))
                (invalid_data ("the input-accepted response carries command "
                   +:+ fmt_dec frame.(Types.command_id) +:+ " instead of " +:+ fmt_dec command_id));
          _ ← fail_if (negb (actual =? invocation) || eof
                       || negb (offset =? add64 expected_start nsent) || negb (nbytes =? nsent))
                (unexpected_input frame.(event));
          mret true
      | WorkloadExited actual _ _ _ _ _ _ | LaunchFailed actual _ _ =>
          if actual =? invocation then mret false else throw (unexpected_input frame.(event))
      | WorkloadOutput _ _ _ _ _ =>
          await_input_accepted fuel command_id invocation expected_start nsent
      | e => throw (unexpected_input e)
      end
  end.

Definition consumed (c : C) (invocation : Z) : Z := default 0 (c.(w_consumed_lines) !! invocation).

Definition healthy (c : C) (invocation : Z) : bool :=
  negb (exited c.(w_trace) invocation) && negb (launch_failed c.(w_trace) invocation)
  && (stderr_bytes_of c.(w_trace) invocation =? 0)
  && negb (over_bound_line c.(w_trace) invocation).

Definition unconsumed_line (c : C) (invocation : Z) : bool :=
  consumed c invocation <? stdout_line_count c.(w_trace) invocation.

Definition exit_wait_failed (c : C) (invocation : Z) : bool :=
  negb (healthy c invocation) || unconsumed_line c invocation
  || stdout_pending c.(w_trace) invocation.

Fixpoint await_exit_loop (fuel : nat) (command_id invocation : Z) : M C bool :=
  match fuel with
  | O => out_of_fuel
  | S fuel =>
      frame ← receive_one;
      let unexpected :=
        if is_terminal_workload_event frame.(event) then
          await_exit_loop fuel command_id invocation
        else throw (invalid_data ("unexpected " +:+ Event_describe frame.(event)
                      +:+ " while waiting for workload-exited")) in
      match frame.(event) with
      | WorkloadExited actual _ _ _ _ _ _ =>
          if actual =? invocation then
            _ ← fail_if (negb (frame.(Types.command_id) =? command_id))
                  (invalid_data ("the workload-exited response carries command "
                     +:+ fmt_dec frame.(Types.command_id) +:+ " instead of "
                     +:+ fmt_dec command_id));
            mret true
          else unexpected
      | WorkloadOutput _ _ _ _ _ =>
          failed ← gets (fun c => exit_wait_failed c invocation);
          if failed : bool then mret false else await_exit_loop fuel command_id invocation
      | _ => unexpected
      end
  end.

Definition await_exit (fuel : nat) (command_id invocation : Z) : M C bool :=
  failed ← gets (fun c => exit_wait_failed c invocation);
  if failed : bool then mret false else await_exit_loop fuel command_id invocation.

Definition live (fuel : nat) (invocation : Z) : M C bool :=
  _ ← drain fuel;
  gets (fun c => negb (exited c.(w_trace) invocation || launch_failed c.(w_trace) invocation)).

(** [write_stdin(invocation, &mut offset, text)]: the returned pair is the
    result and the updated offset. *)
Definition write_stdin (fuel : nat) (invocation offset : Z) (text : string) : M C (bool * Z) :=
  _ ← drain fuel;
  ok ← gets (fun c => healthy c invocation);
  if negb ok then mret (false, offset)
  else
    command_id ← w_issue (StdinWrite invocation offset (encode_bytes (as_bytes text)));
    accepted ← await_input_accepted fuel command_id invocation offset (str_len text);
    if negb accepted then mret (false, offset)
    else mret (true, add64 offset (str_len text)).

(** [self.consumed_lines.insert(invocation, consumed + 1)]. *)
Definition consume_line (invocation : Z) (c : C) : C :=
  MkWorkload c.(w_vm) c.(w_diagnostics) c.(w_next_command_id) c.(w_next_event_id)
    c.(w_raw_events) c.(w_events) c.(w_trace)
    (<[invocation := add64 (consumed c invocation) 1]> c.(w_consumed_lines)).

Fixpoint wait_for_line (fuel : nat) (invocation : Z) (expected : string) : M C bool :=
  match fuel with
  | O => out_of_fuel
  | S fuel =>
      c ← gets id;
      if negb (healthy c invocation) then mret false
      else if consumed c invocation <? stdout_line_count c.(w_trace) invocation then
        let matched := bool_decide
          (stdout_line c.(w_trace) invocation (consumed c invocation) = Some expected) in
        _ ← modify (consume_line invocation);
        ok ← gets (fun c => healthy c invocation);
        if negb ok then mret false else mret matched
      else if exited c.(w_trace) invocation || launch_failed c.(w_trace) invocation then mret false
      else
        _ ← receive_one;
        wait_for_line fuel invocation expected
  end.
End controller.

(** ** Driving a workload scenario *)

(** The local variables of the step loop. *)
Record Locals := MkLocals {
  offsets : gmap Z Z;
  outage_active : bool;
  stopped : bool;
}.

Definition is_configured (peer : string) (e : Event) : bool :=
  match e with
  | NetworkConfigured i g w =>
      bool_decide (i = "eth0") && bool_decide (g = "10.0.2.15/24") && bool_decide (w = peer)
  | _ => false
  end.
Definition is_activated (peer_cidr : string) (e : Event) : bool :=
  match e with
  | OutageActivated p rule =>
      bool_decide (p = peer_cidr) && bool_decide (rule = "prohibit " +:+ peer_cidr)
  | _ => false
  end.
Definition is_restored (peer_cidr : string) (e : Event) : bool :=
  match e with NetworkRestored p => bool_decide (p = peer_cidr) | _ => false end.
Definition is_launch_response (e : Event) : bool :=
  match e with WorkloadStarted _ _ | LaunchFailed _ _ _ => true | _ => false end.
Definition is_termination (e : Event) : bool :=
  match e with TerminationRequested _ _ => true | _ => false end.
Definition is_cleanup (e : Event) : bool :=
  match e with CleanupComplete _ _ => true | _ => false end.
Definition is_eof_accepted (invocation expected_end : Z) (e : Event) : bool :=
  match e with
  | InputAccepted actual offset nbytes eof =>
      (nbytes =? 0) && eof && (actual =? invocation) && (offset =? expected_end)
  | _ => false
  end.

Section drive.
Context {V : Type} `{RunningVm V} `{Sha256}.
Notation C := (WorkloadController V).
Context (fuel : nat) (scenario : WorkloadScenario) (choices : WorkloadChoicePlan)
  (launch : LaunchIdentity).

Notation peer_cidr := (scenario.(w_fixture_peer) +:+ "/32").

(** The shared shape of the four request steps: write the input line, then wait
    for its response. *)
Definition exchange (l : Locals) (invocation : Z) (text response : string) : M C Locals :=
  let offset := default 0 (l.(offsets) !! invocation) in
  '(sent_ok, offset) ← write_stdin fuel invocation offset text;
  let l := MkLocals (<[invocation := offset]> l.(offsets)) l.(outage_active) l.(stopped) in
  if negb sent_ok then mret (MkLocals l.(offsets) l.(outage_active) true)
  else
    ok ← wait_for_line fuel invocation response;
    mret (MkLocals l.(offsets) l.(outage_active) (if ok : bool then l.(stopped) else true)).

(** The end of the [Terminate] and [StdinEof] arms. *)
Definition await_release (l : Locals) (command invocation : Z) : M C Locals :=
  ok ← await_exit fuel command invocation;
  if negb ok then mret (MkLocals l.(offsets) l.(outage_active) true)
  else
    _ ← expect fuel command "cleanup-complete" false is_cleanup;
    mret l.

Definition run_step (step : WorkloadStep) (l : Locals) : M C Locals :=
  match step with
  | StepEcho invocation =>
      let token := echo_token choices.(seed) invocation in
      exchange l invocation ("echo " +:+ token +:+ str_of [NEWLINE]) ("echo value=" +:+ token)
  | StepState invocation =>
      exchange l invocation ("state" +:+ str_of [NEWLINE]) FRESH_STATE_LINE
  | StepSpawnDescendant invocation =>
      exchange l invocation ("spawn-descendant" +:+ str_of [NEWLINE]) ESCAPED_DESCENDANT_LINE
  | StepRequest invocation index =>
      match choices.(requests) !! Z.to_nat index with
      | None => out_of_fuel
      | Some request =>
          exchange l invocation
            ("fetch " +:+ request.(request_id) +:+ " " +:+ request.(payload) +:+ str_of [NEWLINE])
            (expected_network_line request
               (request_phase index choices.(outage_activation_request_index)
                  choices.(restoration_request_index)))
      end
  | StepActivate =>
      command ← w_issue (ActivateOutage peer_cidr);
      _ ← expect fuel command "outage-activated" true (is_activated peer_cidr);
      mret (MkLocals l.(offsets) true l.(stopped))
  | StepRestore =>
      command ← w_issue (RestoreNetwork peer_cidr);
      _ ← expect fuel command "network-restored" true (is_restored peer_cidr);
      mret (MkLocals l.(offsets) false l.(stopped))
  | StepStart invocation =>
      command ← w_issue (Start invocation launch);
      _ ← expect fuel command "workload-started" false is_launch_response;
      ok ← wait_for_line fuel invocation READY_LINE;
      mret (MkLocals l.(offsets) l.(outage_active) (if ok : bool then l.(stopped) else true))
  | StepTerminate invocation =>
      alive ← live fuel invocation;
      ok ← gets (fun c => healthy c invocation);
      if negb alive || negb ok then mret (MkLocals l.(offsets) l.(outage_active) true)
      else
        command ← w_issue (Terminate invocation);
        _ ← expect fuel command "termination-requested" false is_termination;
        await_release l command invocation
  | StepStdinEof invocation =>
      alive ← live fuel invocation;
      ok ← gets (fun c => healthy c invocation);
      if negb alive || negb ok then mret (MkLocals l.(offsets) l.(outage_active) true)
      else
        let expected_end := default 0 (l.(offsets) !! invocation) in
        command ← w_issue (StdinEof invocation);
        _ ← expect fuel command "input-accepted" false (is_eof_accepted invocation expected_end);
        await_release l command invocation
  end.

Fixpoint steps_loop (steps : list WorkloadStep) (l : Locals) : M C Locals :=
  match steps with
  | [] => mret l
  | step :: rest =>
      if l.(stopped) then mret l
      else l ← run_step step l; steps_loop rest l
  end.

Fixpoint shutdown_loop (fuel : nat) (shutdown : Z) : M C unit :=
  match fuel with
  | O => out_of_fuel
  | S fuel =>
      frame ← receive_one;
      _ ← fail_if (shutdown <? frame.(command_id))
            (invalid_data "an event for a later command arrived while waiting for agent-stopped");
      match frame.(event) with
      | AgentStopped =>
          fail_if (negb (frame.(command_id) =? shutdown))
            (invalid_data ("the agent-stopped response carries command "
               +:+ fmt_dec frame.(command_id) +:+ " instead of " +:+ fmt_dec shutdown))
      | e =>
          _ ← fail_if (negb (is_output e
                             || match e with InputAccepted _ _ _ _ => true | _ => false end)
                       && negb (is_terminal_workload_event e))
                (invalid_data ("unexpected " +:+ Event_describe e
                   +:+ " while waiting for agent-stopped"));
          shutdown_loop fuel shutdown
      end
  end.

(** The commands after the step loop. *)
Definition finish_run (l : Locals) : M C unit :=
  _ ← (if l.(stopped) && l.(outage_active) then
         _ ← drain fuel;
         command ← w_issue (RestoreNetwork peer_cidr);
         _ ← expect fuel command "network-restored" true (is_restored peer_cidr);
         mret tt
       else mret tt);
  shutdown ← w_issue Shutdown;
  _ ← shutdown_loop fuel shutdown;
  w_on_vm vm_finish_events.

Definition drive_workload_body : M C (list NormalizedEvent * AssertionReport) :=
  configure ← w_issue (ConfigureNetwork "eth0" "10.0.2.15/24" scenario.(w_fixture_peer));
  _ ← expect fuel configure "network-configured" true (is_configured scenario.(w_fixture_peer));
  l ← steps_loop (workload_steps choices) (MkLocals ∅ false false);
  _ ← finish_run l;
  c ← gets id;
  match evaluate_workload c.(w_raw_events) scenario choices launch with
  | None => out_of_fuel
  | Some report => mret (c.(w_events), report)
  end.

Definition drive_workload_scenario (vm : V) (d : FailureDiagnostics)
    : option (result (list NormalizedEvent * AssertionReport) * C) :=
  drive_workload_body (WorkloadController_new vm d).
End drive.

(** ** The plan and the checker agree *)

(** The response line of invocation [i] that a step waits for. *)
Definition step_lines (choices : WorkloadChoicePlan) (i : Z) (step : WorkloadStep) : list string :=
  match step with
  | StepStart j => if j =? i then [READY_LINE] else []
  | StepEcho j => if j =? i then ["echo value=" +:+ echo_token choices.(seed) j] else []
  | StepState j => if j =? i then [FRESH_STATE_LINE] else []
  | StepSpawnDescendant j => if j =? i then [ESCAPED_DESCENDANT_LINE] else []
  | StepRequest j index =>
      if j =? i then
        match choices.(requests) !! Z.to_nat index with
        | Some request =>
            [expected_network_line request
               (request_phase index choices.(outage_activation_request_index)
                  choices.(restoration_request_index))]
        | None => []
        end
      else []
  | StepTerminate _ | StepActivate | StepRestore | StepStdinEof _ => []
  end.

Section plan.
Context (choices : WorkloadChoicePlan).
Notation lines_of i := (flat_map (step_lines choices i)).
Notation fault := choices.(process_fault_request_index).

(** The two network steps wait for no line. *)
Lemma network_step_lines i (b1 b2 : bool) rest :
  lines_of i ((if b1 then [StepActivate] else []) ++ (if b2 then [StepRestore] else []) ++ rest)
  = lines_of i rest.
Proof. by destruct b1, b2. Qed.

Lemma request_step_lines j index q qs rest i :
  0 <= index -> drop (Z.to_nat index) choices.(requests) = q :: qs ->
  lines_of i (StepRequest j index :: rest)
  = (if j =? i then [expected_network_line q (request_phase index
       choices.(outage_activation_request_index) choices.(restoration_request_index))] else [])
    ++ lines_of i rest.
Proof.
  intros Hi Hd. cbn [flat_map step_lines]. f_equal. destruct (j =? i); [|done].
  assert (choices.(requests) !! Z.to_nat index = Some q) as ->; [|done].
  rewrite -(Nat.add_0_r (Z.to_nat index)) -lookup_drop Hd //.
Qed.

Lemma drop_next index (q : PlannedRequest) qs :
  0 <= index -> drop (Z.to_nat index) choices.(requests) = q :: qs ->
  drop (Z.to_nat (index + 1)) choices.(requests) = qs.
Proof.
  intros Hi Hd. replace (Z.to_nat (index + 1)) with (Z.to_nat index + 1)%nat by lia.
  by rewrite -drop_drop Hd.
Qed.

(** After the fault, everything belongs to the second invocation. *)
Lemma steps_after_fault index qs :
  0 <= index -> fault < index -> drop (Z.to_nat index) choices.(requests) = qs ->
  lines_of 2 (steps_from choices 2 index (length qs)) = network_lines_from index choices qs /\
  lines_of 1 (steps_from choices 2 index (length qs)) = [].
Proof.
  revert index. induction qs as [|q qs IH]; intros index Hi Hf Hd; [done|].
  cbn [length steps_from network_lines_from].
  assert (index =? fault = false) as -> by (apply Z.eqb_neq; lia). cbn [app].
  rewrite !network_step_lines !(request_step_lines _ _ q qs) //.
  destruct (IH (index + 1)) as [-> ->]; [lia|lia|by eapply drop_next|done].
Qed.

Lemma network_lines_from_app index qs1 qs2 :
  network_lines_from index choices (qs1 ++ qs2)
  = network_lines_from index choices qs1
    ++ network_lines_from (index + zlen qs1) choices qs2.
Proof.
  revert index. induction qs1 as [|q qs1 IH]; intros index; [by rewrite zlen_nil Z.add_0_r|].
  cbn [app network_lines_from]. rewrite IH zlen_cons. do 3 f_equal. lia.
Qed.

Lemma steps_before_fault index qs :
  0 <= index <= fault -> fault < index + zlen qs ->
  drop (Z.to_nat index) choices.(requests) = qs ->
  lines_of 1 (steps_from choices 1 index (length qs))
    = take (Z.to_nat (fault - index)) (network_lines_from index choices qs)
      ++ [ESCAPED_DESCENDANT_LINE] /\
  lines_of 2 (steps_from choices 1 index (length qs))
    = [READY_LINE; "echo value=" +:+ echo_token choices.(seed) 2; FRESH_STATE_LINE]
      ++ drop (Z.to_nat (fault - index)) (network_lines_from index choices qs).
Proof.
  revert index. induction qs as [|q qs IH]; intros index Hi Hf Hd.
  { rewrite zlen_nil in Hf. lia. }
  cbn [length steps_from network_lines_from]. destruct (Z.eqb_spec index fault) as [He|Hne].
  - change (add64 1 1) with 2. rewrite He Z.sub_diag. cbn [Z.to_nat take drop].
    rewrite -He. rewrite !flat_map_app.
    destruct (steps_after_fault (index + 1) qs) as [E2 E1]; [lia|lia|by eapply drop_next; [lia|]|].
    rewrite -!flat_map_app. cbn [app flat_map step_lines Z.eqb Pos.eqb].
    rewrite !network_step_lines !(request_step_lines _ _ q qs) //; try lia. by rewrite E1 E2.
  - cbn [app]. rewrite !network_step_lines !(request_step_lines _ _ q qs) //; try lia.
    rewrite zlen_cons in Hf.
    destruct (IH (index + 1)) as [E1 E2]; [lia|lia|by eapply drop_next; [lia|]|].
    rewrite E1 E2. replace (Z.to_nat (fault - index)) with (S (Z.to_nat (fault - (index + 1)))) by lia.
    done.
Qed.

Lemma steps_expected i :
  0 <= fault < zlen choices.(requests) -> i = 1 \/ i = 2 ->
  expected_lines choices i = Some (lines_of i (workload_steps choices)).
Proof.
  intros Hf Hi. unfold expected_lines, workload_steps. cbv zeta. rewrite network_lines_length.
  destruct (_ <? _) eqn:E; [apply Z.ltb_lt in E; lia|].
  destruct (steps_before_fault 0 choices.(requests)) as [E1 E2]; [lia|lia|done|].
  rewrite Z.sub_0_r in E1, E2. unfold network_lines.
  destruct Hi as [->| ->]; cbn [Z.eqb Pos.eqb app flat_map step_lines]; by rewrite ?E1 ?E2.
Qed.
End plan.

(** ** Termination *)

Definition step_in_range (choices : WorkloadChoicePlan) (step : WorkloadStep) : Prop :=
  match step with
  | StepRequest _ index => is_Some (choices.(requests) !! Z.to_nat index)
  | _ => True
  end.

Lemma steps_from_in_range choices invocation index count :
  0 <= index -> index + Z.of_nat count <= zlen choices.(requests) ->
  Forall (step_in_range choices) (steps_from choices invocation index count).
Proof.
  revert invocation index. induction count as [|count IH]; intros invocation index Hi Hl;
    cbn [steps_from]; [by constructor|].
  assert (Hq : is_Some (choices.(requests) !! Z.to_nat index)).
  { apply lookup_lt_is_Some. unfold zlen in Hl. lia. }
  set (fi := if _ : bool then _ else _).
  assert (Hfault : Forall (step_in_range choices) fi.1).
  { unfold fi. destruct (index =? _); by repeat constructor. }
  destruct fi as [f inv']. cbn in Hfault. apply list.Forall_app. split; [done|].
  repeat (apply list.Forall_app; split); [by destruct (index =? _); repeat constructor..|].
  constructor; [done|]. apply IH; lia.
Qed.

Lemma workload_steps_in_range choices : Forall (step_in_range choices) (workload_steps choices).
Proof.
  unfold workload_steps. repeat (constructor; [done|]). apply steps_from_in_range; [lia|].
  unfold zlen. lia.
Qed.

Section termination.
Context {V : Type} `{FiniteVm V} `{Sha256}.
Notation C := (WorkloadController V).
Definition left_over (c : C) : nat := remaining c.(w_vm).

Lemma returns_modify_w fuel (f : C -> C) :
  (forall c, (f c).(w_vm) = c.(w_vm)) -> returns left_over fuel (modify f).
Proof. intros Hf. apply returns_modify. intros c. unfold left_over. by rewrite Hf. Qed.

Lemma returns_on_vm {A} fuel (op : V -> result A * V) :
  (forall v, remaining (op v).2 <= remaining v)%nat -> returns left_over fuel (w_on_vm op).
Proof.
  intros Ho c _. unfold w_on_vm. specialize (Ho c.(w_vm)). destruct (op (w_vm c)) as [r v].
  by do 2 eexists.
Qed.

Lemma returns_issue fuel cmd : returns left_over fuel (w_issue cmd).
Proof.
  unfold w_issue. apply returns_bind; [apply returns_gets|intros ?].
  apply returns_bind; [by apply returns_modify_w|intros ?].
  apply returns_bind; [apply returns_on_vm, remaining_send|intros ?; apply returns_ret].
Qed.

Lemma returns_absorb fuel frame : returns left_over fuel (absorb frame).
Proof.
  unfold absorb. do 2 (apply returns_bind; [apply returns_gets|intros ?]).
  apply returns_bind; [apply returns_fail_if|intros ?].
  apply returns_bind; [by apply returns_modify_w|intros ?; apply returns_ret].
Qed.

(** Receiving an event uses up one unit of fuel. *)
Lemma returns_receive {A} fuel (k : EventFrame -> M C A) :
  (forall f, returns left_over fuel (k f)) -> returns left_over (S fuel) (receive_one ≫= k).
Proof.
  intros Hk c Hc. unfold receive_one. unfold mbind at 1 2, M_bind at 1 2. unfold w_on_vm at 1.
  unfold left_over in Hc. pose proof (remaining_receive c.(w_vm)) as Hle.
  destruct (vm_receive (w_vm c)) as [[f|e] v] eqn:E; [|by do 2 eexists].
  apply remaining_receive_Ok in E.
  set (c1 := MkWorkload v _ _ _ _ _ _ _). assert (Hlt : (left_over c1 < fuel)%nat) by (unfold left_over; cbn; lia).
  destruct (returns_absorb fuel f c1 Hlt) as (r&c2&E2&Hle2). rewrite E2.
  assert (left_over c1 <= left_over c)%nat by done.
  destruct r as [g|e]; [|exists (Err e), c2; split; [done|lia]].
  destruct (Hk g c2) as (r&c3&E3&Hle3); [lia|]. exists r, c3. split; [done|lia].
Qed.

Lemma returns_drain fuel : returns left_over fuel (drain fuel).
Proof.
  induction fuel as [|fuel IH]; intros c Hc; [lia|]. cbn [drain]. unfold mbind at 1, M_bind at 1.
  unfold w_on_vm. unfold left_over in Hc. pose proof (remaining_try_receive c.(w_vm)) as Hle.
  destruct (vm_try_receive (w_vm c)) as [[[f|]|e] v] eqn:E; [|by do 2 eexists..].
  apply remaining_try_receive_Ok in E. set (c1 := MkWorkload v _ _ _ _ _ _ _).
  assert (left_over c1 <= left_over c)%nat by done.
  destruct (returns_bind left_over fuel (absorb f) (fun _ => drain fuel)
    (returns_absorb fuel f) (fun _ => IH) c1) as (r&c2&E2&Hle2); [unfold left_over; cbn; lia|].
  exists r, c2. split; [done|lia].
Qed.

#[local] Hint Resolve returns_issue returns_drain : returns.

Lemma returns_expect fuel id what allow p : returns left_over fuel (expect fuel id what allow p).
Proof.
  induction fuel as [|fuel IH]; [intros c Hc; lia|]. cbn [expect]. apply returns_receive.
  intros f. solve_returns.
Qed.

Lemma returns_await_input fuel id i start n :
  returns left_over fuel (await_input_accepted fuel id i start n).
Proof.
  induction fuel as [|fuel IH]; [intros c Hc; lia|]. cbn [await_input_accepted].
  apply returns_receive. intros f. solve_returns.
Qed.

Lemma returns_await_exit fuel id i : returns left_over fuel (await_exit fuel id i).
Proof.
  unfold await_exit. apply returns_bind; [apply returns_gets|intros b]. apply returns_if;
    [apply returns_ret|]. clear b.
  induction fuel as [|fuel IH]; [intros c Hc; lia|]. cbn [await_exit_loop].
  apply returns_receive. intros f. cbv zeta. solve_returns.
Qed.

Lemma returns_wait_for_line fuel i line : returns left_over fuel (wait_for_line fuel i line).
Proof.
  induction fuel as [|fuel IH]; [intros c Hc; lia|]. cbn [wait_for_line].
  apply returns_bind; [apply returns_gets|intros c]. apply returns_if; [apply returns_ret|].
  apply returns_if.
  - apply returns_bind; [by apply returns_modify_w|intros ?]. solve_returns.
  - apply returns_if; [apply returns_ret|]. by apply returns_receive.
Qed.
#[local] Hint Resolve returns_expect returns_await_input returns_await_exit returns_wait_for_line
  : returns.

Lemma returns_exchange fuel l i text response : returns left_over fuel (exchange fuel l i text response).
Proof. unfold exchange, write_stdin. cbv zeta. solve_returns. Qed.
#[local] Hint Resolve returns_exchange : returns.

Context (fuel : nat) (scenario : WorkloadScenario) (choices : WorkloadChoicePlan)
  (launch : LaunchIdentity).

Lemma returns_run_step step l :
  step_in_range choices step ->
  returns left_over fuel (run_step fuel scenario choices launch step l).
Proof.
  intros Hr. destruct step; cbn [run_step]; cbv zeta; unfold await_release, live;
    try (by solve_returns).
  cbn in Hr. destruct Hr as [q ->]. solve_returns.
Qed.

Lemma returns_steps_loop steps l :
  Forall (step_in_range choices) steps ->
  returns left_over fuel (steps_loop fuel scenario choices launch steps l).
Proof.
  intros Hs. revert l. induction Hs as [|step steps Hr Hs IH]; intros l; cbn [steps_loop];
    [apply returns_ret|].
  apply returns_if; [apply returns_ret|]. apply returns_bind; [by apply returns_run_step|done].
Qed.

Lemma returns_shutdown_loop f id : returns left_over f (shutdown_loop f id).
Proof.
  induction f as [|f IH]; [intros c Hc; lia|]. cbn [shutdown_loop]. apply returns_receive.
  intros g. solve_returns.
Qed.
#[local] Hint Resolve returns_shutdown_loop : returns.

Lemma returns_finish_run l : returns left_over fuel (finish_run fuel scenario l).
Proof.
  unfold finish_run. apply returns_bind; [solve_returns|intros ?].
  apply returns_bind; [solve_returns|intros ?]. apply returns_bind; [solve_returns|intros ?].
  apply returns_on_vm, remaining_finish.
Qed.

Lemma drive_workload_total vm d :
  (remaining vm < fuel)%nat ->
  0 <= choices.(process_fault_request_index) <= zlen choices.(requests) ->
  exists r c, drive_workload_scenario fuel scenario choices launch vm d = Some (r, c).
Proof.
  intros Hf Hc. unfold drive_workload_scenario.
  cut (returns left_over fuel (drive_workload_body (V:=V) fuel scenario choices launch)).
  { intros Hr. destruct (Hr (WorkloadController_new vm d) Hf) as (r&c&E&_). by exists r, c. }
  unfold drive_workload_body. do 2 (apply returns_bind; [solve_returns|intros ?]).
  apply returns_bind; [apply returns_steps_loop, workload_steps_in_range|intros l].
  apply returns_bind; [apply returns_finish_run|intros ?].
  apply returns_bind; [apply returns_gets|intros c].
  destruct (evaluate_workload_Some c.(w_raw_events) scenario choices launch Hc) as [report ->].
  apply returns_ret.
Qed.
End termination.

(** ** The planned commands *)

(** The input line a step writes. *)
Definition step_text (choices : WorkloadChoicePlan) (step : WorkloadStep) : option (Z * string) :=
  match step with
  | StepEcho i => Some (i, "echo " +:+ echo_token choices.(seed) i +:+ str_of [NEWLINE])
  | StepState i => Some (i, "state" +:+ str_of [NEWLINE])
  | StepSpawnDescendant i => Some (i, "spawn-descendant" +:+ str_of [NEWLINE])
  | StepRequest i index =>
      (fun q => (i, "fetch " +:+ q.(request_id) +:+ " " +:+ q.(payload) +:+ str_of [NEWLINE]))
        <$> choices.(requests) !! Z.to_nat index
  | _ => None
  end.

(** The command of a step, with the input written so far. *)
Definition step_command (scenario : WorkloadScenario) (choices : WorkloadChoicePlan)
    (launch : LaunchIdentity) (written : gmap Z Z) (step : WorkloadStep) : Command :=
  match step with
  | StepStart i => Start i launch
  | StepTerminate i => Terminate i
  | StepStdinEof i => StdinEof i
  | StepActivate => ActivateOutage (scenario.(w_fixture_peer) +:+ "/32")
  | StepRestore => RestoreNetwork (scenario.(w_fixture_peer) +:+ "/32")
  | _ =>
      match step_text choices step with
      | Some (i, text) => StdinWrite i (default 0 (written !! i)) (encode_bytes (as_bytes text))
      | None => Shutdown
      end
  end.

Definition step_offsets (choices : WorkloadChoicePlan) (written : gmap Z Z) (step : WorkloadStep)
    : gmap Z Z :=
  match step_text choices step with
  | Some (i, text) => <[i := add64 (default 0 (written !! i)) (str_len text)]> written
  | None => written
  end.

Fixpoint planned_commands scenario choices launch (written : gmap Z Z) (steps : list WorkloadStep)
    : list Command :=
  match steps with
  | [] => []
  | step :: rest =>
      step_command scenario choices launch written step
      :: planned_commands scenario choices launch (step_offsets choices written step) rest
  end.

(** The administrative outage after a command. *)
Definition command_outage (active : bool) (c : Command) : bool :=
  match c with ActivateOutage _ => true | RestoreNetwork _ => false | _ => active end.
Definition outage_after (cmds : list Command) (active : bool) : bool :=
  fold_left command_outage cmds active.

(** ** The recording invariant *)

Section invariant.
Context {V : Type} `{VmLog V}.
Notation C := (WorkloadController V).

Record w_recorded (v0 : V) (cmds : list Command) (c : C) : Prop := {
  wr_events : c.(w_events) = map normalize c.(w_raw_events);
  wr_ids : event_ids c.(w_raw_events);
  wr_next_event : c.(w_next_event_id) = nth_id (length c.(w_raw_events));
  wr_version : Forall (fun f => f.(protocol_version) = PROTOCOL_VERSION) c.(w_raw_events);
  wr_trace : c.(w_trace) = trace_of c.(w_raw_events);
  wr_next_command : c.(w_next_command_id) = nth_id (length cmds);
  wr_sent : sent c.(w_vm) = sent v0 ++ command_frames cmds;
}.

Definition any_error (e : io_error) (c : C) : Prop := True.
Context (v0 : V).
Notation inv := (w_recorded v0).

Lemma w_recorded_new d : inv [] (WorkloadController_new v0 d).
Proof. constructor; try done. by rewrite app_nil_r. Qed.

Lemma w_recorded_vm cmds c v :
  inv cmds c -> sent v = sent c.(w_vm) ->
  inv cmds (MkWorkload v c.(w_diagnostics) c.(w_next_command_id) c.(w_next_event_id)
    c.(w_raw_events) c.(w_events) c.(w_trace) c.(w_consumed_lines)).
Proof. intros [] Hv. constructor; try done. cbn. by rewrite Hv. Qed.

Lemma w_issue_spec cmds cmd : triple (inv cmds) (w_issue cmd) (fun _ => inv (cmds ++ [cmd])) any_error.
Proof.
  intros c Hc. unfold w_issue. cbv [mbind M_bind gets modify w_on_vm mret M_ret].
  cbn [w_bump_command w_vm]. set (frame := {| cmd_protocol_version := _ |}).
  pose proof (sent_send frame c.(w_vm)) as Hs.
  destruct (vm_send frame (w_vm c)) as [[[]|e] v]; [|done]. cbn in Hs.
  destruct Hc. constructor; try done; cbn.
  - by rewrite wr_next_command0 nth_id_S length_app Nat.add_1_r.
  - rewrite Hs wr_sent0 command_frames_snoc -app_assoc. unfold frame. by rewrite wr_next_command0.
Qed.

Lemma absorb_spec cmds f :
  triple (inv cmds) (absorb f) (fun g c => inv cmds c /\ list.last c.(w_raw_events) = Some g) any_error.
Proof.
  intros c Hc. unfold absorb. cbv [mbind M_bind gets modify mret M_ret fail_if].
  destruct (_ || _) eqn:Hb; [done|]. reflect_guards. destruct Hc.
  split; [|cbn; apply last_snoc].
  constructor; try done; cbn [fold_frame w_vm w_next_command_id w_next_event_id w_raw_events
    w_events w_trace].
  - by rewrite wr_events0 map_app.
  - apply event_ids_snoc; [done|congruence].
  - by rewrite wr_next_event0 nth_id_S length_app Nat.add_1_r.
  - apply list.Forall_app. split; [done|]. by repeat constructor.
  - by rewrite trace_of_snoc wr_trace0.
Qed.

Lemma receive_one_spec cmds :
  triple (inv cmds) receive_one
    (fun g c => inv cmds c /\ list.last c.(w_raw_events) = Some g) any_error.
Proof.
  unfold receive_one. eapply triple_bind with (R := fun _ => inv cmds); [|intros; apply absorb_spec].
  intros c Hc. unfold w_on_vm. pose proof (sent_receive c.(w_vm)) as Hs.
  destruct (vm_receive (w_vm c)) as [[f|e] v]; [|done]. by apply w_recorded_vm.
Qed.

(** Loops that only read events keep the invariant. *)
Notation reads m := (forall cmds, triple (inv cmds) m (fun _ => inv cmds) any_error).

Lemma reads_receive {A} (k : EventFrame -> M C A) :
  (forall f, reads (k f)) -> reads (receive_one ≫= k).
Proof.
  intros Hk cmds. eapply triple_bind; [apply receive_one_spec|]. intros f.
  eapply triple_consequence; [apply (Hk f cmds)|by intros ? [? _]|done|done].
Qed.
Lemma vm_reads_bind {A B} (m : M C A) (k : A -> M C B) :
  reads m -> (forall a, reads (k a)) -> reads (m ≫= k).
Proof. intros Hm Hk cmds. eapply triple_bind; [apply Hm|intros a; apply Hk]. Qed.
Lemma vm_reads_ret {A} (a : A) : reads (mret a : M C A).
Proof. intros cmds. by apply triple_ret. Qed.
Lemma vm_reads_throw {A} e : reads (throw e : M C A).
Proof. intros cmds. by apply triple_throw. Qed.
Lemma reads_fuel {A} : reads (out_of_fuel : M C A).
Proof. done. Qed.
Lemma reads_gets {A} (f : C -> A) : reads (gets f).
Proof. intros cmds. by apply triple_gets. Qed.
Lemma vm_reads_fail_if b e : reads (fail_if b e : M C unit).
Proof. destruct b; [apply vm_reads_throw|apply vm_reads_ret]. Qed.
Lemma reads_if {A} (b : bool) (m1 m2 : M C A) : reads m1 -> reads m2 -> reads (if b then m1 else m2).
Proof. by destruct b. Qed.
Lemma reads_absorb f : reads (absorb f).
Proof.
  intros cmds. eapply triple_consequence; [apply (absorb_spec cmds f)|done|by intros ? ? [? _]|done].
Qed.
Lemma reads_try : reads (w_on_vm vm_try_receive).
Proof.
  intros cmds c Hc. unfold w_on_vm. pose proof (sent_try_receive c.(w_vm)) as Hs.
  destruct (vm_try_receive (w_vm c)) as [[f|e] v]; [|done]. by apply w_recorded_vm.
Qed.
Lemma reads_finish : reads (w_on_vm vm_finish_events).
Proof.
  intros cmds c Hc. unfold w_on_vm. pose proof (sent_finish c.(w_vm)) as Hs.
  destruct (vm_finish_events (w_vm c)) as [[[]|e] v]; [|done]. by apply w_recorded_vm.
Qed.
Lemma reads_consume i : reads (modify (consume_line i)).
Proof. intros cmds. apply triple_modify. intros c []. by constructor. Qed.

Ltac solve_reads :=
  repeat first
    [ solve [eauto using vm_reads_ret, vm_reads_throw, reads_fuel, reads_gets, vm_reads_fail_if, reads_absorb,
               reads_try, reads_finish, reads_consume]
    | apply reads_receive; intros ?
    | apply vm_reads_bind; [|intros ?]
    | apply reads_if
    | case_match ].

Lemma reads_drain fuel : reads (drain fuel).
Proof. induction fuel as [|fuel IH]; cbn [drain]; solve_reads. Qed.
Lemma reads_expect fuel id what allow p : reads (expect fuel id what allow p).
Proof. induction fuel as [|fuel IH]; cbn [expect]; solve_reads. Qed.
Lemma reads_await_input fuel id i start n : reads (await_input_accepted fuel id i start n).
Proof. induction fuel as [|fuel IH]; cbn [await_input_accepted]; solve_reads. Qed.
Lemma reads_await_exit fuel id i : reads (await_exit fuel id i).
Proof.
  unfold await_exit. apply vm_reads_bind; [apply reads_gets|intros b].
  apply reads_if; [apply vm_reads_ret|]. clear b.
  induction fuel as [|fuel IH]; cbn [await_exit_loop]; cbv zeta; solve_reads.
Qed.
Lemma reads_wait_for_line fuel i line : reads (wait_for_line fuel i line).
Proof. induction fuel as [|fuel IH]; cbn [wait_for_line]; cbv zeta; solve_reads. Qed.
Lemma reads_live fuel i : reads (live fuel i).
Proof. unfold live. apply vm_reads_bind; [apply reads_drain|intros ?; apply reads_gets]. Qed.

(** ** The commands a drive sends *)

Context `{Sha256} (fuel : nat) (scenario : WorkloadScenario) (choices : WorkloadChoicePlan)
  (launch : LaunchIdentity).
Notation step_cmd := (step_command scenario choices launch).

(** After a step: either it completed, and its command was sent, or the drive
    stops, with or without the command, which is then not a network command. *)
Definition step_post (cmds : list Command) (l : Locals) (step : WorkloadStep) (l' : Locals) (c : C)
    : Prop :=
  let cmd := step_cmd l.(offsets) step in
  (l'.(stopped) = true /\ l'.(outage_active) = l.(outage_active) /\
   (forall a, command_outage a cmd = a) /\ (inv cmds c \/ inv (cmds ++ [cmd]) c)) \/
  (l'.(stopped) = false /\ l'.(offsets) = step_offsets choices l.(offsets) step /\
   l'.(outage_active) = command_outage l.(outage_active) cmd /\ inv (cmds ++ [cmd]) c).

Lemma write_stdin_spec cmds i offset text :
  triple (inv cmds) (write_stdin fuel i offset text)
    (fun r c => let cmds' := cmds ++ [StdinWrite i offset (encode_bytes (as_bytes text))] in
       (r.1 = false /\ (inv cmds c \/ inv cmds' c)) \/
       (r = (true, add64 offset (str_len text)) /\ inv cmds' c)) any_error.
Proof.
  unfold write_stdin. eapply triple_bind; [apply reads_drain|intros ?].
  eapply triple_bind; [apply reads_gets|intros ok]. apply triple_if; intros _.
  { apply triple_ret. by left; split; [|left]. }
  eapply triple_bind; [apply w_issue_spec|intros id]. eapply triple_bind; [apply reads_await_input|intros accepted].
  apply triple_if; intros _; apply triple_ret; [by left; split; [|right]|by right].
Qed.

Lemma exchange_spec cmds l i text response step :
  l.(stopped) = false -> step_text choices step = Some (i, text) ->
  step_cmd l.(offsets) step = StdinWrite i (default 0 (l.(offsets) !! i)) (encode_bytes (as_bytes text)) ->
  triple (inv cmds) (exchange fuel l i text response) (step_post cmds l step) any_error.
Proof.
  intros Hs Ht Hc. unfold exchange. cbv zeta. eapply triple_bind; [apply write_stdin_spec|].
  intros [ok offset]. cbn [offsets outage_active stopped fst snd]. unfold step_post. rewrite Hc.
  apply triple_if; intros Hok; [apply negb_true_iff in Hok|apply negb_false_iff in Hok]; subst ok.
  - apply triple_ret. intros c [[_ Hi]|[Hr _]]; [|done]. left. by split_and!.
  - eapply triple_bind with (R := fun _ c => offset = add64 (default 0 (l.(offsets) !! i)) (str_len text) /\
      inv (cmds ++ [StdinWrite i (default 0 (offsets l !! i)) (encode_bytes (as_bytes text))]) c).
    { intros c [[Hf _]|[Hr Hi]]; [done|]. pose proof (reads_wait_for_line fuel i response _ c Hi) as Hw.
      destruct (wait_for_line _ _ _ _) as [[[b|e] c']|]; [|done..]. split; [by injection Hr|done]. }
    intros b. apply triple_ret. intros c [-> Hi]. destruct b.
    + right. cbn [stopped offsets outage_active command_outage]. unfold step_offsets. rewrite Ht Hs.
      by split_and!.
    + left. by split_and!; try right.
Qed.

Lemma await_release_spec cmds cmds' l step id i :
  l.(stopped) = false -> cmds' = cmds ++ [step_cmd l.(offsets) step] ->
  step_text choices step = None -> (forall a, command_outage a (step_cmd l.(offsets) step) = a) ->
  triple (inv cmds') (await_release fuel l id i) (step_post cmds l step) any_error.
Proof.
  intros Hs -> Ht Ho. unfold await_release. eapply triple_bind; [apply reads_await_exit|intros ok].
  apply triple_if; intros _.
  - apply triple_ret. intros c Hi. left. by split_and!; try right.
  - eapply triple_bind; [apply reads_expect|intros ?]. apply triple_ret. intros c Hi. right.
    unfold step_offsets. rewrite Ht Ho. by split_and!.
Qed.

(** The guard of the two release steps. *)
Lemma release_guard_spec cmds l step i (k : M C Locals) :
  (forall a, command_outage a (step_cmd l.(offsets) step) = a) ->
  triple (inv cmds) k (step_post cmds l step) any_error ->
  triple (inv cmds)
    (alive ← live fuel i; ok ← gets (fun c => healthy c i);
     if negb alive || negb ok then mret (MkLocals l.(offsets) l.(outage_active) true) else k)
    (step_post cmds l step) any_error.
Proof.
  intros Ho Hk. eapply triple_bind; [apply reads_live|intros alive].
  eapply triple_bind; [apply reads_gets|intros ok]. apply triple_if; intros _; [|done].
  apply triple_ret. intros c Hi. left. by split_and!; try left.
Qed.

Lemma run_step_spec cmds l step :
  l.(stopped) = false -> step_in_range choices step ->
  triple (inv cmds) (run_step fuel scenario choices launch step l) (step_post cmds l step) any_error.
Proof.
  intros Hs Hr. destruct step as [i|i|i|i|i| | |i index|i]; cbn [run_step]; cbv zeta.
  - by apply exchange_spec.
  - by apply exchange_spec.
  - by apply exchange_spec.
  - eapply triple_bind; [apply w_issue_spec|intros id]. eapply triple_bind; [apply reads_expect|intros ?].
    eapply triple_bind; [apply reads_wait_for_line|intros ok]. apply triple_ret. intros c Hi.
    destruct ok; [right|left; by split_and!; try right]. by rewrite /= Hs.
  - apply release_guard_spec; [done|]. eapply triple_bind; [apply w_issue_spec|intros id].
    eapply triple_bind; [apply reads_expect|intros ?]. by apply await_release_spec.
  - eapply triple_bind; [apply w_issue_spec|intros id]. eapply triple_bind; [apply reads_expect|intros ?].
    apply triple_ret. intros c Hi. right. by rewrite /= Hs.
  - eapply triple_bind; [apply w_issue_spec|intros id]. eapply triple_bind; [apply reads_expect|intros ?].
    apply triple_ret. intros c Hi. right. by rewrite /= Hs.
  - destruct Hr as [q Hq]. rewrite Hq. apply exchange_spec; [done|by cbn; rewrite Hq|by cbn; rewrite Hq].
  - apply release_guard_spec; [done|]. eapply triple_bind; [apply w_issue_spec|intros id].
    eapply triple_bind; [apply reads_expect|intros ?]. by apply await_release_spec.
Qed.

Notation planned := (planned_commands scenario choices launch).

Lemma steps_loop_spec cmds steps l :
  l.(stopped) = false -> Forall (step_in_range choices) steps ->
  triple (inv cmds) (steps_loop fuel scenario choices launch steps l)
    (fun l' c => exists k, (k <= length steps)%nat /\
       inv (cmds ++ take k (planned l.(offsets) steps)) c /\
       l'.(outage_active) = outage_after (take k (planned l.(offsets) steps)) l.(outage_active) /\
       (l'.(stopped) = false -> k = length steps)) any_error.
Proof.
  intros Hs Hr. revert cmds l Hs. induction Hr as [|step steps Hr _ IH]; intros cmds l Hs; cbn [steps_loop].
  { apply triple_ret. intros c Hi. exists O. by rewrite app_nil_r. }
  rewrite Hs. eapply triple_bind; [by apply run_step_spec|]. intros l1.
  cbn [planned_commands]. set (cmd := step_cmd (offsets l) step).
  intros c [(Hs1&Ho&Hc&Hi)|(Hs1&Hoff&Ho&Hi)].
  - assert (steps_loop fuel scenario choices launch steps l1 c = Some (Ok l1, c)) as ->.
    { destruct steps; cbn [steps_loop]; by rewrite ?Hs1. }
    destruct Hi as [Hi|Hi]; [exists 0%nat|exists 1%nat]; cbn [take outage_after fold_left length];
      rewrite ?app_nil_r ?Ho ?Hc Hs1; (split_and!; [lia|done|done|done]).
  - specialize (IH (cmds ++ [cmd]) l1 Hs1 c Hi).
    destruct (steps_loop _ _ _ _ steps l1 c) as [[[l2|e] c2]|]; [|done..].
    destruct IH as (k&Hk&Hi2&Ho2&Hend). exists (S k). rewrite Hoff Ho in Hi2, Ho2.
    rewrite -app_assoc in Hi2. cbn [length take].
    split_and!; [lia|exact Hi2|exact Ho2|intros Hst; by rewrite (Hend Hst)].
Qed.

Lemma shutdown_loop_spec cmds n id :
  triple (inv cmds) (shutdown_loop n id)
    (fun _ c => inv cmds c /\ exists f, list.last c.(w_raw_events) = Some f /\ f.(event) = AgentStopped)
    any_error.
Proof.
  induction n as [|n IH]; cbn [shutdown_loop]; [done|].
  eapply triple_bind; [apply receive_one_spec|]. intros f.
  eapply triple_bind with (R := fun _ c => inv cmds c /\ list.last c.(w_raw_events) = Some f).
  { by apply triple_fail_if. }
  intros ?. destruct (f.(event)) eqn:Ef.
  16: { apply triple_fail_if; [done|]. intros c [Hi Hl] _. split; [done|]. by exists f. }
  all: eapply triple_bind with (R := fun _ => inv cmds); [|by intros ?].
  all: apply triple_fail_if; [done|by intros ? [? _]].
Qed.

Lemma finish_run_spec cmds l :
  triple (inv cmds) (finish_run fuel scenario l)
    (fun _ c => inv (cmds ++ (if l.(stopped) && l.(outage_active)
         then [RestoreNetwork (scenario.(w_fixture_peer) +:+ "/32")] else []) ++ [Shutdown]) c /\
       exists f, list.last c.(w_raw_events) = Some f /\ f.(event) = AgentStopped) any_error.
Proof.
  unfold finish_run. eapply triple_bind with (R := fun _ => inv (cmds ++ (if l.(stopped) && l.(outage_active)
    then [RestoreNetwork (scenario.(w_fixture_peer) +:+ "/32")] else []))).
  { destruct (stopped l && outage_active l).
    - eapply triple_bind; [apply reads_drain|intros ?]. eapply triple_bind; [apply w_issue_spec|intros id].
      eapply triple_bind; [apply reads_expect|intros ?]. by apply triple_ret.
    - apply triple_ret. intros c. by rewrite app_nil_r. }
  intros ?. eapply triple_bind; [apply w_issue_spec|intros id]. rewrite -app_assoc.
  eapply triple_bind; [apply shutdown_loop_spec|]. intros ? c [Hi Hf].
  pose proof (reads_finish _ c Hi) as Hr. unfold w_on_vm in *.
  destruct (vm_finish_events (w_vm c)) as [[[]|e] v]; [|done]. by split.
Qed.

(** What a finished workload drive has established. *)
Definition workload_record (r : list NormalizedEvent * AssertionReport) (c : C) : Prop :=
  exists k l, (k <= length (workload_steps choices))%nat /\
    let plan := take k (planned ∅ (workload_steps choices)) in
    inv ([ConfigureNetwork "eth0" "10.0.2.15/24" scenario.(w_fixture_peer)] ++ plan
         ++ (if l.(stopped) && l.(outage_active)
             then [RestoreNetwork (scenario.(w_fixture_peer) +:+ "/32")] else []) ++ [Shutdown]) c /\
    l.(outage_active) = outage_after plan false /\
    (l.(stopped) = false -> k = length (workload_steps choices)) /\
    (exists f, list.last c.(w_raw_events) = Some f /\ f.(event) = AgentStopped) /\
    r.1 = c.(w_events) /\ evaluate_workload c.(w_raw_events) scenario choices launch = Some r.2.

Lemma drive_workload_spec d :
  triple (fun c => c = WorkloadController_new v0 d)
    (drive_workload_body fuel scenario choices launch) workload_record any_error.
Proof.
  unfold drive_workload_body.
  eapply triple_bind with (R := fun _ => inv [ConfigureNetwork "eth0" "10.0.2.15/24" scenario.(w_fixture_peer)]).
  { intros c ->. apply (w_issue_spec []). apply w_recorded_new. }
  intros ?. eapply triple_bind; [apply reads_expect|intros ?].
  eapply triple_bind; [apply steps_loop_spec; [done|apply workload_steps_in_range]|]. intros l.
  apply triple_at. intros c1 (k&Hk&Hi&Ho&Hend). cbn [offsets outage_active] in Hi, Ho.
  eapply triple_bind; [intros c ->; by apply finish_run_spec|]. intros ?.
  rewrite -app_assoc. apply triple_at. intros c2 [Hi2 Hlast].
  eapply triple_bind with (R := fun c' c => c' = c2 /\ c = c2); [by apply triple_gets|].
  intros c'. intros c [-> ->].
  destruct (evaluate_workload (w_raw_events c2) scenario choices launch) as [report|] eqn:Er; [|done].
  exists k, l. by split_and!.
Qed.
End invariant.

(** ** Every delivered frame is recorded *)

Section tape.
Context {V : Type} `{VmTape V}.
Notation C := (WorkloadController V).
Context (v0 : V).

(** The frames the machine delivered since [v0] are the recorded ones. *)
Definition all_recorded (c : C) : Prop := received c.(w_vm) = received v0 ++ c.(w_raw_events).
(** A computation that returns has recorded what it received. *)
Notation records m := (triple all_recorded m (fun _ => all_recorded) any_error).

Lemma records_ret {A} (a : A) : records (mret a : M C A).
Proof. by apply triple_ret. Qed.
Lemma records_throw {A} e : records (throw e : M C A).
Proof. by apply triple_throw. Qed.
Lemma records_fuel {A} : records (out_of_fuel : M C A).
Proof. done. Qed.
Lemma records_gets {A} (f : C -> A) : records (gets f).
Proof. by apply triple_gets. Qed.
Lemma records_fail_if b e : records (fail_if b e : M C unit).
Proof. destruct b; [apply records_throw|apply records_ret]. Qed.
Lemma records_bind {A B} (m : M C A) (k : A -> M C B) :
  records m -> (forall a, records (k a)) -> records (m ≫= k).
Proof. intros Hm Hk. by eapply triple_bind. Qed.
Lemma records_if {A} (b : bool) (m1 m2 : M C A) : records m1 -> records m2 -> records (if b then m1 else m2).
Proof. by destruct b. Qed.
Lemma records_consume i : records (modify (consume_line i)).
Proof. by apply triple_modify. Qed.

Lemma records_issue cmd : records (w_issue cmd).
Proof.
  intros c Hc. unfold w_issue. cbv [mbind M_bind gets modify w_on_vm mret M_ret].
  cbn [w_bump_command w_vm]. set (frame := {| cmd_protocol_version := _ |}).
  pose proof (received_send frame c.(w_vm)) as Hs. destruct (vm_send frame (w_vm c)) as [[[]|e] v]; [|done].
  unfold all_recorded. cbn. by rewrite Hs.
Qed.

(** A frame taken from the machine is recorded by [absorb], or the run fails. *)
Lemma records_absorb f c : received c.(w_vm) = (received v0 ++ c.(w_raw_events)) ++ [f] ->
  match absorb f c with Some (Ok _, c') => all_recorded c' | _ => True end.
Proof.
  intros Hc. unfold absorb. cbv [mbind M_bind gets modify mret M_ret fail_if].
  destruct (_ || _); [done|]. unfold all_recorded. cbn. by rewrite Hc -app_assoc.
Qed.
Lemma records_receive_one : records receive_one.
Proof.
  intros c Hc. unfold receive_one. unfold mbind, M_bind, w_on_vm.
  destruct (vm_receive (w_vm c)) as [[f|e] v] eqn:E; [|done]. apply received_receive in E.
  set (c1 := MkWorkload v _ _ _ _ _ _ _). pose proof (records_absorb f c1) as Ha. cbn in Ha.
  rewrite E Hc in Ha. specialize (Ha eq_refl). by destruct (absorb f c1) as [[[g|e] c2]|].
Qed.
Lemma records_drain n : records (drain n).
Proof.
  induction n as [|n IH]; [done|]. intros c Hc. cbn [drain]. unfold mbind at 1, M_bind at 1, w_on_vm.
  destruct (vm_try_receive (w_vm c)) as [[o|e] v] eqn:E; [|done]. apply received_try_receive in E.
  set (c1 := MkWorkload v _ _ _ _ _ _ _). destruct o as [f|]; cbn in E.
  - pose proof (records_absorb f c1) as Ha. cbn in Ha. rewrite E Hc in Ha. specialize (Ha eq_refl).
    cbv [mbind M_bind]. destruct (absorb f c1) as [[[g|e] c2]|]; [by apply IH|done..].
  - unfold all_recorded. cbn. by rewrite E Hc app_nil_r.
Qed.
Lemma records_finish : records (w_on_vm vm_finish_events).
Proof.
  intros c Hc. unfold w_on_vm. destruct (vm_finish_events (w_vm c)) as [[[]|e] v] eqn:E; [|done].
  apply received_finish in E. unfold all_recorded. cbn. by rewrite E.
Qed.

Ltac solve_records :=
  repeat first
    [ solve [eauto using records_ret, records_throw, records_fuel, records_gets, records_fail_if,
               records_issue, records_receive_one, records_drain, records_finish, records_consume]
    | apply records_bind; [|intros ?]
    | apply records_if
    | case_match ].

Lemma records_expect n id what allow p : records (expect n id what allow p).
Proof. induction n as [|n IH]; cbn [expect]; solve_records. Qed.
Lemma records_await_input n id i start k : records (await_input_accepted n id i start k).
Proof. induction n as [|n IH]; cbn [await_input_accepted]; solve_records. Qed.
Lemma records_await_exit n id i : records (await_exit n id i).
Proof.
  assert (Hl : records (await_exit_loop n id i)).
  { induction n as [|n IH]; cbn [await_exit_loop]; cbv zeta; solve_records. }
  unfold await_exit. solve_records.
Qed.
Lemma records_wait_for_line n i line : records (wait_for_line n i line).
Proof. induction n as [|n IH]; cbn [wait_for_line]; cbv zeta; solve_records. Qed.
Lemma records_shutdown_loop n id : records (shutdown_loop n id).
Proof. induction n as [|n IH]; cbn [shutdown_loop]; solve_records. Qed.

Context `{Sha256} (fuel : nat) (scenario : WorkloadScenario) (choices : WorkloadChoicePlan)
  (launch : LaunchIdentity).

Lemma records_exchange l i text response : records (exchange fuel l i text response).
Proof.
  pose proof records_await_input. pose proof records_wait_for_line.
  unfold exchange, write_stdin. cbv zeta. solve_records.
Qed.
Lemma records_run_step step l : records (run_step fuel scenario choices launch step l).
Proof.
  pose proof records_exchange. pose proof records_expect. pose proof records_wait_for_line.
  pose proof records_await_exit.
  destruct step; cbn [run_step]; cbv zeta; unfold await_release, live; solve_records.
Qed.
Lemma records_steps_loop steps l : records (steps_loop fuel scenario choices launch steps l).
Proof.
  pose proof records_run_step. revert l. induction steps as [|step steps IH]; intros l;
    cbn [steps_loop]; solve_records.
Qed.

Lemma drive_records d : triple (fun c => c = WorkloadController_new v0 d)
  (drive_workload_body fuel scenario choices launch) (fun _ => all_recorded) any_error.
Proof.
  pose proof records_expect. pose proof records_steps_loop. pose proof records_shutdown_loop.
  eapply triple_consequence with (P := all_recorded) (Q := fun _ => all_recorded) (E := any_error);
    [|intros c ->; unfold all_recorded; cbn; by rewrite app_nil_r|done|done].
  unfold drive_workload_body, finish_run. solve_records.
Qed.
End tape.

(** ** The planned outage ends *)

Definition step_outage (active : bool) (step : WorkloadStep) : bool :=
  match step with StepActivate => true | StepRestore => false | _ => active end.

Lemma command_outage_step scenario choices launch written step a :
  command_outage a (step_command scenario choices launch written step) = step_outage a step.
Proof.
  destruct step; try done. unfold step_command. by destruct (step_text _ _) as [[? ?]|].
Qed.

Lemma outage_after_planned scenario choices launch written steps a :
  outage_after (planned_commands scenario choices launch written steps) a
  = fold_left step_outage steps a.
Proof.
  revert written a. induction steps as [|step steps IH]; intros written a; [done|].
  cbn [planned_commands outage_after fold_left]. rewrite command_outage_step. apply IH.
Qed.

Section outage.
Context (choices : WorkloadChoicePlan).
Notation activation := choices.(outage_activation_request_index).
Notation restoration := choices.(restoration_request_index).
Notation ends := (fold_left step_outage).

Lemma fold_fault_steps (b : bool) invocation a rest :
  ends ((if b then ([StepSpawnDescendant invocation; StepTerminate invocation;
           StepStart (add64 invocation 1); StepEcho (add64 invocation 1);
           StepState (add64 invocation 1)], add64 invocation 1) else ([], invocation)).1 ++ rest) a
  = ends rest a.
Proof. by destruct b. Qed.

Lemma outage_after_restoration invocation index count a :
  restoration < index -> activation <= restoration ->
  ends (steps_from choices invocation index count) a = a.
Proof.
  revert invocation index. induction count as [|count IH]; intros invocation index Hr Ha; [done|].
  cbn [steps_from]. destruct (if _ : bool then _ else _) as [f inv'] eqn:Ef.
  pose proof (fold_fault_steps (index =? process_fault_request_index choices) invocation a) as Hf.
  rewrite Ef in Hf. cbn [fst] in Hf. rewrite Hf.
  assert (index =? activation = false) as -> by (apply Z.eqb_neq; lia).
  assert (index =? restoration = false) as -> by (apply Z.eqb_neq; lia).
  cbn [app fold_left step_outage]. apply IH; lia.
Qed.

Lemma outage_restored invocation index count a :
  index <= restoration < index + Z.of_nat count -> activation <= restoration ->
  ends (steps_from choices invocation index count) a = false.
Proof.
  revert invocation index a. induction count as [|count IH]; intros invocation index a Hr Ha; [lia|].
  cbn [steps_from]. destruct (if _ : bool then _ else _) as [f inv'] eqn:Ef.
  pose proof (fold_fault_steps (index =? process_fault_request_index choices) invocation a) as Hf.
  rewrite Ef in Hf. cbn [fst] in Hf. rewrite Hf.
  destruct (Z.eqb_spec index restoration) as [He|Hne].
  - destruct (index =? activation); cbn [app fold_left step_outage]; apply outage_after_restoration; lia.
  - destruct (index =? activation); cbn [app fold_left step_outage]; apply IH; lia.
Qed.

Lemma planned_outage_ends scenario launch :
  0 <= restoration < zlen choices.(requests) -> activation <= restoration ->
  outage_after (planned_commands scenario choices launch ∅ (workload_steps choices)) false = false.
Proof.
  intros Hr Ha. rewrite outage_after_planned. unfold workload_steps. cbn [app fold_left step_outage].
  apply outage_restored; unfold zlen in Hr; lia.
Qed.
End outage.

(** ** Theorems *)

Lemma workload_record_of {V} `{VmLog V} `{Sha256} fuel scenario choices launch (vm : V) d r c :
  drive_workload_scenario fuel scenario choices launch vm d = Some (Ok r, c) ->
  workload_record vm scenario choices launch r c.
Proof.
  intros E. pose proof (drive_workload_spec vm fuel scenario choices launch d _ eq_refl) as Ht.
  unfold drive_workload_scenario in E. by rewrite E in Ht.
Qed.

(** C9. A workload run that completes has recorded every frame the machine
    delivered during it, exactly once and in order: what the machine delivered by
    the end is what it had delivered before the run, followed by the recorded
    frames.  They have consecutive event identifiers and the current protocol
    version; the recording ends with the agent's stop, its published events are the
    normalized frames, and its report is the checker's evaluation of them. *)
Theorem workload_record_sound {V} `{VmLog V} `{!VmTape V} `{Sha256} fuel scenario choices launch (vm : V) d
    events report c :
  drive_workload_scenario fuel scenario choices launch vm d = Some (Ok (events, report), c) ->
  let frames := c.(w_raw_events) in
  received c.(w_vm) = received vm ++ frames /\
  event_ids frames /\ Forall (fun f => f.(protocol_version) = PROTOCOL_VERSION) frames /\
  (exists f, list.last frames = Some f /\ f.(event) = AgentStopped) /\
  events = map normalize frames /\ c.(w_trace) = trace_of frames /\
  evaluate_workload frames scenario choices launch = Some report.
Proof.
  intros E. pose proof (drive_records vm fuel scenario choices launch d _ eq_refl) as Ht.
  pose proof E as E'. unfold drive_workload_scenario in E'. rewrite E' in Ht.
  apply workload_record_of in E as (k&l&_&[]&_&_&Hl&He&Hr). cbn [fst snd] in *.
  split_and!; try done. by rewrite He.
Qed.

(** C24. A completed workload run sent the configuration, a prefix of the planned
    commands (with the planned input offsets and consecutive command identifiers),
    at most one further restoration, and the shutdown; and it never shuts down
    while the administrative outage is in force. *)
Theorem workload_commands {V} `{VmLog V} `{Sha256} fuel scenario choices launch (vm : V) d r c :
  drive_workload_scenario fuel scenario choices launch vm d = Some (Ok r, c) ->
  exists k restore,
    let plan := planned_commands scenario choices launch ∅ (workload_steps choices) in
    let before := [ConfigureNetwork "eth0" "10.0.2.15/24" scenario.(w_fixture_peer)]
                  ++ take k plan ++ restore in
    sent c.(w_vm) = sent vm ++ command_frames (before ++ [Shutdown]) /\
    (restore = [] \/ restore = [RestoreNetwork (scenario.(w_fixture_peer) +:+ "/32")]) /\
    (0 <= choices.(restoration_request_index) < zlen choices.(requests) ->
     choices.(outage_activation_request_index) <= choices.(restoration_request_index) ->
     outage_after before false = false).
Proof.
  intros (k&l&Hk&[]&Ho&Hend&_)%workload_record_of.
  exists k, (if l.(stopped) && l.(outage_active)
             then [RestoreNetwork (scenario.(w_fixture_peer) +:+ "/32")] else []).
  cbv zeta. split_and!.
  - rewrite wr_sent0 -!app_assoc //.
  - destruct (_ && _); auto.
  - intros Hr Ha. unfold outage_after. rewrite !fold_left_app. cbn [fold_left command_outage].
    fold (outage_after (take k (planned_commands scenario choices launch ∅ (workload_steps choices))) false).
    rewrite -Ho. destruct (stopped l) eqn:Es; destruct (outage_active l) eqn:Ea; try done.
    rewrite Ho Hend // take_ge; [by apply planned_outage_ends|].
    clear. generalize (∅ : gmap Z Z). induction (workload_steps choices) as [|s ss IH]; intros w; cbn; [lia|].
    specialize (IH (step_offsets choices w s)). lia.
Qed.

(** The lines the driver waits for are the lines the checker expects: for
    every plan whose fault lies within its requests, the responses awaited from
    each invocation over the whole plan are exactly that invocation's expected
    output. *)
Theorem steps_expected_lines choices i :
  0 <= choices.(process_fault_request_index) < zlen choices.(requests) -> i = 1 \/ i = 2 ->
  expected_lines choices i = Some (flat_map (step_lines choices i) (workload_steps choices)).
Proof. apply steps_expected. Qed.

(** C25. A workload drive terminates on every machine that delivers finitely many
    events, for every plan whose fault index lies within its requests, without
    exhausting its fuel and without a panic. *)
Theorem drive_workload_returns {V} `{FiniteVm V} `{Sha256} fuel scenario choices launch (vm : V) d :
  (remaining vm < fuel)%nat ->
  0 <= choices.(process_fault_request_index) <= zlen choices.(requests) ->
  exists r c, drive_workload_scenario fuel scenario choices launch vm d = Some (r, c).
Proof. apply drive_workload_total. Qed.

(** A workload replay that succeeds reproduces the recording: on whatever
    machine it runs, it sends no command, its frames normalize to the recorded
    events, and the checker's report on them is the recorded report. *)
Theorem workload_replay_agrees {V1 V2} `{VmLog V1} `{VmLog V2} `{Sha256} fuel scenario choices launch
    (vm1 : V1) (vm2 : V2) d1 d2 events report c frames s :
  drive_workload_scenario fuel scenario choices launch vm1 d1 = Some (Ok (events, report), c) ->
  replay_workload_events events (vm2, d2) = Some (Ok frames, s) ->
  map normalize frames = events /\ sent s.1 = sent vm2 /\
  evaluate_workload frames scenario choices launch = Some report.
Proof.
  intros (k&l&_&[]&_&_&_&He&Hr)%workload_record_of [Hn Hs]%replay_workload_events_sound.
  cbn [fst snd] in *. split_and!; [done..|]. rewrite -Hr. unfold evaluate_workload.
  by rewrite (trace_of_normalized frames c.(w_raw_events)) // Hn He.
Qed.

(** Recording and replaying a workload is a round trip: feeding the recorded
    frames back to the replay succeeds and returns them. *)
Theorem workload_replay_reproduces {V} `{VmLog V} `{Sha256} fuel scenario choices launch (vm : V) d d'
    events report c :
  drive_workload_scenario fuel scenario choices launch vm d = Some (Ok (events, report), c) ->
  exists s, replay_workload_events events (script_of c.(w_raw_events), d')
            = Some (Ok c.(w_raw_events), s).
Proof.
  intros (k&l&_&[]&_&_&(f&Hl&Hf)&He&_)%workload_record_of. cbn [fst] in He.
  rewrite He wr_events0. by eapply script_replays_workload.
Qed.

(** ** A sample run *)

(** A scripted guest: the events so far, and the live invocation's output bytes,
    frames and accepted input. *)
Record Guest := MkGuest {
  g_script : list (option EventFrame);
  g_count : Z;
  g_output : bytes;
  g_frames : Z;
  g_input : Z;
}.

Definition g_event (cmd : Z) (e : Event) (g : Guest) : Guest :=
  MkGuest (g.(g_script) ++ [Some (sample_frame (g.(g_count) + 1) cmd e)]) (g.(g_count) + 1)
    g.(g_output) g.(g_frames) g.(g_input).

(** Nothing is queued when the host drains. *)
Definition g_idle (g : Guest) : Guest :=
  MkGuest (g.(g_script) ++ [None]) g.(g_count) g.(g_output) g.(g_frames) g.(g_input).

Definition g_line (cmd i : Z) (line : string) (g : Guest) : Guest :=
  let data := as_bytes line ++ [NEWLINE] in
  let g := g_event cmd (WorkloadOutput i Stdout (zlen g.(g_output)) (g.(g_frames) + 1)
             (encode_bytes data)) g in
  MkGuest g.(g_script) g.(g_count) (g.(g_output) ++ data) (g.(g_frames) + 1) g.(g_input).

Definition g_start (cmd i : Z) (g : Guest) : Guest :=
  let g := g_event cmd (WorkloadStarted i workload_launch) g in
  g_line cmd i READY_LINE (MkGuest g.(g_script) g.(g_count) [] 0 0).

Definition g_answer (cmd i : Z) (text line : string) (g : Guest) : Guest :=
  let n := str_len text + 1 in
  let g := g_event cmd (InputAccepted i (g.(g_input) + n) n false) (g_idle g) in
  g_line cmd i line (MkGuest g.(g_script) g.(g_count) g.(g_output) g.(g_frames) (g.(g_input) + n)).

Definition g_release (cmd i : Z) (e : ProcessExit) (reaped : Z) (g : Guest) : Guest :=
  g_event cmd (CleanupComplete i reaped)
    (g_event cmd (WorkloadExited i e (zlen g.(g_output)) (@sha256 toy_sha256 g.(g_output)) 0
       (@sha256 toy_sha256 []) g.(g_frames)) g).

Definition workload_guest : Guest :=
  let g := g_event 1 (NetworkConfigured "eth0" "10.0.2.15/24" "10.0.2.2") (MkGuest [] 0 [] 0 0) in
  let g := g_start 2 1 g in
  let g := g_answer 3 1 "echo echo-1-0000000000000007" "echo value=echo-1-0000000000000007" g in
  let g := g_answer 4 1 "state" FRESH_STATE_LINE g in
  let g := g_answer 5 1 "fetch r1 aa" "network state=ok request=r1" g in
  let g := g_answer 6 1 "spawn-descendant" ESCAPED_DESCENDANT_LINE g in
  let g := g_release 7 1 (Signaled 9) 2 (g_event 7 (TerminationRequested 1 9) (g_idle g)) in
  let g := g_start 8 2 g in
  let g := g_answer 9 2 "echo echo-2-0000000000000007" "echo value=echo-2-0000000000000007" g in
  let g := g_answer 10 2 "state" FRESH_STATE_LINE g in
  let g := g_event 11 (OutageActivated "10.0.2.2/32" "prohibit 10.0.2.2/32") g in
  let g := g_answer 12 2 "fetch r2 bb" "network state=unavailable request=r2 errno=13" g in
  let g := g_event 13 (NetworkRestored "10.0.2.2/32") g in
  let g := g_answer 14 2 "fetch r3 cc" "network state=ok request=r3" g in
  let g := g_event 15 (InputAccepted 2 g.(g_input) 0 true) (g_idle g) in
  g_event 16 AgentStopped (g_release 15 2 (Exited 0) 1 g).

Definition workload_vm : ScriptVm := MkScript workload_guest.(g_script) [].
Definition workload_frames : list EventFrame := omap id workload_guest.(g_script).

Notation workload_drive := (@drive_workload_scenario ScriptVm _ toy_sha256 100 workload_scenario
  workload_choices workload_launch workload_vm (FailureDiagnostics_new "record")).

Definition drive_passes (o : option (result (list NormalizedEvent * AssertionReport)
    * WorkloadController ScriptVm)) : bool :=
  match o with
  | Some (Ok (events, report), c) =>
      report.(passed) && bool_decide (events = map normalize workload_frames)
      && (length c.(w_vm).(script_sent) =? 16)%nat
  | _ => false
  end.

Lemma workload_drive_passes : drive_passes workload_drive = true.
Proof. vm_compute. reflexivity. Qed.

Lemma drive_passes_Some o :
  drive_passes o = true -> exists events report c, o = Some (Ok (events, report), c) /\
    report.(passed) = true /\ events = map normalize workload_frames.
Proof.
  destruct o as [[[[events report]|] c]|]; [|done..]. cbn [drive_passes]. intros Hp.
  reflect_guards. by exists events, report, c.
Qed.

Lemma workload_drive_Some : exists events report c,
  workload_drive = Some (Ok (events, report), c) /\ report.(passed) = true /\
  events = map normalize workload_frames.
Proof. apply drive_passes_Some, workload_drive_passes. Qed.

(** The same drive over the scripted machine with a tape. *)
Definition taped_passes (o : option (result (list NormalizedEvent * AssertionReport)
    * WorkloadController (Taped ScriptVm))) : bool :=
  match o with
  | Some (Ok (_, report), c) => report.(passed) && bool_decide (c.(w_vm).(tape) = workload_frames)
  | _ => false
  end.
Notation taped_drive := (@drive_workload_scenario (Taped ScriptVm) _ toy_sha256 100 workload_scenario
  workload_choices workload_launch (MkTaped workload_vm []) (FailureDiagnostics_new "record")).
Lemma taped_drive_Some : exists events report c,
  taped_drive = Some (Ok (events, report), c) /\ received c.(w_vm) = workload_frames.
Proof.
  assert (Hp : taped_passes taped_drive = true) by (vm_compute; reflexivity).
  destruct taped_drive as [[[[events report]|] c]|]; [|done..]. cbn [taped_passes] in Hp. reflect_guards.
  by exists events, report, c.
Qed.

Lemma workload_record_sound_witness : exists (c : WorkloadController (Taped ScriptVm)) report,
  workload_frames = [] ++ c.(w_raw_events) /\ event_ids c.(w_raw_events) /\
  @evaluate_workload toy_sha256 c.(w_raw_events) workload_scenario workload_choices workload_launch
  = Some report.
Proof.
  destruct taped_drive_Some as (events&report&c&E&Ht).
  destruct (@workload_record_sound (Taped ScriptVm) _ _ _ toy_sha256 _ _ _ _ _ _ _ _ _ E)
    as (Hrec&Hi&_&_&_&_&Hr).
  exists c, report. rewrite Ht in Hrec. exact (conj Hrec (conj Hi Hr)).
Defined.

Lemma sample_plan_order :
  0 <= workload_choices.(restoration_request_index) < zlen workload_choices.(requests) /\
  workload_choices.(outage_activation_request_index) <= workload_choices.(restoration_request_index).
Proof. by vm_compute. Qed.

Lemma workload_commands_witness : exists (c : WorkloadController ScriptVm) k restore,
  let plan := planned_commands workload_scenario workload_choices workload_launch ∅
                (workload_steps workload_choices) in
  let before := [ConfigureNetwork "eth0" "10.0.2.15/24" workload_scenario.(w_fixture_peer)]
                ++ take k plan ++ restore in
  sent c.(w_vm) = sent workload_vm ++ command_frames (before ++ [Shutdown]) /\
  outage_after before false = false.
Proof.
  destruct workload_drive_Some as (events&report&c&E&_&_).
  destruct (@workload_commands ScriptVm _ _ toy_sha256 _ _ _ _ _ _ _ _ E) as (k&restore&Hs&_&Ho).
  exists c, k, restore. exact (conj Hs (Ho (proj1 sample_plan_order) (proj2 sample_plan_order))).
Defined.

Lemma steps_expected_lines_witness :
  expected_lines workload_choices 1
  = Some [READY_LINE; "echo value=echo-1-0000000000000007"; FRESH_STATE_LINE;
          "network state=ok request=r1"; ESCAPED_DESCENDANT_LINE].
Proof. rewrite (steps_expected_lines workload_choices 1); [by vm_compute|by vm_compute|by left]. Defined.

Lemma drive_workload_returns_witness : exists r c,
  @drive_workload_scenario ScriptVm _ toy_sha256 100 workload_scenario workload_choices
    workload_launch workload_vm (FailureDiagnostics_new "record") = Some (r, c).
Proof.
  apply (@drive_workload_returns ScriptVm _ script_finite toy_sha256); [|by vm_compute].
  apply Nat.ltb_lt. by vm_compute.
Defined.

(** The recorded guest, replayed with other diagnostics. *)
Definition workload_replay_vm : ScriptVm := script_of (map (received_at 9) workload_frames).
Notation workload_replay := (@replay_workload_events ScriptVm _ (map normalize workload_frames)
  (workload_replay_vm, FailureDiagnostics_new "replay")).

Definition replay_returns (o : option (result (list EventFrame) * (ScriptVm * FailureDiagnostics)))
    : bool := match o with Some (Ok _, _) => true | _ => false end.
Lemma workload_replay_Some : exists frames s, workload_replay = Some (Ok frames, s).
Proof.
  assert (Hr : replay_returns workload_replay = true) by by vm_compute.
  destruct workload_replay as [[[frames|] s]|]; [|done..]. by exists frames, s.
Qed.

Lemma workload_replay_agrees_witness : exists frames report (s : ScriptVm * FailureDiagnostics),
  map normalize frames = map normalize workload_frames /\ sent s.1 = sent workload_replay_vm /\
  @evaluate_workload toy_sha256 frames workload_scenario workload_choices workload_launch = Some report.
Proof.
  destruct workload_drive_Some as (events&report&c&E&_&He). rewrite He in E.
  destruct workload_replay_Some as (frames&s&Er). exists frames, report, s.
  exact (@workload_replay_agrees ScriptVm ScriptVm _ _ _ _ toy_sha256 _ _ _ _ _ _ _ _ _ _ _ _ _ E Er).
Defined.

Lemma workload_replay_reproduces_witness : exists (c : WorkloadController ScriptVm) s,
  @replay_workload_events ScriptVm _ (map normalize workload_frames)
    (script_of c.(w_raw_events), FailureDiagnostics_new "replay") = Some (Ok c.(w_raw_events), s).
Proof.
  destruct workload_drive_Some as (events&report&c&E&_&He). rewrite He in E. exists c.
  exact (@workload_replay_reproduces ScriptVm _ _ toy_sha256 _ _ _ _ _ _ (FailureDiagnostics_new "replay") _ _ _ E).
Defined.
