(* ===== verification/Os.v ===== *)
(** The operating system the guest runtime and agent run on, as an interface:
    each method is one system call (or one standard-library filesystem call) on
    a world, with its outcome.  The components are proved against any instance
    that keeps the documented bounds of the calls ([OsLaws]).

    A failed call is a [RawError]: the error the standard library builds from
    [errno].  Descriptors, process identifiers and times are integers; paths are
    byte strings. *)

From stdpp Require Import ssreflect.
From Stdlib Require Import Strings.Byte.
From S2P Require Import Prelude Types Std Effects.

Notation Fd := Z (only parsing).

Inductive FileType := RegularType | DirectoryType | SymlinkType | SpecialType.

#[export] Instance FileType_eq_dec : EqDecision FileType.
Proof. solve_decision. Defined.

(** What [symlink_metadata] reports; the mode holds the permission bits. *)
Record Metadata := {
  md_type : FileType;
  md_mode : Z;
  md_uid : Z;
  md_gid : Z;
  md_mtime : Z;
  md_len : Z;
}.

(** [ExitStatus]: whether it is a success, and how it is displayed. *)
Record ExitStatus := {
  status_success : bool;
  status_display : string;
}.

Record DirEntry := {
  entry_name : bytes;
  entry_type : FileType + RawError;
}.

(** [libc] constants the sources name. *)
Definition ESRCH : Z := 3.

(** [kill], [fork] and the like answer [None] or a value on success. *)
Class Os (W : Type) := {
  (** descriptors: an empty read is the end of the file *)
  sys_read : Fd -> Z -> W -> (bytes + RawError) * W;
  sys_write : Fd -> bytes -> W -> (Z + RawError) * W;
  sys_close : Fd -> W -> W;
  sys_pipe2 : W -> ((Fd * Fd) + RawError) * W;
  sys_getfl : Fd -> W -> (Z + RawError) * W;
  sys_setfl : Fd -> Z -> W -> option RawError * W;
  (** how many descriptors are ready; [POLLIN] and [POLLOUT] sets, milliseconds *)
  sys_poll : list Fd -> list Fd -> Z -> W -> (list Fd + RawError) * W;
  (** processes: [waitpid] with [WNOHANG] answers the pid (not positive when no
      child is ready) and the status *)
  sys_getpid : W -> Z;
  sys_fork : W -> (Z + RawError) * W;
  sys_waitpid : Z -> W -> (Z * Z) * W;
  sys_kill : Z -> Z -> W -> option RawError * W;
  (** time, in milliseconds *)
  sys_now : W -> Z * W;
  sys_sleep : Z -> W -> W;
  (** filesystem *)
  fs_read_dir : bytes -> W -> (list (DirEntry + RawError) + RawError) * W;
  fs_read : bytes -> W -> (bytes + RawError) * W;
  fs_symlink_metadata : bytes -> W -> (Metadata + RawError) * W;
  fs_exists : bytes -> W -> bool * W;
  fs_create_dir : bytes -> W -> option RawError * W;
  fs_create_dir_all : bytes -> W -> option RawError * W;
  fs_remove_dir_all : bytes -> W -> option RawError * W;
  fs_set_mode : bytes -> Z -> W -> option RawError * W;
  fs_metadata : bytes -> W -> option RawError * W;
  fs_read_link : bytes -> W -> (bytes + RawError) * W;
  fs_symlink : bytes -> bytes -> W -> option RawError * W;
  fs_copy : bytes -> bytes -> W -> option RawError * W;
  sys_chmod : bytes -> Z -> W -> option RawError * W;
  sys_lchown : bytes -> Z -> Z -> W -> option RawError * W;
  sys_utimens : bytes -> Z -> W -> option RawError * W;
  sys_mknod_char : bytes -> Z -> Z -> Z -> W -> option RawError * W;
  (** tools the agent runs: the exit status, or the captured output of a run *)
  run_status : list string -> W -> (ExitStatus + RawError) * W;
  run_output : list string -> W -> ((ExitStatus * bytes) + RawError) * W;
}.

(** What the calls promise: a read fills at most the buffer, a write takes at
    most what it was given, and a status word of a child names a signal from 1 to
    64, none (an exit), or a stop. *)
Class OsLaws (W : Type) `{Os W} := {
  sys_read_bound fd n w data w' :
    0 <= n -> sys_read fd n w = (inl data, w') -> zlen data <= n;
  sys_write_bound fd data w n w' : sys_write fd data w = (inl n, w') -> 0 <= n <= zlen data;
  sys_wait_status target w pid status w' :
    sys_waitpid target w = ((pid, status), w') -> 0 < pid ->
    Z.land status 127 <= 64 \/ Z.land status 127 = 127;
}.

(** ** Calls as computations *)

Definition is_kind (k : ErrorKind) (e : RawError) : bool :=
  bool_decide (e.(raw_error).(error_kind) = k).
Definition error_text (e : RawError) : string := e.(raw_error).(error_message).

Section calls.
Context {W : Type} `{Os W}.

Definition call {A} (op : W -> A * W) : M W A := fun w => let '(a, w) := op w in Some (Ok a, w).

(** A call whose failure is returned with [?]. *)
Definition call_or {A} (f : RawError -> io_error) (op : W -> (A + RawError) * W) : M W A :=
  r ← call op;
  match r with inl a => mret a | inr e => throw (f e) end.
Definition call_unit (f : RawError -> io_error) (op : W -> option RawError * W) : M W unit :=
  r ← call op;
  match r with None => mret tt | Some e => throw (f e) end.

(** [drop(fd)]. *)
Definition close (fd : Fd) : M W unit := modify (sys_close fd).
Definition close_opt (fd : option Fd) : M W unit :=
  match fd with Some fd => close fd | None => mret tt end.

Lemma close_opt_eq fd w :
  close_opt fd w = Some (Ok tt, match fd with Some fd => sys_close fd w | None => w end).
Proof. by destruct fd. Qed.
End calls.

(** ** A scripted system *)

(** Successive reads of each descriptor (an exhausted one is at its end),
    statuses [waitpid] will report, process tables [/proc] will list, how many
    writes are taken, and the clock; other calls succeed. *)
Record ScriptOs := MkScriptOs {
  so_reads : list (Z * (bytes + RawError));
  so_waits : list (Z * Z);
  so_tables : list (list bytes);
  so_next_fd : Z;
  so_clock : Z;
  so_files : bytes -> Metadata + RawError;
  so_quota : nat;
  so_writes : list (Fd * bytes);
  so_kills : list (Z * Z);
}.

Definition would_block : RawError := Raw (IoError WouldBlock "no data is available") (Some 11).
Definition sample_stat : bytes := as_bytes "100 (app) S 1 100 100 0 -1 4194560 0".

Definition so_table_pop (w : ScriptOs) : ScriptOs :=
  MkScriptOs w.(so_reads) w.(so_waits) (tl w.(so_tables)) w.(so_next_fd) w.(so_clock)
    w.(so_files) w.(so_quota) w.(so_writes) w.(so_kills).

(** The next read of [fd], cut to the buffer. *)
Fixpoint pop_read (fd n : Z) (l : list (Z * (bytes + RawError)))
    : (bytes + RawError) * list (Z * (bytes + RawError)) :=
  match l with
  | [] => (inl [], [])
  | (f, item) :: rest =>
      if f =? fd then
        match item with
        | inr e => (inr e, rest)
        | inl data =>
            if zlen data <=? n then (inl data, rest)
            else (inl (take (Z.to_nat n) data), (f, inl (drop (Z.to_nat n) data)) :: rest)
        end
      else let '(r, rest) := pop_read fd n rest in (r, (f, item) :: rest)
  end.

Definition exited_0 : ExitStatus :=
  {| status_success := true; status_display := "exit status: 0" |}.

(** A status word that the kernel reports. *)
Definition wait_status_ok (status : Z) : bool :=
  (Z.land status 127 <=? 64) || (Z.land status 127 =? 127).

#[export] Instance script_os : Os ScriptOs := {
  sys_read fd n w :=
    let '(r, reads) := pop_read fd n w.(so_reads) in
    (r, MkScriptOs reads w.(so_waits) w.(so_tables) w.(so_next_fd) w.(so_clock) w.(so_files)
          w.(so_quota) w.(so_writes) w.(so_kills));
  sys_write fd data w :=
    match w.(so_quota) with
    | O => (inr would_block, w)
    | S q =>
        (inl (zlen data), MkScriptOs w.(so_reads) w.(so_waits) w.(so_tables) w.(so_next_fd)
           w.(so_clock) w.(so_files) q (w.(so_writes) ++ [(fd, data)]) w.(so_kills))
    end;
  sys_close _ w := w;
  sys_pipe2 w :=
    (inl (w.(so_next_fd), w.(so_next_fd) + 1),
     MkScriptOs w.(so_reads) w.(so_waits) w.(so_tables) (w.(so_next_fd) + 2) w.(so_clock)
       w.(so_files) w.(so_quota) w.(so_writes) w.(so_kills));
  sys_getfl _ w := (inl 0, w);
  sys_setfl _ _ w := (None, w);
  sys_poll ins outs _ w := (inl (ins ++ outs), w);
  sys_getpid _ := 1;
  sys_fork w := (inl 100, w);
  sys_waitpid _ w :=
    match w.(so_waits) with
    | [] => ((0, 0), w)
    | s :: rest =>
        (if wait_status_ok s.2 then s else (0, 0), MkScriptOs w.(so_reads) rest w.(so_tables) w.(so_next_fd) w.(so_clock) w.(so_files)
              w.(so_quota) w.(so_writes) w.(so_kills))
    end;
  sys_kill pid signal w :=
    (None, MkScriptOs w.(so_reads) w.(so_waits) w.(so_tables) w.(so_next_fd) w.(so_clock)
       w.(so_files) w.(so_quota) w.(so_writes) (w.(so_kills) ++ [(pid, signal)]));
  sys_now w :=
    (w.(so_clock), MkScriptOs w.(so_reads) w.(so_waits) w.(so_tables) w.(so_next_fd)
       (w.(so_clock) + 1) w.(so_files) w.(so_quota) w.(so_writes) w.(so_kills));
  sys_sleep n w :=
    MkScriptOs w.(so_reads) w.(so_waits) w.(so_tables) w.(so_next_fd) (w.(so_clock) + Z.max n 0)
      w.(so_files) w.(so_quota) w.(so_writes) w.(so_kills);
  fs_read_dir path w :=
    if bool_decide (path = as_bytes "/proc") then
      (inl (map (fun n => inl {| entry_name := n; entry_type := inl DirectoryType |})
              (default [] (head w.(so_tables)))), so_table_pop w)
    else (inl [], w);
  fs_read _ w := (inl sample_stat, w);
  fs_symlink_metadata path w := (w.(so_files) path, w);
  fs_exists _ w := (false, w);
  fs_create_dir _ w := (None, w);
  fs_create_dir_all _ w := (None, w);
  fs_remove_dir_all _ w := (None, w);
  fs_set_mode _ _ w := (None, w);
  fs_metadata _ w := (None, w);
  fs_read_link _ w := (inl [], w);
  fs_symlink _ _ w := (None, w);
  fs_copy _ _ w := (None, w);
  sys_chmod _ _ w := (None, w);
  sys_lchown _ _ _ w := (None, w);
  sys_utimens _ _ w := (None, w);
  sys_mknod_char _ _ _ _ w := (None, w);
  run_status _ w := (inl exited_0, w);
  run_output _ w := (inl (exited_0, []), w);
}.

Lemma pop_read_bound fd n l data : 0 <= n -> (pop_read fd n l).1 = inl data -> zlen data <= n.
Proof.
  intros Hn. induction l as [|[f [d|e]] l IH]; cbn [pop_read].
  - intros [= <-]. by rewrite zlen_nil.
  - destruct (f =? fd); [|by destruct (pop_read fd n l)].
    destruct (zlen d <=? n) eqn:E; intros [= <-]; [by apply Z.leb_le|].
    unfold zlen. rewrite length_take. lia.
  - destruct (f =? fd); [done|]. by destruct (pop_read fd n l).
Qed.

#[export] Program Instance script_os_laws : OsLaws ScriptOs.
Next Obligation.
  intros fd n w data w' Hn E. cbn in E. pose proof (pop_read_bound fd n (so_reads w) data Hn) as Hb.
  destruct (pop_read fd n (so_reads w)) as [r reads]. apply Hb. by simplify_eq/=.
Qed.
Next Obligation.
  intros fd data w n w' E. cbn in E. destruct (so_quota w); simplify_eq.
  pose proof (zlen_nonneg data). lia.
Qed.
Next Obligation.
  intros target w pid status w' E Hp. cbn in E. destruct (so_waits w) as [|[p st] rest]; [by simplify_eq|].
  cbn [snd] in E. destruct (wait_status_ok st) eqn:Hok; simplify_eq; unfold wait_status_ok in *; lia.
Qed.
