(* ===== verification/Runtime.v ===== *)
(** The guest process runtime of [runtime.rs]: one supervised invocation at a
    time, its bounded input queue, the fair bounded draining of its two output
    pipes, and the cleanup barrier that ends it.

    The functions on [&mut Invocation] are computations over [Sup], the
    invocation with the events collected so far and the world; the methods of
    [Runtime] are computations over the runtime and the world.  A digest under
    construction is the bytes it was fed.  Loops take fuel; [None] is exhausted
    fuel, never a result. *)

From stdpp Require Import ssreflect.
From Stdlib Require Import Strings.Byte.
From S2P Require Import Prelude Types Std Protocol Tree Spec Effects Os.

Definition CLEANUP_TIMEOUT : Z := 30 * 1000.
Definition KERNEL_THREAD_FLAG : Z := 2097152.
Definition MAX_SERVICE_FRAMES : Z := 64.
Definition MAX_SERVICE_BYTES : Z := 64 * 1024.

Inductive MemberScope := Guest | ProcessGroup.

#[export] Instance MemberScope_eq_dec : EqDecision MemberScope.
Proof. solve_decision. Defined.

Record RuntimeLimits := {
  input_bytes : Z;
  output_bytes : Z;
  input_frame_bytes : Z;
  output_frame_bytes : Z;
  template_entries : Z;
  template_path_bytes : Z;
  file_bytes : Z;
}.

Definition RuntimeLimits_default : RuntimeLimits := {|
  input_bytes := MAX_INVOCATION_INPUT_BYTES;
  output_bytes := MAX_INVOCATION_OUTPUT_BYTES;
  input_frame_bytes := MAX_STDIN_FRAME_BYTES;
  output_frame_bytes := MAX_OUTPUT_FRAME_BYTES;
  template_entries := MAX_VIEW_ENTRIES;
  template_path_bytes := MAX_PATH_BYTES;
  file_bytes := MAX_FILE_BYTES |}.

Definition validate_limits (l : RuntimeLimits) : result unit :=
  if (l.(input_frame_bytes) =? 0) || (MAX_STDIN_FRAME_BYTES <? l.(input_frame_bytes))
     || (l.(output_frame_bytes) =? 0) || (MAX_OUTPUT_FRAME_BYTES <? l.(output_frame_bytes)) then
    Err (invalid "runtime frame limits must be positive and within the protocol bounds")
  else if (l.(input_bytes) <? l.(input_frame_bytes)) || (l.(output_bytes) <? l.(output_frame_bytes))
  then Err (invalid "runtime byte limits must cover at least one whole frame")
  else if (l.(template_entries) =? 0) || (MAX_VIEW_ENTRIES <? l.(template_entries))
     || (l.(template_path_bytes) =? 0) || (MAX_PATH_BYTES <? l.(template_path_bytes))
     || (l.(file_bytes) =? 0) || (MAX_FILE_BYTES <? l.(file_bytes)) then
    Err (invalid
      "runtime template limits must be positive and within the canonical filesystem bounds")
  else Ok tt.

Record RuntimeConfig := {
  template_root : bytes;
  runtime_root : bytes;
  limits : RuntimeLimits;
  scope : MemberScope;
}.

Definition RuntimeConfig_guest : RuntimeConfig := {|
  template_root := as_bytes "/workload";
  runtime_root := as_bytes "/run/simferret";
  limits := RuntimeLimits_default;
  scope := Guest |}.

(** ** Invocations *)

Record StreamState := MkStream {
  ss_offset : Z;
  ss_bytes : Z;
  ss_hasher : bytes;
  ss_eof : bool;
}.
Definition StreamState_new : StreamState := MkStream 0 0 [] false.

Record RootGuard := { root_path : bytes; root_removed : bool }.

Record Invocation := MkInvocation {
  i_id : Z;
  i_root : RootGuard;
  i_pid : Z;
  i_stdin : option Fd;
  i_stdout : option Fd;
  i_stderr : option Fd;
  i_stdout_state : StreamState;
  i_stderr_state : StreamState;
  i_input_offset : Z;
  i_input_bytes : Z;
  i_pending_input : bytes;
  i_eof_requested : bool;
  i_terminating : bool;
  i_sequence : Z;
  i_frames : Z;
  i_exit : option ProcessExit;
  i_reaped : Z;
  i_cleanup_complete : bool;
}.

Definition stream_state (i : Invocation) (stream : OutputStream) : StreamState :=
  match stream with Stdout => i.(i_stdout_state) | Stderr => i.(i_stderr_state) end.
Definition stream_fd (i : Invocation) (stream : OutputStream) : option Fd :=
  match stream with Stdout => i.(i_stdout) | Stderr => i.(i_stderr) end.

(** Field assignments. *)
Definition set_stream (stream : OutputStream) (st : StreamState) (i : Invocation) : Invocation :=
  MkInvocation i.(i_id) i.(i_root) i.(i_pid) i.(i_stdin) i.(i_stdout) i.(i_stderr)
    (match stream with Stdout => st | Stderr => i.(i_stdout_state) end)
    (match stream with Stdout => i.(i_stderr_state) | Stderr => st end)
    i.(i_input_offset) i.(i_input_bytes) i.(i_pending_input) i.(i_eof_requested)
    i.(i_terminating) i.(i_sequence) i.(i_frames) i.(i_exit) i.(i_reaped) i.(i_cleanup_complete).
Definition set_fds (stdin stdout stderr : option Fd) (i : Invocation) : Invocation :=
  MkInvocation i.(i_id) i.(i_root) i.(i_pid) stdin stdout stderr
    i.(i_stdout_state) i.(i_stderr_state)
    i.(i_input_offset) i.(i_input_bytes) i.(i_pending_input) i.(i_eof_requested)
    i.(i_terminating) i.(i_sequence) i.(i_frames) i.(i_exit) i.(i_reaped) i.(i_cleanup_complete).
Definition set_input (offset total : Z) (pending : bytes) (eof terminating : bool)
    (i : Invocation) : Invocation :=
  MkInvocation i.(i_id) i.(i_root) i.(i_pid) i.(i_stdin) i.(i_stdout) i.(i_stderr)
    i.(i_stdout_state) i.(i_stderr_state) offset total pending eof terminating
    i.(i_sequence) i.(i_frames) i.(i_exit) i.(i_reaped) i.(i_cleanup_complete).
Definition set_pending (pending : bytes) (i : Invocation) : Invocation :=
  set_input i.(i_input_offset) i.(i_input_bytes) pending i.(i_eof_requested) i.(i_terminating) i.
Definition set_counters (sequence frames : Z) (i : Invocation) : Invocation :=
  MkInvocation i.(i_id) i.(i_root) i.(i_pid) i.(i_stdin) i.(i_stdout) i.(i_stderr)
    i.(i_stdout_state) i.(i_stderr_state)
    i.(i_input_offset) i.(i_input_bytes) i.(i_pending_input) i.(i_eof_requested)
    i.(i_terminating) sequence frames i.(i_exit) i.(i_reaped) i.(i_cleanup_complete).
Definition set_process (root : RootGuard) (exit : option ProcessExit) (reaped : Z)
    (complete : bool) (i : Invocation) : Invocation :=
  MkInvocation i.(i_id) root i.(i_pid) i.(i_stdin) i.(i_stdout) i.(i_stderr)
    i.(i_stdout_state) i.(i_stderr_state)
    i.(i_input_offset) i.(i_input_bytes) i.(i_pending_input) i.(i_eof_requested)
    i.(i_terminating) i.(i_sequence) i.(i_frames) exit reaped complete.
Definition set_exit (exit : option ProcessExit) (i : Invocation) : Invocation :=
  set_process i.(i_root) exit i.(i_reaped) i.(i_cleanup_complete) i.
Definition add_reaped (n : Z) (i : Invocation) : Invocation :=
  set_process i.(i_root) i.(i_exit) (add64 i.(i_reaped) n) i.(i_cleanup_complete) i.

(** ** The process table *)

(** [/proc/<pid>/stat]: state is field 0 after the command name, flags field 6. *)
Definition stat_flags (stat : bytes) : result Z :=
  match rposition (fun b => bool_decide (b = ")"%byte)) stat with
  | None => Err (invalid "a guest process state record has no command terminator")
  | Some terminator =>
      let rest := drop (S terminator) stat in
      match List.filter (fun f => negb (is_empty f)) (split_by is_ascii_whitespace rest) !! 6%nat with
      | None => Err (invalid "a guest process state record has no flags field")
      | Some flags =>
          match from_utf8 flags with
          | inr _ => Err (invalid "a guest process state record has an invalid flags field")
          | inl _ =>
              ok_or (parse_u64 flags)
                (invalid "a guest process state record has an invalid flags field")
          end
      end
  end.

(** [e.kind()] with a message that ends in the error. *)
Definition prefixed (text : string) (e : RawError) : io_error :=
  IoError e.(raw_error).(error_kind) (text +:+ error_text e).

Section world.
Context {W : Type} `{Os W}.

Definition is_kernel_thread (pid : Z) : M W (option bool) :=
  r ← call (fs_read (as_bytes ("/proc/" +:+ fmt_dec pid +:+ "/stat")));
  match r with
  | inl stat =>
      flags ← lift (stat_flags stat);
      mret (Some (negb (Z.land flags KERNEL_THREAD_FLAG =? 0)))
  | inr e =>
      if is_kind NotFound e || bool_decide (e.(raw_os_error) = Some ESRCH) then mret None
      else throw (prefixed ("cannot read the state of guest pid " +:+ fmt_dec pid +:+ ": ") e)
  end.

Fixpoint process_table_loop (entries : list (DirEntry + RawError)) (members : list Z)
    : M W (list Z) :=
  match entries with
  | [] => mret members
  | inr e :: _ => throw (prefixed "cannot read a guest process entry: " e)
  | inl entry :: rest =>
      match from_utf8 entry.(entry_name) with
      | inr _ => process_table_loop rest members
      | inl _ =>
          match parse_u32 entry.(entry_name) with
          | None => process_table_loop rest members
          | Some pid =>
              own ← gets sys_getpid;
              if pid =? own then process_table_loop rest members
              else
                kernel ← is_kernel_thread pid;
                if bool_decide (kernel = Some false)
                then process_table_loop rest (members ++ [pid])
                else process_table_loop rest members
          end
      end
  end.

Definition guest_process_table : M W (list Z) :=
  entries ← call_or (prefixed "cannot enumerate the guest process table: ")
              (fs_read_dir (as_bytes "/proc"));
  members ← process_table_loop entries [];
  mret (merge_sort Z.le members).

Fixpoint signal_loop (members : list Z) (signal : Z) : M W unit :=
  match members with
  | [] => mret tt
  | member :: rest =>
      r ← call (sys_kill member signal);
      match r with
      | Some e =>
          if bool_decide (e.(raw_os_error) = Some ESRCH) then signal_loop rest signal
          else throw (prefixed ("cannot signal guest member " +:+ fmt_dec member +:+ ": ") e)
      | None => signal_loop rest signal
      end
  end.

Definition signal_members (pid : Z) (scope : MemberScope) (signal : Z) : M W unit :=
  match scope with
  | ProcessGroup =>
      r ← call (sys_kill (- pid) signal);
      match r with
      | Some e =>
          if bool_decide (e.(raw_os_error) = Some ESRCH) then mret tt
          else throw (prefixed "cannot signal the invocation process group: " e)
      | None => mret tt
      end
  | Guest => members ← guest_process_table; signal_loop members signal
  end.

Definition members_remain (scope : MemberScope) (pid : Z) : M W bool :=
  match scope with
  | ProcessGroup =>
      r ← call (sys_kill (- pid) 0);
      mret (match r with None => true | Some _ => false end)
  | Guest => members ← guest_process_table; mret (negb (is_empty members))
  end.

Definition poll_once (descriptors : list Fd) (timeout : Z) : M W bool :=
  r ← call (sys_poll descriptors [] timeout);
  match r with
  | inl ready => mret (negb (is_empty ready))
  | inr e => if is_kind Interrupted e then mret false else throw e.(raw_error)
  end.
End world.

(** ** Supervision *)

(** [libc::WIFEXITED] and the like. *)
Definition WIFEXITED (status : Z) : bool := Z.land status 127 =? 0.
Definition WEXITSTATUS (status : Z) : Z := Z.land (Z.shiftr status 8) 255.
Definition WTERMSIG (status : Z) : Z := Z.land status 127.
Definition WIFSIGNALED (status : Z) : bool :=
  (1 <=? Z.land status 127) && (Z.land status 127 <=? 126).

Definition record_reaped (pid status : Z) (i : Invocation) : Invocation :=
  if negb (pid =? i.(i_pid)) || bool_decide (is_Some i.(i_exit)) then i
  else set_exit
    (if WIFEXITED status then Some (Exited (WEXITSTATUS status))
     else if WIFSIGNALED status then Some (Signaled (WTERMSIG status))
     else None) i.

Record Sup (W : Type) := MkSup {
  s_inv : Invocation;
  s_events : list Event;
  s_os : W;
}.
Arguments MkSup {W}.
Arguments s_inv {W}.
Arguments s_events {W}.
Arguments s_os {W}.

Section supervision.
Context {W : Type} `{Os W}.
Notation S := (Sup W).

Definition sup_os {A} (m : M W A) : M S A :=
  zoom s_os (fun w s => MkSup s.(s_inv) s.(s_events) w) m.
Definition set_inv (f : Invocation -> Invocation) : M S unit :=
  modify (fun s => MkSup (f s.(s_inv)) s.(s_events) s.(s_os)).
Definition emit_event (e : Event) : M S unit :=
  modify (fun s => MkSup s.(s_inv) (s.(s_events) ++ [e]) s.(s_os)).

(** [active.stdin = None]: the descriptor is closed. *)
Definition close_stdin : M S unit :=
  i ← gets s_inv;
  _ ← sup_os (close_opt i.(i_stdin));
  set_inv (fun i => set_fds None i.(i_stdout) i.(i_stderr) i).

(** The write loop of [flush_input]: whether the queue was emptied. *)
Fixpoint flush_loop (fuel : nat) (raw : Fd) : M S bool :=
  match fuel with
  | O => out_of_fuel
  | Datatypes.S fuel =>
      i ← gets s_inv;
      if is_empty i.(i_pending_input) then mret true
      else
        r ← sup_os (call (sys_write raw i.(i_pending_input)));
        match r with
        | inr e =>
            if is_kind Interrupted e then flush_loop fuel raw
            else if is_kind WouldBlock e then mret false
            else throw e.(raw_error)
        | inl written =>
            if written =? 0 then throw (IoError WriteZero "workload input pipe closed")
            else
              _ ← set_inv (set_pending (drop (Z.to_nat written) i.(i_pending_input)));
              flush_loop fuel raw
        end
  end.

Definition flush_input (fuel : nat) : M S unit :=
  i ← gets s_inv;
  match i.(i_stdin) with
  | None => mret tt
  | Some raw =>
      emptied ← flush_loop fuel raw;
      if emptied && i.(i_eof_requested) then close_stdin else mret tt
  end.

(** One frame of output: digest, counters and the event. *)
Definition output_frame (stream : OutputStream) (buffer : bytes) : M S unit :=
  i ← gets s_inv;
  let st := stream_state i stream in
  let sequence := add64 i.(i_sequence) 1 in
  _ ← set_inv (fun i => set_stream stream
        (MkStream (add64 st.(ss_offset) (zlen buffer)) (add64 st.(ss_bytes) (zlen buffer))
           (st.(ss_hasher) ++ buffer) st.(ss_eof))
        (set_counters sequence (add64 i.(i_frames) 1) i));
  emit_event (WorkloadOutput i.(i_id) stream st.(ss_offset) sequence (encode_bytes buffer)).

Definition set_eof (stream : OutputStream) : M S unit :=
  set_inv (fun i =>
    let st := stream_state i stream in
    set_stream stream (MkStream st.(ss_offset) st.(ss_bytes) st.(ss_hasher) true) i).

Definition output_too_long : io_error :=
  invalid_data "invocation output exceeds the configured bound".

(** The read loop of [drain_stream]: the frames and bytes drained. *)
Fixpoint drain_loop (fuel : nat) (l : RuntimeLimits) (stream : OutputStream) (raw : Fd)
    (max_frames max_bytes drained size : Z) : M S (Z * Z) :=
  match fuel with
  | O => out_of_fuel
  | Datatypes.S fuel =>
      if negb ((drained <? max_frames) && (size <? max_bytes)) then mret (drained, size)
      else
        let chunk := Z.min l.(output_frame_bytes) (max_bytes - size) in
        if chunk =? 0 then mret (drained, size)
        else
          r ← sup_os (call (sys_read raw chunk));
          match r with
          | inr e =>
              if is_kind Interrupted e then
                drain_loop fuel l stream raw max_frames max_bytes drained size
              else if is_kind WouldBlock e then mret (drained, size)
              else throw e.(raw_error)
          | inl [] => _ ← set_eof stream; mret (drained, size)
          | inl buffer =>
              i ← gets s_inv;
              if l.(output_bytes)
                 <? saturating_add64 (stream_state i stream).(ss_bytes) (zlen buffer)
              then throw output_too_long
              else
                _ ← output_frame stream buffer;
                drain_loop fuel l stream raw max_frames max_bytes (drained + 1)
                  (size + zlen buffer)
          end
  end.

Definition drain_stream (fuel : nat) (l : RuntimeLimits) (stream : OutputStream)
    (max_frames max_bytes : Z) : M S (Z * Z) :=
  i ← gets s_inv;
  if (stream_state i stream).(ss_eof) then mret (0, 0)
  else
    match stream_fd i stream with
    | None => _ ← set_eof stream; mret (0, 0)
    | Some raw => drain_loop fuel l stream raw max_frames max_bytes 0 0
    end.

(** [n.div_ceil(2)]. *)
Definition div_ceil2 (n : Z) : Z := (n + 1) / 2.

(** One stream's turn in a batch: the new totals and progress, or [None] when
    the budget is spent. *)
Definition batch_turn (fuel : nat) (l : RuntimeLimits) (stream : OutputStream)
    (totals : Z * Z * bool) : M S (option (Z * Z * bool)) :=
  let '(frames, size, progress) := totals in
  let remaining_frames := saturating_sub64 MAX_SERVICE_FRAMES frames in
  let remaining_bytes := saturating_sub64 MAX_SERVICE_BYTES size in
  if (remaining_frames =? 0) || (remaining_bytes =? 0) then mret None
  else
    '(drained, bytes) ← drain_stream fuel l stream (div_ceil2 remaining_frames)
                          (div_ceil2 remaining_bytes);
    mret (Some (frames + drained, size + bytes, progress || (0 <? drained))).

Fixpoint batch_loop (fuel : nat) (l : RuntimeLimits) (frames size : Z) : M S unit :=
  match fuel with
  | O => out_of_fuel
  | Datatypes.S rounds =>
      first ← batch_turn fuel l Stdout (frames, size, false);
      match first : option (Z * Z * bool) with
      | None => mret tt
      | Some totals =>
          second ← batch_turn fuel l Stderr totals;
          match second : option (Z * Z * bool) with
          | None => mret tt
          | Some (frames, size, progress) =>
              if progress then batch_loop rounds l frames size else mret tt
          end
      end
  end.

Definition drain_batch (fuel : nat) (l : RuntimeLimits) : M S unit := batch_loop fuel l 0 0.

Definition poll_descriptors (i : Invocation) : list Fd :=
  (if i.(i_stdout_state).(ss_eof) then [] else option_list i.(i_stdout))
  ++ (if i.(i_stderr_state).(ss_eof) then [] else option_list i.(i_stderr)).

Definition drain_ready (fuel : nat) (l : RuntimeLimits) (timeout : Z) : M S unit :=
  i ← gets s_inv;
  let descriptors := poll_descriptors i in
  ready ← (if is_empty descriptors then mret true else sup_os (poll_once descriptors timeout));
  if ready : bool then drain_batch fuel l else mret tt.

(** [waitpid] until no child is ready. *)
Fixpoint reap_loop (fuel : nat) (target reaped : Z) : M S Z :=
  match fuel with
  | O => out_of_fuel
  | Datatypes.S fuel =>
      '(pid, status) ← sup_os (call (sys_waitpid target));
      if pid <=? 0 then mret reaped
      else
        _ ← set_inv (record_reaped pid status);
        reap_loop fuel target (add64 reaped 1)
  end.

(** [active.reaped += reap_children(active, scope)]. *)
Definition reap_children (fuel : nat) (scope : MemberScope) : M S unit :=
  i ← gets s_inv;
  let target := match scope with ProcessGroup => - i.(i_pid) | Guest => -1 end in
  reaped ← reap_loop fuel target 0;
  set_inv (add_reaped reaped).

Definition wait_for_output (timeout : Z) : M S unit :=
  i ← gets s_inv;
  match poll_descriptors i with
  | [] => sup_os (modify (sys_sleep timeout))
  | descriptors => _ ← catch (sup_os (poll_once descriptors timeout)); mret tt
  end.

Definition cleanup_timed_out : io_error :=
  IoError TimedOut "the workload cleanup barrier did not complete within its bound".

(** The barrier loop: kill, reap, drain, until no member remains and both
    streams ended, or the deadline passes. *)
Fixpoint cleanup_loop (fuel : nat) (scope : MemberScope) (l : RuntimeLimits) (deadline : Z)
    : M S unit :=
  match fuel with
  | O => out_of_fuel
  | Datatypes.S rounds =>
      i ← gets s_inv;
      _ ← sup_os (signal_members i.(i_pid) scope TERMINATION_SIGNAL);
      _ ← reap_children fuel scope;
      _ ← drain_batch fuel l;
      members ← sup_os (members_remain scope i.(i_pid));
      i ← gets s_inv;
      let drained := i.(i_stdout_state).(ss_eof) && i.(i_stderr_state).(ss_eof) in
      if negb (members : bool) && drained then mret tt
      else
        now ← sup_os (call sys_now);
        if deadline <=? now then throw cleanup_timed_out
        else
          _ ← wait_for_output 10;
          cleanup_loop rounds scope l deadline
  end.

(** [finish_stream]: the digest in lowercase hexadecimal; the digest state is
    taken. *)
Definition finish_stream `{Sha256} (stream : OutputStream) : M S string :=
  i ← gets s_inv;
  let st := stream_state i stream in
  _ ← set_inv (set_stream stream (MkStream st.(ss_offset) st.(ss_bytes) [] st.(ss_eof)));
  mret (hex (sha256_digest st.(ss_hasher))).

(** The completed barrier: both pipes are closed and the two events emitted. *)
Definition finish_invocation `{Sha256} (exit : ProcessExit) : M S unit :=
  stdout_sha256 ← finish_stream Stdout;
  stderr_sha256 ← finish_stream Stderr;
  i ← gets s_inv;
  _ ← set_inv (set_process i.(i_root) i.(i_exit) i.(i_reaped) true);
  _ ← sup_os (close_opt i.(i_stdout));
  _ ← sup_os (close_opt i.(i_stderr));
  _ ← set_inv (fun i => set_fds i.(i_stdin) None None i);
  _ ← emit_event (WorkloadExited i.(i_id) exit i.(i_stdout_state).(ss_bytes) stdout_sha256
                    i.(i_stderr_state).(ss_bytes) stderr_sha256 i.(i_frames));
  emit_event (CleanupComplete i.(i_id) i.(i_reaped)).

Definition cleanup `{Sha256} (fuel : nat) (scope : MemberScope) (l : RuntimeLimits) : M S unit :=
  i ← gets s_inv;
  if i.(i_cleanup_complete) then mret tt
  else
    _ ← close_stdin;
    now ← sup_os (call sys_now);
    _ ← cleanup_loop fuel scope l (now + CLEANUP_TIMEOUT);
    _ ← reap_children fuel scope;
    i ← gets s_inv;
    match i.(i_exit) with
    | None => throw (IoError Other "the workload primary process was not reaped")
    | Some exit => finish_invocation exit
    end.

(** [release_root]. *)
Definition root_remove_failed (path : bytes) (e : RawError) : io_error :=
  invalid ("cannot remove the invocation root " +:+ from_utf8_lossy path +:+ ": " +:+ error_text e).

Definition RootGuard_remove (path : bytes) : M W unit :=
  r ← call (fs_remove_dir_all path);
  match r with
  | None => mret tt
  | Some e => if is_kind NotFound e then mret tt else throw (root_remove_failed path e)
  end.

Definition release_root : M S unit :=
  i ← gets s_inv;
  removed ← catch (sup_os (RootGuard_remove i.(i_root).(root_path)));
  _ ← set_inv (fun i => set_process {| root_path := i.(i_root).(root_path); root_removed := true |}
                          i.(i_exit) i.(i_reaped) i.(i_cleanup_complete) i);
  lift removed.
End supervision.
