(* ===== verification/Launch.v ===== *)
(** Preparing and spawning an invocation ([runtime.rs]): the template walk, the
    copy of the template with the versioned overlay, the symlink-free resolution
    of the launch target, the parent's side of [spawn], and the child's setup up
    to [execve]. *)

From stdpp Require Import ssreflect.
From Stdlib Require Import Strings.Byte.
From S2P Require Import Prelude Types Std Protocol Tree Spec Profile Effects Os Runtime.

Definition SETUP_TIMEOUT : Z := 10 * 1000.
Definition DEV_NULL : Z * Z := (1, 3).
Definition DEV_ZERO : Z * Z := (1, 5).
Definition OVERLAY_DIRECTORY_MODE : Z := 493.  (** 0o755 *)
Definition OVERLAY_TMP_MODE : Z := 1023.       (** 0o1777 *)
Definition OVERLAY_DEVICE_MODE : Z := 438.     (** 0o666 *)

Definition invalid_text (text : string) (e : RawError) : io_error :=
  invalid (text +:+ error_text e).

(** ** The template walk *)

(** The entries of one directory: the new count and the stack of directories
    still to visit, last found first. *)
Fixpoint template_level `{DebugStr} (l : RuntimeLimits) (directory prefix : bytes)
    (entries : list (DirEntry + RawError)) (count : Z) (stack : list (bytes * bytes))
    : result (Z * list (bytes * bytes)) :=
  match entries with
  | [] => Ok (count, stack)
  | inr e :: _ => Err (invalid_text "cannot read a template entry: " e)
  | inl entry :: rest =>
      let name := entry.(entry_name) in
      if contains_byte SLASH name || contains_byte Byte.x00 name then
        Err (invalid "a template entry name is not a path component")
      else
        let path := (if is_empty prefix then prefix else prefix ++ [SLASH]) ++ name in
        let count := count + 1 in
        if l.(template_entries) <? count then
          Err (invalid ("the workload template exceeds " +:+ fmt_dec l.(template_entries)
                        +:+ " entries"))
        else if l.(template_path_bytes) <? zlen path then
          Err (invalid ("a workload template path exceeds " +:+ fmt_dec l.(template_path_bytes)
                        +:+ " bytes"))
        else
          match entry.(entry_type) with
          | inr e => Err (invalid_text "cannot inspect a template entry: " e)
          | inl ft =>
              if below_or_at path && negb (bool_decide (ft = DirectoryType)) then
                Err (invalid ("overlay path " +:+ debug_str (from_utf8_lossy path)
                              +:+ " collides with the runtime overlay"))
              else if bool_decide (ft = DirectoryType) then
                template_level l directory prefix rest count
                  ((path_join directory name, path) :: stack)
              else if bool_decide (ft = SpecialType) then
                Err (invalid ("workload template entry " +:+ debug_str (from_utf8_lossy path)
                              +:+ " is not a regular file, directory, or symbolic link"))
              else template_level l directory prefix rest count stack
          end
  end.

Section launch.
Context {W : Type} `{Os W} `{DebugStr}.

Fixpoint template_walk (fuel : nat) (l : RuntimeLimits) (stack : list (bytes * bytes)) (count : Z)
    : M W unit :=
  match fuel with
  | O => out_of_fuel
  | S fuel =>
      match stack with
      | [] => mret tt
      | (directory, prefix) :: stack =>
          entries ← call_or (invalid_text "cannot read the workload template: ")
                      (fs_read_dir directory);
          '(count, stack) ← lift (template_level l directory prefix entries count stack);
          template_walk fuel l stack count
      end
  end.

Definition validate_template (fuel : nat) (template : bytes) (l : RuntimeLimits) : M W unit :=
  metadata ← call_or (invalid_text "cannot inspect the workload template: ")
               (fs_symlink_metadata template);
  if negb (bool_decide (metadata.(md_type) = DirectoryType)) then
    throw (invalid "the workload template root is not a directory")
  else template_walk fuel l [(template, [])] 1.

(** ** Materialization *)

Definition path_cstring (path : bytes) : M W bytes :=
  match CString_new path with
  | inl c => mret c
  | inr _ => throw (invalid ("path " +:+ from_utf8_lossy path +:+ " contains a NUL byte"))
  end.

Definition unix_mode (m : Metadata) : Z := Z.land m.(md_mode) 4095.
Definition unix_owner (m : Metadata) : Z * Z := (m.(md_uid), m.(md_gid)).
Definition unix_mtime (m : Metadata) : Z := Z.max m.(md_mtime) 0 mod 2 ^ 32.

Definition set_metadata (path : bytes) (mode : Z) (owner : Z * Z) (mtime : Z) (is_symlink : bool)
    : M W unit :=
  let on what := "cannot set workload " +:+ what +:+ " on " +:+ from_utf8_lossy path +:+ ": " in
  path_c ← path_cstring path;
  _ ← (if is_symlink then mret tt
       else call_unit (invalid_text (on "mode")) (sys_chmod path_c mode));
  _ ← call_unit (invalid_text (on "owner")) (sys_lchown path_c owner.1 owner.2);
  call_unit (invalid_text (on "timestamp")) (sys_utimens path_c mtime).

Definition mknod_device (path : bytes) (device : Z * Z) : M W unit :=
  path_c ← path_cstring path;
  call_unit (invalid_text ("cannot create overlay device " +:+ from_utf8_lossy path +:+ ": "))
    (sys_mknod_char path_c OVERLAY_DEVICE_MODE device.1 device.2).

Definition ensure_directory (path : bytes) : M W unit :=
  r ← call (fs_create_dir path);
  match r with
  | None => mret tt
  | Some e =>
      if is_kind AlreadyExists e then
        metadata ← call_or raw_error (fs_symlink_metadata path);
        if bool_decide (metadata.(md_type) = DirectoryType) then mret tt
        else throw (invalid ("overlay path " +:+ from_utf8_lossy path +:+ " is not a directory"))
      else throw (invalid_text ("cannot create overlay path " +:+ from_utf8_lossy path +:+ ": ") e)
  end.

Definition overlay_device (dev : bytes) (name : string) (device : Z * Z) : M W unit :=
  let path := path_join dev (as_bytes name) in
  _ ← mknod_device path device;
  set_metadata path OVERLAY_DEVICE_MODE (0, 0) 0 false.

Definition apply_overlay (root : bytes) : M W unit :=
  let tmp := path_join root (as_bytes "tmp") in
  _ ← ensure_directory tmp;
  _ ← set_metadata tmp OVERLAY_TMP_MODE (0, 0) 0 false;
  let dev := path_join root (as_bytes "dev") in
  _ ← ensure_directory dev;
  _ ← overlay_device dev "null" DEV_NULL;
  _ ← overlay_device dev "zero" DEV_ZERO;
  set_metadata dev OVERLAY_DIRECTORY_MODE (0, 0) 0 false.

(** One entry of [copy_entries]; [copy_directory] is the recursive call. *)
Definition copy_entry (copy_directory : bytes -> bytes -> Metadata -> M W unit)
    (l : RuntimeLimits) (source destination : bytes) (entry : DirEntry) : M W unit :=
  match entry.(entry_type) with
  | inr e => throw (invalid_text "cannot inspect a template entry: " e)
  | inl ft =>
      let target := path_join destination entry.(entry_name) in
      let source_path := path_join source entry.(entry_name) in
      child ← call_or (invalid_text "cannot inspect a template entry: ")
                (fs_symlink_metadata source_path);
      _ ← match ft with
          | DirectoryType =>
              _ ← call_unit (invalid_text "cannot create a workload directory: ")
                    (fs_create_dir target);
              copy_directory source_path target child
          | SymlinkType =>
              link ← call_or (invalid_text "cannot read a workload symbolic link: ")
                       (fs_read_link source_path);
              call_unit (invalid_text "cannot create a workload symbolic link: ")
                (fs_symlink link target)
          | RegularType =>
              _ ← fail_if (l.(file_bytes) <? child.(md_len))
                    (invalid ("a workload file exceeds the " +:+ fmt_dec l.(file_bytes)
                              +:+ " byte canonical file bound"));
              call_unit (invalid_text "cannot copy a workload file: ") (fs_copy source_path target)
          | SpecialType =>
              throw (invalid "the workload template contains an unsupported file type")
          end;
      set_metadata target (unix_mode child) (unix_owner child) (unix_mtime child)
        (bool_decide (ft = SymlinkType))
  end.

Fixpoint copy_level (copy_directory : bytes -> bytes -> Metadata -> M W unit) (l : RuntimeLimits)
    (source destination : bytes) (skip_overlay : bool) (entries : list (DirEntry + RawError))
    : M W unit :=
  match entries with
  | [] => mret tt
  | inr e :: _ => throw (invalid_text "cannot read a template entry: " e)
  | inl entry :: rest =>
      let name := entry.(entry_name) in
      _ ← (if skip_overlay && (bool_decide (name = OVERLAY_TMP) || bool_decide (name = OVERLAY_DEV))
           then mret tt
           else copy_entry copy_directory l source destination entry);
      copy_level copy_directory l source destination skip_overlay rest
  end.

Fixpoint copy_entries (fuel : nat) (l : RuntimeLimits) (source destination : bytes)
    (skip_overlay : bool) : M W unit :=
  match fuel with
  | O => out_of_fuel
  | S fuel =>
      let copy_directory source destination metadata :=
        _ ← copy_entries fuel l source destination false;
        set_metadata destination (unix_mode metadata) (unix_owner metadata) (unix_mtime metadata)
          false in
      entries ← call_or (invalid_text "cannot read the workload template: ") (fs_read_dir source);
      copy_level copy_directory l source destination skip_overlay entries
  end.

Definition materialize_into (fuel : nat) (template destination : bytes) (l : RuntimeLimits)
    : M W unit :=
  metadata ← call_or (invalid_text "cannot inspect the workload template: ")
               (fs_symlink_metadata template);
  _ ← copy_entries fuel l template destination true;
  _ ← apply_overlay destination;
  set_metadata destination (unix_mode metadata) (unix_owner metadata) (unix_mtime metadata) false.

(** ** The launch target *)

Fixpoint resolve_loop (field : string) (current : bytes) (components : list bytes) : M W bytes :=
  match components with
  | [] => mret current
  | component :: rest =>
      let current := path_join current component in
      metadata ← call_or (invalid_text ("cannot access " +:+ field +:+ ": "))
                   (fs_symlink_metadata current);
      if bool_decide (metadata.(md_type) = SymlinkType) then
        throw (invalid (field +:+ " traverses a symbolic link"))
      else resolve_loop field current rest
  end.

Definition resolve_in_root (root : bytes) (field value : string) : M W bytes :=
  let value := as_bytes value in
  if is_empty value || negb (starts_with [SLASH] value) || contains_byte Byte.x00 value then
    throw (invalid (field +:+ " is not an absolute in-root path"))
  else if existsb (fun c => bool_decide (c = as_bytes "..")) (split_on SLASH value) then
    throw (invalid (field +:+ " escapes the workload root"))
  else
    resolve_loop field root (List.filter (fun c => negb (is_empty c)) (split_on SLASH value)).

(** [Result<_, (LaunchFailure, String)>] as a value; the world survives. *)
Notation L A := (M W (A + (LaunchFailure * string))).

Definition launch_error {A} (failure : LaunchFailure) (detail : string) : L A :=
  mret (inr (failure, detail)).
Definition lbind {A B} (m : L A) (k : A -> L B) : L B :=
  r ← m;
  match r with inl a => k a | inr f => mret (inr f) end.
(** [m.map_err(|error| (failure, f(error)))?]. *)
Definition or_launch {A} (failure : LaunchFailure) (f : io_error -> string) (m : M W A) : L A :=
  r ← catch m;
  match r with Ok a => mret (inl a) | Err e => launch_error failure (f e) end.

Definition verify_launch_target (root : bytes) (launch : LaunchIdentity) : L unit :=
  lbind (or_launch Executable error_message
           (resolve_in_root root "the workload executable" launch.(executable))) (fun exe =>
  lbind (or_launch Executable (fun e => "cannot inspect the workload executable: "
                                        +:+ e.(error_message))
           (call_or raw_error (fs_symlink_metadata exe))) (fun metadata =>
  if negb (bool_decide (metadata.(md_type) = RegularType)) then
    launch_error Executable "the workload executable is not a regular file"
  else if Z.land metadata.(md_mode) 73 =? 0 then
    launch_error Executable "the workload executable has no execute permission"
  else
  lbind (or_launch WorkingDirectory error_message
           (resolve_in_root root "the workload working directory" launch.(working_directory)))
    (fun working =>
  r ← call (fs_symlink_metadata working);
  if match r with inl m => bool_decide (m.(md_type) = DirectoryType) | inr _ => false end
  then mret (inl tt)
  else launch_error WorkingDirectory "the workload working directory is not a directory"))).
End launch.

(** ** Spawning: the parent *)

(** [mod child_status]. *)
Definition DUP : Z := 1.
Definition CHROOT : Z := 2.
Definition CHDIR : Z := 3.
Definition GROUPS : Z := 4.
Definition NO_NEW_PRIVS : Z := 5.
Definition CREDENTIALS : Z := 6.
Definition EXEC : Z := 7.
Definition GROUP : Z := 8.
Definition SIGNALS : Z := 9.
Definition DESCRIPTORS : Z := 10.

Definition child_status_failure (code : Z) : string * string :=
  if code =? DUP then ("pipe", "could not connect the workload standard pipes")%string
  else if code =? CHROOT then ("setup", "could not change the workload root")%string
  else if code =? CHDIR then
    ("working_directory", "could not enter the workload working directory")%string
  else if code =? GROUPS then ("setup", "could not clear supplementary groups")%string
  else if code =? NO_NEW_PRIVS then ("setup", "could not set no_new_privs")%string
  else if code =? CREDENTIALS then ("setup", "could not apply the workload credentials")%string
  else if code =? EXEC then ("executable", "could not execute the workload")%string
  else if code =? GROUP then ("setup", "could not isolate the workload process group")%string
  else if code =? SIGNALS then ("setup", "could not reset the workload signal dispositions")%string
  else if code =? DESCRIPTORS then
    ("setup", "could not close every inherited workload descriptor")%string
  else ("setup", "unknown workload setup failure")%string.

Definition setup_failure (code : Z) : LaunchFailure * string :=
  let '(kind, detail) := child_status_failure code in
  (if bool_decide (kind = "working_directory"%string) then WorkingDirectory
   else if bool_decide (kind = "executable"%string) then Executable
   else if bool_decide (kind = "pipe"%string) then Pipe
   else Setup, detail).

Record Spawned := { sp_pid : Z; sp_stdin : Fd; sp_stdout : Fd; sp_stderr : Fd }.

(** [SetupOutcome]; [SetupTransport] is [SetupOutcome::Transport]. *)
Inductive SetupOutcome := Ready | Failed (code : Z) | Timeout | SetupTransport (e : io_error).

(** The four pipes, as read and write ends. *)
Record Pipes := {
  p_stdin : Fd * Fd; p_stdout : Fd * Fd; p_stderr : Fd * Fd; p_error : Fd * Fd;
}.

Definition O_NONBLOCK : Z := 2048.

Section spawn.
Context {W : Type} `{Os W}.
Notation L A := (M W (A + (LaunchFailure * string))).

(** A local pipe is closed when a failure leaves its scope. *)
Definition closing {A} (fds : list Fd) (m : L A) : L A :=
  r ← m;
  match r with
  | inl a => mret (inl a)
  | inr f => _ ← modify (fun w => fold_left (fun w fd => sys_close fd w) fds w); mret (inr f)
  end.

Definition create_pipe : L (Fd * Fd) := or_launch Pipe error_message (call_or raw_error sys_pipe2).

Definition set_nonblocking (fd : Fd) : M W unit :=
  flags ← call_or raw_error (sys_getfl fd);
  call_unit raw_error (sys_setfl fd (Z.lor flags O_NONBLOCK)).

Definition cstring_or (failure : LaunchFailure) (value : string) : L bytes :=
  match CString_new (as_bytes value) with
  | inl c => mret (inl c)
  | inr e => launch_error failure e
  end.
Fixpoint cstrings_or (failure : LaunchFailure) (values : list string) : L (list bytes) :=
  match values with
  | [] => mret (inl [])
  | value :: rest =>
      lbind (cstring_or failure value) (fun c =>
      lbind (cstrings_or failure rest) (fun cs => mret (inl (c :: cs))))
  end.

Definition configure_pipe (what : string) (fd : Fd) : L unit :=
  or_launch Pipe (fun e => "cannot configure the workload " +:+ what +:+ " pipe: "
                           +:+ e.(error_message)) (set_nonblocking fd).

(** Up to the fork: the pipes, the argument vectors and the parent's ends. *)
Definition spawn_prepare (root : bytes) (launch : LaunchIdentity) : L (Pipes * Z) :=
  lbind create_pipe (fun stdin => closing [stdin.1; stdin.2] (
  lbind create_pipe (fun stdout => closing [stdout.1; stdout.2] (
  lbind create_pipe (fun stderr => closing [stderr.1; stderr.2] (
  lbind create_pipe (fun error_pipe => closing [error_pipe.1; error_pipe.2] (
  lbind (or_launch Setup error_message (path_cstring root)) (fun _ =>
  lbind (cstring_or WorkingDirectory launch.(working_directory)) (fun _ =>
  lbind (cstring_or Executable launch.(executable)) (fun _ =>
  lbind (cstrings_or Executable launch.(arguments)) (fun _ =>
  lbind (cstrings_or Executable launch.(environment)) (fun _ =>
  lbind (configure_pipe "input" stdin.2) (fun _ =>
  lbind (configure_pipe "output" stdout.1) (fun _ =>
  lbind (configure_pipe "output" stderr.1) (fun _ =>
  r ← call sys_fork;
  match r with
  | inr e => launch_error Fork ("cannot fork the workload child: " +:+ error_text e)
  | inl pid =>
      mret (inl ({| p_stdin := stdin; p_stdout := stdout; p_stderr := stderr;
                    p_error := error_pipe |}, pid))
  end)))))))))))))))).

Fixpoint setup_loop (fuel : nat) (fd : Fd) : M W SetupOutcome :=
  match fuel with
  | O => out_of_fuel
  | S fuel =>
      ready ← call (sys_poll [fd] [] SETUP_TIMEOUT);
      match ready with
      | inr e => if is_kind Interrupted e then setup_loop fuel fd
                 else mret (SetupTransport e.(raw_error))
      | inl [] => mret Timeout
      | inl _ =>
          r ← call (sys_read fd 1);
          match r with
          | inl [] => mret Ready
          | inl (b :: _) => mret (Failed (byte_Z b))
          | inr e => if is_kind Interrupted e then setup_loop fuel fd
                     else mret (SetupTransport e.(raw_error))
          end
      end
  end.

Definition await_setup (fuel : nat) (error_read : Fd) : M W SetupOutcome :=
  outcome ← setup_loop fuel error_read;
  _ ← close error_read;
  mret outcome.

(** The wait of an armed [ChildGuard]. *)
Fixpoint guard_loop (fuel : nat) (pid deadline : Z) : M W unit :=
  match fuel with
  | O => out_of_fuel
  | S fuel =>
      '(reaped, _) ← call (sys_waitpid pid);
      if (reaped =? pid) || (reaped <? 0) then mret tt
      else
        now ← call sys_now;
        if deadline <=? now then mret tt
        else _ ← modify (sys_sleep 5); guard_loop fuel pid deadline
  end.

Definition ChildGuard_drop (fuel : nat) (pid : Z) (scope : MemberScope) : M W unit :=
  _ ← catch (signal_members pid scope TERMINATION_SIGNAL);
  now ← call sys_now;
  guard_loop fuel pid (now + 5 * 1000).

Definition spawn (fuel : nat) (root : bytes) (launch : LaunchIdentity) (scope : MemberScope)
    : L Spawned :=
  lbind (spawn_prepare root launch) (fun '(pipes, pid) =>
  _ ← close pipes.(p_stdin).1;
  _ ← close pipes.(p_stdout).2;
  _ ← close pipes.(p_stderr).2;
  _ ← close pipes.(p_error).2;
  outcome ← await_setup fuel pipes.(p_error).1;
  let fail failure detail :=
    _ ← ChildGuard_drop fuel pid scope;
    closing [pipes.(p_stderr).1; pipes.(p_stdout).1; pipes.(p_stdin).2]
      (launch_error failure detail) in
  match outcome with
  | Ready =>
      mret (inl {| sp_pid := pid; sp_stdin := pipes.(p_stdin).2;
                   sp_stdout := pipes.(p_stdout).1; sp_stderr := pipes.(p_stderr).1 |})
  | Failed code => let '(failure, detail) := setup_failure code in fail failure detail
  | Timeout => fail Setup "the workload child did not complete setup within the bound"%string
  | SetupTransport e =>
      fail Pipe ("cannot read the workload setup result: " +:+ e.(error_message))
  end).
End spawn.

(** ** Spawning: the child *)

Inductive ChildCall :=
  | SetPgid
  | Dup2 (from to : Fd)
  | ClearCloexec (fd : Fd)
  | CloseRange (first last : Z)
  | DefaultSigpipe
  | Chroot (path : bytes)
  | Chdir (path : bytes)
  | ClearGroups
  | NoNewPrivs
  | SetGid (gid : Z)
  | SetUid (uid : Z)
  | Execve (path : bytes) (argv envp : list bytes).

#[export] Instance ChildCall_eq_dec : EqDecision ChildCall.
Proof. solve_decision. Defined.

Section child.
(** Whether the kernel grants a call, given the calls before it. *)
Variable granted : list ChildCall -> ChildCall -> bool.

(** The calls made so far, and the status byte a failed setup wrote. *)
Definition Child : Type := list ChildCall -> option Z * list ChildCall.

Definition child_call (c : ChildCall) (log : list ChildCall) : bool * list ChildCall :=
  (granted log c, log ++ [c]).

(** [if call fails { fail_child(code) }; next]. *)
Definition or_fail (code : Z) (c : ChildCall) (next : Child) : Child := fun log =>
  let '(ok, log) := child_call c log in if ok then next log else (Some code, log).

(** Both ranges are closed even when the first one fails. *)
Definition close_inherited_descriptors (preserve : Z) (log : list ChildCall)
    : bool * list ChildCall :=
  let '(ok1, log) :=
    if 3 <? preserve then child_call (CloseRange 3 (preserve - 1)) log else (true, log) in
  let '(ok2, log) :=
    child_call (CloseRange (Z.max (Z.min (preserve + 1) U32_MAX) 3) U32_MAX) log in
  (ok1 && ok2, log).

Definition child_exec (child_stdin child_stdout child_stderr error_write : Fd)
    (root working exe : bytes) (argv envp : list bytes) (uid gid : Z) : Child :=
  or_fail DUP (Dup2 child_stdin 0) (or_fail DUP (Dup2 child_stdout 1)
  (or_fail DUP (Dup2 child_stderr 2)
  (or_fail DUP (ClearCloexec 0) (or_fail DUP (ClearCloexec 1) (or_fail DUP (ClearCloexec 2)
  (fun log =>
   let '(closed, log) := close_inherited_descriptors error_write log in
   if negb closed then (Some DESCRIPTORS, log)
   else
  or_fail SIGNALS DefaultSigpipe
  (or_fail CHROOT (Chroot root)
  (or_fail CHDIR (Chdir working)
  (or_fail GROUPS ClearGroups
  (or_fail NO_NEW_PRIVS NoNewPrivs
  (or_fail CREDENTIALS (SetGid gid) (or_fail CREDENTIALS (SetUid uid)
  (or_fail EXEC (Execve exe argv envp) (fun log => (None, log))))))))) log)))))).

(** The child of [spawn]. *)
Definition child_main (scope : MemberScope) (child_stdin child_stdout child_stderr error_write : Fd)
    (root : bytes) (launch : LaunchIdentity) : Child :=
  let body := child_exec child_stdin child_stdout child_stderr error_write root
    (as_bytes launch.(working_directory)) (as_bytes launch.(executable))
    (map as_bytes launch.(arguments)) (map as_bytes launch.(environment))
    launch.(uid) launch.(gid) in
  match scope with ProcessGroup => or_fail GROUP SetPgid body | Guest => body end.
End child.

(** ** What the child has done when the workload runs *)

(** The calls of the setup, in order: the process group in a supervisor scope,
    the three standard descriptors, the inherited descriptors on both sides of the
    setup pipe, and then the confinement up to [execve]. *)
Definition close_ranges (preserve : Fd) : list ChildCall :=
  (if 3 <? preserve then [CloseRange 3 (preserve - 1)] else []) ++
  [CloseRange (Z.max (Z.min (preserve + 1) U32_MAX) 3) U32_MAX].
Definition setup_calls (scope : MemberScope) (i o e err : Fd) (root : bytes) (launch : LaunchIdentity)
    : list ChildCall :=
  match scope with ProcessGroup => [SetPgid] | Guest => [] end ++
  [Dup2 i 0; Dup2 o 1; Dup2 e 2; ClearCloexec 0; ClearCloexec 1; ClearCloexec 2] ++
  close_ranges err ++
  [DefaultSigpipe; Chroot root; Chdir (as_bytes launch.(working_directory)); ClearGroups; NoNewPrivs;
   SetGid launch.(gid); SetUid launch.(uid);
   Execve (as_bytes launch.(executable)) (map as_bytes launch.(arguments))
     (map as_bytes launch.(environment))].

(** The status byte of a refused call, and what the parent makes of it. *)
Definition status_of (c : ChildCall) : Z :=
  match c with
  | Dup2 _ _ | ClearCloexec _ => 1
  | Chroot _ => 2
  | Chdir _ => 3
  | ClearGroups => 4
  | NoNewPrivs => 5
  | SetGid _ | SetUid _ => 6
  | Execve _ _ _ => 7
  | SetPgid => 8
  | DefaultSigpipe => 9
  | CloseRange _ _ => 10
  end.
Definition failure_of (c : ChildCall) : LaunchFailure * string :=
  match c with
  | Dup2 _ _ | ClearCloexec _ => (Pipe, "could not connect the workload standard pipes")%string
  | Chroot _ => (Setup, "could not change the workload root")%string
  | Chdir _ => (WorkingDirectory, "could not enter the workload working directory")%string
  | ClearGroups => (Setup, "could not clear supplementary groups")%string
  | NoNewPrivs => (Setup, "could not set no_new_privs")%string
  | SetGid _ | SetUid _ => (Setup, "could not apply the workload credentials")%string
  | Execve _ _ _ => (Executable, "could not execute the workload")%string
  | SetPgid => (Setup, "could not isolate the workload process group")%string
  | DefaultSigpipe => (Setup, "could not reset the workload signal dispositions")%string
  | CloseRange _ _ => (Setup, "could not close every inherited workload descriptor")%string
  end.
Lemma status_failure c : setup_failure (status_of c) = failure_of c.
Proof. by destruct c. Qed.

Definition is_exec (c : ChildCall) : bool := match c with Execve _ _ _ => true | _ => false end.
Definition is_close (c : ChildCall) : bool := match c with CloseRange _ _ => true | _ => false end.
(** What is still called after a refused call: the other range of descriptors. *)
Definition swept (c : ChildCall) (rest : list ChildCall) : list ChildCall :=
  if is_close c then List.filter is_close rest else [].

(** Every call of [calls] is granted after [log0] and the ones before it. *)
Definition granted_after (granted : list ChildCall -> ChildCall -> bool) (log0 calls : list ChildCall)
    : Prop := forall k c, calls !! k = Some c -> granted (log0 ++ take k calls) c = true.

(** A setup of [calls] that starts after [log0]: either all of them were made and
    granted, or one was refused after granted ones and reported by its own status. *)
Definition setup_result (granted : list ChildCall -> ChildCall -> bool) (calls log0 : list ChildCall)
    (r : option Z * list ChildCall) : Prop :=
  match r with
  | (None, log) => log = log0 ++ calls /\ granted_after granted log0 calls
  | (Some code, log) => exists pre c rest,
      calls = pre ++ c :: rest /\ log = log0 ++ pre ++ c :: swept c rest /\
      granted_after granted log0 pre /\ granted (log0 ++ pre) c = false /\ code = status_of c
  end.

Section setup.
Context (granted : list ChildCall -> ChildCall -> bool).

Lemma granted_after_cons log0 c calls : granted log0 c = true ->
  granted_after granted (log0 ++ [c]) calls -> granted_after granted log0 (c :: calls).
Proof.
  intros Hc Hcs [|k] c' Hk; cbn in *; [by simplify_eq; rewrite app_nil_r|].
  specialize (Hcs k c' Hk). by rewrite -app_assoc in Hcs.
Qed.
(** A granted call is followed by the rest of the setup. *)
Lemma setup_granted c calls log0 r : granted log0 c = true ->
  setup_result granted calls (log0 ++ [c]) r -> setup_result granted (c :: calls) log0 r.
Proof.
  intros Hc. destruct r as [[code|] log]; cbn.
  - intros (pre&c'&rest&->&->&Hp&Hf&->). exists (c :: pre), c', rest. rewrite -!app_assoc in Hf |- *.
    split_and!; [done|done|by apply granted_after_cons|done|done].
  - intros [-> Hg]. rewrite -app_assoc. split; [done|by apply granted_after_cons].
Qed.
Lemma setup_refused c calls log0 : granted log0 c = false ->
  setup_result granted (c :: calls) log0 (Some (status_of c), log0 ++ c :: swept c calls).
Proof. intros Hc. exists [], c, calls. rewrite app_nil_r. by split_and!. Qed.

Lemma setup_or_fail code c next calls log0 : code = status_of c -> is_close c = false ->
  setup_result granted calls (log0 ++ [c]) (next (log0 ++ [c])) ->
  setup_result granted (c :: calls) log0 (or_fail granted code c next log0).
Proof.
  intros -> Hc Hn. unfold or_fail, child_call. destruct (granted log0 c) eqn:E; [by apply setup_granted|].
  pose proof (setup_refused c calls log0 E) as Hr. unfold swept in Hr. by rewrite Hc in Hr.
Qed.

(** Closing the inherited descriptors, then the rest. *)
Lemma setup_close preserve calls (next : Child) log0 : List.filter is_close calls = [] ->
  (forall log, setup_result granted calls log (next log)) ->
  setup_result granted (close_ranges preserve ++ calls) log0
    (let '(closed, log) := close_inherited_descriptors granted preserve log0 in
     if negb closed then (Some DESCRIPTORS, log) else next log).
Proof.
  intros Hcs Hn. unfold close_inherited_descriptors, close_ranges, child_call. set (last := Z.max _ _).
  destruct (3 <? preserve); cbn [app]; cbv zeta.
  - destruct (granted log0 _) eqn:E1; cbn [andb].
    + apply setup_granted; [done|]. destruct (granted (log0 ++ _) _) eqn:E2; cbn [negb].
      * by apply setup_granted.
      * apply (setup_refused _ calls) in E2. unfold swept in E2. cbn [is_close] in E2. by rewrite Hcs in E2.
    + apply (setup_refused _ (CloseRange last U32_MAX :: calls)) in E1. unfold swept in E1. cbn in E1. rewrite Hcs in E1.
      cbn [negb]. rewrite -app_assoc. exact E1.
  - destruct (granted log0 _) eqn:E2; cbn [andb negb]; [by apply setup_granted|].
    apply (setup_refused _ calls) in E2. unfold swept in E2. cbn [is_close] in E2. by rewrite Hcs in E2.
Qed.

Lemma child_setup scope i o e err root launch :
  setup_result granted (setup_calls scope i o e err root launch) []
    (child_main granted scope i o e err root launch []).
Proof.
  assert (Hbody : forall log0, setup_result granted (setup_calls Guest i o e err root launch) log0
    (child_exec granted i o e err root (as_bytes launch.(working_directory))
       (as_bytes launch.(executable)) (map as_bytes launch.(arguments))
       (map as_bytes launch.(environment)) launch.(uid) launch.(gid) log0)).
  { intros log0. unfold child_exec. cbn [setup_calls app].
    do 6 (apply setup_or_fail; [done|done|]). apply setup_close; [done|]. intros log.
    do 8 (apply setup_or_fail; [done|done|]). cbn. by rewrite app_nil_r. }
  unfold child_main. destruct scope; [apply Hbody|]. by apply setup_or_fail, Hbody.
Qed.
End setup.

(** Every descriptor above the standard ones, but [preserve], is in a closed range. *)
Definition closes_others (preserve : Fd) (log : list ChildCall) : Prop :=
  forall fd, 3 <= fd <= U32_MAX -> fd <> preserve ->
    exists first last, CloseRange first last ∈ log /\ first <= fd <= last.

Lemma setup_closes scope i o e err root launch :
  0 <= err -> closes_others err (setup_calls scope i o e err root launch).
Proof.
  intros He fd Hfd Hne. unfold setup_calls, close_ranges. set (last := Z.max _ _).
  destruct (decide (fd < err)).
  - exists 3, (err - 1). destruct (Z.ltb_spec 3 err); [|lia]. split; [set_solver|lia].
  - exists last, U32_MAX. split; [set_solver|unfold last; lia].
Qed.
(** Only the last call of the setup is an exec. *)
Lemma setup_exec_last scope i o e err root launch pre c rest :
  setup_calls scope i o e err root launch = pre ++ c :: rest -> Forall (fun c => is_exec c = false) pre.
Proof.
  intros E.
  assert (Hall : exists calls exec, setup_calls scope i o e err root launch = calls ++ [exec] /\
    Forall (fun c => is_exec c = false) calls).
  { exists (match scope with ProcessGroup => [SetPgid] | Guest => [] end ++
      [Dup2 i 0; Dup2 o 1; Dup2 e 2; ClearCloexec 0; ClearCloexec 1; ClearCloexec 2] ++
      close_ranges err ++ [DefaultSigpipe; Chroot root; Chdir (as_bytes launch.(working_directory));
        ClearGroups; NoNewPrivs; SetGid launch.(gid); SetUid launch.(uid)]),
      (Execve (as_bytes launch.(executable)) (map as_bytes launch.(arguments))
        (map as_bytes launch.(environment))).
    split; [by rewrite /setup_calls -!app_assoc|].
    unfold close_ranges. destruct scope, (3 <? err); by repeat constructor. }
  destruct Hall as (calls&exec&Ec&Hf). rewrite Ec in E.
  destruct (decide (rest = [])) as [->|Hr].
  - by apply app_inj_tail in E as [<- _].
  - destruct (exists_last Hr) as (rest'&x&->). rewrite app_comm_cons app_assoc in E.
    apply app_inj_tail in E as [-> _]. by apply list.Forall_app in Hf as [? _].
Qed.

(** C29. The workload image runs only fully confined, and a refused step is the one
    that is reported.  When the child reaches [execve] it has made exactly the calls
    of the setup, in this order and each granted: it joined its process group in a
    supervisor scope, connected its three standard descriptors, closed all others but
    the setup pipe (which [execve] closes), restored the default SIGPIPE, entered the
    private root and working directory, cleared its groups, gave up new privileges and
    took the launch identity's group and user.  Otherwise it made those calls up to the
    first refused one, and no more but the closing of the remaining descriptor range;
    it wrote the status of that very call, from which the parent reports that call's
    failure; and the workload never ran. *)
Theorem child_confined granted scope i o e err root launch :
  0 <= err ->
  let calls := setup_calls scope i o e err root launch in
  match child_main granted scope i o e err root launch [] with
  | (None, log) => log = calls /\ granted_after granted [] calls /\ closes_others err calls
  | (Some code, log) => exists pre c rest,
      calls = pre ++ c :: rest /\ log = pre ++ c :: swept c rest /\
      granted_after granted [] pre /\ granted pre c = false /\
      code = status_of c /\ setup_failure code = failure_of c /\
      Forall (fun c => is_exec c = false) (pre ++ swept c rest)
  end.
Proof.
  intros Herr calls. pose proof (child_setup granted scope i o e err root launch) as Hr. fold calls in Hr.
  destruct (child_main _ _ _ _ _ _ _ _ _) as [[code|] log]; cbn in Hr.
  - destruct Hr as (pre&c&rest&Ec&->&Hg&Hf&->). exists pre, c, rest.
    split_and!; [done|done|done|done|done|apply status_failure|].
    apply list.Forall_app. split; [by eapply setup_exec_last|].
    unfold swept. destruct (is_close c); [|done]. apply List.Forall_forall.
    intros x [_ Hx]%filter_In. by destruct x.
  - destruct Hr as [-> Hg]. split_and!; [done|done|by apply setup_closes].
Qed.

Definition sample_child : LaunchIdentity := {|
  executable := "/bin/app"; arguments := ["/bin/app"]; environment := [];
  working_directory := "/"; uid := 65534; gid := 65534 |}.

(** A kernel that grants every call, and one that refuses the chroot. *)
Lemma child_confined_witness :
  (exists log, child_main (fun _ _ => true) Guest 10 13 15 17 (as_bytes "/root") sample_child [] = (None, log) /\
    log = setup_calls Guest 10 13 15 17 (as_bytes "/root") sample_child) /\
  exists (pre : list ChildCall) c, setup_failure CHROOT = failure_of c /\ c = Chroot (as_bytes "/root") /\
    CloseRange 18 U32_MAX ∈ pre.
Proof.
  split.
  - pose proof (child_confined (fun _ _ => true) Guest 10 13 15 17 (as_bytes "/root") sample_child
      ltac:(lia)) as H.
    destruct (child_main _ _ _ _ _ _ _ _ _) as [[code|] log] eqn:E; [by vm_compute in E|].
    exists log. split; [done|]. exact (proj1 H).
  - set (granted := fun (_ : list ChildCall) c => negb (bool_decide (c = Chroot (as_bytes "/root")))).
    pose proof (child_confined granted ProcessGroup 10 13 15 17 (as_bytes "/root") sample_child
      ltac:(lia)) as H.
    destruct (child_main granted _ _ _ _ _ _ _ _) as [[code|] log] eqn:E; [|by vm_compute in E].
    destruct H as (pre&c&rest&Ec&El&_&Hf&->&Hs&_). exists pre, c.
    unfold granted in Hf. apply negb_false_iff, bool_decide_eq_true in Hf. subst c.
    split; [exact Hs|]. split; [done|]. vm_compute in E.
    injection E as E. rewrite -E in El. clear -El. cbn in El.
    apply (f_equal (@removelast ChildCall)) in El. rewrite removelast_last in El. rewrite -El. cbn. set_solver.
Defined.
