(* ===== verification/RuntimeApi.v ===== *)
(** The operations of [Runtime] ([runtime.rs]): construction, [start],
    [stdin_write], [stdin_eof], [terminate], [poll] and [shutdown], over the
    supervision of [Runtime] and the launch of [Launch].  [Agent] uses them
    through an interface that the placeholder of [runtime_stub.rs] also
    implements. *)

From stdpp Require Import ssreflect.
From Stdlib Require Import Strings.Byte.
From S2P Require Import Prelude Types Std Protocol Tree Spec Effects Os Runtime Launch.

Record Runtime := MkRuntime {
  config : RuntimeConfig;
  active : option Invocation;
  last_invocation : option Z;
  pending_removal : option bytes;
}.

Definition set_active (a : option Invocation) (r : Runtime) : Runtime :=
  MkRuntime r.(config) a r.(last_invocation) r.(pending_removal).
Definition set_last (n : Z) (r : Runtime) : Runtime :=
  MkRuntime r.(config) r.(active) (Some n) r.(pending_removal).
Definition set_pending_removal (p : option bytes) (r : Runtime) : Runtime :=
  MkRuntime r.(config) r.(active) r.(last_invocation) p.

Definition is_active (r : Runtime) : bool := bool_decide (is_Some r.(active)).
Definition output_fds (r : Runtime) : list Fd :=
  match r.(active) with Some i => poll_descriptors i | None => [] end.
Definition input_fd (r : Runtime) : option Fd :=
  i ← r.(active);
  if is_empty i.(i_pending_input) then None else i.(i_stdin).

Record RtState (W : Type) := MkRt { rt : Runtime; world : W }.
Arguments MkRt {W}.
Arguments rt {W}.
Arguments world {W}.

(** The invocation of a successful spawn. *)
Definition new_invocation (invocation : Z) (root : bytes) (spawned : Spawned) : Invocation := {|
  i_id := invocation;
  i_root := {| root_path := root; root_removed := false |};
  i_pid := spawned.(sp_pid);
  i_stdin := Some spawned.(sp_stdin);
  i_stdout := Some spawned.(sp_stdout);
  i_stderr := Some spawned.(sp_stderr);
  i_stdout_state := StreamState_new;
  i_stderr_state := StreamState_new;
  i_input_offset := 0;
  i_input_bytes := 0;
  i_pending_input := [];
  i_eof_requested := false;
  i_terminating := false;
  i_sequence := 0;
  i_frames := 0;
  i_exit := None;
  i_reaped := 0;
  i_cleanup_complete := false |}.

Section runtime.
Context {W : Type} `{Os W} `{DebugStr} `{Sha256}.
Notation S := (RtState W).
Notation L A := (M S (A + (LaunchFailure * string))).

Definition rt_os {A} (m : M W A) : M S A := zoom world (fun w s => MkRt s.(rt) w) m.
Definition set_rt (f : Runtime -> Runtime) : M S unit :=
  modify (fun s => MkRt (f s.(rt)) s.(world)).

(** A computation on the active invocation [i], with the events it collects. *)
Definition run_active {A} (i : Invocation) (m : M (Sup W) A) : M S (A * list Event) := fun s =>
  match m (MkSup i [] s.(world)) with
  | None => None
  | Some (r, sup) =>
      Some (match r with Ok a => Ok (a, sup.(s_events)) | Err e => Err e end,
            MkRt (set_active (Some sup.(s_inv)) s.(rt)) sup.(s_os))
  end.

Definition Runtime_new (fuel : nat) (c : RuntimeConfig) : M W Runtime :=
  _ ← lift (validate_limits c.(limits));
  own ← gets sys_getpid;
  _ ← fail_if (bool_decide (c.(scope) = Guest) && negb (own =? 1))
        (invalid "the guest-wide cleanup scope requires the agent to be PID 1");
  _ ← validate_template fuel c.(template_root) c.(limits);
  mret (MkRuntime c None None None).

Definition create_private_directory (path : bytes) : M W unit :=
  _ ← call_unit raw_error (fs_create_dir_all path);
  _ ← call_unit raw_error (fs_metadata path);
  call_unit raw_error (fs_set_mode path 448).

(** The active invocation, if it is [invocation]. *)
Definition invocation_mut (invocation : Z) : M S Invocation :=
  r ← gets rt;
  match r.(active) with
  | Some i =>
      if i.(i_id) =? invocation then mret i
      else throw (invalid ("invocation " +:+ fmt_dec invocation
             +:+ " does not match the active invocation " +:+ fmt_dec i.(i_id)))
  | None => throw (invalid ("invocation " +:+ fmt_dec invocation +:+ " is not active"))
  end.

(** [Err(self.fatal(invocation, error))]. *)
Definition fatal {A} (invocation : Z) (error : io_error) : M S A :=
  r ← catch (invocation_mut invocation);
  _ ← match r with
      | Ok i =>
          if bool_decide (i.(i_exit) = None) then
            c ← gets (fun s => s.(rt).(config));
            _ ← catch (rt_os (signal_members i.(i_pid) c.(scope) TERMINATION_SIGNAL));
            mret tt
          else mret tt
      | Err _ => mret tt
      end;
  throw error.

(** [invocation_mut], with the failure of a failed start's removal. *)
Definition discard_failed_root {A} (path : bytes) (failure : LaunchFailure) (detail : string) : L A :=
  r ← catch (rt_os (RootGuard_remove path));
  match r with
  | Ok _ => mret (inr (failure, detail))
  | Err e =>
      _ ← set_rt (set_pending_removal (Some path));
      mret (inr (failure, detail +:+ "; " +:+ e.(error_message)))
  end.

(** The retry of a removal that failed earlier. *)
Definition retry_removal : L unit :=
  r ← gets rt;
  match r.(pending_removal) with
  | None => mret (inl tt)
  | Some path =>
      removed ← rt_os (call (fs_remove_dir_all path));
      match removed with
      | None => _ ← set_rt (set_pending_removal None); mret (inl tt)
      | Some e =>
          if is_kind NotFound e then _ ← set_rt (set_pending_removal None); mret (inl tt)
          else mret (inr (Materialization, "the previous invocation root "
                 +:+ from_utf8_lossy path +:+ " could not be removed: " +:+ error_text e))
      end
  end.

Definition rt_bind {A B} (m : L A) (k : A -> L B) : L B :=
  r ← m;
  match r with inl a => k a | inr f => mret (inr f) end.
Definition rt_or {A} (failure : LaunchFailure) (f : io_error -> string) (m : M S A) : L A :=
  r ← catch m;
  match r with Ok a => mret (inl a) | Err e => mret (inr (failure, f e)) end.

(** From the created root on, a failure discards it. *)
Definition launch_in (fuel : nat) (invocation : Z) (launch : LaunchIdentity) (path : bytes)
    : L Event :=
  c ← gets (fun s => s.(rt).(config));
  materialized ← catch (rt_os (materialize_into fuel c.(template_root) path c.(limits)));
  match materialized with
  | Err e => discard_failed_root path Materialization e.(error_message)
  | Ok _ =>
      verified ← rt_os (verify_launch_target path launch);
      match verified with
      | inr (failure, detail) => discard_failed_root path failure detail
      | inl _ =>
          spawned ← rt_os (spawn fuel path launch c.(scope));
          match spawned with
          | inr (failure, detail) => discard_failed_root path failure detail
          | inl spawned =>
              _ ← set_rt (set_active (Some (new_invocation invocation path spawned)));
              mret (inl (WorkloadStarted invocation launch))
          end
      end
  end.

Definition start_inner (fuel : nat) (invocation : Z) (launch : LaunchIdentity) : L Event :=
  rt_bind retry_removal (fun _ =>
  r ← gets rt;
  if bool_decide (is_Some r.(active)) then
    mret (inr (InvocationActive, "an invocation is already active"%string))
  else
  match r.(last_invocation) with
  | Some last =>
      if invocation <=? last then
        mret (inr (InvocationRepeated, "invocation " +:+ fmt_dec invocation
               +:+ " is not greater than the last accepted invocation " +:+ fmt_dec last))
      else mret (inl tt)
  | None => mret (inl tt)
  end ≫= (fun fresh : unit + (LaunchFailure * string) =>
  match fresh with
  | inr f => mret (inr f)
  | inl _ =>
  _ ← set_rt (set_last invocation);
  rt_bind (rt_or Executable error_message (lift (validate_launch_identity launch))) (fun _ =>
  rt_bind (rt_or Materialization (fun e => "cannot create the runtime root: "
                                           +:+ e.(error_message))
             (rt_os (create_private_directory r.(config).(runtime_root)))) (fun _ =>
  let path := path_join r.(config).(runtime_root)
                (as_bytes ("invocation-" +:+ fmt_dec invocation)) in
  exists_ ← rt_os (call (fs_exists path));
  if exists_ : bool then
    mret (inr (InvocationRepeated, "invocation root " +:+ from_utf8_lossy path
                                   +:+ " already exists"))
  else
  rt_bind (rt_or Materialization error_message
             (rt_os (call_unit raw_error (fs_create_dir path)))) (fun _ =>
  launch_in fuel invocation launch path)))
  end)).

Definition start (fuel : nat) (invocation : Z) (launch : LaunchIdentity) : M S (list Event) :=
  r ← start_inner fuel invocation launch;
  match r with
  | inl event => mret [event]
  | inr (failure, detail) => mret [LaunchFailed invocation failure detail]
  end.

Definition stdin_write (fuel : nat) (invocation offset : Z) (data : string) : M S (list Event) :=
  r ← gets rt;
  let l := r.(config).(limits) in
  match decode_bytes data l.(input_frame_bytes) with
  | Err e => fatal invocation e
  | Ok data =>
      if is_empty data then fatal invocation (invalid_data "a stdin frame must not be empty")
      else
        i ← invocation_mut invocation;
        if i.(i_terminating) || i.(i_eof_requested) || bool_decide (i.(i_stdin) = None) then
          fatal invocation (invalid "workload stdin is closed")
        else if negb (i.(i_input_offset) =? offset) then
          fatal invocation (invalid_data ("stdin offset " +:+ fmt_dec offset
            +:+ " is not contiguous with " +:+ fmt_dec i.(i_input_offset)))
        else if l.(input_bytes) <? saturating_add64 i.(i_input_bytes) (zlen data) then
          fatal invocation (invalid_data "invocation input exceeds the configured bound")
        else
          let accepted := add64 i.(i_input_offset) (zlen data) in
          let queued := set_input accepted (add64 i.(i_input_bytes) (zlen data))
                          (i.(i_pending_input) ++ data) i.(i_eof_requested) i.(i_terminating) i in
          flushed ← catch (run_active queued (flush_input fuel));
          match flushed with
          | Err e => fatal invocation (IoError e.(error_kind)
                       ("cannot write workload input: " +:+ e.(error_message)))
          | Ok _ => mret [InputAccepted invocation accepted (zlen data) false]
          end
  end.

Definition stdin_eof (fuel : nat) (invocation : Z) : M S (list Event) :=
  i ← invocation_mut invocation;
  if i.(i_terminating) then throw (invalid "the invocation is being terminated")
  else if i.(i_eof_requested) then throw (invalid "end of input was already requested")
  else
    let ended := set_input i.(i_input_offset) i.(i_input_bytes) i.(i_pending_input) true
                   i.(i_terminating) i in
    flushed ← catch (run_active ended (flush_input fuel));
    match flushed with
    | Err e => fatal invocation (IoError e.(error_kind)
                 ("cannot flush workload input: " +:+ e.(error_message)))
    | Ok _ => mret [InputAccepted invocation i.(i_input_offset) 0 true]
    end.

Definition terminate (invocation : Z) : M S (list Event) :=
  c ← gets (fun s => s.(rt).(config));
  i ← invocation_mut invocation;
  if bool_decide (is_Some i.(i_exit)) then throw (invalid "the invocation has already exited")
  else
    let marked := set_input i.(i_input_offset) i.(i_input_bytes) i.(i_pending_input)
                    i.(i_eof_requested) true i in
    _ ← run_active marked (
          _ ← sup_os (signal_members i.(i_pid) c.(scope) TERMINATION_SIGNAL);
          _ ← set_inv (set_pending []);
          close_stdin);
    mret [TerminationRequested invocation TERMINATION_SIGNAL].

(** Dropping an invocation removes its root unless that was reported, and
    closes the descriptors it still owns. *)
Definition Invocation_drop (i : Invocation) : M W unit :=
  _ ← (if i.(i_root).(root_removed) then mret None
       else call (fs_remove_dir_all i.(i_root).(root_path)));
  _ ← close_opt i.(i_stdin);
  _ ← close_opt i.(i_stdout);
  close_opt i.(i_stderr).

(** [self.active = None]. *)
Definition release_slot : M S unit :=
  r ← gets rt;
  _ ← match r.(active) with Some i => rt_os (Invocation_drop i) | None => mret tt end;
  set_rt (set_active None).

Definition poll_active (fuel : nat) (c : RuntimeConfig) (timeout : Z) : M (Sup W) unit :=
  i ← gets s_inv;
  _ ← (if bool_decide (i.(i_exit) = None) then reap_children fuel c.(scope) else mret tt);
  i ← gets s_inv;
  _ ← (if bool_decide (i.(i_exit) = None) then
         _ ← flush_input fuel;
         _ ← drain_ready fuel c.(limits) timeout;
         reap_children fuel c.(scope)
       else mret tt);
  i ← gets s_inv;
  _ ← (if bool_decide (is_Some i.(i_exit)) && negb i.(i_cleanup_complete)
       then cleanup fuel c.(scope) c.(limits) else mret tt);
  i ← gets s_inv;
  if i.(i_cleanup_complete) then release_root else mret tt.

Definition poll (fuel : nat) (timeout : Z) : M S (list Event) :=
  r ← gets rt;
  match r.(active) with
  | None => mret []
  | Some i =>
      '(_, events) ← run_active i (poll_active fuel r.(config) timeout);
      r ← gets rt;
      _ ← (if bool_decide (i_cleanup_complete <$> r.(active) = Some true) then release_slot
           else mret tt);
      mret events
  end.

Definition shutdown_active (fuel : nat) (c : RuntimeConfig) : M (Sup W) unit :=
  i ← gets s_inv;
  _ ← (if bool_decide (i.(i_exit) = None)
       then sup_os (signal_members i.(i_pid) c.(scope) TERMINATION_SIGNAL) else mret tt);
  _ ← cleanup fuel c.(scope) c.(limits);
  release_root.

Definition shutdown (fuel : nat) : M S (list Event) :=
  r ← gets rt;
  match r.(active) with
  | None => mret []
  | Some i =>
      '(_, events) ← run_active i (shutdown_active fuel r.(config));
      _ ← release_slot;
      mret events
  end.

(** [Drop for Runtime]: errors and events are ignored. *)
Definition Runtime_drop (fuel : nat) : M S unit :=
  r ← gets rt;
  match r.(active) with
  | None => mret tt
  | Some i =>
      _ ← catch (run_active i (
            _ ← (if bool_decide (i.(i_exit) = None)
                 then catch (sup_os (signal_members i.(i_pid) r.(config).(scope)
                                       TERMINATION_SIGNAL))
                 else mret (Ok tt));
            cleanup fuel r.(config).(scope) r.(config).(limits)));
      release_slot
  end.
End runtime.
