(* ===== verification/Lifecycle.v ===== *)
(** The contract of the process runtime: an abstract machine over the events an
    invocation may emit, and the proof that every operation of [RuntimeApi]
    refines it, on any operating system.

    The abstract machine keeps, for the live invocation, exactly what the host
    can observe: the bytes of each stream so far, the number of frames, the
    accepted input and whether input ended or termination was requested.  The
    refinement is a simulation: an operation that returns events makes the
    machine take those steps, from related state to related state. *)

From stdpp Require Import ssreflect.
From Stdlib Require Import Strings.Byte.
From S2P Require Import Prelude Types Std Protocol Tree Spec Effects Os Runtime Launch RuntimeApi.

(** ** The abstract machine *)

Record Live := MkLive {
  l_id : Z;
  l_out : bytes;
  l_err : bytes;
  l_frames : Z;
  l_input : Z;
  l_eof : bool;
  l_term : bool;
}.

Inductive Phase :=
  | Idle
  | Running (l : Live)
  | Exited_ (id : Z).

(** The greatest accepted identifier, and the phase. *)
Definition Machine : Type := option Z * Phase.

Definition fresh (id : Z) : Live := MkLive id [] [] 0 0 false false.
Definition newer (last : option Z) (id : Z) : Prop :=
  match last with Some n => n < id | None => True end.

Definition l_stream (l : Live) (stream : OutputStream) : bytes :=
  match stream with Stdout => l.(l_out) | Stderr => l.(l_err) end.
Definition with_output (l : Live) (stream : OutputStream) (data : bytes) : Live :=
  MkLive l.(l_id)
    (match stream with Stdout => l.(l_out) ++ data | Stderr => l.(l_out) end)
    (match stream with Stdout => l.(l_err) | Stderr => l.(l_err) ++ data end)
    (l.(l_frames) + 1) l.(l_input) l.(l_eof) l.(l_term).
Definition with_input (l : Live) (n : Z) (eof : bool) : Live :=
  MkLive l.(l_id) l.(l_out) l.(l_err) l.(l_frames) (l.(l_input) + n) eof l.(l_term).
Definition with_term (l : Live) : Live :=
  MkLive l.(l_id) l.(l_out) l.(l_err) l.(l_frames) l.(l_input) l.(l_eof) true.

Section machine.
Context `{Sha256} (lim : RuntimeLimits).

Inductive lstep : Machine -> Event -> Machine -> Prop :=
  | step_started last id launch :
      newer last id -> validate_launch_identity launch = Ok tt ->
      lstep (last, Idle) (WorkloadStarted id launch) (Some id, Running (fresh id))
  | step_failed last p id failure detail :
      lstep (last, p) (LaunchFailed id failure detail) (last, p)
  | step_failed_accepted last id failure detail :
      newer last id ->
      lstep (last, Idle) (LaunchFailed id failure detail) (Some id, Idle)
  | step_input last l n :
      l.(l_eof) = false -> l.(l_term) = false -> 0 < n <= lim.(input_frame_bytes) ->
      l.(l_input) + n <= lim.(input_bytes) ->
      lstep (last, Running l) (InputAccepted l.(l_id) (l.(l_input) + n) n false)
        (last, Running (with_input l n false))
  | step_eof last l :
      l.(l_eof) = false -> l.(l_term) = false ->
      lstep (last, Running l) (InputAccepted l.(l_id) l.(l_input) 0 true)
        (last, Running (with_input l 0 true))
  | step_terminate last l :
      lstep (last, Running l) (TerminationRequested l.(l_id) TERMINATION_SIGNAL)
        (last, Running (with_term l))
  | step_output last l stream data :
      0 < zlen data <= lim.(output_frame_bytes) ->
      zlen (l_stream l stream) + zlen data <= lim.(output_bytes) ->
      lstep (last, Running l)
        (WorkloadOutput l.(l_id) stream (zlen (l_stream l stream)) (l.(l_frames) + 1)
           (encode_bytes data))
        (last, Running (with_output l stream data))
  | step_exited last l exit :
      exit_readable exit = true ->
      lstep (last, Running l)
        (WorkloadExited l.(l_id) exit (zlen l.(l_out)) (hex (sha256_digest l.(l_out)))
           (zlen l.(l_err)) (hex (sha256_digest l.(l_err))) l.(l_frames))
        (last, Exited_ l.(l_id))
  | step_cleaned last id n :
      1 <= n -> lstep (last, Exited_ id) (CleanupComplete id (n mod 2 ^ 64)) (last, Idle).

Inductive lsteps : Machine -> list Event -> Machine -> Prop :=
  | lsteps_nil m : lsteps m [] m
  | lsteps_snoc m es m1 e m2 : lsteps m es m1 -> lstep m1 e m2 -> lsteps m (es ++ [e]) m2.

Lemma lsteps_app m es1 m1 es2 m2 :
  lsteps m es1 m1 -> lsteps m1 es2 m2 -> lsteps m (es1 ++ es2) m2.
Proof.
  intros H1 H2. induction H2 as [|m1 es ma e mb _ IH Hs]; [by rewrite app_nil_r|].
  rewrite app_assoc. econstructor; [by apply IH|done].
Qed.

Lemma lsteps_one m e m1 : lstep m e m1 -> lsteps m [e] m1.
Proof. intros. change [e] with ([] ++ [e]). by econstructor; [constructor|]. Qed.

(** ** The simulation *)

Definition stream_ok (data : bytes) (st : StreamState) : Prop :=
  st.(ss_offset) = zlen data /\ st.(ss_bytes) = zlen data /\ st.(ss_hasher) = data /\
  zlen data <= lim.(output_bytes).

(** [k] members have been reaped that the invocation does not count yet. *)
Definition reaped_ok (k : Z) (i : Invocation) : Prop :=
  exists n, 0 <= n /\ i.(i_reaped) = n mod 2 ^ 64 /\ (is_Some i.(i_exit) -> 1 <= n + k).

Record live_ok (l : Live) (i : Invocation) : Prop := {
  ok_id : i.(i_id) = l.(l_id);
  ok_out : stream_ok l.(l_out) i.(i_stdout_state);
  ok_err : stream_ok l.(l_err) i.(i_stderr_state);
  ok_sequence : i.(i_sequence) = l.(l_frames);
  ok_frames : i.(i_frames) = l.(l_frames);
  ok_frames_bound : 0 <= l.(l_frames) <= zlen l.(l_out) + zlen l.(l_err);
  ok_input_offset : i.(i_input_offset) = l.(l_input);
  ok_input_bytes : i.(i_input_bytes) = l.(l_input);
  ok_input_bound : 0 <= l.(l_input) <= lim.(input_bytes);
  ok_eof : i.(i_eof_requested) = l.(l_eof);
  ok_term : i.(i_terminating) = l.(l_term);
  ok_live : i.(i_cleanup_complete) = false;
  ok_exit : forall exit, i.(i_exit) = Some exit -> exit_readable exit = true;
}.

Definition sim (m : Machine) (r : Runtime) : Prop :=
  m.1 = r.(last_invocation) /\
  match r.(active) with
  | None => m.2 = Idle
  | Some i => exists l, m.2 = Running l /\ live_ok l i /\ reaped_ok 0 i
  end.

(** What the limits promise, once [validate_limits] accepted them; totals stay
    far below the counters' width. *)
Record limits_ok : Prop := {
  lim_frame : 0 < lim.(output_frame_bytes) <= MAX_OUTPUT_FRAME_BYTES;
  lim_input_frame : 0 < lim.(input_frame_bytes) <= MAX_STDIN_FRAME_BYTES;
  lim_output : lim.(output_frame_bytes) <= lim.(output_bytes) < 2 ^ 62;
  lim_input : lim.(input_frame_bytes) <= lim.(input_bytes) < 2 ^ 62;
}.
End machine.

Create HintDb lifecycle discriminated.
#[export] Hint Constructors lstep lsteps : lifecycle.

(** ** Computations that keep an invariant when they succeed *)

Section keeping.
Context {S : Type}.
Definition keep {A} (P : S -> Prop) (m : M S A) : Prop :=
  triple P m (fun _ => P) (fun _ _ => True).

Lemma keep_ret {A} P (a : A) : keep P (mret a).
Proof. by intros s Hs. Qed.
Lemma keep_throw {A} P e : keep P (throw e : M S A).
Proof. by intros s Hs. Qed.
Lemma keep_fuel {A} P : keep P (out_of_fuel : M S A).
Proof. by intros s Hs. Qed.
Lemma keep_gets {A} P (f : S -> A) : keep P (gets f).
Proof. by intros s Hs. Qed.
Lemma keep_lift {A} P (r : result A) : keep P (lift r).
Proof. intros s Hs. unfold lift. by destruct r. Qed.
Lemma keep_modify P (f : S -> S) : (forall s, P s -> P (f s)) -> keep P (modify f).
Proof. intros Hf s Hs. by apply Hf. Qed.
Lemma keep_bind {A B} P (m : M S A) (k : A -> M S B) :
  keep P m -> (forall a, keep P (k a)) -> keep P (m ≫= k).
Proof. intros Hm Hk. by eapply triple_bind. Qed.
Lemma keep_if {A} P (b : bool) (m1 m2 : M S A) : keep P m1 -> keep P m2 -> keep P (if b then m1 else m2).
Proof. by destruct b. Qed.
End keeping.

#[export] Hint Resolve keep_ret keep_throw keep_fuel keep_gets keep_lift : lifecycle.
Ltac walk :=
  repeat first
    [ solve [eauto with lifecycle]
    | apply keep_bind; [|intros ?]
    | apply keep_if
    | case_match ].

(** ** Supervision keeps the simulation *)

#[local] Set Default Proof Using "All".
Section supervision_sim.
Context {W : Type} `{OsLaws W} `{Sha256} (lim : RuntimeLimits) (Hlim : limits_ok lim).
Context (last : option Z) (m0 : Machine).

(** The events so far take [m0] to a live invocation related to the state;
    [k] reaped members are not counted yet. *)
Definition runs_at (k : Z) (s : Sup W) : Prop :=
  exists l, lsteps lim m0 s.(s_events) (last, Running l) /\ live_ok lim l s.(s_inv)
    /\ reaped_ok k s.(s_inv).
Notation runs := (runs_at 0).

Lemma keep_sup_os {A} k (m : M W A) : keep (runs_at k) (sup_os m).
Proof.
  intros s Hs. unfold sup_os, zoom. destruct (m (s_os s)) as [[[a|e] w]|]; [|done..].
  exact Hs.
Qed.

(** A state change that leaves the observed fields alone. *)
Lemma keep_set_inv k f :
  (forall l i, live_ok lim l i -> reaped_ok k i -> live_ok lim l (f i) /\ reaped_ok k (f i)) ->
  keep (runs_at k) (set_inv (W:=W) f).
Proof.
  intros Hf. apply keep_modify. intros s (l&Hl&Hok&Hr). exists l. split; [done|].
  by apply Hf.
Qed.

Ltac same_fields := intros l i [] Hr; split; [by constructor|exact Hr].

Lemma keep_set_fds k f g h : keep (runs_at k) (set_inv (fun i => set_fds (f i) (g i) (h i) i)).
Proof. apply keep_set_inv. same_fields. Qed.
Lemma keep_set_pending k p : keep (runs_at k) (set_inv (set_pending p)).
Proof. apply keep_set_inv. same_fields. Qed.
Lemma keep_set_eof k stream : keep (runs_at k) (set_eof stream).
Proof. apply keep_set_inv. destruct stream; same_fields. Qed.

Lemma keep_close_stdin k : keep (runs_at k) close_stdin.
Proof.
  unfold close_stdin. apply keep_bind; [apply keep_gets|intros i].
  apply keep_bind; [apply keep_sup_os|intros _]. apply (keep_set_fds k (fun _ => None)).
Qed.
Hint Resolve keep_sup_os keep_set_pending keep_set_eof keep_close_stdin : lifecycle.

Lemma keep_flush_loop fuel raw : keep runs (flush_loop fuel raw).
Proof. induction fuel as [|fuel IH]; cbn [flush_loop]; walk. Qed.
Hint Resolve keep_flush_loop : lifecycle.
Lemma keep_flush_input fuel : keep runs (flush_input fuel).
Proof. unfold flush_input. walk. Qed.

(** A frame within the bound is a step of the machine. *)
Lemma live_output k l i stream data :
  live_ok lim l i -> 0 < zlen data <= lim.(output_frame_bytes) ->
  saturating_add64 (stream_state i stream).(ss_bytes) (zlen data) <= lim.(output_bytes) ->
  reaped_ok k i ->
  let st := stream_state i stream in
  let i' := set_stream stream
    (MkStream (add64 st.(ss_offset) (zlen data)) (add64 st.(ss_bytes) (zlen data))
       (st.(ss_hasher) ++ data) st.(ss_eof))
    (set_counters (add64 i.(i_sequence) 1) (add64 i.(i_frames) 1) i) in
  lstep lim (last, Running l)
    (WorkloadOutput i.(i_id) stream st.(ss_offset) (add64 i.(i_sequence) 1) (encode_bytes data))
    (last, Running (with_output l stream data))
  /\ live_ok lim (with_output l stream data) i' /\ reaped_ok k i'.
Proof.
  intros [] Hd Hsum Hr st i'. destruct Hlim.
  assert (Hst : stream_ok lim (l_stream l stream) st) by (unfold st; by destruct stream).
  destruct Hst as (Ho&Hb&Hh&Hle).
  pose proof (zlen_nonneg (l_stream l stream)). pose proof (zlen_nonneg (l_out l)).
  pose proof (zlen_nonneg (l_err l)).
  destruct ok_out0 as (?&?&?&?), ok_err0 as (?&?&?&?).
  unfold MAX_OUTPUT_FRAME_BYTES in *. unfold saturating_add64, U64_MAX in Hsum.
  fold st in Hsum. rewrite Hb in Hsum.
  assert (Hs : zlen (l_stream l stream) + zlen data <= output_bytes lim) by lia.
  assert (Hadd : add64 (zlen (l_stream l stream)) (zlen data) = zlen (l_stream l stream) + zlen data)
    by (apply add64_small; unfold U64_MAX; lia).
  assert (Hseq : add64 (l_frames l) 1 = l_frames l + 1)
    by (apply add64_small; unfold U64_MAX; lia).
  split_and!.
  - rewrite ok_id0 Ho ok_sequence0 Hseq. by apply step_output.
  - unfold i'. rewrite Ho Hb Hh Hadd ok_sequence0 ok_frames0 Hseq.
    destruct stream; constructor; try done; unfold stream_ok;
      cbn [with_output l_id l_out l_err l_frames l_input l_eof l_term set_stream set_counters
        i_stdout_state i_stderr_state ss_offset ss_bytes ss_hasher l_stream] in *;
      rewrite ?zlen_app; try (split_and!; done || lia).
  - unfold i'. by destruct stream.
Qed.

Lemma triple_output_frame k stream data l (s : Sup W) :
  lsteps lim m0 s.(s_events) (last, Running l) -> live_ok lim l s.(s_inv) ->
  reaped_ok k s.(s_inv) -> 0 < zlen data <= lim.(output_frame_bytes) ->
  saturating_add64 (stream_state s.(s_inv) stream).(ss_bytes) (zlen data) <= lim.(output_bytes) ->
  exists s', output_frame stream data s = Some (Ok tt, s') /\ runs_at k s' /\ s'.(s_os) = s.(s_os).
Proof.
  intros Hl Hok Hr Hd Hs. destruct (live_output k l _ stream data Hok Hd Hs Hr) as (Hstep&Hok'&Hr').
  eexists. split; [cbv [output_frame gets mbind M_bind set_inv modify emit_event]; reflexivity|].
  split; [|done]. exists (with_output l stream data).
  split; [by econstructor|]. done.
Qed.

Lemma keep_drain_loop fuel stream raw max_frames max_bytes drained size :
  keep runs (drain_loop fuel lim stream raw max_frames max_bytes drained size).
Proof.
  revert drained size. induction fuel as [|fuel IH]; intros drained size; cbn [drain_loop]; [walk|].
  destruct (negb _) eqn:Eroom; [walk|]. apply keep_if; [walk|]. set (chunk := Z.min _ _).
  assert (Hchunk : 0 <= chunk).
  { apply negb_false_iff, andb_true_iff in Eroom as [_ Hsz]. apply Z.ltb_lt in Hsz.
    destruct Hlim. unfold chunk. lia. }
  intros s Hs. cbv [mbind M_bind sup_os zoom call].
  destruct (sys_read raw chunk (s_os s)) as [[[|b data]|e] w] eqn:Er.
  - apply (keep_bind runs (set_eof stream) (fun _ => mret (drained, size))); [walk|walk|].
    exact Hs.
  - pose proof (sys_read_bound raw chunk (s_os s) (b :: data) w Hchunk Er) as Hb.
    destruct Hs as (l&Hl&Hok&Hr). cbv [gets]. cbn [s_inv].
    destruct (output_bytes lim <? _) eqn:Eo; [done|]. apply Z.ltb_ge in Eo.
    destruct (triple_output_frame 0 stream (b :: data) l (MkSup (s_inv s) (s_events s) w))
      as (s'&->&Hs'&_); try done.
    { split; [rewrite zlen_cons; pose proof (zlen_nonneg data); lia|unfold chunk in Hb; lia]. }
    by apply IH.
  - assert (Hk : keep runs (if is_kind Interrupted e then
       drain_loop fuel lim stream raw max_frames max_bytes drained size
       else if is_kind WouldBlock e then mret (drained, size) else throw (raw_error e))) by walk.
    by apply (Hk (MkSup (s_inv s) (s_events s) w)).
Qed.
Hint Resolve keep_drain_loop : lifecycle.

Lemma keep_drain_stream fuel stream max_frames max_bytes :
  keep runs (drain_stream fuel lim stream max_frames max_bytes).
Proof. unfold drain_stream. walk. Qed.
Hint Resolve keep_drain_stream : lifecycle.

Lemma keep_batch_turn fuel stream totals : keep runs (batch_turn fuel lim stream totals).
Proof. unfold batch_turn. walk. Qed.
Hint Resolve keep_batch_turn : lifecycle.

Lemma keep_batch_loop fuel frames size : keep runs (batch_loop fuel lim frames size).
Proof. revert frames size. induction fuel; intros; cbn [batch_loop]; walk. Qed.
Lemma keep_drain_batch fuel : keep runs (drain_batch fuel lim).
Proof. apply keep_batch_loop. Qed.
Hint Resolve keep_drain_batch : lifecycle.

Lemma keep_drain_ready fuel timeout : keep runs (drain_ready fuel lim timeout).
Proof. unfold drain_ready. walk. Qed.

(** Reaping: the primary's status is recorded with its count. *)
Lemma reaped_record n pid status i :
  reaped_ok n i -> 0 <= n -> reaped_ok (n + 1) (record_reaped pid status i).
Proof.
  intros (c&Hc&Hr&He) Hn. unfold record_reaped. exists c. destruct (_ || _); [|split_and!; done || lia].
  split_and!; [done|done|]. intros Hx. specialize (He Hx). lia.
Qed.

(** The exit of a status word is one that the host reads back. *)
Lemma readable_status status :
  Z.land status 127 <= 64 \/ Z.land status 127 = 127 ->
  forall exit, (if WIFEXITED status then Some (Exited (WEXITSTATUS status))
    else if WIFSIGNALED status then Some (Signaled (WTERMSIG status)) else None) = Some exit ->
  exit_readable exit = true.
Proof.
  intros Hs exit. unfold WIFEXITED, WIFSIGNALED, WEXITSTATUS, WTERMSIG.
  pose proof (Z.land_ones (Z.shiftr status 8) 8 ltac:(lia)) as He. change (Z.ones 8) with 255 in He.
  pose proof (Z.mod_pos_bound (Z.shiftr status 8) (2 ^ 8) ltac:(lia)).
  destruct (Z.eqb_spec (Z.land status 127) 0).
  - intros [= <-]. unfold exit_readable, deserialize_exit_code.
    rewrite (proj2 (Z.leb_le _ _)); [|lia]. rewrite (proj2 (Z.leb_le _ _)); [done|lia].
  - destruct (_ && _) eqn:Hsig; [|done]. intros [= <-]. unfold exit_readable, deserialize_signal.
    rewrite (proj2 (Z.leb_le _ _)); [|lia]. rewrite (proj2 (Z.leb_le _ _)); [done|lia].
Qed.

Lemma live_record l pid status i :
  Z.land status 127 <= 64 \/ Z.land status 127 = 127 ->
  live_ok lim l i -> live_ok lim l (record_reaped pid status i).
Proof.
  intros Hs Hok. unfold record_reaped. destruct (_ || _); [done|]. destruct Hok.
  constructor; [done..|]. by apply readable_status.
Qed.

Lemma triple_reap_loop fuel target n :
  0 <= n -> triple (runs_at n) (reap_loop fuel target (n mod 2 ^ 64))
    (fun c s => exists n', 0 <= n' /\ c = n' mod 2 ^ 64 /\ runs_at n' s) (fun _ _ => True).
Proof.
  revert n. induction fuel as [|fuel IH]; intros n Hn; cbn [reap_loop]; [done|].
  intros s Hs. cbv [mbind M_bind sup_os zoom call].
  destruct (sys_waitpid target (s_os s)) as [[pid status] w] eqn:Ew. cbn [s_inv s_events].
  destruct (Z.leb_spec pid 0); [by exists n|]. apply sys_wait_status in Ew; [|done].
  cbv [set_inv modify]. cbn [s_inv s_events s_os].
  replace (add64 (n mod 2 ^ 64) 1) with ((n + 1) mod 2 ^ 64)
    by (unfold add64; by rewrite Zplus_mod_idemp_l).
  apply IH; [lia|]. destruct Hs as (l&Hl&Hok&Hr). exists l. split_and!; [done|..]; cbn [s_inv].
  - by apply live_record.
  - by apply reaped_record.
Qed.

Lemma keep_reap_children fuel sc : keep runs (reap_children fuel sc).
Proof.
  unfold reap_children. apply keep_bind; [walk|intros i]. cbv zeta.
  eapply triple_bind; [apply (triple_reap_loop fuel _ 0); lia|]. intros c s (n&Hn&->&l&Hl&Hok&Hr).
  cbv [set_inv modify]. exists l. split_and!; [done|..]; cbn [s_inv].
  - destruct Hok. by constructor.
  - destruct Hr as (m&Hm&Hr&He). exists (m + n). cbn. rewrite Hr. split_and!; [lia|..].
    + unfold add64. by rewrite -Zplus_mod.
    + intros Hx. specialize (He Hx). lia.
Qed.
Hint Resolve keep_reap_children keep_flush_input keep_drain_ready : lifecycle.

Lemma keep_catch_os {A} k (m : M W A) : keep (runs_at k) (catch (sup_os m)).
Proof.
  intros s Hs. unfold catch, sup_os, zoom. destruct (m (s_os s)) as [[r w]|]; [|done]. exact Hs.
Qed.
Hint Resolve keep_catch_os : lifecycle.

Lemma keep_wait timeout : keep runs (wait_for_output timeout).
Proof. unfold wait_for_output. walk. Qed.
Hint Resolve keep_wait : lifecycle.

Lemma keep_cleanup_loop fuel sc deadline : keep runs (cleanup_loop fuel sc lim deadline).
Proof. induction fuel as [|fuel IH]; cbn [cleanup_loop]; walk. Qed.
Hint Resolve keep_cleanup_loop : lifecycle.

(** The barrier has completed: the machine is idle again. *)
Definition done_at (s : Sup W) : Prop :=
  lsteps lim m0 s.(s_events) (last, Idle) /\ s.(s_inv).(i_cleanup_complete) = true.

Lemma finish_invocation_spec exit s :
  runs s -> s.(s_inv).(i_exit) = Some exit ->
  exists s', finish_invocation exit s = Some (Ok tt, s') /\ done_at s'.
Proof.
  intros (l&Hl&Hok&(n&Hn&Hr&He)) Hx. destruct Hok.
  destruct ok_out0 as (_&Hob&Hoh&_), ok_err0 as (_&Heb&Heh&_).
  eexists. split.
  { unfold finish_invocation, finish_stream.
    cbv [gets mbind M_bind mret M_ret set_inv modify emit_event sup_os zoom].
    rewrite !close_opt_eq. reflexivity. }
  split; [|done]. cbn [s_events s_inv set_process set_stream set_fds stream_state i_id
    i_stdout_state i_stderr_state ss_bytes ss_hasher i_frames i_reaped].
  rewrite Hob Hoh Heb Heh ok_id0 ok_frames0 Hr.
  eapply lsteps_snoc; [eapply lsteps_snoc; [exact Hl|by apply step_exited, ok_exit0]|].
  apply step_cleaned. rewrite Z.add_0_r in He. apply He. by eexists.
Qed.

Lemma triple_cleanup fuel sc :
  triple runs (cleanup fuel sc lim) (fun _ => done_at) (fun _ _ => True).
Proof.
  unfold cleanup.
  eapply triple_bind with (R := fun i s => runs s /\ i_cleanup_complete i = false).
  { apply triple_gets. intros s Hs. split; [done|]. by destruct Hs as (l&_&[]&_). }
  intros i. apply triple_pure. intros ->.
  eapply triple_bind; [apply keep_close_stdin|intros ?].
  eapply triple_bind; [apply keep_sup_os|intros now].
  eapply triple_bind; [apply keep_cleanup_loop|intros ?].
  eapply triple_bind; [apply keep_reap_children|intros ?].
  intros s Hs. cbv [gets mbind M_bind]. destruct (i_exit (s_inv s)) as [exit|] eqn:Ex; [|done].
  destruct (finish_invocation_spec exit s Hs Ex) as (s'&->&Hd). exact Hd.
Qed.

Lemma keep_release_root : keep done_at release_root.
Proof.
  intros s [Hl Hc]. unfold release_root. cbv [gets mbind M_bind catch sup_os zoom].
  destruct (RootGuard_remove _ (s_os s)) as [[r w]|]; [|done].
  cbv [set_inv modify lift]. destruct r; [|done]. split; [done|exact Hc].
Qed.

(** After a poll the invocation is still live, or its barrier has completed. *)
Lemma triple_poll_active fuel c timeout :
  c.(limits) = lim ->
  triple runs (poll_active fuel c timeout)
    (fun _ s => if s.(s_inv).(i_cleanup_complete) then done_at s else runs s) (fun _ _ => True).
Proof.
  intros Hc. unfold poll_active. rewrite Hc.
  eapply triple_bind with (R := fun _ => runs); [apply keep_gets|intros i].
  eapply triple_bind with (R := fun _ => runs); [walk|intros ?].
  eapply triple_bind with (R := fun _ => runs); [apply keep_gets|intros i2].
  eapply triple_bind with (R := fun _ => runs); [walk|intros ?].
  eapply triple_bind with (R := fun _ => runs); [apply keep_gets|intros i3].
  eapply triple_bind with (R := fun _ s =>
    if s.(s_inv).(i_cleanup_complete) then done_at s else runs s).
  - assert (Hlive : forall s, runs s -> i_cleanup_complete (s_inv s) = false)
      by by intros s (l&_&[]&_).
    destruct (_ && _).
    + eapply triple_consequence; [apply triple_cleanup|done| |done].
      intros ? s Hd. destruct Hd as [Hl Hd]. rewrite Hd. by split.
    + apply triple_ret. intros s Hs. by rewrite Hlive.
  - intros ? s Hs. cbv [gets mbind M_bind].
    destruct (i_cleanup_complete (s_inv s)) eqn:Ec.
    + pose proof (keep_release_root s Hs) as Hk.
      destruct (release_root s) as [[[[]|e] s']|]; [|done..]. destruct Hk as [Hl Hd].
      rewrite Hd. by split.
    + cbv [mret M_ret]. by rewrite Ec.
Qed.

Lemma triple_shutdown_active fuel c :
  c.(limits) = lim -> triple runs (shutdown_active fuel c) (fun _ => done_at) (fun _ _ => True).
Proof.
  intros Hc. unfold shutdown_active. rewrite Hc.
  eapply triple_bind with (R := fun _ => runs); [apply keep_gets|intros i].
  eapply triple_bind with (R := fun _ => runs); [walk|intros ?].
  eapply triple_bind; [apply triple_cleanup|intros ?]. apply keep_release_root.
Qed.
End supervision_sim.

(** ** The operations refine the machine *)

Inductive Op :=
  | OpStart (invocation : Z) (launch : LaunchIdentity)
  | OpWrite (invocation offset : Z) (data : string)
  | OpEof (invocation : Z)
  | OpTerminate (invocation : Z)
  | OpPoll (timeout : Z)
  | OpShutdown.

Definition run_op {W} `{Os W} `{DebugStr} `{Sha256} (fuel : nat) (op : Op)
    : M (RtState W) (list Event) :=
  match op with
  | OpStart invocation launch => start fuel invocation launch
  | OpWrite invocation offset data => stdin_write fuel invocation offset data
  | OpEof invocation => stdin_eof fuel invocation
  | OpTerminate invocation => terminate invocation
  | OpPoll timeout => poll fuel timeout
  | OpShutdown => shutdown fuel
  end.

Section operations_sim.
Context {W : Type} `{OsLaws W} `{DebugStr} `{Sha256} (c : RuntimeConfig).
Notation lim := c.(limits).
Context (Hlim : limits_ok lim).
Notation ok P m Q := (triple P m Q (fun _ _ => True)).

Definition at_machine (m : Machine) (s : RtState W) : Prop :=
  sim lim m s.(rt) /\ s.(rt).(config) = c.

Lemma keep_rt_os {A} m (a : M W A) : keep (at_machine m) (rt_os a).
Proof.
  intros s Hs. unfold rt_os, zoom. destruct (a (world s)) as [[[x|e] w]|]; [|done..]. exact Hs.
Qed.
Lemma keep_catch_rt_os {A} m (a : M W A) : keep (at_machine m) (catch (rt_os a)).
Proof.
  intros s Hs. unfold catch, rt_os, zoom. destruct (a (world s)) as [[r w]|]; [|done]. exact Hs.
Qed.
Lemma keep_pending_removal m p : keep (at_machine m) (set_rt (set_pending_removal p)).
Proof. apply keep_modify. intros s [[Hl Ha] Hc]. by split. Qed.
Hint Resolve keep_rt_os keep_catch_rt_os keep_pending_removal : lifecycle.

Lemma keep_retry m : keep (at_machine m) retry_removal.
Proof. unfold retry_removal. walk. Qed.
Lemma keep_discard {A} m path failure detail :
  keep (at_machine m) (discard_failed_root path failure detail : M _ (A + _)).
Proof. unfold discard_failed_root. walk. Qed.

(** Results of a start: the event it reports is a step. *)
Definition start_result (m : Machine) (id : Z) (r : Event + (LaunchFailure * string))
    (s : RtState W) : Prop :=
  exists m', at_machine m' s /\
    lstep lim m (match r with inl e => e | inr (f, d) => LaunchFailed id f d end) m'.

Lemma discard_inr {A} P path failure detail (s : RtState W) (r : A + (LaunchFailure * string)) s' :
  P s -> discard_failed_root path failure detail s = Some (Ok r, s') -> exists f, r = inr f.
Proof.
  intros _. unfold discard_failed_root. cbv [mbind M_bind].
  destruct (catch _ s) as [[[[[]|e]|e] s1]|]; [| |done..].
  - intros [= <- <-]. by eexists.
  - cbv [set_rt modify mret M_ret]. intros [= <- <-]. by eexists.
Qed.

Lemma triple_discard last id path failure detail :
  newer last id ->
  ok (at_machine (Some id, Idle)) (discard_failed_root path failure detail)
    (start_result (last, Idle) id).
Proof.
  intros Hn s Hs. pose proof (keep_discard (A := Event) (Some id, Idle) path failure detail s Hs) as Hk.
  destruct (discard_failed_root _ _ _ s) as [[[r|e] s']|] eqn:E; [|done..].
  destruct (discard_inr _ _ _ _ _ _ _ Hs E) as [[f d] ->].
  exists (Some id, Idle). split; [done|]. by constructor.
Qed.

Lemma triple_launch_in fuel last id launch path :
  newer last id -> validate_launch_identity launch = Ok tt ->
  ok (at_machine (Some id, Idle)) (launch_in fuel id launch path) (start_result (last, Idle) id).
Proof.
  intros Hn Hv. unfold launch_in.
  eapply triple_bind with (R := fun _ => at_machine (Some id, Idle)); [apply keep_gets|intros c0].
  eapply triple_bind; [apply keep_catch_rt_os|intros [u|e]; [|by apply triple_discard]].
  eapply triple_bind; [apply keep_rt_os|intros [v|[f d]]; [|by apply triple_discard]].
  eapply triple_bind; [apply keep_rt_os|intros [sp|[f d]]; [|by apply triple_discard]].
  intros s [[Hl Ha] Hc]. cbv [mbind M_bind set_rt modify mret M_ret].
  exists (Some id, Running (fresh id)). split; [|by constructor]. split; [|done]. split; [done|].
  cbn. exists (fresh id). split_and!; [done| |].
  - destruct Hlim. constructor; cbn; try done; try lia;
      unfold stream_ok; cbn; rewrite ?zlen_nil; split_and!; try done; lia.
  - exists 0. split_and!; [done|done|]. by intros [].
Qed.

(** [rt_bind] with the failure leaving at once. *)
Lemma triple_rt_bind {A B} P (m : M (RtState W) (A + (LaunchFailure * string))) (k : A -> _) R
    (Q : B + (LaunchFailure * string) -> _ -> Prop) :
  ok P m (fun r s => match r with inl a => R a s | inr f => Q (inr f) s end) ->
  (forall a, ok (R a) (k a) Q) -> ok P (rt_bind m k) Q.
Proof.
  intros Hm Hk. unfold rt_bind. eapply triple_bind; [exact Hm|]. intros [a|f]; [apply Hk|].
  by apply triple_ret.
Qed.

Lemma triple_rt_or {A} P failure f (m : M (RtState W) A) (Q : A + (LaunchFailure * string) -> _ -> Prop) :
  keep P (catch m) -> (forall a s, P s -> Q (inl a) s) ->
  (forall e s, P s -> Q (inr (failure, f e)) s) -> ok P (rt_or failure f m) Q.
Proof.
  intros Hm Hl Hr. unfold rt_or. eapply triple_bind; [exact Hm|].
  intros [a|e]; apply triple_ret; auto.
Qed.

(** Before the identifier is accepted, a failure leaves the machine alone. *)
Lemma refused m id (s : RtState W) f d : at_machine m s -> start_result m id (inr (f, d)) s.
Proof. intros Hs. exists m. split; [done|]. destruct m. constructor. Qed.
Lemma accepted_failure last id (s : RtState W) f d :
  newer last id -> at_machine (Some id, Idle) s -> start_result (last, Idle) id (inr (f, d)) s.
Proof. intros Hn Hs. exists (Some id, Idle). split; [done|]. by constructor. Qed.

Lemma triple_accepted fuel last id launch :
  newer last id ->
  ok (at_machine (Some id, Idle))
    (rt_bind (rt_or Executable error_message (lift (validate_launch_identity launch))) (fun _ =>
     rt_bind (rt_or Materialization (fun e => "cannot create the runtime root: "
                                              +:+ e.(error_message))
                (rt_os (create_private_directory c.(runtime_root)))) (fun _ =>
     let path := path_join c.(runtime_root) (as_bytes ("invocation-" +:+ fmt_dec id)) in
     exists_ ← rt_os (call (fs_exists path));
     if exists_ : bool then
       mret (inr (InvocationRepeated, "invocation root " +:+ from_utf8_lossy path
                                      +:+ " already exists"))
     else
     rt_bind (rt_or Materialization error_message
                (rt_os (call_unit raw_error (fs_create_dir path)))) (fun _ =>
     launch_in fuel id launch path))))
    (start_result (last, Idle) id).
Proof.
  intros Hn. destruct (validate_launch_identity launch) as [[]|e] eqn:Ev; cycle 1.
  { apply triple_rt_bind with (R := fun _ _ => False); [|by intros ? s []]. intros s Hs.
    by apply accepted_failure. }
  eapply triple_rt_bind with (R := fun _ => at_machine (Some id, Idle)); [|intros _].
  { by intros s Hs. }
  eapply triple_rt_bind with (R := fun _ => at_machine (Some id, Idle)); [|intros _].
  { apply triple_rt_or; [apply keep_catch_rt_os|done|]. intros. by apply accepted_failure. }
  cbv zeta. eapply triple_bind; [apply keep_rt_os|intros [|]].
  { apply triple_ret. intros s Hs. by apply accepted_failure. }
  eapply triple_rt_bind with (R := fun _ => at_machine (Some id, Idle)); [|intros _].
  { apply triple_rt_or; [apply keep_catch_rt_os|done|]. intros. by apply accepted_failure. }
  by apply triple_launch_in.
Qed.

Lemma triple_start_inner fuel m id launch :
  ok (at_machine m) (start_inner fuel id launch) (start_result m id).
Proof.
  unfold start_inner. eapply triple_rt_bind with (R := fun _ => at_machine m).
  { intros s Hs. pose proof (keep_retry m s Hs) as Hk.
    destruct (retry_removal s) as [[[[u|[f d]]|e] s']|]; [done| |done..]. by apply refused. }
  intros _. apply triple_at. intros s0 Hs0. destruct Hs0 as [[Hl Ha] Hc] eqn:E0. clear E0.
  intros s ->. cbv [gets mbind M_bind]. destruct (active (rt s0)) as [i|] eqn:Ei.
  { rewrite bool_decide_true; [|by eexists]. apply refused. split; [split; [done|by rewrite Ei]|done]. }
  rewrite bool_decide_false; [|by intros []]. destruct m as [last p]. cbn in Hl, Ha. subst p last.
  assert (Hm : at_machine (last_invocation (rt s0), Idle) s0) by (split; [split; [done|by rewrite Ei]|done]).
  destruct (last_invocation (rt s0)) as [last|] eqn:El.
  - destruct (id <=? last) eqn:Ele; [by apply refused|]. apply Z.leb_gt in Ele.
    cbv [mret M_ret set_rt modify]. rewrite Hc. apply triple_accepted; [done|].
    split; [split; [done|by rewrite /= Ei]|done].
  - cbv [mret M_ret set_rt modify]. rewrite Hc. apply triple_accepted; [done|].
    split; [split; [done|by rewrite /= Ei]|done].
Qed.

Lemma triple_start fuel m id launch :
  ok (at_machine m) (start fuel id launch)
    (fun es s => exists m', lsteps lim m es m' /\ at_machine m' s).
Proof.
  unfold start. eapply triple_bind; [apply triple_start_inner|].
  intros [e|[f d]]; apply triple_ret; intros s (m'&Hm'&Hs); exists m'; split; try done;
    by apply lsteps_one.
Qed.

(** ** Input and termination *)

Lemma triple_fatal {A} P inv e (Q : A -> RtState W -> Prop) : ok P (fatal inv e) Q.
Proof.
  assert (Htriv : forall B (m : M (RtState W) B) P, ok P m (fun _ _ => True)).
  { intros B m P' s _. by destruct (m s) as [[[]]|]. }
  unfold fatal. eapply triple_bind; [apply Htriv|intros r].
  eapply triple_bind; [apply Htriv|by intros ? s].
Qed.

(** Flushing and closing the input emits nothing. *)
Notation silent es := (fun s : Sup W => s.(s_events) = es).
Lemma silent_sup_os {A} es (m : M W A) : keep (silent es) (sup_os m).
Proof. intros s Hs. unfold sup_os, zoom. by destruct (m (s_os s)) as [[[] w]|]. Qed.
Lemma silent_set_inv es f : keep (silent es) (set_inv f).
Proof. by apply keep_modify. Qed.
Hint Resolve silent_sup_os silent_set_inv : lifecycle.
Lemma silent_flush es fuel : keep (silent es) (flush_input fuel).
Proof.
  unfold flush_input, close_stdin. assert (forall raw, keep (silent es) (flush_loop fuel raw)).
  { intros raw. induction fuel as [|fuel IH]; cbn [flush_loop]; walk. }
  walk.
Qed.

(** Run a silent computation on the active invocation: what remains is a live
    invocation related to the same machine state. *)
Lemma run_active_silent {A} (m : M (Sup W) A) last l i (s : RtState W) :
  live_ok lim l i -> reaped_ok 0 i -> keep (runs_at lim last (last, Running l) 0) m ->
  keep (silent []) m -> s.(rt).(last_invocation) = last -> s.(rt).(config) = c ->
  match run_active i m s with
  | Some (Ok _, s') => at_machine (last, Running l) s'
  | _ => True
  end.
Proof.
  intros Hok Hr Hm Hsil Hl Hc. unfold run_active.
  specialize (Hm (MkSup i [] (world s))). specialize (Hsil (MkSup i [] (world s)) eq_refl).
  destruct (m _) as [[[a|e] sup]|]; [|done..].
  destruct Hm as (l'&Hst&Hok'&Hr'); [exists l; split; [constructor|done]|].
  rewrite Hsil in Hst. inversion Hst as [|? es ? ? ? ? ? Hnil]; subst; [|by destruct es].
  split; [|done]. split; [done|]. by exists l'.
Qed.

(** The active invocation and its machine state. *)
Lemma triple_invocation_mut m id :
  ok (at_machine m) (invocation_mut id) (fun i s => exists last l, m = (last, Running l) /\
    l.(l_id) = id /\ s.(rt).(active) = Some i /\ live_ok lim l i /\ reaped_ok 0 i /\
    s.(rt).(last_invocation) = last /\ s.(rt).(config) = c).
Proof.
  intros s [[Hl Ha] Hc]. unfold invocation_mut. cbv [gets mbind M_bind].
  destruct (active (rt s)) as [i|] eqn:Ei; [|done]. destruct (i_id i =? id) eqn:Eid; [|done].
  apply Z.eqb_eq in Eid. destruct Ha as (l&Hm&Hok&Hr). destruct m as [last p]. cbn in Hl, Hm.
  subst p last. exists (last_invocation (rt s)), l. split_and!; try done. by destruct Hok; congruence.
Qed.

Lemma triple_stdin_write fuel m id offset data :
  ok (at_machine m) (stdin_write fuel id offset data)
    (fun es s => exists m', lsteps lim m es m' /\ at_machine m' s).
Proof.
  unfold stdin_write. eapply triple_bind with (R := fun r s => at_machine m s /\ r.(config) = c).
  { apply triple_gets. by intros s [Hs Hc]. }
  intros r. apply triple_pure. intros ->.
  destruct (decode_bytes data (input_frame_bytes lim)) as [bs|e] eqn:Ed; [|apply triple_fatal].
  apply decode_bytes_spec in Ed as [_ Hbs]; [|destruct Hlim; unfold MAX_STDIN_FRAME_BYTES in *; lia].
  destruct (is_empty bs) eqn:Ee; [apply triple_fatal|].
  eapply triple_bind; [apply triple_invocation_mut|]. intros i s (last&l&->&Hid&Hact&Hok&Hr&Hlast&Hc).
  destruct (_ || _) eqn:Eclosed; [by apply (triple_fatal (fun _ => True))|].
  destruct (negb _) eqn:Eoff; [by apply (triple_fatal (fun _ => True))|].
  destruct (input_bytes lim <? _) eqn:Eb; [by apply (triple_fatal (fun _ => True))|].
  apply orb_false_iff in Eclosed as [[Et Eeof]%orb_false_iff _]. apply Z.ltb_ge in Eb.
  pose proof (zlen_nonneg bs). assert (0 < zlen bs).
  { destruct bs; [done|]. rewrite zlen_cons. pose proof (zlen_nonneg bs). lia. }
  destruct Hok, Hlim. unfold MAX_STDIN_FRAME_BYTES, saturating_add64, U64_MAX in *.
  rewrite ok_input_bytes0 in Eb.
  assert (Hadd : add64 (l_input l) (zlen bs) = l_input l + zlen bs)
    by (apply add64_small; unfold U64_MAX; lia).
  rewrite ok_input_offset0 ok_input_bytes0 Hadd.
  set (queued := set_input _ _ _ _ _ i).
  assert (Hq : live_ok lim (with_input l (zlen bs) false) queued).
  { constructor; try done; cbn; first [lia|congruence]. }
  pose proof (run_active_silent (flush_input fuel) last _ queued s Hq Hr
    (keep_flush_input lim Hlim last _ fuel) (silent_flush [] fuel) Hlast Hc) as Hrun.
  cbv [mbind M_bind catch]. destruct (run_active queued _ s) as [[[x|e] s']|]; [| |done].
  - exists (last, Running (with_input l (zlen bs) false)). split; [|done]. apply lsteps_one.
    rewrite -Hid. apply step_input; try congruence; lia.
  - by apply (triple_fatal (fun _ => True)).
Qed.

Lemma triple_stdin_eof fuel m id :
  ok (at_machine m) (stdin_eof fuel id)
    (fun es s => exists m', lsteps lim m es m' /\ at_machine m' s).
Proof.
  unfold stdin_eof. eapply triple_bind; [apply triple_invocation_mut|].
  intros i s (last&l&->&Hid&Hact&Hok&Hr&Hlast&Hc).
  destruct (i_terminating i) eqn:Et; [done|]. destruct (i_eof_requested i) eqn:Ee; [done|].
  destruct Hok. set (ended := set_input _ _ _ _ _ i).
  assert (Hq : live_ok lim (with_input l 0 true) ended).
  { constructor; cbn; rewrite ?Z.add_0_r; done || congruence. }
  pose proof (run_active_silent (flush_input fuel) last _ ended s Hq Hr
    (keep_flush_input lim Hlim last _ fuel) (silent_flush [] fuel) Hlast Hc) as Hrun.
  cbv [mbind M_bind catch]. destruct (run_active ended _ s) as [[[x|e] s']|]; [| |done].
  - exists (last, Running (with_input l 0 true)). split; [|done]. apply lsteps_one.
    rewrite ok_input_offset0 -Hid. apply step_eof; congruence.
  - by apply (triple_fatal (fun _ => True)).
Qed.

Lemma triple_terminate m id :
  ok (at_machine m) (terminate id)
    (fun es s => exists m', lsteps lim m es m' /\ at_machine m' s).
Proof.
  unfold terminate. eapply triple_bind with (R := fun _ => at_machine m); [apply keep_gets|intros c0].
  eapply triple_bind; [apply triple_invocation_mut|].
  intros i s (last&l&->&Hid&Hact&Hok&Hr&Hlast&Hc).
  destruct (bool_decide _); [done|]. destruct Hok. set (marked := set_input _ _ _ _ _ i).
  assert (Hq : live_ok lim (with_term l) marked) by by constructor.
  cbv zeta. set (body := _ ≫= _ : M (Sup W) unit).
  pose proof (run_active_silent body last _ marked s Hq Hr) as Hrun.
  cbv [mbind M_bind]. destruct (run_active marked body s) as [[[x|e] s']|]; [|done..].
  exists (last, Running (with_term l)). split.
  - apply lsteps_one. rewrite -Hid. apply step_terminate.
  - apply Hrun; try done; unfold body.
    + apply keep_bind; [by apply keep_sup_os|intros ?].
      apply keep_bind; [by apply keep_set_pending|intros ?]. by apply keep_close_stdin.
    + unfold close_stdin. walk.
Qed.

(** ** Polling and shutdown *)

Lemma triple_release_slot last :
  ok (fun s : RtState W => s.(rt).(last_invocation) = last /\ s.(rt).(config) = c)
    release_slot (fun _ => at_machine (last, Idle)).
Proof.
  intros s [Hl Hc]. unfold release_slot. cbv [gets mbind M_bind].
  destruct (active (rt s)) as [i|].
  - cbv [rt_os zoom]. destruct (Invocation_drop i (world s)) as [[[u|e] w]|]; [|done..].
    split; [|done]. by split.
  - split; [|done]. by split.
Qed.

(** Run a computation on the active invocation and keep its events. *)
Lemma run_active_spec {A} (m : M (Sup W) A) last l i Q (s : RtState W) :
  live_ok lim l i -> reaped_ok 0 i ->
  triple (runs_at lim last (last, Running l) 0) m (fun _ => Q) (fun _ _ => True) ->
  match run_active i m s with
  | Some (Ok (_, es), s') =>
      exists sup, Q sup /\ es = sup.(s_events) /\ s'.(rt) = set_active (Some sup.(s_inv)) s.(rt)
  | _ => True
  end.
Proof.
  intros Hok Hr Hm. unfold run_active. specialize (Hm (MkSup i [] (world s))).
  destruct (m _) as [[[a|e] sup]|]; [|done..]. exists sup. split; [|done].
  apply Hm. exists l. split; [constructor|done].
Qed.

Lemma triple_poll fuel m timeout :
  ok (at_machine m) (poll fuel timeout)
    (fun es s => exists m', lsteps lim m es m' /\ at_machine m' s).
Proof.
  intros s [[Hl Ha] Hc] . unfold poll. cbv [gets mbind M_bind].
  destruct (active (rt s)) as [i|] eqn:Ei; cycle 1.
  { exists m. split; [constructor|]. split; [|done]. split; [done|by rewrite Ei]. }
  destruct Ha as (l&Hm&Hok&Hr). destruct m as [last p]. cbn in Hl, Hm. subst p.
  pose proof (run_active_spec (poll_active fuel (config (rt s)) timeout) last l i _ s Hok Hr
    (triple_poll_active lim Hlim last _ fuel (config (rt s)) timeout ltac:(by rewrite Hc))) as Hrun.
  destruct (run_active i _ s) as [[[[u es]|e] s1]|]; [|done..].
  destruct Hrun as (sup&Hsup&->&Hrt). rewrite Hrt. cbn [active set_active fmap option_fmap option_map].
  destruct (i_cleanup_complete (s_inv sup)) eqn:Ecl.
  - destruct Hsup as [Hst _]. rewrite bool_decide_true //.
    pose proof (triple_release_slot last s1) as Hrel.
    destruct (release_slot s1) as [[[u'|e] s2]|]; [|done..].
    exists (last, Idle). split; [done|]. apply Hrel. by rewrite Hrt.
  - rewrite bool_decide_false //. destruct Hsup as (l'&Hst&Hok'&Hr').
    exists (last, Running l'). split; [done|]. split; [|by rewrite Hrt].
    split; [by rewrite Hrt|]. rewrite Hrt. by exists l'.
Qed.

Lemma triple_shutdown fuel m :
  ok (at_machine m) (shutdown fuel)
    (fun es s => exists m', lsteps lim m es m' /\ at_machine m' s /\ s.(rt).(active) = None).
Proof.
  intros s [[Hl Ha] Hc]. unfold shutdown. cbv [gets mbind M_bind].
  destruct (active (rt s)) as [i|] eqn:Ei; cycle 1.
  { exists m. split; [constructor|]. split; [|done]. split; [|done]. split; [done|by rewrite Ei]. }
  destruct Ha as (l&Hm&Hok&Hr). destruct m as [last p]. cbn in Hl, Hm. subst p.
  pose proof (run_active_spec (shutdown_active fuel (config (rt s))) last l i _ s Hok Hr
    (triple_shutdown_active lim Hlim last _ fuel (config (rt s)) ltac:(by rewrite Hc))) as Hrun.
  destruct (run_active i _ s) as [[[[u es]|e] s1]|]; [|done..].
  destruct Hrun as (sup&[Hst _]&->&Hrt).
  pose proof (triple_release_slot last s1) as Hrel.
  assert (Hnone : forall u s2, release_slot s1 = Some (Ok u, s2) -> active (rt s2) = None).
  { intros u' s2. unfold release_slot. cbv [gets mbind M_bind].
    destruct (match active (rt s1) with Some _ => _ | None => _ end) as [[[]]|]; [|done..].
    by intros [= <- <-]. }
  destruct (release_slot s1) as [[[u'|e] s2]|]; [|done..].
  exists (last, Idle). split_and!; [done|apply Hrel; by rewrite Hrt|by eapply Hnone].
Qed.

Lemma triple_run_op fuel m op :
  ok (at_machine m) (run_op fuel op)
    (fun es s => exists m', lsteps lim m es m' /\ at_machine m' s).
Proof.
  destruct op; cbn [run_op].
  - apply triple_start.
  - apply triple_stdin_write.
  - apply triple_stdin_eof.
  - apply triple_terminate.
  - apply triple_poll.
  - eapply triple_consequence; [apply triple_shutdown|done| |done].
    intros es s (m'&?&?&_). by exists m'.
Qed.
End operations_sim.

(** ** The runtime as a whole *)

Lemma limits_validated (l : RuntimeLimits) :
  validate_limits l = Ok tt -> 0 <= l.(input_frame_bytes) -> 0 <= l.(output_frame_bytes) ->
  l.(output_bytes) < 2 ^ 62 -> l.(input_bytes) < 2 ^ 62 -> limits_ok l.
Proof.
  unfold validate_limits. intros Hv. repeat (case_match; [done|]). bool_facts.
  constructor; lia.
Qed.

(** The commands the runtime refuses before it does anything for them. *)
Definition refuses_invocation (r : Runtime) (invocation : Z) (busy : Invocation -> bool) : bool :=
  match r.(active) with
  | Some i => negb (i.(i_id) =? invocation) || busy i
  | None => true
  end.
Definition refuses (r : Runtime) (op : Op) : bool :=
  let l := r.(config).(limits) in
  match op with
  | OpWrite invocation offset data =>
      match decode_bytes data l.(input_frame_bytes) with
      | Err _ => true
      | Ok data => is_empty data || refuses_invocation r invocation (fun i =>
          i.(i_terminating) || i.(i_eof_requested) || bool_decide (i.(i_stdin) = None)
          || negb (i.(i_input_offset) =? offset)
          || (l.(input_bytes) <? saturating_add64 i.(i_input_bytes) (zlen data)))
      end
  | OpEof invocation =>
      refuses_invocation r invocation (fun i => i.(i_terminating) || i.(i_eof_requested))
  | OpTerminate invocation => refuses_invocation r invocation (fun i => bool_decide (is_Some i.(i_exit)))
  | OpStart _ _ | OpPoll _ | OpShutdown => false
  end.

Section refused.
Context {W : Type} `{Os W} `{DebugStr} `{Sha256}.

(** A failure that leaves the runtime as it was. *)
Definition rejected {A} (s : RtState W) (o : option (result A * RtState W)) : Prop :=
  match o with Some (Ok _, _) => False | Some (Err _, s') => s'.(rt) = s.(rt) | None => True end.

Lemma invocation_mut_refused (s : RtState W) id busy :
  refuses_invocation s.(rt) id busy = true ->
  (exists e, invocation_mut id s = Some (Err e, s)) \/
  (exists i, invocation_mut id s = Some (Ok i, s) /\ busy i = true).
Proof.
  unfold refuses_invocation, invocation_mut. cbv [gets mbind M_bind].
  destruct (active (rt s)) as [i|]; [|left; by eexists]. destruct (i_id i =? id); cbn.
  - intros Hb. right. by exists i.
  - left. by eexists.
Qed.
Lemma invocation_mut_same (s : RtState W) id : exists r, invocation_mut id s = Some (r, s).
Proof.
  unfold invocation_mut. cbv [gets mbind M_bind]. destruct (active (rt s)) as [i|]; [|by eexists].
  destruct (i_id i =? id); by eexists.
Qed.
Lemma fatal_rejected {A} id e (s : RtState W) : rejected s (fatal id e s : option (result A * _)).
Proof.
  unfold fatal. destruct (invocation_mut_same s id) as [r Er]. cbv [catch mbind M_bind]. rewrite Er.
  destruct r as [i|?]; [|done]. case_bool_decide; [|done]. cbv [gets rt_os zoom].
  by destruct (signal_members _ _ _ _) as [[r w]|].
Qed.

Lemma refused_op fuel op (s : RtState W) : refuses s.(rt) op = true -> rejected s (run_op fuel op s).
Proof.
  destruct op as [| id offset data|id|id| |]; cbn [refuses run_op]; [done| | | |done|done].
  - unfold stdin_write. unfold mbind at 1, M_bind at 1, gets at 1.
    destruct (decode_bytes _ _) as [bs|e]; [|intros _; apply fatal_rejected].
    destruct (is_empty bs); [intros _; apply fatal_rejected|]. cbn [orb].
    intros [[e E]|(i&E&Hb)]%invocation_mut_refused; unfold mbind, M_bind at 1; rewrite E; [done|].
    cbv beta in Hb. destruct (_ || _ || bool_decide _); [apply fatal_rejected|].
    destruct (negb _); [apply fatal_rejected|]. cbn [orb] in Hb. rewrite Hb. apply fatal_rejected.
  - unfold stdin_eof. intros [[e E]|(i&E&Hb)]%invocation_mut_refused; unfold mbind, M_bind at 1;
      rewrite E; [done|]. destruct (i_terminating i); [done|]. by destruct (i_eof_requested i).
  - unfold terminate. unfold mbind at 1, M_bind at 1, gets at 1.
    intros [[e E]|(i&E&Hb)]%invocation_mut_refused; unfold mbind, M_bind at 1;
      rewrite E; [done|]. cbv beta in Hb. by rewrite Hb.
Qed.
End refused.

(** A sequence of commands, with the events reported: a command that is refused
    reports none, and the next one is issued. *)
Inductive commands_run {W} `{Os W} `{DebugStr} `{Sha256} (fuel : nat)
    : RtState W -> list Op -> list Event -> RtState W -> Prop :=
  | run_done s : commands_run fuel s [] [] s
  | run_accepted op ops es rest s s1 s2 :
      run_op fuel op s = Some (Ok es, s1) -> commands_run fuel s1 ops rest s2 ->
      commands_run fuel s (op :: ops) (es ++ rest) s2
  | run_refused op ops rest e s s1 s2 :
      refuses s.(rt) op = true -> run_op fuel op s = Some (Err e, s1) ->
      commands_run fuel s1 ops rest s2 -> commands_run fuel s (op :: ops) rest s2.

Lemma commands_sim {W} `{OsLaws W} `{DebugStr} `{Sha256} c fuel ops es (s s' : RtState W) m :
  limits_ok c.(limits) -> commands_run fuel s ops es s' -> at_machine c m s ->
  exists m', lsteps c.(limits) m es m' /\ at_machine c m' s'.
Proof.
  intros Hlim Hr. revert m. induction Hr as [s|op ops es rest s s1 s2 E _ IH|op ops rest e s s1 s2 Hf E _ IH];
    intros m Hm.
  - exists m. split; [constructor|done].
  - pose proof (triple_run_op c Hlim fuel m op s Hm) as Ht. rewrite E in Ht.
    destruct Ht as (m1&Hes&Hm1). destruct (IH m1 Hm1) as (m2&Hrest&Hm2).
    exists m2. split; [by eapply lsteps_app|done].
  - apply (refused_op fuel) in Hf. rewrite E in Hf. apply IH. destruct Hm as [Hs Hc].
    cbn in Hf. split; by rewrite Hf.
Qed.

Lemma built_sim {W} `{OsLaws W} `{DebugStr} `{Sha256} fuel c r ops (w w1 : W) es s :
  0 <= c.(limits).(input_frame_bytes) -> 0 <= c.(limits).(output_frame_bytes) ->
  c.(limits).(output_bytes) < 2 ^ 62 -> c.(limits).(input_bytes) < 2 ^ 62 ->
  Runtime_new fuel c w = Some (Ok r, w1) -> commands_run fuel (MkRt r w1) ops es s ->
  limits_ok c.(limits) /\ exists m, lsteps c.(limits) (None, Idle) es m /\ sim c.(limits) m s.(rt).
Proof.
  intros L1 L2 L3 L4 Hnew Hrun.
  assert (Hok : limits_ok c.(limits) /\ r = MkRuntime c None None None).
  { revert Hnew. unfold Runtime_new. cbv [mbind M_bind lift gets].
    destruct (validate_limits (limits c)) as [[]|] eqn:Ev; [|done].
    unfold fail_if. destruct (_ && _); [done|]. cbv [mret M_ret].
    destruct (validate_template fuel _ _ w) as [[[u|e] w2]|]; [|done..]. intros [= <- _].
    split; [by apply limits_validated|done]. }
  destruct Hok as [Hlim ->]. split; [done|].
  destruct (commands_sim c fuel ops es _ s (None, Idle) Hlim Hrun) as (m&Hst&[Hs _]); [by split|].
  by exists m.
Qed.


(** ** A sample session *)

Definition sample_launch : LaunchIdentity := {|
  executable := "/bin/app"; arguments := ["/bin/app"]; environment := [];
  working_directory := "/"; uid := 65534; gid := 65534 |}.

Definition sample_files (path : bytes) : Metadata + RawError :=
  inl {| md_type := if bool_decide (path = as_bytes "/run/simferret/invocation-1/bin/app")
                    then RegularType else DirectoryType;
         md_mode := 493; md_uid := 0; md_gid := 0; md_mtime := 0; md_len := 1 |}.

(** The workload answers a line, then nothing; after the kill its pipes end and
    it is reaped with a descendant. *)
Definition sample_os : ScriptOs := {|
  so_reads := [(12, inl (as_bytes "ready")); (12, inr would_block); (14, inr would_block)];
  so_waits := [(0, 0); (0, 0); (100, 9); (0, 0); (101, 9); (0, 0)];
  so_tables := [[as_bytes "1"; as_bytes "100"]; [as_bytes "100"]; []];
  so_next_fd := 10;
  so_clock := 0;
  so_files := sample_files;
  so_quota := 1;
  so_writes := [];
  so_kills := [] |}.

(** The second write is out of place and is refused, which stops the workload. *)
Definition sample_ops : list Op :=
  [OpStart 1 sample_launch; OpWrite 1 0 "6869"; OpPoll 0; OpWrite 1 7 "6869"; OpTerminate 1; OpPoll 0].

(** The commands one after the other, as [commands_run] relates them. *)
Fixpoint run_sample `{DebugStr} `{Sha256} (fuel : nat) (ops : list Op) (s : RtState ScriptOs)
    : option (list Event * RtState ScriptOs) :=
  match ops with
  | [] => Some ([], s)
  | op :: ops =>
      match run_op fuel op s with
      | Some (Ok es, s1) => '(rest, s2) ← run_sample fuel ops s1; Some (es ++ rest, s2)
      | Some (Err _, s1) => if refuses s.(rt) op then run_sample fuel ops s1 else None
      | None => None
      end
  end.
Lemma run_sample_run `{DebugStr} `{Sha256} fuel ops s es s' :
  run_sample fuel ops s = Some (es, s') -> commands_run fuel s ops es s'.
Proof.
  revert s es. induction ops as [|op ops IH]; intros s es; cbn [run_sample]; [intros [= <- <-]; constructor|].
  destruct (run_op fuel op s) as [[[es1|e] s1]|] eqn:E; [| |done].
  - destruct (run_sample fuel ops s1) as [[rest s2]|] eqn:E2; [|done]. intros [= <- <-].
    econstructor; [exact E|]. by apply IH.
  - destruct (refuses (rt s) op) eqn:Er; [|done]. intros E2. eapply run_refused; [exact Er|exact E|by apply IH].
Qed.

#[local] Instance plain_debug : DebugStr := {| debug_str s := s |}.
#[local] Instance no_sha : Sha256 := {| sha256_digest _ := [] |}.

Definition sample_runtime : RtState ScriptOs :=
  MkRt (MkRuntime RuntimeConfig_guest None None None) sample_os.

