(* ===== verification/RuntimeLoops.v ===== *)
(** The loops of the process runtime: a service batch is bounded and leaves
    each stream its share, the cleanup barrier completes only when nothing is
    left, queued input reaches the child in order, and polling returns. *)

From stdpp Require Import ssreflect.
From Stdlib Require Import Strings.Byte.
From S2P Require Import Prelude Types Std Protocol Tree Spec Effects Os Runtime Launch RuntimeApi Lifecycle.

(** ** Service batches *)

(** The bytes an output event carries. *)
Definition event_bytes (e : Event) : Z :=
  match e with WorkloadOutput _ _ _ _ data => str_len data / 2 | _ => 0 end.
Definition sum_bytes (es : list Event) : Z := foldr Z.add 0 (map event_bytes es).

Lemma sum_bytes_snoc es e : sum_bytes (es ++ [e]) = sum_bytes es + event_bytes e.
Proof. unfold sum_bytes. induction es as [|x es IH]; cbn in *; lia. Qed.
Lemma sum_bytes_app es es' : sum_bytes (es ++ es') = sum_bytes es + sum_bytes es'.
Proof. unfold sum_bytes. induction es as [|x es IH]; cbn in *; lia. Qed.

#[local] Set Default Proof Using "All".
Section batch.
Context {W : Type} `{OsLaws W} (lim : RuntimeLimits) (Hframe : 0 < lim.(output_frame_bytes)).

(** [s] has emitted [frames] events of [size] bytes after [es]. *)
Definition emitted (es : list Event) (frames size : Z) (s : Sup W) : Prop :=
  exists new, s.(s_events) = es ++ new /\ zlen new = frames /\ sum_bytes new = size.
(** At most that much, on success and on failure alike. *)
Definition within (es : list Event) (frames size : Z) (s : Sup W) : Prop :=
  exists f z, emitted es f z s /\ f <= frames /\ z <= size.

Lemma emitted_output es frames size stream data (s : Sup W) :
  emitted es frames size s ->
  exists s', output_frame stream data s = Some (Ok tt, s')
    /\ emitted es (frames + 1) (size + zlen data) s'.
Proof.
  intros (new&Hs&Hf&Hz). eexists.
  split; [cbv [output_frame gets mbind M_bind set_inv modify emit_event]; reflexivity|].
  eexists (new ++ [_]). cbn [s_events]. rewrite Hs -app_assoc. split; [done|].
  rewrite zlen_app zlen_cons zlen_nil sum_bytes_snoc. cbn [event_bytes].
  rewrite str_len_encode_bytes. replace (2 * zlen data / 2) with (zlen data); [lia|].
  rewrite Z.mul_comm Z.div_mul //.
Qed.

Lemma emitted_os es frames size (s : Sup W) w :
  emitted es frames size s -> emitted es frames size (MkSup s.(s_inv) s.(s_events) w).
Proof. done. Qed.

(** The drain loop emits exactly what it counts, within its allowance. *)
Lemma drain_loop_counts fuel stream raw max_frames max_bytes es frames size drained total :
  drained <= max_frames -> total <= max_bytes ->
  triple (emitted es frames size)
    (drain_loop fuel lim stream raw max_frames max_bytes drained total)
    (fun r s => drained <= r.1 <= max_frames /\ r.2 <= max_bytes /\
       emitted es (frames + (r.1 - drained)) (size + (r.2 - total)) s)
    (fun _ => within es (frames + (max_frames - drained)) (size + (max_bytes - total))).
Proof.
  revert frames size drained total. induction fuel as [|fuel IH];
    intros frames size drained total Hd Ht; cbn [drain_loop]; [done|].
  assert (Hret : forall s, emitted es frames size s ->
    drained <= drained <= max_frames /\ total <= max_bytes /\
    emitted es (frames + (drained - drained)) (size + (total - total)) s).
  { intros s Hs. rewrite !Z.sub_diag !Z.add_0_r. split_and!; [lia..|done]. }
  assert (Herr : forall s, emitted es frames size s ->
    within es (frames + (max_frames - drained)) (size + (max_bytes - total)) s).
  { intros s Hs. exists frames, size. split; [done|lia]. }
  destruct (negb _) eqn:Eroom; [by apply triple_ret|].
  apply negb_false_iff, andb_true_iff in Eroom as [Hd' Ht']. apply Z.ltb_lt in Hd', Ht'.
  apply triple_if; [by intros; apply triple_ret|intros _].
  set (chunk := Z.min _ _). assert (Hc : 0 <= chunk <= max_bytes - total) by (unfold chunk; lia).
  intros s Hs. cbv [mbind M_bind sup_os zoom call].
  destruct (sys_read raw chunk (s_os s)) as [[[|b data]|e] w] eqn:Er.
  - cbv [set_eof set_inv modify mret M_ret]. by apply Hret.
  - pose proof (sys_read_bound raw chunk (s_os s) (b :: data) w (proj1 Hc) Er) as Hb.
    cbv [gets]. cbn [s_inv]. destruct (output_bytes lim <? _); [by apply Herr|].
    destruct (emitted_output es frames size stream (b :: data) (MkSup (s_inv s) (s_events s) w))
      as (s'&->&Hs'); [done|].
    pose proof (IH (frames + 1) (size + zlen (b :: data)) (drained + 1) (total + zlen (b :: data))
      ltac:(lia) ltac:(lia) s' Hs') as Hk.
    destruct (drain_loop _ _ _ _ _ _ _ _ s') as [[[[d t]|e] s2]|]; [| |done].
    + cbn [fst snd] in *. destruct Hk as (Hd2&Ht2&Hk). split_and!; [lia..|].
      replace (frames + (d - drained)) with (frames + 1 + (d - (drained + 1))) by lia.
      by replace (size + (t - total)) with (size + zlen (b :: data) + (t - (total + zlen (b :: data)))) by lia.
    + destruct Hk as (f&z&Hk&Hf&Hz). exists f, z. split; [done|lia].
  - destruct (is_kind Interrupted e); [by apply IH|].
    destruct (is_kind WouldBlock e); [by apply Hret|by apply Herr].
Qed.

Lemma drain_stream_counts fuel stream max_frames max_bytes es frames size :
  0 <= max_frames -> 0 <= max_bytes ->
  triple (emitted es frames size) (drain_stream fuel lim stream max_frames max_bytes)
    (fun r s => 0 <= r.1 <= max_frames /\ r.2 <= max_bytes /\ emitted es (frames + r.1) (size + r.2) s)
    (fun _ => within es (frames + max_frames) (size + max_bytes)).
Proof.
  intros Hf Hb. unfold drain_stream.
  eapply triple_bind with (R := fun _ => emitted es frames size); [by apply triple_gets|intros i].
  assert (Hzero : forall s, emitted es frames size s ->
    0 <= 0 <= max_frames /\ 0 <= max_bytes /\ emitted es (frames + 0) (size + 0) s).
  { intros s Hs. rewrite !Z.add_0_r. by split_and!. }
  apply triple_if; [intros _; by apply triple_ret|intros _]. destruct (stream_fd i stream) as [raw|].
  - eapply triple_consequence; [apply (drain_loop_counts fuel stream raw max_frames max_bytes es
      frames size 0 0); lia|done|..]; intros ? s; cbv beta; rewrite ?Z.sub_0_r //.
  - eapply triple_bind with (R := fun _ => emitted es frames size); [|intros _; by apply triple_ret].
    by apply triple_modify.
Qed.

Lemma div_ceil2_bounds n : 0 <= n -> 0 <= div_ceil2 n <= n /\ 2 * div_ceil2 n <= n + 1.
Proof. intros. unfold div_ceil2. Z.div_mod_to_equations. lia. Qed.

(** One turn takes at most half of what is left, rounded up. *)
Lemma batch_turn_counts fuel stream es frames size progress :
  0 <= frames <= MAX_SERVICE_FRAMES -> size <= MAX_SERVICE_BYTES ->
  triple (emitted es frames size) (batch_turn fuel lim stream (frames, size, progress))
    (fun r s => match r with
      | None => emitted es frames size s
      | Some (frames', size', _) => emitted es frames' size' s /\
          frames <= frames' <= frames + div_ceil2 (MAX_SERVICE_FRAMES - frames) /\
          size' <= size + div_ceil2 (MAX_SERVICE_BYTES - size)
      end)
    (fun _ => within es MAX_SERVICE_FRAMES MAX_SERVICE_BYTES).
Proof.
  intros Hf Hs. unfold batch_turn. unfold saturating_sub64. rewrite !Z.max_l; [|lia..].
  apply triple_if; [intros _; by apply triple_ret|intros _].
  destruct (div_ceil2_bounds (MAX_SERVICE_FRAMES - frames)) as [Hcf _]; [lia|].
  destruct (div_ceil2_bounds (MAX_SERVICE_BYTES - size)) as [Hcb _]; [lia|].
  eapply triple_bind.
  - eapply triple_consequence; [apply (drain_stream_counts fuel stream _ _ es frames size); lia
      |done|intros ? ? HQ; exact HQ|].
    intros e s (f&z&Hw&?&?). exists f, z. split; [done|lia].
  - intros [d t]. apply triple_ret. cbn [fst snd]. intros s (?&?&?). split; [done|lia].
Qed.

Lemma batch_loop_bounded fuel es frames size :
  0 <= frames <= MAX_SERVICE_FRAMES -> size <= MAX_SERVICE_BYTES ->
  triple (emitted es frames size) (batch_loop fuel lim frames size)
    (fun _ => within es MAX_SERVICE_FRAMES MAX_SERVICE_BYTES)
    (fun _ => within es MAX_SERVICE_FRAMES MAX_SERVICE_BYTES).
Proof.
  revert frames size. induction fuel as [|fuel IH]; intros frames size Hf Hs; cbn [batch_loop]; [done|].
  assert (Hin : forall f z s, f <= MAX_SERVICE_FRAMES -> z <= MAX_SERVICE_BYTES ->
    emitted es f z s -> within es MAX_SERVICE_FRAMES MAX_SERVICE_BYTES s)
    by (intros f z s ???; by exists f, z).
  eapply triple_bind; [by apply batch_turn_counts|]. intros [[[f1 z1] p1]|].
  2: { apply triple_ret. intros s. apply Hin; lia. }
  intros s (Hem&Hf1&Hz1).
  destruct (div_ceil2_bounds (MAX_SERVICE_FRAMES - frames)) as [Hcf _]; [lia|].
  destruct (div_ceil2_bounds (MAX_SERVICE_BYTES - size)) as [Hcb _]; [lia|].
  revert s Hem. change (triple (emitted es f1 z1) (second ← batch_turn (S fuel) lim Stderr (f1, z1, p1);
    match second : option (Z * Z * bool) with
    | None => mret tt
    | Some (frames, size, progress) => if progress then batch_loop fuel lim frames size else mret tt
    end) (fun _ => within es MAX_SERVICE_FRAMES MAX_SERVICE_BYTES)
    (fun _ => within es MAX_SERVICE_FRAMES MAX_SERVICE_BYTES)).
  eapply triple_bind; [apply batch_turn_counts; lia|]. intros [[[f2 z2] p2]|].
  2: { apply triple_ret. intros s. apply Hin; lia. }
  intros s (Hem&Hf2&Hz2).
  destruct (div_ceil2_bounds (MAX_SERVICE_FRAMES - f1)) as [Hcf1 _]; [lia|].
  destruct (div_ceil2_bounds (MAX_SERVICE_BYTES - z1)) as [Hcb1 _]; [lia|].
  destruct p2; [apply IH; [lia|lia|done]|]. apply (Hin f2 z2); [lia|lia|done].
Qed.
End batch.

(** C27. One service batch is bounded and fair: whatever the pipes deliver, and also
    when it fails, a batch emits at most 64 frames and 64 KiB, and the stream that
    is served first takes at most half of that. *)
Theorem service_batch_bounded {W} `{OsLaws W} fuel lim (s s' : Sup W) :
  0 < lim.(output_frame_bytes) ->
  (forall r, drain_batch fuel lim s = Some (r, s') ->
    exists new, s'.(s_events) = s.(s_events) ++ new /\ zlen new <= MAX_SERVICE_FRAMES /\
      sum_bytes new <= MAX_SERVICE_BYTES) /\
  (forall stream frames size progress,
    batch_turn fuel lim stream (0, 0, false) s = Some (Ok (Some (frames, size, progress)), s') ->
    2 * frames <= MAX_SERVICE_FRAMES /\ 2 * size <= MAX_SERVICE_BYTES).
Proof.
  intros Hframe.
  assert (Hs : emitted s.(s_events) 0 0 s) by (exists []; by rewrite app_nil_r).
  split.
  - intros r E. pose proof (batch_loop_bounded lim Hframe fuel s.(s_events) 0 0) as Hb.
    unfold MAX_SERVICE_FRAMES, MAX_SERVICE_BYTES in *. specialize (Hb ltac:(lia) ltac:(lia) s Hs).
    unfold drain_batch in E. rewrite E in Hb.
    assert (Hw : within s.(s_events) 64 (64 * 1024) s') by by destruct r.
    destruct Hw as (f&z&(new&?&?&?)&?&?). exists new. split_and!; [done|lia|lia].
  - intros stream frames size progress E.
    pose proof (batch_turn_counts lim Hframe fuel stream s.(s_events) 0 0 false) as Hb.
    unfold MAX_SERVICE_FRAMES, MAX_SERVICE_BYTES in *. specialize (Hb ltac:(lia) ltac:(lia) s Hs).
    rewrite E in Hb. destruct Hb as (_&Hf&Hz).
    change (div_ceil2 (64 - 0)) with 32 in Hf. change (div_ceil2 (64 * 1024 - 0)) with 32768 in Hz. lia.
Qed.

(** ** The barrier *)

#[local] Set Default Proof Using "Type".
Section barrier.
Context {W : Type} `{Os W} `{Sha256} (scope : MemberScope) (pid : Z).

Definition has_pid (s : Sup W) : Prop := s.(s_inv).(i_pid) = pid.

Lemma pid_sup_os {A} (m : M W A) : keep has_pid (sup_os m).
Proof. intros s Hs. unfold sup_os, zoom. by destruct (m (s_os s)) as [[[] w]|]. Qed.
Lemma pid_catch {A} (m : M W A) : keep has_pid (catch (sup_os m)).
Proof. intros s Hs. unfold catch, sup_os, zoom. by destruct (m (s_os s)) as [[[] w]|]. Qed.
Lemma pid_set_inv f : (forall i, i_pid (f i) = i_pid i) -> keep has_pid (set_inv f).
Proof. intros Hf. apply keep_modify. intros s Hs. unfold has_pid. cbn. by rewrite Hf. Qed.
Lemma pid_record p status : keep has_pid (set_inv (record_reaped p status)).
Proof. apply pid_set_inv. intros i. unfold record_reaped. by destruct (_ || _). Qed.
Lemma pid_output_frame stream data : keep has_pid (output_frame stream data).
Proof. intros s Hs. unfold has_pid. by destruct stream. Qed.
Lemma pid_set_eof stream : keep has_pid (set_eof stream).
Proof. apply pid_set_inv. by destruct stream. Qed.
Hint Resolve pid_sup_os pid_catch pid_record pid_output_frame pid_set_eof : lifecycle.
Hint Extern 1 (keep has_pid (set_inv _)) => by apply pid_set_inv : lifecycle.

Lemma pid_reap_loop fuel target n : keep has_pid (reap_loop fuel target n).
Proof. revert n. induction fuel; intros; cbn [reap_loop]; walk. Qed.
Hint Resolve pid_reap_loop : lifecycle.
Lemma pid_reap_children fuel : keep has_pid (reap_children fuel scope).
Proof. unfold reap_children. walk. Qed.
Lemma pid_drain_loop fuel l stream raw mf mb d t :
  keep has_pid (drain_loop fuel l stream raw mf mb d t).
Proof. revert d t. induction fuel; intros; cbn [drain_loop]; walk. Qed.
Hint Resolve pid_drain_loop pid_reap_children : lifecycle.
Lemma pid_batch_turn fuel l stream totals : keep has_pid (batch_turn fuel l stream totals).
Proof. unfold batch_turn, drain_stream. walk. Qed.
Hint Resolve pid_batch_turn : lifecycle.
Lemma pid_drain_batch fuel l : keep has_pid (drain_batch fuel l).
Proof.
  unfold drain_batch. cut (forall f z, keep has_pid (batch_loop fuel l f z)); [auto|].
  induction fuel; intros; cbn [batch_loop]; walk.
Qed.
Hint Resolve pid_drain_batch : lifecycle.

(** The last look of the barrier loop: from [s1], with both streams read to
    their end, the process table held no member of the invocation, and the loop
    ended at once. *)
Definition last_look (s2 : Sup W) : Prop := exists s1 w1,
  has_pid s1 /\ members_remain scope pid s1.(s_os) = Some (Ok false, w1) /\
  s1.(s_inv).(i_stdout_state).(ss_eof) = true /\ s1.(s_inv).(i_stderr_state).(ss_eof) = true /\
  s2 = MkSup s1.(s_inv) s1.(s_events) w1.

Lemma cleanup_loop_barrier fuel l deadline :
  triple has_pid (cleanup_loop fuel scope l deadline) (fun _ => last_look) (fun _ _ => True).
Proof.
  induction fuel as [|fuel IH]; cbn [cleanup_loop]; [done|].
  eapply triple_bind with (R := fun i s => has_pid s /\ i.(i_pid) = pid);
    [apply triple_gets; intros s Hs; split; exact Hs|].
  intros i. apply triple_pure. intros ->.
  eapply triple_bind; [apply pid_sup_os|intros ?].
  eapply triple_bind; [apply pid_reap_children|intros ?].
  eapply triple_bind; [apply pid_drain_batch|intros ?].
  intros s Hs. cbv [mbind M_bind gets sup_os zoom].
  destruct (members_remain scope pid (s_os s)) as [[[members|e] w]|] eqn:Em; [|done..].
  cbn [s_inv]. destruct (negb members && _) eqn:Eb.
  - apply andb_true_iff in Eb as [Hm [Ho He]%andb_true_iff]. apply negb_true_iff in Hm as ->.
    by exists s, w.
  - clear Eb. cbv [call]. cbn [s_inv s_events s_os]. destruct (sys_now w) as [now w1].
    destruct (deadline <=? now); [done|].
    assert (Hw : keep has_pid (wait_for_output (W:=W) 10)) by (unfold wait_for_output; walk).
    cbn [s_inv s_events]. set (s1 := MkSup _ _ w1).
    assert (Hs1 : has_pid s1) by exact Hs. specialize (Hw s1 Hs1).
    destruct (wait_for_output 10 s1) as [[[u|e] s2]|]; [|done..]. by apply IH.
Qed.

(** Reaping touches neither the streams nor the events. *)
Definition same_streams (s0 s : Sup W) : Prop :=
  s.(s_events) = s0.(s_events) /\ s.(s_inv).(i_id) = s0.(s_inv).(i_id) /\
  s.(s_inv).(i_stdout_state) = s0.(s_inv).(i_stdout_state) /\
  s.(s_inv).(i_stderr_state) = s0.(s_inv).(i_stderr_state) /\
  s.(s_inv).(i_frames) = s0.(s_inv).(i_frames).

Lemma streams_reap fuel s0 : keep (same_streams s0) (reap_children fuel scope).
Proof.
  assert (Hloop : forall target n, keep (same_streams s0) (reap_loop fuel target n)).
  { intros target. induction fuel as [|fuel' IH]; intros n; cbn [reap_loop]; [walk|].
    apply keep_bind; [|intros [p status]; apply keep_if; [walk|apply keep_bind; [|walk]]].
    - intros s Hs. unfold sup_os, zoom. by destruct (call _ _) as [[[] w]|].
    - apply keep_modify. intros s Hs. unfold same_streams in *. cbn [s_inv]. unfold record_reaped.
      by destruct (_ || _). }
  unfold reap_children. apply keep_bind; [walk|intros i]. apply keep_bind; [auto|intros n].
  apply keep_modify. by intros s Hs.
Qed.
End barrier.

(** The two events of a completed barrier. *)
Definition barrier_events `{Sha256} (i : Invocation) (exit : ProcessExit) (reaped : Z) : list Event :=
  [WorkloadExited i.(i_id) exit
     i.(i_stdout_state).(ss_bytes) (hex (sha256_digest i.(i_stdout_state).(ss_hasher)))
     i.(i_stderr_state).(ss_bytes) (hex (sha256_digest i.(i_stderr_state).(ss_hasher)))
     i.(i_frames);
   CleanupComplete i.(i_id) reaped].

Lemma finish_invocation_final {W} `{Os W} `{Sha256} exit (s s' : Sup W) :
  finish_invocation exit s = Some (Ok tt, s') ->
  s'.(s_events) = s.(s_events) ++ barrier_events s.(s_inv) exit s.(s_inv).(i_reaped) /\
  s'.(s_inv).(i_cleanup_complete) = true /\ s'.(s_inv).(i_exit) = s.(s_inv).(i_exit) /\
  s'.(s_inv).(i_stdout) = None /\ s'.(s_inv).(i_stderr) = None.
Proof.
  unfold finish_invocation, finish_stream.
  cbv [gets mbind M_bind mret M_ret set_inv modify emit_event sup_os zoom].
  rewrite !close_opt_eq. intros [= <-]. cbn. split_and!; [by rewrite -app_assoc|done..].
Qed.

(** The barrier loop of a completed cleanup, and what followed it. *)
Lemma cleanup_passes {W} `{Os W} `{Sha256} fuel scope l (s s' : Sup W) :
  s.(s_inv).(i_cleanup_complete) = false -> cleanup fuel scope l s = Some (Ok tt, s') ->
  exists s2 s3 exit, last_look scope s.(s_inv).(i_pid) s2 /\
    reap_children fuel scope s2 = Some (Ok tt, s3) /\ s3.(s_inv).(i_exit) = Some exit /\
    finish_invocation exit s3 = Some (Ok tt, s').
Proof.
  intros Hc. unfold cleanup. cbv [gets mbind M_bind]. rewrite Hc.
  destruct (close_stdin s) as [[[[]|e] sa]|] eqn:Ea; [|done..].
  destruct (sup_os (call sys_now) sa) as [[[now|e] sb]|] eqn:Eb; [|done..].
  destruct (cleanup_loop fuel scope l (now + CLEANUP_TIMEOUT) sb) as [[[[]|e] s2]|] eqn:El; [|done..].
  destruct (reap_children fuel scope s2) as [[[[]|e] s3]|] eqn:Er; [|done..].
  destruct (i_exit (s_inv s3)) as [exit|] eqn:Ex; [|done]. intros Ef.
  exists s2, s3, exit. split_and!; [|done..].
  assert (Hpa : s_inv sb = s_inv sa).
  { revert Eb. unfold sup_os, zoom. destruct (call sys_now (s_os sa)) as [[? ?]|]; [|done]. by intros [= ? <-]. }
  assert (Hpid : i_pid (s_inv sb) = i_pid (s_inv s)).
  { rewrite Hpa. revert Ea. unfold close_stdin. cbv [gets mbind M_bind set_inv modify sup_os zoom].
    rewrite close_opt_eq. by intros [= <-]. }
  pose proof (cleanup_loop_barrier scope (i_pid (s_inv s)) fuel l (now + CLEANUP_TIMEOUT) sb Hpid) as Hl.
  by rewrite El in Hl.
Qed.

(** C26. The cleanup barrier is verified, not assumed.  When [cleanup] completes
    an invocation, its loop ended at a state [s1] whose streams had both been
    read to their end and whose process table, looked at last, held no member of
    the invocation; after that look it only reaped, found the exit status of the
    primary, and reported exactly the two final events: the exit with the totals
    and digests of what the streams delivered, and the completed cleanup.  Both
    pipes are closed and the invocation is marked complete. *)
Theorem cleanup_barrier {W} `{Os W} `{Sha256} fuel scope l (s s' : Sup W) :
  s.(s_inv).(i_cleanup_complete) = false -> cleanup fuel scope l s = Some (Ok tt, s') ->
  exists s1 w1 s3 exit,
    members_remain scope s.(s_inv).(i_pid) s1.(s_os) = Some (Ok false, w1) /\
    s1.(s_inv).(i_stdout_state).(ss_eof) = true /\ s1.(s_inv).(i_stderr_state).(ss_eof) = true /\
    reap_children fuel scope (MkSup s1.(s_inv) s1.(s_events) w1) = Some (Ok tt, s3) /\
    s3.(s_inv).(i_exit) = Some exit /\
    s'.(s_events) = s1.(s_events) ++ barrier_events s1.(s_inv) exit s3.(s_inv).(i_reaped) /\
    s'.(s_inv).(i_cleanup_complete) = true /\ s'.(s_inv).(i_exit) = Some exit /\
    s'.(s_inv).(i_stdout) = None /\ s'.(s_inv).(i_stderr) = None.
Proof.
  intros Hc E. destruct (cleanup_passes _ _ _ _ _ Hc E) as (s2&s3&exit&Hl&Er&Ex&Ef).
  destruct Hl as (s1&w1&_&Hm&Ho&He&->). exists s1, w1, s3, exit.
  destruct (finish_invocation_final _ _ _ Ef) as (Hev&Hcc&Hx&Hso&Hse).
  pose proof (streams_reap scope fuel s1 (MkSup s1.(s_inv) s1.(s_events) w1)) as Hs.
  rewrite Er in Hs. destruct Hs as (Hes&Hid&Hos&Hers&Hfr); [by split_and!|].
  rewrite Hev Hes /barrier_events Hid Hos Hers Hfr Hx. by split_and!.
Qed.

(** ** Polling returns *)

(** A system on which calls are interrupted, and children become ready to be
    reaped, only finitely often, and whose clock does not go back nor stand still
    forever: fewer than [os_granularity] further readings return the same instant.
    How much a pipe delivers or takes is not bounded: the code does that. *)
Class FiniteOs (W : Type) `{OsLaws W} := {
  budget : W -> nat;    (** the interruptions and the reaps that are still to come *)
  clock : W -> Z;
  stall : W -> nat;
  os_granularity : nat;
  os_stall w : (stall w < os_granularity)%nat;
  no_later (w w' : W) : Prop :=
    (budget w' <= budget w)%nat /\ clock_later (clock w) (stall w) (clock w') (stall w');
  os_read fd n w r w' : sys_read fd n w = (r, w') -> no_later w w' /\
    forall e, r = inr e -> is_kind Interrupted e = true -> (budget w' < budget w)%nat;
  os_write fd data w r w' : sys_write fd data w = (r, w') -> no_later w w' /\
    forall e, r = inr e -> is_kind Interrupted e = true -> (budget w' < budget w)%nat;
  os_waitpid target w pid status w' : sys_waitpid target w = ((pid, status), w') ->
    no_later w w' /\ (0 < pid -> (budget w' < budget w)%nat);
  os_now w t w' : sys_now w = (t, w') ->
    (budget w' <= budget w)%nat /\ clock_read (clock w) (stall w) t (clock w') (stall w');
  os_close fd w : no_later w (sys_close fd w);
  os_kill pid signal w : no_later w (sys_kill pid signal w).2;
  os_poll i o t w : no_later w (sys_poll i o t w).2;
  os_sleep t w : no_later w (sys_sleep t w);
  os_read_dir path w : no_later w (fs_read_dir path w).2;
  os_fs_read path w : no_later w (fs_read path w).2;
  os_remove path w : no_later w (fs_remove_dir_all path w).2;
}.

Section returning.
Context {W : Type} `{FiniteOs W} `{Sha256} (deadline : Z) (fuel : nat).

(** What is left before the loops must end: of the system, and of an invocation,
    which has input to write and frames of a batch to drain. *)
Definition left_os (w : W) : nat :=
  budget w + readings_left os_granularity deadline (clock w) (stall w).
Definition own (i : Invocation) : nat := length i.(i_pending_input) + Z.to_nat MAX_SERVICE_FRAMES.
Definition left (s : Sup W) : nat := own s.(s_inv) + left_os s.(s_os).

Lemma no_later_refl w : no_later w w.
Proof. by split; [|right]. Qed.
Lemma left_no_later w w' : no_later w w' -> (left_os w' <= left_os w)%nat.
Proof.
  intros [? Hc]. apply (readings_left_later os_granularity deadline) in Hc; [|apply os_stall].
  unfold left_os. lia.
Qed.
Lemma left_spent w w' :
  no_later w w' -> (budget w' < budget w)%nat -> (left_os w' < left_os w)%nat.
Proof.
  intros [? Hc] ?. apply (readings_left_later os_granularity deadline) in Hc; [|apply os_stall].
  unfold left_os. lia.
Qed.
Lemma left_now w t w' : sys_now w = (t, w') -> (left_os w' <= left_os w)%nat /\
  (t < deadline -> (left_os w' < left_os w)%nat).
Proof.
  intros [Hb Hr]%os_now. split.
  - apply left_no_later. split; [done|by eapply clock_read_later].
  - intros Hd. apply (readings_left_read os_granularity deadline) in Hr; [|apply os_stall|done].
    unfold left_os. lia.
Qed.

Lemma returns_call {A} (op : W -> A * W) :
  (forall w, no_later w (op w).2) -> returns left_os fuel (call op).
Proof.
  intros Hop w Hw. unfold call. specialize (Hop w). destruct (op w) as [a w'].
  exists (Ok a), w'. split; [done|by apply left_no_later].
Qed.
Lemma returns_catch {S A} measure (m : M S A) : returns measure fuel m -> returns measure fuel (catch m).
Proof.
  intros Hm s Hs. destruct (Hm s Hs) as (r&s'&E&Hle). unfold catch. rewrite E. by eexists _, _.
Qed.
Lemma returns_sup_os {A} (m : M W A) : returns left_os fuel m -> returns left fuel (sup_os m).
Proof.
  intros Hm s Hs. unfold left in Hs. destruct (Hm (s_os s)) as (r&w&E&Hle); [lia|].
  unfold sup_os, zoom. rewrite E. eexists _, _. split; [done|]. unfold left. cbn [s_inv s_os]. lia.
Qed.
(** Only a flush changes the queued input. *)
Lemma returns_set_inv f :
  (forall i, (f i).(i_pending_input) = i.(i_pending_input)) -> returns left fuel (set_inv f).
Proof. intros Hf. apply returns_modify. intros s. unfold left, own. cbn [s_inv s_os]. by rewrite Hf. Qed.
Lemma returns_emit e : returns left fuel (emit_event e).
Proof. by apply returns_modify. Qed.
Lemma returns_close fd : returns left_os fuel (close_opt fd).
Proof.
  intros w Hw. rewrite close_opt_eq. eexists _, _. split; [done|].
  apply left_no_later. destruct fd; [apply os_close|apply no_later_refl].
Qed.
Lemma returns_kill pid signal : returns left_os fuel (call (sys_kill pid signal)).
Proof. apply returns_call. intros. apply os_kill. Qed.
Lemma returns_fs_read path : returns left_os fuel (call (fs_read path)).
Proof. apply returns_call. intros. apply os_fs_read. Qed.
Lemma returns_read_dir path : returns left_os fuel (call (fs_read_dir path)).
Proof. apply returns_call. intros. apply os_read_dir. Qed.
Lemma returns_remove path : returns left_os fuel (call (fs_remove_dir_all path)).
Proof. apply returns_call. intros. apply os_remove. Qed.
Lemma returns_poll_call i o t : returns left_os fuel (call (sys_poll i o t)).
Proof. apply returns_call. intros. apply os_poll. Qed.
Lemma returns_sleep t : returns left_os fuel (modify (sys_sleep t)).
Proof. apply returns_modify. intros w. apply left_no_later, os_sleep. Qed.
Lemma returns_now : returns left_os fuel (call sys_now).
Proof.
  intros w _. unfold call. destruct (sys_now w) as [t w'] eqn:E. apply left_now in E as [? _]. by eexists _, _.
Qed.
Hint Resolve returns_catch returns_sup_os returns_emit returns_close returns_kill
  returns_fs_read returns_read_dir returns_remove returns_poll_call returns_sleep returns_now : returns.

Lemma returns_process_table : returns left_os fuel guest_process_table.
Proof.
  unfold guest_process_table, call_or.
  assert (Hloop : forall entries members, returns left_os fuel (process_table_loop entries members)).
  { induction entries as [|[e|e] entries IH]; intros members; cbn [process_table_loop];
      unfold is_kernel_thread; solve_returns. }
  solve_returns.
Qed.
Hint Resolve returns_process_table : returns.
Lemma returns_signal pid scope signal : returns left_os fuel (signal_members pid scope signal).
Proof.
  assert (Hloop : forall members, returns left_os fuel (signal_loop members signal)).
  { induction members; cbn [signal_loop]; solve_returns. }
  unfold signal_members. solve_returns.
Qed.
Lemma returns_members scope pid : returns left_os fuel (members_remain scope pid).
Proof. unfold members_remain. solve_returns. Qed.
Lemma returns_poll_once ds t : returns left_os fuel (poll_once ds t).
Proof. unfold poll_once. solve_returns. Qed.
Lemma returns_output_frame stream data : returns left fuel (output_frame stream data).
Proof. unfold output_frame. solve_returns. by apply returns_set_inv; intros; destruct stream. Qed.
Lemma returns_close_stdin : returns left fuel close_stdin.
Proof. unfold close_stdin. solve_returns. by apply returns_set_inv. Qed.
Lemma returns_set_eof stream : returns left fuel (set_eof stream).
Proof. by apply returns_set_inv; intros; destruct stream. Qed.
Lemma returns_wait t : returns left fuel (wait_for_output t).
Proof. unfold wait_for_output. pose proof returns_poll_once. solve_returns. Qed.
End returning.

Section loops.
Context {W : Type} `{FiniteOs W} `{Sha256} (deadline : Z).
Notation left := (left deadline).
Notation left_os := (left_os deadline).

(** A round that ends here, or goes on with less left. *)
Lemma round_on {A} n (m : M (Sup W) A) (s s1 : Sup W) :
  returns left n m -> (left s < S n)%nat -> (left s1 < left s)%nat ->
  exists r s', m s1 = Some (r, s') /\ (left s' <= left s)%nat.
Proof. intros Hm Hs Hl. destruct (Hm s1) as (r&s'&E&Hle); [lia|]. exists r, s'. split; [done|lia]. Qed.

Lemma returns_flush_loop n raw : returns left n (flush_loop n raw).
Proof.
  induction n as [|n IH]; intros s Hs; [lia|]. cbn [flush_loop]. cbv [gets mbind M_bind].
  destruct (is_empty _) eqn:Ee; [by eexists _, _|]. cbv [sup_os zoom call].
  destruct (sys_write raw _ (s_os s)) as [r w] eqn:E. pose proof E as Ew.
  apply os_write in E as [Hle Hmore]. apply (left_no_later deadline) in Hle as Hle'.
  assert (Hstop : (left (MkSup s.(s_inv) s.(s_events) w) <= left s)%nat).
  { unfold RuntimeLoops.left. cbn [s_inv s_os]. lia. }
  destruct r as [k|e]; cbn [s_inv s_events].
  - apply sys_write_bound in Ew. destruct (Z.eqb_spec k 0) as [->|Hk]; [by eexists _, _|].
    cbv [set_inv modify]. eapply round_on; [exact IH|exact Hs|]. unfold RuntimeLoops.left, own.
    cbn [s_inv s_os set_pending set_input i_pending_input]. rewrite length_drop.
    destruct (i_pending_input (s_inv s)) as [|c l]; [done|]. cbn [length]. lia.
  - destruct (is_kind Interrupted e) eqn:Ei.
    + eapply round_on; [exact IH|exact Hs|]. apply (left_spent deadline) in Hle; [|by apply (Hmore e)].
      unfold RuntimeLoops.left. cbn [s_inv s_os]. lia.
    + destruct (is_kind WouldBlock e); by eexists _, _.
Qed.

(** What drains leave: no more of the system, and the queued input. *)
Definition drains (s s' : Sup W) : Prop :=
  (left_os s'.(s_os) <= left_os s.(s_os))%nat /\
  s'.(s_inv).(i_pending_input) = s.(s_inv).(i_pending_input).
Lemma drains_refl s : drains s s.
Proof. by split. Qed.
Lemma drains_trans s1 s2 s3 : drains s1 s2 -> drains s2 s3 -> drains s1 s3.
Proof. intros [? ?] [? ?]. split; [lia|congruence]. Qed.
Lemma drains_left s s' : drains s s' -> (left s' <= left s)%nat.
Proof. intros [? Hp]. unfold RuntimeLoops.left, own. rewrite Hp. lia. Qed.

(** A drain reads at most its share of frames; beyond that only interruptions
    make it go round. *)
Lemma drain_loop_returns n l stream raw mf mb d t s :
  (left_os s.(s_os) + Z.to_nat (mf - d) < n)%nat ->
  exists r s', drain_loop n l stream raw mf mb d t s = Some (r, s') /\ drains s s' /\
    forall d' t', r = Ok (d', t') -> d <= d' <= Z.max d mf.
Proof.
  revert d t s. induction n as [|n IH]; intros d t s Hs; [lia|]. cbn [drain_loop].
  assert (Hstop : forall s', drains s s' -> drains s s' /\
    forall d' t', (Ok (d, t) : result (Z * Z)) = Ok (d', t') -> d <= d' <= Z.max d mf).
  { intros s' Hd. split; [done|]. intros ?? [= <- <-]. lia. }
  destruct (negb _) eqn:Hgo; [eexists _, _; split; [done|by apply Hstop]|].
  assert (Hd : d < mf). { apply negb_false_iff, andb_true_iff in Hgo as [Hd _]. lia. }
  destruct (_ =? 0); [eexists _, _; split; [done|by apply Hstop]|].
  cbv [mbind M_bind sup_os zoom call]. destruct (sys_read raw _ (s_os s)) as [r w] eqn:E.
  apply os_read in E as [Hle Hmore]. apply (left_no_later deadline) in Hle as Hle'.
  assert (Hd1 : drains s (MkSup s.(s_inv) s.(s_events) w)) by by split.
  destruct r as [[|b data]|e]; cbn [s_inv s_events].
  - eexists _, _. split; [done|]. apply Hstop. split; [done|]. by destruct stream.
  - cbv [gets]. cbn [s_inv]. destruct (output_bytes l <? _).
    { eexists _, _. split; [done|]. by split. }
    unfold output_frame. cbv [gets mbind M_bind set_inv modify emit_event].
    set (s1 := MkSup _ _ _). assert (Hs1 : drains s s1) by (split; [done|by destruct stream]).
    destruct (IH (d + 1) (t + zlen (b :: data)) s1) as (r&s'&E&Hdr&Hsp).
    { cbn [s1 s_os]. lia. }
    exists r, s'. split; [exact E|]. split; [by eapply drains_trans|]. intros d' t' Hr.
    destruct (Hsp d' t' Hr). lia.
  - destruct (is_kind Interrupted e) eqn:Ei.
    + apply (left_spent deadline) in Hle as Hlt; [|by apply (Hmore e)].
      destruct (IH d t (MkSup (s_inv s) (s_events s) w)) as (r&s'&E&Hdr&Hsp); [cbn [s_os]; lia|].
      exists r, s'. split; [exact E|]. split; [by eapply drains_trans|exact Hsp].
    + destruct (is_kind WouldBlock e); (eexists _, _; split; [done|]); [by apply Hstop|by split].
Qed.

Lemma drain_stream_returns n l stream mf mb s :
  (left_os s.(s_os) + Z.to_nat mf < n)%nat -> exists r s', drain_stream n l stream mf mb s = Some (r, s') /\
    drains s s' /\ forall d t, r = Ok (d, t) -> 0 <= d <= Z.max 0 mf.
Proof.
  intros Hs. unfold drain_stream. cbv [gets mbind M_bind].
  assert (Hz : forall s', drains s s' -> drains s s' /\
    forall d t, (Ok (0, 0) : result (Z * Z)) = Ok (d, t) -> 0 <= d <= Z.max 0 mf).
  { intros s' Hd. split; [done|]. intros ?? [= <- <-]. lia. }
  destruct (ss_eof _); [eexists _, _; split; [done|by apply Hz]|].
  destruct (stream_fd _ _); [apply drain_loop_returns; rewrite Z.sub_0_r; lia|].
  eexists _, _. split; [done|]. apply Hz. split; [done|by destruct stream].
Qed.

(** A turn of a batch stays within the frames that remain; with progress fewer
    remain. *)
Lemma batch_turn_returns n l stream f z p s :
  0 <= f <= MAX_SERVICE_FRAMES -> (left_os s.(s_os) + Z.to_nat (MAX_SERVICE_FRAMES - f) < n)%nat ->
  exists r s', batch_turn n l stream (f, z, p) s = Some (r, s') /\ drains s s' /\
    forall f' z' p', r = Ok (Some (f', z', p')) ->
      f <= f' <= MAX_SERVICE_FRAMES /\ (p' = true -> p = true \/ f < f').
Proof.
  intros Hf Hs. unfold batch_turn. destruct (_ || _); [eexists _, _; by split_and!|].
  cbv [mbind M_bind].
  assert (Hr : saturating_sub64 MAX_SERVICE_FRAMES f = MAX_SERVICE_FRAMES - f) by (unfold saturating_sub64; lia).
  assert (Hm : 0 <= div_ceil2 (MAX_SERVICE_FRAMES - f) <= MAX_SERVICE_FRAMES - f).
  { unfold div_ceil2. pose proof (Z.div_mod (MAX_SERVICE_FRAMES - f + 1) 2 ltac:(lia)).
    pose proof (Z.mod_pos_bound (MAX_SERVICE_FRAMES - f + 1) 2 ltac:(lia)). lia. }
  rewrite Hr.
  destruct (drain_stream_returns n l stream (div_ceil2 (MAX_SERVICE_FRAMES - f))
    (div_ceil2 (saturating_sub64 MAX_SERVICE_BYTES z)) s) as (r&s'&->&Hd&Hsp); [lia|].
  destruct r as [[d t]|e]; [|eexists _, _; by split_and!].
  eexists _, _. split_and!; [done|done|]. intros f' z' p' [= <- <- <-].
  destruct (Hsp d t eq_refl). split; [lia|]. intros [->|Hlt%Z.ltb_lt]%orb_true_iff; [by left|right; lia].
Qed.

Lemma batch_loop_returns n l f z s :
  0 <= f <= MAX_SERVICE_FRAMES -> (left_os s.(s_os) + Z.to_nat (MAX_SERVICE_FRAMES - f) < n)%nat ->
  exists r s', batch_loop n l f z s = Some (r, s') /\ drains s s'.
Proof.
  revert f z s. induction n as [|n IH]; intros f z s Hf Hs; [lia|]. cbn [batch_loop]. cbv [mbind M_bind].
  destruct (batch_turn_returns (S n) l Stdout f z false s Hf Hs) as (r1&s1&->&Hd1&Hp1).
  destruct r1 as [[[[f1 z1] p1]|]|e]; [|by eexists _, _..].
  destruct (Hp1 _ _ _ eq_refl) as [Hf1 Hq1]. pose proof Hd1 as [Hl1 _].
  destruct (batch_turn_returns (S n) l Stderr f1 z1 p1 s1) as (r2&s2&->&Hd2&Hp2); [lia|lia|].
  pose proof (drains_trans _ _ _ Hd1 Hd2) as Hd. destruct r2 as [[[[f2 z2] p2]|]|e]; [|by eexists _, _..].
  destruct (Hp2 _ _ _ eq_refl) as [Hf2 Hq2]. destruct p2; [|by eexists _, _].
  assert (Hlt : f < f2). { destruct (Hq2 eq_refl) as [->|?]; [destruct (Hq1 eq_refl); [done|lia]|lia]. }
  destruct (IH f2 z2 s2) as (r&s'&->&Hd3); [lia|destruct Hd; lia|].
  exists r, s'. split; [done|by eapply drains_trans].
Qed.

Lemma returns_drain_batch n l : returns left n (drain_batch n l).
Proof.
  intros s Hs. unfold RuntimeLoops.left, own in Hs.
  destruct (batch_loop_returns n l 0 0 s) as (r&s'&E&Hd); [by split|rewrite Z.sub_0_r; lia|].
  exists r, s'. split; [exact E|by apply drains_left].
Qed.

Lemma returns_reap_loop n target c : returns left n (reap_loop n target c).
Proof.
  revert c. induction n as [|n IH]; intros c s Hs; [lia|]. cbn [reap_loop].
  cbv [mbind M_bind sup_os zoom call].
  destruct (sys_waitpid target (s_os s)) as [[pid status] w] eqn:E.
  apply os_waitpid in E as [Hle Hmore]. cbn [s_inv s_events].
  pose proof (left_no_later deadline _ _ Hle) as Hle'. unfold RuntimeLoops.left in *.
  destruct (pid <=? 0) eqn:Ep; [eexists _, _; split; [done|cbn [s_inv s_os]; lia]|].
  apply Z.leb_gt in Ep. cbv [set_inv modify].
  eapply round_on; [apply IH|exact Hs|]. apply (left_spent deadline) in Hle; [|by apply Hmore].
  unfold RuntimeLoops.left, own in *. cbn [s_inv s_os]. unfold record_reaped. destruct (_ || _); cbn; lia.
Qed.

Lemma returns_reap_children n scope : returns left n (reap_children n scope).
Proof.
  unfold reap_children. apply returns_bind; [apply returns_gets|intros i].
  apply returns_bind; [apply returns_reap_loop|intros c]. by apply returns_set_inv.
Qed.
Lemma returns_flush_input n : returns left n (flush_input n).
Proof.
  unfold flush_input. apply returns_bind; [apply returns_gets|intros i].
  destruct (i_stdin i); [|apply returns_ret].
  apply returns_bind; [apply returns_flush_loop|intros b].
  apply returns_if; [apply returns_close_stdin|apply returns_ret].
Qed.
Lemma returns_drain_ready n l t : returns left n (drain_ready n l t).
Proof.
  unfold drain_ready. apply returns_bind; [apply returns_gets|intros i].
  apply returns_bind; [apply returns_if; [apply returns_ret|apply returns_sup_os, returns_poll_once]|].
  intros b. apply returns_if; [apply returns_drain_batch|apply returns_ret].
Qed.

Lemma returns_cleanup_loop n scope l : returns left n (cleanup_loop n scope l deadline).
Proof.
  induction n as [|n IH]; intros s Hs; [lia|]. cbn [cleanup_loop].
  assert (Hpre : returns left (S n) (i ← gets s_inv;
    _ ← sup_os (signal_members i.(i_pid) scope TERMINATION_SIGNAL);
    _ ← reap_children (S n) scope; _ ← drain_batch (S n) l;
    sup_os (members_remain scope i.(i_pid)))).
  { apply returns_bind; [apply returns_gets|intros i].
    apply returns_bind; [apply returns_sup_os, returns_signal|intros ?].
    apply returns_bind; [apply returns_reap_children|intros ?].
    apply returns_bind; [apply returns_drain_batch|intros ?]. apply returns_sup_os, returns_members. }
  specialize (Hpre s Hs). destruct Hpre as (r&s1&E&Hle). cbv [gets mbind M_bind] in E |- *.
  destruct (sup_os (signal_members _ scope TERMINATION_SIGNAL) s) as [[[u|e] sa]|];
    [|simplify_eq; by eexists _, _|done].
  destruct (reap_children (S n) scope sa) as [[[u'|e] sb]|];
    [|simplify_eq; by eexists _, _|done].
  destruct (drain_batch (S n) l sb) as [[[u''|e] sc]|];
    [|simplify_eq; by eexists _, _|done].
  rewrite E. destruct r as [members|e]; [|by eexists _, _].
  destruct (negb members && _); [by eexists _, _|]. cbv [sup_os zoom call].
  destruct (sys_now (s_os s1)) as [now w] eqn:En. apply (left_now deadline) in En as [Hl Hnow].
  cbn [s_inv s_events].
  destruct (Z.leb_spec deadline now) as [Hd|Hd].
  { eexists _, _. split; [done|]. unfold RuntimeLoops.left in *. cbn [s_inv s_os]. lia. }
  set (s2 := MkSup _ _ w). specialize (Hnow Hd).
  assert (Hs2 : (left s2 < left s)%nat) by (unfold RuntimeLoops.left in *; cbn [s_inv s_os s2]; lia).
  destruct (returns_wait deadline (S n) 10 s2) as (r3&s3&->&Hle3); [lia|].
  destruct r3 as [u3|e]; [|eexists _, _; split; [done|lia]].
  destruct (IH s3) as (r4&s4&->&Hle4); [lia|]. eexists _, _. split; [done|lia].
Qed.
End loops.

(** ** The operations return *)

Section operations_return.
Context {W : Type} `{FiniteOs W} `{DebugStr} `{Sha256} (fuel : nat).

(** What the loops may spend before the clock starts to count. *)
Definition work (s : Sup W) : nat := own s.(s_inv) + budget s.(s_os).
(** The fuel covers it, and the readings of a cleanup. *)
Definition ready (s : Sup W) : Prop :=
  (work s + readings (os_granularity (W:=W)) CLEANUP_TIMEOUT <= fuel)%nat.

(** A computation that returns when the fuel is enough, whatever the clock. *)
Definition settles {A} (m : M (Sup W) A) : Prop :=
  forall s, ready s -> exists r s', m s = Some (r, s') /\ (work s' <= work s)%nat.

Lemma settles_returns {A} (m : M (Sup W) A) : (forall d, returns (left d) fuel m) -> settles m.
Proof.
  intros Hm s Hs. unfold ready in Hs. pose proof (os_stall (s_os s)) as Hg.
  assert (0 < readings (os_granularity (W:=W)) CLEANUP_TIMEOUT)%nat by (apply Nat.mul_pos_pos; lia).
  assert (Hl : left (clock (s_os s)) s = work s).
  { unfold left, left_os. rewrite readings_left_past; [unfold work; lia|done]. }
  destruct (Hm (clock (s_os s)) s) as (r&s'&E&Hle); [rewrite Hl; lia|].
  exists r, s'. split; [done|]. rewrite Hl in Hle. unfold left, left_os, work in *. lia.
Qed.
Lemma settles_bind {A B} (m : M (Sup W) A) (k : A -> M (Sup W) B) :
  settles m -> (forall a, settles (k a)) -> settles (m ≫= k).
Proof.
  intros Hm Hk s Hs. destruct (Hm s Hs) as (r&s1&E&Hle). cbv [mbind M_bind]. rewrite E.
  destruct r as [a|e]; [|by eexists _, _]. destruct (Hk a s1) as (r&s2&E2&Hle2); [unfold ready in *; lia|].
  exists r, s2. split; [done|lia].
Qed.
Lemma settles_if {A} (b : bool) (m1 m2 : M (Sup W) A) :
  settles m1 -> settles m2 -> settles (if b then m1 else m2).
Proof. by destruct b. Qed.
Lemma settles_ret {A} (a : A) : settles (mret a).
Proof. apply settles_returns. intros. apply returns_ret. Qed.
Lemma settles_gets {A} (f : Sup W -> A) : settles (gets f).
Proof. apply settles_returns. intros. apply returns_gets. Qed.

(** Returning, with no claim about what is left. *)
Definition halts {S A} (ready : S -> Prop) (m : M S A) : Prop :=
  forall s, ready s -> exists r s', m s = Some (r, s').
Definition total {S A} (m : M S A) : Prop := halts (fun _ => True) m.

Lemma halts_bind {A B} (m : M (Sup W) A) (k : A -> M (Sup W) B) :
  settles m -> (forall a, halts ready (k a)) -> halts ready (m ≫= k).
Proof.
  intros Hm Hk s Hs. destruct (Hm s Hs) as (r&s1&E&Hle). cbv [mbind M_bind]. rewrite E.
  destruct r as [a|e]; [|by eexists _, _]. apply Hk. unfold ready in *. lia.
Qed.
Lemma halts_total {S A B} P (m : M S A) (k : A -> M S B) :
  halts P m -> (forall a, total (k a)) -> halts P (m ≫= k).
Proof.
  intros Hm Hk s Hs. destruct (Hm s Hs) as (r&s1&E). cbv [mbind M_bind]. rewrite E.
  destruct r as [a|e]; [by apply Hk|by eexists _, _].
Qed.
Lemma returns_total {S A} (measure : S -> nat) (m : M S A) :
  (forall n, returns measure n m) -> total m.
Proof. intros Hm s _. destruct (Hm (Datatypes.S (measure s)) s) as (r&s'&E&_); [lia|]. by eexists _, _. Qed.

Lemma returns_finish d n exit : returns (left d) n (finish_invocation (W:=W) exit).
Proof.
  unfold finish_invocation, finish_stream.
  pose proof (returns_close (W:=W) d n).
  pose proof (returns_emit (W:=W) d n). pose proof (fun A => @returns_sup_os W _ _ _ d n A).
  solve_returns; by apply returns_set_inv.
Qed.
Lemma returns_release_root d n : returns (left d) n (release_root (W:=W)).
Proof.
  unfold release_root, RootGuard_remove. pose proof (returns_remove (W:=W) d n).
  apply returns_bind; [apply returns_gets|intros i].
  apply returns_bind; [apply returns_catch, returns_sup_os; solve_returns|intros r].
  apply returns_bind; [by apply returns_set_inv|intros _; apply returns_lift].
Qed.

Lemma halts_cleanup scope l : halts ready (cleanup fuel scope l).
Proof.
  unfold cleanup. apply halts_bind; [apply settles_gets|intros i].
  destruct (i_cleanup_complete i); [by eexists _, _|].
  apply halts_bind; [apply settles_returns; intros; apply returns_close_stdin|intros _].
  intros s Hs. unfold mbind at 1, M_bind at 1. cbv [sup_os zoom call].
  destruct (sys_now (s_os s)) as [now w] eqn:En. apply os_now in En as [Hb Hr].
  set (s1 := MkSup _ _ w).
  assert (Hrest : returns (left (now + CLEANUP_TIMEOUT)) fuel (
    _ ← cleanup_loop fuel scope l (now + CLEANUP_TIMEOUT); _ ← reap_children fuel scope;
    i ← gets s_inv;
    match i.(i_exit) with
    | None => throw (IoError Other "the workload primary process was not reaped")
    | Some exit => finish_invocation exit
    end)).
  { apply returns_bind; [apply returns_cleanup_loop|intros ?].
    apply returns_bind; [apply returns_reap_children|intros ?].
    apply returns_bind; [apply returns_gets|intros ?].
    destruct (i_exit _); [apply returns_finish|apply returns_throw]. }
  destruct (Hrest s1) as (r&s'&E&_); [|by exists r, s'].
  apply (readings_left_timeout os_granularity CLEANUP_TIMEOUT) in Hr; [|apply os_stall].
  unfold ready, work, left, left_os in *. cbn [s_inv s_os s1]. lia.
Qed.

Lemma halts_poll_active c timeout : halts ready (poll_active fuel c timeout).
Proof.
  unfold poll_active. apply halts_bind; [apply settles_gets|intros i].
  apply halts_bind.
  { apply settles_if; [|apply settles_ret]. apply settles_returns. intros. apply returns_reap_children. }
  intros _. apply halts_bind; [apply settles_gets|intros i2]. apply halts_bind.
  { apply settles_if; [|apply settles_ret]. apply settles_bind; [|intros _; apply settles_bind; [|intros _]];
      apply settles_returns; intros d;
      [apply returns_flush_input|apply returns_drain_ready|apply returns_reap_children]. }
  intros _. apply halts_bind; [apply settles_gets|intros i3]. apply halts_total.
  - destruct (_ && _); [apply halts_cleanup|]. intros s _. by eexists _, _.
  - intros _. apply (returns_total (left 0)). intros n. apply returns_bind; [apply returns_gets|intros i4].
    apply returns_if; [apply returns_release_root|apply returns_ret].
Qed.

Lemma halts_shutdown_active c : halts ready (shutdown_active fuel c).
Proof.
  unfold shutdown_active. apply halts_bind; [apply settles_gets|intros i].
  apply halts_bind.
  { apply settles_if; [|apply settles_ret]. apply settles_returns. intros.
    apply returns_sup_os, returns_signal. }
  intros _. apply halts_total; [apply halts_cleanup|]. intros _.
  apply (returns_total (left 0)). intros n. apply returns_release_root.
Qed.

Lemma total_release_slot : total (release_slot (W:=W)).
Proof.
  intros s _. unfold release_slot. cbv [gets mbind M_bind].
  destruct (active (rt s)) as [i|]; [|by eexists _, _]. cbv [rt_os zoom].
  assert (Hd : exists r w, Invocation_drop i (world s) = Some (r, w)).
  { unfold Invocation_drop. cbv [mbind M_bind].
    destruct (root_removed _); cbv [call mret M_ret].
    - rewrite !close_opt_eq. by eexists _, _.
    - destruct (fs_remove_dir_all _ _). rewrite !close_opt_eq. by eexists _, _. }
  destruct Hd as (r&w&->). destruct r; by eexists _, _.
Qed.

Lemma run_active_halts {A} (m : M (Sup W) A) i (s : RtState W) :
  halts ready m -> ready (MkSup i [] s.(world)) -> exists r s', run_active i m s = Some (r, s').
Proof.
  intros Hm Hs. unfold run_active. destruct (Hm (MkSup i [] (world s)) Hs) as (r&s'&->).
  by eexists _, _.
Qed.
End operations_return.


(** ** Queued input reaches the child in order *)

(** [written raw] is what the child's end of the pipe has been given: a write
    appends the bytes it took.  Closing changes nothing. *)
Class PipeLog (W : Type) `{Os W} := {
  written : Fd -> W -> bytes;
  written_write fd data w r w' : sys_write fd data w = (r, w') ->
    written fd w' = written fd w ++ match r with inl n => take (Z.to_nat n) data | inr _ => [] end;
  written_close fd fd' w : written fd (sys_close fd' w) = written fd w;
}.

(** Input is delivered in order and without loss: flushing the queue moves a
    prefix of it to the child, so that what the child was given followed by what
    is still queued is unchanged, whatever the pipe accepts, blocks or fails; the
    descriptor is closed only when the end of input was requested and the queue
    is empty. *)
Theorem flush_input_fifo {W} `{PipeLog W} fuel (s : Sup W) raw r s' :
  s.(s_inv).(i_stdin) = Some raw -> flush_input fuel s = Some (r, s') ->
  written raw s'.(s_os) ++ s'.(s_inv).(i_pending_input)
  = written raw s.(s_os) ++ s.(s_inv).(i_pending_input) /\
  (s'.(s_inv).(i_stdin) = Some raw \/
   s'.(s_inv).(i_stdin) = None /\ s.(s_inv).(i_eof_requested) = true /\
   s'.(s_inv).(i_pending_input) = []).
Proof.
  intros Hin. unfold flush_input. cbv [gets mbind M_bind]. rewrite Hin.
  assert (Hloop : forall n s1 r1 s2, flush_loop n raw s1 = Some (r1, s2) ->
    s1.(s_inv).(i_stdin) = Some raw ->
    written raw s2.(s_os) ++ s2.(s_inv).(i_pending_input)
      = written raw s1.(s_os) ++ s1.(s_inv).(i_pending_input) /\
    s2.(s_inv).(i_stdin) = Some raw /\ (r1 = Ok true -> s2.(s_inv).(i_pending_input) = [])).
  { clear. induction n as [|n IH]; intros s1 r1 s2; cbn [flush_loop]; [done|].
    cbv [gets mbind M_bind]. destruct (is_empty _) eqn:Ee.
    { intros [= <- <-] Hs. split_and!; [done|done|]. intros _. by destruct (i_pending_input _). }
    cbv [sup_os zoom call]. destruct (sys_write raw _ (s_os s1)) as [rw w] eqn:Ew.
    apply written_write in Ew. destruct rw as [k|e]; cbn [s_inv s_events].
    - destruct (k =? 0) eqn:Ek.
      { apply Z.eqb_eq in Ek as ->. intros [= <- <-] Hs. split_and!; [|done|done].
        cbn [s_os s_inv]. by rewrite Ew app_nil_r. }
      cbv [set_inv modify]. intros E Hs. apply IH in E as (E&?&?); [|done]. split_and!; [|done|done].
      rewrite E. cbn [s_os s_inv set_pending set_input i_pending_input]. by rewrite Ew -app_assoc take_drop.
    - rewrite app_nil_r in Ew. destruct (is_kind Interrupted e).
      + intros E Hs. apply IH in E as (E&?&?); [|done]. split_and!; [|done|done].
        rewrite E. cbn [s_os s_inv]. by rewrite Ew.
      + destruct (is_kind WouldBlock e); intros [= <- <-] Hs; cbn [s_os s_inv]; rewrite Ew; by split_and!. }
  destruct (flush_loop fuel raw s) as [[[b|e] s1]|] eqn:El; [| |done].
  - apply Hloop in El as (E&Hs1&Hb); [|done]. destruct (b && _) eqn:Eb.
    + apply andb_true_iff in Eb as [-> He]. unfold close_stdin. cbv [gets mbind M_bind sup_os zoom].
      rewrite close_opt_eq Hs1. cbv [set_inv modify]. intros [= <- <-]. cbn [s_os s_inv].
      rewrite written_close. split; [exact E|]. right. split_and!; [done|done|by apply Hb].
    + intros [= <- <-]. split; [done|by left].
  - apply Hloop in El as (E&Hs1&_); [|done]. intros [= <- <-]. split; [done|by left].
Qed.

(** ** The scripted system as an instance *)

(** A failed read, and an answer to a wait, are used up. *)
Definition read_failures (l : list (Z * (bytes + RawError))) : nat :=
  length (List.filter (fun item => if item.2 is inr _ then true else false) l).
Definition script_budget (w : ScriptOs) : nat := read_failures w.(so_reads) + length w.(so_waits).

Lemma pop_read_failures fd n l :
  (read_failures (pop_read fd n l).2 <= read_failures l)%nat /\
  forall e, (pop_read fd n l).1 = inr e -> (read_failures (pop_read fd n l).2 < read_failures l)%nat.
Proof.
  unfold read_failures. induction l as [|[f [d|e]] l IH]; cbn [pop_read]; [done| |].
  - destruct (f =? fd); [by destruct (zlen d <=? n)|].
    destruct (pop_read fd n l) as [r rest]. exact IH.
  - destruct (f =? fd); [cbn; split; [|intros ? _]; lia|].
    destruct (pop_read fd n l) as [r rest]. cbn in *. destruct IH as [IH1 IH2].
    split; [lia|]. intros e' Hr. specialize (IH2 e' Hr). lia.
Qed.

#[export] Program Instance script_finite_os : FiniteOs ScriptOs :=
  {| budget := script_budget; clock := so_clock; stall _ := 0%nat; os_granularity := 1%nat |}.
Next Obligation. cbn. lia. Qed.
Next Obligation.
  intros fd n w r w' E. cbn in E. pose proof (pop_read_failures fd n (so_reads w)) as [Hle Hlt].
  destruct (pop_read fd n (so_reads w)) as [r0 reads]. simplify_eq. cbn in *.
  unfold script_budget. cbn. split; [split; [lia|by right]|]. intros e He _. specialize (Hlt e He). lia.
Qed.
Next Obligation.
  intros fd data w r w' E. cbn in E. destruct (so_quota w); simplify_eq;
    (split; [split; [done|by right]|]); by intros e [= <-].
Qed.
Next Obligation.
  intros target w pid status w' E. cbn in E. unfold script_budget.
  destruct (so_waits w) as [|st rest] eqn:Ew; simplify_eq/=; rewrite ?Ew.
  - split; [split; [done|by right]|lia].
  - split; [split; [cbn; lia|by right]|cbn; lia].
Qed.
Next Obligation. intros w t w' [= <- <-]. split; [done|]. unfold clock_read. cbn. lia. Qed.
Next Obligation. intros fd w. split; [done|by right]. Qed.
Next Obligation. intros pid signal w. split; [done|by right]. Qed.
Next Obligation. intros i o t w. split; [done|by right]. Qed.
Next Obligation. intros t w. split; [done|]. unfold clock_later. cbn. lia. Qed.
Next Obligation. intros path w. cbn. destruct (bool_decide _); (split; [done|by right]). Qed.
Next Obligation. intros path w. split; [done|by right]. Qed.
Next Obligation. intros path w. split; [done|by right]. Qed.

#[export] Program Instance script_pipe_log : PipeLog ScriptOs :=
  {| written fd w := concat (map snd (List.filter (fun x => x.1 =? fd) w.(so_writes))) |}.
Next Obligation.
  intros fd data w r w' E. cbn in E. destruct (so_quota w); simplify_eq; cbn; [by rewrite app_nil_r|].
  rewrite List.filter_app map_app concat_app. cbn. rewrite Z.eqb_refl. cbn.
  unfold zlen. by rewrite Nat2Z.id firstn_all !app_nil_r.
Qed.
Next Obligation. done. Qed.

(** A live invocation with one line to read, queued input, and a killed primary. *)
Definition sample_invocation : Invocation :=
  set_pending (as_bytes "hi")
    (new_invocation 1 (as_bytes "/run/simferret/invocation-1")
       {| sp_pid := 100; sp_stdin := 11; sp_stdout := 12; sp_stderr := 14 |}).
Definition killed_os : ScriptOs := {|
  so_reads := [(12, inl (as_bytes "ready")); (12, inr would_block); (14, inr would_block)];
  so_waits := [(100, 9); (0, 0)];
  so_tables := [[as_bytes "1"; as_bytes "100"]; []; []; []];
  so_next_fd := 18;
  so_clock := 0;
  so_files := sample_files;
  so_quota := 1;
  so_writes := [];
  so_kills := [] |}.
Notation sample_sup := (MkSup sample_invocation [] killed_os).

#[local] Instance sample_debug : DebugStr := {| debug_str s := s |}.
#[local] Instance sample_sha : Sha256 := {| sha256_digest _ := [] |}.

Lemma service_batch_bounded_witness : exists s' new,
  drain_batch 10 RuntimeLimits_default sample_sup = Some (Ok tt, s') /\
  s'.(s_events) = new /\ zlen new = 1 /\ zlen new <= MAX_SERVICE_FRAMES.
Proof.
  assert (Hs : exists s', drain_batch 10 RuntimeLimits_default sample_sup = Some (Ok tt, s')
    /\ zlen s'.(s_events) = 1).
  { eexists. split; [vm_compute; reflexivity|reflexivity]. }
  destruct Hs as (s'&E&Hz).
  destruct (proj1 (service_batch_bounded 10 RuntimeLimits_default sample_sup s'
    ltac:(vm_compute; reflexivity)) _ E) as (new&Hev&Hle&_).
  exists s', new. rewrite Hev in Hz. exact (conj E (conj Hev (conj Hz Hle))).
Defined.

Lemma cleanup_barrier_witness : exists (s1 s' : Sup ScriptOs) w1 exit,
  cleanup 10 Guest RuntimeLimits_default sample_sup = Some (Ok tt, s') /\
  members_remain Guest 100 s1.(s_os) = Some (Ok false, w1) /\
  s1.(s_inv).(i_stdout_state).(ss_eof) = true /\ s'.(s_inv).(i_exit) = Some exit.
Proof.
  assert (Hs : exists s', cleanup 10 Guest RuntimeLimits_default sample_sup = Some (Ok tt, s')).
  { eexists. vm_compute. reflexivity. }
  destruct Hs as (s'&E).
  destruct (cleanup_barrier 10 Guest RuntimeLimits_default sample_sup s' eq_refl E)
    as (s1&w1&s3&exit&Hm&Ho&_&_&_&_&_&Hx&_).
  exists s1, s', w1, exit. exact (conj E (conj Hm (conj Ho Hx))).
Defined.


Lemma flush_input_fifo_witness : exists r s',
  flush_input 10 sample_sup = Some (r, s') /\ written 11 s'.(s_os) = as_bytes "hi".
Proof.
  assert (Hs : exists r s', flush_input 10 sample_sup = Some (r, s') /\
    s'.(s_inv).(i_pending_input) = []).
  { do 2 eexists. split; [vm_compute; reflexivity|reflexivity]. }
  destruct Hs as (r&s'&E&Hp).
  destruct (flush_input_fifo 10 sample_sup 11 r s' eq_refl E) as [Hw _].
  exists r, s'. split; [exact E|]. rewrite Hp app_nil_r in Hw. exact Hw.
Defined.
