(* ===== verification/Composition.v ===== *)
(** The guest's process runtime and the host's checker together: the events a
    runtime reports, framed with increasing identifiers, never raise a
    structural violation in the checker, and the exit totals and digests the
    runtime reports are those of the streams the checker rebuilds.  What remains
    for the checker to judge is the workload's own behaviour. *)

From stdpp Require Import ssreflect.
From Stdlib Require Import Strings.Byte.
From S2P Require Import Prelude Types Std Protocol Tree Spec Effects Os Runtime Launch RuntimeApi Lifecycle Checker.

(** A violation that names the workload's line length, not the stream's
    structure. *)
Definition line_violation (v : string) : Prop :=
  exists inv stream,
    v = "invocation " +:+ fmt_dec inv +:+ " " +:+ OutputStream_name stream
        +:+ " line exceeds the response bound" \/
    v = "invocation " +:+ fmt_dec inv
        +:+ " stdout line exceeds the response bound before its newline".

(** The checker's streams of a live invocation. *)
Record matches (l : Live) (s : InvocationStreams) : Prop := {
  m_out : s.(stdout).(stream_bytes) = l.(l_out);
  m_err : s.(stderr).(stream_bytes) = l.(l_err);
  m_out_offset : s.(stdout).(stream_offset) = zlen l.(l_out);
  m_err_offset : s.(stderr).(stream_offset) = zlen l.(l_err);
  m_sequence : s.(s_sequence) = l.(l_frames);
  m_frames : s.(s_frames) = l.(l_frames);
  m_input : s.(input_offset) = l.(l_input);
  m_eof : s.(input_eof) = l.(l_eof);
  m_lines : Forall line_violation s.(s_violations);
}.

(** Counters of a live invocation are far below their width. *)
Definition small (lim : RuntimeLimits) (l : Live) : Prop :=
  0 <= l.(l_frames) <= zlen l.(l_out) + zlen l.(l_err) /\
  zlen l.(l_out) <= lim.(output_bytes) /\ zlen l.(l_err) <= lim.(output_bytes) /\
  0 <= l.(l_input) <= lim.(input_bytes).

Lemma matches_fresh id : matches (fresh id) InvocationStreams_default.
Proof. by constructor. Qed.

Lemma split_lines_lines fuel inv id stream s :
  Forall line_violation s.(sp_violations) ->
  Forall line_violation (split_lines fuel inv id stream s).(sp_violations).
Proof.
  revert s. induction fuel as [|fuel IH]; intros s Hs; cbn [split_lines]; [done|].
  destruct (position _ _) as [index|]; [|done]. apply IH. cbn [split_line sp_violations].
  destruct (_ <? _); [|done]. apply list.Forall_app. split; [done|]. constructor; [|done].
  exists inv, stream. by left.
Qed.

Section one_stream.
Context (lim : RuntimeLimits) (Hlim : limits_ok lim).

Lemma streams_push_matches l s id inv stream data :
  matches l s -> small lim l -> 0 < zlen data <= lim.(output_frame_bytes) ->
  zlen (l_stream l stream) + zlen data <= lim.(output_bytes) ->
  matches (with_output l stream data)
    (streams_push s id inv stream (zlen (l_stream l stream)) (l.(l_frames) + 1) data) /\
  small lim (with_output l stream data).
Proof using Hlim.
  intros [] (Hf&Ho&He&Hi) Hd Hsum. destruct Hlim. unfold MAX_OUTPUT_FRAME_BYTES in *.
  pose proof (zlen_nonneg (l_out l)). pose proof (zlen_nonneg (l_err l)).
  assert (Hoff : stream_offset (select_stream s stream) = zlen (l_stream l stream)) by by destruct stream.
  assert (Hsat : saturating_add64 (zlen (l_stream l stream)) (zlen data)
    = zlen (l_stream l stream) + zlen data).
  { unfold saturating_add64, U64_MAX. destruct stream; cbn [l_stream] in *; lia. }
  assert (Hseq : checked_add64 (s_sequence s) 1 = Some (l_frames l + 1)).
  { rewrite m_sequence0. apply checked_add64_Some; unfold U64_MAX; lia. }
  unfold streams_push. cbv zeta. rewrite Hseq bool_decide_true // Hoff Z.eqb_refl Hsat.
  set (sp := split_lines _ _ _ _ _).
  assert (Hsp : Forall line_violation (sp_violations sp)) by by apply split_lines_lines.
  clearbody sp. set (unterminated := _ && (_ <? _)). clearbody unterminated.
  assert (Hadd : add64 (s_frames s) 1 = l_frames l + 1).
  { rewrite m_frames0. apply add64_small; unfold U64_MAX; lia. }
  split.
  - constructor; cbn [Checker.stdout Checker.stderr s_sequence s_frames input_offset input_eof
      s_violations with_output l_out l_err l_frames l_input l_eof]; try done.
    + destruct stream; cbn [stream_bytes select_stream]; [by rewrite m_out0|done].
    + destruct stream; cbn [stream_bytes select_stream]; [done|by rewrite m_err0].
    + destruct stream; cbn [stream_offset l_stream]; [by rewrite zlen_app|done].
    + destruct stream; cbn [stream_offset l_stream]; [done|by rewrite zlen_app].
    + destruct unterminated; [|done]. apply list.Forall_app. split; [done|]. constructor; [|done].
      exists inv, Stdout. by right.
  - unfold small. destruct stream; cbn [with_output l_out l_err l_frames l_input l_stream] in *;
      rewrite ?zlen_app; split_and!; lia.
Qed.

Lemma push_input_matches l s inv id cmd n eof :
  matches l s -> small lim l -> l.(l_eof) = false -> (if eof : bool then n = 0 else 0 < n) ->
  l.(l_input) + n <= lim.(input_bytes) ->
  (forall c, c ∈ s.(input_commands) -> c < cmd) ->
  matches (with_input l n eof) (push_input s inv id cmd (l.(l_input) + n) n eof) /\
  small lim (with_input l n eof).
Proof using Hlim.
  intros [] (Hf&Ho&He&Hi) Heof Hn Hsum Hcmd. destruct Hlim. split.
  - constructor; cbn [push_input Checker.stdout Checker.stderr s_sequence s_frames input_offset
      input_eof s_violations with_input l_out l_err l_frames l_input l_eof]; try done.
    + rewrite m_eof0 Heof. by destruct eof.
    + apply list.Forall_app. split; [done|]. unfold input_violations.
      rewrite m_input0 m_eof0 Heof.
      assert (checked_add64 (l_input l) n = Some (l_input l + n)) as ->.
      { apply checked_add64_Some; unfold U64_MAX; destruct eof; lia. }
      rewrite bool_decide_true //. destruct (rev (input_commands s)) as [|c cs] eqn:Er.
      * destruct eof; [by rewrite Hn|]. destruct (Z.eqb_spec n 0); [lia|done].
      * assert (c < cmd).
        { apply Hcmd. rewrite -(rev_involutive (input_commands s)) Er. set_solver. }
        destruct (Z.leb_spec cmd c); [lia|].
        destruct eof; [by rewrite Hn|]. destruct (Z.eqb_spec n 0); [lia|done].
  - unfold small. cbn. destruct eof; split_and!; lia.
Qed.
End one_stream.

(** ** The whole trace *)

Definition start_ids (t : WorkloadTrace) : list Z := map start_invocation t.(starts).
Definition exit_ids (t : WorkloadTrace) : list Z := map exit_invocation t.(exits).
Definition term_ids (t : WorkloadTrace) : list Z := map termination_invocation t.(terminations).
Definition clean_ids (t : WorkloadTrace) : list Z := map cleanup_invocation t.(cleanups).

Lemma existsb_ids {A} (f : A -> Z) (l : list A) i :
  existsb (fun x => f x =? i) l = bool_decide (i ∈ map f l).
Proof.
  apply eq_true_iff_eq. rewrite existsb_exists bool_decide_eq_true. split.
  - intros (x&Hx&Hi). apply Z.eqb_eq in Hi as <-. apply list_elem_of_fmap_2. by apply list_elem_of_In.
  - intros Hi. apply (list_elem_of_fmap f) in Hi as (x&->&Hx). exists x.
    by rewrite Z.eqb_refl -list_elem_of_In.
Qed.

Lemma started_ids t i : started t i = bool_decide (i ∈ start_ids t).
Proof. apply existsb_ids. Qed.
Lemma exited_ids t i : exited t i = bool_decide (i ∈ exit_ids t).
Proof. apply existsb_ids. Qed.
Lemma terminated_ids t i : terminated t i = bool_decide (i ∈ term_ids t).
Proof. apply existsb_ids. Qed.
Lemma cleaned_ids t i : cleaned t i = bool_decide (i ∈ clean_ids t).
Proof. apply existsb_ids. Qed.

Definition streams_of (t : WorkloadTrace) (i : Z) : InvocationStreams :=
  default InvocationStreams_default (t.(invocations) !! i).

Lemma streams_of_update t i f j :
  streams_of (update_invocation t i f) j = if decide (i = j) then f (streams_of t i) else streams_of t j.
Proof.
  unfold streams_of, update_invocation. cbn [invocations]. destruct (decide (i = j)) as [->|Hne].
  - by rewrite lookup_insert_eq.
  - by rewrite lookup_insert_ne.
Qed.

(** The exit record's totals and digests are those of the rebuilt streams. *)
Definition exit_matches `{Sha256} (t : WorkloadTrace) (r : ExitRecord) : Prop :=
  let s := streams_of t r.(exit_invocation) in
  r.(exit_stdout_bytes) = zlen s.(stdout).(stream_bytes) /\
  r.(exit_stderr_bytes) = zlen s.(stderr).(stream_bytes) /\
  r.(exit_stdout_sha256) = sha256 s.(stdout).(stream_bytes) /\
  r.(exit_stderr_sha256) = sha256 s.(stderr).(stream_bytes) /\
  r.(exit_frames) = s.(s_frames).

Definition is_input (e : Event) : bool := match e with InputAccepted _ _ _ _ => true | _ => false end.
Definition terminated_id (e : Event) : option Z :=
  match e with TerminationRequested i _ => Some i | _ => None end.

(** Frames as the agent numbers them: identifiers increase, and so do the
    commands that accepted input. *)
Definition numbered (frames : list EventFrame) : Prop :=
  forall j k f g, (j < k)%nat -> frames !! j = Some f -> frames !! k = Some g ->
    f.(event_id) < g.(event_id) /\
    (is_input f.(event) = true -> is_input g.(event) = true -> f.(command_id) < g.(command_id)).

(** A session that launched what it started, terminated no invocation twice,
    and whose reap counters did not wrap around. *)
Definition regular (e : Event) : bool :=
  match e with LaunchFailed _ _ _ => false | CleanupComplete _ n => negb (n =? 0) | _ => true end.
Definition orderly (es : list Event) : Prop :=
  NoDup (omap terminated_id es) /\ Forall (fun e => regular e = true) es.

Lemma numbered_snoc frames f :
  numbered (frames ++ [f]) -> numbered frames /\
  forall g, g ∈ frames -> g.(event_id) < f.(event_id) /\
    (is_input g.(event) = true -> is_input f.(event) = true -> g.(command_id) < f.(command_id)).
Proof.
  intros Hn. split.
  - intros j k g h Hjk Hj Hk. apply (Hn j k); [done|by apply lookup_app_l_Some..].
  - intros g [j Hj]%list_elem_of_lookup_1. apply (Hn j (length frames)).
    + by apply lookup_lt_Some in Hj.
    + by apply lookup_app_l_Some.
    + by rewrite lookup_app_r // Nat.sub_diag.
Qed.

Lemma orderly_snoc es e : orderly (es ++ [e]) ->
  orderly es /\ (forall i, terminated_id e = Some i -> i ∉ omap terminated_id es) /\
  (forall i f d, e <> LaunchFailed i f d) /\ (forall i, e <> CleanupComplete i 0).
Proof.
  intros (Hd&[Hf He]%list.Forall_app). apply list.Forall_cons in He as [He _].
  rewrite omap_app in Hd. apply list.NoDup_app in Hd as (Hd&Hx&_). split_and!.
  - by split.
  - intros i Hi Hin. apply (Hx i Hin). cbn. rewrite Hi. set_solver.
  - intros i f d E. by rewrite E in He.
  - intros i E. by rewrite E in He.
Qed.

Record agrees `{Sha256} (lim : RuntimeLimits) (frames : list EventFrame) (m : Machine)
    (t : WorkloadTrace) : Prop := {
  g_violations : t.(violations) = [];
  g_lines : forall i, Forall line_violation (streams_of t i).(s_violations);
  g_started : forall i, i ∈ start_ids t -> exists n, m.1 = Some n /\ i <= n;
  g_known : forall i, i ∈ exit_ids t \/ i ∈ term_ids t \/ i ∈ clean_ids t
    \/ is_Some (t.(invocations) !! i) -> i ∈ start_ids t;
  g_terms : term_ids t = omap terminated_id (map event frames);
  g_commands : forall i c, c ∈ (streams_of t i).(input_commands) ->
    exists f, f ∈ frames /\ is_input f.(event) = true /\ f.(command_id) = c;
  g_exit_events : forall r, r ∈ t.(exits) -> exists f, f ∈ frames /\ f.(event_id) = r.(exit_event);
  g_exits : forall r, r ∈ t.(exits) -> exit_matches t r;
  g_phase : match m.2 with
    | Idle => True
    | Running l => l.(l_id) ∈ start_ids t /\ l.(l_id) ∉ exit_ids t /\ l.(l_id) ∉ clean_ids t /\
        small lim l /\ matches l (streams_of t l.(l_id)) /\
        (l.(l_id) ∈ term_ids t <-> l.(l_term) = true)
    | Exited_ id => id ∈ start_ids t /\ id ∈ exit_ids t /\ id ∉ clean_ids t
    end;
}.

(** ** One event *)

#[local] Set Default Proof Using "All".
Section one_event.
Context `{Sha256} (lim : RuntimeLimits) (Hlim : limits_ok lim).
Context (frames : list EventFrame) (t : WorkloadTrace) (f : EventFrame).
Context (Hfresh : forall g, g ∈ frames -> g.(event_id) < f.(event_id) /\
  (is_input g.(event) = true -> is_input f.(event) = true -> g.(command_id) < f.(command_id))).

Lemma streams_of_None i : t.(invocations) !! i = None -> streams_of t i = InvocationStreams_default.
Proof. intros E. unfold streams_of. by rewrite E. Qed.

Lemma ids_snoc {A} (g : A -> Z) l x : map g (l ++ [x]) = map g l ++ [g x].
Proof. by rewrite map_app. Qed.

(** A change to the streams of the live invocation. *)
Lemma agrees_update last l l' g m' :
  agrees lim frames (last, Running l) t ->
  m' = (last, Running l') -> l'.(l_id) = l.(l_id) -> l'.(l_term) = l.(l_term) ->
  terminated_id f.(event) = None ->
  matches l' (g (streams_of t l.(l_id))) -> small lim l' ->
  (forall c, c ∈ (g (streams_of t l.(l_id))).(input_commands) ->
    c ∈ (streams_of t l.(l_id)).(input_commands) \/ (is_input f.(event) = true /\ c = f.(command_id))) ->
  agrees lim (frames ++ [f]) m' (update_invocation t l.(l_id) g).
Proof.
  intros [] -> Hid Hterm Hev Hm Hs Hc. destruct g_phase0 as (Hst&Hex&Hcl&_&_&Ht).
  constructor; cbn [update_invocation violations starts exits terminations cleanups fst snd]; try done.
  - intros i. rewrite streams_of_update. case_decide as E; [subst i; by destruct Hm|done].
  - intros i Hi. unfold start_ids, exit_ids, term_ids, clean_ids in *. cbn in *.
    destruct Hi as [?|[?|[?|Hi]]]; [by apply g_known0; eauto..|].
    destruct (decide (i = l_id l)) as [->|Hne]; [done|].
    rewrite lookup_insert_ne in Hi; [|done]. apply g_known0. eauto.
  - unfold term_ids in *. cbn. rewrite map_app omap_app g_terms0 /= Hev app_nil_r //.
  - intros i c. rewrite streams_of_update. case_decide as E; [subst i|].
    + intros [Hin|[Hi ->]]%Hc.
      * destruct (g_commands0 _ _ Hin) as (h&Hh&?&?). exists h. set_solver.
      * exists f. set_solver.
    + intros Hin. destruct (g_commands0 _ _ Hin) as (h&Hh&?&?). exists h. set_solver.
  - intros r Hr. destruct (g_exit_events0 r Hr) as (h&Hh&?). exists h. set_solver.
  - intros r Hr. specialize (g_exits0 r Hr). unfold exit_matches in *. rewrite streams_of_update.
    case_decide as E; [|done]. exfalso. apply Hex. rewrite E. by apply list_elem_of_fmap_2.
  - rewrite Hid Hterm streams_of_update decide_True //.
Qed.

Lemma push_started_agrees last id launch :
  agrees lim frames (last, Idle) t -> newer last id -> f.(event) = WorkloadStarted id launch ->
  agrees lim (frames ++ [f]) (Some id, Running (fresh id)) (push t f).
Proof.
  intros [] Hn He. unfold push. rewrite He. unfold push_started.
  assert (Hns : id ∉ start_ids t).
  { intros Hin. destruct (g_started0 id Hin) as (n&Hl&Hle). cbn in Hl. subst last. cbn in Hn. lia. }
  rewrite started_ids bool_decide_false //.
  assert (Hnone : t.(invocations) !! id = None).
  { apply eq_None_not_Some. intros Hi. apply Hns, g_known0. eauto. }
  constructor; unfold start_ids, exit_ids, term_ids, clean_ids in *;
    cbn [add_start violations starts exits terminations cleanups fst snd invocations]; try done.
  - intros i. rewrite ids_snoc elem_of_app. intros [Hi|Hi].
    + destruct (g_started0 i Hi) as (n&Hl&Hle). exists id. cbn in Hl. subst last. cbn in Hn.
      split; [done|lia].
    + apply list_elem_of_singleton in Hi as ->. exists id. by split.
  - intros i Hi. rewrite ids_snoc elem_of_app. left. by apply g_known0.
  - by rewrite map_app omap_app g_terms0 /= He app_nil_r.
  - intros i c Hc. destruct (g_commands0 i c Hc) as (g&Hg&?&?). exists g. set_solver.
  - intros r Hr. destruct (g_exit_events0 r Hr) as (g&Hg&?). exists g. set_solver.
  - rewrite ids_snoc. cbn [fresh l_id l_term]. split_and!.
    + set_solver.
    + intros Hin. apply Hns, g_known0. eauto.
    + intros Hin. apply Hns, g_known0. eauto.
    + unfold small. cbn. rewrite zlen_nil. destruct Hlim. split_and!; lia.
    + unfold streams_of. cbn [invocations]. rewrite Hnone. apply matches_fresh.
    + split; [|done]. intros Hin. exfalso. apply Hns, g_known0. eauto.
Qed.

Lemma push_output_extends last l stream data :
  agrees lim frames (last, Running l) t ->
  0 < zlen data <= lim.(output_frame_bytes) ->
  zlen (l_stream l stream) + zlen data <= lim.(output_bytes) ->
  f.(event) = WorkloadOutput l.(l_id) stream (zlen (l_stream l stream)) (l.(l_frames) + 1)
    (encode_bytes data) ->
  agrees lim (frames ++ [f]) (last, Running (with_output l stream data)) (push t f).
Proof.
  intros Ha Hd Hsum He. unfold push. rewrite He. unfold push_output.
  destruct (g_phase _ _ _ _ Ha) as (Hst&Hex&Hcl&Hs&Hm&Ht).
  rewrite started_ids bool_decide_true // exited_ids bool_decide_false //. cbn [negb].
  assert (decode_bytes (encode_bytes data) MAX_OUTPUT_FRAME_BYTES = Ok data) as ->.
  { apply decode_bytes_spec; [unfold MAX_OUTPUT_FRAME_BYTES; lia|]. destruct Hlim. split; [done|lia]. }
  destruct (streams_push_matches lim Hlim l (streams_of t (l_id l)) (event_id f) (l_id l) stream data
    Hm Hs Hd Hsum) as [Hm' Hs'].
  eapply agrees_update; try done.
  - by rewrite He.
  - intros c Hc. by left.
Qed.

Lemma push_input_extends last l n eof :
  agrees lim frames (last, Running l) t -> l.(l_eof) = false -> l.(l_term) = false ->
  (if eof : bool then n = 0 else 0 < n) -> l.(l_input) + n <= lim.(input_bytes) ->
  f.(event) = InputAccepted l.(l_id) (l.(l_input) + n) n eof ->
  agrees lim (frames ++ [f]) (last, Running (with_input l n eof)) (push t f).
Proof.
  intros Ha Heof Hterm Hn Hsum He. unfold push. rewrite He. unfold push_input_accepted.
  destruct (g_phase _ _ _ _ Ha) as (Hst&Hex&Hcl&Hs&Hm&Ht).
  rewrite started_ids bool_decide_true // exited_ids bool_decide_false //. cbn [negb].
  rewrite terminated_ids bool_decide_false; [|rewrite Ht Hterm; done].
  assert (Hcmd : forall c, c ∈ input_commands (streams_of t (l_id l)) -> c < command_id f).
  { intros c Hc. destruct (g_commands _ _ _ _ Ha _ _ Hc) as (g&Hg&Hi&<-).
    apply (Hfresh g Hg); [done|]. by rewrite He. }
  destruct (push_input_matches lim Hlim l (streams_of t (l_id l)) (l_id l) (event_id f)
    (command_id f) n eof Hm Hs Heof Hn Hsum Hcmd) as [Hm' Hs'].
  eapply agrees_update; try done.
  - by rewrite He.
  - intros c. cbn [push_input input_commands]. rewrite elem_of_app He.
    intros [Hc|Hc]; [by left|right]. split; [done|]. by apply list_elem_of_singleton in Hc.
Qed.

Lemma push_termination_agrees last l :
  agrees lim frames (last, Running l) t -> l.(l_id) ∉ omap terminated_id (map event frames) ->
  f.(event) = TerminationRequested l.(l_id) TERMINATION_SIGNAL ->
  agrees lim (frames ++ [f]) (last, Running (with_term l)) (push t f).
Proof.
  intros [] Hnt He. unfold push. rewrite He. unfold push_termination.
  destruct g_phase0 as (Hst&Hex&Hcl&Hs&Hm&Ht).
  rewrite started_ids bool_decide_true // exited_ids bool_decide_false // terminated_ids.
  rewrite bool_decide_false; [|by rewrite g_terms0]. cbn [negb].
  constructor; unfold start_ids, exit_ids, term_ids, clean_ids in *;
    cbn [add_termination violations starts exits terminations cleanups fst snd invocations]; try done.
  - intros i. rewrite ids_snoc elem_of_app list_elem_of_singleton.
    intros [Hi|[[Hi|Hi]|[Hi|Hi]]]; try (apply g_known0; by eauto). by rewrite Hi.
  - by rewrite ids_snoc map_app omap_app g_terms0 /= He.
  - intros i c Hc. destruct (g_commands0 i c Hc) as (g&Hg&?&?). exists g. set_solver.
  - intros r Hr. destruct (g_exit_events0 r Hr) as (g&Hg&?). exists g. set_solver.
  - cbn [with_term l_id l_term]. split_and!; try done; [by destruct Hm|].
    split; [done|]. intros _. rewrite ids_snoc. set_solver.
Qed.

Lemma push_exited_agrees last l exit :
  agrees lim frames (last, Running l) t ->
  f.(event) = WorkloadExited l.(l_id) exit (zlen l.(l_out)) (hex (sha256_digest l.(l_out)))
    (zlen l.(l_err)) (hex (sha256_digest l.(l_err))) l.(l_frames) ->
  agrees lim (frames ++ [f]) (last, Exited_ l.(l_id)) (push t f).
Proof.
  intros [] He. unfold push. rewrite He. unfold push_exited. cbn [exit_invocation].
  destruct g_phase0 as (Hst&Hex&Hcl&Hs&Hm&Ht).
  rewrite started_ids bool_decide_true // exited_ids bool_decide_false //. cbn [negb].
  constructor; unfold start_ids, exit_ids, term_ids, clean_ids in *;
    cbn [add_exit violations starts exits terminations cleanups fst snd invocations]; try done.
  - intros i. rewrite ids_snoc elem_of_app list_elem_of_singleton.
    intros [[Hi|Hi]|[Hi|[Hi|Hi]]]; try (apply g_known0; by eauto). by rewrite Hi.
  - by rewrite map_app omap_app g_terms0 /= He app_nil_r.
  - intros i c Hc. destruct (g_commands0 i c Hc) as (g&Hg&?&?). exists g. set_solver.
  - intros r. rewrite elem_of_app list_elem_of_singleton. intros [Hr| ->].
    + destruct (g_exit_events0 r Hr) as (g&Hg&?). exists g. set_solver.
    + exists f. split; [set_solver|done].
  - intros r. rewrite elem_of_app list_elem_of_singleton. intros [Hr| ->]; [by apply g_exits0|].
    destruct Hm. unfold exit_matches. cbn [exit_invocation exit_stdout_bytes exit_stderr_bytes
      exit_stdout_sha256 exit_stderr_sha256 exit_frames].
    change (streams_of (add_exit t _) (l_id l)) with (streams_of t (l_id l)).
    by rewrite m_out0 m_err0 m_frames0.
  - rewrite ids_snoc. cbn [exit_invocation]. split_and!; [done|set_solver|done].
Qed.

Lemma push_cleanup_agrees last id n :
  agrees lim frames (last, Exited_ id) t -> n <> 0 ->
  f.(event) = CleanupComplete id n -> agrees lim (frames ++ [f]) (last, Idle) (push t f).
Proof.
  intros [] Hnz He. unfold push. rewrite He. unfold push_cleanup.
  destruct g_phase0 as (Hst&Hex&Hcl).
  rewrite started_ids bool_decide_true // cleaned_ids bool_decide_false //. cbn [negb].
  destruct (List.find _ _) as [r|] eqn:Ef; cycle 1.
  { exfalso. apply (list_elem_of_fmap exit_invocation) in Hex as (r&->&Hr).
    pose proof (find_none _ _ Ef r) as Hno. rewrite Z.eqb_refl in Hno.
    by discriminate Hno; apply list_elem_of_In. }
  apply find_some in Ef as [Hr _]. apply list_elem_of_In in Hr.
  destruct (g_exit_events0 r Hr) as (g&Hg&Hev). destruct (Hfresh g Hg) as [Hlt _].
  destruct (Z.ltb_spec (event_id f) (exit_event r)); [lia|].
  destruct (Z.eqb_spec n 0); [done|].
  constructor; unfold start_ids, exit_ids, term_ids, clean_ids in *;
    cbn [add_cleanup violations starts exits terminations cleanups fst snd invocations]; try done.
  - intros i. rewrite ids_snoc elem_of_app list_elem_of_singleton.
    intros [Hi|[Hi|[[Hi|Hi]|Hi]]]; try (apply g_known0; by eauto). by rewrite Hi.
  - by rewrite map_app omap_app g_terms0 /= He app_nil_r.
  - intros i c Hc. destruct (g_commands0 i c Hc) as (h&Hh&?&?). exists h. set_solver.
  - intros r' Hr'. destruct (g_exit_events0 r' Hr') as (h&Hh&?). exists h. set_solver.
Qed.
End one_event.

(** Every step of the runtime's machine is a clean event for the checker. *)
Lemma lsteps_agrees `{Sha256} lim frames es m :
  limits_ok lim -> lsteps lim (None, Idle) es m -> map event frames = es ->
  numbered frames -> orderly es -> agrees lim frames m (trace_of frames).
Proof.
  intros Hlim Hst. remember (None, Idle) as m0 eqn:E0. revert frames.
  induction Hst as [m|m es m1 e m2 Hst IH Hs]; intros frames Hev Hn Ho; subst m.
  { apply map_eq_nil in Hev as ->.
    assert (Hnone : forall i, streams_of (trace_of []) i = InvocationStreams_default) by done.
    constructor; try done.
    - intros i Hi. by apply elem_of_nil in Hi.
    - intros i [Hi|[Hi|[Hi|[x Hx]]]]; [by apply elem_of_nil in Hi..|].
      change (invocations (trace_of [])) with (∅ : gmap Z InvocationStreams) in Hx.
      by rewrite lookup_empty in Hx.
    - intros i c. rewrite Hnone. intros Hc. by apply elem_of_nil in Hc.
    - intros r Hr. by apply elem_of_nil in Hr.
    - intros r Hr. by apply elem_of_nil in Hr. }
  destruct (map_eq_app _ _ _ _ Hev) as (fs&tl&->&Hfs&Htl).
  destruct tl as [|f [|? ?]]; [done| |done]. injection Htl as Hf.
  apply numbered_snoc in Hn as [Hn Hfresh]. apply orderly_snoc in Ho as (Ho&Hterm&Hnf&Hnc).
  specialize (IH eq_refl fs Hfs Hn Ho). unfold trace_of. rewrite fold_left_app. cbn [fold_left].
  change (fold_left push fs WorkloadTrace_default) with (trace_of fs).
  inversion Hs; subst; try congruence.
  - by eapply push_started_agrees.
  - apply push_input_extends; done || lia.
  - replace (InputAccepted (l_id l) (l_input l) 0 true) with
      (InputAccepted (l_id l) (l_input l + 0) 0 true) in * by by rewrite Z.add_0_r.
    apply push_input_extends; try done. destruct (g_phase _ _ _ _ IH) as (_&_&_&(_&_&_&?)&_). lia.
  - apply push_termination_agrees; try done. apply Hterm.
    by match goal with He : _ = event f |- _ => rewrite -He end.
  - by apply push_output_extends.
  - by eapply push_exited_agrees.
  - eapply push_cleanup_agrees; try done. intros Hz. eapply Hnc.
    match goal with He : _ = event f |- _ => by rewrite -He Hz end.
Qed.

(** Matching totals leave the checker's exit check only the workload's own
    output to reject. *)
Lemma exit_failure_matches `{Sha256} t r :
  exit_matches t r -> (streams_of t r.(exit_invocation)).(stdout).(pending) = [] ->
  (streams_of t r.(exit_invocation)).(stderr) = empty_stream ->
  exit_failure t r = None.
Proof.
  unfold exit_matches, exit_failure, streams_of. intros (Ho&He&Hso&Hse&Hf) Hp Herr.
  destruct (invocations t !! exit_invocation r) as [s|]; cbn [default] in *.
  - rewrite Hp Herr in Ho He Hso Hse |- *. cbn in *. rewrite Ho He Hf !Z.eqb_refl. cbn.
    by rewrite Hso Hse !bool_decide_true.
  - cbn in *. rewrite Ho He Hf. cbn. by rewrite Hso Hse !bool_decide_true.
Qed.


(** Frames numbered by position, each answering its own command. *)
Definition frames_of (es : list Event) : list EventFrame :=
  imap (fun k e => {| protocol_version := PROTOCOL_VERSION; event_id := Z.of_nat k + 1;
    command_id := Z.of_nat k + 1; event := e; diagnostics := DiagnosticFields_default |}) es.

Lemma frames_of_numbered es : numbered (frames_of es) /\ map event (frames_of es) = es.
Proof.
  split.
  - intros j k f g Hjk. unfold frames_of. rewrite !list_lookup_imap.
    destruct (es !! j), (es !! k); cbn; intros; simplify_eq. cbn. split; intros; lia.
  - unfold frames_of. apply list_eq. intros k. rewrite lookup_map list_lookup_imap.
    by destruct (es !! k).
Qed.

#[local] Instance quiet_debug : DebugStr := {| debug_str s := s |}.
#[local] Instance empty_sha : Sha256 := {| sha256_digest _ := [] |}.

