(* ===== verification/Agent.v ===== *)
(** The guest agent of [agent.rs]: the command handler, the event emitter with
    its assertion history, the network and fault operations, the serial input
    buffer and the two control loops.

    The agent's state is its record, the output writer and the operating system.
    It reaches the outside through interfaces: [Os] for system calls, [Write]
    for the control channel, [Network] for the datagram socket of a request,
    and [RuntimeOps] for the process runtime, which the Linux runtime of
    [RuntimeApi] and the placeholder of [runtime_stub.rs] both implement.  The
    control loops carry fuel for their waits on the channel; [rf] is the fuel of
    one runtime operation. *)

From stdpp Require Import ssreflect.
From Stdlib Require Import Strings.Byte.
From S2P Require Import Prelude Types Std Protocol Assertions Tree Spec Fixture Effects Os Runtime Launch.
From S2P Require Import RuntimeApi.

Definition INTERFACE : string := "eth0".
Definition GUEST_CIDR : string := "10.0.2.15/24".
Definition GATEWAY : string := "10.0.2.2".
Definition PEER_CIDR : string := "10.0.2.2/32".
Definition OUTAGE_RULE : string := "prohibit 10.0.2.2/32".
(** [Duration::from_millis(50)] *)
Definition CONTROL_POLL : Z := 50.

(** ** Interfaces *)

(** A socket for the request of one file: the outcome of binding and configuring
    it, and what the network will answer on it; and its return when it is
    dropped. *)
Class Network (W : Type) := {
  net_open : string -> W -> (option RawError * Socket) * W;
  net_close : Socket -> W -> W;
}.

(** The public surface of the process runtime. *)
Class RuntimeOps (R W : Type) := {
  ops_is_active : R -> bool;
  ops_output_fds : R -> list Fd;
  ops_input_fd : R -> option Fd;
  ops_start : nat -> Z -> LaunchIdentity -> M (R * W) (list Event);
  ops_stdin_write : nat -> Z -> Z -> string -> M (R * W) (list Event);
  ops_stdin_eof : nat -> Z -> M (R * W) (list Event);
  ops_terminate : nat -> Z -> M (R * W) (list Event);
  ops_poll : nat -> Z -> M (R * W) (list Event);
  ops_shutdown : nat -> M (R * W) (list Event);
  ops_drop : nat -> M (R * W) unit;
}.

(** The Linux runtime. *)
Definition paired {W A} (m : M (RtState W) A) : M (Runtime * W) A :=
  zoom (fun '(r, w) => MkRt r w) (fun s _ => (s.(rt), s.(world))) m.

#[export] Instance linux_runtime {W} `{Os W} `{DebugStr} `{Sha256} : RuntimeOps Runtime W := {
  ops_is_active := is_active;
  ops_output_fds := output_fds;
  ops_input_fd := input_fd;
  ops_start fuel invocation launch := paired (start fuel invocation launch);
  ops_stdin_write fuel invocation offset data := paired (stdin_write fuel invocation offset data);
  ops_stdin_eof fuel invocation := paired (stdin_eof fuel invocation);
  ops_terminate _ invocation := paired (terminate invocation);
  ops_poll fuel timeout := paired (poll fuel timeout);
  ops_shutdown fuel := paired (shutdown fuel);
  ops_drop fuel := paired (Runtime_drop fuel);
}.

(** The placeholder of [runtime_stub.rs] for other platforms. *)
Module Stub.
Record StubRuntime := { stub_limits : RuntimeLimits }.

Definition unsupported : io_error :=
  IoError Unsupported "the guest process runtime supports Linux only".

Definition stub_new (_ : RuntimeConfig) : result StubRuntime := Err unsupported.

Definition stub_start (invocation : Z) : list Event :=
  [LaunchFailed invocation NoRuntime "the guest process runtime supports Linux only"].

#[global] Instance stub_runtime {W} : RuntimeOps StubRuntime W := {
  ops_is_active _ := false;
  ops_output_fds _ := [];
  ops_input_fd _ := None;
  ops_start _ invocation _ := mret (stub_start invocation);
  ops_stdin_write _ _ _ _ := throw unsupported;
  ops_stdin_eof _ _ := throw unsupported;
  ops_terminate _ _ := throw unsupported;
  ops_poll _ _ := throw unsupported;
  ops_shutdown _ := throw unsupported;
  ops_drop _ := mret tt;
}.
End Stub.

(** ** The profile checks *)

Definition require_network_values (interface guest_cidr gateway : string) : result unit :=
  if bool_decide ((interface, guest_cidr, gateway) = (INTERFACE, GUEST_CIDR, GATEWAY)) then Ok tt
  else Err (invalid "network configuration differs from the version-1 profile").

Definition require_peer (peer_cidr : string) : result unit :=
  if bool_decide (peer_cidr = PEER_CIDR) then Ok tt
  else Err (invalid "fault peer differs from the version-1 profile").

Definition validate_request (request_id payload peer : string) : result unit :=
  if is_empty (as_bytes request_id)
     || negb (forallb (fun b => is_ascii_alphanumeric b || bool_decide (b = "-"%byte))
                (as_bytes request_id))
     || (MAX_REQUEST_DATA_LENGTH <? saturating_add64 (str_len request_id) (str_len payload))
     || negb (bool_decide (peer = GATEWAY))
  then Err (invalid "request differs from the bounded network fixture contract")
  else Ok tt.

(** ** Network operations *)

Section network.
Context {W : Type} `{Os W}.

Definition run_busybox (arguments : list string) : M W unit :=
  status ← call_or raw_error (run_status arguments);
  if status.(status_success) then mret tt
  else throw (IoError Other ("busybox command failed with " +:+ status.(status_display))).

Definition configure_network : M W unit :=
  _ ← run_busybox ["insmod"; "/modules/mii.ko"];
  _ ← run_busybox ["insmod"; "/modules/8139cp.ko"];
  _ ← run_busybox ["ip"; "link"; "set"; INTERFACE; "up"];
  _ ← run_busybox ["ip"; "address"; "add"; GUEST_CIDR; "dev"; INTERFACE];
  _ ← run_busybox ["ip"; "route"; "add"; "default"; "via"; GATEWAY];
  driver ← call_or raw_error (fs_read_link (as_bytes "/sys/class/net/eth0/device/driver"));
  if bool_decide (file_name driver = Some (as_bytes "8139cp")) then mret tt
  else throw (IoError Other "rtl8139 NIC did not bind to 8139cp").

(** Whether the printed route is the prohibition of the peer. *)
Definition outage_present (route : string) : bool :=
  let route := as_bytes route in
  starts_with (as_bytes OUTAGE_RULE) route
  || bool_decide (trim_end route = as_bytes "prohibit 10.0.2.2")
  || starts_with (as_bytes "prohibit 10.0.2.2 ") route.

Definition set_outage (active : bool) : M W unit :=
  let action := if active then "add"%string else "del"%string in
  _ ← run_busybox ["ip"; "route"; action; "prohibit"; PEER_CIDR];
  '(status, stdout) ← call_or raw_error (run_output ["ip"; "route"; "show"; "exact"; PEER_CIDR]);
  if negb status.(status_success) then throw (IoError Other "could not inspect peer-specific route")
  else if negb (eqb (outage_present (from_utf8_lossy stdout)) active) then
    throw (IoError Other "peer-specific prohibit route transition was not confirmed")
  else mret tt.

(** One request on a fresh socket, which is dropped afterwards. *)
Definition fixture_request `{Network W} (request_id : string)
    : M W ((string * string) + RawError) := fun w =>
  let '((bound, socket), w) := net_open request_id w in
  let '(r, socket) := tftp_request GATEWAY request_id bound socket in
  Some (Ok r, net_close socket w).
End network.

(** The event that reports a request's outcome. *)
Definition request_outcome (request_id payload : string) (phase : RequestPhase)
    (r : (string * string) + RawError) : Event :=
  match r with
  | inl (response_id, response_payload) =>
      RequestSucceeded request_id payload response_id response_payload phase
  | inr e =>
      let error :=
        if bool_decide (e.(raw_os_error) = Some EACCES) then AdministrativeProhibited
        else if is_kind InvalidData e then InvalidResponse
        else Transport in
      RequestUnavailable request_id phase error e.(raw_os_error)
  end.

(** ** The agent *)

Record Agent (R : Type) := MkAgent {
  a_events : list EventFrame;
  next_event_id : Z;
  a_exit_code : Z;
  line_framing : bool;
  network_configured : bool;
  outage_active : bool;
  a_runtime : option R;
  last_command_id : Z;
}.
Arguments MkAgent {R}.
Arguments a_events {R}.
Arguments next_event_id {R}.
Arguments a_exit_code {R}.
Arguments line_framing {R}.
Arguments network_configured {R}.
Arguments outage_active {R}.
Arguments a_runtime {R}.
Arguments last_command_id {R}.

Record AgState (R Out W : Type) := MkAg { ag : Agent R; out : Out; agos : W }.
Arguments MkAg {R Out W}.
Arguments ag {R Out W}.
Arguments out {R Out W}.
Arguments agos {R Out W}.

(** Field assignments. *)
Section assignments.
Context {R : Type}.
Implicit Types (a : Agent R).

Definition push_history (f : EventFrame) a : Agent R :=
  MkAgent (a.(a_events) ++ [f]) a.(next_event_id) a.(a_exit_code) a.(line_framing)
    a.(network_configured) a.(outage_active) a.(a_runtime) a.(last_command_id).
Definition bump_next a : Agent R :=
  MkAgent a.(a_events) (add64 a.(next_event_id) 1) a.(a_exit_code) a.(line_framing)
    a.(network_configured) a.(outage_active) a.(a_runtime) a.(last_command_id).
Definition set_exit_code (code : Z) a : Agent R :=
  MkAgent a.(a_events) a.(next_event_id) code a.(line_framing)
    a.(network_configured) a.(outage_active) a.(a_runtime) a.(last_command_id).
Definition set_flags (configured outage : bool) a : Agent R :=
  MkAgent a.(a_events) a.(next_event_id) a.(a_exit_code) a.(line_framing)
    configured outage a.(a_runtime) a.(last_command_id).
Definition set_runtime (r : R) a : Agent R :=
  MkAgent a.(a_events) a.(next_event_id) a.(a_exit_code) a.(line_framing)
    a.(network_configured) a.(outage_active) (Some r) a.(last_command_id).
Definition set_last_command (id : Z) a : Agent R :=
  MkAgent a.(a_events) a.(next_event_id) a.(a_exit_code) a.(line_framing)
    a.(network_configured) a.(outage_active) a.(a_runtime) id.

Definition Agent_new (line_framing : bool) (runtime : option R) : Agent R :=
  MkAgent [] 1 0 line_framing false false runtime 0.
End assignments.

(** ** The serial input buffer *)

Record SerialBuffer := MkBuffer { sb_bytes : bytes; sb_scanned : Z }.
Definition SerialBuffer_default : SerialBuffer := MkBuffer [] 0.

Definition frame_too_large : io_error := frame_too_long InvalidData.

(** The line loop: complete lines are taken from the front of the buffer; the
    bytes before [scanned] are known to hold no newline.  Each turn that goes
    round takes at least one byte, so the length of the buffer is fuel enough. *)
Fixpoint serial_lines `{Serde CommandFrame} (fuel : nat) (b : SerialBuffer)
    (frames : list CommandFrame) : option (result (list CommandFrame * SerialBuffer)) :=
  match fuel with
  | O => None
  | S fuel =>
      match position (fun c => bool_decide (c = NEWLINE))
              (drop (Z.to_nat b.(sb_scanned)) b.(sb_bytes)) with
      | None => Some (Ok (frames, MkBuffer b.(sb_bytes) (zlen b.(sb_bytes))))
      | Some offset =>
          let index := (Z.to_nat b.(sb_scanned) + offset)%nat in
          let body := take index b.(sb_bytes) in
          let b := MkBuffer (drop (S index) b.(sb_bytes)) 0 in
          if is_empty body then serial_lines fuel b frames
          else if MAX_FRAME_LENGTH <? zlen body then Some (Err frame_too_large)
          else match from_slice body with
               | inr e => Some (Err (json_error "malformed command frame" e))
               | inl frame => serial_lines fuel b (frames ++ [frame])
               end
      end
  end.

(** What [read_serial_frames] does with the bytes of one read, after the
    acknowledgements. *)
Definition buffer_input `{Serde CommandFrame} (b : SerialBuffer) (data : bytes)
    : option (result (list CommandFrame * SerialBuffer)) :=
  let bytes := b.(sb_bytes) ++ data in
  match serial_lines (S (length bytes)) (MkBuffer bytes b.(sb_scanned)) [] with
  | Some (Ok (frames, b)) =>
      if MAX_FRAME_LENGTH <? zlen b.(sb_bytes) then Some (Err frame_too_large)
      else Some (Ok (frames, b))
  | r => r
  end.

(** ** Operations *)

Section agent.
Context {R Out W : Type} `{Write Out} `{Os W} `{Network W} `{RuntimeOps R W}
  `{Serde CommandFrame} `{Serde EventFrame}.
Notation A := (AgState R Out W).

Definition set_agent (f : Agent R -> Agent R) : M A unit :=
  modify (fun s => MkAg (f s.(ag)) s.(out) s.(agos)).
Definition ag_os {T} (m : M W T) : M A T := zoom agos (fun w s => MkAg s.(ag) s.(out) w) m.
Definition on_out (op : Out -> result unit * Out) : M A unit := fun s =>
  let '(r, o) := op s.(out) in Some (r, MkAg s.(ag) o s.(agos)).

(** An operation of the agent's runtime [r]. *)
Definition on_runtime {T} (r : R) (m : M (R * W) T) : M A T := fun s =>
  match m (r, s.(agos)) with
  | Some (res, (r, w)) => Some (res, MkAg (set_runtime r s.(ag)) s.(out) w)
  | None => None
  end.

Definition event_frame (a : Agent R) (command_id : Z) (e : Event) : EventFrame :=
  {| protocol_version := PROTOCOL_VERSION; event_id := a.(next_event_id);
     command_id := command_id; event := e; diagnostics := DiagnosticFields_default |}.

Definition emit (command_id : Z) (e : Event) : M A unit :=
  a ← gets ag;
  let frame := event_frame a command_id e in
  _ ← set_agent bump_next;
  _ ← on_out (fun o => if a.(line_framing) then write_line_frame o frame else write_frame o frame);
  if is_assertion_event e then set_agent (push_history frame) else mret tt.

Fixpoint emit_all (command_id : Z) (events : list Event) : M A unit :=
  match events with
  | [] => mret tt
  | e :: events => _ ← emit command_id e; emit_all command_id events
  end.

Definition require_network : M A unit :=
  a ← gets ag;
  if a.(network_configured) then mret tt else throw (invalid "network is not configured").

Definition require_runtime : M A R :=
  a ← gets ag;
  match a.(a_runtime) with
  | Some r => mret r
  | None => throw (IoError Unsupported "no workload runtime is configured")
  end.

Definition runtime_output_fds (a : Agent R) : list Fd :=
  match a.(a_runtime) with Some r => ops_output_fds r | None => [] end.

Definition service_runtime (rf : nat) : M A unit :=
  a ← gets ag;
  match a.(a_runtime) with
  | None => mret tt
  | Some r =>
      polled ← catch (on_runtime r (ops_poll rf 0));
      match polled with
      | Ok events => emit_all a.(last_command_id) events
      | Err error =>
          a ← gets ag;
          _ ← match a.(a_runtime) with
              | Some r => catch (on_runtime r (ops_shutdown rf))
              | None => mret (Ok [])
              end;
          throw error
      end
  end.

Definition shutdown_runtime (rf : nat) : M A unit :=
  a ← gets ag;
  events ← match a.(a_runtime) with
           | Some r => on_runtime r (ops_shutdown rf)
           | None => mret []
           end;
  emit_all a.(last_command_id) events.

(** One command; [false] when the agent should stop. *)
Definition dispatch (rf : nat) (command_id : Z) (c : Command) : M A bool :=
  match c with
  | ConfigureNetwork interface guest_cidr gateway =>
      _ ← lift (require_network_values interface guest_cidr gateway);
      a ← gets ag;
      _ ← fail_if a.(network_configured) (invalid "network is already configured");
      _ ← ag_os configure_network;
      _ ← set_agent (set_flags true a.(outage_active));
      _ ← emit command_id (NetworkConfigured interface guest_cidr gateway);
      mret true
  | ActivateOutage peer_cidr =>
      _ ← require_network;
      _ ← lift (require_peer peer_cidr);
      a ← gets ag;
      _ ← fail_if a.(outage_active) (invalid "outage is already active");
      _ ← ag_os (set_outage true);
      _ ← set_agent (set_flags a.(network_configured) true);
      _ ← emit command_id (OutageActivated peer_cidr OUTAGE_RULE);
      mret true
  | RestoreNetwork peer_cidr =>
      _ ← require_network;
      _ ← lift (require_peer peer_cidr);
      a ← gets ag;
      _ ← fail_if (negb a.(outage_active)) (invalid "outage is not active");
      _ ← ag_os (set_outage false);
      _ ← set_agent (set_flags a.(network_configured) false);
      _ ← emit command_id (NetworkRestored peer_cidr);
      mret true
  | Request request_id payload phase =>
      _ ← require_network;
      _ ← lift (validate_request request_id payload GATEWAY);
      _ ← emit command_id (RequestAttempted request_id payload phase);
      r ← ag_os (fixture_request request_id);
      _ ← emit command_id (request_outcome request_id payload phase r);
      mret true
  | Check outage_event_bound liveness_event_bound =>
      a ← gets ag;
      let report := evaluate a.(a_events) outage_event_bound liveness_event_bound in
      _ ← set_agent (set_exit_code (Z.max a.(a_exit_code) (exit_code report)));
      _ ← emit command_id (AssertionsEvaluated report);
      mret true
  | Start invocation launch =>
      a ← gets ag;
      events ← match a.(a_runtime) with
               | Some r => on_runtime r (ops_start rf invocation launch)
               | None => mret [LaunchFailed invocation NoRuntime "no workload runtime is configured"]
               end;
      _ ← emit_all command_id events;
      mret true
  | StdinWrite invocation offset data =>
      r ← require_runtime;
      events ← on_runtime r (ops_stdin_write rf invocation offset data);
      _ ← emit_all command_id events;
      mret true
  | StdinEof invocation =>
      r ← require_runtime;
      events ← on_runtime r (ops_stdin_eof rf invocation);
      _ ← emit_all command_id events;
      mret true
  | Terminate invocation =>
      r ← require_runtime;
      events ← on_runtime r (ops_terminate rf invocation);
      _ ← emit_all command_id events;
      mret true
  | Shutdown =>
      a ← gets ag;
      _ ← fail_if a.(outage_active) (invalid "cannot shut down while outage is active");
      _ ← shutdown_runtime rf;
      _ ← emit command_id AgentStopped;
      mret false
  end.

(** One frame of either loop: its version, its identifier, its command. *)
Definition handle (rf : nat) (frame : CommandFrame) : M A bool :=
  _ ← lift (require_version frame.(cmd_protocol_version));
  _ ← set_agent (set_last_command frame.(cmd_command_id));
  dispatch rf frame.(cmd_command_id) frame.(command).

(** ** The blocking control loop *)

Fixpoint command_loop (fuel rf : nat) (input : reader) : M A unit :=
  match fuel with
  | O => out_of_fuel
  | S fuel =>
      a ← gets ag;
      '(frame, input) ←
        ((fun s =>
           if a.(line_framing) then
             let '(r, input, o) := read_acknowledged_line_frame (T := CommandFrame) input s.(out) in
             Some (match r with Ok f => Ok (f, input) | Err e => Err e end,
                   MkAg s.(ag) o s.(agos))
           else
             let '(r, input) := read_frame (T := CommandFrame) input in
             Some (match r with Ok f => Ok (f, input) | Err e => Err e end, s))
         : M A (option CommandFrame * reader));
      match frame with
      | None => mret tt
      | Some frame =>
          continue ← handle rf frame;
          if continue : bool then command_loop fuel rf input else mret tt
      end
  end.

(** ** The serial control loop *)

(** One acknowledgement per byte. *)
Fixpoint acknowledge (data : bytes) : M A unit :=
  match data with
  | [] => mret tt
  | _ :: data => _ ← on_out (fun o => write_all o [SERIAL_ACK]); acknowledge data
  end.

Definition read_serial_frames (fd : Fd) (b : SerialBuffer)
    : M A (option (list CommandFrame) * SerialBuffer) :=
  r ← ag_os (call (sys_read fd 4096));
  match r with
  | inr e =>
      if is_kind Interrupted e || is_kind WouldBlock e then mret (Some [], b)
      else throw (raw_error e)
  | inl [] =>
      if is_empty b.(sb_bytes) then mret (None, b)
      else throw (IoError UnexpectedEof "the control channel closed inside a frame")
  | inl data =>
      _ ← acknowledge data;
      _ ← on_out flush;
      match buffer_input b data with
      | None => out_of_fuel
      | Some (Err e) => throw e
      | Some (Ok (frames, b)) => mret (Some frames, b)
      end
  end.

Fixpoint handle_all (rf : nat) (frames : list CommandFrame) : M A bool :=
  match frames with
  | [] => mret true
  | frame :: frames =>
      continue ← handle rf frame;
      if continue : bool then handle_all rf frames else mret false
  end.

Definition channel_closed_active : io_error :=
  IoError UnexpectedEof "the control channel closed while an invocation was active".

Fixpoint poll_loop (fuel rf : nat) (input_fd : Fd) (b : SerialBuffer) : M A unit :=
  match fuel with
  | O => out_of_fuel
  | S fuel =>
      _ ← service_runtime rf;
      a ← gets ag;
      let inputs := match a.(a_runtime) ≫= ops_input_fd with Some fd => [fd] | None => [] end in
      ready ← ag_os (call (sys_poll (input_fd :: runtime_output_fds a) inputs CONTROL_POLL));
      match ready with
      | inr e =>
          if is_kind Interrupted e then poll_loop fuel rf input_fd b else throw (raw_error e)
      | inl ready =>
          if negb (bool_decide (input_fd ∈ ready)) then poll_loop fuel rf input_fd b
          else
            '(frames, b) ← read_serial_frames input_fd b;
            match frames with
            | Some frames =>
                continue ← handle_all rf frames;
                if continue : bool then poll_loop fuel rf input_fd b else mret tt
            | None =>
                a ← gets ag;
                let active := match a.(a_runtime) with Some r => ops_is_active r | None => false end in
                _ ← shutdown_runtime rf;
                if active : bool then throw channel_closed_active else mret tt
            end
      end
  end.

(** The agent is dropped with its runtime when the loop returns. *)
Definition drop_agent (rf : nat) : M A unit :=
  a ← gets ag;
  match a.(a_runtime) with
  | Some r => on_runtime r (ops_drop rf)
  | None => mret tt
  end.

Definition run_serial_with_runtime (fuel rf : nat) (input_fd : Fd) : M A Z :=
  r ← catch (poll_loop fuel rf input_fd SerialBuffer_default);
  code ← gets (fun s => s.(ag).(a_exit_code));
  _ ← drop_agent rf;
  match r with Ok _ => mret code | Err e => throw e end.

Definition run_with_framing (fuel rf : nat) (input : reader) : M A Z :=
  r ← catch (command_loop fuel rf input);
  code ← gets (fun s => s.(ag).(a_exit_code));
  _ ← drop_agent rf;
  match r with Ok _ => mret code | Err e => throw e end.
End agent.

(** The guest's first frame ([guest.rs], [init]), written before the loop. *)
Definition ready_frame : EventFrame :=
  {| protocol_version := PROTOCOL_VERSION; event_id := 0; command_id := 0; event := AgentReady;
     diagnostics := DiagnosticFields_default |}.

(** [init] from the readiness frame to the end of the agent. *)
Definition guest_agent {R Out W} `{Write Out} `{Os W} `{Network W} `{RuntimeOps R W}
    `{Serde CommandFrame} `{Serde EventFrame} (fuel rf : nat) (input_fd : Fd) (runtime : option R)
    (o : Out) (w : W) : option (result Z * AgState R Out W) :=
  match write_line_frame o ready_frame with
  | (Err e, o) => Some (Err e, MkAg (Agent_new true runtime) o w)
  | (Ok _, o) => run_serial_with_runtime fuel rf input_fd (MkAg (Agent_new true runtime) o w)
  end.

(** The production entry point: a present template needs a valid runtime. *)
Definition run_serial {Out W} `{Write Out} `{Os W} `{Network W} `{DebugStr} `{Sha256}
    `{Serde CommandFrame} `{Serde EventFrame} (fuel rf : nat) (input_fd : Fd) (o : Out) (w : W)
    : option (result Z * (Out * W)) :=
  let '(present, w) := fs_exists (as_bytes "/workload") w in
  match (if present : bool then (runtime ← Runtime_new rf RuntimeConfig_guest; mret (Some runtime))
         else mret None) w with
  | None => None
  | Some (Err e, w) => Some (Err e, (o, w))
  | Some (Ok runtime, w) =>
      match run_serial_with_runtime fuel rf input_fd (MkAg (Agent_new true runtime) o w) with
      | None => None
      | Some (r, s) => Some (r, (s.(out), s.(agos)))
      end
  end.

(** [run]: length-prefixed frames and no runtime. *)
Definition run {Out W} `{Write Out} `{Os W} `{Network W} `{DebugStr} `{Sha256}
    `{Serde CommandFrame} `{Serde EventFrame} (fuel : nat) (input : reader) (o : Out) (w : W)
    : option (result Z * (Out * W)) :=
  match run_with_framing (R := Runtime) fuel fuel input (MkAg (Agent_new false None) o w) with
  | None => None
  | Some (r, s) => Some (r, (s.(out), s.(agos)))
  end.
