(* ===== verification/Serial.v ===== *)
(** The serial control channel of the guest agent: the incremental line buffer
    of [read_serial_frames] reassembles the command frames of a byte stream, one
    acknowledgement per byte, however the reads cut the stream and however often
    they are interrupted. *)

From stdpp Require Import ssreflect.
From Stdlib Require Import Strings.Byte.
From S2P Require Import Prelude Types Std Protocol Assertions Tree Spec Fixture Effects Os Agent.

(** ** The reference: split the whole stream at its newlines *)

Section reference.
Context `{Serde CommandFrame}.

Definition parse_line (body : bytes) : result (list CommandFrame) :=
  if is_empty body then Ok []
  else if MAX_FRAME_LENGTH <? zlen body then Err frame_too_large
  else match from_slice body with
       | inl frame => Ok [frame]
       | inr e => Err (json_error "malformed command frame" e)
       end.

Fixpoint parse_lines (lines : list bytes) : result (list CommandFrame) :=
  match lines with
  | [] => Ok []
  | body :: lines =>
      frame ← parse_line body;
      frames ← parse_lines lines;
      Ok (frame ++ frames)
  end.

(** The frames of a stream and its incomplete last line. *)
Definition stream_frames (data : bytes) : result (list CommandFrame * bytes) :=
  frames ← parse_lines (removelast (split_on NEWLINE data));
  let rest := List.last (split_on NEWLINE data) [] in
  if MAX_FRAME_LENGTH <? zlen rest then Err frame_too_large else Ok (frames, rest).

Lemma parse_lines_app l1 l2 :
  parse_lines (l1 ++ l2) = (fs1 ← parse_lines l1; fs2 ← parse_lines l2; Ok (fs1 ++ fs2)).
Proof.
  induction l1 as [|body l1 IH]; cbn [app parse_lines].
  - cbn. by destruct (parse_lines l2).
  - destruct (parse_line body) as [f|]; [|done]. cbn. rewrite IH. destruct (parse_lines l1); [|done].
    cbn. destruct (parse_lines l2); [|done]. cbn. by rewrite app_assoc.
Qed.
End reference.

(** The pieces before the last, and the last. *)
Lemma split_pieces data :
  split_on NEWLINE data
  = removelast (split_on NEWLINE data) ++ [List.last (split_on NEWLINE data) []].
Proof. apply app_removelast_last, split_on_ne. Qed.

Lemma split_last_no_newline data : NEWLINE ∉ List.last (split_on NEWLINE data) [].
Proof.
  pose proof (split_on_no_sep NEWLINE data) as H. rewrite split_pieces in H.
  by apply list.Forall_app in H as [_ [? _]%list.Forall_cons].
Qed.

(** More input continues the last piece. *)
Lemma split_on_more d c :
  split_on NEWLINE (d ++ c)
  = removelast (split_on NEWLINE d) ++ split_on NEWLINE (List.last (split_on NEWLINE d) [] ++ c).
Proof.
  induction d as [|b d IH]; [done|]. cbn [app split_on].
  pose proof (split_on_ne NEWLINE d) as Hne. destruct (split_on NEWLINE d) as [|p ps] eqn:Ed; [done|].
  case_bool_decide as Hb.
  - rewrite IH. by destruct ps.
  - rewrite IH. destruct ps as [|q ps]; cbn [removelast List.last app split_on].
    + cbn. by rewrite bool_decide_false.
    + done.
Qed.

Lemma split_on_prefix r c p ps :
  NEWLINE ∉ r -> split_on NEWLINE c = p :: ps -> split_on NEWLINE (r ++ c) = (r ++ p) :: ps.
Proof.
  intros Hr Ec. induction r as [|b r IH]; [done|]. cbn [app split_on].
  rewrite bool_decide_false; [|set_solver]. by rewrite IH; [|set_solver].
Qed.

Section buffer.
Context `{Serde CommandFrame}.

Lemma stream_frames_long r c :
  NEWLINE ∉ r -> MAX_FRAME_LENGTH < zlen r -> stream_frames (r ++ c) = Err frame_too_large.
Proof.
  intros Hr Hlong. unfold stream_frames.
  destruct (split_on NEWLINE c) as [|p ps] eqn:Ec; [by apply split_on_ne in Ec|].
  rewrite (split_on_prefix _ _ _ _ Hr Ec).
  assert (Hp : MAX_FRAME_LENGTH < zlen (r ++ p)) by (rewrite zlen_app; pose proof (zlen_nonneg p); lia).
  assert (Hne : is_empty (r ++ p) = false).
  { revert Hp. by destruct (r ++ p). }
  apply Z.ltb_lt in Hp. destruct ps as [|q ps].
  - cbn [removelast List.last parse_lines mbind result_bind]. by rewrite Hp.
  - change (removelast ((r ++ p) :: q :: ps)) with ((r ++ p) :: removelast (q :: ps)).
    cbn [parse_lines]. unfold parse_line. by rewrite Hne Hp.
Qed.

Lemma stream_frames_eq data :
  stream_frames data
  = (frames ← parse_lines (removelast (split_on NEWLINE data));
     if MAX_FRAME_LENGTH <? zlen (List.last (split_on NEWLINE data) []) then Err frame_too_large
     else Ok (frames, List.last (split_on NEWLINE data) [])).
Proof. done. Qed.

(** The stream can be cut anywhere. *)
Lemma stream_frames_app d c :
  stream_frames (d ++ c)
  = ('(fs, rest) ← stream_frames d;
     '(fs', rest') ← stream_frames (rest ++ c);
     Ok (fs ++ fs', rest')).
Proof.
  rewrite (stream_frames_eq (d ++ c)) (stream_frames_eq d) split_on_more.
  pose proof (split_last_no_newline d) as Hrest. set (rest := List.last (split_on NEWLINE d) []) in *.
  pose proof (split_on_ne NEWLINE (rest ++ c)) as Hne.
  rewrite removelast_app // parse_lines_app.
  assert (Hl : List.last (removelast (split_on NEWLINE d) ++ split_on NEWLINE (rest ++ c)) []
               = List.last (split_on NEWLINE (rest ++ c)) []).
  { destruct (exists_last Hne) as (l&x&->). by rewrite app_assoc !last_last. }
  rewrite Hl. destruct (parse_lines (removelast (split_on NEWLINE d))) as [fs|e]; [|done].
  cbn [mbind result_bind]. destruct (MAX_FRAME_LENGTH <? zlen rest) eqn:Elong; cbn [mbind result_bind].
  - apply Z.ltb_lt in Elong. pose proof (stream_frames_long rest c Hrest Elong) as Hs.
    unfold stream_frames in Hs. destruct (parse_lines (removelast (split_on NEWLINE (rest ++ c)))); [|exact Hs].
    cbn [mbind result_bind] in *. by destruct (MAX_FRAME_LENGTH <? _).
  - unfold stream_frames. destruct (parse_lines (removelast (split_on NEWLINE (rest ++ c)))); [|done].
    cbn [mbind result_bind]. by destruct (MAX_FRAME_LENGTH <? zlen (List.last (split_on NEWLINE (rest ++ c)) [])).
Qed.

(** ** The incremental buffer *)

(** The line loop finds every newline although it starts at [scanned], and the
    length of the buffer is fuel enough. *)
Lemma serial_lines_spec fuel b frames :
  (length b.(sb_bytes) < fuel)%nat -> NEWLINE ∉ take (Z.to_nat b.(sb_scanned)) b.(sb_bytes) ->
  serial_lines fuel b frames
  = Some (fs ← parse_lines (removelast (split_on NEWLINE b.(sb_bytes)));
          let rest := List.last (split_on NEWLINE b.(sb_bytes)) [] in
          Ok (frames ++ fs, MkBuffer rest (zlen rest))).
Proof.
  revert b frames. induction fuel as [|fuel IH]; intros [bs n] frames Hfuel Hn; [lia|].
  cbn [sb_bytes sb_scanned] in *. cbn [serial_lines sb_bytes sb_scanned].
  destruct (position _ (drop (Z.to_nat n) bs)) as [offset|] eqn:Ep.
  - apply position_Some in Ep as (l1&x&l2&Hd&Hlen&Hx&Hl1).
    apply bool_decide_eq_true in Hx as ->.
    assert (Hl : NEWLINE ∉ l1).
    { intros Hin. rewrite list.Forall_forall in Hl1. specialize (Hl1 _ Hin).
      by rewrite bool_decide_true in Hl1. }
    set (body := take (Z.to_nat n) bs ++ l1).
    assert (Hbs : bs = body ++ NEWLINE :: l2).
    { unfold body. by rewrite -app_assoc -Hd take_drop. }
    assert (Hidx : (Z.to_nat n + offset)%nat = length body).
    { unfold body. rewrite length_app length_take Hlen.
      assert (length (drop (Z.to_nat n) bs) <> 0)%nat by (rewrite Hd length_app; cbn; lia).
      rewrite length_drop in H0. lia. }
    assert (Hbody : NEWLINE ∉ body) by set_solver.
    rewrite Hidx Hbs. rewrite take_app_length drop_app_ge; [|lia].
    replace (S (length body) - length body)%nat with 1%nat by lia. cbn [drop].
    rewrite split_on_app //. pose proof (split_on_ne NEWLINE l2) as Hne.
    change (body :: split_on NEWLINE l2) with ([body] ++ split_on NEWLINE l2).
    rewrite removelast_app // parse_lines_app.
    replace (List.last ([body] ++ split_on NEWLINE l2) []) with (List.last (split_on NEWLINE l2) [])
      by (by destruct (exists_last Hne) as (l&y&->); rewrite app_assoc !last_last).
    assert (Hfuel' : (length l2 < fuel)%nat) by (rewrite Hbs length_app in Hfuel; cbn in Hfuel; lia).
    cbn [parse_lines]. unfold parse_line. destruct (is_empty body).
    { rewrite IH; [|done|cbn; set_solver]. cbn. by destruct (parse_lines (removelast _)). }
    destruct (MAX_FRAME_LENGTH <? zlen body); [done|].
    destruct (from_slice body) as [frame|e]; [|done].
    rewrite IH; [|done|cbn; set_solver]. cbn. destruct (parse_lines (removelast _)); [|done].
    cbn. by rewrite -app_assoc.
  - apply position_None in Ep.
    assert (Hbs : NEWLINE ∉ bs).
    { rewrite -(take_drop (Z.to_nat n) bs). intros [Hin|Hin]%elem_of_app; [done|].
      rewrite list.Forall_forall in Ep. specialize (Ep _ Hin). by rewrite bool_decide_true in Ep. }
    rewrite split_on_piece //. cbn. by rewrite app_nil_r.
Qed.

Lemma buffer_input_spec rest data :
  NEWLINE ∉ rest ->
  buffer_input (MkBuffer rest (zlen rest)) data
  = Some ('(fs, rest) ← stream_frames (rest ++ data); Ok (fs, MkBuffer rest (zlen rest))).
Proof.
  intros Hrest. unfold buffer_input. cbn [sb_bytes sb_scanned].
  rewrite serial_lines_spec; cbn [sb_bytes sb_scanned].
  - unfold stream_frames. destruct (parse_lines _) as [fs|e]; [|done]. cbn [mbind result_bind app].
    cbn [sb_bytes]. by destruct (MAX_FRAME_LENGTH <? _).
  - lia.
  - unfold zlen. rewrite Nat2Z.id take_app_length. done.
Qed.

Lemma stream_frames_rest data fs rest :
  stream_frames data = Ok (fs, rest) -> NEWLINE ∉ rest /\ zlen rest <= MAX_FRAME_LENGTH.
Proof.
  rewrite stream_frames_eq. destruct (parse_lines _); [|done]. cbn [mbind result_bind].
  destruct (_ <? _) eqn:E; [done|]. apply Z.ltb_ge in E. intros [= _ <-].
  split; [apply split_last_no_newline|done].
Qed.
End buffer.

(** ** Reads *)

Section reads.
Context {R W : Type} `{Os W} `{Serde CommandFrame}.
Notation A := (AgState R bytes W).

(** The next [n] reads of the channel deliver [data]: a read gives a piece of
    it, or is interrupted or finds nothing to read. *)
Inductive arrives (fd : Fd) : nat -> W -> bytes -> W -> Prop :=
  | arrives_done w : arrives fd 0 w [] w
  | arrives_piece n w piece w1 data w2 :
      sys_read fd 4096 w = (inl piece, w1) -> piece <> [] -> arrives fd n w1 data w2 ->
      arrives fd (S n) w (piece ++ data) w2
  | arrives_later n w e w1 data w2 :
      sys_read fd 4096 w = (inr e, w1) -> is_kind Interrupted e || is_kind WouldBlock e = true ->
      arrives fd n w1 data w2 -> arrives fd (S n) w data w2.

(** [n] reads of the control loop and the frames they complete; the channel is
    not at its end. *)
Fixpoint read_frames (n : nat) (fd : Fd) (b : SerialBuffer)
    : M A (list CommandFrame * SerialBuffer) :=
  match n with
  | O => mret ([], b)
  | S n =>
      '(frames, b) ← read_serial_frames fd b;
      '(rest, b) ← read_frames n fd b;
      mret (default [] frames ++ rest, b)
  end.

Lemma acknowledge_vec data (s : A) :
  acknowledge data s
  = Some (Ok tt, MkAg s.(ag) (s.(out) ++ repeat SERIAL_ACK (length data)) s.(agos)).
Proof.
  revert s. induction data as [|b data IH]; intros [a o w]; cbn [acknowledge length repeat].
  - cbn. by rewrite app_nil_r.
  - cbv [mbind M_bind on_out write_all Write_vec]. cbn [ag out agos]. rewrite IH. cbn [ag out agos].
    by rewrite -app_assoc.
Qed.

Lemma read_serial_frames_piece fd rest piece (s : A) w1 :
  NEWLINE ∉ rest -> sys_read fd 4096 s.(agos) = (inl piece, w1) -> piece <> [] ->
  read_serial_frames fd (MkBuffer rest (zlen rest)) s
  = Some ('(fs, rest) ← stream_frames (rest ++ piece); Ok (Some fs, MkBuffer rest (zlen rest)),
          MkAg s.(ag) (s.(out) ++ repeat SERIAL_ACK (length piece)) w1).
Proof.
  intros Hrest Hread Hpiece. unfold read_serial_frames.
  cbv [mbind M_bind ag_os zoom call]. rewrite Hread. destruct piece as [|b piece]; [done|].
  rewrite acknowledge_vec. cbv [on_out flush Write_vec]. cbn [ag out agos].
  rewrite buffer_input_spec //. by destruct (stream_frames _) as [[fs r]|e].
Qed.

Lemma read_frames_spec fd n w data w' :
  arrives fd n w data w' -> forall rest a o, NEWLINE ∉ rest ->
  match stream_frames (rest ++ data) with
  | Ok (fs, rest') =>
      zlen rest <= MAX_FRAME_LENGTH ->
      read_frames n fd (MkBuffer rest (zlen rest)) (MkAg a o w)
      = Some (Ok (fs, MkBuffer rest' (zlen rest')),
              MkAg a (o ++ repeat SERIAL_ACK (length data)) w')
  | Err e =>
      zlen rest <= MAX_FRAME_LENGTH ->
      exists s', read_frames n fd (MkBuffer rest (zlen rest)) (MkAg a o w) = Some (Err e, s')
  end.
Proof.
  induction 1 as [w|n w piece w1 data w2 Hread Hpiece _ IH|n w e w1 data w2 Hread He _ IH];
    intros rest a o Hrest.
  - rewrite app_nil_r stream_frames_eq split_on_piece //. cbn.
    destruct (MAX_FRAME_LENGTH <? zlen rest) eqn:E; [apply Z.ltb_lt in E; lia|].
    intros _. by rewrite app_nil_r.
  - rewrite app_assoc stream_frames_app. cbn [read_frames].
    cbv [mbind M_bind]. rewrite (read_serial_frames_piece fd rest piece (MkAg a o w) w1) //.
    cbn [ag out agos]. destruct (stream_frames (rest ++ piece)) as [[fs r]|e] eqn:Es; cbv [mbind result_bind]; [|by intros _; eexists].
    destruct (stream_frames_rest _ _ _ Es) as [Hr Hlen].
    specialize (IH r a (o ++ repeat SERIAL_ACK (length piece)) Hr).
    destruct (stream_frames (r ++ data)) as [[fs' r']|e].
    + intros _. rewrite IH //. cbn [default]. by rewrite length_app repeat_app app_assoc.
    + intros _. destruct IH as [s' ->]; [done|]. by exists s'.
  - cbn [read_frames]. cbv [mbind M_bind]. unfold read_serial_frames.
    cbv [mbind M_bind ag_os zoom call]. cbn [agos]. rewrite Hread He. cbn [ag out agos].
    cbv [mret M_ret]. specialize (IH rest a o Hrest).
    destruct (stream_frames (rest ++ data)) as [[fs r]|e'].
    + intros Hl. by rewrite IH.
    + intros Hl. destruct IH as [s' ->]; [done|]. by exists s'.
Qed.
End reads.

(** The control channel is reassembled independently of how it arrives.
    Whenever the next reads deliver a byte stream, in pieces of any size and with
    any interruptions, the agent obtains exactly the frames of the whole stream
    split at its newlines (or its first error), keeps exactly the incomplete last
    line, and answers one acknowledgement byte for each byte received.  The
    buffer's record of the bytes already scanned never hides a newline. *)
Theorem serial_reassembly {R W} `{Os W} `{Serde CommandFrame} fd n (w : W) data w'
    (a : Agent R) (o : bytes) :
  arrives fd n w data w' ->
  match stream_frames data with
  | Ok (fs, rest) =>
      read_frames n fd SerialBuffer_default (MkAg a o w)
      = Some (Ok (fs, MkBuffer rest (zlen rest)),
              MkAg a (o ++ repeat SERIAL_ACK (length data)) w')
  | Err e => exists s', read_frames n fd SerialBuffer_default (MkAg a o w) = Some (Err e, s')
  end.
Proof.
  intros Ha. pose proof (read_frames_spec fd n w data w' Ha [] a o ltac:(set_solver)) as Hs.
  cbn [app] in Hs. destruct (stream_frames data) as [[fs rest]|e]; by apply Hs.
Qed.

(** ** Round trip *)

(** What the host writes for a list of commands. *)
Fixpoint write_commands `{Serde CommandFrame} (o : bytes) (cmds : list CommandFrame)
    : result unit * bytes :=
  match cmds with
  | [] => (Ok tt, o)
  | c :: cmds =>
      match write_line_frame o c with
      | (Ok _, o) => write_commands o cmds
      | (Err e, o) => (Err e, o)
      end
  end.

Lemma stream_frames_line `{SerdeLaws CommandFrame all_readable} c body l :
  from_slice [] <> inl c -> to_vec c = inl body -> zlen body <= MAX_FRAME_LENGTH ->
  stream_frames (body ++ NEWLINE :: l)
  = ('(fs, rest) ← stream_frames l; Ok (c :: fs, rest)).
Proof.
  intros Hc Hbody Hlen. rewrite !stream_frames_eq.
  rewrite split_on_app; [|by eapply to_vec_one_line]. pose proof (split_on_ne NEWLINE l) as Hne.
  change (body :: split_on NEWLINE l) with ([body] ++ split_on NEWLINE l).
  rewrite removelast_app // parse_lines_app.
  replace (List.last ([body] ++ split_on NEWLINE l) []) with (List.last (split_on NEWLINE l) [])
    by (by destruct (exists_last Hne) as (x&y&->); rewrite app_assoc !last_last).
  pose proof (from_to_vec c body I Hbody) as Hparse. cbn [parse_lines]. unfold parse_line.
  destruct body as [|b body]; [by rewrite Hparse in Hc|]. cbn [is_empty].
  destruct (MAX_FRAME_LENGTH <? zlen (b :: body)) eqn:E; [apply Z.ltb_lt in E; lia|].
  rewrite Hparse. cbn [mbind result_bind app]. destruct (parse_lines _); [|done].
  cbn [mbind result_bind]. by destruct (MAX_FRAME_LENGTH <? zlen (List.last (split_on NEWLINE l) [])).
Qed.

Lemma write_commands_stream `{SerdeLaws CommandFrame all_readable} cmds (o o' : bytes) :
  (forall c, from_slice [] <> inl c) -> write_commands o cmds = (Ok tt, o') ->
  exists data, o' = o ++ data /\ stream_frames data = Ok (cmds, []).
Proof.
  intros Hnil. revert o. induction cmds as [|c cmds IH]; intros o; cbn [write_commands].
  { intros [= <-]. exists []. by rewrite app_nil_r. }
  rewrite write_line_frame_vec. destruct (to_vec c) as [body|m] eqn:Eb; [|done].
  destruct (MAX_FRAME_LENGTH <? zlen body) eqn:El; [done|]. apply Z.ltb_ge in El.
  intros E. destruct (IH _ E) as (data&->&Hd). exists (body ++ NEWLINE :: data).
  split; [by rewrite -!app_assoc|]. by rewrite (stream_frames_line c body) // Hd.
Qed.

(** Commands survive the serial channel: what the host's line writer puts on
    it for a list of commands is read by the agent's control loop as exactly that
    list, in order and with nothing left over, however the bytes are cut into
    reads, and every byte is acknowledged. *)
Theorem serial_roundtrip {R W} `{Os W} `{SerdeLaws CommandFrame all_readable} fd n (w : W) cmds data w'
    (a : Agent R) (o : bytes) :
  (forall c : CommandFrame, from_slice [] <> inl c) ->
  write_commands [] cmds = (Ok tt, data) -> arrives fd n w data w' ->
  read_frames n fd SerialBuffer_default (MkAg a o w)
  = Some (Ok (cmds, SerialBuffer_default),
          MkAg a (o ++ repeat SERIAL_ACK (length data)) w').
Proof.
  intros Hnil Hw Ha. destruct (write_commands_stream cmds [] data Hnil Hw) as (d&->&Hd).
  cbn [app] in *. pose proof (read_frames_spec fd n w d w' Ha [] a o ltac:(set_solver)) as Hs.
  cbn [app] in Hs. rewrite Hd in Hs. by apply Hs.
Qed.

(** ** Witnesses *)

(** A codec of two commands. *)
Definition shutdown_frame : CommandFrame :=
  {| cmd_protocol_version := 1; cmd_command_id := 7; command := Shutdown |}.
Definition eof_frame : CommandFrame :=
  {| cmd_protocol_version := 1; cmd_command_id := 6; command := StdinEof 1 |}.

#[export] Instance command_serde : Serde CommandFrame := {|
  to_vec c := if bool_decide (c = shutdown_frame) then inl ["s"%byte]
              else if bool_decide (c = eof_frame) then inl ["e"%byte; "f"%byte]
              else inr "unsupported"%string;
  from_slice l := if bool_decide (l = ["s"%byte]) then inl shutdown_frame
                  else if bool_decide (l = ["e"%byte; "f"%byte]) then inl eof_frame
                  else inr {| classify := CatSyntax; line := 1; column := 1 |} |}.

#[export] Instance command_serde_laws : SerdeLaws CommandFrame all_readable.
Proof.
  constructor; [intros v body _|intros v body]; cbn [to_vec command_serde]; repeat case_bool_decide; intros [= <-];
    subst; try done; set_solver.
Qed.

(** The two lines in three reads and an interruption. *)
Definition chunked_os : ScriptOs :=
  MkScriptOs [(3, inl ["e"%byte]); (3, inr (Raw (IoError Interrupted "") (Some 4)));
              (3, inl ["f"%byte; NEWLINE; "s"%byte]); (3, inl [NEWLINE])]
    [] [] 10 0 (fun _ => inr would_block) 0 [] [].
Definition chunked_data : bytes := ["e"%byte; "f"%byte; NEWLINE; "s"%byte; NEWLINE].

Definition chunked_after (k : nat) : ScriptOs :=
  MkScriptOs (drop k chunked_os.(so_reads)) [] [] 10 0 (fun _ => inr would_block) 0 [] [].

Lemma chunked_arrives : arrives 3 4 chunked_os chunked_data (chunked_after 4).
Proof.
  apply (arrives_piece 3 3 _ ["e"%byte] (chunked_after 1) ["f"%byte; NEWLINE; "s"%byte; NEWLINE]);
    [reflexivity|done|].
  eapply (arrives_later 3 2 _ _ (chunked_after 2)); [reflexivity|done|].
  apply (arrives_piece 3 1 _ ["f"%byte; NEWLINE; "s"%byte] (chunked_after 3) [NEWLINE]);
    [reflexivity|done|].
  apply (arrives_piece 3 0 _ [NEWLINE] (chunked_after 4) []); [reflexivity|done|]. constructor.
Qed.

Lemma serial_reassembly_witness : exists s',
  read_frames 4 3 SerialBuffer_default (MkAg (Agent_new (R := unit) true None) [] chunked_os)
  = Some (Ok ([eof_frame; shutdown_frame], SerialBuffer_default), s').
Proof.
  eexists. exact (serial_reassembly 3 4 chunked_os chunked_data _ (Agent_new true None) []
    chunked_arrives).
Defined.

Lemma serial_roundtrip_witness : exists s',
  write_commands [] [eof_frame; shutdown_frame] = (Ok tt, chunked_data) /\
  read_frames 4 3 SerialBuffer_default (MkAg (Agent_new (R := unit) true None) [] chunked_os)
  = Some (Ok ([eof_frame; shutdown_frame], SerialBuffer_default), s').
Proof.
  eexists. split; [vm_compute; reflexivity|].
  refine (serial_roundtrip 3 4 chunked_os [eof_frame; shutdown_frame] chunked_data _
    (Agent_new true None) [] _ _ chunked_arrives); [|vm_compute; reflexivity].
  intros c [= E].
Defined.
