(* ===== verification/AgentStream.v ===== *)
(** What the guest agent puts on the control channel, over a whole run and on any
    system: the contract a process runtime owes the agent ([RuntimeLaws],
    discharged by the Linux runtime through the refinement of [Lifecycle] and by
    the placeholder runtime), and the invariant that every handler and both
    control loops keep. *)

From stdpp Require Import ssreflect.
From Stdlib Require Import Strings.Byte.
From S2P Require Import Prelude Types Std Protocol Assertions Tree Spec Fixture Effects Driver Os.
From S2P Require Import Runtime Launch RuntimeApi Lifecycle Agent Serial.

(** ** The contract of a runtime *)

(** An operation moves the lifecycle machine along the events it returns. *)
Definition obeys {R W} `{Sha256} (lim : RuntimeLimits) (rt_at : Machine -> R -> Prop)
    (op : M (R * W) (list Event)) (P : Machine -> Prop) : Prop :=
  forall m, triple (fun p => rt_at m p.1) op
    (fun es p => exists m', lsteps lim m es m' /\ rt_at m' p.1 /\ P m') (fun _ _ => True).

Class RuntimeLaws (R W : Type) `{RuntimeOps R W} `{Sha256} (lim : RuntimeLimits) := {
  rt_at : Machine -> R -> Prop;
  law_start fuel invocation launch :
    obeys lim rt_at (ops_start (W := W) fuel invocation launch) (fun _ => True);
  law_stdin_write fuel invocation offset data :
    obeys lim rt_at (ops_stdin_write (W := W) fuel invocation offset data) (fun _ => True);
  law_stdin_eof fuel invocation :
    obeys lim rt_at (ops_stdin_eof (W := W) fuel invocation) (fun _ => True);
  law_terminate fuel invocation :
    obeys lim rt_at (ops_terminate (W := W) fuel invocation) (fun _ => True);
  law_poll fuel timeout : obeys lim rt_at (ops_poll (W := W) fuel timeout) (fun _ => True);
  (** after a shutdown no invocation is live *)
  law_shutdown fuel : obeys lim rt_at (ops_shutdown (W := W) fuel) (fun m => m.2 = Idle);
}.

Lemma obeys_paired {W} `{Os W} `{Sha256} (c : RuntimeConfig) op P :
  (forall m, triple (at_machine c m) op
     (fun es (s : RtState W) => exists m', lsteps c.(limits) m es m' /\ at_machine c m' s /\ P m')
     (fun _ _ => True)) ->
  obeys c.(limits) (fun m r => sim c.(limits) m r /\ r.(config) = c) (paired op) P.
Proof.
  intros Hop m [r w] Hr. specialize (Hop m (MkRt r w) Hr). unfold paired, zoom.
  destruct (op (MkRt r w)) as [[[es|e] s]|]; [|done..].
  destruct Hop as (m'&Hes&Hs&Hp). by exists m'.
Qed.

(** The Linux runtime, on any system that keeps the bounds of its calls. *)
#[export] Program Instance linux_laws {W} `{OsLaws W} `{DebugStr} `{Sha256} (c : RuntimeConfig)
    (Hlim : limits_ok c.(limits)) : RuntimeLaws Runtime W c.(limits) := {|
  rt_at m r := sim c.(limits) m r /\ r.(config) = c |}.
Next Obligation.
  intros. apply obeys_paired. intros m. eapply triple_consequence; [by apply triple_start|done| |done].
  intros es s (m'&?&?). by exists m'.
Qed.
Next Obligation.
  intros. apply obeys_paired. intros m.
  eapply triple_consequence; [by apply triple_stdin_write|done| |done].
  intros es s (m'&?&?). by exists m'.
Qed.
Next Obligation.
  intros. apply obeys_paired. intros m. eapply triple_consequence; [by apply triple_stdin_eof|done| |done].
  intros es s (m'&?&?). by exists m'.
Qed.
Next Obligation.
  intros. apply obeys_paired. intros m. eapply triple_consequence; [by apply triple_terminate|done| |done].
  intros es s (m'&?&?). by exists m'.
Qed.
Next Obligation.
  intros. apply obeys_paired. intros m. eapply triple_consequence; [by apply triple_poll|done| |done].
  intros es s (m'&?&?). by exists m'.
Qed.
Next Obligation.
  intros. apply obeys_paired. intros m. eapply triple_consequence; [by apply triple_shutdown|done| |done].
  intros es s (m'&?&[[Hl Ha] Hc]&Hn). exists m'. rewrite Hn in Ha. split_and!; try done.
  split; [|done]. split; [done|by rewrite Hn].
Qed.

(** The placeholder runtime: it never has an invocation. *)
#[export] Program Instance stub_laws {W} `{Sha256} (lim : RuntimeLimits) :
    RuntimeLaws Stub.StubRuntime W lim := {|
  rt_at m _ := m.2 = Idle |}.
Next Obligation.
  intros W ? lim fuel inv launch [last p] s Hs. cbn in *. exists (last, p). split_and!; [|done|done].
  apply lsteps_one. constructor.
Qed.
Next Obligation. by intros. Qed.
Next Obligation. by intros. Qed.
Next Obligation. by intros. Qed.
Next Obligation. by intros. Qed.
Next Obligation. by intros. Qed.

(** ** The control channel *)

(** What a writer has put on the wire: a call appends its bytes, or part of them
    when it fails. *)
Class WriteLog (Out : Type) `{Write Out} := {
  wire : Out -> bytes;
  wire_write_all o bs r o' : write_all o bs = (r, o') ->
    exists p, wire o' = wire o ++ p /\ (r = Ok tt -> p = bs);
  wire_flush o r o' : flush o = (r, o') -> wire o' = wire o;
}.

#[export] Program Instance vec_log : WriteLog bytes := {| wire o := o |}.
Next Obligation. intros o bs r o' [= <- <-]. by exists bs. Qed.
Next Obligation. by intros o r o' [= <- <-]. Qed.

Section stream.
Context `{Serde EventFrame} (lf : bool).

Definition encoded (f : EventFrame) (enc : bytes) : Prop := exists body,
  to_vec f = inl body /\ zlen body <= MAX_FRAME_LENGTH /\
  enc = if lf then body ++ [NEWLINE] else be_bytes 4 (zlen body mod 2 ^ 32) ++ body.

(** A wire that held [start] and then exactly the frames [fs], with
    acknowledgements between them. *)
Inductive wire_of (start : bytes) : list EventFrame -> bytes -> Prop :=
  | wire_nil : wire_of start [] start
  | wire_ack fs b : wire_of start fs b -> wire_of start fs (b ++ [SERIAL_ACK])
  | wire_frame fs b f enc :
      wire_of start fs b -> encoded f enc -> wire_of start (fs ++ [f]) (b ++ enc).

Lemma wire_of_start start fs b : wire_of start fs b -> exists b', b = start ++ b' /\ wire_of [] fs b'.
Proof.
  induction 1 as [|fs b _ (b'&->&IH)|fs b f enc _ (b'&->&IH) He].
  - exists []. split; [by rewrite app_nil_r|constructor].
  - exists (b' ++ [SERIAL_ACK]). split; [by rewrite app_assoc|by constructor].
  - exists (b' ++ enc). split; [by rewrite app_assoc|by constructor].
Qed.

Lemma write_framed {Out} `{WriteLog Out} f (o o' : Out) r :
  (if lf then write_line_frame o f else write_frame o f) = (r, o') ->
  exists p, wire o' = wire o ++ p /\ (r = Ok tt -> encoded f p).
Proof.
  assert (Hparts : forall first second (o o' : Out) r,
    match write_all o first with
    | (Err e, o) => (Err e, o)
    | (Ok _, o) => match write_all o second with (Err e, o) => (Err e, o) | (Ok _, o) => flush o end
    end = (r, o') -> exists p, wire o' = wire o ++ p /\ (r = Ok tt -> p = first ++ second)).
  { intros first second o1 o2 r1. destruct (write_all o1 first) as [[[]|e] oa] eqn:E1.
    - destruct (wire_write_all _ _ _ _ E1) as (p1&Hp1&Hok1).
      destruct (write_all oa second) as [[[]|e] ob] eqn:E2.
      + destruct (wire_write_all _ _ _ _ E2) as (p2&Hp2&Hok2). intros E3.
        apply wire_flush in E3. exists (p1 ++ p2). rewrite E3 Hp2 Hp1 app_assoc.
        split; [done|]. intros _. by rewrite Hok1 // Hok2.
      + destruct (wire_write_all _ _ _ _ E2) as (p2&Hp2&Hok2). intros [= <- <-].
        exists (p1 ++ p2). by rewrite Hp2 Hp1 app_assoc.
    - destruct (wire_write_all _ _ _ _ E1) as (p1&Hp1&_). intros [= <- <-]. by exists p1. }
  unfold write_line_frame, write_frame, encoded. intros E.
  destruct (to_vec f) as [body|e]; cycle 1.
  { exists []. destruct lf; simplify_eq; by rewrite app_nil_r. }
  destruct (MAX_FRAME_LENGTH <? zlen body) eqn:El.
  { exists []. destruct lf; simplify_eq; by rewrite app_nil_r. }
  apply Z.ltb_ge in El. destruct lf; apply Hparts in E as (p&Hp&Hr); exists p; (split; [done|]);
    intros Hok; exists body; split_and!; auto.
Qed.
End stream.

(** ** What the stream says *)

Definition is_process_event (e : Event) : bool :=
  match e with
  | WorkloadStarted _ _ | InputAccepted _ _ _ _ | TerminationRequested _ _
  | WorkloadOutput _ _ _ _ _ | WorkloadExited _ _ _ _ _ _ _ | LaunchFailed _ _ _
  | CleanupComplete _ _ => true
  | _ => false
  end.
Definition process (fs : list EventFrame) : list Event :=
  List.filter is_process_event (map event fs).

(** The network as the stream reports it: whether it is configured and whether
    the outage is active.  A stream that breaks the discipline has no state. *)
Definition net_step (net : option (bool * bool)) (e : Event) : option (bool * bool) :=
  '(configured, outage) ← net;
  match e with
  | NetworkConfigured i g w =>
      if negb configured && bool_decide ((i, g, w) = (INTERFACE, GUEST_CIDR, GATEWAY))
      then Some (true, outage) else None
  | OutageActivated p rule =>
      if configured && negb outage && bool_decide ((p, rule) = (PEER_CIDR, OUTAGE_RULE))
      then Some (true, true) else None
  | NetworkRestored p =>
      if configured && outage && bool_decide (p = PEER_CIDR) then Some (true, false) else None
  | RequestAttempted _ _ _ | RequestSucceeded _ _ _ _ _ | RequestUnavailable _ _ _ _ =>
      if configured : bool then Some (configured, outage) else None
  | AgentStopped => if outage : bool then None else Some (configured, outage)
  | _ => Some (configured, outage)
  end.
Definition net_of (fs : list EventFrame) : option (bool * bool) :=
  foldl net_step (Some (false, false)) (map event fs).

(** The greatest exit code of the reports. *)
Definition worst_step (code : Z) (e : Event) : Z :=
  match e with AssertionsEvaluated r => Z.max code (exit_code r) | _ => code end.
Definition worst (fs : list EventFrame) : Z := foldl worst_step 0 (map event fs).

(** Consecutive identifiers, the protocol version, no diagnostics. *)
Definition numbered (fs : list EventFrame) : Prop := forall k f, fs !! k = Some f ->
  f.(protocol_version) = PROTOCOL_VERSION /\ f.(event_id) = nth_id k /\
  f.(diagnostics) = DiagnosticFields_default.

(** Every report is the evaluation of the frames before it. *)
Definition reports (fs : list EventFrame) : Prop := forall k f r, fs !! k = Some f ->
  f.(event) = AssertionsEvaluated r -> exists outage_bound recovery_bound,
    r = evaluate (take k fs) outage_bound recovery_bound.

Definition no_stop (fs : list EventFrame) : Prop := Forall (fun f => f.(event) <> AgentStopped) fs.

Lemma filter_idempotent {T} (p : T -> bool) l : List.filter p (List.filter p l) = List.filter p l.
Proof.
  induction l as [|x l IH]; [done|]. cbn. destruct (p x) eqn:E; [|done]. cbn. by rewrite E IH.
Qed.
Lemma map_event_snoc fs f : map event (fs ++ [f]) = map event fs ++ [f.(event)].
Proof. by rewrite map_app. Qed.
Lemma process_snoc fs f :
  process (fs ++ [f])
  = process fs ++ (if is_process_event f.(event) then [f.(event)] else []).
Proof.
  unfold process. rewrite map_event_snoc List.filter_app. cbn. by destruct (is_process_event _).
Qed.
Lemma process_app fs fs' : process (fs ++ fs') = process fs ++ process fs'.
Proof. unfold process. by rewrite map_app List.filter_app. Qed.
Lemma process_all fs :
  Forall (fun e => is_process_event e = true) (map event fs) -> process fs = map event fs.
Proof.
  unfold process. induction (map event fs) as [|e es IH]; [done|]. intros [He Hes]%list.Forall_cons.
  cbn. by rewrite He IH.
Qed.
Lemma net_of_snoc fs f : net_of (fs ++ [f]) = net_step (net_of fs) f.(event).
Proof. unfold net_of. by rewrite map_event_snoc foldl_app. Qed.
Lemma worst_snoc fs f : worst (fs ++ [f]) = worst_step (worst fs) f.(event).
Proof. unfold worst. by rewrite map_event_snoc foldl_app. Qed.
Lemma numbered_frame_snoc fs f :
  numbered fs -> f.(protocol_version) = PROTOCOL_VERSION -> f.(event_id) = nth_id (length fs) ->
  f.(diagnostics) = DiagnosticFields_default -> numbered (fs ++ [f]).
Proof.
  intros Hn ?? ? k g [Hk|[Hk Hg]]%lookup_app_Some; [by apply Hn|].
  destruct (k - length fs)%nat as [|?] eqn:E; [|done]. cbn in Hg. simplify_eq.
  by replace k with (length fs) by lia.
Qed.
Lemma reports_snoc fs f :
  reports fs ->
  (forall r, f.(event) = AssertionsEvaluated r -> exists ob lb, r = evaluate fs ob lb) ->
  reports (fs ++ [f]).
Proof.
  intros Hr Hf k g r [Hk|[Hk Hg]]%lookup_app_Some He.
  - rewrite take_app_le; [by eapply Hr|]. apply lookup_lt_Some in Hk. lia.
  - destruct (k - length fs)%nat as [|?] eqn:E; [|done]. cbn in Hg. simplify_eq.
    replace k with (length fs) by lia. rewrite take_app_length. by apply Hf.
Qed.
Lemma process_event_net net e : is_process_event e = true -> net_step net e = net.
Proof. by destruct e, net as [[? ?]|]. Qed.
Lemma process_event_worst code e : is_process_event e = true -> worst_step code e = code.
Proof. by destruct e. Qed.

Lemma lsteps_process `{Sha256} lim m es m' : lsteps lim m es m' -> Forall (fun e => is_process_event e = true) es.
Proof.
  induction 1 as [|m es m1 e m2 _ IH Hs]; [constructor|]. apply list.Forall_app. split; [done|].
  constructor; [by inversion Hs|constructor].
Qed.
Lemma lsteps_split `{Sha256} lim m es1 es2 m' :
  lsteps lim m (es1 ++ es2) m' -> exists m1, lsteps lim m es1 m1 /\ lsteps lim m1 es2 m'.
Proof.
  revert m'. induction es2 as [|e es2 IH] using rev_ind; intros m' Hs.
  { rewrite app_nil_r in Hs. exists m'. split; [done|constructor]. }
  rewrite app_assoc in Hs. inversion Hs as [|m0 es m1 e' m2 Hs1 Hs2 E1 E2].
  { by destruct (es1 ++ es2). }
  apply app_inj_tail in E2 as [-> ->]. destruct (IH _ Hs1) as (ma&?&?).
  exists ma. split; [done|]. by econstructor.
Qed.

(** ** The invariant *)

#[local] Set Default Proof Using "All".
Section invariant.
Context {R Out W : Type} `{WriteLog Out} `{Os W} `{Network W}.
Context `{Sha256} (lim : RuntimeLimits) `{!RuntimeOps R W} `{!RuntimeLaws R W lim}.
Context `{Serde CommandFrame} `{Serde EventFrame} (lf : bool) (start : bytes).
Notation A := (AgState R Out W).

(** What holds of the wire even after a failure: whole frames and perhaps part
    of one more. *)
Definition sound (fs : list EventFrame) : Prop :=
  numbered fs /\ reports fs /\ (exists net, net_of fs = Some net) /\
  exists m, lsteps lim (None, Idle) (process fs) m.
Definition failed (s : A) : Prop := exists fs b p,
  wire s.(out) = b ++ p /\ wire_of lf start fs b /\ sound fs.

Definition rt_ok (m : Machine) (r : option R) : Prop :=
  match r with Some r => rt_at (R := R) (W := W) m r | None => m.2 = Idle end.

(** The agent's record describes the frames written so far. *)
Record tracks (fs : list EventFrame) (a : Agent R) : Prop := {
  tr_framing : a.(line_framing) = lf;
  tr_next : a.(next_event_id) = nth_id (length fs);
  tr_history : a.(a_events) = List.filter (fun f => is_assertion_event f.(event)) fs;
}.

(** The frames [fs] are on the wire and [e] may follow them; the process events
    [pending] will follow as well. *)
Record ready_for (fs : list EventFrame) (e : Event) (pending : list Event) (s : A) : Prop := {
  rf_wire : wire_of lf start fs (wire s.(out));
  rf_tracks : tracks fs s.(ag);
  rf_sound : sound fs;
  rf_report : forall r, e = AssertionsEvaluated r -> exists ob lb, r = evaluate fs ob lb;
  rf_net : net_step (net_of fs) e = Some (s.(ag).(network_configured), s.(ag).(outage_active));
  rf_exit : s.(ag).(a_exit_code) = worst_step (worst fs) e;
  rf_machine : exists m, lsteps lim (None, Idle)
    (process fs ++ (if is_process_event e then [e] else []) ++ pending) m /\
    rt_ok m s.(ag).(a_runtime);
}.

Record agrees (fs : list EventFrame) (pending : list Event) (s : A) : Prop := {
  ag_wire : wire_of lf start fs (wire s.(out));
  ag_tracks : tracks fs s.(ag);
  ag_numbered : numbered fs;
  ag_reports : reports fs;
  ag_net : net_of fs = Some (s.(ag).(network_configured), s.(ag).(outage_active));
  ag_exit : s.(ag).(a_exit_code) = worst fs;
  ag_machine : exists m, lsteps lim (None, Idle) (process fs ++ pending) m /\
    rt_ok m s.(ag).(a_runtime);
}.

Lemma agrees_sound fs pending s : agrees fs pending s -> sound fs.
Proof.
  intros []. split_and!; [done|done|by eexists|].
  destruct ag_machine0 as (m&Hm&_). apply lsteps_split in Hm as (m1&Hm&_). by exists m1.
Qed.
Lemma agrees_failed fs pending s : agrees fs pending s -> failed s.
Proof.
  intros Ha. exists fs, (wire s.(out)), []. rewrite app_nil_r.
  split_and!; [done|by destruct Ha|by eapply agrees_sound].
Qed.
Lemma failed_out (s s' : A) : s'.(out) = s.(out) -> failed s -> failed s'.
Proof. unfold failed. by intros ->. Qed.
Lemma ready_failed fs e pending s : ready_for fs e pending s -> failed s.
Proof. intros []. exists fs, (wire s.(out)), []. rewrite app_nil_r. by split_and!. Qed.

(** Emitting the event: the frame is appended to the wire and to the history. *)
Lemma triple_emit fs e pending command_id :
  triple (ready_for fs e pending) (emit command_id e)
    (fun _ s => exists f, f.(event) = e /\ f.(Types.command_id) = command_id /\
       agrees (fs ++ [f]) pending s) (fun _ => failed).
Proof.
  intros [a o w] Hr. destruct (Hr) as [Hw [Hlf Hnext Hhist] (Hn&Hre&_) Hrep Hnet Hexit Hm].
  cbn [ag out agos] in *. unfold emit. cbv [gets mbind M_bind set_agent modify on_out].
  cbn [ag out agos]. rewrite Hlf. set (f := event_frame a command_id e).
  destruct (if lf then write_line_frame o f else write_frame o f) as [r o'] eqn:Ew.
  destruct (write_framed lf f o o' r Ew) as (p&Hp&Hok).
  destruct r as [[]|err]; cycle 1.
  { exists fs, (wire o), p. by destruct Hr. }
  specialize (Hok eq_refl).
  assert (Hag : forall h, h = List.filter (fun f => is_assertion_event f.(event)) (fs ++ [f]) ->
    agrees (fs ++ [f]) pending
      (MkAg (MkAgent h (add64 a.(next_event_id) 1) a.(a_exit_code) a.(line_framing)
         a.(network_configured) a.(outage_active) a.(a_runtime) a.(last_command_id)) o' w)).
  { intros h ->. constructor; cbn.
    - rewrite Hp. by constructor.
    - constructor; cbn; [done| |done]. by rewrite Hnext nth_id_S length_app Nat.add_1_r.
    - by apply numbered_frame_snoc.
    - by apply reports_snoc.
    - by rewrite net_of_snoc.
    - by rewrite worst_snoc.
    - by rewrite process_snoc -app_assoc. }
  rewrite List.filter_app in Hag. cbn [List.filter] in Hag. cbn [event f event_frame] in Hag.
  destruct (is_assertion_event e) eqn:Ea; cbv [mret M_ret]; exists f; (split; [done|split; [done|]]);
    apply Hag; cbn [bump_next a_events push_history]; by rewrite Hhist ?app_nil_r.
Qed.

(** ** Emitting what the runtime returned *)

Lemma agrees_ready fs e pending s :
  is_process_event e = true -> agrees fs (e :: pending) s -> ready_for fs e pending s.
Proof.
  intros He Ha. pose proof (agrees_sound _ _ _ Ha) as Hs. destruct Ha. constructor; try done.
  - intros r ->. done.
  - by rewrite process_event_net.
  - by rewrite process_event_worst.
  - by rewrite He.
Qed.

Lemma triple_emit_all fs es command_id :
  Forall (fun e => is_process_event e = true) es ->
  triple (agrees fs es) (emit_all command_id es)
    (fun _ s => exists fs', map event fs' = es /\ agrees (fs ++ fs') [] s) (fun _ => failed).
Proof.
  intros Hes. revert fs. induction Hes as [|e es He Hes IH]; intros fs; cbn [emit_all].
  { apply triple_ret. intros s Hs. exists []. by rewrite app_nil_r. }
  eapply triple_bind.
  { eapply triple_consequence; [apply (triple_emit fs e es)| |done|done].
    intros s Hs. by apply agrees_ready. }
  intros [] s (f&Hf&_&Hs). specialize (IH (fs ++ [f]) s Hs).
  destruct (emit_all command_id es s) as [[[[]|err] s']|]; [|done..].
  destruct IH as (fs'&Hfs'&Hs'). exists (f :: fs'). cbn. rewrite Hf Hfs'. split; [done|].
  by rewrite -app_assoc in Hs'.
Qed.

Lemma no_stop_process fs fs' :
  no_stop fs -> Forall (fun e => is_process_event e = true) (map event fs') -> no_stop (fs ++ fs').
Proof.
  intros Hfs Hfs'. apply list.Forall_app. split; [done|]. apply List.Forall_map in Hfs'.
  eapply list.Forall_impl; [exact Hfs'|]. cbn. intros f Hf E. by rewrite E in Hf.
Qed.

(** Between commands: no stop yet, nothing pending. *)
Definition running (s : A) : Prop := exists fs, agrees fs [] s /\ no_stop fs.
(** Between a runtime operation and its emission. *)
Definition returned (es : list Event) (s : A) : Prop :=
  Forall (fun e => is_process_event e = true) es /\ exists fs, agrees fs es s /\ no_stop fs.
(** No invocation is live. *)
Definition at_rest (outage : bool) (es : list Event) (s : A) : Prop :=
  exists fs last, agrees fs es s /\ no_stop fs /\ s.(ag).(outage_active) = outage /\
    lsteps lim (None, Idle) (process fs ++ es) (last, Idle).

Lemma running_failed s : running s -> failed s.
Proof. intros (fs&Hfs&_). by eapply agrees_failed. Qed.

Lemma triple_returned command_id es : triple (returned es) (emit_all command_id es)
  (fun _ => running) (fun _ => failed).
Proof.
  intros s (Hes&fs&Ha&Hns). pose proof (triple_emit_all fs es command_id Hes s Ha) as Ht.
  destruct (emit_all command_id es s) as [[[[]|err] s']|]; [|done..].
  destruct Ht as (fs'&<-&Ha'). exists (fs ++ fs'). split; [done|by apply no_stop_process].
Qed.

Lemma net_of_process fs fs' :
  Forall (fun e => is_process_event e = true) (map event fs') -> net_of (fs ++ fs') = net_of fs.
Proof.
  unfold net_of. rewrite map_app foldl_app. generalize (foldl net_step (Some (false, false)) (map event fs)).
  induction (map event fs') as [|e es IH]; [done|]. intros net [He Hes]%list.Forall_cons.
  cbn. rewrite process_event_net //. by apply IH.
Qed.

Lemma triple_at_rest outage command_id es : triple (at_rest outage es) (emit_all command_id es)
  (fun _ => at_rest outage []) (fun _ => failed).
Proof.
  intros s (fs&last&Ha&Hns&Ho&Hl). pose proof (lsteps_process _ _ _ _ Hl) as Hes.
  apply list.Forall_app in Hes as [_ Hes].
  pose proof (triple_emit_all fs es command_id Hes s Ha) as Ht.
  destruct (emit_all command_id es s) as [[[[]|err] s']|]; [|done..].
  destruct Ht as (fs'&<-&Ha'). exists (fs ++ fs'), last. split; [done|].
  split; [by apply no_stop_process|]. split.
  - destruct Ha as [_ _ _ _ Hnet _ _], Ha' as [_ _ _ _ Hnet' _ _].
    rewrite net_of_process // Hnet in Hnet'. by simplify_eq.
  - by rewrite app_nil_r process_app (process_all fs').
Qed.

(** ** Runtime operations *)

Lemma obeys_runtime (op : M (R * W) (list Event)) P fs r s :
  obeys lim (rt_at (R := R) (W := W)) op P -> agrees fs [] s -> s.(ag).(a_runtime) = Some r ->
  match on_runtime r op s with
  | Some (Ok es, s') => exists m, agrees fs es s' /\ lsteps lim (None, Idle) (process fs ++ es) m /\ P m
  | Some (Err _, s') => s'.(out) = s.(out)
  | None => True
  end.
Proof.
  intros Hop Ha Hr. destruct Ha as [Hw [] Hn Hre Hnet Hexit (m&Hm&Hat)].
  rewrite Hr in Hat. cbn in Hat. specialize (Hop m (r, s.(agos)) Hat). unfold on_runtime.
  destruct (op (r, agos s)) as [[[es|e] [r' w']]|]; [|done..].
  destruct Hop as (m'&Hes&Hat'&HP). rewrite app_nil_r in Hm.
  pose proof (lsteps_app _ _ _ _ _ _ Hm Hes) as Hall. exists m'. split_and!; [|done|done].
  constructor; try done. by exists m'.
Qed.

Lemma triple_on_runtime (op : M (R * W) (list Event)) P r :
  obeys lim (rt_at (R := R) (W := W)) op P ->
  triple (fun s => running s /\ s.(ag).(a_runtime) = Some r) (on_runtime r op) returned
    (fun _ => failed).
Proof.
  intros Hop s [(fs&Ha&Hns) Hr]. pose proof (obeys_runtime op P fs r s Hop Ha Hr) as Ht.
  destruct (on_runtime r op s) as [[[es|e] s']|]; [| |done].
  - destruct Ht as (m&Ha'&Hm&_). apply lsteps_process in Hm. apply list.Forall_app in Hm as [_ Hes].
    split; [done|]. by exists fs.
  - eapply failed_out; [exact Ht|]. by eapply agrees_failed.
Qed.

Lemma failed_on_runtime {T} (op : M (R * W) T) r :
  triple failed (catch (on_runtime r op)) (fun _ => failed) (fun _ => failed).
Proof.
  intros s Hs. unfold catch, on_runtime. destruct (op (r, agos s)) as [[res [r' w']]|]; [|done].
  by eapply failed_out.
Qed.

Lemma triple_service rf : triple running (service_runtime rf) (fun _ => running) (fun _ => failed).
Proof.
  intros s Hs. unfold service_runtime. cbv [gets mbind M_bind].
  destruct (a_runtime (ag s)) as [r|] eqn:Er; [|done].
  pose proof (triple_on_runtime (ops_poll rf 0) _ r (law_poll rf 0) s (conj Hs Er)) as Hp.
  unfold catch at 1. destruct (on_runtime r (ops_poll rf 0) s) as [[[es|e] s1]|]; [| |done].
  - pose proof (triple_returned (last_command_id (ag s)) es s1 Hp) as He. exact He.
  - destruct (a_runtime (ag s1)) as [r1|]; [|done].
    pose proof (failed_on_runtime (ops_shutdown rf) r1 s1 Hp) as Hf.
    destruct (catch (on_runtime r1 (ops_shutdown rf)) s1) as [[[res|e1] s2]|]; done.
Qed.

Lemma triple_shutdown_runtime rf outage :
  triple (fun s => running s /\ s.(ag).(outage_active) = outage) (shutdown_runtime rf)
    (fun _ => at_rest outage []) (fun _ => failed).
Proof.
  intros s ((fs&Ha&Hns)&Ho). unfold shutdown_runtime. cbv [gets mbind M_bind].
  destruct (a_runtime (ag s)) as [r|] eqn:Er.
  - pose proof (obeys_runtime (ops_shutdown rf) _ fs r s (law_shutdown rf) Ha Er) as Ht.
    assert (Hflag : forall s1, (exists es, on_runtime r (ops_shutdown rf) s = Some (es, s1)) ->
              outage_active (ag s1) = outage).
    { intros s1 [es E]. revert E. unfold on_runtime. destruct (ops_shutdown rf _) as [[? [? ?]]|]; [|done].
      by intros [= _ <-]. }
    destruct (on_runtime r (ops_shutdown rf) s) as [[[es|e] s1]|]; [| |done].
    + destruct Ht as ([last p]&Ha1&Hm&HP). cbn in HP. subst p.
      apply (triple_at_rest outage (last_command_id (ag s)) es s1). exists fs, last.
      split_and!; [done|done|apply Hflag; by eexists|done].
    + eapply failed_out; [exact Ht|]. by eapply agrees_failed.
  - cbn [emit_all]. cbv [mret M_ret]. destruct (ag_machine _ _ _ Ha) as ([last p]&Hm&Hat).
    rewrite Er in Hat. cbn in Hat. subst p. by exists fs, last.
Qed.

(** ** Commands *)

(** The stream ended with [AgentStopped], and no invocation was live. *)
Definition stopped (s : A) : Prop := exists fs f last,
  agrees (fs ++ [f]) [] s /\ f.(event) = AgentStopped /\ no_stop fs /\
  lsteps lim (None, Idle) (process fs) (last, Idle).
Definition continues (b : bool) : A -> Prop := if b then running else stopped.

(** An event that is neither a process event nor a report, with the flags it
    leaves. *)
Lemma ready_flags fs e c o s s' :
  agrees fs [] s -> s'.(out) = s.(out) -> s'.(ag) = set_flags c o s.(ag) ->
  is_process_event e = false -> (forall r, e <> AssertionsEvaluated r) ->
  net_step (Some (s.(ag).(network_configured), s.(ag).(outage_active))) e = Some (c, o) ->
  ready_for fs e [] s'.
Proof.
  intros Ha Ho Hag He Hrep Hnet. pose proof (agrees_sound _ _ _ Ha) as Hs.
  destruct Ha as [Hw [] Hn Hre Hnet' Hexit Hm]. constructor; rewrite ?Ho ?Hag; try done.
  - intros r ->. by destruct (Hrep r).
  - by rewrite Hnet'.
  - cbn. rewrite Hexit. destruct e; try done. by destruct (Hrep report).
  - by rewrite He.
Qed.

Lemma emit_continues fs e command_id s :
  ready_for fs e [] s -> no_stop fs -> e <> AgentStopped ->
  match (_ ← emit command_id e; mret true) s with
  | Some (Ok b, s') => continues b s'
  | Some (Err _, s') => failed s'
  | None => True
  end.
Proof.
  intros Hr Hns He. pose proof (triple_emit fs e [] command_id s Hr) as Ht. cbv [mbind M_bind].
  destruct (emit command_id e s) as [[[[]|err] s']|]; [|done..].
  destruct Ht as (f&Hf&_&Ha). exists (fs ++ [f]). split; [done|].
  apply list.Forall_app. split; [done|]. constructor; [by rewrite Hf|constructor].
Qed.

Lemma set_flags_same (a : Agent R) : a = set_flags a.(network_configured) a.(outage_active) a.
Proof. by destruct a. Qed.

Lemma triple_configure rf command_id i g w :
  triple running (dispatch rf command_id (ConfigureNetwork i g w)) continues (fun _ => failed).
Proof.
  intros s Hs. pose proof (running_failed s Hs) as Hf. destruct Hs as (fs&Ha&Hns).
  cbn [dispatch]. cbv [mbind M_bind lift]. unfold require_network_values.
  case_bool_decide as Hv; [|done]. cbv [gets]. unfold fail_if.
  destruct (network_configured (ag s)) eqn:Ec; [done|]. cbv [mret M_ret]. unfold ag_os, zoom.
  destruct (configure_network (agos s)) as [[[[]|e] w1]|]; [|by eapply failed_out|done].
  cbv [set_agent modify]. cbn [ag out agos].
  apply (emit_continues fs (NetworkConfigured i g w) command_id); [|done..].
  apply (ready_flags fs _ true (outage_active (ag s)) s); try done. cbn. by rewrite Ec bool_decide_true.
Qed.

Lemma triple_outage rf command_id p :
  triple running (dispatch rf command_id (ActivateOutage p)) continues (fun _ => failed).
Proof.
  intros s Hs. pose proof (running_failed s Hs) as Hf. destruct Hs as (fs&Ha&Hns).
  cbn [dispatch]. unfold require_network, require_peer, fail_if. cbv [mbind M_bind lift gets].
  destruct (network_configured (ag s)) eqn:Ec; [|done]. cbv [mret M_ret].
  case_bool_decide as Hv; [|done].
  destruct (outage_active (ag s)) eqn:Eo; [done|]. unfold ag_os, zoom.
  destruct (set_outage true (agos s)) as [[[[]|e] w1]|]; [|by eapply failed_out|done].
  cbv [set_agent modify]. cbn [ag out agos].
  apply (emit_continues fs (OutageActivated p OUTAGE_RULE) command_id); [|done..].
  apply (ready_flags fs _ true true s); try done; cbn; by rewrite Ec ?Eo ?Hv.
Qed.

Lemma triple_restore rf command_id p :
  triple running (dispatch rf command_id (RestoreNetwork p)) continues (fun _ => failed).
Proof.
  intros s Hs. pose proof (running_failed s Hs) as Hf. destruct Hs as (fs&Ha&Hns).
  cbn [dispatch]. unfold require_network, require_peer, fail_if. cbv [mbind M_bind lift gets].
  destruct (network_configured (ag s)) eqn:Ec; [|done]. cbv [mret M_ret].
  case_bool_decide as Hv; [|done].
  destruct (outage_active (ag s)) eqn:Eo; [|done]. cbn [negb]. unfold ag_os, zoom.
  destruct (set_outage false (agos s)) as [[[[]|e] w1]|]; [|by eapply failed_out|done].
  cbv [set_agent modify]. cbn [ag out agos].
  apply (emit_continues fs (NetworkRestored p) command_id); [|done..].
  apply (ready_flags fs _ true false s); try done; cbn; by rewrite Ec ?Eo ?Hv.
Qed.

Lemma triple_request rf command_id i p phase :
  triple running (dispatch rf command_id (Request i p phase)) continues (fun _ => failed).
Proof.
  intros s Hs. pose proof (running_failed s Hs) as Hf. destruct Hs as (fs&Ha&Hns).
  cbn [dispatch]. unfold require_network. cbv [mbind M_bind lift gets].
  destruct (network_configured (ag s)) eqn:Ec; [|done]. cbv [mret M_ret].
  destruct (validate_request i p GATEWAY) as [[]|e]; [|done].
  assert (Hready : ready_for fs (RequestAttempted i p phase) [] s).
  { apply (ready_flags fs _ true (outage_active (ag s)) s); try done; cbn; rewrite -?Ec //.
    - apply set_flags_same.
    - by rewrite Ec. }
  pose proof (triple_emit fs _ [] command_id s Hready) as He.
  destruct (emit command_id _ s) as [[[[]|e] s1]|]; [|done..].
  destruct He as (f&Hfe&_&Ha1).
  assert (Hns1 : no_stop (fs ++ [f])).
  { apply list.Forall_app. split; [done|]. constructor; [by rewrite Hfe|constructor]. }
  unfold ag_os, zoom, fixture_request. destruct (net_open i (agos s1)) as [[bound socket] w1].
  destruct (tftp_request GATEWAY i bound socket) as [r socket'].
  assert (Hc1 : network_configured (ag s1) = true).
  { destruct Ha1 as [_ _ _ _ Hnet _ _]. rewrite net_of_snoc Hfe in Hnet. cbn in Hnet.
    destruct (net_of fs) as [[[] ?]|]; by simplify_eq/=. }
  set (s2 := MkAg _ _ _).
  assert (Hready2 : ready_for (fs ++ [f]) (request_outcome i p phase r) [] s2).
  { apply (ready_flags _ _ true (outage_active (ag s1)) s1); try done.
    - rewrite -Hc1. apply set_flags_same.
    - by destruct r as [[? ?]|].
    - by destruct r as [[? ?]|].
    - destruct r as [[? ?]|]; cbn; by rewrite Hc1. }
  apply (emit_continues _ _ command_id s2 Hready2 Hns1). by destruct r as [[? ?]|].
Qed.

Lemma triple_check rf command_id ob lb :
  triple running (dispatch rf command_id (Check ob lb)) continues (fun _ => failed).
Proof.
  intros s (fs&Ha&Hns). pose proof (agrees_sound _ _ _ Ha) as Hs.
  cbn [dispatch]. cbv [mbind M_bind gets set_agent modify]. cbn [ag out agos].
  destruct Ha as [Hw [Hlf Hnext Hhist] Hn Hre Hnet Hexit Hm].
  set (report := evaluate (a_events (ag s)) ob lb). set (s1 := MkAg _ _ _).
  assert (Hrep : report = evaluate fs ob lb).
  { unfold report. rewrite Hhist. apply evaluate_same. unfold same_assertion_events.
    by rewrite filter_idempotent. }
  assert (Hready : ready_for fs (AssertionsEvaluated report) [] s1).
  { constructor; try done.
    - intros r [= <-]. by exists ob, lb.
    - by rewrite Hnet.
    - cbn. by rewrite Hexit. }
  by apply (emit_continues _ _ command_id s1 Hready Hns).
Qed.

(** A command handed to the runtime. *)
Lemma triple_answer (op : M (R * W) (list Event)) P command_id r :
  obeys lim (rt_at (R := R) (W := W)) op P ->
  triple (fun s => running s /\ s.(ag).(a_runtime) = Some r)
    (events ← on_runtime r op; _ ← emit_all command_id events; mret true) continues
    (fun _ => failed).
Proof.
  intros Hop. eapply triple_bind; [by eapply triple_on_runtime|intros es].
  eapply triple_bind; [apply triple_returned|intros ?]. by apply triple_ret.
Qed.

Lemma triple_require (op : R -> M (R * W) (list Event)) P command_id :
  (forall r, obeys lim (rt_at (R := R) (W := W)) (op r) P) ->
  triple running
    (r ← require_runtime; events ← on_runtime r (op r); _ ← emit_all command_id events; mret true)
    continues (fun _ => failed).
Proof.
  intros Hop s Hs. pose proof (running_failed s Hs) as Hf. unfold require_runtime.
  cbv [gets mbind M_bind]. destruct (a_runtime (ag s)) as [r|] eqn:Er; [|done].
  cbv [mret M_ret]. by apply (triple_answer (op r) P command_id r (Hop r) s).
Qed.

Lemma triple_start_command rf command_id invocation launch :
  triple running (dispatch rf command_id (Start invocation launch)) continues (fun _ => failed).
Proof.
  intros s Hs. cbn [dispatch]. cbv [gets mbind M_bind].
  destruct (a_runtime (ag s)) as [r|] eqn:Er.
  - apply (triple_answer _ _ command_id r (law_start rf invocation launch) s). by split.
  - cbv [mret M_ret]. destruct Hs as (fs&Ha&Hns).
    set (e := LaunchFailed _ _ _). assert (Hret : returned [e] s).
    { split; [by repeat constructor|]. exists fs. split; [|done].
      destruct Ha as [Hw Ht Hn Hre Hnet Hexit ([last p]&Hm&Hat)]. rewrite Er in Hat. cbn in Hat. subst p.
      constructor; try done. exists (last, Idle). rewrite Er. split; [|done].
      rewrite app_nil_r in Hm. eapply lsteps_app; [exact Hm|]. apply lsteps_one. constructor. }
    pose proof (triple_returned command_id [e] s Hret) as Ht.
    by destruct (emit_all command_id [e] s) as [[[[]|err] s']|].
Qed.

Lemma triple_stop rf command_id :
  triple running (dispatch rf command_id Shutdown) continues (fun _ => failed).
Proof.
  intros s Hs. pose proof (running_failed s Hs) as Hf. cbn [dispatch].
  cbv [gets mbind M_bind]. unfold fail_if. destruct (outage_active (ag s)) eqn:Eo; [done|].
  cbv [mret M_ret]. pose proof (triple_shutdown_runtime rf false s (conj Hs Eo)) as Ht.
  destruct (shutdown_runtime rf s) as [[[[]|e] s1]|] eqn:Es; [|done..].
  destruct Ht as (fs&last&Ha&Hns&Ho&Hl). rewrite app_nil_r in Hl.
  assert (Hr : ready_for fs AgentStopped [] s1).
  { apply (ready_flags fs _ (network_configured (ag s1)) false s1); try done.
    - pose proof (set_flags_same (ag s1)) as Hfl. by rewrite Ho in Hfl.
    - by rewrite Ho. }
  pose proof (triple_emit fs _ [] command_id s1 Hr) as Ht.
  destruct (emit command_id AgentStopped s1) as [[[[]|e] s2]|]; [|done..].
  destruct Ht as (f&Hf1&_&Ha2). by exists fs, f, last.
Qed.

Lemma triple_dispatch rf command_id c :
  triple running (dispatch rf command_id c) continues (fun _ => failed).
Proof.
  destruct c.
  - apply triple_configure.
  - apply triple_outage.
  - apply triple_restore.
  - apply triple_request.
  - apply triple_check.
  - apply triple_start_command.
  - eapply (triple_require (fun _ => ops_stdin_write rf invocation offset data)).
    intros r. apply law_stdin_write.
  - eapply (triple_require (fun _ => ops_stdin_eof rf invocation)). intros r. apply law_stdin_eof.
  - eapply (triple_require (fun _ => ops_terminate rf invocation)). intros r. apply law_terminate.
  - apply triple_stop.
Qed.

(** ** The control loops *)

Lemma triple_handle rf frame :
  triple running (handle rf frame) continues (fun _ => failed).
Proof.
  intros s Hs. pose proof (running_failed s Hs) as Hf. unfold handle. cbv [mbind M_bind lift].
  destruct (require_version _) as [[]|e]; [|done]. cbv [set_agent modify].
  apply triple_dispatch. destruct Hs as (fs&[Hw [] Hn Hre Hnet Hexit Hm]&Hns).
  exists fs. split; [|done]. by constructor.
Qed.

Lemma triple_handle_all rf frames :
  triple running (handle_all rf frames) continues (fun _ => failed).
Proof.
  induction frames as [|frame frames IH]; cbn [handle_all]; [by apply triple_ret|].
  eapply triple_bind; [apply triple_handle|]. intros [|]; [exact IH|by apply triple_ret].
Qed.

Lemma running_wire (s s' : A) :
  s'.(ag) = s.(ag) -> (forall fs, wire_of lf start fs (wire s.(out)) -> wire_of lf start fs (wire s'.(out))) ->
  running s -> running s'.
Proof.
  intros Hag Hout (fs&[Hw Ht Hn Hre Hnet Hexit Hm]&Hns). exists fs. split; [|done].
  constructor; rewrite ?Hag; auto.
Qed.

(** Acknowledgements fall between the frames. *)
Lemma triple_acknowledge data : triple running (acknowledge data) (fun _ => running) (fun _ => failed).
Proof.
  induction data as [|b data IH]; cbn [acknowledge]; [by apply triple_ret|].
  eapply triple_bind; [|intros ?; exact IH].
  intros s Hs. unfold on_out. destruct (write_all (out s) [SERIAL_ACK]) as [[[]|e] o] eqn:Ew.
  - destruct (wire_write_all _ _ _ _ Ew) as (p&Hp&Hok). rewrite (Hok eq_refl) in Hp.
    eapply running_wire; [| |exact Hs]; [done|]. cbn [out]. intros fs Hw. rewrite Hp. by constructor.
  - destruct (wire_write_all _ _ _ _ Ew) as (p&Hp&_). destruct Hs as (fs&Ha&_).
    exists fs, (wire s.(out)), p. split; [done|]. split; [by destruct Ha|by eapply agrees_sound].
Qed.

Lemma triple_flush : triple running (on_out flush) (fun _ => running) (fun _ => failed).
Proof.
  intros s Hs. unfold on_out. destruct (flush (out s)) as [r o] eqn:Ew.
  assert (Hs' : running (MkAg s.(ag) o s.(agos))).
  { eapply running_wire; [| |exact Hs]; [done|]. cbn [out]. apply wire_flush in Ew. by rewrite Ew. }
  destruct r as [[]|e]; [done|by apply running_failed].
Qed.

Lemma triple_ag_os {T} (m : M W T) : triple running (ag_os m) (fun _ => running) (fun _ => running).
Proof.
  intros s Hs. unfold ag_os, zoom.
  destruct (m (agos s)) as [[[x|e] w]|]; [| |done]; (eapply running_wire; [| |exact Hs]; done).
Qed.

Lemma triple_read_serial fd b :
  triple running (read_serial_frames fd b) (fun _ => running) (fun _ => failed).
Proof.
  unfold read_serial_frames. eapply triple_bind with (R := fun _ => running).
  { eapply triple_consequence; [apply triple_ag_os|done|done|intros ??; apply running_failed]. }
  intros [[|c data]|e].
  - destruct (is_empty _); [by apply triple_ret|apply triple_throw; apply running_failed].
  - eapply triple_bind; [apply triple_acknowledge|intros ?].
    eapply triple_bind; [apply triple_flush|intros ?].
    destruct (buffer_input b (c :: data)) as [[[fs b']|e]|]; [by apply triple_ret| |done].
    apply triple_throw. apply running_failed.
  - destruct (_ || _); [by apply triple_ret|apply triple_throw; apply running_failed].
Qed.

(** How a loop ends: after [AgentStopped], or at the end of the channel; either
    way no invocation is live. *)
Definition ended (s : A) : Prop := stopped s \/ exists outage, at_rest outage [] s.

Lemma triple_poll_loop fuel rf fd b :
  triple running (poll_loop fuel rf fd b) (fun _ => ended) (fun _ => failed).
Proof.
  revert b. induction fuel as [|fuel IH]; intros b; cbn [poll_loop]; [done|].
  eapply triple_bind; [apply triple_service|intros ?].
  eapply triple_bind with (R := fun _ => running); [by apply triple_gets|intros ag0].
  eapply triple_bind with (R := fun _ => running).
  { eapply triple_consequence; [apply triple_ag_os|done|done|intros ??; apply running_failed]. }
  intros [ready|e].
  - destruct (negb _); [apply IH|]. eapply triple_bind; [apply triple_read_serial|].
    intros [[frames|] b'].
    + eapply triple_bind; [apply triple_handle_all|]. intros [|]; [apply IH|].
      apply triple_ret. by left.
    + intros s Hs. cbv [gets mbind M_bind].
      pose proof (triple_shutdown_runtime rf _ s (conj Hs eq_refl)) as Ht.
      destruct (shutdown_runtime rf s) as [[[[]|e] s1]|]; [|done..].
      destruct (match a_runtime (ag s) with Some r => ops_is_active r | None => false end).
      * destruct Ht as (fs&last&Ha&_). by eapply agrees_failed.
      * right. by eexists.
  - destruct (is_kind Interrupted e); [apply IH|apply triple_throw; apply running_failed].
Qed.
End invariant.

(** ** The theorem *)

(** A run that ended well: what is on the wire, and why the run ended. *)
Definition stream_ended `{Sha256} (lim : RuntimeLimits) (fs : list EventFrame) (code : Z) : Prop :=
  numbered fs /\ reports fs /\ (exists net, net_of fs = Some net) /\ code = worst fs /\
  (exists last, lsteps lim (None, Idle) (process fs) (last, Idle)) /\
  (no_stop fs \/ exists fs' f, fs = fs' ++ [f] /\ f.(event) = AgentStopped /\ no_stop fs').

Lemma drop_agent_out {R Out W} `{RuntimeOps R W} rf (s : AgState R Out W) :
  match drop_agent rf s with Some (_, s') => s'.(out) = s.(out) | None => True end.
Proof.
  unfold drop_agent. cbv [gets mbind M_bind]. destruct (a_runtime (ag s)) as [r|]; [|done].
  unfold on_runtime. by destruct (ops_drop rf _) as [[? [? ?]]|].
Qed.

Lemma run_serial_stream {R Out W} `{WriteLog Out} `{Os W} `{Network W} `{Sha256} lim
    `{!RuntimeOps R W} `{!RuntimeLaws R W lim} `{Serde CommandFrame} `{Serde EventFrame}
    fuel rf fd (runtime : option R) (o : Out) (w : W) res (s : AgState R Out W) :
  match runtime with Some r => rt_at (W := W) (None, Idle) r | None => True end ->
  run_serial_with_runtime fuel rf fd (MkAg (Agent_new true runtime) o w) = Some (res, s) ->
  match res with
  | Ok code => exists fs, wire_of true (wire o) fs (wire s.(out)) /\ stream_ended lim fs code
  | Err _ => exists fs b p, wire s.(out) = b ++ p /\ wire_of true (wire o) fs b /\ sound lim fs
  end.
Proof.
  intros Hr. set (s0 := MkAg (Agent_new true runtime) o w).
  assert (Hrun : running lim true (wire o) s0).
  { exists []. split; [|constructor]. constructor; try done.
    - constructor.
    - exists (None, Idle). split; [constructor|]. by destruct runtime. }
  pose proof (triple_poll_loop lim true (wire o) fuel rf fd SerialBuffer_default s0 Hrun) as Ht.
  unfold run_serial_with_runtime, catch. cbv [mbind M_bind gets].
  destruct (poll_loop fuel rf fd SerialBuffer_default s0) as [[loop s1]|]; [|done].
  pose proof (drop_agent_out rf s1) as Hd.
  destruct (drop_agent rf s1) as [[dropped s2]|] eqn:Edrop; [|done].
  destruct dropped as [[]|e]; cycle 1.
  { intros [= <- <-]. rewrite Hd. change (failed lim true (wire o) s1). destruct loop as [[]|e']; [|exact Ht].
    destruct Ht as [(fs&f&last&Ha&_)|(outage&fs&last&Ha&_)]; by eapply agrees_failed. }
  destruct loop as [[]|e]; intros [= <- <-]; rewrite Hd; [|exact Ht].
  destruct Ht as [(fs&f&last&[Hw _ Hn Hre Hnet Hexit _]&Hf&Hns&Hl)
                 |(outage&fs&last&[Hw _ Hn Hre Hnet Hexit _]&Hns&_&Hl)].
  - exists (fs ++ [f]). split; [done|]. split_and!; try done; [by eexists| |].
    + exists last. by rewrite process_snoc Hf app_nil_r.
    + right. by exists fs, f.
  - exists fs. split; [done|]. split_and!; try done; [by eexists| |by left].
    exists last. by rewrite app_nil_r in Hl.
Qed.

(** C5. Whatever system the agent runs on and whatever arrives on its control
    channel, the bytes it leaves on the channel are whole event frames, with
    acknowledgements between them, such that: identifiers are consecutive from 1;
    each report is the evaluation of all the frames before it, although the agent
    keeps only the assertion events; the network events obey the profile (one
    configuration with the fixed values, the outage switched on and off in turn,
    requests only while configured, no stop during an outage); the process events
    are a run of the runtime's lifecycle machine.  A run that returns a code has
    also left no invocation live, its code is the worst of its reports, and
    [AgentStopped] can only be the last frame.  A run that fails may leave part of
    one more frame. *)
Theorem agent_stream_sound {R Out W} `{WriteLog Out} `{Os W} `{Network W} `{Sha256} lim
    `{!RuntimeOps R W} `{!RuntimeLaws R W lim} `{Serde CommandFrame} `{Serde EventFrame}
    fuel rf fd (runtime : option R) (o : Out) (w : W) res (s : AgState R Out W) :
  match runtime with Some r => rt_at (W := W) (None, Idle) r | None => True end ->
  run_serial_with_runtime fuel rf fd (MkAg (Agent_new true runtime) o w) = Some (res, s) ->
  match res with
  | Ok code => exists fs, wire_of true (wire o) fs (wire s.(out)) /\ stream_ended lim fs code
  | Err _ => exists fs b p, wire s.(out) = b ++ p /\ wire_of true (wire o) fs b /\ sound lim fs
  end.
Proof. apply run_serial_stream. Qed.

(** ** A sample run *)

(** A guest with the Linux runtime whose control channel delivers a shutdown. *)
Definition shutdown_os : ScriptOs :=
  MkScriptOs [(3, inr (Raw (IoError Interrupted "") (Some 4))); (3, inl ["s"%byte; NEWLINE])]
    [] [] 10 0 (fun _ => inr would_block) 0 [] [].
Definition idle_runtime : Runtime := MkRuntime RuntimeConfig_guest None None None.
Definition stopped_frame : EventFrame :=
  {| protocol_version := 1; event_id := 1; command_id := 7; event := AgentStopped;
     diagnostics := DiagnosticFields_default |}.

#[export] Instance quiet_network : Network ScriptOs := {|
  net_open _ w := ((None, MkSocket [] [] []), w);
  net_close _ w := w |}.
#[local] Instance plain_text : DebugStr := {| debug_str s := s |}.
#[local] Instance no_digest : Sha256 := {| sha256_digest _ := [] |}.
#[local] Instance sample_frames : Serde EventFrame := table_serde [stopped_frame; ready_frame].

Lemma guest_limits_ok : limits_ok RuntimeConfig_guest.(limits).
Proof. split; vm_compute; split; congruence. Qed.

#[local] Instance sample_laws : RuntimeLaws Runtime ScriptOs RuntimeConfig_guest.(limits) :=
  linux_laws RuntimeConfig_guest guest_limits_ok.

Lemma agent_stream_sound_witness : exists fs (s : AgState Runtime bytes ScriptOs),
  run_serial_with_runtime 5 5 3 (MkAg (Agent_new true (Some idle_runtime)) [] shutdown_os)
  = Some (Ok 0, s) /\
  wire_of true [] fs s.(out) /\ stream_ended RuntimeConfig_guest.(limits) fs 0.
Proof.
  assert (Hs : exists s : AgState Runtime bytes ScriptOs,
    run_serial_with_runtime 5 5 3 (MkAg (Agent_new true (Some idle_runtime)) [] shutdown_os)
    = Some (Ok 0, s)) by (eexists; vm_compute; reflexivity).
  destruct Hs as [s E].
  destruct (agent_stream_sound RuntimeConfig_guest.(limits) 5 5 3 (Some idle_runtime) [] shutdown_os (Ok 0) s)
    as (fs&Hw&He); [|exact E|exists fs, s; exact (conj E (conj Hw He))].
  split; [by split|done].
Defined.
