(* ===== verification/GuestInit.v ===== *)
(** The first process of the guest, from [guest.rs]: the filesystems it mounts, the
    loopback interface, the raw serial channel, the agent, and the power-off.

    The descriptors that are dropped when [init] returns are not modelled: the
    process ends with it. *)

From stdpp Require Import ssreflect.
From Stdlib Require Import Strings.Byte.
From S2P Require Import Prelude Types Std Protocol Tree Spec Fixture Effects Os Runtime Launch RuntimeApi Agent.

(** [libc]'s constants on x86-64 Linux. *)
Definition AF_INET : Z := 2.
Definition SOCK_DGRAM : Z := 2.
Definition IFNAMSIZ : nat := 16.
Definition IFF_UP : Z := 1.
Definition SIOCSIFFLAGS : Z := 35092.
Definition TCSANOW : Z := 0.
Definition RB_POWER_OFF : Z := 1126301404.

(** One method per call that [Os] does not have; a negative result leaves its error for
    [io::Error::last_os_error]. *)
Class GuestHost (W : Type) := {
  gh_termios : Type;
  gh_last_os_error : W -> io_error;
  gh_mount : string -> string -> string -> W -> Z * W;
  gh_socket : Z -> Z -> Z -> W -> Z * W;
  gh_ioctl : Fd -> Z -> bytes -> W -> Z * W;
  gh_open : string -> W -> (Fd + io_error) * W;
  gh_tcgetattr : Fd -> W -> (Z * gh_termios) * W;
  gh_cfmakeraw : gh_termios -> gh_termios;
  gh_tcsetattr : Fd -> Z -> gh_termios -> W -> Z * W;
  gh_try_clone : Fd -> W -> (Fd + io_error) * W;
  gh_current_exe : W -> (bytes + io_error) * W;
  gh_reboot : Z -> W -> Z * W;
}.

Definition guest_error (operation : string) (error : io_error) : io_error :=
  IoError error.(error_kind) ("guest init could not " +:+ operation +:+ ": " +:+ error.(error_message)).

(** [InterfaceRequest]: the name, then the flags in the data. *)
Definition interface_request : bytes :=
  (["l"%byte; "o"%byte] ++ repeat Byte.x00 (IFNAMSIZ - 2)) ++ (rev (be_bytes 2 IFF_UP) ++ repeat Byte.x00 22).

Section setup.
Context {W : Type} `{Os W} `{GuestHost W}.

(** [if result < 0]. *)
Definition checked (result : Z) (error : io_error -> io_error) : M W unit :=
  e ← gets gh_last_os_error; fail_if (result <? 0) (error e).
Definition guest_or {A} (operation : string) (r : A + io_error) : M W A :=
  match r with inl a => mret a | inr e => throw (guest_error operation e) end.

Definition mount (source target filesystem : string) : M W unit :=
  _ ← call_unit raw_error (fs_create_dir_all (as_bytes target));
  result ← call (gh_mount source target filesystem);
  checked result id.

Definition bring_up_loopback : M W unit :=
  socket ← call (gh_socket AF_INET SOCK_DGRAM 0);
  _ ← checked socket id;
  result ← call (gh_ioctl socket SIOCSIFFLAGS interface_request);
  _ ← modify (sys_close socket);
  checked result id.

Definition configure_serial (channel : Fd) : M W unit :=
  '(result, attributes) ← call (gh_tcgetattr channel);
  _ ← checked result (guest_error "read guest channel settings");
  let attributes := gh_cfmakeraw attributes in
  result ← call (gh_tcsetattr channel TCSANOW attributes);
  checked result (guest_error "configure guest channel").

Definition not_first_process : io_error := IoError PermissionDenied
  "guest init can run only as PID 1 in the SimFerret guest".

(** [init] up to the channel and its clone for the input. *)
Definition init_setup : M W (Fd * Fd) :=
  own ← gets sys_getpid;
  _ ← fail_if (negb (own =? 1)) not_first_process;
  _ ← rethrow (guest_error "mount /dev") (mount "devtmpfs" "/dev" "devtmpfs");
  _ ← rethrow (guest_error "mount /proc") (mount "proc" "/proc" "proc");
  _ ← rethrow (guest_error "mount /sys") (mount "sysfs" "/sys" "sysfs");
  _ ← rethrow (guest_error "bring up loopback") bring_up_loopback;
  opened ← call (gh_open "/dev/ttyS1");
  channel ← guest_or "open guest output channel" opened;
  _ ← configure_serial channel;
  cloned ← call (gh_try_clone channel);
  input ← match cloned with inl fd => mret fd | inr e => throw e end;
  mret (input, channel).

Definition init_exe : M W bytes :=
  r ← call gh_current_exe; match r with inl path => mret path | inr e => throw e end.

Definition power_off : M W unit := result ← call (gh_reboot RB_POWER_OFF); checked result id.
End setup.

Section init.
Context {Out W : Type} `{Write Out} `{Os W} `{GuestHost W} `{Network W} `{DebugStr} `{Sha256}.
Context `{Serde CommandFrame} `{Serde EventFrame}.
Variables fuel rf : nat.

(** The state is the writer of the channel with what it was given, and the system. *)
Definition on_system {A} (m : M W A) : M (Out * W) A := zoom snd (fun w st => (st.1, w)) m.
Definition send_ready : M (Out * W) unit := fun st =>
  let '(r, o) := write_line_frame st.1 ready_frame in Some (r, (o, st.2)).

Definition init : M (Out * W) Z :=
  '(input, channel) ← on_system init_setup;
  _ ← send_ready;
  _ ← on_system init_exe;
  status ← (fun st => run_serial fuel rf input st.1 st.2 : option (result Z * (Out * W)));
  _ ← on_system power_off;
  mret status.
End init.

(** ** What a status means *)

Section orderly.
Context {Out W : Type} `{Write Out} `{Os W} `{GuestHost W} `{Network W} `{DebugStr} `{Sha256}.
Context `{Serde CommandFrame} `{Serde EventFrame}.
#[local] Set Default Proof Using "All".

(** Nothing is done outside the first process. *)
Theorem init_refuses fuel rf o w : sys_getpid w <> 1 ->
  init (Out := Out) fuel rf (o, w) = Some (Err not_first_process, (o, w)).
Proof.
  intros Hpid. unfold init, on_system, zoom, init_setup, gets, mbind, M_bind. cbn.
  by rewrite (proj2 (Z.eqb_neq _ _) Hpid).
Qed.

(** The socket that sets the flags is closed whatever the request answered. *)
Theorem loopback_closed w socket w1 result w2 :
  gh_socket AF_INET SOCK_DGRAM 0 w = (socket, w1) -> 0 <= socket ->
  gh_ioctl socket SIOCSIFFLAGS interface_request w1 = (result, w2) ->
  exists r, bring_up_loopback w = Some (r, sys_close socket w2).
Proof.
  intros Hs Hp Hi. unfold bring_up_loopback, call, checked, gets, modify, mbind, M_bind.
  rewrite Hs (proj2 (Z.ltb_ge _ _) Hp) /= Hi. destruct (result <? 0); cbn; by eexists.
Qed.

(** A status is that of the agent: it was reached in the first process, after the
    set-up and a whole readiness frame, by the agent on the input of the channel,
    and the machine was asked to power off after it. *)
Theorem init_status fuel rf o w status o' w' :
  init (Out := Out) fuel rf (o, w) = Some (Ok status, (o', w')) ->
  sys_getpid w = 1 /\ exists input channel w1 runtime w2 s result,
    init_setup w = Some (Ok (input, channel), w1) /\
    guest_agent (R := Runtime) fuel rf input runtime o w2 = Some (Ok status, s) /\ s.(out) = o' /\
    gh_reboot RB_POWER_OFF s.(agos) = (result, w') /\ 0 <= result.
Proof.
  unfold init. intros ([input channel]&?&(w1&Esetup&->)%zoom_Ok&E)%M_bind_Ok. cbn [fst snd] in *.
  split.
  { destruct (decide (sys_getpid w = 1)) as [|Hpid]; [done|]. exfalso.
    unfold init_setup, gets, mbind, M_bind in Esetup. cbn in Esetup.
    by rewrite (proj2 (Z.eqb_neq _ _) Hpid) in Esetup. }
  apply M_bind_Ok in E as ([]&st2&E2&E). unfold send_ready in E2. cbn [fst snd] in E2.
  destruct (write_line_frame o ready_frame) as [r o1] eqn:Hw. injection E2 as -> <-.
  apply M_bind_Ok in E as (path&?&(w3&_&->)%zoom_Ok&E). cbn [fst snd] in *.
  apply M_bind_Ok in E as (status'&[o4 w4]&Erun&E). cbn [fst snd] in Erun.
  apply M_bind_Ok in E as ([]&?&(w5&Eoff&->)%zoom_Ok&[= -> <- <-]). cbn [fst snd] in *.
  unfold run_serial in Erun. destruct (fs_exists _ w3) as [present w6].
  destruct ((if present then (runtime ← Runtime_new rf RuntimeConfig_guest; mret (Some runtime))
    else mret None : M W (option Runtime)) w6) as [[[runtime|e] w7]|]; [|done..].
  destruct (run_serial_with_runtime _ _ _ _) as [[r s]|] eqn:Eagent; [|done]. injection Erun as -> <- <-.
  unfold power_off in Eoff. apply M_bind_Ok in Eoff as (result&w8&Ereboot&Echk).
  unfold call in Ereboot. destruct (gh_reboot _ _) as [result' w9] eqn:Hreboot. injection Ereboot as -> ->.
  unfold checked, gets, mbind, M_bind in Echk. cbn in Echk.
  destruct (Z.ltb_spec result 0); [done|]. injection Echk as <-.
  exists input, channel, w1, runtime, w7, s, result. split_and!; try done.
  unfold guest_agent. by rewrite Hw.
Qed.
End orderly.

(** The request for the loopback interface has the layout of [ifreq]. *)
Example interface_request_layout : zlen interface_request = 40 /\
  take 3 interface_request = ["l"%byte; "o"%byte; Byte.x00] /\ le_Z (take 2 (drop 16 interface_request)) = IFF_UP.
Proof. by vm_compute. Qed.
