(* ===== verification/HostSerial.v ===== *)
(** The host's end of the serial channel ([vm.rs]): the chunked command writer
    that waits for the guest's acknowledgements, the event reader that separates
    acknowledgements from event lines, the reader thread, and the channel
    operations of the QEMU machine.  The theorems join it to the guest: the
    writer keeps a bounded number of unacknowledged bytes, and the reader
    recovers exactly the frames of the agent's stream. *)

From stdpp Require Import ssreflect.
From Stdlib Require Import Strings.Byte.
From S2P Require Import Prelude Types Std Protocol Assertions Tree Spec Fixture Effects Vm Driver Os.
From S2P Require Import Runtime Launch RuntimeApi Lifecycle Agent Serial AgentStream.

Definition COMMAND_WRITE_CHUNK_BYTES : nat := 16.

(** ** Writing a command *)

(** [slice.chunks(n)]; the fuel is the length of the slice. *)
Fixpoint chunks_loop (fuel n : nat) (l : bytes) : list bytes :=
  match fuel, l with
  | S fuel, _ :: _ => take n l :: chunks_loop fuel n (drop n l)
  | _, _ => []
  end.
Definition chunks (n : nat) (l : bytes) : list bytes := chunks_loop (length l) n l.

(** What [recv_timeout] answers, in order; an exhausted channel stays silent
    until the deadline. *)
Inductive AckOutcome := Acked | AckDisconnected.

Definition ack_timeout : io_error :=
  IoError TimedOut "timed out waiting for guest serial acknowledgement".
Definition ack_disconnected : io_error :=
  IoError BrokenPipe "guest serial acknowledgement channel disconnected".

(** [for _ in 0..chunk.len()]. *)
Fixpoint await_acks (n : nat) (acks : list AckOutcome) : result unit * list AckOutcome :=
  match n with
  | O => (Ok tt, acks)
  | S n =>
      match acks with
      | Acked :: acks => await_acks n acks
      | AckDisconnected :: acks => (Err ack_disconnected, acks)
      | [] => (Err ack_timeout, [])
      end
  end.

Section writer.
Context {Out : Type} `{Write Out} `{Serde CommandFrame}.

Fixpoint write_chunks (pieces : list bytes) (o : Out) (acks : list AckOutcome)
    : result unit * Out * list AckOutcome :=
  match pieces with
  | [] => (Ok tt, o, acks)
  | piece :: pieces =>
      match write_all o piece with
      | (Err e, o) => (Err e, o, acks)
      | (Ok _, o) =>
          match flush o with
          | (Err e, o) => (Err e, o, acks)
          | (Ok _, o) =>
              match await_acks (length piece) acks with
              | (Err e, acks) => (Err e, o, acks)
              | (Ok _, acks) => write_chunks pieces o acks
              end
          end
      end
  end.

Definition write_serial_command (o : Out) (acks : list AckOutcome) (frame : CommandFrame)
    : result unit * Out * list AckOutcome :=
  match to_vec frame with
  | inr message => (Err (IoError Other message), o, acks)
  | inl bytes =>
      if MAX_FRAME_LENGTH <? zlen bytes then (Err (frame_too_long InvalidInput), o, acks)
      else write_chunks (chunks COMMAND_WRITE_CHUNK_BYTES (bytes ++ [NEWLINE])) o acks
  end.
End writer.

(** ** Reading an event *)

(** The result, the rest of the input, and how many acknowledgements were
    passed on. *)
Fixpoint read_event_loop `{Serde EventFrame} (body : bytes) (r : reader) (acks : nat)
    : result (option EventFrame) * reader * nat :=
  match r with
  | [] =>
      (if is_empty body then Ok None
       else Err (IoError UnexpectedEof "truncated serial event frame"), [], acks)
  | RByte b :: r =>
      if bool_decide (b = SERIAL_ACK) then read_event_loop body r (S acks)
      else if bool_decide (b = NEWLINE) then
        (match from_slice body with
         | inl f => Ok (Some f)
         | inr e => Err (json_error "malformed event frame" e)
         end, r, acks)
      else if MAX_FRAME_LENGTH <=? zlen body then (Err (frame_too_long InvalidData), r, acks)
      else read_event_loop (body ++ [b]) r acks
  | RError e :: r =>
      if is_interrupted e then read_event_loop body r acks else (Err e, r, acks)
  end.
Definition read_serial_event `{Serde EventFrame} (r : reader)
    : result (option EventFrame) * reader * nat := read_event_loop [] r 0.

(** The reader thread: every outcome is sent, and the first that is not an event
    is the last.  Each event takes at least its newline from the input, so the
    length of the input is fuel enough. *)
Fixpoint event_thread `{Serde EventFrame} (fuel : nat) (r : reader)
    : list (result (option EventFrame)) * nat :=
  match fuel with
  | O => ([], O)
  | S fuel =>
      let '(event, r, acks) := read_serial_event r in
      match event with
      | Ok (Some _) =>
          let '(events, acks') := event_thread fuel r in (event :: events, acks + acks')%nat
      | _ => ([event], acks)
      end
  end.
Definition host_events `{Serde EventFrame} (r : reader) : list (result (option EventFrame)) * nat :=
  event_thread (S (length r)) r.

(** ** The machine's channel operations *)

(** What the event channel will hold; [None] is a moment at which nothing is
    queued, as long as the caller waits. *)
Record QemuVm := MkQemu {
  q_events : list (option (result (option EventFrame)));
  q_writer : option (list (result unit));  (** outcomes of the writer's sends *)
  q_sent : list CommandFrame;
}.

Definition channel_closed_error : io_error := IoError UnexpectedEof "guest event channel closed".
Definition reader_disconnected : io_error :=
  IoError BrokenPipe "guest event reader disconnected".

Definition q_send (f : CommandFrame) (v : QemuVm) : result unit * QemuVm :=
  match v.(q_writer) with
  | None => (Err (IoError BrokenPipe "VM input is closed"), v)
  | Some [] => (Err (IoError TimedOut "timed out writing command to guest"), v)
  | Some (Err e :: rest) => (Err e, MkQemu v.(q_events) (Some rest) v.(q_sent))
  | Some (Ok _ :: rest) => (Ok tt, MkQemu v.(q_events) (Some rest) (v.(q_sent) ++ [f]))
  end.

Definition q_receive (v : QemuVm) : result EventFrame * QemuVm :=
  match v.(q_events) with
  | [] => (Err reader_disconnected, v)
  | item :: rest =>
      let v := MkQemu rest v.(q_writer) v.(q_sent) in
      match item with
      | Some (Ok (Some f)) => (Ok f, v)
      | Some (Ok None) => (Err channel_closed_error, v)
      | Some (Err e) => (Err e, v)
      | None => (Err (IoError TimedOut "timed out waiting for guest event"), v)
      end
  end.

Definition q_try_receive (v : QemuVm) : result (option EventFrame) * QemuVm :=
  match v.(q_events) with
  | [] => (Err reader_disconnected, v)
  | item :: rest =>
      let v := MkQemu rest v.(q_writer) v.(q_sent) in
      match item with
      | Some (Ok (Some f)) => (Ok (Some f), v)
      | Some (Ok None) => (Err channel_closed_error, v)
      | Some (Err e) => (Err e, v)
      | None => (Ok None, v)
      end
  end.

Definition q_finish_events (v : QemuVm) : result unit * QemuVm :=
  match v.(q_events) with
  | [] => (Err (IoError BrokenPipe "guest event reader disconnected without reporting EOF"), v)
  | item :: rest =>
      let v := MkQemu rest v.(q_writer) v.(q_sent) in
      match item with
      | Some (Ok None) => (Ok tt, v)
      | Some (Ok (Some f)) =>
          (Err (invalid_data ("unexpected " +:+ Event_describe f.(event) +:+ " after shutdown")), v)
      | Some (Err e) => (Err e, v)
      | None => (Err (IoError TimedOut "guest event channel did not close after shutdown"), v)
      end
  end.

#[export] Instance qemu_vm : RunningVm QemuVm := {
  vm_send := q_send;
  vm_receive := q_receive;
  vm_try_receive := q_try_receive;
  vm_finish_events := q_finish_events;
}.

#[export] Program Instance qemu_log : VmLog QemuVm := {| sent := q_sent |}.
Next Obligation. intros f v. cbn. unfold q_send. by destruct (q_writer v) as [[|[|] ?]|]. Qed.
Next Obligation. intros v. cbn. unfold q_receive. by destruct (q_events v) as [|[[[]|]|] ?]. Qed.
Next Obligation. intros v. cbn. unfold q_try_receive. by destruct (q_events v) as [|[[[]|]|] ?]. Qed.
Next Obligation. intros v. cbn. unfold q_finish_events. by destruct (q_events v) as [|[[[]|]|] ?]. Qed.

#[export] Program Instance qemu_finite : FiniteVm QemuVm :=
  {| remaining v := length v.(q_events) |}.
Next Obligation. intros f v. cbn. unfold q_send. by destruct (q_writer v) as [[|[|] ?]|]. Qed.
Next Obligation.
  intros v. cbn. unfold q_receive. destruct (q_events v) as [|[[[]|]|] ?] eqn:E; cbn; rewrite ?E; cbn; lia.
Qed.
Next Obligation.
  intros v f v' E. cbn in *. unfold q_receive in E.
  destruct (q_events v) as [|[[[]|]|] ?]; simplify_eq/=; cbn; lia.
Qed.
Next Obligation.
  intros v. cbn. unfold q_try_receive. destruct (q_events v) as [|[[[]|]|] ?] eqn:E; cbn; rewrite ?E; cbn; lia.
Qed.
Next Obligation.
  intros v f v' E. cbn in *. unfold q_try_receive in E.
  destruct (q_events v) as [|[[[]|]|] ?]; simplify_eq/=; cbn; lia.
Qed.
Next Obligation.
  intros v. cbn. unfold q_finish_events. destruct (q_events v) as [|[[[]|]|] ?] eqn:E; cbn; rewrite ?E; cbn; lia.
Qed.

#[export] Program Instance qemu_feed : FeedVm QemuVm := {|
  feeds n fs v := v.(q_events) = map (fun f => Some (Ok (Some f))) fs ++ [Some (Ok None)] /\
                  exists rest, v.(q_writer) = Some (repeat (Ok tt) n ++ rest) |}.
Next Obligation.
  intros n fs v [He [rest Hw]]. split; [done|]. exists (Ok tt :: rest). rewrite Hw. f_equal.
  change (Ok tt :: rest) with ([Ok tt] ++ rest). by rewrite app_assoc -repeat_cons.
Qed.
Next Obligation.
  intros n fs f v [He [rest Hw]]. cbn. unfold q_send. rewrite Hw. cbn. eexists. split; [done|].
  split; [done|]. by exists rest.
Qed.
Next Obligation.
  intros n f fs v [He Hw]. cbn. unfold q_receive. rewrite He. cbn. eexists. split; [done|]. by split.
Qed.
Next Obligation.
  intros n v [He Hw]. cbn. unfold q_finish_events. rewrite He. cbn. by eexists.
Qed.

(** The readiness check of a launch: the guest's first event. *)
Definition await_ready (v : QemuVm) : result unit * QemuVm :=
  match q_receive v with
  | (Err e, v) => (Err e, v)
  | (Ok ready, v) =>
      if negb (ready.(protocol_version) =? PROTOCOL_VERSION) || negb (ready.(event_id) =? 0)
         || negb (ready.(Types.command_id) =? 0)
         || negb (bool_decide (ready.(event) = AgentReady))
      then (Err (invalid_data "guest did not send the expected readiness event"), v)
      else (Ok tt, v)
  end.

(** ** The writer's window *)

Lemma chunks_loop_spec fuel n l :
  (0 < n)%nat -> (length l <= fuel)%nat ->
  concat (chunks_loop fuel n l) = l /\ Forall (fun p => (length p <= n)%nat) (chunks_loop fuel n l).
Proof.
  intros Hn. revert l. induction fuel as [|fuel IH]; intros [|b l] Hl; cbn [chunks_loop concat];
    [done|cbn in Hl; lia|done|].
  destruct (IH (drop n (b :: l))) as [Hc Hf].
  { rewrite length_drop. cbn in *. lia. }
  rewrite Hc take_drop. split; [done|]. constructor; [|done]. rewrite length_take. lia.
Qed.

(** How many of the first outcomes are acknowledgements. *)
Definition acked (l : list AckOutcome) : nat :=
  length (List.filter (fun a => match a with Acked => true | _ => false end) l).

Lemma acked_app l1 l2 : acked (l1 ++ l2) = (acked l1 + acked l2)%nat.
Proof. unfold acked. by rewrite List.filter_app length_app. Qed.

Lemma await_acks_spec n acks r acks' :
  await_acks n acks = (r, acks') ->
  exists used, acks = used ++ acks' /\ (acked used <= n)%nat /\ (r = Ok tt -> acked used = n).
Proof.
  revert acks. induction n as [|n IH]; intros acks; cbn [await_acks].
  - intros [= <- <-]. by exists [].
  - destruct acks as [|[] acks].
    + intros [= <- <-]. exists []. split_and!; [done|cbn; lia|done].
    + intros E. destruct (IH _ E) as (used&->&Hle&Hok). exists (Acked :: used).
      change (acked (Acked :: used)) with (S (acked used)).
      split_and!; [done|lia|]. intros Hr. by rewrite Hok.
    + intros [= <- <-]. exists [AckDisconnected]. split_and!; [done|cbn; lia|done].
Qed.

Lemma write_chunks_spec pieces (o : bytes) acks r o' acks' :
  Forall (fun p => (length p <= COMMAND_WRITE_CHUNK_BYTES)%nat) pieces ->
  write_chunks pieces o acks = (r, o', acks') ->
  exists sent used, o' = o ++ sent /\ acks = used ++ acks' /\ sent `prefix_of` concat pieces /\
    (acked used <= length sent <= acked used + COMMAND_WRITE_CHUNK_BYTES)%nat /\
    (r = Ok tt -> sent = concat pieces /\ acked used = length sent).
Proof.
  intros Hp. revert o acks. induction Hp as [|p pieces Hlen Hp IH]; intros o acks; cbn [write_chunks].
  { intros [= <- <- <-]. exists [], []. rewrite app_nil_r. cbn. split_and!; try done; lia. }
  cbn [write_all flush Write_vec]. destruct (await_acks (length p) acks) as [[[]|e] acks1] eqn:Ea.
  - destruct (await_acks_spec _ _ _ _ Ea) as (u1&->&_&Hu1). specialize (Hu1 eq_refl).
    intros E. destruct (IH _ _ E) as (sent&used&->&->&Hpre&Hwin&Hok).
    exists (p ++ sent), (u1 ++ used). rewrite acked_app length_app Hu1. split_and!; try lia.
    + by rewrite app_assoc.
    + by rewrite app_assoc.
    + cbn [concat]. by apply prefix_app.
    + intros [-> ->]%Hok. by cbn [concat].
  - destruct (await_acks_spec _ _ _ _ Ea) as (u1&->&Hu1&_). intros [= <- <- <-].
    exists p, u1. split_and!; try done; [|lia]. cbn [concat]. by apply prefix_app_r.
Qed.

(** C30. The command writer keeps the flow-control contract: what it has put on
    the serial line is a prefix of the command's line, never more than one chunk
    of 16 bytes ahead of the acknowledgements it has received, whatever the guest
    answers and whenever it gives up; it succeeds only with the whole line
    written and every byte acknowledged, and leaves later acknowledgements alone. *)
Theorem write_serial_window `{Serde CommandFrame} (o : bytes) acks frame r o' acks' :
  write_serial_command o acks frame = (r, o', acks') ->
  exists sent used, o' = o ++ sent /\ acks = used ++ acks' /\
    (acked used <= length sent <= acked used + COMMAND_WRITE_CHUNK_BYTES)%nat /\
    (forall body, to_vec frame = inl body -> sent `prefix_of` body ++ [NEWLINE]) /\
    (r = Ok tt -> exists body, to_vec frame = inl body /\ zlen body <= MAX_FRAME_LENGTH /\
       sent = body ++ [NEWLINE] /\ acked used = length sent).
Proof.
  unfold write_serial_command. destruct (to_vec frame) as [body|m]; cycle 1.
  { intros [= <- <- <-]. exists [], []. rewrite app_nil_r. split_and!; try done; cbn; lia. }
  destruct (MAX_FRAME_LENGTH <? zlen body) eqn:El.
  { intros [= <- <- <-]. exists [], []. rewrite app_nil_r.
    split_and!; try done; try (cbn; lia). intros b [= <-]. apply prefix_nil. }
  apply Z.ltb_ge in El.
  destruct (chunks_loop_spec (length (body ++ [NEWLINE])) COMMAND_WRITE_CHUNK_BYTES (body ++ [NEWLINE]))
    as [Hc Hf]; [unfold COMMAND_WRITE_CHUNK_BYTES; lia|done|].
  intros E. destruct (write_chunks_spec _ _ _ _ _ _ Hf E) as (sent&used&->&->&Hpre&Hwin&Hok).
  unfold chunks in *. rewrite Hc in Hpre Hok.
  exists sent, used. split_and!; try done; try lia; [by intros b [= <-]|].
  intros Hr. destruct (Hok Hr) as [-> Ha]. by exists body.
Qed.

(** ** The agent's frames are accepted by the host's deserializer *)

Lemma lsteps_readable `{Sha256} lim m es m' :
  lsteps lim m es m' -> Forall (fun e => event_readable e = true) es.
Proof.
  induction 1 as [|m es m1 e m2 _ IH Hs]; [constructor|]. apply list.Forall_app_2; [done|].
  constructor; [|done]. by destruct Hs.
Qed.

Lemma stream_readable `{Sha256} lim fs code : stream_ended lim fs code -> Forall frame_readable fs.
Proof.
  intros (_&_&_&_&(last&Hl%lsteps_readable)&_). rewrite list.Forall_forall in Hl.
  apply list.Forall_forall. intros f Hf. unfold frame_readable.
  destruct (is_process_event f.(event)) eqn:Hp.
  - apply Hl. unfold process. apply list_elem_of_In, filter_In. split; [|done].
    by apply in_map, list_elem_of_In.
  - by destruct (event f).
Qed.

(** ** Reading the agent's stream *)

(** Documented behaviour of [serde_json]: control characters are escaped. *)
Class SerdeText (T : Type) `{Serde T} := {
  to_vec_no_nul v body : to_vec v = inl body -> SERIAL_ACK ∉ body;
}.

#[local] Set Default Proof Using "All".
Section host.
Context `{SerdeLaws EventFrame frame_readable} `{!SerdeText EventFrame}.

(** Interrupted reads are skipped. *)
Lemma read_event_skip r b rest tl :
  delivers r (b :: rest) tl ->
  exists r', delivers r' rest tl /\ (length r' < length r)%nat /\
    forall acc k, read_event_loop acc r k = read_event_loop acc (RByte b :: r') k.
Proof.
  intros Hd. remember (b :: rest) as bs eqn:Ebs.
  induction Hd as [|c r bs tl Hd _|e r c bs tl He Hd IH]; simplify_eq.
  - exists r. split_and!; [done|cbn; lia|done].
  - destruct (IH eq_refl) as (r'&Hr'&Hlen&Heq). exists r'. split_and!; [done|cbn; lia|].
    intros acc k. rewrite -Heq. cbn [read_event_loop]. by rewrite He.
Qed.

Lemma read_event_body body acc r rest tl k :
  SERIAL_ACK ∉ body -> NEWLINE ∉ body -> zlen acc + zlen body <= MAX_FRAME_LENGTH ->
  delivers r (body ++ rest) tl ->
  exists r', delivers r' rest tl /\ (length r' <= length r)%nat /\
    read_event_loop acc r k = read_event_loop (acc ++ body) r' k.
Proof.
  revert acc r. induction body as [|c body IH]; intros acc r Ha Hn Hlen Hd.
  { exists r. by rewrite app_nil_r. }
  cbn [app] in Hd. destruct (read_event_skip _ _ _ _ Hd) as (r1&Hr1&Hl1&->).
  cbn [read_event_loop]. rewrite bool_decide_false; [|set_solver].
  rewrite bool_decide_false; [|set_solver]. rewrite zlen_cons in Hlen. pose proof (zlen_nonneg body).
  destruct (MAX_FRAME_LENGTH <=? zlen acc) eqn:El; [apply Z.leb_le in El; lia|].
  destruct (IH (acc ++ [c]) r1) as (r'&Hr'&Hl'&->); [set_solver|set_solver| |done|].
  - rewrite zlen_app zlen_cons zlen_nil. lia.
  - exists r'. rewrite -app_assoc. split_and!; [done|lia|done].
Qed.

(** A complete line of an encodable frame. *)
Lemma read_event_line f enc r rest tl k :
  frame_readable f -> encoded true f enc -> delivers r (enc ++ rest) tl ->
  exists r', delivers r' rest tl /\ (length r' < length r)%nat /\
    read_event_loop [] r k = (Ok (Some f), r', k).
Proof.
  intros Hf (body&Hb&Hlen&->) Hd. rewrite -app_assoc in Hd. cbn [app] in Hd.
  destruct (read_event_body body [] r (NEWLINE :: rest) tl k) as (r1&Hr1&Hl1&->).
  { by eapply to_vec_no_nul. }
  { by eapply to_vec_one_line. }
  { by rewrite zlen_nil. }
  { done. }
  destruct (read_event_skip _ _ _ _ Hr1) as (r2&Hr2&Hl2&->). exists r2.
  split_and!; [done|lia|]. cbn [read_event_loop app]. rewrite bool_decide_false; [|done].
  rewrite bool_decide_true //. by rewrite (from_to_vec _ _ Hf Hb).
Qed.

(** The reader thread, with [k] acknowledgements already seen. *)
Definition thread_from (k fuel : nat) (r : reader) : list (result (option EventFrame)) * nat :=
  match fuel with
  | O => ([], O)
  | S fuel =>
      let '(event, r, acks) := read_event_loop [] r k in
      match event with
      | Ok (Some _) =>
          let '(events, acks') := event_thread fuel r in (event :: events, acks + acks')%nat
      | _ => ([event], acks)
      end
  end.
Lemma thread_from_0 fuel r : event_thread fuel r = thread_from 0 fuel r.
Proof. by destruct fuel. Qed.

Definition acks_of (b : bytes) : nat := length (List.filter (fun c => bool_decide (c = SERIAL_ACK)) b).

(** A wire as its pieces: acknowledgements and lines. *)
Definition piece (p : option EventFrame) (b : bytes) : Prop :=
  match p with Some f => encoded true f b | None => b = [SERIAL_ACK] end.
Lemma wire_pieces fs b :
  wire_of true [] fs b -> exists ps bs, Forall2 piece ps bs /\ omap id ps = fs /\ b = concat bs.
Proof.
  induction 1 as [|fs b _ (ps&bs&Hp&<-&->)|fs b f enc _ (ps&bs&Hp&<-&->) He].
  - by exists [], [].
  - exists (ps ++ [None]), (bs ++ [[SERIAL_ACK]]). split_and!.
    + apply Forall2_app; [done|by repeat constructor].
    + by rewrite omap_app /= app_nil_r.
    + by rewrite concat_app.
  - exists (ps ++ [Some f]), (bs ++ [enc]). split_and!.
    + apply Forall2_app; [done|by repeat constructor].
    + by rewrite omap_app.
    + by rewrite concat_app /= app_nil_r.
Qed.

Lemma no_acks l : SERIAL_ACK ∉ l -> acks_of l = 0%nat.
Proof.
  unfold acks_of. induction l as [|c l IH]; [done|]. intros Hc. cbn.
  rewrite bool_decide_false; [|set_solver]. apply IH. set_solver.
Qed.
Lemma acks_of_app l1 l2 : acks_of (l1 ++ l2) = (acks_of l1 + acks_of l2)%nat.
Proof. unfold acks_of. by rewrite List.filter_app length_app. Qed.
Lemma acks_of_encoded f enc : encoded true f enc -> acks_of enc = 0%nat.
Proof.
  intros (body&Hb&_&->). rewrite acks_of_app (no_acks body); [done|by eapply to_vec_no_nul].
Qed.

Lemma thread_reads ps bs fuel k r :
  Forall2 piece ps bs -> Forall frame_readable (omap id ps) -> delivers r (concat bs) [] ->
  (length r < fuel)%nat ->
  thread_from k fuel r
  = (map (fun f => Ok (Some f)) (omap id ps) ++ [Ok None], (k + acks_of (concat bs))%nat).
Proof.
  intros Hp. revert fuel k r. induction Hp as [|p b ps bs Hpb Hp IH]; intros fuel k r Hall Hd Hf.
  - destruct fuel as [|fuel]; [lia|]. cbn [concat] in Hd. inversion Hd; subst. cbn.
    by rewrite Nat.add_0_r.
  - destruct fuel as [|fuel]; [lia|]. cbn [concat] in *. destruct p as [f|].
    + apply list.Forall_cons in Hall as [Hfr Hall].
      destruct (read_event_line f b r (concat bs) [] k Hfr Hpb Hd) as (r'&Hr'&Hl&E).
      cbn [thread_from]. rewrite E thread_from_0 (IH fuel 0%nat r' Hall Hr'); [|lia].
      rewrite acks_of_app (acks_of_encoded f b Hpb). reflexivity.
    + cbn in Hpb. subst b. destruct (read_event_skip _ _ _ _ Hd) as (r'&Hr'&Hl&E).
      cbn [thread_from]. rewrite E. cbn [read_event_loop]. rewrite bool_decide_true //.
      pose proof (IH (S fuel) (S k) r' Hall Hr' ltac:(lia)) as Ht. cbn [thread_from] in Ht. rewrite Ht.
      rewrite acks_of_app. cbn [omap list_omap id]. f_equal. change (acks_of [SERIAL_ACK]) with 1%nat. lia.
Qed.

Lemma host_reads_wire fs b r :
  wire_of true [] fs b -> Forall frame_readable fs -> delivers r b [] ->
  host_events r = (map (fun f => Ok (Some f)) fs ++ [Ok None], acks_of b).
Proof.
  intros Hw Hall Hd. destruct (wire_pieces _ _ Hw) as (ps&bs&Hp&<-&->).
  unfold host_events. rewrite thread_from_0 (thread_reads ps bs _ 0 r Hp Hall Hd) //. lia.
Qed.
End host.

(** A frame written before the others. *)
Lemma wire_of_cons `{Serde EventFrame} f enc fs b :
  encoded true f enc -> wire_of true enc fs b -> wire_of true [] (f :: fs) b.
Proof.
  intros Hf. induction 1 as [|fs b Hw IH|fs b g genc Hw IH He].
  - apply (wire_frame true [] [] [] f enc); [constructor|done].
  - by constructor.
  - by apply (wire_frame true [] (f :: fs)).
Qed.

Lemma await_ready_ok fs writer :
  await_ready (MkQemu (map Some (map (fun f => Ok (Some f)) (ready_frame :: fs) ++ [Ok None]))
                 writer [])
  = (Ok tt, MkQemu (map (fun f => Some (Ok (Some f))) fs ++ [Some (Ok None)]) writer []).
Proof.
  transitivity (Ok tt : result unit,
    MkQemu (map Some (map (fun f => Ok (Some f)) fs ++ [Ok None])) writer []); [reflexivity|].
  by rewrite map_app map_map.
Qed.

(** C6. The two ends of the serial channel fit: when a guest starts on an empty
    channel, announces itself and runs its agent to a clean end, then whatever
    bytes arrive at the host's reader thread, with any interruptions, the host
    receives the readiness frame, then exactly the frames of a well-formed
    stream ([stream_ended]: consecutive identifiers, reports that are evaluations
    of the frames before them, network events within the profile, process events
    of the lifecycle machine, no live invocation at the end, the exit code of the
    worst report), then the end of the channel, and as many acknowledgements as
    the guest sent; and the launch accepts the guest. *)
Theorem host_sees_agent {R W} `{Os W} `{Network W} `{Sha256} lim `{!RuntimeOps R W}
    `{!RuntimeLaws R W lim} `{Serde CommandFrame} `{SerdeLaws EventFrame frame_readable} `{!SerdeText EventFrame}
    fuel rf fd (runtime : option R) (w : W) code (s : AgState R bytes W) r :
  match runtime with Some r => rt_at (W := W) (None, Idle) r | None => True end ->
  guest_agent fuel rf fd runtime [] w = Some (Ok code, s) -> delivers r s.(out) [] ->
  exists fs, stream_ended lim fs code /\
    host_events r
    = (Ok (Some ready_frame) :: map (fun f => Ok (Some f)) fs ++ [Ok None], acks_of s.(out)) /\
    forall writer, exists v, await_ready (MkQemu (map Some (host_events r).1) writer []) = (Ok tt, v) /\
      v.(q_events) = map (fun f => Some (Ok (Some f))) fs ++ [Some (Ok None)].
Proof.
  intros Hr. unfold guest_agent.
  destruct (write_line_frame [] ready_frame) as [[[]|e] o] eqn:Ew; [|done]. intros Hrun Hd.
  destruct (write_framed true ready_frame [] o _ Ew) as (p&Hp&Hok). cbn in Hp. specialize (Hok eq_refl).
  destruct (run_serial_stream lim fuel rf fd runtime o w _ s Hr Hrun) as (fs&Hw&Hend).
  assert (Hall : wire_of true [] (ready_frame :: fs) s.(out)) by (subst; by eapply wire_of_cons).
  assert (Hread : Forall frame_readable (ready_frame :: fs)).
  { constructor; [done|]. by eapply stream_readable. }
  pose proof (host_reads_wire _ _ r Hall Hread Hd) as Hev. exists fs. split; [done|]. split; [exact Hev|].
  intros writer. rewrite Hev. eexists. split; [apply await_ready_ok|done].
Qed.

(** ** Witnesses *)

(** A shutdown command whose line is acknowledged, with one acknowledgement to
    spare; and one the guest stops acknowledging. *)
Lemma write_serial_window_witness : exists sent used,
  write_serial_command [] [Acked; Acked; Acked] shutdown_frame
  = (Ok tt, ["s"%byte; NEWLINE], [Acked]) /\
  write_serial_command [] [Acked] shutdown_frame = (Err ack_timeout, ["s"%byte; NEWLINE], []) /\
  ["s"%byte; NEWLINE] = [] ++ sent /\ [Acked] = used ++ [] /\
  (acked used <= length sent <= acked used + COMMAND_WRITE_CHUNK_BYTES)%nat.
Proof.
  destruct (write_serial_window [] [Acked] shutdown_frame (Err ack_timeout) ["s"%byte; NEWLINE] [])
    as (sent&used&Ho&Ha&Hw&_); [vm_compute; reflexivity|].
  exists sent, used. split; [vm_compute; reflexivity|]. split; [vm_compute; reflexivity|].
  exact (conj Ho (conj Ha Hw)).
Defined.

Lemma table_serde_text (table : list EventFrame) : SerdeText EventFrame (H := table_serde table).
Proof.
  constructor. intros v body (i&_&Hlt&->&Hb)%table_serde_to_vec Hin%list_elem_of_singleton.
  rewrite -Hin in Hb. change (byte_Z SERIAL_ACK) with 0 in Hb. lia.
Qed.

#[local] Instance sample_digest : Sha256 := {| sha256_digest _ := [] |}.
#[local] Instance sample_text : DebugStr := {| debug_str s := s |}.
#[local] Instance sample_events : Serde EventFrame := table_serde [stopped_frame; ready_frame].
#[local] Instance sample_runtime_laws : RuntimeLaws Runtime ScriptOs RuntimeConfig_guest.(limits) :=
  linux_laws RuntimeConfig_guest guest_limits_ok.

Lemma host_sees_agent_witness : exists (s : AgState Runtime bytes ScriptOs) fs,
  guest_agent 5 5 3 (Some idle_runtime) [] shutdown_os = Some (Ok 0, s) /\
  stream_ended RuntimeConfig_guest.(limits) fs 0 /\
  host_events (map RByte s.(out))
  = (Ok (Some ready_frame) :: map (fun f => Ok (Some f)) fs ++ [Ok None], 2%nat).
Proof.
  assert (Hs : exists s : AgState Runtime bytes ScriptOs,
    guest_agent 5 5 3 (Some idle_runtime) [] shutdown_os = Some (Ok 0, s) /\ acks_of s.(out) = 2%nat)
    by (eexists; split; vm_compute; reflexivity).
  destruct Hs as (s&E&Hacks). pose proof (delivers_map s.(out) []) as Hd. rewrite app_nil_r in Hd.
  destruct (@host_sees_agent _ _ _ _ _ RuntimeConfig_guest.(limits) _ _ _ sample_events
    (table_serde_laws _ _) (table_serde_text _)
    5%nat 5%nat 3 (Some idle_runtime) shutdown_os 0 s (map RByte s.(out))) as (fs&Hend&Hev&_);
    [by split; [split|]|exact E|exact Hd|].
  exists s, fs. rewrite -Hacks. exact (conj E (conj Hend Hev)).
Defined.
