(* ===== verification/NetworkRun.v ===== *)
(** The network run a scenario plans, as data: the commands with the events that
    answer them on a working network, the frames they make, and the proof that
    this run satisfies the contract of [Assertions], for every valid plan. *)

From stdpp Require Import ssreflect.
From S2P Require Import Prelude Types Std Protocol Scenario Assertions Checker Effects Vm Driver.

(** ** The planned run *)

(** The answer to a request: the fixture echoes it, except in the outage. *)
Definition request_events (ph : RequestPhase) (q : PlannedRequest) : list Event :=
  [RequestAttempted q.(request_id) q.(payload) ph;
   match ph with
   | Outage => RequestUnavailable q.(request_id) ph AdministrativeProhibited (Some EACCES)
   | _ => RequestSucceeded q.(request_id) q.(payload) q.(request_id) q.(payload) ph
   end].

Definition Script : Type := list (Command * list Event).

Definition segment (ph : RequestPhase) (l : list PlannedRequest) : Script :=
  map (fun q => (Request q.(request_id) q.(payload) ph, request_events ph q)) l.

Definition before_outage (p : ChoicePlan) : list PlannedRequest :=
  take (Z.to_nat p.(plan_activation)) p.(plan_requests).
Definition during_outage (p : ChoicePlan) : list PlannedRequest :=
  take (Z.to_nat (p.(plan_restoration) - p.(plan_activation)))
    (drop (Z.to_nat p.(plan_activation)) p.(plan_requests)).
Definition after_outage (p : ChoicePlan) : list PlannedRequest :=
  drop (Z.to_nat p.(plan_restoration)) p.(plan_requests).

Definition configured_event (s : Scenario) : Event :=
  NetworkConfigured "eth0" "10.0.2.15/24" s.(fixture_peer).
Definition activated_event (s : Scenario) : Event :=
  OutageActivated (s.(fixture_peer) +:+ "/32") ("prohibit " +:+ (s.(fixture_peer) +:+ "/32")).
Definition restored_event (s : Scenario) : Event := NetworkRestored (s.(fixture_peer) +:+ "/32").

Definition planned_script (s : Scenario) (p : ChoicePlan) : Script :=
  (configure_command s, [configured_event s])
  :: segment PreOutage (before_outage p)
  ++ (activate_command s, [activated_event s])
  :: segment Outage (during_outage p)
  ++ (restore_command s, [restored_event s])
  :: segment Recovery (after_outage p).

(** The frame of the [n]-th event, answering the [k]-th command. *)
Definition numbered_frame (k n : nat) (e : Event) : EventFrame :=
  {| protocol_version := PROTOCOL_VERSION; event_id := nth_id n; Types.command_id := nth_id k;
     event := e; diagnostics := DiagnosticFields_default |}.
Fixpoint answer_frames (k n : nat) (es : list Event) : list EventFrame :=
  match es with [] => [] | e :: es => numbered_frame k n e :: answer_frames k (S n) es end.
Fixpoint script_frames (k n : nat) (script : Script) : list EventFrame :=
  match script with
  | [] => []
  | (_, es) :: rest => answer_frames k n es ++ script_frames (S k) (n + length es) rest
  end.
Definition planned_frames (s : Scenario) (p : ChoicePlan) : list EventFrame :=
  script_frames 0 0 (planned_script s p).

(** ** Its commands are the driver's *)

Definition total (script : Script) : nat := length (concat (map snd script)).

Lemma total_app s1 s2 : total (s1 ++ s2) = (total s1 + total s2)%nat.
Proof. unfold total. by rewrite map_app concat_app length_app. Qed.
Lemma total_segment ph l : total (segment ph l) = (2 * length l)%nat.
Proof.
  induction l as [|q l IH]; [done|].
  change (total (segment ph (q :: l))) with (2 + total (segment ph l))%nat. rewrite IH /=. lia.
Qed.

Lemma length_answer_frames k n es : length (answer_frames k n es) = length es.
Proof. revert n. induction es as [|e es IH]; intros n; [done|]. cbn. by rewrite IH. Qed.
Lemma length_script_frames k n script : length (script_frames k n script) = total script.
Proof.
  revert k n. induction script as [|[c es] script IH]; intros k n; [done|]. unfold total in *.
  cbn. by rewrite !length_app length_answer_frames IH.
Qed.

Lemma script_frames_app k n s1 s2 :
  script_frames k n (s1 ++ s2)
  = script_frames k n s1 ++ script_frames (k + length s1) (n + total s1) s2.
Proof.
  revert k n. induction s1 as [|[c es] s1 IH]; intros k n; cbn [script_frames app].
  - by rewrite !Nat.add_0_r.
  - rewrite IH app_assoc. unfold total. cbn [map concat length snd]. rewrite length_app. f_equal. f_equal; lia.
Qed.

(** A stretch of requests in one phase. *)
Lemma segment_commands s p ph index l :
  (forall i, index <= i < index + zlen l ->
     i <> p.(plan_activation) /\ i <> p.(plan_restoration) /\
     (if i <? p.(plan_activation) then PreOutage
      else if i <? p.(plan_restoration) then Outage else Recovery) = ph) ->
  request_commands s p index l = map fst (segment ph l).
Proof.
  revert index. induction l as [|q l IH]; intros index Hi; [done|]. cbn [request_commands segment map].
  rewrite zlen_cons in Hi. pose proof (zlen_nonneg l). destruct (Hi index) as (Ha&Hr&Hp); [lia|].
  apply Z.eqb_neq in Ha, Hr. rewrite Ha Hr. cbn [app fst]. f_equal.
  - unfold request_command. by rewrite Hp.
  - apply IH. intros i Hi'. apply Hi. lia.
Qed.

Lemma request_commands_app s p index l1 l2 :
  request_commands s p index (l1 ++ l2)
  = request_commands s p index l1 ++ request_commands s p (index + zlen l1) l2.
Proof.
  revert index. induction l1 as [|q l1 IH]; intros index; cbn [request_commands app].
  - by rewrite zlen_nil Z.add_0_r.
  - rewrite IH zlen_cons -!app_assoc /=.
    by replace (index + 1 + zlen l1) with (index + (zlen l1 + 1)) by lia.
Qed.

(** At a transition index, the transition comes first. *)
Lemma request_commands_at s p index q l :
  request_commands s p index (q :: l)
  = (if index =? p.(plan_activation) then [activate_command s] else [])
    ++ (if index =? p.(plan_restoration) then [restore_command s] else [])
    ++ map fst (segment (if index <? p.(plan_activation) then PreOutage
                         else if index <? p.(plan_restoration) then Outage else Recovery) [q])
    ++ request_commands s p (index + 1) l.
Proof. done. Qed.

Record plan_ok (p : ChoicePlan) : Prop := {
  ok_activation : 1 <= p.(plan_activation) < p.(plan_restoration);
  ok_restoration : p.(plan_restoration) < zlen p.(plan_requests);
  ok_count : zlen p.(plan_requests) <= 256;
}.

Section plan.
Context (s : Scenario) (p : ChoicePlan) (Hok : plan_ok p).

#[local] Set Default Proof Using "All".

Lemma plan_split : p.(plan_requests) = before_outage p ++ during_outage p ++ after_outage p.
Proof.
  destruct Hok. unfold before_outage, during_outage, after_outage.
  replace (drop (Z.to_nat (plan_restoration p)) (plan_requests p))
    with (drop (Z.to_nat (plan_restoration p - plan_activation p))
            (drop (Z.to_nat (plan_activation p)) (plan_requests p)))
    by (rewrite drop_drop; f_equal; lia).
  by rewrite !take_drop.
Qed.

Lemma plan_lengths :
  zlen (before_outage p) = p.(plan_activation) /\
  zlen (during_outage p) = p.(plan_restoration) - p.(plan_activation) /\
  zlen (after_outage p) = zlen p.(plan_requests) - p.(plan_restoration).
Proof.
  destruct Hok. unfold before_outage, during_outage, after_outage, zlen in *.
  rewrite !length_take !length_drop. lia.
Qed.

Lemma plan_heads : exists q1 l1 q2 l2 q3 l3,
  before_outage p = q1 :: l1 /\ during_outage p = q2 :: l2 /\ after_outage p = q3 :: l3.
Proof.
  destruct plan_lengths as (H1&H2&H3), Hok.
  destruct (before_outage p) as [|q1 l1]; [rewrite zlen_nil in H1; lia|].
  destruct (during_outage p) as [|q2 l2]; [rewrite zlen_nil in H2; lia|].
  destruct (after_outage p) as [|q3 l3]; [rewrite zlen_nil in H3; lia|].
  by exists q1, l1, q2, l2, q3, l3.
Qed.

Lemma planned_commands : map fst (planned_script s p) = scenario_commands s p.
Proof.
  destruct plan_heads as (q1&l1&q2&l2&q3&l3&E1&E2&E3).
  destruct plan_lengths as (H1&H2&H3), Hok. pose proof (zlen_nonneg l2). pose proof (zlen_nonneg l3).
  unfold scenario_commands, planned_script. cbn [map fst]. f_equal.
  rewrite plan_split !request_commands_app Z.add_0_l map_app. cbn [map fst]. rewrite map_app.
  cbn [map fst]. rewrite H1 H2. f_equal.
  { symmetry. apply segment_commands. intros i Hi. rewrite H1 in Hi.
    split_and!; [lia|lia|]. destruct (i <? plan_activation p) eqn:E; [done|lia]. }
  rewrite E2 request_commands_at Z.eqb_refl. rewrite (proj2 (Z.eqb_neq _ _)); [|lia].
  rewrite Z.ltb_irrefl (proj2 (Z.ltb_lt _ _)); [|lia]. cbn [app]. f_equal.
  change (q2 :: l2) with ([q2] ++ l2). unfold segment. rewrite (map_app _ [q2] l2) map_app -!app_assoc.
  f_equal. rewrite E2 zlen_cons in H2. f_equal.
  { symmetry. apply segment_commands. intros i Hi. split_and!; [lia|lia|].
    destruct (i <? plan_activation p) eqn:E; [lia|]. destruct (i <? plan_restoration p) eqn:E'; [done|lia]. }
  replace (plan_activation p + (plan_restoration p - plan_activation p)) with (plan_restoration p) by lia.
  rewrite E3 request_commands_at Z.eqb_refl. rewrite (proj2 (Z.eqb_neq _ _)); [|lia].
  rewrite Z.ltb_irrefl (proj2 (Z.ltb_ge _ _)); [|lia]. cbn [app]. f_equal.
  change (q3 :: l3) with ([q3] ++ l3). rewrite (map_app _ [q3] l3) map_app.
  f_equal. rewrite E3 zlen_cons in H3.
  symmetry. apply segment_commands. intros i Hi. split_and!; [lia|lia|].
  destruct (i <? plan_activation p) eqn:E; [lia|]. destruct (i <? plan_restoration p) eqn:E'; [lia|done].
Qed.
End plan.

(** ** Looking into the frames of a script *)

Lemma script_split s1 c es s2 :
  script_frames 0 0 (s1 ++ (c, es) :: s2)
  = script_frames 0 0 s1 ++ answer_frames (length s1) (total s1) es
    ++ script_frames (S (length s1)) (total s1 + length es) s2.
Proof. by rewrite script_frames_app. Qed.

Lemma script_frames_elem k n script f :
  In f (script_frames k n script) -> exists s1 c es s2 j e, script = s1 ++ (c, es) :: s2 /\
    es !! j = Some e /\ f = numbered_frame (k + length s1) (n + total s1 + j) e.
Proof.
  revert k n. induction script as [|[c es] script IH]; intros k n; [done|].
  cbn [script_frames]. intros [Hf|Hf]%in_app_or.
  - exists [], c, es, script. assert (Hes : forall n, In f (answer_frames k n es) ->
      exists j e, es !! j = Some e /\ f = numbered_frame k (n + j) e).
    { clear. induction es as [|e es IH]; intros n; [done|]. intros [<-|Hf].
      - exists 0%nat, e. by rewrite Nat.add_0_r.
      - destruct (IH (S n) Hf) as (j&e'&Hj&->). exists (S j), e'. split; [done|]. f_equal. lia. }
    destruct (Hes _ Hf) as (j&e&Hj&->). exists j, e. cbn. by rewrite !Nat.add_0_r.
  - destruct (IH _ _ Hf) as (s1&c'&es'&s2&j&e&->&Hj&->).
    exists ((c, es) :: s1), c', es', s2, j, e. split; [done|]. split; [done|].
    unfold total. cbn. rewrite length_app. f_equal; lia.
Qed.

Lemma script_events k n script : map event (script_frames k n script) = concat (map snd script).
Proof.
  revert k n. induction script as [|[c es] script IH]; intros k n; [done|].
  cbn [script_frames map concat snd]. rewrite map_app IH. f_equal. clear.
  revert n. induction es as [|e es IH]; intros n; [done|]. cbn. by rewrite IH.
Qed.

Lemma nth_id_inj j k : Z.of_nat (j) < 65536 -> Z.of_nat (k) < 65536 -> nth_id j = nth_id k -> j = k.
Proof. intros Hj Hk. rewrite !nth_id_small; unfold U64_MAX; lia. Qed.
Lemma nth_id_lt j k : (j < k)%nat -> Z.of_nat (k) < 65536 -> nth_id j < nth_id k.
Proof. intros Hj Hk. rewrite !nth_id_small; unfold U64_MAX; lia. Qed.

(** The frames before a command answer other commands. *)
Lemma script_frames_earlier k n script f j :
  In f (script_frames k n script) -> (k + length script <= j)%nat -> Z.of_nat (j) < 65536 ->
  f.(Types.command_id) <> nth_id j.
Proof.
  intros Hf Hj Hsmall. apply script_frames_elem in Hf as (s1&c&es&s2&i&e&->&_&->). cbn.
  rewrite length_app in Hj. cbn in Hj. intros Heq. apply nth_id_inj in Heq; lia.
Qed.

(** A request's answer echoes the attempt that precedes it. *)
Lemma request_answered script s1 c ph q s2 :
  script = s1 ++ (c, request_events ph q) :: s2 ->
  Z.of_nat (length s1 + total s1 + 2) < 65536 -> ph <> Outage ->
  Assertions.answers (script_frames 0 0 script) ph
    (numbered_frame (length s1) (S (total s1))
       (RequestSucceeded q.(request_id) q.(payload) q.(request_id) q.(payload) ph))
    (numbered_frame (length s1) (total s1) (RequestAttempted q.(request_id) q.(payload) ph)).
Proof.
  intros -> Hsmall Hph. exists q.(request_id), q.(payload). split; [done|].
  exists (script_frames 0 0 s1), (numbered_frame (length s1) (S (total s1))
    (match ph with
     | Outage => RequestUnavailable q.(request_id) ph AdministrativeProhibited (Some EACCES)
     | _ => RequestSucceeded q.(request_id) q.(payload) q.(request_id) q.(payload) ph
     end) :: script_frames (S (length s1)) (total s1 + 2) s2).
  split; [by rewrite script_split|]. split.
  - split; [done|]. split; [done|]. cbn. apply nth_id_lt; lia.
  - apply List.Forall_forall. intros f Hf (_&Hid&_). revert Hid.
    eapply script_frames_earlier; [exact Hf|lia|cbn; lia].
Qed.

Lemma request_frames_elem script s1 c ph q s2 :
  script = s1 ++ (c, request_events ph q) :: s2 -> let F := script_frames 0 0 script in
  In (numbered_frame (length s1) (total s1) (RequestAttempted q.(request_id) q.(payload) ph)) F /\
  In (numbered_frame (length s1) (S (total s1))
    (match ph with
     | Outage => RequestUnavailable q.(request_id) ph AdministrativeProhibited (Some EACCES)
     | _ => RequestSucceeded q.(request_id) q.(payload) q.(request_id) q.(payload) ph
     end)) F.
Proof.
  intros -> F. unfold F. rewrite script_split. split; apply in_or_app; right; [by left|right; by left].
Qed.

(** The first frame with a single-event answer. *)
Lemma first_single (P : EventFrame -> Prop) (Q : Event -> Prop) s1 c e s2 :
  (forall f, P f -> Q f.(event)) -> (forall e', In e' (concat (map snd s1)) -> ~ Q e') ->
  P (numbered_frame (length s1) (total s1) e) ->
  first_such P (script_frames 0 0 (s1 ++ (c, [e]) :: s2)) (numbered_frame (length s1) (total s1) e).
Proof.
  intros HPQ HQ HP. eexists _, _. split; [by rewrite script_split|]. split; [done|].
  apply List.Forall_forall. intros f Hf HPf. apply (HQ f.(event)); [|by apply HPQ].
  rewrite -(script_events 0 0). by apply in_map.
Qed.

Definition is_request_event (e : Event) : bool :=
  match e with
  | RequestAttempted _ _ _ | RequestSucceeded _ _ _ _ _ | RequestUnavailable _ _ _ _ => true
  | _ => false
  end.
Lemma segment_events ph l e : In e (concat (map snd (segment ph l))) -> is_request_event e = true.
Proof.
  unfold segment. rewrite map_map. cbn. intros (es&Hes&He)%in_concat.
  apply in_map_iff in Hes as (q&<-&_). destruct He as [<-|[<-|[]]]; [done|by destruct ph].
Qed.
Lemma segment_elem ph l c es : In (c, es) (segment ph l) -> exists q, es = request_events ph q.
Proof. intros (q&[= _ <-]&_)%in_map_iff. by exists q. Qed.

(** ** The planned run passes *)

Section passes.
Context (s : Scenario) (p : ChoicePlan) (Hok : plan_ok p).
Context (Hob : 1 <= s.(outage_event_bound)) (Hlb : 2 <= s.(liveness_event_bound)).

Notation before := (segment PreOutage (before_outage p)).
Notation during := (segment Outage (during_outage p)).
Notation after := (segment Recovery (after_outage p)).
Notation head_ := (configure_command s, [configured_event s]).
Notation to_activation := (head_ :: before).
Notation to_restoration := (to_activation ++ (activate_command s, [activated_event s]) :: during).

Lemma planned_parts :
  planned_script s p = to_activation ++ (activate_command s, [activated_event s])
    :: during ++ (restore_command s, [restored_event s]) :: after.
Proof. done. Qed.
Lemma planned_parts' :
  planned_script s p = to_restoration ++ (restore_command s, [restored_event s]) :: after.
Proof. rewrite planned_parts. by rewrite -!app_assoc. Qed.

#[local] Set Default Proof Using "All".

Lemma planned_small : Z.of_nat (length (planned_script s p) + total (planned_script s p) + 10) < 65536.
Proof.
  destruct (plan_lengths s p Hok) as (H1&H2&H3). destruct Hok. unfold zlen in *.
  unfold planned_script. cbn [length].
  change (total (head_ :: ?l)) with (1 + total l)%nat.
  rewrite !length_app !total_app. cbn [length].
  change (total ((activate_command s, [activated_event s]) :: ?l)) with (1 + total l)%nat.
  rewrite !length_app !total_app. cbn [length].
  change (total ((restore_command s, [restored_event s]) :: ?l)) with (1 + total l)%nat.
  rewrite !total_segment. unfold segment. rewrite !length_map.
  lia.
Qed.

Lemma planned_elem s1 c es s2 :
  planned_script s p = s1 ++ (c, es) :: s2 ->
  es = [configured_event s] \/ es = [activated_event s] \/ es = [restored_event s] \/
  exists ph q, es = request_events ph q.
Proof.
  intros E. assert (Hin : In (c, es) (planned_script s p)).
  { rewrite E. apply in_or_app. right. by left. }
  unfold planned_script in Hin. destruct Hin as [[= _ <-]|Hin]; [by left|].
  apply in_app_or in Hin as [Hin|[[= _ <-]|Hin]]; [|by right; left|].
  { apply segment_elem in Hin as [q ->]. do 3 right. by eexists _, q. }
  apply in_app_or in Hin as [Hin|[[= _ <-]|Hin]]; [|by right; right; left|];
    apply segment_elem in Hin as [q ->]; do 3 right; by eexists _, q.
Qed.

Lemma small_prefix s1 x s2 :
  planned_script s p = s1 ++ x :: s2 -> Z.of_nat (length s1 + total s1 + 2) < 65536.
Proof.
  intros E. pose proof planned_small as Hs. rewrite E length_app total_app in Hs. lia.
Qed.

Lemma planned_intact : responses_intact (planned_frames s p).
Proof.
  intros f Hf. unfold planned_frames in *.
  apply script_frames_elem in Hf as (s1&c&es&s2&j&e&E&Hj&->). rewrite !Nat.add_0_l. cbn [event numbered_frame].
  destruct (planned_elem _ _ _ _ E) as [->|[->|[->|(ph&q&->)]]];
    try (destruct j as [|j]; cbn in Hj; [|done]; by simplify_eq).
  destruct j as [|[|j]]; cbn in Hj; [by simplify_eq| |done]. rewrite Nat.add_1_r. split.
  - intros rid pay rid' pay' ph' Ee. destruct (decide (ph = Outage)) as [->|Hph]; [by simplify_eq|].
    assert (Hev : RequestSucceeded rid pay rid' pay' ph'
                  = RequestSucceeded q.(request_id) q.(payload) q.(request_id) q.(payload) ph)
      by (destruct ph; simplify_eq; done).
    injection Hev as -> -> -> -> ->. rewrite Ee. eexists.
    eapply request_answered; [exact E|by eapply small_prefix|done].
  - intros rid ph' e' Ee. destruct ph; simplify_eq.
Qed.

Lemma planned_network_run :
  network_run (planned_frames s p) s.(outage_event_bound) s.(liveness_event_bound).
Proof.
  destruct (plan_heads s p Hok) as (q1&l1&q2&l2&q3&l3&E1&E2&E3).
  pose proof planned_small as Hsmall.
  pose proof (small_prefix _ _ _ planned_parts) as Ha. pose proof (small_prefix _ _ _ planned_parts') as Hr.
  set (act := numbered_frame (length to_activation) (total to_activation) (activated_event s)).
  set (rst := numbered_frame (length to_restoration) (total to_restoration) (restored_event s)).
  assert (Htr : (total to_activation + 3 <= total to_restoration)%nat).
  { rewrite total_app. change (total ((?c, [?e]) :: ?l)) with (1 + total l)%nat.
    rewrite !total_segment E2. cbn [length]. lia. }
  assert (P1 : planned_script s p = [head_] ++ (Request q1.(request_id) q1.(payload) PreOutage,
    request_events PreOutage q1) :: segment PreOutage l1 ++ (activate_command s, [activated_event s])
      :: during ++ (restore_command s, [restored_event s]) :: after).
  { rewrite planned_parts E1. done. }
  assert (P2 : planned_script s p = (to_activation ++ [(activate_command s, [activated_event s])])
    ++ (Request q2.(request_id) q2.(payload) Outage, request_events Outage q2)
      :: segment Outage l2 ++ (restore_command s, [restored_event s]) :: after).
  { rewrite planned_parts E2 -app_assoc. done. }
  assert (P3 : planned_script s p = (to_restoration ++ [(restore_command s, [restored_event s])])
    ++ (Request q3.(request_id) q3.(payload) Recovery, request_events Recovery q3)
      :: segment Recovery l3).
  { rewrite planned_parts' E3. apply (app_assoc to_restoration [_] (_ :: _)). }
  pose proof (small_prefix _ _ _ P1) as S1. pose proof (small_prefix _ _ _ P2) as S2.
  pose proof (small_prefix _ _ _ P3) as S3.
  exists (numbered_frame 0 0 (configured_event s)), s.(fixture_peer), act, rst. cbv zeta. split_and!.
  - unfold planned_frames. rewrite planned_parts. eexists [], _. split; [reflexivity|].
    split; [by eexists _, _, _|constructor].
  - by eexists _, _.
  - unfold planned_frames. rewrite planned_parts.
    apply (first_single _ (fun e => is_request_event e = false /\ forall g, e <> configured_event g)).
    + intros f [-> _]. by split.
    + intros e He (Hq&Hc). change (In e (configured_event s :: concat (map snd before))) in He.
      destruct He as [<-|He]; [by destruct (Hc s)|]. apply segment_events in He. congruence.
    + split; [done|]. cbn [event_id numbered_frame]. apply nth_id_lt; [cbn; lia|lia].
  - unfold planned_frames. rewrite planned_parts'.
    apply (first_single _ (fun e => is_request_event e = false /\
      (forall g, e <> configured_event g) /\ forall g, e <> activated_event g)).
    + intros f [-> _]. by split_and!.
    + rewrite map_app concat_app. intros e He (Hq&Hc&Ha').
      change (In e ((configured_event s :: concat (map snd before))
                    ++ activated_event s :: concat (map snd during))) in He.
      apply in_app_or in He as [[<-|He]|[<-|He]]; [by destruct (Hc s)| |by destruct (Ha' s)|];
        apply segment_events in He; congruence.
    + split; [done|]. unfold act. cbn [event_id numbered_frame]. apply nth_id_lt; lia.
  - apply planned_intact.
  - pose proof (request_answered _ _ _ PreOutage q1 _ P1 S1 ltac:(done)) as Hans.
    destruct (request_frames_elem _ _ _ PreOutage q1 _ P1) as [_ Hin].
    eexists _, _. split; [exact Hin|]. split; [exact Hans|].
    unfold act. cbn [event_id numbered_frame]. apply nth_id_lt; [|lia].
    change (total (head_ :: ?l)) with (1 + total l)%nat. rewrite total_segment E1.
    change (total []) with 0%nat. cbn [length]. lia.
  - destruct (request_frames_elem _ _ _ Outage q2 _ P2) as [Hin Hin'].
    eexists _, _, q2.(request_id), q2.(payload).
    split; [exact Hin|]. split; [exact Hin'|]. rewrite total_app.
    change (total [?x]) with 1%nat. unfold act, rst. cbn [event_id numbered_frame event Types.command_id].
    split_and!; [done|done|done|apply nth_id_lt; lia|apply nth_id_lt; lia|apply nth_id_lt; lia|].
    rewrite !nth_id_small; unfold U64_MAX; lia.
  - pose proof (request_answered _ _ _ Recovery q3 _ P3 S3 ltac:(done)) as Hans.
    destruct (request_frames_elem _ _ _ Recovery q3 _ P3) as [_ Hin].
    eexists _, _. split; [exact Hin|]. split; [exact Hans|].
    rewrite total_app in S3 |- *. change (total [?x]) with 1%nat in *.
    unfold rst. cbn [event_id numbered_frame]. rewrite !nth_id_small; unfold U64_MAX; lia.
Qed.
End passes.

(** ** Scripts answer their commands *)

Lemma script_frames_ids k n script i f :
  script_frames k n script !! i = Some f -> f.(event_id) = nth_id (n + i).
Proof.
  assert (Hes : forall k n es i f, answer_frames k n es !! i = Some f -> f.(event_id) = nth_id (n + i)).
  { clear. intros k n es. revert n. induction es as [|e es IH]; intros n [|i] f; cbn; [done|done| |].
    - intros [= <-]. by rewrite Nat.add_0_r.
    - intros Hf. rewrite (IH _ _ _ Hf). f_equal. lia. }
  revert k n i. induction script as [|[c es] script IH]; intros k n i; [done|]. cbn [script_frames].
  intros [Hf|[Hi Hf]]%lookup_app_Some; [by eapply Hes|]. rewrite length_answer_frames in Hi, Hf.
  rewrite (IH _ _ _ Hf). f_equal. lia.
Qed.

Lemma script_event_ids script : event_ids (script_frames 0 0 script).
Proof. intros i f Hf. by rewrite (script_frames_ids _ _ _ _ _ Hf). Qed.

(** A command with as many events as it is answered by, each of the right form. *)
Definition answered (entry : Command * list Event) : Prop :=
  length entry.2 = response_count entry.1 /\
  forall j e, entry.2 !! j = Some e -> response_matches entry.1 (Z.of_nat j) e = true.

Lemma answered_group c es k n : answered (c, es) -> response_group c (nth_id k) (answer_frames k n es).
Proof.
  intros [Hl Hm]. split; [by rewrite length_answer_frames|]. cbn in Hl, Hm. intros j f Hf.
  assert (Hj : exists e, es !! j = Some e /\ f = numbered_frame k (n + j) e).
  { clear -Hf. revert n j Hf. induction es as [|e es IH]; intros n [|j]; cbn; [done|done| |].
    - intros [= <-]. exists e. by rewrite Nat.add_0_r.
    - intros (e'&He'&->)%IH. exists e'. split; [done|]. f_equal. lia. }
  destruct Hj as (e&He&->). split_and!; [done|done|by apply Hm].
Qed.

Lemma script_transcript script :
  Forall answered script -> transcript (map fst script) (script_frames 0 0 script).
Proof.
  induction script as [|[c es] script IH] using rev_ind; intros Hs; [apply transcript_nil|].
  apply list.Forall_app in Hs as [Hs [Hc _]%list.Forall_cons]. rewrite map_app script_frames_app.
  cbn [map fst script_frames Nat.add]. rewrite app_nil_r.
  apply transcript_snoc; [by apply IH|]. rewrite length_map. by apply answered_group.
Qed.

Lemma planned_answered s p : Forall answered (planned_script s p).
Proof.
  assert (Hseg : forall ph l, Forall answered (segment ph l)).
  { intros ph l. apply list.Forall_forall. intros [c es] Hin.
    apply list_elem_of_In, in_map_iff in Hin as (q&[= <- <-]&_). split; [done|].
    intros [|[|j]] e; cbn; [| |done]; intros [= <-]; cbn; [by rewrite !bool_decide_true|].
    by destruct ph; cbn; rewrite !bool_decide_true. }
  unfold planned_script. constructor.
  { split; [done|]. intros [|j] e; cbn; [|done]. intros [= <-]. cbn. by rewrite !bool_decide_true. }
  apply list.Forall_app. split; [apply Hseg|]. constructor.
  { split; [done|]. intros [|j] e; cbn; [|done]. intros [= <-]. cbn. by rewrite !bool_decide_true. }
  apply list.Forall_app. split; [apply Hseg|]. constructor; [|apply Hseg].
  split; [done|]. intros [|j] e; cbn; [|done]. intros [= <-]. cbn. by rewrite !bool_decide_true.
Qed.

(** The report of any history has the profile's shape. *)
Lemma evaluate_valid events outage_bound recovery_bound :
  valid_report (evaluate events outage_bound recovery_bound) = true.
Proof.
  assert (Hshape : forall a1 a2 a3 a4, map name [a1; a2; a3; a4] = NETWORK_PROFILE ->
    valid_report (report_of [a1; a2; a3; a4]) = true).
  { intros [n1 p1 d1] [n2 p2 d2] [n3 p3 d3] [n4 p4 d4]. cbn. intros [= -> -> -> ->].
    unfold valid_report, valid_profile. cbn [assertions report_of passed].
    change (profile_loop _ _ _) with (Some [true; true; true; true]). cbn. by rewrite eqb_reflx. }
  unfold evaluate. cbv zeta. apply Hshape. unfold NETWORK_PROFILE. cbn [map].
  repeat case_match; done.
Qed.

(** The frames after the traffic: the report and the end. *)
Definition closing_script (s : Scenario) (report : AssertionReport) : Script :=
  [(check_command s, [AssertionsEvaluated report]); (Shutdown, [AgentStopped])].
Definition planned_report (s : Scenario) (p : ChoicePlan) : AssertionReport :=
  evaluate (planned_frames s p) s.(outage_event_bound) s.(liveness_event_bound).
Definition full_script (s : Scenario) (p : ChoicePlan) : Script :=
  planned_script s p ++ closing_script s (planned_report s p).
Definition full_frames (s : Scenario) (p : ChoicePlan) : list EventFrame :=
  script_frames 0 0 (full_script s p).

(** A machine that delivers the planned frames drives the scenario to its end. *)
Lemma planned_drive {V} `{FeedVm V} `{PrettyDebug} s p (vm : V) send expected d m :
  plan_ok p -> feeds (length (full_script s p) + m) (full_frames s p) vm ->
  match expected with Some es => es = map normalize (full_frames s p) | None => True end ->
  exists c, drive_scenario_inner s p vm send expected d
            = Some (Ok (map normalize (full_frames s p), planned_report s p), c).
Proof.
  intros Hok Hf Hexp. pose proof (planned_commands s p Hok) as Hcmds.
  assert (Hn : length (scenario_commands s p) = length (planned_script s p)).
  { by rewrite -Hcmds length_map. }
  set (n := length (planned_script s p)) in *.
  set (checked := numbered_frame n (total (planned_script s p)) (AssertionsEvaluated (planned_report s p))).
  set (stopped := numbered_frame (S n) (total (planned_script s p) + 1) AgentStopped).
  assert (Hframes : full_frames s p = planned_frames s p ++ [checked] ++ [stopped]).
  { unfold full_frames, full_script. by rewrite script_frames_app. }
  rewrite Hframes in Hf Hexp |- *.
  apply (drive_feeds s p vm send expected d (planned_frames s p) checked stopped _ m); try done.
  - rewrite Hn. by unfold full_script, closing_script in Hf; rewrite length_app in Hf.
  - rewrite -Hframes. apply script_event_ids.
  - rewrite -Hcmds. apply script_transcript, planned_answered.
  - rewrite Hn. apply (answered_group _ [_]). split; [done|].
    intros [|j] e; cbn; [|done]. intros [= <-]. apply evaluate_valid.
  - rewrite Hn. apply (answered_group _ [_]). split; [done|]. intros [|j] e; cbn; [|done]. by intros [= <-].
Qed.
