(* ===== verification/GuestRun.v ===== *)
(** The guest agent serving the network scenario: on a system whose tools, routes
    and fixture work ([GuestNet]), the real control loop of [Agent] answers a
    script of commands with exactly the events the script lists, whatever the
    chunks in which the commands arrive, and stops after the shutdown. *)

From stdpp Require Import ssreflect.
From Stdlib Require Import Strings.Byte.
From S2P Require Import Prelude Types Std Protocol Scenario Assertions Tree Spec Fixture Effects Vm Driver.
From S2P Require Import Os Runtime Launch RuntimeApi Lifecycle Agent Serial AgentStream NetworkRun.

(** ** A working guest system *)

Definition DRIVER_LINK : bytes := as_bytes "/sys/class/net/eth0/device/driver".

(** The tools that bring the interface up. *)
Definition setup_tools : list (list string) := [
  ["insmod"; "/modules/mii.ko"]; ["insmod"; "/modules/8139cp.ko"];
  ["ip"; "link"; "set"; INTERFACE; "up"];
  ["ip"; "address"; "add"; GUEST_CIDR; "dev"; INTERFACE];
  ["ip"; "route"; "add"; "default"; "via"; GATEWAY]]%string.
Definition route_tool (action : string) : list string :=
  ["ip"; "route"; action; "prohibit"; PEER_CIDR].

(** Whether the prohibiting route is installed, and what reads of the control
    channel will return. *)
Record GuestView := View { outage_on : bool; inbox : list bytes }.

(** Documented behaviour of the guest system: the tools succeed and the route
    tool changes the route it names; a socket to the peer reaches a server of the
    fixture's files unless the route prohibits it, when the first datagram is
    refused with [EACCES]; waiting for the control channel ends while it holds
    input, perhaps after interruptions. *)
Class GuestNet (W : Type) `{Os W} `{Network W} (fd : Fd) (files : list (string * bytes)) := {
  view : W -> GuestView;
  lag : W -> nat;
  net_tool tool w : In tool setup_tools -> exists st w',
    run_status tool w = (inl st, w') /\ st.(status_success) = true /\ view w' = view w;
  net_driver w : exists target w', fs_read_link DRIVER_LINK w = (inl target, w') /\
    file_name target = Some (as_bytes "8139cp") /\ view w' = view w;
  net_route (active : bool) w : (view w).(outage_on) = negb active -> exists st w',
    run_status (route_tool (if active then "add" else "del")) w = (inl st, w') /\
    st.(status_success) = true /\ view w' = View active (view w).(inbox);
  net_show w : exists st w',
    run_output ["ip"; "route"; "show"; "exact"; PEER_CIDR]%string w
    = (inl (st, if (view w).(outage_on) then as_bytes "prohibit 10.0.2.2 " ++ [NEWLINE] else []), w') /\
    st.(status_success) = true /\ view w' = view w;
  net_reached name content w : (view w).(outage_on) = false -> In (name, content) files ->
    exists server w', net_open name w = ((None, serving server content), w') /\ view w' = view w;
  net_refused name w : (view w).(outage_on) = true ->
    exists e rest incoming outgoing w',
      net_open name w = ((None, MkSocket incoming (Some e :: rest) outgoing), w') /\
      e.(raw_os_error) = Some EACCES /\ view w' = view w;
  net_closed socket w : view (net_close socket w) = view w;
  net_poll w : (view w).(inbox) <> [] -> exists r w',
    sys_poll [fd] [] CONTROL_POLL w = (r, w') /\ view w' = view w /\
    ((exists ready, r = inl ready /\ fd ∈ ready) \/
     (lag w' < lag w)%nat /\
     match r with inl ready => fd ∉ ready | inr e => is_kind Interrupted e = true end);
  net_read chunk rest w : (view w).(inbox) = chunk :: rest -> exists w',
    sys_read fd 4096 w = (inl chunk, w') /\ view w' = View (view w).(outage_on) rest;
}.

(** ** The operations of the agent on such a system *)

Section system.
Context {W : Type} `{GuestNet W fd files}.

Lemma run_busybox_ok tool w st w' :
  run_status tool w = (inl st, w') -> st.(status_success) = true -> run_busybox tool w = Some (Ok tt, w').
Proof. intros E Hs. unfold run_busybox, call_or, call. cbv [mbind M_bind]. rewrite E. cbn. by rewrite Hs. Qed.

Lemma configure_network_ok w : exists w', configure_network w = Some (Ok tt, w') /\ view w' = view w.
Proof using Type*.
  assert (Htool : forall tool w (k : M W unit), In tool setup_tools ->
    (forall w', view w' = view w -> exists w2, k w' = Some (Ok tt, w2) /\ view w2 = view w) ->
    exists w2, (_ ← run_busybox tool; k) w = Some (Ok tt, w2) /\ view w2 = view w).
  { intros tool w0 k Hin Hk. destruct (net_tool tool w0 Hin) as (st&w1&E&Hs&Hv).
    cbv [mbind M_bind]. rewrite (run_busybox_ok _ _ _ _ E Hs). by apply Hk. }
  unfold configure_network.
  do 5 (apply Htool; [unfold setup_tools; cbn; tauto|]; intros ?w ?Hv;
        match goal with Hv : view ?w1 = view ?w0 |- exists w2, _ /\ view w2 = view ?w0 => rewrite -Hv; clear Hv end).
  destruct (net_driver w4) as (target&w'&E&Hn&Hv). cbv [mbind M_bind]. unfold call_or, call. cbv [mbind M_bind].
  change (as_bytes "/sys/class/net/eth0/device/driver") with DRIVER_LINK. rewrite E. cbn [mret M_ret].
  rewrite Hn bool_decide_true //. by exists w'.
Qed.

Lemma set_outage_ok active w :
  (view w).(outage_on) = negb active ->
  exists w', set_outage active w = Some (Ok tt, w') /\ view w' = View active (view w).(inbox).
Proof using Type*.
  intros Hon. destruct (net_route active w Hon) as (st&w1&E1&Hs1&Hv1).
  destruct (net_show w1) as (st2&w2&E2&Hs2&Hv2).
  unfold set_outage. cbv [mbind M_bind]. rewrite (run_busybox_ok _ _ _ _ E1 Hs1).
  unfold call_or, call. cbv [mbind M_bind]. rewrite E2. cbn [mret M_ret]. rewrite Hs2 Hv1. cbn [negb outage_on].
  exists w2. split; [|by rewrite Hv2]. by destruct active; vm_compute (outage_present _); cbn.
Qed.

Lemma fixture_request_ok name payload w :
  (view w).(outage_on) = false -> In (name, as_bytes (fixture_response name payload)) files ->
  canonical name payload ->
  exists w', fixture_request name w = Some (Ok (inl (name, payload)), w') /\ view w' = view w.
Proof using Type*.
  intros Hon Hin Hc. destruct (net_reached _ _ w Hon Hin) as (server&w1&E&Hv).
  unfold fixture_request. rewrite E.
  destruct (tftp_request_served GATEWAY (V4 10 0 2 2) name server name payload) as [socket ->]; [done..|].
  eexists. split; [done|]. by rewrite net_closed.
Qed.

Lemma fixture_request_refused name w :
  (view w).(outage_on) = true ->
  exists e w', fixture_request name w = Some (Ok (inr e), w') /\
    e.(raw_os_error) = Some EACCES /\ view w' = view w.
Proof using Type*.
  intros Hon. destruct (net_refused name w Hon) as (e&rest&inc&og&w1&E&He&Hv).
  unfold fixture_request. rewrite E. unfold tftp_request.
  destruct (parse_ip GATEWAY) as [ip|] eqn:Eip; [|by vm_compute in Eip].
  cbn [send_to send_results]. exists e. eexists. split; [done|]. split; [done|]. by rewrite net_closed.
Qed.
End system.

(** ** The agent's state between commands *)

(** The network the agent has established: not configured, or configured with the
    outage off or on. *)
Notation Net := (option bool) (only parsing).

(** The codes of the reports of [es] raise [code]. *)
Definition worst_from (code : Z) (es : list Event) : Z := foldl worst_step code es.

(** What one command is answered in a network state, after the frames [fs], and
    the state it leaves. *)
Inductive serves (files : list (string * bytes)) (fs : list EventFrame)
    : Net -> Command -> list Event -> Net -> Prop :=
  | serves_configure :
      serves files fs None (ConfigureNetwork INTERFACE GUEST_CIDR GATEWAY)
        [NetworkConfigured INTERFACE GUEST_CIDR GATEWAY] (Some false)
  | serves_activate :
      serves files fs (Some false) (ActivateOutage PEER_CIDR)
        [OutageActivated PEER_CIDR OUTAGE_RULE] (Some true)
  | serves_restore :
      serves files fs (Some true) (RestoreNetwork PEER_CIDR) [NetworkRestored PEER_CIDR] (Some false)
  | serves_request ph q :
      validate_request q.(request_id) q.(payload) GATEWAY = Ok tt ->
      (ph <> Outage -> canonical q.(request_id) q.(payload) /\
        In (q.(request_id), as_bytes (fixture_response q.(request_id) q.(payload))) files) ->
      serves files fs (Some (bool_decide (ph = Outage))) (Request q.(request_id) q.(payload) ph)
        (request_events ph q) (Some (bool_decide (ph = Outage)))
  | serves_check ob lb net :
      serves files fs net (Check ob lb) [AssertionsEvaluated (evaluate fs ob lb)] net
  | serves_shutdown net :
      net <> Some true -> serves files fs net Shutdown [AgentStopped] net.

(** A script served from frame [fs] on, as the [k]-th and later commands;
    [false] when it ends with the shutdown. *)
Inductive serves_all (files : list (string * bytes))
    : list EventFrame -> nat -> Net -> Script -> Net -> bool -> Prop :=
  | serves_none fs k net : serves_all files fs k net [] net true
  | serves_last fs k net es net' :
      serves files fs net Shutdown es net' ->
      serves_all files fs k net [(Shutdown, es)] net' false
  | serves_next fs k net c es net1 script net' b :
      c <> Shutdown -> serves files fs net c es net1 ->
      serves_all files (fs ++ answer_frames k (length fs) es) (S k) net1 script net' b ->
      serves_all files fs k net ((c, es) :: script) net' b.

Lemma serves_all_app_inv files fs k net s1 s2 net' b :
  serves_all files fs k net (s1 ++ s2) net' b ->
  (exists net1, serves_all files fs k net s1 net1 true /\
     serves_all files (fs ++ script_frames k (length fs) s1) (k + length s1) net1 s2 net' b) \/
  (s2 = [] /\ serves_all files fs k net s1 net' b).
Proof.
  revert fs k net. induction s1 as [|[c es] s1 IH]; intros fs k net Hs.
  { left. exists net. split; [constructor|]. cbn. by rewrite app_nil_r Nat.add_0_r. }
  cbn [app] in Hs. inversion Hs as [|? ? ? ? ? Hone E1 E2|? ? ? ? ? net1 ? ? ? Hc Hone Hrest]; subst.
  - destruct s1 as [|? ?]; [|done]. cbn in *. subst. right. split; [done|]. by constructor.
  - destruct (IH _ _ _ Hrest) as [(net2&H1&H2)|[-> H1]].
    + left. exists net2. split; [by econstructor|]. cbn [script_frames length].
      rewrite -app_assoc length_app length_answer_frames in H2. by rewrite -Nat.add_succ_comm.
    + right. split; [done|]. by econstructor.
Qed.

(** The frames that carry the commands of a script, from the [k]-th on. *)
Fixpoint script_commands (k : nat) (script : Script) : list CommandFrame :=
  match script with
  | [] => []
  | (c, _) :: rest =>
      {| cmd_protocol_version := PROTOCOL_VERSION; cmd_command_id := nth_id k; command := c |}
      :: script_commands (S k) rest
  end.

Lemma script_commands_frames script : script_commands 0 script = command_frames (map fst script).
Proof.
  enough (forall k, script_commands k script
    = imap (fun i c => {| cmd_protocol_version := PROTOCOL_VERSION; cmd_command_id := nth_id (k + i);
                          command := c |}) (map fst script)) as Hk by apply (Hk 0%nat).
  induction script as [|[c es] script IH]; intros k; [done|].
  cbn [script_commands map fst imap]. rewrite Nat.add_0_r IH. f_equal. apply imap_ext.
  intros i c' _. cbn. do 2 f_equal. lia.
Qed.

Lemma script_commands_app k s1 s2 :
  script_commands k (s1 ++ s2) = script_commands k s1 ++ script_commands (k + length s1) s2.
Proof.
  revert k. induction s1 as [|[c es] s1 IH]; intros k; cbn [app script_commands length].
  - by rewrite Nat.add_0_r.
  - rewrite IH. do 3 f_equal. lia.
Qed.

(** A split of the commands is a split of the script. *)
Lemma script_commands_split k script l1 l2 :
  script_commands k script = l1 ++ l2 -> exists s1 s2, script = s1 ++ s2 /\
    l1 = script_commands k s1 /\ l2 = script_commands (k + length s1) s2.
Proof.
  revert k script. induction l1 as [|c l1 IH]; intros k script E.
  { exists [], script. by rewrite Nat.add_0_r. }
  destruct script as [|[c' es] script]; [done|]. cbn [script_commands app] in E. injection E as <- E.
  destruct (IH _ _ E) as (s1&s2&->&->&->). exists ((c', es) :: s1), s2. split_and!; [done|done|].
  cbn. f_equal. lia.
Qed.

Definition encodable `{Serde EventFrame} (f : EventFrame) : Prop := exists enc, encoded true f enc.

#[local] Set Default Proof Using "All".
Section agent.
Context {R W : Type} `{GuestNet W fd files} `{RuntimeOps R W} `{Serde CommandFrame} `{Serde EventFrame}.
Context (start : bytes).
Notation A := (AgState R bytes W).

Record guest_at (net : Net) (code : Z) (fs : list EventFrame) (box : list bytes) (s : A) : Prop := {
  ga_wire : wire_of true start fs s.(out);
  ga_framing : s.(ag).(line_framing) = true;
  ga_next : s.(ag).(next_event_id) = nth_id (length fs);
  ga_history : s.(ag).(a_events) = List.filter (fun f => is_assertion_event f.(event)) fs;
  ga_configured : s.(ag).(network_configured) = bool_decide (is_Some net);
  ga_outage : s.(ag).(outage_active) = bool_decide (net = Some true);
  ga_runtime : s.(ag).(a_runtime) = None;
  ga_code : s.(ag).(a_exit_code) = code;
  ga_view : view s.(agos) = View (bool_decide (net = Some true)) box;
}.

(** A change of the system that keeps the view. *)
Lemma guest_at_os net code fs box s w :
  guest_at net code fs box s -> view w = View (bool_decide (net = Some true)) box ->
  guest_at net code fs box (MkAg s.(ag) s.(out) w).
Proof. by intros []; constructor. Qed.

Lemma guest_emit net code fs box k e s :
  guest_at net code fs box s -> encodable (numbered_frame k (length fs) e) ->
  exists s', emit (nth_id k) e s = Some (Ok tt, s') /\
    guest_at net code (fs ++ [numbered_frame k (length fs) e]) box s' /\
    s'.(ag).(last_command_id) = s.(ag).(last_command_id).
Proof.
  intros [] (enc&body&Hb&Hlen&Henc). unfold emit. cbv [mbind M_bind gets set_agent modify on_out].
  rewrite ga_framing0. cbn [ag out agos bump_next].
  assert (Hf : event_frame (ag s) (nth_id k) e = numbered_frame k (length fs) e).
  { unfold event_frame. by rewrite ga_next0. }
  assert (Hw : write_line_frame (out s) (numbered_frame k (length fs) e) = (Ok tt, out s ++ enc)).
  { unfold write_line_frame. rewrite Hb. apply Z.ltb_ge in Hlen. rewrite Hlen.
    cbn. by rewrite -app_assoc Henc. }
  rewrite Hf Hw. cbv [mret M_ret].
  destruct (is_assertion_event e) eqn:Ee; (eexists; split; [done|]; split; [|done]); constructor; try done; cbn.
  - apply wire_frame; [done|]. by exists body.
  - by rewrite ga_next0 nth_id_S length_app Nat.add_1_r.
  - by rewrite List.filter_app ga_history0 /= Ee.
  - apply wire_frame; [done|]. by exists body.
  - by rewrite ga_next0 nth_id_S length_app Nat.add_1_r.
  - by rewrite List.filter_app ga_history0 /= Ee app_nil_r.
Qed.

(** The history the agent keeps has the report of all its frames. *)
Lemma guest_evaluate net code fs box s ob lb :
  guest_at net code fs box s -> evaluate s.(ag).(a_events) ob lb = evaluate fs ob lb.
Proof.
  intros []. rewrite ga_history0. apply evaluate_same. unfold same_assertion_events.
  by rewrite filter_idempotent.
Qed.

(** The agent enters another network state. *)
Lemma guest_at_net net net' code fs box s w :
  guest_at net code fs box s -> view w = View (bool_decide (net' = Some true)) box ->
  guest_at net' code fs box
    (MkAg (set_flags (bool_decide (is_Some net')) (bool_decide (net' = Some true)) s.(ag)) s.(out) w).
Proof. by intros []; constructor. Qed.

Lemma guest_emits net code fs box k e s :
  guest_at net code fs box s -> Forall encodable (answer_frames k (length fs) [e]) ->
  exists s', emit (nth_id k) e s = Some (Ok tt, s') /\
    guest_at net code (fs ++ answer_frames k (length fs) [e]) box s'.
Proof.
  intros Hs [He _]%list.Forall_cons. destruct (guest_emit _ _ _ _ k e s Hs He) as (s'&E&Hs'&_).
  by exists s'.
Qed.

Ltac enter_dispatch Hs :=
  pose proof Hs as []; cbv [mbind M_bind lift gets set_agent modify ag_os zoom fail_if mret M_ret throw].

Lemma dispatch_serves rf net net' code fs box k c es s :
  serves files fs net c es net' -> guest_at net code fs box s ->
  Forall encodable (answer_frames k (length fs) es) ->
  exists s', dispatch rf (nth_id k) c s = Some (Ok (negb (bool_decide (c = Shutdown))), s') /\
    guest_at net' (worst_from code es) (fs ++ answer_frames k (length fs) es) box s'.
Proof.
  intros Hserves Hs Henc. destruct Hserves as [| | |ph q Hvalid Hfile|ob lb net|net Hnet]; cbn [dispatch].
  - enter_dispatch Hs. unfold require_network_values. rewrite bool_decide_true //.
    rewrite ga_configured0. change (bool_decide (is_Some None)) with false. cbn iota.
    destruct (configure_network_ok (agos s)) as (w&Ew&Hw). rewrite Ew. cbn [ag out agos].
    rewrite ga_outage0. rewrite ga_view0 in Hw.
    destruct (guest_emits _ _ _ _ k _ _ (guest_at_net None (Some false) code fs box s w Hs Hw) Henc) as (s'&E&Hs').
    cbn in E, Hs'. rewrite E. by exists s'.
  - enter_dispatch Hs. unfold require_network. cbv [mbind M_bind gets].
    rewrite ga_configured0. change (bool_decide (is_Some (Some false))) with true. cbn.
    rewrite ga_outage0. change (bool_decide (Some false = Some true)) with false. cbn iota.
    destruct (set_outage_ok true (agos s)) as (w&Ew&Hw); [by rewrite ga_view0|]. rewrite Ew. cbn [ag out agos].
    rewrite ga_configured0. rewrite ga_view0 in Hw. cbn in Hw.
    destruct (guest_emits _ _ _ _ k _ _ (guest_at_net (Some false) (Some true) code fs box s w Hs Hw) Henc) as (s'&E&Hs').
    cbn in E, Hs'. rewrite E. by exists s'.
  - enter_dispatch Hs. unfold require_network. cbv [mbind M_bind gets].
    rewrite ga_configured0. change (bool_decide (is_Some (Some true))) with true. cbn.
    rewrite ga_outage0. change (bool_decide (Some true = Some true)) with true. cbn [negb].
    destruct (set_outage_ok false (agos s)) as (w&Ew&Hw); [by rewrite ga_view0|]. rewrite Ew. cbn [ag out agos].
    rewrite ga_configured0. rewrite ga_view0 in Hw. cbn in Hw.
    destruct (guest_emits _ _ _ _ k _ _ (guest_at_net (Some true) (Some false) code fs box s w Hs Hw) Henc) as (s'&E&Hs').
    cbn in E, Hs'. rewrite E. by exists s'.
  - enter_dispatch Hs. unfold require_network. cbv [mbind M_bind gets].
    rewrite ga_configured0. change (bool_decide (is_Some (Some _))) with true. cbn iota.
    cbv [mret M_ret]. rewrite Hvalid.
    assert (He1 : encodable (numbered_frame k (length fs) (RequestAttempted (request_id q) (payload q) ph)))
      by by apply list.Forall_cons in Henc as [? _].
    destruct (guest_emit _ _ _ _ k _ _ Hs He1) as (s1&E1&Hs1&_). rewrite E1.
    assert (Hreq : exists r w, fixture_request (request_id q) (agos s1) = Some (Ok r, w) /\
      view w = view (agos s1) /\ [RequestAttempted (request_id q) (payload q) ph;
        request_outcome (request_id q) (payload q) ph r] = request_events ph q).
    { assert (Hon : (view (agos s1)).(outage_on) = bool_decide (ph = Outage)).
      { destruct Hs1. rewrite ga_view1. by destruct ph. }
      destruct (decide (ph = Outage)) as [->|Hph].
      - destruct (fixture_request_refused (request_id q) (agos s1) Hon) as (e&w&E&He&Hv).
        exists (inr e), w. split_and!; [done|done|]. unfold request_outcome. by rewrite He bool_decide_true.
      - rewrite bool_decide_false // in Hon. destruct (Hfile Hph) as [Hcan Hin].
        destruct (fixture_request_ok _ _ (agos s1) Hon Hin Hcan) as (w&E&Hv).
        exists (inl (request_id q, payload q)), w. split_and!; [done|done|]. by destruct ph. }
    destruct Hreq as (r&w&Er&Hv&Hev). rewrite Er. rewrite -Hev in Henc |- *.
    apply list.Forall_cons in Henc as [_ [He2 _]%list.Forall_cons]. clear Hev.
    assert (Hs2 : guest_at (Some (bool_decide (ph = Outage))) code
      (fs ++ [numbered_frame k (length fs) (RequestAttempted (request_id q) (payload q) ph)]) box
      (MkAg (ag s1) (out s1) w)).
    { apply guest_at_os; [done|]. rewrite Hv. by destruct Hs1. }
    assert (Hn : S (length fs) = length (fs ++ [numbered_frame k (length fs) (RequestAttempted (request_id q) (payload q) ph)])).
    { rewrite length_app. cbn. lia. }
    rewrite Hn in He2.
    destruct (guest_emit _ _ _ _ k _ _ Hs2 He2) as (s3&E3&Hs3&_). rewrite E3. exists s3. split; [done|].
    cbn [answer_frames worst_from foldl worst_step]. rewrite Hn (app_assoc fs [_] [_]).
    unfold worst_from. cbn. by destruct r as [[? ?]|?].
  - enter_dispatch Hs. rewrite (guest_evaluate net code fs box s ob lb Hs).
    assert (Hs1 : guest_at net (Z.max code (exit_code (evaluate fs ob lb))) fs box
      (MkAg (set_exit_code (Z.max (a_exit_code (ag s)) (exit_code (evaluate fs ob lb))) (ag s)) (out s) (agos s))).
    { constructor; try done. cbn. by rewrite ga_code0. }
    destruct (guest_emits _ _ _ _ k _ _ Hs1 Henc) as (s'&E&Hs'). rewrite E. by exists s'.
  - enter_dispatch Hs. rewrite ga_outage0. rewrite bool_decide_false //. cbn iota.
    unfold shutdown_runtime. cbv [mbind M_bind gets]. rewrite ga_runtime0. cbn [mret M_ret emit_all].
    destruct (guest_emits _ _ _ _ k _ _ Hs Henc) as (s'&E&Hs'). rewrite E. by exists s'.
Qed.

(** ** The control loop *)

Lemma worst_from_app code es1 es2 : worst_from code (es1 ++ es2) = worst_from (worst_from code es1) es2.
Proof using Type. apply foldl_app. Qed.

Lemma handle_serves rf net net' code fs box k c es s :
  serves files fs net c es net' -> guest_at net code fs box s ->
  Forall encodable (answer_frames k (length fs) es) ->
  exists s', handle rf {| cmd_protocol_version := PROTOCOL_VERSION; cmd_command_id := nth_id k;
                          command := c |} s = Some (Ok (negb (bool_decide (c = Shutdown))), s') /\
    guest_at net' (worst_from code es) (fs ++ answer_frames k (length fs) es) box s'.
Proof.
  intros Hserves Hs Henc. unfold handle. cbn [cmd_protocol_version cmd_command_id command].
  cbv [mbind M_bind lift set_agent modify]. unfold require_version. rewrite Z.eqb_refl.
  eapply dispatch_serves; [done| |done]. destruct Hs; by constructor.
Qed.

Lemma handle_all_serves rf fs k net script net' b code box s :
  serves_all files fs k net script net' b -> guest_at net code fs box s ->
  Forall encodable (script_frames k (length fs) script) ->
  exists s', handle_all rf (script_commands k script) s = Some (Ok b, s') /\
    guest_at net' (worst_from code (concat (map snd script)))
      (fs ++ script_frames k (length fs) script) box s'.
Proof.
  intros Hall. revert code s. induction Hall as [fs k net|fs k net es net' Hone|fs k net c es net1 script net' b Hc Hone _ IH];
    intros code s Hs Henc.
  - exists s. split; [done|]. cbn. by rewrite app_nil_r.
  - cbn [script_frames script_commands handle_all map snd concat] in *. rewrite app_nil_r in Henc.
    destruct (handle_serves rf _ _ _ _ _ k _ _ _ Hone Hs Henc) as (s'&E&Hs').
    cbv [mbind M_bind]. rewrite E. cbn. exists s'. by rewrite !app_nil_r.
  - cbn [script_frames script_commands handle_all map snd concat] in *.
    apply list.Forall_app in Henc as [Henc1 Henc2].
    destruct (handle_serves rf _ _ _ _ _ k _ _ _ Hone Hs Henc1) as (s1&E1&Hs1).
    cbv [mbind M_bind]. rewrite E1 bool_decide_false //. cbn [negb].
    destruct (IH _ _ Hs1) as (s2&E2&Hs2).
    { by rewrite length_app length_answer_frames. }
    exists s2. split; [done|]. by rewrite length_app length_answer_frames -app_assoc -worst_from_app in Hs2.
Qed.

(** Waiting for input ends: the polls before it leave the agent where it was. *)
Lemma poll_waits rf net code fs box b s :
  guest_at net code fs box s -> box <> [] -> exists n s1, guest_at net code fs box s1 /\
    forall fuel, poll_loop (S (n + fuel)) rf fd b s
      = ('(frames, b) ← read_serial_frames fd b;
         match frames with
         | Some frames =>
             continue ← handle_all rf frames;
             if continue : bool then poll_loop fuel rf fd b else mret tt
         | None =>
             a ← gets ag;
             let active := match a.(a_runtime) with Some r => ops_is_active r | None => false end in
             _ ← shutdown_runtime rf;
             if active : bool then throw channel_closed_active else mret tt
         end) s1.
Proof.
  intros Hs Hbox. remember (lag (agos s)) as m eqn:Em. revert s Hs Em.
  induction m as [m IH] using lt_wf_ind. intros s Hs ->.
  destruct (net_poll (agos s)) as (r&w&E&Hv&Hr); [by destruct Hs as []; rewrite ga_view0|].
  assert (Hs1 : guest_at net code fs box (MkAg (ag s) (out s) w)).
  { apply guest_at_os; [done|]. rewrite Hv. by destruct Hs. }
  assert (Hstep : forall fuel, poll_loop (S fuel) rf fd b s
    = match r with
      | inr e => if is_kind Interrupted e then poll_loop fuel rf fd b (MkAg (ag s) (out s) w)
                 else Some (Err (raw_error e), MkAg (ag s) (out s) w)
      | inl ready =>
          if negb (bool_decide (fd ∈ ready)) then poll_loop fuel rf fd b (MkAg (ag s) (out s) w)
          else ('(frames, b) ← read_serial_frames fd b;
         match frames with
         | Some frames =>
             continue ← handle_all rf frames;
             if continue : bool then poll_loop fuel rf fd b else mret tt
         | None =>
             a ← gets ag;
             let active := match a.(a_runtime) with Some r => ops_is_active r | None => false end in
             _ ← shutdown_runtime rf;
             if active : bool then throw channel_closed_active else mret tt
         end) (MkAg (ag s) (out s) w)
      end).
  { intros fuel. cbn [poll_loop]. unfold service_runtime, runtime_output_fds.
    destruct Hs as []. cbv [mbind M_bind gets]. rewrite ga_runtime0. cbv [mret M_ret].
    cbv [ag_os zoom call]. rewrite ga_runtime0. cbn [option_bind]. rewrite E.
    destruct r as [ready|e]; [by destruct (negb _)|by destruct (is_kind _ _)]. }
  destruct Hr as [(ready&->&Hin)|[Hlag Hr]].
  - exists 0%nat, (MkAg (ag s) (out s) w). split; [done|]. intros fuel. rewrite Hstep bool_decide_true //.
  - destruct (IH _ Hlag _ Hs1 eq_refl) as (n&s1&Hg&Hn). exists (S n), s1. split; [done|].
    intros fuel. rewrite Hstep -Hn. destruct r as [ready|e]; [by rewrite bool_decide_false|by rewrite Hr].
Qed.

(** The loop serves a whole script, in whatever chunks it arrives. *)
Lemma poll_loop_serves rf fs k net script net' code box rest tail s :
  serves_all files fs k net script net' false -> guest_at net code fs box s ->
  Forall encodable (script_frames k (length fs) script) -> Forall (fun chunk => chunk <> []) box ->
  NEWLINE ∉ rest -> zlen rest <= MAX_FRAME_LENGTH ->
  stream_frames (rest ++ concat box) = Ok (script_commands k script, tail) ->
  exists n box' s', guest_at net' (worst_from code (concat (map snd script)))
      (fs ++ script_frames k (length fs) script) box' s' /\
    forall fuel, poll_loop (n + fuel) rf fd (MkBuffer rest (zlen rest)) s = Some (Ok tt, s').
Proof.
  revert fs k net script code rest s. induction box as [|chunk box IH];
    intros fs k net script code rest s Hall Hs Henc Hbox Hrest Hlong Hstream.
  { exfalso. rewrite app_nil_r stream_frames_eq split_on_piece // in Hstream. cbn in Hstream.
    apply Z.ltb_ge in Hlong. rewrite Hlong in Hstream. injection Hstream as Hnil _.
    destruct script as [|[? ?] ?]; [by inversion Hall|done]. }
  apply list.Forall_cons in Hbox as [Hchunk Hbox].
  destruct (poll_waits rf _ _ _ _ (MkBuffer rest (zlen rest)) _ Hs) as (n&s1&Hs1&Hloop); [done|].
  destruct (net_read chunk box (agos s1)) as (w&Eread&Hv); [by destruct Hs1 as []; rewrite ga_view0|].
  cbn [concat] in Hstream. rewrite app_assoc stream_frames_app in Hstream.
  destruct (stream_frames (rest ++ chunk)) as [[l1 r1]|e] eqn:E1; [|done]. cbn [mbind result_bind] in Hstream.
  destruct (stream_frames (r1 ++ concat box)) as [[l2 r2]|e] eqn:E2; [|done]. cbn [mbind result_bind] in Hstream.
  injection Hstream as Hcmds <-. destruct (stream_frames_rest _ _ _ E1) as [Hr1 Hl1].
  symmetry in Hcmds. apply script_commands_split in Hcmds as (sc1&sc2&->&->&->).
  rewrite script_frames_app in Henc |- *. apply list.Forall_app in Henc as [Henc1 Henc2].
  set (s2 := MkAg (ag s1) (out s1 ++ repeat SERIAL_ACK (length chunk)) w).
  assert (Hs2 : guest_at net code fs box s2).
  { destruct Hs1. constructor; try done; [|by cbn; rewrite Hv ga_view0].
    unfold s2. cbn [out]. clear -ga_wire0. generalize (length chunk) as m. intros m. revert ga_wire0.
    generalize (out s1) as o. induction m as [|m IH]; intros o Ho; cbn [repeat]; [by rewrite app_nil_r|].
    change (SERIAL_ACK :: repeat SERIAL_ACK m) with ([SERIAL_ACK] ++ repeat SERIAL_ACK m).
    rewrite app_assoc. apply IH. by constructor. }
  pose proof (read_serial_frames_piece fd rest chunk s1 w Hrest Eread Hchunk) as Hread.
  rewrite E1 in Hread. cbn [mbind result_bind] in Hread.
  rewrite map_app concat_app worst_from_app.
  destruct (serves_all_app_inv _ _ _ _ _ _ _ _ Hall) as [(net1&Ha1&Ha2)|[-> Ha1]].
  - destruct (handle_all_serves rf _ _ _ _ _ _ code box s2 Ha1 Hs2 Henc1) as (s3&E3&Hs3).
    destruct (IH _ _ _ _ _ r1 s3 Ha2 Hs3) as (m&box'&s4&Hs4&Hm); [|done..|].
    { by rewrite length_app length_script_frames. }
    rewrite length_app length_script_frames -app_assoc in Hs4.
    exists (S (n + m)), box', s4. split; [done|]. intros fuel.
    change (S (n + m) + fuel)%nat with (S (n + m + fuel)). rewrite -Nat.add_assoc Hloop.
    cbv [mbind M_bind]. rewrite Hread. change (MkAg _ _ _) with s2. rewrite E3. cbn iota. apply Hm.
  - destruct (handle_all_serves rf _ _ _ _ _ _ code box s2 Ha1 Hs2 Henc1) as (s3&E3&Hs3).
    exists (S n), box, s3. split; [by cbn; rewrite !app_nil_r|]. intros fuel.
    change (S n + fuel)%nat with (S (n + fuel)). rewrite Hloop.
    cbv [mbind M_bind]. rewrite Hread. change (MkAg _ _ _) with s2. by rewrite E3.
Qed.
End agent.
