(* ===== verification/EndToEnd.v ===== *)
(** The network scenario from end to end: the host driver of [run.rs] on the
    serial channel of [vm.rs], against the guest agent of [agent.rs] on a working
    guest system and the fixture the run materializes. *)

From stdpp Require Import ssreflect.
From Stdlib Require Import Strings.Byte.
From S2P Require Import Prelude Types Std Protocol Scenario Assertions Tree Spec Fixture Effects Vm Driver.
From S2P Require Import Os Runtime Launch RuntimeApi Lifecycle Agent Serial AgentStream HostSerial NetworkRun.
From S2P Require Import GuestRun.

(** ** The requests of a plan *)

Definition request_char (b : byte) : bool := is_ascii_alphanumeric b || bool_decide (b = "-"%byte).

Lemma request_char_plain b :
  request_char b = true -> byte_Z b < 128 /\ b <> NEWLINE /\ b <> Byte.x0d.
Proof. intros Hb. split_and!; [by destruct b|by intros ->|by intros ->]. Qed.

Lemma lower_hex_request b : lower_hex b = true -> request_char b = true.
Proof. by destruct b. Qed.

Notation plain l := (Forall (fun b => request_char b = true) l).

Lemma plain_newline l : plain l -> NEWLINE ∉ l.
Proof. intros Hl Hin. rewrite list.Forall_forall in Hl. by apply Hl, request_char_plain in Hin as (_&?&_). Qed.

Lemma plain_last prefix l :
  Forall (fun b => b <> Byte.x0d) prefix -> plain l -> list.last (prefix ++ l) <> Some Byte.x0d.
Proof.
  intros Hp Hl Hlast. apply last_Some_elem_of in Hlast. apply elem_of_app in Hlast as [Hin|Hin].
  - rewrite list.Forall_forall in Hp. by apply Hp in Hin.
  - rewrite list.Forall_forall in Hl. by apply Hl, request_char_plain in Hin as (_&_&?).
Qed.

Lemma plain_ascii l : plain l -> is_ascii l.
Proof. intros Hl. eapply list.Forall_impl; [exact Hl|]. intros b Hb. by apply request_char_plain in Hb as [? _]. Qed.

Lemma canonical_plain i p :
  plain (as_bytes i) -> plain (as_bytes p) -> str_len (fixture_response i p) <= MAX_REQUEST_DATA_LENGTH ->
  canonical i p.
Proof.
  intros Hi Hp Hlen. split; [|split_and!; [by apply plain_newline|by apply plain_newline| | |done]].
  - eexists. apply from_utf8_ascii. rewrite fixture_response_bytes.
    assert (Hprefix : forall s, forallb (fun b => byte_Z b <? 128) (as_bytes s) = true -> is_ascii (as_bytes s)).
    { intros s Hs. apply list.Forall_forall. intros b Hin%list_elem_of_In.
      rewrite forallb_forall in Hs. by apply Z.ltb_lt, Hs. }
    unfold is_ascii. rewrite !list.Forall_app !list.Forall_cons !list.Forall_app !list.Forall_cons list.Forall_nil.
    split_and!; try done; by [apply plain_ascii|apply Hprefix].
  - apply plain_last; [|done]. by repeat constructor.
  - apply plain_last; [|done]. by repeat constructor.
Qed.

(** What the agent and the fixture require of a request. *)
Definition request_ok (q : PlannedRequest) : Prop :=
  validate_request q.(request_id) q.(payload) GATEWAY = Ok tt /\ canonical q.(request_id) q.(payload).

Lemma fmt_pad4_plain i : (i < 256)%nat ->
  plain (as_bytes (fmt_pad 4 (Z.of_nat i))) /\ str_len (fmt_pad 4 (Z.of_nat i)) = 4.
Proof.
  intros Hi. assert (Hall : Forall (fun i => forallb request_char (as_bytes (fmt_pad 4 (Z.of_nat i))) = true
    /\ str_len (fmt_pad 4 (Z.of_nat i)) = 4) (seq 0 256)).
  { apply (bool_decide_unpack _). vm_compute. exact I. }
  rewrite list.Forall_forall in Hall. destruct (Hall i) as [Hp Hl].
  { apply elem_of_seq. lia. }
  split; [|done]. apply list.Forall_forall. intros b Hb%list_elem_of_In.
  rewrite forallb_forall in Hp. by apply Hp.
Qed.

Lemma plan_request_ok n pb r k q :
  (n <= 256)%nat -> 1 <= pb <= 16384 -> plan_requests_from n pb 0 r !! k = Some q -> request_ok q.
Proof.
  intros Hn Hpb Hq. assert (Hk : (k < 256)%nat).
  { apply lookup_lt_Some in Hq. rewrite length_plan_requests in Hq. lia. }
  apply plan_requests_lookup in Hq as [[Hlen Hhex] [nonce Hid]]; [|lia].
  rewrite Z.add_0_l in Hid. destruct (fmt_pad4_plain k Hk) as [Hplain Hlen4].
  assert (Hbytes : as_bytes q.(request_id) = as_bytes "request-" ++ as_bytes (fmt_pad 4 (Z.of_nat k))
    ++ as_bytes "-" ++ hex_digits 16 nonce).
  { rewrite Hid !as_bytes_app. unfold fmt_hex. by rewrite as_bytes_str_of. }
  assert (Hidlen : str_len q.(request_id) = 29).
  { unfold str_len in *. rewrite Hbytes !zlen_app Hlen4. unfold zlen at 3. by rewrite length_hex_digits. }
  assert (Hidplain : plain (as_bytes q.(request_id))).
  { rewrite Hbytes. repeat (apply list.Forall_app; split); [by repeat constructor|done|by repeat constructor|].
    eapply list.Forall_impl; [apply hex_digits_lower|]. intros b. apply lower_hex_request. }
  assert (Hpplain : plain (as_bytes q.(payload))).
  { eapply list.Forall_impl; [exact Hhex|]. intros b. apply lower_hex_request. }
  split.
  - unfold validate_request. assert (is_empty (as_bytes q.(request_id)) = false) as ->.
    { rewrite Hbytes. done. }
    assert (forallb request_char (as_bytes q.(request_id)) = true) as Hall.
    { apply forallb_forall. intros b Hb. rewrite list.Forall_forall in Hidplain. by apply Hidplain, list_elem_of_In. }
    unfold request_char in Hall. rewrite Hall Hidlen Hlen. unfold saturating_add64.
    assert (MAX_REQUEST_DATA_LENGTH <? Z.min (29 + 2 * pb) U64_MAX = false) as ->; [|done].
    apply Z.ltb_ge. unfold MAX_REQUEST_DATA_LENGTH. lia.
  - apply canonical_plain; [done..|]. unfold str_len in *. rewrite fixture_response_bytes.
    rewrite !zlen_app !zlen_cons !zlen_app !zlen_cons Hidlen Hlen zlen_nil.
    change (zlen (as_bytes "request_id=")) with 11. change (zlen (as_bytes "payload=")) with 8.
    unfold MAX_REQUEST_DATA_LENGTH. lia.
Qed.

(** Every choice plan is one the run can serve. *)
Lemma choices_ok s seed plan :
  scenario_valid s -> Scenario_choices s seed = Some plan ->
  plan_ok plan /\ Forall request_ok plan.(plan_requests).
Proof.
  intros (_&_&Hc&Hp&_) E. unfold Scenario_choices in E.
  destruct (next seed) as [r1 st1]. destruct (next st1) as [r2 st2].
  destruct (transition_indexes s.(request_count) r1 r2) as (d1&d2&Hd1&Hd2&Ha&Hr); [lia|].
  rewrite Hd1 in E. cbn [mbind option_bind] in E. rewrite Hd2 in E. cbn [mbind option_bind] in E. injection E as <-.
  cbn [plan_activation plan_restoration plan_requests].
  pose proof (length_plan_requests (Z.to_nat (request_count s)) (payload_bytes s) 0 st2) as Hlen.
  split.
  - constructor; cbn; unfold zlen; rewrite ?Hlen; lia.
  - apply list.Forall_forall. intros q [k Hk]%list_elem_of_lookup. eapply plan_request_ok; [| |exact Hk]; lia.
Qed.

(** ** The planned script is served *)

Lemma serves_all_app files fs k net s1 net1 s2 net2 b :
  serves_all files fs k net s1 net1 true ->
  serves_all files (fs ++ script_frames k (length fs) s1) (k + length s1) net1 s2 net2 b ->
  serves_all files fs k net (s1 ++ s2) net2 b.
Proof.
  remember true as c eqn:Ec. intros H1 H2. induction H1 as [fs k net| |fs k net c0 es net0 script net' b' Hc Hone H1 IH];
    [|done|].
  - cbn in H2. by rewrite app_nil_r Nat.add_0_r in H2.
  - cbn [app]. eapply serves_next; [done..|]. apply IH; [done|].
    cbn [script_frames length] in H2.
    by rewrite length_app length_answer_frames -app_assoc Nat.add_succ_comm.
Qed.

Lemma serves_all_one files fs k net c es net' :
  c <> Shutdown -> serves files fs net c es net' -> serves_all files fs k net [(c, es)] net' true.
Proof. intros Hc Hone. eapply serves_next; [done..|constructor]. Qed.

Section served.
Context (files : list (string * bytes)) (requests : list PlannedRequest).
Context (Hok : Forall request_ok requests).
Context (Hfiles : forall q, q ∈ requests ->
  In (q.(request_id), as_bytes (fixture_response q.(request_id) q.(payload))) files).

#[local] Set Default Proof Using "All".

Lemma segment_served ph l fs k :
  (forall q, q ∈ l -> q ∈ requests) ->
  serves_all files fs k (Some (bool_decide (ph = Outage))) (segment ph l)
    (Some (bool_decide (ph = Outage))) true.
Proof.
  revert fs k. induction l as [|q l IH]; intros fs k Hl; [constructor|].
  cbn [segment map]. assert (Hq : q ∈ requests) by (apply Hl; left).
  pose proof Hok as Hall. rewrite list.Forall_forall in Hall. destruct (Hall q Hq) as [Hv Hc].
  eapply serves_next; [done| |].
  - apply serves_request; [done|]. intros _. split; [done|]. by apply Hfiles.
  - apply IH. intros q' Hq'. apply Hl. by right.
Qed.
End served.

Lemma planned_served files s p :
  plan_ok p -> Forall request_ok p.(plan_requests) -> s.(fixture_peer) = GATEWAY ->
  (forall q, q ∈ p.(plan_requests) ->
    In (q.(request_id), as_bytes (fixture_response q.(request_id) q.(payload))) files) ->
  serves_all files [] 0 None (full_script s p) (Some false) false.
Proof.
  intros Hok Hreq Hpeer Hfiles. pose proof (plan_split s p Hok) as Hsplit.
  assert (Hin : forall q, q ∈ before_outage p \/ q ∈ during_outage p \/ q ∈ after_outage p ->
    q ∈ p.(plan_requests)).
  { intros q Hq. rewrite Hsplit !elem_of_app. tauto. }
  unfold full_script. apply (serves_all_app _ _ _ _ _ (Some false)).
  - unfold planned_script, configure_command, configured_event, activate_command, activated_event,
      restore_command, restored_event. rewrite Hpeer.
    eapply serves_next; [done|apply serves_configure|].
    eapply (serves_all_app _ _ _ (Some false) _ (Some false)).
    { apply (segment_served files _ Hreq Hfiles PreOutage). intros q Hq. apply Hin. by left. }
    eapply serves_next; [done|apply serves_activate|].
    eapply (serves_all_app _ _ _ (Some true) _ (Some true)).
    { apply (segment_served files _ Hreq Hfiles Outage). intros q Hq. apply Hin. by right; left. }
    eapply serves_next; [done|apply serves_restore|].
    apply (segment_served files _ Hreq Hfiles Recovery). intros q Hq. apply Hin. by right; right.
  - cbn [app length Nat.add]. eapply serves_next; [done| |].
    + apply serves_check.
    + by apply serves_last, serves_shutdown.
Qed.

(** The entries the run materializes hold the canonical response of every request. *)
Lemma fixture_entries_honest requests q :
  q ∈ requests -> In (q.(request_id), as_bytes (fixture_response q.(request_id) q.(payload)))
    (fixture_entries requests false).
Proof.
  intros [k Hk]%list_elem_of_lookup. apply list_elem_of_In, list_elem_of_lookup. exists k.
  unfold fixture_entries. by rewrite list_lookup_imap Hk.
Qed.

(** ** The whole run *)

Lemma worst_segment code ph l : worst_from code (concat (map snd (segment ph l))) = code.
Proof. induction l as [|q l IH]; [done|]. cbn. by destruct ph. Qed.

Lemma worst_full s p :
  worst_from 0 (concat (map snd (full_script s p))) = Z.max 0 (exit_code (planned_report s p)).
Proof.
  assert (Hcons : forall code c e (script : Script),
    worst_from code (concat (map snd ((c, [e]) :: script)))
    = worst_from (worst_step code e) (concat (map snd script))) by done.
  assert (Happ : forall code (s1 s2 : Script), worst_from code (concat (map snd (s1 ++ s2)))
    = worst_from (worst_from code (concat (map snd s1))) (concat (map snd s2))).
  { intros code s1 s2. by rewrite map_app concat_app worst_from_app. }
  unfold full_script, planned_script, closing_script.
  repeat first [rewrite Happ|rewrite Hcons|rewrite worst_segment]. done.
Qed.

Lemma planned_passes s p :
  plan_ok p -> 1 <= s.(outage_event_bound) -> 2 <= s.(liveness_event_bound) ->
  (planned_report s p).(passed) = true.
Proof. intros Hok Hob Hlb. apply evaluate_network_run. by apply planned_network_run. Qed.

(** No frame of a network run reports an exit. *)
Lemma full_frames_readable s p : Forall frame_readable (full_frames s p).
Proof.
  assert (Hseg : forall ph l, Forall (fun e => event_readable e = true) (concat (map snd (segment ph l)))).
  { intros ph l. apply list.Forall_forall. intros e He%list_elem_of_In%segment_events. by destruct e. }
  assert (Hall : Forall (fun e => event_readable e = true) (map event (full_frames s p))).
  { unfold full_frames. rewrite script_events. unfold full_script, planned_script.
    cbn [map concat snd app]. rewrite !map_app !concat_app. cbn [map concat snd app].
    rewrite !map_app !concat_app. cbn [map concat snd app].
    repeat first [apply list.Forall_nil; done|apply Hseg|apply list.Forall_app; split
      |apply list.Forall_cons; split; [done|]]. }
  by apply list.Forall_fmap in Hall.
Qed.

#[local] Set Default Proof Using "All".
Section run.
Context {R W : Type} `{GuestNet W fd files} `{RuntimeOps R W} `{Serde CommandFrame} `{Serde EventFrame}.

(** The guest, from its readiness frame to the end of its agent. *)
Lemma guest_agent_serves rf script net' chunks tail (w : W) :
  serves_all files [] 0 None script net' false ->
  encodable ready_frame -> Forall encodable (script_frames 0 0 script) ->
  view w = View false chunks -> Forall (fun chunk => chunk <> []) chunks ->
  stream_frames (concat chunks) = Ok (script_commands 0 script, tail) ->
  exists n s, (forall fuel, guest_agent (R := R) (n + fuel) rf fd None [] w
      = Some (Ok (worst_from 0 (concat (map snd script))), s)) /\
    wire_of true [] (ready_frame :: script_frames 0 0 script) s.(out).
Proof.
  intros Hall (enc&Hready) Henc Hview Hchunks Hstream.
  assert (Hw : write_line_frame (@nil byte) ready_frame = (Ok tt, enc)).
  { destruct Hready as (body&Hb&Hl&->). unfold write_line_frame. rewrite Hb. apply Z.ltb_ge in Hl.
    by rewrite Hl. }
  set (s0 := MkAg (Agent_new true (None : option R)) enc w).
  assert (Hs0 : guest_at enc None 0 [] chunks s0) by (constructor; try done; constructor).
  destruct (poll_loop_serves enc rf [] 0 None script net' 0 chunks [] tail s0) as (n&box&s1&Hs1&Hloop);
    [done|done|done|done|apply not_elem_of_nil|done|done|].
  exists n, s1. split.
  - intros fuel. unfold guest_agent. rewrite Hw. unfold run_serial_with_runtime, catch.
    cbv [mbind M_bind gets]. rewrite (Hloop fuel). unfold drop_agent. cbv [mbind M_bind gets].
    destruct Hs1 as [_ _ _ _ _ _ Hrt Hcode _]. by rewrite Hrt Hcode.
  - eapply wire_of_cons; [done|]. by destruct Hs1.
Qed.
End run.

(** The commands of a run, and the files the host materializes for it. *)
Definition run_commands (s : Scenario) (plan : ChoicePlan) : list Command :=
  scenario_commands s plan ++ [check_command s; Shutdown].
Definition run_files (s : Scenario) (plan : ChoicePlan) : list (string * bytes) :=
  fixture_entries plan.(plan_requests) s.(corrupt_responses).


(** ** A concrete guest system *)

(** Whether the prohibiting route is installed, the chunks still to be read, and
    how many polls will be interrupted before the next one. *)
Record GuestWorld := MkWorld { gw_outage : bool; gw_inbox : list bytes; gw_lag : nat }.

Section world.
Context (files : list (string * bytes)).

Definition refusal : RawError := Raw (IoError PermissionDenied "Permission denied") (Some EACCES).
Definition poll_interrupted : RawError := Raw (IoError Interrupted "") (Some 4).
Definition world_route (tool : list string) (w : GuestWorld) : GuestWorld :=
  if bool_decide (tool = route_tool "add") then MkWorld true w.(gw_inbox) w.(gw_lag)
  else if bool_decide (tool = route_tool "del") then MkWorld false w.(gw_inbox) w.(gw_lag)
  else w.

(** Tools succeed; there are no processes and no workload. *)
Instance guest_world_os : Os GuestWorld := {
  sys_read fd n w :=
    match w.(gw_inbox) with
    | [] => (inl [], w)
    | chunk :: rest => (inl chunk, MkWorld w.(gw_outage) rest 1)
    end;
  sys_write _ data w := (inl (zlen data), w);
  sys_close _ w := w;
  sys_pipe2 w := (inl (10, 11), w);
  sys_getfl _ w := (inl 0, w);
  sys_setfl _ _ w := (None, w);
  sys_poll ins outs _ w :=
    match w.(gw_lag) with
    | O => (inl (ins ++ outs), w)
    | S n => (inr poll_interrupted, MkWorld w.(gw_outage) w.(gw_inbox) n)
    end;
  sys_getpid _ := 1;
  sys_fork w := (inl 100, w);
  sys_waitpid _ w := ((0, 0), w);
  sys_kill _ _ w := (None, w);
  sys_now w := (0, w);
  sys_sleep _ w := w;
  fs_read_dir _ w := (inl [], w);
  fs_read _ w := (inl [], w);
  fs_symlink_metadata _ w := (inr poll_interrupted, w);
  fs_exists _ w := (false, w);
  fs_create_dir _ w := (None, w);
  fs_create_dir_all _ w := (None, w);
  fs_remove_dir_all _ w := (None, w);
  fs_set_mode _ _ w := (None, w);
  fs_metadata _ w := (None, w);
  fs_read_link _ w := (inl (as_bytes "../../../../bus/pci/drivers/8139cp"), w);
  fs_symlink _ _ w := (None, w);
  fs_copy _ _ w := (None, w);
  sys_chmod _ _ w := (None, w);
  sys_lchown _ _ _ w := (None, w);
  sys_utimens _ _ w := (None, w);
  sys_mknod_char _ _ _ _ w := (None, w);
  run_status tool w := (inl exited_0, world_route tool w);
  run_output _ w :=
    (inl (exited_0, if w.(gw_outage) then as_bytes "prohibit 10.0.2.2 " ++ [NEWLINE] else []), w);
}.

(** The fixture's server answers a request for the first file of that name. *)
Instance guest_world_network : Network GuestWorld := {
  net_open name w :=
    ((None, if w.(gw_outage) then MkSocket [] [Some refusal] []
            else serving peer_addr (default [] (snd <$> List.find (fun f => bool_decide (f.1 = name)) files))), w);
  net_close _ w := w;
}.

Lemma find_file name content : NoDup (map fst files) -> In (name, content) files ->
  List.find (fun f => bool_decide (f.1 = name)) files = Some (name, content).
Proof using Type.
  induction files as [|[n c] rest IH]; [done|]. cbn. intros [Hn Hnd]%list.NoDup_cons [[= -> ->]|Hin].
  - by rewrite bool_decide_true.
  - rewrite bool_decide_false; [by apply IH|]. intros ->. apply Hn, list_elem_of_In, (in_map fst _ _ Hin).
Qed.

Program Definition guest_world (fd : Fd) (Hnd : NoDup (map fst files)) : GuestNet GuestWorld fd files := {|
  view w := View w.(gw_outage) w.(gw_inbox); lag := gw_lag |}.
Next Obligation.
  intros _ Hnd tool w Hin. exists exited_0, w. split_and!; [|done|done]. cbn.
  assert (world_route tool w = w) as ->; [|done].
  repeat (destruct Hin as [<-|Hin]; [done|]). done.
Qed.
Next Obligation. intros _ _ w. do 2 eexists. split_and!; [done|by vm_compute|done]. Qed.
Next Obligation.
  intros _ _ active w Hon. exists exited_0. eexists. split_and!; [done|done|]. by destruct active.
Qed.
Next Obligation. intros _ _ w. exists exited_0, w. by split_and!. Qed.
Next Obligation.
  intros _ Hnd name content w Hon Hin. exists peer_addr, w. split; [|done]. cbn in *.
  by rewrite Hon (find_file name content).
Qed.
Next Obligation.
  intros _ _ name w Hon. exists refusal, [], [], [], w. cbn in *. by rewrite Hon.
Qed.
Next Obligation. done. Qed.
Next Obligation.
  intros fd _ w _. cbn. destruct (gw_lag w) as [|n] eqn:E.
  - do 2 eexists. split; [done|]. split; [done|]. left. eexists. split; [done|left].
  - do 2 eexists. split; [done|]. split; [done|]. right. cbn. split; [lia|done].
Qed.
Next Obligation.
  intros fd _ chunk rest w Hbox. cbn in *. rewrite Hbox. by eexists.
Qed.
End world.

(** ** A run *)

Definition small_scenario : Scenario :=
  {| version := 1; scenario_name := "small"; request_count := 3; payload_bytes := 2;
     fixture_peer := "10.0.2.2"; outage_event_bound := 2; liveness_event_bound := 2;
     corrupt_responses := false |}.
Definition small_plan : ChoicePlan := Eval vm_compute in
  default drive_choices_sample (Scenario_choices small_scenario 11).
Definition small_files : list (string * bytes) := run_files small_scenario small_plan.
Definition small_commands : list CommandFrame := command_frames (run_commands small_scenario small_plan).
Definition small_frames : list EventFrame := full_frames small_scenario small_plan.

#[local] Instance small_command_serde : Serde CommandFrame := table_serde small_commands.
#[local] Instance small_event_serde : Serde EventFrame := table_serde (ready_frame :: small_frames).

(** The commands' bytes, cut inside a line. *)
Definition small_data : bytes := (write_commands [] small_commands).2.
Definition small_world : GuestWorld := MkWorld false [take 5 small_data; drop 5 small_data] 2.

Lemma table_encodable (table : list EventFrame) f :
  match to_vec (Serde := table_serde table) f with inl _ => true | inr _ => false end = true ->
  encodable (H := table_serde table) f.
Proof.
  destruct (to_vec f) as [body|] eqn:E; [|done]. intros _. exists (body ++ [NEWLINE]), body.
  split_and!; [done| |done]. apply table_serde_to_vec in E as (i&_&_&->&_). by vm_compute.
Qed.

#[local] Instance small_command_laws : SerdeLaws CommandFrame all_readable := table_serde_laws _ small_commands.
#[local] Instance small_event_laws : SerdeLaws EventFrame frame_readable := table_serde_laws _ _.
#[local] Instance small_event_text : SerdeText EventFrame := table_serde_text _.
#[local] Instance small_debug : PrettyDebug := Driver.plain_debug.
#[local] Existing Instance guest_world_os.
#[local] Instance small_network : Network GuestWorld := guest_world_network small_files.

Lemma small_files_distinct : NoDup (map fst small_files).
Proof. apply (bool_decide_unpack _). by vm_compute. Qed.
Lemma small_frames_encodable : Forall encodable small_frames.
Proof.
  apply list.Forall_forall. intros f Hf%list_elem_of_In. apply table_encodable.
  assert (Hall : forallb (fun f => match to_vec f with inl _ => true | inr _ => false end) small_frames = true)
    by by vm_compute.
  rewrite forallb_forall in Hall. by apply Hall.
Qed.

#[local] Instance small_system : GuestNet GuestWorld 3 small_files :=
  guest_world small_files 3 small_files_distinct.

