(* ===== verification/Identity.v ===== *)
(** The machine's identity and its network profile, from [vm.rs].

    [NetworkIdentity_validate] is the gate every network configuration passes;
    [read_fixture_entries_from_handle] reads the fixture that a recording serves,
    over a directory handle that answers like the host's; [digest_fixture_entries]
    gives it an identity; [first_identity_difference] compares the serialized
    identities of a recording and of a replay environment and names the field
    that differs. *)

From stdpp Require Import ssreflect.
From Stdlib Require Import Strings.Byte.
From S2P Require Import Prelude Std Protocol Tree Oci Vm.

(** ** Identities

    The network records are those of [Vm]. *)

#[export] Instance FileIdentity_eq_dec : EqDecision FileIdentity.
Proof. solve_decision. Defined.
#[export] Instance NicIdentity_eq_dec : EqDecision NicIdentity.
Proof. solve_decision. Defined.
#[export] Instance BackendIdentity_eq_dec : EqDecision BackendIdentity.
Proof. solve_decision. Defined.
#[export] Instance ReplayFilterIdentity_eq_dec : EqDecision ReplayFilterIdentity.
Proof. solve_decision. Defined.
#[export] Instance AddressingIdentity_eq_dec : EqDecision AddressingIdentity.
Proof. solve_decision. Defined.
#[export] Instance RouteIdentity_eq_dec : EqDecision RouteIdentity.
Proof. solve_decision. Defined.
#[export] Instance FixtureIdentity_eq_dec : EqDecision FixtureIdentity.
Proof. solve_decision. Defined.
#[export] Instance FaultIdentity_eq_dec : EqDecision FaultIdentity.
Proof. solve_decision. Defined.
#[export] Instance NetworkIdentity_eq_dec : EqDecision NetworkIdentity.
Proof. solve_decision. Defined.

Record VmIdentity := {
  qemu : FileIdentity;
  qemu_version : string;
  kernel : FileIdentity;
  initramfs_sha256 : string;
  machine : string;
  cpu : string;
  memory_mib : Z;
  vcpus : Z;
  accelerator : string;
  firmware : list FileIdentity;
  devices : list string;
  vm_network : option NetworkIdentity;
}.
#[export] Instance VmIdentity_eq_dec : EqDecision VmIdentity.
Proof. solve_decision. Defined.

Record NetworkConfig := {
  net_identity : NetworkIdentity;
  fixture_directory : option bytes;
}.

(** ** The proven network profile *)

Definition restricted_tftp (directory : option bytes)
    (content busybox_sha256 : string) : NetworkConfig := {|
  net_identity := {|
    net_nic := {| nic_model := "rtl8139"; nic_mac_address := "52:54:00:12:34:56"; nic_bus := "pci.0";
              nic_pci_address := "0x3"; nic_option_rom := false |};
    net_backend := {| backend_kind := "user"; backend_id := "simnet"; backend_restricted := true |};
    net_replay_filter := Some {| filter_kind := "filter-replay"; filter_id := "simnet-replay";
                             filter_backend_id := "simnet"; filter_queue := "all" |};
    net_addressing := {| addressing_guest_cidr := "10.0.2.15/24"; addressing_gateway := "10.0.2.2";
                     addressing_peer := "10.0.2.2" |};
    net_route := {| route_destination := "0.0.0.0/0"; route_gateway := "10.0.2.2";
                route_interface := "eth0" |};
    net_fixture := {| fixture_transport := "tftp"; fixture_behavior := "immutable-files";
                  fixture_content_sha256 := content |};
    net_fault := {| fault_mechanism := "prohibit-route"; fault_direction := "outbound";
                fault_peer_cidr := "10.0.2.2/32"; fault_rule := "prohibit 10.0.2.2/32";
                fault_tool := {| file_path := "/bin/busybox"; file_sha256 := busybox_sha256 |} |};
  |};
  fixture_directory := directory |}.

Definition restricted_tftp_replay (content busybox_sha256 : string)
    : NetworkConfig := restricted_tftp None content busybox_sha256.

Definition invalid_network (message : string) : io_error :=
  invalid ("unsafe or unsupported network configuration: " +:+ message).

Definition valid_sha256 (value : string) : bool :=
  (str_len value =? 64) &&
  forallb (fun b => is_ascii_digit b || between 97 102 b) (as_bytes value).

Definition require (condition : bool) (message : string) : result unit :=
  if condition then Ok tt else Err (invalid_network message).

Definition eqs (a b : string) : bool := bool_decide (a = b).

Definition NetworkIdentity_validate (n : NetworkIdentity) : result unit :=
  _ ← require (eqs n.(net_nic).(nic_model) "rtl8139") "only the rtl8139 NIC is supported";
  _ ← require (eqs n.(net_nic).(nic_mac_address) "52:54:00:12:34:56")
    "the NIC MAC must match the proven fixed address";
  _ ← require (eqs n.(net_nic).(nic_bus) "pci.0" && eqs n.(net_nic).(nic_pci_address) "0x3")
    "the NIC must use the proven fixed PCI attachment";
  _ ← require (negb n.(net_nic).(nic_option_rom)) "the NIC option ROM must be disabled";
  _ ← require (eqs n.(net_backend).(backend_kind) "user")
    "TAP, bridge, socket, passthrough, and other network backends are not supported";
  _ ← require (eqs n.(net_backend).(backend_id) "simnet" && n.(net_backend).(backend_restricted))
    "the user network backend must be restricted and use the fixed identifier";
  f ← ok_or n.(net_replay_filter)
    (invalid_network "the replay filter is mandatory for every network backend");
  _ ← require (eqs f.(filter_kind) "filter-replay" && eqs f.(filter_id) "simnet-replay"
      && eqs f.(filter_backend_id) n.(net_backend).(backend_id) && eqs f.(filter_queue) "all")
    "the replay filter must use the proven backend attachment and all queues";
  _ ← require (eqs n.(net_addressing).(addressing_guest_cidr) "10.0.2.15/24"
      && eqs n.(net_addressing).(addressing_gateway) "10.0.2.2" && eqs n.(net_addressing).(addressing_peer) "10.0.2.2")
    "guest addressing must match the proven private user-network profile";
  _ ← require (eqs n.(net_route).(route_destination) "0.0.0.0/0"
      && eqs n.(net_route).(route_gateway) n.(net_addressing).(addressing_gateway)
      && eqs n.(net_route).(route_interface) "eth0")
    "the guest route must match the proven private user-network profile";
  _ ← require (eqs n.(net_fixture).(fixture_transport) "tftp"
      && eqs n.(net_fixture).(fixture_behavior) "immutable-files")
    "only immutable content served by restricted TFTP is supported";
  _ ← require (valid_sha256 n.(net_fixture).(fixture_content_sha256))
    "fixture content must have a lowercase SHA-256 identity";
  _ ← require (eqs n.(net_fault).(fault_mechanism) "prohibit-route" && eqs n.(net_fault).(fault_direction) "outbound"
      && eqs n.(net_fault).(fault_peer_cidr) "10.0.2.2/32"
      && eqs n.(net_fault).(fault_rule) "prohibit 10.0.2.2/32")
    "the fault must be the proven outbound peer-specific prohibit route";
  require (eqs n.(net_fault).(fault_tool).(file_path) "/bin/busybox"
      && valid_sha256 n.(net_fault).(fault_tool).(file_sha256))
    "the fault tool must be the digested /bin/busybox executable".

(** ** Reading a fixture *)

Definition MAX_FIXTURE_FILES : Z := 256.
Definition MAX_FIXTURE_FILE_BYTES : Z := 1024 * 1024.
Definition MAX_FIXTURE_BYTES : Z := 8 * 1024 * 1024.

(** An opened entry: what [fstat] answers (whether it is a regular file, and its
    length), and what reading it to the end would give. *)
Record OpenFile := {
  file_metadata : result (bool * Z);
  file_contents : result bytes;
}.

(** A directory handle as the host presents it: the outcome of duplicating the
    descriptor and opening the stream, what the successive [readdir] calls answer
    (a name, or an error), and what [openat] answers for a name. *)
Record DirectoryHandle := {
  dir_opened : result unit;
  dir_stream : list (result bytes);
  dir_openat : string -> result OpenFile;
}.

Definition fixture_name_byte (b : byte) : bool :=
  between 65 90 b || between 97 122 b || is_ascii_digit b || contains_byte b (as_bytes "._-").

Fixpoint names_loop (stream : list (result bytes)) (names : list string)
    : result (list string) :=
  match stream with
  | [] => Ok names
  | Err e :: _ => Err e
  | Ok raw :: stream =>
      match from_utf8 raw with
      | inr _ => Err (invalid_network "fixture filenames must be valid UTF-8 path components")
      | inl name =>
          if eqs name "." || eqs name ".." then names_loop stream names
          else if zlen names =? MAX_FIXTURE_FILES then
            Err (invalid_network ("record fixture must contain no more than "
              +:+ fmt_dec MAX_FIXTURE_FILES +:+ " regular files"))
          else if eqs name "" || negb (forallb fixture_name_byte (as_bytes name)) then
            Err (invalid_network
              "fixture filenames may contain only ASCII letters, digits, dot, underscore, and hyphen")
          else names_loop stream (names ++ [name])
      end
  end.

Definition read_directory_names (directory : DirectoryHandle) : result (list string) :=
  _ ← directory.(dir_opened); names_loop directory.(dir_stream) [].

(** The closure [names.into_iter().map(..)] applies, with the running total. *)
Definition read_fixture_entry (directory : DirectoryHandle) (total : Z) (name : string)
    : result (bytes * Z) :=
  file ← map_err (fun e => IoError e.(error_kind)
      ("fixture entry is not a readable regular file: " +:+ name +:+ ": " +:+ e.(error_message)))
    (directory.(dir_openat) name);
  '(is_file, len) ← file.(file_metadata);
  if negb is_file || (MAX_FIXTURE_FILE_BYTES <? len) then
    Err (invalid_network ("fixture entry must be a regular file no larger than "
      +:+ fmt_dec MAX_FIXTURE_FILE_BYTES +:+ " bytes: " +:+ name))
  else
    whole ← file.(file_contents);
    let contents := take (Z.to_nat (MAX_FIXTURE_FILE_BYTES + 1)) whole in
    if negb (zlen contents =? len) then
      Err (invalid_network ("fixture entry changed while it was read: " +:+ name))
    else
      total ← ok_or (checked_add64 total (zlen contents)) (invalid_network "fixture size overflowed");
      if MAX_FIXTURE_BYTES <? total then
        Err (invalid_network ("fixture contents must not exceed "
          +:+ fmt_dec MAX_FIXTURE_BYTES +:+ " bytes"))
      else Ok (contents, total).

Fixpoint read_fixture_names (directory : DirectoryHandle) (total : Z) (names : list string)
    : result (list (string * bytes)) :=
  match names with
  | [] => Ok []
  | name :: names =>
      '(contents, total) ← read_fixture_entry directory total name;
      rest ← read_fixture_names directory total names;
      Ok ((name, contents) :: rest)
  end.

Definition string_le (a b : string) : Prop := key_leb a b = true.
#[export] Instance string_le_dec a b : Decision (string_le a b).
Proof. unfold string_le. apply _. Defined.

Definition read_fixture_entries_from_handle (directory : DirectoryHandle)
    : result (list (string * bytes)) :=
  names ← read_directory_names directory;
  let names := merge_sort string_le names in
  if bool_decide (names = []) then
    Err (invalid_network ("record fixture must contain between 1 and "
      +:+ fmt_dec MAX_FIXTURE_FILES +:+ " regular files"))
  else read_fixture_names directory 0 names.

(** [to_le_bytes] of a length. *)
Definition le_bytes (n : nat) (z : Z) : bytes := rev (be_bytes n z).

Definition FIXTURE_PREFIX : bytes := as_bytes "simferret-tftp-fixture-v1" ++ [Byte.x00].

Definition encode_fixture_entry (e : string * bytes) : bytes :=
  le_bytes 8 (str_len e.1) ++ as_bytes e.1 ++ le_bytes 8 (zlen e.2) ++ e.2.

Definition sorted_entries (entries : list (string * bytes)) : list (string * bytes) :=
  merge_sort entry_le entries.

Definition digest_fixture_entries `{Sha256} (entries : list (string * bytes)) : string :=
  let entries := sorted_entries entries in
  hex (sha256_digest (FIXTURE_PREFIX ++ le_bytes 8 (zlen entries)
    ++ flat_map encode_fixture_entry entries)).

(** ** Comparing identities *)

(** Decidable equality of JSON values, for [expected == actual]. *)
Fixpoint Value_eqb (a b : Value) : bool :=
  match a, b with
  | VNull, VNull => true
  | VBool x, VBool y => Bool.eqb x y
  | VNumber x, VNumber y => bool_decide (x = y)
  | VString x, VString y => bool_decide (x = y)
  | VArray x, VArray y =>
      (fix go x y := match x, y with
         | [], [] => true
         | a :: x, b :: y => Value_eqb a b && go x y
         | _, _ => false
         end) x y
  | VObject x, VObject y =>
      (fix go x y := match x, y with
         | [], [] => true
         | (k, a) :: x, (l, b) :: y => bool_decide (k = l) && Value_eqb a b && go x y
         | _, _ => false
         end) x y
  | _, _ => false
  end.

Definition index_path (path : string) (index : Z) : string :=
  path +:+ "[" +:+ fmt_dec index +:+ "]".
Definition field_path (path name : string) : string := path +:+ "." +:+ name.

Fixpoint first_identity_difference (path : string) (expected actual : Value) {struct expected}
    : option string :=
  match expected, actual with
  | VObject expected, VObject actual =>
      (fix fields (rest : Map) : option string :=
         match rest with
         | [] =>
             (fun '(name, _) => field_path path name) <$>
               List.find (fun '(name, _) => negb (contains_key expected name)) actual
         | (name, expected_value) :: rest =>
             match map_get actual name with
             | None => Some (field_path path name)
             | Some actual_value =>
                 match first_identity_difference (field_path path name) expected_value actual_value
                 with
                 | Some difference => Some difference
                 | None => fields rest
                 end
             end
         end) expected
  | VArray expected, VArray actual =>
      (fix items (index : nat) (rest : list Value) : option string :=
         match rest with
         | [] => (fun _ => index_path path (Z.of_nat index)) <$> actual !! index
         | expected_value :: rest =>
             match actual !! index with
             | None => Some (index_path path (Z.of_nat index))
             | Some actual_value =>
                 match first_identity_difference (index_path path (Z.of_nat index))
                         expected_value actual_value with
                 | Some difference => Some difference
                 | None => items (S index) rest
                 end
             end
         end) 0%nat expected
  | _, _ => if Value_eqb expected actual then None else Some path
  end.

(** ** The serialized identities

    [#[derive(Serialize)]] writes every field under its name; [serde_json]'s
    object is a [BTreeMap], which orders them.  [object] takes the fields in the
    order of the struct. *)

Definition object (fields : Map) : Value := VObject (merge_sort entry_le fields).

Definition file_value (f : FileIdentity) : Value :=
  object [("path", VString f.(file_path)); ("sha256", VString f.(file_sha256))].

Definition nic_value (n : NicIdentity) : Value :=
  object [("model", VString n.(nic_model)); ("mac_address", VString n.(nic_mac_address));
          ("bus", VString n.(nic_bus)); ("pci_address", VString n.(nic_pci_address));
          ("option_rom", VBool n.(nic_option_rom))].

Definition backend_value (b : BackendIdentity) : Value :=
  object [("kind", VString b.(backend_kind)); ("id", VString b.(backend_id));
          ("restricted", VBool b.(backend_restricted))].

Definition filter_value (f : ReplayFilterIdentity) : Value :=
  object [("kind", VString f.(filter_kind)); ("id", VString f.(filter_id));
          ("backend_id", VString f.(filter_backend_id)); ("queue", VString f.(filter_queue))].

Definition addressing_value (a : AddressingIdentity) : Value :=
  object [("guest_cidr", VString a.(addressing_guest_cidr)); ("gateway", VString a.(addressing_gateway));
          ("peer", VString a.(addressing_peer))].

Definition route_value (r : RouteIdentity) : Value :=
  object [("destination", VString r.(route_destination)); ("gateway", VString r.(route_gateway));
          ("interface", VString r.(route_interface))].

Definition fixture_value (f : FixtureIdentity) : Value :=
  object [("transport", VString f.(fixture_transport)); ("behavior", VString f.(fixture_behavior));
          ("content_sha256", VString f.(fixture_content_sha256))].

Definition fault_value (f : FaultIdentity) : Value :=
  object [("mechanism", VString f.(fault_mechanism)); ("direction", VString f.(fault_direction));
          ("peer_cidr", VString f.(fault_peer_cidr)); ("rule", VString f.(fault_rule));
          ("tool", file_value f.(fault_tool))].

(** [Option<T>]: [null] or the value. *)
Definition option_value {A} (value : A -> Value) (o : option A) : Value :=
  match o with Some a => value a | None => VNull end.

Definition network_value (n : NetworkIdentity) : Value :=
  object [("nic", nic_value n.(net_nic)); ("backend", backend_value n.(net_backend));
          ("replay_filter", option_value filter_value n.(net_replay_filter));
          ("addressing", addressing_value n.(net_addressing)); ("route", route_value n.(net_route));
          ("fixture", fixture_value n.(net_fixture)); ("fault", fault_value n.(net_fault))].

Definition vm_value (v : VmIdentity) : Value :=
  object ([("qemu", file_value v.(qemu)); ("qemu_version", VString v.(qemu_version));
           ("kernel", file_value v.(kernel)); ("initramfs_sha256", VString v.(initramfs_sha256));
           ("machine", VString v.(machine)); ("cpu", VString v.(cpu));
           ("memory_mib", VNumber (Some v.(memory_mib))); ("vcpus", VNumber (Some v.(vcpus)));
           ("accelerator", VString v.(accelerator));
           ("firmware", VArray (map file_value v.(firmware)));
           ("devices", VArray (map VString v.(devices)))]
    ++ match v.(vm_network) with Some n => [("network", network_value n)] | None => [] end).

Definition identity_differs (field : string) : io_error :=
  invalid_data ("replay environment identity differs at " +:+ field).

(** [None] is the panic of [.expect("unequal identities have a differing field")]. *)
Definition validate_identity_compatibility (expected actual : VmIdentity) : option (result unit) :=
  if bool_decide (expected = actual) then Some (Ok tt)
  else
    field ← first_identity_difference "vm" (vm_value expected) (vm_value actual);
    Some (Err (identity_differs field)).

Definition validate_replay_network_identity (expected : VmIdentity)
    (actual : option NetworkIdentity) : option (result unit) :=
  if bool_decide (expected.(vm_network) = actual) then Some (Ok tt)
  else
    field ← first_identity_difference "vm.network"
      (option_value network_value expected.(vm_network)) (option_value network_value actual);
    Some (Err (identity_differs field)).

(** ** Facts about the comparison *)

Section Value_induction.
Context (P : Value -> Prop) (Hnull : P VNull) (Hbool : forall b, P (VBool b))
  (Hnumber : forall n, P (VNumber n)) (Hstring : forall s, P (VString s))
  (Harray : forall l, Forall P l -> P (VArray l))
  (Hobject : forall m, Forall (fun kv => P kv.2) m -> P (VObject m)).
#[local] Set Default Proof Using "All".

Fixpoint Value_nested_ind (v : Value) : P v :=
  match v with
  | VNull => Hnull
  | VBool b => Hbool b
  | VNumber n => Hnumber n
  | VString s => Hstring s
  | VArray l => Harray l ((fix go l : Forall P l :=
      match l with
      | [] => List.Forall_nil _
      | v :: l => List.Forall_cons _ _ _ (Value_nested_ind v) (go l)
      end) l)
  | VObject m => Hobject m ((fix go m : Forall (fun kv => P kv.2) m :=
      match m with
      | [] => List.Forall_nil _
      | (k, v) :: m => List.Forall_cons _ (k, v) _ (Value_nested_ind v) (go m)
      end) m)
  end.
End Value_induction.

Lemma Value_eqb_eq a : forall b, Value_eqb a b = true <-> a = b.
Proof.
  induction a as [| | | |l IH|m IH] using Value_nested_ind; intros b0; destruct b0; cbn [Value_eqb];
    try (split; [done|by intros [=]]).
  - rewrite Bool.eqb_true_iff. by split; [intros ->|intros [=]].
  - rewrite bool_decide_eq_true. by split; [intros ->|intros [=]].
  - rewrite bool_decide_eq_true. by split; [intros ->|intros [=]].
  - revert items. induction IH as [|v l Hv _ IHl]; intros [|w items]; try done.
    rewrite Bool.andb_true_iff Hv IHl. split; [by intros [-> [= ->]]|by intros [= -> ->]].
  - revert bindings. induction IH as [|[k v] l Hv _ IHl]; intros [|[k' w] items]; try done.
    cbn [snd] in Hv. rewrite !Bool.andb_true_iff bool_decide_eq_true Hv IHl.
    split; [by intros [[-> ->] [= ->]]|by intros [= -> -> ->]].
Qed.

(** An object is a [BTreeMap]: its bindings ascend strictly by key. *)
Inductive value_wf : Value -> Prop :=
  | wf_null : value_wf VNull
  | wf_bool b : value_wf (VBool b)
  | wf_number n : value_wf (VNumber n)
  | wf_string s : value_wf (VString s)
  | wf_array l : (forall v, v ∈ l -> value_wf v) -> value_wf (VArray l)
  | wf_object m : NoDup (map fst m) -> StronglySorted entry_le m ->
      (forall k v, (k, v) ∈ m -> value_wf v) -> value_wf (VObject m).

(** A place inside a value, and what is there. *)
Inductive path_step := Field (name : string) | Index (i : nat).

Definition step_into (v : Value) (s : path_step) : option Value :=
  match s with
  | Field name => value_get v name
  | Index i => l ← as_array v; l !! i
  end.
Fixpoint value_at (v : Value) (steps : list path_step) : option Value :=
  match steps with [] => Some v | s :: steps => v ← step_into v s; value_at v steps end.

Definition step_path (path : string) (s : path_step) : string :=
  match s with Field name => field_path path name | Index i => index_path path (Z.of_nat i) end.
Definition render_path (path : string) (steps : list path_step) : string :=
  fold_left step_path steps path.

(** [steps] leads to a difference, and [d] is its rendering. *)
Definition differs_at (path : string) (a b : Value) (d : string) : Prop :=
  exists steps, d = render_path path steps /\ value_at a steps <> value_at b steps.

Lemma differs_at_step path a b s x y d :
  step_into a s = Some x -> step_into b s = Some y ->
  differs_at (step_path path s) x y d -> differs_at path a b d.
Proof.
  intros Ha Hb (steps&->&Hne). exists (s :: steps). split; [done|].
  cbn [value_at]. by rewrite Ha Hb.
Qed.

Lemma differs_at_one path a b s :
  step_into a s <> step_into b s -> differs_at path a b (step_path path s).
Proof.
  intros Hne. exists [s]. split; [done|]. cbn [value_at].
  destruct (step_into a s), (step_into b s); cbn; naive_solver.
Qed.

Lemma map_get_Some m k v : NoDup (map fst m) -> map_get m k = Some v <-> (k, v) ∈ m.
Proof.
  unfold map_get. induction m as [|[k' v'] m IH]; intros Hnd; cbn [List.find fst].
  { split; [done|by intros ?%elem_of_nil]. }
  inversion_clear Hnd as [|? ? Hnin Hnd']. case_bool_decide as Hk; cbn.
  - subst k'. split; [intros [= ->]; left|].
    intros [[= ->]|Hin]%elem_of_cons; [done|].
    destruct Hnin. apply list_elem_of_In, in_map_iff. exists (k, v).
    split; [done|by apply list_elem_of_In].
  - rewrite IH // elem_of_cons. split; [by right|]. intros [[= -> ->]|]; done.
Qed.

Lemma map_get_None m k : map_get m k = None <-> k ∉ map fst m.
Proof.
  unfold map_get. induction m as [|[k' v'] m IH]; cbn [List.find fst map].
  { split; [by intros _ ?%elem_of_nil|done]. }
  rewrite elem_of_cons. case_bool_decide as Hk; cbn.
  - split; [done|]. intros []. by left.
  - rewrite IH. naive_solver.
Qed.

Lemma index_items_spec path (x y : list Value) (k : nat) (rest : list Value) :
  rest = drop k x -> take k x = take k y ->
  Forall (fun v => forall path w, value_wf v -> value_wf w ->
    match first_identity_difference path v w with
    | None => v = w | Some d => differs_at path v w d end) x ->
  value_wf (VArray x) -> value_wf (VArray y) ->
  match (fix items (index : nat) (rest : list Value) : option string :=
         match rest with
         | [] => (fun _ => index_path path (Z.of_nat index)) <$> y !! index
         | expected_value :: rest =>
             match y !! index with
             | None => Some (index_path path (Z.of_nat index))
             | Some actual_value =>
                 match first_identity_difference (index_path path (Z.of_nat index))
                         expected_value actual_value with
                 | Some difference => Some difference
                 | None => items (S index) rest
                 end
             end
         end) k rest with
  | None => x = y
  | Some d => differs_at path (VArray x) (VArray y) d
  end.
Proof.
  intros Hrest Htake Hall Hx Hy. inversion_clear Hx as [| | | |? Hwx|]. inversion_clear Hy as [| | | |? Hwy|].
  assert (Hstep : forall k, x !! k <> y !! k ->
    differs_at path (VArray x) (VArray y) (index_path path (Z.of_nat k))).
  { intros i Hne. by apply (differs_at_one _ _ _ (Index i)). }
  revert k Hrest Htake. induction rest as [|v rest IH]; intros k Hrest Htake.
  - assert (Hnone : x !! k = None).
    { apply lookup_ge_None. apply (f_equal length) in Hrest. rewrite length_drop in Hrest.
      cbn in Hrest. lia. }
    destruct (y !! k) as [w|] eqn:Hk; cbn.
    + apply Hstep. by rewrite Hnone Hk.
    + apply lookup_ge_None in Hnone, Hk. by rewrite !take_ge in Htake.
  - assert (Hv : x !! k = Some v).
    { rewrite -(Nat.add_0_r k) -lookup_drop -Hrest. done. }
    destruct (y !! k) as [w|] eqn:Hk; [|apply Hstep; by rewrite Hv Hk].
    assert (Hvx : v ∈ x) by by eapply list_elem_of_lookup_2.
    assert (Hwy' : w ∈ y) by by eapply list_elem_of_lookup_2.
    rewrite list.Forall_forall in Hall.
    specialize (Hall v Hvx (index_path path (Z.of_nat k)) w (Hwx _ Hvx) (Hwy _ Hwy')).
    destruct (first_identity_difference _ v w) as [d|].
    + by apply (differs_at_step path _ _ (Index k) v w).
    + subst w. apply IH.
      * by rewrite -Nat.add_1_r -drop_drop -Hrest.
      * by rewrite (take_S_r _ _ _ Hv) (take_S_r _ _ _ Hk) Htake.
Qed.

Lemma fields_spec path (x y : Map) (rest : Map) :
  (forall k v, (k, v) ∈ rest -> (k, v) ∈ x) ->
  (forall k v, (k, v) ∈ x -> (k, v) ∈ rest \/ (k, v) ∈ y) ->
  Forall (fun kv => forall path w, value_wf kv.2 -> value_wf w ->
    match first_identity_difference path kv.2 w with
    | None => kv.2 = w | Some d => differs_at path kv.2 w d end) x ->
  value_wf (VObject x) -> value_wf (VObject y) ->
  match (fix fields (rest : Map) : option string :=
         match rest with
         | [] =>
             (fun '(name, _) => field_path path name) <$>
               List.find (fun '(name, _) => negb (contains_key x name)) y
         | (name, expected_value) :: rest =>
             match map_get y name with
             | None => Some (field_path path name)
             | Some actual_value =>
                 match first_identity_difference (field_path path name) expected_value actual_value
                 with
                 | Some difference => Some difference
                 | None => fields rest
                 end
             end
         end) rest with
  | None => x = y
  | Some d => differs_at path (VObject x) (VObject y) d
  end.
Proof.
  intros Hsub Hdone Hall Hx Hy. inversion_clear Hx as [| | | | |? Hndx Hsx Hwx].
  inversion_clear Hy as [| | | | |? Hndy Hsy Hwy].
  assert (Hstep : forall k, map_get x k <> map_get y k ->
    differs_at path (VObject x) (VObject y) (field_path path k)).
  { intros k Hne. by apply (differs_at_one _ _ _ (Field k)). }
  induction rest as [|[k v] rest IH].
  - destruct (List.find _ y) as [[k w]|] eqn:Hf; cbn.
    + apply find_some in Hf as [Hin Hk%negb_true_iff]. apply Hstep. unfold contains_key in Hk.
      destruct (map_get x k); [done|].
      apply list_elem_of_In, (map_get_Some _ _ _ Hndy) in Hin. by rewrite Hin.
    + apply entry_sorted_unique; [done..|]. apply NoDup_Permutation.
      * by apply (NoDup_fmap_1 fst).
      * by apply (NoDup_fmap_1 fst).
      * intros [k v]. split.
        { intros [?%elem_of_nil|]%Hdone; done. }
        intros Hin. pose proof (proj1 (list_elem_of_In _ _) Hin) as Hin'.
        apply (find_none _ _ Hf), negb_false_iff in Hin'. unfold contains_key in Hin'.
        destruct (map_get x k) as [w|] eqn:Hw; [|done].
        apply map_get_Some in Hw; [|done]. destruct (Hdone _ _ Hw) as [?%elem_of_nil|Hy]; [done|].
        apply map_get_Some in Hin, Hy; [|done..]. by rewrite Hin in Hy; injection Hy as ->.
  - assert (Hkv : (k, v) ∈ x) by (apply Hsub; left).
    pose proof (proj2 (map_get_Some _ _ _ Hndx) Hkv) as Hkx.
    destruct (map_get y k) as [w|] eqn:Hk; [|apply Hstep; by rewrite Hkx Hk].
    pose proof (proj1 (map_get_Some _ _ _ Hndy) Hk) as Hky.
    pose proof (proj1 (list.Forall_forall _ _) Hall _ Hkv (field_path path k) w
      (Hwx _ _ Hkv) (Hwy _ _ Hky)) as Hv. cbn [snd] in Hv.
    destruct (first_identity_difference _ v w) as [d|].
    + by apply (differs_at_step path _ _ (Field k) v w).
    + subst w. apply IH.
      * intros ???. apply Hsub. by right.
      * intros k' v' [[[= -> ->]|]%elem_of_cons|]%Hdone; auto.
Qed.

(** Comparing two serialized identities finds no difference exactly when they are
    equal, and otherwise names a place where they differ. *)
Lemma first_difference_spec a : forall path b, value_wf a -> value_wf b ->
  match first_identity_difference path a b with
  | None => a = b
  | Some d => differs_at path a b d
  end.
Proof.
  assert (Hleaf : forall path a b,
    match (if Value_eqb a b then None else Some path) with
    | None => a = b | Some d => differs_at path a b d end).
  { intros path x y. destruct (Value_eqb x y) eqn:E; [by apply Value_eqb_eq|].
    exists []. split; [done|]. cbn. intros [= Heq%Value_eqb_eq]. congruence. }
  induction a as [| | | |l IH|m IH] using Value_nested_ind; intros path b0 Ha Hb;
    try apply Hleaf.
  - destruct b0; try apply Hleaf. cbn [first_identity_difference].
    pose proof (index_items_spec path l items 0 l eq_refl eq_refl IH Ha Hb) as H.
    revert H. match goal with |- context [match ?e with Some _ => _ | None => _ end] =>
      destruct e end; [done|by intros ->].
  - destruct b0; try apply Hleaf. cbn [first_identity_difference].
    pose proof (fields_spec path m bindings m (fun _ _ H => H) (fun _ _ H => or_introl H) IH Ha Hb)
      as H.
    revert H. match goal with |- context [match ?e with Some _ => _ | None => _ end] =>
      destruct e end; [done|by intros ->].
Qed.

(** ** Serialization keeps identities apart *)

Lemma merge_sort_entries {V} (fields : list (string * V)) :
  StronglySorted entry_le (merge_sort entry_le fields).
Proof.
  apply StronglySorted_merge_sort.
  - intros a b c. apply key_leb_trans.
  - intros a b. apply key_leb_total.
Qed.

Lemma object_wf fields :
  NoDup (map fst fields) -> Forall (fun kv => value_wf kv.2) fields -> value_wf (object fields).
Proof.
  intros Hnd Hall. pose proof (merge_sort_Permutation entry_le fields) as Hp. constructor.
  - change (map fst) with (fmap (M:=list) (@fst string Value)). by rewrite Hp.
  - apply merge_sort_entries.
  - intros k v. rewrite Hp. by apply (proj1 (list.Forall_forall _ _) Hall (k, v)).
Qed.

Lemma object_inj f g :
  map fst f = map fst g -> NoDup (map fst f) -> object f = object g -> f = g.
Proof.
  intros Hk Hnd [= E].
  assert (Hp : f ≡ₚ g).
  { by rewrite -(merge_sort_Permutation entry_le f) E merge_sort_Permutation. }
  assert (Hin : forall kv, kv ∈ f -> kv ∈ g) by (intros kv; by rewrite Hp).
  clear Hp E. revert g Hk Hin. induction f as [|[k v] f IH]; intros [|[l w] g]; try done.
  cbn [map fst]. intros [= <- Hk] Hin. inversion_clear Hnd as [|? ? Hnin Hnd'].
  assert (Hg : forall x, k ∉ map fst g -> (k, x) ∈ (k, w) :: g -> x = w).
  { intros x Hx [[= ->]|Hx']%elem_of_cons; [done|]. destruct Hx.
    apply list_elem_of_In, in_map_iff. exists (k, x). split; [done|by apply list_elem_of_In]. }
  rewrite Hk in Hnin. rewrite (Hg v Hnin); [|apply Hin; left]. f_equal. apply IH; [done..|].
  intros [k' v'] Hkv. assert (k' <> k) as Hne.
  { intros ->. apply Hnin. rewrite -Hk. apply list_elem_of_In, in_map_iff.
    exists (k, v'). split; [done|by apply list_elem_of_In]. }
  assert (Hc : (k', v') ∈ (k, w) :: g) by (apply Hin; by right).
  by apply elem_of_cons in Hc as [[= ? ?]|].
Qed.

Lemma object_length f g : object f = object g -> length f = length g.
Proof.
  intros [= E]. by rewrite -(Permutation_length (merge_sort_Permutation entry_le f)) E
    merge_sort_Permutation.
Qed.

Ltac distinct_keys := apply (bool_decide_unpack _); vm_compute; exact I.

(** Every object of an identity, by its fields. *)
Ltac serialized_wf := repeat first
  [ apply object_wf; [distinct_keys|] | constructor | progress cbn [snd option_value]
  | assumption ].
Ltac serialized_inj H := apply object_inj in H; [|reflexivity|distinct_keys].

Lemma file_value_wf f : value_wf (file_value f).
Proof. serialized_wf. Qed.
Lemma filter_option_wf o : value_wf (option_value filter_value o).
Proof. destruct o; serialized_wf. Qed.
#[local] Hint Resolve file_value_wf filter_option_wf : sf.

Lemma network_value_wf n : value_wf (network_value n).
Proof.
  apply object_wf; [distinct_keys|].
  repeat (constructor; [cbn [snd]; try apply filter_option_wf; serialized_wf|]). constructor.
Qed.

Lemma map_values_wf {A} (f : A -> Value) l :
  (forall a, value_wf (f a)) -> value_wf (VArray (map f l)).
Proof.
  intros Hf. constructor. intros v (a&->&_)%list_elem_of_fmap. apply Hf.
Qed.

Lemma option_network_wf o : value_wf (option_value network_value o).
Proof. destruct o; [apply network_value_wf|constructor]. Qed.

Lemma vm_value_wf v : value_wf (vm_value v).
Proof.
  assert (Hstr : value_wf (VArray (map VString v.(devices)))) by (apply map_values_wf; constructor).
  assert (Hfiles : value_wf (VArray (map file_value v.(firmware))))
    by (apply map_values_wf, file_value_wf).
  unfold vm_value. destruct (vm_network v) as [n|]; apply object_wf; try distinct_keys;
    repeat (constructor; [cbn [snd]; try done; try apply file_value_wf;
                          try apply network_value_wf; try constructor|]); constructor.
Qed.

Lemma file_value_inj f g : file_value f = file_value g -> f = g.
Proof. intros H. serialized_inj H. destruct f, g. naive_solver. Qed.

Lemma filter_value_inj o p :
  option_value filter_value o = option_value filter_value p -> o = p.
Proof.
  destruct o as [[]|], p as [[]|]; cbn; intros H; try done.
  serialized_inj H. naive_solver.
Qed.

Lemma field_inj (k l : string) (v w : Value) (f g : Map) :
  (k, v) :: f = (l, w) :: g -> v = w /\ f = g.
Proof. by intros [= _ -> ->]. Qed.
(** Take the equation of two field lists apart, field by field. *)
Ltac fields_inj H := repeat (apply field_inj in H; let E := fresh "E" in destruct H as [E H]).

Lemma network_value_inj n m : network_value n = network_value m -> n = m.
Proof.
  intros H. serialized_inj H. fields_inj H. clear H.
  repeat match goal with
  | E : option_value filter_value _ = _ |- _ => apply filter_value_inj in E
  | E : file_value _ = file_value _ |- _ => apply file_value_inj in E
  | E : ?f _ = ?f _ |- _ => serialized_inj E; fields_inj E; clear E
  end.
  destruct n as [[] [] ? [] [] [] []], m as [[] [] ? [] [] [] []]; cbn in *. naive_solver.
Qed.

Lemma option_network_inj o p :
  option_value network_value o = option_value network_value p -> o = p.
Proof.
  destruct o, p; cbn; intros H; try done. by apply network_value_inj in H as ->.
Qed.

Lemma map_inj {A B} (f : A -> B) l k :
  (forall a b, f a = f b -> a = b) -> map f l = map f k -> l = k.
Proof.
  intros Hf. revert k. induction l as [|a l IH]; intros [|b k]; try done.
  intros [= ->%Hf ->%IH]. done.
Qed.

Lemma vm_value_inj v w : vm_value v = vm_value w -> v = w.
Proof.
  intros H. unfold vm_value in H.
  assert (Hn : length (match v.(vm_network) with Some n => [("network", network_value n)] | None => [] end)
    = length (match w.(vm_network) with Some n => [("network", network_value n)] | None => [] end)).
  { apply object_length in H. rewrite !length_app in H. cbn in H. lia. }
  destruct v as [??????????? [n|]], w as [??????????? [m|]]; cbn in Hn, H; try done;
    serialized_inj H; fields_inj H; clear H;
    repeat match goal with
    | E : file_value _ = file_value _ |- _ => apply file_value_inj in E
    | E : VString _ = VString _ |- _ => injection E as E
    | E : VNumber _ = VNumber _ |- _ => injection E as E
    | E : VArray _ = VArray _ |- _ => injection E as E
    | E : map file_value _ = map file_value _ |- _ =>
        apply map_inj in E; [|apply file_value_inj]
    | E : map VString _ = map VString _ |- _ => apply map_inj in E; [|by intros ?? [=]]
    | E : network_value _ = network_value _ |- _ => apply network_value_inj in E
    end; by subst.
Qed.

#[local] Set Warnings "-register-all".

(** Every key of a value's objects is one of [names]. *)
Inductive keys_within (names : list string) : Value -> Prop :=
  | kw_null : keys_within names VNull
  | kw_bool b : keys_within names (VBool b)
  | kw_number n : keys_within names (VNumber n)
  | kw_string s : keys_within names (VString s)
  | kw_array l : (forall v, v ∈ l -> keys_within names v) -> keys_within names (VArray l)
  | kw_object m : (forall k v, (k, v) ∈ m -> k ∈ names /\ keys_within names v) ->
      keys_within names (VObject m).

Definition step_known (names : list string) (s : path_step) : Prop :=
  match s with Field name => name ∈ names | Index _ => True end.

Lemma step_into_known names v s w :
  keys_within names v -> step_into v s = Some w -> step_known names s /\ keys_within names w.
Proof.
  intros Hv. destruct s as [name|i], Hv as [| | | |l Hl|m Hm]; cbn; try done.
  - unfold value_get; cbn. unfold map_get. intros H.
    destruct (List.find _ m) as [[k x]|] eqn:Hf; [|done]. cbn in H. injection H as ->.
    apply find_some in Hf as [Hin Hk%bool_decide_eq_true]. cbn in Hk. subst k.
    by apply Hm, list_elem_of_In.
  - intros Hi%list_elem_of_lookup_2. auto.
Qed.

Lemma value_at_known names steps : forall v w,
  keys_within names v -> value_at v steps = Some w -> Forall (step_known names) steps.
Proof.
  induction steps as [|s steps IH]; intros v w Hv; cbn; [by constructor|].
  destruct (step_into v s) as [x|] eqn:Hs; cbn; [|done].
  apply step_into_known with (names := names) in Hs as [Hs Hx]; [|done]. eauto.
Qed.

Lemma object_keys names fields :
  Forall (fun kv => kv.1 ∈ names /\ keys_within names kv.2) fields ->
  keys_within names (object fields).
Proof.
  intros Hall. constructor. intros k v. rewrite merge_sort_Permutation.
  apply (proj1 (list.Forall_forall _ _) Hall (k, v)).
Qed.

(** The field names of the serialized identities. *)
Definition IDENTITY_FIELDS : list string :=
  ["path"; "sha256"; "model"; "mac_address"; "bus"; "pci_address"; "option_rom"; "kind"; "id";
   "restricted"; "backend_id"; "queue"; "guest_cidr"; "gateway"; "peer"; "destination";
   "interface"; "transport"; "behavior"; "content_sha256"; "mechanism"; "direction"; "peer_cidr";
   "rule"; "tool"; "nic"; "backend"; "replay_filter"; "addressing"; "route"; "fixture"; "fault";
   "qemu"; "qemu_version"; "kernel"; "initramfs_sha256"; "machine"; "cpu"; "memory_mib"; "vcpus";
   "accelerator"; "firmware"; "devices"; "network"].

Ltac known_field := apply (bool_decide_unpack _); vm_compute; exact I.
Ltac known_fields := repeat first
  [ apply object_keys; apply list.Forall_cons_2 | apply list.Forall_cons_2
  | apply list.Forall_nil_2 | split; [known_field|] | progress cbn [snd] | constructor ].

Lemma file_value_keys f : keys_within IDENTITY_FIELDS (file_value f).
Proof. known_fields. Qed.

Lemma network_value_keys n : keys_within IDENTITY_FIELDS (network_value n).
Proof.
  apply object_keys. repeat apply list.Forall_cons_2; try apply list.Forall_nil_2;
    (split; [known_field|cbn [snd]]); try by known_fields.
  destruct n.(net_replay_filter); cbn [option_value]; known_fields.
Qed.

Lemma option_network_keys o : keys_within IDENTITY_FIELDS (option_value network_value o).
Proof. destruct o; [apply network_value_keys|constructor]. Qed.

Lemma map_values_keys {A} names (f : A -> Value) l :
  (forall a, keys_within names (f a)) -> keys_within names (VArray (map f l)).
Proof. intros Hf. constructor. intros v (a&->&_)%list_elem_of_fmap. apply Hf. Qed.

Lemma vm_value_keys v : keys_within IDENTITY_FIELDS (vm_value v).
Proof.
  apply object_keys, list.Forall_app_2.
  - repeat apply list.Forall_cons_2; try apply list.Forall_nil_2; (split; [known_field|cbn [snd]]);
      first [constructor; fail|apply file_value_keys
            |apply map_values_keys; intros; first [apply file_value_keys|constructor]].
  - destruct v.(vm_network); [|apply list.Forall_nil_2]. apply list.Forall_cons_2; [|apply list.Forall_nil_2].
    split; [known_field|apply network_value_keys].
Qed.

(** The field a comparison reports: a path of known field names and indices that
    leads to different values. *)
Definition reports_field (root : string) (a b : Value) (d : string) : Prop :=
  exists steps, d = render_path root steps /\ value_at a steps <> value_at b steps /\
    Forall (step_known IDENTITY_FIELDS) steps.

Lemma differs_reports root a b d :
  keys_within IDENTITY_FIELDS a -> keys_within IDENTITY_FIELDS b ->
  differs_at root a b d -> reports_field root a b d.
Proof.
  intros Ha Hb (steps&->&Hne). exists steps. split_and!; [done..|].
  destruct (value_at a steps) as [x|] eqn:Hx; [by apply (value_at_known _ _ _ _ Ha Hx)|].
  destruct (value_at b steps) as [y|] eqn:Hy; [by apply (value_at_known _ _ _ _ Hb Hy)|done].
Qed.

(** C31. A replay environment is accepted exactly when its whole identity (emulator,
    kernel, initramfs, machine, firmware, devices and network) equals the
    recording's; otherwise the error names a field at which the two serialized
    identities differ, by field names and list indices only, so that no value of
    an artifact reaches the diagnostic, and the [expect] on the differing field
    never panics. *)
Theorem identity_compatibility_sound expected actual :
  match validate_identity_compatibility expected actual with
  | Some (Ok _) => expected = actual
  | Some (Err e) => expected <> actual /\ exists field, e = identity_differs field /\
      reports_field "vm" (vm_value expected) (vm_value actual) field
  | None => False
  end.
Proof.
  unfold validate_identity_compatibility. case_bool_decide as Heq; [done|].
  pose proof (first_difference_spec (vm_value expected) "vm" (vm_value actual)
    (vm_value_wf _) (vm_value_wf _)) as H.
  destruct (first_identity_difference _ _ _) as [d|]; cbn.
  - split; [done|]. exists d. split; [done|]. by apply differs_reports; [apply vm_value_keys..|].
  - by apply vm_value_inj in H.
Qed.

(** The comparison of whole identities never panics. *)
Lemma identity_compatibility_Some expected actual : exists r,
  validate_identity_compatibility expected actual = Some r /\ (is_ok r = true -> expected = actual).
Proof.
  unfold validate_identity_compatibility. case_bool_decide as Heq; [by exists (Ok tt)|].
  pose proof (first_difference_spec (vm_value expected) "vm" (vm_value actual)
    (vm_value_wf _) (vm_value_wf _)) as H.
  destruct (first_identity_difference _ _ _) as [d|]; [by eexists|]. by apply vm_value_inj in H.
Qed.

(** The network comparison that precedes a replay launch, made before anything
    is prepared on the host, accepts exactly an equal network identity, both
    absent included, and otherwise names a differing field in the same way. *)
Theorem replay_network_identity_sound expected actual :
  match validate_replay_network_identity expected actual with
  | Some (Ok _) => expected.(vm_network) = actual
  | Some (Err e) => expected.(vm_network) <> actual /\ exists field, e = identity_differs field /\
      reports_field "vm.network" (option_value network_value expected.(vm_network))
        (option_value network_value actual) field
  | None => False
  end.
Proof.
  unfold validate_replay_network_identity. case_bool_decide as Heq; [done|].
  pose proof (first_difference_spec _ "vm.network" _
    (option_network_wf expected.(vm_network)) (option_network_wf actual)) as H.
  destruct (first_identity_difference _ _ _) as [d|]; cbn.
  - split; [done|]. exists d. split; [done|]. by apply differs_reports; [apply option_network_keys..|].
  - by apply option_network_inj in H.
Qed.

(** ** The network profile *)

Lemma require_Ok c m u : require c m = Ok u <-> c = true.
Proof. destruct c, u; by cbn. Qed.
Lemma eqs_true a b : eqs a b = true <-> a = b.
Proof. apply bool_decide_eq_true. Qed.

Lemma require_fails c m : fails_with InvalidInput (require c m).
Proof. intros e. destruct c; [done|by intros [= <-]]. Qed.

Lemma validate_fails_with n : fails_with InvalidInput (NetworkIdentity_validate n).
Proof.
  unfold NetworkIdentity_validate.
  repeat (apply fails_with_bind; [|intros ?]; try apply require_fails).
  destruct n.(net_replay_filter); [done|]. by intros e [= <-].
Qed.

Lemma validated_profile n : NetworkIdentity_validate n = Ok tt <->
  exists content tool, valid_sha256 content = true /\ valid_sha256 tool = true /\
    n = (restricted_tftp None content tool).(net_identity).
Proof.
  split.
  - unfold NetworkIdentity_validate. intros H. inv_ok H.
    rewrite ->?require_Ok in *. bool_facts. rewrite ->?eqs_true in *.
    destruct n as [[] [] [[]|] [] [] [] [???? []]]; cbn in *; [|done].
    bool_facts. naive_solver.
  - intros (c&t&Hc&Ht&->). unfold NetworkIdentity_validate. cbn -[valid_sha256]. by rewrite Hc Ht.
Qed.

(** C32. The network gate admits exactly the proven restricted profile: an identity
    passes when and only when it is what the constructor builds from two lowercase
    SHA-256 digests, the fixture's and the fault tool's.  No other network card,
    backend, filter, address, route, transport or fault rule passes, and every
    refusal is an [InvalidInput] error. *)
Theorem network_validate_iff n :
  (NetworkIdentity_validate n = Ok tt <->
   exists content tool, valid_sha256 content = true /\ valid_sha256 tool = true /\
     n = (restricted_tftp None content tool).(net_identity)) /\
  (forall e, NetworkIdentity_validate n = Err e -> e.(error_kind) = InvalidInput).
Proof. split; [apply validated_profile|by apply validate_fails_with]. Qed.

(** ** What a fixture read returns *)

Definition dot_entry (raw : bytes) : bool :=
  bool_decide (raw = as_bytes ".") || bool_decide (raw = as_bytes "..").
Definition fixture_name (raw : bytes) : Prop := raw <> [] /\ Forall (fun b => fixture_name_byte b = true) raw.

Lemma fixture_name_byte_ascii b : fixture_name_byte b = true -> byte_Z b < 128.
Proof. by destruct b. Qed.

Lemma fixture_name_utf8 raw : fixture_name raw -> from_utf8 raw = inl (str_of raw).
Proof.
  intros [_ Hall]. apply from_utf8_ascii. eapply list.Forall_impl; [exact Hall|].
  intros b. apply fixture_name_byte_ascii.
Qed.

Lemma from_utf8_inl raw s : from_utf8 raw = inl s -> s = str_of raw.
Proof. unfold from_utf8. case_match; [done|]. by intros [= <-]. Qed.

Lemma dot_entry_utf8 raw : dot_entry raw = true ->
  from_utf8 raw = inl (str_of raw) /\ eqs (str_of raw) "." || eqs (str_of raw) ".." = true.
Proof. unfold dot_entry. intros [->%bool_decide_eq_true| ->%bool_decide_eq_true]%orb_true_iff; by vm_compute. Qed.

Lemma eqs_dot raw : eqs (str_of raw) "." || eqs (str_of raw) ".." = dot_entry raw.
Proof.
  unfold eqs, dot_entry. f_equal; apply bool_decide_ext.
  all: split; [intros H; by rewrite -(as_bytes_str_of raw) H|by intros ->].
Qed.

Lemma names_loop_iff stream : forall names out,
  zlen names <= MAX_FIXTURE_FILES ->
  names_loop stream names = Ok out <->
  exists raws, stream = map Ok raws /\
    Forall (fun raw => dot_entry raw = true \/ fixture_name raw) raws /\
    out = names ++ map str_of (List.filter (fun raw => negb (dot_entry raw)) raws) /\
    zlen out <= MAX_FIXTURE_FILES.
Proof.
  induction stream as [|[raw|e] stream IH]; intros names out Hn; cbn [names_loop].
  - split.
    + intros [= <-]. exists []. rewrite app_nil_r. by split_and!; [..|constructor| |].
    + intros ([|]&[=]&_&->&_). by rewrite app_nil_r.
  - split.
    + destruct (from_utf8 raw) as [name|] eqn:Hu; [|done].
      apply from_utf8_inl in Hu as Hname. subst name. rewrite eqs_dot.
      destruct (dot_entry raw) eqn:Hd.
      { intros (raws&->&Hall&->&Hlen)%IH; [|done]. exists (raw :: raws). cbn. rewrite Hd. cbn.
        split_and!; [done|constructor; auto|done|done]. }
      destruct (zlen names =? MAX_FIXTURE_FILES) eqn:Hfull; [done|].
      destruct (eqs (str_of raw) "" || _) eqn:Hbad; [done|].
      apply Z.eqb_neq in Hfull. apply orb_false_iff in Hbad as [Hne Hf%negb_false_iff].
      assert (Hv : fixture_name raw).
      { split.
        - by intros ->.
        - rewrite as_bytes_str_of in Hf. apply list.Forall_forall. intros b Hb%list_elem_of_In.
          by apply (proj1 (forallb_forall _ _) Hf). }
      intros (raws&->&Hall&->&Hlen)%IH; [|rewrite zlen_app zlen_cons zlen_nil; lia].
      exists (raw :: raws). cbn. rewrite Hd -app_assoc. cbn.
      split_and!; [done|constructor; auto|done|by rewrite -app_assoc in Hlen].
    + intros ([|raw' raws]&[=]&Hall&->&Hlen); subst. inversion_clear Hall as [|? ? Hr Hrs].
      cbn [List.filter map] in Hlen |- *. destruct (dot_entry raw') eqn:Hd; cbn [negb] in Hlen |- *.
      { destruct (dot_entry_utf8 _ Hd) as [-> ->]. apply IH; [done|]. by exists raws. }
      destruct Hr as [|Hr]; [done|]. rewrite (fixture_name_utf8 _ Hr) eqs_dot Hd.
      cbn [map] in Hlen. rewrite zlen_app zlen_cons in Hlen.
      match type of Hlen with context [zlen ?l + 1] => pose proof (zlen_nonneg l) end.
      rewrite (proj2 (Z.eqb_neq _ _)); [|lia].
      destruct Hr as [Hne Hr].
      assert (eqs (str_of raw') "" = false) as ->.
      { apply bool_decide_eq_false. intros Hr0. apply Hne. by rewrite -(as_bytes_str_of raw') Hr0. }
      rewrite as_bytes_str_of (proj2 (forallb_forall _ _)).
      * apply IH; [rewrite zlen_app zlen_cons zlen_nil; lia|]. exists raws. rewrite -app_assoc.
        split_and!; try done. rewrite !zlen_app !zlen_cons ?zlen_nil. exact Hlen.
      * intros b Hb. by apply (proj1 (list.Forall_forall _ _) Hr), list_elem_of_In.
  - split; [done|]. by intros ([|]&?&_).
Qed.

(** One entry the host serves: a regular file whose length and contents agree,
    within the per-file bound. *)
Definition serves_file (d : DirectoryHandle) (name : string) (contents : bytes) : Prop :=
  zlen contents <= MAX_FIXTURE_FILE_BYTES /\
  exists file whole, d.(dir_openat) name = Ok file /\
    file.(file_metadata) = Ok (true, zlen contents) /\ file.(file_contents) = Ok whole /\
    contents = take (Z.to_nat (MAX_FIXTURE_FILE_BYTES + 1)) whole.

Lemma read_fixture_entry_iff d total name contents total' :
  0 <= total <= MAX_FIXTURE_BYTES ->
  read_fixture_entry d total name = Ok (contents, total') <->
  serves_file d name contents /\ total' = total + zlen contents /\ total' <= MAX_FIXTURE_BYTES.
Proof.
  intros Ht. unfold read_fixture_entry, serves_file. split.
  - intros H. destruct (dir_openat d name) as [file|e] eqn:Ho; cbn in H; [|done].
    destruct (file_metadata file) as [[is_file len]|e] eqn:Hm; cbn in H; [|done].
    destruct (negb is_file || _) eqn:Hb; [done|].
    apply orb_false_iff in Hb as [->%negb_false_iff Hl%Z.ltb_ge].
    destruct (file_contents file) as [whole|e] eqn:Hc; cbn [mbind result_bind] in H; [|done].
    set (got := take _ whole) in *. destruct (zlen got =? len) eqn:Hlen; cbn [negb] in H; [|done].
    apply Z.eqb_eq in Hlen. subst len.
    destruct (checked_add64 total (zlen got)) as [t|] eqn:Hadd; cbn [ok_or mbind result_bind] in H; [|done].
    pose proof (zlen_nonneg got). apply checked_add64_Some in Hadd as [-> _].
    destruct (MAX_FIXTURE_BYTES <? _) eqn:Hmax; [done|]. injection H as <- <-.
    apply Z.ltb_ge in Hmax. split_and!; [done| |done|done]. by exists file, whole.
  - intros ([Hlen (file&whole&->&Hm&Hc&->)]&->&Hmax). cbn [map_err mbind result_bind].
    rewrite Hm. cbn [mbind result_bind negb orb]. rewrite (proj2 (Z.ltb_ge _ _) Hlen) Hc.
    cbn [mbind result_bind]. rewrite Z.eqb_refl. cbn [negb].
    match goal with |- context [zlen ?g] => pose proof (zlen_nonneg g); set (got := g) in * end.
    unfold checked_add64. unfold MAX_FIXTURE_BYTES, U64_MAX in *.
    rewrite (proj2 (Z.leb_le _ _)); [|lia]. cbn [ok_or mbind result_bind].
    by rewrite (proj2 (Z.ltb_ge _ _) Hmax).
Qed.

Definition total_bytes (entries : list (string * bytes)) : Z :=
  fold_right (fun e t => zlen e.2 + t) 0 entries.

Lemma total_bytes_nonneg entries : 0 <= total_bytes entries.
Proof. induction entries as [|e l IH]; [done|]. change (0 <= zlen e.2 + total_bytes l). pose proof (zlen_nonneg e.2). lia. Qed.

Lemma read_fixture_names_iff d names : forall total entries,
  0 <= total <= MAX_FIXTURE_BYTES ->
  read_fixture_names d total names = Ok entries <->
  map fst entries = names /\ Forall (fun e => serves_file d e.1 e.2) entries /\
  total + total_bytes entries <= MAX_FIXTURE_BYTES.
Proof.
  induction names as [|name names IH]; intros total entries Ht; cbn [read_fixture_names].
  - split; [|by intros [->%map_eq_nil _]]. intros [= <-]. split_and!; [done|constructor|cbn [total_bytes fold_right]; lia].
  - split.
    + intros H. destruct (read_fixture_entry d total name) as [[c t]|] eqn:He; cbn in H; [|done].
      apply read_fixture_entry_iff in He as (Hs&->&Hmax); [|done].
      destruct (read_fixture_names d _ names) as [rest|] eqn:Hr; cbn in H; [|done].
      injection H as <-. pose proof (zlen_nonneg c). apply IH in Hr as (<-&Hall&Htot); [|lia].
      split_and!; [done|by constructor|].
      change (total + (zlen c + total_bytes rest) <= MAX_FIXTURE_BYTES). lia.
    + intros (Hn&Hall&Htot). destruct entries as [|[n c] entries]; [done|]. injection Hn as -> Hn.
      inversion_clear Hall as [|? ? Hs Hall'].
      change (total + (zlen c + total_bytes entries) <= MAX_FIXTURE_BYTES) in Htot. cbn [fst snd] in Hs.
      pose proof (zlen_nonneg c). pose proof (total_bytes_nonneg entries).
      assert (He : read_fixture_entry d total name = Ok (c, total + zlen c)).
      { apply read_fixture_entry_iff; [done|]. split_and!; [done..|lia]. }
      assert (Hr : read_fixture_names d (total + zlen c) names = Ok entries).
      { apply IH; [lia|]. split_and!; [done..|lia]. }
      rewrite He. cbn [mbind result_bind]. by rewrite Hr.
Qed.

(** A listing the fixture profile admits: [raws] are the names [readdir] returns,
    each a dot entry or a well-formed name. *)
Definition listing (d : DirectoryHandle) (raws : list bytes) : Prop :=
  d.(dir_opened) = Ok tt /\ d.(dir_stream) = map Ok raws /\
  Forall (fun raw => dot_entry raw = true \/ fixture_name raw) raws.

(** Reading a fixture directory, on every branch: the read returns a list of
    entries exactly when the listing has well-formed names only, between 1 and 256
    of them besides the dot entries, every one opens as a regular file of at most
    1 MiB whose length did not change, the sizes add up to at most 8 MiB, and the
    list holds each name with its contents, sorted by name. *)
Theorem fixture_read_iff d entries :
  read_fixture_entries_from_handle d = Ok entries <->
  exists raws, listing d raws /\
    map fst entries = merge_sort string_le
      (map str_of (List.filter (fun raw => negb (dot_entry raw)) raws)) /\
    1 <= zlen entries <= MAX_FIXTURE_FILES /\
    Forall (fun e => serves_file d e.1 e.2) entries /\
    total_bytes entries <= MAX_FIXTURE_BYTES.
Proof.
  unfold read_fixture_entries_from_handle, read_directory_names, listing.
  assert (Hlen : forall l : list string, zlen (merge_sort string_le l) = zlen l).
  { intros l. unfold zlen. by rewrite merge_sort_Permutation. }
  assert (Hz : zlen (@nil string) <= MAX_FIXTURE_FILES) by done.
  assert (Hm : 0 <= 0 <= MAX_FIXTURE_BYTES) by done.
  split.
  - intros H. destruct d.(dir_opened) as [[]|] eqn:Ho; cbn [mbind result_bind] in H; [|done].
    destruct (names_loop _ _) as [names|] eqn:Hn; cbn [mbind result_bind] in H; [|done].
    apply names_loop_iff in Hn as (raws&->&Hall&->&Hmax); [|done]. cbn [app] in *.
    case_bool_decide as Hne; [done|]. apply read_fixture_names_iff in H as (Hnames&Hs&Ht); [|done].
    assert (Hl : zlen entries = zlen (map fst entries)) by (by rewrite zlen_map).
    exists raws. split_and!; try done.
    + rewrite Hl Hnames. destruct (merge_sort _ _) as [|x l]; [done|].
      rewrite zlen_cons. pose proof (zlen_nonneg l). lia.
    + by rewrite Hl Hnames Hlen.
  - intros (raws&(->&->&Hall)&Hnames&[Hmin Hmax]&Hs&Ht). cbn [mbind result_bind].
    assert (Hl : zlen entries = zlen (map fst entries)) by (by rewrite zlen_map).
    rewrite Hnames Hlen in Hl.
    assert (Hn : names_loop (map Ok raws) [] =
      Ok (map str_of (List.filter (fun raw => negb (dot_entry raw)) raws))).
    { apply names_loop_iff; [done|]. exists raws. split_and!; [done..|lia]. }
    rewrite Hn.
    cbn [mbind result_bind app]. rewrite bool_decide_eq_false_2.
    + by apply read_fixture_names_iff.
    + intros E. rewrite E in Hnames. apply map_eq_nil in Hnames as ->. done.
Qed.

(** ** The identity of a fixture *)

Lemma app_le_bytes8_inj a b r s :
  u64_range a -> u64_range b -> le_bytes 8 a ++ r = le_bytes 8 b ++ s -> a = b /\ r = s.
Proof.
  unfold le_bytes, u64_range. intros Ha Hb E.
  apply app_inj_1 in E as [E ->]; [|by rewrite !length_rev !length_be_bytes].
  apply (f_equal (@rev byte)) in E. rewrite !rev_involutive in E.
  apply be_bytes8_inj in E; auto.
Qed.

(** A name and contents whose lengths a [usize] holds. *)
Definition entry_range (e : string * bytes) : Prop :=
  str_len e.1 <= U64_MAX /\ zlen e.2 <= U64_MAX.

Lemma encode_fixture_entry_inj e f r s :
  entry_range e -> entry_range f ->
  encode_fixture_entry e ++ r = encode_fixture_entry f ++ s -> e = f /\ r = s.
Proof.
  destruct e as [n c], f as [m d]. unfold entry_range, encode_fixture_entry, str_len. cbn [fst snd].
  intros [Hn Hc] [Hm Hd] E. rewrite -!app_assoc in E.
  pose proof (zlen_nonneg (as_bytes n)). pose proof (zlen_nonneg (as_bytes m)).
  pose proof (zlen_nonneg c). pose proof (zlen_nonneg d).
  apply app_le_bytes8_inj in E as [El E]; [|split; lia..].
  apply app_inj_1 in E as [->%as_bytes_inj E]; [|unfold zlen in El; lia].
  apply app_le_bytes8_inj in E as [El' E]; [|split; lia..].
  apply app_inj_1 in E as [-> ->]; [done|unfold zlen in El'; lia].
Qed.

Lemma encode_fixture_inj l : forall k,
  Forall entry_range l -> Forall entry_range k -> length l = length k ->
  flat_map encode_fixture_entry l = flat_map encode_fixture_entry k -> l = k.
Proof.
  induction l as [|e l IH]; intros [|f k] Hl Hk; cbn [length]; try done.
  inversion_clear Hl. inversion_clear Hk. cbn [flat_map]. intros [= Hlen] E.
  apply encode_fixture_entry_inj in E as [-> E]; [|done..]. f_equal. auto.
Qed.

Section fixture_identity.
Context `{Sha256Laws}.
#[local] Set Default Proof Using "All".

(** The fixture digest identifies the files a recording serves, whatever the
    order they are listed in: reorderings of the same files have one digest, and
    two fixtures with distinct names and equal digests hold the same names with
    the same contents, unless they exhibit a SHA-256 collision. *)
Theorem fixture_digest_identifies l k :
  NoDup (map fst l) -> Forall entry_range l -> Forall entry_range k ->
  zlen l <= U64_MAX -> zlen k <= U64_MAX ->
  (l ≡ₚ k -> digest_fixture_entries l = digest_fixture_entries k) /\
  (digest_fixture_entries l = digest_fixture_entries k -> l ≡ₚ k \/ sha256_collision).
Proof.
  intros Hnd Hl Hk Hnl Hnk. unfold digest_fixture_entries, sorted_entries.
  pose proof (merge_sort_Permutation entry_le l) as Pl.
  pose proof (merge_sort_Permutation entry_le k) as Pk. split.
  - intros Hp. assert (merge_sort entry_le l = merge_sort entry_le k) as ->; [|done].
    apply entry_sorted_unique; [|apply merge_sort_entries..|by rewrite Pl Pk].
    change (map fst) with (fmap (M:=list) (@fst string bytes)). by rewrite Pl.
  - intros E%hex_inj. apply digest_eq in E as [E|Hc]; [|by right]. left.
    apply app_inv_head in E.
    assert (Ll : zlen (merge_sort entry_le l) = zlen l) by (unfold zlen; by rewrite (Permutation_length Pl)).
    assert (Lk : zlen (merge_sort entry_le k) = zlen k) by (unfold zlen; by rewrite (Permutation_length Pk)).
    rewrite Ll Lk in E. pose proof (zlen_nonneg l). pose proof (zlen_nonneg k).
    apply app_le_bytes8_inj in E as [El E]; [|split; lia..].
    apply encode_fixture_inj in E; [by rewrite -Pl E Pk|by rewrite Pl|by rewrite Pk|].
    unfold zlen in *. lia.
Qed.
End fixture_identity.

Definition sample_fixture : list (string * bytes) :=
  [("request-000002", [Byte.x02]); ("request-000001", [Byte.x01; Byte.x01])].

Lemma fixture_digest_identifies_witness :
  @digest_fixture_entries toy_sha256 sample_fixture =
  @digest_fixture_entries toy_sha256 (rev sample_fixture).
Proof.
  apply (@fixture_digest_identifies toy_sha256 toy_sha256_laws sample_fixture (rev sample_fixture)).
  - apply (bool_decide_unpack _). vm_compute. exact I.
  - repeat (constructor; [split; by vm_compute|]). constructor.
  - repeat (constructor; [split; by vm_compute|]). constructor.
  - by vm_compute.
  - by vm_compute.
  - apply Permutation_rev.
Defined.
