(* ===== verification/Root.v ===== *)
(** Bounded file access beneath one opened directory, from [workload/root.rs].

    The kernel's filesystem is an interface: [HostFs] has one method per system
    call the source makes, on a state of its own, and a handle is the path from
    the opened root to what was opened.  [FsLaws] states the documented effect of
    each call on the tree that the state holds ([view]): a call either has that
    effect or fails with an error code the source gives no meaning to, changing
    nothing; a write that fails may leave a prefix.  A crash is a state in which
    every later call fails.  One process at a time uses the directory. *)

From stdpp Require Import ssreflect.
From Stdlib Require Import Strings.Byte.
From S2P Require Import Prelude Types Std Tree Effects.

(** ** The filesystem *)

(** The error codes the source distinguishes; any other is a number. *)
Inductive Errno := ENOENT | EEXIST | ELOOP | ENOTDIR | EINVAL | EOTHER (code : Z).
#[export] Instance Errno_eq_dec : EqDecision Errno.
Proof. solve_decision. Defined.

Definition spurious (e : Errno) : Prop := exists code, e = EOTHER code.

#[local] Set Warnings "-register-all".

(** A directory tree: a node with its owner and permission bits. *)
Inductive Node :=
  | NFile (owner mode : Z) (data : bytes)
  | NDir (owner mode : Z) (entries : gmap string Node)
  | NLink
  | NSpecial (owner mode : Z).

Notation Handle := (list string).

Fixpoint node_at (n : Node) (path : Handle) : option Node :=
  match path with
  | [] => Some n
  | c :: path =>
      match n with
      | NDir _ _ entries => entries !! c ≫= fun child => node_at child path
      | _ => None
      end
  end.

(** The tree with the entries of the directory at [path] changed by [f]. *)
Fixpoint alter_entries (n : Node) (path : Handle) (f : gmap string Node -> gmap string Node) : Node :=
  match n with
  | NDir owner mode entries =>
      match path with
      | [] => NDir owner mode (f entries)
      | c :: path =>
          match entries !! c with
          | Some child => NDir owner mode (<[c := alter_entries child path f]> entries)
          | None => n
          end
      end
  | _ => n
  end.

Definition add_entry (n : Node) (dir : Handle) (name : string) (child : Node) : Node :=
  alter_entries n dir (insert name child).
Definition remove_entry (n : Node) (dir : Handle) (name : string) : Node :=
  alter_entries n dir (delete name).

Inductive NodeType := RegularNode | DirectoryNode | OtherNode.
#[export] Instance NodeType_eq_dec : EqDecision NodeType.
Proof. solve_decision. Defined.

(** [fstat]. *)
Record Stat := { st_type : NodeType; st_uid : Z; st_mode : Z; st_size : Z }.
Definition stat_of (n : Node) : Stat :=
  match n with
  | NFile owner mode data => {| st_type := RegularNode; st_uid := owner; st_mode := mode; st_size := zlen data |}
  | NDir owner mode _ => {| st_type := DirectoryNode; st_uid := owner; st_mode := mode; st_size := 0 |}
  | NLink => {| st_type := OtherNode; st_uid := 0; st_mode := 511; st_size := 0 |}
  | NSpecial owner mode => {| st_type := OtherNode; st_uid := owner; st_mode := mode; st_size := 0 |}
  end.

Definition is_dir (o : option Node) : bool := match o with Some (NDir _ _ _) => true | _ => false end.

(** One method per call.  [fs_read] delivers what the successive reads of an
    opened file return up to its end: non-empty pieces or errors. *)
Class HostFs (S : Type) := {
  errno_text : Errno -> string;             (** [Errno]'s display *)
  errno_error : Errno -> io_error;          (** [io::Error::from(Errno)] *)
  fs_pid : Z;
  fs_euid : Z;
  fs_umask : Z;
  fs_counter : S -> Z * S;                  (** [TEMP_COUNTER.fetch_add(1)] *)
  fs_clone : S -> option io_error * S;      (** [OwnedFd::try_clone] *)
  (** the directory a host path names: [DirBuilder::create] on it with a mode, and
      [open] without following a final link *)
  fs_root : Handle;
  fs_create_root : Z -> S -> option io_error * S;
  fs_open_root : S -> (Handle + Errno) * S;
  fs_open_dir : Handle -> string -> S -> (Handle + Errno) * S;
  fs_open_file : Handle -> string -> S -> (Handle + Errno) * S;
  fs_fstat : Handle -> S -> (Stat + Errno) * S;
  fs_statat : Handle -> string -> S -> (unit + Errno) * S;
  fs_read : Handle -> S -> list (bytes + io_error) * S;
  fs_mkdirat : Handle -> string -> Z -> S -> (unit + Errno) * S;
  fs_create_excl : Handle -> string -> Z -> S -> (Handle + Errno) * S;
  fs_write_sync : Handle -> bytes -> S -> option io_error * S;
  fs_renameat : Handle -> string -> Handle -> string -> bool -> S -> (unit + Errno) * S;
  fs_unlinkat : Handle -> string -> bool -> S -> (unit + Errno) * S;
}.

(** ** The operations of [Root] *)

Definition Root : Type := Handle.

(** [{:?}] of a path. *)
Definition quoted `{DebugStr} (path : string) : string := debug_str path.

Section operations.
Context {S : Type} `{HostFs S} `{DebugStr} `{Sha256}.

(** A call, its outcome as a value. *)
Definition call {A} (f : S -> A * S) : M S A := fun s => let '(a, s) := f s in Some (Ok a, s).

(** [?] on a [rustix] result. *)
Definition or_errno {A} (r : A + Errno) : M S A :=
  match r with inl a => mret a | inr e => throw (errno_error e) end.
Definition or_io (o : option io_error) : M S unit :=
  match o with None => mret tt | Some e => throw e end.

Definition describe (error : Errno) (path : string) : io_error :=
  let kind := match error with
    | ENOENT => NotFound
    | ELOOP | ENOTDIR | EINVAL => InvalidInput
    | _ => Other
    end in
  IoError kind ("cannot access " +:+ quoted path +:+ ": " +:+ errno_text error).

Definition or_describe {A} (path : string) (r : A + Errno) : M S A :=
  match r with inl a => mret a | inr e => throw (describe e path) end.

Fixpoint components_loop (relative : string) (parts : list bytes) : result (list string) :=
  match parts with
  | [] => Ok []
  | part :: parts =>
      if bool_decide (part = []) || bool_decide (part = DOT) then components_loop relative parts
      else if bool_decide (part = DOTDOT) then
        Err (invalid ("path " +:+ quoted relative +:+ " must not escape its opened root"))
      else if contains_byte Byte.x00 part then
        Err (invalid ("path " +:+ quoted relative +:+ " contains a NUL byte"))
      else
        rest ← components_loop relative parts; Ok (str_of part :: rest)
  end.

Definition components (relative : string) : result (list string) :=
  if bool_decide (relative = "") then Err (invalid "invalid empty path")
  else components_loop relative (split_on SLASH (as_bytes relative)).

Definition split_relative (relative : string) : result (list string * string) :=
  components ← components relative;
  match list.last components with
  | Some name => Ok (removelast components, name)
  | None => Err (invalid ("invalid empty path " +:+ quoted relative))
  end.

Definition staging_name (name : string) : M S string :=
  counter ← call fs_counter;
  mret ("." +:+ name +:+ ".staging." +:+ fmt_dec fs_pid +:+ "." +:+ fmt_dec counter).

Definition try_clone (fd : Handle) : M S Handle :=
  o ← call fs_clone; _ ← or_io o; mret fd.

Fixpoint beneath_loop (current : Handle) (components : list string) : M S Handle :=
  match components with
  | [] => mret current
  | component :: components =>
      r ← call (fs_open_dir current component);
      current ← or_describe component r;
      beneath_loop current components
  end.

Definition open_beneath (root : Root) (components : list string) : M S Handle :=
  current ← try_clone root; beneath_loop current components.

Definition require_private (stat : Stat) (relative : string) : result unit :=
  if negb (stat.(st_uid) =? fs_euid) then
    Err (invalid (quoted relative +:+ " is not owned by the current user"))
  else if negb (Z.land stat.(st_mode) 63 =? 0) then
    Err (invalid (quoted relative +:+ " is not owner-only"))
  else Ok tt.

Definition fstat (fd : Handle) : M S Stat := r ← call (fs_fstat fd); or_errno r.

Definition Root_open : M S Root := r ← call fs_open_root; or_errno r.

Definition open_private : M S Root :=
  root ← Root_open;
  stat ← fstat root;
  _ ← lift (require_private stat "the workload store");
  mret root.

Definition open_directory (root : Root) (relative : string) : M S Root :=
  components ← lift (components relative); open_beneath root components.

Definition require_private_directory (root : Root) (relative : string) : M S unit :=
  directory ← open_directory root relative;
  stat ← fstat directory;
  lift (require_private stat relative).

Definition open_regular (root : Root) (relative : string) : M S (option (Handle * Z)) :=
  '(parent, name) ← lift (split_relative relative);
  directory ← catch (open_beneath root parent);
  match directory with
  | Err e => if bool_decide (e.(error_kind) = NotFound) then mret None else throw e
  | Ok directory =>
      r ← call (fs_open_file directory name);
      match r with
      | inr ENOENT => mret None
      | inr e => throw (describe e relative)
      | inl fd =>
          stat ← fstat fd;
          if negb (bool_decide (stat.(st_type) = RegularNode)) then
            throw (invalid (quoted relative +:+ " is not a regular file"))
          else if stat.(st_size) <? 0 then
            throw (invalid (quoted relative +:+ " has a negative size"))
          else mret (Some (fd, stat.(st_size)))
      end
  end.

Definition cannot_open (relative : string) : io_error :=
  IoError NotFound ("cannot open file " +:+ quoted relative).

Definition require_private_file (root : Root) (relative : string) : M S unit :=
  opened ← open_regular root relative;
  '(fd, _) ← lift (ok_or opened (cannot_open relative));
  stat ← fstat fd;
  lift (require_private stat relative).

Definition exceeds (relative : string) (limit : Z) : io_error :=
  invalid (quoted relative +:+ " exceeds " +:+ fmt_dec limit +:+ " bytes").

(** [take(limit).read_to_end(&mut data)]. *)
Fixpoint read_take (limit : Z) (data : bytes) (pieces : list (bytes + io_error)) : result bytes :=
  if zlen data =? limit then Ok data
  else
    match pieces with
    | [] => Ok data
    | inl piece :: pieces =>
        read_take limit (data ++ take (Z.to_nat (limit - zlen data)) piece) pieces
    | inr e :: pieces =>
        if bool_decide (e.(error_kind) = Interrupted) then read_take limit data pieces else Err e
    end.

Definition read_bounded (fd : Handle) (size : Z) (relative : string) (limit : Z) : M S bytes :=
  if limit <? size then throw (exceeds relative limit)
  else
    pieces ← call (fs_read fd);
    data ← lift (read_take (limit + 1) [] pieces);
    if limit <? zlen data then throw (exceeds relative limit) else mret data.

Definition read_file_if_exists (root : Root) (relative : string) (limit : Z)
    : M S (option bytes) :=
  opened ← open_regular root relative;
  match opened with
  | Some (fd, size) => data ← read_bounded fd size relative limit; mret (Some data)
  | None => mret None
  end.

Definition read_file (root : Root) (relative : string) (limit : Z) : M S bytes :=
  data ← read_file_if_exists root relative limit;
  lift (ok_or data (cannot_open relative)).

(** The hashing loop: what has been hashed, and how much. *)
Fixpoint hash_loop (relative : string) (limit total : Z) (hashed : bytes)
    (pieces : list (bytes + io_error)) : result bytes :=
  match pieces with
  | [] => Ok hashed
  | inr e :: _ => Err e
  | inl piece :: pieces =>
      let total := total + zlen piece in
      if limit <? total then Err (exceeds relative limit)
      else hash_loop relative limit total (hashed ++ piece) pieces
  end.

Definition sha256_file (root : Root) (relative : string) (limit : Z) : M S string :=
  opened ← open_regular root relative;
  '(fd, size) ← lift (ok_or opened (cannot_open relative));
  if limit <? size then throw (exceeds relative limit)
  else
    pieces ← call (fs_read fd);
    hashed ← lift (hash_loop relative limit 0 [] pieces);
    mret (hex (sha256_digest hashed)).

Definition exists_beneath (root : Root) (relative : string) : M S bool :=
  '(parent, name) ← lift (split_relative relative);
  directory ← open_beneath root parent;
  r ← call (fs_statat directory name);
  match r with
  | inl _ => mret true
  | inr ENOENT => mret false
  | inr e => throw (describe e relative)
  end.

Fixpoint create_loop (relative : string) (current : Handle) (components : list string)
    : M S Handle :=
  match components with
  | [] => mret current
  | component :: components =>
      made ← call (fs_mkdirat current component 448);
      _ ← match made with
          | inl _ | inr EEXIST => mret tt
          | inr e => throw (describe e relative)
          end;
      r ← call (fs_open_dir current component);
      current ← or_describe relative r;
      stat ← fstat current;
      _ ← lift (require_private stat relative);
      create_loop relative current components
  end.

Definition open_or_create_beneath (root : Root) (relative : string) (components : list string)
    : M S Handle :=
  current ← try_clone root; create_loop relative current components.

Definition open_or_create_directory (root : Root) (relative : string) : M S Handle :=
  components ← lift (components relative);
  open_or_create_beneath root relative components.

Definition create_directory (root : Root) (relative : string) : M S unit :=
  '(parent, name) ← lift (split_relative relative);
  directory ← open_beneath root parent;
  r ← call (fs_mkdirat directory name 448);
  or_describe relative r.

(** [let _ = unlinkat(..)]. *)
Definition discard (directory : Handle) (name : string) : M S unit :=
  _ ← call (fs_unlinkat directory name false); mret tt.

Definition write_staging_file (directory : Handle) (name : string) (data : bytes) : M S string :=
  temporary ← staging_name name;
  r ← call (fs_create_excl directory temporary 384);
  fd ← or_describe temporary r;
  written ← call (fs_write_sync fd data);
  match written with
  | Some e => _ ← discard directory temporary; throw e
  | None => mret temporary
  end.

Definition publish_exclusive (root : Root) (relative : string) (data : bytes) : M S bool :=
  '(parent, name) ← lift (split_relative relative);
  directory ← open_or_create_beneath root relative parent;
  temporary ← write_staging_file directory name data;
  r ← call (fs_renameat directory temporary directory name true);
  match r with
  | inl _ => mret true
  | inr EEXIST => _ ← discard directory temporary; mret false
  | inr e => _ ← discard directory temporary; throw (describe e relative)
  end.

Definition write_file_atomic (root : Root) (relative : string) (data : bytes) : M S unit :=
  '(parent, name) ← lift (split_relative relative);
  directory ← open_or_create_beneath root relative parent;
  temporary ← write_staging_file directory name data;
  r ← call (fs_renameat directory temporary directory name false);
  match r with
  | inl _ => mret tt
  | inr e => _ ← discard directory temporary; throw (describe e relative)
  end.

Definition rename (root : Root) (from to : string) : M S unit :=
  '(from_parent, from_name) ← lift (split_relative from);
  '(to_parent, to_name) ← lift (split_relative to);
  from_directory ← open_beneath root from_parent;
  to_directory ← open_beneath root to_parent;
  r ← call (fs_renameat from_directory from_name to_directory to_name false);
  or_describe to r.

(** [remove_file_if_exists] and [remove_directory_if_exists]. *)
Definition remove_if_exists (directory_flag : bool) (root : Root) (relative : string) : M S unit :=
  '(parent, name) ← lift (split_relative relative);
  directory ← open_beneath root parent;
  r ← call (fs_unlinkat directory name directory_flag);
  match r with
  | inl _ | inr ENOENT => mret tt
  | inr e => throw (describe e relative)
  end.
Definition remove_file_if_exists : Root -> string -> M S unit := remove_if_exists false.
Definition remove_directory_if_exists : Root -> string -> M S unit := remove_if_exists true.
End operations.

(** ** What the calls do *)

(** A node without what a directory holds. *)
Definition label (n : Node) : Node := match n with NDir _ _ _ => NDir 0 0 ∅ | n => n end.
Definition label_at (n : Node) (p : Handle) : option Node := label <$> node_at n p.

Definition open_dir_does (n : Node) (h : Handle) (c : string) (r : Handle + Errno) (n' : Node) : Prop :=
  n' = n /\
  match node_at n (h ++ [c]) with
  | None => r = inr ENOENT
  | Some (NDir _ _ _) => r = inl (h ++ [c])
  | Some _ => r = inr ENOTDIR \/ r = inr ELOOP
  end.

Definition open_file_does (n : Node) (h : Handle) (c : string) (r : Handle + Errno) (n' : Node) : Prop :=
  n' = n /\
  match node_at n (h ++ [c]) with
  | None => r = inr ENOENT
  | Some NLink => r = inr ELOOP
  | Some _ => r = inl (h ++ [c])
  end.

Definition fstat_does (n : Node) (h : Handle) (r : Stat + Errno) (n' : Node) : Prop :=
  n' = n /\ forall m, node_at n h = Some m -> r = inl (stat_of m).

Definition statat_does (n : Node) (h : Handle) (c : string) (r : unit + Errno) (n' : Node) : Prop :=
  n' = n /\ r = match node_at n (h ++ [c]) with Some _ => inl tt | None => inr ENOENT end.

(** A creation: in an existing directory, under a name that is free. *)
Definition creates {A} (n : Node) (h : Handle) (c : string) (child : Node) (a : A)
    (r : A + Errno) (n' : Node) : Prop :=
  match node_at n (h ++ [c]) with
  | Some _ => r = inr EEXIST /\ n' = n
  | None =>
      if is_dir (node_at n h) then r = inl a /\ n' = add_entry n h c child
      else r = inr ENOENT /\ n' = n
  end.

(** [renameat2]: an existing file is replaced by a file, an empty directory by a
    directory; nothing is replaced under [RENAME_NOREPLACE]. *)
Definition replaces (source : Node) (target : option Node) : bool :=
  match source, target with
  | _, None => true
  | NDir _ _ _, Some (NDir _ _ entries) => bool_decide (entries = ∅)
  | NDir _ _ _, Some _ => false
  | _, Some (NDir _ _ _) => false
  | _, Some _ => true
  end.

Definition rename_does (n : Node) (h : Handle) (c : string) (k : Handle) (d : string)
    (noreplace : bool) (r : unit + Errno) (n' : Node) : Prop :=
  match node_at n (h ++ [c]) with
  | None => r = inr ENOENT /\ n' = n
  | Some source =>
      let target := node_at n (k ++ [d]) in
      if bool_decide ((h ++ [c]) `prefix_of` k) then r = inr EINVAL /\ n' = n
      else if noreplace && bool_decide (is_Some target) then r = inr EEXIST /\ n' = n
      else if replaces source target && is_dir (node_at n k) then
        r = inl tt /\ n' = add_entry (remove_entry n h c) k d source
      else (exists e, r = inr e) /\ n' = n
  end.

Definition unlink_does (n : Node) (h : Handle) (c : string) (dir : bool) (r : unit + Errno)
    (n' : Node) : Prop :=
  match node_at n (h ++ [c]) with
  | None => r = inr ENOENT /\ n' = n
  | Some m =>
      if (if dir then match m with NDir _ _ entries => bool_decide (entries = ∅) | _ => false end
          else negb (is_dir (Some m)))
      then r = inl tt /\ n' = remove_entry n h c
      else (exists e, r = inr e) /\ n' = n
  end.

(** What the reads of a file deliver: pieces of its contents, all of them unless a
    read fails. *)
Definition pieces_of (pieces : list (bytes + io_error)) : bytes :=
  flat_map (fun p => match p with inl piece => piece | inr _ => [] end) pieces.
Definition read_does (n : Node) (h : Handle) (pieces : list (bytes + io_error)) (n' : Node) : Prop :=
  n' = n /\ forall owner mode data, node_at n h = Some (NFile owner mode data) ->
    pieces_of pieces `prefix_of` data /\
    ((forall e, inr e ∈ pieces -> e.(error_kind) = Interrupted) -> pieces_of pieces = data).

Definition masked {S} `{HostFs S} (mode : Z) : Z := Z.land mode (Z.lnot fs_umask).

(** The documented behaviour of the calls.  [reliable] marks states from which no
    call fails without a reason in the tree. *)
Class FsView (S : Type) := { view : S -> Node; reliable : S -> Prop }.

Definition does {S R} `{FsView S} (s s' : S) (r : R + Errno) (ok : R + Errno -> Node -> Prop) : Prop :=
  (reliable s -> reliable s' /\ ok r (view s')) /\
  (ok r (view s') \/ (exists e, r = inr e /\ spurious e) /\ view s' = view s).

Class FsLaws (S : Type) `{HostFs S} `{FsView S} := {
  counter_law s a s' : fs_counter s = (a, s') -> view s' = view s /\ (reliable s -> reliable s');
  clone_law s o s' : fs_clone s = (o, s') ->
    view s' = view s /\ (reliable s -> reliable s' /\ o = None) /\
    (forall e, o = Some e -> e.(error_kind) <> NotFound);
  create_root_law mode s o s' : fs_create_root mode s = (o, s') ->
    (forall q, label_at (view s') q = label_at (view s) q \/
      (label_at (view s) q = None /\ q `prefix_of` fs_root)) /\ (reliable s -> reliable s');
  open_root_law s r s' : fs_open_root s = (r, s') ->
    does s s' r (fun r n' => n' = view s /\ (is_dir (node_at n' fs_root) = true -> r = inl fs_root) /\
      (forall h, r = inl h -> h = fs_root));
  open_dir_law h c s r s' : fs_open_dir h c s = (r, s') -> does s s' r (open_dir_does (view s) h c);
  open_file_law h c s r s' : fs_open_file h c s = (r, s') -> does s s' r (open_file_does (view s) h c);
  fstat_law h s r s' : fs_fstat h s = (r, s') -> does s s' r (fstat_does (view s) h);
  statat_law h c s r s' : fs_statat h c s = (r, s') -> does s s' r (statat_does (view s) h c);
  read_law h s r s' : fs_read h s = (r, s') ->
    read_does (view s) h r (view s') /\
    (reliable s -> reliable s' /\ forall e, inr e ∉ r);
  mkdir_law h c mode s r s' : fs_mkdirat h c mode s = (r, s') ->
    does s s' r (creates (view s) h c (NDir fs_euid (masked mode) ∅) tt);
  create_law h c mode s r s' : fs_create_excl h c mode s = (r, s') ->
    does s s' r (creates (view s) h c (NFile fs_euid (masked mode) []) (h ++ [c]));
  write_law h c data s o s' : fs_write_sync (h ++ [c]) data s = (o, s') ->
    forall owner mode, node_at (view s) (h ++ [c]) = Some (NFile owner mode []) ->
    exists written, view s' = add_entry (view s) h c (NFile owner mode written) /\
      (o = None -> written = data) /\ (reliable s -> reliable s' /\ o = None);
  rename_law h c k d noreplace s r s' : fs_renameat h c k d noreplace s = (r, s') ->
    does s s' r (rename_does (view s) h c k d noreplace);
  unlink_law h c dir s r s' : fs_unlinkat h c dir s = (r, s') ->
    does s s' r (unlink_does (view s) h c dir);
}.

(** ** Paths of a tree *)

(** The contents of the regular file at a path. *)
Definition file_at (n : Node) (p : Handle) : option bytes :=
  match label_at n p with Some (NFile _ _ data) => Some data | _ => None end.
Definition dir_at (n : Node) (p : Handle) : bool := is_dir (label_at n p).

(** The rest of [q] beneath [p]. *)
Fixpoint below (p q : Handle) : option Handle :=
  match p, q with
  | [], _ => Some q
  | a :: p, b :: q => if decide (a = b) then below p q else None
  | _ :: _, [] => None
  end.

Lemma below_Some p : forall q r, below p q = Some r <-> q = p ++ r.
Proof.
  induction p as [|a p IH]; intros q r; cbn [below app].
  - split; [by intros [= ->]|by intros ->].
  - destruct q as [|b q]; [done|]. case_decide as Hab.
    + subst b. rewrite IH. split; [by intros ->|by intros [= ->]].
    + split; [done|]. intros [= -> _]. done.
Qed.
Lemma below_app p r : below p (p ++ r) = Some r.
Proof. by apply below_Some. Qed.

Lemma below_refl p : below p p = Some [].
Proof. apply below_Some. by rewrite app_nil_r. Qed.

Lemma is_dir_label o : is_dir (label <$> o) = is_dir o.
Proof. by destruct o as [[]|]. Qed.

Lemma dir_at_node n p : dir_at n p = is_dir (node_at n p).
Proof. apply is_dir_label. Qed.

Lemma label_alter h : forall n q f,
  is_dir (node_at n h) = true ->
  label_at (alter_entries n h f) q =
  match below h q, node_at n h with
  | Some (c :: q'), Some (NDir _ _ es) => f es !! c ≫= fun child => label_at child q'
  | _, _ => label_at n q
  end.
Proof.
  induction h as [|a h IH]; intros n q f Hd; destruct n as [| | |]; try done.
  - cbn [alter_entries below node_at]. destruct q as [|c q]; [done|].
    unfold label_at; cbn [node_at]. by destruct (f entries !! c).
  - cbn [alter_entries node_at] in Hd |- *.
    destruct (entries !! a) as [child|] eqn:Ha; cbn [mbind option_bind] in Hd |- *; [|done].
    destruct q as [|b q]; [done|]. cbn [below].
    unfold label_at; cbn [node_at]. case_decide as Hab.
    + subst b. rewrite lookup_insert_eq. cbn [mbind option_bind].
      change (label <$> node_at ?x ?y) with (label_at x y). rewrite IH //.
      destruct (below h q) as [[|]|], (node_at child h) as [[]|]; by rewrite ?Ha.
    + rewrite lookup_insert_ne //.
Qed.

Lemma snoc_app {A} (h : list A) c q : h ++ c :: q = (h ++ [c]) ++ q.
Proof. by rewrite -app_assoc. Qed.

Lemma node_at_app n p : forall q, node_at n (p ++ q) = node_at n p ≫= fun m => node_at m q.
Proof.
  revert n. induction p as [|c p IH]; intros n q; [done|]. cbn [app node_at].
  destruct n as [|? ? es| |]; try done. destruct (es !! c); [|done]. apply IH.
Qed.

Lemma label_at_app n p q : label_at n (p ++ q) = node_at n p ≫= fun m => label_at m q.
Proof. unfold label_at. rewrite node_at_app. by destruct (node_at n p). Qed.

(** Entries appear and disappear with everything beneath them, and nothing else
    changes. *)
Lemma label_add n h c child q :
  is_dir (node_at n h) = true ->
  label_at (add_entry n h c child) q =
  match below (h ++ [c]) q with Some rest => label_at child rest | None => label_at n q end.
Proof.
  intros Hd. unfold add_entry. rewrite label_alter //.
  destruct (below (h ++ [c]) q) as [rest|] eqn:Hb.
  - apply below_Some in Hb as ->. rewrite -app_assoc below_app. cbn [app].
    destruct (node_at n h) as [[]|]; try done. by rewrite lookup_insert_eq.
  - destruct (below h q) as [[|b q']|] eqn:Hq; [done| |done].
    apply below_Some in Hq as ->. destruct (node_at n h) as [[| | |]|] eqn:Hn; try done.
    destruct (decide (b = c)) as [->|Hne].
    + by rewrite (_ : h ++ c :: q' = (h ++ [c]) ++ q') ?below_app // -app_assoc in Hb.
    + rewrite lookup_insert_ne // label_at_app Hn. cbn [mbind option_bind]. unfold label_at.
      cbn [node_at]. by destruct (entries !! b).
Qed.

Lemma label_remove n h c q :
  is_dir (node_at n h) = true ->
  label_at (remove_entry n h c) q =
  match below (h ++ [c]) q with Some _ => None | None => label_at n q end.
Proof.
  intros Hd. unfold remove_entry. rewrite label_alter //.
  destruct (below (h ++ [c]) q) as [rest|] eqn:Hb.
  - apply below_Some in Hb as ->. rewrite -app_assoc below_app. cbn [app].
    destruct (node_at n h) as [[]|]; try done. by rewrite lookup_delete_eq.
  - destruct (below h q) as [[|b q']|] eqn:Hq; [done| |done].
    apply below_Some in Hq as ->. destruct (node_at n h) as [[| | |]|] eqn:Hn; try done.
    destruct (decide (b = c)) as [->|Hne].
    + by rewrite (_ : h ++ c :: q' = (h ++ [c]) ++ q') ?below_app // -app_assoc in Hb.
    + rewrite lookup_delete_ne // label_at_app Hn. cbn [mbind option_bind]. unfold label_at.
      cbn [node_at]. by destruct (entries !! b).
Qed.

Lemma node_at_parent n h c m : node_at n (h ++ [c]) = Some m -> is_dir (node_at n h) = true.
Proof.
  rewrite node_at_app. destruct (node_at n h) as [[]|]; cbn; try done.
Qed.

(** Nothing lies beneath an absent path. *)
Lemma label_below_None n p q : label_at n p = None -> label_at n (p ++ q) = None.
Proof.
  rewrite label_at_app. unfold label_at. by destruct (node_at n p).
Qed.

(** ** Nothing that exists is changed

    [touch P n n']: from [n] to [n'] nothing that existed has changed, and what is
    new lies at paths in [P]. *)
Definition touch (P : Handle -> Prop) (n n' : Node) : Prop :=
  forall q, label_at n' q = label_at n q \/ (label_at n q = None /\ P q).

Lemma touch_refl P n : touch P n n.
Proof. intros q. by left. Qed.
Lemma touch_trans P n1 n2 n3 : touch P n1 n2 -> touch P n2 n3 -> touch P n1 n3.
Proof.
  intros H12 H23 q. destruct (H12 q) as [E|?]; [|by right].
  destruct (H23 q) as [E'|[E' HP]]; [left; congruence|right; split; congruence].
Qed.

Lemma touch_file P n n' q d : touch P n n' -> file_at n q = Some d -> file_at n' q = Some d.
Proof.
  intros Ht Hq. destruct (Ht q) as [E|[E _]].
  - unfold file_at in *. by rewrite E.
  - unfold file_at in Hq. by rewrite E in Hq.
Qed.
Lemma touch_dir P n n' q : touch P n n' -> dir_at n q = true -> dir_at n' q = true.
Proof.
  intros Ht Hq. unfold dir_at in *. destruct (Ht q) as [->|[E _]]; [done|]. by rewrite E in Hq.
Qed.
Lemma touch_outside P n n' q : touch P n n' -> ~ P q -> label_at n' q = label_at n q.
Proof. intros Ht Hq. destruct (Ht q) as [|[]]; [done|]. contradiction. Qed.

(** Adding an entry where none was. *)
Lemma touch_add P n n' h c child :
  touch P n n' -> label_at n' (h ++ [c]) = None ->
  (forall r, is_Some (label_at child r) -> P ((h ++ [c]) ++ r)) ->
  is_dir (node_at n' h) = true -> touch P n (add_entry n' h c child).
Proof.
  intros Ht Hn HP Hd q. rewrite label_add //. destruct (below (h ++ [c]) q) as [r|] eqn:Hb; [|apply Ht].
  apply below_Some in Hb as ->. assert (Hq : label_at n ((h ++ [c]) ++ r) = None).
  { destruct (Ht ((h ++ [c]) ++ r)) as [E|[]]; [|done]. rewrite -E. by apply label_below_None. }
  destruct (label_at child r) eqn:Hc; [right|left; congruence]. split; [done|]. by apply HP; rewrite Hc.
Qed.

Lemma touch_None P n n' q : touch P n n' -> label_at n' q = None -> label_at n q = None.
Proof. intros Ht Hq. destruct (Ht q) as [E|[]]; congruence. Qed.

(** Removing what was not there at the start. *)
Lemma touch_remove P n n' h c :
  touch P n n' -> label_at n (h ++ [c]) = None ->
  is_dir (node_at n' h) = true -> touch P n (remove_entry n' h c).
Proof.
  intros Ht Hn Hd q. rewrite label_remove //.
  destruct (below (h ++ [c]) q) as [r|] eqn:Hb; [|apply Ht].
  apply below_Some in Hb as ->. left. symmetry. by apply label_below_None.
Qed.

Lemma label_file_beneath owner mode data r :
  is_Some (label_at (NFile owner mode data) r) -> r = [].
Proof. destruct r; [done|]. by intros [? [=]]. Qed.

Lemma below_None_prefix p q : below p q = None <-> ~ p `prefix_of` q.
Proof.
  split.
  - intros Hb [r ->]. by rewrite below_app in Hb.
  - intros Hp. destruct (below p q) as [r|] eqn:E; [|done]. apply below_Some in E as ->.
    destruct Hp. by exists r.
Qed.

Lemma node_at_label_None n q : node_at n q = None <-> label_at n q = None.
Proof. unfold label_at. by destruct (node_at n q). Qed.

(** Renaming what was not there at the start: a file to a free name, a directory
    to a free name or over an empty directory. *)
Lemma touch_rename P n n' h c k d noreplace r n2 source :
  touch P n n' -> label_at n (h ++ [c]) = None -> node_at n' (h ++ [c]) = Some source ->
  (is_dir (Some source) = true \/ label_at n (k ++ [d]) = None) ->
  (forall r, is_Some (label_at source r) -> P ((k ++ [d]) ++ r)) ->
  rename_does n' h c k d noreplace r n2 -> touch P n n2.
Proof.
  intros Ht Hn Hs Hkind HP. unfold rename_does. rewrite Hs.
  case_bool_decide as Hpre; [by intros [_ ->]|].
  destruct (noreplace && _); [by intros [_ ->]|].
  destruct (replaces _ _ && _) eqn:Hrep; [|by intros [_ ->]]. intros [_ ->].
  apply andb_true_iff in Hrep as [Hrep Hk]. pose proof (node_at_parent _ _ _ _ Hs) as Hh.
  assert (Hk' : is_dir (node_at (remove_entry n' h c) k) = true).
  { rewrite -is_dir_label. change (is_dir (label_at (remove_entry n' h c) k) = true).
    rewrite label_remove // (proj2 (below_None_prefix _ _) Hpre). by rewrite -dir_at_node in Hk. }
  intros q. rewrite label_add //. destruct (below (k ++ [d]) q) as [rest|] eqn:Hb.
  - apply below_Some in Hb as ->.
    assert (Hfree : rest <> [] \/ label_at n (k ++ [d]) = None -> label_at n ((k ++ [d]) ++ rest) = None).
    { intros Hrest. destruct (decide (label_at n (k ++ [d]) = None)) as [|Hex];
        [by apply label_below_None|]. destruct Hrest as [Hrest|]; [|done].
      apply (touch_None P n n'); [done|]. rewrite label_at_app.
      destruct (node_at n' (k ++ [d])) as [t|] eqn:Ht'; [|done]. cbn.
      destruct Hkind as [Hsd|]; [|done]. destruct source as [|? ? es| |]; try done. destruct t as [|? ? es'| |]; try done.
      cbn in Hrep. apply bool_decide_eq_true in Hrep as ->.
      destruct rest as [|x rest]; [done|]. unfold label_at; cbn. by rewrite lookup_empty. }
    destruct (decide (rest = [])) as [->|Hrest].
    + rewrite app_nil_r in Hfree |- *. destruct (decide (label_at n (k ++ [d]) = None)) as [Hnone|Hex].
      * right. split; [done|]. specialize (HP []). rewrite app_nil_r in HP. apply HP. by eexists.
      * left. destruct Hkind as [Hsd|]; [|done]. destruct source; try done.
        destruct (Ht (k ++ [d])) as [E|[]]; [|done]. rewrite -E in Hex |- *. unfold label_at in *.
        destruct (node_at n' (k ++ [d])) as [[]|]; try done.
    + rewrite Hfree; [|by left]. destruct (label_at source rest) eqn:Hsr; [right|by left].
      split; [done|]. apply HP. by rewrite Hsr.
  - rewrite label_remove //. destruct (below (h ++ [c]) q) as [rest|] eqn:Hb'; [|apply Ht].
    apply below_Some in Hb' as ->. left. symmetry. by apply label_below_None.
Qed.

Lemma pieces_of_cons p ps : pieces_of (p :: ps) = pieces_of [p] ++ pieces_of ps.
Proof. unfold pieces_of. cbn. by rewrite app_nil_r. Qed.

(** A bounded read delivers a prefix, the whole when it stays below the bound. *)
Lemma read_take_spec limit pieces : forall acc data,
  zlen acc <= limit -> read_take limit acc pieces = Ok data ->
  zlen data <= limit /\
  (zlen data < limit -> data = acc ++ pieces_of pieces /\
    forall e, inr e ∈ pieces -> e.(error_kind) = Interrupted).
Proof.
  induction pieces as [|[piece|e] pieces IH]; intros acc data Hacc; cbn [read_take].
  - destruct (zlen acc =? limit); intros [= <-]; split; [done| |done|]; intros _;
      (split; [by rewrite app_nil_r|by intros ? ?%elem_of_nil]).
  - destruct (Z.eqb_spec (zlen acc) limit) as [E|E].
    + intros [= <-]. split; [done|]. lia.
    + set (got := take _ piece).
      assert (Hgot : zlen got <= limit - zlen acc) by (unfold got, zlen in *; rewrite length_take; lia).
      intros Hr. apply IH in Hr as [Hle Hlt]; [|rewrite zlen_app; lia]. split; [done|].
      intros Hd. destruct (Hlt Hd) as [-> Hint].
      assert (Hwhole : got = piece).
      { unfold got. apply take_ge. rewrite !zlen_app in Hd. unfold got, zlen in *.
        rewrite length_take in Hd. pose proof (zlen_nonneg (pieces_of pieces)). unfold zlen in *. lia. }
      rewrite Hwhole (pieces_of_cons (inl piece)). split; [by rewrite -app_assoc /pieces_of /= app_nil_r|].
      intros e [|]%elem_of_cons; [done|auto].
  - destruct (Z.eqb_spec (zlen acc) limit) as [E|E].
    + intros [= <-]. split; [done|]. lia.
    + case_bool_decide as Hi; [|done]. intros Hr. apply IH in Hr as [Hle Hlt]; [|done].
      split; [done|]. intros Hd. destruct (Hlt Hd) as [-> Hint].
      split; [done|]. intros e' [[= ->]|]%elem_of_cons; auto.
Qed.

(** What is read is a prefix of what the pieces hold. *)
Lemma read_take_full limit data pieces : zlen data = limit -> read_take limit data pieces = Ok data.
Proof. intros <-. destruct pieces as [|[piece|e] pieces]; cbn; by rewrite Z.eqb_refl. Qed.
Lemma read_take_prefix limit pieces : forall acc data,
  zlen acc <= limit -> read_take limit acc pieces = Ok data ->
  exists rest, acc ++ pieces_of pieces = data ++ rest.
Proof.
  induction pieces as [|[piece|e] pieces IH]; intros acc data Hacc; cbn [read_take].
  - destruct (zlen acc =? limit); intros [= <-]; by exists [].
  - destruct (zlen acc =? limit) eqn:E; [intros [= <-]; by eexists|]. intros Hr.
    rewrite (pieces_of_cons (inl piece)) {1}/pieces_of /= app_nil_r.
    destruct (decide (zlen piece <= limit - zlen acc)) as [Hp|Hp].
    + rewrite take_ge in Hr; [|unfold zlen in *; lia].
      apply IH in Hr as [rest Hr]; [|rewrite zlen_app; lia]. exists rest. by rewrite -Hr app_assoc.
    + set (n := Z.to_nat (limit - zlen acc)) in *. rewrite read_take_full in Hr.
      * injection Hr as <-. exists (drop n piece ++ pieces_of pieces).
        by rewrite -!app_assoc (app_assoc (take _ _)) take_drop.
      * rewrite zlen_app. unfold n, zlen in *. rewrite length_take. lia.
  - destruct (zlen acc =? limit) eqn:E; [intros [= <-]; by eexists|].
    case_bool_decide; [|done]. intros Hr. by apply IH in Hr.
Qed.

Lemma read_take_whole limit pieces : forall acc,
  zlen (acc ++ pieces_of pieces) < limit -> (forall e, inr e ∉ pieces) ->
  read_take limit acc pieces = Ok (acc ++ pieces_of pieces).
Proof.
  induction pieces as [|[piece|e] pieces IH]; intros acc Hlt Hno; cbn [read_take].
  - rewrite app_nil_r in Hlt |- *. rewrite (proj2 (Z.eqb_neq _ _)); [done|lia].
  - rewrite (pieces_of_cons (inl piece)) in Hlt |- *. rewrite /= app_nil_r in Hlt |- *.
    rewrite app_assoc in Hlt |- *.
    assert (zlen acc + zlen piece < limit).
    { rewrite !zlen_app in Hlt. pose proof (zlen_nonneg (pieces_of pieces)). lia. }
    pose proof (zlen_nonneg piece).
    rewrite (proj2 (Z.eqb_neq _ _)); [|lia]. rewrite take_ge; [|unfold zlen in *; lia].
    apply IH; [done|]. intros e He. apply (Hno e). by right.
  - destruct (Hno e). left.
Qed.

Section specs.
Context {S : Type} `{FsLaws S} `{DebugStr} `{Sha256}.
#[local] Set Default Proof Using "All".

(** A computation that changes nothing. *)
Definition reads {A} (n : Node) (m : M S A) (Q : A -> Prop) : Prop :=
  triple (fun s => view s = n) m (fun a s => view s = n /\ Q a) (fun _ s => view s = n).

(** A computation that returns [a] from a state whose calls do not fail. *)
Definition succeeds {A} (n : Node) (m : M S A) (a : A) : Prop :=
  forall s, reliable s -> view s = n ->
    exists s', m s = Some (Ok a, s') /\ reliable s' /\ view s' = n.

Lemma reads_bind {A B} n (m : M S A) (k : A -> M S B) Q R :
  reads n m Q -> (forall a, Q a -> reads n (k a) R) -> reads n (m ≫= k) R.
Proof.
  intros Hm Hk. eapply triple_bind; [exact Hm|]. intros a. apply triple_pure. intros Ha.
  by apply Hk.
Qed.

Lemma reads_ret {A} n (a : A) (Q : A -> Prop) : Q a -> reads n (mret a) Q.
Proof. intros Ha. by apply triple_ret. Qed.
Lemma reads_throw {A} n e (Q : A -> Prop) : reads n (throw e) Q.
Proof. by apply triple_throw. Qed.
Lemma reads_lift {A} n (r : result A) (Q : A -> Prop) :
  (forall a, r = Ok a -> Q a) -> reads n (lift r) Q.
Proof. intros Hr. apply triple_lift. intros s Hs. destruct r; auto. Qed.
Lemma reads_weaken {A} n (m : M S A) (Q R : A -> Prop) :
  reads n m Q -> (forall a, Q a -> R a) -> reads n m R.
Proof. intros Hm HQ. eapply triple_consequence; [exact Hm|naive_solver..]. Qed.

Lemma succeeds_bind {A B} n (m : M S A) (k : A -> M S B) a b :
  succeeds n m a -> succeeds n (k a) b -> succeeds n (m ≫= k) b.
Proof.
  intros Hm Hk s Hr Hv. destruct (Hm s Hr Hv) as (s1&E&Hr1&Hv1).
  destruct (Hk s1 Hr1 Hv1) as (s2&E2&Hr2&Hv2). exists s2. unfold mbind, M_bind. by rewrite E.
Qed.
Lemma succeeds_ret {A} n (a : A) : succeeds n (mret a) a.
Proof. intros s Hr Hv. by exists s. Qed.
Lemma succeeds_lift {A} n (r : result A) a : r = Ok a -> succeeds n (lift r) a.
Proof. intros -> s Hr Hv. by exists s. Qed.

Lemma reads_rethrow {A} n f (m : M S A) Q : reads n m Q -> reads n (rethrow f m) Q.
Proof.
  intros Hm s Hs. specialize (Hm s Hs). unfold rethrow. by destruct (m s) as [[[a|e] s']|].
Qed.
Lemma succeeds_rethrow {A} n f (m : M S A) a : succeeds n m a -> succeeds n (rethrow f m) a.
Proof.
  intros Hm s Hr Hs. destruct (Hm s Hr Hs) as (s'&E&Hr'&Hs'). exists s'.
  unfold rethrow. by rewrite E.
Qed.
Lemma reads_fail_if n b e : reads n (fail_if b e : M S unit) (fun _ => b = false).
Proof. unfold fail_if. destruct b; [apply reads_throw|by apply reads_ret]. Qed.
Lemma succeeds_fail_if n b e : b = false -> succeeds n (fail_if b e : M S unit) tt.
Proof. intros ->. apply succeeds_ret. Qed.

(** One call of the interface that reads. *)
Lemma reads_call {R} n (f : S -> (R + Errno) * S) (ok : R + Errno -> Node -> Prop) (Q : R + Errno -> Prop) :
  (forall s r s', f s = (r, s') -> view s = n -> does s s' r ok) ->
  (forall r n', ok r n' -> n' = n /\ Q r) -> (forall code, Q (inr (EOTHER code))) ->
  reads n (call f) Q.
Proof.
  intros Hf Hok Hsp s Hs. unfold call. destruct (f s) as [r s'] eqn:E.
  destruct (Hf _ _ _ E Hs) as [_ [Hk|[(e&->&code&->) Hv]]].
  - by apply Hok in Hk as [-> HQ].
  - split; [by rewrite Hv|done].
Qed.

Lemma succeeds_call {R} n (f : S -> (R + Errno) * S) (ok : R + Errno -> Node -> Prop) r :
  (forall s r s', f s = (r, s') -> view s = n -> does s s' r ok) ->
  (forall r' n', ok r' n' -> n' = n /\ r' = r) -> succeeds n (call f) r.
Proof.
  intros Hf Hok s Hr Hs. unfold call. destruct (f s) as [r' s'] eqn:E.
  destruct (Hf _ _ _ E Hs) as [Hrel _]. destruct (Hrel Hr) as [Hr' [Hv ->]%Hok].
  by exists s'.
Qed.

Lemma try_clone_spec n root :
  triple (fun s => view s = n) (try_clone root) (fun h s => view s = n /\ h = root)
    (fun e s => view s = n /\ e.(error_kind) <> NotFound).
Proof.
  intros s Hs. unfold try_clone, call, or_io, mbind, M_bind.
  destruct (fs_clone s) as [o s'] eqn:E. destruct (clone_law _ _ _ E) as (Hv&_&Hk).
  destruct o as [e|]; cbn; (split; [by rewrite Hv|]); [by apply Hk|done].
Qed.

Lemma try_clone_succeeds n root : succeeds n (try_clone root) root.
Proof.
  intros s Hr Hs. unfold try_clone, call, or_io, mbind, M_bind.
  destruct (fs_clone s) as [o s'] eqn:E. destruct (clone_law _ _ _ E) as (Hv&Hrel&_).
  destruct (Hrel Hr) as [Hr' ->]. exists s'. cbn. split_and!; [done..|by rewrite Hv].
Qed.

(** Opening a directory beneath the root: its path, or the reason it is absent. *)
Lemma beneath_loop_spec n cs : forall h,
  triple (fun s => view s = n) (beneath_loop h cs)
    (fun h' s => view s = n /\ h' = h ++ cs)
    (fun e s => view s = n /\ (e.(error_kind) = NotFound -> node_at n (h ++ cs) = None)).
Proof.
  induction cs as [|c cs IH]; intros h; cbn [beneath_loop].
  { apply triple_ret. intros s Hs. by rewrite app_nil_r. }
  intros s Hs. unfold call, mbind, M_bind. destruct (fs_open_dir h c s) as [r s'] eqn:E.
  destruct (open_dir_law _ _ _ _ _ E) as [_ [[Hv Hd]|[(e&->&code&->) Hv]]]; rewrite Hs in Hv.
  - rewrite Hs in Hd. destruct (node_at n (h ++ [c])) as [m|] eqn:Hm.
    + assert (Hbad : forall e, r = inr e -> e = ENOTDIR \/ e = ELOOP ->
        match or_describe c r s' with
        | Some (Ok a, s0) => beneath_loop a cs s0
        | Some (Err e0, s0) => Some (Err e0, s0) | None => None end = Some (Err (describe e c), s')).
      { by intros e ->. }
      destruct m; try (destruct Hd as [Hd|Hd]; rewrite (Hbad _ Hd); auto; cbn; by split).
      subst r. cbn. specialize (IH (h ++ [c]) s' Hv). by rewrite -app_assoc in IH.
    + subst r. cbn. split; [done|]. intros _.
      by rewrite snoc_app node_at_app Hm.
  - cbn. by split.
Qed.

Lemma open_beneath_spec n root cs :
  triple (fun s => view s = n) (open_beneath root cs)
    (fun h s => view s = n /\ h = root ++ cs)
    (fun e s => view s = n /\ (e.(error_kind) = NotFound -> node_at n (root ++ cs) = None)).
Proof.
  unfold open_beneath. eapply triple_bind.
  - eapply triple_consequence; [apply (try_clone_spec n)|by intros|by intros ?? Hq; exact Hq|].
    intros e s [Hs Hk]. split; [done|]. by intros ?%Hk.
  - intros h. cbn. apply triple_pure. intros ->. apply beneath_loop_spec.
Qed.

Lemma fstat_reads n h m : node_at n h = Some m -> reads n (fstat h) (fun st => st = stat_of m).
Proof.
  intros Hm. unfold fstat. eapply reads_bind.
  - apply (reads_call n _ (fstat_does n h) (fun r => forall st, r = inl st -> st = stat_of m)).
    + intros s r s' E <-. by apply fstat_law.
    + intros r n' [-> Hr]. split; [done|]. intros st ->. by specialize (Hr m Hm) as [= ->].
    + done.
  - intros [st|e] Hst; [apply reads_ret; auto|apply reads_throw].
Qed.

Lemma fstat_succeeds n h m : node_at n h = Some m -> succeeds n (fstat h) (stat_of m).
Proof.
  intros Hm. unfold fstat. eapply succeeds_bind.
  - apply (succeeds_call n _ (fstat_does n h) (inl (stat_of m))).
    + intros s r s' E <-. by apply fstat_law.
    + intros r n' [-> Hr]. split; [done|by apply Hr].
  - apply succeeds_ret.
Qed.

Lemma split_relative_snoc rel dir name :
  components rel = Ok (dir ++ [name]) -> split_relative rel = Ok (dir, name).
Proof.
  intros Hc. unfold split_relative. rewrite Hc. cbn [mbind result_bind].
  by rewrite last_snoc removelast_last.
Qed.

Lemma split_relative_Ok rel dir name :
  split_relative rel = Ok (dir, name) -> components rel = Ok (dir ++ [name]).
Proof.
  unfold split_relative. destruct (components rel) as [cs|]; cbn [mbind result_bind]; [|done].
  destruct (list.last cs) as [x|] eqn:Hl; [|done]. intros [= <- <-].
  apply last_Some in Hl as [l ->]. by rewrite removelast_last.
Qed.

Lemma reads_triple {A} n (m : M S A) Q R E :
  triple (fun s => view s = n) m (fun a s => view s = n /\ Q a) E ->
  (forall a, Q a -> R a) -> (forall e s, E e s -> view s = n) -> reads n m R.
Proof. intros Hm HQ HE. eapply triple_consequence; [exact Hm|naive_solver..]. Qed.

(** Opening a regular file: what it is, or that nothing is there. *)
Lemma open_regular_reads n root rel path :
  components rel = Ok path ->
  reads n (open_regular root rel) (fun o =>
    match o with
    | Some (fd, size) => fd = root ++ path /\ exists owner mode data,
        node_at n fd = Some (NFile owner mode data) /\ size = zlen data
    | None => node_at n (root ++ path) = None
    end).
Proof.
  intros Hc. unfold open_regular. eapply reads_bind.
  { apply reads_lift. intros a Ha. exact Ha. }
  intros [dir name] Hs%split_relative_Ok. rewrite Hc in Hs. injection Hs as ->.
  intros s Hs. unfold catch, mbind, M_bind. pose proof (open_beneath_spec n root dir s Hs) as Hb.
  destruct (open_beneath root dir s) as [[[h|e] s1]|]; [|destruct Hb as [Hv Hk]|done].
  2: { case_bool_decide as Hnf; cbn; [|done]. split; [done|].
       rewrite app_assoc node_at_app (Hk Hnf). done. }
  destruct Hb as [Hv ->]. revert s1 Hv.
  change (reads n (
    r ← call (fs_open_file (root ++ dir) name);
    match r with
    | inl fd => stat ← fstat fd;
        if negb (bool_decide (stat.(st_type) = RegularNode)) then
          throw (invalid (quoted rel +:+ " is not a regular file"))
        else if stat.(st_size) <? 0 then throw (invalid (quoted rel +:+ " has a negative size"))
        else mret (Some (fd, stat.(st_size)))
    | inr ENOENT => mret None
    | inr e => throw (describe e rel)
    end) (fun o => match o with
    | Some (fd, size) => fd = root ++ dir ++ [name] /\ exists owner mode data,
        node_at n fd = Some (NFile owner mode data) /\ size = zlen data
    | None => node_at n (root ++ dir ++ [name]) = None
    end)).
  eapply reads_bind.
  - apply (reads_call n _ (open_file_does n (root ++ dir) name)
      (fun r => match r with
         | inl fd => fd = root ++ dir ++ [name] /\ is_Some (node_at n fd)
         | inr ENOENT => node_at n (root ++ dir ++ [name]) = None | _ => True end)).
    + intros s' r s'' E <-. by apply open_file_law.
    + intros r n' [-> Hr]. split; [done|]. rewrite -app_assoc in Hr.
      destruct (node_at n _) as [[]|] eqn:Hm; subst r; try done; by rewrite Hm.
    + done.
  - intros [fd|e] Hr; [|destruct e; try apply reads_throw; by apply reads_ret].
    destruct Hr as [-> [m Hm]]. eapply reads_bind; [by apply fstat_reads|].
    intros st ->. case_bool_decide as Ht; [|apply reads_throw]. cbn [negb].
    destruct (_ <? 0); [apply reads_throw|]. apply reads_ret. split; [done|].
    destruct m as [owner mode data| | |]; try done. by exists owner, mode, data.
Qed.

Lemma file_at_Some n p d : file_at n p = Some d <-> exists owner mode, node_at n p = Some (NFile owner mode d).
Proof.
  unfold file_at, label_at. destruct (node_at n p) as [[]|]; cbn; naive_solver.
Qed.

Lemma read_file_if_exists_reads n root rel limit path :
  components rel = Ok path ->
  reads n (read_file_if_exists root rel limit) (fun o =>
    match o with
    | Some data => file_at n (root ++ path) = Some data /\ zlen data <= limit
    | None => node_at n (root ++ path) = None
    end).
Proof.
  intros Hc. unfold read_file_if_exists. eapply reads_bind; [by apply open_regular_reads|].
  intros [[fd size]|]; [|by intros; apply reads_ret].
  intros (->&owner&mode&data&Hm&->). eapply reads_bind; [|intros d Hd; apply reads_ret; exact Hd].
  unfold read_bounded. destruct (limit <? zlen data) eqn:Hsz; [apply reads_throw|].
  apply Z.ltb_ge in Hsz. pose proof (zlen_nonneg data).
  intros s Hs. unfold call, mbind, M_bind. destruct (fs_read _ s) as [ps s'] eqn:E.
  destruct (read_law _ _ _ _ E) as [[Hv Hd] _]. rewrite Hs in Hv, Hd.
  destruct (Hd _ _ _ Hm) as [_ Hwhole]. unfold lift.
  destruct (read_take _ _ ps) as [d|e] eqn:Ht; [|done].
  apply read_take_spec in Ht as [Hle Hlt]; [|rewrite zlen_nil; lia].
  destruct (limit <? zlen d) eqn:Hd'; [done|]. cbn. apply Z.ltb_ge in Hd'. split; [done|].
  destruct Hlt as [-> Hint]; [lia|]. cbn [app] in *. rewrite Hwhole //. split; [|by rewrite -Hwhole].
  apply file_at_Some. eauto.
Qed.

Lemma read_file_reads n root rel limit path :
  components rel = Ok path ->
  reads n (read_file root rel limit) (fun data =>
    file_at n (root ++ path) = Some data /\ zlen data <= limit).
Proof.
  intros Hc. unfold read_file. eapply reads_bind; [by apply read_file_if_exists_reads|].
  intros [d|] Hd; apply reads_lift; intros a [= <-]. done.
Qed.

(** The digest of a file, and that it was hashed whole. *)
Lemma hash_loop_spec rel limit pieces : forall total hashed data,
  hash_loop rel limit total hashed pieces = Ok data ->
  data = hashed ++ pieces_of pieces /\ forall e, inr e ∉ pieces.
Proof.
  induction pieces as [|[piece|e] pieces IH]; intros total hashed data; cbn [hash_loop]; [| |done].
  - intros [= <-]. rewrite app_nil_r. split; [done|]. by intros ? ?%elem_of_nil.
  - destruct (limit <? _); [done|]. intros [-> Hno]%IH. split.
    + by rewrite (pieces_of_cons (inl piece)) /= app_nil_r app_assoc.
    + intros e [|]%elem_of_cons; [done|]. by eapply Hno.
Qed.

Lemma hash_loop_whole rel limit pieces : forall total hashed,
  total + zlen (pieces_of pieces) <= limit -> (forall e, inr e ∉ pieces) ->
  hash_loop rel limit total hashed pieces = Ok (hashed ++ pieces_of pieces).
Proof.
  induction pieces as [|[piece|e] pieces IH]; intros total hashed Hle Hno; cbn [hash_loop].
  - by rewrite app_nil_r.
  - rewrite (pieces_of_cons (inl piece)) /= app_nil_r in Hle |- *. rewrite zlen_app in Hle.
    pose proof (zlen_nonneg (pieces_of pieces)). rewrite (proj2 (Z.ltb_ge _ _)); [|lia].
    rewrite IH; [by rewrite app_assoc|lia|]. intros e He. apply (Hno e). by right.
  - destruct (Hno e). left.
Qed.

Lemma sha256_file_reads n root rel limit path :
  components rel = Ok path ->
  reads n (sha256_file root rel limit) (fun digest => exists data,
    file_at n (root ++ path) = Some data /\ zlen data <= limit /\ digest = hex (sha256_digest data)).
Proof.
  intros Hc. unfold sha256_file. eapply reads_bind; [by apply open_regular_reads|].
  intros [[fd size]|]; [|intros _; eapply reads_bind with (Q := fun _ => False);
    [by apply reads_lift|done]].
  intros (->&owner&mode&data&Hm&->). cbn.
  eapply reads_bind with (Q := fun p => p = (root ++ path, zlen data)).
  { apply reads_lift. by intros a [= <-]. }
  intros ? ->. destruct (limit <? zlen data) eqn:Hsz; [apply reads_throw|]. apply Z.ltb_ge in Hsz.
  intros s Hs. unfold call, mbind, M_bind. destruct (fs_read _ s) as [ps s'] eqn:E.
  destruct (read_law _ _ _ _ E) as [[Hv Hd] _]. rewrite Hs in Hv, Hd.
  destruct (Hd _ _ _ Hm) as [_ Hwhole]. unfold lift.
  destruct (hash_loop _ _ _ _ ps) as [d|e] eqn:Ht; [|done].
  apply hash_loop_spec in Ht as [-> Hno]. cbn. split; [done|]. exists data.
  rewrite Hwhole; [|by intros e He%Hno]. split_and!; [|done|done]. apply file_at_Some. eauto.
Qed.

(** The remaining checks change nothing. *)
Lemma fstat_same n h : reads n (fstat h) (fun _ => True).
Proof.
  unfold fstat. eapply reads_bind with (Q := fun _ => True).
  - apply (reads_call n _ (fstat_does n h)).
    + intros s r s' E <-. by apply fstat_law.
    + intros r n' [-> _]. done.
    + done.
  - intros [st|e] _; [by apply reads_ret|apply reads_throw].
Qed.

Lemma open_beneath_same n root cs : reads n (open_beneath root cs) (fun h => h = root ++ cs).
Proof. eapply reads_triple; [apply open_beneath_spec|done|by intros ?? []]. Qed.

Lemma open_directory_reads n root rel path :
  components rel = Ok path -> reads n (open_directory root rel) (fun h => h = root ++ path).
Proof.
  intros Hc. unfold open_directory. eapply reads_bind with (Q := fun cs => cs = path).
  - apply reads_lift. rewrite Hc. by intros ? [= <-].
  - intros ? ->. apply open_beneath_same.
Qed.

Lemma require_private_directory_same n root rel :
  reads n (require_private_directory root rel) (fun _ => True).
Proof.
  unfold require_private_directory, open_directory.
  eapply reads_bind with (Q := fun _ => True).
  - eapply reads_bind with (Q := fun _ => True); [by apply reads_lift|]. intros cs _.
    by eapply reads_weaken; [apply open_beneath_same|].
  - intros h _. eapply reads_bind; [apply fstat_same|]. intros st _. by apply reads_lift.
Qed.

Lemma require_private_file_same n root rel path :
  components rel = Ok path -> reads n (require_private_file root rel) (fun _ => True).
Proof.
  intros Hc. unfold require_private_file.
  eapply reads_bind; [by apply open_regular_reads|]. intros o _.
  eapply reads_bind with (Q := fun _ => True); [by apply reads_lift|]. intros [fd size] _.
  eapply reads_bind; [apply fstat_same|]. intros st _. by apply reads_lift.
Qed.

(** ** Reads that succeed *)

Lemma beneath_loop_succeeds n cs : forall h,
  is_dir (node_at n (h ++ cs)) = true -> succeeds n (beneath_loop h cs) (h ++ cs).
Proof.
  induction cs as [|c cs IH]; intros h Hd; cbn [beneath_loop].
  { rewrite app_nil_r. apply succeeds_ret. }
  rewrite snoc_app in Hd |- *.
  assert (Hd' : is_dir (node_at n (h ++ [c])) = true).
  { rewrite node_at_app in Hd. destruct cs as [|d cs].
    - by destruct (node_at n (h ++ [c])).
    - destruct (node_at n (h ++ [c])) as [[]|]; done. }
  eapply succeeds_bind.
  - apply (succeeds_call n _ (open_dir_does n h c) (inl (h ++ [c]))).
    + intros s r s' E <-. by apply open_dir_law.
    + intros r n' [-> Hr]. split; [done|]. by destruct (node_at n (h ++ [c])) as [[]|].
  - cbn. eapply succeeds_bind; [apply succeeds_ret|]. by apply IH.
Qed.

Lemma open_beneath_succeeds n root cs :
  is_dir (node_at n (root ++ cs)) = true -> succeeds n (open_beneath root cs) (root ++ cs).
Proof.
  intros Hd. eapply succeeds_bind; [apply try_clone_succeeds|]. by apply beneath_loop_succeeds.
Qed.

Lemma succeeds_catch {A} n (m : M S A) a : succeeds n m a -> succeeds n (catch m) (Ok a).
Proof.
  intros Hm s Hr Hv. destruct (Hm s Hr Hv) as (s'&E&H'). exists s'. unfold catch. by rewrite E.
Qed.

Lemma open_regular_succeeds n root rel path data :
  components rel = Ok path -> path <> [] -> file_at n (root ++ path) = Some data ->
  succeeds n (open_regular root rel) (Some (root ++ path, zlen data)).
Proof.
  intros Hc Hne Hf. destruct (exists_last Hne) as (dir&name&->).
  apply file_at_Some in Hf as (owner&mode&Hm).
  unfold open_regular. eapply succeeds_bind.
  { by apply succeeds_lift, split_relative_snoc. }
  cbn. rewrite app_assoc in Hm.
  eapply succeeds_bind; [apply succeeds_catch, open_beneath_succeeds; by eapply node_at_parent|].
  cbn. eapply succeeds_bind.
  - apply (succeeds_call n _ (open_file_does n (root ++ dir) name) (inl (root ++ dir ++ [name]))).
    + intros s r s' E <-. by apply open_file_law.
    + intros r n' [-> Hr]. split; [done|]. by rewrite Hm -app_assoc in Hr.
  - cbn. eapply succeeds_bind; [apply fstat_succeeds; by rewrite app_assoc|].
    cbn [stat_of st_type st_size]. rewrite bool_decide_eq_true_2 //. cbn [negb].
    rewrite (proj2 (Z.ltb_ge _ _) (zlen_nonneg data)). apply succeeds_ret.
Qed.

Lemma read_call_succeeds n h owner mode data :
  node_at n h = Some (NFile owner mode data) ->
  forall s, reliable s -> view s = n -> exists ps s', fs_read h s = (ps, s') /\
    reliable s' /\ view s' = n /\ pieces_of ps = data /\ (forall e, inr e ∉ ps).
Proof.
  intros Hm s Hr Hs. destruct (fs_read h s) as [ps s'] eqn:E. exists ps, s'.
  destruct (read_law _ _ _ _ E) as [[Hv Hd] Hrel]. destruct (Hrel Hr) as [Hr' Hno].
  rewrite Hs in Hd, Hv. destruct (Hd _ _ _ Hm) as [_ Hw].
  split_and!; try done. apply Hw. by intros e He%Hno.
Qed.

Lemma read_file_succeeds n root rel limit path data :
  components rel = Ok path -> path <> [] -> file_at n (root ++ path) = Some data ->
  zlen data <= limit -> succeeds n (read_file root rel limit) data.
Proof.
  intros Hc Hne Hf Hle. unfold read_file, read_file_if_exists.
  assert (Hb : succeeds n (read_bounded (root ++ path) (zlen data) rel limit) data).
  { unfold read_bounded. rewrite (proj2 (Z.ltb_ge _ _) Hle). intros s Hr Hs.
    apply file_at_Some in Hf as (owner&mode&Hm).
    destruct (read_call_succeeds _ _ _ _ _ Hm s Hr Hs) as (ps&s'&E&Hr'&Hs'&<-&Hno).
    exists s'. unfold call, mbind, M_bind, lift. rewrite E.
    rewrite (read_take_whole _ _ []) //; [|cbn; lia].
    cbn [app]. by rewrite (proj2 (Z.ltb_ge _ _) Hle). }
  eapply succeeds_bind with (a := Some data); [|by apply succeeds_lift].
  eapply succeeds_bind; [by apply open_regular_succeeds|]. cbn.
  eapply succeeds_bind; [exact Hb|apply succeeds_ret].
Qed.

Lemma sha256_file_succeeds n root rel limit path data :
  components rel = Ok path -> path <> [] -> file_at n (root ++ path) = Some data ->
  zlen data <= limit -> succeeds n (sha256_file root rel limit) (hex (sha256_digest data)).
Proof.
  intros Hc Hne Hf Hle. unfold sha256_file.
  eapply succeeds_bind; [by apply open_regular_succeeds|]. cbn.
  eapply succeeds_bind; [by apply succeeds_lift|]. cbn. rewrite (proj2 (Z.ltb_ge _ _) Hle).
  intros s Hr Hs. apply file_at_Some in Hf as (owner&mode&Hm).
  destruct (read_call_succeeds _ _ _ _ _ Hm s Hr Hs) as (ps&s'&E&Hr'&Hs'&<-&Hno).
  exists s'. unfold call, mbind, M_bind, lift. rewrite E hash_loop_whole //.
Qed.

(** ** Writes *)

(** The state after any outcome of [m] has been touched in [P] only. *)
Definition touches {A} (P : Handle -> Prop) (n : Node) (I : Node -> Prop) (m : M S A)
    (Q : A -> Node -> Prop) : Prop :=
  triple (fun s => touch P n (view s) /\ I (view s)) m
    (fun a s => touch P n (view s) /\ Q a (view s)) (fun _ s => touch P n (view s)).

Definition anything (n : Node) : Prop := True.

Lemma touches_bind {A B} P n I (m : M S A) (k : A -> M S B) Q R :
  touches P n I m Q -> (forall a, touches P n (Q a) (k a) R) -> touches P n I (m ≫= k) R.
Proof. intros Hm Hk. eapply triple_bind; [exact Hm|exact Hk]. Qed.

Lemma touches_weaken {A} P n I I' (m : M S A) (Q R : A -> Node -> Prop) :
  touches P n I m Q -> (forall n', I' n' -> I n') -> (forall a n', Q a n' -> R a n') ->
  touches P n I' m R.
Proof. intros Hm HI HQ. eapply triple_consequence; [exact Hm|naive_solver..]. Qed.

Lemma touches_ret {A} P n I (a : A) (Q : A -> Node -> Prop) :
  (forall n', I n' -> Q a n') -> touches P n I (mret a) Q.
Proof. intros HQ. apply triple_ret. naive_solver. Qed.
Lemma touches_throw {A} P n I e (Q : A -> Node -> Prop) : touches P n I (throw e) Q.
Proof. apply triple_throw. naive_solver. Qed.
Lemma touches_lift {A} P n I (r : result A) (Q : A -> Node -> Prop) :
  (forall a n', r = Ok a -> I n' -> Q a n') -> touches P n I (lift r) Q.
Proof. intros HQ. apply triple_lift. intros s [Ht Hi]. destruct r; naive_solver. Qed.

(** A computation that only reads, inside one that writes. *)
Lemma touches_reads {A} P n I (m : M S A) (Q : Node -> A -> Prop) :
  (forall n', reads n' m (Q n')) -> touches P n I m (fun a n' => I n' /\ Q n' a).
Proof.
  intros Hm s [Ht Hi]. specialize (Hm (view s) s eq_refl).
  destruct (m s) as [[[a|e] s']|]; [|by rewrite Hm|done].
  destruct Hm as [Hv Hq]. by rewrite Hv.
Qed.

(** A call that changes the tree. *)
Lemma touches_call {R} P n I (f : S -> (R + Errno) * S) (ok : Node -> R + Errno -> Node -> Prop)
    (Q : R + Errno -> Node -> Prop) :
  (forall s r s', f s = (r, s') -> does s s' r (ok (view s))) ->
  (forall n1 r n2, touch P n n1 -> I n1 -> ok n1 r n2 -> touch P n n2 /\ Q r n2) ->
  (forall code n', I n' -> Q (inr (EOTHER code)) n') ->
  touches P n I (call f) Q.
Proof.
  intros Hf Hok Hsp s [Ht Hi]. unfold call. destruct (f s) as [r s'] eqn:E.
  destruct (Hf _ _ _ E) as [_ [Hk|[(e&->&code&->) Hv]]].
  - by eapply Hok.
  - rewrite Hv. auto.
Qed.

Lemma touches_clone P n I root :
  touches P n I (try_clone root) (fun h n' => I n' /\ h = root).
Proof.
  intros s [Ht Hi]. pose proof (try_clone_spec (view s) root s eq_refl) as Hc.
  destruct (try_clone root s) as [[[h|e] s']|]; [|destruct Hc as [-> _]; done|done].
  by destruct Hc as [-> ->].
Qed.

Lemma create_loop_touches P n rel cs : forall h,
  (forall p x q, cs = p ++ x :: q -> P (h ++ p ++ [x])) ->
  touches P n anything (create_loop rel h cs) (fun h' _ => h' = h ++ cs).
Proof.
  induction cs as [|c cs IH]; intros h HP; cbn [create_loop].
  { apply touches_ret. intros. by rewrite app_nil_r. }
  eapply touches_bind with (Q := fun _ => anything).
  { apply (touches_call P n anything _ (fun n' => creates n' h c (NDir fs_euid (masked 448) ∅) tt)).
    - intros s r s' E. by apply mkdir_law in E.
    - intros n1 r n2 Ht _. unfold creates. destruct (node_at n1 (h ++ [c])) eqn:Hn; [by intros [_ ->]|].
      destruct (is_dir _) eqn:Hd; [|by intros [_ ->]]. intros [_ ->]. split; [|done].
      apply touch_add; [done|by apply node_at_label_None| |done].
      intros [|x r0] [? Hr]; [|unfold label_at in Hr; cbn in Hr; by rewrite lookup_empty in Hr].
      rewrite app_nil_r. by apply (HP [] c cs).
    - done. }
  intros made. eapply touches_bind with (Q := fun _ => anything).
  { destruct made as [[]|[]]; first [by apply touches_ret|apply touches_throw]. }
  intros _. eapply touches_bind with (Q := fun r _ => match r with inl h' => h' = h ++ [c] | inr _ => True end).
  { apply (touches_call P n anything _ (fun n' => open_dir_does n' h c)).
    - intros s r s' E. by apply open_dir_law in E.
    - intros n1 r n2 Ht _ [-> Hr]. split; [done|]. destruct (node_at n1 _) as [[]|]; naive_solver.
    - done. }
  intros [h'|e]; cbn; [|apply touches_throw].
  eapply touches_bind with (Q := fun x _ => x = h ++ [c]); [by apply touches_ret|]. intros x.
  eapply touches_bind with (Q := fun _ _ => x = h ++ [c]).
  { unfold fstat. eapply touches_bind with (Q := fun _ _ => x = h ++ [c]).
    - apply (touches_call P n _ _ (fun n' => fstat_does n' x)).
      + intros s r s' E. by apply fstat_law in E.
      + intros n1 r n2 Ht Hx [-> _]. done.
      + done.
    - intros [st|e]; [by apply touches_ret|apply touches_throw]. }
  intros st. eapply touches_bind with (Q := fun _ _ => x = h ++ [c]); [by apply touches_lift|].
  intros _ s [Ht ->]. rewrite (_ : h ++ c :: cs = (h ++ [c]) ++ cs); [|apply snoc_app].
  apply IH; [|done]. intros p y q ->. rewrite -app_assoc. by apply (HP (c :: p) y q).
Qed.

Lemma create_beneath_touches P n root rel cs :
  (forall p x q, cs = p ++ x :: q -> P (root ++ p ++ [x])) ->
  touches P n anything (open_or_create_beneath root rel cs) (fun h _ => h = root ++ cs).
Proof.
  intros HP. unfold open_or_create_beneath. eapply touches_bind; [apply touches_clone|].
  intros h s [Ht [_ ->]]. by apply create_loop_touches.
Qed.

(** Names of staging entries. *)
Definition staged (name t : string) : Prop :=
  exists k, t = "." +:+ name +:+ ".staging." +:+ fmt_dec fs_pid +:+ "." +:+ fmt_dec k.

Lemma staging_name_touches P n I name :
  touches P n I (staging_name name) (fun t n' => I n' /\ staged name t).
Proof.
  intros s [Ht Hi]. unfold staging_name, call, mbind, M_bind. destruct (fs_counter s) as [k s'] eqn:E.
  destruct (counter_law _ _ _ E) as [Hv _]. cbn. rewrite Hv. split_and!; [done..|]. by exists k.
Qed.

Lemma discard_touches P n dir t :
  label_at n (dir ++ [t]) = None -> touches P n anything (discard dir t) (fun _ => anything).
Proof.
  intros Hn. unfold discard. eapply touches_bind with (Q := fun _ => anything); [|by intros; apply touches_ret].
  apply (touches_call P n _ _ (fun n' => unlink_does n' dir t false)).
  - intros s r s' E. by apply unlink_law in E.
  - intros n1 r n2 Ht _. unfold unlink_does. destruct (node_at n1 (dir ++ [t])) as [m|] eqn:Hm; [|by intros [_ ->]].
    destruct (negb _); [|by intros [_ ->]]. intros [_ ->]. split; [|done].
    apply touch_remove; [done..|]. by eapply node_at_parent.
  - done.
Qed.

Lemma write_staging_touches P n dir name data :
  (forall t, staged name t -> P (dir ++ [t])) ->
  touches P n anything (write_staging_file dir name data) (fun t n' =>
    staged name t /\ label_at n (dir ++ [t]) = None /\ file_at n' (dir ++ [t]) = Some data).
Proof.
  intros HP. unfold write_staging_file. eapply touches_bind; [apply staging_name_touches|].
  intros t. eapply touches_bind with (Q := fun r n' => match r with
    | inl fd => fd = dir ++ [t] /\ staged name t /\ label_at n (dir ++ [t]) = None /\
        exists owner mode, node_at n' (dir ++ [t]) = Some (NFile owner mode [])
    | inr _ => True end).
  { apply (touches_call P n _ _
      (fun n' => creates n' dir t (NFile fs_euid (masked 384) []) (dir ++ [t]))).
    - intros s r s' E. by apply create_law in E.
    - intros n1 r n2 Ht [_ Hst]. unfold creates.
      destruct (node_at n1 (dir ++ [t])) eqn:Hn; [by intros [-> ->]|].
      destruct (is_dir _) eqn:Hd; [|by intros [-> ->]]. intros [-> ->].
      apply node_at_label_None in Hn. split.
      + apply touch_add; [done..| |done]. intros r ->%label_file_beneath.
        rewrite app_nil_r. auto.
      + split_and!; [done..|by eapply touch_None|].
        pose proof (label_add n1 dir t (NFile fs_euid (masked 384) []) (dir ++ [t]) Hd) as Hl.
        rewrite below_refl in Hl.
        unfold label_at in Hl. cbn in Hl.
        destruct (node_at (add_entry _ _ _ _) _) as [[]|]; try done. injection Hl as -> -> ->. eauto.
    - done. }
  intros [fd|e]; cbn; [|apply touches_throw].
  eapply touches_bind with (Q := fun x n' => x = dir ++ [t] /\ staged name t /\
    label_at n (dir ++ [t]) = None /\ exists owner mode, node_at n' (dir ++ [t]) = Some (NFile owner mode [])).
  { apply touches_ret. naive_solver. }
  intros x s [Ht (->&Hst&Hn&owner&mode&Hm)]. unfold call, mbind, M_bind.
  destruct (fs_write_sync _ data s) as [o s'] eqn:E.
  destruct (write_law _ _ _ _ _ _ E _ _ Hm) as (written&Hv&Hw&_).
  assert (Hd : is_dir (node_at (view s) dir) = true) by by eapply node_at_parent.
  assert (Ht' : touch P n (view s')).
  { intros q. rewrite Hv label_add //. destruct (below (dir ++ [t]) q) as [r|] eqn:Hb; [|apply Ht].
    apply below_Some in Hb as ->. destruct r as [|y r].
    - right. rewrite app_nil_r. auto.
    - left. symmetry. by apply label_below_None. }
  assert (Hf : file_at (view s') (dir ++ [t]) = Some written).
  { unfold file_at. by rewrite Hv label_add // below_refl. }
  destruct o as [e|].
  - pose proof (discard_touches P n dir t Hn s' (conj Ht' I)) as Hd'.
    destruct (discard dir t s') as [[[]]|]; [by apply Hd'|done..].
  - cbn. by rewrite -(Hw eq_refl).
Qed.

Lemma rename_result n h c k d noreplace n2 source :
  node_at n (h ++ [c]) = Some source -> rename_does n h c k d noreplace (inl tt) n2 ->
  label_at n2 (k ++ [d]) = Some (label source) /\
  (noreplace = true -> label_at n (k ++ [d]) = None).
Proof.
  intros Hs. unfold rename_does. rewrite Hs. case_bool_decide as Hpre; [by intros []|].
  destruct (noreplace && _) eqn:Hno; [by intros []|].
  destruct (replaces _ _ && _) eqn:Hrep; [|by intros [[e He] _]]. intros [_ ->].
  apply andb_true_iff in Hrep as [_ Hk]. pose proof (node_at_parent _ _ _ _ Hs) as Hh. split.
  - rewrite label_add ?below_refl //. rewrite -is_dir_label.
    change (is_dir (label_at (remove_entry n h c) k) = true).
    rewrite label_remove // (proj2 (below_None_prefix _ _) Hpre). by rewrite -dir_at_node in Hk.
  - intros ->. cbn in Hno. apply bool_decide_eq_false in Hno. apply node_at_label_None.
    destruct (node_at n (k ++ [d])); [destruct Hno; by eexists|done].
Qed.

Lemma file_label n p d : file_at n p = Some d <-> exists owner mode, label_at n p = Some (NFile owner mode d).
Proof. unfold file_at. destruct (label_at n p) as [[]|]; naive_solver. Qed.

(** Moving a staging file into place, when the name was free at the start. *)
Lemma rename_file_touches P n dir t name data noreplace :
  label_at n (dir ++ [t]) = None -> label_at n (dir ++ [name]) = None -> P (dir ++ [name]) ->
  touches P n (fun n' => file_at n' (dir ++ [t]) = Some data)
    (call (fs_renameat dir t dir name noreplace))
    (fun r n' => match r with inl _ => file_at n' (dir ++ [name]) = Some data | inr _ => True end).
Proof.
  intros Hn Hname HP. apply (touches_call P n _ _ (fun n' => rename_does n' dir t dir name noreplace)).
  - intros s r s' E. by apply rename_law in E.
  - intros n1 r n2 Ht Hf Hr. apply file_at_Some in Hf as (owner&mode&Hm). split.
    + eapply touch_rename; [exact Ht|exact Hn|exact Hm|by right| |exact Hr].
      intros q ->%label_file_beneath. by rewrite app_nil_r.
    + destruct r as [[]|]; [|done]. destruct (rename_result _ _ _ _ _ _ _ _ Hm Hr) as [Hl _].
      apply file_label. eauto.
  - done.
Qed.

(** The paths an atomic write of [dir/name] may leave behind or create. *)
Definition zone (P : Handle -> Prop) (root dir : Handle) (name : string) : Prop :=
  (forall p x q, dir = p ++ x :: q -> P (root ++ p ++ [x])) /\
  (forall t, staged name t -> P ((root ++ dir) ++ [t])).

Lemma write_file_atomic_touches P n root rel data dir name :
  components rel = Ok (dir ++ [name]) -> zone P root dir name ->
  P (root ++ dir ++ [name]) -> label_at n (root ++ dir ++ [name]) = None ->
  touches P n anything (write_file_atomic root rel data)
    (fun _ n' => file_at n' (root ++ dir ++ [name]) = Some data).
Proof.
  intros Hc [Hdirs Hst] HP Hn. unfold write_file_atomic.
  eapply touches_bind with (Q := fun p _ => p = (dir, name)).
  { apply touches_lift. rewrite (split_relative_snoc _ _ _ Hc). by intros ?? [= <-]. }
  intros [d' n']. intros s [Ht [= -> ->]]. revert s Ht.
  enough (touches P n anything (
    directory ← open_or_create_beneath root rel dir;
    temporary ← write_staging_file directory name data;
    r ← call (fs_renameat directory temporary directory name false);
    match r with
    | inl _ => mret tt
    | inr e => _ ← discard directory temporary; throw (describe e rel)
    end) (fun _ n' => file_at n' (root ++ dir ++ [name]) = Some data)) as Hall.
  { intros s Ht. by apply Hall. }
  eapply touches_bind; [by apply create_beneath_touches|].
  intros h s [Ht ->]. revert s Ht.
  enough (touches P n anything (
    temporary ← write_staging_file (root ++ dir) name data;
    r ← call (fs_renameat (root ++ dir) temporary (root ++ dir) name false);
    match r with
    | inl _ => mret tt
    | inr e => _ ← discard (root ++ dir) temporary; throw (describe e rel)
    end) (fun _ n' => file_at n' (root ++ dir ++ [name]) = Some data)) as Hall.
  { intros s Ht. by apply Hall. }
  rewrite app_assoc in HP, Hn |- *.
  eapply touches_bind; [by apply write_staging_touches|]. intros t s [Ht (Hs&Hnt&Hf)].
  pose proof (rename_file_touches P n (root ++ dir) t name data false Hnt Hn HP s (conj Ht Hf)) as Hr.
  unfold mbind, M_bind. destruct (call _ s) as [[[[[]|e]|e] s']|]; try done.
  destruct Hr as [Ht' _]. pose proof (discard_touches P n _ t Hnt s' (conj Ht' I)) as Hd.
  destruct (discard _ t s') as [[[]]|]; [by apply Hd|done..].
Qed.

(** Exclusive publication: on success the name was free and holds the data;
    otherwise only the zone is touched. *)
Lemma publish_exclusive_spec P n root rel data dir name :
  components rel = Ok (dir ++ [name]) -> zone P root dir name ->
  triple (fun s => touch P n (view s)) (publish_exclusive root rel data)
    (fun published s =>
      if published : bool then
        touch (fun q => P q \/ q = root ++ dir ++ [name]) n (view s) /\
        file_at (view s) (root ++ dir ++ [name]) = Some data
      else touch P n (view s))
    (fun _ s => touch P n (view s)).
Proof.
  intros Hc [Hdirs Hst]. unfold publish_exclusive.
  intros s Hs. unfold lift. rewrite {1}/mbind {1}/M_bind (split_relative_snoc _ _ _ Hc).
  unfold mbind at 1, M_bind at 1.
  pose proof (create_beneath_touches P n root rel dir Hdirs s (conj Hs I)) as Hb.
  destruct (open_or_create_beneath root rel dir s) as [[[h|e] s1]|]; [|done..].
  destruct Hb as [Ht1 ->]. unfold mbind at 1, M_bind at 1.
  pose proof (write_staging_touches P n (root ++ dir) name data Hst s1 (conj Ht1 I)) as Hw.
  destruct (write_staging_file (root ++ dir) name data s1) as [[[t|e] s2]|]; [|done..].
  destruct Hw as [Ht2 (Hstg&Hnt&Hf)]. unfold mbind at 1, M_bind at 1, call at 1.
  destruct (fs_renameat _ _ _ _ _ s2) as [r s3] eqn:E. apply rename_law in E as [_ E].
  apply file_at_Some in Hf as (owner&mode&Hm).
  assert (Hd : forall (a : bool) m', touch P n (view s3) ->
    (forall s4, touch P n (view s4) -> m' s4 = Some (Ok a, s4) /\ a = false \/ exists e, m' s4 = Some (Err e, s4)) ->
    match (_ ← discard (root ++ dir) t; m') s3 with
    | Some (Ok a, s4) => if a : bool then
        touch (fun q => P q \/ q = root ++ dir ++ [name]) n (view s4) /\
        file_at (view s4) (root ++ dir ++ [name]) = Some data else touch P n (view s4)
    | Some (Err _, s4) => touch P n (view s4) | None => True end).
  { intros a m' Ht3 Hm'. unfold mbind, M_bind.
    pose proof (discard_touches P n _ t Hnt s3 (conj Ht3 I)) as Hd.
    destruct (discard _ t s3) as [[[[]|e] s4]|]; [destruct Hd as [Hd _]|done..].
    destruct (Hm' s4 Hd) as [[-> ->]|[e ->]]; done. }
  destruct E as [Hr|[(e&->&code&->) Hv]].
  - assert (Hrt : r <> inl tt -> touch P n (view s3)).
    { intros Hne. unfold rename_does in Hr. rewrite Hm in Hr. case_bool_decide; [by destruct Hr as [_ ->]|].
      destruct (true && _); [by destruct Hr as [_ ->]|]. destruct (_ && _); [by destruct Hr as [-> _]|].
      by destruct Hr as [_ ->]. }
    destruct r as [[]|e].
    + cbn. destruct (rename_result _ _ _ _ _ _ _ _ Hm Hr) as [Hl Hfree].
      rewrite -app_assoc in Hl Hfree. split; [|apply file_label; eauto].
      eapply touch_rename; [|exact Hnt|exact Hm|right| |exact Hr].
      * intros q. destruct (Ht2 q) as [|[]]; [by left|]. right. auto.
      * rewrite -app_assoc. by eapply touch_None, Hfree.
      * intros q ->%label_file_beneath. rewrite app_nil_r -app_assoc. by right.
    + destruct e; first [apply (Hd false); [by apply Hrt|]; intros s4 _; right; by eexists
                        |apply (Hd false); [by apply Hrt|]; intros s4 _; left; done].
  - apply (Hd false); [by rewrite Hv|]. intros s4 _. right. by eexists.
Qed.

Lemma touches_pure {A} P n I (φ : Prop) (m : M S A) Q :
  (φ -> touches P n I m Q) -> touches P n (fun n' => I n' /\ φ) m Q.
Proof. intros Hm s [Ht [Hi Hφ]]. by apply Hm. Qed.

Lemma touches_beneath P n I root cs :
  touches P n I (open_beneath root cs) (fun h n' => I n' /\ h = root ++ cs).
Proof.
  intros s [Ht Hi]. pose proof (open_beneath_spec (view s) root cs s eq_refl) as Hc.
  destruct (open_beneath root cs s) as [[[h|e] s']|]; [|destruct Hc as [-> _]; done|done].
  by destruct Hc as [-> ->].
Qed.

Lemma touches_split P n I rel dir name :
  components rel = Ok (dir ++ [name]) ->
  touches P n I (lift (split_relative rel)) (fun p n' => I n' /\ p = (dir, name)).
Proof.
  intros Hc. apply touches_lift. rewrite (split_relative_snoc _ _ _ Hc). by intros ?? [= <-].
Qed.

Lemma touches_describe {A} P n I rel (r : A + Errno) (Q : A -> Node -> Prop) :
  (forall a n', r = inl a -> I n' -> Q a n') -> touches P n I (or_describe rel r) Q.
Proof. intros HQ. destruct r; [apply touches_ret; eauto|apply touches_throw]. Qed.

(** A fresh empty directory. *)
Definition fresh_dir (n : Node) (path : Handle) : Prop :=
  dir_at n path = true /\ forall x, label_at n (path ++ [x]) = None.

Lemma create_directory_touches P n root rel dir name :
  components rel = Ok (dir ++ [name]) -> P (root ++ dir ++ [name]) ->
  touches P n anything (create_directory root rel)
    (fun _ n' => label_at n (root ++ dir ++ [name]) = None /\ fresh_dir n' (root ++ dir ++ [name])).
Proof.
  intros Hc HP. unfold create_directory. rewrite app_assoc in HP |- *.
  eapply touches_bind; [by apply touches_split|]. intros [d' x]. apply touches_pure. intros [= -> ->].
  eapply touches_bind; [apply touches_beneath|]. intros h. apply touches_pure. intros ->.
  eapply touches_bind with (Q := fun r n' => match r with
    | inl _ => label_at n ((root ++ dir) ++ [name]) = None /\ fresh_dir n' ((root ++ dir) ++ [name])
    | inr _ => True end).
  - apply (touches_call P n _ _ (fun n' => creates n' (root ++ dir) name (NDir fs_euid (masked 448) ∅) tt)).
    + intros s r s' E. by apply mkdir_law in E.
    + intros n1 r n2 Ht _. unfold creates. destruct (node_at n1 _) eqn:Hn; [by intros [-> ->]|].
      destruct (is_dir _) eqn:Hd; [|by intros [-> ->]]. intros [-> ->].
      apply node_at_label_None in Hn. split_and!.
      * apply touch_add; [done..| |done].
        intros [|y r0] [? Hr]; [|unfold label_at in Hr; cbn in Hr; by rewrite lookup_empty in Hr].
        by rewrite app_nil_r.
      * by eapply touch_None.
      * split.
        -- unfold dir_at. by rewrite label_add // below_refl.
        -- intros y. rewrite label_add // below_app. unfold label_at; cbn. by rewrite lookup_empty.
    + done.
  - intros r. apply touches_describe. intros a n' ->. done.
Qed.

Lemma remove_if_exists_touches P n flag root rel dir name :
  components rel = Ok (dir ++ [name]) -> label_at n (root ++ dir ++ [name]) = None ->
  touches P n anything (remove_if_exists flag root rel) (fun _ => anything).
Proof.
  intros Hc Hn. unfold remove_if_exists. rewrite app_assoc in Hn.
  eapply touches_bind; [by apply touches_split|]. intros [d' x]. apply touches_pure. intros [= -> ->].
  eapply touches_bind; [apply touches_beneath|]. intros h. apply touches_pure. intros ->.
  eapply touches_bind with (Q := fun _ => anything).
  - apply (touches_call P n _ _ (fun n' => unlink_does n' (root ++ dir) name flag)).
    + intros s r s' E. by apply unlink_law in E.
    + intros n1 r n2 Ht _. unfold unlink_does. destruct (node_at n1 _) as [m|] eqn:Hm; [|by intros [_ ->]].
      destruct (if flag then _ else _); [|by intros [_ ->]]. intros [_ ->]. split; [|done].
      apply touch_remove; [done..|]. by eapply node_at_parent.
    + done.
  - intros [[]|[]]; first [by apply touches_ret|apply touches_throw].
Qed.

(** Moving a directory that was not there at the start. *)
Lemma rename_dir_touches P n root from to fdir fname tdir tname :
  components from = Ok (fdir ++ [fname]) -> components to = Ok (tdir ++ [tname]) ->
  label_at n (root ++ fdir ++ [fname]) = None ->
  (forall r, P ((root ++ tdir ++ [tname]) ++ r)) ->
  touches P n (fun n' => dir_at n' (root ++ fdir ++ [fname]) = true) (rename root from to)
    (fun _ => anything).
Proof.
  intros Hf Hto Hn HP. unfold rename. rewrite app_assoc in Hn |- *.
  eapply touches_bind; [by apply touches_split|]. intros [d' x]. apply touches_pure. intros [= -> ->].
  eapply touches_bind; [by apply touches_split|]. intros [d' x]. apply touches_pure. intros [= -> ->].
  eapply touches_bind; [apply touches_beneath|]. intros h. apply touches_pure. intros ->.
  eapply touches_bind; [apply touches_beneath|]. intros h. apply touches_pure. intros ->.
  eapply touches_bind with (Q := fun _ => anything); [|intros r; by apply touches_describe].
  apply (touches_call P n _ _ (fun n' => rename_does n' (root ++ fdir) fname (root ++ tdir) tname false)).
  - intros s r s' E. by apply rename_law in E.
  - intros n1 r n2 Ht Hd Hr. split; [|done]. rewrite dir_at_node in Hd.
    destruct (node_at n1 ((root ++ fdir) ++ [fname])) as [m|] eqn:Hm; [|done].
    eapply touch_rename; [exact Ht|exact Hn|exact Hm|by left| |exact Hr].
    intros q _. rewrite -(app_assoc root). apply HP.
  - done.
Qed.

Lemma exists_beneath_touches P n root rel :
  touches P n anything (exists_beneath root rel) (fun _ => anything).
Proof.
  unfold exists_beneath. eapply touches_bind with (Q := fun _ => anything); [by apply touches_lift|].
  intros [dir name]. eapply touches_bind; [apply touches_beneath|]. intros h.
  eapply touches_bind with (Q := fun _ => anything).
  - apply (touches_call P n _ _ (fun n' => statat_does n' h name)).
    + intros s r s' E. by apply statat_law in E.
    + intros n1 r n2 Ht _ [-> _]. done.
    + done.
  - intros [[]|[]]; first [by apply touches_ret|apply touches_throw].
Qed.

(** [let _ = m]. *)
Lemma touches_catch {A} P n I (m : M S A) Q :
  touches P n I m Q -> touches P n I (catch m) (fun r n' => match r with Ok a => Q a n' | Err _ => True end).
Proof.
  intros Hm s Hs. specialize (Hm s Hs). unfold catch. destruct (m s) as [[[a|e] s']|]; done.
Qed.
End specs.

(** ** Every operation returns

    No operation waits, so none needs fuel. *)
Section total.
Context {S : Type}.

Definition total {A} (m : M S A) : Prop := forall s, exists r s', m s = Some (r, s').

Lemma total_bind {A B} (m : M S A) (k : A -> M S B) :
  total m -> (forall a, total (k a)) -> total (m ≫= k).
Proof.
  intros Hm Hk s. destruct (Hm s) as (r&s1&E). unfold mbind, M_bind. rewrite E.
  destruct r as [a|e]; [apply Hk|eauto].
Qed.
Lemma total_ret {A} (a : A) : total (mret a : M S A).
Proof. intros s. by eexists _, _. Qed.
Lemma total_throw {A} e : total (throw e : M S A).
Proof. intros s. by eexists _, _. Qed.
Lemma total_lift {A} (r : result A) : total (lift r : M S A).
Proof. intros s. by eexists _, _. Qed.
Lemma total_call {A} (f : S -> A * S) : total (call f).
Proof. intros s. unfold call. destruct (f s). by eexists _, _. Qed.
Lemma total_fail_if b e : total (fail_if b e : M S unit).
Proof. destruct b; [apply total_throw|apply total_ret]. Qed.
Lemma total_catch {A} (m : M S A) : total m -> total (catch m).
Proof. intros Hm s. destruct (Hm s) as (r&s'&E). unfold catch. rewrite E. by eexists _, _. Qed.
Lemma total_rethrow {A} f (m : M S A) : total m -> total (rethrow f m).
Proof. intros Hm s. destruct (Hm s) as (r&s'&E). unfold rethrow. rewrite E. by eexists _, _. Qed.
Lemma total_or_io o : total (or_io o : M S unit).
Proof. destruct o; [apply total_throw|apply total_ret]. Qed.
End total.

Create HintDb total discriminated.
#[export] Hint Resolve total_ret total_throw total_lift total_call total_fail_if total_catch
  total_rethrow total_or_io : total.
Ltac solve_total :=
  repeat first
    [ solve [auto with total]
    | apply total_bind; [|intros ?]
    | apply total_catch | apply total_rethrow
    | match goal with |- total (match ?x with _ => _ end) => destruct x end
    | match goal with |- total ((fun _ => _) _) => cbv beta end ].

Section root_total.
Context {S : Type} `{HostFs S} `{DebugStr} `{Sha256}.

Lemma total_describe {A} path (r : A + Errno) : total (or_describe path r : M S A).
Proof. unfold or_describe. solve_total. Qed.
Lemma total_errno {A} (r : A + Errno) : total (or_errno r : M S A).
Proof. unfold or_errno. solve_total. Qed.
#[local] Hint Resolve total_describe total_errno : total.

Lemma total_fstat fd : total (fstat fd : M S Stat).
Proof. unfold fstat. solve_total. Qed.
Lemma total_open : total (Root_open : M S Root).
Proof. unfold Root_open. solve_total. Qed.
Lemma total_beneath root cs : total (open_beneath root cs : M S Handle).
Proof.
  unfold open_beneath, try_clone. apply total_bind; [solve_total|]. intros h. revert h.
  induction cs as [|c cs IH]; intros h; cbn [beneath_loop]; solve_total.
Qed.
#[local] Hint Resolve total_fstat total_open total_beneath : total.

Lemma total_open_private : total (open_private : M S Root).
Proof. unfold open_private. solve_total. Qed.
Lemma total_open_directory root rel : total (open_directory root rel : M S Root).
Proof. unfold open_directory. solve_total. Qed.
#[local] Hint Resolve total_open_directory : total.
Lemma total_private_directory root rel : total (require_private_directory root rel : M S unit).
Proof. unfold require_private_directory. solve_total. Qed.
Lemma total_regular root rel : total (open_regular root rel : M S (option (Handle * Z))).
Proof. unfold open_regular. solve_total. Qed.
#[local] Hint Resolve total_regular : total.
Lemma total_private_file root rel : total (require_private_file root rel : M S unit).
Proof. unfold require_private_file. solve_total. Qed.
Lemma total_read_if root rel limit : total (read_file_if_exists root rel limit : M S (option bytes)).
Proof. unfold read_file_if_exists, read_bounded. solve_total. Qed.
#[local] Hint Resolve total_read_if : total.
Lemma total_read root rel limit : total (read_file root rel limit : M S bytes).
Proof. unfold read_file. solve_total. Qed.
Lemma total_sha256_file root rel limit : total (sha256_file root rel limit : M S string).
Proof. unfold sha256_file. solve_total. Qed.
Lemma total_exists root rel : total (exists_beneath root rel : M S bool).
Proof. unfold exists_beneath. solve_total. Qed.
Lemma total_create_beneath root rel cs : total (open_or_create_beneath root rel cs : M S Handle).
Proof.
  unfold open_or_create_beneath, try_clone. apply total_bind; [solve_total|]. intros h. revert h.
  induction cs as [|c cs IH]; intros h; cbn [create_loop]; solve_total.
Qed.
Lemma total_staging_name name : total (staging_name name : M S string).
Proof. unfold staging_name. solve_total. Qed.
Lemma total_discard dir t : total (discard dir t : M S unit).
Proof. unfold discard. solve_total. Qed.
#[local] Hint Resolve total_create_beneath total_staging_name total_discard : total.
Lemma total_create_directory_beneath root rel : total (open_or_create_directory root rel : M S Handle).
Proof. unfold open_or_create_directory. solve_total. Qed.
Lemma total_create_directory root rel : total (create_directory root rel : M S unit).
Proof. unfold create_directory. solve_total. Qed.
Lemma total_write_staging dir name data : total (write_staging_file dir name data : M S string).
Proof. unfold write_staging_file. solve_total. Qed.
#[local] Hint Resolve total_write_staging : total.
Lemma total_publish_exclusive root rel data : total (publish_exclusive root rel data : M S bool).
Proof. unfold publish_exclusive. solve_total. Qed.
Lemma total_write_atomic root rel data : total (write_file_atomic root rel data : M S unit).
Proof. unfold write_file_atomic. solve_total. Qed.
Lemma total_rename root from to : total (rename root from to : M S unit).
Proof. unfold rename. solve_total. Qed.
Lemma total_remove flag root rel : total (remove_if_exists flag root rel : M S unit).
Proof. unfold remove_if_exists. solve_total. Qed.
End root_total.
#[export] Hint Resolve total_describe total_errno total_fstat total_open total_beneath
  total_open_private total_open_directory total_private_directory total_regular total_private_file
  total_read_if total_read total_sha256_file total_exists total_create_beneath total_staging_name
  total_discard total_create_directory_beneath total_create_directory total_write_staging
  total_publish_exclusive total_write_atomic total_rename total_remove : total.
