(* ===== verification/Store.v ===== *)
(** The content-addressed workload store, from [workload/store.rs], and the
    reading of an image layout from [workload/oci.rs].

    [assemble] normalizes a source into a graph (raw objects, canonical tree,
    launch identity) and publishes it: raw objects under their digests, the
    derived entry through a staging directory, and last the closure record that
    names them.  [load] reads a store back and re-derives everything from the
    verified raw objects.  Both run over [Root.HostFs]. *)

From stdpp Require Import ssreflect.
From Stdlib Require Import Strings.Byte.
From S2P Require Import Prelude Types Std Protocol Tree Spec Profile Oci Effects Root.

Definition CLOSURE_VERSION : Z := 1.
Definition DERIVED_LOCK_VERSION : Z := 1.
Definition CANONICAL_FORMAT_VERSION : Z := 1.
Definition EXTRACTION_POLICY_VERSION : Z := 1.
Definition LAYER_APPLICATION_POLICY_VERSION : Z := 1.
Definition TEMPLATE_FORMAT_VERSION : Z := 1.
Definition MAX_INDEX_BYTES : Z := Z.shiftl 4 20.
Definition MAX_MANIFEST_BYTES : Z := Z.shiftl 1 20.
Definition MAX_CONFIG_BYTES : Z := Z.shiftl 1 20.
Definition MAX_LAYER_BYTES : Z := Z.shiftl 64 20.
Definition MAX_RAW_OBJECTS : Z := 64.

Definition RAW_CLOSURE_PATH : string := "raw/closure.json".

(** ** Records *)

Record Policy := {
  canonical_format : Z;
  extraction : Z;
  layer_application : Z;
  template_format : Z;
}.
#[export] Instance Policy_eq_dec : EqDecision Policy.
Proof. solve_decision. Defined.

Definition Policy_current : Policy := {|
  canonical_format := CANONICAL_FORMAT_VERSION;
  extraction := EXTRACTION_POLICY_VERSION;
  layer_application := LAYER_APPLICATION_POLICY_VERSION;
  template_format := TEMPLATE_FORMAT_VERSION |}.

Record Limits := {
  specification_bytes : Z;
  layout_bytes : Z;
  index_bytes : Z;
  manifest_bytes : Z;
  config_bytes : Z;
  layer_bytes : Z;
  expanded_layer_bytes : Z;
  lim_file_bytes : Z;
  lim_entries : Z;
  lim_layers : Z;
  path_bytes : Z;
  symlink_target_bytes : Z;
  symlink_hops : Z;
  lim_raw_objects : Z;
  view_entries : Z;
  cache_metadata_bytes : Z;
  template_bytes : Z;
  lim_arguments : Z;
  argument_bytes : Z;
  environment_entries : Z;
  environment_entry_bytes : Z;
  environment_bytes : Z;
}.
#[export] Instance Limits_eq_dec : EqDecision Limits.
Proof. solve_decision. Defined.

Definition Limits_current : Limits := {|
  specification_bytes := MAX_SPECIFICATION_BYTES;
  layout_bytes := MAX_LAYOUT_BYTES;
  index_bytes := MAX_INDEX_BYTES;
  manifest_bytes := MAX_MANIFEST_BYTES;
  config_bytes := MAX_CONFIG_BYTES;
  layer_bytes := MAX_LAYER_BYTES;
  expanded_layer_bytes := MAX_EXPANDED_LAYER_BYTES;
  lim_file_bytes := MAX_FILE_BYTES;
  lim_entries := MAX_ENTRIES;
  lim_layers := MAX_LAYERS;
  path_bytes := MAX_PATH_BYTES;
  symlink_target_bytes := MAX_SYMLINK_TARGET_BYTES;
  symlink_hops := Z.of_nat MAX_SYMLINK_HOPS;
  lim_raw_objects := MAX_RAW_OBJECTS;
  view_entries := MAX_VIEW_ENTRIES;
  cache_metadata_bytes := MAX_CACHE_METADATA_BYTES;
  template_bytes := MAX_TEMPLATE_BYTES;
  lim_arguments := MAX_ARGUMENTS;
  argument_bytes := MAX_ARGUMENT_BYTES;
  environment_entries := MAX_ENVIRONMENT_ENTRIES;
  environment_entry_bytes := MAX_ENVIRONMENT_ENTRY_BYTES;
  environment_bytes := MAX_ENVIRONMENT_BYTES |}.

Record ObjectRecord := { role : string; obj_digest : string; obj_bytes : Z }.
#[export] Instance ObjectRecord_eq_dec : EqDecision ObjectRecord.
Proof. solve_decision. Defined.

#[export] Instance LayerEvidence_eq_dec : EqDecision LayerEvidence.
Proof. solve_decision. Defined.

Record Closure := {
  closure_version : Z;
  closure_kind : SourceKind;
  closure_manifest_digest : option string;
  closure_policy : Policy;
  closure_limits : Limits;
  closure_objects : list ObjectRecord;
  closure_layers : list LayerEvidence;
  closure_launch : LaunchIdentity;
  closure_canonical_digest : string;
  closure_tree_sha256 : string;
  closure_template_sha256 : string;
  closure_entries : Z;
  closure_expanded_bytes : Z;
}.
#[export] Instance Closure_eq_dec : EqDecision Closure.
Proof. solve_decision. Defined.

Record DerivedLock := {
  lock_version : Z;
  lock_canonical_digest : string;
  lock_tree_sha256 : string;
  lock_template_sha256 : string;
  lock_closure_sha256 : string;
  lock_raw_closure : string;
}.
#[export] Instance DerivedLock_eq_dec : EqDecision DerivedLock.
Proof. solve_decision. Defined.

Record CanonicalBinarySpec := {
  cbs_version : Z;
  cbs_kind : SourceKind;
  cbs_install_path : string;
  cbs_arguments : list string;
  cbs_environment : list string;
  cbs_working_directory : string;
  cbs_uid : Z;
  cbs_gid : Z;
}.
#[export] Instance CanonicalBinarySpec_eq_dec : EqDecision CanonicalBinarySpec.
Proof. solve_decision. Defined.

Record WorkloadGraph := {
  g_kind : SourceKind;
  g_manifest_digest : option string;
  g_objects : list (string * bytes);
  g_tree : Tree;
  g_launch : LaunchIdentity;
  g_layers : list LayerEvidence;
}.

Record BinaryInput := {
  install_path : string;
  in_arguments : list string;
  in_environment : list string;
  in_working_directory : string;
  in_uid : Z;
  in_gid : Z;
}.

Record AssembledWorkload := {
  as_source_kind : SourceKind;
  as_closure_sha256 : string;
  as_canonical_digest : string;
  as_tree_sha256 : string;
  as_template_sha256 : string;
  as_entries : Z;
  as_expanded_bytes : Z;
  as_raw_objects : Z;
  as_launch : LaunchIdentity;
}.

Record LoadedWorkload := {
  ld_source_kind : SourceKind;
  ld_closure_sha256 : string;
  ld_canonical_digest : string;
  ld_tree : Tree;
  ld_template : bytes;
  ld_launch : LaunchIdentity;
}.

(** ** Roles *)

Definition role_limit (role : string) : option Z :=
  if bool_decide (role = "oci-layout") then Some MAX_LAYOUT_BYTES
  else if bool_decide (role = "index.json") then Some MAX_INDEX_BYTES
  else if bool_decide (role = "manifest") then Some MAX_MANIFEST_BYTES
  else if bool_decide (role = "config") then Some MAX_CONFIG_BYTES
  else if bool_decide (role = "executable") then Some MAX_FILE_BYTES
  else if bool_decide (role = "workload-specification") then Some MAX_SPECIFICATION_BYTES
  else
    match strip_prefix (as_bytes "layer-") (as_bytes role) with
    | Some index =>
        if negb (is_empty index) && forallb is_ascii_digit index then Some MAX_LAYER_BYTES
        else None
    | None => None
    end.

Definition layer_role (position : nat) : string := "layer-" +:+ fmt_dec (Z.of_nat position).

Definition expected_oci_roles (layer_count : nat) : list string :=
  ["config"; "index.json"; "manifest"; "oci-layout"] ++ map layer_role (seq 0 layer_count).

(** [sort_by(|left, right| left.0.cmp(&right.0))], a stable sort. *)
Definition sort_roles (objects : list (string * bytes)) : list (string * bytes) :=
  merge_sort entry_le objects.

Definition oci_roles (objects : OciObjects) : list (string * bytes) :=
  sort_roles ([("oci-layout", objects.(obj_layout)); ("index.json", objects.(obj_index));
               ("manifest", objects.(obj_manifest)); ("config", objects.(obj_config))]
    ++ imap (fun position layer => (layer_role position, layer)) objects.(obj_layers)).

(** The derived [Debug] of an [ErrorKind]. *)
Definition ErrorKind_debug (k : ErrorKind) : string :=
  match k with
  | NotFound => "NotFound" | PermissionDenied => "PermissionDenied"
  | InvalidInput => "InvalidInput" | InvalidData => "InvalidData"
  | UnexpectedEof => "UnexpectedEof" | Interrupted => "Interrupted"
  | WouldBlock => "WouldBlock" | TimedOut => "TimedOut" | WriteZero => "WriteZero"
  | BrokenPipe => "BrokenPipe" | AlreadyExists => "AlreadyExists"
  | Unsupported => "Unsupported" | Other => "Other"
  end.

Definition source_locator_error (field : string) (e : io_error) : io_error :=
  IoError e.(error_kind)
    (field +:+ " is unavailable (" +:+ ErrorKind_debug e.(error_kind) +:+ ")").

Definition canonical_json {T} `{Serde T} (value : T) : result bytes :=
  match to_vec value with
  | inl body => Ok (body ++ [NEWLINE])
  | inr e => Err (invalid ("cannot serialize canonical metadata: " +:+ e))
  end.

(** [serde_json] ignores white space after a value. *)
Class SerdeTrailing (T : Type) `{Serde T} := {
  from_slice_trailing v body : to_vec v = inl body -> from_slice (body ++ [NEWLINE]) = inl v;
}.

(** ** Graphs *)

Section graphs.
Context `{Sha256} `{OciDecoders} `{DebugStr} `{Serde CanonicalBinarySpec}.

(** [std::str::from_utf8] of the installed path. *)
Definition binary_tree_and_launch (executable : bytes) (input : BinaryInput)
    : result (Tree * LaunchIdentity) :=
  if (input.(in_uid) =? 0) || (input.(in_gid) =? 0) then
    Err (invalid "root credentials are not supported")
  else if (input.(in_uid) =? RESERVED_OWNER) || (input.(in_gid) =? RESERVED_OWNER) then
    Err (invalid "the reserved owner identifier is not a launch credential")
  else if negb (bool_decide (input.(install_path) = BINARY_INSTALL_PATH)) then
    Err (invalid ("binary install path must be " +:+ debug_str BINARY_INSTALL_PATH))
  else
    install ← normalize_layer_path (as_bytes input.(install_path));
    if bool_decide (install = ROOT_PATH) then
      Err (invalid "binary install path must name a file")
    else
    installed ← match from_utf8 install with
      | inl s => Ok s
      | inr _ => Err (invalid "binary install path is not UTF-8")
      end;
    let executable_text := "/" +:+ installed in
    arguments ← normalize_arguments input.(in_arguments) "arguments";
    if negb (bool_decide (head arguments = Some executable_text)) then
      Err (invalid "binary argument vector must begin with the installed executable")
    else
    environment ← normalize_environment input.(in_environment);
    let t := insert_default_directory Tree_new ROOT_PATH in
    let t := fold_left insert_default_directory (ancestors install) t in
    let t := Tree_insert t install
               (Entry_file executable 493 input.(in_uid) input.(in_gid) 0) in
    working_directory ← normalize_working_directory (Some input.(in_working_directory)) t;
    _ ← validate_canonical_tree t MAX_VIEW_ENTRIES MAX_EXPANDED_LAYER_BYTES;
    let launch := {| executable := executable_text; arguments := arguments;
                     environment := environment; working_directory := working_directory;
                     uid := input.(in_uid); gid := input.(in_gid) |} in
    _ ← validate_launch_identity launch;
    Ok (t, launch).

(** The graph of an executable that has been read: the rest of [binary_graph].
    The normalized install path is a fixed ASCII text. *)
Definition binary_graph_of (source : BinarySource) (executable : bytes) : result WorkloadGraph :=
  _ ← validate_static_elf executable;
  '(uid, gid) ← normalize_required_user source.(bin_user);
  install ← normalize_layer_path (as_bytes BINARY_INSTALL_PATH);
  let executable_text := "/" +:+ str_of install in
  args ← normalize_arguments source.(bin_arguments) "args";
  env ← normalize_environment source.(bin_environment);
  let input := {| install_path := BINARY_INSTALL_PATH;
                  in_arguments := executable_text :: args;
                  in_environment := env;
                  in_working_directory := source.(bin_working_directory);
                  in_uid := uid; in_gid := gid |} in
  '(t, launch) ← binary_tree_and_launch executable input;
  specification ← canonical_json {|
    cbs_version := WORKLOAD_SPEC_VERSION; cbs_kind := SourceBinary;
    cbs_install_path := input.(install_path); cbs_arguments := launch.(arguments);
    cbs_environment := launch.(environment);
    cbs_working_directory := launch.(working_directory); cbs_uid := uid; cbs_gid := gid |};
  Ok {| g_kind := SourceBinary; g_manifest_digest := None;
        g_objects := sort_roles [("executable", executable);
                                 ("workload-specification", specification)];
        g_tree := t; g_launch := launch; g_layers := [] |}.

Definition oci_graph_of (objects : OciObjects) : result WorkloadGraph :=
  g ← parse_graph objects;
  Ok {| g_kind := SourceOci; g_manifest_digest := Some objects.(obj_manifest_digest);
        g_objects := oci_roles objects; g_tree := g.(graph_tree);
        g_launch := g.(graph_launch); g_layers := g.(graph_layers) |}.

(** The layers of the roles [layer-0 ..], in order. *)
Fixpoint replay_layers (objects : gmap string bytes) (positions : list nat)
    : result (list bytes) :=
  match positions with
  | [] => Ok []
  | position :: positions =>
      layer ← ok_or (objects !! layer_role position)
        (invalid "OCI closure is missing a layer object");
      rest ← replay_layers objects positions;
      Ok (layer :: rest)
  end.

(** [objects[role]] of a role whose presence was checked. *)
Definition object_at (objects : gmap string bytes) (role : string) : bytes :=
  default [] (objects !! role).

Definition replay_graph (closure : Closure) (objects : gmap string bytes) : result WorkloadGraph :=
  match closure.(closure_kind) with
  | SourceBinary =>
      specification ← ok_or (objects !! "workload-specification")
        (invalid "binary closure has no workload-specification object");
      executable ← ok_or (objects !! "executable")
        (invalid "binary closure has no executable object");
      if negb (Nat.eqb (size objects) 2) then
        Err (invalid "binary closure names unexpected objects")
      else
      canonical ← match from_slice specification with
        | inl c => Ok c
        | inr e => Err (json_error "malformed canonical specification" e)
        end;
      if negb (canonical.(cbs_version) =? WORKLOAD_SPEC_VERSION)
         || negb (bool_decide (canonical.(cbs_kind) = SourceBinary)) then
        Err (invalid "canonical specification is not a version-1 binary")
      else
      _ ← validate_static_elf executable;
      '(t, launch) ← binary_tree_and_launch executable
        {| install_path := canonical.(cbs_install_path);
           in_arguments := canonical.(cbs_arguments);
           in_environment := canonical.(cbs_environment);
           in_working_directory := canonical.(cbs_working_directory);
           in_uid := canonical.(cbs_uid); in_gid := canonical.(cbs_gid) |};
      Ok {| g_kind := SourceBinary; g_manifest_digest := None;
            g_objects := sort_roles (btree_iter objects);
            g_tree := t; g_launch := launch; g_layers := [] |}
  | SourceOci =>
      raw_digest ← ok_or closure.(closure_manifest_digest)
        (invalid "OCI closure has no manifest digest");
      hex ← map_err (fun _ => invalid "the OCI closure manifest digest is not a sha256 digest")
        (parse_digest raw_digest);
      let manifest_digest := "sha256:" +:+ hex in
      let layer_count := length closure.(closure_layers) in
      let expected := expected_oci_roles layer_count in
      if negb (Nat.eqb (size objects) (length expected))
         || negb (forallb (fun role => bool_decide (is_Some (objects !! role))) expected) then
        Err (invalid "OCI closure names unexpected objects")
      else
      layers ← replay_layers objects (seq 0 layer_count);
      g ← parse_graph {|
        obj_layout := object_at objects "oci-layout";
        obj_index := object_at objects "index.json";
        obj_manifest := object_at objects "manifest";
        obj_config := object_at objects "config";
        obj_layers := layers; obj_manifest_digest := manifest_digest |};
      Ok {| g_kind := SourceOci; g_manifest_digest := Some manifest_digest;
            g_objects := sort_roles (btree_iter objects);
            g_tree := g.(graph_tree); g_launch := g.(graph_launch);
            g_layers := g.(graph_layers) |}
  end.
End graphs.

(** ** Reading a source *)

Section sources.
Context {S : Type} `{HostFs S} `{Sha256} `{OciDecoders} `{DebugStr} `{Serde CanonicalBinarySpec}.

Definition read_source_file (root : Root) (path : string) (limit : Z) : M S bytes :=
  rethrow (fun e => if bool_decide (e.(error_kind) = NotFound)
                    then invalid ("missing source object " +:+ quoted path) else e)
    (read_file root path limit).

Fixpoint read_layers (root : Root) (position : Z) (layers : list Value) : M S (list bytes) :=
  match layers with
  | [] => mret []
  | value :: layers =>
      descriptor ← lift (parse_descriptor value ("layer " +:+ fmt_dec position));
      path ← lift (blob_path descriptor.(digest));
      data ← read_source_file root path MAX_LAYER_BYTES;
      rest ← read_layers root (position + 1) layers;
      mret (data :: rest)
  end.

Definition read_oci_objects (root : Root) (manifest_digest : string) : M S OciObjects :=
  layout ← read_source_file root "oci-layout" MAX_LAYOUT_BYTES;
  index ← read_source_file root "index.json" MAX_INDEX_BYTES;
  index_value ← lift (parse_json index "index");
  descriptor ← lift (select_manifest_descriptor index_value manifest_digest);
  path ← lift (blob_path descriptor.(digest));
  manifest ← read_source_file root path MAX_MANIFEST_BYTES;
  _ ← lift (verify_descriptor descriptor manifest "manifest");
  manifest_value ← lift (parse_json manifest "manifest");
  manifest_object ← lift (as_object manifest_value "manifest");
  config_value ← lift (ok_or (map_get manifest_object "config")
    (invalid "manifest has no config descriptor"));
  config_descriptor ← lift (parse_descriptor config_value "config");
  path ← lift (blob_path config_descriptor.(digest));
  config ← read_source_file root path MAX_CONFIG_BYTES;
  _ ← lift (verify_descriptor config_descriptor config "config");
  layers_value ← lift (ok_or (map_get manifest_object "layers" ≫= as_array)
    (invalid "manifest has no layer list"));
  _ ← fail_if (MAX_LAYERS <? zlen layers_value)
    (invalid ("manifest has more than " +:+ fmt_dec MAX_LAYERS +:+ " layers"));
  _ ← fail_if (MAX_RAW_OBJECTS <? 4 + zlen layers_value)
    (invalid ("raw closure has more than " +:+ fmt_dec MAX_RAW_OBJECTS +:+ " objects"));
  layers ← read_layers root 0 layers_value;
  mret {| obj_layout := layout; obj_index := index; obj_manifest := manifest;
          obj_config := config; obj_layers := layers; obj_manifest_digest := manifest_digest |}.

Definition binary_graph (root : Root) (source : BinarySource) : M S WorkloadGraph :=
  executable ← rethrow (source_locator_error "the workload executable")
    (read_file root source.(bin_path) MAX_FILE_BYTES);
  lift (binary_graph_of source executable).

Definition oci_graph (root : Root) (source : OciSource) : M S WorkloadGraph :=
  layout ← rethrow (source_locator_error "the workload layout directory")
    (open_directory root source.(oci_layout));
  objects ← read_oci_objects layout source.(oci_manifest_digest);
  lift (oci_graph_of objects).

Definition source_graph (spec : WorkloadSpec) : M S WorkloadGraph :=
  root ← Root_open;
  match spec.(spec_source) with
  | Binary source => binary_graph root source
  | Oci source => oci_graph root source
  end.
End sources.

(** ** The store *)

Section store.
Context {S : Type} `{HostFs S} `{Sha256} `{OciDecoders} `{DebugStr}.
Context `{Serde CanonicalBinarySpec} `{Serde Closure} `{Serde DerivedLock}.

Definition read_required (root : Root) (path : string) (limit : Z) (what : string) : M S bytes :=
  rethrow (fun e => if bool_decide (e.(error_kind) = NotFound)
                    then invalid (what +:+ " is missing") else e)
    (read_file root path limit).

Definition object_path (digest : string) : string := "raw/sha256/" +:+ digest.
Definition derived_base (canonical_digest : string) : string := "derived/" +:+ canonical_digest.

Definition write_object (root : Root) (data : bytes) : M S unit :=
  let digest := sha256_bytes data in
  let path := object_path digest in
  existing ← read_file_if_exists root path (zlen data);
  match existing with
  | Some existing =>
      if negb (bool_decide (existing = data)) then
        throw (invalid ("existing raw object " +:+ digest +:+ " is corrupt"))
      else require_private_file root path
  | None => write_file_atomic root path data
  end.

Fixpoint write_objects (root : Root) (objects : list (string * bytes)) : M S unit :=
  match objects with
  | [] => mret tt
  | (_, data) :: objects => _ ← write_object root data; write_objects root objects
  end.

Definition different_closure : io_error :=
  invalid "store already contains a different raw closure; use a separate store per workload".

Definition publish_closure (root : Root) (data : bytes) : M S unit :=
  published ← publish_exclusive root RAW_CLOSURE_PATH data;
  if published : bool then mret tt
  else
    existing ← read_file root RAW_CLOSURE_PATH MAX_CACHE_METADATA_BYTES;
    if bool_decide (existing = data) then require_private_file root RAW_CLOSURE_PATH
    else throw different_closure.

Definition require_private_derived (root : Root) (canonical_digest : string) : M S unit :=
  let base := derived_base canonical_digest in
  _ ← require_private_directory root base;
  _ ← require_private_file root (base +:+ "/tree.bin");
  _ ← require_private_file root (base +:+ "/template.cpio");
  require_private_file root (base +:+ "/lock.json").

Definition cleanup_staging (root : Root) (staging : string) : M S unit :=
  _ ← catch (remove_file_if_exists root (staging +:+ "/tree.bin"));
  _ ← catch (remove_file_if_exists root (staging +:+ "/template.cpio"));
  _ ← catch (remove_file_if_exists root (staging +:+ "/lock.json"));
  _ ← catch (remove_directory_if_exists root staging);
  mret tt.

Definition derived_lock (canonical_digest closure_sha256 tree_sha256 template_sha256 : string)
    : DerivedLock := {|
  lock_version := DERIVED_LOCK_VERSION;
  lock_canonical_digest := canonical_digest;
  lock_tree_sha256 := tree_sha256;
  lock_template_sha256 := template_sha256;
  lock_closure_sha256 := closure_sha256;
  lock_raw_closure := RAW_CLOSURE_PATH |}.

Definition write_derived (root : Root) (staging : string) (tree_bytes template lock_bytes : bytes)
    : M S unit :=
  _ ← write_file_atomic root (staging +:+ "/tree.bin") tree_bytes;
  _ ← write_file_atomic root (staging +:+ "/template.cpio") template;
  write_file_atomic root (staging +:+ "/lock.json") lock_bytes.

Definition publish_derived (root : Root) (canonical_digest : string) (tree_bytes template : bytes)
    (closure_sha256 tree_sha256 template_sha256 : string) : M S unit :=
  lock_bytes ← lift (canonical_json
    (derived_lock canonical_digest closure_sha256 tree_sha256 template_sha256));
  _ ← fail_if (MAX_CACHE_METADATA_BYTES <? zlen lock_bytes)
    (invalid ("derived lock exceeds " +:+ fmt_dec MAX_CACHE_METADATA_BYTES +:+ " bytes"));
  _ ← open_or_create_directory root "derived";
  name ← staging_name canonical_digest;
  let staging := "derived/" +:+ name in
  _ ← create_directory root staging;
  written ← catch (write_derived root staging tree_bytes template lock_bytes);
  match written with
  | Err e => _ ← cleanup_staging root staging; throw e
  | Ok _ =>
      let destination := derived_base canonical_digest in
      renamed ← catch (rename root staging destination);
      match renamed with
      | Ok _ => mret tt
      | Err e =>
          _ ← cleanup_staging root staging;
          present ← exists_beneath root destination;
          if present : bool then mret tt else throw e
      end
  end.

Definition verify_derived (root : Root) (canonical_digest : string) (tree_bytes : bytes)
    (template_sha256 closure_sha256 tree_sha256 : string) : M S unit :=
  let base := derived_base canonical_digest in
  stored_tree ← read_required root (base +:+ "/tree.bin") MAX_CACHE_METADATA_BYTES
    "derived tree manifest";
  _ ← fail_if (negb (bool_decide (stored_tree = tree_bytes)))
    (invalid "derived cache entry does not match the raw closure");
  stored_template ← rethrow
    (fun e => if bool_decide (e.(error_kind) = NotFound)
              then invalid "derived guest template is missing" else e)
    (sha256_file root (base +:+ "/template.cpio") MAX_TEMPLATE_BYTES);
  _ ← fail_if (negb (bool_decide (stored_template = template_sha256)))
    (invalid "derived guest template does not match the raw closure");
  lock_bytes ← read_required root (base +:+ "/lock.json") MAX_CACHE_METADATA_BYTES "derived lock";
  lock ← lift (match from_slice lock_bytes with
    | inl lock => Ok lock
    | inr e => Err (json_error "malformed derived lock" e)
    end);
  fail_if (negb (bool_decide
      (lock = derived_lock canonical_digest closure_sha256 tree_sha256 template_sha256)))
    (invalid "derived cache entry does not name this raw closure").

(** The records of a graph's objects, checked against the policy limits. *)
Fixpoint object_records (index : Z) (objects : list (string * bytes)) : result (list ObjectRecord) :=
  match objects with
  | [] => Ok []
  | (role, data) :: objects =>
      limit ← ok_or (role_limit role) (invalid ("assembled raw closure object "
        +:+ fmt_dec index +:+ " names an unknown role"));
      if limit <? zlen data then
        Err (invalid ("raw object " +:+ fmt_dec index +:+ " exceeds its "
          +:+ fmt_dec limit +:+ "-byte policy limit"))
      else
        rest ← object_records (index + 1) objects;
        Ok ({| role := role; obj_digest := "sha256:" +:+ sha256_bytes data;
               obj_bytes := zlen data |} :: rest)
  end.

(** What [publish] computes before it touches the store. *)
Record Publication := {
  pub_closure : Closure;
  pub_closure_bytes : bytes;
  pub_tree_bytes : bytes;
  pub_template : bytes;
}.

Definition prepare (graph : WorkloadGraph) : result Publication :=
  let t := graph.(g_tree) in
  _ ← validate_canonical_tree t MAX_VIEW_ENTRIES MAX_EXPANDED_LAYER_BYTES;
  _ ← validate_overlay_compatibility t graph.(g_launch);
  let expanded := expanded_bytes t in
  let digest := canonical_digest t in
  let tree_bytes := encode t in
  if MAX_CACHE_METADATA_BYTES <? zlen tree_bytes then
    Err (invalid ("canonical tree manifest exceeds " +:+ fmt_dec MAX_CACHE_METADATA_BYTES
      +:+ " bytes"))
  else
  template ← template t GUEST_TEMPLATE_ROOT;
  if MAX_TEMPLATE_BYTES <? zlen template then
    Err (invalid ("guest template exceeds " +:+ fmt_dec MAX_TEMPLATE_BYTES +:+ " bytes"))
  else if MAX_RAW_OBJECTS <? zlen graph.(g_objects) then
    Err (invalid ("raw closure has more than " +:+ fmt_dec MAX_RAW_OBJECTS +:+ " objects"))
  else
  records ← object_records 0 graph.(g_objects);
  let closure := {|
    closure_version := CLOSURE_VERSION;
    closure_kind := graph.(g_kind);
    closure_manifest_digest := graph.(g_manifest_digest);
    closure_policy := Policy_current;
    closure_limits := Limits_current;
    closure_objects := records;
    closure_layers := graph.(g_layers);
    closure_launch := graph.(g_launch);
    closure_canonical_digest := digest;
    closure_tree_sha256 := sha256_bytes tree_bytes;
    closure_template_sha256 := sha256_bytes template;
    closure_entries := Tree_len t;
    closure_expanded_bytes := expanded |} in
  closure_bytes ← canonical_json closure;
  if MAX_CACHE_METADATA_BYTES <? zlen closure_bytes then
    Err (invalid ("raw closure record exceeds " +:+ fmt_dec MAX_CACHE_METADATA_BYTES
      +:+ " bytes"))
  else
  Ok {| pub_closure := closure; pub_closure_bytes := closure_bytes;
        pub_tree_bytes := tree_bytes; pub_template := template |}.

(** The part of [publish] on the store up to the closure: everything the closure
    will name is written and verified. *)
Definition stage_at (root : Root) (graph : WorkloadGraph) (p : Publication) : M S unit :=
  let c := p.(pub_closure) in
  let closure_sha256 := sha256_bytes p.(pub_closure_bytes) in
  existing ← read_file_if_exists root RAW_CLOSURE_PATH MAX_CACHE_METADATA_BYTES;
  _ ← fail_if (match existing with
               | Some existing => negb (bool_decide (existing = p.(pub_closure_bytes)))
               | None => false
               end) different_closure;
  _ ← open_or_create_directory root "raw/sha256";
  _ ← write_objects root graph.(g_objects);
  _ ← publish_derived root c.(closure_canonical_digest) p.(pub_tree_bytes) p.(pub_template)
        closure_sha256 c.(closure_tree_sha256) c.(closure_template_sha256);
  _ ← require_private_derived root c.(closure_canonical_digest);
  verify_derived root c.(closure_canonical_digest) p.(pub_tree_bytes)
    c.(closure_template_sha256) closure_sha256 c.(closure_tree_sha256).

Definition commit (graph : WorkloadGraph) (p : Publication) : M S AssembledWorkload :=
  let c := p.(pub_closure) in
  made ← call (fs_create_root 448);
  _ ← or_io made;
  root ← open_private;
  _ ← stage_at root graph p;
  _ ← publish_closure root p.(pub_closure_bytes);
  mret {|
    as_source_kind := graph.(g_kind);
    as_closure_sha256 := sha256_bytes p.(pub_closure_bytes);
    as_canonical_digest := c.(closure_canonical_digest);
    as_tree_sha256 := c.(closure_tree_sha256);
    as_template_sha256 := c.(closure_template_sha256);
    as_entries := Tree_len graph.(g_tree);
    as_expanded_bytes := c.(closure_expanded_bytes);
    as_raw_objects := zlen graph.(g_objects);
    as_launch := graph.(g_launch) |}.

Definition publish (graph : WorkloadGraph) : M S AssembledWorkload :=
  p ← lift (prepare graph); commit graph p.

Definition assemble {T} `{HostFs T} (spec : result WorkloadSpec) : M (T * S) AssembledWorkload :=
  spec ← lift spec;
  graph ← zoom fst (fun t st => (t, st.2)) (source_graph spec);
  zoom snd (fun s st => (st.1, s)) (publish graph).

Fixpoint read_objects_loop (root : Root) (index : Z) (records : list ObjectRecord)
    (objects : gmap string bytes) : M S (gmap string bytes) :=
  match records with
  | [] => mret objects
  | record :: records =>
      limit ← lift (ok_or (role_limit record.(role))
        (invalid ("raw closure object " +:+ fmt_dec index +:+ " names an unknown role")));
      _ ← fail_if (limit <? record.(obj_bytes))
        (invalid ("raw object " +:+ fmt_dec index +:+ " exceeds the " +:+ fmt_dec limit
          +:+ "-byte policy limit"));
      hex ← lift (parse_digest record.(obj_digest));
      _ ← fail_if (bool_decide (is_Some (objects !! record.(role))))
        (invalid ("raw closure object " +:+ fmt_dec index
          +:+ " repeats the role of an earlier object"));
      data ← read_required root (object_path hex) record.(obj_bytes)
        ("raw object " +:+ record.(obj_digest));
      _ ← fail_if (negb (zlen data =? record.(obj_bytes))
                   || negb (bool_decide (sha256_bytes data = hex)))
        (invalid ("raw object " +:+ record.(obj_digest)
          +:+ " does not match its recorded identity"));
      read_objects_loop root (index + 1) records (<[record.(role) := data]> objects)
  end.

Definition read_objects (root : Root) (closure : Closure) : M S (gmap string bytes) :=
  _ ← fail_if (MAX_RAW_OBJECTS <? zlen closure.(closure_objects))
    (invalid ("raw closure has more than " +:+ fmt_dec MAX_RAW_OBJECTS +:+ " objects"));
  read_objects_loop root 0 closure.(closure_objects) ∅.

(** The comparisons of [load] between the re-derived graph and the closure; the
    template is what they check. *)
Definition check_rederived (closure : Closure) (graph : WorkloadGraph) : result bytes :=
  _ ← validate_overlay_compatibility graph.(g_tree) graph.(g_launch);
  if negb (bool_decide (graph.(g_launch) = closure.(closure_launch))) then
    Err (invalid "re-derived launch identity does not match the raw closure")
  else if negb (bool_decide (graph.(g_layers) = closure.(closure_layers))) then
    Err (invalid "re-derived layer evidence does not match the raw closure")
  else if negb (bool_decide (canonical_digest graph.(g_tree)
                             = closure.(closure_canonical_digest))) then
    Err (invalid "re-derived canonical digest does not match the raw closure")
  else if negb (bool_decide (sha256_bytes (encode graph.(g_tree))
                             = closure.(closure_tree_sha256))) then
    Err (invalid "re-derived tree manifest does not match the raw closure")
  else
  template ← template graph.(g_tree) GUEST_TEMPLATE_ROOT;
  if negb (bool_decide (sha256_bytes template = closure.(closure_template_sha256))) then
    Err (invalid "re-derived guest template does not match the raw closure")
  else if negb (Tree_len graph.(g_tree) =? closure.(closure_entries))
          || negb (expanded_bytes graph.(g_tree) =? closure.(closure_expanded_bytes)) then
    Err (invalid "re-derived canonical tree does not match the raw closure")
  else Ok template.

Definition decode_closure (data : bytes) : result Closure :=
  match from_slice data with
  | inr e => Err (json_error "malformed raw closure" e)
  | inl closure =>
      if negb (closure.(closure_version) =? CLOSURE_VERSION) then
        Err (invalid ("unsupported raw closure version " +:+ fmt_dec closure.(closure_version)))
      else if negb (bool_decide (closure.(closure_policy) = Policy_current)) then
        Err (invalid "raw closure was recorded under a different policy version")
      else if negb (bool_decide (closure.(closure_limits) = Limits_current)) then
        Err (invalid "raw closure was recorded under different limits")
      else Ok closure
  end.

Definition load : M S LoadedWorkload :=
  root ← Root_open;
  closure_bytes ← read_required root RAW_CLOSURE_PATH MAX_CACHE_METADATA_BYTES
    ("raw closure " +:+ RAW_CLOSURE_PATH);
  let closure_sha256 := sha256_bytes closure_bytes in
  closure ← lift (decode_closure closure_bytes);
  objects ← read_objects root closure;
  graph ← lift (replay_graph closure objects);
  template ← lift (check_rederived closure graph);
  _ ← verify_derived root (canonical_digest graph.(g_tree)) (encode graph.(g_tree))
        closure.(closure_template_sha256) closure_sha256 closure.(closure_tree_sha256);
  mret {| ld_source_kind := closure.(closure_kind);
          ld_closure_sha256 := closure_sha256;
          ld_canonical_digest := canonical_digest graph.(g_tree);
          ld_tree := graph.(g_tree);
          ld_template := template;
          ld_launch := closure.(closure_launch) |}.
End store.
