(* ===== verification/MemFs.v ===== *)
(** A filesystem in memory that stops after a number of calls: an implementation
    of [Root.HostFs] that satisfies [Root.FsLaws], on which the store's theorems
    are evaluated. *)

From stdpp Require Import ssreflect.
From Stdlib Require Import Strings.Byte.
From S2P Require Import Prelude Types Std Tree Effects Root.

(** The tree, the process's counter, and how many calls still work: all of them
    when there is no limit. *)
Record Mem := { mem_tree : Node; mem_count : Z; mem_budget : option nat }.

Definition EIO : Errno := EOTHER 5.
Definition io_failure : io_error := IoError Other "Input/output error".

(** One call: its effect, or a failure once the budget is spent. *)
Definition spend (s : Mem) : option Mem :=
  match s.(mem_budget) with
  | None => Some s
  | Some (S k) => Some {| mem_tree := s.(mem_tree); mem_count := s.(mem_count); mem_budget := Some k |}
  | Some O => None
  end.
Definition with_tree (s : Mem) (n : Node) : Mem :=
  {| mem_tree := n; mem_count := s.(mem_count); mem_budget := s.(mem_budget) |}.

Definition mem_call {A} (f : Node -> (A + Errno) * Node) (s : Mem) : (A + Errno) * Mem :=
  match spend s with
  | Some s => let '(r, n) := f s.(mem_tree) in (r, with_tree s n)
  | None => (inr EIO, s)
  end.

Definition mem_create {A} (h : Handle) (c : string) (child : Node) (a : A) (n : Node)
    : (A + Errno) * Node :=
  match node_at n (h ++ [c]) with
  | Some _ => (inr EEXIST, n)
  | None => if is_dir (node_at n h) then (inl a, add_entry n h c child) else (inr ENOENT, n)
  end.

Definition mem_rename (h : Handle) (c : string) (k : Handle) (d : string) (noreplace : bool) (n : Node)
    : (unit + Errno) * Node :=
  match node_at n (h ++ [c]) with
  | None => (inr ENOENT, n)
  | Some source =>
      let target := node_at n (k ++ [d]) in
      if bool_decide ((h ++ [c]) `prefix_of` k) then (inr EINVAL, n)
      else if noreplace && bool_decide (is_Some target) then (inr EEXIST, n)
      else if replaces source target && is_dir (node_at n k) then
        (inl tt, add_entry (remove_entry n h c) k d source)
      else (inr (EOTHER 39), n)
  end.

Definition mem_unlink (h : Handle) (c : string) (dir : bool) (n : Node) : (unit + Errno) * Node :=
  match node_at n (h ++ [c]) with
  | None => (inr ENOENT, n)
  | Some m =>
      if (if dir then match m with NDir _ _ entries => bool_decide (entries = ∅) | _ => false end
          else negb (is_dir (Some m)))
      then (inl tt, remove_entry n h c)
      else (inr (EOTHER 39), n)
  end.

(** A file is read in pieces of at most [size] bytes. *)
Definition mem_pieces (data : bytes) : list (bytes + io_error) :=
  match data with [] => [] | b :: rest => [inl [b]; inl rest] end.

Definition mem_read (h : Handle) (s : Mem) : list (bytes + io_error) * Mem :=
  match spend s with
  | Some s =>
      (match node_at s.(mem_tree) h with Some (NFile _ _ data) => mem_pieces data | _ => [] end, s)
  | None => ([inr io_failure], s)
  end.

(** A write that stops leaves one byte. *)
Definition mem_write (h : Handle) (data : bytes) (s : Mem) : option io_error * Mem :=
  let put s written :=
    match node_at s.(mem_tree) h, rev h with
    | Some (NFile owner mode _), c :: dir =>
        with_tree s (add_entry s.(mem_tree) (rev dir) c (NFile owner mode written))
    | _, _ => s
    end in
  match spend s with
  | Some s => (None, put s data)
  | None => (Some io_failure, put s (take 1 data))
  end.

Section fs.
Context (pid : Z) (name : string).

#[local] Instance mem_fs : HostFs Mem := {|
  errno_text _ := "error"; errno_error _ := io_failure;
  fs_pid := pid; fs_euid := 1000; fs_umask := 18;
  fs_counter s := (s.(mem_count), {| mem_tree := s.(mem_tree); mem_count := s.(mem_count) + 1;
                                     mem_budget := s.(mem_budget) |});
  fs_clone s := match spend s with Some s => (None, s) | None => (Some io_failure, s) end;
  fs_root := [name];
  fs_create_root mode s :=
    match spend s with
    | Some s =>
        match mem_create [] name (NDir 1000 mode ∅) tt s.(mem_tree) with
        | (_, n) => (if is_dir (node_at n [name]) then None else Some io_failure, with_tree s n)
        end
    | None => (Some io_failure, s)
    end;
  fs_open_root := mem_call (fun n => (if is_dir (node_at n [name]) then inl [name] else inr ENOENT, n));
  fs_open_dir h c := mem_call (fun n =>
    (match node_at n (h ++ [c]) with
     | None => inr ENOENT | Some (NDir _ _ _) => inl (h ++ [c]) | Some _ => inr ENOTDIR end, n));
  fs_open_file h c := mem_call (fun n =>
    (match node_at n (h ++ [c]) with
     | None => inr ENOENT | Some NLink => inr ELOOP | Some _ => inl (h ++ [c]) end, n));
  fs_fstat h := mem_call (fun n =>
    (match node_at n h with Some m => inl (stat_of m) | None => inr ENOENT end, n));
  fs_statat h c := mem_call (fun n =>
    (match node_at n (h ++ [c]) with Some _ => inl tt | None => inr ENOENT end, n));
  fs_read := mem_read;
  fs_mkdirat h c mode := mem_call (mem_create h c (NDir 1000 (Z.land mode (Z.lnot 18)) ∅) tt);
  fs_create_excl h c mode := mem_call (mem_create h c (NFile 1000 (Z.land mode (Z.lnot 18)) []) (h ++ [c]));
  fs_write_sync := mem_write;
  fs_renameat h c k d noreplace := mem_call (mem_rename h c k d noreplace);
  fs_unlinkat h c dir := mem_call (mem_unlink h c dir);
|}.

#[local] Instance mem_view : FsView Mem := {|
  view := mem_tree; reliable s := s.(mem_budget) = None |}.

Lemma spend_Some s s' : spend s = Some s' -> s'.(mem_tree) = s.(mem_tree) /\ (reliable s -> reliable s').
Proof.
  unfold spend, reliable. cbn. destruct (mem_budget s) as [[|k]|] eqn:E; intros [= <-]; cbn; [|done].
  by split.
Qed.
Lemma spend_None s : spend s = None -> ~ reliable s.
Proof. unfold spend, reliable. cbn. by destruct (mem_budget s) as [[|k]|]. Qed.

(** A call whose effect is the one the law names. *)
Lemma mem_call_does {A} (f : Node -> (A + Errno) * Node) ok s r s' :
  (forall n, ok n (fst (f n)) (snd (f n))) -> mem_call f s = (r, s') ->
  does s s' r (ok (view s)).
Proof.
  intros Hok. unfold mem_call. destruct (spend s) as [s1|] eqn:E.
  - destruct (spend_Some _ _ E) as [Hn Hr]. rewrite Hn. specialize (Hok s.(mem_tree)).
    destruct (f (mem_tree s)) as [r1 n1]. intros [= <- <-]. split.
    + intros Hrel. split; [by apply Hr|done].
    + by left.
  - intros [= <- <-]. split; [by intros ?%(spend_None _ E)|]. right. split; [|done].
    exists EIO. split; [done|]. by exists 5.
Qed.

Lemma mem_create_does {A} h c child (a : A) n :
  creates n h c child a (fst (mem_create h c child a n)) (snd (mem_create h c child a n)).
Proof.
  unfold creates, mem_create. destruct (node_at n (h ++ [c])); [done|]. by destruct (is_dir _).
Qed.

Lemma mem_rename_does h c k d noreplace n :
  rename_does n h c k d noreplace (fst (mem_rename h c k d noreplace n))
    (snd (mem_rename h c k d noreplace n)).
Proof.
  unfold rename_does, mem_rename. destruct (node_at n (h ++ [c])); [|done]. cbv zeta.
  destruct (bool_decide _); [done|]. destruct (_ && _); [done|]. destruct (_ && _); [done|].
  split; [by eexists|done].
Qed.

Lemma mem_unlink_does h c dir n :
  unlink_does n h c dir (fst (mem_unlink h c dir n)) (snd (mem_unlink h c dir n)).
Proof.
  unfold unlink_does, mem_unlink. destruct (node_at n (h ++ [c])); [|done].
  destruct (if dir then _ else _); [done|]. split; [by eexists|done].
Qed.

Lemma mem_pieces_all data : pieces_of (mem_pieces data) = data.
Proof. destruct data; [done|]. cbn. by rewrite app_nil_r. Qed.
Lemma mem_pieces_ok data e : inr e ∉ mem_pieces data.
Proof. destruct data; set_solver. Qed.

Lemma mem_create_root_labels child n q :
  label child = NDir 0 0 ∅ -> (forall r, r <> [] -> label_at child r = None) ->
  let n' := snd (mem_create [] name child tt n) in
  label_at n' q = label_at n q \/ (label_at n q = None /\ q `prefix_of` [name]).
Proof.
  intros _ Hempty. unfold mem_create. cbn [app].
  destruct (node_at n [name]) eqn:Hn; [by left|]. destruct (is_dir (node_at n [])) eqn:Hd; [|by left].
  cbn. rewrite (label_add n [] name child q Hd). cbn [app].
  destruct (below [name] q) as [rest|] eqn:Hb; [|by left].
  apply below_Some in Hb as ->. apply node_at_label_None in Hn.
  rewrite (label_below_None n [name] rest Hn). destruct rest as [|x rest].
  - right. split; [done|]. by rewrite app_nil_r.
  - left. by apply Hempty.
Qed.

Lemma mem_write_law h c data s o s' :
  mem_write (h ++ [c]) data s = (o, s') ->
  forall owner mode, node_at (view s) (h ++ [c]) = Some (NFile owner mode []) ->
  exists written, view s' = add_entry (view s) h c (NFile owner mode written) /\
    (o = None -> written = data) /\ (reliable s -> reliable s' /\ o = None).
Proof.
  unfold mem_write. intros E owner mode Hf. destruct (spend s) as [s1|] eqn:Es.
  - destruct (spend_Some _ _ Es) as [Hn Hr]. change (view s) with s.(mem_tree) in *.
    rewrite Hn Hf rev_app_distr in E. cbn in E.
    rewrite rev_involutive in E. injection E as <- <-. exists data. split_and!; [done..|].
    intros Hrel. split; [by apply Hr|done].
  - change (view s) with s.(mem_tree) in *. rewrite Hf rev_app_distr in E. cbn in E. rewrite rev_involutive in E. injection E as <- <-.
    exists (take 1 data). split_and!; [done..|]. by intros ?%(spend_None _ Es).
Qed.

#[local] Instance mem_laws : FsLaws Mem.
Proof.
  split.
  - by intros s a s' [= <- <-].
  - intros s o s'. cbn. destruct (spend s) as [s1|] eqn:E.
    + intros [= <- <-]. destruct (spend_Some _ _ E) as [Hn Hr]. split_and!; [done| |done].
      intros Hrel. split; [by apply Hr|done].
    + intros [= <- <-]. split_and!; [done| |by intros e [= <-]]. by intros ?%(spend_None _ E).
  - intros mode s o s'. cbn. destruct (spend s) as [s1|] eqn:E.
    + destruct (spend_Some _ _ E) as [Hn Hr].
      destruct (mem_create _ _ _ _ _) as [r n'] eqn:Ec. intros [= <- <-]. split; [|done].
      intros q. rewrite -Hn.
      pose proof (mem_create_root_labels (NDir 1000 mode ∅) s1.(mem_tree) q eq_refl) as Hl.
      rewrite Ec in Hl. apply Hl. intros [|x p] Hp; [done|]. unfold label_at. cbn.
      by rewrite lookup_empty.
    + intros [= <- <-]. split; [by left|]. by intros ?%(spend_None _ E).
  - intros s r s'. apply (mem_call_does _ (fun n r n' => n' = n /\ (is_dir (node_at n' [name]) = true -> r = inl [name]) /\
      (forall h, r = inl h -> h = [name]))). intros n. cbn -[is_dir node_at]. split_and!; [done| |].
    + by intros ->.
    + intros h. by destruct (is_dir _); [intros [= <-]|].
  - intros h c s r s'. apply (mem_call_does _ (fun n => open_dir_does n h c)). intros n. split; [done|]. cbn -[node_at].
    destruct (node_at n (h ++ [c])) as [[]|]; cbn; auto.
  - intros h c s r s'. apply (mem_call_does _ (fun n => open_file_does n h c)). intros n. split; [done|]. cbn -[node_at].
    by destruct (node_at n (h ++ [c])) as [[]|].
  - intros h s r s'. apply (mem_call_does _ (fun n => fstat_does n h)). intros n. split; [done|]. cbn -[node_at]. by intros m ->.
  - intros h c s r s'. apply (mem_call_does _ (fun n => statat_does n h c)). intros n. split; [done|]. cbn -[node_at].
    by destruct (node_at n (h ++ [c])).
  - intros h s r s'. cbn. unfold mem_read. destruct (spend s) as [s1|] eqn:E; intros [= <- <-].
    + destruct (spend_Some _ _ E) as [Hn Hr]. rewrite -Hn. split.
      * split; [done|]. intros owner mode data ->. by rewrite mem_pieces_all.
      * intros Hrel. split; [by apply Hr|]. intros e.
        destruct (node_at _ h) as [[]|]; try set_solver. apply mem_pieces_ok.
    + split; [|by intros ?%(spend_None _ E)]. split; [done|]. intros owner mode data _.
      split; [apply prefix_nil|]. intros Hint. specialize (Hint io_failure ltac:(left)). done.
  - intros h c mode s r s'. apply (mem_call_does _ (fun n => creates n h c (NDir 1000 (Z.land mode (Z.lnot 18)) ∅) tt)).
    intros n. apply mem_create_does.
  - intros h c mode s r s'. apply (mem_call_does _ (fun n => creates n h c (NFile 1000 (Z.land mode (Z.lnot 18)) []) (h ++ [c]))).
    intros n. apply mem_create_does.
  - intros h c data s o s'. apply mem_write_law.
  - intros h c k d noreplace s r s'. apply (mem_call_does _ (fun n => rename_does n h c k d noreplace)).
    intros n. apply mem_rename_does.
  - intros h c dir s r s'. apply (mem_call_does _ (fun n => unlink_does n h c dir)).
    intros n. apply mem_unlink_does.
Qed.
End fs.
