(* ===== verification/StoreSample.v ===== *)
(** A store in memory and a workload to assemble into it: the inputs on which
    the store's theorems are evaluated. *)

From stdpp Require Import ssreflect countable.
From Stdlib Require Import Strings.Byte.
From S2P Require Import Prelude Types Std Protocol Tree Spec Profile Oci Effects Root Store MemFs.

(** A serializer for any countable type: a value's number, one bit per byte. *)
Fixpoint bits (p : positive) : bytes :=
  match p with xH => [] | xO p => "0"%byte :: bits p | xI p => "1"%byte :: bits p end.
Fixpoint unbits (l : bytes) : option positive :=
  match l with
  | [] => Some xH
  | b :: l =>
      if bool_decide (b = "0"%byte) then xO <$> unbits l
      else if bool_decide (b = "1"%byte) then xI <$> unbits l
      else if bool_decide (b = NEWLINE) then Some xH
      else None
  end.

Lemma unbits_bits p rest : rest = [] \/ rest = [NEWLINE] -> unbits (bits p ++ rest) = Some p.
Proof. intros Hr. induction p as [p IH|p IH|]; cbn; [by rewrite IH..|]. by destruct Hr as [->| ->]. Qed.

Definition countable_serde (T : Type) `{Countable T} : Serde T := {|
  to_vec v := inl (bits (countable.encode v));
  from_slice data :=
    match unbits data ≫= countable.decode with
    | Some v => inl v
    | None => inr {| classify := CatSyntax; line := 1; column := 0 |}
    end |}.

Lemma countable_trailing (T : Type) `{Countable T} : @SerdeTrailing T (countable_serde T).
Proof. split. intros v body [= <-]. cbn. rewrite unbits_bits; [|by right]. cbn. by rewrite
  countable.decode_encode. Qed.

(** Records as the list of their fields. *)
#[local] Instance SourceKind_countable : Countable SourceKind.
Proof.
  apply (inj_countable' (fun k => bool_decide (k = SourceBinary))
    (fun b : bool => if b then SourceBinary else SourceOci)). by intros [].
Defined.
#[local] Instance Policy_countable : Countable Policy.
Proof.
  apply (inj_countable
    (fun r => [countable.encode r.(canonical_format); countable.encode r.(extraction);
      countable.encode r.(layer_application); countable.encode
        r.(template_format)])
    (fun l => match l with
      | [p0; p1; p2; p3] =>
        v0 ← countable.decode p0; v1 ← countable.decode p1; v2 ← countable.decode p2; v3 ←
          countable.decode p3;
        Some {| canonical_format := v0; extraction := v1; layer_application := v2;
          template_format := v3 |}
      | _ => None
      end)).
  intros []. cbn -[countable.encode countable.decode]. by rewrite !countable.decode_encode.
Defined.
#[local] Instance Limits_countable : Countable Limits.
Proof.
  apply (inj_countable
    (fun r => [countable.encode r.(specification_bytes); countable.encode r.(layout_bytes);
      countable.encode r.(index_bytes); countable.encode
        r.(manifest_bytes); countable.encode r.(config_bytes); countable.encode r.(layer_bytes);
          countable.encode
        r.(expanded_layer_bytes); countable.encode r.(lim_file_bytes); countable.encode
          r.(lim_entries); countable.encode
        r.(lim_layers); countable.encode r.(path_bytes); countable.encode
          r.(symlink_target_bytes); countable.encode
        r.(symlink_hops); countable.encode r.(lim_raw_objects); countable.encode
          r.(view_entries); countable.encode
        r.(cache_metadata_bytes); countable.encode r.(template_bytes); countable.encode
          r.(lim_arguments); countable.encode
        r.(argument_bytes); countable.encode r.(environment_entries); countable.encode
          r.(environment_entry_bytes);
        countable.encode r.(environment_bytes)])
    (fun l => match l with
      | [p0; p1; p2; p3; p4; p5; p6; p7; p8; p9; p10; p11; p12; p13; p14; p15; p16; p17; p18;
           p19; p20; p21] =>
        v0 ← countable.decode p0; v1 ← countable.decode p1; v2 ← countable.decode p2; v3 ←
          countable.decode p3; v4 ← countable.decode p4; v5 ←
          countable.decode p5; v6 ← countable.decode p6; v7 ← countable.decode p7; v8 ←
            countable.decode p8; v9 ← countable.decode p9; v10 ←
          countable.decode p10; v11 ← countable.decode p11; v12 ← countable.decode p12; v13 ←
            countable.decode p13; v14 ← countable.decode p14;
          v15 ← countable.decode p15; v16 ← countable.decode p16; v17 ← countable.decode p17;
            v18 ← countable.decode p18; v19 ← decode
          p19; v20 ← countable.decode p20; v21 ← countable.decode p21;
        Some {| specification_bytes := v0; layout_bytes := v1; index_bytes := v2; manifest_bytes
          := v3; config_bytes := v4; layer_bytes := v5; expanded_layer_bytes := v6;
          lim_file_bytes := v7; lim_entries := v8; lim_layers := v9; path_bytes := v10;
          symlink_target_bytes := v11; symlink_hops := v12; lim_raw_objects := v13; view_entries
          := v14; cache_metadata_bytes := v15; template_bytes := v16; lim_arguments := v17;
          argument_bytes := v18; environment_entries := v19; environment_entry_bytes := v20;
          environment_bytes := v21 |}
      | _ => None
      end)).
  intros []. cbn -[countable.encode countable.decode]. by rewrite !countable.decode_encode.
Defined.
#[local] Instance ObjectRecord_countable : Countable ObjectRecord.
Proof.
  apply (inj_countable
    (fun r => [countable.encode r.(role); countable.encode r.(obj_digest); countable.encode r.(obj_bytes)])
    (fun l => match l with
      | [p0; p1; p2] =>
        v0 ← countable.decode p0; v1 ← countable.decode p1; v2 ← countable.decode p2;
        Some {| role := v0; obj_digest := v1; obj_bytes := v2 |}
      | _ => None
      end)).
  intros []. cbn -[countable.encode countable.decode]. by rewrite !countable.decode_encode.
Defined.
#[local] Instance LayerEvidence_countable : Countable LayerEvidence.
Proof.
  apply (inj_countable
    (fun r => [countable.encode r.(evidence_media_type); countable.encode r.(evidence_digest);
      countable.encode r.(evidence_diff_id);
        countable.encode r.(evidence_bytes); countable.encode r.(evidence_expanded_bytes)])
    (fun l => match l with
      | [p0; p1; p2; p3; p4] =>
        v0 ← countable.decode p0; v1 ← countable.decode p1; v2 ← countable.decode p2; v3 ←
          countable.decode p3; v4 ← countable.decode p4;
        Some {| evidence_media_type := v0; evidence_digest := v1; evidence_diff_id := v2;
          evidence_bytes := v3; evidence_expanded_bytes := v4 |}
      | _ => None
      end)).
  intros []. cbn -[countable.encode countable.decode]. by rewrite !countable.decode_encode.
Defined.
#[local] Instance LaunchIdentity_countable : Countable LaunchIdentity.
Proof.
  apply (inj_countable
    (fun r => [countable.encode r.(executable); countable.encode r.(arguments); countable.encode
      r.(environment); countable.encode
        r.(working_directory); countable.encode r.(uid); countable.encode r.(gid)])
    (fun l => match l with
      | [p0; p1; p2; p3; p4; p5] =>
        v0 ← countable.decode p0; v1 ← countable.decode p1; v2 ← countable.decode p2; v3 ←
          countable.decode p3; v4 ← countable.decode p4; v5 ←
          countable.decode p5;
        Some {| executable := v0; arguments := v1; environment := v2; working_directory := v3;
          uid := v4; gid := v5 |}
      | _ => None
      end)).
  intros []. cbn -[countable.encode countable.decode]. by rewrite !countable.decode_encode.
Defined.
#[local] Instance Closure_countable : Countable Closure.
Proof.
  apply (inj_countable
    (fun r => [countable.encode r.(closure_version); countable.encode r.(closure_kind);
      countable.encode r.(closure_manifest_digest);
        countable.encode r.(closure_policy); countable.encode r.(closure_limits);
          countable.encode r.(closure_objects); countable.encode
        r.(closure_layers); countable.encode r.(closure_launch); countable.encode
          r.(closure_canonical_digest);
        countable.encode r.(closure_tree_sha256); countable.encode r.(closure_template_sha256);
          countable.encode
        r.(closure_entries); countable.encode r.(closure_expanded_bytes)])
    (fun l => match l with
      | [p0; p1; p2; p3; p4; p5; p6; p7; p8; p9; p10; p11; p12] =>
        v0 ← countable.decode p0; v1 ← countable.decode p1; v2 ← countable.decode p2; v3 ←
          countable.decode p3; v4 ← countable.decode p4; v5 ←
          countable.decode p5; v6 ← countable.decode p6; v7 ← countable.decode p7; v8 ←
            countable.decode p8; v9 ← countable.decode p9; v10 ←
          countable.decode p10; v11 ← countable.decode p11; v12 ← countable.decode p12;
        Some {| closure_version := v0; closure_kind := v1; closure_manifest_digest := v2;
          closure_policy := v3; closure_limits := v4; closure_objects := v5; closure_layers :=
          v6; closure_launch := v7; closure_canonical_digest := v8; closure_tree_sha256 := v9;
          closure_template_sha256 := v10; closure_entries := v11; closure_expanded_bytes := v12
          |}
      | _ => None
      end)).
  intros []. cbn -[countable.encode countable.decode]. by rewrite !countable.decode_encode.
Defined.
#[local] Instance DerivedLock_countable : Countable DerivedLock.
Proof.
  apply (inj_countable
    (fun r => [countable.encode r.(lock_version); countable.encode r.(lock_canonical_digest);
      countable.encode r.(lock_tree_sha256);
        countable.encode r.(lock_template_sha256); countable.encode r.(lock_closure_sha256); countable.encode
        r.(lock_raw_closure)])
    (fun l => match l with
      | [p0; p1; p2; p3; p4; p5] =>
        v0 ← countable.decode p0; v1 ← countable.decode p1; v2 ← countable.decode p2; v3 ←
          countable.decode p3; v4 ← countable.decode p4; v5 ←
          countable.decode p5;
        Some {| lock_version := v0; lock_canonical_digest := v1; lock_tree_sha256 := v2;
          lock_template_sha256 := v3; lock_closure_sha256 := v4; lock_raw_closure := v5 |}
      | _ => None
      end)).
  intros []. cbn -[countable.encode countable.decode]. by rewrite !countable.decode_encode.
Defined.
#[local] Instance CanonicalBinarySpec_countable : Countable CanonicalBinarySpec.
Proof.
  apply (inj_countable
    (fun r => [countable.encode r.(cbs_version); countable.encode r.(cbs_kind); countable.encode
      r.(cbs_install_path); countable.encode
        r.(cbs_arguments); countable.encode r.(cbs_environment); countable.encode
          r.(cbs_working_directory); countable.encode
        r.(cbs_uid); countable.encode r.(cbs_gid)])
    (fun l => match l with
      | [p0; p1; p2; p3; p4; p5; p6; p7] =>
        v0 ← countable.decode p0; v1 ← countable.decode p1; v2 ← countable.decode p2; v3 ←
          countable.decode p3; v4 ← countable.decode p4; v5 ←
          countable.decode p5; v6 ← countable.decode p6; v7 ← countable.decode p7;
        Some {| cbs_version := v0; cbs_kind := v1; cbs_install_path := v2; cbs_arguments := v3;
          cbs_environment := v4; cbs_working_directory := v5; cbs_uid := v6; cbs_gid := v7 |}
      | _ => None
      end)).
  intros []. cbn -[countable.encode countable.decode]. by rewrite !countable.decode_encode.
Defined.

#[local] Instance spec_serde : Serde CanonicalBinarySpec := countable_serde CanonicalBinarySpec.
#[local] Instance closure_serde : Serde Closure := countable_serde Closure.
#[local] Instance lock_serde : Serde DerivedLock := countable_serde DerivedLock.
#[local] Instance spec_trailing : SerdeTrailing CanonicalBinarySpec := countable_trailing _.
#[local] Instance closure_trailing : SerdeTrailing Closure := countable_trailing _.
#[local] Instance lock_trailing : SerdeTrailing DerivedLock := countable_trailing _.
#[local] Instance store_text : DebugStr := {| debug_str s := s |}.
#[local] Existing Instance toy_sha256.
#[local] Existing Instance toy_sha256_laws.
#[local] Existing Instance image_decoders.

(** The store is [store], its process 7; the sources are read beneath [src]. *)
#[local] Instance sample_fs : HostFs Mem := mem_fs 7 "store".
#[local] Existing Instance mem_view.
#[local] Instance sample_laws : FsLaws Mem := mem_laws 7 "store".
Definition source_fs : HostFs Mem := mem_fs 7 "src".

Definition sample_source : Mem := {|
  mem_tree := NDir 1000 448 {["src" := NDir 1000 448 {["app" := NFile 1000 448 sample_elf]}]};
  mem_count := 0; mem_budget := None |}.
Definition empty_store (budget : option nat) : Mem :=
  {| mem_tree := NDir 1000 448 ∅; mem_count := 0; mem_budget := budget |}.

Definition sample_spec : WorkloadSpec := {|
  spec_version := 1;
  spec_source := Binary {| bin_path := "app"; bin_arguments := ["--serve"];
    bin_environment := ["HOME=/"]; bin_working_directory := "/"; bin_user := "1000:1000" |} |}.

Definition sample_assembly (budget : option nat) : option (result AssembledWorkload * (Mem * Mem)) :=
  @assemble Mem sample_fs _ _ _ _ _ _ Mem source_fs (Ok sample_spec) (sample_source, empty_store budget).

(** The store after the assembly, and the store of a process that stopped after
    its hundredth call, before it had published the closure. *)
Definition sample_store : Mem :=
  match sample_assembly None with Some (_, (_, s)) => s | None => empty_store None end.
Definition stopped_store : Mem :=
  match sample_assembly (Some 100%nat) with Some (_, (_, s)) => s | None => empty_store None end.

Definition sample_load (s : Mem) : option (result LoadedWorkload * Mem) := load s.

Lemma sample_loads : match sample_load sample_store with Some (Ok _, _) => true | _ => false end = true.
Proof. by vm_compute. Qed.

Definition sample_graph : WorkloadGraph :=
  match @source_graph Mem source_fs _ _ _ _ sample_spec sample_source with
  | Some (Ok g, _) => g
  | _ => {| g_kind := SourceBinary; g_manifest_digest := None; g_objects := []; g_tree := Tree_new;
            g_launch := {| executable := ""; arguments := []; environment := [];
                           working_directory := ""; uid := 0; gid := 0 |};
            g_layers := [] |}
  end.
Definition sample_publish (budget : option nat) : option (result AssembledWorkload * Mem) :=
  publish sample_graph (empty_store budget).

Lemma sample_stops :
  match sample_publish (Some 100%nat) with Some (Err _, _) => true | _ => false end = true.
Proof. by vm_compute. Qed.
Lemma sample_assembles :
  match sample_assembly None with Some (Ok _, _) => true | _ => false end = true.
Proof. by vm_compute. Qed.
