(* ===== verification/StoreFiles.v ===== *)
(** Where the store keeps what: the paths of the store's files as components
    beneath its root, and the files a store must hold. *)

From stdpp Require Import ssreflect.
From Stdlib Require Import Strings.Byte.
From S2P Require Import Prelude Types Std Protocol Tree Spec Profile Oci Effects Root Store MemFs StoreSample.

(** ** Path components *)

(** A component that names an entry. *)
Definition plain (c : bytes) : Prop :=
  c <> [] /\ c <> DOT /\ c <> DOTDOT /\ SLASH ∉ c /\ Byte.x00 ∉ c.

Section paths.
Context `{DebugStr}.

Lemma components_loop_plain rel parts :
  Forall plain parts -> components_loop rel parts = Ok (map str_of parts).
Proof.
  induction 1 as [|c parts (Hne&Hd&Hdd&Hs&Hz) _ IH]; [done|]. cbn [components_loop].
  rewrite !bool_decide_eq_false_2 //. cbn [orb].
  rewrite (proj2 (contains_byte_false _ _) Hz) IH. done.
Qed.

Lemma components_join parts :
  Forall plain parts -> parts <> [] ->
  components (str_of (join_with SLASH parts)) = Ok (map str_of parts).
Proof.
  intros Hall Hne. unfold components. rewrite bool_decide_eq_false_2.
  - rewrite as_bytes_str_of split_join; [by apply components_loop_plain|done|].
    eapply list.Forall_impl; [exact Hall|]. by intros c (_&_&_&?&_).
  - intros E. apply (f_equal as_bytes) in E. rewrite as_bytes_str_of in E.
    destruct Hall as [|c [|d parts] (Hc&_)]; [done| |]; cbn in E; [congruence|].
    by destruct c.
Qed.
End paths.

(** Hexadecimal digests and decimal numbers as components. *)
Definition digits (s : string) : Prop :=
  as_bytes s <> [] /\ Forall (fun b => lower_hex b = true) (as_bytes s).

Lemma digits_plain s : digits s -> plain (as_bytes s).
Proof.
  intros [Hne Hall]. rewrite list.Forall_forall in Hall.
  assert (Hno : forall b, lower_hex b = false -> b ∉ as_bytes s).
  { intros b Hb Hin. apply Hall in Hin. congruence. }
  split_and!; [done| | |by apply Hno..].
  - intros E. apply (Hno "."%byte); [done|]. rewrite E. left.
  - intros E. apply (Hno "."%byte); [done|]. rewrite E. left.
Qed.

Lemma hex_digits_string `{Sha256Laws} bs : digits (hex (sha256_digest bs)).
Proof.
  split.
  - intros E. pose proof (sha256_digest_length bs) as Hl. unfold hex in E.
    rewrite as_bytes_str_of in E. destruct (sha256_digest bs); [done|]. done.
  - unfold hex. rewrite as_bytes_str_of. induction (sha256_digest bs) as [|b l IH]; [constructor|].
    cbn [flat_map app]. pose proof (byte_Z_range b). constructor; [|constructor; [|done]].
    + apply hex_char_lower. rewrite Z.shiftr_div_pow2 //. change (2 ^ 4) with 16. lia_mod.
    + apply hex_char_lower, land_15_range.
Qed.

(** Neither a separator nor a NUL byte. *)
Definition clean (s : string) : Prop := SLASH ∉ as_bytes s /\ Byte.x00 ∉ as_bytes s.

Lemma clean_app s t : clean s -> clean t -> clean (s +:+ t).
Proof. intros [? ?] [? ?]. split; rewrite as_bytes_app elem_of_app; naive_solver. Qed.

Lemma clean_digits s : digits s -> clean s.
Proof. intros (_&_&_&?&?)%digits_plain. done. Qed.

Lemma clean_pretty_char x : clean (String (pretty_N_char x) "").
Proof.
  unfold pretty_N_char. destruct x as [|p]; [split; by apply contains_byte_false|].
  repeat (destruct p as [p|p|]; try (split; by apply contains_byte_false)).
Qed.

Lemma clean_pretty_go x : forall s, clean s -> clean (pretty_N_go x s).
Proof.
  induction (N.lt_wf_0 x) as [x _ IH]. intros s Hs. destruct (decide (x = 0%N)) as [->|Hx].
  { by rewrite pretty_N_go_0. }
  rewrite pretty_N_go_step; [|lia]. apply IH; [apply N.div_lt; lia|].
  apply (clean_app (String (pretty_N_char (x mod 10)) "") s); [apply clean_pretty_char|done].
Qed.

Lemma clean_pretty_N (x : N) : clean (pretty x).
Proof.
  unfold pretty, pretty_N. destruct (decide (x = 0%N)); [split; by apply contains_byte_false|].
  apply clean_pretty_go. split; by intros ?%elem_of_nil.
Qed.

Lemma clean_fmt_dec z : clean (fmt_dec z).
Proof.
  unfold fmt_dec. destruct z as [|p|p].
  - split; by apply contains_byte_false.
  - apply (clean_pretty_N (N.pos p)).
  - apply (clean_app "-" (pretty (N.pos p))); [split; by apply contains_byte_false|].
    apply clean_pretty_N.
Qed.

Section store_paths.
Context {S : Type} `{HostFs S} `{DebugStr}.

Definition CLOSURE_FILE : Handle := ["raw"; "closure.json"].
Definition object_file (hex : string) : Handle := ["raw"; "sha256"; hex].
Definition derived_dir (digest : string) : Handle := ["derived"; digest].
Definition derived_file (digest name : string) : Handle := ["derived"; digest; name].

Lemma plain_literal s :
  forallb (fun b => negb (bool_decide (b = SLASH)) && negb (bool_decide (b = Byte.x00))) (as_bytes s)
  && negb (bool_decide (as_bytes s = [])) && negb (bool_decide (as_bytes s = DOT))
  && negb (bool_decide (as_bytes s = DOTDOT)) = true -> plain (as_bytes s).
Proof.
  rewrite !andb_true_iff !negb_true_iff !bool_decide_eq_false forallb_forall.
  intros [[[Hall Hne] Hd] Hdd]. split_and!; [done..| |]; intros Hin%list_elem_of_In%Hall;
    rewrite andb_true_iff !negb_true_iff !bool_decide_eq_false in Hin; naive_solver.
Qed.

Lemma components_path parts :
  parts <> [] -> Forall (fun s => plain (as_bytes s)) parts ->
  components (str_of (join_with SLASH (map as_bytes parts))) = Ok parts.
Proof.
  intros Hne Hall. rewrite components_join.
  - f_equal. rewrite map_map. rewrite -{2}(map_id parts). apply map_ext. apply str_of_as_bytes.
  - by apply List.Forall_map.
  - by destruct parts.
Qed.

Lemma closure_components : components RAW_CLOSURE_PATH = Ok CLOSURE_FILE.
Proof. apply (components_path CLOSURE_FILE); [done|]. repeat constructor; by apply plain_literal. Qed.

Lemma path_eq s parts :
  as_bytes s = join_with SLASH (map as_bytes parts) -> parts <> [] ->
  Forall (fun s => plain (as_bytes s)) parts -> components s = Ok parts.
Proof. intros E Hne Hall. rewrite -(str_of_as_bytes s) E. by apply components_path. Qed.

(** The components of a path written as a text. *)
Ltac solve_path :=
  apply path_eq; [by rewrite ?as_bytes_app /= ?app_assoc| done |];
  repeat (apply List.Forall_cons; [first [assumption | by apply plain_literal]|]); apply List.Forall_nil.

Lemma object_components hex : plain (as_bytes hex) -> components (object_path hex) = Ok (object_file hex).
Proof. intros Hp. unfold object_path, object_file. solve_path. Qed.

Lemma objects_dir_components : components "raw/sha256" = Ok ["raw"; "sha256"].
Proof. solve_path. Qed.
Lemma derived_root_components : components "derived" = Ok ["derived"].
Proof. solve_path. Qed.

Lemma derived_components digest :
  plain (as_bytes digest) -> components (derived_base digest) = Ok (derived_dir digest).
Proof. intros Hp. unfold derived_base, derived_dir. solve_path. Qed.

Lemma derived_file_components digest name :
  plain (as_bytes digest) -> plain (as_bytes name) ->
  components (derived_base digest +:+ ("/" +:+ name)) = Ok (derived_file digest name).
Proof. intros Hp Hn. unfold derived_base, derived_file. solve_path. Qed.

Lemma staged_plain name t : clean name -> staged name t -> plain (as_bytes t).
Proof.
  intros Hn [k ->].
  assert (Hc : clean ("." +:+ name +:+ ".staging." +:+ fmt_dec fs_pid +:+ "." +:+ fmt_dec k)).
  { repeat apply clean_app; try done; try apply clean_fmt_dec; split; by apply contains_byte_false. }
  assert (Hl : (9 <= length (as_bytes ("." +:+ name +:+ ".staging." +:+ fmt_dec fs_pid +:+ "." +:+ fmt_dec k)))%nat).
  { rewrite !as_bytes_app !length_app. cbn. lia. }
  destruct Hc as [Hs Hz]. split_and!; try done; intros E; rewrite E in Hl; cbn in Hl; lia.
Qed.
End store_paths.

(** ** The files a store holds *)

Section stored.
Context `{Sha256} `{OciDecoders} `{DebugStr}.
Context `{Serde CanonicalBinarySpec} `{Serde Closure} `{Serde DerivedLock}.

(** The raw objects that the records name: present under their digests with their
    recorded sizes, in distinct known roles. *)
Inductive objects_in (n : Node) (root : Root) :
    list ObjectRecord -> gmap string bytes -> gmap string bytes -> Prop :=
  | objects_nil objects : objects_in n root [] objects objects
  | objects_cons record records objects found limit hex data :
      role_limit record.(role) = Some limit -> record.(obj_bytes) <= limit ->
      parse_digest record.(obj_digest) = Ok hex -> objects !! record.(role) = None ->
      file_at n (root ++ object_file hex) = Some data ->
      zlen data = record.(obj_bytes) -> sha256_bytes data = hex ->
      objects_in n root records (<[record.(role) := data]> objects) found ->
      objects_in n root (record :: records) objects found.

(** The derived entry of a canonical digest: the tree's encoding, a template with
    the digest, and the lock that names the closure. *)
Definition derived_in (n : Node) (root : Root) (digest : string) (tree_bytes : bytes)
    (template_sha256 closure_sha256 tree_sha256 : string) : Prop :=
  file_at n (root ++ derived_file digest "tree.bin") = Some tree_bytes /\
  zlen tree_bytes <= MAX_CACHE_METADATA_BYTES /\
  (exists template, file_at n (root ++ derived_file digest "template.cpio") = Some template /\
     zlen template <= MAX_TEMPLATE_BYTES /\ sha256_bytes template = template_sha256) /\
  (exists lock, file_at n (root ++ derived_file digest "lock.json") = Some lock /\
     zlen lock <= MAX_CACHE_METADATA_BYTES /\
     from_slice lock = inl (derived_lock digest closure_sha256 tree_sha256 template_sha256)).

(** The workload a store holds: what its closure record, the raw objects it names
    and the derived entry determine together. *)
Definition stored (n : Node) (root : Root) (w : LoadedWorkload) : Prop :=
  exists closure_bytes closure objects graph template,
    file_at n (root ++ CLOSURE_FILE) = Some closure_bytes /\
    zlen closure_bytes <= MAX_CACHE_METADATA_BYTES /\
    decode_closure closure_bytes = Ok closure /\
    zlen closure.(closure_objects) <= MAX_RAW_OBJECTS /\
    objects_in n root closure.(closure_objects) ∅ objects /\
    replay_graph closure objects = Ok graph /\
    check_rederived closure graph = Ok template /\
    derived_in n root (canonical_digest graph.(g_tree)) (encode graph.(g_tree))
      closure.(closure_template_sha256) (sha256_bytes closure_bytes)
      closure.(closure_tree_sha256) /\
    w = {| ld_source_kind := closure.(closure_kind);
           ld_closure_sha256 := sha256_bytes closure_bytes;
           ld_canonical_digest := canonical_digest graph.(g_tree);
           ld_tree := graph.(g_tree); ld_template := template;
           ld_launch := closure.(closure_launch) |}.

(** Nothing a store holds is lost when no file beneath its root changes. *)
Definition kept (n n' : Node) (root : Root) : Prop :=
  forall q data, file_at n (root ++ q) = Some data -> file_at n' (root ++ q) = Some data.

Lemma touch_kept P n n' root : touch P n n' -> kept n n' root.
Proof. intros Ht q data. by apply touch_file with P. Qed.

Lemma objects_in_kept n n' root records objects found :
  kept n n' root -> objects_in n root records objects found ->
  objects_in n' root records objects found.
Proof. intros Hk. induction 1; [constructor|]. econstructor; try done. by apply Hk. Qed.

Lemma derived_in_kept n n' root digest tree_bytes a b c :
  kept n n' root -> derived_in n root digest tree_bytes a b c ->
  derived_in n' root digest tree_bytes a b c.
Proof.
  intros Hk (Htree&Hlen&(t&Htf&?)&(l&Hl&?)). split_and!; [by apply Hk|done| |].
  - exists t. split; [by apply Hk|done].
  - exists l. split; [by apply Hk|done].
Qed.

Lemma stored_kept n n' root w : kept n n' root -> stored n root w -> stored n' root w.
Proof.
  intros Hk (cb&c&objs&g&tm&Hf&Hl&Hdec&Hn&Hobjs&Hg&Hck&Hd&->).
  exists cb, c, objs, g, tm. split_and!; try done.
  - by apply Hk.
  - by eapply objects_in_kept.
  - by eapply derived_in_kept.
Qed.

Lemma derived_in_touch P n n' root digest tree_bytes a b c :
  touch P n n' -> derived_in n root digest tree_bytes a b c ->
  derived_in n' root digest tree_bytes a b c.
Proof. intros Ht. by eapply derived_in_kept, touch_kept. Qed.
Lemma stored_touch P n n' root w : touch P n n' -> stored n root w -> stored n' root w.
Proof. intros Ht. by eapply stored_kept, touch_kept. Qed.
End stored.

Section load.
Context {S : Type} `{FsLaws S} `{Sha256Laws} `{OciDecoders} `{DebugStr}.
Context `{Serde CanonicalBinarySpec} `{Serde Closure} `{Serde DerivedLock}.
#[local] Set Default Proof Using "All".

Lemma read_required_reads n root path limit what parts :
  components path = Ok parts ->
  reads n (read_required root path limit what) (fun data =>
    file_at n (root ++ parts) = Some data /\ zlen data <= limit).
Proof. intros Hc. by apply reads_rethrow, read_file_reads. Qed.
Lemma read_required_succeeds n root path limit what parts data :
  components path = Ok parts -> parts <> [] ->
  file_at n (root ++ parts) = Some data -> zlen data <= limit ->
  succeeds n (read_required root path limit what) data.
Proof. intros. by eapply succeeds_rethrow, read_file_succeeds. Qed.

Lemma parse_digest_plain value hex : parse_digest value = Ok hex -> plain (as_bytes hex).
Proof.
  intros Hp. apply digits_plain. destruct (parse_digest_iff value hex) as [_ Hd].
  destruct (Hd Hp) as [Hl Hall]. split; [|done]. intros E. unfold str_len in Hl. by rewrite E in Hl.
Qed.

Lemma read_objects_loop_reads n root records : forall index objects,
  reads n (read_objects_loop root index records objects) (objects_in n root records objects).
Proof.
  induction records as [|record records IH]; intros index objects; cbn [read_objects_loop].
  { apply reads_ret. constructor. }
  eapply reads_bind; [apply reads_lift; intros limit Hl; exact Hl|]. intros limit Hlimit.
  eapply reads_bind; [apply reads_fail_if|]. intros [] Hb.
  eapply reads_bind; [apply reads_lift; intros hex Hp; exact Hp|]. intros hex Hp.
  eapply reads_bind; [apply reads_fail_if|]. intros [] Hr.
  eapply reads_bind; [exact (read_required_reads _ _ _ _ _ _ (object_components _ (parse_digest_plain _ _ Hp)))|].
  intros data [Hf Hlen]. eapply reads_bind; [apply reads_fail_if|]. intros [] Hm.
  eapply reads_weaken; [apply IH|]. intros found Hfound.
  apply orb_false_iff in Hm as [Hz%negb_false_iff Hs%negb_false_iff].
  apply bool_decide_eq_true in Hs. apply bool_decide_eq_false in Hr.
  apply Z.eqb_eq in Hz. apply Z.ltb_ge in Hb.
  destruct (role_limit _) as [l|] eqn:Hl; [|done]. injection Hlimit as Heq; subst.
  econstructor; try done. by destruct (objects !! record.(role)); [destruct Hr; eexists|].
Qed.

Lemma read_objects_loop_succeeds n root records : forall index objects found,
  objects_in n root records objects found ->
  succeeds n (read_objects_loop root index records objects) found.
Proof.
  induction records as [|record records IH]; intros index objects found Ho; inversion Ho; subst;
    cbn [read_objects_loop]; [apply succeeds_ret|].
  eapply succeeds_bind; [apply succeeds_lift; by match goal with E : role_limit _ = Some _ |- _ => rewrite E end|].
  eapply succeeds_bind; [apply succeeds_fail_if; by apply Z.ltb_ge|].
  eapply succeeds_bind; [by apply succeeds_lift|].
  eapply succeeds_bind; [apply succeeds_fail_if, bool_decide_eq_false_2;
    match goal with E : _ !! _ = None |- _ => rewrite E end; by intros []|].
  eapply succeeds_bind; [eapply read_required_succeeds; [by eapply object_components, parse_digest_plain|done|done|lia]|].
  eapply succeeds_bind; [apply succeeds_fail_if|by apply IH].
  rewrite bool_decide_eq_true_2 // (proj2 (Z.eqb_eq _ _)) //.
Qed.

Lemma tree_components d : plain (as_bytes d) ->
  components (derived_base d +:+ "/tree.bin") = Ok (derived_file d "tree.bin").
Proof. intros. apply (derived_file_components d "tree.bin"); [done|by apply plain_literal]. Qed.
Lemma template_components d : plain (as_bytes d) ->
  components (derived_base d +:+ "/template.cpio") = Ok (derived_file d "template.cpio").
Proof. intros. apply (derived_file_components d "template.cpio"); [done|by apply plain_literal]. Qed.
Lemma lock_components d : plain (as_bytes d) ->
  components (derived_base d +:+ "/lock.json") = Ok (derived_file d "lock.json").
Proof. intros. apply (derived_file_components d "lock.json"); [done|by apply plain_literal]. Qed.

Lemma canonical_digest_plain t : plain (as_bytes (canonical_digest t)).
Proof. apply digits_plain, hex_digits_string. Qed.

Lemma verify_derived_reads n root digest tree_bytes template_sha256 closure_sha256 tree_sha256 :
  plain (as_bytes digest) ->
  reads n (verify_derived root digest tree_bytes template_sha256 closure_sha256 tree_sha256)
    (fun _ => derived_in n root digest tree_bytes template_sha256 closure_sha256 tree_sha256).
Proof.
  intros Hp. unfold verify_derived.
  eapply reads_bind; [exact (read_required_reads _ _ _ _ _ _ (tree_components _ Hp))|].
  intros tree [Htree Htl]. eapply reads_bind; [apply reads_fail_if|]. intros [] Ht.
  eapply reads_bind; [apply reads_rethrow; exact (sha256_file_reads _ _ _ _ _ (template_components _ Hp))|].
  intros sha (template&Htf&Hlen&->). eapply reads_bind; [apply reads_fail_if|]. intros [] Hs.
  eapply reads_bind; [exact (read_required_reads _ _ _ _ _ _ (lock_components _ Hp))|].
  intros lock [Hlf Hll].
  eapply reads_bind with (Q := fun l => from_slice lock = inl l).
  { apply reads_lift. intros l. destruct (from_slice lock); [by intros [= ->]|done]. }
  intros l Hl. eapply reads_weaken; [apply reads_fail_if|]. intros [] Hlock.
  apply negb_false_iff, bool_decide_eq_true in Ht, Hs, Hlock. subst.
  split_and!; [done|done| |].
  - by exists template.
  - by exists lock.
Qed.

Lemma verify_derived_succeeds n root digest tree_bytes template_sha256 closure_sha256 tree_sha256 :
  plain (as_bytes digest) ->
  derived_in n root digest tree_bytes template_sha256 closure_sha256 tree_sha256 ->
  succeeds n (verify_derived root digest tree_bytes template_sha256 closure_sha256 tree_sha256) tt.
Proof.
  intros Hp (Htree&Htl&(template&Htf&Hlen&Hsha)&(lock&Hlf&Hll&Hlock)). unfold verify_derived.
  eapply succeeds_bind; [by apply (read_required_succeeds _ _ _ _ _ _ _ (tree_components _ Hp))|].
  eapply succeeds_bind; [apply succeeds_fail_if; by rewrite bool_decide_eq_true_2|].
  eapply succeeds_bind.
  { apply succeeds_rethrow. by eapply sha256_file_succeeds; [apply template_components| | |]. }
  eapply succeeds_bind; [apply succeeds_fail_if; by rewrite bool_decide_eq_true_2|].
  eapply succeeds_bind; [by apply (read_required_succeeds _ _ _ _ _ _ _ (lock_components _ Hp))|].
  eapply succeeds_bind; [apply succeeds_lift; by rewrite Hlock|].
  apply succeeds_fail_if. by rewrite bool_decide_eq_true_2.
Qed.

Lemma Root_open_reads n : reads (S := S) n Root_open (fun root => root = fs_root).
Proof.
  unfold Root_open. eapply reads_bind with (Q := fun r => forall h, r = inl h -> h = fs_root).
  - apply (reads_call n _ (fun r n' => n' = n /\ (is_dir (node_at n' fs_root) = true -> r = inl fs_root) /\
      (forall h, r = inl h -> h = fs_root))).
    + intros s r s' E <-. by apply open_root_law.
    + intros r n' (->&_&Hr). done.
    + done.
  - intros [h|e] Hr; [by apply reads_ret; auto|apply reads_throw].
Qed.

Lemma Root_open_succeeds n :
  is_dir (node_at n fs_root) = true -> succeeds (S := S) n Root_open fs_root.
Proof.
  intros Hd. unfold Root_open. eapply succeeds_bind with (a := inl fs_root); [|apply succeeds_ret].
  apply (succeeds_call n _ (fun r n' => n' = n /\ (is_dir (node_at n' fs_root) = true -> r = inl fs_root) /\
      (forall h, r = inl h -> h = fs_root)) (inl fs_root)).
  - intros s r s' E <-. by apply open_root_law.
  - intros r n' (->&Hr&_). split; [done|by apply Hr].
Qed.

(** A file beneath the root makes the root a directory. *)
Lemma file_beneath_dir n root x p d : file_at n (root ++ x :: p) = Some d -> is_dir (node_at n root) = true.
Proof.
  intros (o&m&Hf)%file_at_Some. rewrite node_at_app in Hf. by destruct (node_at n root) as [[]|].
Qed.

Lemma total_objects_loop root records : forall index objects,
  total (read_objects_loop root index records objects : M S (gmap string bytes)).
Proof.
  induction records as [|r records IH]; intros index objects; cbn [read_objects_loop];
    unfold read_required; solve_total.
Qed.
#[local] Hint Resolve total_objects_loop : total.

Lemma total_verify_derived root d t a b c : total (verify_derived root d t a b c : M S unit).
Proof. unfold verify_derived, read_required. solve_total. Qed.
#[local] Hint Resolve total_verify_derived : total.

Lemma total_load : total (load : M S LoadedWorkload).
Proof. unfold load, read_required, read_objects. solve_total. Qed.

Lemma load_reads n : reads n load (stored n fs_root).
Proof.
  unfold load. eapply reads_bind; [apply Root_open_reads|]. intros root ->.
  eapply reads_bind; [exact (read_required_reads _ _ _ _ _ _ closure_components)|].
  intros cb [Hcb Hlen]. eapply reads_bind; [apply reads_lift; intros c Hc; exact Hc|]. intros c Hc.
  eapply reads_bind with (Q := fun objs => zlen c.(closure_objects) <= MAX_RAW_OBJECTS /\
    objects_in n fs_root c.(closure_objects) ∅ objs).
  { unfold read_objects. eapply reads_bind; [apply reads_fail_if|]. intros [] Hn%Z.ltb_ge.
    eapply reads_weaken; [apply read_objects_loop_reads|]. done. }
  intros objs [Hn Hobjs]. eapply reads_bind; [apply reads_lift; intros g Hg; exact Hg|]. intros g Hg.
  eapply reads_bind; [apply reads_lift; intros t Ht; exact Ht|]. intros tm Htm.
  eapply reads_bind; [apply verify_derived_reads, canonical_digest_plain|]. intros [] Hd.
  apply reads_ret. by exists cb, c, objs, g, tm.
Qed.

Lemma load_succeeds n w : stored n fs_root w -> succeeds n load w.
Proof.
  intros (cb&c&objs&g&tm&Hcb&Hlen&Hc&Hn&Hobjs&Hg&Htm&Hd&->). unfold load.
  eapply succeeds_bind; [by eapply Root_open_succeeds, file_beneath_dir|].
  eapply succeeds_bind; [by apply (read_required_succeeds _ _ _ _ _ _ _ closure_components)|].
  eapply succeeds_bind; [by apply succeeds_lift|].
  eapply succeeds_bind.
  { unfold read_objects. eapply succeeds_bind; [by apply succeeds_fail_if, Z.ltb_ge|].
    by apply read_objects_loop_succeeds. }
  eapply succeeds_bind; [by apply succeeds_lift|].
  eapply succeeds_bind; [by apply succeeds_lift|].
  eapply succeeds_bind; [by apply verify_derived_succeeds, Hd; apply canonical_digest_plain|].
  apply succeeds_ret.
Qed.

(** C12. Loading a store refines its specification: whatever the outcomes of the
    system calls, [load] changes nothing and what it returns is exactly what the
    closure record, the raw objects it names (each with its recorded size and
    digest) and the derived entry determine, re-derived from the raw objects; and
    when the calls work, it returns that for every store that holds one. *)
Theorem load_refines s :
  match load s with
  | Some (Ok w, s') => view s' = view s /\ stored (view s) fs_root w
  | Some (Err _, s') => view s' = view s
  | None => False
  end /\
  (reliable s -> forall w, stored (view s) fs_root w -> exists s', load s = Some (Ok w, s')).
Proof.
  split.
  - pose proof (load_reads (view s) s eq_refl) as H'.
    destruct (total_load s) as (r&s'&E). rewrite E in H' |- *. by destruct r.
  - intros Hr w Hw. destruct (load_succeeds _ _ Hw s Hr eq_refl) as (s'&E&_). by exists s'.
Qed.
End load.

Lemma load_refines_witness :
  exists w, @stored toy_sha256 image_decoders store_text spec_serde closure_serde lock_serde
      (mem_tree sample_store) ["store"] w /\
    exists s', sample_load sample_store = Some (Ok w, s').
Proof.
  pose proof (@load_refines Mem sample_fs mem_view sample_laws toy_sha256 toy_sha256_laws image_decoders
    store_text spec_serde closure_serde lock_serde sample_store) as [Hload Hfinds].
  pose proof sample_loads as Hok. change (load sample_store) with (sample_load sample_store) in Hload.
  change (load sample_store) with (sample_load sample_store) in Hfinds.
  destruct (sample_load sample_store) as [[[w|e] s']|]; [|discriminate Hok..].
  exists w. split; [exact (proj2 Hload)|]. apply Hfinds; [by vm_compute|exact (proj2 Hload)].
Defined.
#[export] Hint Resolve total_objects_loop total_verify_derived total_load : total.
