(* ===== verification/StoreSafe.v ===== *)
(** Publication into the store: it never changes a file that exists, leaves the
    closure record for last, and what it has committed loads again.  A crash at
    any call is a system whose later calls all fail, so the statements about
    failed publications are statements about crashes. *)

From stdpp Require Import ssreflect.
From Stdlib Require Import Strings.Byte.
From S2P Require Import Prelude Types Std Protocol Tree Spec Profile Oci Effects Root Store MemFs StoreSample StoreFiles.

(** ** Digests in normal form *)

Lemma lower_hex_digit b : lower_hex b = true -> is_ascii_hexdigit b = true /\ to_ascii_lowercase b = b.
Proof. destruct b; vm_compute; done. Qed.

Lemma hex_length bs : length (as_bytes (hex bs)) = (2 * length bs)%nat.
Proof. unfold hex. rewrite as_bytes_str_of. induction bs; cbn in *; lia. Qed.

Lemma parse_digest_lower s :
  digits s -> zlen (as_bytes s) = 64 -> parse_digest ("sha256:" +:+ s) = Ok s.
Proof.
  intros [_ Hd] Hl. apply parse_digest_iff. exists (as_bytes s).
  split_and!; [by rewrite as_bytes_app|done| |].
  - apply forallb_forall. intros b Hb%list_elem_of_In. rewrite list.Forall_forall in Hd.
    by apply lower_hex_digit, Hd.
  - clear Hl. induction Hd as [|b l Hb _ IH]; [done|]. cbn. f_equal; [|done].
    symmetry. by apply lower_hex_digit.
Qed.

(** ** Publication *)

Section publish.
Context {S : Type} `{FsLaws S} `{Sha256Laws} `{OciDecoders} `{DebugStr}.
Context `{Serde CanonicalBinarySpec} `{Serde Closure} `{Serde DerivedLock}.
#[local] Set Default Proof Using "All".

(** Everything but the closure record. *)
Definition not_closure (q : Handle) : Prop := q <> fs_root ++ CLOSURE_FILE.

Lemma not_closure_app x : x <> CLOSURE_FILE -> not_closure (fs_root ++ x).
Proof. intros Hx E%app_inv_head. done. Qed.

Lemma not_closure_derived p r : not_closure ((fs_root ++ "derived" :: p) ++ r).
Proof. rewrite -app_assoc. apply not_closure_app. done. Qed.

Lemma not_closure_prefix q : q `prefix_of` fs_root -> not_closure q.
Proof.
  intros [k Hk] E. rewrite E in Hk. apply (f_equal length) in Hk.
  rewrite !length_app in Hk. cbn in Hk. lia.
Qed.

(** The zone of a write into [raw/sha256] or below [derived]. *)
Lemma zone_objects name : zone not_closure fs_root ["raw"; "sha256"] name.
Proof.
  split.
  - intros p x q E. apply not_closure_app. intros E2.
    destruct p as [|a [|b p]]; [done| |by destruct p]. cbn in E2. naive_solver.
  - intros t _. rewrite -app_assoc. by apply not_closure_app.
Qed.

(** One object: present afterwards, and nothing else lost. *)
Lemma write_object_touches n data :
  triple (fun s => view s = n) (write_object fs_root data)
    (fun _ s => touch not_closure n (view s) /\
       file_at (view s) (fs_root ++ object_file (sha256_bytes data)) = Some data)
    (fun _ s => touch not_closure n (view s)).
Proof.
  set (hx := sha256_bytes data).
  assert (Hp : plain (as_bytes hx)) by apply digits_plain, hex_digits_string.
  unfold write_object. fold hx. eapply triple_bind.
  { eapply triple_consequence; [exact (read_file_if_exists_reads n fs_root _ (zlen data) _ (object_components _ Hp))|done| |].
    - intros o s Ho. exact Ho.
    - intros e s ->. apply touch_refl. }
  intros [existing|]; cbn.
  - intros s [Hs [Hf _]]. case_bool_decide as He; cbn [negb].
    + subst existing.
      pose proof (require_private_file_same n fs_root _ _ (object_components _ Hp) s Hs) as Hr.
      destruct (require_private_file _ _ s) as [[[[]|e] s']|]; [|rewrite Hr; apply touch_refl|done].
      destruct Hr as [-> _]. split; [apply touch_refl|done].
    + cbn; rewrite Hs. apply touch_refl.
  - intros s [Hs Hnone]. apply node_at_label_None in Hnone.
    pose proof (write_file_atomic_touches not_closure n fs_root (object_path hx) data
      ["raw"; "sha256"] hx (object_components _ Hp) (zone_objects hx)
      (not_closure_app (object_file hx) ltac:(done)) Hnone s) as Hw.
    destruct (write_file_atomic _ _ _ s) as [[[[]|e] s']|]; apply Hw; (split; [|done]);
      rewrite Hs; apply touch_refl.
Qed.

Definition object_present (n : Node) (o : string * bytes) : Prop :=
  file_at n (fs_root ++ object_file (sha256_bytes o.2)) = Some o.2.

Lemma object_present_touch P n n' o : touch P n n' -> object_present n o -> object_present n' o.
Proof. intros Ht. by apply touch_file with (P := P). Qed.

Lemma write_objects_touches n objects : forall written,
  touches not_closure n (fun n' => Forall (object_present n') written)
    (write_objects fs_root objects)
    (fun _ n' => Forall (object_present n') (written ++ objects)).
Proof.
  induction objects as [|[role data] objects IH]; intros written; cbn [write_objects].
  { apply touches_ret. intros n' Hw. by rewrite app_nil_r. }
  eapply touches_bind with (Q := fun _ n' => Forall (object_present n') (written ++ [(role, data)])).
  - intros s [Ht Hw]. pose proof (write_object_touches (view s) data s eq_refl) as Ho.
    destruct (write_object _ _ s) as [[[[]|e] s']|]; [destruct Ho as [Ho Hf]| |done].
    + split; [by eapply touch_trans|]. apply list.Forall_app. split.
      * eapply list.Forall_impl; [exact Hw|]. intros o. by apply object_present_touch with (P := not_closure).
      * by repeat constructor.
    + by eapply touch_trans.
  - intros _. specialize (IH (written ++ [(role, data)])). by rewrite -app_assoc in IH.
Qed.

Lemma zone_derived staging name : zone not_closure fs_root ["derived"; staging] name.
Proof.
  split.
  - intros p x q E. apply not_closure_app. intros E2.
    destruct p as [|a [|b p]]; [done| |by destruct p]. cbn in E2. naive_solver.
  - intros t _. apply (not_closure_derived [staging] [t]).
Qed.

(** Writing the three files of a fresh staging directory. *)
Lemma write_derived_touches n st tree_bytes template lock_bytes :
  plain (as_bytes st) ->
  (forall x, label_at n (fs_root ++ ["derived"; st; x]) = None) ->
  touches not_closure n anything
    (write_derived fs_root ("derived/" +:+ st) tree_bytes template lock_bytes) (fun _ => anything).
Proof.
  intros Hst Hfree. unfold write_derived.
  assert (Hw : forall name data, plain (as_bytes name) ->
    touches not_closure n anything
      (write_file_atomic fs_root ("derived/" +:+ st +:+ ("/" +:+ name)) data) (fun _ => anything)).
  { intros name data Hn. eapply touches_weaken; [|done|done].
    apply (write_file_atomic_touches not_closure n fs_root _ data ["derived"; st] name).
    - exact (derived_file_components st name Hst Hn).
    - apply zone_derived.
    - apply (not_closure_app ["derived"; st; name]). done.
    - apply Hfree. }
  assert (Ha : forall name, ("derived/" +:+ st) +:+ name = "derived/" +:+ st +:+ name).
  { done. }
  rewrite !Ha. eapply touches_bind with (Q := fun _ => anything).
  { by apply (Hw "tree.bin"), plain_literal. }
  intros _. eapply touches_bind with (Q := fun _ => anything).
  { by apply (Hw "template.cpio"), plain_literal. }
  intros _. by apply (Hw "lock.json"), plain_literal.
Qed.

Lemma cleanup_touches n st :
  plain (as_bytes st) -> label_at n (fs_root ++ ["derived"; st]) = None ->
  touches not_closure n anything (cleanup_staging fs_root ("derived/" +:+ st)) (fun _ => anything).
Proof.
  intros Hst Hfree.
  assert (Hr : forall flag rel dir name, components rel = Ok (dir ++ [name]) ->
    label_at n (fs_root ++ dir ++ [name]) = None ->
    touches not_closure n anything (catch (remove_if_exists flag fs_root rel)) (fun _ => anything)).
  { intros flag rel dir name Hc Hn. eapply touches_weaken; [|done|done].
    by apply touches_catch, (remove_if_exists_touches not_closure n flag fs_root rel dir name). }
  assert (Hf : forall name, plain (as_bytes name) ->
    touches not_closure n anything
      (catch (remove_if_exists false fs_root (("derived/" +:+ st) +:+ ("/" +:+ name)))) (fun _ => anything)).
  { intros name Hn. apply (Hr false _ ["derived"; st] name).
    - rewrite -(derived_file_components st name Hst Hn). done.
    - rewrite (_ : fs_root ++ ["derived"; st] ++ [name] = (fs_root ++ ["derived"; st]) ++ [name]).
      + by apply label_below_None.
      + by rewrite -app_assoc. }
  unfold cleanup_staging.
  eapply touches_bind with (Q := fun _ => anything); [by apply (Hf "tree.bin"), plain_literal|]. intros _.
  eapply touches_bind with (Q := fun _ => anything); [by apply (Hf "template.cpio"), plain_literal|]. intros _.
  eapply touches_bind with (Q := fun _ => anything); [by apply (Hf "lock.json"), plain_literal|]. intros _.
  eapply touches_bind with (Q := fun _ => anything); [|intros _; by apply touches_ret].
  apply (Hr true _ ["derived"] st); [|done]. by apply derived_components.
Qed.

Lemma open_or_create_touches n rel path :
  components rel = Ok path -> (forall p x q, path = p ++ x :: q -> not_closure (fs_root ++ p ++ [x])) ->
  touches not_closure n anything (open_or_create_directory fs_root rel) (fun _ => anything).
Proof.
  intros Hc HP. unfold open_or_create_directory.
  eapply touches_bind with (Q := fun cs _ => cs = path).
  { apply touches_lift. rewrite Hc. by intros ?? [= <-]. }
  intros cs s [Ht ->].
  pose proof (create_beneath_touches not_closure n fs_root rel path HP s (conj Ht I)) as Hb.
  destruct (open_or_create_beneath _ _ _ s) as [[[h|e] s']|]; [by destruct Hb|done..].
Qed.

(** The end of [publish_derived], once its files are staged. *)
Lemma place_derived_touches n st digest :
  plain (as_bytes st) -> plain (as_bytes digest) ->
  label_at n (fs_root ++ ["derived"; st]) = None ->
  touches not_closure n (fun n' => dir_at n' (fs_root ++ ["derived"; st]) = true)
    (renamed ← catch (rename fs_root ("derived/" +:+ st) (derived_base digest));
     match renamed with
     | Ok _ => mret tt
     | Err e =>
         _ ← cleanup_staging fs_root ("derived/" +:+ st);
         present ← exists_beneath fs_root (derived_base digest);
         if present : bool then mret tt else throw e
     end) (fun _ => anything).
Proof.
  intros Hst Hd Hfree. eapply touches_bind with (Q := fun _ => anything).
  - eapply touches_weaken; [apply touches_catch|intros n' Hn'; exact Hn'|done].
    apply (rename_dir_touches not_closure n fs_root _ _ ["derived"] st ["derived"] digest);
      [exact (derived_components st Hst)|exact (derived_components digest Hd)|exact Hfree|].
    intros r. apply (not_closure_derived [digest] r).
  - intros [[]|e]; [by apply touches_ret|].
    eapply touches_bind with (Q := fun _ => anything); [by apply cleanup_touches|]. intros _.
    eapply touches_bind with (Q := fun _ => anything); [apply exists_beneath_touches|].
    intros []; [by apply touches_ret|apply touches_throw].
Qed.

Lemma publish_derived_touches n digest tree_bytes template closure_sha256 tree_sha256 template_sha256 :
  digits digest ->
  touches not_closure n anything
    (publish_derived fs_root digest tree_bytes template closure_sha256 tree_sha256 template_sha256)
    (fun _ => anything).
Proof.
  intros Hdig. pose proof (digits_plain _ Hdig) as Hd. unfold publish_derived.
  eapply touches_bind with (Q := fun _ => anything); [by apply touches_lift|]. intros lock_bytes.
  eapply touches_bind with (Q := fun _ => anything).
  { unfold fail_if. destruct (_ <? _); [apply touches_throw|by apply touches_ret]. }
  intros _. eapply touches_bind with (Q := fun _ => anything).
  { apply (open_or_create_touches n _ ["derived"]); [apply derived_root_components|].
    intros p x q E. apply not_closure_app. intros E2. destruct p as [|a p]; [done|by destruct p]. }
  intros _. eapply touches_bind; [apply staging_name_touches|]. intros st.
  apply touches_pure. intros Hst. pose proof (staged_plain _ _ (clean_digits _ Hdig) Hst) as Hsp.
  cbv zeta. eapply touches_bind.
  { apply (create_directory_touches not_closure n fs_root _ ["derived"] st);
      [exact (derived_components st Hsp)|]. by apply (not_closure_app ["derived"; st]). }
  intros [] s1 [Ht1 [Hfree [Hdir1 Hfresh]]].
  pose proof (write_derived_touches (view s1) st tree_bytes template lock_bytes Hsp) as Hw.
  assert (Hbelow : forall x, label_at (view s1) (fs_root ++ ["derived"; st; x]) = None).
  { intros x. specialize (Hfresh x). by rewrite -app_assoc in Hfresh. }
  specialize (Hw Hbelow s1 (conj (touch_refl _ _) I)). unfold mbind at 1, M_bind at 1.
  rewrite [catch (write_derived _ _ _ _ _)]/catch.
  destruct (write_derived _ _ _ _ _ s1) as [[[[]|e] s2]|]; cbv beta iota; [destruct Hw as [Hw _]| |done].
  - apply (place_derived_touches n st digest Hsp Hd Hfree). split; [by eapply touch_trans|].
    by eapply touch_dir.
  - assert (Ht2 : touch not_closure n (view s2)) by by eapply touch_trans.
    pose proof (cleanup_touches n st Hsp Hfree s2 (conj Ht2 I)) as Hc.
    unfold mbind, M_bind. destruct (cleanup_staging _ _ s2) as [[[[]|e'] s3]|]; [|done..].
    by destruct Hc.
Qed.

Lemma touch_weaken (P Q : Handle -> Prop) n n' : (forall q, P q -> Q q) -> touch P n n' -> touch Q n n'.
Proof. intros HPQ Ht q. destruct (Ht q) as [|[]]; [by left|right; auto]. Qed.

Definition anywhere (q : Handle) : Prop := True.

Lemma publish_closure_spec n data :
  triple (fun s => view s = n) (publish_closure fs_root data)
    (fun _ s => touch anywhere n (view s) /\ file_at (view s) (fs_root ++ CLOSURE_FILE) = Some data)
    (fun _ s => touch not_closure n (view s)).
Proof.
  assert (Hz : zone not_closure fs_root ["raw"] "closure.json").
  { split.
    - intros p x q E. apply not_closure_app. intros E2. destruct p as [|a p]; [done|by destruct p].
    - intros t [k ->]. rewrite -app_assoc. apply not_closure_app. intros E. done. }
  intros s Hs. unfold publish_closure, mbind at 1, M_bind at 1.
  pose proof (publish_exclusive_spec not_closure n fs_root RAW_CLOSURE_PATH data ["raw"] "closure.json"
    closure_components Hz s) as Hp. rewrite Hs in Hp. specialize (Hp (touch_refl _ _)).
  destruct (publish_exclusive _ _ _ s) as [[[[|]|e] s1]|]; [| |done|done].
  - destruct Hp as [Ht Hf]. split; [|done]. by eapply touch_weaken.
  - enough (reads (view s1) (
      existing ← read_file fs_root RAW_CLOSURE_PATH MAX_CACHE_METADATA_BYTES;
      if bool_decide (existing = data) then require_private_file fs_root RAW_CLOSURE_PATH
      else throw different_closure)
      (fun _ => file_at (view s1) (fs_root ++ CLOSURE_FILE) = Some data)) as Hr.
    { specialize (Hr s1 eq_refl). revert Hr.
      match goal with |- context [match ?m s1 with _ => _ end] => destruct (m s1) as [[[u|e] s2]|] end;
        [intros [Hv Hf]|intros Hv|done]; rewrite Hv; [|done]. split; [by eapply touch_weaken|done]. }
    eapply reads_bind; [exact (read_file_reads _ _ _ _ _ closure_components)|].
    intros existing [Hf _]. case_bool_decide as He; [|apply reads_throw]. subst.
    eapply reads_weaken; [exact (require_private_file_same _ _ _ _ closure_components)|done].
Qed.

(** What a graph's publication leaves in the store. *)
Definition published (n : Node) (graph : WorkloadGraph) (p : Publication) : Prop :=
  let c := p.(pub_closure) in
  file_at n (fs_root ++ CLOSURE_FILE) = Some p.(pub_closure_bytes) /\
  Forall (object_present n) graph.(g_objects) /\
  derived_in n fs_root c.(closure_canonical_digest) p.(pub_tree_bytes)
    c.(closure_template_sha256) (sha256_bytes p.(pub_closure_bytes)) c.(closure_tree_sha256).

Lemma touches_open_private n :
  touches not_closure n anything open_private (fun root _ => root = fs_root).
Proof.
  eapply touches_weaken with (I := anything) (Q := fun root n' => anything n' /\ root = fs_root); [|done|naive_solver].
  apply (touches_reads not_closure n anything open_private (fun _ root => root = fs_root)). intros n'.
  unfold open_private. eapply reads_bind; [apply Root_open_reads|]. intros root ->.
  eapply reads_bind; [apply fstat_same|]. intros st _.
  eapply reads_bind with (Q := fun _ => True); [by apply reads_lift|]. intros _ _. by apply reads_ret.
Qed.

Lemma private_derived_same n digest : plain (as_bytes digest) ->
  reads n (require_private_derived fs_root digest) (fun _ => True).
Proof.
  intros Hp. unfold require_private_derived.
  eapply reads_bind; [apply require_private_directory_same|]. intros _ _.
  eapply reads_bind; [exact (require_private_file_same _ _ _ _ (tree_components _ Hp))|]. intros _ _.
  eapply reads_bind; [exact (require_private_file_same _ _ _ _ (template_components _ Hp))|]. intros _ _.
  exact (require_private_file_same _ _ _ _ (lock_components _ Hp)).
Qed.

(** The state before the closure is published: everything it names is there. *)
Lemma commit_before n graph p :
  digits p.(pub_closure).(closure_canonical_digest) ->
  let c := p.(pub_closure) in
  let closure_sha256 := sha256_bytes p.(pub_closure_bytes) in
  touches not_closure n (fun n' => Forall (object_present n') graph.(g_objects))
    (_ ← publish_derived fs_root c.(closure_canonical_digest) p.(pub_tree_bytes) p.(pub_template)
        closure_sha256 c.(closure_tree_sha256) c.(closure_template_sha256);
     _ ← require_private_derived fs_root c.(closure_canonical_digest);
     verify_derived fs_root c.(closure_canonical_digest) p.(pub_tree_bytes)
        c.(closure_template_sha256) closure_sha256 c.(closure_tree_sha256))
    (fun _ n' => Forall (object_present n') graph.(g_objects) /\
       derived_in n' fs_root c.(closure_canonical_digest) p.(pub_tree_bytes)
         c.(closure_template_sha256) closure_sha256 c.(closure_tree_sha256)).
Proof.
  intros Hdig c closure_sha256. pose proof (digits_plain _ Hdig) as Hp.
  eapply touches_bind with (Q := fun _ n' => Forall (object_present n') graph.(g_objects)).
  - intros s [Ht Ho]. pose proof (publish_derived_touches (view s) c.(closure_canonical_digest)
      p.(pub_tree_bytes) p.(pub_template) closure_sha256 c.(closure_tree_sha256)
      c.(closure_template_sha256) Hdig s (conj (touch_refl _ _) I)) as Hd.
    destruct (publish_derived _ _ _ _ _ _ _ s) as [[[[]|e] s1]|]; [destruct Hd as [Hd _]| |done].
    + split; [by eapply touch_trans|]. eapply list.Forall_impl; [exact Ho|].
      intros o. by apply object_present_touch with (P := not_closure).
    + by eapply touch_trans.
  - intros []. eapply touches_bind with (Q := fun _ n' => Forall (object_present n') graph.(g_objects)).
    + eapply touches_weaken; [apply (touches_reads _ _ _ _ (fun n' _ => True));
        intros n'; by apply private_derived_same|intros n' Hn'; exact Hn'|naive_solver].
    + intros []. eapply touches_weaken; [|intros n' Hn'; exact Hn'|].
      * apply (touches_reads _ _ _ _ (fun n' _ => derived_in n' fs_root c.(closure_canonical_digest)
          p.(pub_tree_bytes) c.(closure_template_sha256) closure_sha256 c.(closure_tree_sha256))).
        intros n'. by apply verify_derived_reads.
      * naive_solver.
Qed.

Lemma touches_or_io n o : touches (S := S) not_closure n anything (or_io o) (fun _ => anything).
Proof. destruct o; [apply touches_throw|by apply touches_ret]. Qed.

Lemma create_root_touches n mode :
  touches not_closure n anything (call (fs_create_root mode)) (fun _ => anything).
Proof.
  intros s [Ht _]. unfold call. destruct (fs_create_root mode s) as [o s1] eqn:E.
  destruct (create_root_law _ _ _ _ E) as [Hc _]. split; [|done]. eapply touch_trans; [exact Ht|].
  intros q. destruct (Hc q) as [|[Hn Hq]]; [by left|]. right. split; [done|]. by apply not_closure_prefix.
Qed.

(** A closure that was there at the start is the one being published. *)
Definition same_closure (n : Node) (p : Publication) : Prop :=
  forall data, file_at n (fs_root ++ CLOSURE_FILE) = Some data -> data = p.(pub_closure_bytes).

Lemma stage_touches n graph p :
  digits p.(pub_closure).(closure_canonical_digest) ->
  touches not_closure n anything (stage_at fs_root graph p) (fun _ n' =>
    same_closure n p /\ Forall (object_present n') graph.(g_objects) /\
    derived_in n' fs_root p.(pub_closure).(closure_canonical_digest) p.(pub_tree_bytes)
      p.(pub_closure).(closure_template_sha256) (sha256_bytes p.(pub_closure_bytes))
      p.(pub_closure).(closure_tree_sha256)).
Proof.
  intros Hdig. unfold stage_at. cbv zeta.
  eapply touches_bind with (Q := fun o _ => match o with
    | Some existing => forall d, file_at n (fs_root ++ CLOSURE_FILE) = Some d -> d = existing
    | None => file_at n (fs_root ++ CLOSURE_FILE) = None end).
  { intros s [Ht _]. pose proof (read_file_if_exists_reads (view s) fs_root _ MAX_CACHE_METADATA_BYTES _
      closure_components s eq_refl) as Hr.
    destruct (read_file_if_exists _ _ _ s) as [[[o|e] s1]|]; [destruct Hr as [-> Hr]|by rewrite Hr|done].
    split; [done|]. destruct o as [existing|].
    - intros d Hd. destruct Hr as [Hf _]. apply (touch_file _ _ _ _ _ Ht) in Hd. congruence.
    - apply node_at_label_None, (touch_None _ _ _ _ Ht) in Hr. unfold file_at. by rewrite Hr. }
  intros existing. eapply touches_bind with (Q := fun _ _ => same_closure n p).
  { unfold fail_if. destruct existing as [existing|]; cbn.
    - case_bool_decide as He; cbn; [|apply touches_throw]. subst. by apply touches_ret.
    - apply touches_ret. intros _ Hn d Hd. congruence. }
  intros []. intros s [Ht Hsame]. revert s Ht.
  enough (Hall : touches not_closure n anything (
    _ ← open_or_create_directory fs_root "raw/sha256";
    _ ← write_objects fs_root graph.(g_objects);
    _ ← publish_derived fs_root p.(pub_closure).(closure_canonical_digest) p.(pub_tree_bytes)
      p.(pub_template) (sha256_bytes p.(pub_closure_bytes)) p.(pub_closure).(closure_tree_sha256)
      p.(pub_closure).(closure_template_sha256);
    _ ← require_private_derived fs_root p.(pub_closure).(closure_canonical_digest);
    verify_derived fs_root p.(pub_closure).(closure_canonical_digest) p.(pub_tree_bytes)
      p.(pub_closure).(closure_template_sha256) (sha256_bytes p.(pub_closure_bytes))
      p.(pub_closure).(closure_tree_sha256))
    (fun _ n' => Forall (object_present n') graph.(g_objects) /\
      derived_in n' fs_root p.(pub_closure).(closure_canonical_digest) p.(pub_tree_bytes)
        p.(pub_closure).(closure_template_sha256) (sha256_bytes p.(pub_closure_bytes))
        p.(pub_closure).(closure_tree_sha256))).
  { intros s Ht. specialize (Hall s (conj Ht I)). revert Hall.
    match goal with |- context [match ?m with _ => _ end] => destruct m as [[[[]|e] s1]|] end; [|done..].
    intros [Ht1 [Ho Hd]]. done. }
  eapply touches_bind.
  { apply (open_or_create_touches n _ ["raw"; "sha256"]); [apply objects_dir_components|].
    apply (proj1 (zone_objects "")). }
  intros h. eapply touches_bind with (Q := fun _ n' => Forall (object_present n') graph.(g_objects)).
  { eapply touches_weaken; [apply (write_objects_touches n graph.(g_objects) [])| |done].
    intros. constructor. }
  intros []. by apply commit_before.
Qed.

Lemma commit_spec n graph p :
  digits p.(pub_closure).(closure_canonical_digest) ->
  triple (fun s => view s = n) (commit graph p)
    (fun _ s => touch anywhere n (view s) /\ published (view s) graph p /\ same_closure n p)
    (fun _ s => touch not_closure n (view s)).
Proof.
  intros Hdig. unfold commit. cbv zeta.
  eapply triple_consequence with (P := fun s => touch not_closure n (view s) /\ anything (view s));
    [|by intros s ->; split; [apply touch_refl|]|intros a s Hs; exact Hs|intros e s Hs; exact Hs].
  eapply triple_bind; [apply create_root_touches|]. intros made.
  eapply triple_bind; [apply touches_or_io|]. intros [].
  eapply triple_bind; [apply touches_open_private|]. intros root.
  intros s [Ht ->]. revert s Ht.
  enough (Hall : forall s, touch not_closure n (view s) ->
    match (_ ← stage_at fs_root graph p; publish_closure fs_root p.(pub_closure_bytes)) s with
    | Some (Ok _, s') => touch anywhere n (view s') /\ published (view s') graph p /\ same_closure n p
    | Some (Err _, s') => touch not_closure n (view s')
    | None => True end).
  { intros s Ht. specialize (Hall s Ht). revert Hall. unfold mbind, M_bind.
    destruct (stage_at _ _ _ s) as [[[[]|e] s1]|]; [|done..].
    destruct (publish_closure _ _ s1) as [[[[]|e] s2]|]; done. }
  intros s Ht. unfold mbind, M_bind. pose proof (stage_touches n graph p Hdig s (conj Ht I)) as Hst.
  destruct (stage_at _ _ _ s) as [[[[]|e] s1]|]; [|done..].
  destruct Hst as (Ht1&Hsame&Ho&Hd).
  pose proof (publish_closure_spec (view s1) p.(pub_closure_bytes) s1 eq_refl) as Hp.
  destruct (publish_closure _ _ s1) as [[[[]|e] s2]|]; [destruct Hp as [Ht2 Hf]| |done].
  - split; [eapply touch_trans; [|exact Ht2]; by eapply touch_weaken|]. split; [|done].
    split; [done|]. split.
    + eapply list.Forall_impl; [exact Ho|]. intros o. by apply object_present_touch with (P := anywhere).
    + by eapply derived_in_touch.
  - by eapply touch_trans.
Qed.

(** ** What a publication leaves loads again *)

Lemma total_write_objects root objects : total (write_objects root objects : M S unit).
Proof.
  induction objects as [|[r d] objects IH]; cbn [write_objects]; unfold write_object; solve_total.
Qed.
#[local] Hint Resolve total_write_objects : total.

Lemma total_cleanup root st : total (cleanup_staging root st : M S unit).
Proof. unfold cleanup_staging. solve_total. Qed.
#[local] Hint Resolve total_cleanup : total.

Lemma total_write_derived root st a b c : total (write_derived root st a b c : M S unit).
Proof. unfold write_derived. solve_total. Qed.
#[local] Hint Resolve total_write_derived : total.

Lemma total_publish_derived root d a b c e f : total (publish_derived root d a b c e f : M S unit).
Proof. unfold publish_derived. solve_total. Qed.
#[local] Hint Resolve total_publish_derived : total.

Lemma total_private_derived root d : total (require_private_derived root d : M S unit).
Proof. unfold require_private_derived. solve_total. Qed.
#[local] Hint Resolve total_private_derived : total.

Lemma total_publish graph : total (publish graph : M S AssembledWorkload).
Proof.
  unfold publish, commit, stage_at, publish_closure. solve_total.
Qed.
#[local] Hint Resolve total_publish : total.

Lemma stage_digits graph p :
  prepare graph = Ok p ->
  p.(pub_closure).(closure_canonical_digest) = canonical_digest graph.(g_tree) /\
  digits p.(pub_closure).(closure_canonical_digest).
Proof.
  intros Hp. unfold prepare in Hp. inv_ok Hp. subst p. cbn. split; [done|apply hex_digits_string].
Qed.

(** C11. Publication is crash safe.  Whatever the outcome of every system call (a
    call that fails and a process that stops are outcomes too), [publish] ends;
    no entry that existed changes, so a store that held a workload still
    holds it; when it fails, the closure record, which alone makes a store
    loadable, is as it was, absent or present; and when it succeeds the store
    holds the closure, every raw object under its digest and the verified derived
    entry, and any closure that was there before was this one. *)
Theorem publish_crash_safe graph s :
  match publish graph s with
  | Some (r, s') =>
      (forall q m, label_at (view s) q = Some m -> label_at (view s') q = Some m) /\
      (forall w, stored (view s) fs_root w -> stored (view s') fs_root w) /\
      match r with
      | Err _ => label_at (view s') (fs_root ++ CLOSURE_FILE) = label_at (view s) (fs_root ++ CLOSURE_FILE)
      | Ok _ => exists p, prepare graph = Ok p /\ published (view s') graph p /\ same_closure (view s) p
      end
  | None => False
  end.
Proof.
  destruct (total_publish graph s) as (r&s'&E). rewrite E.
  enough (exists P, touch P (view s) (view s') /\ match r with
      | Err _ => forall q, P q -> not_closure q
      | Ok _ => exists p, prepare graph = Ok p /\ published (view s') graph p /\ same_closure (view s) p
      end) as (P&Ht&Hr).
  { split_and!.
    - intros q m Hq. destruct (Ht q) as [->|[Hn _]]; [done|congruence].
    - intros w. by eapply stored_touch.
    - destruct r; [done|]. apply (touch_outside P); [done|]. intros HP. by apply Hr in HP. }
  unfold publish, mbind, M_bind, lift in E. destruct (prepare graph) as [p|e] eqn:Hp.
  - pose proof (commit_spec (view s) graph p (proj2 (stage_digits _ _ Hp)) s eq_refl) as Hc.
    cbn in E. rewrite E in Hc. destruct r as [a|e].
    + destruct Hc as (?&?&?). exists anywhere. split; [done|]. by exists p.
    + by exists not_closure.
  - injection E as <- <-. exists not_closure. split; [apply touch_refl|done].
Qed.

(** The content a replay must reproduce. *)
Definition same_content (g g' : WorkloadGraph) : Prop :=
  g'.(g_tree) = g.(g_tree) /\ g'.(g_launch) = g.(g_launch) /\ g'.(g_layers) = g.(g_layers).

(** The closure of a graph and its objects determine the graph's content. *)
Definition replayable (g : WorkloadGraph) : Prop :=
  NoDup (map fst g.(g_objects)) /\
  forall c, c.(closure_kind) = g.(g_kind) -> c.(closure_manifest_digest) = g.(g_manifest_digest) ->
    c.(closure_layers) = g.(g_layers) ->
    exists g', replay_graph c (list_to_map g.(g_objects)) = Ok g' /\ same_content g g'.

(** The workload that [load] finds after the publication of a graph. *)
Definition loaded (g : WorkloadGraph) (p : Publication) : LoadedWorkload := {|
  ld_source_kind := g.(g_kind); ld_closure_sha256 := sha256_bytes p.(pub_closure_bytes);
  ld_canonical_digest := canonical_digest g.(g_tree); ld_tree := g.(g_tree);
  ld_template := p.(pub_template); ld_launch := g.(g_launch) |}.

Lemma parse_digest_sha256 data : parse_digest ("sha256:" +:+ sha256_bytes data) = Ok (sha256_bytes data).
Proof.
  apply parse_digest_lower; [apply hex_digits_string|]. unfold zlen, sha256_bytes.
  by rewrite hex_length sha256_digest_length.
Qed.

Lemma object_records_length objects : forall index records,
  object_records index objects = Ok records -> length records = length objects.
Proof.
  induction objects as [|[r data] objects IH]; intros index records H'; [by injection H' as <-|].
  cbn [object_records] in H'. apply bind_Ok in H' as (limit&_&H').
  destruct (_ <? _); [done|]. apply bind_Ok in H' as (rest&Hrest&[= <-]). cbn. by erewrite IH.
Qed.

Lemma objects_in_records n objects : forall index records found,
  object_records index objects = Ok records -> Forall (object_present n) objects ->
  NoDup (map fst objects) -> (forall r, r ∈ map fst objects -> found !! r = None) ->
  objects_in n fs_root records found (list_to_map objects ∪ found).
Proof.
  induction objects as [|[r data] objects IH]; intros index records found Hrec Hall Hnd Hfree.
  { injection Hrec as <-. rewrite map_empty_union. constructor. }
  cbn [object_records] in Hrec. apply bind_Ok in Hrec as (limit&Hlim&Hrec).
  destruct (Z.ltb_spec limit (zlen data)); [done|]. apply bind_Ok in Hrec as (rest&Hrest&[= <-]).
  inversion Hall as [|? ? Ho Hos]; subst. inversion Hnd as [|? ? Hr Hnds]; subst.
  econstructor; cbn; [| |apply parse_digest_sha256| | | | |].
  - by destruct (role_limit r) as [l|]; [injection Hlim as ->|].
  - done.
  - apply Hfree. left.
  - exact Ho.
  - done.
  - done.
  - rewrite -insert_union_l insert_union_r; [|by apply not_elem_of_list_to_map_1].
    eapply IH; [exact Hrest|done..|]. intros x Hx. rewrite lookup_insert_ne; [by apply Hfree; right|].
    intros ->. done.
Qed.

Context `{!SerdeTrailing Closure}.

Lemma check_rederived_prepared graph p g' :
  prepare graph = Ok p -> same_content graph g' ->
  check_rederived p.(pub_closure) g' = Ok p.(pub_template).
Proof.
  intros Hp (Ht&Hl&Hy). unfold prepare in Hp. inv_ok Hp. subst p. unfold check_rederived.
  rewrite Ht Hl Hy. cbn.
  match goal with H : validate_overlay_compatibility _ _ = Ok _ |- _ => rewrite H end.
  cbn. rewrite !bool_decide_eq_true_2 // !Z.eqb_refl. cbn.
  match goal with H : template _ _ = Ok _ |- _ => rewrite H end. cbn.
  by rewrite bool_decide_eq_true_2.
Qed.

Lemma decode_prepared graph p :
  prepare graph = Ok p -> decode_closure p.(pub_closure_bytes) = Ok p.(pub_closure).
Proof.
  intros Hp. unfold prepare in Hp. inv_ok Hp. subst p. cbn.
  match goal with H : canonical_json _ = Ok _ |- _ => unfold canonical_json in H; inv_ok H; subst end.
  unfold decode_closure. erewrite from_slice_trailing; [|done]. cbn.
  by rewrite !bool_decide_eq_true_2.
Qed.

Lemma published_stored n graph p :
  prepare graph = Ok p -> replayable graph -> published n graph p ->
  stored n fs_root (loaded graph p).
Proof.
  intros Hp [Hnd Hreplay] (Hcb&Hobjs&Hd).
  pose proof (decode_prepared _ _ Hp) as Hdec.
  destruct (Hreplay p.(pub_closure)) as (g'&Hg&Hsame);
    try (unfold prepare in Hp; inv_ok Hp; by subst p).
  pose proof (check_rederived_prepared _ _ _ Hp Hsame) as Hck. destruct Hsame as (Ht&Hl&Hy).
  assert (Hrec : object_records 0 graph.(g_objects) = Ok p.(pub_closure).(closure_objects) /\
    zlen p.(pub_closure_bytes) <= MAX_CACHE_METADATA_BYTES /\
    zlen graph.(g_objects) <= MAX_RAW_OBJECTS /\
    p.(pub_closure).(closure_canonical_digest) = canonical_digest graph.(g_tree) /\
    p.(pub_tree_bytes) = encode graph.(g_tree) /\
    p.(pub_closure).(closure_kind) = graph.(g_kind) /\
    p.(pub_closure).(closure_launch) = graph.(g_launch)).
  { unfold prepare in Hp. inv_ok Hp. bool_facts. by subst p. }
  destruct Hrec as (Hrec&Hlen&Hmax&Edig&Etree&Ekind&Elaunch).
  exists p.(pub_closure_bytes), p.(pub_closure), (list_to_map graph.(g_objects)), g', p.(pub_template).
  rewrite Ht -Etree -Edig. split_and!; try done.
  - by rewrite /zlen (object_records_length _ _ _ Hrec).
  - rewrite -(map_union_empty (list_to_map _)). by eapply objects_in_records.
  - unfold loaded. by rewrite Edig Ekind Elaunch.
Qed.
End publish.
#[export] Hint Resolve total_publish : total.

(** A process that stops after a hundred calls leaves no closure. *)
Lemma publish_crash_safe_witness :
  match sample_publish (Some 100%nat) with
  | Some (Err _, s') => label_at (mem_tree s') ["store"; "raw"; "closure.json"] = None
  | _ => False
  end.
Proof.
  pose proof (@publish_crash_safe Mem sample_fs mem_view sample_laws toy_sha256 toy_sha256_laws
    image_decoders store_text spec_serde closure_serde lock_serde sample_graph
    (empty_store (Some 100%nat))) as Hsafe.
  change (publish sample_graph (empty_store (Some 100%nat))) with (sample_publish (Some 100%nat)) in Hsafe.
  pose proof sample_stops as Hstop.
  destruct (sample_publish (Some 100%nat)) as [[[a|e] s']|]; [discriminate Hstop| |discriminate Hstop].
  exact (proj2 (proj2 Hsafe)).
Defined.
