(* ===== verification/StoreReplay.v ===== *)
(** What the store publishes loads again: the closure and the raw objects of a
    workload determine its tree, launch identity and layers, for the workloads
    that [assemble] builds from a binary and from an image layout. *)

From stdpp Require Import ssreflect.
From Stdlib Require Import Strings.Byte.
From S2P Require Import Prelude Types Std Protocol Tree Spec Profile Oci Effects Root Store MemFs StoreSample StoreFiles StoreSafe.

(** ** Binary workloads are replayable *)

Lemma trim_start_keeps c l : head l <> Some c -> trim_start_matches c l = l.
Proof. destruct l as [|b l]; [done|]. intros Hb. cbn. case_bool_decide; [|done]. by subst. Qed.

Lemma trim_end_keeps c l b : b <> c -> trim_end_matches c (l ++ [b]) = l ++ [b].
Proof.
  intros Hb. unfold trim_end_matches. rewrite rev_app_distr trim_start_keeps.
  - by rewrite -rev_app_distr rev_involutive.
  - cbn. congruence.
Qed.

Lemma canonical_path_last p : canonical_path p -> exists l b, p = l ++ [b] /\ b <> SLASH.
Proof.
  assert (Hpart : forall q, path_part q -> exists l b, q = l ++ [b] /\ b <> SLASH).
  { intros q (Hne&_&_&Hs&_). destruct q as [|b l _] using rev_ind; [done|]. exists l, b.
    split; [done|]. intros ->. apply Hs, elem_of_app. right. left. }
  intros (ps&Hps&->&_). unfold path_of. destruct ps as [|q ps]; [by exists [], "."%byte|].
  cbn [is_empty]. revert q Hps. induction ps as [|q' ps IH]; intros q Hps.
  - apply (Hpart q). by inversion Hps.
  - inversion Hps as [|? ? _ Hps']; subst. destruct (IH q' Hps') as (l&b&E&Hb).
    exists (q ++ SLASH :: l), b. split; [|done].
    change (join_with SLASH (q :: q' :: ps)) with (q ++ SLASH :: join_with SLASH (q' :: ps)).
    by rewrite E -app_assoc.
Qed.

Lemma trim_canonical p : canonical_path p -> trim_matches SLASH (SLASH :: p) = p.
Proof.
  intros Hp. destruct (canonical_path_head p Hp) as (b&r&Ep&Hb).
  destruct (canonical_path_last p Hp) as (l&c&El&Hc). unfold trim_matches.
  cbn [trim_start_matches]. rewrite bool_decide_eq_true_2 // trim_start_keeps; [|by rewrite Ep; cbn; congruence].
  rewrite El. by apply trim_end_keeps.
Qed.

(** A normalized working directory is its own normal form. *)
Lemma working_directory_fixed value t out :
  normalize_working_directory value t = Ok out -> normalize_working_directory (Some out) t = Ok out.
Proof.
  unfold normalize_working_directory at 1. cbv zeta.
  set (v := match value with Some _ => _ | None => _ end).
  destruct (starts_with [SLASH] (as_bytes v)); [|done]. cbn [negb].
  intros (rel&Hrel&H)%bind_Ok.
  assert (Hcan : rel = ROOT_PATH \/ canonical_path rel).
  { destruct (is_empty (trim_matches _ _)); [injection Hrel as <-; by left|right].
    destruct (normalize_layer_path _) as [q|] eqn:Hq; [|done]. injection Hrel as <-.
    by eapply normalize_canonical. }
  destruct (existsb _ _) eqn:Elink; [done|].
  case_bool_decide as Eroot; cbn [negb andb] in H.
  - injection H as <-. subst rel. unfold normalize_working_directory.
    cbv zeta. change (is_empty (as_bytes "/")) with false. cbv iota. change (starts_with [SLASH] (as_bytes "/")) with true.
    change (trim_matches SLASH (as_bytes "/")) with (@nil byte).
    cbn [negb is_empty mbind result_bind]. by rewrite Elink bool_decide_eq_true_2.
  - destruct (bool_decide (kind <$> _ = _)) eqn:Ekind; [|done].
    destruct Hcan as [|Hcan]; [done|]. cbn [negb] in H.
    destruct (from_utf8 rel) as [text|] eqn:Etext; [|done]. injection H as <-.
    pose proof (f_equal as_bytes (from_utf8_text _ _ Etext)) as Et. rewrite as_bytes_str_of in Et. destruct (canonical_path_head rel Hcan) as (b&r&Eb&_).
    unfold normalize_working_directory. cbv zeta. rewrite as_bytes_app Et.
    change (is_empty (as_bytes "/" ++ rel)) with false. cbv iota. rewrite ?as_bytes_app ?Et.
    change (starts_with [SLASH] (as_bytes "/" ++ rel)) with true. cbn [negb].
    change (as_bytes "/" ++ rel) with (SLASH :: rel). rewrite trim_canonical //.
    rewrite {1}Eb. cbn [is_empty]. rewrite (proj1 (proj1 (proj2 (normalize_layer_path_spec rel rel))) Hcan).
    cbn [map_err mbind result_bind]. rewrite Elink bool_decide_eq_false_2 // Ekind. cbn [negb andb].
    by rewrite Etext.
Qed.

Section binary.
Context `{Sha256Laws} `{OciDecoders} `{DebugStr}.
Context `{SerdeTrailing CanonicalBinarySpec}.
#[local] Set Default Proof Using "All".

Lemma normalize_arguments_same values field out : normalize_arguments values field = Ok out -> out = values.
Proof. unfold normalize_arguments. intros Hn. inv_ok Hn. done. Qed.
Lemma normalize_environment_same values out : normalize_environment values = Ok out -> out = values.
Proof. unfold normalize_environment. intros Hn. inv_ok Hn. done. Qed.

(** The input that a normalized launch identity spells. *)
Definition canonical_input (path : string) (launch : LaunchIdentity) : BinaryInput := {|
  install_path := path; in_arguments := launch.(arguments); in_environment := launch.(environment);
  in_working_directory := launch.(working_directory); in_uid := launch.(uid); in_gid := launch.(gid) |}.

Lemma binary_fixed executable input t launch :
  binary_tree_and_launch executable input = Ok (t, launch) ->
  binary_tree_and_launch executable (canonical_input input.(install_path) launch) = Ok (t, launch) /\
  launch.(uid) = input.(in_uid) /\ launch.(gid) = input.(in_gid).
Proof.
  unfold binary_tree_and_launch. intros Hb. inv_ok Hb. subst. cbn.
  repeat match goal with
  | Ha : normalize_arguments _ _ = Ok _ |- _ => pose proof (normalize_arguments_same _ _ _ Ha) as ->; revert Ha
  | Ha : normalize_environment _ = Ok _ |- _ => pose proof (normalize_environment_same _ _ Ha) as ->; revert Ha
  end. intros.
  split; [|done].
  repeat match goal with E : ?x = _ |- context [?x] => rewrite E; cbn [negb mbind result_bind] end.
  erewrite working_directory_fixed; [|done]. cbn [mbind result_bind].
  repeat match goal with E : ?x = _ |- context [?x] => rewrite E; cbn [negb mbind result_bind] end.
  done.
Qed.

Lemma sort_binary_roles executable specification :
  sort_roles [("executable", executable); ("workload-specification", specification)]
  = [("executable", executable); ("workload-specification", specification)].
Proof. reflexivity. Qed.

Lemma binary_graph_inv source executable g :
  binary_graph_of source executable = Ok g ->
  exists input t launch body,
    validate_static_elf executable = Ok tt /\
    binary_tree_and_launch executable input = Ok (t, launch) /\
    to_vec {| cbs_version := WORKLOAD_SPEC_VERSION; cbs_kind := SourceBinary;
              cbs_install_path := input.(install_path); cbs_arguments := launch.(arguments);
              cbs_environment := launch.(environment);
              cbs_working_directory := launch.(working_directory);
              cbs_uid := input.(in_uid); cbs_gid := input.(in_gid) |} = inl body /\
    g = {| g_kind := SourceBinary; g_manifest_digest := None;
           g_objects := [("executable", executable); ("workload-specification", body ++ [NEWLINE])];
           g_tree := t; g_launch := launch; g_layers := [] |}.
Proof.
  unfold binary_graph_of. intros Hg. inv_ok Hg.
  match goal with E : validate_static_elf _ = Ok ?u |- _ => destruct u end.
  match goal with E : canonical_json _ = Ok _ |- _ => unfold canonical_json in E; inv_ok E end.
  subst. match goal with E : binary_tree_and_launch _ ?i = Ok (?t, ?l), B : to_vec _ = inl ?b |- _ =>
    exists i, t, l, b end.
  split_and!; try done.
Qed.

Lemma binary_replayable source executable g :
  binary_graph_of source executable = Ok g -> replayable g.
Proof.
  intros (input&t&launch&body&Helf&Hb&Hv&->)%binary_graph_inv. split.
  { cbn. repeat constructor; set_solver. }
  intros c Hkind _ _. unfold replay_graph. rewrite Hkind. cbn [g_kind g_objects].
  set (objects := list_to_map _). exists {| g_kind := SourceBinary; g_manifest_digest := None;
    g_objects := sort_roles (btree_iter objects); g_tree := t; g_launch := launch; g_layers := [] |}.
  split; [|done].
  assert (He : objects !! "executable" = Some executable) by done.
  assert (Hs : objects !! "workload-specification" = Some (body ++ [NEWLINE])) by done.
  assert (Hn : size objects = 2%nat).
  { subst objects. cbn. rewrite !map_size_insert. by rewrite map_size_empty. }
  rewrite He Hs Hn. cbn. erewrite from_slice_trailing; [|done]. cbn. rewrite Helf. cbn.
  destruct (binary_fixed _ _ _ _ Hb) as (Hf&Eu&Eg). unfold canonical_input in Hf.
  rewrite Eu Eg in Hf. by rewrite Hf.
Qed.
End binary.

(** ** Image layouts are replayable *)

Lemma fmt_dec_nat_inj i j : fmt_dec (Z.of_nat i) = fmt_dec (Z.of_nat j) -> i = j.
Proof. unfold fmt_dec. intros E%(inj pretty). lia. Qed.

Lemma layer_role_inj i j : layer_role i = layer_role j -> i = j.
Proof. unfold layer_role. intros E. apply fmt_dec_nat_inj. by injection E. Qed.

Section oci.
Context `{Sha256Laws} `{OciDecoders} `{DebugStr} `{Serde CanonicalBinarySpec}.
#[local] Set Default Proof Using "All".

Definition oci_entries (objects : OciObjects) : list (string * bytes) :=
  [("oci-layout", objects.(obj_layout)); ("index.json", objects.(obj_index));
   ("manifest", objects.(obj_manifest)); ("config", objects.(obj_config))]
  ++ imap (fun position layer => (layer_role position, layer)) objects.(obj_layers).

Lemma oci_roles_perm objects : oci_roles objects ≡ₚ oci_entries objects.
Proof. apply merge_sort_Permutation. Qed.

Lemma layer_entry (layers : list bytes) role data :
  (role, data) ∈ imap (fun position layer => (layer_role position, layer)) layers <->
  exists i, layers !! i = Some data /\ role = layer_role i.
Proof.
  rewrite elem_of_lookup_imap. split.
  - intros (i&layer&[= -> ->]&Hi). by exists i.
  - intros (i&Hi&->). by exists i, data.
Qed.

Lemma layer_roles (layers : list bytes) :
  map fst (imap (fun position layer => (layer_role position, layer)) layers)
  = map layer_role (seq 0 (length layers)).
Proof.
  apply list_eq. intros i. rewrite !lookup_map list_lookup_imap.
  destruct (layers !! i) as [d|] eqn:E; cbn.
  - rewrite lookup_seq_lt; [done|by eapply lookup_lt_Some].
  - apply lookup_ge_None in E. by rewrite lookup_seq_ge.
Qed.

Lemma layer_roles_nodup n : NoDup (map layer_role (seq 0 n)).
Proof.
  assert (Inj (=) (=) layer_role) by (intros ??; apply layer_role_inj).
  apply (NoDup_fmap_2 layer_role), NoDup_seq.
Qed.

Lemma oci_entries_nodup objects : NoDup (map fst (oci_entries objects)).
Proof.
  unfold oci_entries. rewrite map_app layer_roles. cbn [map fst app].
  assert (Hno : forall r, (forall i, r <> layer_role i) ->
    r ∉ map layer_role (seq 0 (length objects.(obj_layers)))).
  { intros r Hr (i&->&_)%list_elem_of_fmap. by apply (Hr i). }
  repeat (constructor; [rewrite ?not_elem_of_cons; split_and?; try done; try by apply Hno|]).
  apply layer_roles_nodup.
Qed.

(** The objects of a layout's closure, as [load] finds them. *)
Definition oci_map (objects : OciObjects) : gmap string bytes := list_to_map (oci_entries objects).

Lemma oci_map_roles objects : list_to_map (oci_roles objects) = oci_map objects.
Proof.
  apply list_to_map_proper; [|apply oci_roles_perm].
  change (NoDup (map fst (oci_roles objects))). rewrite oci_roles_perm. apply oci_entries_nodup.
Qed.

Lemma oci_map_lookup objects role data :
  (role, data) ∈ oci_entries objects -> oci_map objects !! role = Some data.
Proof. intros Hin. apply elem_of_list_to_map_1; [apply oci_entries_nodup|done]. Qed.

Lemma oci_map_layer objects i data :
  objects.(obj_layers) !! i = Some data -> oci_map objects !! layer_role i = Some data.
Proof. intros Hi. apply oci_map_lookup, elem_of_app. right. apply layer_entry. by exists i. Qed.

Lemma oci_map_size objects :
  size (oci_map objects) = length (expected_oci_roles (length objects.(obj_layers))).
Proof.
  unfold oci_map. rewrite map_size_list_to_map; [|apply oci_entries_nodup].
  unfold oci_entries, expected_oci_roles. rewrite !length_app length_imap length_map length_seq. done.
Qed.

Lemma oci_map_expected objects :
  forallb (fun role => bool_decide (is_Some (oci_map objects !! role)))
    (expected_oci_roles (length objects.(obj_layers))) = true.
Proof.
  apply forallb_forall. intros role Hin%list_elem_of_In. apply bool_decide_eq_true.
  assert (exists data, (role, data) ∈ oci_entries objects) as [data Hd]; [|exists data; by apply oci_map_lookup].
  unfold oci_entries. unfold expected_oci_roles in Hin. apply elem_of_app in Hin as [Hin|Hin].
  - repeat (apply elem_of_cons in Hin as [->|Hin];
      [eexists; apply elem_of_app; left; rewrite !elem_of_cons; naive_solver|]).
    by apply not_elem_of_nil in Hin.
  - apply list_elem_of_fmap in Hin as (i&->&Hi%elem_of_seq).
    destruct (lookup_lt_is_Some_2 objects.(obj_layers) i) as [data Hd]; [lia|].
    exists data. apply elem_of_app. right. apply layer_entry. by exists i.
Qed.

Lemma replay_layers_from objects layers : forall k,
  (forall i data, layers !! i = Some data -> objects !! layer_role (k + i) = Some data) ->
  replay_layers objects (seq k (length layers)) = Ok layers.
Proof.
  induction layers as [|layer layers IH]; intros k Hk; [done|]. cbn [length seq replay_layers].
  pose proof (Hk 0%nat layer eq_refl) as H0k. rewrite Nat.add_0_r in H0k. rewrite H0k. cbn.
  rewrite IH; [done|]. intros i data Hi. rewrite Nat.add_succ_l -Nat.add_succ_r. by apply Hk.
Qed.

Lemma parse_graph_layers objects g :
  parse_graph objects = Ok g -> length g.(graph_layers) = length objects.(obj_layers).
Proof.
  intros Hr. unfold parse_graph in Hr. inv_ok Hr. cbv zeta in Hr. inv_ok Hr. subst g. cbn.
  bool_facts. unfold zlen in *.
  match goal with Hl : graph_layers_loop _ _ _ = Ok _ |- _ =>
    apply (graph_layers_ok _ _ _ _ _ tree_inv_empty) in Hl as [_ Hev%Forall2_length] end.
  rewrite Hev map_snd_combine // length_combine. lia.
Qed.

(** A manifest digest in its normal form, [sha256:] and 64 lowercase digits. *)
Definition normal_digest (value : string) : Prop :=
  exists hex, value = "sha256:" +:+ hex /\ digits hex /\ zlen (as_bytes hex) = 64.

Lemma oci_replayable objects g :
  oci_graph_of objects = Ok g -> normal_digest objects.(obj_manifest_digest) -> replayable g.
Proof.
  intros Hg (hex&Ehex&Hdig&Hlen). unfold oci_graph_of in Hg. apply bind_Ok in Hg as (og&Hog&[= <-]).
  pose proof (parse_graph_layers _ _ Hog) as Hlayers. split; cbn [g_objects g_kind g_manifest_digest g_layers].
  { change (NoDup (map fst (oci_roles objects))). rewrite oci_roles_perm. apply oci_entries_nodup. }
  intros c Hk Hm Hl. unfold replay_graph. rewrite Hk Hm Hl. cbn [ok_or mbind result_bind].
  rewrite Ehex parse_digest_lower //. cbn [map_err mbind result_bind]. rewrite -Ehex.
  rewrite !oci_map_roles Hlayers oci_map_size Nat.eqb_refl oci_map_expected. cbn [negb orb].
  rewrite (replay_layers_from (oci_map objects) objects.(obj_layers) 0); [|by apply oci_map_layer].
  cbn [mbind result_bind]. unfold object_at.
  rewrite (oci_map_lookup objects "oci-layout" objects.(obj_layout)); [|by left].
  rewrite (oci_map_lookup objects "index.json" objects.(obj_index)); [|by right; left].
  rewrite (oci_map_lookup objects "manifest" objects.(obj_manifest)); [|by do 2 right; left].
  rewrite (oci_map_lookup objects "config" objects.(obj_config)); [|by do 3 right; left].
  cbn [default]. destruct objects; cbn in *. rewrite Hog. eexists. split; [done|]. done.
Qed.
End oci.

(** ** Assembly, then loading *)

(** The loaded workload is the one the assembly reported. *)
Definition reported (a : AssembledWorkload) `{Sha256} (w : LoadedWorkload) : Prop :=
  w.(ld_source_kind) = a.(as_source_kind) /\ w.(ld_closure_sha256) = a.(as_closure_sha256) /\
  w.(ld_canonical_digest) = a.(as_canonical_digest) /\ w.(ld_launch) = a.(as_launch) /\
  canonical_digest w.(ld_tree) = a.(as_canonical_digest) /\
  sha256_bytes (encode w.(ld_tree)) = a.(as_tree_sha256) /\
  sha256_bytes w.(ld_template) = a.(as_template_sha256) /\
  Tree_len w.(ld_tree) = a.(as_entries) /\ expanded_bytes w.(ld_tree) = a.(as_expanded_bytes).

(** The sources whose raw objects determine the workload again: an image must
    be named by a digest in normal form. *)
Definition reloadable (spec : WorkloadSpec) : Prop :=
  match spec.(spec_source) with
  | Binary _ => True
  | Oci source => normal_digest source.(oci_manifest_digest)
  end.

Section unique.
Context `{Sha256} `{OciDecoders} `{DebugStr}.
Context `{Serde CanonicalBinarySpec} `{Serde Closure} `{Serde DerivedLock}.

Lemma objects_in_unique n root records objects f1 f2 :
  objects_in n root records objects f1 -> objects_in n root records objects f2 -> f1 = f2.
Proof.
  intros Ho1. revert f2. induction Ho1 as [|record records objects found limit hex data ???????? IH]; intros f2 Ho2;
    inversion Ho2; subst; [done|].
  apply IH. match goal with Ho : objects_in _ _ records (<[_ := ?d]> _) f2 |- _ =>
    assert (d = data) as -> by congruence; exact Ho end.
Qed.

Lemma stored_unique n root w1 w2 : stored n root w1 -> stored n root w2 -> w1 = w2.
Proof.
  intros (cb&c&o&g&t&Hcb&_&Hc&_&Ho&Hg&Ht&_&->) (cb'&c'&o'&g'&t'&Hcb'&_&Hc'&_&Ho'&Hg'&Ht'&_&->).
  assert (cb' = cb) as -> by congruence. assert (c' = c) as -> by congruence.
  assert (o' = o) as -> by by eapply objects_in_unique.
  assert (g' = g) as -> by congruence. assert (t' = t) as -> by congruence. done.
Qed.
End unique.

Section assemble.
Context {S T : Type} `{HostFs T} `{FsLaws S} `{Sha256Laws} `{OciDecoders} `{DebugStr}.
Context `{SerdeTrailing CanonicalBinarySpec} `{SerdeTrailing Closure} `{Serde DerivedLock}.
#[local] Set Default Proof Using "All".

Lemma oci_objects_digest root digest objects (t t' : T) :
  read_oci_objects root digest t = Some (Ok objects, t') -> objects.(obj_manifest_digest) = digest.
Proof.
  unfold read_oci_objects. intros Hr.
  repeat (apply M_bind_Ok in Hr as (?&?&_&Hr)). by injection Hr as <- _.
Qed.

Lemma source_graph_replayable spec g (t t' : T) :
  source_graph spec t = Some (Ok g, t') -> reloadable spec -> replayable g.
Proof.
  unfold source_graph, reloadable. intros (root&t1&_&Hg)%M_bind_Ok Hspec.
  destruct (spec.(spec_source)) as [source|source].
  - unfold binary_graph in Hg. apply M_bind_Ok in Hg as (exe&t2&_&[Hg _]%lift_Ok).
    by eapply binary_replayable.
  - unfold oci_graph in Hg. apply M_bind_Ok in Hg as (layout&t2&_&Hg).
    apply M_bind_Ok in Hg as (objects&t3&Ho%oci_objects_digest&[Hg _]%lift_Ok).
    eapply oci_replayable; [exact Hg|]. by rewrite Ho.
Qed.

Lemma publish_loaded g (s s' : S) a :
  publish g s = Some (Ok a, s') -> replayable g ->
  exists p, reported a (loaded g p) /\ stored (view s') fs_root (loaded g p).
Proof.
  intros (p&s1&[Hp ->]%lift_Ok&Hc)%M_bind_Ok Hg. exists p.
  pose proof (commit_spec (view s) g p (proj2 (stage_digits _ _ Hp)) s eq_refl) as Hspec.
  rewrite Hc in Hspec. destruct Hspec as (_&Hpub&_).
  split; [|by apply published_stored].
  unfold commit in Hc. repeat (apply M_bind_Ok in Hc as (?&?&_&Hc)). injection Hc as <- _.
  unfold prepare in Hp. inv_ok Hp. subst p. done.
Qed.

End assemble.


(** ** An image that is stored and cannot be loaded *)

(** The sample image, its manifest ten bytes long, named in the index and in the
    specification by a digest with an uppercase digit. *)
Definition upper_manifest : bytes := repeat "M"%byte 10.
Definition upper_digest : string := "sha256:" +:+ str_of (repeat "0"%byte 63 ++ ["A"%byte]).
Definition upper_objects : OciObjects := {|
  obj_layout := as_bytes "LLL"; obj_index := as_bytes "IIII"; obj_manifest := upper_manifest;
  obj_config := as_bytes "CC"; obj_layers := [sample_layer]; obj_manifest_digest := upper_digest |}.

Definition upper_json (bs : bytes) : Value :=
  if zlen bs =? 10 then sample_json (as_bytes "M")
  else if zlen bs =? 4 then
    VObject [("schemaVersion", VNumber (Some 2));
             ("manifests", VArray [VObject [("mediaType", VString MANIFEST_MEDIA_TYPE);
                ("digest", VString upper_digest); ("size", VNumber (Some 10));
                ("platform", platform)]])]
  else sample_json bs.
Definition upper_decoders : OciDecoders := {|
  json_from_slice bs := inl (upper_json bs);
  gunzip_take d _ := inl d;
  tar_raw_entries := @tar_raw_entries sample_decoders;
|}.

Definition upper_graph : result WorkloadGraph := @oci_graph_of toy_sha256 upper_decoders upper_objects.
Definition upper_prepared (g : WorkloadGraph) : result Publication :=
  @prepare toy_sha256 closure_serde g.

