(* ===== verification/RunFiles.v ===== *)
(** The files of a run: the bounded readers, the digests and the writers that
    [run.rs] uses on the run directory.

    Paths are absolute and canonical, as [fs::canonicalize] returns them: the
    components beneath the root of the tree.  [RunFs] adds to [Root.HostFs] the
    calls of [std::fs] that name a whole path. *)

From stdpp Require Import ssreflect.
From Stdlib Require Import Strings.Byte.
From S2P Require Import Prelude Types Std Protocol Tree Fixture Effects Vm Identity Root.

(** ** Paths *)

Definition parent_of (path : Handle) : Handle := removelast path.
Definition name_of (path : Handle) : string := List.last path "".
Definition join (directory : Handle) (name : string) : Handle :=
  directory ++ map str_of (split_on SLASH (as_bytes name)).
Definition display (path : Handle) : string :=
  "/" +:+ str_of (join_with SLASH (map as_bytes path)).

(** [Path::to_str], as bytes. *)
Definition to_str (path : Handle) : option bytes :=
  match from_utf8 (as_bytes (display path)) with
  | inl text => Some (as_bytes text)
  | inr _ => None
  end.

(** ** The calls *)

Class RunFs (S : Type) `{HostFs S} := {
  (** [fs::read] *)
  rf_read : Handle -> S -> (bytes + io_error) * S;
  (** [OpenOptions] with [write], [create], [truncate] and a mode, then [write_all] *)
  rf_put : Handle -> Z -> bytes -> S -> option io_error * S;
  rf_open : Handle -> S -> (Handle + io_error) * S;          (** [File::open] *)
  rf_create_dir_all : Handle -> S -> option io_error * S;
  rf_create_dir : Handle -> Z -> S -> option io_error * S;   (** [DirBuilder] with a mode *)
  rf_lstat : Handle -> S -> (Stat + io_error) * S;           (** [fs::symlink_metadata] *)
  rf_chmod : Handle -> Z -> S -> option io_error * S;        (** [fs::set_permissions] *)
  rf_exists : Handle -> S -> bool * S;                       (** [Path::exists] *)
  rf_canonicalize : Handle -> S -> (Handle + io_error) * S;
  rf_image_counter : S -> Z * S;                             (** [IMAGE_TEMP_COUNTER.fetch_add(1)] *)
  rf_runtime_counter : S -> Z * S;                           (** [RUNTIME_TEMP_COUNTER.fetch_add(1)] *)
  rf_remove_dir_all : Handle -> S -> option io_error * S;
  rf_append : Handle -> bytes -> S -> option io_error * S;   (** [write_all] of a [File] *)
  rf_sync : Handle -> S -> option io_error * S;              (** [File::sync_all] *)
  rf_size : Handle -> S -> (Z + io_error) * S;               (** [fs::metadata] and its [len] *)
  (** [seek] of a [File] to an offset, and what the reads after it return *)
  rf_read_from : Handle -> Z -> S -> (list (bytes + io_error) + io_error) * S;
  (** [open_directory_without_symlinks]: the directory as its reader sees it *)
  rf_fixture_directory : Handle -> S -> (DirectoryHandle + io_error) * S;
}.

(** [serde_json::to_vec_pretty]. *)
Class SerdePretty (T : Type) := { to_vec_pretty : T -> bytes + string }.

Definition MAX_SEMANTIC_ARTIFACT_BYTES : Z := 8 * 1024 * 1024.
Definition MAX_MANIFEST_BYTES : Z := 1024 * 1024.
Definition MAX_DIAGNOSTIC_ARTIFACT_BYTES : Z := 16 * 1024 * 1024.
Definition MAX_REPLAY_LOG_BYTES : Z := 1024 * 1024 * 1024.
Definition MAX_WORKLOAD_LOCK_BYTES : Z := 1024 * 1024.

Section files.
Context {S : Type} `{RunFs S} `{Sha256}.

(** [File::open] on a path, without following a final link. *)
Definition open_path (path : Handle) : M S Handle :=
  r ← call (fs_open_file (parent_of path) (name_of path)); or_errno r.

Definition or_other {A} (r : A + io_error) : M S A :=
  match r with inl a => mret a | inr e => throw e end.

(** [vm::sha256_file]. *)
Fixpoint hash_pieces (hashed : bytes) (pieces : list (bytes + io_error)) : result bytes :=
  match pieces with
  | [] => Ok hashed
  | inr e :: _ => Err e
  | inl piece :: pieces => hash_pieces (hashed ++ piece) pieces
  end.
Definition sha256_file (path : Handle) : M S string :=
  opened ← call (rf_open path);
  fd ← or_other opened;
  pieces ← call (fs_read fd);
  hashed ← lift (hash_pieces [] pieces);
  mret (sha256_bytes hashed).

Definition read_whole (path : Handle) : M S bytes := r ← call (rf_read path); or_other r.

Definition not_regular (path : Handle) : io_error :=
  invalid_data ("replay input is not a regular file: " +:+ display path).
Definition over_limit (path : Handle) (limit : Z) : io_error :=
  invalid_data ("replay input exceeds " +:+ fmt_dec limit +:+ " byte limit: " +:+ display path).

Definition open_regular_file (path : Handle) (limit : Z) : M S Handle :=
  fd ← open_path path;
  metadata ← fstat fd;
  _ ← fail_if (negb (bool_decide (metadata.(st_type) = RegularNode))) (not_regular path);
  _ ← fail_if (limit <? metadata.(st_size)) (over_limit path limit);
  mret fd.

Fixpoint digest_loop (path : Handle) (limit total : Z) (hashed : bytes)
    (pieces : list (bytes + io_error)) : result bytes :=
  match pieces with
  | [] => Ok hashed
  | inr e :: _ => Err e
  | inl piece :: pieces =>
      if U64_MAX <? total + zlen piece then Err (invalid_data "replay input size overflowed")
      else if limit <? total + zlen piece then Err (over_limit path limit)
      else digest_loop path limit (total + zlen piece) (hashed ++ piece) pieces
  end.

Definition sha256_regular_file (path : Handle) (limit : Z) : M S string :=
  fd ← open_regular_file path limit;
  pieces ← call (fs_read fd);
  hashed ← lift (digest_loop path limit 0 [] pieces);
  mret (sha256_bytes hashed).

Definition read_artifact (path : Handle) (limit : Z) : M S bytes :=
  fd ← open_regular_file path limit;
  pieces ← call (fs_read fd);
  data ← lift (read_take (limit + 1) [] pieces);
  if limit <? zlen data then
    throw (invalid_data ("artifact exceeds " +:+ fmt_dec limit +:+ " byte validation limit: "
                         +:+ display path))
  else mret data.

Definition read_json {T} `{Serde T} (path : Handle) (limit : Z) : M S T :=
  data ← read_artifact path limit;
  lift (match from_slice data with
        | inl value => Ok value
        | inr e => Err (json_error "malformed recorded artifact" e)
        end).

(** [io::copy] of [take(limit)] into [out]: what was read before an error is
    written. *)
Fixpoint copy_loop (out : Handle) (limit copied : Z) (pieces : list (bytes + io_error)) : M S Z :=
  if copied =? limit then mret copied
  else
    match pieces with
    | [] => mret copied
    | inr e :: pieces =>
        if bool_decide (e.(error_kind) = Interrupted) then copy_loop out limit copied pieces
        else throw e
    | inl piece :: pieces =>
        let piece := take (Z.to_nat (limit - copied)) piece in
        written ← call (rf_append out piece);
        _ ← or_io written;
        copy_loop out limit (copied + zlen piece) pieces
    end.

Definition copy_regular_file (source destination : Handle) (limit : Z) : M S unit :=
  fd ← open_regular_file source limit;
  created ← call (fs_create_excl (parent_of destination) (name_of destination) 438);
  out ← or_errno created;
  pieces ← call (fs_read fd);
  copied ← copy_loop out (limit + 1) 0 pieces;
  _ ← fail_if (limit <? copied) (over_limit source limit);
  synced ← call (rf_sync out);
  or_io synced.

Definition json_bytes {T} `{SerdePretty T} (value : T) : result bytes :=
  match to_vec_pretty value with
  | inl body => Ok (body ++ [NEWLINE])
  | inr e => Err (IoError Other e)
  end.

Definition write_private (path : Handle) (data : bytes) : M S unit :=
  r ← call (rf_put path 384 data); or_io r.

Definition write_private_json {T} `{SerdePretty T} (path : Handle) (value : T) : M S unit :=
  data ← lift (json_bytes value); write_private path data.

Definition exceeds_replay_limit (what : string) (size limit : Z) : io_error :=
  invalid_data (what +:+ " is " +:+ fmt_dec size +:+ " bytes, which exceeds the "
    +:+ fmt_dec limit +:+ "-byte replay limit").

Definition write_private_bounded_json {T} `{SerdePretty T} (path : Handle) (value : T)
    (limit : Z) (what : string) : M S unit :=
  data ← lift (json_bytes value);
  _ ← fail_if (limit <? zlen data) (exceeds_replay_limit what (zlen data) limit);
  write_private path data.
End files.

(** ** What the calls do *)

(** A file a truncating open may replace. *)
Definition replaceable (o : option Node) : bool :=
  match o with None | Some (NFile _ _ _) => true | _ => false end.

Class RunFsLaws (S : Type) `{FsLaws S} `{!RunFs S} := {
  rf_read_law path s r s' : rf_read path s = (r, s') ->
    view s' = view s /\
    (node_at (view s) path <> Some NLink -> forall data, r = inl data -> file_at (view s) path = Some data) /\
    (reliable s -> reliable s' /\ forall data, file_at (view s) path = Some data -> r = inl data);
  rf_put_law h c mode data s o s' : rf_put (h ++ [c]) mode data s = (o, s') ->
    node_at (view s) (h ++ [c]) <> Some NLink ->
    ((is_dir (node_at (view s) h) = true /\ replaceable (node_at (view s) (h ++ [c])) = true /\
      exists owner mode written,
        view s' = add_entry (view s) h c (NFile owner mode written) /\ (o = None -> written = data)) \/
     (view s' = view s /\ o <> None)) /\
    (reliable s -> reliable s' /\
       (is_dir (node_at (view s) h) = true -> replaceable (node_at (view s) (h ++ [c])) = true -> o = None));
}.

Lemma parent_of_snoc (h : Handle) c : parent_of (h ++ [c]) = h.
Proof. apply removelast_last. Qed.
Lemma name_of_snoc (h : Handle) c : name_of (h ++ [c]) = c.
Proof. apply List.last_last. Qed.

Section specs.
Context {S : Type} `{RunFsLaws S} `{Sha256} `{DebugStr}.
#[local] Set Default Proof Using "All".

Lemma open_path_reads n path :
  path <> [] ->
  reads n (open_path path) (fun fd => fd = path /\ exists m, node_at n path = Some m).
Proof.
  intros Hne. destruct path as [|c h _] using rev_ind; [done|]. unfold open_path.
  rewrite parent_of_snoc name_of_snoc.
  eapply reads_bind with (Q := fun r => forall fd, r = inl fd ->
    fd = h ++ [c] /\ exists m, node_at n (h ++ [c]) = Some m).
  - apply (reads_call n _ (open_file_does n h c)).
    + intros s r s' E <-. by eapply open_file_law.
    + intros r n' (->&Hr). split; [done|]. intros fd ->.
      destruct (node_at n (h ++ [c])) as [m|] eqn:E; [|done]. destruct m; simplify_eq; eauto.
    + done.
  - intros [fd|e] Hr; [by apply reads_ret, Hr|apply reads_throw].
Qed.

Lemma open_path_succeeds n path owner mode data :
  path <> [] -> node_at n path = Some (NFile owner mode data) -> succeeds n (open_path path) path.
Proof.
  intros Hne Hf. destruct path as [|c h _] using rev_ind; [done|]. unfold open_path.
  rewrite parent_of_snoc name_of_snoc.
  eapply succeeds_bind with (a := inl (h ++ [c])); [|apply succeeds_ret].
  apply (succeeds_call n _ (open_file_does n h c)).
  - intros s r s' E <-. by eapply open_file_law.
  - intros r n' (->&Hr). by rewrite Hf in Hr.
Qed.

Lemma open_regular_file_reads n path limit :
  path <> [] ->
  reads n (open_regular_file path limit) (fun fd => fd = path /\ exists owner mode data,
    node_at n path = Some (NFile owner mode data) /\ zlen data <= limit).
Proof.
  intros Hne. unfold open_regular_file. eapply reads_bind; [by apply open_path_reads|].
  intros fd (->&m&Hm). eapply reads_bind; [by apply fstat_reads|]. intros st ->.
  eapply reads_bind; [apply reads_fail_if|]. intros [] Ht%negb_false_iff%bool_decide_eq_true.
  destruct m as [owner mode data| | |]; try done. cbn.
  eapply reads_bind; [apply reads_fail_if|]. intros [] Hl.
  apply reads_ret. split; [done|]. apply Z.ltb_ge in Hl. by exists owner, mode, data.
Qed.

Lemma open_regular_file_succeeds n path limit owner mode data :
  path <> [] -> node_at n path = Some (NFile owner mode data) -> zlen data <= limit ->
  succeeds n (open_regular_file path limit) path.
Proof.
  intros Hne Hf Hl. unfold open_regular_file.
  eapply succeeds_bind; [by eapply open_path_succeeds|].
  eapply succeeds_bind; [by eapply fstat_succeeds|].
  eapply succeeds_bind; [by apply succeeds_fail_if|].
  eapply succeeds_bind; [by apply succeeds_fail_if, Z.ltb_ge|]. apply succeeds_ret.
Qed.

(** Reading a whole file, what is done with the pieces apart. *)
Lemma pieces_reads {A} n fd owner mode data (k : list (bytes + io_error) -> M S A) Q :
  node_at n fd = Some (NFile owner mode data) ->
  (forall ps, ((forall e, inr e ∈ ps -> e.(error_kind) = Interrupted) -> pieces_of ps = data) -> reads n (k ps) Q) ->
  reads n (pieces ← call (fs_read fd); k pieces) Q.
Proof.
  intros Hf Hk s Hs. unfold call, mbind, M_bind. destruct (fs_read fd s) as [ps s'] eqn:E.
  destruct (read_law _ _ _ _ E) as [[Hv Hd] _]. rewrite Hs in Hv, Hd.
  destruct (Hd _ _ _ Hf) as [_ Hwhole]. by apply (Hk ps Hwhole s').
Qed.

Lemma pieces_succeeds {A} n fd owner mode data (k : list (bytes + io_error) -> M S A) a :
  node_at n fd = Some (NFile owner mode data) ->
  (forall ps, (forall e, inr e ∉ ps) -> pieces_of ps = data -> succeeds n (k ps) a) ->
  succeeds n (pieces ← call (fs_read fd); k pieces) a.
Proof.
  intros Hf Hk s Hr Hs. unfold call, mbind, M_bind. destruct (fs_read fd s) as [ps s'] eqn:E.
  destruct (read_law _ _ _ _ E) as [[Hv Hd] Hrel]. rewrite Hs in Hv, Hd.
  destruct (Hd _ _ _ Hf) as [_ Hwhole]. destruct (Hrel Hr) as [Hr' Hno].
  apply (Hk ps Hno); [|done..]. apply Hwhole. by intros e He%Hno.
Qed.
Lemma digest_loop_spec path limit pieces : forall total hashed data,
  digest_loop path limit total hashed pieces = Ok data ->
  data = hashed ++ pieces_of pieces /\ forall e, inr e ∉ pieces.
Proof.
  induction pieces as [|[piece|e] pieces IH]; intros total hashed data; cbn [digest_loop]; [| |done].
  - intros [= <-]. rewrite app_nil_r. split; [done|]. by intros ? ?%elem_of_nil.
  - destruct (U64_MAX <? _); [done|]. destruct (limit <? _); [done|]. intros [-> Hno]%IH. split.
    + by rewrite (pieces_of_cons (inl piece)) /= app_nil_r app_assoc.
    + intros e [|]%elem_of_cons; [done|]. by eapply Hno.
Qed.

Lemma digest_loop_whole path limit pieces : forall total hashed,
  total + zlen (pieces_of pieces) <= limit -> limit <= U64_MAX -> (forall e, inr e ∉ pieces) ->
  digest_loop path limit total hashed pieces = Ok (hashed ++ pieces_of pieces).
Proof.
  induction pieces as [|[piece|e] pieces IH]; intros total hashed Hle Hmax Hno; cbn [digest_loop].
  - by rewrite app_nil_r.
  - rewrite (pieces_of_cons (inl piece)) /= app_nil_r in Hle |- *. rewrite zlen_app in Hle.
    pose proof (zlen_nonneg (pieces_of pieces)). rewrite !(proj2 (Z.ltb_ge _ _)); [|lia..].
    rewrite IH; [by rewrite app_assoc|lia|done|]. intros e He. apply (Hno e). by right.
  - destruct (Hno e). left.
Qed.

Lemma sha256_regular_file_reads n path limit :
  path <> [] ->
  reads n (sha256_regular_file path limit) (fun digest => exists data,
    file_at n path = Some data /\ zlen data <= limit /\ digest = sha256_bytes data).
Proof.
  intros Hne. unfold sha256_regular_file. eapply reads_bind; [by apply open_regular_file_reads|].
  intros fd (->&owner&mode&data&Hf&Hl). eapply pieces_reads; [done|]. intros ps Hps.
  eapply reads_bind; [apply reads_lift; intros d Hd; exact Hd|].
  intros d [-> Hno]%digest_loop_spec. apply reads_ret. exists data. cbn [app].
  rewrite Hps; [|by intros e He%Hno]. split_and!; [|done|done]. apply file_at_Some. eauto.
Qed.

Lemma sha256_regular_file_succeeds n path limit data :
  path <> [] -> file_at n path = Some data -> zlen data <= limit -> limit <= U64_MAX ->
  succeeds n (sha256_regular_file path limit) (sha256_bytes data).
Proof.
  intros Hne (owner&mode&Hf)%file_at_Some Hl Hmax. unfold sha256_regular_file.
  eapply succeeds_bind; [by eapply open_regular_file_succeeds|].
  eapply pieces_succeeds; [done|]. intros ps Hno Hps.
  eapply succeeds_bind; [apply succeeds_lift, digest_loop_whole; [rewrite Hps; lia|done|done]|].
  cbn [app]. rewrite Hps. apply succeeds_ret.
Qed.

Lemma read_artifact_reads n path limit :
  path <> [] ->
  reads n (read_artifact path limit) (fun data => file_at n path = Some data /\ zlen data <= limit).
Proof.
  intros Hne. unfold read_artifact. eapply reads_bind; [by apply open_regular_file_reads|].
  intros fd (->&owner&mode&data&Hf&Hl). eapply pieces_reads; [done|]. intros ps Hps.
  pose proof (zlen_nonneg data).
  eapply reads_bind; [apply reads_lift; intros d Hd; exact Hd|]. intros d Hd.
  apply read_take_spec in Hd as [_ Hwhole]; [|rewrite zlen_nil; lia].
  destruct (limit <? zlen d) eqn:E; [apply reads_throw|]. apply Z.ltb_ge in E.
  apply reads_ret. destruct Hwhole as [-> Hint]; [lia|]. cbn [app] in *.
  rewrite Hps //. split; [|done]. apply file_at_Some. eauto.
Qed.

Lemma read_artifact_succeeds n path limit data :
  path <> [] -> file_at n path = Some data -> zlen data <= limit ->
  succeeds n (read_artifact path limit) data.
Proof.
  intros Hne (owner&mode&Hf)%file_at_Some Hl. unfold read_artifact.
  eapply succeeds_bind; [by eapply open_regular_file_succeeds|].
  eapply pieces_succeeds; [done|]. intros ps Hno Hps.
  eapply succeeds_bind; [apply succeeds_lift, read_take_whole; [cbn; rewrite Hps; lia|done]|].
  cbn [app]. rewrite Hps (proj2 (Z.ltb_ge _ _)) //. apply succeeds_ret.
Qed.

Lemma read_whole_reads n path :
  node_at n path <> Some NLink ->
  reads n (read_whole path) (fun data => file_at n path = Some data).
Proof.
  intros Hl s Hs. unfold read_whole, call, mbind, M_bind. destruct (rf_read path s) as [r s'] eqn:E.
  destruct (rf_read_law _ _ _ _ E) as (Hv&Hd&_). rewrite Hs in Hv, Hd.
  destruct r as [data|e]; cbn; [|done]. split; [done|]. by apply Hd.
Qed.

(** A file written: it holds the data, and nothing else has changed. *)
Definition except (path : Handle) (n n' : Node) : Prop :=
  forall q, ~ path `prefix_of` q -> label_at n' q = label_at n q.

Lemma write_private_writes n h c data :
  node_at n (h ++ [c]) <> Some NLink ->
  triple (fun s => view s = n) (write_private (h ++ [c]) data)
    (fun _ s => except (h ++ [c]) n (view s) /\ file_at (view s) (h ++ [c]) = Some data)
    (fun _ _ => True).
Proof.
  intros Hl s Hs. unfold write_private, call, mbind, M_bind.
  destruct (rf_put _ _ _ s) as [o s'] eqn:E. apply rf_put_law in E as [Hput _]; [|by rewrite Hs].
  rewrite Hs in Hput. destruct o as [e|]; cbn; [done|].
  destruct Hput as [(Hd&_&owner&mode&written&->&Hw)|[_ Hn]]; [|done]. rewrite (Hw eq_refl). split.
  - intros q Hq. rewrite label_add //. by apply below_None_prefix in Hq as ->.
  - unfold file_at. rewrite label_add //. by rewrite below_refl.
Qed.
End specs.
