(* ===== verification/Image.v ===== *)
(** The guest image, from [run.rs]: the [newc] archive that becomes the guest's
    initial filesystem, and the owner-only cache it is published into under the
    digest of its compressed form. *)

From stdpp Require Import ssreflect.
From Stdlib Require Import Strings.Byte.
From S2P Require Import Prelude Types Std Protocol Tree Fixture Effects Root RunFiles.

(** ** The executable *)

Definition truncated_elf : io_error := IoError InvalidInput "truncated ELF binary".
Definition bad_program_table : io_error := IoError InvalidInput "invalid ELF program table".

(** [bytes.get(offset..offset + n)], the sum at its width. *)
Definition elf_bytes (bs : bytes) (offset : Z) (n : nat) : result bytes :=
  let stop := add64 offset (Z.of_nat n) in
  if (offset <=? stop) && (stop <=? zlen bs) then Ok (take n (drop (Z.to_nat offset) bs))
  else Err truncated_elf.

Definition image_read_u16 (bs : bytes) (offset : Z) : result Z :=
  value ← elf_bytes bs offset 2; Ok (le_Z value).
Definition image_read_u32 (bs : bytes) (offset : Z) : result Z :=
  value ← elf_bytes bs offset 4; Ok (le_Z value).
Definition image_read_u64 (bs : bytes) (offset : Z) : result Z :=
  value ← elf_bytes bs offset 8; Ok (le_Z value).

Definition not_guest_elf : io_error :=
  IoError InvalidInput "guest executable must be a little-endian x86-64 ELF binary".

(** The program headers from [index] on. *)
Fixpoint interpreter_loop (bs : bytes) (table_offset entry_size : Z) (n : nat) (index : Z)
    : result bool :=
  match n with
  | O => Ok false
  | S n =>
      skip ← ok_or (checked_mul64 index entry_size) bad_program_table;
      offset ← ok_or (checked_add64 table_offset skip) bad_program_table;
      segment ← image_read_u32 bs offset;
      if segment =? 3 then Ok true
      else interpreter_loop bs table_offset entry_size n (index + 1)
  end.

Definition elf_has_interpreter (bs : bytes) : result bool :=
  if (zlen bs <? 64) || negb (bool_decide (take 4 bs = [Byte.x7f; "E"%byte; "L"%byte; "F"%byte]))
     || negb (bool_decide (bs !! 4%nat = Some Byte.x02))
     || negb (bool_decide (bs !! 5%nat = Some Byte.x01)) then Err not_guest_elf
  else
    machine ← image_read_u16 bs 18;
    if negb (machine =? 62) then Err not_guest_elf
    else
    table_offset ← image_read_u64 bs 32;
    entry_size ← image_read_u16 bs 54;
    entry_count ← image_read_u16 bs 56;
    if entry_size <? 4 then Err (IoError InvalidInput "invalid ELF program header size")
    else interpreter_loop bs table_offset entry_size (Z.to_nat entry_count) 0.

(** ** The archive *)

Definition append_image_cpio (output : bytes) (name : string) (mode : Z) (contents : bytes)
    : result bytes :=
  content_size ← (if zlen contents <=? U32_MAX then Ok (zlen contents)
                  else Err (IoError InvalidInput "initramfs file too large"));
  name_size ← (if str_len name + 1 <=? U32_MAX then Ok (str_len name + 1)
               else Err (IoError InvalidInput "cpio name too large"));
  let fields := [1; mode; 0; 0; 1; 0; content_size; 0; 0; 0; 0; name_size; 0] in
  let output := output ++ as_bytes "070701" ++ flat_map (hex_digits 8) fields in
  let output := pad4 (output ++ as_bytes name ++ [Byte.x00]) in
  Ok (pad4 (output ++ contents)).

Record GuestImageAssets := { as_busybox : bytes; as_mii : bytes; as_rtl8139cp : bytes }.
Record GuestImage := { gi_path : Handle; gi_executable_sha256 : string }.

Definition DIRECTORY_MODE : Z := 16877.  (** 0o040755 *)
Definition PROGRAM_MODE : Z := 33261.    (** 0o100755 *)
Definition MODULE_MODE : Z := 33188.     (** 0o100644 *)

(** The members of the agent's part, in order. *)
Definition agent_members (executable : bytes) (assets : GuestImageAssets)
    : list (string * Z * bytes) :=
  [(".", DIRECTORY_MODE, []); ("bin", DIRECTORY_MODE, []); ("dev", DIRECTORY_MODE, []);
   ("modules", DIRECTORY_MODE, []); ("proc", DIRECTORY_MODE, []); ("sys", DIRECTORY_MODE, []);
   ("tmp", DIRECTORY_MODE, []); ("bin/busybox", PROGRAM_MODE, assets.(as_busybox));
   ("modules/mii.ko", MODULE_MODE, assets.(as_mii));
   ("modules/8139cp.ko", MODULE_MODE, assets.(as_rtl8139cp));
   ("init", PROGRAM_MODE, executable)].

Fixpoint append_members (output : bytes) (members : list (string * Z * bytes)) : result bytes :=
  match members with
  | [] => Ok output
  | (name, mode, contents) :: members =>
      output ← append_image_cpio output name mode contents; append_members output members
  end.

Definition guest_archive (executable : bytes) (assets : GuestImageAssets)
    (workload_template : option bytes) : result bytes :=
  archive ← append_members [] (agent_members executable assets);
  let archive := archive ++ default [] workload_template in
  append_image_cpio archive "TRAILER!!!" 0 [].

(** ** The cache *)

(** [GzBuilder] with a zero modification time and the default level, written to
    and finished. *)
Class Gzip := { gzip : bytes -> result bytes }.

Section image.
Context {S : Type} `{RunFs S} `{Sha256} `{Gzip}.

Definition cache_type : io_error :=
  invalid_data "a cached guest image entry has an unexpected file type".

Definition require_private_cache (path : Handle) (mode : Z) (directory : bool) : M S unit :=
  r ← call (rf_lstat path); metadata ← or_other r;
  let expected := if directory then DirectoryNode else RegularNode in
  _ ← fail_if (negb (bool_decide (metadata.(st_type) = expected))) cache_type;
  _ ← fail_if (negb (metadata.(st_uid) =? fs_euid))
    (invalid_data "a cached guest image entry is not owned by the current user");
  if negb (Z.land metadata.(st_mode) 511 =? mode) then
    c ← call (rf_chmod path mode); _ ← or_io c;
    r ← call (rf_lstat path); repaired ← or_other r;
    fail_if (negb (Z.land repaired.(st_mode) 511 =? mode))
      (invalid_data "a cached guest image entry could not be made owner-only")
  else mret tt.

(** The entry at [image] is owner-only and has the digest. *)
Definition verify_image (image : Handle) (compressed : bytes) (digest : string) (message : string)
    : M S unit :=
  _ ← require_private_cache image 384 false;
  actual ← sha256_regular_file image (zlen compressed);
  fail_if (negb (bool_decide (actual = digest))) (invalid_data message).

Definition create_cache (cache : Handle) : M S unit :=
  r ← call (rf_create_dir cache 448);
  match r with
  | None => mret tt
  | Some e => if bool_decide (e.(error_kind) = AlreadyExists) then mret tt else throw e
  end.

Definition store_image (cache image : Handle) (compressed : bytes) (digest : string) : M S unit :=
  counter ← call rf_image_counter;
  let name := "." +:+ digest +:+ ".tmp-" +:+ fmt_dec fs_pid +:+ "-" +:+ fmt_dec counter in
  created ← call (fs_create_excl cache name 384);
  fd ← or_errno created;
  written ← call (fs_write_sync fd compressed);
  match written with
  | Some e => _ ← call (fs_unlinkat cache name false); throw e
  | None =>
      renamed ← call (fs_renameat cache name (parent_of image) (name_of image) false);
      match renamed with
      | inl _ => verify_image image compressed digest "published guest image has the wrong digest"
      | inr e =>
          present ← call (rf_exists image);
          if present : bool then
            _ ← call (fs_unlinkat cache name false);
            verify_image image compressed digest "concurrent guest image cache entry has the wrong digest"
          else throw (errno_error e)
      end
  end.

(** [build_guest_image_with_assets]. *)
Definition build_guest_image (executable runs_directory : Handle) (assets : GuestImageAssets)
    (workload_template : option bytes) : M S GuestImage :=
  executable_bytes ← read_whole executable;
  let executable_sha256 := sha256_bytes executable_bytes in
  interpreted ← lift (elf_has_interpreter executable_bytes);
  _ ← fail_if interpreted (IoError InvalidInput
    "simferret must be a statically linked x86_64 Linux executable for record mode");
  archive ← lift (guest_archive executable_bytes assets workload_template);
  compressed ← lift (gzip archive);
  let digest := sha256_bytes compressed in
  let cache := runs_directory ++ [".images"] in
  made ← call (rf_create_dir_all runs_directory);
  _ ← or_io made;
  _ ← create_cache cache;
  _ ← require_private_cache cache 448 true;
  let image := cache ++ [digest +:+ ".cpio.gz"] in
  present ← call (rf_exists image);
  _ ← (if present : bool then
         verify_image image compressed digest
           ("cached guest image failed digest verification: " +:+ display image)
       else store_image cache image compressed digest);
  r ← call (rf_canonicalize image); path ← or_other r;
  mret {| gi_path := path; gi_executable_sha256 := executable_sha256 |}.
End image.
