(* ===== verification/Cpio.v ===== *)
(** Reading the guest image back: a reader of [newc] archives in the way the
    kernel unpacks an initramfs, and the archives that [Tree.template] and
    [Image.guest_archive] write. *)

From stdpp Require Import ssreflect.
From Stdlib Require Import Strings.Byte.
From S2P Require Import Prelude Types Std Protocol Tree Fixture Effects Root RunFiles Image.

(** ** Members *)

Record Member := MkMember {
  mb_name : bytes;
  mb_mode : Z;
  mb_uid : Z;
  mb_gid : Z;
  mb_mtime : Z;
  mb_contents : bytes;
}.

Definition MAGIC : bytes := as_bytes "070701".
Definition TRAILER : bytes := as_bytes "TRAILER!!!".

(** ** The reader *)

(** Eight hexadecimal digits. *)
Definition read_field (l : bytes) : option (Z * bytes) :=
  let '(ds, _) := read_digits 16 (take 8 l) in
  if zlen ds =? 8 then Some (digits_value 16 ds, drop 8 l) else None.

Fixpoint read_fields (n : nat) (l : bytes) : option (list Z * bytes) :=
  match n with
  | O => Some ([], l)
  | S n => '(z, l) ← read_field l; '(zs, l) ← read_fields n l; Some (z :: zs, l)
  end.

(** The next [n] bytes, and what follows them at the next multiple of four, [at_]
    being the position of the first. *)
Definition read_padded (at_ n : Z) (l : bytes) : option (bytes * bytes) :=
  let whole := n + (- (at_ + n)) mod 4 in
  if (0 <=? n) && (whole <=? zlen l) then Some (take (Z.to_nat n) l, drop (Z.to_nat whole) l) else None.

Definition read_member (l : bytes) : option (Member * bytes) :=
  l ← strip_prefix MAGIC l;
  '(fields, l) ← read_fields 13 l;
  match fields with
  | [_; mode; uid; gid; _; mtime; size; _; _; _; _; name_size; _] =>
      '(name, l) ← read_padded 110 name_size l;
      '(contents, l) ← read_padded 0 size l;
      if bool_decide (list.last name = Some Byte.x00) then
        Some (MkMember (removelast name) mode uid gid mtime contents, l)
      else None
  | _ => None
  end.

(** The members up to the trailer, and what follows it. *)
Fixpoint read_archive (fuel : nat) (l : bytes) : option (list Member * bytes) :=
  match fuel with
  | O => None
  | S fuel =>
      '(member, l) ← read_member l;
      if bool_decide (member.(mb_name) = TRAILER) then Some ([], l)
      else '(members, l) ← read_archive fuel l; Some (member :: members, l)
  end.

(** ** Records *)

Definition zeros (n : Z) : bytes := replicate (Z.to_nat n) Byte.x00.

Definition member_fields (m : Member) : list Z :=
  [1; m.(mb_mode); m.(mb_uid); m.(mb_gid); 1; m.(mb_mtime); zlen m.(mb_contents); 0; 0; 0; 0;
   zlen m.(mb_name) + 1; 0].

Definition record (m : Member) : bytes :=
  MAGIC ++ flat_map (hex_digits 8) (member_fields m) ++ m.(mb_name) ++ [Byte.x00]
  ++ zeros ((- (111 + zlen m.(mb_name))) mod 4) ++ m.(mb_contents)
  ++ zeros ((- zlen m.(mb_contents)) mod 4).

Definition member_wf (m : Member) : Prop :=
  u32_range m.(mb_mode) /\ u32_range m.(mb_uid) /\ u32_range m.(mb_gid) /\ u32_range m.(mb_mtime) /\
  zlen m.(mb_name) < U32_MAX /\ zlen m.(mb_contents) <= U32_MAX.

Lemma zlen_zeros n : 0 <= n -> zlen (zeros n) = n.
Proof. intros Hn. unfold zlen, zeros. rewrite length_replicate. lia. Qed.

Lemma pad4_zeros o : pad4 o = o ++ zeros ((- zlen o) mod 4).
Proof.
  unfold pad4. assert (Hn : (- zlen o) mod 4 <= Z.of_nat 3) by lia_mod. revert o Hn.
  generalize 3%nat as n. induction n as [|n IH]; intros o Hn; cbn [pad4_loop].
  - assert ((- zlen o) mod 4 = 0) as -> by lia_mod. rewrite app_nil_r. by destruct (_ =? _).
  - destruct (Z.eqb_spec (zlen o mod 4) 0) as [Hz|Hz].
    + assert ((- zlen o) mod 4 = 0) as -> by lia_mod. by rewrite app_nil_r.
    + rewrite IH zlen_app zlen_cons zlen_nil; [|lia_mod]. rewrite -app_assoc. f_equal.
      change (Byte.x00 :: zeros ((- (zlen o + (0 + 1))) mod 4) = zeros ((- zlen o) mod 4)).
      unfold zeros. replace (Z.to_nat ((- zlen o) mod 4))
        with (S (Z.to_nat ((- (zlen o + (0 + 1))) mod 4))) by lia_mod. done.
Qed.

(** Both writers append a record to an aligned archive. *)
Lemma append_record o m :
  zlen o mod 4 = 0 -> zlen m.(mb_name) < U32_MAX -> zlen m.(mb_contents) <= U32_MAX ->
  append_cpio o m.(mb_name) m.(mb_mode) m.(mb_uid) m.(mb_gid) m.(mb_mtime) m.(mb_contents)
  = Ok (o ++ record m).
Proof.
  intros Ho Hn Hc.
  assert (Hform : append_cpio o m.(mb_name) m.(mb_mode) m.(mb_uid) m.(mb_gid) m.(mb_mtime) m.(mb_contents)
    = Ok (pad4 (pad4 (((o ++ MAGIC) ++ flat_map (hex_digits 8) (member_fields m))
        ++ m.(mb_name) ++ [Byte.x00]) ++ m.(mb_contents)))).
  { unfold append_cpio. rewrite (proj2 (Z.leb_le _ _) Hc). cbn [mbind result_bind].
    rewrite (proj2 (Z.leb_le (zlen (mb_name m) + 1) U32_MAX)); [done|lia]. }
  rewrite Hform. f_equal. pose proof (zlen_fields (member_fields m)) as Hf.
  change (zlen (member_fields m)) with 13 in Hf. revert Hf. unfold record.
  generalize (flat_map (hex_digits 8) (member_fields m)) as header. intros header Hf.
  rewrite (pad4_zeros (((o ++ _) ++ _) ++ _)).
  assert (zlen (((o ++ MAGIC) ++ header) ++ mb_name m ++ [Byte.x00]) = zlen o + 111 + zlen (mb_name m)) as ->.
  { rewrite !zlen_app Hf zlen_cons zlen_nil. change (zlen MAGIC) with 6. lia. }
  assert ((- (zlen o + 111 + zlen (mb_name m))) mod 4 = (- (111 + zlen (mb_name m))) mod 4) as -> by lia_mod.
  rewrite pad4_zeros. rewrite -!app_assoc. do 7 f_equal. f_equal.
  rewrite !zlen_app Hf zlen_cons zlen_nil zlen_zeros; [|lia_mod]. change (zlen MAGIC) with 6. lia_mod.
Qed.

Lemma zlen_record m : zlen (record m) mod 4 = 0.
Proof.
  unfold record. pose proof (zlen_fields (member_fields m)) as Hf.
  change (zlen (member_fields m)) with 13 in Hf. revert Hf.
  generalize (flat_map (hex_digits 8) (member_fields m)) as header. intros header Hf.
  rewrite !zlen_app Hf zlen_cons zlen_nil !zlen_zeros; [|lia_mod..]. change (zlen MAGIC) with 6. lia_mod.
Qed.

(** ** Reading a record *)

Lemma hex_char_digit v : 0 <= v < 16 -> to_digit 16 (hex_char v) = Some v.
Proof. revert v. apply (nibble_cases (fun v => to_digit 16 (hex_char v) = Some v)); reflexivity. Qed.

Lemma read_hex_digits n z l :
  read_digits 16 (hex_digits n z ++ l)
  = let '(ds, r) := read_digits 16 l in
    (map (fun k => Z.land (Z.shiftr z (4 * Z.of_nat k)) 15) (rev (seq 0 n)) ++ ds, r).
Proof.
  induction n as [|n IH]; [cbn [hex_digits app seq rev map]; by destruct (read_digits 16 l)|].
  cbn [hex_digits app read_digits]. rewrite hex_char_digit; [|apply land_15_range].
  rewrite IH seq_S rev_app_distr. by destruct (read_digits 16 l).
Qed.

Lemma digits_snoc ds d : digits_value 16 (ds ++ [d]) = digits_value 16 ds * 16 + d.
Proof. unfold digits_value. by rewrite fold_left_app. Qed.

Lemma nibbles_value n z : 0 <= z ->
  digits_value 16 (map (fun k => Z.land (Z.shiftr z (4 * Z.of_nat k)) 15) (rev (seq 0 n)))
  = z mod 16 ^ Z.of_nat n.
Proof.
  revert z. induction n as [|n IH]; intros z Hz; [by rewrite Z.mod_1_r|].
  change (seq 0 (S n)) with (0%nat :: seq 1 n). cbn [rev]. rewrite map_app digits_snoc.
  rewrite -seq_shift -map_rev map_map.
  rewrite (map_ext _ (fun k => Z.land (Z.shiftr (z / 16) (4 * Z.of_nat k)) 15)).
  - rewrite IH; [|apply Z.div_pos; lia]. cbn [map]. rewrite Z.shiftr_0_r.
    change 15 with (Z.ones 4). rewrite Z.land_ones //. change (2 ^ 4) with 16.
    rewrite Nat2Z.inj_succ Z.pow_succ_r; [|lia].
    rewrite (Z.rem_mul_r z 16); [|lia..]. lia.
  - intros k. f_equal. rewrite !Z.shiftr_div_pow2; [|lia..].
    rewrite Zdiv_Zdiv; [|lia..]. f_equal. rewrite Nat2Z.inj_succ Z.mul_succ_r Z.pow_add_r; [|lia..].
    change (2 ^ 4) with 16. lia.
Qed.

Lemma read_field_hex z l : u32_range z -> read_field (hex_digits 8 z ++ l) = Some (z, l).
Proof.
  intros Hz. unfold read_field. rewrite take_app_length' ?length_hex_digits //.
  rewrite drop_app_length' ?length_hex_digits //.
  pose proof (read_hex_digits 8 z []) as Hr. cbn [read_digits] in Hr. rewrite !app_nil_r in Hr.
  rewrite Hr. assert (Hl : forall f : nat -> Z, zlen (map f (rev (seq 0 8))) = 8) by done.
  rewrite Hl Z.eqb_refl nibbles_value; unfold u32_range, U32_MAX in Hz; [|lia].
  rewrite Z.mod_small //. change (16 ^ Z.of_nat 8) with (2 ^ 32). lia.
Qed.

Lemma read_fields_hex zs l :
  Forall u32_range zs -> read_fields (length zs) (flat_map (hex_digits 8) zs ++ l) = Some (zs, l).
Proof.
  induction 1 as [|z zs Hz Hall IH]; [done|]. cbn [length read_fields flat_map].
  rewrite -app_assoc read_field_hex //. cbn [mbind option_bind]. by rewrite IH.
Qed.

Lemma read_padded_app at_ data rest :
  read_padded at_ (zlen data) (data ++ zeros ((- (at_ + zlen data)) mod 4) ++ rest) = Some (data, rest).
Proof.
  unfold read_padded. pose proof (zlen_nonneg data) as Hd. pose proof (zlen_nonneg rest).
  assert (Hw : zlen data + (- (at_ + zlen data)) mod 4
    <= zlen (data ++ zeros ((- (at_ + zlen data)) mod 4) ++ rest)).
  { rewrite !zlen_app zlen_zeros; lia_mod. }
  apply Z.leb_le in Hd, Hw. rewrite Hd Hw. cbn [andb]. unfold zlen at 1. rewrite Nat2Z.id take_app_length.
  do 2 f_equal. rewrite app_assoc drop_app_length' //.
  rewrite length_app /zeros length_replicate /zlen. lia_mod.
Qed.

Lemma member_fields_range m : member_wf m -> Forall u32_range (member_fields m).
Proof.
  intros (?&?&?&?&?&?). pose proof (zlen_nonneg m.(mb_name)). pose proof (zlen_nonneg m.(mb_contents)).
  unfold member_fields, u32_range, U32_MAX in *. repeat constructor; lia.
Qed.

Lemma read_record m rest : member_wf m -> read_member (record m ++ rest) = Some (m, rest).
Proof.
  intros Hwf. unfold read_member, record. rewrite -!app_assoc.
  rewrite (proj2 (strip_prefix_Some _ _ _) eq_refl). cbn [mbind option_bind].
  rewrite (read_fields_hex (member_fields m)); [|by apply member_fields_range].
  cbn [mbind option_bind member_fields].
  replace (zlen (mb_name m) + 1) with (zlen (mb_name m ++ [Byte.x00])) by (rewrite zlen_app //).
  rewrite (app_assoc (mb_name m)).
  replace ((- (111 + zlen (mb_name m))) mod 4) with ((- (110 + zlen (mb_name m ++ [Byte.x00]))) mod 4).
  2: { f_equal. rewrite zlen_app zlen_cons zlen_nil. lia. }
  rewrite read_padded_app. cbn [mbind option_bind].
  rewrite (read_padded_app 0). cbn [mbind option_bind].
  rewrite last_snoc bool_decide_eq_true_2 // removelast_last. by destruct m.
Qed.

(** ** Archives *)

Definition trailer : Member := MkMember TRAILER 0 0 0 0 [].

Lemma read_archive_records members rest fuel :
  Forall (fun m => member_wf m /\ m.(mb_name) <> TRAILER) members -> (length members < fuel)%nat ->
  read_archive fuel (flat_map record members ++ record trailer ++ rest) = Some (members, rest).
Proof.
  intros Hall. revert fuel. induction Hall as [|m members [Hwf Hn] Hall IH]; intros fuel Hf;
    (destruct fuel as [|fuel]; [lia|]); cbn [read_archive flat_map app].
  - by rewrite read_record.
  - rewrite -app_assoc read_record //. cbn [mbind option_bind].
    rewrite bool_decide_eq_false_2 // IH //. cbn in Hf. lia.
Qed.

Lemma aligned_app (a b : bytes) : zlen a mod 4 = 0 -> zlen b mod 4 = 0 -> zlen (a ++ b) mod 4 = 0.
Proof. intros Ha Hb. rewrite zlen_app. lia_mod. Qed.

Lemma zlen_records members : zlen (flat_map record members) mod 4 = 0.
Proof.
  induction members as [|m members IH]; [done|]. cbn [flat_map].
  apply aligned_app; [apply zlen_record|done].
Qed.

(** A member of the template: an entry below the root of the template. *)
Definition template_member (root : bytes) (pe : bytes * Entry) : Member :=
  let e := pe.2 in
  MkMember (if bool_decide (pe.1 = ROOT_PATH) then root else root ++ [SLASH] ++ pe.1)
    (match e.(kind) with
     | Directory => Z.lor S_IFDIR e.(mode)
     | File => Z.lor S_IFREG e.(mode)
     | Symlink => Z.lor S_IFLNK e.(mode)
     end) e.(entry_uid) e.(entry_gid) e.(mtime) (entry_contents e).

(** The members of the template of a tree: its root, then every other entry in
    the order of their paths. *)
Definition template_members (t : Tree) (root : bytes) : list Member :=
  match t !! ROOT_PATH with
  | Some e => template_member root (ROOT_PATH, e)
      :: map (template_member root) (List.filter (fun pe => negb (bool_decide (pe.1 = ROOT_PATH))) (Tree_iter t))
  | None => []
  end.

Lemma lor_u32 a b : u32_range a -> u32_range b -> u32_range (Z.lor a b).
Proof.
  unfold u32_range, U32_MAX. intros Ha Hb. assert (Hn : 0 <= Z.lor a b) by (apply Z.lor_nonneg; lia).
  split; [done|]. enough (Z.lor a b < 2 ^ 32) by lia.
  destruct (Z.eq_dec (Z.lor a b) 0) as [->|Hz]; [lia|]. apply Z.log2_lt_pow2; [lia|].
  rewrite Z.log2_lor; [|lia..]. apply Z.max_lub_lt.
  - destruct (Z.eq_dec a 0) as [->|]; [done|]. apply Z.log2_lt_pow2; lia.
  - destruct (Z.eq_dec b 0) as [->|]; [done|]. apply Z.log2_lt_pow2; lia.
Qed.

Lemma template_member_wf p e :
  entry_wf p e -> member_wf (template_member (as_bytes GUEST_TEMPLATE_ROOT) (p, e)) /\
    mb_name (template_member (as_bytes GUEST_TEMPLATE_ROOT) (p, e)) <> TRAILER.
Proof.
  intros Hwf. pose proof (entry_contents_small _ _ Hwf) as Hc.
  destruct Hwf as (Hp&Hm&Hu&Hg&Ht&_). split.
  - unfold member_wf, template_member. cbn [mb_name mb_mode mb_uid mb_gid mb_mtime mb_contents fst snd].
    split_and!; try done.
    + destruct (e.(kind)); apply lor_u32; done.
    + case_bool_decide; [done|]. rewrite !zlen_app. unfold MAX_PATH_BYTES, U32_MAX in *.
      change (zlen (as_bytes GUEST_TEMPLATE_ROOT)) with 8. change (zlen [SLASH]) with 1. lia.
    + unfold MAX_FILE_BYTES, U32_MAX in *. rewrite Z.shiftl_mul_pow2 in Hc; lia.
  - unfold template_member. cbn [mb_name fst]. by case_bool_decide.
Qed.

Lemma append_entry_record o p e :
  entry_wf p e -> zlen o mod 4 = 0 ->
  let m := template_member (as_bytes GUEST_TEMPLATE_ROOT) (p, e) in
  append_template_entry o m.(mb_name) e = Ok (o ++ record m).
Proof.
  intros Hwf Ho m. destruct (template_member_wf _ _ Hwf) as [(_&_&_&_&Hn&Hc) _].
  rewrite -append_record //. unfold append_template_entry, m, template_member, entry_contents.
  cbn [mb_name mb_mode mb_uid mb_gid mb_mtime mb_contents fst snd]. by destruct (e.(kind)).
Qed.

Definition below_root (l : list (bytes * Entry)) : list (bytes * Entry) :=
  List.filter (fun pe => negb (bool_decide (pe.1 = ROOT_PATH))) l.

Lemma template_loop_records l : forall o,
  Forall (fun pe => entry_wf pe.1 pe.2) l -> zlen o mod 4 = 0 ->
  template_loop (as_bytes GUEST_TEMPLATE_ROOT) l o = Ok (o ++ flat_map record
    (map (template_member (as_bytes GUEST_TEMPLATE_ROOT)) (below_root l))).
Proof.
  induction l as [|[p e] l IH]; intros o Hall Ho; cbn [template_loop].
  - by rewrite app_nil_r.
  - apply Forall_cons_iff in Hall as [Hpe Hall]. cbn [fst snd] in Hpe.
    unfold below_root. cbn [List.filter fst]. case_bool_decide as Hp; cbn [negb]; [by apply IH|].
    pose proof (append_entry_record o p e Hpe Ho) as Hadd. cbn zeta in Hadd.
    unfold template_member in Hadd at 1. cbn [mb_name fst] in Hadd.
    rewrite bool_decide_eq_false_2 // in Hadd. rewrite Hadd. cbn [mbind result_bind].
    rewrite IH //; [|by apply aligned_app, zlen_record].
    cbn [map flat_map]. by rewrite app_assoc.
Qed.

Lemma template_records t out :
  tree_wf t -> template t GUEST_TEMPLATE_ROOT = Ok out ->
  out = flat_map record (template_members t (as_bytes GUEST_TEMPLATE_ROOT)) ++ record trailer /\
  Forall (fun m => member_wf m /\ m.(mb_name) <> TRAILER)
    (template_members t (as_bytes GUEST_TEMPLATE_ROOT)).
Proof.
  intros Hwf. unfold template, template_entries, template_members.
  destruct (t !! ROOT_PATH) as [root|] eqn:Hroot; [|done]. cbn [ok_or mbind result_bind].
  destruct (negb _); [done|]. assert (Hr : entry_wf ROOT_PATH root) by by apply (Hwf ROOT_PATH).
  pose proof (append_entry_record [] ROOT_PATH root Hr eq_refl) as Hadd. cbn zeta in Hadd.
  set (m := template_member _ (ROOT_PATH, root)) in *. change (mb_name m) with (as_bytes GUEST_TEMPLATE_ROOT) in Hadd.
  rewrite Hadd. cbn [mbind result_bind app].
  rewrite template_loop_records; [|by apply tree_wf_iter|apply zlen_record]. cbn [mbind result_bind].
  set (rest := map _ _). rewrite (append_record (record m ++ flat_map record rest) trailer); [| |done..].
  2: { apply aligned_app; [apply zlen_record|apply zlen_records]. }
  intros [= <-]. split.
  - done.
  - constructor; [by apply template_member_wf|]. unfold rest. apply List.Forall_map.
    pose proof (tree_wf_iter _ Hwf) as Hall. clear -Hall. unfold below_root.
    induction Hall as [|[p e] l Hpe Hall IH]; [constructor|]. cbn [List.filter].
    destruct (negb _); [|done]. constructor; [|done]. by apply template_member_wf.
Qed.

(** ** The guest image *)

Lemma Ok_inj {A} (a b : A) : Ok a = Ok b -> a = b.
Proof. congruence. Qed.

Definition image_member (m : string * Z * bytes) : Member :=
  let '(name, mode, contents) := m in MkMember (as_bytes name) mode 0 0 0 contents.

Lemma append_image_record o name mode contents out :
  zlen o mod 4 = 0 -> append_image_cpio o name mode contents = Ok out ->
  out = o ++ record (image_member (name, mode, contents)) /\ str_len name < U32_MAX /\
  zlen contents <= U32_MAX.
Proof.
  intros Ho. unfold append_image_cpio.
  destruct (Z.leb_spec (zlen contents) U32_MAX) as [Hc|]; [|done]. cbn [mbind result_bind].
  destruct (Z.leb_spec (str_len name + 1) U32_MAX) as [Hn|]; [|done]. cbn [mbind result_bind].
  intros Hout. split; [|split; [lia|done]]. unfold str_len in *.
  assert (Hsame : append_cpio o (as_bytes name) mode 0 0 0 contents = Ok out).
  { unfold append_cpio. rewrite (proj2 (Z.leb_le _ _) Hc). cbn [mbind result_bind].
    rewrite (proj2 (Z.leb_le _ _) Hn). cbn [mbind result_bind].
    by rewrite -(app_assoc o). }
  pose proof (append_record o (image_member (name, mode, contents)) Ho) as Ha.
  apply Ok_inj. rewrite -Hsame. apply Ha; [cbn; lia|done].
Qed.

Lemma append_members_records members : forall o out,
  zlen o mod 4 = 0 -> append_members o members = Ok out ->
  out = o ++ flat_map record (map image_member members) /\
  Forall (fun m => str_len m.1.1 < U32_MAX /\ zlen m.2 <= U32_MAX) members.
Proof.
  induction members as [|[[name mode] contents] members IH]; intros o out Ho; cbn [append_members].
  - intros [= ->]. by rewrite app_nil_r.
  - destruct (append_image_cpio o name mode contents) as [o1|] eqn:E; [|done]. cbn [mbind result_bind].
    apply append_image_record in E as (->&Hn&Hc); [|done]. intros E.
    apply IH in E as [-> Hall]; [|by apply aligned_app, zlen_record].
    split; [by rewrite -app_assoc|]. by constructor.
Qed.

Lemma image_members_wf members :
  Forall (fun m => u32_range m.1.2 /\ as_bytes m.1.1 <> TRAILER) members ->
  Forall (fun m => str_len m.1.1 < U32_MAX /\ zlen m.2 <= U32_MAX) members ->
  Forall (fun m => member_wf m /\ m.(mb_name) <> TRAILER) (map image_member members).
Proof.
  induction 1 as [|[[name mode] contents] members [Hm Hn] _ IH]; cbn [map]; [constructor|].
  intros [[Hl Hc] Hs]%Forall_cons_iff. constructor; [|by apply IH]. by split.
Qed.

(** The members of the image: those of the agent, then the workload. *)
Definition image_members (executable : bytes) (assets : GuestImageAssets) (workload : option Tree)
    : list Member :=
  map image_member (agent_members executable assets)
  ++ match workload with
     | Some t => template_members t (as_bytes GUEST_TEMPLATE_ROOT)
     | None => []
     end.

(** C40. The guest image unpacks to what it was built from.  Whenever the archive of
    an executable, the guest's tools and a workload's template is built at all, a
    reader of [newc] archives gets back exactly the agent's members with their
    modes and contents, in order, followed by every entry of the workload's tree
    below its reserved root, with mode, owner, time and contents.  Without a
    workload nothing follows the trailer.  With one, the reader has met the
    trailer of the template itself, and the trailer of the image is left over: the
    image is then two archives, not one. *)
Theorem guest_archive_unpacks executable assets workload archive_bytes out :
  (forall t, workload = Some t -> tree_wf t /\ template t GUEST_TEMPLATE_ROOT = Ok archive_bytes) ->
  guest_archive executable assets ((fun _ => archive_bytes) <$> workload) = Ok out ->
  let members := image_members executable assets workload in
  forall fuel, (length members < fuel)%nat ->
  read_archive fuel out
  = Some (members, match workload with Some _ => record trailer | None => [] end).
Proof.
  intros Hw Hout members fuel Hfuel. unfold guest_archive in Hout.
  destruct (append_members [] _) as [archive|] eqn:Ea; [|done]. cbn [mbind result_bind] in Hout.
  apply append_members_records in Ea as [-> Hsizes]; [|done]. cbn [app] in Hout.
  set (agent := map image_member (agent_members executable assets)) in *.
  assert (Hagent : Forall (fun m => member_wf m /\ m.(mb_name) <> TRAILER) agent).
  { apply image_members_wf; [|exact Hsizes]. unfold agent_members. repeat constructor; done. }
  pose proof (zlen_records agent) as Hal. destruct workload as [t|]; cbn [fmap option_fmap option_map default from_option id] in Hout.
  - destruct (Hw t eq_refl) as [Hwf Ht]. apply template_records in Ht as [-> Htm]; [|done].
    apply (append_image_record _ "TRAILER!!!") in Hout as (->&_&_).
    2: { apply aligned_app; [done|]. apply aligned_app; [apply zlen_records|apply zlen_record]. }
    change (image_member ("TRAILER!!!", 0, [])) with trailer. unfold members, image_members.
    rewrite -(read_archive_records _ (record trailer) fuel) //; [|by apply list.Forall_app].
    by rewrite flat_map_app -!app_assoc.
  - rewrite app_nil_r in Hout. apply (append_image_record _ "TRAILER!!!") in Hout as (->&_&_); [|done].
    change (image_member ("TRAILER!!!", 0, [])) with trailer.
    rewrite -(read_archive_records members [] fuel) //; unfold members, image_members; rewrite !app_nil_r //.
Qed.

#[local] Existing Instance toy_sha256.

Definition sample_assets : GuestImageAssets :=
  {| as_busybox := as_bytes "busybox"; as_mii := as_bytes "m"; as_rtl8139cp := [] |}.
Definition sample_template : bytes :=
  match template sample_tree GUEST_TEMPLATE_ROOT with Ok data => data | Err _ => [] end.
Definition sample_archive : bytes :=
  match guest_archive (as_bytes "init") sample_assets (Some sample_template) with
  | Ok data => data
  | Err _ => []
  end.

Lemma guest_archive_unpacks_witness :
  guest_archive (as_bytes "init") sample_assets (Some sample_template) = Ok sample_archive /\
  read_archive 20 sample_archive
  = Some (image_members (as_bytes "init") sample_assets (Some sample_tree), record trailer).
Proof.
  assert (Hout : guest_archive (as_bytes "init") sample_assets (Some sample_template) = Ok sample_archive)
    by by vm_compute.
  split; [exact Hout|].
  apply (guest_archive_unpacks (as_bytes "init") sample_assets (Some sample_tree) sample_template
    sample_archive).
  - intros t [= <-]. split; [apply sample_tree_wf|by vm_compute].
  - exact Hout.
  - by apply (bool_decide_unpack _); vm_compute.
Defined.
