(* ===== verification/Text.v ===== *)
(** Text as bytes: the characters of well-formed UTF-8, where a text may be cut,
    and the search for a substring. *)

From stdpp Require Import ssreflect.
From Stdlib Require Import Strings.Byte.
From S2P Require Import Prelude Std.

(** ** Characters *)

Definition is_char (c : bytes) : Prop :=
  exists b t, c = b :: t /\ utf8_step b t = UWell (length c).

(** A text, character by character. *)
Inductive chars : bytes -> Prop :=
  | chars_nil : chars []
  | chars_cons c l : is_char c -> chars l -> chars (c ++ l).

(** Where [str::is_char_boundary] holds before a rest. *)
Definition boundary (l : bytes) : Prop := forall b l', l = b :: l' -> is_cont b = false.

(** [utf8_tail] with its counter. *)
Fixpoint tail_from (k : nat) (ranges : list (Z * Z)) (l : bytes) : utf8_status :=
  match ranges with
  | [] => UWell k
  | (lo, hi) :: ranges =>
      match l with
      | [] => UCut
      | b :: l => if between lo hi b then tail_from (S k) ranges l else UBad k
      end
  end.
Lemma utf8_tail_from ranges l : utf8_tail ranges l = tail_from 1 ranges l.
Proof.
  unfold utf8_tail. generalize 1%nat as k. revert l. induction ranges as [|[lo hi] ranges IH]; [done|].
  intros [|b l] k; [done|]. cbn. by rewrite IH.
Qed.

Lemma tail_from_well k ranges l n :
  Forall (fun r => 128 <= r.1 /\ r.2 <= 191) ranges -> tail_from k ranges l = UWell n ->
  n = (k + length ranges)%nat /\ (length ranges <= length l)%nat /\
  Forall (fun b => is_cont b = true) (take (length ranges) l) /\
  tail_from k ranges (take (length ranges) l) = UWell n.
Proof.
  intros Hr. revert k l. induction Hr as [|[lo hi] ranges [H1 H2] Hr IH]; intros k l.
  - intros [= <-]. cbn. split_and!; [lia|lia|constructor|done].
  - destruct l as [|b l]; [done|]. cbn [tail_from]. destruct (between lo hi b) eqn:Eb; [|done].
    intros (->&Hl&Hall&Ht)%IH. cbn [length take tail_from]. rewrite Eb. split_and!; [lia|lia| |done].
    constructor; [|done]. unfold is_cont, between in *. cbn in *. lia.
Qed.

(** The first character of a text, as [str::from_utf8] steps over it. *)
Lemma utf8_step_well b l n : utf8_step b l = UWell n ->
  (0 < n <= S (length l))%nat /\ is_cont b = false /\
  Forall (fun b => is_cont b = true) (take (pred n) l) /\ utf8_step b (take (pred n) l) = UWell n.
Proof.
  unfold utf8_step. rewrite !utf8_tail_from. destruct (Z.ltb_spec (byte_Z b) 128) as [Hb|Hb].
  - intros [= <-]. cbn. split_and!; [lia|lia| |constructor|done].
    unfold is_cont, between. lia.
  - intros Hs. assert (Hc : is_cont b = false).
    { unfold is_cont. destruct (between 128 191 b) eqn:E; [|done]. exfalso. revert Hs.
      unfold between in *.
      repeat (match goal with |- context [if ?c then _ else _] => destruct c eqn:? end; [lia|]). done. }
    revert Hs.
    repeat (match goal with |- context [if ?c then _ else _] => destruct c end;
      [intros Hs; apply tail_from_well in Hs as (->&Hl&Hall&Ht); [|repeat constructor; cbn; lia];
       cbn [Nat.pred Nat.add] in *; rewrite ?utf8_tail_from; split_and!; [lia|lia|done..]|]).
    done.
Qed.

Lemma is_char_shape c : is_char c ->
  boundary c /\ exists b t, c = b :: t /\ Forall (fun b => is_cont b = true) t.
Proof.
  intros (b&t&->&Hs). apply utf8_step_well in Hs as (_&Hb&Ht&_). split.
  - intros b' l' [= <- <-]. done.
  - exists b, t. split; [done|]. cbn in Ht. by rewrite take_ge in Ht.
Qed.

Lemma is_char_ne c : is_char c -> c <> [].
Proof. by intros (b&t&->&_). Qed.

Lemma utf8_step_char b l n : utf8_step b l = UWell n -> is_char (take n (b :: l)).
Proof.
  intros ([Hp Hn]&_&_&Hs)%utf8_step_well. destruct n as [|n]; [lia|].
  exists b, (take n l). split; [done|]. cbn [take Nat.pred] in *. rewrite Hs. f_equal.
  cbn. rewrite length_take. lia.
Qed.

Lemma is_char_step b t m : is_char (b :: t) -> utf8_step b (t ++ m) = UWell (S (length t)).
Proof. intros (?&?&[= <- <-]&Hs). by apply utf8_step_app with (m := m) in Hs as [-> _]. Qed.

(** ** Texts *)

Lemma utf8_error_chars fuel upto l :
  (length l <= fuel)%nat -> utf8_error fuel upto l = None <-> chars l.
Proof.
  intros Hf. split.
  - revert upto l Hf. induction fuel as [|fuel IH]; intros upto [|b l] Hf; cbn in Hf.
    1-3: try (intros _; constructor); lia.
    cbn [utf8_error]. destruct (utf8_step b l) as [n| |] eqn:E; [|done..].
    apply utf8_step_well in E as Hn. destruct Hn as ([Hp Hn]&_).
    intros Hc%IH; [|rewrite length_drop; cbn; lia].
    rewrite -(take_drop n (b :: l)). constructor; [by apply utf8_step_char|done].
  - intros Hc. revert fuel upto Hf. induction Hc as [|c l Hc Hl IH]; intros fuel upto Hf; [by destruct fuel|].
    destruct c as [|b t]; [by apply is_char_ne in Hc|]. destruct fuel as [|fuel]; [cbn in Hf; lia|].
    cbn [app utf8_error]. rewrite is_char_step //.
    rewrite (drop_app_length' (b :: t) l (S (length t)) eq_refl). apply IH.
    cbn in Hf. rewrite length_app in Hf. lia.
Qed.

Lemma utf8_valid_chars l : utf8_valid l <-> chars l.
Proof. by apply utf8_error_chars. Qed.

Lemma chars_app a b : chars a -> chars b -> chars (a ++ b).
Proof.
  intros Ha Hb. induction Ha as [|c a Hc Ha IH]; [done|]. rewrite -app_assoc. by constructor.
Qed.

Lemma chars_boundary l : chars l -> boundary l.
Proof.
  intros [|c l' Hc Hl]; [done|]. apply is_char_shape in Hc as [Hb (b&t&->&_)].
  intros ?? [= <- _]. by eapply Hb.
Qed.

(** A text falls into two at a boundary. *)
Lemma chars_cut a b : chars (a ++ b) -> boundary b -> chars a /\ chars b.
Proof.
  remember (a ++ b) as l eqn:El. intros Hc Hb. revert a El. induction Hc as [|c l Hc Hl IH]; intros a El.
  - symmetry in El. apply app_eq_nil in El as [-> ->]. split; constructor.
  - apply app_eq_inv in El as [(k&->&->)|(k&->&->)].
    + destruct (is_char_shape _ Hc) as [_ (x&t&Hx&Ht)]. destruct a as [|y a].
      * split; [constructor|]. by constructor.
      * destruct k as [|z k].
        { rewrite app_nil_r in Hc |- *. split; [|done]. rewrite -(app_nil_r (y :: a)). constructor; [done|constructor]. }
        exfalso. injection Hx as -> <-. apply Forall_app in Ht as [_ Ht].
        apply list.Forall_cons in Ht as [Hz _]. specialize (Hb z _ eq_refl). congruence.
    + destruct (IH k eq_refl) as [Hk Hb']. split; [by constructor|done].
Qed.

(** What follows a text in a text is a text. *)
Lemma chars_tail a b : chars (a ++ b) -> chars a -> chars b.
Proof.
  intros Hab Ha. induction Ha as [|c a Hc Ha IH]; [done|]. apply IH. clear IH.
  rewrite -app_assoc in Hab. inversion Hab as [E|c' l Hc' Hl E].
  - destruct c; [by apply is_char_ne in Hc|done].
  - destruct c as [|x t]; [by apply is_char_ne in Hc|]. destruct c' as [|x' t']; [by apply is_char_ne in Hc'|].
    injection E as -> E. pose proof (is_char_step _ _ (a ++ b) Hc) as H1.
    pose proof (is_char_step _ _ l Hc') as H2. rewrite -E H2 in H1. injection H1 as H1.
    by apply app_inj_1 in E as [_ ->].
Qed.

Lemma utf8_lossy_chars fuel l : chars (utf8_lossy fuel l).
Proof.
  assert (Hr : is_char REPLACEMENT) by (by do 2 eexists; split; [reflexivity|vm_compute]).
  revert l. induction fuel as [|fuel IH]; intros [|b l]; cbn [utf8_lossy]; try constructor.
  destruct (utf8_step b l) as [n|n|] eqn:E.
  - constructor; [by apply utf8_step_char|apply IH].
  - constructor; [done|apply IH].
  - rewrite -(app_nil_r REPLACEMENT). constructor; [done|constructor].
Qed.

(** ** Substrings *)

(** [str::find] with what is before and after the first occurrence. *)
Fixpoint find_sub (r l : bytes) : option (bytes * bytes) :=
  match strip_prefix r l with
  | Some following => Some ([], following)
  | None =>
      match l with
      | [] => None
      | b :: l => '(before, following) ← find_sub r l; Some (b :: before, following)
      end
  end.

Lemma strip_prefix_None r l : strip_prefix r l = None <-> forall m, l <> r ++ m.
Proof.
  split.
  - intros Hn m ->. assert (strip_prefix r (r ++ m) = Some m) by by apply strip_prefix_Some. congruence.
  - intros Hn. destruct (strip_prefix r l) as [m|] eqn:E; [|done].
    apply strip_prefix_Some in E. by destruct (Hn m).
Qed.

(** The first occurrence: every other starts no earlier. *)
Lemma find_sub_Some r l before following : find_sub r l = Some (before, following) ->
  l = before ++ r ++ following /\
  forall a b, l = a ++ r ++ b -> (length before <= length a)%nat.
Proof.
  revert before following. induction l as [|x l IH]; intros before following; cbn [find_sub].
  - destruct (strip_prefix r []) as [m|] eqn:E; [|done]. intros [= <- <-].
    apply strip_prefix_Some in E. split; [done|]. intros; cbn; lia.
  - destruct (strip_prefix r (x :: l)) as [m|] eqn:E.
    + intros [= <- <-]. apply strip_prefix_Some in E. split; [done|]. intros; cbn; lia.
    + destruct (find_sub r l) as [[p q]|] eqn:Ef; [|done]. intros [= <- <-].
      destruct (IH p q eq_refl) as [-> Hmin]. split; [done|]. intros [|y a] b Hl.
      * rewrite strip_prefix_None in E. by destruct (E b).
      * cbn. injection Hl as _ Hl. apply Hmin in Hl. lia.
Qed.

Lemma find_sub_None r l : find_sub r l = None -> forall a b, l <> a ++ r ++ b.
Proof.
  induction l as [|x l IH]; cbn [find_sub].
  - destruct (strip_prefix r []) as [m|] eqn:E; [done|]. intros _ a b Hl.
    rewrite strip_prefix_None in E. symmetry in Hl. apply app_eq_nil in Hl as [_ Hl]. by destruct (E b).
  - destruct (strip_prefix r (x :: l)) as [m|] eqn:E; [done|].
    destruct (find_sub r l) as [[p q]|] eqn:Ef; [done|]. intros _ [|y a] b Hl.
    + rewrite strip_prefix_None in E. by destruct (E b).
    + injection Hl as _ Hl. by destruct (IH eq_refl a b).
Qed.
