(* ===== verification/Sanitize.v ===== *)
(** The text of a failure bundle, from [run.rs]: private paths are replaced in
    the error and in the retained logs, which are cut to a bound. *)

From stdpp Require Import ssreflect.
From Stdlib Require Import Strings.Byte.
From S2P Require Import Prelude Types Std Text Protocol Tree.

Definition MAX_FAILURE_LOG_BYTES : Z := 64 * 1024.
Definition MAX_FAILURE_TEXT_BYTES : Z := 64 * 1024.
Definition PRIVATE_PATH : bytes := as_bytes "<private-path>".

(** ** Representations of a path *)

(** [path.replace(',', ",,")]. *)
Definition qemu_escape_path (path : bytes) : bytes :=
  flat_map (fun b => if bool_decide (b = ","%byte) then [b; b] else [b]) path.

(** [char::escape_debug] of a character that is not ASCII, which depends on the
    Unicode tables: [true] for the first character of a text, where a combining
    character is escaped too. *)
Class EscapeUnicode := { escape_unicode : bool -> bytes -> bytes }.

Section escape.
Context `{EscapeUnicode}.

(** The code point of an ASCII control in lower-case hexadecimal, without zeros
    in front. *)
Definition control_hex (b : byte) : bytes :=
  let h := hex_char (Z.shiftr (byte_Z b) 4) in
  (if bool_decide (h = "0"%byte) then [] else [h]) ++ [hex_char (Z.land (byte_Z b) 15)].

Definition escape_ascii (b : byte) : bytes :=
  if byte_Z b =? 0 then as_bytes "\0"
  else if byte_Z b =? 9 then as_bytes "\t"
  else if byte_Z b =? 13 then as_bytes "\r"
  else if byte_Z b =? 10 then as_bytes "\n"
  else if (byte_Z b =? 92) || (byte_Z b =? 34) || (byte_Z b =? 39) then ["\"%byte; b]
  else if between 32 126 b then [b]
  else as_bytes "\u{" ++ control_hex b ++ as_bytes "}".

Definition escape_char (first : bool) (c : bytes) : bytes :=
  match c with
  | [b] => escape_ascii b
  | _ => escape_unicode first c
  end.

(** [str::escape_debug] of a text; a round takes one character. *)
Fixpoint escape_from (fuel : nat) (first : bool) (l : bytes) : bytes :=
  match fuel, l with
  | S fuel, b :: rest =>
      match utf8_step b rest with
      | UWell n => escape_char first (take n l) ++ escape_from fuel false (drop n l)
      | _ => []
      end
  | _, _ => []
  end.
Definition escape_debug (path : bytes) : bytes := escape_from (length path) true path.

Definition representations (path : bytes) : list bytes :=
  [qemu_escape_path path; path; escape_debug path].

(** ** Replacement *)

(** The characters that continue a file name. *)
Definition path_continues (b : byte) : bool :=
  is_ascii_alphanumeric b || bool_decide (b = "-"%byte) || bool_decide (b = "_"%byte)
  || bool_decide (b = "."%byte).
Definition complete (following : bytes) : bool :=
  match following with b :: _ => negb (path_continues b) | [] => true end.

(** One turn per occurrence; a representation is not empty. *)
Fixpoint replace_loop (fuel : nat) (representation rest : bytes) : bytes :=
  match fuel with
  | O => rest
  | S fuel =>
      match find_sub representation rest with
      | None => rest
      | Some (before, following) =>
          before ++ (if complete following then PRIVATE_PATH else representation)
            ++ replace_loop fuel representation following
      end
  end.
Definition replace_private_path (log representation : bytes) : bytes :=
  replace_loop (length log) representation log.

Fixpoint skip_continuation (l : bytes) : bytes :=
  match l with
  | b :: l' => if is_cont b then skip_continuation l' else l
  | [] => []
  end.

(** The paths are those that are text. *)
Definition sanitize_diagnostic_log (data : bytes) (private_paths : list bytes) : bytes :=
  let log := fold_left (fun log path =>
      match path with
      | [] => log
      | _ => fold_left replace_private_path (representations path) log
      end) private_paths (utf8_lossy (length data) data) in
  if zlen log <=? MAX_FAILURE_TEXT_BYTES then log
  else skip_continuation (drop (Z.to_nat (zlen log - MAX_FAILURE_TEXT_BYTES)) log).

(** ** The cut log *)

(** The longest rest of [representation] the window starts with. *)
Fixpoint discard_of (data representation : bytes) : Z :=
  match representation with
  | [] => 0
  | _ :: rest =>
      if starts_with representation data then zlen representation else discard_of data rest
  end.

Definition discard_partial_private_path (data : bytes) (private_paths : list bytes) : bytes :=
  let discard := fold_left Z.max
    (flat_map (fun path => [discard_of data path; discard_of data (qemu_escape_path path)])
       private_paths) 0 in
  let discard :=
    if (0 <? discard) && bool_decide (data !! Z.to_nat discard = Some NEWLINE) then discard + 1
    else discard in
  drop (Z.to_nat discard) data.

(** The bytes of a log that are read. *)
Definition log_window (private_paths : list bytes) : Z :=
  let overlap := fold_left Z.max (map (fun path => zlen (qemu_escape_path path)) private_paths) 0 in
  saturating_add64 (saturating_add64 MAX_FAILURE_LOG_BYTES overlap) 1.
End escape.

(** ** Clean text *)

(** A whole private path stands in the text. *)
Definition exposed (representation l : bytes) : Prop :=
  exists a b, l = a ++ representation ++ b /\ complete b = true.

(** No rest of [representation] starts it over where the name continues: an
    occurrence never begins inside one that was passed over. *)
Definition self_delimiting (representation : bytes) : bool :=
  forallb (fun k =>
    let rest := drop k representation in
    negb (starts_with rest representation)
    || match representation !! (length rest) with Some b => negb (path_continues b) | None => true end)
  (seq 1 (pred (length representation))).

(** The shape of an absolute path, in every representation. *)
Record path_shaped (representation : bytes) : Prop := {
  ps_head : head representation = Some SLASH;
  ps_plain : "<"%byte ∉ representation;
}.

(** [l] with some texts that begin with a slash replaced. *)
Inductive marked : bytes -> bytes -> Prop :=
  | marked_same l : marked l l
  | marked_at a x l out :
      head x = Some SLASH -> marked l out -> marked (a ++ x ++ l) (a ++ PRIVATE_PATH ++ out).

Lemma marked_app a l out : marked l out -> marked (a ++ l) (a ++ out).
Proof.
  intros [l'|b x l' out' Hx Hm]; [constructor|]. rewrite !(app_assoc a b). by constructor.
Qed.

Lemma marked_trans_find representation l : head representation = Some SLASH ->
  marked l (replace_private_path l representation).
Proof.
  intros Hh. unfold replace_private_path. generalize (length l) as fuel. intros fuel.
  revert l. induction fuel as [|fuel IH]; intros l; cbn [replace_loop]; [constructor|].
  destruct (find_sub representation l) as [[before following]|] eqn:E; [|constructor].
  apply find_sub_Some in E as [-> _]. destruct (complete following).
  - by constructor.
  - apply marked_app, marked_app, IH.
Qed.

(** Where a rest of [u ++ v] begins. *)
Lemma rest_cases {A} (a s u v : list A) : a ++ s = u ++ v ->
  (exists u', u' <> [] /\ u = a ++ u' /\ s = u' ++ v) \/ (exists a', v = a' ++ s).
Proof.
  intros [(k&->&->)|(k&->&->)]%app_eq_inv.
  - right. by exists k.
  - destruct k as [|x k]; [right; by exists []|]. left. by exists (x :: k).
Qed.

Lemma marker_no_slash : SLASH ∉ PRIVATE_PATH.
Proof. rewrite -contains_byte_false. by vm_compute. Qed.
Lemma marker_head l k b r : PRIVATE_PATH ++ l = k ++ b -> k <> [] -> r = k \/ (exists u, r = u ++ k) ->
  "<"%byte ∈ r.
Proof.
  intros E Hk. destruct k as [|x k]; [done|]. injection E as <- _.
  intros [->|[u ->]]; set_solver.
Qed.

Lemma exposed_rest r a l : exposed r l -> exposed r (a ++ l).
Proof. intros (p&b&->&Hb). exists (a ++ p), b. by rewrite app_assoc. Qed.

Section clean.
Context (r : bytes) (Hr : path_shaped r).
#[local] Set Default Proof Using "All".

Lemma shaped_ne : r <> [].
Proof. intros ->. by destruct Hr. Qed.

(** Not inside a marker. *)
Lemma not_in_marker m l b : m <> [] -> (exists m', PRIVATE_PATH = m' ++ m) -> m ++ l = r ++ b -> False.
Proof.
  intros Hm [m' E] Es. destruct Hr as [Hh _]. destruct r as [|x r']; [done|]. injection Hh as ->.
  destruct m as [|y m]; [done|]. injection Es as -> _.
  apply marker_no_slash. rewrite E. set_solver.
Qed.

(** Replacing texts that begin with a slash exposes no path. *)
Lemma marked_clean l out : marked l out -> exposed r out -> exposed r l.
Proof.
  intros Hm. induction Hm as [|a x l out Hx Hm IH]; [done|].
  intros (p&b&E&Hb). symmetry in E. apply rest_cases in E as [(u&Hu&->&E)|[p' E]].
  - assert (Hend : forall k, b = k ++ PRIVATE_PATH ++ out -> complete (k ++ x ++ l) = true).
    { intros [|y k] ->; cbn in *; [|done]. by destruct x; [|injection Hx as ->]. }
    symmetry in E. apply app_eq_inv in E as [(k&->&E)|(k&Er&E)].
    + exists p, (k ++ x ++ l). rewrite -!app_assoc. split; [done|]. by apply Hend.
    + destruct k as [|y k].
      * rewrite app_nil_r in Er. subst u. exists p, (x ++ l). rewrite -app_assoc. split; [done|].
        by apply (Hend []).
      * destruct Hr as [_ Hp]. destruct Hp. eapply (marker_head out (y :: k)); [by rewrite E|done|eauto].
  - symmetry in E. apply rest_cases in E as [(m&Hne&HM&E)|[a' ->]].
    + exfalso. eapply (not_in_marker m); [done|by exists p'|by symmetry].
    + apply exposed_rest, exposed_rest, IH. by exists a', b.
Qed.

Lemma self_delimiting_spec u k y : self_delimiting r = true -> u <> [] ->
  (exists a, a <> [] /\ r = a ++ u) -> r = u ++ y :: k -> path_continues y = false.
Proof.
  intros Hs Hu (a&Ha&E1) E2. unfold self_delimiting in Hs.
  assert (Hd : drop (length a) r = u) by (rewrite E1; by apply drop_app_length).
  apply forallb_forall with (x := length a) in Hs.
  - rewrite Hd in Hs. apply orb_true_iff in Hs as [Hs|Hs].
    + apply negb_true_iff in Hs. exfalso. revert Hs. rewrite E2. clear.
      induction u as [|z u IH]; [done|]. cbn. by rewrite bool_decide_eq_true_2.
    + rewrite E2 lookup_app_r // Nat.sub_diag in Hs. cbn in Hs. by apply negb_true_iff in Hs.
  - apply in_seq. rewrite E1 length_app. destruct a; [by destruct Ha|]. destruct u; [by destruct Hu|]. cbn. lia.
Qed.

(** What replacement leaves starts like what it was given, unless an occurrence
    does. *)
Lemma replace_loop_head fuel y l : y <> SLASH ->
  exists l', replace_loop fuel r (y :: l) = y :: l'.
Proof.
  intros Hy. destruct fuel as [|fuel]; cbn [replace_loop]; [by eexists|].
  destruct (find_sub r (y :: l)) as [[[|z before] following]|] eqn:E; [| |by eexists].
  - apply find_sub_Some in E as [E _]. destruct Hr as [Hh _]. exfalso. destruct r; [done|].
    cbn in *. congruence.
  - apply find_sub_Some in E as [[= <- _] _]. by eexists.
Qed.

Lemma replace_loop_clean fuel l : self_delimiting r = true -> (length l <= fuel)%nat ->
  ~ exposed r (replace_loop fuel r l).
Proof.
  intros Hs. revert l. induction fuel as [|fuel IH]; intros l Hf.
  { destruct l; [|cbn in Hf; lia]. cbn. intros (a&b&E&_). symmetry in E.
    apply app_eq_nil in E as [_ E]. apply app_eq_nil in E as [E _]. by apply shaped_ne in E. }
  cbn [replace_loop]. destruct (find_sub r l) as [[before following]|] eqn:Ef.
  2: { intros (a&b&E&_). by apply (find_sub_None _ _ Ef a b). }
  apply find_sub_Some in Ef as [-> Hmin].
  assert (Hfol : (length following <= fuel)%nat).
  { rewrite !length_app in Hf. pose proof shaped_ne. destruct r; [done|]. cbn in Hf. lia. }
  specialize (IH following Hfol). set (out := replace_loop fuel r following) in *.
  intros (p&b&E&Hb). symmetry in E. apply rest_cases in E as [(u&Hu&->&E)|[p' E]].
  - (* it would begin before the first occurrence *)
    assert (Hno : forall m, u ++ r ++ following <> r ++ m).
    { intros m Em. specialize (Hmin p m). rewrite -app_assoc Em in Hmin. specialize (Hmin eq_refl).
      rewrite length_app in Hmin. destruct u; [done|]. cbn in Hmin. lia. }
    symmetry in E. apply app_eq_inv in E as [(k&->&E)|(k&Er&E)].
    { apply (Hno (k ++ r ++ following)). by rewrite -app_assoc. }
    destruct k as [|y k].
    { rewrite app_nil_r in Er. subst u. by apply (Hno (r ++ following)). }
    destruct (complete following).
    + destruct Hr as [_ Hp]. destruct Hp. eapply (marker_head out (y :: k)); [exact E|done|eauto].
    + assert (Hk : (length (y :: k) < length r)%nat).
      { rewrite Er length_app. destruct u; [done|]. cbn. lia. }
      apply app_eq_inv in E as [(m&E&_)|(m&E&_)].
      * apply (Hno (m ++ following)). rewrite {1}E -!app_assoc. rewrite [in RHS]Er. by rewrite -!app_assoc.
      * apply (f_equal length) in E. rewrite length_app in E. lia.
  - destruct (complete following) eqn:Ec; symmetry in E;
      apply rest_cases in E as [(m&Hne&HM&E)|[a' E]].
    + eapply (not_in_marker m); [done|by exists p'|by symmetry].
    + apply IH. exists a', b. by rewrite E.
    + destruct following as [|y following]; [done|]. cbn in Ec. apply negb_false_iff in Ec.
      assert (Hy : y <> SLASH) by (intros ->; by vm_compute in Ec).
      destruct (replace_loop_head fuel y following Hy) as [l' El']. fold out in El'.
      destruct p' as [|z p'].
      * cbn in HM. subst m. apply app_inv_head in E as ->. rewrite El' in Hb.
        cbn in Hb. by rewrite Ec in Hb.
      * assert (Hl : (length m < length r)%nat) by (rewrite HM length_app; cbn; lia).
        apply app_eq_inv in E as [(k&Ek&E)|(k&Ek&E)].
        2: { apply (f_equal length) in Ek. rewrite length_app in Ek. lia. }
        destruct k as [|w k]; [rewrite app_nil_r in Ek; rewrite Ek in Hl; lia|].
        rewrite El' in E. injection E as <- _.
        rewrite (self_delimiting_spec m k y) in Ec; [done..| |done]. by exists (z :: p').
    + apply IH. exists a', b. by rewrite E.
Qed.

Lemma replace_clean l : self_delimiting r = true -> ~ exposed r (replace_private_path l r).
Proof. intros Hs. by apply replace_loop_clean. Qed.
End clean.

(** ** The sanitized text *)

(** Documented behaviour of [char::escape_debug]: a character stays as it is or
    becomes a Unicode escape. *)
Class EscapeUnicodeLaws `{EscapeUnicode} := {
  escape_unicode_shape first c : escape_unicode first c = c \/
    exists digits, Forall (fun b => lower_hex b = true) digits /\
      escape_unicode first c = as_bytes "\u{" ++ digits ++ as_bytes "}";
}.

(** The private paths of a failure: absolute, and without the character that
    opens the mark. *)
Record private_path (path : bytes) : Prop := {
  pp_text : chars path;
  pp_shape : path_shaped path;
}.

Lemma ascii_char b : byte_Z b < 128 -> is_char [b].
Proof.
  intros Hb. exists b, []. split; [done|]. unfold utf8_step.
  by rewrite (proj2 (Z.ltb_lt _ _) Hb).
Qed.
Lemma ascii_chars l : is_ascii l -> chars l.
Proof.
  intros Hl. induction Hl as [|b l Hb Hl IH]; [constructor|].
  change (b :: l) with ([b] ++ l). constructor; [by apply ascii_char|done].
Qed.

Lemma escape_ascii_plain b : contains_byte "<"%byte (escape_ascii b) = bool_decide (b = "<"%byte).
Proof. destruct b; by vm_compute. Qed.
Lemma escape_ascii_ascii b : byte_Z b < 128 -> is_ascii (escape_ascii b).
Proof.
  intros Hb. unfold is_ascii. apply list.Forall_forall. intros c Hc. revert Hb. revert c Hc.
  rewrite -list.Forall_forall. destruct b; intros; try (exfalso; revert Hb; vm_compute; congruence);
    vm_compute; repeat constructor.
Qed.

Lemma lower_hex_plain digits : Forall (fun b => lower_hex b = true) digits ->
  is_ascii digits /\ "<"%byte ∉ digits.
Proof.
  intros Hd. split.
  - unfold is_ascii. eapply list.Forall_impl; [exact Hd|]. intros b Hb. cbn beta in Hb.
    unfold lower_hex in Hb. lia.
  - intros Hin. rewrite list.Forall_forall in Hd. apply Hd in Hin. by vm_compute in Hin.
Qed.

Lemma unicode_escape_plain digits : Forall (fun b => lower_hex b = true) digits ->
  chars (as_bytes "\u{" ++ digits ++ as_bytes "}") /\
  "<"%byte ∉ as_bytes "\u{" ++ digits ++ as_bytes "}".
Proof.
  intros [Ha Hn]%lower_hex_plain. split.
  - apply chars_app; [apply ascii_chars; repeat constructor|].
    apply chars_app; [by apply ascii_chars|apply ascii_chars; repeat constructor].
  - rewrite !not_elem_of_app. split_and!; [|done|]; rewrite -contains_byte_false; by vm_compute.
Qed.

Lemma chars_char c : is_char c -> chars c.
Proof. intros Hc. rewrite -(app_nil_r c). constructor; [done|constructor]. Qed.

Section representations.
Context `{EscapeUnicodeLaws}.
#[local] Set Default Proof Using "All".

Lemma escape_char_chars first c : is_char c -> chars (escape_char first c).
Proof.
  intros Hc. pose proof (chars_char c Hc) as Ht. destruct Hc as (b&t&->&Hs). destruct t as [|b' t].
  - cbn. apply ascii_chars, escape_ascii_ascii. destruct (Z.ltb_spec (byte_Z b) 128); [done|].
    revert Hs. unfold utf8_step. rewrite (proj2 (Z.ltb_ge _ _)) //.
    repeat (match goal with |- context [if ?c then _ else _] => destruct c end; [done|]). done.
  - cbn [escape_char]. destruct (escape_unicode_shape first (b :: b' :: t)) as [->|(digits&Hd&->)]; [done|].
    by apply unicode_escape_plain.
Qed.

Lemma escape_char_plain first c : "<"%byte ∉ c -> "<"%byte ∉ escape_char first c.
Proof.
  intros Hc. destruct c as [|b [|b' t]].
  - cbn. destruct (escape_unicode_shape first []) as [->|(digits&Hd&->)]; [set_solver|].
    by apply unicode_escape_plain.
  - cbn. rewrite -contains_byte_false escape_ascii_plain bool_decide_eq_false. set_solver.
  - cbn [escape_char]. destruct (escape_unicode_shape first (b :: b' :: t)) as [->|(digits&Hd&->)]; [done|].
    by apply unicode_escape_plain.
Qed.

Lemma escape_from_spec fuel first l : (length l <= fuel)%nat -> chars l ->
  chars (escape_from fuel first l) /\ ("<"%byte ∉ l -> "<"%byte ∉ escape_from fuel first l).
Proof.
  intros Hf Hc. revert fuel first Hf. induction Hc as [|c l Hc Hl IH]; intros fuel first Hf.
  { destruct fuel; (split; [constructor|done]). }
  pose proof Hc as (b&t&->&_). destruct fuel as [|fuel]; [cbn in Hf; lia|]. cbn [app escape_from].
  rewrite is_char_step // (take_app_length' (b :: t) l (S (length t)) eq_refl)
    (drop_app_length' (b :: t) l (S (length t)) eq_refl).
  destruct (IH fuel false) as [H1 H2]; [cbn in Hf; rewrite length_app in Hf; lia|]. split.
  - apply chars_app; [by apply escape_char_chars|done].
  - intros Hn. rewrite (app_comm_cons t l b) in Hn. apply not_elem_of_app in Hn as [Hn1 Hn2].
    apply not_elem_of_app. split; [by apply escape_char_plain|by apply H2].
Qed.

Lemma qemu_escape_chars path : chars path -> chars (qemu_escape_path path).
Proof.
  intros Hc. induction Hc as [|c l Hc Hl IH]; [constructor|].
  unfold qemu_escape_path. rewrite flat_map_app. apply chars_app; [|exact IH]. clear IH.
  assert (Hcomma : c = [","%byte] \/ ","%byte ∉ c).
  { destruct (is_char_shape c Hc) as [_ (b&t&->&Ht)]. destruct (decide (b = ","%byte)) as [->|Hb].
    - left. destruct Hc as (?&?&[= <- <-]&Hs). revert Hs. vm_compute. intros [= Hs]. by destruct t.
    - right. intros [E|Hin]%elem_of_cons; [congruence|]. rewrite list.Forall_forall in Ht.
      apply Ht in Hin. by vm_compute in Hin. }
  destruct Hcomma as [->|Hno]; [apply ascii_chars; by repeat constructor|].
  assert (flat_map (fun b => if bool_decide (b = ","%byte) then [b; b] else [b]) c = c) as ->.
  { clear Hc. induction c as [|b c IH]; [done|]. cbn. apply not_elem_of_cons in Hno as [H1 H2].
    rewrite bool_decide_eq_false_2; [cbn; by rewrite IH|congruence]. }
  by apply chars_char.
Qed.

(** Every representation of a private path is one. *)
Lemma representations_private path : private_path path ->
  Forall private_path (representations path).
Proof.
  intros [Ht [Hh Hp]]. unfold representations.
  destruct (escape_from_spec (length path) true path (le_n _) Ht) as [He1 He2].
  destruct path as [|b path]; [done|]. injection Hh as ->.
  constructor; [|constructor; [|constructor; [|constructor]]].
  - constructor; [by apply qemu_escape_chars|]. constructor; [done|].
    unfold qemu_escape_path. rewrite list_elem_of_In in_flat_map. intros (b&Hb&Hin).
    assert (b = "<"%byte) as -> by (revert Hin; case_bool_decide; cbn; intuition).
    by apply Hp, list_elem_of_In.
  - by constructor.
  - constructor; [exact He1|]. constructor; [|by apply He2].
    unfold escape_debug. cbn [length escape_from].
    assert (utf8_step SLASH path = UWell 1) as -> by done. by cbn [take escape_char].
Qed.
End representations.

(** Replacement keeps well-formed text. *)
Lemma replace_loop_chars r fuel l : private_path r -> chars l -> chars (replace_loop fuel r l).
Proof.
  intros [Ht [Hh _]]. revert l. induction fuel as [|fuel IH]; intros l Hl; cbn [replace_loop]; [done|].
  destruct (find_sub r l) as [[before following]|] eqn:E; [|done].
  apply find_sub_Some in E as [-> _].
  destruct (chars_cut before (r ++ following) Hl) as [Hb Hrest].
  { destruct r as [|b r]; [done|]. intros ?? [= <- _]. by apply (chars_boundary _ Ht _ r). }
  pose proof (chars_tail r following Hrest Ht) as Hfol.
  apply chars_app; [done|]. apply chars_app; [|by apply IH].
  destruct (complete following); [by apply ascii_chars; repeat constructor|done].
Qed.

Lemma skip_continuation_spec l : exists a, l = a ++ skip_continuation l /\ boundary (skip_continuation l).
Proof.
  induction l as [|b l (a&IH&Hb)]; [by exists []|]. cbn [skip_continuation].
  destruct (is_cont b) eqn:E; [exists (b :: a); by rewrite {1}IH|]. exists []. split; [done|].
  by intros ?? [= <- <-].
Qed.

Lemma fold_max_ge l z : z <= fold_left Z.max l z /\ forall x, x ∈ l -> x <= fold_left Z.max l z.
Proof.
  revert z. induction l as [|y l IH]; intros z; cbn; [split; [lia|set_solver]|].
  destruct (IH (Z.max z y)) as [H1 H2]. split; [lia|]. intros x [->|Hx]%elem_of_cons; [lia|by apply H2].
Qed.

Section sanitized.
Context `{EscapeUnicodeLaws}.
#[local] Set Default Proof Using "All".

Definition all_representations (paths : list bytes) : list bytes :=
  flat_map (fun path => match path with [] => [] | _ => representations path end) paths.

Lemma sanitize_fold paths log :
  fold_left (fun log path => match path with
    | [] => log | _ => fold_left replace_private_path (representations path) log end) paths log
  = fold_left replace_private_path (all_representations paths) log.
Proof.
  revert log. induction paths as [|path paths IH]; intros log; [done|]. cbn [fold_left all_representations flat_map].
  rewrite fold_left_app IH. by destruct path.
Qed.

Lemma all_private paths : Forall private_path paths -> Forall private_path (all_representations paths).
Proof.
  induction 1 as [|path paths Hp Hall IH]; [constructor|]. cbn. apply Forall_app. split; [|done].
  destruct path; [constructor|]. by apply representations_private.
Qed.

Lemma replaced_all rs log : Forall private_path rs -> chars log ->
  let out := fold_left replace_private_path rs log in
  chars out /\ (forall r, path_shaped r -> ~ exposed r log -> ~ exposed r out) /\
  forall r, r ∈ rs -> self_delimiting r = true -> ~ exposed r out.
Proof.
  intros Hrs. revert log. induction Hrs as [|r0 rs Hr0 Hrs IH]; intros log Hlog; cbn [fold_left].
  - split_and!; [done..|]. by intros r ?%not_elem_of_nil.
  - destruct (IH (replace_private_path log r0)) as (H1&H2&H3).
    { by apply replace_loop_chars. }
    assert (Hkeep : forall r, path_shaped r -> ~ exposed r log -> ~ exposed r (replace_private_path log r0)).
    { intros r Hr Hn He. apply Hn. eapply marked_clean; [done| |exact He].
      apply marked_trans_find. apply Hr0. }
    split_and!; [done| |].
    + intros r Hr Hn. by apply H2, Hkeep.
    + intros r [->|Hr]%elem_of_cons Hs; [|by apply H3].
      apply H2; [apply Hr0|]. apply replace_clean; [apply Hr0|done].
Qed.

(** The text a failure bundle keeps is safe to share.  Whatever bytes come from an
    error or a log, and whatever private paths are named, the sanitized text is
    well-formed UTF-8, so the conversion back to a string cannot panic; it has at
    most [MAX_FAILURE_TEXT_BYTES] bytes; and no private path stands in it as a
    whole path, neither plainly nor with the escaping of QEMU nor with that of
    [Debug].  A path of which a rest starts it over is excepted: [/a/a] within
    [/a/a/a] is passed over with the occurrence before it. *)
Lemma sanitized_text data paths : Forall private_path paths ->
  utf8_valid (sanitize_diagnostic_log data paths) /\
  zlen (sanitize_diagnostic_log data paths) <= MAX_FAILURE_TEXT_BYTES /\
  forall path r, path ∈ paths -> r ∈ representations path -> self_delimiting r = true ->
    ~ exposed r (sanitize_diagnostic_log data paths).
Proof.
  intros Hp. unfold sanitize_diagnostic_log. rewrite sanitize_fold.
  destruct (replaced_all (all_representations paths) (utf8_lossy (length data) data)) as (Hc&_&Hclean);
    [by apply all_private|by apply utf8_lossy_chars|].
  set (log := fold_left _ _ _) in *.
  assert (Hall : forall path r, path ∈ paths -> r ∈ representations path -> r ∈ all_representations paths).
  { intros path r Hpath Hr. unfold all_representations. rewrite list_elem_of_In in_flat_map.
    exists path. split; [by apply list_elem_of_In|]. rewrite list.Forall_forall in Hp.
    apply Hp in Hpath as [_ [Hh _]]. destruct path; [done|]. by apply list_elem_of_In. }
  destruct (Z.leb_spec (zlen log) MAX_FAILURE_TEXT_BYTES) as [Hl|Hl].
  - split_and!; [by apply utf8_valid_chars|done|]. intros path r Hpath Hr Hs.
    eapply Hclean; [by eapply Hall|done].
  - set (rest := drop _ log). destruct (skip_continuation_spec rest) as (a&Ea&Hb).
    assert (Elog : log = (take (Z.to_nat (zlen log - MAX_FAILURE_TEXT_BYTES)) log ++ a)
      ++ skip_continuation rest) by (rewrite -app_assoc -Ea; by rewrite take_drop).
    split_and!.
    + apply utf8_valid_chars. rewrite Elog in Hc. by apply chars_cut in Hc as [_ Hc].
    + apply (f_equal zlen) in Ea. rewrite zlen_app in Ea. pose proof (zlen_nonneg a).
      assert (zlen rest = MAX_FAILURE_TEXT_BYTES); [|lia].
      unfold rest, zlen in *. rewrite length_drop. unfold MAX_FAILURE_TEXT_BYTES in *. lia.
    + intros path r Hpath Hr Hs Hex. eapply Hclean; [by eapply Hall|done|].
      rewrite Elog. by apply exposed_rest.
Qed.
End sanitized.

(** ** The window of a log *)

Section window.
Context `{EscapeUnicode}.

Lemma discard_of_ge data r u v b : r = u ++ v -> data = v ++ b -> zlen v <= discard_of data r.
Proof.
  intros -> ->. induction u as [|x u IH].
  - destruct v as [|y v]; [by cbn|]. cbn [app discard_of].
    change (y :: v ++ b) with ((y :: v) ++ b). by rewrite starts_with_app.
  - cbn [app discard_of]. destruct (starts_with _ _); [|done]. rewrite zlen_cons zlen_app.
    pose proof (zlen_nonneg u). lia.
Qed.

(** When the window of a log begins within a private path, plain or with QEMU's
    escaping, what it holds of that path is discarded. *)
Lemma split_path_discarded path r u v b paths :
  path ∈ paths -> r = path \/ r = qemu_escape_path path -> r = u ++ v ->
  exists a, b = a ++ discard_partial_private_path (v ++ b) paths.
Proof.
  intros Hpath Hr E. unfold discard_partial_private_path.
  set (discards := flat_map _ paths).
  assert (Hd : zlen v <= fold_left Z.max discards 0).
  { etrans; [by eapply (discard_of_ge (v ++ b) r u v b)|].
    destruct (fold_max_ge discards 0) as [_ Hge]. apply Hge. unfold discards.
    rewrite list_elem_of_In in_flat_map. exists path. split; [by apply list_elem_of_In|].
    cbn. destruct Hr as [->| ->]; auto. }
  set (n := if _ : bool then _ else _).
  assert (Hn : zlen v <= n) by (unfold n; case_match; lia).
  exists (take (Z.to_nat n - length v) b). unfold zlen in Hn.
  rewrite drop_app_ge; [by rewrite take_drop|lia].
Qed.
End window.
