(* ===== verification/RunBase.v ===== *)
(** What recording and replaying a run share, from [run.rs] and [vm.rs]: the
    options, the machine adapter, the stages of a drive, and the check that every
    control frame of a workload plan can be sent. *)

From stdpp Require Import ssreflect.
From Stdlib Require Import Strings.Byte.
From S2P Require Import Prelude Types Std Protocol Scenario Assertions Tree Fixture Effects Vm Driver Identity Root RunFiles Image.

Record RunOptions := {
  op_scenario : Handle;
  op_seed : Z;
  op_runs_directory : Handle;
  op_kernel : Handle;
  op_executable : Handle;
}.

Record ReplayOptions := {
  rp_directory : Handle;
  rp_kernel : Handle;
  rp_executable : Handle;
}.

(** ** The machine adapter *)

Record RecordConfig := {
  rc_kernel : Handle;
  rc_initramfs : Handle;
  rc_replay_log : Handle;
  rc_qmp_socket : Handle;
  rc_serial_log : Handle;
  rc_qemu_log : Handle;
  rc_network : option NetworkConfig;
}.

(** [std::process::ExitStatus]: whether it is a success, and its display. *)
Record QemuStatus := { qs_success : bool; qs_text : string }.

(** The traits [VmAdapter] and [RunningVm]; the operations of the drive are those
    of [Vm.RunningVm]. *)
Class VmAdapter (S V : Type) `{RunningVm V} := {
  launch_record : RecordConfig -> S -> (V + io_error) * S;
  launch_replay : RecordConfig -> VmIdentity -> S -> (V + io_error) * S;
  vm_identity : V -> VmIdentity;
  vm_wait : V -> S -> (QemuStatus + io_error) * S;
  vm_drop : V -> S -> S;                   (** [Drop], which ends the machine *)
}.

Definition at_stage (name : string) (d : FailureDiagnostics) : FailureDiagnostics :=
  MkDiagnostics d.(operation) name d.(backend_mode) d.(fixture_mode) d.(network_status)
    d.(network) d.(fault_transitions) d.(traffic) d.(packet_counters).

Section shared.
Context {S V : Type} `{RunFs S} `{VmAdapter S V}.

(** A value whose absence is a panic of the source. *)
Definition unwrap {A} (o : option A) : M S A :=
  match o with Some a => mret a | None => out_of_fuel end.

Definition create_private_dir (path : Handle) : M S unit :=
  made ← call (rf_create_dir path 448); or_io made.

Definition read_source (path : Handle) : M S bytes :=
  opened ← call (rf_open path);
  fd ← or_other opened;
  pieces ← call (fs_read fd);
  lift (read_take (MAX_SCENARIO_SOURCE_BYTES + 1) [] pieces).

Definition wait_for (vm : V) (what : string) : M S unit :=
  waited ← call (vm_wait vm);
  status ← or_other waited;
  fail_if (negb status.(qs_success)) (IoError Other (what +:+ " exited with " +:+ status.(qs_text))).

Definition read_fixture_entries (directory : Handle) : M S (list (string * bytes)) :=
  _ ← fail_if (bool_decide (to_str directory = None))
    (invalid_network "record fixture must be an absolute UTF-8 directory and may not be a symlink");
  opened ← call (rf_fixture_directory directory);
  handle ← or_other opened;
  lift (read_fixture_entries_from_handle handle).
End shared.

(** ** Control frames *)

Section control.
Context `{Serde CommandFrame} `{Serde EventFrame}.

Definition json_length {T} `{Serde T} (value : T) : result Z :=
  match to_vec value with inl body => Ok (zlen body) | inr e => Err (IoError Other e) end.

Definition frame_bytes (c : Command) : result Z :=
  json_length {| cmd_protocol_version := PROTOCOL_VERSION; cmd_command_id := U64_MAX; command := c |}.

Definition request_text (request : PlannedRequest) : string :=
  "fetch " +:+ request.(request_id) +:+ " " +:+ request.(payload) +:+ str_of [NEWLINE].

(** The longest input and the request it belongs to, so far. *)
Fixpoint widest_loop (widest : Z) (widest_request : string) (requests : list PlannedRequest)
    : result (Z * string) :=
  match requests with
  | [] => Ok (widest, widest_request)
  | request :: requests =>
      let size := str_len (request_text request) in
      if MAX_STDIN_FRAME_BYTES <? size then
        Err (invalid_data ("the planned input for " +:+ request.(request_id) +:+ " is "
          +:+ fmt_dec size +:+ " bytes, which exceeds the " +:+ fmt_dec MAX_STDIN_FRAME_BYTES
          +:+ "-byte input limit"))
      else if widest <? size then widest_loop size request.(request_id) requests
      else widest_loop widest widest_request requests
  end.

Definition frame_limit : string :=
  "exceeds the " +:+ fmt_dec MAX_FRAME_LENGTH +:+ "-byte control frame limit".

Definition validate_workload_control_frames (launch : LaunchIdentity) (choices : WorkloadChoicePlan)
    : result unit :=
  start ← frame_bytes (Start 1 launch);
  if MAX_FRAME_LENGTH <? start then
    Err (invalid_data ("the materialized launch identity needs a " +:+ fmt_dec start
      +:+ "-byte start command, which " +:+ frame_limit))
  else
  started ← json_length {| protocol_version := PROTOCOL_VERSION; event_id := U64_MAX;
    command_id := U64_MAX; event := WorkloadStarted U64_MAX launch;
    diagnostics := DiagnosticFields_default |};
  if MAX_FRAME_LENGTH <? started then
    Err (invalid_data ("the materialized launch identity needs a " +:+ fmt_dec started
      +:+ "-byte workload-started event, which " +:+ frame_limit))
  else
  '(widest, widest_request) ← widest_loop 0 "" choices.(requests);
  input ← frame_bytes (StdinWrite U64_MAX U64_MAX
    (encode_bytes (replicate (Z.to_nat widest) Byte.x00)));
  if MAX_FRAME_LENGTH <? input then
    Err (invalid_data ("the planned input for " +:+ widest_request +:+ " needs a "
      +:+ fmt_dec input +:+ "-byte command frame, which " +:+ frame_limit))
  else Ok tt.
End control.
