(* ===== verification/Process.v ===== *)
(** The processes the host starts, from [vm.rs]: ending a process group, the
    output of a probe, and the negotiation of the QMP channel.

    [ProcessHost] has one method per call of the host system.  The loops that wait
    on it carry fuel, one unit per turn. *)

From stdpp Require Import ssreflect.
From Stdlib Require Import Strings.Byte.
From S2P Require Import Prelude Types Std Protocol Tree Oci Effects Vm Root RunFiles Image RunBase.

(** ** The host *)

(** A child with its piped ends. *)
Record Child := {
  ch_pid : Z;
  ch_stdin : Z;
  ch_stdout : Z;
  ch_stderr : Z;
}.

(** [ProcessCommand]: the arguments, the working directory, and what the standard
    streams are connected to. *)
Inductive Stdio := Inherited | Piped | ToFile (path : Handle).
Record ProcessCommand := {
  pc_executable : Handle;
  pc_arguments : list string;
  pc_directory : option Handle;
  pc_stdin : Stdio;
  pc_stdout : Stdio;
  pc_stderr : Stdio;
}.

Class ProcessHost (S : Type) := {
  ps_now : S -> Z * S;                             (** [Instant::now], in nanoseconds *)
  ps_sleep : Z -> S -> S;
  (** [spawn] of a command that leads a group of its own and dies with its parent,
      as [configure_parent_death] arranges *)
  ps_spawn : ProcessCommand -> S -> (Child + io_error) * S;
  (** [waitid] with [WEXITED | WNOHANG | WNOWAIT]: the [si_pid] it fills in *)
  ps_waitid : Z -> S -> (Z + io_error) * S;
  ps_kill_group : Z -> S -> S;                     (** [kill(-pid, SIGKILL)], its answer ignored *)
  ps_wait : Z -> S -> (QemuStatus + io_error) * S; (** [Child::wait] *)
  ps_getfl : Z -> S -> (Z + io_error) * S;         (** [fcntl] with [F_GETFL] *)
  ps_setfl : Z -> Z -> S -> option io_error * S;   (** [fcntl] with [F_SETFL] *)
  ps_read : Z -> Z -> S -> (bytes + io_error) * S; (** [read] into a buffer of that length *)
  ps_write : Z -> bytes -> S -> (Z + io_error) * S;
  ps_connect : Handle -> S -> (Z + io_error) * S;  (** [UnixStream::connect] *)
  ps_nonblocking : Z -> S -> option io_error * S;  (** [UnixStream::pipe_nonblocking(true)] *)
}.

(** [serde_json] on values: [from_slice], [to_vec], and the display of a value. *)
Class SerdeValue := {
  value_from_slice : bytes -> Value + string;
  value_to_vec : Value -> bytes + string;
  value_display : Value -> string;
}.

Definition SECOND : Z := 1000000000.
Definition MILLISECOND : Z := 1000000.
Definition START_TIMEOUT : Z := 10 * SECOND.
Definition QMP_MESSAGE_LIMIT : Z := 64 * 1024.
Definition PROBE_OUTPUT_LIMIT : Z := 64 * 1024.
Definition PROBE_READ_BUDGET : Z := 64 * 1024.
Definition READ_BUFFER : Z := 4096.
Definition O_NONBLOCK : Z := 2048.

Section processes.
Context {S : Type} `{ProcessHost S}.

Definition now : M S Z := call ps_now.
Definition sleep (nanos : Z) : M S unit := call (fun s => (tt, ps_sleep nanos s)).

(** ** Ending a process *)

Definition terminate_process_group (pid : Z) : M S unit := call (fun s => (tt, ps_kill_group pid s)).
Definition terminate_child (pid : Z) : M S unit :=
  _ ← terminate_process_group pid; _ ← call (ps_wait pid); mret tt.
Definition child_exited (pid : Z) : M S bool :=
  r ← call (ps_waitid pid); information ← or_other r; mret (negb (information =? 0)).
Definition finish_exited_process_group (pid : Z) : M S QemuStatus :=
  _ ← terminate_process_group pid; r ← call (ps_wait pid); or_other r.

(** ** The output of a probe *)

Definition timed_out (message : string) : io_error := IoError TimedOut message.

(** [let Err(error) = ..], which ends the child before it is returned. *)
Definition or_terminate {A} (pid : Z) (m : M S A) : M S A :=
  r ← catch m;
  match r with
  | Ok a => mret a
  | Err e => _ ← terminate_child pid; throw e
  end.

Definition pipe_nonblocking (fd : Z) : M S unit :=
  r ← call (ps_getfl fd);
  flags ← or_other r;
  r ← call (ps_setfl fd (Z.lor flags O_NONBLOCK));
  or_io r.

(** What was read so far is retained up to a limit; the second component says
    whether the end was met. *)
Fixpoint read_available (fuel : nat) (input : Z) (retained : bytes) (eof : bool)
    (total_read deadline : Z) : M S (bytes * bool) :=
  match fuel with
  | O => out_of_fuel
  | Datatypes.S fuel =>
      at_ ← now;
      if deadline <=? at_ then throw (timed_out "timed out draining process output")
      else if PROBE_READ_BUDGET <=? total_read then mret (retained, eof)
      else
        r ← call (ps_read input READ_BUFFER);
        match r with
        | inl [] => mret (retained, true)
        | inl read =>
            room ← unwrap (if zlen retained <=? PROBE_OUTPUT_LIMIT
                           then Some (PROBE_OUTPUT_LIMIT - zlen retained) else None);
            let retained_bytes := Z.min room (zlen read) in
            read_available fuel input (retained ++ take (Z.to_nat retained_bytes) read) eof
              (total_read + zlen read) deadline
        | inr e =>
            if bool_decide (e.(error_kind) = WouldBlock) then mret (retained, eof)
            else if bool_decide (e.(error_kind) = Interrupted) then
              read_available fuel input retained eof total_read deadline
            else throw e
        end
  end.

Record Output := { out_status : QemuStatus; out_stdout : bytes; out_stderr : bytes }.

Fixpoint collect_loop (fuel : nat) (child : Child) (executable : Handle) (deadline : Z)
    (stdout stderr : bytes * bool) (exited : bool) : M S Output :=
  match fuel with
  | O => out_of_fuel
  | Datatypes.S fuel' =>
      '(stdout, stderr) ← or_terminate child.(ch_pid) (
        stdout ← read_available fuel child.(ch_stdout) stdout.1 stdout.2 0 deadline;
        stderr ← read_available fuel child.(ch_stderr) stderr.1 stderr.2 0 deadline;
        mret (stdout, stderr));
      exited ← if exited then mret true
               else or_terminate child.(ch_pid) (child_exited child.(ch_pid));
      at_ ← now;
      if deadline <=? at_ then
        _ ← terminate_child child.(ch_pid);
        throw (timed_out ("timed out running " +:+ display executable))
      else if exited && stdout.2 && stderr.2 then
        status ← finish_exited_process_group child.(ch_pid);
        mret {| out_status := status; out_stdout := stdout.1; out_stderr := stderr.1 |}
      else
        _ ← sleep MILLISECOND;
        collect_loop fuel' child executable deadline stdout stderr exited
  end.

Definition collect_bounded_output (fuel : nat) (child : Child) (executable : Handle) (timeout : Z)
    : M S Output :=
  _ ← or_terminate child.(ch_pid) (
    _ ← pipe_nonblocking child.(ch_stdout); pipe_nonblocking child.(ch_stderr));
  started ← now;
  collect_loop fuel child executable (started + timeout) ([], false) ([], false) false.

Definition spawn_probe (executable : Handle) (arguments : list string) : M S Child :=
  r ← call (ps_spawn {| pc_executable := executable; pc_arguments := arguments;
    pc_directory := None; pc_stdin := Inherited; pc_stdout := Piped; pc_stderr := Piped |});
  or_other r.

Definition bounded_output (fuel : nat) (executable : Handle) (arguments : list string) (timeout : Z)
    : M S Output :=
  child ← spawn_probe executable arguments;
  collect_bounded_output fuel child executable timeout.

(** ** The QMP channel *)

Context `{SerdeValue}.

Definition wait_until (deadline : Z) (operation : string) : M S unit :=
  at_ ← now;
  if deadline <=? at_ then throw (timed_out ("timed out during " +:+ operation))
  else sleep MILLISECOND.

(** A [QmpConnection] is the stream with what was read ahead, which the reads
    return. *)
Fixpoint read_message (fuel : nat) (stream : Z) (buffered : bytes) (deadline : Z)
    : M S (Value * bytes) :=
  match fuel with
  | O => out_of_fuel
  | Datatypes.S fuel =>
      at_ ← now;
      if deadline <=? at_ then throw (timed_out "timed out during QMP negotiation")
      else
        match position (fun b => bool_decide (b = NEWLINE)) buffered with
        | Some end_ =>
            match value_from_slice (take (Datatypes.S end_) buffered) with
            | inl value => mret (value, drop (Datatypes.S end_) buffered)
            | inr e => throw (invalid_data e)
            end
        | None =>
            if QMP_MESSAGE_LIMIT <=? zlen buffered then
              throw (invalid_data "QMP message exceeds maximum length")
            else
              r ← call (ps_read stream READ_BUFFER);
              match r with
              | inl [] => throw (IoError UnexpectedEof "QMP channel closed")
              | inl read => read_message fuel stream (buffered ++ read) deadline
              | inr e =>
                  if bool_decide (e.(error_kind) = WouldBlock) then
                    _ ← wait_until deadline "QMP negotiation";
                    read_message fuel stream buffered deadline
                  else if bool_decide (e.(error_kind) = Interrupted) then
                    read_message fuel stream buffered deadline
                  else throw e
              end
        end
  end.

Fixpoint qmp_write_all (fuel : nat) (stream : Z) (data : bytes) (deadline : Z) : M S unit :=
  match fuel with
  | O => out_of_fuel
  | Datatypes.S fuel =>
      match data with
      | [] => mret tt
      | _ =>
          r ← call (ps_write stream data);
          match r with
          | inl written =>
              if written =? 0 then throw (IoError WriteZero "write zero")
              else qmp_write_all fuel stream (drop (Z.to_nat written) data) deadline
          | inr e =>
              if bool_decide (e.(error_kind) = WouldBlock) then
                _ ← wait_until deadline "QMP negotiation";
                qmp_write_all fuel stream data deadline
              else if bool_decide (e.(error_kind) = Interrupted) then
                qmp_write_all fuel stream data deadline
              else throw e
          end
      end
  end.

(** [Value::as_u64], of a number an [i64] holds. *)
Definition as_u64 (v : Value) : option Z :=
  match v with VNumber (Some z) => if 0 <=? z then Some z else None | _ => None end.

Fixpoint await_response (fuel : nat) (stream : Z) (buffered : bytes) (command : string)
    (id deadline : Z) : M S bytes :=
  match fuel with
  | O => out_of_fuel
  | Datatypes.S fuel' =>
      '(response, buffered) ← read_message fuel stream buffered deadline;
      if bool_decide (value_get response "id" ≫= as_u64 = Some id) then
        match value_get response "error" with
        | Some error => throw (IoError Other ("QMP " +:+ command +:+ " failed: " +:+ value_display error))
        | None => mret buffered
        end
      else await_response fuel' stream buffered command id deadline
  end.

Definition qmp_request (command : string) (id : Z) : Value :=
  VObject [("execute", VString command); ("id", VNumber (Some id))].

Definition execute (fuel : nat) (stream : Z) (buffered : bytes) (command : string) (id deadline : Z)
    : M S bytes :=
  request ← lift (match value_to_vec (qmp_request command id) with
                  | inl request => Ok (request ++ [NEWLINE])
                  | inr e => Err (IoError Other e)
                  end);
  _ ← qmp_write_all fuel stream request deadline;
  await_response fuel stream buffered command id deadline.

Fixpoint qmp_connect (fuel : nat) (pid : Z) (socket : Handle) (deadline : Z) : M S Z :=
  match fuel with
  | O => out_of_fuel
  | Datatypes.S fuel =>
      r ← call (ps_connect socket);
      match r with
      | inl stream => mret stream
      | inr error =>
          exited ← child_exited pid;
          if (exited : bool) then throw (IoError Other "QEMU exited during startup")
          else
            at_ ← now;
            if deadline <=? at_ then
              throw (timed_out ("timed out waiting for QMP socket: " +:+ error.(error_message)))
            else
              _ ← sleep (10 * MILLISECOND);
              qmp_connect fuel pid socket deadline
      end
  end.

Definition qmp_negotiate (fuel : nat) (pid : Z) (socket : Handle) : M S unit :=
  started ← now;
  let deadline := started + START_TIMEOUT in
  stream ← qmp_connect fuel pid socket deadline;
  r ← call (ps_nonblocking stream);
  _ ← or_io r;
  '(greeting, buffered) ← read_message fuel stream [] deadline;
  _ ← fail_if (negb (bool_decide (is_Some (value_get greeting "QMP"))))
    (invalid_data "QMP greeting is missing QMP capabilities");
  buffered ← execute fuel stream buffered "qmp_capabilities" 1 deadline;
  _ ← execute fuel stream buffered "query-status" 2 deadline;
  mret tt.
End processes.
