(* ===== verification/ProcessSafe.v ===== *)
(** What is proved of the processes of [Process]: every wait ends, a probe leaves
    no process and retains a bounded part of its output, and a negotiation that
    succeeds has had its two commands answered.

    [World] is what the proofs see of the host: the monotonic clock, the children
    that were started, are not reaped, were reported to have exited or have a
    status, and what was read, whether the end was met, and what was written on
    each descriptor. *)

From stdpp Require Import ssreflect gmap.
From Stdlib Require Import Strings.Byte.
From S2P Require Import Prelude Types Std Protocol Tree Oci Effects Vm Root RunFiles Image RunBase Process.

(** ** The host as the proofs see it *)

Record World := MkWorld {
  w_clock : Z;
  w_stall : nat;            (** readings that may still return the same instant *)
  w_live : gset Z;
  w_interrupts : nat;       (** interruptions that are still to come *)
  w_spawned : list (ProcessCommand * Child);
  w_exited : gset Z;        (** children that [waitid] reported to have exited *)
  w_status : Z -> option QemuStatus;
  w_read : Z -> bytes;
  w_eof : Z -> bool;        (** descriptors on which a read met the end *)
  w_written : Z -> bytes;
}.

Definition extend (fd : Z) (data : bytes) (log : Z -> bytes) : Z -> bytes := fun k =>
  if bool_decide (k = fd) then log k ++ data else log k.

Definition same (l l' : Z -> bytes) : Prop := forall fd, l fd = l' fd.

(** The clock does not go back; while it stands still, its patience only shrinks. *)
Definition later (w w' : World) : Prop :=
  clock_later w.(w_clock) w.(w_stall) w'.(w_clock) w'.(w_stall).
(** No process is started, and nothing is given back: no time, no interruption, no
    report of an exit. *)
Definition advanced (w w' : World) : Prop :=
  later w w' /\ w'.(w_live) ⊆ w.(w_live) /\ (w'.(w_interrupts) <= w.(w_interrupts))%nat /\
  w'.(w_spawned) = w.(w_spawned) /\ w.(w_exited) ⊆ w'.(w_exited).
(** No descriptor is reused either: an end that was met stays met. *)
Definition moved (w w' : World) : Prop :=
  advanced w w' /\ forall fd, w.(w_eof) fd = true -> w'.(w_eof) fd = true.
(** Nothing is read or written either. *)
Definition quiet (w w' : World) : Prop :=
  moved w w' /\ same w'.(w_read) w.(w_read) /\ same w'.(w_written) w.(w_written).

(** Documented behaviour of the calls of [ProcessHost]: a clock that never goes back
    and of which fewer than [granularity] further readings return the same instant,
    descriptors that deliver and take bytes, fresh pipes for a child that is
    spawned, and a child that is gone once its group was killed and it was waited
    for. *)
Class ProcessLaws (S : Type) `{ProcessHost S} := {
  world : S -> World;
  granularity : nat;
  stall_law s : (w_stall (world s) < granularity)%nat;
  now_law s t s' : ps_now s = (t, s') ->
    quiet (world s) (world s') /\
    clock_read (w_clock (world s)) (w_stall (world s)) t (w_clock (world s')) (w_stall (world s'));
  sleep_law n s : quiet (world s) (world (ps_sleep n s));
  spawn_law command s r s' : ps_spawn command s = (r, s') ->
    match r with
    | inl child => w_clock (world s) <= w_clock (world s') /\
        w_live (world s') ⊆ {[child.(ch_pid)]} ∪ w_live (world s) /\
        (w_interrupts (world s') <= w_interrupts (world s))%nat /\
        w_spawned (world s') = w_spawned (world s) ++ [(command, child)] /\
        child.(ch_pid) ∉ w_exited (world s') /\ child.(ch_stdout) <> child.(ch_stderr) /\
        (forall fd, fd = child.(ch_stdout) \/ fd = child.(ch_stderr) ->
           w_read (world s') fd = [] /\ w_eof (world s') fd = false)
    | inr _ => quiet (world s) (world s')
    end;
  waitid_law pid s r s' : ps_waitid pid s = (r, s') ->
    quiet (world s) (world s') /\
    forall information, r = inl information -> information <> 0 -> pid ∈ w_exited (world s');
  kill_law pid s : quiet (world s) (world (ps_kill_group pid s));
  wait_law pid s r s' : ps_wait pid s = (r, s') ->
    quiet (world s) (world s') /\ forall status, r = inl status -> w_status (world s') pid = Some status;
  ended_law pid s : pid ∉ w_live (world (ps_wait pid (ps_kill_group pid s)).2);
  getfl_law fd s : quiet (world s) (world (ps_getfl fd s).2);
  setfl_law fd flags s : quiet (world s) (world (ps_setfl fd flags s).2);
  nonblocking_law fd s : quiet (world s) (world (ps_nonblocking fd s).2);
  read_law fd n s r s' : ps_read fd n s = (r, s') ->
    moved (world s) (world s') /\ same (w_written (world s')) (w_written (world s)) /\
    match r with
    | inl data => zlen data <= Z.max 0 n /\ same (w_read (world s')) (extend fd data (w_read (world s))) /\
        (data = [] -> 0 < n -> w_eof (world s') fd = true)
    | inr _ => same (w_read (world s')) (w_read (world s))
    end;
  write_law fd data s r s' : ps_write fd data s = (r, s') ->
    moved (world s) (world s') /\ same (w_read (world s')) (w_read (world s)) /\
    match r with
    | inl n => 0 <= n <= zlen data /\
        same (w_written (world s')) (extend fd (take (Z.to_nat n) data) (w_written (world s)))
    | inr e => same (w_written (world s')) (w_written (world s)) /\
        (e.(error_kind) = Interrupted -> (w_interrupts (world s') < w_interrupts (world s))%nat)
    end;
  connect_law path s r s' : ps_connect path s = (r, s') ->
    advanced (world s) (world s') /\
    match r with
    | inl fd => w_read (world s') fd = [] /\ w_written (world s') fd = []
    | inr _ => True
    end;
}.

Lemma later_refl w : later w w.
Proof. by right. Qed.
Lemma later_trans w1 w2 w3 : later w1 w2 -> later w2 w3 -> later w1 w3.
Proof. apply clock_later_trans. Qed.
#[export] Hint Resolve later_refl : core.
Lemma advanced_refl w : advanced w w.
Proof. by split_and!. Qed.
Lemma advanced_trans w1 w2 w3 : advanced w1 w2 -> advanced w2 w3 -> advanced w1 w3.
Proof.
  intros (?&?&?&?&?) (?&?&?&?&?).
  split_and!; [by eapply later_trans|by etrans|lia|congruence|by etrans].
Qed.
Lemma moved_refl w : moved w w.
Proof. split; [apply advanced_refl|done]. Qed.
Lemma moved_trans w1 w2 w3 : moved w1 w2 -> moved w2 w3 -> moved w1 w3.
Proof. intros [??] [??]. split; [by eapply advanced_trans|auto]. Qed.
Lemma moved_advanced w w' : moved w w' -> advanced w w'.
Proof. by intros [? _]. Qed.
Lemma quiet_refl w : quiet w w.
Proof. by split_and!. Qed.
Lemma quiet_trans w1 w2 w3 : quiet w1 w2 -> quiet w2 w3 -> quiet w1 w3.
Proof.
  intros (?&Hr&Hw) (?&Hr'&Hw'). split_and!; [by eapply moved_trans|..]; intros fd;
    [by rewrite Hr'|by rewrite Hw'].
Qed.
#[export] Hint Resolve advanced_refl moved_refl quiet_refl : core.

(** A reading of the clock: the instant passes, or the clock's patience shrinks. *)
Definition ticked (w : World) (t : Z) (w' : World) : Prop :=
  clock_read w.(w_clock) w.(w_stall) t w'.(w_clock) w'.(w_stall).

(** ** Weakest preconditions *)

(** The computation returns, and what it returns satisfies [Q]. *)
Definition wp {S A} (m : M S A) (s : S) (Q : result A -> S -> Prop) : Prop :=
  exists r s', m s = Some (r, s') /\ Q r s'.

Section wp.
Context {S : Type}.

Lemma wp_ret {A} (a : A) (s : S) (Q : result A -> S -> Prop) : Q (Ok a) s -> wp (mret a) s Q.
Proof. intros HQ. by exists (Ok a), s. Qed.
Lemma wp_throw {A} e (s : S) (Q : result A -> S -> Prop) : Q (Err e) s -> wp (throw e) s Q.
Proof. intros HQ. by exists (Err e), s. Qed.
Lemma wp_lift {A} r (s : S) (Q : result A -> S -> Prop) : Q r s -> wp (lift r) s Q.
Proof. intros HQ. by exists r, s. Qed.
Lemma wp_call {A} (f : S -> A * S) s (Q : result A -> S -> Prop) :
  (forall a s', f s = (a, s') -> Q (Ok a) s') -> wp (call f) s Q.
Proof. intros HQ. unfold wp, call. destruct (f s) as [a s'] eqn:E. eexists _, _. split; [done|]. by apply HQ. Qed.
Lemma wp_mono {A} (m : M S A) s (Q Q' : result A -> S -> Prop) :
  wp m s Q -> (forall r s', Q r s' -> Q' r s') -> wp m s Q'.
Proof. intros (r&s'&E&HQ) HQ'. exists r, s'. split; [done|]. by apply HQ'. Qed.
Lemma wp_bind {A B} (m : M S A) (k : A -> M S B) s (Q : result B -> S -> Prop) :
  wp m s (fun r s' => match r with Ok a => wp (k a) s' Q | Err e => Q (Err e) s' end) ->
  wp (m ≫= k) s Q.
Proof.
  intros (r&s'&E&HQ). unfold wp, mbind, M_bind. rewrite E. destruct r as [a|e]; [exact HQ|].
  by exists (Err e), s'.
Qed.
Lemma wp_catch {A} (m : M S A) s (Q : result (result A) -> S -> Prop) :
  wp m s (fun r s' => Q (Ok r) s') -> wp (catch m) s Q.
Proof. intros (r&s'&E&HQ). unfold wp, catch. rewrite E. by exists (Ok r), s'. Qed.
Lemma wp_fail_if b e (s : S) (Q : result unit -> S -> Prop) :
  (b = true -> Q (Err e) s) -> (b = false -> Q (Ok tt) s) -> wp (fail_if b e) s Q.
Proof. destruct b; intros Ht Hf; [by apply wp_throw, Ht|by apply wp_ret, Hf]. Qed.
Lemma wp_or_other {A} (r : A + io_error) (s : S) (Q : result A -> S -> Prop) :
  (forall a, r = inl a -> Q (Ok a) s) -> (forall e, r = inr e -> Q (Err e) s) -> wp (or_other r) s Q.
Proof. destruct r; intros Ha He; [by apply wp_ret, Ha|by apply wp_throw, He]. Qed.
Lemma wp_or_io o (s : S) (Q : result unit -> S -> Prop) :
  (o = None -> Q (Ok tt) s) -> (forall e, o = Some e -> Q (Err e) s) -> wp (or_io o) s Q.
Proof. destruct o; intros Ha He; [by apply wp_throw, He|by apply wp_ret, Ha]. Qed.
End wp.

(** ** Ending a process *)

Section processes.
Context {S : Type} `{ProcessLaws S}.
Implicit Types (s : S).

Lemma wp_quiet {A} (f : S -> A * S) s (Q : result A -> S -> Prop) :
  quiet (world s) (world (f s).2) ->
  (forall a s', f s = (a, s') -> quiet (world s) (world s') -> Q (Ok a) s') -> wp (call f) s Q.
Proof. intros Hf HQ. apply wp_call. intros a s' E. rewrite E in Hf. by apply HQ. Qed.
Lemma wp_now s (Q : result Z -> S -> Prop) :
  (forall t s', quiet (world s) (world s') -> ticked (world s) t (world s') -> Q (Ok t) s') ->
  wp now s Q.
Proof. intros HQ. apply wp_call. intros t s' [Hq Ht]%now_law. by apply HQ. Qed.
Lemma wp_sleep n s (Q : result unit -> S -> Prop) :
  (forall s', quiet (world s) (world s') -> Q (Ok tt) s') -> wp (sleep n) s Q.
Proof.
  intros HQ. apply wp_quiet; [apply sleep_law|]. intros [] s' _. apply HQ.
Qed.

(** The child is gone after [kill] and [wait]. *)
Definition ended (pid : Z) (w w' : World) : Prop := quiet w w' /\ pid ∉ w'.(w_live).
Lemma wp_ended {A} pid (f : QemuStatus + io_error -> M S A) s (Q : result A -> S -> Prop) :
  (forall r s', ended pid (world s) (world s') ->
     (forall status, r = inl status -> w_status (world s') pid = Some status) -> wp (f r) s' Q) ->
  wp (_ ← terminate_process_group pid; r ← call (ps_wait pid); f r) s Q.
Proof.
  intros HQ. apply wp_bind, wp_call. intros [] s1 [= <-]. apply wp_bind, wp_call.
  intros r s2 E. pose proof (kill_law pid s) as Hk. pose proof (ended_law pid s) as He.
  rewrite E in He. apply wait_law in E as [Hw Hst]. apply HQ; [|exact Hst].
  split; [by eapply quiet_trans|done].
Qed.
Lemma wp_terminate pid s (Q : result unit -> S -> Prop) :
  (forall s', ended pid (world s) (world s') -> Q (Ok tt) s') -> wp (terminate_child pid) s Q.
Proof. intros HQ. apply wp_ended. intros r s' He _. by apply wp_ret, HQ. Qed.
Lemma wp_finish pid s (Q : result QemuStatus -> S -> Prop) :
  (forall r s', ended pid (world s) (world s') ->
     (forall status, r = Ok status -> w_status (world s') pid = Some status) -> Q r s') ->
  wp (finish_exited_process_group pid) s Q.
Proof.
  intros HQ. apply wp_ended. intros r s' He Hst.
  apply wp_or_other; intros; apply HQ; [done| |done|done]. intros status [= <-]. by apply Hst.
Qed.
Lemma wp_child_exited pid s (Q : result bool -> S -> Prop) :
  (forall r s', quiet (world s) (world s') -> (r = Ok true -> pid ∈ w_exited (world s')) -> Q r s') ->
  wp (child_exited pid) s Q.
Proof.
  intros HQ. apply wp_bind, wp_call. intros r s' [Hq He]%waitid_law.
  apply wp_bind, wp_or_other; intros a Ha; [|by apply HQ]. apply wp_ret, HQ; [done|].
  intros [= Hn%negb_true_iff%Z.eqb_neq]. by apply (He a).
Qed.
Lemma wp_or_terminate {A} pid (m : M S A) s (Q : result A -> S -> Prop) :
  wp m s (fun r s1 => match r with
                      | Ok a => Q (Ok a) s1
                      | Err e => forall s', ended pid (world s1) (world s') -> Q (Err e) s'
                      end) -> wp (or_terminate pid m) s Q.
Proof.
  intros Hm. apply wp_bind, wp_catch. eapply wp_mono; [exact Hm|]. intros [a|e] s1 HQ.
  - by apply wp_ret.
  - apply wp_bind, wp_terminate. intros s' He. by apply wp_throw, HQ.
Qed.

(** ** The output of a probe *)

(** What a probe keeps of what it read. *)
Definition cut (l : bytes) : bytes := take (Z.to_nat PROBE_OUTPUT_LIMIT) l.

Lemma zlen_cut l : zlen (cut l) <= PROBE_OUTPUT_LIMIT.
Proof. unfold cut, zlen, PROBE_OUTPUT_LIMIT. rewrite length_take. lia. Qed.
Lemma cut_app l d :
  cut l ++ take (Z.to_nat (Z.min (PROBE_OUTPUT_LIMIT - zlen (cut l)) (zlen d))) d = cut (l ++ d).
Proof.
  unfold cut, zlen, PROBE_OUTPUT_LIMIT. rewrite length_take take_app. f_equal.
  destruct (decide (Z.to_nat (64 * 1024) - length l <= length d))%nat as [Hd|Hd].
  - f_equal. lia.
  - rewrite !take_ge //; lia.
Qed.

#[local] Opaque cut.

(** The readings of the clock that are left before a deadline, and before a timeout
    that has not started. *)
Definition time_left (deadline : Z) (w : World) : nat :=
  readings_left (granularity (S := S)) deadline w.(w_clock) w.(w_stall).
Definition turns (timeout : Z) : nat := readings (granularity (S := S)) timeout.

Lemma time_left_advance deadline s s' :
  advanced (world s) (world s') -> (time_left deadline (world s') <= time_left deadline (world s))%nat.
Proof. intros (Hl&_). by apply readings_left_later; [apply stall_law|]. Qed.
Lemma time_left_moved deadline s s' :
  moved (world s) (world s') -> (time_left deadline (world s') <= time_left deadline (world s))%nat.
Proof. intros [Ha _]. by apply time_left_advance. Qed.
Lemma time_left_now deadline s s' t :
  ticked (world s) t (world s') -> t < deadline ->
  (time_left deadline (world s') < time_left deadline (world s))%nat.
Proof. apply readings_left_read, stall_law. Qed.
Lemma time_left_timeout timeout t s s' :
  ticked (world s) t (world s') -> (time_left (t + timeout) (world s') < turns timeout)%nat.
Proof. apply readings_left_timeout, stall_law. Qed.
#[local] Opaque time_left turns.

(** A round of reads on [input]: other descriptors and writes are left alone. *)
Definition read_on (input : Z) (data : bytes) (w w' : World) : Prop :=
  moved w w' /\ same w'.(w_read) (extend input data w.(w_read)) /\ same w'.(w_written) w.(w_written).
Lemma extend_nil fd log k : extend fd [] log k = log k.
Proof. unfold extend. case_bool_decide; [by rewrite app_nil_r|done]. Qed.
Lemma extend_same fd d log : extend fd d log fd = log fd ++ d.
Proof. unfold extend. by rewrite bool_decide_eq_true_2. Qed.
Lemma extend_other fd d log k : k <> fd -> extend fd d log k = log k.
Proof. intros Hk. unfold extend. by rewrite bool_decide_eq_false_2. Qed.

Lemma moved_of_quiet w w' : quiet w w' -> moved w w'.
Proof. by intros (?&_). Qed.
Lemma advanced_of_quiet w w' : quiet w w' -> advanced w w'.
Proof. intros Hq. by apply moved_advanced, moved_of_quiet. Qed.
Lemma read_on_nil input w w' : quiet w w' -> read_on input [] w w'.
Proof. intros (Hm&Hr&Hw). split_and!; [done| |done]. intros k. by rewrite Hr extend_nil. Qed.
Lemma read_on_trans input d1 d2 w1 w2 w3 :
  read_on input d1 w1 w2 -> read_on input d2 w2 w3 -> read_on input (d1 ++ d2) w1 w3.
Proof.
  intros (Hm1&Hr1&Hw1) (Hm2&Hr2&Hw2). split_and!; [by eapply moved_trans| |]; intros k.
  - rewrite Hr2 /extend !Hr1 /extend. case_bool_decide; [by rewrite app_assoc|done].
  - by rewrite Hw2.
Qed.

(** A round of reads ends before the deadline, reads a bounded part, and keeps the
    part of it that fits; it reports the end only when a read met it. *)
Lemma wp_read_available fuel : forall input retained eof total deadline s l,
  (time_left deadline (world s) < fuel)%nat -> retained = cut l -> total < PROBE_READ_BUDGET + READ_BUFFER ->
  wp (read_available fuel input retained eof total deadline) s (fun r s' => exists data,
    read_on input data (world s) (world s') /\ total + zlen data < PROBE_READ_BUDGET + READ_BUFFER /\
    forall kept eof', r = Ok (kept, eof') -> kept = cut (l ++ data) /\
      (eof' = true -> eof = true \/ w_eof (world s') input = true)).
Proof.
  induction fuel as [|fuel IH]; intros input retained eof total deadline s l Hf -> Ht; [lia|].
  cbn [read_available]. apply wp_bind, wp_now. intros t s1 Hq Hc.
  assert (Hstop : exists data, read_on input data (world s) (world s1) /\
    total + zlen data < PROBE_READ_BUDGET + READ_BUFFER /\ cut l = cut (l ++ data)).
  { exists []. rewrite app_nil_r zlen_nil. split_and!; [by apply read_on_nil|lia|done]. }
  destruct (Z.leb_spec deadline t) as [Hd|Hd].
  { apply wp_throw. destruct Hstop as (data&?&?&_). by exists data. }
  destruct (Z.leb_spec PROBE_READ_BUDGET total) as [Hb|Hb].
  { apply wp_ret. destruct Hstop as (data&?&?&?). exists data. split_and!; [done..|]. intros ?? [= <- <-]. auto. }
  pose proof (time_left_now _ _ _ _ Hc Hd) as Hlt.
  apply wp_bind, wp_call. intros r s2 E. apply read_law in E as (Hm&Hw&Hr).
  assert (Hnext : forall data, same (w_read (world s2)) (extend input data (w_read (world s1))) ->
    read_on input data (world s) (world s2)).
  { intros data Hx. apply (read_on_trans input [] data _ (world s1)); [by apply read_on_nil|done]. }
  pose proof (time_left_moved deadline _ _ Hm) as Hlt2.
  destruct r as [[|b read]|e].
  - apply wp_ret. destruct Hr as (_&Hr&Heof). exists []. split_and!; [by apply Hnext|by rewrite zlen_nil; lia|].
    intros ?? [= <- <-]. rewrite app_nil_r. split; [done|]. right. by apply Heof.
  - set (d := b :: read) in *. destruct Hr as (Hlen&Hr&_).
    rewrite (proj2 (Z.leb_le (zlen (cut l)) PROBE_OUTPUT_LIMIT) (zlen_cut l)).
    apply wp_bind, wp_ret. rewrite cut_app. specialize (Hnext d Hr).
    eapply wp_mono; [apply (IH input _ eof _ deadline s2 (l ++ d)); [lia|done|lia]|].
    intros r s3 (data&Hon&Hb'&Hk). exists (d ++ data).
    rewrite zlen_app app_assoc. split_and!; [by eapply read_on_trans|lia|exact Hk].
  - specialize (Hnext []). rewrite /same in Hr.
    assert (Hq2 : read_on input [] (world s) (world s2)) by (apply Hnext; intros k; by rewrite Hr extend_nil).
    assert (Hsame : exists data, read_on input data (world s) (world s2) /\
      total + zlen data < PROBE_READ_BUDGET + READ_BUFFER /\ cut l = cut (l ++ data)).
    { exists []. rewrite app_nil_r zlen_nil. split_and!; [done|lia|done]. }
    case_bool_decide; [|case_bool_decide].
    + apply wp_ret. destruct Hsame as (data&?&?&?). exists data. split_and!; [done..|]. intros ?? [= <- <-]. auto.
    + eapply wp_mono; [apply (IH input _ eof _ deadline s2 l); [lia|done|lia]|].
      intros r s3 (data&Hon&Hb'&Hk). exists data.
      split_and!; [by apply (read_on_trans input [] data _ (world s2))|done|exact Hk].
    + apply wp_throw. destruct Hsame as (data&?&?&_). by exists data.
Qed.

(** What is kept of a pipe, and whether its end was met. *)
Definition pipe_kept (fd : Z) (kept : bytes * bool) (w : World) : Prop :=
  kept.1 = cut (w.(w_read) fd) /\ (kept.2 = true -> w.(w_eof) fd = true).

Lemma pipe_quiet fd kept w w' : quiet w w' -> pipe_kept fd kept w -> pipe_kept fd kept w'.
Proof. intros ([_ He]&Hr&_) [Hk Hx]. split; [by rewrite Hr|auto]. Qed.
Lemma pipe_other input fd data kept w w' :
  input <> fd -> read_on input data w w' -> pipe_kept fd kept w -> pipe_kept fd kept w'.
Proof.
  intros Hne ([_ He]&Hr&_) [Hk Hx]. split; [by rewrite Hr extend_other; [|congruence]|auto].
Qed.

(** What is known of a child while its output is collected. *)
Record keeping (child : Child) (stdout stderr : bytes * bool) (exited : bool) (w : World) : Prop := {
  keep_stdout : pipe_kept child.(ch_stdout) stdout w;
  keep_stderr : pipe_kept child.(ch_stderr) stderr w;
  keep_exited : exited = true -> child.(ch_pid) ∈ w.(w_exited);
}.
Lemma keeping_quiet child o e x w w' : quiet w w' -> keeping child o e x w -> keeping child o e x w'.
Proof.
  intros Hq [Ho He Hx]. constructor; [by eapply pipe_quiet..|].
  destruct Hq as ([(_&_&_&_&Hex) _]&_). set_solver.
Qed.

(** The child of a probe is gone, and nothing else was started. *)
Definition probed (child : Child) (w w' : World) : Prop := moved w w' /\ child.(ch_pid) ∉ w'.(w_live).
Lemma ended_probed child w w1 w2 : moved w w1 -> ended child.(ch_pid) w1 w2 -> probed child w w2.
Proof. intros Hm [(Hm2&_) He]. split; [by eapply moved_trans|done]. Qed.
Lemma probe_failed {A} (e : io_error) (P : A -> Prop) child w w1 w2 :
  moved w w1 -> ended child.(ch_pid) w1 w2 -> probed child w w2 /\ forall out, Err e = Ok out -> P out.
Proof. intros Hm He. split; [by eapply ended_probed|done]. Qed.

(** An output is complete: both pipes of the child were read to their end and are
    kept up to the limit, the child was reported to have exited, and the status is
    the one that was waited for. *)
Record complete (child : Child) (out : Output) (w : World) : Prop := {
  cp_stdout : pipe_kept child.(ch_stdout) (out.(out_stdout), true) w;
  cp_stderr : pipe_kept child.(ch_stderr) (out.(out_stderr), true) w;
  cp_exited : child.(ch_pid) ∈ w.(w_exited);
  cp_status : w.(w_status) child.(ch_pid) = Some out.(out_status);
}.

(** One round of reads on both pipes. *)
Lemma wp_round fuel child deadline stdout stderr exited s :
  child.(ch_stdout) <> child.(ch_stderr) -> (time_left deadline (world s) < fuel)%nat ->
  keeping child stdout stderr exited (world s) ->
  wp (stdout ← read_available fuel child.(ch_stdout) stdout.1 stdout.2 0 deadline;
      stderr ← read_available fuel child.(ch_stderr) stderr.1 stderr.2 0 deadline;
      mret (stdout, stderr)) s (fun r s' => moved (world s) (world s') /\
    forall o e, r = Ok (o, e) -> keeping child o e exited (world s')).
Proof.
  intros Hne Hf [[Hko Hxo] Hke Hx].
  apply wp_bind. eapply wp_mono; [by apply (wp_read_available _ _ _ _ _ _ s _ Hf Hko)|].
  intros [[o1 oe1]|err] s1 (d1&Hon1&_&Ho); cycle 1. { split; [apply Hon1|done]. }
  destruct (Ho _ _ eq_refl) as [Hk1 He1]. pose proof Hon1 as (Hm1&Hr1&_).
  pose proof (time_left_moved deadline _ _ Hm1) as Ht1.
  assert (Ho1 : pipe_kept child.(ch_stdout) (o1, oe1) (world s1)).
  { split; cbn; [by rewrite Hr1 extend_same|]. intros [Hb|?]%He1; [|done].
    destruct Hm1 as [_ Heof]. by apply Heof, Hxo. }
  apply (pipe_other _ _ _ _ _ _ Hne Hon1) in Hke as [Hke Hxe].
  apply wp_bind. eapply wp_mono; [apply (wp_read_available fuel child.(ch_stderr) _ stderr.2 0 deadline s1 _ ltac:(lia) Hke); done|].
  intros [[e1 ee1]|err] s2 (d2&Hon2&_&He); cycle 1.
  { split; [eapply moved_trans; [exact Hm1|apply Hon2]|done]. }
  destruct (He _ _ eq_refl) as [Hk2 He2]. pose proof Hon2 as (Hm2&Hr2&_).
  apply wp_ret. split; [by eapply moved_trans|]. intros o e [= <- <-]. constructor.
  - eapply pipe_other; [by intros Hq; apply Hne|exact Hon2|exact Ho1].
  - split; cbn; [by rewrite Hr2 extend_same|]. intros [Hb|?]%He2; [|done].
    destruct Hm2 as [_ Heof]. by apply Heof, Hxe.
  - intros Hb. destruct Hm1 as [(_&_&_&_&Hx1) _], Hm2 as [(_&_&_&_&Hx2) _]. set_solver.
Qed.

Lemma wp_collect_loop fuel : forall child executable deadline stdout stderr exited s,
  child.(ch_stdout) <> child.(ch_stderr) ->
  (time_left deadline (world s) < fuel)%nat -> keeping child stdout stderr exited (world s) ->
  wp (collect_loop fuel child executable deadline stdout stderr exited) s (fun r s' =>
    probed child (world s) (world s') /\ forall out, r = Ok out -> complete child out (world s')).
Proof.
  induction fuel as [|fuel IH]; intros child executable deadline stdout stderr exited s Hne Hf Hk; [lia|].
  cbn [collect_loop]. apply wp_bind, wp_or_terminate.
  eapply wp_mono; [by apply (wp_round (Datatypes.S fuel) child deadline stdout stderr exited s Hne Hf Hk)|].
  intros [[o e]|err] s2 [Hm Hkept]; cycle 1.
  { intros s' He. exact (probe_failed _ _ _ _ _ _ Hm He). }
  specialize (Hkept _ _ eq_refl). pose proof (time_left_moved deadline _ _ Hm) as Ht2. clear Hk.
  apply wp_bind.
  assert (Hexit : wp (if exited then mret true else or_terminate child.(ch_pid) (child_exited child.(ch_pid))) s2
    (fun r s3 => match r with
                 | Ok x => quiet (world s2) (world s3) /\ keeping child o e x (world s3)
                 | Err _ => probed child (world s) (world s3)
                 end)).
  { destruct exited; [by apply wp_ret|]. apply wp_or_terminate, wp_child_exited. intros [b|err] s3 Hq Hx.
    - split; [exact Hq|]. apply (keeping_quiet _ _ _ _ _ _ Hq) in Hkept as [? ? _]. constructor; [done..|].
      intros ->. by apply Hx.
    - intros s' He. eapply ended_probed; [exact (moved_trans _ _ _ Hm (moved_of_quiet _ _ Hq))|exact He]. }
  eapply wp_mono; [exact Hexit|]. clear Hkept. intros [exited'|err] s3 Hq; cycle 1.
  { split; [exact Hq|discriminate]. }
  destruct Hq as [Hq Hkept]. apply wp_bind, wp_now. intros t s4 Hq4 Hc.
  apply (keeping_quiet _ _ _ _ _ _ Hq4) in Hkept.
  pose proof (moved_trans _ _ _ Hm (moved_of_quiet _ _ (quiet_trans _ _ _ Hq Hq4))) as Hm4.
  pose proof (time_left_moved deadline _ _ (moved_of_quiet _ _ Hq)) as Ht3.
  destruct (Z.leb_spec deadline t) as [Hd|Hd].
  { apply wp_bind, wp_terminate. intros s5 He. apply wp_throw. exact (probe_failed _ _ _ _ _ _ Hm4 He). }
  pose proof (time_left_now _ _ _ _ Hc Hd) as Ht4.
  destruct (exited' && o.2 && e.2) eqn:Hdone.
  - apply andb_true_iff in Hdone as [[-> Ho2]%andb_true_iff He2].
    apply wp_bind, wp_finish. intros [status|err] s5 He Hst; cycle 1.
    { exact (probe_failed _ _ _ _ _ _ Hm4 He). }
    apply wp_ret. split; [exact (ended_probed _ _ _ _ Hm4 He)|]. intros out [= <-].
    destruct He as [He _]. apply (keeping_quiet _ _ _ _ _ _ He) in Hkept as [[Hos Hoe] [Hes Hee] Hx].
    constructor; [exact (conj Hos (fun _ => Hoe Ho2))|exact (conj Hes (fun _ => Hee He2))|exact (Hx eq_refl)
      |exact (Hst _ eq_refl)].
  - apply wp_bind, wp_sleep. intros s5 Hq5. pose proof (moved_of_quiet _ _ Hq5) as Hm5.
    pose proof (time_left_moved deadline _ _ Hm5) as Ht5.
    eapply wp_mono; [apply (IH child executable deadline o e exited' s5 Hne); [lia|by eapply keeping_quiet]|].
    intros r s6 [[Hm6 Hgone] Hout]. split; [|exact Hout]. split; [|done].
    eapply moved_trans; [exact Hm4|]. by eapply moved_trans.
Qed.

Lemma wp_set_nonblocking fd s (Q : result unit -> S -> Prop) :
  (forall r s', quiet (world s) (world s') -> Q r s') -> wp (pipe_nonblocking fd) s Q.
Proof.
  intros HQ. apply wp_bind, wp_quiet; [apply getfl_law|]. intros r s1 _ Hq1.
  apply wp_bind, wp_or_other; intros; [|by apply HQ].
  apply wp_bind, wp_quiet; [apply setfl_law|]. intros o s2 _ Hq2.
  apply wp_or_io; intros; apply HQ; by eapply quiet_trans.
Qed.

(** Nothing was started that is still there. *)
Definition fewer (w w' : World) : Prop :=
  w'.(w_live) ⊆ w.(w_live) /\ (w'.(w_interrupts) <= w.(w_interrupts))%nat.
Lemma fewer_advanced w w' : advanced w w' -> fewer w w'.
Proof. by intros (_&?&?&_). Qed.
Lemma fewer_moved w w' : moved w w' -> fewer w w'.
Proof. intros [Ha _]. by apply fewer_advanced. Qed.
Lemma fewer_trans w1 w2 w3 : fewer w1 w2 -> fewer w2 w3 -> fewer w1 w3.
Proof. intros [??] [??]. split; [by etrans|lia]. Qed.

(** What the probe of an executable leaves: nothing that runs; and when it returns
    an output, the one child it started, with that command, is complete. *)
Definition probe_command (executable : Handle) (arguments : list string) : ProcessCommand := {|
  pc_executable := executable; pc_arguments := arguments; pc_directory := None;
  pc_stdin := Inherited; pc_stdout := Piped; pc_stderr := Piped |}.
Definition probe_leaves (executable : Handle) (arguments : list string) (w : World) (r : result Output)
    (w' : World) : Prop :=
  fewer w w' /\ forall out, r = Ok out -> exists child,
    w'.(w_spawned) = w.(w_spawned) ++ [(probe_command executable arguments, child)] /\ complete child out w'.

Lemma wp_bounded_output fuel executable arguments timeout s :
  (turns timeout <= fuel)%nat ->
  wp (bounded_output fuel executable arguments timeout) s
    (fun r s' => probe_leaves executable arguments (world s) r (world s')).
Proof.
  intros Hf. apply wp_bind, wp_bind, wp_call. intros r s1 E. apply spawn_law in E.
  destruct r as [child|e]; cycle 1.
  { apply wp_throw. split; [by apply fewer_moved, E|discriminate]. }
  destruct E as (_&Hlive&Hint&Hsp&_&Hne&Hnew). apply wp_ret.
  assert (Hgone : forall w, probed child (world s1) w -> fewer (world s) w).
  { intros w [[(_&Hsub&Hi&_) _] Hx]. split; [set_solver|lia]. }
  apply wp_bind, wp_or_terminate, wp_bind, wp_set_nonblocking. intros [[]|e] s2 Hq2; cycle 1.
  { intros s3 He. split; [|discriminate]. apply Hgone. eapply ended_probed; [apply Hq2|exact He]. }
  apply wp_set_nonblocking. intros r s3 Hq3.
  pose proof (quiet_trans _ _ _ Hq2 Hq3) as Hq. destruct r as [[]|e]; cycle 1.
  { intros s4 He. split; [|discriminate]. apply Hgone. eapply ended_probed; [apply Hq|exact He]. }
  apply wp_bind, wp_now. intros t s4 Hq4 Hc. pose proof (quiet_trans _ _ _ Hq Hq4) as Hq'.
  eapply wp_mono; [apply (wp_collect_loop fuel child executable (t + timeout) ([], false) ([], false) false s4 Hne)|].
  - pose proof (time_left_timeout timeout t _ _ Hc). lia.
  - eapply keeping_quiet; [exact Hq'|].
    constructor; [split; [by rewrite (proj1 (Hnew _ (or_introl eq_refl)))|done]
                 |split; [by rewrite (proj1 (Hnew _ (or_intror eq_refl)))|done]|done].
  - intros r s5 [[Hm Hx] Hout]. pose proof (moved_trans _ _ _ (moved_of_quiet _ _ Hq') Hm) as Hm'. split.
    + apply Hgone. by split.
    + intros out Hr. exists child. split; [|by apply Hout]. destruct Hm' as [(_&_&_&Hsp'&_) _]. by rewrite Hsp' Hsp.
Qed.

(** C0. A probe of an executable ends, leaves nothing running, and holds a bounded
    amount of memory: with [granularity] units of fuel per nanosecond of its timeout
    (a clock returns the same instant fewer times than that) it returns, whatever
    the process writes and however its calls are interrupted; no process is left
    that was not there before, also when reading, waiting or the deadline fails;
    and an output is that of the one child it spawned, with the given arguments: the
    child was reported to have exited, the status is its own, both pipes were read
    to their end, and standard output and standard error are what was read from
    each, cut at 64 KiB. *)
Theorem bounded_output_returns fuel executable arguments timeout s :
  (turns timeout <= fuel)%nat ->
  exists r s', bounded_output fuel executable arguments timeout s = Some (r, s') /\
    w_live (world s') ⊆ w_live (world s) /\
    forall out, r = Ok out -> exists child,
      w_spawned (world s') = w_spawned (world s) ++ [({|
        pc_executable := executable; pc_arguments := arguments; pc_directory := None;
        pc_stdin := Inherited; pc_stdout := Piped; pc_stderr := Piped |}, child)] /\
      child.(ch_pid) ∈ w_exited (world s') /\
      w_status (world s') child.(ch_pid) = Some out.(out_status) /\
      w_eof (world s') child.(ch_stdout) = true /\ w_eof (world s') child.(ch_stderr) = true /\
      out.(out_stdout) = cut (w_read (world s') child.(ch_stdout)) /\
      out.(out_stderr) = cut (w_read (world s') child.(ch_stderr)).
Proof.
  intros Hf. destruct (wp_bounded_output fuel executable arguments timeout s Hf) as (r&s'&E&[Hl _]&Ho).
  exists r, s'. split_and!; [done..|]. intros out Hr. destruct (Ho out Hr) as (child&Hsp&[[Hso Hoe] [Hse Hee] Hx Hst]).
  exists child. exact (conj Hsp (conj Hx (conj Hst (conj (Hoe eq_refl) (conj (Hee eq_refl) (conj Hso Hse)))))).
Qed.

(** ** The QMP channel *)

Context `{SerdeValue}.

(** A stretch of the stream as complete lines, each a message. *)
Definition message_line (line : bytes) (v : Value) : Prop :=
  (exists body, line = body ++ [NEWLINE] /\ NEWLINE ∉ body) /\ value_from_slice line = inl v.
Definition reads_as (l : bytes) (vs : list Value) (rest : bytes) : Prop :=
  exists lines, l = concat lines ++ rest /\ Forall2 message_line lines vs.

Lemma reads_as_nil l : reads_as l [] l.
Proof. by exists []. Qed.
Lemma reads_as_app l vs rest1 d vs' rest2 :
  reads_as l vs rest1 -> reads_as (rest1 ++ d) vs' rest2 -> reads_as (l ++ d) (vs ++ vs') rest2.
Proof.
  intros (lines&->&Hl) (lines'&Hr&Hl'). exists (lines ++ lines'). split; [|by apply Forall2_app].
  rewrite concat_app -!app_assoc. by f_equal.
Qed.

Lemma wp_wait_until deadline operation s (Q : result unit -> S -> Prop) :
  (forall s', quiet (world s) (world s') ->
     ((time_left deadline (world s') < time_left deadline (world s))%nat -> Q (Ok tt) s') /\
     (forall e, Q (Err e) s')) -> wp (wait_until deadline operation) s Q.
Proof.
  intros HQ. apply wp_bind, wp_now. intros t s1 Hq Hc. destruct (Z.leb_spec deadline t).
  - apply wp_throw, HQ. done.
  - apply wp_sleep. intros s2 Hq2. apply HQ; [by eapply quiet_trans|].
    pose proof (time_left_now _ _ _ _ Hc ltac:(done)).
    pose proof (time_left_moved deadline _ _ (moved_of_quiet _ _ Hq2)). lia.
Qed.

Lemma read_on_moved input d w w' : read_on input d w w' -> moved w w'.
Proof. by intros (?&_). Qed.

Lemma newline_position l n : position (fun b => bool_decide (b = NEWLINE)) l = Some n ->
  exists body rest, l = body ++ NEWLINE :: rest /\ length body = n /\ NEWLINE ∉ body.
Proof.
  intros (l1&x&l2&->&<-&Hx&Hall)%position_Some. apply bool_decide_eq_true in Hx as ->.
  exists l1, l2. split_and!; [done..|]. intros Hin. rewrite list.Forall_forall in Hall.
  apply Hall in Hin. by apply bool_decide_eq_false in Hin.
Qed.

(** A message is the next line of the stream; what is read ahead stays bounded. *)
Lemma wp_read_message fuel : forall stream buffered deadline s,
  (time_left deadline (world s) < fuel)%nat -> zlen buffered < QMP_MESSAGE_LIMIT + READ_BUFFER ->
  wp (read_message fuel stream buffered deadline) s (fun r s' => exists data,
    read_on stream data (world s) (world s') /\
    (time_left deadline (world s') < time_left deadline (world s) \/ is_ok r = false)%nat /\
    forall v buffered', r = Ok (v, buffered') ->
      reads_as (buffered ++ data) [v] buffered' /\ zlen buffered' < QMP_MESSAGE_LIMIT + READ_BUFFER).
Proof.
  induction fuel as [|fuel IH]; intros stream buffered deadline s Hf Hb; [lia|].
  cbn [read_message]. apply wp_bind, wp_now. intros t s1 Hq Hc.
  pose proof (read_on_nil stream _ _ Hq) as Hon.
  assert (Herr : forall e : io_error, exists data, read_on stream data (world s) (world s1) /\
    (time_left deadline (world s1) < time_left deadline (world s) \/ is_ok (Err e : result (Value * bytes)) = false)%nat /\
    forall v buffered', Err e = Ok (v, buffered') ->
      reads_as (buffered ++ data) [v] buffered' /\ zlen buffered' < QMP_MESSAGE_LIMIT + READ_BUFFER).
  { intros e. exists []. split_and!; [done|by right|done]. }
  destruct (Z.leb_spec deadline t) as [Hd|Hd]; [by apply wp_throw|].
  pose proof (time_left_now _ _ _ _ Hc Hd) as Hlt.
  destruct (position _ buffered) as [n|] eqn:Ep.
  - destruct (value_from_slice _) as [v|e] eqn:Ev; [|by apply wp_throw].
    apply wp_ret. exists []. rewrite app_nil_r. split_and!; [done|by left|]. intros ?? [= <- <-].
    destruct (newline_position _ _ Ep) as (body&rest&Hbuf&Hn&Hin). split.
    + exists [take (Datatypes.S n) buffered]. split; [by rewrite /= app_nil_r take_drop|].
      constructor; [|done]. split; [|done]. exists body. split; [|done].
      rewrite Hbuf cons_middle app_assoc take_app_length' // length_app /= Hn. lia.
    + rewrite /zlen length_drop. unfold zlen in Hb. lia.
  - destruct (Z.leb_spec QMP_MESSAGE_LIMIT (zlen buffered)); [by apply wp_throw|].
    apply wp_bind, wp_call. intros r s2 E. apply read_law in E as (Hm&Hw&Hr).
    pose proof (time_left_moved deadline _ _ Hm) as Hlt2.
    assert (Hagain : forall d, same (w_read (world s2)) (extend stream d (w_read (world s1))) ->
      forall s3, quiet (world s2) (world s3) ->
      read_on stream d (world s) (world s3) /\ (time_left deadline (world s3) < time_left deadline (world s))%nat).
    { intros d Hx s3 Hq3. split.
      - change d with ([] ++ d). rewrite -(app_nil_r ([] ++ d)).
        apply (read_on_trans _ _ _ _ (world s2)); [|by apply read_on_nil].
        by apply (read_on_trans _ _ _ _ (world s1)).
      - pose proof (time_left_moved deadline _ _ (moved_of_quiet _ _ Hq3)). lia. }
    assert (Hround : forall d s3, read_on stream d (world s) (world s3) ->
      (time_left deadline (world s3) < time_left deadline (world s))%nat -> zlen d <= READ_BUFFER ->
      wp (read_message fuel stream (buffered ++ d) deadline) s3 (fun r s' => exists data,
        read_on stream data (world s) (world s') /\
        (time_left deadline (world s') < time_left deadline (world s) \/ is_ok r = false)%nat /\
        forall v buffered', r = Ok (v, buffered') ->
          reads_as (buffered ++ data) [v] buffered' /\ zlen buffered' < QMP_MESSAGE_LIMIT + READ_BUFFER)).
    { intros d s3 Hon3 Ht3 Hd3. eapply wp_mono; [apply IH; [lia|rewrite zlen_app; lia]|].
      intros r' s4 (data&Hon4&Ht4&Hv). exists (d ++ data). rewrite app_assoc.
      split_and!; [by eapply read_on_trans| |exact Hv]. destruct Ht4; [left; lia|by right]. }
    assert (Hfail : forall (e : io_error) s3, quiet (world s2) (world s3) ->
      same (w_read (world s2)) (w_read (world s1)) -> exists data, read_on stream data (world s) (world s3) /\
      (time_left deadline (world s3) < time_left deadline (world s) \/ is_ok (Err e : result (Value * bytes)) = false)%nat /\
      forall v buffered', Err e = Ok (v, buffered') ->
        reads_as (buffered ++ data) [v] buffered' /\ zlen buffered' < QMP_MESSAGE_LIMIT + READ_BUFFER).
    { intros e s3 Hq3 Hx. exists []. split_and!; [|by right|done]. apply Hagain; [|done].
      intros k. by rewrite Hx extend_nil. }
    assert (Hnil : same (w_read (world s2)) (w_read (world s1)) ->
      same (w_read (world s2)) (extend stream [] (w_read (world s1)))).
    { intros Hx k. by rewrite Hx extend_nil. }
    destruct r as [[|b read]|e].
    + apply wp_throw, Hfail; [done|]. intros k. by rewrite (proj1 (proj2 Hr) k) extend_nil.
    + destruct Hr as (Hlen&Hr&_). unfold READ_BUFFER in Hlen. destruct (Hagain _ Hr s2) as [Hon2 Ht2]; [done|]. by apply Hround.
    + case_bool_decide; [|case_bool_decide].
      * apply wp_bind, wp_wait_until. intros s3 Hq3. split; [|intros e'; by apply Hfail].
        intros _. destruct (Hagain [] (Hnil Hr) s3 Hq3) as [Hon3 Ht3].
        rewrite -{1}(app_nil_r buffered). by apply Hround.
      * destruct (Hagain [] (Hnil Hr) s2) as [Hon3 Ht3]; [done|].
        rewrite -{1}(app_nil_r buffered). by apply Hround.
      * by apply wp_throw, Hfail.
Qed.

(** What was sent and what was read on one stream. *)
Definition exchanged (stream : Z) (sent read : bytes) (w w' : World) : Prop :=
  moved w w' /\ same w'.(w_read) (extend stream read w.(w_read))
  /\ same w'.(w_written) (extend stream sent w.(w_written)).

Lemma exchanged_trans stream d1 r1 d2 r2 w1 w2 w3 :
  exchanged stream d1 r1 w1 w2 -> exchanged stream d2 r2 w2 w3 ->
  exchanged stream (d1 ++ d2) (r1 ++ r2) w1 w3.
Proof.
  intros (Hm1&Hr1&Hw1) (Hm2&Hr2&Hw2). split_and!; [by eapply moved_trans| |]; intros k;
    [rewrite Hr2 /extend !Hr1 /extend|rewrite Hw2 /extend !Hw1 /extend];
    case_bool_decide; [by rewrite app_assoc|done|by rewrite app_assoc|done].
Qed.
Lemma exchanged_quiet stream w w' : quiet w w' -> exchanged stream [] [] w w'.
Proof. intros (?&Hr&Hw). split_and!; [done|..]; intros k; by rewrite extend_nil ?Hr ?Hw. Qed.
Lemma exchanged_read stream data w w' : read_on stream data w w' -> exchanged stream [] data w w'.
Proof. intros (?&Hr&Hw). split_and!; [done..|]. intros k. by rewrite extend_nil Hw. Qed.

(** What is left to write, and the turns its failures may take. *)
Definition write_left (data : bytes) (deadline : Z) (w : World) : nat :=
  length data + w.(w_interrupts) + time_left deadline w.
Lemma write_left_advance data deadline s s' : advanced (world s) (world s') ->
  (write_left data deadline (world s') <= write_left data deadline (world s))%nat.
Proof. intros Hm. pose proof (time_left_advance deadline _ _ Hm). destruct Hm as (_&_&?&_). unfold write_left. lia. Qed.

Lemma wp_write_all fuel : forall stream data deadline s,
  (write_left data deadline (world s) < fuel)%nat ->
  wp (qmp_write_all fuel stream data deadline) s (fun r s' => exists sent,
    exchanged stream sent [] (world s) (world s') /\ (r = Ok tt -> sent = data)).
Proof.
  induction fuel as [|fuel IH]; intros stream data deadline s Hf; [lia|].
  cbn [qmp_write_all]. destruct data as [|b data].
  { apply wp_ret. exists []. split; [|done]. by apply exchanged_quiet. }
  set (l := b :: data) in *. apply wp_bind, wp_call.
  intros r s1 E. apply write_law in E as (Hm&Hr&Hw).
  pose proof (time_left_moved deadline _ _ Hm) as Ht. pose proof Hm as [(_&_&Hi&_) _]. unfold write_left in Hf.
  destruct r as [n|e].
  - destruct Hw as [Hn Hw]. set (part := take (Z.to_nat n) l) in *.
    assert (Hx : exchanged stream part [] (world s) (world s1)).
    { split_and!; [done| |done]. intros k. by rewrite Hr extend_nil. }
    destruct (Z.eqb_spec n 0) as [Hz|Hz]; [apply wp_throw; by exists part|].
    eapply wp_mono; [apply IH|].
    { unfold write_left. rewrite length_drop. assert (length l <> 0)%nat by done. lia. }
    intros r s2 (sent&Hx2&Hok). exists (part ++ sent). split; [by apply (exchanged_trans _ _ [] _ [] _ _ _ Hx)|].
    intros Hr2. rewrite (Hok Hr2). apply take_drop.
  - destruct Hw as [Hw Hint].
    assert (Hx : exchanged stream [] [] (world s) (world s1)).
    { split_and!; [done|..]; intros k; by rewrite extend_nil ?Hr ?Hw. }
    case_bool_decide; [|case_bool_decide].
    + apply wp_bind, wp_wait_until. intros s2 Hq2.
      pose proof (exchanged_trans _ _ _ _ _ _ _ _ Hx (exchanged_quiet stream _ _ Hq2)) as Hx2.
      split; [|intros e'; by exists []]. intros Hlt.
      eapply wp_mono; [apply IH|].
      { pose proof (write_left_advance l deadline _ _ (advanced_of_quiet _ _ Hq2)) as Hl.
        destruct Hq2 as [[(_&_&Hi2&_) _] _]. unfold write_left in *. lia. }
      intros r s3 (sent&Hx3&Hok). exists sent. split; [by apply (exchanged_trans _ _ _ _ _ _ _ _ Hx2)|done].
    + eapply wp_mono; [apply IH|].
      { specialize (Hint ltac:(done)). unfold write_left. lia. }
      intros r s3 (sent&Hx3&Hok). exists sent. split; [by apply (exchanged_trans _ _ _ _ _ _ _ _ Hx)|done].
    + apply wp_throw. by exists [].
Qed.

(** The response to a command, after the messages that are not. *)
Definition answers (id : Z) (response : Value) : Prop :=
  value_get response "id" ≫= as_u64 = Some id.
Definition answered (id : Z) (l : bytes) (vs : list Value) (rest : bytes) : Prop :=
  reads_as l vs rest /\ exists skipped response, vs = skipped ++ [response] /\
    Forall (fun v => ~ answers id v) skipped /\ answers id response /\ value_get response "error" = None.

Lemma wp_await_response fuel : forall stream buffered command id deadline s,
  (time_left deadline (world s) < fuel)%nat -> zlen buffered < QMP_MESSAGE_LIMIT + READ_BUFFER ->
  wp (await_response fuel stream buffered command id deadline) s (fun r s' => exists data,
    read_on stream data (world s) (world s') /\
    forall buffered', r = Ok buffered' -> zlen buffered' < QMP_MESSAGE_LIMIT + READ_BUFFER /\
      exists vs, answered id (buffered ++ data) vs buffered').
Proof.
  induction fuel as [|fuel IH]; intros stream buffered command id deadline s Hf Hb; [lia|].
  cbn [await_response]. apply wp_bind. eapply wp_mono; [by apply wp_read_message|].
  intros [[response buffered1]|e] s1 (d1&Hon1&Ht&Hv); [|by exists d1].
  destruct (Hv _ _ eq_refl) as [Hread Hb1]. destruct Ht as [Ht|[=]].
  case_bool_decide as Hid.
  - destruct (value_get response "error") as [error|] eqn:Ee.
    + apply wp_throw. by exists d1.
    + apply wp_ret. exists d1. split; [done|]. intros ? [= <-]. split; [done|]. exists [response].
      split; [done|]. by exists [], response.
  - eapply wp_mono; [apply IH; [lia|done]|]. intros r s2 (d2&Hon2&Hok). exists (d1 ++ d2).
    split; [by eapply read_on_trans|]. intros buffered' Hr. destruct (Hok _ Hr) as [Hb2 (vs&Hvs&skipped&answer&->&Hsk&Ha)].
    split; [done|]. exists ([response] ++ skipped ++ [answer]). split.
    + rewrite app_assoc. by eapply reads_as_app.
    + exists (response :: skipped), answer. split_and!; [done|by constructor|apply Ha..].
Qed.

Definition request_bytes (command : string) (id : Z) : bytes :=
  match value_to_vec (qmp_request command id) with inl body => body ++ [NEWLINE] | inr _ => [] end.

Lemma wp_execute fuel stream buffered command id deadline s :
  (write_left (request_bytes command id) deadline (world s) < fuel)%nat ->
  zlen buffered < QMP_MESSAGE_LIMIT + READ_BUFFER ->
  wp (execute fuel stream buffered command id deadline) s (fun r s' => exists sent data,
    exchanged stream sent data (world s) (world s') /\
    forall buffered', r = Ok buffered' -> zlen buffered' < QMP_MESSAGE_LIMIT + READ_BUFFER /\
      sent = request_bytes command id /\ exists vs, answered id (buffered ++ data) vs buffered').
Proof.
  intros Hf Hb. apply wp_bind, wp_lift. unfold request_bytes in *.
  destruct (value_to_vec _) as [body|e]; [|exists [], []; split; [by apply exchanged_quiet|done]].
  apply wp_bind. eapply wp_mono; [by apply wp_write_all|]. intros [[]|e] s1 (sent&Hx&Hok); [|by exists sent, []].
  eapply wp_mono; [apply wp_await_response; [|done]|].
  { destruct Hx as [Hm _]. pose proof (time_left_moved deadline _ _ Hm). unfold write_left in Hf. lia. }
  intros r s2 (data&Hon&Hv). exists sent, data. split.
  - rewrite -(app_nil_r sent). change data with ([] ++ data).
    by apply (exchanged_trans _ _ _ _ _ _ _ _ Hx), exchanged_read.
  - intros buffered' Hr. destruct (Hv _ Hr) as [Hb' Hvs]. split_and!; [done|by apply Hok|done].
Qed.

Lemma wp_connect fuel : forall pid socket deadline s, (time_left deadline (world s) < fuel)%nat ->
  wp (qmp_connect fuel pid socket deadline) s (fun r s' => advanced (world s) (world s') /\
    forall stream, r = Ok stream -> w_read (world s') stream = [] /\ w_written (world s') stream = []).
Proof.
  induction fuel as [|fuel IH]; intros pid socket deadline s Hf; [lia|].
  cbn [qmp_connect]. apply wp_bind, wp_call. intros r s1 E. apply connect_law in E as (Hm1&Hr).
  destruct r as [stream|error]; [apply wp_ret; split; [done|by intros ? [= <-]]|].
  apply wp_bind, wp_child_exited. intros r s2 Hq2 _. pose proof (advanced_trans _ _ _ Hm1 (advanced_of_quiet _ _ Hq2)) as Hm2.
  destruct r as [[]|e]; [by apply wp_throw| |done].
  apply wp_bind, wp_now. intros t s3 Hq3 Hc. pose proof (advanced_trans _ _ _ Hm2 (advanced_of_quiet _ _ Hq3)) as Hm3.
  destruct (Z.leb_spec deadline t) as [Hd|Hd]; [by apply wp_throw|].
  apply wp_bind, wp_sleep. intros s4 Hq4. pose proof (advanced_trans _ _ _ Hm3 (advanced_of_quiet _ _ Hq4)) as Hm4.
  pose proof (time_left_now _ _ _ _ Hc Hd). pose proof (time_left_advance deadline _ _ Hm2).
  pose proof (time_left_moved deadline _ _ (moved_of_quiet _ _ Hq4)).
  eapply wp_mono; [apply IH; lia|]. intros r s5 [Hm5 Hok]. split; [by eapply advanced_trans|done].
Qed.

(** Fuel that the negotiation cannot exhaust: a unit per reading of the clock, per
    interruption, and per byte of a request. *)
Definition negotiation_fuel (s : S) : nat :=
  turns START_TIMEOUT + w_interrupts (world s)
  + length (request_bytes "qmp_capabilities" 1) + length (request_bytes "query-status" 2).

(** What a negotiation that succeeded had: a greeting, and after each command the
    answer to it without an error, whatever else the machine said in between. *)
Definition negotiated (stream : Z) (w : World) : Prop :=
  w.(w_written) stream = request_bytes "qmp_capabilities" 1 ++ request_bytes "query-status" 2 /\
  exists greeting vs1 vs2 rest1 rest2 rest l1 l2 l3,
    w.(w_read) stream = l1 ++ l2 ++ l3 /\
    reads_as l1 [greeting] rest1 /\ is_Some (value_get greeting "QMP") /\
    answered 1 (rest1 ++ l2) vs1 rest2 /\ answered 2 (rest2 ++ l3) vs2 rest.

Lemma wp_negotiate fuel pid socket s :
  (negotiation_fuel s < fuel)%nat ->
  wp (qmp_negotiate fuel pid socket) s (fun r s' => advanced (world s) (world s') /\
    (r = Ok tt -> exists stream, negotiated stream (world s'))).
Proof.
  unfold negotiation_fuel, qmp_negotiate. generalize START_TIMEOUT. intros timeout Hf.
  apply wp_bind, wp_now. intros t s1 Hq1 Hc. set (deadline := t + timeout).
  assert (Ht1 : (time_left deadline (world s1) < turns timeout)%nat) by (by eapply time_left_timeout).
  pose proof (advanced_of_quiet _ _ Hq1) as Hm1.
  assert (Hfuel : forall s', advanced (world s1) (world s') -> forall body,
    (length body <= length (request_bytes "qmp_capabilities" 1) + length (request_bytes "query-status" 2))%nat ->
    (write_left body deadline (world s') < fuel)%nat).
  { intros s' Hm body Hl. pose proof (write_left_advance body deadline _ _ Hm).
    destruct Hm1 as (_&_&?&_). unfold write_left in *. lia. }
  assert (Htime : forall s', advanced (world s1) (world s') -> (time_left deadline (world s') < fuel)%nat).
  { intros s' Hm. pose proof (time_left_advance deadline _ _ Hm). lia. }
  apply wp_bind. eapply wp_mono; [by apply wp_connect, Htime|]. intros [stream|e] s2 [Hm2 Hnew]; cycle 1.
  { split; [by eapply advanced_trans|done]. }
  destruct (Hnew _ eq_refl) as [Hr0 Hw0].
  apply wp_bind, wp_quiet; [apply nonblocking_law|]. intros o s3 _ Hq3.
  pose proof (advanced_trans _ _ _ Hm2 (advanced_of_quiet _ _ Hq3)) as Hm3.
  apply wp_bind, wp_or_io; [intros _|intros e _; split; [by eapply advanced_trans|done]].
  apply wp_bind. eapply wp_mono; [apply (wp_read_message _ stream [] deadline s3); [by apply Htime|done]|].
  intros [[greeting buffered]|e] s4 (l1&Hon&_&Hv).
  2: { split; [|done]. eapply advanced_trans; [exact Hm1|]. eapply advanced_trans; [exact Hm3|]. apply moved_advanced, Hon. }
  destruct (Hv _ _ eq_refl) as [Hg Hb]. apply exchanged_read in Hon.
  assert (Hm4 : advanced (world s1) (world s4)) by (eapply advanced_trans; [exact Hm3|apply moved_advanced, Hon]).
  apply wp_bind, wp_fail_if; intros Hq; [split; [by eapply advanced_trans|done]|].
  apply negb_false_iff, bool_decide_eq_true in Hq.
  apply wp_bind. eapply wp_mono; [apply wp_execute; [apply Hfuel; [done|lia]|done]|].
  intros [rest2|e] s5 (sent1&l2&Hx1&Ha1).
  2: { split; [|done]. eapply advanced_trans; [exact Hm1|]. eapply advanced_trans; [exact Hm4|]. apply moved_advanced, Hx1. }
  destruct (Ha1 _ eq_refl) as (Hb1&->&vs1&Hvs1).
  assert (Hm5 : advanced (world s1) (world s5)) by (eapply advanced_trans; [exact Hm4|apply moved_advanced, Hx1]).
  apply wp_bind. eapply wp_mono; [apply wp_execute; [apply Hfuel; [done|lia]|done]|].
  intros [rest|e] s6 (sent2&l3&Hx2&Ha2).
  2: { split; [|done]. eapply advanced_trans; [exact Hm1|]. eapply advanced_trans; [exact Hm5|]. apply moved_advanced, Hx2. }
  destruct (Ha2 _ eq_refl) as (_&->&vs2&Hvs2).
  apply wp_ret. split; [eapply advanced_trans; [exact Hm1|]; eapply advanced_trans; [exact Hm5|]; apply moved_advanced, Hx2|].
  intros _. exists stream.
  destruct (exchanged_trans _ _ _ _ _ _ _ _ Hon (exchanged_trans _ _ _ _ _ _ _ _ Hx1 Hx2)) as (_&Hr&Hw).
  destruct Hq3 as (_&Hr3&Hw3). split; [by rewrite Hw extend_same Hw3 Hw0|].
  exists greeting, vs1, vs2, buffered, rest2, rest, l1, l2, l3.
  split_and!; [by rewrite Hr extend_same Hr3 Hr0|done..].
Qed.
End processes.

(** ** A sample host *)

(** A host whose processes write the given outputs and exit, and whose QMP socket
    delivers the given chunks.  Its clock counts steps of two milliseconds and a
    reading takes one, so that two readings may return the same instant. *)
Record Reports := MkReports {
  rp_spawned : list (ProcessCommand * Child);
  rp_exited : gset Z;
  rp_status : Z -> option QemuStatus;
  rp_eof : Z -> bool;
}.
Record Bench := MkBench {
  b_clock : Z;
  b_live : gset Z;
  b_next : Z;
  b_outputs : list (list bytes);
  b_qmp : list bytes;
  b_pending : Z -> list bytes;
  b_read : Z -> bytes;
  b_written : Z -> bytes;
  b_reports : Reports;
}.
Definition at_fd {A} (fd : Z) (a : A) (f : Z -> A) : Z -> A := fun k => if bool_decide (k = fd) then a else f k.
#[local] Arguments at_fd : simpl never.
Definition bench_ok {A} (a : A) (s : Bench) : (A + io_error) * Bench := (inl a, s).
Definition bench_tick (n : Z) (s : Bench) : Bench :=
  MkBench (s.(b_clock) + n) s.(b_live) s.(b_next) s.(b_outputs) s.(b_qmp) s.(b_pending) s.(b_read)
    s.(b_written) s.(b_reports).
Definition bench_report (f : Reports -> Reports) (s : Bench) : Bench :=
  MkBench s.(b_clock) s.(b_live) s.(b_next) s.(b_outputs) s.(b_qmp) s.(b_pending) s.(b_read)
    s.(b_written) (f s.(b_reports)).

Definition bench_spawn (command : ProcessCommand) (s : Bench) : (Child + io_error) * Bench :=
  let pid := s.(b_next) in
  let child := {| ch_pid := pid; ch_stdin := pid; ch_stdout := pid + 1; ch_stderr := pid + 2 |} in
  (inl child,
   MkBench s.(b_clock) ({[pid]} ∪ s.(b_live)) (pid + 3) (tail s.(b_outputs)) s.(b_qmp)
     (at_fd (pid + 1) (List.hd [] s.(b_outputs)) (at_fd (pid + 2) [] s.(b_pending)))
     (at_fd (pid + 1) [] (at_fd (pid + 2) [] s.(b_read))) s.(b_written)
     (MkReports (s.(b_reports).(rp_spawned) ++ [(command, child)]) (s.(b_reports).(rp_exited) ∖ {[pid]})
        s.(b_reports).(rp_status)
        (at_fd (pid + 1) false (at_fd (pid + 2) false s.(b_reports).(rp_eof))))).
Definition bench_read (fd n : Z) (s : Bench) : (bytes + io_error) * Bench :=
  match s.(b_pending) fd with
  | chunk :: rest =>
      if (zlen chunk <=? n) && negb (bool_decide (chunk = [])) then
        (inl chunk, MkBench s.(b_clock) s.(b_live) s.(b_next) s.(b_outputs) s.(b_qmp)
           (at_fd fd rest s.(b_pending)) (extend fd chunk s.(b_read)) s.(b_written) s.(b_reports))
      else (inr (IoError Other "the chunk is empty or too long"), s)
  | [] => (inl [], bench_report (fun r => MkReports r.(rp_spawned) r.(rp_exited) r.(rp_status)
             (at_fd fd true r.(rp_eof))) s)
  end.
Definition bench_exited (pid : Z) (r : Reports) : Reports :=
  MkReports r.(rp_spawned) ({[pid]} ∪ r.(rp_exited)) r.(rp_status) r.(rp_eof).
Definition bench_status : QemuStatus := {| qs_success := true; qs_text := "exit status: 0" |}.
Definition bench_wait (pid : Z) (s : Bench) : (QemuStatus + io_error) * Bench :=
  (inl bench_status,
   MkBench s.(b_clock) (s.(b_live) ∖ {[pid]}) s.(b_next) s.(b_outputs) s.(b_qmp) s.(b_pending)
     s.(b_read) s.(b_written)
     (MkReports s.(b_reports).(rp_spawned) s.(b_reports).(rp_exited)
        (at_fd pid (Some bench_status) s.(b_reports).(rp_status)) s.(b_reports).(rp_eof))).
Definition bench_step : Z := 2 * MILLISECOND.
#[export] Instance bench_host : ProcessHost Bench := {|
  ps_now s := (s.(b_clock) / bench_step * bench_step, bench_tick MILLISECOND s);
  ps_sleep n := bench_tick (Z.max 0 n);
  ps_spawn := bench_spawn;
  ps_waitid pid s := (inl pid, if pid =? 0 then s else bench_report (bench_exited pid) s);
  ps_kill_group _ s := s;
  ps_wait := bench_wait;
  ps_getfl _ := bench_ok 0;
  ps_setfl _ _ s := (None, s);
  ps_read := bench_read;
  ps_write fd data s := (inl (zlen data),
    MkBench s.(b_clock) s.(b_live) s.(b_next) s.(b_outputs) s.(b_qmp) s.(b_pending) s.(b_read)
      (extend fd data s.(b_written)) s.(b_reports));
  ps_connect _ s :=
    let fd := s.(b_next) in
    (inl fd, MkBench s.(b_clock) s.(b_live) (fd + 1) s.(b_outputs) [] (at_fd fd s.(b_qmp) s.(b_pending))
       (at_fd fd [] s.(b_read)) (at_fd fd [] s.(b_written)) s.(b_reports));
  ps_nonblocking _ s := (None, s);
|}.
Definition bench_world (s : Bench) : World :=
  MkWorld (s.(b_clock) / bench_step * bench_step)
    (if s.(b_clock) mod bench_step <? MILLISECOND then 1%nat else 0%nat)
    s.(b_live) 0%nat s.(b_reports).(rp_spawned) s.(b_reports).(rp_exited) s.(b_reports).(rp_status)
    s.(b_read) s.(b_reports).(rp_eof) s.(b_written).

Lemma at_fd_same {A} fd (a : A) f : at_fd fd a f fd = a.
Proof. unfold at_fd. by rewrite bool_decide_eq_true_2. Qed.
Lemma at_fd_other {A} fd k (a : A) f : k <> fd -> at_fd fd a f k = f k.
Proof. intros Hk. unfold at_fd. by rewrite bool_decide_eq_false_2. Qed.

Lemma bench_later n s : 0 <= n -> later (bench_world s) (bench_world (bench_tick n s)).
Proof.
  intros Hn. unfold later, clock_later, bench_world, bench_step, MILLISECOND. cbn [w_clock w_stall bench_tick b_clock].
  pose proof (Z.div_mod s.(b_clock) (2 * 1000000) ltac:(lia)).
  pose proof (Z.div_mod (s.(b_clock) + n) (2 * 1000000) ltac:(lia)).
  pose proof (Z.mod_pos_bound s.(b_clock) (2 * 1000000) ltac:(lia)).
  pose proof (Z.mod_pos_bound (s.(b_clock) + n) (2 * 1000000) ltac:(lia)).
  destruct (Z.ltb_spec (s.(b_clock) mod (2 * 1000000)) 1000000),
    (Z.ltb_spec ((s.(b_clock) + n) mod (2 * 1000000)) 1000000); lia.
Qed.
Lemma bench_tick_quiet n s : 0 <= n -> quiet (bench_world s) (bench_world (bench_tick n s)).
Proof.
  intros Hn. split; [|by split]. split; [|done]. split; [by apply bench_later|]. by split_and!.
Qed.
(** What changes no time, no report and no process of a bench. *)
Lemma bench_advanced s s' : s'.(b_clock) = s.(b_clock) -> s'.(b_live) ⊆ s.(b_live) ->
  s'.(b_reports).(rp_spawned) = s.(b_reports).(rp_spawned) ->
  s.(b_reports).(rp_exited) ⊆ s'.(b_reports).(rp_exited) -> advanced (bench_world s) (bench_world s').
Proof. intros Hc Hl Hs He. split_and!; [right|..]; cbn; rewrite ?Hc; done. Qed.

#[export] Program Instance bench_laws : ProcessLaws Bench := {| world := bench_world; granularity := 2%nat |}.
Next Obligation. intros s. cbn. destruct (_ <? _); lia. Qed.
Next Obligation.
  intros s t s' [= <- <-]. split; [by apply bench_tick_quiet|]. pose proof (bench_later MILLISECOND s ltac:(done)) as Hl.
  unfold clock_read, later, clock_later, bench_world, bench_step, MILLISECOND in *. cbn [w_clock w_stall bench_tick b_clock] in *.
  pose proof (Z.div_mod s.(b_clock) (2 * 1000000) ltac:(lia)).
  pose proof (Z.div_mod (s.(b_clock) + 1000000) (2 * 1000000) ltac:(lia)).
  pose proof (Z.mod_pos_bound s.(b_clock) (2 * 1000000) ltac:(lia)).
  pose proof (Z.mod_pos_bound (s.(b_clock) + 1000000) (2 * 1000000) ltac:(lia)).
  destruct (Z.ltb_spec (s.(b_clock) mod (2 * 1000000)) 1000000),
    (Z.ltb_spec ((s.(b_clock) + 1000000) mod (2 * 1000000)) 1000000); lia.
Qed.
Next Obligation. intros n s. apply bench_tick_quiet. lia. Qed.
Next Obligation.
  intros command s r s' [= <- <-]. split_and!; cbn; [lia|done|lia|done|set_solver|lia|].
  intros fd [->| ->]; [by rewrite !at_fd_same|]. by rewrite !(at_fd_other (_ + 1)) ?at_fd_same; [|lia..].
Qed.
Next Obligation.
  intros pid s r s' [= <- <-]. destruct (Z.eqb_spec pid 0) as [->|Hp].
  - split; [apply quiet_refl|]. by intros ? [= <-].
  - split; [|cbn; set_solver]. split; [|by split]. split; [|done]. apply bench_advanced; cbn; set_solver.
Qed.
Next Obligation. intros pid s. apply quiet_refl. Qed.
Next Obligation.
  intros pid s r s' [= <- <-]. split; [|intros status [= <-]; cbn; by rewrite at_fd_same].
  split; [|by split]. split; [|done]. apply bench_advanced; cbn; set_solver.
Qed.
Next Obligation. intros pid s. cbn. set_solver. Qed.
Next Obligation. intros fd s. apply quiet_refl. Qed.
Next Obligation. intros fd flags s. apply quiet_refl. Qed.
Next Obligation. intros fd s. apply quiet_refl. Qed.
Next Obligation.
  intros fd n s r s'. unfold ps_read, bench_host, bench_read.
  destruct (b_pending s fd) as [|chunk rest].
  - intros [= <- <-]. split_and!; [|done|rewrite zlen_nil; lia| |].
    + split; [apply bench_advanced; cbn; set_solver|]. intros k. cbn. unfold at_fd. by case_bool_decide.
    + intros k. cbn. by rewrite extend_nil.
    + intros _ _. cbn. by rewrite at_fd_same.
  - destruct (Z.leb_spec (zlen chunk) n); [case_bool_decide|]; intros [= <- <-].
    + by split_and!.
    + split_and!; [split; [apply bench_advanced; cbn; set_solver|done]|done|lia|done|done].
    + by split_and!.
Qed.
Next Obligation.
  intros fd data s r s' [= <- <-]. split_and!; [split; [apply bench_advanced; cbn; set_solver|done]|done|apply zlen_nonneg|lia|].
  intros k. cbn. unfold zlen. by rewrite Nat2Z.id firstn_all.
Qed.
Next Obligation.
  intros path s r s' [= <- <-]. split; [apply bench_advanced; cbn; set_solver|]. cbn. by rewrite !at_fd_same.
Qed.

(** A probe whose output is longer than what is kept of it. *)
Definition long_output : list bytes := repeat (repeat "x"%byte 4096) 17.
Definition bench (outputs : list (list bytes)) (qmp : list bytes) : Bench :=
  MkBench 0 ∅ 100 outputs qmp (fun _ => []) (fun _ => []) (fun _ => [])
    (MkReports [] ∅ (fun _ => None) (fun _ => false)).

Definition probe_bench : Bench := bench [[as_bytes "QEMU"]] [].

Lemma bounded_output_returns_witness : exists r s',
  bounded_output (turns (S := Bench) START_TIMEOUT) ["bin"; "qemu"] ["--version"] START_TIMEOUT probe_bench = Some (r, s') /\
  w_live (world s') ⊆ ∅ /\ forall out, r = Ok out -> exists child,
    w_eof (world s') child.(ch_stdout) = true /\
    out.(out_stdout) = cut (w_read (world s') child.(ch_stdout)).
Proof.
  destruct (bounded_output_returns (turns (S := Bench) START_TIMEOUT) ["bin"; "qemu"] ["--version"] START_TIMEOUT probe_bench)
    as (r&s'&E&Hlive&Hout).
  - apply Nat.le_refl.
  - exists r, s'. split; [exact E|]. split; [exact Hlive|]. intros out Hr.
    destruct (Hout out Hr) as (child&_&_&_&He&_&Ho&_). exists child. exact (conj He Ho).
Defined.

(** It succeeds, with 64 KiB. *)
Example long_output_cut :
  match bounded_output 30 ["bin"; "qemu"] ["--version"] START_TIMEOUT (bench [long_output] []) with
  | Some (Ok out, s') => (zlen out.(out_stdout), zlen out.(out_stderr), bool_decide (b_live s' = ∅))
  | _ => (0, 0, false)
  end = (65536, 0, true).
Proof. by vm_compute. Qed.
