(* ===== verification/Failure.v ===== *)
(** The failure bundle of an attempt, from [run.rs]: a directory that can be
    shared, with the report of the error, the diagnostics, and the ends of the two
    logs, and the error that names it. *)

From stdpp Require Import ssreflect.
From Stdlib Require Import Strings.Byte.
From S2P Require Import Prelude Types Std Protocol Tree Fixture Effects Vm Driver Identity Root RunFiles Image RunBase Text Sanitize.

Record FailureReport := {
  fr_version : Z;
  fr_error_kind : string;
  fr_error : string;
  fr_diagnostics : FailureDiagnostics;
}.

Definition error_kind_name (kind : ErrorKind) : string :=
  match kind with
  | TimedOut => "watchdog"
  | InvalidData => "invalid-data"
  | UnexpectedEof => "early-termination"
  | BrokenPipe => "channel-failure"
  | NotFound => "not-found"
  | PermissionDenied => "permission-denied"
  | _ => "infrastructure"
  end.

(** [nanos] is the clock's, or zero before the epoch. *)
Definition new_failure_bundle_id (operation run_id : string) (nanos : Z) : string :=
  operation +:+ "-" +:+ run_id +:+ "-" +:+ fmt_hex 32 nanos.

Definition LOG_NAMES : list string := ["qemu.log"; "serial.log"].

Section bundle.
Context {S : Type} `{RunFs S} `{SerdePretty FailureReport} `{EscapeUnicode}.

(** ** The ends of the logs *)

Definition read_tail (path : Handle) (limit : Z) : M S bytes :=
  opened ← call (rf_open path);
  fd ← or_other opened;
  metadata ← fstat fd;
  let start := saturating_sub64 metadata.(st_size) limit in
  rest ← call (rf_read_from fd start);
  pieces ← or_other rest;
  lift (read_take limit [] pieces).

Definition read_sanitized_log_tail (path : Handle) (private_paths : list bytes) : M S bytes :=
  size ← call (rf_size path);
  length ← or_other size;
  data ← read_tail path (log_window private_paths);
  let data :=
    if zlen data <? length then discard_partial_private_path data private_paths else data in
  mret (sanitize_diagnostic_log data private_paths).

(** [error_with_diagnostics]: the message with the ends of the logs. *)
Fixpoint append_logs (staging : Handle) (labels : list string) (message : string) : M S string :=
  match labels with
  | [] => mret message
  | label :: labels =>
      r ← catch (read_tail (join staging ("logs/" +:+ label +:+ ".log")) (8 * 1024));
      append_logs staging labels
        match r with
        | Ok data =>
            let diagnostic := from_utf8_lossy data in
            if bool_decide (diagnostic = "") then message
            else message +:+ str_of [NEWLINE] +:+ label +:+ " diagnostics:" +:+ str_of [NEWLINE]
              +:+ diagnostic
        | Err _ => message
        end
  end.
Definition error_with_diagnostics (error : io_error) (staging : Handle) : M S io_error :=
  message ← append_logs staging ["qemu"; "serial"] error.(error_message);
  mret (IoError error.(error_kind) message).

(** ** The bundle *)

Definition write_json {T} `{SerdePretty T} (path : Handle) (value : T) : M S unit :=
  data ← lift (json_bytes value);
  written ← call (rf_put path 438 data);
  or_io written.

Fixpoint retain_logs (log_directory source : Handle) (private_paths : list bytes)
    (names : list string) : M S unit :=
  match names with
  | [] => mret tt
  | name :: names =>
      r ← catch (read_sanitized_log_tail (join (join source "logs") name) private_paths);
      _ ← match r with
          | Ok data => written ← call (rf_put (join log_directory name) 438 data); or_io written
          | Err _ => mret tt
          end;
      retain_logs log_directory source private_paths names
  end.

Definition private_paths_of (runs_directory : Handle) (diagnostic_source runtime_directory : option Handle)
    : list bytes :=
  omap to_str (option_list diagnostic_source ++ option_list runtime_directory ++ [runs_directory]).

Definition fill_bundle (temporary destination runs_directory : Handle)
    (diagnostic_source runtime_directory : option Handle) (report : FailureReport) : M S unit :=
  let private_paths := private_paths_of runs_directory diagnostic_source runtime_directory in
  error ← unwrap (match from_utf8 (sanitize_diagnostic_log (as_bytes report.(fr_error)) private_paths) with
                  | inl text => Some text | inr _ => None end);
  _ ← write_json (join temporary "failure.json")
    {| fr_version := report.(fr_version); fr_error_kind := report.(fr_error_kind);
       fr_error := error; fr_diagnostics := report.(fr_diagnostics) |};
  let log_directory := join temporary "logs" in
  made ← call (rf_create_dir log_directory 511);
  _ ← or_io made;
  _ ← match diagnostic_source with
      | Some source => retain_logs log_directory source private_paths LOG_NAMES
      | None => mret tt
      end;
  renamed ← call (fs_renameat (parent_of temporary) (name_of temporary)
                    (parent_of destination) (name_of destination) false);
  _ ← or_errno renamed;
  mret tt.

Definition retain_failure_bundle (runs_directory : Handle) (bundle_id : string)
    (diagnostic_source runtime_directory : option Handle) (report : FailureReport) : M S Handle :=
  let root := join runs_directory "failures" in
  made ← call (rf_create_dir_all root);
  _ ← or_io made;
  let destination := root ++ [bundle_id] in
  let temporary := root ++ ["." +:+ bundle_id +:+ ".tmp-" +:+ fmt_dec fs_pid] in
  _ ← create_private_dir temporary;
  r ← catch (fill_bundle temporary destination runs_directory diagnostic_source runtime_directory report);
  match r with
  | Ok _ => mret destination
  | Err e => _ ← call (rf_remove_dir_all temporary); throw e
  end.

Definition failure_with_bundle (error : io_error) (runs_directory : Handle) (bundle_id : string)
    (diagnostic_source runtime_directory : option Handle) (diagnostics : FailureDiagnostics)
    : M S io_error :=
  detailed ← match diagnostic_source with
             | Some source => error_with_diagnostics error source
             | None => mret error
             end;
  r ← catch (retain_failure_bundle runs_directory bundle_id diagnostic_source runtime_directory
    {| fr_version := 1; fr_error_kind := error_kind_name error.(error_kind);
       fr_error := error.(error_message); fr_diagnostics := diagnostics |});
  mret (IoError error.(error_kind) (detailed.(error_message) +:+ str_of [NEWLINE] +:+
    match r with
    | Ok path => "failure bundle: " +:+ display path
    | Err e => "failed to retain failure bundle: " +:+ e.(error_message)
    end)).

(** ** Failures before an attempt *)

Definition dependency_failure (error : io_error) (runs_directory : Handle) (operation : string)
    (nanos : Z) : M S io_error :=
  failure_with_bundle error runs_directory (new_failure_bundle_id operation "dependency" nanos)
    None None (at_stage "dependency-initialization" (FailureDiagnostics_new operation)).

Definition replay_dependency_failure (error : io_error) (options : ReplayOptions) (nanos : Z)
    : M S io_error :=
  canonical ← call (rf_canonicalize options.(rp_directory));
  match canonical with
  | inl directory =>
      if bool_decide (directory = []) then mret error
      else dependency_failure error (parent_of directory) "replay" nanos
  | inr _ => mret error
  end.
End bundle.

(** ** Attempts

    An attempt threads the diagnostics it reports when it fails. *)

Definition Attempt (X : Type) : Type := X * FailureDiagnostics.

Section attempts.
Context {X V : Type}.

Definition on_files {A} (m : M X A) : M (Attempt X) A := zoom fst (fun x st => (x, st.2)) m.
Definition enter (name : string) : M (Attempt X) unit := modify (fun st => (st.1, at_stage name st.2)).
Definition note_network (network : NetworkIdentity) : M (Attempt X) unit :=
  modify (fun st => (st.1, set_network st.2 network)).

(** A drive of the machine: its outcome, and the machine it leaves. *)
Definition on_machine {C A} (vm_of : C -> V) (diagnostics_of : C -> FailureDiagnostics)
    (drive : FailureDiagnostics -> option (result A * C)) : M (Attempt X) (result A * V) :=
  fun st => match drive st.2 with
            | Some (r, c) => Some (Ok (r, vm_of c), (st.1, diagnostics_of c))
            | None => None
            end.

(** [attempt.map_err(|error| failure_with_bundle(..))]. *)
Definition with_bundle {A} (attempt : M (Attempt X) A) (diagnostics : FailureDiagnostics)
    (bundle : io_error -> FailureDiagnostics -> M X io_error) : M X A := fun x =>
  match attempt (x, diagnostics) with
  | Some (Ok a, (x, _)) => Some (Ok a, x)
  | Some (Err e, (x, diagnostics)) => (e ← bundle e diagnostics; throw e) x
  | None => None
  end.

(** A scope that ends, whatever came of it, with a drop. *)
Definition dropping {A} (drop : M X unit) (m : M X A) : M X A :=
  r ← catch m; _ ← drop; lift r.
(** A scope whose failure ends with a drop. *)
Definition dropping_failed {A} (drop : M X unit) (m : M X A) : M X A :=
  r ← catch m;
  match r with
  | Ok a => mret a
  | Err e => _ ← drop; throw e
  end.
End attempts.

Section drops.
Context {S V : Type} `{RunFs S} `{VmAdapter S V}.

(** [let _ = fs::remove_dir_all(path)]. *)
Definition remove_quietly (path : Handle) : M S unit := _ ← call (rf_remove_dir_all path); mret tt.
Definition drop_machine (vm : V) : M S unit := call (fun s => (tt, vm_drop vm s)).
End drops.
