(* ===== verification/Qemu.v ===== *)
(** The QEMU adapter, from [vm.rs]: its arguments, the identity of a machine, the
    fixture directory it serves, the launch, and the end of a machine.

    A [QemuMachine] is the child with the channel that its two threads serve
    ([HostSerial.QemuVm]); the threads themselves are calls of [QemuHost]. *)

From stdpp Require Import ssreflect.
From Stdlib Require Import Strings.Byte.
From S2P Require Import Prelude Types Std Protocol Tree Oci Fixture Effects Vm HostSerial Identity Root RunFiles Image Sanitize RunBase Failure Process.

Inductive ExecutionMode := Record_ | Replay_.
Definition qemu_value (mode : ExecutionMode) : string :=
  match mode with Record_ => "record" | Replay_ => "replay" end.

Definition MACHINE : string := "pc-i440fx-9.2".
Definition CPU : string := "qemu64".
Definition MEMORY_MIB : Z := 128.
Definition TIME_MODEL : string := "shift=4,sleep=off".
Definition EXIT_TIMEOUT : Z := 180 * SECOND.

Record QemuAdapter := {
  qa_executable : Handle;
  qa_data_directory : Handle;
  qa_bios : Handle;
  qa_linuxboot : Handle;
}.

(** ** Paths *)

Definition utf8_paths_error : io_error := invalid "QEMU paths must be absolute valid UTF-8".
Definition config_paths (config : RecordConfig) : list Handle :=
  [config.(rc_kernel); config.(rc_initramfs); config.(rc_replay_log); config.(rc_qmp_socket);
   config.(rc_serial_log); config.(rc_qemu_log)].
(** A [Handle] is absolute. *)
Definition validate_utf8_paths (config : RecordConfig) : result unit :=
  if forallb (fun path => bool_decide (is_Some (to_str path))) (config_paths config) then Ok tt
  else Err utf8_paths_error.

Definition option_path (prefix : string) (path : Handle) (suffix : string) : result string :=
  match to_str path with
  | None => Err (invalid "QEMU path is not UTF-8")
  | Some text => Ok (prefix +:+ str_of (qemu_escape_path text) +:+ suffix)
  end.

(** The components of an absolute path. *)
Definition absolute_components (path : bytes) : Handle :=
  map str_of (List.filter (fun part => negb (bool_decide (part = [])) && negb (bool_decide (part = ["."%byte])))
    (split_on SLASH path)).

(** ** Arguments *)

Section arguments.
Context {S : Type}.

Definition network_arguments (identity : NetworkIdentity) (fixture_directory : Handle)
    : M S (list string) :=
  filter ← unwrap identity.(net_replay_filter);
  let backend := identity.(net_backend) in
  let nic := identity.(net_nic) in
  netdev ← lift (option_path (backend.(backend_kind) +:+ ",id=" +:+ backend.(backend_id)
    +:+ ",restrict=on,tftp=") fixture_directory "");
  mret ["-netdev"; netdev;
        "-device"; nic.(nic_model) +:+ ",netdev=" +:+ backend.(backend_id) +:+ ",mac="
          +:+ nic.(nic_mac_address) +:+ ",bus=" +:+ nic.(nic_bus) +:+ ",addr="
          +:+ nic.(nic_pci_address) +:+ ",romfile=";
        "-object"; filter.(filter_kind) +:+ ",id=" +:+ filter.(filter_id) +:+ ",netdev="
          +:+ filter.(filter_backend_id) +:+ ",queue=" +:+ filter.(filter_queue)].

Definition arguments (adapter : QemuAdapter) (config : RecordConfig) (mode : ExecutionMode)
    (fixture_directory : option Handle) : M S (list string) :=
  _ ← lift (validate_utf8_paths config);
  serial ← lift (option_path "file,id=diagnostics,path=" config.(rc_serial_log) "");
  qmp ← lift (option_path "unix:path=" config.(rc_qmp_socket) ",server=on,wait=off");
  network ← match config.(rc_network) with
            | Some network =>
                _ ← lift (NetworkIdentity_validate network.(net_identity));
                directory ← lift (ok_or fixture_directory
                  (invalid_network "adapter-controlled fixture directory was not prepared"));
                network_arguments network.(net_identity) directory
            | None => mret ["-net"; "none"]
            end;
  icount ← lift (option_path (TIME_MODEL +:+ ",rr=" +:+ qemu_value mode +:+ ",rrfile=")
                   config.(rc_replay_log) "");
  mret (["-machine"; MACHINE +:+ ",accel=tcg";
         "-cpu"; CPU;
         "-smp"; "1";
         "-m"; fmt_dec MEMORY_MIB +:+ "M";
         "-nodefaults"; "-no-user-config";
         "-display"; "none";
         "-monitor"; "none";
         "-L"; display adapter.(qa_data_directory);
         "-bios"; display adapter.(qa_bios);
         "-chardev"; serial;
         "-serial"; "chardev:diagnostics";
         "-no-reboot";
         "-rtc"; "base=2000-01-01T00:00:00,clock=vm";
         "-kernel"; display config.(rc_kernel);
         "-initrd"; display config.(rc_initramfs);
         "-append"; "console=ttyS0 quiet loglevel=0 panic=-1 nokaslr random.trust_cpu=off init=/init";
         "-chardev"; "stdio,id=agent,signal=off";
         "-serial"; "chardev:agent";
         "-qmp"; qmp]
        ++ network ++ ["-icount"; icount]).
End arguments.

(** ** The host of a machine *)

Class QemuHost (S : Type) := {
  qh_clock : S -> (Z + io_error) * S;              (** nanoseconds since the epoch *)
  qh_network_counter : S -> Z * S;                 (** [NETWORK_TEMP_COUNTER.fetch_add(1)] *)
  qh_is_file : bytes -> S -> bool * S;             (** [Path::is_file] *)
  qh_variable : string -> S -> option bytes * S;   (** [env::var_os] *)
  qh_canonicalize : bytes -> S -> (Handle + io_error) * S;
  (** [CommandWriter::new] and the builder of the event reader: whether the thread
      was spawned *)
  qh_spawn_writer : Child -> S -> option io_error * S;
  qh_spawn_reader : Child -> S -> option io_error * S;
  (** what the two threads will answer *)
  qh_channel : Child -> S -> QemuVm;
  (** [join]: whether the thread panicked *)
  qh_join_writer : Child -> S -> bool * S;
  qh_join_reader : Child -> S -> bool * S;
}.

Record QemuMachine := {
  qm_child : Child;
  qm_channel : QemuVm;
  qm_writer : bool;                   (** [writer.is_some()] *)
  qm_event_reader : bool;             (** [event_reader.is_some()] *)
  qm_identity : VmIdentity;
  qm_qmp_socket : Handle;
  qm_fixture : option Handle;
  qm_child_reaped : bool;
}.

Section qemu.
Context {S : Type} `{RunFs S} `{ProcessHost S} `{QemuHost S} `{Sha256} `{SerdeValue}.
Variable fuel : nat.

(** ** Finding the executable *)

Definition components_count (path : bytes) : nat :=
  let parts := split_on SLASH path in
  let named part := negb (bool_decide (part = [])) && negb (bool_decide (part = ["."%byte])) in
  match path with
  | [] => 0
  | b :: _ => (if bool_decide (b = SLASH) || bool_decide (List.hd [] parts = ["."%byte]) then 1 else 0)
              + length (List.filter named parts)
  end%nat.

Fixpoint find_file (candidates : list bytes) : M S (option bytes) :=
  match candidates with
  | [] => mret None
  | candidate :: candidates =>
      present ← call (qh_is_file candidate);
      if (present : bool) then mret (Some candidate) else find_file candidates
  end.
Definition COLON : byte := ":"%byte.
(** [directory.join(name)] of a relative name. *)
Definition join_bytes (directory name : bytes) : bytes :=
  match rev directory with
  | [] => name
  | b :: _ => if bool_decide (b = SLASH) then directory ++ name else directory ++ [SLASH] ++ name
  end.

Definition resolve_from_path (executable path : bytes) : M S Handle :=
  found ← find_file (map (fun directory => join_bytes directory executable) (split_on COLON path));
  candidate ← lift (ok_or found (IoError NotFound ("executable not found: " +:+ from_utf8_lossy executable)));
  r ← call (qh_canonicalize candidate);
  or_other r.

Definition resolve_executable (executable : bytes) : M S Handle :=
  if (1 <? components_count executable)%nat then
    r ← call (qh_canonicalize executable); or_other r
  else
    path ← call (qh_variable "PATH");
    path ← lift (ok_or path (IoError NotFound "PATH is not set"));
    resolve_from_path executable path.

Fixpoint require_files (paths : list Handle) : M S unit :=
  match paths with
  | [] => mret tt
  | path :: paths =>
      present ← call (qh_is_file (as_bytes (display path)));
      if (present : bool) then require_files paths
      else throw (IoError NotFound ("required QEMU firmware is missing: " +:+ display path))
  end.

Definition QemuAdapter_new (executable : Handle) : M S QemuAdapter :=
  _ ← fail_if (length executable <? 2)%nat (invalid "invalid QEMU path");
  let prefix := parent_of (parent_of executable) in
  let data_directory := join prefix "share/qemu" in
  let bios := join data_directory "bios-256k.bin" in
  let linuxboot := join data_directory "linuxboot_dma.bin" in
  _ ← require_files [bios; linuxboot];
  mret {| qa_executable := executable; qa_data_directory := data_directory;
          qa_bios := bios; qa_linuxboot := linuxboot |}.

Definition from_environment : M S QemuAdapter :=
  executable ← call (qh_variable "QEMU_SYSTEM_X86_64");
  resolved ← resolve_executable (default (as_bytes "qemu-system-x86_64") executable);
  QemuAdapter_new resolved.

(** ** The identity of a machine *)

Definition file_identity (path : Handle) : M S FileIdentity :=
  text ← lift (ok_or (to_str path) (invalid "identity path is not UTF-8"));
  digest ← RunFiles.sha256_file path;
  mret {| file_path := str_of text; file_sha256 := digest |}.

Definition validate_network (network : option NetworkConfig) : result unit :=
  match network with
  | Some network => NetworkIdentity_validate network.(net_identity)
  | None => Ok tt
  end.

Definition QemuAdapter_identity (adapter : QemuAdapter) (config : RecordConfig) : M S VmIdentity :=
  _ ← lift (validate_utf8_paths config);
  _ ← lift (validate_network config.(rc_network));
  output ← bounded_output fuel adapter.(qa_executable) ["--version"] START_TIMEOUT;
  _ ← fail_if (negb output.(out_status).(qs_success)) (IoError Other "qemu --version failed");
  version ← lift (match from_utf8 output.(out_stdout) with
                  | inl version => Ok version
                  | inr e => Err (invalid_data e)
                  end);
  emulator ← file_identity adapter.(qa_executable);
  kernel ← file_identity config.(rc_kernel);
  initramfs ← RunFiles.sha256_file config.(rc_initramfs);
  bios ← file_identity adapter.(qa_bios);
  linuxboot ← file_identity adapter.(qa_linuxboot);
  mret {| qemu := emulator;
          qemu_version := str_of (List.hd [] (str_lines (as_bytes version)));
          kernel := kernel;
          initramfs_sha256 := initramfs;
          machine := MACHINE;
          cpu := CPU;
          memory_mib := MEMORY_MIB;
          vcpus := 1;
          accelerator := "tcg";
          firmware := [bios; linuxboot];
          devices := ["isa-serial:diagnostics"; "isa-serial:agent"];
          vm_network := net_identity <$> config.(rc_network) |}.

(** ** The fixture a machine serves *)

Fixpoint write_fixture (directory : Handle) (entries : list (string * bytes)) : M S unit :=
  match entries with
  | [] => mret tt
  | (name, contents) :: entries =>
      created ← call (fs_create_excl directory name 384);
      file ← or_errno created;
      written ← call (rf_append file contents);
      _ ← or_io written;
      write_fixture directory entries
  end.

Definition fill_fixture (network : NetworkConfig) (mode : ExecutionMode) (path : Handle) : M S unit :=
  match mode, network.(fixture_directory) with
  | Record_, Some source =>
      entries ← read_fixture_entries (absolute_components source);
      let actual := digest_fixture_entries entries in
      let expected := network.(net_identity).(net_fixture).(fixture_content_sha256) in
      _ ← fail_if (negb (bool_decide (actual = expected)))
        (invalid_network ("fixture content changed after configuration: expected " +:+ expected
          +:+ ", actual " +:+ actual));
      write_fixture path entries
  | Record_, None => throw (invalid_network "record mode requires content-controlled fixture input")
  | Replay_, None => mret tt
  | Replay_, Some _ => throw (invalid_network "replay mode does not accept live fixture input")
  end.

Definition create_in (network : NetworkConfig) (mode : ExecutionMode) (base : Handle) : M S Handle :=
  _ ← fail_if (bool_decide (to_str base = None))
    (invalid_network "temporary fixture base must be an absolute UTF-8 path");
  counter ← call qh_network_counter;
  clock ← call qh_clock;
  nanos ← or_other clock;
  let path := base ++ ["sf-network-" +:+ fmt_dec fs_pid +:+ "-" +:+ fmt_dec counter +:+ "-"
                       +:+ fmt_dec nanos] in
  _ ← create_private_dir path;
  dropping_failed (remove_quietly path) (_ ← fill_fixture network mode path; mret path).

(** ** The launch *)

(** [fs::remove_file] whose failure is ignored. *)
Definition remove_socket (path : Handle) : M S unit :=
  _ ← call (fs_unlinkat (parent_of path) (name_of path) false); mret tt.

Definition remove_stale (path : Handle) : M S unit :=
  r ← call (fs_unlinkat (parent_of path) (name_of path) false);
  match r with
  | inl _ => mret tt
  | inr e => let error := errno_error e in
             if bool_decide (error.(error_kind) = NotFound) then mret tt else throw error
  end.
Fixpoint remove_stales (paths : list Handle) : M S unit :=
  match paths with
  | [] => mret tt
  | path :: paths => _ ← remove_stale path; remove_stales paths
  end.

Definition no_socket_parent : io_error := invalid "QMP socket has no parent".

(** A failure after the child was spawned, which ends it. *)
Definition or_stop {A} (pid : Z) (cleanup : M S unit) (socket : Handle) (m : M S A) : M S A :=
  r ← catch m;
  match r with
  | Ok a => mret a
  | Err e => _ ← terminate_child pid; _ ← cleanup; _ ← remove_socket socket; throw e
  end.

(** [Drop] of a [QemuVm], without the drop of its fixture that follows. *)
Definition drop_qemu (vm : QemuMachine) : M S unit :=
  let child := vm.(qm_child) in
  _ ← if vm.(qm_child_reaped) then mret tt else terminate_child child.(ch_pid);
  _ ← if vm.(qm_writer) then _ ← call (qh_join_writer child); mret tt else mret tt;
  _ ← if vm.(qm_event_reader) then _ ← call (qh_join_reader child); mret tt else mret tt;
  remove_socket vm.(qm_qmp_socket).
Definition drop_fixture (fixture : option Handle) : M S unit :=
  match fixture with Some path => remove_quietly path | None => mret tt end.
Definition drop_vm (vm : QemuMachine) : M S unit := _ ← drop_qemu vm; drop_fixture vm.(qm_fixture).

Definition with_channel (channel : QemuVm) (vm : QemuMachine) : QemuMachine :=
  {| qm_child := vm.(qm_child); qm_channel := channel; qm_writer := vm.(qm_writer);
     qm_event_reader := vm.(qm_event_reader); qm_identity := vm.(qm_identity);
     qm_qmp_socket := vm.(qm_qmp_socket); qm_fixture := vm.(qm_fixture);
     qm_child_reaped := vm.(qm_child_reaped) |}.

(** From the identity of the machine to its readiness; the fixture is dropped by
    the caller when this fails. *)
Definition start_machine (adapter : QemuAdapter) (config : RecordConfig) (mode : ExecutionMode)
    (expected_identity : option VmIdentity) (fixture : option Handle) : M S QemuMachine :=
  identity ← QemuAdapter_identity adapter config;
  _ ← match expected_identity with
      | Some expected =>
          compatible ← unwrap (validate_identity_compatibility expected identity); lift compatible
      | None => mret tt
      end;
  arguments ← arguments adapter config mode fixture;
  stale_paths ← match mode with
                | Record_ => mret [config.(rc_qmp_socket); config.(rc_replay_log)]
                | Replay_ =>
                    present ← call (qh_is_file (as_bytes (display config.(rc_replay_log))));
                    if (present : bool) then mret [config.(rc_qmp_socket)]
                    else throw (IoError NotFound ("replay log is missing: " +:+ display config.(rc_replay_log)))
                end;
  _ ← remove_stales stale_paths;
  created ← call (rf_put config.(rc_qemu_log) 438 []);
  _ ← or_io created;
  spawned ← call (ps_spawn {| pc_executable := adapter.(qa_executable); pc_arguments := arguments;
    pc_directory := Some (parent_of config.(rc_qmp_socket));
    pc_stdin := Piped; pc_stdout := Piped; pc_stderr := ToFile config.(rc_qemu_log) |});
  child ← or_other spawned;
  let socket := config.(rc_qmp_socket) in
  _ ← or_stop child.(ch_pid) (mret tt) socket (qmp_negotiate fuel child.(ch_pid) socket);
  _ ← or_stop child.(ch_pid) (mret tt) socket (r ← call (qh_spawn_writer child); or_io r);
  _ ← or_stop child.(ch_pid) (_ ← call (qh_join_writer child); mret tt) socket
    (r ← call (qh_spawn_reader child); or_io r);
  channel ← gets (qh_channel child);
  let vm := {| qm_child := child; qm_channel := channel; qm_writer := true; qm_event_reader := true;
               qm_identity := identity; qm_qmp_socket := socket; qm_fixture := fixture;
               qm_child_reaped := false |} in
  let '(ready, channel) := await_ready channel in
  let vm := with_channel channel vm in
  match ready with
  | Ok _ => mret vm
  | Err e => _ ← drop_qemu vm; throw e
  end.

Definition launch (adapter : QemuAdapter) (config : RecordConfig) (mode : ExecutionMode)
    (expected_identity : option VmIdentity) : M S QemuMachine :=
  _ ← lift (validate_utf8_paths config);
  _ ← match expected_identity with
      | Some expected =>
          compatible ← unwrap (validate_replay_network_identity expected (net_identity <$> config.(rc_network)));
          lift compatible
      | None => mret tt
      end;
  _ ← lift (validate_network config.(rc_network));
  _ ← fail_if (bool_decide (config.(rc_qmp_socket) = [])) no_socket_parent;
  fixture ← match config.(rc_network) with
            | Some network => path ← create_in network mode (parent_of config.(rc_qmp_socket)); mret (Some path)
            | None => mret None
            end;
  dropping_failed (drop_fixture fixture) (start_machine adapter config mode expected_identity fixture).

Definition QemuAdapter_launch_record (adapter : QemuAdapter) (config : RecordConfig) : M S QemuMachine :=
  launch adapter config Record_ None.
Definition QemuAdapter_launch_replay (adapter : QemuAdapter) (config : RecordConfig)
    (expected_identity : VmIdentity) : M S QemuMachine :=
  launch adapter config Replay_ (Some expected_identity).

(** ** The end of a machine *)

Definition on_host {A} (m : M S A) : M (S * QemuMachine) A := zoom fst (fun s st => (s, st.2)) m.
Definition set_reaped : M (S * QemuMachine) unit := modify (fun st => (st.1,
  {| qm_child := st.2.(qm_child); qm_channel := st.2.(qm_channel); qm_writer := st.2.(qm_writer);
     qm_event_reader := st.2.(qm_event_reader); qm_identity := st.2.(qm_identity);
     qm_qmp_socket := st.2.(qm_qmp_socket); qm_fixture := st.2.(qm_fixture); qm_child_reaped := true |})).
(** [take], which closes the machine's input, and which forgets the reader. *)
Definition take_writer : M (S * QemuMachine) bool :=
  present ← gets (fun st => st.2.(qm_writer));
  _ ← modify (fun st => (st.1,
    {| qm_child := st.2.(qm_child);
       qm_channel := MkQemu st.2.(qm_channel).(q_events) None st.2.(qm_channel).(q_sent);
       qm_writer := false; qm_event_reader := st.2.(qm_event_reader); qm_identity := st.2.(qm_identity);
       qm_qmp_socket := st.2.(qm_qmp_socket); qm_fixture := st.2.(qm_fixture);
       qm_child_reaped := st.2.(qm_child_reaped) |}));
  mret present.
Definition take_reader : M (S * QemuMachine) bool :=
  present ← gets (fun st => st.2.(qm_event_reader));
  _ ← modify (fun st => (st.1,
    {| qm_child := st.2.(qm_child); qm_channel := st.2.(qm_channel); qm_writer := st.2.(qm_writer);
       qm_event_reader := false; qm_identity := st.2.(qm_identity);
       qm_qmp_socket := st.2.(qm_qmp_socket); qm_fixture := st.2.(qm_fixture);
       qm_child_reaped := st.2.(qm_child_reaped) |}));
  mret present.

Definition join_threads (child : Child) : M (S * QemuMachine) unit :=
  writer ← take_writer;
  _ ← if (writer : bool) then
        panicked ← on_host (call (qh_join_writer child));
        fail_if panicked (IoError Other "guest command writer panicked")
      else mret tt;
  reader ← take_reader;
  if (reader : bool) then
    panicked ← on_host (call (qh_join_reader child));
    fail_if panicked (IoError Other "guest event reader panicked")
  else mret tt.

Fixpoint wait_loop (turns : nat) (deadline : Z) : M (S * QemuMachine) QemuStatus :=
  match turns with
  | O => out_of_fuel
  | Datatypes.S turns =>
      child ← gets (fun st => st.2.(qm_child));
      exited ← on_host (child_exited child.(ch_pid));
      if (exited : bool) then
        status ← on_host (finish_exited_process_group child.(ch_pid));
        _ ← set_reaped;
        _ ← join_threads child;
        socket ← gets (fun st => st.2.(qm_qmp_socket));
        _ ← on_host (remove_socket socket);
        mret status
      else
        at_ ← on_host now;
        if deadline <=? at_ then
          _ ← on_host (terminate_child child.(ch_pid));
          _ ← set_reaped;
          throw (timed_out "timed out waiting for QEMU to exit")
        else
          _ ← on_host (sleep (10 * MILLISECOND));
          wait_loop turns deadline
  end.
Definition wait : M (S * QemuMachine) QemuStatus :=
  started ← on_host now; wait_loop fuel (started + EXIT_TIMEOUT).
End qemu.

(** The channel operations of a machine are those of its channel. *)
Definition on_channel {A} (op : QemuVm -> result A * QemuVm) (vm : QemuMachine) : result A * QemuMachine :=
  let '(r, channel) := op vm.(qm_channel) in (r, with_channel channel vm).

#[export] Instance machine_vm : RunningVm QemuMachine := {
  vm_send frame := on_channel (q_send frame);
  vm_receive := on_channel q_receive;
  vm_try_receive := on_channel q_try_receive;
  vm_finish_events := on_channel q_finish_events;
}.
