(* ===== verification/QemuArguments.v ===== *)
(** The arguments of [Qemu], read back: the option strings say what the
    configuration says, whatever the paths contain. *)

From stdpp Require Import ssreflect gmap.
From Stdlib Require Import Strings.Byte.
From S2P Require Import Prelude Types Std Protocol Tree Oci Fixture Effects Vm HostSerial Identity Root RunFiles Image Text Sanitize RunBase Failure Process ProcessSafe Qemu.

(** ** The arguments *)

(** The documented syntax of an option string: fields separated by commas, where
    a doubled comma stands for a comma. *)
Definition COMMA : byte := ","%byte.
Fixpoint option_fields (field l : bytes) : list bytes :=
  match l with
  | [] => [field]
  | b :: l =>
      if bool_decide (b = COMMA) then
        match l with
        | c :: l' => if bool_decide (c = COMMA) then option_fields (field ++ [COMMA]) l'
                     else field :: option_fields [] l
        | [] => [field; []]
        end
      else option_fields (field ++ [b]) l
  end.
Definition fields (value : string) : list string := map str_of (option_fields [] (as_bytes value)).

(** The values given to an option on a command line. *)
Fixpoint option_values (name : string) (arguments : list string) : list string :=
  match arguments with
  | argument :: ((value :: _) as rest) =>
      (if String.eqb argument name then [value] else []) ++ option_values name rest
  | _ => []
  end.

Lemma fields_plain field l rest : COMMA ∉ l ->
  option_fields field (l ++ rest) = option_fields (field ++ l) rest.
Proof.
  revert field. induction l as [|b l IH]; intros field Hl; [by rewrite app_nil_r|].
  apply not_elem_of_cons in Hl as [Hb Hl]. cbn [app option_fields].
  rewrite bool_decide_eq_false_2; [by rewrite IH // -app_assoc|congruence].
Qed.
Lemma fields_escaped field path rest :
  option_fields field (qemu_escape_path path ++ rest) = option_fields (field ++ path) rest.
Proof.
  revert field. induction path as [|b path IH]; intros field; [by rewrite app_nil_r|].
  unfold qemu_escape_path in *. cbn [flat_map]. case_bool_decide as Hb.
  - subst b. cbn [app option_fields]. rewrite !bool_decide_eq_true_2 //. by rewrite IH -app_assoc.
  - cbn [app option_fields]. rewrite bool_decide_eq_false_2 //. by rewrite IH -app_assoc.
Qed.
(** A field that ends at a comma, which starts no escape. *)
Lemma fields_comma field b rest : b <> COMMA ->
  option_fields field (COMMA :: b :: rest) = field :: option_fields [] (b :: rest).
Proof. intros Hb. cbn [option_fields]. by rewrite bool_decide_eq_true_2 // bool_decide_eq_false_2. Qed.

Lemma to_str_display path text : to_str path = Some text -> text = as_bytes (display path).
Proof.
  unfold to_str. destruct (from_utf8 _) as [s|] eqn:E; [|done]. intros [= <-].
  unfold from_utf8 in E. destruct (utf8_error _ _ _); [done|]. injection E as <-. by rewrite as_bytes_str_of.
Qed.
(** The fields of an option string around a path. *)
Lemma option_path_fields prefix path suffix value init key :
  option_path prefix path suffix = Ok value ->
  (forall rest, option_fields [] (as_bytes prefix ++ rest) = init ++ option_fields key rest) ->
  fields value = map str_of (init ++ option_fields (key ++ as_bytes (display path)) (as_bytes suffix)).
Proof.
  unfold option_path. destruct (to_str path) as [text|] eqn:E; [|done]. apply to_str_display in E.
  intros [= <-] Hp. unfold fields. by rewrite !as_bytes_app as_bytes_str_of Hp fields_escaped E.
Qed.

(** The character an option starts with; a value is not taken for one. *)
Notation DASH := (Ascii.Ascii true false true true false true false false).
Definition not_option (value : string) : Prop := forall rest, String.eqb value (String DASH rest) = false.
Lemma not_option_path prefix path suffix value :
  option_path prefix path suffix = Ok value -> not_option prefix -> prefix <> "" -> not_option value.
Proof.
  unfold option_path. destruct (to_str path) as [text|]; [|done]. intros [= <-] Hp Hne rest.
  destruct prefix as [|a prefix]; [done|]. specialize (Hp prefix).
  change (String.eqb (String a prefix) (String DASH prefix))
    with (if Ascii.eqb a DASH then String.eqb prefix prefix else false) in Hp.
  rewrite String.eqb_refl in Hp. 
  change ((if Ascii.eqb a DASH then String.eqb (prefix +:+ str_of (qemu_escape_path text) +:+ suffix) rest
           else false) = false). by destruct (Ascii.eqb a DASH).
Qed.
Lemma not_option_display path : not_option (display path).
Proof. by intros rest. Qed.

(** The network's part of the command line. *)
Definition network_shape (fixture : option Handle) (network : option NetworkConfig) (args : list string) : Prop :=
  match network with
  | None => args = ["-net"; "none"]
  | Some _ => exists directory netdev, fixture = Some directory /\
      option_path "user,id=simnet,restrict=on,tftp=" directory "" = Ok netdev /\
      args = ["-netdev"; netdev;
              "-device"; "rtl8139,netdev=simnet,mac=52:54:00:12:34:56,bus=pci.0,addr=0x3,romfile=";
              "-object"; "filter-replay,id=simnet-replay,netdev=simnet,queue=all"]
  end.

Lemma arguments_shape {S} adapter config mode fixture (s : S) args s' :
  arguments adapter config mode fixture s = Some (Ok args, s') ->
  s' = s /\ exists serial qmp icount network,
    option_path "file,id=diagnostics,path=" config.(rc_serial_log) "" = Ok serial /\
    option_path "unix:path=" config.(rc_qmp_socket) ",server=on,wait=off" = Ok qmp /\
    option_path (TIME_MODEL +:+ ",rr=" +:+ qemu_value mode +:+ ",rrfile=") config.(rc_replay_log) "" = Ok icount /\
    network_shape fixture config.(rc_network) network /\
    args = ["-machine"; MACHINE +:+ ",accel=tcg"; "-cpu"; CPU; "-smp"; "1"; "-m"; fmt_dec MEMORY_MIB +:+ "M";
      "-nodefaults"; "-no-user-config"; "-display"; "none"; "-monitor"; "none";
      "-L"; display adapter.(qa_data_directory); "-bios"; display adapter.(qa_bios);
      "-chardev"; serial; "-serial"; "chardev:diagnostics"; "-no-reboot";
      "-rtc"; "base=2000-01-01T00:00:00,clock=vm";
      "-kernel"; display config.(rc_kernel); "-initrd"; display config.(rc_initramfs);
      "-append"; "console=ttyS0 quiet loglevel=0 panic=-1 nokaslr random.trust_cpu=off init=/init";
      "-chardev"; "stdio,id=agent,signal=off"; "-serial"; "chardev:agent"; "-qmp"; qmp]
      ++ network ++ ["-icount"; icount].
Proof.
  unfold arguments. intros ([]&?&[_ ->]%lift_Ok&E)%M_bind_Ok.
  apply M_bind_Ok in E as (serial&?&[Hserial ->]%lift_Ok&E).
  apply M_bind_Ok in E as (qmp&?&[Hqmp ->]%lift_Ok&E).
  apply M_bind_Ok in E as (network&s1&Enet&E).
  apply M_bind_Ok in E as (icount&?&[Hicount ->]%lift_Ok&[= <- <-]).
  assert (Hshape : s1 = s /\ network_shape fixture config.(rc_network) network).
  { unfold network_shape. destruct config.(rc_network) as [n|]; [|by injection Enet as <- <-].
    apply M_bind_Ok in Enet as ([]&?&[Hv ->]%lift_Ok&E). apply validated_profile in Hv as (c&t&_&_&Hn).
    apply M_bind_Ok in E as (directory&?&[Hd ->]%lift_Ok&E). destruct fixture as [f|]; [|done].
    injection Hd as ->. unfold network_arguments in E. rewrite Hn in E.
    apply M_bind_Ok in E as (filter&?&[= <- <-]&E).
    apply M_bind_Ok in E as (netdev&?&[Hnetdev ->]%lift_Ok&[= <- <-]).
    split; [done|]. by exists directory, netdev. }
  destruct Hshape as [-> Hshape]. split; [done|]. by exists serial, qmp, icount, network.
Qed.

Ltac eval_options := repeat match goal with
  | |- context [String.eqb ?a ?b] =>
      let r := eval vm_compute in (String.eqb a b) in change (String.eqb a b) with r
  end.

(** C36. What QEMU is told is what the configuration says.  When the arguments are
    built, each option whose value is a list of fields, read by the documented
    syntax with its comma escape, has exactly the fields meant: the logs, the
    channel, the socket and the replay log with the configured paths, whatever
    commas these contain, so that no path can add or change a field; the restricted
    user network with the prepared fixture directory, and its card and filter
    attached to it, or no network; and the pinned time model with the mode. *)
Theorem arguments_fields {S} adapter config mode fixture (s : S) args s' :
  arguments adapter config mode fixture s = Some (Ok args, s') ->
  s' = s /\
  map fields (option_values "-chardev" args) =
    [["file"; "id=diagnostics"; "path=" +:+ display config.(rc_serial_log)];
     ["stdio"; "id=agent"; "signal=off"]] /\
  map fields (option_values "-qmp" args) =
    [["unix:path=" +:+ display config.(rc_qmp_socket); "server=on"; "wait=off"]] /\
  map fields (option_values "-icount" args) =
    [["shift=4"; "sleep=off"; "rr=" +:+ qemu_value mode; "rrfile=" +:+ display config.(rc_replay_log)]] /\
  match config.(rc_network) with
  | None => option_values "-net" args = ["none"] /\ option_values "-netdev" args = []
  | Some _ => exists directory, fixture = Some directory /\ option_values "-net" args = [] /\
      map fields (option_values "-netdev" args) =
        [["user"; "id=simnet"; "restrict=on"; "tftp=" +:+ display directory]] /\
      map fields (option_values "-device" args) =
        [["rtl8139"; "netdev=simnet"; "mac=52:54:00:12:34:56"; "bus=pci.0"; "addr=0x3"; "romfile="]] /\
      map fields (option_values "-object" args) =
        [["filter-replay"; "id=simnet-replay"; "netdev=simnet"; "queue=all"]]
  end.
Proof.
  intros (->&serial&qmp&icount&network&Hs&Hq&Hi&Hn&->)%arguments_shape. split; [done|].
  pose proof (not_option_path _ _ _ _ Hs ltac:(done) ltac:(done)) as Ns.
  pose proof (not_option_path _ _ _ _ Hq ltac:(done) ltac:(done)) as Nq.
  pose proof (not_option_display adapter.(qa_data_directory)) as N1.
  pose proof (not_option_display adapter.(qa_bios)) as N2.
  pose proof (not_option_display config.(rc_kernel)) as N3.
  pose proof (not_option_display config.(rc_initramfs)) as N4.
  assert (Fs : fields serial = ["file"; "id=diagnostics"; "path=" +:+ display config.(rc_serial_log)]).
  { rewrite (option_path_fields _ _ _ _ [as_bytes "file"; as_bytes "id=diagnostics"] (as_bytes "path=") Hs);
      [|by intros]. rewrite -as_bytes_app. change (as_bytes "") with ([] : bytes).
    cbn [app map option_fields]. by rewrite !str_of_as_bytes. }
  assert (Fq : fields qmp = ["unix:path=" +:+ display config.(rc_qmp_socket); "server=on"; "wait=off"]).
  { rewrite (option_path_fields _ _ _ _ [] (as_bytes "unix:path=") Hq); [|by intros].
    rewrite -as_bytes_app. generalize ("unix:path=" +:+ display config.(rc_qmp_socket)). intros path.
    change (option_fields (as_bytes path) (as_bytes ",server=on,wait=off"))
      with [as_bytes path; as_bytes "server=on"; as_bytes "wait=off"].
    cbn [app map]. by rewrite !str_of_as_bytes. }
  assert (Fi : fields icount = ["shift=4"; "sleep=off"; "rr=" +:+ qemu_value mode;
    "rrfile=" +:+ display config.(rc_replay_log)]).
  { rewrite (option_path_fields _ _ _ _ [as_bytes "shift=4"; as_bytes "sleep=off"; as_bytes ("rr=" +:+ qemu_value mode)]
      (as_bytes "rrfile=") Hi); [|by destruct mode; intros].
    rewrite -as_bytes_app. change (as_bytes "") with ([] : bytes).
    cbn [app map option_fields]. by rewrite !str_of_as_bytes. }
  destruct (rc_network config) as [n|] eqn:En; cbn [network_shape] in Hn.
  - destruct Hn as (directory&netdev&Hf&Hd&->).
    pose proof (not_option_path _ _ _ _ Hd ltac:(done) ltac:(done)) as Nd.
    assert (Fd : fields netdev = ["user"; "id=simnet"; "restrict=on"; "tftp=" +:+ display directory]).
    { rewrite (option_path_fields _ _ _ _ [as_bytes "user"; as_bytes "id=simnet"; as_bytes "restrict=on"]
        (as_bytes "tftp=") Hd); [|by intros].
      rewrite -as_bytes_app. change (as_bytes "") with ([] : bytes).
      cbn [app map option_fields]. by rewrite !str_of_as_bytes. }
    cbn [option_values app]. rewrite !Ns !Nq !Nd !N1 !N2 !N3 !N4. eval_options.
    cbn [app map]. rewrite Fs Fq Fi. split_and!; [done..|]. exists directory. cbn [map]. rewrite Fd. by split_and!.
  - subst network. cbn [option_values app]. rewrite !Ns !Nq !N1 !N2 !N3 !N4. eval_options.
    cbn [app map]. by rewrite Fs Fq Fi.
Qed.

(** ** Sample arguments *)

Definition comma_root : Handle := ["tmp"; "directory=with,comma,"].
Definition sample_adapter : QemuAdapter := {|
  qa_executable := ["bin"; "qemu-system-x86_64"]; qa_data_directory := ["share"; "qemu"];
  qa_bios := ["share"; "qemu"; "bios-256k.bin"]; qa_linuxboot := ["share"; "qemu"; "linuxboot_dma.bin"] |}.
Definition sample_config (network : option NetworkConfig) : RecordConfig := {|
  rc_kernel := comma_root ++ ["kernel"]; rc_initramfs := comma_root ++ ["initramfs"];
  rc_replay_log := comma_root ++ ["replay.bin"]; rc_qmp_socket := comma_root ++ ["qmp.sock"];
  rc_serial_log := comma_root ++ ["serial.log"]; rc_qemu_log := comma_root ++ ["qemu.log"];
  rc_network := network |}.
Definition sample_digest : string := str_of (repeat "a"%byte 64).
Definition sample_network : NetworkConfig := restricted_tftp None sample_digest sample_digest.

Definition sample_arguments : option (result (list string) * unit) :=
  arguments sample_adapter (sample_config (Some sample_network)) Replay_ (Some comma_root) tt.

Lemma arguments_fields_witness : exists args, sample_arguments = Some (Ok args, tt) /\
  map fields (option_values "-netdev" args) =
    [["user"; "id=simnet"; "restrict=on"; "tftp=/tmp/directory=with,comma,"]].
Proof.
  destruct sample_arguments as [[[args|e] []]|] eqn:E; [|by vm_compute in E..].
  exists args. split; [done|].
  destruct (arguments_fields _ _ _ _ _ _ _ E) as (_&_&_&_&directory&[= <-]&_&Hn&_). exact Hn.
Defined.
