(* ===== verification/MachineSafe.v ===== *)
(** What is proved of the machines of [Qemu]: a launch returns, and what it leaves
    behind is the machine it returns or nothing; a machine that is waited for or
    dropped is gone. *)

From stdpp Require Import ssreflect gmap.
From Stdlib Require Import Strings.Byte.
From S2P Require Import Prelude Types Std Protocol Tree Oci Fixture Effects Vm HostSerial Identity Root RunFiles Image Sanitize RunBase Failure Process ProcessSafe Qemu.

(** ** Calls that start nothing *)

(** Documented behaviour: the calls on files and on threads start and end no
    process, and neither read nor write its descriptors. *)
Class QuietHost (S : Type) `{ProcessLaws S} `{HostFs S} `{!RunFs S} `{!QemuHost S} := {
  quiet_open p s : quiet (world s) (world (rf_open p s).2);
  quiet_read p s : quiet (world s) (world (fs_read p s).2);
  quiet_mkdir p mode s : quiet (world s) (world (rf_create_dir p mode s).2);
  quiet_fixture p s : quiet (world s) (world (rf_fixture_directory p s).2);
  quiet_create p c mode s : quiet (world s) (world (fs_create_excl p c mode s).2);
  quiet_append p data s : quiet (world s) (world (rf_append p data s).2);
  quiet_put p mode data s : quiet (world s) (world (rf_put p mode data s).2);
  quiet_unlink p c dir s : quiet (world s) (world (fs_unlinkat p c dir s).2);
  quiet_remove p s : quiet (world s) (world (rf_remove_dir_all p s).2);
  quiet_clock s : quiet (world s) (world (qh_clock s).2);
  quiet_counter s : quiet (world s) (world (qh_network_counter s).2);
  quiet_is_file p s : quiet (world s) (world (qh_is_file p s).2);
  quiet_spawn_writer child s : quiet (world s) (world (qh_spawn_writer child s).2);
  quiet_spawn_reader child s : quiet (world s) (world (qh_spawn_reader child s).2);
  quiet_join_writer child s : quiet (world s) (world (qh_join_writer child s).2);
  quiet_join_reader child s : quiet (world s) (world (qh_join_reader child s).2);
}.

Section quietly.
Context {S : Type} `{QuietHost S} `{Sha256} `{SerdeValue}.
Implicit Types (s : S).
#[local] Set Default Proof Using "All".

Definition quietly {A} (m : M S A) : Prop := forall s, wp m s (fun _ s' => quiet (world s) (world s')).

Lemma quietly_ret {A} (a : A) : quietly (mret a).
Proof. intros s. by apply wp_ret. Qed.
Lemma quietly_throw {A} e : quietly (throw e : M S A).
Proof. intros s. by apply wp_throw. Qed.
Lemma quietly_lift {A} (r : result A) : quietly (lift r).
Proof. intros s. by apply wp_lift. Qed.
Lemma quietly_fail_if b e : quietly (fail_if b e : M S unit).
Proof. intros s. by apply wp_fail_if. Qed.
Lemma quietly_or_io o : quietly (or_io o : M S unit).
Proof. destruct o; [apply quietly_throw|apply quietly_ret]. Qed.
Lemma quietly_or_other {A} (r : A + io_error) : quietly (or_other r : M S A).
Proof. destruct r; [apply quietly_ret|apply quietly_throw]. Qed.
Lemma quietly_or_errno {A} (r : A + Errno) : quietly (or_errno r : M S A).
Proof. destruct r; [apply quietly_ret|apply quietly_throw]. Qed.
Lemma quietly_bind {A B} (m : M S A) (k : A -> M S B) :
  quietly m -> (forall a, quietly (k a)) -> quietly (m ≫= k).
Proof.
  intros Hm Hk s. apply wp_bind. eapply wp_mono; [apply Hm|]. intros [a|e] s1 Hq; [|done].
  eapply wp_mono; [apply Hk|]. intros r s2 Hq2. by eapply quiet_trans.
Qed.
Lemma quietly_call {A} (f : S -> A * S) : (forall s, quiet (world s) (world (f s).2)) -> quietly (call f).
Proof. intros Hf s. by apply wp_quiet. Qed.
Lemma quietly_catch {A} (m : M S A) : quietly m -> quietly (catch m).
Proof. intros Hm s. apply wp_catch, Hm. Qed.
Lemma quietly_if {A} (b : bool) (m m' : M S A) : quietly m -> quietly m' -> quietly (if b then m else m').
Proof. by destruct b. Qed.
Hint Resolve quietly_ret quietly_throw quietly_lift quietly_fail_if quietly_or_io quietly_or_other
  quietly_or_errno : core.
Ltac quiet_step := first
  [ apply quiet_open | apply quiet_read | apply quiet_mkdir | apply quiet_fixture | apply quiet_create
  | apply quiet_append | apply quiet_put | apply quiet_unlink | apply quiet_remove | apply quiet_clock
  | apply quiet_counter | apply quiet_is_file | apply quiet_spawn_writer | apply quiet_spawn_reader
  | apply quiet_join_writer | apply quiet_join_reader ].
Ltac solve_quietly := repeat first
  [ solve [auto]
  | apply quietly_bind; [|intros ?]
  | apply quietly_call; intros ?; quiet_step
  | apply quietly_catch
  | apply quietly_if
  | match goal with |- quietly (match ?x with _ => _ end) => destruct x end ].

Lemma quietly_sha256_file p : quietly (RunFiles.sha256_file p : M S string).
Proof. unfold RunFiles.sha256_file. solve_quietly. Qed.
Hint Resolve quietly_sha256_file : core.
Lemma quietly_file_identity p : quietly (file_identity p : M S FileIdentity).
Proof. unfold file_identity. solve_quietly. Qed.
Lemma quietly_remove_quietly p : quietly (remove_quietly p : M S unit).
Proof. unfold remove_quietly. solve_quietly. Qed.
Lemma quietly_remove_socket p : quietly (remove_socket p : M S unit).
Proof. unfold remove_socket. solve_quietly. Qed.
Lemma quietly_remove_stale p : quietly (remove_stale p : M S unit).
Proof. unfold remove_stale. solve_quietly. Qed.
Hint Resolve quietly_file_identity quietly_remove_quietly quietly_remove_socket quietly_remove_stale : core.
Lemma quietly_remove_stales paths : quietly (remove_stales paths : M S unit).
Proof. induction paths; cbn [remove_stales]; solve_quietly. Qed.
Lemma quietly_write_fixture directory entries : quietly (write_fixture directory entries : M S unit).
Proof. induction entries as [|[name contents] entries IH]; cbn [write_fixture]; solve_quietly. Qed.
Lemma quietly_read_entries p : quietly (read_fixture_entries p : M S (list (string * bytes))).
Proof. unfold read_fixture_entries. solve_quietly. Qed.
Hint Resolve quietly_remove_stales quietly_write_fixture quietly_read_entries : core.
Lemma quietly_fill network mode path : quietly (fill_fixture network mode path : M S unit).
Proof. unfold fill_fixture. solve_quietly. Qed.
Hint Resolve quietly_fill : core.
Lemma quietly_create_in network mode base : quietly (create_in network mode base : M S Handle).
Proof. unfold create_in, create_private_dir, dropping_failed. solve_quietly. Qed.
Lemma quietly_drop_fixture f : quietly (drop_fixture f : M S unit).
Proof. unfold drop_fixture. solve_quietly. Qed.

(** A quiet computation inside one that is not. *)
Lemma wp_quietly {A} (m : M S A) s (Q : result A -> S -> Prop) : quietly m ->
  (forall r s', quiet (world s) (world s') -> Q r s') -> wp m s Q.
Proof. intros Hm HQ. eapply wp_mono; [apply Hm|]. exact HQ. Qed.

(** ** Ending a machine *)

Lemma fewer_quiet w w' : quiet w w' -> fewer w w'.
Proof. intros (Hm&_). by apply fewer_moved. Qed.
Lemma fewer_refl w : fewer w w.
Proof. by apply fewer_moved. Qed.
Lemma gone_fewer pid w w' : pid ∉ w.(w_live) -> fewer w w' -> pid ∉ w'.(w_live).
Proof. intros Hg [Hs _]. set_solver. Qed.
Lemma ended_fewer pid w w' : ended pid w w' -> fewer w w' /\ pid ∉ w'.(w_live).
Proof. intros [Hq Hx]. split; [by apply fewer_quiet|done]. Qed.

Lemma quietly_join (f : S -> bool * S) (b : bool) : (forall s, quiet (world s) (world (f s).2)) ->
  quietly (if b then _ ← call f; mret tt else mret tt).
Proof. intros Hf. apply quietly_if; [|auto]. apply quietly_bind; [by apply quietly_call|auto]. Qed.

(** [drop] ends a machine that was not reaped. *)
Lemma wp_drop_qemu vm s (Q : result unit -> S -> Prop) :
  (forall s', fewer (world s) (world s') ->
     (vm.(qm_child_reaped) = false -> vm.(qm_child).(ch_pid) ∉ w_live (world s')) -> Q (Ok tt) s') ->
  wp (drop_qemu vm) s Q.
Proof.
  intros HQ. apply wp_bind.
  assert (Hend : wp (if vm.(qm_child_reaped) then mret tt else terminate_child vm.(qm_child).(ch_pid)) s (fun r s1 =>
    r = Ok tt /\ fewer (world s) (world s1) /\
    (vm.(qm_child_reaped) = false -> vm.(qm_child).(ch_pid) ∉ w_live (world s1)))).
  { destruct vm.(qm_child_reaped); [apply wp_ret; split_and!; [done|apply fewer_refl|done]|].
    apply wp_terminate. intros s1 [Hf Hg]%ended_fewer. by split_and!. }
  eapply wp_mono; [exact Hend|]. intros r s1 (->&Hf1&Hg1).
  assert (Hjoin : forall (f : S -> bool * S) (b : bool) s0 (Q0 : result unit -> S -> Prop),
    (forall s, quiet (world s) (world (f s).2)) ->
    (forall s', quiet (world s0) (world s') -> Q0 (Ok tt) s') ->
    wp (if b then _ ← call f; mret tt else mret tt) s0 Q0).
  { intros f b s0 Q0 Hf HQ0. destruct b; [|by apply wp_ret, HQ0].
    apply wp_bind, wp_quiet; [apply Hf|]. intros _ s' _ Hq. by apply wp_ret, HQ0. }
  apply wp_bind, Hjoin; [intros; apply quiet_join_writer|]. intros s2 Hq2.
  apply wp_bind, Hjoin; [intros; apply quiet_join_reader|]. intros s3 Hq3.
  apply wp_bind, wp_quiet; [apply quiet_unlink|]. intros _ s4 _ Hq4. apply wp_ret, HQ.
  - eapply fewer_trans; [exact Hf1|]. apply fewer_quiet. eapply quiet_trans; [exact Hq2|]. by eapply quiet_trans.
  - intros Hr. eapply gone_fewer; [by apply Hg1|]. apply fewer_quiet. eapply quiet_trans; [exact Hq2|].
    by eapply quiet_trans.
Qed.

Lemma wp_drop_vm vm s (Q : result unit -> S -> Prop) :
  (forall s', fewer (world s) (world s') ->
     (vm.(qm_child_reaped) = false -> vm.(qm_child).(ch_pid) ∉ w_live (world s')) -> Q (Ok tt) s') ->
  wp (drop_vm vm) s Q.
Proof.
  intros HQ. apply wp_bind, wp_drop_qemu. intros s1 Hf Hg. unfold drop_fixture.
  destruct vm.(qm_fixture) as [path|]; [|apply wp_ret; by apply HQ].
  apply wp_bind, wp_quiet; [apply quiet_remove|]. intros _ s2 _ Hq. apply wp_ret, HQ.
  - eapply fewer_trans; [exact Hf|by apply fewer_quiet].
  - intros Hr. eapply gone_fewer; [by apply Hg|by apply fewer_quiet].
Qed.

(** A failure after the child was spawned ends it. *)
Lemma wp_or_stop {A} pid (cleanup : M S unit) socket (m : M S A) s (Q : result A -> S -> Prop) :
  (forall s0, wp cleanup s0 (fun r s1 => r = Ok tt /\ quiet (world s0) (world s1))) ->
  wp m s (fun r s1 => match r with
    | Ok a => Q (Ok a) s1
    | Err e => forall s', fewer (world s1) (world s') -> pid ∉ w_live (world s') -> Q (Err e) s'
    end) -> wp (or_stop pid cleanup socket m) s Q.
Proof.
  intros Hc Hm. apply wp_bind, wp_catch. eapply wp_mono; [exact Hm|]. intros [a|e] s1 HQ; [by apply wp_ret|].
  apply wp_bind, wp_terminate. intros s2 [Hf Hg]%ended_fewer.
  apply wp_bind. eapply wp_mono; [apply Hc|]. intros r s3 (->&Hq3).
  apply wp_bind, wp_bind, wp_quiet; [apply quiet_unlink|]. intros _ s4 _ Hq4. apply wp_ret, wp_throw, HQ.
  - eapply fewer_trans; [exact Hf|]. apply fewer_quiet. by eapply quiet_trans.
  - eapply gone_fewer; [exact Hg|]. apply fewer_quiet. by eapply quiet_trans.
Qed.

(** ** The launch *)

Lemma wp_arguments adapter config mode fixture s (Q : result (list string) -> S -> Prop) :
  (forall r, Q r s) -> wp (arguments adapter config mode fixture) s Q.
Proof.
  intros HQ. unfold arguments.
  apply wp_bind, wp_lift. destruct (validate_utf8_paths config) as [[]|]; [|apply HQ].
  apply wp_bind, wp_lift. destruct (option_path _ _ _) as [serial|]; [|apply HQ].
  apply wp_bind, wp_lift. destruct (option_path "unix:path=" _ _) as [qmp|]; [|apply HQ].
  apply wp_bind. eapply (wp_mono _ _ (fun _ s' => s' = s)).
  - destruct config.(rc_network) as [network|]; [|by apply wp_ret].
    apply wp_bind, wp_lift. destruct (NetworkIdentity_validate _) as [[]|] eqn:Ev; [|done].
    apply validated_profile in Ev as (c&t&_&_&->).
    apply wp_bind, wp_lift. destruct fixture as [directory|]; [|done].
    apply wp_bind, wp_ret. apply wp_bind, wp_lift. destruct (option_path _ _ _); [by apply wp_ret|done].
  - intros [network|e] ? ->; [|apply HQ]. apply wp_bind, wp_lift.
    destruct (option_path _ _ _); [apply wp_ret|]; apply HQ.
Qed.

Lemma wp_identity fuel adapter config s (Q : result VmIdentity -> S -> Prop) :
  (turns (S := S) START_TIMEOUT <= fuel)%nat ->
  (forall r s', fewer (world s) (world s') ->
     (forall identity, r = Ok identity -> identity.(vm_network) = net_identity <$> config.(rc_network)) -> Q r s') ->
  wp (QemuAdapter_identity fuel adapter config) s Q.
Proof.
  intros Hf HQ. unfold QemuAdapter_identity.
  apply wp_bind, wp_lift. destruct (validate_utf8_paths config); [|by apply HQ; [apply fewer_refl|]].
  apply wp_bind, wp_lift. destruct (validate_network _); [|by apply HQ; [apply fewer_refl|]].
  apply wp_bind. eapply wp_mono; [by apply wp_bounded_output|]. intros [output|e] s1 [Hfew _]; [|by apply HQ].
  assert (Hrest : forall (m : M S VmIdentity), quietly m ->
    (forall s0 identity s0', m s0 = Some (Ok identity, s0') ->
       identity.(vm_network) = net_identity <$> config.(rc_network)) -> wp m s1 Q).
  { intros m Hm Hid. destruct (Hm s1) as (r&s2&E&Hq). exists r, s2. split; [done|]. apply HQ.
    - eapply fewer_trans; [exact Hfew|by apply fewer_quiet].
    - intros identity ->. by eapply Hid. }
  apply Hrest.
  - repeat first [apply quietly_file_identity | apply quietly_sha256_file | apply quietly_lift
      | apply quietly_fail_if | apply quietly_ret | apply quietly_bind; [|intros ?]].
  - intros s0 identity s0' E. do 7 (apply M_bind_Ok in E as (?&?&_&E)). by injection E as <- _.
Qed.

Lemma negotiated_quiet stream w w' : quiet w w' -> negotiated stream w -> negotiated stream w'.
Proof.
  intros (_&Hr&Hw) [Hs (g&v1&v2&r1&r2&r&l1&l2&l3&Hl&Hrest)]. split; [by rewrite Hw|].
  exists g, v1, v2, r1, r2, r, l1, l2, l3. split; [by rewrite Hr|done].
Qed.

(** A machine ready for use: its identity is the configuration's and, for a
    replay, the recording's; it answered the negotiation; and the first event of
    its guest was its readiness, which its channel has delivered. *)
Definition ready_machine (config : RecordConfig) (expected : option VmIdentity) (vm : QemuMachine) (w : World) : Prop :=
  vm.(qm_child_reaped) = false /\ validate_network config.(rc_network) = Ok tt /\
  vm.(qm_identity).(vm_network) = net_identity <$> config.(rc_network) /\
  (forall identity, expected = Some identity -> vm.(qm_identity) = identity) /\
  (exists stream, negotiated stream w) /\
  exists s0 f, q_events (qh_channel vm.(qm_child) s0) = Some (Ok (Some f)) :: q_events vm.(qm_channel) /\
    f.(protocol_version) = PROTOCOL_VERSION /\ f.(event_id) = 0 /\ f.(Types.command_id) = 0 /\
    f.(event) = AgentReady.

(** What a launch leaves: its machine, or nothing. *)
Definition launch_leaves (config : RecordConfig) (expected : option VmIdentity) (w : World)
    (r : result QemuMachine) (s' : S) : Prop :=
  match r with
  | Ok vm => w_live (world s') ⊆ {[vm.(qm_child).(ch_pid)]} ∪ w_live w /\
      ready_machine config expected vm (world s')
  | Err _ => w_live (world s') ⊆ w_live w
  end.

Lemma await_ready_Ok channel channel' : await_ready channel = (Ok tt, channel') ->
  exists f, q_events channel = Some (Ok (Some f)) :: q_events channel' /\
    f.(protocol_version) = PROTOCOL_VERSION /\ f.(event_id) = 0 /\ f.(Types.command_id) = 0 /\
    f.(event) = AgentReady.
Proof.
  unfold await_ready, q_receive. destruct (q_events channel) as [|[[[f|]|]|] rest]; try done.
  destruct (negb _ || _ || _ || _) eqn:E; [done|]. intros [= <-]. exists f.
  bool_facts. by split_and!.
Qed.

(** A spawned child that is given up leaves what was there before it. *)
Lemma given_up pid w0 w1 w2 : w_live w1 ⊆ {[pid]} ∪ w_live w0 -> fewer w1 w2 -> pid ∉ w_live w2 ->
  w_live w2 ⊆ w_live w0.
Proof. intros Hs [Hf _] Hg. set_solver. Qed.

Lemma quietly_nothing : forall s0, wp (mret tt : M S unit) s0 (fun r s1 => r = Ok tt /\ quiet (world s0) (world s1)).
Proof. intros s0. by apply wp_ret. Qed.
Lemma quietly_join_writer child s0 : wp (_ ← call (qh_join_writer child); mret tt) s0
  (fun r s1 => r = Ok tt /\ quiet (world s0) (world s1)).
Proof. apply wp_bind, wp_quiet; [apply quiet_join_writer|]. intros b s1 _ Hq. by apply wp_ret. Qed.
Lemma wp_spawn_thread (f : S -> option io_error * S) s (Q : result unit -> S -> Prop) :
  (forall s, quiet (world s) (world (f s).2)) -> (forall r s', quiet (world s) (world s') -> Q r s') ->
  wp (r ← call f; or_io r) s Q.
Proof.
  intros Hf HQ. apply wp_bind, wp_quiet; [apply Hf|]. intros o s1 _ Hq. apply wp_or_io; intros; by apply HQ.
Qed.

(** From the spawned child to its readiness. *)
Lemma wp_started fuel child socket identity fixture config expected w0 s :
  (negotiation_fuel s < fuel)%nat -> validate_network config.(rc_network) = Ok tt ->
  identity.(vm_network) = net_identity <$> config.(rc_network) ->
  (forall i, expected = Some i -> identity = i) ->
  w_live (world s) ⊆ {[child.(ch_pid)]} ∪ w_live w0 ->
  wp (_ ← or_stop child.(ch_pid) (mret tt) socket (qmp_negotiate fuel child.(ch_pid) socket);
      _ ← or_stop child.(ch_pid) (mret tt) socket (r ← call (qh_spawn_writer child); or_io r);
      _ ← or_stop child.(ch_pid) (_ ← call (qh_join_writer child); mret tt) socket
        (r ← call (qh_spawn_reader child); or_io r);
      channel ← gets (qh_channel child);
      let vm := {| qm_child := child; qm_channel := channel; qm_writer := true; qm_event_reader := true;
                   qm_identity := identity; qm_qmp_socket := socket; qm_fixture := fixture;
                   qm_child_reaped := false |} in
      let '(ready, channel) := await_ready channel in
      let vm := with_channel channel vm in
      match ready with
      | Ok _ => mret vm
      | Err e => _ ← drop_qemu vm; throw e
      end) s (launch_leaves config expected w0).
Proof.
  intros Hfuel Hnet Hid Hexp Hlive.
  apply wp_bind, wp_or_stop; [apply quietly_nothing|].
  eapply wp_mono; [by apply wp_negotiate|]. intros [[]|e] s1 [Hm1 Hneg]; cycle 1.
  { intros s' Hf Hg. eapply given_up; [exact Hlive| |exact Hg].
    eapply fewer_trans; [by apply fewer_advanced|exact Hf]. }
  destruct (Hneg eq_refl) as [stream Hstream]. apply fewer_advanced in Hm1.
  assert (Hgive : forall s2 s', quiet (world s1) (world s2) -> fewer (world s2) (world s') ->
    child.(ch_pid) ∉ w_live (world s') -> w_live (world s') ⊆ w_live w0).
  { intros s2 s' Hq Hf Hg. eapply given_up; [exact Hlive| |exact Hg].
    eapply fewer_trans; [exact Hm1|]. eapply fewer_trans; [by apply fewer_quiet|exact Hf]. }
  apply wp_bind, wp_or_stop; [apply quietly_nothing|].
  apply wp_spawn_thread; [intros; apply quiet_spawn_writer|]. intros [[]|e] s2 Hq2; [|intros s'; by apply Hgive].
  apply wp_bind, wp_or_stop; [apply quietly_join_writer|].
  apply wp_spawn_thread; [intros; apply quiet_spawn_reader|]. intros r s3 Hq3.
  pose proof (quiet_trans _ _ _ Hq2 Hq3) as Hq. destruct r as [[]|e]; [|intros s'; by apply Hgive].
  apply wp_bind. unfold gets. eexists _, s3. split; [done|]. cbv beta iota zeta.
  destruct (await_ready (qh_channel child s3)) as [[[]|e] channel'] eqn:Ea.
  - apply wp_ret. apply await_ready_Ok in Ea as (f&Hch&Hf). split.
    + cbn. destruct Hm1 as [Hs1 _]. destruct Hq as [[(_&Hs3&_) _] _]. set_solver.
    + split_and!; [done..| |by exists s3, f]. exists stream. by eapply negotiated_quiet.
  - apply wp_bind, wp_drop_qemu. intros s' Hf Hg. apply wp_throw. by apply (Hgive s3), Hg.
Qed.

Lemma negotiation_fuel_timeout s fuel : (negotiation_fuel s < fuel)%nat -> (turns (S := S) START_TIMEOUT <= fuel)%nat.
Proof. unfold negotiation_fuel. generalize (turns (S := S) START_TIMEOUT). intros. lia. Qed.
Lemma negotiation_fuel_le s s' fuel : (w_interrupts (world s') <= w_interrupts (world s))%nat ->
  (negotiation_fuel s < fuel)%nat -> (negotiation_fuel s' < fuel)%nat.
Proof. intros Hi. unfold negotiation_fuel. generalize (turns (S := S) START_TIMEOUT). intros. lia. Qed.

Lemma wp_start fuel adapter config mode expected fixture s :
  (negotiation_fuel s < fuel)%nat -> validate_network config.(rc_network) = Ok tt ->
  wp (start_machine fuel adapter config mode expected fixture) s (launch_leaves config expected (world s)).
Proof.
  intros Hfuel Hnet.
  apply wp_bind, wp_identity; [by eapply negotiation_fuel_timeout|]. intros [identity|e] s1 Hf1 Hid; [|by destruct Hf1].
  specialize (Hid _ eq_refl). apply wp_bind.
  assert (Hcompat : wp (match expected with
      | Some expected => compatible ← unwrap (validate_identity_compatibility expected identity); lift compatible
      | None => mret tt
      end) s1 (fun r s' => s' = s1 /\ (r = Ok tt -> forall i, expected = Some i -> identity = i))).
  { destruct expected as [i|]; [|apply wp_ret; by split].
    destruct (identity_compatibility_Some i identity) as (r&Er&Hr). rewrite Er.
    apply wp_bind, wp_ret, wp_lift. split; [done|]. intros -> i' [= <-]. symmetry. by apply Hr. }
  eapply wp_mono; [exact Hcompat|]. intros r s' [-> Hexp]. destruct r as [[]|e]; [|by destruct Hf1].
  specialize (Hexp eq_refl). apply wp_bind, wp_arguments. intros [args|e]; [|by destruct Hf1].
  assert (Hlater : forall s2, quiet (world s1) (world s2) -> fewer (world s) (world s2)).
  { intros s2 Hq. eapply fewer_trans; [exact Hf1|by apply fewer_quiet]. }
  apply wp_bind, wp_quietly.
  { destruct mode; [apply quietly_ret|]. apply quietly_bind; [apply quietly_call; intros; apply quiet_is_file|].
    intros []; [apply quietly_ret|apply quietly_throw]. }
  intros r s2 Hq2. destruct r as [paths|e]; [|by apply Hlater].
  apply wp_bind, wp_quietly; [apply quietly_remove_stales|]. intros r s3 Hq3.
  pose proof (quiet_trans _ _ _ Hq2 Hq3) as Hq13. destruct r as [[]|e]; [|by apply Hlater].
  apply wp_bind, wp_quiet; [apply quiet_put|]. intros o s4 _ Hq4.
  pose proof (quiet_trans _ _ _ Hq13 Hq4) as Hq14.
  apply wp_bind, wp_or_io; [intros _|intros e _; by apply Hlater].
  apply wp_bind, wp_call. intros r s5 E. apply spawn_law in E. destruct (Hlater _ Hq14) as [Hl4 Hi4].
  destruct r as [child|e].
  - destruct E as (_&Hl5&Hi5&_&_). apply wp_bind, wp_ret, wp_started; [|done..|].
    + apply (negotiation_fuel_le s); [lia|exact Hfuel].
    + etrans; [exact Hl5|]. by apply union_mono_l.
  - apply wp_bind, wp_throw. apply fewer_quiet in E as [Hl5 _]. unfold launch_leaves.
    etrans; [exact Hl5|exact Hl4].
Qed.

(** C14. A launch leaves its machine behind, or nothing.  With fuel for the timeouts
    it returns, and never panics; when it fails, at whatever step, no process runs
    that did not before; when it succeeds, the only process it may have added is
    the machine it returns, the network is the validated profile, the identity is
    the configured one and, for a replay, equal to the recording's in every field,
    the QMP commands were answered without an error, and the guest's first event
    was its readiness. *)
Theorem launch_leaves_nothing fuel adapter config mode expected s :
  (negotiation_fuel s < fuel)%nat ->
  exists r s', launch fuel adapter config mode expected s = Some (r, s') /\
    launch_leaves config expected (world s) r s'.
Proof.
  intros Hfuel. assert (Hstay : forall e, launch_leaves config expected (world s) (Err e) s) by (intros e; unfold launch_leaves; reflexivity).
  apply wp_bind, wp_lift. destruct (validate_utf8_paths config) as [[]|e]; [|apply Hstay].
  apply wp_bind. eapply (wp_mono _ _ (fun _ s' => s' = s)).
  { destruct expected as [i|]; [|by apply wp_ret].
    pose proof (replay_network_identity_sound i (net_identity <$> config.(rc_network))) as Hv.
    destruct (validate_replay_network_identity _ _) as [r|]; [|done]. by apply wp_bind, wp_ret, wp_lift. }
  intros [[]|e] ? ->; [|apply Hstay].
  apply wp_bind, wp_lift. destruct (validate_network _) as [[]|] eqn:Hnet; [|apply Hstay].
  apply wp_bind, wp_fail_if; intros _; [apply Hstay|].
  apply wp_bind, wp_quietly.
  { destruct config.(rc_network); [|apply quietly_ret].
    apply quietly_bind; [apply quietly_create_in|intros; apply quietly_ret]. }
  intros [fixture|e] s1 Hq1; [|by apply fewer_quiet in Hq1 as [Hl _]].
  assert (Hstart : wp (start_machine fuel adapter config mode expected fixture) s1 (launch_leaves config expected (world s1))).
  { apply wp_start; [|done]. apply (negotiation_fuel_le s); [apply (fewer_quiet _ _ Hq1)|exact Hfuel]. }
  apply fewer_quiet in Hq1 as [Hl1 _].
  apply wp_bind, wp_catch. eapply wp_mono; [exact Hstart|]. intros [vm|e] s2 Hleft.
  - apply wp_ret. destruct Hleft as [Hl2 Hr]. split; [|exact Hr].
    etrans; [exact Hl2|]. by apply union_mono_l.
  - apply wp_bind, wp_quietly; [apply quietly_drop_fixture|]. intros r s3 Hq3.
    apply fewer_quiet in Hq3 as [Hl3 _].
    assert (Hl : w_live (world s3) ⊆ w_live (world s)).
    { etrans; [exact Hl3|]. etrans; [exact Hleft|exact Hl1]. }
    destruct r; [by apply wp_throw|exact Hl].
Qed.

(** ** Waiting for a machine *)

Lemma wp_on_host {A} (m : M S A) st (Q : result A -> S * QemuMachine -> Prop) :
  wp m st.1 (fun r s' => Q r (s', st.2)) -> wp (on_host m) st Q.
Proof. intros (r&s'&E&HQ). unfold wp, on_host, zoom. rewrite E. by exists r, (s', st.2). Qed.
Lemma wp_gets {X A} (f : X -> A) (x : X) (Q : result A -> X -> Prop) : Q (Ok (f x)) x -> wp (gets f) x Q.
Proof. intros HQ. by exists (Ok (f x)), x. Qed.
Lemma wp_modify {X} (f : X -> X) (x : X) (Q : result unit -> X -> Prop) : Q (Ok tt) (f x) -> wp (modify f) x Q.
Proof. intros HQ. by exists (Ok tt), (f x). Qed.

(** The machine of a state, with the same child. *)
Definition of_child (child : Child) (reaped : bool) (st : S * QemuMachine) : Prop :=
  st.2.(qm_child) = child /\ st.2.(qm_child_reaped) = reaped.
(** The threads were joined, and the input is closed. *)
Definition joined (vm : QemuMachine) : Prop :=
  vm.(qm_writer) = false /\ vm.(qm_event_reader) = false /\ q_writer vm.(qm_channel) = None.

Lemma wp_join_threads child st reaped (Q : result unit -> S * QemuMachine -> Prop) : of_child child reaped st ->
  (forall r st', quiet (world st.1) (world st'.1) -> of_child child reaped st' -> (r = Ok tt -> joined st'.2) -> Q r st') ->
  wp (join_threads child) st Q.
Proof.
  intros Hc HQ. unfold join_threads, take_writer, take_reader.
  assert (Hjoin : forall (b : bool) (f : S -> bool * S) e st0 (Q0 : result unit -> S * QemuMachine -> Prop),
    (forall s, quiet (world s) (world (f s).2)) ->
    (forall r s', quiet (world st0.1) (world s') -> Q0 r (s', st0.2)) ->
    wp (if b then panicked ← on_host (call f); fail_if panicked e else mret tt) st0 Q0).
  { intros b f e [s0 vm0] Q0 Hf HQ0. destruct b; [|apply wp_ret; by apply HQ0].
    apply wp_bind, wp_on_host, wp_quiet; [apply Hf|]. intros a s1 _ Hq.
    apply wp_fail_if; intros _; by apply HQ0. }
  apply wp_bind, wp_bind, wp_gets, wp_bind, wp_modify, wp_ret.
  apply wp_bind, Hjoin; [intros; apply quiet_join_writer|]. intros r s1 Hq1. cbn in Hq1.
  destruct r as [[]|e]; [|apply HQ; [done|destruct Hc; by split|done]].
  apply wp_bind, wp_bind, wp_gets, wp_bind, wp_modify, wp_ret.
  apply Hjoin; [intros; apply quiet_join_reader|]. intros r s2 Hq2. cbn in Hq2.
  apply HQ; [by eapply quiet_trans|destruct Hc; by split|by intros].
Qed.

(** What a wait leaves. *)
Definition waited (child : Child) (w : World) (r : result QemuStatus) (st : S * QemuMachine) : Prop :=
  exists reaped, of_child child reaped st /\ fewer w (world st.1) /\
    (reaped = true -> child.(ch_pid) ∉ w_live (world st.1)) /\
    (is_ok r = true -> reaped = true /\ joined st.2).

Lemma wp_wait_loop turns : forall deadline st child, of_child child false st ->
  (time_left deadline (world st.1) < turns)%nat ->
  wp (wait_loop turns deadline) st (waited child (world st.1)).
Proof.
  induction turns as [|turns IH]; intros deadline st child Hc Hf; [lia|].
  cbn [wait_loop]. apply wp_bind, wp_gets, wp_bind, wp_on_host. pose proof Hc as [Hchild _]. rewrite Hchild.
  assert (Herr : forall (e : io_error) s', fewer (world st.1) (world s') ->
    waited child (world st.1) (Err e) (s', st.2)).
  { intros e s' Hfew. by exists false. }
  apply wp_child_exited. intros r s1 Hq1 _. pose proof (fewer_quiet _ _ Hq1) as Hf1.
  destruct r as [[]|e]; [| |by apply Herr].
  - apply wp_bind, wp_on_host, wp_finish. cbn [fst snd]. intros r s2 He _.
    apply ended_fewer in He as [Hf2 Hg]. pose proof (fewer_trans _ _ _ Hf1 Hf2) as Hf12.
    destruct r as [status|e]; [|by apply Herr].
    apply wp_bind, wp_modify. cbn [fst snd]. apply wp_bind, (wp_join_threads child _ true); [by split|].
    cbn [fst]. intros r st3 Hq3 Hc3 Hj. pose proof (fewer_trans _ _ _ Hf12 (fewer_quiet _ _ Hq3)) as Hf3.
    assert (Hg3 : child.(ch_pid) ∉ w_live (world st3.1)) by (eapply gone_fewer; [exact Hg|by apply fewer_quiet]).
    destruct r as [[]|e]; [|by exists true]. specialize (Hj eq_refl).
    apply wp_bind, wp_gets, wp_bind, wp_on_host, wp_bind, wp_quiet; [apply quiet_unlink|].
    intros _ s4 _ Hq4. apply wp_ret, wp_ret. exists true. destruct Hc3 as [? ?].
    split_and!; [done|eapply fewer_trans; [exact Hf3|by apply fewer_quiet]| |by split].
    intros _. eapply gone_fewer; [exact Hg3|by apply fewer_quiet].
  - apply wp_bind, wp_on_host, wp_now. cbn [fst snd]. intros t s2 Hq2 Ht.
    pose proof (quiet_trans _ _ _ Hq1 Hq2) as Hq12.
    pose proof (time_left_moved deadline _ _ (moved_of_quiet _ _ Hq1)) as Htl.
    destruct (Z.leb_spec deadline t) as [Hd|Hd].
    + apply wp_bind, wp_on_host, wp_terminate. cbn [fst snd]. intros s3 [Hf3 Hg]%ended_fewer.
      apply wp_bind, wp_modify, wp_throw. exists true. cbn [fst snd].
      split_and!; [by split|eapply fewer_trans; [by apply fewer_quiet|exact Hf3]|done|done].
    + pose proof (time_left_now _ _ _ _ Ht Hd) as Hlt.
      apply wp_bind, wp_on_host, wp_sleep. cbn [fst snd]. intros s3 Hq3.
      pose proof (time_left_moved deadline _ _ (moved_of_quiet _ _ Hq3)) as Htl3.
      eapply wp_mono; [apply (IH deadline (s3, st.2) child); [by destruct Hc; split|cbn; lia]|].
      cbn [fst]. intros r st4 (reaped&Hc4&Hf4&Hg4&Hok). exists reaped. split_and!; [done| |done..].
      eapply fewer_trans; [|exact Hf4]. apply fewer_quiet. by eapply quiet_trans.
Qed.

(** C34. Every machine ends.  Waiting for one returns within its timeout; after a
    status its process is gone, its threads are joined and its input is closed;
    and whether the wait succeeded, failed or timed out, the drop that follows
    succeeds and leaves no process of the machine, and nothing else that was not
    running. *)
Theorem machine_ends fuel s vm :
  (turns (S := S) EXIT_TIMEOUT <= fuel)%nat -> vm.(qm_child_reaped) = false ->
  exists r s1 vm1 s2, wait fuel (s, vm) = Some (r, (s1, vm1)) /\
    (is_ok r = true -> vm.(qm_child).(ch_pid) ∉ w_live (world s1) /\ joined vm1) /\
    drop_vm vm1 s1 = Some (Ok tt, s2) /\
    vm.(qm_child).(ch_pid) ∉ w_live (world s2) /\ w_live (world s2) ⊆ w_live (world s).
Proof.
  unfold wait. generalize EXIT_TIMEOUT. intros timeout Hf Hr.
  assert (Hwait : wp (started ← on_host now; wait_loop fuel (started + timeout)) (s, vm)
    (waited vm.(qm_child) (world s))).
  { apply wp_bind, wp_on_host, wp_now. cbn [fst snd]. intros t s1 Hq Ht.
    eapply wp_mono; [apply (wp_wait_loop fuel _ (s1, vm) vm.(qm_child)); [by split|]|].
    { pose proof (time_left_timeout timeout t _ _ Ht). cbn. lia. }
    cbn [fst]. intros r st (reaped&Hc&Hfew&Hg&Hok). exists reaped. split_and!; [done| |done..].
    eapply fewer_trans; [by apply fewer_quiet|exact Hfew]. }
  destruct Hwait as (r&[s1 vm1]&E&reaped&[Hc Hre]&Hfew&Hg&Hok). cbn in *.
  destruct (wp_drop_vm vm1 s1 (fun r s2 => r = Ok tt /\ fewer (world s1) (world s2) /\
    vm.(qm_child).(ch_pid) ∉ w_live (world s2))) as (r2&s2&E2&->&Hf2&Hg2).
  { intros s2 Hf2 Hd. split_and!; [done|done|]. rewrite -Hc. destruct reaped; [|by apply Hd].
    eapply gone_fewer; [|exact Hf2]. rewrite Hc. by apply Hg. }
  exists r, s1, vm1, s2. split_and!; [done| |done|done|].
  - intros Hro. destruct (Hok Hro) as [-> Hj]. split; [by apply Hg|done].
  - etrans; [apply Hf2|apply Hfew].
Qed.
End quietly.

(** ** A sample machine *)

(** The bench of [ProcessSafe] with files that are all there. *)
Definition granted {A} (a : A) (s : Bench) : (A + Errno) * Bench := (inl a, s).
Definition done_ok (s : Bench) : option io_error * Bench := (None, s).
#[local] Instance bench_fs : HostFs Bench := {|
  errno_text _ := "error";
  errno_error _ := IoError Other "error";
  fs_pid := 7; fs_euid := 1000; fs_umask := 18;
  fs_counter s := (0, s);
  fs_clone := done_ok;
  fs_root := [];
  fs_create_root _ := done_ok;
  fs_open_root := granted [];
  fs_open_dir h c := granted (h ++ [c]);
  fs_open_file h c := granted (h ++ [c]);
  fs_fstat _ := granted {| st_type := RegularNode; st_uid := 1000; st_mode := 384; st_size := 0 |};
  fs_statat _ _ := granted tt;
  fs_read _ s := ([], s);
  fs_mkdirat _ _ _ := granted tt;
  fs_create_excl h c _ := granted (h ++ [c]);
  fs_write_sync _ _ := done_ok;
  fs_renameat _ _ _ _ _ := granted tt;
  fs_unlinkat _ _ _ := granted tt;
|}.
#[local] Instance bench_run : RunFs Bench := {|
  rf_read _ := bench_ok [];
  rf_put _ _ _ := done_ok;
  rf_open path := bench_ok path;
  rf_create_dir_all _ := done_ok;
  rf_create_dir _ _ := done_ok;
  rf_lstat _ s := (inr (IoError NotFound "missing"), s);
  rf_chmod _ _ := done_ok;
  rf_exists _ s := (false, s);
  rf_canonicalize path := bench_ok path;
  rf_image_counter s := (0, s);
  rf_runtime_counter s := (0, s);
  rf_remove_dir_all _ := done_ok;
  rf_append _ _ := done_ok;
  rf_sync := fun _ => done_ok;
  rf_size _ := bench_ok 0;
  rf_read_from _ _ := bench_ok [];
  rf_fixture_directory _ s := (inr (IoError NotFound "missing"), s);
|}.
Definition bench_ready_frame : EventFrame := {|
  protocol_version := PROTOCOL_VERSION; event_id := 0; Types.command_id := 0; event := AgentReady;
  diagnostics := DiagnosticFields_default |}.
#[local] Instance bench_qemu : QemuHost Bench := {|
  qh_clock := bench_ok 5;
  qh_network_counter s := (0, s);
  qh_is_file _ s := (true, s);
  qh_variable _ s := (None, s);
  qh_canonicalize path := bench_ok (absolute_components path);
  qh_spawn_writer _ := done_ok;
  qh_spawn_reader _ := done_ok;
  qh_channel _ _ := MkQemu [Some (Ok (Some bench_ready_frame)); Some (Ok None)] (Some []) [];
  qh_join_writer _ s := (false, s);
  qh_join_reader _ s := (false, s);
|}.
#[local] Instance bench_quiet : QuietHost Bench.
Proof. constructor; intros; apply quiet_refl. Qed.
#[local] Instance bench_sha : Sha256 := {| sha256_digest _ := [] |}.

(** Messages of one character: the greeting, and the answers to the commands. *)
#[local] Instance bench_values : SerdeValue := {|
  value_from_slice line :=
    match line with
    | [b; _] => if bool_decide (b = "g"%byte) then inl (VObject [("QMP", VNull)])
                else if bool_decide (b = "e"%byte) then inl (VObject [("event", VNull)])
                else inl (VObject [("return", VNull); ("id", VNumber (Some (byte_Z b - 48)))])
    | _ => inr "malformed"
    end;
  value_to_vec v :=
    match value_get v "id" ≫= as_u64 with Some id => inl (as_bytes (fmt_dec id)) | None => inl [] end;
  value_display _ := "";
|}.

Definition bench_root : Handle := ["tmp"; "sf"].
Definition bench_config : RecordConfig := {|
  rc_kernel := ["kernel"]; rc_initramfs := ["initramfs"]; rc_replay_log := bench_root ++ ["replay.bin"];
  rc_qmp_socket := bench_root ++ ["qmp.sock"]; rc_serial_log := bench_root ++ ["serial.log"];
  rc_qemu_log := bench_root ++ ["qemu.log"];
  rc_network := Some (restricted_tftp None (str_of (repeat "a"%byte 64)) (str_of (repeat "a"%byte 64))) |}.
Definition bench_adapter : QemuAdapter := {|
  qa_executable := ["bin"; "qemu"]; qa_data_directory := ["share"; "qemu"];
  qa_bios := ["bios"]; qa_linuxboot := ["linuxboot"] |}.
Definition bench_start : Bench := bench [[as_bytes "QEMU emulator version 9.2"]]
  (map as_bytes ["g" +:+ str_of [NEWLINE]; "e"; str_of [NEWLINE] +:+ "1" +:+ str_of [NEWLINE];
                 "2" +:+ str_of [NEWLINE]]).
Definition bench_identity : VmIdentity :=
  match QemuAdapter_identity 20 bench_adapter bench_config bench_start with
  | Some (Ok identity, _) => identity
  | _ => {| qemu := {| file_path := ""; file_sha256 := "" |}; qemu_version := "";
            kernel := {| file_path := ""; file_sha256 := "" |}; initramfs_sha256 := ""; machine := "";
            cpu := ""; memory_mib := 0; vcpus := 0; accelerator := ""; firmware := []; devices := [];
            vm_network := None |}
  end.
(** The launch of a replay, with the fuel this host needs: the machine is ready,
    and it is the only process that is left. *)
Definition bench_launch : option (result QemuMachine * Bench) :=
  launch 20 bench_adapter bench_config Replay_ (Some bench_identity) bench_start.
Example bench_launch_ready :
  match bench_launch with
  | Some (Ok vm, s) => (vm.(qm_child).(ch_pid), bool_decide (b_live s = {[vm.(qm_child).(ch_pid)]}))
  | _ => (0, false)
  end = (103, true).
Proof. by vm_compute. Qed.

Lemma launch_leaves_nothing_witness : exists r s',
  launch (S (negotiation_fuel bench_start)) bench_adapter bench_config Replay_ (Some bench_identity) bench_start
    = Some (r, s') /\ launch_leaves bench_config (Some bench_identity) (world bench_start) r s'.
Proof.
  apply (launch_leaves_nothing (S (negotiation_fuel bench_start)) bench_adapter bench_config Replay_
    (Some bench_identity) bench_start). apply Nat.lt_succ_diag_r.
Defined.

Definition bench_machine : QemuMachine := {|
  qm_child := {| ch_pid := 103; ch_stdin := 103; ch_stdout := 104; ch_stderr := 105 |};
  qm_channel := MkQemu [] (Some []) []; qm_writer := true; qm_event_reader := true;
  qm_identity := bench_identity; qm_qmp_socket := bench_root ++ ["qmp.sock"];
  qm_fixture := Some (bench_root ++ ["fixture"]); qm_child_reaped := false |}.

Lemma machine_ends_witness : exists r s1 vm1 s2,
  wait (turns (S := Bench) EXIT_TIMEOUT) (bench_start, bench_machine) = Some (r, (s1, vm1)) /\
  drop_vm vm1 s1 = Some (Ok tt, s2) /\ 103 ∉ w_live (world s2).
Proof.
  destruct (machine_ends (turns (S := Bench) EXIT_TIMEOUT) bench_start bench_machine)
    as (r&s1&vm1&s2&E&_&Ed&Hg&_); [apply Nat.le_refl|reflexivity|].
  exists r, s1, vm1, s2. exact (conj E (conj Ed Hg)).
Defined.
