(* ===== verification/FailureSafe.v ===== *)
(** What a failure bundle holds, and what the error of a failed attempt says: the
    report is the error sanitized with the diagnostics as they are, a retained log
    is the sanitized end of that log, whatever of the host's calls fail, and the
    error keeps its kind and its message. *)

From stdpp Require Import ssreflect.
From Stdlib Require Import Strings.Byte.
From S2P Require Import Prelude Types Std Protocol Tree Fixture Effects Vm Driver Identity Root RunFiles Image RunBase Text Sanitize Failure.

(** ** Computations that return and keep an invariant *)

Section safely.
Context {S : Type} (I : S -> Prop).

Definition safely {A} (m : M S A) (Q : A -> Prop) : Prop := forall s, I s ->
  exists r s', m s = Some (r, s') /\ I s' /\ forall a, r = Ok a -> Q a.

Lemma safely_ret {A} (a : A) (Q : A -> Prop) : Q a -> safely (mret a) Q.
Proof. intros Ha s Hs. exists (Ok a), s. split_and!; [done..|]. by intros ? [= <-]. Qed.
Lemma safely_throw {A} e (Q : A -> Prop) : safely (throw e) Q.
Proof. intros s Hs. by exists (Err e), s. Qed.
Lemma safely_lift {A} (r : result A) (Q : A -> Prop) : (forall a, r = Ok a -> Q a) -> safely (lift r) Q.
Proof. intros Hr s Hs. by exists r, s. Qed.
Lemma safely_bind {A B} (m : M S A) (k : A -> M S B) P Q :
  safely m P -> (forall a, P a -> safely (k a) Q) -> safely (m ≫= k) Q.
Proof.
  intros Hm Hk s Hs. destruct (Hm s Hs) as ([a|e]&s'&E&Hs'&Ha); unfold mbind, M_bind; rewrite E.
  - by apply (Hk a (Ha a eq_refl)).
  - by exists (Err e), s'.
Qed.
Lemma safely_call {A} (f : S -> A * S) : (forall s, I s -> I (f s).2) -> safely (call f) (fun _ => True).
Proof.
  intros Hf s Hs. specialize (Hf s Hs). unfold call. destruct (f s) as [a s'].
  by exists (Ok a), s'.
Qed.
Lemma safely_call_gives {A} (f : S -> A * S) (Q : A -> Prop) :
  (forall s, I s -> I (f s).2 /\ Q (f s).1) -> safely (call f) Q.
Proof.
  intros Hf s Hs. destruct (Hf s Hs) as [Hi Hq]. unfold call. destruct (f s) as [a s'].
  exists (Ok a), s'. split_and!; [done..|]. by intros ? [= <-].
Qed.
Lemma safely_catch {A} (m : M S A) Q :
  safely m Q -> safely (catch m) (fun r => forall a, r = Ok a -> Q a).
Proof.
  intros Hm s Hs. destruct (Hm s Hs) as (r&s'&E&Hs'&Ha). exists (Ok r), s'. unfold catch. rewrite E.
  split_and!; [done..|]. by intros ? [= <-].
Qed.
Lemma safely_weaken {A} (m : M S A) (P Q : A -> Prop) :
  safely m P -> (forall a, P a -> Q a) -> safely m Q.
Proof. intros Hm Hq s Hs. destruct (Hm s Hs) as (r&s'&E&Hs'&Ha). exists r, s'. naive_solver. Qed.
Lemma safely_or_other {A} (r : A + io_error) : safely (or_other r) (fun _ => True).
Proof. destruct r; [by apply safely_ret|apply safely_throw]. Qed.
Lemma safely_or_io o : safely (or_io o) (fun _ => True).
Proof. destruct o; [apply safely_throw|by apply safely_ret]. Qed.
Lemma safely_if {A} (b : bool) (m m' : M S A) Q : safely m Q -> safely m' Q -> safely (if b then m else m') Q.
Proof. by destruct b. Qed.
End safely.

Lemma str_app_nil s : s +:+ "" = s.
Proof. apply as_bytes_inj. by rewrite as_bytes_app app_nil_r. Qed.
Lemma str_app_assoc s1 s2 s3 : (s1 +:+ s2) +:+ s3 = s1 +:+ (s2 +:+ s3).
Proof. apply as_bytes_inj. by rewrite !as_bytes_app app_assoc. Qed.

(** ** The bundle *)

(** Text that can leave the host. *)
Definition shareable `{EscapeUnicode} (paths : list bytes) (text : bytes) : Prop :=
  utf8_valid text /\ zlen text <= MAX_FAILURE_TEXT_BYTES /\
  forall path r, path ∈ paths -> r ∈ representations path -> self_delimiting r = true -> ~ exposed r text.

Section bundle.
Context {S : Type} `{RunFs S} `{SerdePretty FailureReport} `{EscapeUnicodeLaws}.
Implicit Types (I : S -> Prop).

(** The last [limit] bytes. *)
Definition tail_of (limit : Z) (data : bytes) : bytes := drop (Z.to_nat (zlen data - limit)) data.

(** What is kept of a log before it is sanitized: the window at its end, all of it
    when the log is not longer, and at least [MAX_FAILURE_LOG_BYTES] of a longer log.
    A window that begins within a private path, plain or with QEMU's escaping, gives
    up what it holds of that path. *)
Definition log_kept (paths : list bytes) (log kept : bytes) : Prop :=
  let window := tail_of (log_window paths) log in
  (exists cut, window = cut ++ kept) /\
  (zlen log <= log_window paths -> kept = log) /\
  (log_window paths < zlen log -> MAX_FAILURE_LOG_BYTES <= zlen kept /\
   forall path r u v b, path ∈ paths -> r = path \/ r = qemu_escape_path path ->
     r = u ++ v -> window = v ++ b -> exists a, b = a ++ kept).

Context (held : Handle -> bytes) (opens : Handle -> Handle -> Prop).

(** The files of the bundle of an error: the report, and the ends of the logs. *)
Definition bundle_file (error : io_error) (diagnostics : FailureDiagnostics) (source : option Handle)
    (paths : list bytes) (name : string) (data : bytes) : Prop :=
  (name = "failure.json" /\ exists text,
     json_bytes {| fr_version := 1; fr_error_kind := error_kind_name error.(error_kind);
                   fr_error := text; fr_diagnostics := diagnostics |} = Ok data /\
     as_bytes text = sanitize_diagnostic_log (as_bytes error.(error_message)) paths /\
     shareable paths (as_bytes text)) \/
  exists log directory kept, log ∈ ["qemu.log"; "serial.log"] /\ name = "logs/" +:+ log /\
    source = Some directory /\ log_kept paths (held (join (join directory "logs") log)) kept /\
    data = sanitize_diagnostic_log kept paths /\ shareable paths data.

Definition bundle_temporary (runs_directory : Handle) (bundle_id : string) : Handle :=
  join runs_directory "failures" ++ ["." +:+ bundle_id +:+ ".tmp-" +:+ fmt_dec fs_pid].

(** What the calls return is true of the files, which [held] gives by their path and
    which [opens] a descriptor, or it is an error: a read may also be cut short by
    one. *)
Definition truthful_read (start : Z) (data : bytes) (ps : list (bytes + io_error)) : Prop :=
  (exists rest, drop (Z.to_nat start) data = pieces_of ps ++ rest) /\
  ((forall e, inr e ∈ ps -> e.(error_kind) = Interrupted) -> pieces_of ps = drop (Z.to_nat start) data).

(** An invariant of the host that the calls of a bundle keep, whether they succeed
    or fail, when each file they write is one of the bundle, [file]. *)
Record bundle_calls I (temporary : Handle) (file : string -> bytes -> Prop) : Prop := {
  bc_mkdirs path s : I s -> I (rf_create_dir_all path s).2;
  bc_mkdir path mode s : I s -> I (rf_create_dir path mode s).2;
  bc_remove path s : I s -> I (rf_remove_dir_all path s).2;
  bc_rename h c k d b s : I s -> I (fs_renameat h c k d b s).2;
  bc_open path s : I s -> I (rf_open path s).2 /\
    forall fd, (rf_open path s).1 = inl fd -> opens path fd;
  bc_fstat fd s : I s -> I (fs_fstat fd s).2 /\
    forall path m, opens path fd -> (fs_fstat fd s).1 = inl m -> m.(st_size) = zlen (held path);
  bc_size path s : I s -> I (rf_size path s).2 /\
    forall n, (rf_size path s).1 = inl n -> n = zlen (held path);
  bc_read fd start s : I s -> I (rf_read_from fd start s).2 /\
    forall path ps, opens path fd -> (rf_read_from fd start s).1 = inl ps ->
      truthful_read start (held path) ps;
  bc_put name data s : file name data -> I s -> I (rf_put (join temporary name) 438 data s).2;
}.

#[local] Set Default Proof Using "All".

(** Reading the end of a file that does not change delivers that end. *)
Lemma read_tail_whole limit data ps got : 0 <= limit ->
  truthful_read (Z.max (zlen data - limit) 0) data ps -> read_take limit [] ps = Ok got ->
  got = tail_of limit data.
Proof.
  intros Hl [[rest Hpre] Hall] Hr. unfold tail_of.
  assert (Hstart : Z.to_nat (Z.max (zlen data - limit) 0) = Z.to_nat (zlen data - limit)) by lia.
  rewrite Hstart in Hpre, Hall. set (tail := drop _ data) in *.
  assert (Ht : zlen tail <= limit) by (unfold tail, zlen in *; rewrite length_drop; lia).
  pose proof (read_take_prefix limit ps [] got Hl Hr) as [more Hmore]. cbn [app] in Hmore.
  apply read_take_spec in Hr as [Hle Hlt]; [|by rewrite zlen_nil].
  destruct (decide (zlen got < limit)) as [Hd|Hd].
  - destruct (Hlt Hd) as [-> Hint]. by apply Hall.
  - rewrite Hmore -app_assoc in Hpre. rewrite Hpre zlen_app in Ht.
    assert (more ++ rest = []) as E.
    { destruct (more ++ rest); [done|]. rewrite zlen_cons in Ht. pose proof (zlen_nonneg l). lia. }
    by rewrite Hpre E app_nil_r.
Qed.

Lemma qemu_escape_length path : zlen path <= zlen (qemu_escape_path path) <= 2 * zlen path.
Proof.
  unfold qemu_escape_path. induction path as [|b path IH]; [done|]. cbn [flat_map].
  rewrite zlen_app zlen_cons. case_bool_decide; rewrite !zlen_cons zlen_nil; lia.
Qed.
Lemma fold_max_le l z m : z <= m -> (forall x, x ∈ l -> x <= m) -> fold_left Z.max l z <= m.
Proof.
  revert z. induction l as [|x l IH]; intros z Hz Hl; cbn; [done|]. apply IH; [|set_solver].
  pose proof (Hl x (list_elem_of_here x l)). lia.
Qed.
Lemma discard_of_le data r : 0 <= discard_of data r <= zlen r.
Proof.
  induction r as [|x r IH]; [done|]. cbn [discard_of]. rewrite zlen_cons.
  destruct (starts_with _ _); lia.
Qed.

(** The window leaves room for a path that is given up. *)
Definition overlap (paths : list bytes) : Z :=
  fold_left Z.max (map (fun path => zlen (qemu_escape_path path)) paths) 0.
Lemma overlap_ge paths : 0 <= overlap paths /\
  forall path, path ∈ paths -> zlen (qemu_escape_path path) <= overlap paths.
Proof.
  destruct (fold_max_ge (map (fun path => zlen (qemu_escape_path path)) paths) 0) as [Hz Hx].
  split; [exact Hz|]. intros path Hp. apply Hx, list_elem_of_fmap. by exists path.
Qed.
Lemma log_window_overlap paths : Forall (fun path => zlen path < 2 ^ 62) paths ->
  log_window paths = MAX_FAILURE_LOG_BYTES + overlap paths + 1.
Proof.
  intros Hf. unfold log_window. fold (overlap paths).
  assert (0 <= overlap paths <= 2 * 2 ^ 62).
  { split; [apply overlap_ge|]. apply fold_max_le; [done|].
    intros x (path&->&Hp)%list_elem_of_fmap. rewrite list.Forall_forall in Hf.
    pose proof (qemu_escape_length path). specialize (Hf path Hp). cbn beta in Hf. lia. }
  unfold saturating_add64, MAX_FAILURE_LOG_BYTES, U64_MAX in *. lia.
Qed.
Lemma log_window_fits paths : Forall (fun path => zlen path < 2 ^ 62) paths -> 0 <= log_window paths.
Proof.
  intros Hf. rewrite log_window_overlap //. destruct (overlap_ge paths) as [Hz _].
  unfold MAX_FAILURE_LOG_BYTES. lia.
Qed.

Lemma discarded_at_most paths data : exists cut,
  data = cut ++ discard_partial_private_path data paths /\ zlen cut <= overlap paths + 1.
Proof.
  unfold discard_partial_private_path. set (discards := flat_map _ paths).
  assert (Hd : fold_left Z.max discards 0 <= overlap paths).
  { apply fold_max_le; [apply overlap_ge|]. intros x Hx.
    unfold discards in Hx. apply list_elem_of_In, in_flat_map in Hx as (path&Hp&Hx).
    assert (Ho : zlen (qemu_escape_path path) <= overlap paths).
    { by apply overlap_ge, list_elem_of_In. }
    pose proof (qemu_escape_length path). pose proof (discard_of_le data path).
    pose proof (discard_of_le data (qemu_escape_path path)). destruct Hx as [<-|[<-|[]]]; lia. }
  set (n := if _ : bool then _ else _).
  exists (take (Z.to_nat n) data). rewrite take_drop. split; [done|].
  assert (n <= overlap paths + 1) by (unfold n; case_match; lia).
  pose proof (proj1 (overlap_ge paths)).
  unfold zlen. rewrite length_take. lia.
Qed.

(** What the code keeps of a window. *)
Lemma window_kept paths log : Forall (fun path => zlen path < 2 ^ 62) paths ->
  let window := tail_of (log_window paths) log in
  log_kept paths log
    (if zlen window <? zlen log then discard_partial_private_path window paths else window).
Proof.
  intros Hf window. unfold log_kept. fold window. pose proof (log_window_fits _ Hf) as Hpos.
  pose proof (zlen_nonneg log) as Hlog.
  assert (Hlen : zlen window = Z.min (zlen log) (log_window paths)).
  { unfold window, tail_of, zlen in *. rewrite length_drop. lia. }
  destruct (Z.ltb_spec (zlen window) (zlen log)) as [Hlt|Hge].
  - destruct (discarded_at_most paths window) as (cut&Ecut&Hcut).
    split_and!; [by exists cut|lia|]. intros Hw. split.
    + apply (f_equal zlen) in Ecut. rewrite zlen_app Hlen log_window_overlap // in Ecut.
      rewrite log_window_overlap // in Hw. lia.
    + intros path r u v b Hp Hr Er Ew. rewrite Ew. by eapply split_path_discarded.
  - split_and!; [by exists []| |lia]. intros Hw. unfold window, tail_of.
    by replace (Z.to_nat (zlen log - log_window paths)) with O by lia.
Qed.

Section calls.
Context I (temporary : Handle) (paths : list bytes) (error : io_error) (diagnostics : FailureDiagnostics)
  (source : option Handle)
  (HI : bundle_calls I temporary (bundle_file error diagnostics source paths)).
Context (Hpaths : Forall private_path paths) (Hfit : Forall (fun path => zlen path < 2 ^ 62) paths).
#[local] Set Default Proof Using "All".

Lemma sanitized_shareable data : shareable paths (sanitize_diagnostic_log data paths).
Proof. by apply sanitized_text. Qed.

Lemma read_tail_safely path limit : 0 <= limit ->
  safely I (read_tail path limit) (fun data => data = tail_of limit (held path)).
Proof.
  intros Hl. unfold read_tail.
  eapply (safely_bind _ _ _ (fun o => forall fd, o = inl fd -> opens path fd)).
  { apply safely_call_gives. intros s Hs. by apply (bc_open _ _ _ HI). }
  intros opened Ho. eapply (safely_bind _ _ _ (opens path)).
  { destruct opened as [fd|e]; [by apply safely_ret, Ho|apply safely_throw]. }
  intros fd Hfd. eapply (safely_bind _ _ _ (fun m => m.(st_size) = zlen (held path))).
  { unfold fstat. eapply (safely_bind _ _ _ (fun r => forall m, r = inl m -> m.(st_size) = zlen (held path))).
    - apply safely_call_gives. intros s Hs. split; [by apply HI|]. intros m Hm.
      by apply (bc_fstat _ _ _ HI fd s Hs).
    - intros r Hr. unfold or_errno. destruct r as [m|e]; [by apply safely_ret, Hr|apply safely_throw]. }
  intros m ->. set (start := saturating_sub64 _ _).
  eapply (safely_bind _ _ _ (fun o => forall ps, o = inl ps -> truthful_read start (held path) ps)).
  { apply safely_call_gives. intros s Hs. split; [by apply HI|]. intros ps.
    by apply (bc_read _ _ _ HI fd start s Hs). }
  intros rest Hrest. eapply (safely_bind _ _ _ (truthful_read start (held path))).
  { destruct rest as [ps|e]; [by apply safely_ret, Hrest|apply safely_throw]. }
  intros ps Hps. apply safely_lift. intros data Hdata. by apply (read_tail_whole _ _ ps).
Qed.

Lemma read_sanitized_safely path : safely I (read_sanitized_log_tail path paths) (fun data =>
  shareable paths data /\ exists kept, log_kept paths (held path) kept /\ data = sanitize_diagnostic_log kept paths).
Proof.
  unfold read_sanitized_log_tail.
  eapply (safely_bind _ _ _ (fun o => forall n, o = inl n -> n = zlen (held path))).
  { apply safely_call_gives. intros s Hs. by apply (bc_size _ _ _ HI). }
  intros size Hsize. eapply (safely_bind _ _ _ (fun n => n = zlen (held path))).
  { destruct size as [n|e]; [by apply safely_ret, Hsize|apply safely_throw]. }
  intros n ->. eapply safely_bind; [apply read_tail_safely, (log_window_fits _ Hfit)|]. intros data ->.
  apply safely_ret. split; [apply sanitized_shareable|]. eexists. split; [by apply window_kept|done].
Qed.

Lemma retain_logs_safely directory names : source = Some directory ->
  Forall (fun name => name ∈ LOG_NAMES) names ->
  safely I (retain_logs (join temporary "logs") directory paths names) (fun _ => True).
Proof.
  intros Hsource. induction 1 as [|name names Hname Hall IH]; cbn [retain_logs]; [by apply safely_ret|].
  eapply safely_bind; [apply safely_catch, read_sanitized_safely|]. intros r Hr.
  apply (safely_bind _ _ _ (fun _ => True)); [|intros _ _; exact IH]. destruct r as [data|e]; [|by apply safely_ret].
  destruct (Hr data eq_refl) as [Hshare (kept&Hkept&->)].
  eapply safely_bind; [|intros o _; apply safely_or_io]. apply safely_call. intros s Hs.
  assert (join (join temporary "logs") name = join temporary ("logs/" +:+ name)) as ->.
  { unfold LOG_NAMES in Hname. rewrite !elem_of_cons in Hname.
    destruct Hname as [->|[->|[]%not_elem_of_nil]].
    - change (join (join temporary "logs") "qemu.log") with ((temporary ++ ["logs"]) ++ ["qemu.log"]).
      by rewrite -app_assoc.
    - change (join (join temporary "logs") "serial.log") with ((temporary ++ ["logs"]) ++ ["serial.log"]).
      by rewrite -app_assoc. }
  apply HI; [|done]. right. by exists name, directory, kept.
Qed.

(** The ends of the logs in a message: each is left out when it cannot be read or
    is empty. *)
Fixpoint log_ends (directory : Handle) (labels : list string) (text : string) : Prop :=
  match labels with
  | [] => text = ""
  | label :: labels => exists part rest, text = part +:+ rest /\ log_ends directory labels rest /\
      (part = "" \/ part = str_of [NEWLINE] +:+ label +:+ " diagnostics:" +:+ str_of [NEWLINE]
         +:+ from_utf8_lossy (tail_of (8 * 1024) (held (join directory ("logs/" +:+ label +:+ ".log")))))
  end.

Lemma append_logs_safely directory labels : forall message,
  safely I (append_logs directory labels message)
    (fun text => exists logs, text = message +:+ logs /\ log_ends directory labels logs).
Proof.
  induction labels as [|label labels IH]; intros message; cbn [append_logs].
  - apply safely_ret. exists "". by rewrite str_app_nil.
  - eapply safely_bind; [by apply safely_catch, read_tail_safely|]. intros r Hr.
    eapply safely_weaken; [apply IH|]. intros text (rest&->&Hrest).
    set (next := match r with Ok _ => _ | Err _ => _ end).
    assert (Hpart : exists part, next = message +:+ part /\ (part = "" \/
      part = str_of [NEWLINE] +:+ label +:+ " diagnostics:" +:+ str_of [NEWLINE]
         +:+ from_utf8_lossy (tail_of (8 * 1024) (held (join directory ("logs/" +:+ label +:+ ".log")))))).
    { unfold next. destruct r as [data|e]; [|exists ""; rewrite str_app_nil; auto].
      rewrite (Hr data eq_refl). case_bool_decide; [exists ""; rewrite str_app_nil; auto|]. eauto. }
    destruct Hpart as (part&->&Hpart). exists (part +:+ rest). rewrite str_app_assoc.
    split; [done|]. by exists part, rest.
Qed.

Lemma fill_bundle_safely destination runs_directory runtime :
  private_paths_of runs_directory source runtime = paths ->
  safely I (fill_bundle temporary destination runs_directory source runtime
    {| fr_version := 1; fr_error_kind := error_kind_name error.(error_kind);
       fr_error := error.(error_message); fr_diagnostics := diagnostics |}) (fun _ => True).
Proof.
  intros Hp. unfold fill_bundle. rewrite Hp. cbn [fr_version fr_error_kind fr_error fr_diagnostics].
  set (text := sanitize_diagnostic_log (as_bytes error.(error_message)) paths).
  pose proof (sanitized_shareable (as_bytes error.(error_message))) as Hs. fold text in Hs.
  assert (from_utf8 text = inl (str_of text)) as -> by apply from_utf8_valid, Hs.
  cbn [unwrap]. eapply safely_bind; [by apply (safely_ret I _ (fun error => error = str_of text))|].
  intros e ->. eapply safely_bind with (P := fun _ => True).
  { unfold write_json. eapply (safely_bind _ _ _ (fun data => json_bytes _ = Ok data)).
    { apply safely_lift. intros data Hdata. exact Hdata. }
    intros data Hdata.
    eapply safely_bind; [|intros o _; apply safely_or_io]. apply safely_call. intros s.
    apply HI. left. split; [done|]. exists (str_of text). rewrite as_bytes_str_of. by split_and!. }
  intros _ _. eapply safely_bind; [apply safely_call, HI|]. intros made _.
  eapply safely_bind; [apply safely_or_io|]. intros _ _.
  eapply safely_bind with (P := fun _ => True).
  { assert (Hlogs : forall directory, source = Some directory ->
      safely I (retain_logs (join temporary "logs") directory paths LOG_NAMES) (fun _ => True)).
    { intros directory Hd. apply retain_logs_safely; [done|]. repeat constructor; set_solver. }
    clear -Hlogs. destruct source as [directory|]; [by apply Hlogs|by apply safely_ret]. }
  intros _ _. eapply safely_bind; [apply safely_call, HI|]. intros renamed _.
  apply (safely_bind _ _ _ (fun _ => True)); [|by intros; apply safely_ret].
  unfold or_errno. destruct renamed; [by apply safely_ret|apply safely_throw].
Qed.
End calls.

(** ** The error *)

Definition bundle_line (runs_directory : Handle) (bundle_id : string) (line : string) : Prop :=
  line = "failure bundle: " +:+ display (join runs_directory "failures" ++ [bundle_id]) \/
  exists reason, line = "failed to retain failure bundle: " +:+ reason.

#[local] Set Default Proof Using "All".

Lemma never_fails_append staging labels : forall message s r s',
  append_logs staging labels message s = Some (r, s') -> exists text, r = Ok text.
Proof.
  induction labels as [|label labels IH]; intros message s r s'; cbn [append_logs].
  - intros [= <- _]. by eexists.
  - unfold mbind, M_bind, catch.
    destruct (read_tail _ _ s) as [[q s1]|]; [|done]. intros E. by eapply IH.
Qed.

(** The paths that a failure keeps private: text, without the character that opens
    the mark of a replaced path. *)
Definition plain_path (path : Handle) : Prop :=
  utf8_valid (as_bytes (display path)) /\ "<"%byte ∉ as_bytes (display path) /\
  zlen (as_bytes (display path)) < 2 ^ 62.
Definition private_handles (runs_directory : Handle) (source runtime : option Handle) : list Handle :=
  option_list source ++ option_list runtime ++ [runs_directory].

Lemma all_paths_private handles : Forall plain_path handles ->
  let paths := map (fun path => as_bytes (display path)) handles in
  omap to_str handles = paths /\ Forall private_path paths /\ Forall (fun path => zlen path < 2 ^ 62) paths.
Proof.
  induction 1 as [|path handles (Hu&Hp&Hz) Hall (IH1&IH2&IH3)]; [done|]. cbn.
  unfold to_str at 1. pose proof Hu as Hf. apply from_utf8_valid in Hf as ->. rewrite as_bytes_str_of IH1.
  split_and!; [done| |by constructor]. constructor; [|done]. constructor; [by apply utf8_valid_chars|].
  by constructor.
Qed.

End bundle.

(** ** A sample bundle *)

(** A host that keeps a journal of the files it was asked to write, whose logs all
    hold the same text. *)
Definition Journal : Type := list (Handle * bytes).
Definition journal_log : bytes := as_bytes "qemu: /work/runs/.run-1.tmp-7/replay.bin in /work/runs".
Definition granted {A} (a : A) (s : Journal) : (A + Errno) * Journal := (inl a, s).
Definition done_ok (s : Journal) : option io_error * Journal := (None, s).
#[local] Instance journal_fs : HostFs Journal := {|
  errno_text _ := "error";
  errno_error _ := IoError Other "error";
  fs_pid := 7; fs_euid := 1000; fs_umask := 18;
  fs_counter s := (0, s);
  fs_clone := done_ok;
  fs_root := [];
  fs_create_root _ := done_ok;
  fs_open_root := granted [];
  fs_open_dir h c := granted (h ++ [c]);
  fs_open_file h c := granted (h ++ [c]);
  fs_fstat _ := granted {| st_type := RegularNode; st_uid := 1000; st_mode := 384;
                           st_size := zlen journal_log |};
  fs_statat _ _ := granted tt;
  fs_read _ s := ([inl journal_log], s);
  fs_mkdirat _ _ _ := granted tt;
  fs_create_excl h c _ := granted (h ++ [c]);
  fs_write_sync _ _ := done_ok;
  fs_renameat _ _ _ _ _ := granted tt;
  fs_unlinkat _ _ _ := granted tt;
|}.
#[local] Instance journal_run : RunFs Journal := {|
  rf_read _ s := (inl journal_log, s);
  rf_put path _ data s := (None, (path, data) :: s);
  rf_open path s := (inl path, s);
  rf_create_dir_all _ := done_ok;
  rf_create_dir _ _ := done_ok;
  rf_lstat _ s := (inr (IoError NotFound "missing"), s);
  rf_chmod _ _ := done_ok;
  rf_exists _ s := (false, s);
  rf_canonicalize path s := (inl path, s);
  rf_image_counter s := (0, s);
  rf_runtime_counter s := (0, s);
  rf_remove_dir_all _ := done_ok;
  rf_append _ _ := done_ok;
  rf_sync := fun _ => done_ok;
  rf_size _ s := (inl (zlen journal_log), s);
  rf_read_from _ start s := (inl [inl (drop (Z.to_nat start) journal_log)], s);
  rf_fixture_directory _ s := (inr (IoError NotFound "missing"), s);
|}.
#[local] Instance plain_report : SerdePretty FailureReport :=
  {| to_vec_pretty report := inl (as_bytes report.(fr_error)) |}.
#[local] Instance plain_unicode : EscapeUnicode := {| escape_unicode _ c := c |}.
#[local] Instance plain_unicode_laws : EscapeUnicodeLaws.
Proof. constructor. by left. Qed.

Definition journal_source : Handle := ["work"; "runs"; ".run-1.tmp-7"].
Definition journal_bundle : option (result io_error * Journal) :=
  failure_with_bundle (IoError TimedOut "no event; see /work/runs/.run-1.tmp-7") ["work"; "runs"] "run-1"
    (Some journal_source) None (FailureDiagnostics_new "record") [].

Definition journal_paths : list bytes := [as_bytes "/work/runs/.run-1.tmp-7"; as_bytes "/work/runs"].
Notation journal_file := (bundle_file (fun _ => journal_log)
  (IoError TimedOut "no event; see /work/runs/.run-1.tmp-7") (FailureDiagnostics_new "record")
  (Some journal_source) journal_paths).
Definition journal_ok (s : Journal) : Prop := Forall (fun file => exists name,
  file.1 = join (bundle_temporary (S := Journal) ["work"; "runs"] "run-1") name /\
  journal_file name file.2) s.

Lemma journal_calls : bundle_calls (S := Journal) (fun _ => journal_log) (fun _ _ => True) journal_ok
  (bundle_temporary (S := Journal) ["work"; "runs"] "run-1") journal_file.
Proof.
  constructor; try done.
  - intros fd s Hs. split; [done|]. by intros path m _ [= <-].
  - intros path s Hs. split; [done|]. by intros n [= <-].
  - intros fd start s Hs. split; [done|]. intros path ps _ [= <-]. unfold truthful_read. cbn. rewrite app_nil_r.
    split; [exists []; by rewrite app_nil_r|done].
  - intros name data s Hf Hs. constructor; [|done]. by exists name.
Qed.


(** What is retained of such a log. *)
Example journal_retained : sanitize_diagnostic_log journal_log
    [as_bytes "/work/runs/.run-1.tmp-7"; as_bytes "/work/runs"]
  = as_bytes "qemu: <private-path>/replay.bin in <private-path>".
Proof. by vm_compute. Qed.
