(* ===== verification/Artifacts.v ===== *)
(** The artifacts of a run, from [run.rs]: the manifest and its digests, the
    event stream and report files, the publication of a recording, and what a
    replay checks before and after it runs the machine. *)

From stdpp Require Import ssreflect.
From Stdlib Require Import Strings.Byte.
From S2P Require Import Prelude Types Std Protocol Scenario Assertions Tree Spec Profile Oci Checker Fixture Effects Vm Driver Identity Root Store RunFiles.

Definition MANIFEST_VERSION : Z := 1.
Definition WORKLOAD_LOCK_VERSION : Z := 1.
Definition WORKLOAD_LOCK_PATH : string := "workload.lock".
Definition WORKLOAD_STORE_NAME : string := ".workload-store".
Definition CARGO_PKG_VERSION : string := "0.1.0".
Definition ARTIFACT_NAMES : list string :=
  ["scenario.toml"; "choices.json"; "replay.bin"; "events.jsonl"; "assertions.json";
   "logs/qemu.log"; "logs/serial.log"].

(** ** Records *)

Record WorkloadIdentity := {
  wi_source_kind : SourceKind;
  wi_closure_sha256 : string;
  wi_canonical_digest : string;
  wi_template_sha256 : string;
  wi_launch : LaunchIdentity;
}.
#[export] Instance WorkloadIdentity_eq_dec : EqDecision WorkloadIdentity.
Proof. solve_decision. Defined.

Record WorkloadLock := { wl_version : Z; wl_store : string; wl_workload : WorkloadIdentity }.

Record Manifest := {
  mf_version : Z;
  mf_run_id : string;
  mf_scenario_name : string;
  mf_seed : Z;
  mf_simferret_version : string;
  mf_simferret_path : string;
  mf_simferret_sha256 : string;
  mf_vm : VmIdentity;
  mf_initial_state_sha256 : string;
  mf_semantic_outcome_sha256 : string;
  mf_artifacts : gmap string string;
  mf_workload : option WorkloadIdentity;
}.

#[export] Instance Manifest_eq_dec : EqDecision Manifest.
Proof. solve_decision. Defined.

(** What one record attempt hands to the publication: of the image it keeps the
    digest of the executable. *)
Record RecordOutcome := {
  ro_scenario_name : string;
  ro_executable_sha256 : string;
  ro_identity : VmIdentity;
  ro_events : list NormalizedEvent;
  ro_assertions : AssertionReport;
  ro_workload : option WorkloadIdentity;
}.

Record RunResult := { rr_run_id : string; rr_directory : Handle; rr_assertions : AssertionReport }.

Record ReplayResult := {
  rp_run_id : string;
  rp_event_count : Z;
  rp_semantic_outcome_sha256 : string;
  rp_assertions : AssertionReport;
}.

Record StagingDirectory := { sd_path : Handle; sd_destination : Handle }.

(** ** Names, limits and digests *)

Definition valid_run_id (run_id : string) : bool :=
  match strip_prefix (as_bytes "run-") (as_bytes run_id) ≫= split_once "-"%byte with
  | None => false
  | Some (timestamp, seed) =>
      (zlen timestamp =? 32) && (zlen seed =? 16)
      && forallb lower_hex (timestamp ++ seed)
  end.

(** [nanos] is the clock's [as_nanos]. *)
Definition new_run_id (nanos seed : Z) : string :=
  "run-" +:+ fmt_hex 32 nanos +:+ "-" +:+ fmt_hex 16 seed.

Definition artifact_limit (name : string) : Z :=
  if bool_decide (name = "scenario.toml") then MAX_SCENARIO_SOURCE_BYTES
  else if bool_decide (name ∈ ["choices.json"; "events.jsonl"; "assertions.json"]) then
    MAX_SEMANTIC_ARTIFACT_BYTES
  else if bool_decide (name ∈ ["logs/qemu.log"; "logs/serial.log"]) then MAX_DIAGNOSTIC_ARTIFACT_BYTES
  else if bool_decide (name = "replay.bin") then MAX_REPLAY_LOG_BYTES
  else if bool_decide (name = WORKLOAD_LOCK_PATH) then MAX_WORKLOAD_LOCK_BYTES
  else 0.

Definition digest_parts `{Sha256} (parts : list bytes) : string :=
  sha256_bytes (flat_map (fun part => be_bytes 8 (zlen part) ++ part) parts).

(** ** Events *)

Section events.
Context `{Serde NormalizedEvent}.

Fixpoint encode_events (events : list NormalizedEvent) : result bytes :=
  match events with
  | [] => Ok []
  | event :: events =>
      match to_vec event with
      | inl body => rest ← encode_events events; Ok (body ++ NEWLINE :: rest)
      | inr e => Err (IoError Other e)
      end
  end.

Fixpoint decode_lines (index : Z) (lines : list bytes) : result (list NormalizedEvent) :=
  match lines with
  | [] => Ok []
  | line :: lines =>
      match from_slice line with
      | inl event => rest ← decode_lines (index + 1) lines; Ok (event :: rest)
      | inr e => Err (json_error ("invalid normalized event at line " +:+ fmt_dec (index + 1)) e)
      end
  end.

Definition decode_events (data : bytes) : result (list NormalizedEvent) :=
  match from_utf8 data with
  | inr e => Err (invalid_data e)
  | inl text => decode_lines 0 (str_lines (as_bytes text))
  end.

Definition envelope_invalid (index : Z) (e : NormalizedEvent) : io_error :=
  invalid_data ("recorded event envelope is invalid at index " +:+ fmt_dec index +:+ ": "
    +:+ Event_describe e.(norm_event) +:+ " at event " +:+ fmt_dec e.(norm_event_id)).

Fixpoint check_envelopes (index : Z) (events : list NormalizedEvent) : result unit :=
  match events with
  | [] => Ok tt
  | e :: events =>
      if negb (e.(norm_protocol_version) =? PROTOCOL_VERSION)
         || negb (e.(norm_event_id) =? index + 1) then Err (envelope_invalid index e)
      else check_envelopes (index + 1) events
  end.
End events.

(** ** Checks of a recorded run *)

Section checks.
Context {S : Type} `{RunFs S} `{Sha256}.

Fixpoint digest_artifacts (root : Handle) (names : list string) (digests : gmap string string)
    : M S (gmap string string) :=
  match names with
  | [] => mret digests
  | name :: names =>
      digest ← sha256_regular_file (join root name) (artifact_limit name);
      digest_artifacts root names (<[name := digest]> digests)
  end.

Definition artifact_names (workload : bool) : list string :=
  ARTIFACT_NAMES ++ (if workload then [WORKLOAD_LOCK_PATH] else []).

Definition artifact_digests (root : Handle) (workload : bool) : M S (gmap string string) :=
  digest_artifacts root (artifact_names workload) ∅.

Definition invalid_digest : io_error := invalid_data "manifest contains an invalid SHA-256 digest".

Definition validate_manifest (directory : Handle) (manifest : Manifest) : result unit :=
  if negb (manifest.(mf_version) =? MANIFEST_VERSION) then
    Err (invalid_data ("unsupported manifest version " +:+ fmt_dec manifest.(mf_version)))
  else if negb (valid_run_id manifest.(mf_run_id)) then
    Err (invalid_data "manifest contains an invalid run ID")
  else if negb (bool_decide (list.last directory = Some manifest.(mf_run_id))) then
    Err (invalid_data "manifest run ID does not match the run directory name")
  else if negb (bool_decide (manifest.(mf_simferret_version) = CARGO_PKG_VERSION)) then
    Err (invalid_data ("the SimFerret version differs from the recording; expected "
                       +:+ CARGO_PKG_VERSION))
  else if negb (bool_decide (manifest.(mf_initial_state_sha256)
                             = manifest.(mf_vm).(initramfs_sha256))) then
    Err (invalid_data "manifest initial state does not match VM initramfs identity")
  else if negb (forallb valid_sha256 [manifest.(mf_simferret_sha256);
                  manifest.(mf_initial_state_sha256); manifest.(mf_semantic_outcome_sha256)]) then
    Err invalid_digest
  else
    match manifest.(mf_workload) with
    | None => Ok tt
    | Some workload =>
        if negb (forallb valid_sha256 [workload.(wi_closure_sha256);
                   workload.(wi_canonical_digest); workload.(wi_template_sha256)]) then
          Err (invalid_data "manifest workload identity contains an invalid SHA-256 digest")
        else
          map_err (fun e => invalid_data ("manifest workload launch is invalid: "
                                          +:+ e.(error_message)))
            (validate_launch_identity workload.(wi_launch))
    end.

Fixpoint check_artifacts (directory : Handle) (expected : list (string * string)) : M S unit :=
  match expected with
  | [] => mret tt
  | (name, digest) :: expected =>
      _ ← fail_if (negb (valid_sha256 digest))
        (invalid_data ("manifest has an invalid digest for " +:+ name));
      actual ← sha256_regular_file (join directory name) (artifact_limit name);
      _ ← fail_if (negb (bool_decide (actual = digest)))
        (invalid_data ("artifact digest mismatch for " +:+ name +:+ ": expected " +:+ digest
                       +:+ ", found " +:+ actual));
      check_artifacts directory expected
  end.

Definition artifact_set_ok (expected : gmap string string) : bool :=
  forallb (fun name => bool_decide (is_Some (expected !! name))) ARTIFACT_NAMES
  && forallb (fun kv => bool_decide (kv.1 = WORKLOAD_LOCK_PATH)
                        || bool_decide (kv.1 ∈ ARTIFACT_NAMES)) (btree_iter expected).

Definition validate_artifacts (directory : Handle) (expected : gmap string string) : M S unit :=
  _ ← fail_if (negb (artifact_set_ok expected))
    (invalid_data "manifest artifact set does not match the replay contract");
  check_artifacts directory (btree_iter expected).

Context `{Serde NormalizedEvent} `{Serde AssertionReport} `{SerdePretty AssertionReport}.

Definition read_recorded_events (directory : Handle) : M S (list NormalizedEvent * bytes) :=
  data ← read_artifact (join directory "events.jsonl") MAX_SEMANTIC_ARTIFACT_BYTES;
  events ← lift (decode_events data);
  _ ← lift (check_envelopes 0 events);
  mret (events, data).

Definition read_recorded_assertions (directory : Handle) : M S (AssertionReport * bytes) :=
  data ← read_artifact (join directory "assertions.json") MAX_SEMANTIC_ARTIFACT_BYTES;
  report ← lift (match from_slice data with
    | inl report => Ok report
    | inr e => Err (json_error "malformed recorded assertions" e)
    end);
  mret (report, data).

(** ** Publication *)

Context `{SerdePretty Manifest}.

Definition events_too_large (size : Z) : io_error :=
  invalid_data ("the recorded event stream is " +:+ fmt_dec size +:+ " bytes, which exceeds the "
    +:+ fmt_dec MAX_SEMANTIC_ARTIFACT_BYTES
    +:+ "-byte replay limit, so the run would not be replayable").

(** [StagingDirectory::publish], a rename of the whole directory. *)
Definition publish_staging (staging : StagingDirectory) : M S Handle :=
  r ← call (fs_renameat (parent_of staging.(sd_path)) (name_of staging.(sd_path))
              (parent_of staging.(sd_destination)) (name_of staging.(sd_destination)) false);
  _ ← or_errno r;
  mret staging.(sd_destination).

Definition run_manifest (run_id : string) (seed : Z) (executable_path : string)
    (outcome : RecordOutcome) (semantic_outcome_sha256 : string) (artifacts : gmap string string)
    : Manifest := {|
  mf_version := MANIFEST_VERSION;
  mf_run_id := run_id;
  mf_scenario_name := outcome.(ro_scenario_name);
  mf_seed := seed;
  mf_simferret_version := CARGO_PKG_VERSION;
  mf_simferret_path := executable_path;
  mf_simferret_sha256 := outcome.(ro_executable_sha256);
  mf_vm := outcome.(ro_identity);
  mf_initial_state_sha256 := outcome.(ro_identity).(initramfs_sha256);
  mf_semantic_outcome_sha256 := semantic_outcome_sha256;
  mf_artifacts := artifacts;
  mf_workload := outcome.(ro_workload) |}.

(** The end of an attempt, from its outcome to the published directory.
    [executable_path] is the executable's path as UTF-8. *)
Definition publish_run (run_id : string) (seed : Z) (executable_path : option string)
    (staging : StagingDirectory) (outcome : RecordOutcome) : M S RunResult :=
  let at_ name := join staging.(sd_path) name in
  event_bytes ← lift (encode_events outcome.(ro_events));
  _ ← fail_if (MAX_SEMANTIC_ARTIFACT_BYTES <? zlen event_bytes) (events_too_large (zlen event_bytes));
  _ ← write_private (at_ "events.jsonl") event_bytes;
  assertion_bytes ← lift (json_bytes outcome.(ro_assertions));
  _ ← fail_if (MAX_SEMANTIC_ARTIFACT_BYTES <? zlen assertion_bytes)
    (exceeds_replay_limit "the assertion report" (zlen assertion_bytes) MAX_SEMANTIC_ARTIFACT_BYTES);
  _ ← write_private (at_ "assertions.json") assertion_bytes;
  choice_bytes ← read_whole (at_ "choices.json");
  scenario_bytes ← read_whole (at_ "scenario.toml");
  let semantic_outcome_sha256 :=
    digest_parts [scenario_bytes; choice_bytes; event_bytes; assertion_bytes] in
  artifacts ← artifact_digests staging.(sd_path) (bool_decide (is_Some outcome.(ro_workload)));
  executable_path ← lift (ok_or executable_path
    (IoError InvalidInput "executable path is not UTF-8"));
  let manifest := run_manifest run_id seed executable_path outcome semantic_outcome_sha256 artifacts in
  _ ← write_private_bounded_json (at_ "manifest.json") manifest MAX_MANIFEST_BYTES "the run manifest";
  directory ← publish_staging staging;
  mret {| rr_run_id := run_id; rr_directory := directory; rr_assertions := outcome.(ro_assertions) |}.
End checks.

(** ** The event stream read back *)

(** Documented behaviour of [serde_json]: compact output is UTF-8 text, and with
    its control characters escaped it does not end in a carriage return. *)
Class SerdeLine (T : Type) `{Serde T} := {
  to_vec_utf8 v body : to_vec v = inl body -> utf8_valid body;
  to_vec_no_cr v body : to_vec v = inl body -> list.last body <> Some Byte.x0d;
}.

#[export] Instance table_serde_line {T} `{EqDecision T} (table : list T) :
  SerdeLine T (H := table_serde table).
Proof.
  constructor; intros v body (i&_&Hi&->&Hb)%table_serde_to_vec.
  - unfold utf8_valid. cbn [length utf8_error]. unfold utf8_step.
    rewrite Hb. destruct (Z.ltb_spec (32 + Z.of_nat i) 128) as [Hl|Hl]; [done|lia].
  - cbn. intros [= Heq]. rewrite Heq in Hb. change (byte_Z Byte.x0d) with 13 in Hb. lia.
Qed.

Section event_lines.
Context `{SerdeLaws NormalizedEvent normalized_readable} `{!SerdeLine NormalizedEvent}.
#[local] Set Default Proof Using "All".

(** Each event is one line of the stream. *)
Lemma encode_events_lines events data :
  encode_events events = Ok data ->
  exists bodies, Forall2 (fun e body => to_vec e = inl body) events bodies /\
    data = concat (map (fun body => body ++ [NEWLINE]) bodies).
Proof.
  revert data. induction events as [|e events IH]; intros data; cbn [encode_events].
  - intros [= <-]. by exists [].
  - destruct (to_vec e) as [body|] eqn:E; [|done].
    destruct (encode_events events) as [rest|] eqn:Er; [|done]. cbn. intros [= <-].
    destruct (IH rest eq_refl) as (bodies&Hall&->). exists (body :: bodies). split; [by constructor|].
    cbn. by rewrite -app_assoc.
Qed.

Lemma str_lines_bodies bodies :
  Forall (fun body => NEWLINE ∉ body /\ list.last body <> Some Byte.x0d) bodies ->
  str_lines (concat (map (fun body => body ++ [NEWLINE]) bodies)) = bodies.
Proof.
  intros Hall. unfold str_lines.
  assert (split_on NEWLINE (concat (map (fun body => body ++ [NEWLINE]) bodies)) = bodies ++ [[]])
    as ->.
  { induction Hall as [|body bodies [Hn _] Hall IH]; [done|]. cbn [map concat].
    by rewrite -app_assoc split_on_app // IH. }
  rewrite List.last_last removelast_last bool_decide_eq_true_2 // app_nil_r.
  induction Hall as [|body bodies [_ Hc] Hall IH]; [done|]. cbn. rewrite IH. f_equal.
  by apply strip_cr_id.
Qed.

Lemma decode_lines_bodies index events bodies :
  Forall2 (fun e body => to_vec e = inl body) events bodies -> Forall normalized_readable events ->
  decode_lines index bodies = Ok events.
Proof.
  intros Hall. revert index.
  induction Hall as [|e body events bodies Hb Hall IH]; intros index Hr; [done|].
  apply list.Forall_cons in Hr as [He Hr]. cbn [decode_lines]. rewrite (from_to_vec _ _ He Hb) IH //.
Qed.

Lemma encoded_stream_decodes events data :
  encode_events events = Ok data -> Forall normalized_readable events ->
  utf8_valid data /\ decode_events data = Ok events.
Proof.
  intros (bodies&Hall&->)%encode_events_lines Hread.
  assert (Hu : utf8_valid (concat (map (fun body => body ++ [NEWLINE]) bodies))).
  { clear Hread. induction Hall as [|e body events bodies Hb Hall IH]; [done|]. cbn [map concat].
    apply utf8_valid_app; [|done]. apply utf8_valid_app; [by eapply to_vec_utf8|done]. }
  split; [done|]. unfold decode_events. apply from_utf8_valid in Hu as ->.
  rewrite as_bytes_str_of str_lines_bodies; [by eapply decode_lines_bodies|]. clear Hread.
  induction Hall as [|e body events bodies Hb Hall IH]; constructor; [|done].
  split; [by eapply to_vec_one_line|by eapply to_vec_no_cr].
Qed.
End event_lines.

(** The frames of a run number its events from one. *)
Lemma check_envelopes_ok index events :
  Forall (fun e => e.(norm_protocol_version) = PROTOCOL_VERSION) events ->
  map norm_event_id events = map (fun k : nat => index + 1 + Z.of_nat k) (seq 0 (length events)) ->
  check_envelopes index events = Ok tt.
Proof.
  intros Hall. revert index. induction Hall as [|e events He Hall IH]; intros index; [done|].
  cbn [length seq map check_envelopes]. intros [= Hid Hids]. rewrite He Hid Z.eqb_refl.
  rewrite Z.add_0_r Z.eqb_refl. cbn. apply IH. rewrite Hids -seq_shift map_map.
  apply map_ext. intros k. lia.
Qed.
