(* ===== verification/Recording.v ===== *)
(** Recording a run, from [run.rs]: the preparation of the run directory, the
    launch and the drive of the machine for a network scenario and for a workload
    scenario, and the attempt that ends in the publication of [Artifacts].

    A path of the host is the state's; the source of a workload is a directory of
    its own, which [Store.assemble] reads.  [Failure.Attempt] carries the
    diagnostics of the attempt beside the host. *)

From stdpp Require Import ssreflect.
From Stdlib Require Import Strings.Byte.
From S2P Require Import Prelude Types Std Protocol Scenario Assertions Tree Spec Oci Checker Fixture Effects Vm Driver WorkloadDriver Identity Root Store RunFiles Image RunBase Text Sanitize Failure Artifacts.

Section recording.
Context {S V : Type} `{RunFs S} `{VmAdapter S V} `{Sha256} `{Gzip} `{DebugStr} `{PrettyDebug}.
Context `{Serde NormalizedEvent} `{SerdePretty AssertionReport} `{SerdePretty Manifest}.
Context `{SerdePretty ChoicePlan} `{SerdePretty WorkloadChoicePlan} `{SerdePretty WorkloadLock}.
Context `{Serde CommandFrame} `{Serde EventFrame}.
Variable toml_scenario : string -> Scenario + TomlError.
Variable toml_workload : string -> WorkloadScenario + TomlError.

(** ** Directories *)

Definition create_staging (root : Handle) (run_id : string) : M S StagingDirectory :=
  made ← call (rf_create_dir_all root);
  _ ← or_io made;
  canonical ← call (rf_canonicalize root);
  root ← or_other canonical;
  let path := root ++ ["." +:+ run_id +:+ ".tmp-" +:+ fmt_dec fs_pid] in
  _ ← create_private_dir path;
  mret {| sd_path := path; sd_destination := root ++ [run_id] |}.

Definition create_qmp (run_id : string) : M S Handle :=
  counter ← call rf_runtime_counter;
  let suffix := str_of (take 16 (as_bytes (sha256_bytes (as_bytes run_id)))) in
  let path := ["tmp"; "sf-" +:+ fmt_dec fs_pid +:+ "-" +:+ fmt_dec counter +:+ "-" +:+ suffix] in
  _ ← create_private_dir path;
  mret path.

Fixpoint write_entries (directory : Handle) (entries : list (string * bytes)) : M S unit :=
  match entries with
  | [] => mret tt
  | (name, contents) :: entries =>
      written ← call (rf_put (directory ++ [name]) 438 contents);
      _ ← or_io written;
      write_entries directory entries
  end.

Definition materialize_fixture (directory : Handle) (entries : list (string * bytes)) : M S unit :=
  made ← call (rf_create_dir directory 511);
  _ ← or_io made;
  write_entries directory entries.

Definition fixture_digest (directory : Handle) : M S string :=
  entries ← read_fixture_entries directory;
  mret (digest_fixture_entries entries).

Definition restricted_tftp_record_with_tool_digest (directory : Handle) (busybox_sha256 : string)
    : M S NetworkConfig :=
  content ← fixture_digest directory;
  mret (restricted_tftp (Some (as_bytes (display directory))) content busybox_sha256).

(** ** The two scenarios *)

Definition record_config (staging : StagingDirectory) (qmp kernel initramfs : Handle)
    (network : NetworkConfig) : RecordConfig := {|
  rc_kernel := kernel;
  rc_initramfs := initramfs;
  rc_replay_log := join staging.(sd_path) "replay.bin";
  rc_qmp_socket := join qmp "qmp.sock";
  rc_serial_log := join staging.(sd_path) "logs/serial.log";
  rc_qemu_log := join staging.(sd_path) "logs/qemu.log";
  rc_network := Some network |}.

(** The fixture of a plan on disk, and the machine launched on it. *)
Definition launch_recording (options : RunOptions) (assets : GuestImageAssets)
    (staging : StagingDirectory) (qmp initramfs : Handle) (requests : list PlannedRequest)
    (corrupt : bool) : M (Attempt S) (V * Handle) :=
  let fixture := join staging.(sd_path) "fixture" in
  _ ← on_files (materialize_fixture fixture (fixture_entries requests corrupt));
  network ← on_files (restricted_tftp_record_with_tool_digest fixture (sha256_bytes assets.(as_busybox)));
  _ ← note_network network.(net_identity);
  canonical ← on_files (call (rf_canonicalize options.(op_kernel)));
  kernel ← or_other canonical;
  _ ← enter "launch";
  launched ← on_files (call (launch_record (record_config staging qmp kernel initramfs network)));
  vm ← or_other launched;
  mret (vm, fixture).

(** What is left when the machine was driven. *)
Definition finish_recording (fixture : Handle) (vm : V) (outcome : result RecordOutcome)
    : M (Attempt S) RecordOutcome :=
  dropping (on_files (drop_machine vm)) (
    outcome ← lift outcome;
    _ ← enter "shutdown";
    _ ← on_files (wait_for vm "QEMU");
    removed ← on_files (call (rf_remove_dir_all fixture));
    _ ← or_io removed;
    mret outcome).

Definition record_network_scenario (options : RunOptions) (assets : GuestImageAssets)
    (staging : StagingDirectory) (qmp : Handle) : M (Attempt S) RecordOutcome :=
  source ← on_files (read_source options.(op_scenario));
  '(scenario, scenario_source) ← lift (Scenario_parse toml_scenario source);
  choices ← unwrap (Scenario_choices scenario options.(op_seed));
  image ← on_files (build_guest_image options.(op_executable) options.(op_runs_directory) assets None);
  _ ← on_files (create_private_dir (join staging.(sd_path) "logs"));
  _ ← on_files (write_private (join staging.(sd_path) "scenario.toml") scenario_source);
  _ ← on_files (write_private_json (join staging.(sd_path) "choices.json") choices);
  '(vm, fixture) ← launch_recording options assets staging qmp image.(gi_path)
    choices.(plan_requests) scenario.(corrupt_responses);
  _ ← enter "execution";
  let identity := vm_identity vm in
  '(driven, vm) ← on_machine c_vm c_diagnostics (drive_scenario scenario choices vm);
  finish_recording fixture vm (outcome ← driven;
    Ok {| ro_scenario_name := scenario.(scenario_name);
          ro_executable_sha256 := image.(gi_executable_sha256);
          ro_identity := identity;
          ro_events := outcome.1;
          ro_assertions := outcome.2;
          ro_workload := None |}).

Definition workload_identity (loaded : LoadedWorkload) : WorkloadIdentity := {|
  wi_source_kind := loaded.(ld_source_kind);
  wi_closure_sha256 := loaded.(ld_closure_sha256);
  wi_canonical_digest := loaded.(ld_canonical_digest);
  wi_template_sha256 := sha256_bytes loaded.(ld_template);
  wi_launch := loaded.(ld_launch) |}.

Definition assembly_agrees (assembled : AssembledWorkload) (loaded : LoadedWorkload) : bool :=
  bool_decide (assembled.(as_source_kind) = loaded.(ld_source_kind))
  && bool_decide (assembled.(as_closure_sha256) = loaded.(ld_closure_sha256))
  && bool_decide (assembled.(as_canonical_digest) = loaded.(ld_canonical_digest))
  && bool_decide (assembled.(as_template_sha256) = sha256_bytes loaded.(ld_template))
  && bool_decide (assembled.(as_launch) = loaded.(ld_launch)).

Context {T : Type} `{HostFs T}.
Context `{OciDecoders} `{Serde CanonicalBinarySpec} `{Serde Closure} `{Serde DerivedLock}.
Variable fuel : nat.

(** A computation, and an attempt, on the host of the run. *)
Definition on_host {A} (m : M S A) : M (T * S) A := zoom snd (fun s st => (st.1, s)) m.
Definition on_host_attempt {A} (m : M (Attempt S) A) : M (Attempt (T * S)) A :=
  zoom (fun st => (st.1.2, st.2)) (fun a st => ((st.1.1, a.1), a.2)) m.

Definition record_workload_scenario (options : RunOptions) (assets : GuestImageAssets)
    (staging : StagingDirectory) (qmp : Handle) (specification : result WorkloadSpec)
    : M (Attempt (T * S)) RecordOutcome :=
  source ← on_files (on_host (read_source options.(op_scenario)));
  '(scenario, scenario_source) ← lift (Workload_parse toml_workload source);
  choices ← unwrap (Workload_choices scenario options.(op_seed));
  canonical ← on_files (on_host (call (rf_canonicalize options.(op_runs_directory))));
  runs_directory ← or_other canonical;
  assembled ← on_files (assemble specification);
  loaded ← on_files (on_host load);
  _ ← fail_if (negb (assembly_agrees assembled loaded))
    (invalid_data "workload assembly and independent verification disagreed");
  let workload := workload_identity loaded in
  _ ← lift (validate_workload_control_frames loaded.(ld_launch) choices);
  image ← on_files (on_host (build_guest_image options.(op_executable) runs_directory assets
                     (Some loaded.(ld_template))));
  _ ← on_files (on_host (create_private_dir (join staging.(sd_path) "logs")));
  _ ← on_files (on_host (write_private (join staging.(sd_path) "scenario.toml") scenario_source));
  _ ← on_files (on_host (write_private_json (join staging.(sd_path) "choices.json") choices));
  _ ← on_files (on_host (write_private_bounded_json (join staging.(sd_path) WORKLOAD_LOCK_PATH)
    {| wl_version := WORKLOAD_LOCK_VERSION; wl_store := WORKLOAD_STORE_NAME;
       wl_workload := workload |} MAX_WORKLOAD_LOCK_BYTES "the workload lock"));
  '(vm, fixture) ← on_host_attempt (launch_recording options assets staging qmp image.(gi_path)
    choices.(requests) scenario.(w_corrupt_responses));
  _ ← enter "execution";
  let identity := vm_identity vm in
  '(driven, vm) ← on_machine w_vm w_diagnostics
    (drive_workload_scenario fuel scenario choices loaded.(ld_launch) vm);
  on_host_attempt (finish_recording fixture vm (outcome ← driven;
    Ok {| ro_scenario_name := scenario.(w_name);
          ro_executable_sha256 := image.(gi_executable_sha256);
          ro_identity := identity;
          ro_events := outcome.1;
          ro_assertions := outcome.2;
          ro_workload := Some workload |})).

(** ** The attempt *)

Context `{SerdePretty FailureReport} `{EscapeUnicode}.

(** [record_with_adapter_and_assets]; [clock] is the time since the epoch in
    nanoseconds, and the specification of a workload, when the run has one, is
    what reading it gave. *)
Definition record_with_adapter_and_assets (clock : result Z) (options : RunOptions)
    (executable_path : option string) (assets : GuestImageAssets)
    (specification : option (result WorkloadSpec)) : M (T * S) RunResult :=
  nanos ← lift clock;
  let run_id := new_run_id nanos options.(op_seed) in
  staging ← on_host (create_staging options.(op_runs_directory) run_id);
  let runs_directory := parent_of staging.(sd_destination) in
  let diagnostics := at_stage "preparation" (FailureDiagnostics_new "record") in
  dropping_failed (on_host (remove_quietly staging.(sd_path))) (
    created ← catch (on_host (create_qmp run_id));
    match created with
    | Err e =>
        e ← on_host (failure_with_bundle e runs_directory run_id None None diagnostics);
        throw e
    | Ok qmp =>
        dropping (on_host (remove_quietly qmp)) (
          with_bundle (
            outcome ← match specification with
                      | Some specification =>
                          record_workload_scenario options assets staging qmp specification
                      | None => on_host_attempt (record_network_scenario options assets staging qmp)
                      end;
            _ ← enter "publication";
            on_files (on_host (publish_run run_id options.(op_seed) executable_path staging outcome)))
            diagnostics
            (fun e diagnostics => on_host (failure_with_bundle e runs_directory run_id
               (Some staging.(sd_path)) (Some qmp) diagnostics)))
    end).
End recording.
