(* ===== verification/Replay.v ===== *)
(** Replaying a run, from [run.rs]: what is checked of a recording before the
    machine starts, the rebuilt initial state, the replayed machine, and the
    comparison with the recording. *)

From stdpp Require Import ssreflect.
From Stdlib Require Import Strings.Byte.
From S2P Require Import Prelude Types Std Protocol Scenario Assertions Tree Spec Oci Checker Fixture Effects Vm Driver Identity Root Store RunFiles Image RunBase Text Sanitize Failure Artifacts Recording.

(** [{:#?}] of a report. *)
Class ReportDebug := { report_debug : AssertionReport -> string }.

(** The recorded scenario with its bytes, and what it fixes: the plan of the seed
    and the network. *)
Record Source (Sc C : Type) := MkSource {
  sr_scenario : Sc;
  sr_scenario_bytes : bytes;
  sr_choices : C;
  sr_network : NetworkConfig;
}.
Arguments MkSource {Sc C}.
Arguments sr_scenario {Sc C}. Arguments sr_scenario_bytes {Sc C}.
Arguments sr_choices {Sc C}. Arguments sr_network {Sc C}.

(** What the preflight of a recording established; [C] is the choice plan. *)
Record Preflight (Sc C : Type) := MkPreflight {
  pf_scenario : Sc;
  pf_choices : C;
  pf_network : NetworkConfig;
  pf_scenario_bytes : bytes;
  pf_choice_bytes : bytes;
  pf_events : list NormalizedEvent;
  pf_event_bytes : bytes;
  pf_assertions : AssertionReport;
  pf_assertion_bytes : bytes;
}.
Arguments MkPreflight {Sc C}.
Arguments pf_scenario {Sc C}. Arguments pf_choices {Sc C}. Arguments pf_network {Sc C}.
Arguments pf_scenario_bytes {Sc C}. Arguments pf_choice_bytes {Sc C}.
Arguments pf_events {Sc C}. Arguments pf_event_bytes {Sc C}.
Arguments pf_assertions {Sc C}. Arguments pf_assertion_bytes {Sc C}.

Section replay.
Context {S V : Type} `{RunFs S} `{VmAdapter S V} `{Sha256} `{Gzip} `{DebugStr} `{PrettyDebug} `{ReportDebug}.
Context `{Serde NormalizedEvent} `{Serde AssertionReport} `{SerdePretty AssertionReport}.
Context `{Serde Manifest} `{Serde ChoicePlan} `{Serde WorkloadChoicePlan} `{Serde WorkloadLock}.
Context `{Serde CommandFrame} `{Serde EventFrame}.
Variable toml_scenario : string -> Scenario + TomlError.
Variable toml_workload : string -> WorkloadScenario + TomlError.

(** ** The recording *)

Definition read_manifest (directory : Handle) : M S Manifest :=
  manifest ← read_json (join directory "manifest.json") MAX_MANIFEST_BYTES;
  _ ← lift (validate_manifest directory manifest);
  _ ← validate_artifacts directory manifest.(mf_artifacts);
  _ ← fail_if (negb (eqb (bool_decide (is_Some manifest.(mf_workload)))
                         (bool_decide (is_Some (manifest.(mf_artifacts) !! WORKLOAD_LOCK_PATH)))))
    (invalid_data "the manifest workload identity and lock artifact disagree");
  mret manifest.

(** The frame a recorded event stands for. *)
Definition expected_frame (e : NormalizedEvent) : EventFrame := {|
  protocol_version := e.(norm_protocol_version);
  event_id := e.(norm_event_id);
  command_id := e.(norm_command_id);
  event := e.(norm_event);
  diagnostics := DiagnosticFields_default |}.

Definition read_choices {C} `{Serde C} `{EqDecision C} (directory : Handle) (materialized : C)
    : M S (C * bytes) :=
  choice_bytes ← read_artifact (join directory "choices.json") MAX_SEMANTIC_ARTIFACT_BYTES;
  choices ← lift (match from_slice choice_bytes with
    | inl choices => Ok choices
    | inr e => Err (json_error "malformed recorded choices" e)
    end);
  _ ← fail_if (negb (bool_decide (choices = materialized)))
    (invalid_data "recorded choice plan does not match the scenario and seed");
  mret (choices, choice_bytes).

Definition wrong_event_count (expected found : Z) : io_error :=
  invalid_data ("recorded event count is inconsistent with scenario: expected "
    +:+ fmt_dec expected +:+ ", found " +:+ fmt_dec found).

Definition recorded_digest_mismatch (expected found : string) : io_error :=
  invalid_data ("recorded semantic outcome digest mismatch: expected " +:+ expected
    +:+ ", found " +:+ found).

Definition name_differs : io_error :=
  invalid_data "the scenario name differs from the recorded manifest".
Definition report_shape : io_error :=
  invalid_data "recorded assertion report has an invalid shape".
Definition report_unfounded : io_error :=
  invalid_data "recorded assertion report does not match recorded events".

Definition network_source (directory : Handle) (manifest : Manifest) (busybox : bytes)
    : M S (Source Scenario ChoicePlan) :=
  source ← read_artifact (join directory "scenario.toml") MAX_SCENARIO_SOURCE_BYTES;
  '(scenario, scenario_bytes) ← lift (Scenario_parse toml_scenario source);
  _ ← fail_if (negb (bool_decide (scenario.(scenario_name) = manifest.(mf_scenario_name)))) name_differs;
  materialized ← unwrap (Scenario_choices scenario manifest.(mf_seed));
  mret (MkSource scenario scenario_bytes materialized (restricted_tftp_replay
    (digest_fixture_entries (fixture_entries materialized.(plan_requests) scenario.(corrupt_responses)))
    (sha256_bytes busybox))).

Definition network_recorded (directory : Handle) (manifest : Manifest)
    (source : Source Scenario ChoicePlan) : M S (Preflight Scenario ChoicePlan) :=
  let scenario := source.(sr_scenario) in
  let scenario_bytes := source.(sr_scenario_bytes) in
  '(choices, choice_bytes) ← read_choices directory source.(sr_choices);
  '(expected_events, expected_event_bytes) ← read_recorded_events directory;
  expected_event_count ← lift (ok_or (checked_mul64 scenario.(request_count) 2 ≫= fun count => checked_add64 count 5)
    (invalid_data "expected event count overflowed"));
  _ ← fail_if (negb (zlen expected_events =? expected_event_count))
    (wrong_event_count expected_event_count (zlen expected_events));
  '(expected_assertions, expected_assertion_bytes) ← read_recorded_assertions directory;
  _ ← fail_if (negb (valid_report expected_assertions)) report_shape;
  let evaluated := evaluate (map expected_frame expected_events)
    scenario.(outage_event_bound) scenario.(liveness_event_bound) in
  _ ← fail_if (negb (bool_decide (expected_assertions = evaluated))) report_unfounded;
  let digest := digest_parts
    [scenario_bytes; choice_bytes; expected_event_bytes; expected_assertion_bytes] in
  _ ← fail_if (negb (bool_decide (digest = manifest.(mf_semantic_outcome_sha256))))
    (recorded_digest_mismatch manifest.(mf_semantic_outcome_sha256) digest);
  mret (MkPreflight scenario choices source.(sr_network) scenario_bytes choice_bytes expected_events
    expected_event_bytes expected_assertions expected_assertion_bytes).

(** The preflight of a network recording, without the diagnostics. *)
Definition network_preflight (directory : Handle) (manifest : Manifest) (busybox : bytes)
    : M S (Preflight Scenario ChoicePlan) :=
  source ← network_source directory manifest busybox; network_recorded directory manifest source.

(** ** The initial state and the log *)

Definition rebuild_image (executable runs_directory : Handle) (assets : GuestImageAssets)
    (template : option bytes) (manifest : Manifest) : M S GuestImage :=
  image ← build_guest_image executable runs_directory assets template;
  _ ← fail_if (negb (bool_decide (image.(gi_executable_sha256) = manifest.(mf_simferret_sha256))))
    (invalid_data ("SimFerret executable digest differs from recording: expected "
      +:+ manifest.(mf_simferret_sha256) +:+ ", found " +:+ image.(gi_executable_sha256)));
  state ← sha256_file image.(gi_path);
  _ ← fail_if (negb (bool_decide (state = manifest.(mf_initial_state_sha256))))
    (invalid_data "rebuilt initial state digest differs from recording");
  mret image.

Definition copy_replay_log (directory runtime : Handle) (manifest : Manifest) : M S Handle :=
  let replay_log := join runtime "replay.bin" in
  _ ← copy_regular_file (join directory "replay.bin") replay_log MAX_REPLAY_LOG_BYTES;
  expected ← unwrap (manifest.(mf_artifacts) !! "replay.bin");
  copied ← sha256_file replay_log;
  _ ← fail_if (negb (bool_decide (copied = expected)))
    (invalid_data ("replay log changed while preparing replay: expected " +:+ expected
      +:+ ", found " +:+ copied));
  mret replay_log.

(** The log copied, the network identity checked, and the machine launched. *)
Definition launch_replayed (options : ReplayOptions) (directory runtime initramfs : Handle)
    (manifest : Manifest) (network : NetworkConfig) : M (Attempt S) V :=
  replay_log ← on_files (copy_replay_log directory runtime manifest);
  _ ← fail_if (negb (bool_decide (is_Some manifest.(mf_vm).(vm_network))))
    (invalid_data "recording has no network identity");
  compatible ← unwrap (validate_replay_network_identity manifest.(mf_vm) (Some network.(net_identity)));
  _ ← lift compatible;
  canonical ← on_files (call (rf_canonicalize options.(rp_kernel)));
  kernel ← or_other canonical;
  _ ← enter "launch";
  launched ← on_files (call (launch_replay {|
    rc_kernel := kernel;
    rc_initramfs := initramfs;
    rc_replay_log := replay_log;
    rc_qmp_socket := join runtime "qmp.sock";
    rc_serial_log := join runtime "logs/serial.log";
    rc_qemu_log := join runtime "logs/qemu.log";
    rc_network := Some network |} manifest.(mf_vm)));
  vm ← or_other launched;
  _ ← enter "execution";
  mret vm.

(** ** The comparison *)

Definition report_diverged (expected actual : AssertionReport) : io_error :=
  invalid_data ("replayed assertion report diverged" +:+ str_of [NEWLINE] +:+ "expected: "
    +:+ report_debug expected +:+ str_of [NEWLINE] +:+ "actual: " +:+ report_debug actual).
Definition digest_diverged (expected found : string) : io_error :=
  invalid_data ("semantic outcome digest diverged: expected " +:+ expected +:+ ", found " +:+ found).

Definition validate_replay {Sc C} (manifest : Manifest) (p : Preflight Sc C)
    (events : list NormalizedEvent) (assertions : AssertionReport) : result ReplayResult :=
  _ ← compare_events p.(pf_events) events;
  if negb (bool_decide (assertions = p.(pf_assertions))) then
    Err (report_diverged p.(pf_assertions) assertions)
  else
  event_bytes ← encode_events events;
  if negb (bool_decide (event_bytes = p.(pf_event_bytes))) then
    Err (invalid_data "replayed normalized event encoding is not byte-identical")
  else
  assertion_bytes ← json_bytes assertions;
  if negb (bool_decide (assertion_bytes = p.(pf_assertion_bytes))) then
    Err (invalid_data "replayed assertion encoding is not byte-identical")
  else
  let semantic_outcome_sha256 :=
    digest_parts [p.(pf_scenario_bytes); p.(pf_choice_bytes); event_bytes; assertion_bytes] in
  if negb (bool_decide (semantic_outcome_sha256 = manifest.(mf_semantic_outcome_sha256))) then
    Err (digest_diverged manifest.(mf_semantic_outcome_sha256) semantic_outcome_sha256)
  else Ok {| rp_run_id := manifest.(mf_run_id);
             rp_event_count := zlen events;
             rp_semantic_outcome_sha256 := semantic_outcome_sha256;
             rp_assertions := assertions |}.

(** What is left when the machine was driven: the exit of the machine, and the
    comparison of what it did. *)
Definition finish_replay {Sc C} (manifest : Manifest) (p : Preflight Sc C) (vm : V)
    (outcome : result (list NormalizedEvent * AssertionReport)) : M (Attempt S) ReplayResult :=
  dropping (on_files (drop_machine vm)) (
    '(events, assertions) ← lift outcome;
    _ ← enter "shutdown";
    _ ← on_files (wait_for vm "QEMU replay");
    _ ← enter "replay-validation";
    lift (validate_replay manifest p events assertions)).

(** ** A network run *)

Definition replay_network (options : ReplayOptions) (assets : GuestImageAssets)
    (directory runs_directory runtime : Handle) (manifest : Manifest) : M (Attempt S) ReplayResult :=
  source ← on_files (network_source directory manifest assets.(as_busybox));
  _ ← note_network source.(sr_network).(net_identity);
  p ← on_files (network_recorded directory manifest source);
  image ← on_files (rebuild_image options.(rp_executable) runs_directory assets None manifest);
  vm ← launch_replayed options directory runtime image.(gi_path) manifest p.(pf_network);
  '(driven, vm) ← on_machine c_vm c_diagnostics
    (drive_replay_scenario p.(pf_scenario) p.(pf_choices) p.(pf_events) vm);
  finish_replay manifest p vm driven.

(** ** A workload run *)

Context `{OciDecoders} `{Serde CanonicalBinarySpec} `{Serde Closure} `{Serde DerivedLock}.

Definition rederived_agrees (loaded : LoadedWorkload) (recorded : WorkloadIdentity) : bool :=
  bool_decide (loaded.(ld_source_kind) = recorded.(wi_source_kind))
  && bool_decide (loaded.(ld_closure_sha256) = recorded.(wi_closure_sha256))
  && bool_decide (loaded.(ld_canonical_digest) = recorded.(wi_canonical_digest))
  && bool_decide (loaded.(ld_launch) = recorded.(wi_launch))
  && bool_decide (sha256_bytes loaded.(ld_template) = recorded.(wi_template_sha256)).

Definition load_recorded (directory : Handle) (recorded : WorkloadIdentity) : M S LoadedWorkload :=
  lock ← read_json (T := WorkloadLock) (join directory WORKLOAD_LOCK_PATH) MAX_WORKLOAD_LOCK_BYTES;
  _ ← fail_if (negb (lock.(wl_version) =? WORKLOAD_LOCK_VERSION))
    (invalid_data ("unsupported workload lock version " +:+ fmt_dec lock.(wl_version)));
  _ ← fail_if (negb (bool_decide (lock.(wl_store) = WORKLOAD_STORE_NAME)))
    (invalid_data "the workload lock names an unsupported content store");
  _ ← fail_if (negb (bool_decide (lock.(wl_workload) = recorded)))
    (invalid_data "the workload lock identity differs from the manifest");
  loaded ← load;
  _ ← fail_if (negb (rederived_agrees loaded recorded))
    (invalid_data "the re-derived workload identity differs from the recording");
  mret loaded.

Definition workload_source (directory : Handle) (manifest : Manifest) (busybox : bytes)
    : M S (Source WorkloadScenario WorkloadChoicePlan) :=
  source ← read_artifact (join directory "scenario.toml") MAX_SCENARIO_SOURCE_BYTES;
  '(scenario, scenario_bytes) ← lift (Workload_parse toml_workload source);
  _ ← fail_if (negb (bool_decide (scenario.(w_name) = manifest.(mf_scenario_name)))) name_differs;
  materialized ← unwrap (Workload_choices scenario manifest.(mf_seed));
  mret (MkSource scenario scenario_bytes materialized (restricted_tftp_replay
    (digest_fixture_entries (fixture_entries materialized.(requests) scenario.(w_corrupt_responses)))
    (sha256_bytes busybox))).

Definition workload_recorded (directory : Handle) (manifest : Manifest) (launch : LaunchIdentity)
    (source : Source WorkloadScenario WorkloadChoicePlan)
    : M S (Preflight WorkloadScenario WorkloadChoicePlan) :=
  let scenario := source.(sr_scenario) in
  let scenario_bytes := source.(sr_scenario_bytes) in
  '(choices, choice_bytes) ← read_choices directory source.(sr_choices);
  _ ← lift (validate_workload_control_frames launch choices);
  '(expected_events, expected_event_bytes) ← read_recorded_events directory;
  '(expected_assertions, expected_assertion_bytes) ← read_recorded_assertions directory;
  _ ← fail_if (negb (valid_profile expected_assertions WORKLOAD_PROFILE)) report_shape;
  evaluated ← unwrap (evaluate_workload (map expected_frame expected_events) scenario choices launch);
  _ ← fail_if (negb (bool_decide (expected_assertions = evaluated))) report_unfounded;
  let digest := digest_parts
    [scenario_bytes; choice_bytes; expected_event_bytes; expected_assertion_bytes] in
  _ ← fail_if (negb (bool_decide (digest = manifest.(mf_semantic_outcome_sha256))))
    (recorded_digest_mismatch manifest.(mf_semantic_outcome_sha256) digest);
  mret (MkPreflight scenario choices source.(sr_network) scenario_bytes choice_bytes expected_events
    expected_event_bytes expected_assertions expected_assertion_bytes).

Definition replay_workload (options : ReplayOptions) (assets : GuestImageAssets)
    (directory runs_directory runtime : Handle) (manifest : Manifest) : M (Attempt S) ReplayResult :=
  recorded ← lift (ok_or manifest.(mf_workload) (invalid_data "recording has no workload identity"));
  loaded ← on_files (load_recorded directory recorded);
  source ← on_files (workload_source directory manifest assets.(as_busybox));
  _ ← note_network source.(sr_network).(net_identity);
  p ← on_files (workload_recorded directory manifest loaded.(ld_launch) source);
  image ← on_files (rebuild_image options.(rp_executable) runs_directory assets (Some loaded.(ld_template)) manifest);
  vm ← launch_replayed options directory runtime image.(gi_path) manifest p.(pf_network);
  '(driven, vm) ← on_machine fst snd (fun diagnostics =>
    replay_workload_events p.(pf_events) (vm, diagnostics));
  match driven with
  | Err e => finish_replay manifest p vm (Err e)
  | Ok frames =>
      assertions ← unwrap (evaluate_workload frames p.(pf_scenario) p.(pf_choices) loaded.(ld_launch));
      finish_replay manifest p vm (Ok (map normalize frames, assertions))
  end.

(** ** The attempt *)

Context `{SerdePretty FailureReport} `{EscapeUnicode}.

Definition replay_attempt (options : ReplayOptions) (assets : GuestImageAssets)
    (directory runs_directory runtime : Handle) : M (Attempt S) ReplayResult :=
  made ← on_files (call (rf_create_dir (join runtime "logs") 511));
  _ ← or_io made;
  manifest ← on_files (read_manifest directory);
  if bool_decide (is_Some manifest.(mf_workload)) then
    replay_workload options assets directory runs_directory runtime manifest
  else replay_network options assets directory runs_directory runtime manifest.

(** [replay_with_adapter_and_assets]; [nanos] is the clock's, or zero before the
    epoch. *)
Definition replay_with_adapter_and_assets (nanos : Z) (options : ReplayOptions)
    (assets : GuestImageAssets) : M S ReplayResult :=
  canonical ← call (rf_canonicalize options.(rp_directory));
  directory ← or_other canonical;
  _ ← fail_if (bool_decide (directory = [])) (invalid_data "run directory has no parent");
  let runs_directory := parent_of directory in
  let bundle_id := new_failure_bundle_id "replay" "attempt" nanos in
  let diagnostics := at_stage "preflight" (FailureDiagnostics_new "replay") in
  created ← catch (create_qmp "replay-attempt");
  match created with
  | Err e =>
      e ← failure_with_bundle e runs_directory bundle_id None None diagnostics;
      throw e
  | Ok runtime =>
      dropping (remove_quietly runtime) (
        with_bundle (replay_attempt options assets directory runs_directory runtime) diagnostics
          (fun e diagnostics => failure_with_bundle e runs_directory bundle_id
             (Some runtime) (Some runtime) diagnostics))
  end.
End replay.
