(* ===== verification/Preflight.v ===== *)
(** What the preflight of a replay establishes.  [described] is the contract of a
    run directory: its manifest, and the artifacts the manifest names.
    [recorded_network] is the contract of a recorded network run: the scenario,
    the plan, the events and the report belong together.  The code refines both:
    it returns only what is so recorded, and on a host that fails no call it
    returns exactly that. *)

From stdpp Require Import ssreflect.
From Stdlib Require Import Strings.Byte.
From S2P Require Import Prelude Types Std Protocol Scenario Assertions Tree Spec Oci Checker Fixture Effects Vm Driver Identity Root Store RunFiles Image RunBase Artifacts Replay.

(** ** The contracts *)

Section contracts.
Context `{Sha256} `{Serde Manifest} `{Serde NormalizedEvent} `{Serde AssertionReport}.

(** An artifact that is present under its digest. *)
Definition artifact_at (n : Node) (directory : Handle) (name digest : string) : Prop :=
  exists data, file_at n (join directory name) = Some data /\ zlen data <= artifact_limit name /\
    digest = sha256_bytes data.

Record described (n : Node) (directory : Handle) (manifest : Manifest) : Prop := {
  ds_manifest : exists data, file_at n (join directory "manifest.json") = Some data /\
    zlen data <= MAX_MANIFEST_BYTES /\ from_slice data = inl manifest;
  ds_valid : validate_manifest directory manifest = Ok tt;
  ds_names : artifact_set_ok manifest.(mf_artifacts) = true;
  ds_artifacts : map_Forall (artifact_at n directory) manifest.(mf_artifacts);
  ds_digests : map_Forall (fun _ digest => valid_sha256 digest = true) manifest.(mf_artifacts);
  ds_lock : is_Some manifest.(mf_workload)
    <-> is_Some (manifest.(mf_artifacts) !! WORKLOAD_LOCK_PATH);
}.

(** The recorded events and the recorded report of a directory. *)
Record recorded_events (n : Node) (directory : Handle) (r : list NormalizedEvent * bytes) : Prop := {
  rec_events : file_at n (join directory "events.jsonl") = Some r.2;
  rec_events_size : zlen r.2 <= MAX_SEMANTIC_ARTIFACT_BYTES;
  rec_decoded : decode_events r.2 = Ok r.1;
  rec_envelopes : check_envelopes 0 r.1 = Ok tt;
}.
Record recorded_report (n : Node) (directory : Handle) (r : AssertionReport * bytes) : Prop := {
  rec_assertions : file_at n (join directory "assertions.json") = Some r.2;
  rec_assertions_size : zlen r.2 <= MAX_SEMANTIC_ARTIFACT_BYTES;
  rec_report : from_slice r.2 = inl r.1;
}.

Context `{Serde ChoicePlan}.
Variable toml_scenario : string -> Scenario + TomlError.

Record recorded_network (n : Node) (directory : Handle) (manifest : Manifest) (busybox : bytes)
    (p : Preflight Scenario ChoicePlan) : Prop := {
  rn_scenario : file_at n (join directory "scenario.toml") = Some p.(pf_scenario_bytes);
  rn_parsed : Scenario_parse toml_scenario p.(pf_scenario_bytes)
    = Ok (p.(pf_scenario), p.(pf_scenario_bytes));
  rn_name : p.(pf_scenario).(scenario_name) = manifest.(mf_scenario_name);
  rn_choices : Scenario_choices p.(pf_scenario) manifest.(mf_seed) = Some p.(pf_choices);
  rn_network : p.(pf_network) = restricted_tftp_replay
    (digest_fixture_entries (fixture_entries p.(pf_choices).(plan_requests)
                               p.(pf_scenario).(corrupt_responses))) (sha256_bytes busybox);
  rn_choice_file : file_at n (join directory "choices.json") = Some p.(pf_choice_bytes);
  rn_choice_size : zlen p.(pf_choice_bytes) <= MAX_SEMANTIC_ARTIFACT_BYTES;
  rn_choice_bytes : from_slice p.(pf_choice_bytes) = inl p.(pf_choices);
  rn_events : recorded_events n directory (p.(pf_events), p.(pf_event_bytes));
  rn_report : recorded_report n directory (p.(pf_assertions), p.(pf_assertion_bytes));
  rn_count : zlen p.(pf_events) = 2 * p.(pf_scenario).(request_count) + 5;
  rn_shape : valid_report p.(pf_assertions) = true;
  rn_evaluated : p.(pf_assertions) = evaluate (map expected_frame p.(pf_events))
    p.(pf_scenario).(outage_event_bound) p.(pf_scenario).(liveness_event_bound);
  rn_digest : manifest.(mf_semantic_outcome_sha256) = digest_parts
    [p.(pf_scenario_bytes); p.(pf_choice_bytes); p.(pf_event_bytes); p.(pf_assertion_bytes)];
}.
End contracts.

(** ** The readers *)

Lemma join_ne directory name : join directory name <> [].
Proof.
  unfold join. intros [_ Hn]%app_eq_nil. apply map_eq_nil in Hn. by apply split_on_ne in Hn.
Qed.

Lemma artifact_limit_range name : 0 <= artifact_limit name <= U64_MAX.
Proof.
  unfold artifact_limit, MAX_SCENARIO_SOURCE_BYTES, MAX_SEMANTIC_ARTIFACT_BYTES,
    MAX_DIAGNOSTIC_ARTIFACT_BYTES, MAX_REPLAY_LOG_BYTES, MAX_WORKLOAD_LOCK_BYTES, U64_MAX.
  repeat (case_bool_decide; [lia|]). lia.
Qed.

Section readers.
Context {S : Type} `{RunFsLaws S} `{Sha256} `{DebugStr}.
Context `{Serde Manifest} `{Serde NormalizedEvent} `{Serde AssertionReport} `{Serde ChoicePlan}.
#[local] Set Default Proof Using "All".

Lemma reads_unwrap {A} n (o : option A) : reads n (unwrap o : M S A) (fun a => o = Some a).
Proof. destruct o; [by apply reads_ret|]. by intros s. Qed.
Lemma succeeds_unwrap {A} n (o : option A) a : o = Some a -> succeeds n (unwrap o : M S A) a.
Proof. intros ->. apply succeeds_ret. Qed.

Lemma reads_result {A} n (r : result A) : reads n (lift r : M S A) (fun a => r = Ok a).
Proof. by apply reads_lift. Qed.

Lemma read_json_reads {T} `{Serde T} n path limit :
  path <> [] -> reads n (read_json (T := T) path limit) (fun value => exists data,
    file_at n path = Some data /\ zlen data <= limit /\ from_slice data = inl value).
Proof.
  intros Hne. unfold read_json. eapply reads_bind; [by apply read_artifact_reads|].
  intros data [Hf Hl]. apply reads_lift. intros value. case_match; [|done]. intros [= <-]. eauto.
Qed.
Lemma read_json_succeeds {T} `{Serde T} n path limit data (value : T) :
  path <> [] -> file_at n path = Some data -> zlen data <= limit -> from_slice data = inl value ->
  succeeds n (read_json path limit) value.
Proof.
  intros Hne Hf Hl Hv. unfold read_json.
  eapply succeeds_bind; [by eapply read_artifact_succeeds|]. rewrite Hv. by apply succeeds_lift.
Qed.

Lemma check_artifacts_reads n directory expected :
  reads n (check_artifacts directory expected) (fun _ =>
    Forall (fun kv => artifact_at n directory kv.1 kv.2 /\ valid_sha256 kv.2 = true) expected).
Proof.
  induction expected as [|[name digest] expected IH]; cbn [check_artifacts].
  - apply reads_ret. constructor.
  - eapply reads_bind; [apply reads_fail_if|]. intros [] Hv%negb_false_iff.
    eapply reads_bind; [apply sha256_regular_file_reads, join_ne|]. intros actual (data&Hf&Hl&->).
    eapply reads_bind; [apply reads_fail_if|]. intros [] Hd%negb_false_iff%bool_decide_eq_true.
    eapply reads_weaken; [apply IH|]. intros [] Hall. constructor; [|done]. split; [|done].
    by exists data.
Qed.

Lemma check_artifacts_succeeds n directory expected :
  Forall (fun kv => artifact_at n directory kv.1 kv.2 /\ valid_sha256 kv.2 = true) expected ->
  succeeds n (check_artifacts directory expected) tt.
Proof.
  induction 1 as [|[name digest] expected Hx Hall IH]; cbn [check_artifacts fst snd] in *.
  - apply succeeds_ret.
  - destruct Hx as [(data&Hf&Hl&->) Hv]. eapply succeeds_bind; [by apply succeeds_fail_if; rewrite Hv|].
    eapply succeeds_bind; [apply sha256_regular_file_succeeds; [apply join_ne|done|done|]|].
    { apply artifact_limit_range. }
    eapply succeeds_bind; [apply succeeds_fail_if; by rewrite bool_decide_eq_true_2|done].
Qed.

Lemma map_Forall_iter (P : string -> string -> Prop) (m : gmap string string) :
  map_Forall P m <-> Forall (fun kv => P kv.1 kv.2) (btree_iter m).
Proof.
  rewrite list.Forall_forall. split.
  - intros Hm [k v] Hkv%btree_iter_elem. by apply Hm.
  - intros Hall k v Hkv. by apply (Hall (k, v)), btree_iter_elem.
Qed.

Lemma lock_agrees (manifest : Manifest) :
  negb (eqb (bool_decide (is_Some manifest.(mf_workload)))
          (bool_decide (is_Some (manifest.(mf_artifacts) !! WORKLOAD_LOCK_PATH)))) = false
  <-> (is_Some manifest.(mf_workload) <-> is_Some (manifest.(mf_artifacts) !! WORKLOAD_LOCK_PATH)).
Proof. rewrite negb_false_iff eqb_true_iff. repeat case_bool_decide; naive_solver. Qed.

Lemma read_manifest_reads n directory :
  reads n (read_manifest directory) (described n directory).
Proof.
  unfold read_manifest. eapply reads_bind; [apply read_json_reads, join_ne|].
  intros manifest (data&Hf&Hl&Hm).
  eapply reads_bind; [apply reads_result|]. intros [] Hv.
  eapply reads_bind with (Q := fun _ => artifact_set_ok manifest.(mf_artifacts) = true /\
    Forall (fun kv => artifact_at n directory kv.1 kv.2 /\ valid_sha256 kv.2 = true)
      (btree_iter manifest.(mf_artifacts))).
  - unfold validate_artifacts. eapply reads_bind; [apply reads_fail_if|].
    intros [] Hn%negb_false_iff. eapply reads_weaken; [apply check_artifacts_reads|].
    intros [] Hall. exact (conj Hn Hall).
  - intros [] [Hn Hall]. eapply reads_bind; [apply reads_fail_if|]. intros [] Hk%lock_agrees.
    apply reads_ret. constructor; [by exists data|done..| | |done].
    + apply map_Forall_iter. eapply list.Forall_impl; [exact Hall|naive_solver].
    + apply (map_Forall_iter (fun _ d => valid_sha256 d = true)).
      eapply list.Forall_impl; [exact Hall|naive_solver].
Qed.

Lemma read_manifest_succeeds n directory manifest :
  described n directory manifest -> succeeds n (read_manifest directory) manifest.
Proof.
  intros [(data&Hf&Hl&Hm) Hv Hn Ha Hd Hk]. unfold read_manifest.
  eapply succeeds_bind; [eapply read_json_succeeds; [apply join_ne|done..]|].
  eapply succeeds_bind; [by apply succeeds_lift|].
  eapply succeeds_bind.
  - unfold validate_artifacts. eapply succeeds_bind; [by apply succeeds_fail_if; rewrite Hn|].
    apply check_artifacts_succeeds. apply list.Forall_and. split; [by apply map_Forall_iter|].
    by apply (map_Forall_iter (fun _ d => valid_sha256 d = true)).
  - eapply succeeds_bind; [apply succeeds_fail_if; by apply lock_agrees|apply succeeds_ret].
Qed.

Lemma read_choices_reads {C} `{Serde C} `{EqDecision C} n directory (materialized : C) :
  reads n (read_choices directory materialized) (fun r => r.1 = materialized /\
    file_at n (join directory "choices.json") = Some r.2 /\
    zlen r.2 <= MAX_SEMANTIC_ARTIFACT_BYTES /\ from_slice r.2 = inl materialized).
Proof.
  unfold read_choices. eapply reads_bind; [apply read_artifact_reads, join_ne|].
  intros data [Hf Hl]. eapply reads_bind; [apply reads_result|]. intros choices Hc.
  eapply reads_bind; [apply reads_fail_if|]. intros [] He%negb_false_iff%bool_decide_eq_true.
  apply reads_ret. subst materialized. cbn. split_and!; try done. by case_match; simplify_eq.
Qed.
Lemma read_choices_succeeds {C} `{Serde C} `{EqDecision C} n directory (choices : C) data :
  file_at n (join directory "choices.json") = Some data ->
  zlen data <= MAX_SEMANTIC_ARTIFACT_BYTES -> from_slice data = inl choices ->
  succeeds n (read_choices directory choices) (choices, data).
Proof.
  intros Hf Hl Hc. unfold read_choices.
  eapply succeeds_bind; [apply read_artifact_succeeds; [apply join_ne|done..]|].
  rewrite Hc. eapply succeeds_bind; [by apply succeeds_lift|].
  eapply succeeds_bind; [apply succeeds_fail_if; by rewrite bool_decide_eq_true_2|apply succeeds_ret].
Qed.

Lemma recorded_events_reads n directory :
  reads n (read_recorded_events directory) (recorded_events n directory).
Proof.
  unfold read_recorded_events. eapply reads_bind; [apply read_artifact_reads, join_ne|].
  intros data [Hf Hl]. eapply reads_bind; [apply reads_result|]. intros events Hd.
  eapply reads_bind; [apply reads_result|]. intros [] He. by apply reads_ret.
Qed.
Lemma recorded_events_succeeds n directory r :
  recorded_events n directory r -> succeeds n (read_recorded_events directory) r.
Proof.
  intros []. unfold read_recorded_events. destruct r as [events data]; cbn in *.
  eapply succeeds_bind; [apply read_artifact_succeeds; [apply join_ne|done..]|].
  eapply succeeds_bind; [by apply succeeds_lift|].
  eapply succeeds_bind; [by apply succeeds_lift|apply succeeds_ret].
Qed.

Lemma recorded_report_reads n directory :
  reads n (read_recorded_assertions directory) (recorded_report n directory).
Proof.
  unfold read_recorded_assertions. eapply reads_bind; [apply read_artifact_reads, join_ne|].
  intros data [Hf Hl]. eapply reads_bind; [apply reads_result|]. intros report Hd.
  apply reads_ret. constructor; cbn; [done..|]. by case_match; simplify_eq.
Qed.
Lemma recorded_report_succeeds n directory r :
  recorded_report n directory r -> succeeds n (read_recorded_assertions directory) r.
Proof.
  intros []. unfold read_recorded_assertions. destruct r as [report data]; cbn in *.
  eapply succeeds_bind; [apply read_artifact_succeeds; [apply join_ne|done..]|].
  eapply succeeds_bind; [apply succeeds_lift; by rewrite rec_report0|apply succeeds_ret].
Qed.

Variable toml_scenario : string -> Scenario + TomlError.

Lemma parse_source source scenario bytes :
  Scenario_parse toml_scenario source = Ok (scenario, bytes) ->
  bytes = source /\ Scenario_validate scenario = Ok tt /\ zlen source <= MAX_SCENARIO_SOURCE_BYTES.
Proof.
  unfold Scenario_parse. destruct (Z.ltb_spec MAX_SCENARIO_SOURCE_BYTES (zlen source)); [done|].
  destruct (from_utf8 source); [|done]. destruct (toml_scenario _) as [sc|]; [|done].
  destruct (Scenario_validate sc) as [[]|] eqn:E; [|done]. cbn. by intros [= -> <-].
Qed.

Lemma event_count request_count :
  0 <= request_count <= MAX_REQUEST_COUNT ->
  (checked_mul64 request_count 2 ≫= fun count => checked_add64 count 5) = Some (2 * request_count + 5).
Proof.
  unfold MAX_REQUEST_COUNT. intros Hr. unfold checked_mul64, checked_add64.
  rewrite (proj2 (Z.leb_le _ _)); [|unfold U64_MAX; lia]. cbn [mbind option_bind].
  rewrite (proj2 (Z.leb_le _ _)); [|unfold U64_MAX; lia]. f_equal. lia.
Qed.

Lemma valid_count scenario : Scenario_validate scenario = Ok tt ->
  0 <= scenario.(request_count) <= MAX_REQUEST_COUNT.
Proof.
  unfold Scenario_validate. intros Hs. inv_ok Hs. bool_facts. unfold MAX_REQUEST_COUNT in *. lia.
Qed.

(** The network a scenario and its plan fix. *)
Definition source_network (scenario : Scenario) (choices : ChoicePlan) (busybox : bytes) : NetworkConfig :=
  restricted_tftp_replay (digest_fixture_entries (fixture_entries choices.(plan_requests)
    scenario.(corrupt_responses))) (sha256_bytes busybox).

Lemma network_source_reads n directory manifest busybox :
  reads n (network_source toml_scenario directory manifest busybox) (fun r =>
    file_at n (join directory "scenario.toml") = Some r.(sr_scenario_bytes) /\
    Scenario_parse toml_scenario r.(sr_scenario_bytes) = Ok (r.(sr_scenario), r.(sr_scenario_bytes)) /\
    r.(sr_scenario).(scenario_name) = manifest.(mf_scenario_name) /\
    Scenario_choices r.(sr_scenario) manifest.(mf_seed) = Some r.(sr_choices) /\
    r.(sr_network) = source_network r.(sr_scenario) r.(sr_choices) busybox).
Proof.
  unfold network_source. eapply reads_bind; [apply read_artifact_reads, join_ne|].
  intros source [Hs _]. eapply reads_bind; [apply reads_result|]. intros [scenario bytes] Hp.
  apply parse_source in Hp as Hx. destruct Hx as (->&_&_).
  eapply reads_bind; [apply reads_fail_if|]. intros [] Hname%negb_false_iff%bool_decide_eq_true.
  eapply reads_bind; [apply reads_unwrap|]. intros choices Hch. by apply reads_ret.
Qed.

Lemma network_preflight_reads n directory manifest busybox :
  reads n (network_preflight toml_scenario directory manifest busybox)
    (recorded_network toml_scenario n directory manifest busybox).
Proof.
  unfold network_preflight. eapply reads_bind; [apply network_source_reads|].
  intros [scenario bytes choices network] (Hs&Hp&Hname&Hch&Hnet).
  cbn in Hs, Hp, Hname, Hch, Hnet. subst network.
  apply parse_source in Hp as Hx. destruct Hx as (_&Hvalid&_).
  unfold network_recorded. cbn [sr_scenario sr_scenario_bytes sr_choices sr_network].
  eapply reads_bind; [apply read_choices_reads|]. intros [c choice_bytes] (Hc&Hcf&Hcs&Hcb).
  cbn [fst snd] in *. subst c.
  eapply reads_bind; [apply recorded_events_reads|]. intros [events event_bytes] Hev.
  rewrite event_count; [|by apply valid_count].
  eapply reads_bind; [apply reads_result|]. intros count [= <-].
  eapply reads_bind; [apply reads_fail_if|]. intros [] Hcount%negb_false_iff%Z.eqb_eq.
  eapply reads_bind; [apply recorded_report_reads|]. intros [report report_bytes] Hrep.
  eapply reads_bind; [apply reads_fail_if|]. intros [] Hshape%negb_false_iff.
  eapply reads_bind; [apply reads_fail_if|]. intros [] Heval%negb_false_iff%bool_decide_eq_true.
  eapply reads_bind; [apply reads_fail_if|]. intros [] Hdig%negb_false_iff%bool_decide_eq_true.
  by apply reads_ret.
Qed.

Lemma network_preflight_succeeds n directory manifest busybox p :
  recorded_network toml_scenario n directory manifest busybox p ->
  succeeds n (network_preflight toml_scenario directory manifest busybox) p.
Proof.
  intros []. destruct p as [scenario choices network sb cb events eb report rb]; cbn in *.
  apply parse_source in rn_parsed0 as Hx. destruct Hx as (_&Hvalid&Hsize).
  unfold network_preflight. eapply succeeds_bind.
  { unfold network_source.
    eapply succeeds_bind; [apply read_artifact_succeeds; [apply join_ne|done..]|].
    eapply succeeds_bind; [by apply succeeds_lift|]. cbn.
    eapply succeeds_bind; [apply succeeds_fail_if; by rewrite bool_decide_eq_true_2|].
    eapply succeeds_bind; [by apply succeeds_unwrap|apply succeeds_ret]. }
  unfold network_recorded. cbn.
  eapply succeeds_bind; [by apply read_choices_succeeds|]. cbn.
  eapply succeeds_bind; [by apply recorded_events_succeeds|]. cbn.
  rewrite event_count; [|by apply valid_count].
  eapply succeeds_bind; [by apply succeeds_lift|].
  eapply succeeds_bind; [apply succeeds_fail_if; by rewrite rn_count0 Z.eqb_refl|].
  eapply succeeds_bind; [by apply recorded_report_succeeds|]. cbn.
  eapply succeeds_bind; [apply succeeds_fail_if; by rewrite rn_shape0|].
  eapply succeeds_bind; [apply succeeds_fail_if; by rewrite bool_decide_eq_true_2|].
  eapply succeeds_bind; [apply succeeds_fail_if; by rewrite bool_decide_eq_true_2|].
  subst network. apply succeeds_ret.
Qed.
End readers.
