(* ===== verification/Publication.v ===== *)
(** The publication of a recorded run: the directory it leaves is a run
    directory in the sense of [Preflight.described], with the files of the staging
    directory and the digests the manifest states. *)

From stdpp Require Import ssreflect.
From Stdlib Require Import Strings.Byte.
From S2P Require Import Prelude Types Std Protocol Scenario Assertions Tree Spec Oci Checker Fixture Effects Vm Driver Identity Root Store StoreFiles StoreSafe RunFiles Image RunBase Artifacts Replay Preflight.

(** Documented behaviour of [serde_json]: pretty output followed by a line feed
    is read back. *)
Class SerdePrettyLaws (T : Type) `{Serde T} `{SerdePretty T} := {
  from_pretty v body : to_vec_pretty v = inl body -> from_slice (body ++ [NEWLINE]) = inl v;
}.

Lemma json_bytes_read {T} `{SerdePrettyLaws T} (value : T) data :
  json_bytes value = Ok data -> from_slice data = inl value.
Proof.
  unfold json_bytes. destruct (to_vec_pretty value) as [body|] eqn:E; [|done].
  intros [= <-]. by apply from_pretty.
Qed.

(** ** Digests and names *)

Lemma valid_sha256_bytes `{Sha256Laws} data : valid_sha256 (sha256_bytes data) = true.
Proof.
  destruct (hex_digits_string data) as [_ Hall]. unfold valid_sha256, str_len, zlen, sha256_bytes.
  rewrite hex_length sha256_digest_length.
  change (forallb (fun b => lower_hex b) (as_bytes (hex (sha256_digest data))) = true).
  apply forallb_forall. intros b Hb%list_elem_of_In. rewrite list.Forall_forall in Hall. by apply Hall.
Qed.

Lemma valid_new_run_id nanos seed : valid_run_id (new_run_id nanos seed) = true.
Proof.
  assert (Hdash : forall n z, "-"%byte ∉ hex_digits n z).
  { intros n z Hin. pose proof (hex_digits_lower n z) as Hall.
    rewrite list.Forall_forall in Hall. by apply Hall in Hin. }
  assert (Hid : as_bytes (new_run_id nanos seed)
    = as_bytes "run-" ++ hex_digits 32 nanos ++ "-"%byte :: hex_digits 16 seed).
  { unfold new_run_id, fmt_hex. by rewrite !as_bytes_app !as_bytes_str_of. }
  unfold valid_run_id. rewrite Hid. rewrite (proj2 (strip_prefix_Some _ _ _) eq_refl).
  cbn [mbind option_bind].
  rewrite (proj2 (split_once_Some _ _ _ _) (conj eq_refl (Hdash 32%nat nanos))).
  unfold zlen. rewrite !length_hex_digits. apply forallb_forall. intros b Hb.
  apply list_elem_of_In in Hb. apply elem_of_app in Hb as [Hb|Hb];
    [pose proof (hex_digits_lower 32 nanos) as Hall|pose proof (hex_digits_lower 16 seed) as Hall];
    rewrite list.Forall_forall in Hall; by apply Hall.
Qed.


(** ** The staging directory *)

Lemma reads_Ok {S} `{FsView S} {A} n (m : M S A) Q s a s' :
  triple (fun s => view s = n) m (fun a s => view s = n /\ Q a) (fun _ s => view s = n) ->
  view s = n -> m s = Some (Ok a, s') -> view s' = n /\ Q a.
Proof. intros Hm Hs E. specialize (Hm s Hs). by rewrite E in Hm. Qed.

Section publication.
Context {S : Type} `{RunFsLaws S} `{Sha256Laws} `{DebugStr}.
Context `{Serde NormalizedEvent} `{SerdePrettyLaws AssertionReport} `{SerdePrettyLaws Manifest}.
#[local] Set Default Proof Using "All".

Lemma digest_artifacts_reads n root names : forall digests,
  map_Forall (artifact_at n root) digests ->
  reads n (digest_artifacts root names digests) (fun m => map_Forall (artifact_at n root) m /\
    forall name, is_Some (m !! name) <-> name ∈ names \/ is_Some (digests !! name)).
Proof.
  induction names as [|name names IH]; intros digests Hd; cbn [digest_artifacts].
  - apply reads_ret. split; [done|]. intros k. set_solver.
  - eapply reads_bind; [apply sha256_regular_file_reads, join_ne|]. intros digest (data&Hf&Hl&->).
    eapply reads_weaken; [apply IH|].
    + apply map_Forall_insert_2; [by exists data|done].
    + intros m [Hm Hk]. split; [done|]. intros k. rewrite Hk elem_of_cons.
      rewrite lookup_insert_is_Some. destruct (decide (name = k)) as [->|]; naive_solver.
Qed.

Lemma except_file p n n' q data :
  except p n n' -> ~ p `prefix_of` q -> file_at n' q = Some data <-> file_at n q = Some data.
Proof. intros He Hq. unfold file_at. by rewrite He. Qed.

Lemma except_link p n n' q :
  except p n n' -> ~ p `prefix_of` q -> node_at n q <> Some NLink -> node_at n' q <> Some NLink.
Proof.
  intros He Hq Hn Hl. apply Hn. specialize (He q Hq). unfold label_at in He. rewrite Hl in He.
  destruct (node_at n q) as [[]|]; naive_solver.
Qed.

(** Two entries of a directory. *)
Lemma entries_apart (d : Handle) (a b : string) r : a <> b -> ~ (d ++ [a]) `prefix_of` d ++ b :: r.
Proof. intros Hab Hp%prefix_app_inv. apply prefix_cons_inv_1 in Hp. done. Qed.

Lemma write_private_Ok n h c data s s' :
  node_at n (h ++ [c]) <> Some NLink -> view s = n ->
  write_private (h ++ [c]) data s = Some (Ok tt, s') ->
  except (h ++ [c]) n (view s') /\ file_at (view s') (h ++ [c]) = Some data.
Proof.
  intros Hl Hs E. pose proof (write_private_writes n h c data Hl s Hs) as Ht. by rewrite E in Ht.
Qed.

(** The files of a directory that was renamed. *)
Lemma publish_staging_Ok staging h c k d s dest s' :
  staging.(sd_path) = h ++ [c] -> staging.(sd_destination) = k ++ [d] ->
  publish_staging staging s = Some (Ok dest, s') ->
  dest = k ++ [d] /\
  (forall q, file_at (view s') ((k ++ [d]) ++ q) = file_at (view s) ((h ++ [c]) ++ q)) /\
  forall q, ~ (h ++ [c]) `prefix_of` q -> ~ (k ++ [d]) `prefix_of` q ->
    label_at (view s') q = label_at (view s) q.
Proof.
  intros Hp Hd E. unfold publish_staging in E. rewrite Hp Hd !parent_of_snoc !name_of_snoc in E.
  unfold call in E. rewrite M_bind_Ok in E. destruct E as (r&s1&E1&E).
  destruct (fs_renameat _ _ _ _ _ s) as [r' s1'] eqn:Er. injection E1 as -> ->.
  destruct r as [[]|e]; [|done]. cbn in E. injection E as <- <-. split; [done|].
  apply rename_law in Er as [_ [Hr|[(e&[=]&_) _]]].
  unfold rename_does in Hr. destruct (node_at (view s) (h ++ [c])) as [source|] eqn:Hsrc.
  2: by destruct Hr.
  case_bool_decide as Hpre; [by destruct Hr|]. destruct (_ && bool_decide _); [by destruct Hr|].
  destruct (replaces _ _ && _) eqn:Hrep; [|by destruct Hr as [[e [=]] _]].
  destruct Hr as [_ ->]. apply andb_true_iff in Hrep as [_ Hk].
  pose proof (node_at_parent _ _ _ _ Hsrc) as Hh.
  assert (Hkd : is_dir (node_at (remove_entry (view s) h c) k) = true).
  { rewrite -is_dir_label. change (is_dir (label_at (remove_entry (view s) h c) k) = true).
    rewrite label_remove // (proj2 (below_None_prefix _ _) Hpre). by rewrite -dir_at_node in Hk. }
  split.
  - intros q. unfold file_at. rewrite label_add // below_app. by rewrite label_at_app Hsrc.
  - intros q Hq1%below_None_prefix Hq2%below_None_prefix. by rewrite label_add // Hq2 label_remove // Hq1.
Qed.

Lemma fail_if_Ok (b : bool) e (s : S) u s' : fail_if b e s = Some (Ok u, s') -> b = false /\ s' = s.
Proof. unfold fail_if. destruct b; [done|]. by intros [= <- <-]. Qed.

Lemma join_name (d : Handle) (name : string) : SLASH ∉ as_bytes name -> join d name = d ++ [name].
Proof. intros Hn. unfold join. rewrite split_on_piece //=. by rewrite str_of_as_bytes. Qed.

Definition staged_names : list string :=
  ["events.jsonl"; "assertions.json"; "choices.json"; "scenario.toml"; "manifest.json"].

(** What [publish_run] leaves: [d] is the staging directory in the tree [n], [k]
    the run directory in the tree [n']. *)
Record published (n : Node) (d : Handle) (n' : Node) (k : Handle) (outcome : RecordOutcome)
    (manifest : Manifest) : Prop := {
  pb_events : exists data, encode_events outcome.(ro_events) = Ok data /\
    zlen data <= MAX_SEMANTIC_ARTIFACT_BYTES /\ file_at n' (k ++ ["events.jsonl"]) = Some data;
  pb_assertions : exists data, json_bytes outcome.(ro_assertions) = Ok data /\
    zlen data <= MAX_SEMANTIC_ARTIFACT_BYTES /\ file_at n' (k ++ ["assertions.json"]) = Some data;
  pb_manifest : exists data, json_bytes manifest = Ok data /\ zlen data <= MAX_MANIFEST_BYTES /\
    file_at n' (k ++ ["manifest.json"]) = Some data;
  pb_kept : forall name, name ∈ ["scenario.toml"; "choices.json"] ->
    exists data, file_at n (d ++ [name]) = Some data /\ file_at n' (k ++ [name]) = Some data;
  pb_artifacts : map_Forall (artifact_at n' k) manifest.(mf_artifacts);
  pb_names : forall name, is_Some (manifest.(mf_artifacts) !! name) <->
    name ∈ artifact_names (bool_decide (is_Some outcome.(ro_workload)));
  pb_elsewhere : forall q, ~ d `prefix_of` q -> ~ k `prefix_of` q -> label_at n' q = label_at n q;
  pb_digest : forall sb cb eb ab, file_at n' (k ++ ["scenario.toml"]) = Some sb ->
    file_at n' (k ++ ["choices.json"]) = Some cb -> file_at n' (k ++ ["events.jsonl"]) = Some eb ->
    file_at n' (k ++ ["assertions.json"]) = Some ab ->
    manifest.(mf_semantic_outcome_sha256) = digest_parts [sb; cb; eb; ab];
  pb_rest : forall name data, name ∉ ["events.jsonl"; "assertions.json"; "manifest.json"] ->
    file_at n (d ++ [name]) = Some data -> file_at n' (k ++ [name]) = Some data;
}.

Lemma artifact_moved n n' d k name digest :
  (forall q, file_at n' (k ++ q) = file_at n (d ++ q)) ->
  artifact_at n d name digest -> artifact_at n' k name digest.
Proof. intros Hq (data&Hf&Hl&->). exists data. split_and!; [|done..]. by rewrite -Hf Hq. Qed.

Lemma artifact_kept p n n' d name digest :
  except p n n' -> ~ p `prefix_of` join d name ->
  artifact_at n d name digest -> artifact_at n' d name digest.
Proof.
  intros He Hp (data&Hf&Hl&->). exists data. split_and!; [|done..].
  by apply (except_file _ _ _ _ _ He Hp).
Qed.

Lemma artifact_names_apart d name b :
  name ∈ artifact_names b -> ~ (d ++ ["manifest.json"]) `prefix_of` join d name.
Proof.
  intros Hn. unfold join. intros Hp%prefix_app_inv. revert Hp.
  destruct b; cbn in Hn; rewrite !elem_of_cons elem_of_nil in Hn; destruct_or?; subst; try done;
    intros Hp; vm_compute in Hp; by destruct Hp.
Qed.

Lemma publish_run_Ok run_id seed path staging outcome h c k d s r s' :
  staging.(sd_path) = h ++ [c] -> staging.(sd_destination) = k ++ [d] ->
  (forall name, name ∈ staged_names ->
    node_at (view s) ((h ++ [c]) ++ [name]) <> Some NLink) ->
  publish_run run_id seed path staging outcome s = Some (Ok r, s') ->
  exists executable artifacts semantic,
    r = {| rr_run_id := run_id; rr_directory := k ++ [d]; rr_assertions := outcome.(ro_assertions) |} /\
    published (view s) (h ++ [c]) (view s') (k ++ [d]) outcome
      (run_manifest run_id seed executable outcome semantic artifacts).
Proof.
  intros Hp Hd Hlinks E. unfold publish_run in E. rewrite Hp in E. set (D := h ++ [c]) in *.
  rewrite !join_name in E; [|by vm_compute; set_solver..].
  apply M_bind_Ok in E as (eb&?&[Heb ->]%lift_Ok&E).
  apply M_bind_Ok in E as ([]&?&[Hes%Z.ltb_ge ->]%fail_if_Ok&E).
  apply M_bind_Ok in E as ([]&s1&E1&E).
  apply M_bind_Ok in E as (ab&?&[Hab ->]%lift_Ok&E).
  apply M_bind_Ok in E as ([]&?&[Has%Z.ltb_ge ->]%fail_if_Ok&E).
  apply M_bind_Ok in E as ([]&s2&E2&E).
  apply M_bind_Ok in E as (cb&s3&E3&E).
  apply M_bind_Ok in E as (sb&s4&E4&E).
  apply M_bind_Ok in E as (artifacts&s5&E5&E).
  apply M_bind_Ok in E as (executable&?&[_ ->]%lift_Ok&E). cbn zeta in E.
  apply M_bind_Ok in E as ([]&s6&E6&E).
  apply M_bind_Ok in E as (dest&s7&E7&E). injection E as <- <-.
  set (manifest := run_manifest _ _ _ _ _ _) in E6.
  (* the writes *)
  apply (write_private_Ok (view s)) in E1 as [He1 Hf1]; [|by apply Hlinks; set_solver|done].
  apply (write_private_Ok (view s1)) in E2 as [He2 Hf2]; [| |done].
  2: { eapply except_link; [exact He1|by apply entries_apart|apply Hlinks; set_solver]. }
  assert (Hlk : forall name, name ∈ staged_names -> name <> "events.jsonl" -> name <> "assertions.json" ->
    node_at (view s2) (D ++ [name]) <> Some NLink).
  { intros name Hn Hne1 Hne2. eapply except_link; [exact He2|by apply entries_apart|].
    eapply except_link; [exact He1|by apply entries_apart|by apply Hlinks]. }
  (* the readings *)
  apply (reads_Ok (view s2) _ _ _ _ _ (read_whole_reads _ _ (Hlk "choices.json" ltac:(set_solver)
    ltac:(done) ltac:(done))) eq_refl) in E3 as [Hv3 Hcb].
  apply (reads_Ok (view s2) _ _ _ _ _ (read_whole_reads _ _ (Hlk "scenario.toml" ltac:(set_solver)
    ltac:(done) ltac:(done))) Hv3) in E4 as [Hv4 Hsb].
  apply (reads_Ok (view s2) _ _ _ _ _ (digest_artifacts_reads _ D _ ∅ (map_Forall_empty _)) Hv4)
    in E5 as [Hv5 [Hart Hnames]].
  (* the manifest and the renaming *)
  unfold write_private_bounded_json in E6.
  apply M_bind_Ok in E6 as (md&?&[Hmd ->]%lift_Ok&E6).
  apply M_bind_Ok in E6 as ([]&?&[Hms%Z.ltb_ge ->]%fail_if_Ok&E6).
  apply (write_private_Ok (view s2)) in E6 as [He6 Hf6]; [|by apply Hlk; set_solver|done].
  eapply publish_staging_Ok in E7 as (->&Hmv&Helse); [|done..]. cbn [app] in *.
  assert (Hkeep : forall name x, name <> "manifest.json" -> file_at (view s2) (D ++ [name]) = Some x ->
    file_at (view s7) ((k ++ [d]) ++ [name]) = Some x).
  { intros name x Hn Hx. rewrite Hmv. apply (except_file _ _ _ _ _ He6); [by apply entries_apart|done]. }
  apply (except_file _ _ _ (D ++ ["events.jsonl"]) eb He2) in Hf1; [|by apply entries_apart].
  exists executable, artifacts, (digest_parts [sb; cb; eb; ab]). split; [done|].
  constructor; cbn [mf_artifacts mf_semantic_outcome_sha256 run_manifest].
  - exists eb. split_and!; [done|done|by apply Hkeep].
  - exists ab. split_and!; [done|done|by apply Hkeep].
  - exists md. split_and!; [done|done|]. by rewrite Hmv.
  - intros name Hname. assert (exists x, file_at (view s2) (D ++ [name]) = Some x) as [x Hx].
    { apply elem_of_cons in Hname as [->|Hname]; [by exists sb|].
      apply list_elem_of_singleton in Hname as ->. by exists cb. }
    exists x. split; [|apply Hkeep; [|done]; set_solver].
    apply (except_file _ _ _ _ _ He1); [apply entries_apart; set_solver|].
    apply (except_file _ _ _ _ _ He2); [apply entries_apart; set_solver|done].
  - intros name digest Hd'. eapply artifact_moved; [exact Hmv|].
    eapply artifact_kept; [exact He6| |by apply Hart].
    eapply (artifact_names_apart _ _ (bool_decide (is_Some outcome.(ro_workload)))).
    assert (is_Some (artifacts !! name)) as [?|[? Hn]]%Hnames by eauto; [done|].
    by rewrite lookup_empty in Hn.
  - intros name. rewrite Hnames lookup_empty. split; [|by left]. by intros [|[]].
  - intros q Hq1 Hq2. assert (Hin : forall name, ~ (D ++ [name]) `prefix_of` q).
    { intros name Hp'. apply Hq1. etrans; [|exact Hp']. by apply prefix_app_r. }
    by rewrite (Helse q Hq1 Hq2) (He6 q (Hin _)) (He2 q (Hin _)) (He1 q (Hin _)).
  - intros sb' cb' eb' ab'. rewrite (Hkeep "scenario.toml" sb) // (Hkeep "choices.json" cb) //
      (Hkeep "events.jsonl" eb) // (Hkeep "assertions.json" ab) //. by intros [= ->] [= ->] [= ->] [= ->].
  - intros name data Hn Hf. rewrite !not_elem_of_cons in Hn. destruct Hn as (Hn1&Hn2&Hn3&_).
    apply Hkeep; [done|]. apply (except_file _ _ _ _ _ He2); [by apply entries_apart|].
    by apply (except_file _ _ _ _ _ He1); [apply entries_apart|].
Qed.

(** ** The published directory is described by its manifest *)

(** What the identities of an outcome satisfy when the attempt built them: the
    digests are digests, and the launch of a workload was validated. *)
Record outcome_wf (outcome : RecordOutcome) : Prop := {
  ow_executable : valid_sha256 outcome.(ro_executable_sha256) = true;
  ow_initramfs : valid_sha256 outcome.(ro_identity).(initramfs_sha256) = true;
  ow_workload : forall w, outcome.(ro_workload) = Some w ->
    valid_sha256 w.(wi_closure_sha256) = true /\ valid_sha256 w.(wi_canonical_digest) = true /\
    valid_sha256 w.(wi_template_sha256) = true /\ validate_launch_identity w.(wi_launch) = Ok tt;
}.

Lemma run_manifest_valid nanos seed executable outcome semantic artifacts k :
  outcome_wf outcome -> valid_sha256 semantic = true ->
  validate_manifest (k ++ [new_run_id nanos seed])
    (run_manifest (new_run_id nanos seed) seed executable outcome semantic artifacts) = Ok tt.
Proof.
  intros [He Hi Hw] Hs. unfold validate_manifest. cbn [run_manifest mf_version mf_run_id
    mf_simferret_version mf_initial_state_sha256 mf_vm mf_simferret_sha256
    mf_semantic_outcome_sha256 mf_workload]. rewrite Z.eqb_refl valid_new_run_id last_snoc.
  rewrite !bool_decide_eq_true_2 //. cbn [negb forallb]. rewrite He Hi Hs. cbn.
  destruct (ro_workload outcome) as [w|]; [|done].
  destruct (Hw w eq_refl) as (->&->&->&->). done.
Qed.

Lemma published_described n d n' nanos seed executable outcome semantic artifacts k :
  outcome_wf outcome -> valid_sha256 semantic = true ->
  let manifest := run_manifest (new_run_id nanos seed) seed executable outcome semantic artifacts in
  published n d n' (k ++ [new_run_id nanos seed]) outcome manifest ->
  described n' (k ++ [new_run_id nanos seed]) manifest.
Proof.
  intros Hwf Hs manifest [_ _ (md&Hmd&Hms&Hf) _ Ha Hn _ _].
  assert (Hnames : forall name, name ∈ artifact_names false -> is_Some (artifacts !! name)).
  { intros name Hname. apply Hn. unfold artifact_names in *. rewrite app_nil_r in Hname.
    apply elem_of_app. by left. }
  constructor.
  - exists md. rewrite join_name; [|by vm_compute; set_solver].
    split_and!; [done..|]. by eapply json_bytes_read.
  - by apply run_manifest_valid.
  - unfold artifact_set_ok. apply andb_true_iff. split; apply forallb_forall.
    + intros name Hname%list_elem_of_In. apply bool_decide_eq_true, Hnames.
      unfold artifact_names. by rewrite app_nil_r.
    + intros [name digest] Hin%list_elem_of_In%btree_iter_elem. cbn [fst].
      assert (Hname : is_Some (mf_artifacts manifest !! name)) by eauto.
      apply Hn in Hname. unfold artifact_names in Hname. apply orb_true_iff.
      apply elem_of_app in Hname as [Hname|Hname]; [right; by apply bool_decide_eq_true|].
      left. apply bool_decide_eq_true. destruct (bool_decide _) in Hname; [|by apply elem_of_nil in Hname].
      by apply list_elem_of_singleton in Hname.
  - done.
  - intros name digest Hd. apply Ha in Hd as (data&_&_&->). apply valid_sha256_bytes.
  - cbn [manifest run_manifest mf_workload mf_artifacts]. rewrite (Hn WORKLOAD_LOCK_PATH).
    unfold artifact_names. rewrite elem_of_app. split.
    + intros Hw. right. rewrite bool_decide_eq_true_2 //. by apply list_elem_of_singleton.
    + intros [Hbad|Hl]; [by vm_compute in Hbad; set_solver|].
      destruct (bool_decide _) eqn:E in Hl; [by apply bool_decide_eq_true in E|by apply elem_of_nil in Hl].
Qed.
End publication.
