(* ===== verification/RunFrames.v ===== *)
(** What the calls of a recording leave alone: each changes the entry it names and
    nothing else.  From it, that preparing, launching and ending a recording does
    not disturb the files the publication reads. *)

From stdpp Require Import ssreflect.
From Stdlib Require Import Strings.Byte.
From S2P Require Import Prelude Types Std Protocol Scenario Assertions Tree Spec Oci Checker Fixture Effects Vm Driver Identity Root Store StoreFiles StoreSafe RunFiles Image RunBase Text Sanitize Failure Artifacts Recording Replay Preflight Publication.

(** ** The calls *)

(** Documented behaviour of the calls of [RunFs]. *)
Class RunFrames (S : Type) `{FsView S} `{HostFs S} `{!RunFs S} := {
  open_frame p s : view (rf_open p s).2 = view s;
  lstat_frame p s : view (rf_lstat p s).2 = view s;
  exists_frame p s : view (rf_exists p s).2 = view s;
  canonicalize_frame p s : view (rf_canonicalize p s).2 = view s;
  image_counter_frame s : view (rf_image_counter s).2 = view s;
  runtime_counter_frame s : view (rf_runtime_counter s).2 = view s;
  fixture_frame p s : view (rf_fixture_directory p s).2 = view s;
  (** paths are canonical already *)
  canonicalize_same p s q : (rf_canonicalize p s).1 = inl q -> q = p;
  mkdirs_frame p s q : ~ q `prefix_of` p -> label_at (view (rf_create_dir_all p s).2) q = label_at (view s) q;
  mkdir_law p c mode s o s' : rf_create_dir (p ++ [c]) mode s = (o, s') ->
    (o <> None /\ view s' = view s) \/
    (o = None /\ node_at (view s) (p ++ [c]) = None /\ is_dir (node_at (view s) p) = true /\
     exists owner mode', view s' = add_entry (view s) p c (NDir owner mode' ∅));
  chmod_frame p mode s q : ~ p `prefix_of` q -> label_at (view (rf_chmod p mode s).2) q = label_at (view s) q;
  remove_frame p s q : ~ p `prefix_of` q -> label_at (view (rf_remove_dir_all p s).2) q = label_at (view s) q;
  write_frame h data s q : ~ h `prefix_of` q -> label_at (view (fs_write_sync h data s).2) q = label_at (view s) q;
}.

(** A machine of the program writes the files of its configuration, and states the
    digest of its initial state.  The files of a run's configuration bear these
    names. *)
Definition MACHINE_FILES : list string := ["replay.bin"; "qmp.sock"; "serial.log"; "qemu.log"].
Definition machine_path (q : Handle) : Prop := exists name, name ∈ MACHINE_FILES /\ name ∈ q.

Definition machine_config (config : RecordConfig) : Prop :=
  Forall (fun path => exists h name, path = h ++ [name] /\ name ∈ MACHINE_FILES)
    [config.(rc_replay_log); config.(rc_qmp_socket); config.(rc_serial_log); config.(rc_qemu_log)].

Class MachineFrames (S V : Type) `{FsView S} `{VmAdapter S V} := {
  launch_frame config s q : machine_config config -> ~ machine_path q ->
    label_at (view (launch_record config s).2) q = label_at (view s) q;
  wait_frame vm s q : ~ machine_path q -> label_at (view (vm_wait vm s).2) q = label_at (view s) q;
  drop_frame vm s q : ~ machine_path q -> label_at (view (vm_drop vm s)) q = label_at (view s) q;
  launch_identity config s vm : (launch_record config s).1 = inl vm ->
    valid_sha256 (vm_identity vm).(initramfs_sha256) = true;
}.

(** ** Computations that leave paths alone *)

Section leaves.
Context {S : Type} `{FsView S} (W : Handle -> Prop).

Definition leaves {A} (m : M S A) : Prop := forall s r s', m s = Some (r, s') ->
  forall q, W q -> label_at (view s') q = label_at (view s) q.

Lemma leaves_ret {A} (a : A) : leaves (mret a).
Proof. by intros s r s' [= <- <-]. Qed.
Lemma leaves_throw {A} e : leaves (throw e : M S A).
Proof. by intros s r s' [= <- <-]. Qed.
Lemma leaves_lift {A} (r : result A) : leaves (lift r).
Proof. by intros s r' s' [= <- <-]. Qed.
Lemma leaves_fail_if b e : leaves (fail_if b e).
Proof. destruct b; [apply leaves_throw|apply leaves_ret]. Qed.
Lemma leaves_unwrap {A} (o : option A) : leaves (unwrap o).
Proof. destruct o; [apply leaves_ret|by intros s r s']. Qed.
Lemma leaves_or_io o : leaves (or_io o).
Proof. destruct o; [apply leaves_throw|apply leaves_ret]. Qed.
Lemma leaves_or_other {A} (r : A + io_error) : leaves (or_other r).
Proof. destruct r; [apply leaves_ret|apply leaves_throw]. Qed.
Lemma leaves_or_errno `{HostFs S} {A} (r : A + Errno) : leaves (or_errno r).
Proof. destruct r; [apply leaves_ret|apply leaves_throw]. Qed.
Lemma leaves_bind {A B} (m : M S A) (k : A -> M S B) :
  leaves m -> (forall a, leaves (k a)) -> leaves (m ≫= k).
Proof.
  intros Hm Hk s r s'. unfold mbind, M_bind.
  destruct (m s) as [[[a|e] s1]|] eqn:E; [| |done].
  - intros E' q Hq. rewrite (Hk a _ _ _ E' q Hq). by eapply Hm.
  - intros [= <- <-]. by eapply Hm.
Qed.
(** What a computation that returned a value returns. *)
Definition gives {A} (m : M S A) (P : A -> Prop) : Prop := forall s a s', m s = Some (Ok a, s') -> P a.
Lemma leaves_bind_gives {A B} (m : M S A) (k : A -> M S B) P :
  leaves m -> gives m P -> (forall a, P a -> leaves (k a)) -> leaves (m ≫= k).
Proof.
  intros Hm Hp Hk s r s'. unfold mbind, M_bind.
  destruct (m s) as [[[a|e] s1]|] eqn:E; [| |done].
  - intros E' q Hq. rewrite (Hk a (Hp _ _ _ E) _ _ _ E' q Hq). by eapply Hm.
  - intros [= <- <-]. by eapply Hm.
Qed.
Lemma gives_bind {A B} (m : M S A) (k : A -> M S B) P :
  (forall a, gives (k a) P) -> gives (m ≫= k) P.
Proof. intros Hk s b s' (a&s1&_&E)%M_bind_Ok. by eapply Hk. Qed.
Lemma leaves_call {A} (f : S -> A * S) :
  (forall s q, W q -> label_at (view (f s).2) q = label_at (view s) q) -> leaves (call f).
Proof.
  intros Hf s r s'. specialize (Hf s). unfold call. destruct (f s) as [a s1]. intros [= <- <-]. done.
Qed.
Lemma leaves_view {A} (f : S -> A * S) : (forall s, view (f s).2 = view s) -> leaves (call f).
Proof. intros Hf. apply leaves_call. intros s q _. by rewrite Hf. Qed.
Lemma leaves_if {A} (b : bool) (m m' : M S A) : leaves m -> leaves m' -> leaves (if b then m else m').
Proof. by destruct b. Qed.
End leaves.

Create HintDb leaves discriminated.
#[export] Hint Resolve leaves_ret leaves_throw leaves_lift leaves_fail_if leaves_unwrap leaves_or_io
  leaves_or_other leaves_or_errno : leaves.
Ltac solve_leaves := repeat first
  [ solve [auto with leaves]
  | apply leaves_bind; [|intros ?]
  | apply leaves_if
  | match goal with |- leaves _ (match ?x with _ => _ end) => destruct x end ].

(** Two trees that agree on the watched paths. *)
Lemma add_entry_apart n h c child q : is_dir (node_at n h) = true ->
  ~ (h ++ [c]) `prefix_of` q -> label_at (add_entry n h c child) q = label_at n q.
Proof. intros Hd Hq%below_None_prefix. by rewrite label_add // Hq. Qed.
Lemma remove_entry_apart n h c q : is_dir (node_at n h) = true ->
  ~ (h ++ [c]) `prefix_of` q -> label_at (remove_entry n h c) q = label_at n q.
Proof. intros Hd Hq%below_None_prefix. by rewrite label_remove // Hq. Qed.

Section frames.
Context {S : Type} `{FsLaws S} `{!RunFs S} `{!RunFrames S} `{Sha256} `{DebugStr}.
Context (W : Handle -> Prop).
#[local] Set Default Proof Using "All".

Lemma call_view {R} (f : S -> (R + Errno) * S) (ok : Node -> R + Errno -> Node -> Prop) :
  (forall s r s', f s = (r, s') -> does s s' r (ok (view s))) ->
  (forall n r n', ok n r n' -> n' = n) -> forall s, view (f s).2 = view s.
Proof.
  intros Hf Hok s. destruct (f s) as [r s'] eqn:E. cbn.
  destruct (Hf _ _ _ E) as [_ [Hr|(_&->)]]; [by eapply Hok|done].
Qed.
Lemma open_file_view h c s : view (fs_open_file h c s).2 = view s.
Proof. apply (call_view _ (fun n => open_file_does n h c)); [apply open_file_law|by intros ??? []]. Qed.
Lemma fstat_view h s : view (fs_fstat h s).2 = view s.
Proof. apply (call_view _ (fun n => fstat_does n h)); [apply fstat_law|by intros ??? []]. Qed.
Lemma read_view h s : view (fs_read h s).2 = view s.
Proof.
  destruct (fs_read h s) as [r s'] eqn:E. cbn. by destruct (read_law _ _ _ _ E) as [[Hv _] _].
Qed.
Lemma read_file_view p s `{!RunFsLaws S} : view (rf_read p s).2 = view s.
Proof. destruct (rf_read p s) as [r s'] eqn:E. by destruct (rf_read_law _ _ _ _ E). Qed.

Lemma create_excl_frame h c mode s q : ~ (h ++ [c]) `prefix_of` q ->
  label_at (view (fs_create_excl h c mode s).2) q = label_at (view s) q.
Proof.
  intros Hq. destruct (fs_create_excl h c mode s) as [r s'] eqn:E. cbn.
  apply create_law in E as [_ [Hr|[_ ->]]]; [|done]. unfold creates in Hr.
  destruct (node_at (view s) (h ++ [c])); [by destruct Hr as [_ ->]|].
  destruct (is_dir (node_at (view s) h)) eqn:Ed; destruct Hr as [_ ->]; [|done]. by apply add_entry_apart.
Qed.
Lemma unlink_frame h c dir s q : ~ (h ++ [c]) `prefix_of` q ->
  label_at (view (fs_unlinkat h c dir s).2) q = label_at (view s) q.
Proof.
  intros Hq. destruct (fs_unlinkat h c dir s) as [r s'] eqn:E. cbn.
  apply unlink_law in E as [_ [Hr|[_ ->]]]; [|done]. unfold unlink_does in Hr.
  destruct (node_at (view s) (h ++ [c])) as [m|] eqn:Hm; [|by destruct Hr as [_ ->]].
  destruct (if dir then _ else _); destruct Hr as [_ ->]; [|done].
  apply remove_entry_apart; [by eapply node_at_parent|done].
Qed.
Lemma rename_frame h c k d b s q : ~ (h ++ [c]) `prefix_of` q -> ~ (k ++ [d]) `prefix_of` q ->
  label_at (view (fs_renameat h c k d b s).2) q = label_at (view s) q.
Proof.
  intros Hq1 Hq2. destruct (fs_renameat h c k d b s) as [r s'] eqn:E. cbn.
  apply rename_law in E as [_ [Hr|[_ ->]]]; [|done]. unfold rename_does in Hr.
  destruct (node_at (view s) (h ++ [c])) as [source|] eqn:Hsrc; [|by destruct Hr as [_ ->]].
  case_bool_decide as Hpre; [by destruct Hr as [_ ->]|].
  destruct (b && _); [by destruct Hr as [_ ->]|].
  destruct (replaces _ _ && _) eqn:Hrep; destruct Hr as [_ ->]; [|done].
  apply andb_true_iff in Hrep as [_ Hk]. pose proof (node_at_parent _ _ _ _ Hsrc) as Hh.
  rewrite add_entry_apart //; [by apply remove_entry_apart|].
  rewrite -is_dir_label. change (is_dir (label_at (remove_entry (view s) h c) k) = true).
  rewrite remove_entry_apart //. by rewrite -dir_at_node in Hk.
Qed.

Lemma mkdir_frame p c mode s q : ~ (p ++ [c]) `prefix_of` q ->
  label_at (view (rf_create_dir (p ++ [c]) mode s).2) q = label_at (view s) q.
Proof.
  intros Hq. destruct (rf_create_dir (p ++ [c]) mode s) as [o s'] eqn:E. cbn.
  apply mkdir_law in E as [[_ ->]|(_&_&Hd&owner&mode'&->)]; [done|]. by apply add_entry_apart.
Qed.

Lemma leaves_open_path p : leaves W (open_path p : M S Handle).
Proof.
  unfold open_path. apply leaves_bind; [apply leaves_view, open_file_view|]. intros r. apply leaves_or_errno.
Qed.
Lemma leaves_fstat fd : leaves W (fstat fd : M S Stat).
Proof.
  unfold fstat. apply leaves_bind; [apply leaves_view, fstat_view|]. intros r.
  destruct r; [apply leaves_ret|apply leaves_throw].
Qed.
Lemma leaves_read fd : leaves W (call (fs_read fd)).
Proof. apply leaves_view, read_view. Qed.
Hint Resolve leaves_open_path leaves_fstat leaves_read : leaves.

Lemma leaves_open_regular p limit : leaves W (open_regular_file p limit : M S Handle).
Proof. unfold open_regular_file. solve_leaves. Qed.
Hint Resolve leaves_open_regular : leaves.
Lemma leaves_sha256_regular p limit : leaves W (sha256_regular_file p limit : M S string).
Proof. unfold sha256_regular_file. solve_leaves. Qed.
Lemma leaves_canonicalize p : leaves W (call (rf_canonicalize p)).
Proof. apply leaves_view, canonicalize_frame. Qed.
Lemma leaves_lstat p : leaves W (call (rf_lstat p)).
Proof. apply leaves_view, lstat_frame. Qed.
Lemma leaves_exists p : leaves W (call (rf_exists p)).
Proof. apply leaves_view, exists_frame. Qed.
Lemma leaves_read_source p : leaves W (read_source p : M S bytes).
Proof.
  unfold read_source. apply leaves_bind; [apply leaves_view, open_frame|]. intros r. solve_leaves.
Qed.
Hint Resolve leaves_sha256_regular leaves_canonicalize leaves_lstat leaves_exists : leaves.

Lemma leaves_create_private_dir p c : (forall q, W q -> ~ (p ++ [c]) `prefix_of` q) ->
  leaves W (create_private_dir (p ++ [c]) : M S unit).
Proof.
  intros Hp. unfold create_private_dir. apply leaves_bind; [|intros o; apply leaves_or_io].
  apply leaves_call. intros s q Hq. apply mkdir_frame. by apply Hp.
Qed.

(** *** The image cache *)

Section cache.
Context `{Gzip} `{!RunFsLaws S} (runs : Handle).
Context (Hcache : forall q, W q -> ~ (runs ++ [".images"]) `prefix_of` q).
Context (Hruns : forall q, W q -> ~ q `prefix_of` runs).

Lemma image_apart name q : W q -> ~ ((runs ++ [".images"]) ++ [name]) `prefix_of` q.
Proof. intros Hq Hp. apply (Hcache q Hq). etrans; [|exact Hp]. by apply prefix_app_r. Qed.

Lemma leaves_private_cache p mode dir : (forall q, W q -> ~ p `prefix_of` q) ->
  leaves W (require_private_cache p mode dir : M S unit).
Proof.
  intros Hp. unfold require_private_cache. solve_leaves.
  apply leaves_call. intros s q Hq. apply chmod_frame. by apply Hp.
Qed.
Lemma leaves_verify_image name compressed digest message :
  leaves W (verify_image ((runs ++ [".images"]) ++ [name]) compressed digest message : M S unit).
Proof.
  unfold verify_image. apply leaves_bind; [|intros _; solve_leaves].
  apply leaves_private_cache. intros q Hq. by apply image_apart.
Qed.
Lemma leaves_store_image name compressed digest :
  leaves W (store_image (runs ++ [".images"]) ((runs ++ [".images"]) ++ [name]) compressed digest : M S unit).
Proof.
  unfold store_image. rewrite parent_of_snoc name_of_snoc.
  apply leaves_bind; [apply leaves_view, image_counter_frame|]. intros counter.
  set (temporary := "." +:+ _).
  assert (Hunlink : leaves W (call (fs_unlinkat (S := S) (runs ++ [".images"]) temporary false))).
  { apply leaves_call. intros s q Hq. apply unlink_frame. by apply image_apart. }
  apply (leaves_bind_gives _ _ _ (fun created => forall fd, created = inl fd ->
    fd = (runs ++ [".images"]) ++ [temporary])).
  { apply leaves_call. intros s q Hq. apply create_excl_frame. by apply image_apart. }
  { intros s a s'. unfold call. destruct (fs_create_excl _ _ _ s) as [r s1] eqn:E.
    intros [= <- <-] fd ->. apply create_law in E as [_ [Hc|[[? [[=] _]] _]]]. unfold creates in Hc.
    destruct (node_at _ _); [by destruct Hc|]. destruct (is_dir _); destruct Hc as [Hc _]; by simplify_eq. }
  intros created Hfd. apply (leaves_bind_gives _ _ _ (fun fd => created = inl fd));
    [apply leaves_or_errno|by destruct created; [intros s a s' [= <- _]|intros ???]|].
  intros fd ->. rewrite (Hfd fd eq_refl).
  apply leaves_bind; [|intros written].
  { apply leaves_call. intros s q Hq. apply write_frame. by apply image_apart. }
  destruct written as [e|]; [apply leaves_bind; [done|intros; apply leaves_throw]|].
  apply leaves_bind; [|intros renamed].
  { apply leaves_call. intros s q Hq. apply rename_frame; by apply image_apart. }
  destruct renamed as [[]|e]; [apply leaves_verify_image|].
  apply leaves_bind; [apply leaves_exists|intros present]. apply leaves_if; [|apply leaves_throw].
  apply leaves_bind; [done|intros]. apply leaves_verify_image.
Qed.

Lemma leaves_create_cache : leaves W (create_cache (runs ++ [".images"]) : M S unit).
Proof.
  unfold create_cache. apply leaves_bind; [|intros o; solve_leaves].
  apply leaves_call. intros s q Hq. apply mkdir_frame. by apply Hcache.
Qed.
Lemma leaves_own_cache : leaves W (require_private_cache (runs ++ [".images"]) 448 true : M S unit).
Proof. by apply leaves_private_cache. Qed.

Lemma leaves_build_image executable assets template :
  leaves W (build_guest_image executable runs assets template : M S GuestImage).
Proof.
  unfold build_guest_image, read_whole.
  apply leaves_bind; [apply leaves_bind; [apply leaves_view; intros; by apply read_file_view|solve_leaves]|].
  intros data.
  assert (Hmk : leaves W (call (rf_create_dir_all (S := S) runs))).
  { apply leaves_call. intros s q Hq. apply mkdirs_frame. by apply Hruns. }
  pose proof leaves_create_cache as Hcc. pose proof leaves_verify_image as Hv.
  pose proof leaves_store_image as Hst. pose proof leaves_own_cache as Hown. solve_leaves.
Qed.
End cache.

(** *** The machine *)

Section machine.
Context {V : Type} `{HVA : VmAdapter S V} `{!MachineFrames S V}.
Context (Hmachine : forall q, W q -> ~ machine_path q).

Lemma leaves_launch config : machine_config config ->
  leaves W (call (launch_record (S := S) (V := V) config)).
Proof. intros Hc. apply leaves_call. intros s q Hq. apply launch_frame; [exact Hc|by apply Hmachine]. Qed.
Lemma leaves_wait vm what : leaves W (wait_for vm what : M S unit).
Proof.
  unfold wait_for. apply leaves_bind; [|intros; solve_leaves].
  apply leaves_call. intros s q Hq. apply wait_frame. by apply Hmachine.
Qed.
Lemma leaves_drop vm : leaves W (drop_machine vm : M S unit).
Proof. apply leaves_call. intros s q Hq. apply drop_frame. by apply Hmachine. Qed.
End machine.
End frames.

Lemma build_image_digest {S} `{RunFs S} `{Sha256} `{Gzip} executable runs assets template :
  gives (build_guest_image executable runs assets template : M S GuestImage) (fun image =>
    exists data, image.(gi_executable_sha256) = sha256_bytes data).
Proof.
  unfold build_guest_image. apply gives_bind. intros data.
  repeat (apply gives_bind; intros ?). intros s image s' [= <- _]. by exists data.
Qed.
