(* ===== verification/RunSample.v ===== *)
(** The paths of [RunFiles.RunFs] on the filesystem in memory, and a recorded run
    in it: the inputs on which the theorems about runs are evaluated. *)

From stdpp Require Import ssreflect.
From Stdlib Require Import Strings.Byte.
From S2P Require Import Prelude Types Std Protocol Scenario Assertions Tree Fixture Effects Vm Driver NetworkRun GuestRun EndToEnd Identity Root MemFs RunFiles Artifacts Publication.

Definition mem_io {A} (o : option A) : A + io_error :=
  match o with Some a => inl a | None => inr io_failure end.

Definition mem_reads {A} (f : Node -> option A) (s : Mem) : (A + io_error) * Mem :=
  match spend s with
  | Some s => (mem_io (f s.(mem_tree)), s)
  | None => (inr io_failure, s)
  end.

(** A change of the tree, or a failure that changes nothing. *)
Definition mem_changes (f : Node -> option Node) (s : Mem) : option io_error * Mem :=
  match spend s with
  | Some s =>
      match f s.(mem_tree) with
      | Some n => (None, with_tree s n)
      | None => (Some io_failure, s)
      end
  | None => (Some io_failure, s)
  end.

Definition node_file (n : Node) (path : Handle) : option bytes :=
  match node_at n path with Some (NFile _ _ data) => Some data | _ => None end.

Definition mem_put (path : Handle) (mode : Z) (data : bytes) (n : Node) : option Node :=
  let h := parent_of path in let c := name_of path in
  if bool_decide (path = []) then None
  else if is_dir (node_at n h) && replaceable (node_at n path) then
    Some (add_entry n h c (NFile 1000 (Z.land mode (Z.lnot 18)) data))
  else None.

Definition mem_mkdir (mode : Z) (path : Handle) (n : Node) : option Node :=
  match mem_create (parent_of path) (name_of path) (NDir 1000 (Z.land mode (Z.lnot 18)) ∅) tt n with
  | (inl _, n) => Some n
  | (inr _, _) => None
  end.

Definition mem_chmod (path : Handle) (mode : Z) (n : Node) : option Node :=
  match node_at n path with
  | Some (NFile owner _ data) => Some (add_entry n (parent_of path) (name_of path) (NFile owner mode data))
  | Some (NDir owner _ entries) => Some (add_entry n (parent_of path) (name_of path) (NDir owner mode entries))
  | _ => None
  end.

(** [create_dir_all] of a path whose components are made one by one. *)
Fixpoint mem_mkdirs (made rest : Handle) (n : Node) : option Node :=
  match rest with
  | [] => Some n
  | c :: rest =>
      if is_dir (node_at n (made ++ [c])) then mem_mkdirs (made ++ [c]) rest n
      else n ← mem_mkdir 511 (made ++ [c]) n; mem_mkdirs (made ++ [c]) rest n
  end.

Definition mem_directory (n : Node) (path : Handle) : option DirectoryHandle :=
  match node_at n path with
  | Some (NDir _ _ entries) => Some {|
      dir_opened := Ok tt;
      dir_stream := map (fun kv => Ok (as_bytes kv.1)) (map_to_list entries);
      dir_openat name :=
        match node_file n (path ++ [name]) with
        | Some data => Ok {| file_metadata := Ok (true, zlen data); file_contents := Ok data |}
        | None => Err io_failure
        end |}
  | _ => None
  end.

Definition count_call (s : Mem) : Z * Mem :=
  (s.(mem_count), {| mem_tree := s.(mem_tree); mem_count := s.(mem_count) + 1;
                     mem_budget := s.(mem_budget) |}).

Section fs.
Context (pid : Z) (name : string).
#[local] Instance named_fs : HostFs Mem := mem_fs pid name.
#[local] Existing Instance mem_view.
#[local] Instance named_laws : FsLaws Mem := mem_laws pid name.

Definition mem_run : RunFs Mem := {|
  rf_read path := mem_reads (fun n => node_file n path);
  rf_put path mode data := mem_changes (mem_put path mode data);
  rf_open path := mem_reads (fun n => (fun _ => path) <$> node_at n path);
  rf_create_dir_all path := mem_changes (mem_mkdirs [] path);
  rf_create_dir path mode := mem_changes (mem_mkdir mode path);
  rf_lstat path := mem_reads (fun n => stat_of <$> node_at n path);
  rf_chmod path mode := mem_changes (mem_chmod path mode);
  rf_exists path s := (bool_decide (is_Some (node_at s.(mem_tree) path)), s);
  rf_canonicalize path := mem_reads (fun n => (fun _ => path) <$> node_at n path);
  rf_image_counter := count_call;
  rf_runtime_counter := count_call;
  rf_remove_dir_all path := mem_changes (fun n =>
    _ ← node_at n path; Some (remove_entry n (parent_of path) (name_of path)));
  rf_append path data := mem_changes (fun n =>
    match node_at n path with
    | Some (NFile owner mode written) =>
        Some (add_entry n (parent_of path) (name_of path) (NFile owner mode (written ++ data)))
    | _ => None
    end);
  rf_sync path := mem_changes Some;
  rf_size path := mem_reads (fun n => zlen <$> node_file n path);
  rf_read_from path start := mem_reads (fun n =>
    (fun data => match drop (Z.to_nat start) data with [] => [] | rest => [inl rest] end) <$> node_file n path);
  rf_fixture_directory path := mem_reads (fun n => mem_directory n path);
|}.
#[local] Existing Instance mem_run.

Lemma node_file_at n path : node_file n path = file_at n path.
Proof. unfold node_file, file_at, label_at. by destruct (node_at n path) as [[]|]. Qed.

#[local] Instance mem_run_laws : RunFsLaws Mem.
Proof.
  split.
  - intros path s r s'. cbn. unfold mem_reads. destruct (spend s) as [s1|] eqn:E; intros [= <- <-].
    + destruct (spend_Some _ _ E) as [Hn Hr]. cbn. rewrite -Hn node_file_at. split_and!; [done| |].
      * intros _ data. by destruct (file_at _ path); intros [= <-].
      * intros Hrel. split; [by apply Hr|]. by intros data ->.
    + split_and!; [done|done|]. by intros ?%(spend_None _ E).
  - intros h c mode data s o s'. cbn. unfold mem_changes.
    destruct (spend s) as [s1|] eqn:E.
    2: { intros [= <- <-] _. split; [by right|]. by intros ?%(spend_None _ E). }
    destruct (spend_Some _ _ E) as [Hn Hr]. cbn. rewrite -Hn. unfold mem_put.
    rewrite parent_of_snoc name_of_snoc bool_decide_eq_false_2; [|by destruct h].
    destruct (is_dir _) eqn:Ed; cbn [andb]; [destruct (replaceable _) eqn:Ep|];
      intros [= <- <-] _; (split; [|intros Hrel; split; [by apply Hr|done]]).
    + left. split_and!; [done..|]. by do 3 eexists.
    + by right.
    + by right.
Qed.
End fs.

(** A codec of pretty text: one letter per value of a table, and a line feed. *)
Definition pretty_serde {T} `{EqDecision T} (table : list T) : Serde T := {|
  to_vec := to_vec (Serde := table_serde table);
  from_slice data :=
    from_slice (Serde := table_serde table)
      (if bool_decide (list.last data = Some NEWLINE) then removelast data else data) |}.
Definition pretty_text {T} `{EqDecision T} (table : list T) : SerdePretty T :=
  {| to_vec_pretty := to_vec (Serde := table_serde table) |}.

Lemma pretty_laws {T} `{EqDecision T} (table : list T) :
  @SerdePrettyLaws T (pretty_serde table) (pretty_text table).
Proof.
  constructor. intros v body Hv. cbn [pretty_serde from_slice].
  rewrite last_snoc bool_decide_eq_true_2 // removelast_last. by apply (table_serde_laws all_readable).
Qed.

(** ** A recorded run *)

#[local] Existing Instance toy_sha256.

Definition recorded_id : string := new_run_id 1000 11.
Definition recorded_source : bytes := as_bytes "small".
Definition recorded_toml (text : string) : Scenario + TomlError :=
  if bool_decide (text = "small") then inl small_scenario
  else inr {| span := None |}.
Definition recorded_report : AssertionReport := planned_report small_scenario small_plan.
Definition recorded_events : list NormalizedEvent := map normalize small_frames.
Definition recorded_vm : VmIdentity := {|
  qemu := {| file_path := "/qemu"; file_sha256 := sha256_bytes [] |}; qemu_version := "1";
  kernel := {| file_path := "/kernel"; file_sha256 := sha256_bytes [] |};
  initramfs_sha256 := sha256_bytes (as_bytes "image"); machine := "pc"; cpu := "max";
  memory_mib := 512; vcpus := 1; accelerator := "tcg"; firmware := []; devices := [];
  vm_network := None |}.
Definition recorded_outcome : RecordOutcome := {|
  ro_scenario_name := "small"; ro_executable_sha256 := sha256_bytes (as_bytes "simferret");
  ro_identity := recorded_vm; ro_events := recorded_events; ro_assertions := recorded_report;
  ro_workload := None |}.

#[local] Instance recorded_event_serde : Serde NormalizedEvent := table_serde recorded_events.
#[local] Instance recorded_report_serde : Serde AssertionReport := pretty_serde [recorded_report].
#[local] Instance recorded_report_text : SerdePretty AssertionReport := pretty_text [recorded_report].
#[local] Instance recorded_plan_serde : Serde ChoicePlan := pretty_serde [small_plan].
#[local] Instance recorded_plan_text : SerdePretty ChoicePlan := pretty_text [small_plan].

Definition or_empty (r : result bytes) : bytes := match r with Ok data => data | Err _ => [] end.
Definition recorded_files : list (string * bytes) :=
  [("scenario.toml", recorded_source); ("choices.json", or_empty (json_bytes small_plan));
   ("replay.bin", as_bytes "log"); ("events.jsonl", or_empty (encode_events recorded_events));
   ("assertions.json", or_empty (json_bytes recorded_report));
   ("logs/qemu.log", as_bytes "q"); ("logs/serial.log", as_bytes "s")].
Definition recorded_semantic : string :=
  digest_parts [recorded_source; or_empty (json_bytes small_plan);
    or_empty (encode_events recorded_events); or_empty (json_bytes recorded_report)].
Definition recorded_manifest : Manifest :=
  run_manifest recorded_id 11 "/simferret" recorded_outcome recorded_semantic
    (list_to_map (map (fun f => (f.1, sha256_bytes f.2)) recorded_files)).

#[local] Instance recorded_manifest_serde : Serde Manifest := pretty_serde [recorded_manifest].
#[local] Instance recorded_manifest_text : SerdePretty Manifest := pretty_text [recorded_manifest].

(** The staging directory as the attempt leaves it before the publication. *)
Definition plain_file (data : bytes) : Node := NFile 1000 384 data.
Definition staged_run : Node :=
  NDir 1000 448 {[
    "runs" := NDir 1000 448 {[
      ".run" := NDir 1000 448 (list_to_map [
        ("scenario.toml", plain_file recorded_source);
        ("choices.json", plain_file (or_empty (json_bytes small_plan)));
        ("replay.bin", plain_file (as_bytes "log"));
        ("logs", NDir 1000 448 (list_to_map [
          ("qemu.log", plain_file (as_bytes "q")); ("serial.log", plain_file (as_bytes "s"))]))])]}]}.
Definition staged_host : Mem := {| mem_tree := staged_run; mem_count := 0; mem_budget := None |}.
Definition recorded_staging : StagingDirectory :=
  {| sd_path := ["runs"; ".run"]; sd_destination := ["runs"; recorded_id] |}.

#[local] Instance run_fs : HostFs Mem := mem_fs 7 "runs".
#[local] Instance run_paths : RunFs Mem := mem_run 7 "runs".
#[local] Instance run_debug : PrettyDebug := Driver.plain_debug.

Lemma recorded_published : exists r s',
  publish_run recorded_id 11 (Some "/simferret") recorded_staging recorded_outcome staged_host
  = Some (Ok r, s') /\ s'.(mem_budget) = None.
Proof.
  assert (Hpub : match publish_run recorded_id 11 (Some "/simferret") recorded_staging recorded_outcome
    staged_host with Some (Ok _, s) => bool_decide (s.(mem_budget) = None) | _ => false end = true)
    by by vm_compute.
  destruct (publish_run _ _ _ _ _ _) as [[[r|e] s']|]; [|done..].
  exists r, s'. split; [done|]. by apply bool_decide_eq_true in Hpub.
Qed.
Lemma recorded_driven : exists c, drive_scenario small_scenario small_plan (script_of small_frames)
  (FailureDiagnostics_new "record") = Some (Ok (recorded_events, recorded_report), c).
Proof. eexists. vm_compute. reflexivity. Qed.
