(* ===== verification/RecordSample.v ===== *)
(** The paths of [RunFrames] on the filesystem in memory, a machine that follows a
    script, and a host on which a whole recording is evaluated. *)

From stdpp Require Import ssreflect.
From Stdlib Require Import Strings.Byte.
From S2P Require Import Prelude Types Std Protocol Scenario Assertions Tree Spec Oci Checker Fixture Effects Vm Driver NetworkRun GuestRun EndToEnd Identity Root MemFs RunFiles Image RunBase Artifacts Publication RunFrames RunSample.

(** ** The calls in memory leave the rest alone *)

Lemma mem_reads_view {A} (f : Node -> option A) s : mem_tree (mem_reads f s).2 = mem_tree s.
Proof.
  unfold mem_reads. destruct (spend s) as [s1|] eqn:E; [|done]. by destruct (spend_Some _ _ E) as [Hn _].
Qed.

(** A change of one entry. *)
Definition changes_only (f : Node -> option Node) (keeps : Handle -> Prop) : Prop :=
  forall n n', f n = Some n' -> forall q, keeps q -> label_at n' q = label_at n q.

Lemma mem_changes_label f keeps s q : changes_only f keeps -> keeps q ->
  label_at (mem_tree (mem_changes f s).2) q = label_at (mem_tree s) q.
Proof.
  intros Hf Hq. unfold mem_changes. destruct (spend s) as [s1|] eqn:E; [|done].
  destruct (spend_Some _ _ E) as [Hn _]. rewrite -Hn.
  destruct (f s1.(mem_tree)) as [n|] eqn:Ef; [|done]. by eapply Hf.
Qed.

Lemma mem_mkdir_Some mode h c n n' : mem_mkdir mode (h ++ [c]) n = Some n' ->
  node_at n (h ++ [c]) = None /\ is_dir (node_at n h) = true /\
  n' = add_entry n h c (NDir 1000 (Z.land mode (Z.lnot 18)) ∅).
Proof.
  unfold mem_mkdir, mem_create. rewrite parent_of_snoc name_of_snoc.
  destruct (node_at n (h ++ [c])); [done|]. destruct (is_dir (node_at n h)); [|done]. by intros [= <-].
Qed.

Lemma mem_mkdirs_only rest : forall made,
  changes_only (mem_mkdirs made rest) (fun q => ~ q `prefix_of` made ++ rest).
Proof.
  induction rest as [|c rest IH]; intros made n n'; cbn [mem_mkdirs]; [by intros [= <-]|].
  rewrite (cons_middle c made rest) app_assoc. destruct (is_dir _); [by apply IH|].
  destruct (mem_mkdir _ _ n) as [n1|] eqn:E; [|done]. intros Er q Hq. rewrite (IH _ _ _ Er q Hq).
  apply mem_mkdir_Some in E as (Hn&Hd&->). rewrite label_add //.
  destruct (below (made ++ [c]) q) as [below'|] eqn:Eb; [|done].
  apply below_Some in Eb as ->. destruct below' as [|y below'].
  - exfalso. apply Hq. rewrite app_nil_r. by apply prefix_app_r.
  - unfold label_at. by rewrite node_at_app Hn.
Qed.

Lemma mem_put_only h c mode data :
  changes_only (mem_put (h ++ [c]) mode data) (fun q => ~ (h ++ [c]) `prefix_of` q).
Proof.
  intros n n'. unfold mem_put. rewrite parent_of_snoc name_of_snoc.
  case_bool_decide; [done|]. destruct (is_dir (node_at n h)) eqn:Hd; [|done].
  destruct (replaceable _); [|done]. intros [= <-] q Hq. by apply add_entry_apart.
Qed.

Lemma path_or_root (p : Handle) : p = [] \/ exists h c, p = h ++ [c].
Proof. destruct p as [|c h _] using rev_ind; [by left|right]. by exists h, c. Qed.

(** An entry that exists is replaced or removed. *)
Lemma mem_chmod_only mode p : changes_only (mem_chmod p mode) (fun q => ~ p `prefix_of` q).
Proof.
  intros n n'. unfold mem_chmod. destruct (node_at n p) as [m|] eqn:Hm; [|done].
  destruct (path_or_root p) as [->|(h&c&->)].
  - intros _ q []. apply prefix_nil.
  - rewrite parent_of_snoc name_of_snoc. apply node_at_parent in Hm as Hd.
    destruct m; first [intros [= <-] q Hq; by apply add_entry_apart|done].
Qed.
Lemma mem_remove_only p :
  changes_only (fun n => _ ← node_at n p; Some (remove_entry n (parent_of p) (name_of p)))
    (fun q => ~ p `prefix_of` q).
Proof.
  intros n n'. destruct (node_at n p) as [m|] eqn:Hm; [|done]. cbn. intros [= <-] q Hq.
  destruct (path_or_root p) as [->|(h&c&->)]; [by destruct Hq; apply prefix_nil|].
  rewrite parent_of_snoc name_of_snoc. apply remove_entry_apart; [by eapply node_at_parent|done].
Qed.
Lemma mem_write_label h data s q : ~ h `prefix_of` q ->
  label_at (mem_tree (mem_write h data s).2) q = label_at (mem_tree s) q.
Proof.
  intros Hq. unfold mem_write.
  assert (Hput : forall s1 written, mem_tree s1 = mem_tree s ->
    label_at (mem_tree (match node_at s1.(mem_tree) h, rev h with
      | Some (NFile owner mode _), c :: dir =>
          with_tree s1 (add_entry s1.(mem_tree) (rev dir) c (NFile owner mode written))
      | _, _ => s1 end)) q = label_at (mem_tree s) q).
  { intros s1 written Ht. destruct (path_or_root h) as [->|(k&c&->)]; [by destruct Hq; apply prefix_nil|].
    rewrite rev_app_distr /= rev_involutive. destruct (node_at _ _) as [[]|] eqn:Hm; rewrite ?Ht //.
    cbn. rewrite Ht in Hm |- *. apply add_entry_apart; [by eapply node_at_parent|done]. }
  destruct (spend s) as [s1|] eqn:E; cbn; [|by apply Hput].
  destruct (spend_Some _ _ E) as [Hn _]. by apply Hput.
Qed.

Section frames.
Context (pid : Z) (name : string).
#[local] Instance framed_fs : HostFs Mem := mem_fs pid name.
#[local] Existing Instance mem_view.
#[local] Instance framed_run : RunFs Mem := mem_run pid name.

#[local] Instance mem_frames : RunFrames Mem.
Proof.
  split; cbn; intros.
  all: try apply mem_reads_view.
  all: try done.
  - revert H. unfold mem_reads. destruct (spend s) as [s1|]; [|done]. cbn.
    destruct (node_at _ p); [|done]. by intros [= <-].
  - by eapply mem_changes_label; [apply (mem_mkdirs_only p [])|].
  - revert H. unfold mem_changes. destruct (spend s) as [s1|] eqn:E; [|by intros [= <- <-]; left].
    destruct (spend_Some _ _ E) as [Hn _]. rewrite -Hn.
    destruct (mem_mkdir _ _ _) as [n|] eqn:Em; intros [= <- <-]; [right|by left].
    apply mem_mkdir_Some in Em as (?&?&->). split_and!; [done..|]. by do 2 eexists.
  - eapply mem_changes_label; [apply mem_chmod_only|done].
  - eapply mem_changes_label; [apply mem_remove_only|done].
  - by apply mem_write_label.
Qed.
End frames.

(** ** A machine that follows a script *)

(** Writes a file of the machine; its log is there when the directory is. *)
Definition leave_file (path : Handle) (data : bytes) (n : Node) : Node :=
  if bool_decide (path = []) then n else default n (mem_put path 384 data n).

Definition script_launch (identity : VmIdentity) (frames : list EventFrame) (config : RecordConfig)
    (s : Mem) : (ScriptVm + io_error) * Mem :=
  (inl (script_of frames),
   with_tree s (leave_file config.(rc_qemu_log) (as_bytes "q")
     (leave_file config.(rc_serial_log) (as_bytes "s")
       (leave_file config.(rc_replay_log) (as_bytes "log") s.(mem_tree))))).

Lemma leave_file_label path data n q : (exists h name, path = h ++ [name] /\ name ∈ MACHINE_FILES) ->
  ~ machine_path q -> label_at (leave_file path data n) q = label_at n q.
Proof.
  intros (h&c&->&Hc) Hq. unfold leave_file. case_bool_decide; [done|].
  destruct (mem_put _ _ _ n) as [n'|] eqn:E; [|done]. apply (mem_put_only _ _ _ _ _ _ E).
  intros [rest ->]. apply Hq. exists c. set_solver.
Qed.

Section machine.
Context (identity : VmIdentity) (frames : list EventFrame).
Context (Hidentity : valid_sha256 identity.(initramfs_sha256) = true).
#[local] Existing Instance mem_view.

#[local] Instance script_adapter : VmAdapter Mem ScriptVm := {|
  launch_record := script_launch identity frames;
  launch_replay config _ := script_launch identity frames config;
  vm_identity _ := identity;
  vm_wait _ s := (inl {| qs_success := true; qs_text := "exit status: 0" |}, s);
  vm_drop _ s := s |}.

Lemma script_frames : MachineFrames Mem ScriptVm.
Proof using Hidentity.
  split; cbn; [|done..].
  intros config s q Hc Hq. unfold machine_config in Hc.
  repeat (apply Forall_cons_1 in Hc as [? Hc]). by rewrite !leave_file_label.
Qed.
End machine.

(** ** The host of the recording *)

(** The smallest executable the image accepts. *)
Definition sample_elf : bytes :=
  [Byte.x7f; "E"%byte; "L"%byte; "F"%byte; Byte.x02; Byte.x01] ++ repeat Byte.x00 12
  ++ [Byte.x3e; Byte.x00] ++ repeat Byte.x00 34 ++ [Byte.x38; Byte.x00] ++ repeat Byte.x00 8.

Definition attempt_host : Mem := {|
  mem_tree := NDir 1000 448 (list_to_map [
    ("scenario", plain_file recorded_source); ("kernel", plain_file (as_bytes "kernel"));
    ("simferret", plain_file sample_elf);
    ("tmp", NDir 1000 448 ∅); ("home", NDir 1000 448 ∅)]);
  mem_count := 0; mem_budget := None |}.
Definition attempt_options : RunOptions := {|
  op_scenario := ["scenario"]; op_seed := 11; op_runs_directory := ["home"; "runs"];
  op_kernel := ["kernel"]; op_executable := ["simferret"] |}.
Definition attempt_assets : GuestImageAssets :=
  {| as_busybox := as_bytes "busybox"; as_mii := as_bytes "mii"; as_rtl8139cp := as_bytes "cp" |}.
