(* ===== verification/RunReplay.v ===== *)
(** From a recording to its replay: a published network run is a recording that
    the preflight of a replay accepts, and a machine that replays the recorded
    frames reproduces its events, its report and its digest. *)

From stdpp Require Import ssreflect.
From Stdlib Require Import Strings.Byte.
From S2P Require Import Prelude Types Std Protocol Scenario Assertions Tree Spec Oci Checker Fixture Effects Vm Driver NetworkRun GuestRun EndToEnd Identity Root Store MemFs RunFiles Image RunBase Artifacts Replay Preflight Publication RunSample.

(** ** What a drive returns *)

Definition responses (cmds : list Command) : nat := sum_list (map response_count cmds).

Lemma responses_app cs ds : responses (cs ++ ds) = (responses cs + responses ds)%nat.
Proof. unfold responses. by rewrite map_app sum_list_with_app. Qed.

Lemma transcript_length cmds frames : transcript cmds frames -> length frames = responses cmds.
Proof.
  intros (groups&->&Hl&Hg). revert groups Hl Hg. unfold responses.
  assert (Hgen : forall i groups, length groups = length cmds ->
    (forall k c g, cmds !! k = Some c -> groups !! k = Some g -> response_group c (nth_id (i + k)) g) ->
    length (concat groups) = sum_list (map response_count cmds)).
  { induction cmds as [|c cmds IH]; intros i [|g groups] Hl Hg; try done.
    cbn [concat map]. rewrite length_app. destruct (Hg 0%nat c g eq_refl eq_refl) as [Hlen _].
    rewrite Hlen (IH (S i) groups); [done|by injection Hl|]. intros k c' g' Hc Hk.
    rewrite Nat.add_succ_comm. by apply Hg. }
  intros groups Hl Hg. by apply (Hgen 0%nat).
Qed.

Lemma transcript_protocol cmds frames f :
  transcript cmds frames -> f ∈ frames -> f.(protocol_version) = PROTOCOL_VERSION.
Proof.
  intros (groups&->&Hl&Hg) Hf. apply list_elem_of_In, in_concat in Hf as (g&Hin&Hf).
  apply list_elem_of_In, list_elem_of_lookup in Hin as [k Hk].
  apply list_elem_of_In, list_elem_of_lookup in Hf as (j&Hj).
  apply lookup_lt_Some in Hk as Hlt. rewrite Hl in Hlt. destruct (lookup_lt_is_Some_2 cmds k Hlt) as (c&Hc).
  destruct (Hg k c g Hc Hk) as [_ Hans]. by apply Hans in Hj as [? _].
Qed.

(** No command of a network run is answered by an exit. *)
Lemma transcript_readable cmds frames : transcript cmds frames -> Forall frame_readable frames.
Proof.
  intros (groups&->&Hl&Hg). apply list.Forall_forall. intros f Hf.
  apply list_elem_of_In, in_concat in Hf as (g&Hin&Hf).
  apply list_elem_of_In, list_elem_of_lookup in Hin as [k Hk].
  apply list_elem_of_In, list_elem_of_lookup in Hf as (j&Hj).
  apply lookup_lt_Some in Hk as Hlt. rewrite Hl in Hlt. destruct (lookup_lt_is_Some_2 cmds k Hlt) as (c&Hc).
  destruct (Hg k c g Hc Hk) as [_ Hans]. apply Hans in Hj as (_&_&Hm). unfold frame_readable.
  destruct (event f); try done. revert Hm. unfold response_matches. by destruct c; repeat case_match.
Qed.

Lemma segment_responses ph l : responses (map fst (segment ph l)) = (2 * length l)%nat.
Proof.
  induction l as [|q l IH]; [done|].
  change (responses (map fst (segment ph (q :: l)))) with (2 + responses (map fst (segment ph l)))%nat.
  rewrite IH. cbn. lia.
Qed.

(** Every request is answered twice, every other command once. *)
Lemma plan_responses s p :
  plan_ok p -> responses (run_commands s p) = (2 * length p.(plan_requests) + 5)%nat.
Proof.
  intros Hok. unfold run_commands. rewrite responses_app -(planned_commands s p Hok).
  unfold planned_script. cbn [map fst]. rewrite map_app. cbn [map fst]. rewrite map_app.
  pose proof (plan_split s p Hok) as Hsplit. apply (f_equal length) in Hsplit.
  rewrite !length_app in Hsplit.
  change (responses (?x :: ?l)) with (response_count x + responses l)%nat.
  rewrite !responses_app. cbn [map]. 
  assert (Hcons : forall x l, responses (x :: l) = (response_count x + responses l)%nat) by done.
  rewrite !Hcons !responses_app !Hcons !segment_responses. cbn. lia.
Qed.

(** The shape of a report: the names of the profile, in their order. *)
Lemma evaluate_shape events ob lb : valid_report (evaluate events ob lb) = true.
Proof.
  assert (Hnames : map name (evaluate events ob lb).(assertions) = NETWORK_PROFILE).
  { unfold evaluate. cbv zeta. cbn [report_of assertions map].
    repeat match goal with |- context [name (match ?x with _ => _ end)] => destruct x as [[]|] || destruct x end;
    done. }
  assert (Hpassed : (evaluate events ob lb).(passed)
    = forallb assertion_passed (evaluate events ob lb).(assertions)) by done.
  destruct (evaluate events ob lb) as [b l]. cbn in *.
  destruct l as [|[n1 p1 t1] [|[n2 p2 t2] [|[n3 p3 t3] [|[n4 p4 t4] [|]]]]]; try done.
  cbn in Hnames. injection Hnames as -> -> -> ->.
  unfold valid_report, valid_profile. cbn. rewrite Hpassed. cbn. by destruct p1, p2, p3, p4.
Qed.

(** Received frames that are numbered and of the current protocol are well-formed
    envelopes. *)
Lemma recorded_envelopes frames : event_ids frames -> zlen frames < U64_MAX ->
  Forall (fun f => f.(protocol_version) = PROTOCOL_VERSION) frames ->
  check_envelopes 0 (map normalize frames) = Ok tt.
Proof.
  intros Hids Hlen Hall. apply check_envelopes_ok; [by apply list.Forall_fmap|].
  rewrite length_map map_map. apply list_eq. intros k. rewrite !list_lookup_fmap.
  destruct (frames !! k) as [f|] eqn:Hk.
  - apply lookup_lt_Some in Hk as Hlt. rewrite lookup_seq_lt //=. do 2 f_equal.
    unfold zlen in Hlen. rewrite (Hids k f Hk) nth_id_small; lia.
  - apply lookup_ge_None in Hk as Hge. by rewrite lookup_seq_ge.
Qed.

(** The report of the recorded events is the report of the drive. *)
Lemma recorded_evaluate raw checked stopped ob lb report :
  checked.(event) = AssertionsEvaluated report -> stopped.(event) = AgentStopped ->
  evaluate (map expected_frame (map normalize (raw ++ [checked; stopped]))) ob lb = evaluate raw ob lb.
Proof.
  intros Hc Hs. trans (evaluate (raw ++ [checked; stopped]) ob lb).
  - apply evaluate_same, same_assertion_normalized. rewrite !map_map. apply map_ext. by intros [].
  - apply evaluate_searched. unfold same_searched. rewrite List.filter_app. cbn [List.filter].
    by rewrite Hc Hs /= app_nil_r.
Qed.

Lemma transcript_last cmds frames c f :
  transcript (cmds ++ [c]) (frames ++ [f]) -> response_count c = 1%nat ->
  response_matches c 0 f.(event) = true.
Proof.
  intros (groups&Heq&Hl&Hg) Hone. rewrite length_app /= in Hl.
  destruct groups as [|g groups _] using rev_ind; [cbn in Hl; lia|].
  rewrite length_app /= in Hl.
  destruct (Hg (length cmds) c g) as [Hlen Hans].
  { by rewrite lookup_app_r // Nat.sub_diag. }
  { rewrite lookup_app_r; [|lia]. by replace (length cmds - length groups)%nat with 0%nat by lia. }
  rewrite Hone in Hlen. destruct g as [|f' [|]]; try done.
  rewrite concat_app /= in Heq. apply app_inj_2 in Heq as [_ [= <-]]; [|done].
  by destruct (Hans 0%nat f eq_refl) as (_&_&?).
Qed.

Lemma plan_count s seed p :
  0 <= s.(request_count) -> Scenario_choices s seed = Some p -> zlen p.(plan_requests) = s.(request_count).
Proof.
  intros Hc E. unfold Scenario_choices in E.
  destruct (next seed) as [r1 st1]. destruct (next st1) as [r2 st2].
  apply bind_Some in E as (a&_&E). apply bind_Some in E as (b&_&E). injection E as <-.
  cbn [plan_requests]. unfold zlen. rewrite length_plan_requests. lia.
Qed.

(** What the preflight of a replay asks of the recorded events and report. *)
Lemma drive_recorded {V} `{VmLog V} `{PrettyDebug} s p (vm : V) d events report c :
  drive_scenario s p vm d = Some (Ok (events, report), c) -> plan_ok p ->
  zlen p.(plan_requests) = s.(request_count) ->
  check_envelopes 0 events = Ok tt /\ Forall normalized_readable events /\
  zlen events = 2 * s.(request_count) + 5 /\
  valid_report report = true /\
  report = evaluate (map expected_frame events) s.(outage_event_bound) s.(liveness_event_bound).
Proof.
  intros (raw&checked&stopped&Ht&Hids&->&->&Hchk&_)%record_sound_aux Hok Hcount.
  pose proof (transcript_length _ _ Ht) as Hlen.
  change (scenario_commands s p ++ [check_command s; Shutdown]) with (run_commands s p) in Hlen.
  rewrite plan_responses // in Hlen. destruct Hok. unfold zlen in *.
  assert (Hstop : stopped.(event) = AgentStopped).
  { change [checked; stopped] with ([checked] ++ [stopped]) in Ht.
    change [check_command s; Shutdown] with ([check_command s] ++ [Shutdown]) in Ht.
    rewrite !app_assoc in Ht. apply transcript_last in Ht; [|done]. revert Ht.
    cbn. by destruct (event stopped). }
  split_and!.
  - apply recorded_envelopes; [done| |].
    + unfold zlen. rewrite Hlen. unfold U64_MAX. lia.
    + apply list.Forall_forall. intros f Hf. by eapply transcript_protocol.
  - apply list.Forall_fmap. exact (transcript_readable _ _ Ht).
  - rewrite length_map Hlen. lia.
  - apply evaluate_shape.
  - symmetry. by eapply recorded_evaluate.
Qed.

(** A replay with the recorded events and the recorded report is identical to the
    recording. *)
Lemma validate_identical `{Sha256} `{PrettyDebug} `{ReportDebug} `{DebugStr} `{Serde NormalizedEvent} `{SerdePretty AssertionReport} {Sc C} (manifest : Manifest) (p : Preflight Sc C) :
  manifest.(mf_semantic_outcome_sha256) = digest_parts
    [p.(pf_scenario_bytes); p.(pf_choice_bytes); p.(pf_event_bytes); p.(pf_assertion_bytes)] ->
  encode_events p.(pf_events) = Ok p.(pf_event_bytes) ->
  json_bytes p.(pf_assertions) = Ok p.(pf_assertion_bytes) ->
  validate_replay manifest p p.(pf_events) p.(pf_assertions) = Ok {|
    rp_run_id := manifest.(mf_run_id); rp_event_count := zlen p.(pf_events);
    rp_semantic_outcome_sha256 := manifest.(mf_semantic_outcome_sha256);
    rp_assertions := p.(pf_assertions) |}.
Proof.
  intros Hdig He Ha. unfold validate_replay, compare_events.
  rewrite (proj2 (compare_events_from_iff 0 _ _) eq_refl). cbn.
  rewrite bool_decide_eq_true_2 // He /= bool_decide_eq_true_2 // Ha /= bool_decide_eq_true_2 //=.
  by rewrite -Hdig bool_decide_eq_true_2.
Qed.

(** ** The published run *)

Section run.
Context {S : Type} `{RunFsLaws S} `{Sha256Laws} `{DebugStr} `{PrettyDebug} `{ReportDebug}.
Context `{SerdeLaws NormalizedEvent normalized_readable} `{!SerdeLine NormalizedEvent}.
Context `{SerdePrettyLaws AssertionReport} `{SerdePrettyLaws Manifest} `{SerdePrettyLaws ChoicePlan}.
Variable toml_scenario : string -> Scenario + TomlError.

(** A network run in its staging directory [d]: the scenario it parsed, the plan
    of its seed, and the outcome of driving a machine through them. *)
Record network_run {V} `{RunningVm V} (n : Node) (d : Handle) (seed : Z) (outcome : RecordOutcome)
    (scenario : Scenario) (choices : ChoicePlan) (vm : V) (c : Controller V) : Prop := {
  nr_source : exists source, file_at n (d ++ ["scenario.toml"]) = Some source /\
    Scenario_parse toml_scenario source = Ok (scenario, source);
  nr_valid : scenario_valid scenario;
  nr_choices : Scenario_choices scenario seed = Some choices;
  nr_choice_file : exists data, file_at n (d ++ ["choices.json"]) = Some data /\
    json_bytes choices = Ok data;
  nr_drive : exists diagnostics, drive_scenario scenario choices vm diagnostics
    = Some (Ok (outcome.(ro_events), outcome.(ro_assertions)), c);
  nr_name : outcome.(ro_scenario_name) = scenario.(scenario_name);
  nr_workload : outcome.(ro_workload) = None;
}.

#[local] Set Default Proof Using "All".

(** The preflight of the published directory. *)
Definition published_preflight (scenario : Scenario) (choices : ChoicePlan) (outcome : RecordOutcome)
    (busybox sb cb eb ab : bytes) : Preflight Scenario ChoicePlan :=
  MkPreflight scenario choices
    (restricted_tftp_replay (digest_fixture_entries
       (fixture_entries choices.(plan_requests) scenario.(corrupt_responses))) (sha256_bytes busybox))
    sb cb outcome.(ro_events) eb outcome.(ro_assertions) ab.

Lemma published_recorded {V} `{VmLog V} n d n' k seed outcome scenario choices (vm : V) c
    run_id executable semantic artifacts busybox :
  network_run n d seed outcome scenario choices vm c ->
  let manifest := run_manifest run_id seed executable outcome semantic artifacts in
  published n d n' k outcome manifest ->
  exists sb cb eb ab, encode_events outcome.(ro_events) = Ok eb /\
    json_bytes outcome.(ro_assertions) = Ok ab /\
    recorded_network toml_scenario n' k manifest busybox
      (published_preflight scenario choices outcome busybox sb cb eb ab).
Proof.
  intros [(sb&Hsb&Hparse) Hvalid Hch (cb&Hcb&Hcj) [d' Hdrive] Hname Hw] manifest
    [(eb&Heb&Hes&Hef) (ab&Hab&Has&Haf) _ Hkept Hart Hnames _ Hdig].
  destruct (choices_ok _ _ _ Hvalid Hch) as [Hok _]. pose proof Hvalid as (_&_&Hrange&_).
  assert (Hcount : zlen choices.(plan_requests) = scenario.(request_count))
    by (eapply plan_count; [lia|exact Hch]).
  destruct (drive_recorded _ _ _ _ _ _ _ Hdrive Hok Hcount) as (Henv&Hread&Hlen&Hshape&Heval).
  destruct (Hkept "scenario.toml" ltac:(set_solver)) as (x&Hx&Hsf). rewrite Hsb in Hx. injection Hx as <-.
  destruct (Hkept "choices.json" ltac:(set_solver)) as (x&Hx&Hcf). rewrite Hcb in Hx. injection Hx as <-.
  assert (Hcs : zlen cb <= MAX_SEMANTIC_ARTIFACT_BYTES).
  { destruct (Hnames "choices.json") as [_ [digest Hd]].
    { unfold artifact_names. apply elem_of_app. left. by vm_compute; set_solver. }
    apply Hart in Hd as (data&Hf&Hl&_). rewrite join_name in Hf; [|by vm_compute; set_solver].
    rewrite Hcf in Hf. injection Hf as <-. exact Hl. }
  exists sb, cb, eb, ab. split; [exact Heb|]. split; [exact Hab|].
  constructor; cbn [published_preflight pf_scenario pf_choices pf_network pf_scenario_bytes
    pf_choice_bytes pf_events pf_event_bytes pf_assertions pf_assertion_bytes].
  - exact Hsf.
  - exact Hparse.
  - by symmetry.
  - exact Hch.
  - reflexivity.
  - exact Hcf.
  - exact Hcs.
  - exact (json_bytes_read _ _ Hcj).
  - constructor; cbn [fst snd]; [exact Hef|exact Hes| |exact Henv].
    exact (proj2 (encoded_stream_decodes _ _ Heb Hread)).
  - constructor; cbn [fst snd]; [exact Haf|exact Has|exact (json_bytes_read _ _ Hab)].
  - exact Hlen.
  - exact Hshape.
  - exact Heval.
  - by apply Hdig.
Qed.

(** What [replay_run] checks of a network recording before it rebuilds the image. *)
Definition check_recording (directory : Handle) (busybox : bytes)
    : M S (Manifest * Preflight Scenario ChoicePlan) :=
  manifest ← read_manifest directory;
  p ← network_preflight toml_scenario directory manifest busybox;
  mret (manifest, p).

(** The checks accept what belongs together. *)
Lemma check_succeeds n directory busybox manifest p :
  described n directory manifest -> recorded_network toml_scenario n directory manifest busybox p ->
  succeeds n (check_recording directory busybox) (manifest, p).
Proof.
  intros Hm Hp. eapply succeeds_bind; [by apply read_manifest_succeeds|].
  eapply succeeds_bind; [by apply network_preflight_succeeds|apply succeeds_ret].
Qed.

(** C13. The checks of a replay refine the contract of a recorded run.  When they
    accept a run directory, they have changed nothing, the manifest is the one on
    disk and valid, every artifact it names is present under its digest and within
    its limit, and scenario, plan, fixture, event stream, report and semantic
    digest belong together as [recorded_network] says.  Conversely, on a host that
    fails no call they accept every directory so recorded, and return exactly its
    contents. *)
Theorem check_recording_refines directory busybox s :
  (forall manifest p s', check_recording directory busybox s = Some (Ok (manifest, p), s') ->
    view s' = view s /\ described (view s) directory manifest /\
    recorded_network toml_scenario (view s) directory manifest busybox p) /\
  (reliable s -> forall manifest p, described (view s) directory manifest ->
    recorded_network toml_scenario (view s) directory manifest busybox p ->
    exists s', check_recording directory busybox s = Some (Ok (manifest, p), s') /\
      view s' = view s).
Proof.
  split.
  - intros manifest p s' E. eapply (reads_Ok (view s) _ (fun r => described (view s) directory r.1 /\
      recorded_network toml_scenario (view s) directory r.1 busybox r.2)) in E; [done| |done].
    eapply reads_bind; [apply read_manifest_reads|]. intros m Hm.
    eapply reads_bind; [apply network_preflight_reads|]. intros q Hq. by apply reads_ret.
  - intros Hr manifest p Hm Hp.
    destruct (check_succeeds _ _ _ _ _ Hm Hp s Hr eq_refl) as (s'&E&_&Hv). by exists s'.
Qed.

(** A published network run is a recording that belongs together, and a replay
    that reproduces its events is judged identical. *)
Lemma published_checked {V} `{VmLog V} nanos seed path staging outcome h x k s r s'
    scenario choices (vm : V) c busybox :
  let run_id := new_run_id nanos seed in
  staging.(sd_path) = h ++ [x] -> staging.(sd_destination) = k ++ [run_id] ->
  (forall name, name ∈ staged_names -> node_at (view s) ((h ++ [x]) ++ [name]) <> Some NLink) ->
  network_run (view s) (h ++ [x]) seed outcome scenario choices vm c -> outcome_wf outcome ->
  publish_run run_id seed path staging outcome s = Some (Ok r, s') ->
  exists manifest p,
    r = {| rr_run_id := run_id; rr_directory := k ++ [run_id]; rr_assertions := outcome.(ro_assertions) |} /\
    described (view s') (k ++ [run_id]) manifest /\
    recorded_network toml_scenario (view s') (k ++ [run_id]) manifest busybox p /\
    manifest.(mf_run_id) = run_id /\ manifest.(mf_seed) = seed /\
    p.(pf_scenario) = scenario /\ p.(pf_choices) = choices /\
    p.(pf_events) = outcome.(ro_events) /\ p.(pf_assertions) = outcome.(ro_assertions) /\
    forall V2 (HV : RunningVm V2) (HL : @VmLog V2 HV) (vm2 : V2) d2 events report c2,
      drive_replay_scenario scenario choices p.(pf_events) vm2 d2 = Some (Ok (events, report), c2) ->
      validate_replay manifest p events report = Ok {|
        rp_run_id := run_id; rp_event_count := zlen outcome.(ro_events);
        rp_semantic_outcome_sha256 := manifest.(mf_semantic_outcome_sha256);
        rp_assertions := r.(rr_assertions) |}.
Proof.
  intros run_id Hp Hd Hlinks Hrun Hwf E.
  eapply publish_run_Ok in E as (executable&artifacts&semantic&->&Hpub); [|done..].
  destruct (published_recorded _ _ _ _ _ _ _ _ _ _ _ _ _ _ busybox Hrun Hpub)
    as (sb&cb&eb&ab&Heb&Hab&Hrec).
  set (manifest := run_manifest _ _ _ _ _ _) in *.
  assert (Hsem : valid_sha256 semantic = true).
  { destruct Hrec as [_ _ _ _ _ _ _ _ _ _ _ _ _ Hdig]. cbn in Hdig. rewrite Hdig. apply valid_sha256_bytes. }
  pose proof (published_described _ _ _ _ _ _ _ _ _ _ Hwf Hsem Hpub) as Hds.
  exists manifest, (published_preflight scenario choices outcome busybox sb cb eb ab).
  split_and!; [reflexivity|exact Hds|exact Hrec|reflexivity..|]. cbn [published_preflight pf_events].
  intros V2 HV HL vm2 d2 events report c2 Hrep. destruct Hrun as [_ _ _ _ [d' Hdrive] _ _].
  destruct (replay_agrees _ _ _ _ _ _ _ _ _ _ _ _ Hdrive Hrep) as (->&->&_).
  rewrite (validate_identical _ _ (rn_digest _ _ _ _ _ _ Hrec) Heb Hab). reflexivity.
Qed.

(** C39. A network run that was published can be replayed.  Take a scenario that was
    parsed and planned, a machine that was driven through the plan, and an attempt
    whose [publish_run] succeeded.  From then on, on any host that holds the
    published tree and fails no call, the checks of a replay accept the run
    directory: manifest, digests of every artifact, scenario, plan, event stream,
    report and semantic digest.  They return the recorded scenario, plan, events
    and report; and whatever machine is replayed then, a replay that finishes is
    judged identical to the recording, byte for byte, with the manifest's digest. *)
Theorem published_run_replays {V} `{VmLog V} nanos seed path staging outcome h x k s r s'
    scenario choices (vm : V) c busybox :
  let run_id := new_run_id nanos seed in
  staging.(sd_path) = h ++ [x] -> staging.(sd_destination) = k ++ [run_id] ->
  (forall name, name ∈ staged_names -> node_at (view s) ((h ++ [x]) ++ [name]) <> Some NLink) ->
  network_run (view s) (h ++ [x]) seed outcome scenario choices vm c -> outcome_wf outcome ->
  publish_run run_id seed path staging outcome s = Some (Ok r, s') ->
  forall s2, view s2 = view s' -> reliable s2 -> exists manifest p s3,
    check_recording r.(rr_directory) busybox s2 = Some (Ok (manifest, p), s3) /\
    p.(pf_scenario) = scenario /\ p.(pf_choices) = choices /\
    p.(pf_events) = outcome.(ro_events) /\ p.(pf_assertions) = outcome.(ro_assertions) /\
    forall V2 (HV : RunningVm V2) (HL : @VmLog V2 HV) (vm2 : V2) d2 events report c2,
      drive_replay_scenario scenario choices p.(pf_events) vm2 d2 = Some (Ok (events, report), c2) ->
      validate_replay manifest p events report = Ok {|
        rp_run_id := run_id; rp_event_count := zlen outcome.(ro_events);
        rp_semantic_outcome_sha256 := manifest.(mf_semantic_outcome_sha256);
        rp_assertions := r.(rr_assertions) |}.
Proof.
  intros run_id Hp Hd Hlinks Hrun Hwf E s2 Hv2 Hr2.
  destruct (published_checked _ _ _ _ _ _ _ _ _ _ _ _ _ _ _ busybox Hp Hd Hlinks Hrun Hwf E)
    as (manifest&p&->&Hds&Hrec&_&_&<-&<-&He&Ha&Hval).
  destruct (check_succeeds _ _ _ _ _ Hds Hrec s2 Hr2 Hv2) as (s3&E3&_&_).
  exists manifest, p, s3. split; [exact E3|]. by split_and!.
Qed.
End run.

(** ** The sample run *)

#[local] Existing Instance toy_sha256.
#[local] Existing Instance toy_sha256_laws.
#[local] Existing Instance mem_view.
#[local] Existing Instance run_fs.
#[local] Existing Instance run_paths.
#[local] Existing Instance run_debug.
#[local] Existing Instance recorded_event_serde.
#[local] Existing Instance recorded_report_serde.
#[local] Existing Instance recorded_report_text.
#[local] Existing Instance recorded_plan_serde.
#[local] Existing Instance recorded_plan_text.
#[local] Existing Instance recorded_manifest_serde.
#[local] Existing Instance recorded_manifest_text.
#[local] Instance run_laws : FsLaws Mem := mem_laws 7 "runs".
#[local] Instance run_path_laws : RunFsLaws Mem := mem_run_laws 7 "runs".
#[local] Instance recorded_event_laws : SerdeLaws NormalizedEvent normalized_readable := table_serde_laws _ _.
#[local] Instance recorded_event_line : SerdeLine NormalizedEvent := table_serde_line _.
#[local] Instance recorded_report_laws : SerdePrettyLaws AssertionReport := pretty_laws _.
#[local] Instance recorded_plan_laws : SerdePrettyLaws ChoicePlan := pretty_laws _.
#[local] Instance recorded_manifest_laws : SerdePrettyLaws Manifest := pretty_laws _.
#[local] Instance sample_text : DebugStr := {| debug_str s := s |}.
#[local] Instance sample_report : ReportDebug := {| report_debug _ := "report" |}.

Lemma recorded_network_run c :
  drive_scenario small_scenario small_plan (script_of small_frames) (FailureDiagnostics_new "record")
  = Some (Ok (recorded_events, recorded_report), c) ->
  network_run recorded_toml (view staged_host) (["runs"] ++ [".run"]) 11 recorded_outcome small_scenario small_plan
    (script_of small_frames) c.
Proof.
  intros Hc. constructor.
  - exists recorded_source. split; by vm_compute.
  - vm_compute. repeat split; congruence.
  - by vm_compute.
  - exists (or_empty (json_bytes small_plan)). split; by vm_compute.
  - exists (FailureDiagnostics_new "record"). exact Hc.
  - done.
  - done.
Qed.
Lemma recorded_outcome_wf : outcome_wf recorded_outcome.
Proof. constructor; [by vm_compute..|done]. Qed.

Lemma published_run_replays_witness : exists r s' manifest p s3,
  publish_run recorded_id 11 (Some "/simferret") recorded_staging recorded_outcome staged_host
  = Some (Ok r, s') /\
  check_recording recorded_toml r.(rr_directory) [] s' = Some (Ok (manifest, p), s3) /\
  p.(pf_events) = recorded_events /\ p.(pf_assertions) = recorded_report.
Proof.
  destruct recorded_published as (r&s'&E&Hbudget).
  destruct recorded_driven as [c Hdrive].
  destruct (published_run_replays recorded_toml (V := ScriptVm) 1000 11 (Some "/simferret")
    recorded_staging recorded_outcome ["runs"] ".run" ["runs"] staged_host r s' small_scenario
    small_plan (script_of small_frames) c []) with (s2 := s') as (manifest&p&s3&Hck&_&_&He&Ha&_).
  - reflexivity.
  - reflexivity.
  - apply list.Forall_forall. repeat constructor; vm_compute; congruence.
  - exact (recorded_network_run c Hdrive).
  - exact recorded_outcome_wf.
  - exact E.
  - reflexivity.
  - exact Hbudget.
  - exists r, s', manifest, p, s3. exact (conj E (conj Hck (conj He Ha))).
Defined.

(** The host after the publication. *)
Definition published_host : Mem :=
  match publish_run recorded_id 11 (Some "/simferret") recorded_staging recorded_outcome staged_host with
  | Some (Ok _, s) => s
  | _ => staged_host
  end.
Definition sample_check : option (result (Manifest * Preflight Scenario ChoicePlan) * Mem) :=
  check_recording recorded_toml ["runs"; recorded_id] [] published_host.
Lemma sample_checks : match sample_check with Some (Ok _, _) => true | _ => false end = true.
Proof. by vm_compute. Qed.

Lemma check_recording_refines_witness : exists manifest p s',
  sample_check = Some (Ok (manifest, p), s') /\
  described (view published_host) ["runs"; recorded_id] manifest /\
  recorded_network recorded_toml (view published_host) ["runs"; recorded_id] manifest [] p.
Proof.
  pose proof sample_checks as Hck. destruct sample_check as [[[[manifest p]|e] s']|] eqn:E; [|done..].
  destruct (check_recording_refines recorded_toml ["runs"; recorded_id] [] published_host) as [Hs _].
  unfold sample_check in E. destruct (Hs manifest p s' E) as (_&Hd&Hr).
  exists manifest, p, s'. exact (conj eq_refl (conj Hd Hr)).
Defined.
