(* ===== verification/RecordRun.v ===== *)
(** A recording that returns has recorded a run that can be replayed: the
    preparation, the machine and the publication of a network run, composed. *)

From stdpp Require Import ssreflect.
From Stdlib Require Import Strings.Byte.
From S2P Require Import Prelude Types Std Protocol Scenario Assertions Tree Spec Oci Checker Fixture Effects Vm Driver NetworkRun GuestRun EndToEnd Identity Root MemFs Store StoreFiles StoreSafe RunFiles Image RunBase Text Sanitize Failure Artifacts Recording Replay Preflight Publication RunFrames RunSample RecordSample RunReplay.

(** ** Attempts *)

#[export] Instance attempt_view {X} `{FsView X} : FsView (Attempt X) :=
  {| view st := view st.1; reliable st := reliable st.1 |}.

Section attempts.
Context {X : Type} `{FsView X} (W : Handle -> Prop).

Lemma on_files_Ok {A} (m : M X A) st a st' :
  on_files m st = Some (Ok a, st') <-> exists x, m st.1 = Some (Ok a, x) /\ st' = (x, st.2).
Proof. apply (zoom_Ok fst (fun x st => (x, st.2))). Qed.

Lemma leaves_on_files {A} (m : M X A) : leaves W m -> leaves W (on_files m).
Proof.
  intros Hm [x d] r [x' d']. unfold on_files, zoom. cbn.
  destruct (m x) as [[r' x1]|] eqn:E; [|done]. intros [= <- <- <-] q Hq. cbn. by eapply Hm.
Qed.
Lemma leaves_enter name : leaves W (enter (X := X) name).
Proof. by intros [x d] r s' [= <- <-]. Qed.
Lemma leaves_note_network network : leaves W (note_network (X := X) network).
Proof. by intros [x d] r s' [= <- <-]. Qed.
Lemma leaves_on_machine {V A C} (vm_of : C -> V) diagnostics_of (drive : _ -> option (result A * C)) :
  leaves W (on_machine (X := X) vm_of diagnostics_of drive).
Proof.
  intros [x d] r s'. unfold on_machine. cbn. destruct (drive d) as [[r' c]|]; [|done]. by intros [= <- <-].
Qed.
Lemma leaves_dropping {A} (drop : M X unit) (m : M X A) :
  leaves W drop -> leaves W m -> leaves W (dropping drop m).
Proof.
  intros Hd Hm. unfold dropping. apply leaves_bind; [|intros r; apply leaves_bind; [done|intros; apply leaves_lift]].
  intros s r s'. unfold catch. destruct (m s) as [[r' s1]|] eqn:E; [|done]. intros [= <- <-]. by eapply Hm.
Qed.
End attempts.
#[export] Hint Resolve leaves_enter leaves_note_network leaves_on_machine : leaves.

Lemma dropping_Ok {X A} (drop : M X unit) (m : M X A) s a s' :
  dropping drop m s = Some (Ok a, s') ->
  exists s1, m s = Some (Ok a, s1) /\ drop s1 = Some (Ok tt, s').
Proof.
  unfold dropping. intros (r&s1&E1&(u&s2&E2&[-> ->]%lift_Ok)%M_bind_Ok)%M_bind_Ok.
  unfold catch in E1. destruct (m s) as [[r' s1']|]; [|done]. injection E1 as -> ->. destruct u. by exists s1.
Qed.
Lemma dropping_failed_Ok {X A} (drop : M X unit) (m : M X A) s a s' :
  dropping_failed drop m s = Some (Ok a, s') -> m s = Some (Ok a, s').
Proof.
  unfold dropping_failed. intros (r&s1&E1&E)%M_bind_Ok.
  unfold catch in E1. destruct (m s) as [[r' s1']|]; [|done]. injection E1 as -> ->.
  destruct r as [a'|e]; [by injection E as -> ->|]. by apply M_bind_Ok in E as (?&?&_&[=]).
Qed.
Lemma with_bundle_Ok {X A} (attempt : M (Attempt X) A) diagnostics bundle x a x' :
  with_bundle attempt diagnostics bundle x = Some (Ok a, x') ->
  exists d, attempt (x, diagnostics) = Some (Ok a, (x', d)).
Proof.
  unfold with_bundle. destruct (attempt _) as [[[b|e] [x1 d]]|]; [| |done].
  - intros [= -> ->]. by exists d.
  - by intros (?&?&_&[=])%M_bind_Ok.
Qed.

(** ** The preparation *)

Lemma label_link n q : node_at n q = Some NLink <-> label_at n q = Some NLink.
Proof. unfold label_at. by destruct (node_at n q) as [[]|]. Qed.

Section prepared.
Context {S : Type} `{RunFsLaws S} `{!RunFrames S} `{Sha256Laws} `{DebugStr} `{PrettyDebug} `{Gzip}.
Context {V : Type} `{VmLog V} `{!VmAdapter S V} `{!MachineFrames S V}.
Context `{SerdeLaws NormalizedEvent normalized_readable} `{!SerdeLine NormalizedEvent}.
Context `{SerdePrettyLaws AssertionReport} `{SerdePrettyLaws Manifest} `{SerdePrettyLaws ChoicePlan}.
Context `{ReportDebug}.
Variable toml_scenario : string -> Scenario + TomlError.
(** A scenario that was read has the ranges of its integer types. *)
Context (Htoml : forall text scenario, toml_scenario text = inl scenario ->
  0 <= scenario.(payload_bytes) /\ 0 <= scenario.(outage_event_bound)).
(** The staging directory of an attempt in the runs directory. *)
Context (runs : Handle) (x : string) (Hx : x <> ".images").
Context (Hnames : Forall (fun c => c ∉ MACHINE_FILES) (runs ++ [x])).
#[local] Set Default Proof Using "All".

Definition staged_path (q : Handle) : Prop := exists name, name ∈ staged_names /\ q = (runs ++ [x]) ++ [name].

Lemma staged_apart name q : name ∉ staged_names -> staged_path q -> ~ ((runs ++ [x]) ++ [name]) `prefix_of` q.
Proof. intros Hn (name'&Hn'&->). apply entries_apart. by intros ->. Qed.
Lemma staged_cache q : staged_path q -> ~ (runs ++ [".images"]) `prefix_of` q.
Proof. intros (name&_&->). rewrite -app_assoc. apply entries_apart. congruence. Qed.
Lemma staged_runs q : staged_path q -> ~ q `prefix_of` runs.
Proof.
  intros (name&_&->) Hp%prefix_length. rewrite !length_app in Hp. cbn in Hp. lia.
Qed.
Lemma staged_machine q : staged_path q -> ~ machine_path q.
Proof.
  intros (name&Hn&->) (f&Hf&Hin). apply elem_of_app in Hin as [Hin|Hin%list_elem_of_singleton].
  - pose proof Hnames as Hall. rewrite list.Forall_forall in Hall. by apply Hall in Hin.
  - subst f. unfold staged_names, MACHINE_FILES in *. set_solver.
Qed.

(** No staged file is a link. *)
Definition no_links (n : Node) : Prop := forall name, name ∈ staged_names ->
  node_at n ((runs ++ [x]) ++ [name]) <> Some NLink.

Lemma leaves_links {X A} `{FsView X} (m : M X A) s r s' : leaves staged_path m -> m s = Some (r, s') ->
  no_links (view s) -> no_links (view s').
Proof.
  intros Hm E Hn name Hname. rewrite label_link (Hm _ _ _ E); [|by exists name].
  rewrite -label_link. by apply Hn.
Qed.
Lemma leaves_file {X A} `{FsView X} (m : M X A) s r s' name : leaves staged_path m -> m s = Some (r, s') ->
  name ∈ staged_names ->
  file_at (view s') ((runs ++ [x]) ++ [name]) = file_at (view s) ((runs ++ [x]) ++ [name]).
Proof. intros Hm E Hname. unfold file_at. rewrite (Hm _ _ _ E); [done|by exists name]. Qed.

(** The files of the fixture, in a directory without links. *)
Lemma write_entries_apart F entries : forall s r s',
  (forall name, node_at (view s) (F ++ [name]) <> Some NLink) ->
  write_entries F entries s = Some (r, s') ->
  forall q, ~ F `prefix_of` q -> label_at (view s') q = label_at (view s) q.
Proof.
  induction entries as [|[name contents] entries IH]; intros s r s' Hl; cbn [write_entries].
  - by intros [= <- <-].
  - unfold mbind, M_bind, call. destruct (rf_put _ _ _ s) as [o s1] eqn:E.
    apply rf_put_law in E as [Hput _]; [|by apply Hl].
    assert (Hq : forall q, ~ F `prefix_of` q -> label_at (view s1) q = label_at (view s) q).
    { intros q Hq. destruct Hput as [(Hd&_&?&?&?&->&_)|[-> _]]; [|done]. apply add_entry_apart; [done|].
      intros Hp. apply Hq. etrans; [|exact Hp]. by apply prefix_app_r. }
    destruct o as [e|]; cbn; [by intros [= <- <-]|]. intros E q Hq'. rewrite -Hq //.
    eapply IH; [|exact E|done]. intros name' Hlink. destruct Hput as [(Hd&_&ow&mo&wr&Hv&_)|[_ []]]; [|done].
    apply label_link in Hlink. rewrite Hv label_add // in Hlink.
    destruct (below (F ++ [name]) (F ++ [name'])) as [rest|] eqn:Eb.
    + unfold label_at in Hlink. destruct rest; cbn in Hlink; [done|done].
    + apply label_link in Hlink. by apply Hl in Hlink.
Qed.

Lemma leaves_materialize entries :
  leaves staged_path (materialize_fixture ((runs ++ [x]) ++ ["fixture"]) entries : M S unit).
Proof.
  intros s r s'. unfold materialize_fixture, mbind, M_bind, call.
  destruct (rf_create_dir _ 511 s) as [o s1] eqn:E. apply mkdir_law in E as Hmk.
  assert (Hfix : forall q, staged_path q -> ~ ((runs ++ [x]) ++ ["fixture"]) `prefix_of` q).
  { intros q Hq. apply staged_apart; [|done]. unfold staged_names. set_solver. }
  assert (Hmade : forall q, staged_path q -> label_at (view s1) q = label_at (view s) q).
  { intros q Hq. destruct Hmk as [[_ ->]|(_&_&Hd&?&?&->)]; [done|]. apply add_entry_apart; [done|by apply Hfix]. }
  destruct o as [e|]; cbn; [intros [= <- <-]; exact Hmade|].
  intros Ew q Hq. rewrite -Hmade //. eapply write_entries_apart; [|exact Ew|by apply Hfix].
  intros name Hl. destruct Hmk as [[[] _]|(_&Hnone&Hd&?&?&Hv)]; [done|].
  apply label_link in Hl. rewrite Hv label_add // below_app in Hl. done.
Qed.

Lemma leaves_fixture_network directory digest :
  leaves staged_path (restricted_tftp_record_with_tool_digest directory digest : M S NetworkConfig).
Proof.
  unfold restricted_tftp_record_with_tool_digest, fixture_digest, read_fixture_entries.
  apply leaves_bind; [|intros; apply leaves_ret].
  apply leaves_bind; [|intros; apply leaves_ret].
  apply leaves_bind; [apply leaves_fail_if|intros _].
  apply leaves_bind; [apply leaves_view, fixture_frame|]. intros r. solve_leaves.
Qed.

Lemma fixture_path : join (runs ++ [x]) "fixture" = (runs ++ [x]) ++ ["fixture"].
Proof. apply join_name. by vm_compute; set_solver. Qed.

Lemma record_config_named staging qmp kernel initramfs network :
  machine_config (record_config staging qmp kernel initramfs network).
Proof.
  unfold machine_config, record_config, MACHINE_FILES. cbn [rc_replay_log rc_qmp_socket rc_serial_log rc_qemu_log].
  repeat constructor.
  - exists staging.(sd_path), "replay.bin". split; [by apply join_name; vm_compute; set_solver|set_solver].
  - exists qmp, "qmp.sock". split; [by apply join_name; vm_compute; set_solver|set_solver].
  - exists (staging.(sd_path) ++ ["logs"]), "serial.log". split; [by rewrite -app_assoc|set_solver].
  - exists (staging.(sd_path) ++ ["logs"]), "qemu.log". split; [by rewrite -app_assoc|set_solver].
Qed.

Lemma leaves_launch_recording options assets staging qmp initramfs requests corrupt :
  staging.(sd_path) = runs ++ [x] ->
  leaves staged_path (launch_recording options assets staging qmp initramfs requests corrupt
    : M (Attempt S) (V * Handle)).
Proof.
  intros Hp. unfold launch_recording. rewrite Hp fixture_path.
  apply leaves_bind; [apply leaves_on_files, leaves_materialize|intros _].
  apply leaves_bind; [apply leaves_on_files, leaves_fixture_network|intros network].
  apply leaves_bind; [apply leaves_note_network|intros _].
  apply leaves_bind; [apply leaves_on_files, leaves_canonicalize|intros canonical].
  apply leaves_bind; [apply leaves_or_other|intros kernel].
  apply leaves_bind; [apply leaves_enter|intros _].
  apply leaves_bind; [apply leaves_on_files, leaves_launch; [apply _|exact staged_machine|apply record_config_named]|intros launched].
  apply leaves_bind; [apply leaves_or_other|intros vm]. apply leaves_ret.
Qed.

Lemma leaves_finish vm outcome :
  leaves staged_path (finish_recording ((runs ++ [x]) ++ ["fixture"]) vm outcome : M (Attempt S) RecordOutcome).
Proof.
  unfold finish_recording. apply leaves_dropping; [apply leaves_on_files, leaves_drop; [apply _|exact staged_machine]|].
  apply leaves_bind; [apply leaves_lift|intros o].
  apply leaves_bind; [apply leaves_enter|intros _].
  apply leaves_bind; [apply leaves_on_files, leaves_wait; [apply _|exact staged_machine]|intros _].
  apply leaves_bind; [|intros removed; apply leaves_bind; [apply leaves_or_io|intros; apply leaves_ret]].
  apply leaves_on_files, leaves_call. intros s q Hq. apply remove_frame, staged_apart; [|done].
  unfold staged_names. set_solver.
Qed.

(** What the preparation leaves: a write to one staged name. *)
Lemma staged_write name data s s' :
  name ∈ staged_names -> no_links (view s) ->
  write_private ((runs ++ [x]) ++ [name]) data s = Some (Ok tt, s') ->
  no_links (view s') /\ file_at (view s') ((runs ++ [x]) ++ [name]) = Some data /\
  forall other, other <> name -> file_at (view s') ((runs ++ [x]) ++ [other])
    = file_at (view s) ((runs ++ [x]) ++ [other]).
Proof.
  intros Hname Hn E. destruct (write_private_Ok (view s) _ _ _ s s' (Hn _ Hname) eq_refl E) as [He Hf].
  split_and!; [|done|].
  - intros other Hother. destruct (decide (other = name)) as [->|Hne].
    + intros Hl. apply label_link in Hl. unfold file_at in Hf. by rewrite Hl in Hf.
    + eapply except_link; [exact He|by apply entries_apart|by apply Hn].
  - intros other Hne. unfold file_at. rewrite He //. by apply entries_apart.
Qed.

Lemma launched_identity options assets staging qmp initramfs requests corrupt st vm fixture st' :
  launch_recording options assets staging qmp initramfs requests corrupt st = Some (Ok (vm, fixture), st') ->
  valid_sha256 (vm_identity (V := V) (S := S) vm).(initramfs_sha256) = true /\
  fixture = join staging.(sd_path) "fixture".
Proof.
  unfold launch_recording. intros (?&?&_&E)%M_bind_Ok. apply M_bind_Ok in E as (network&?&_&E).
  apply M_bind_Ok in E as (?&?&_&E). apply M_bind_Ok in E as (?&?&_&E). apply M_bind_Ok in E as (?&?&_&E).
  apply M_bind_Ok in E as (?&?&_&E). apply M_bind_Ok in E as (launched&st1&E1&E).
  apply M_bind_Ok in E as (vm'&?&Ev&[= <- <- _]). split; [|done].
  apply on_files_Ok in E1 as (s1&E1&_). unfold call in E1.
  destruct launched as [vm1|e]; [|done]. injection Ev as -> _.
  destruct (launch_record _ _) as [[vm2|e] s2] eqn:El in E1; [|done]. injection E1 as -> _.
  match type of El with launch_record ?config ?s0 = _ => apply (launch_identity config s0); by rewrite El end.
Qed.

Lemma parsed_valid source scenario bytes :
  Scenario_parse toml_scenario source = Ok (scenario, bytes) -> scenario_valid scenario.
Proof.
  unfold Scenario_parse. destruct (_ <? _); [done|]. destruct (from_utf8 source); [|done].
  destruct (toml_scenario _) as [sc|] eqn:Et; [|done].
  destruct (Scenario_validate sc) as [[]|] eqn:E; [|done]. cbn. intros [= <- _].
  destruct (Htoml _ _ Et). by apply Scenario_validate_iff.
Qed.

(** The preparation, the machine and its end, in a staging directory without
    links: a network run. *)
Lemma recorded_scenario options assets staging qmp st outcome st' :
  staging.(sd_path) = runs ++ [x] -> options.(op_runs_directory) = runs -> no_links (view st) ->
  record_network_scenario (V := V) toml_scenario options assets staging qmp st = Some (Ok outcome, st') ->
  no_links (view st') /\ outcome_wf outcome /\
  exists scenario choices (vm : V) c,
    network_run toml_scenario (view st') (runs ++ [x]) options.(op_seed) outcome scenario choices vm c.
Proof.
  intros Hp Hruns Hl0 E. unfold record_network_scenario in E. rewrite Hp Hruns in E.
  rewrite !join_name in E; [|by vm_compute; set_solver..].
  apply M_bind_Ok in E as (source&st1&E1&E).
  assert (Hl1 : no_links (view st1)).
  { eapply leaves_links; [apply leaves_on_files, leaves_read_source|exact E1|exact Hl0]. }
  apply M_bind_Ok in E as ([scenario bytes]&?&[Hparse ->]%lift_Ok&E).
  pose proof Hparse as Hps. eapply parse_source in Hps as (->&Hvalid&_).
  apply M_bind_Ok in E as (choices&st2&E2&E).
  destruct (Scenario_choices scenario _) as [ch|] eqn:Hch; [|done]. injection E2 as -> <-.
  apply M_bind_Ok in E as (image&st3&E3&E).
  assert (Hl3 : no_links (view st3)).
  { eapply leaves_links; [apply leaves_on_files, leaves_build_image|exact E3|exact Hl1];
      [apply _|exact staged_cache|exact staged_runs]. }
  apply on_files_Ok in E3 as (s3&Eimage&->). apply build_image_digest in Eimage as [executable Hexe].
  apply M_bind_Ok in E as ([]&st4&E4&E).
  assert (Hl4 : no_links (view st4)).
  { eapply leaves_links; [apply leaves_on_files, leaves_create_private_dir|exact E4|exact Hl3].
    intros q Hq. apply staged_apart; [|exact Hq]. unfold staged_names. set_solver. }
  apply M_bind_Ok in E as ([]&st5&(s5&E5&->)%on_files_Ok&E).
  destruct (staged_write "scenario.toml" _ _ _ ltac:(unfold staged_names; set_solver) Hl4 E5) as (Hl5&Hsc5&_).
  apply M_bind_Ok in E as ([]&st6&(s6&E6&->)%on_files_Ok&E). unfold write_private_json in E6.
  apply M_bind_Ok in E6 as (cb&?&[Hcb ->]%lift_Ok&E6).
  destruct (staged_write "choices.json" _ _ _ ltac:(unfold staged_names; set_solver) Hl5 E6) as (Hl6&Hch6&Hother).
  assert (Hsc6 : file_at (view s6) ((runs ++ [x]) ++ ["scenario.toml"]) = Some source)
    by (rewrite Hother //; exact Hsc5).
  apply M_bind_Ok in E as ([vm fixture]&st7&E7&E).
  destruct (launched_identity _ _ _ _ _ _ _ _ _ _ _ E7) as [Hid Hfix]. rewrite Hp fixture_path in Hfix.
  apply M_bind_Ok in E as ([]&st8&E8&E).
  apply M_bind_Ok in E as ([driven vm']&st9&E9&E).
  unfold on_machine in E9. destruct (drive_scenario _ _ _ _) as [[r c]|] eqn:Edrive; [|done].
  injection E9 as -> <- <-. subst fixture.
  assert (Hdriven : driven = Ok (outcome.(ro_events), outcome.(ro_assertions)) /\
    outcome.(ro_scenario_name) = scenario.(scenario_name) /\
    outcome.(ro_executable_sha256) = image.(gi_executable_sha256) /\
    outcome.(ro_identity) = vm_identity (S := S) vm /\ outcome.(ro_workload) = None).
  { unfold finish_recording in E. apply dropping_Ok in E as (?&E&_).
    apply M_bind_Ok in E as (o&?&[Ho ->]%lift_Ok&E). apply M_bind_Ok in E as (?&?&_&E).
    apply M_bind_Ok in E as (?&?&_&E). apply M_bind_Ok in E as (?&?&_&E). apply M_bind_Ok in E as (?&?&_&E).
    injection E as <- _. destruct driven as [[events report]|e]; [|done]. by injection Ho as <-. }
  destruct Hdriven as (->&Hname&Hex&Hident&Hwork).
  assert (Hkeep : forall (W := staged_path) st0, st0 = (st8.1, c_diagnostics c) ->
    forall q, staged_path q -> label_at (view st') q = label_at (view s6) q).
  { intros _ st0 _ q Hq. rewrite (leaves_finish _ _ _ _ _ E q Hq). cbn [fst view attempt_view].
    change (label_at (view st8) q = label_at (view s6) q).
    rewrite (leaves_enter staged_path "execution" _ _ _ E8 q Hq).
    by rewrite (leaves_launch_recording _ _ _ _ _ _ _ Hp _ _ _ E7 q Hq). }
  specialize (Hkeep _ eq_refl).
  assert (Hfile : forall name, name ∈ staged_names ->
    file_at (view st') ((runs ++ [x]) ++ [name]) = file_at (view s6) ((runs ++ [x]) ++ [name])).
  { intros name Hn. unfold file_at. rewrite Hkeep; [done|by exists name]. }
  split_and!.
  - intros name Hn. rewrite label_link Hkeep; [|by exists name]. rewrite -label_link. by apply Hl6.
  - constructor; rewrite ?Hex ?Hident ?Hwork ?Hexe; [apply valid_sha256_bytes|exact Hid|done].
  - exists scenario, choices, vm, c. constructor.
    + exists source. rewrite Hfile; [by split|unfold staged_names; set_solver].
    + by eapply parsed_valid.
    + exact Hch.
    + exists cb. rewrite Hfile; [by split|unfold staged_names; set_solver].
    + by eexists.
    + exact Hname.
    + exact Hwork.
Qed.
End prepared.

(** ** The attempt *)

Lemma below_prefix n p q : p `prefix_of` q -> node_at n p = None -> node_at n q = None.
Proof. intros [r ->] Hn. by rewrite node_at_app Hn. Qed.

Section attempt.
Context {S : Type} `{RunFsLaws S} `{!RunFrames S} `{Sha256Laws}.
#[local] Set Default Proof Using "All".

Definition attempt_staging (run_id : string) : string := "." +:+ run_id +:+ ".tmp-" +:+ fmt_dec fs_pid.

Lemma create_staging_Ok runs run_id s staging s' :
  create_staging runs run_id s = Some (Ok staging, s') ->
  staging = {| sd_path := runs ++ [attempt_staging run_id]; sd_destination := runs ++ [run_id] |} /\
  is_dir (node_at (view s') (runs ++ [attempt_staging run_id])) = true /\
  is_dir (node_at (view s') runs) = true /\ no_links runs (attempt_staging run_id) (view s').
Proof.
  unfold create_staging. intros (o1&s1&_&E)%M_bind_Ok. apply M_bind_Ok in E as ([]&s2&_&E).
  apply M_bind_Ok in E as (canonical&s3&E3&E). apply M_bind_Ok in E as (root&s4&E4&E).
  assert (root = runs) as ->.
  { destruct canonical as [root'|e]; [|done]. injection E4 as -> _. unfold call in E3.
    destruct (rf_canonicalize runs s2) as [r s5] eqn:Ec. injection E3 as -> _.
    eapply (canonicalize_same runs s2). by rewrite Ec. }
  apply M_bind_Ok in E as ([]&s5&E5&[= <- <-]). unfold create_private_dir in E5.
  apply M_bind_Ok in E5 as (made&s6&E6&Em). destruct made; [done|]. injection Em as <-.
  unfold call in E6. destruct (rf_create_dir _ _ _) as [o s7] eqn:Ek. injection E6 as -> ->.
  fold (attempt_staging run_id) in *.
  apply mkdir_law in Ek as [[[] _]|(_&_&Hd&owner&mode&Hv)]; [done|]. split; [done|].
  assert (Hl : forall rest, label_at (view s6) ((runs ++ [attempt_staging run_id]) ++ rest)
    = label_at (NDir owner mode ∅) rest) by (intros rest; by rewrite Hv label_add // below_app).
  assert (Hn : is_dir (node_at (view s6) (runs ++ [attempt_staging run_id])) = true).
  { rewrite -is_dir_label. specialize (Hl []). rewrite app_nil_r in Hl.
    change (is_dir (label_at (view s6) (runs ++ [attempt_staging run_id])) = true). by rewrite Hl. }
  split_and!; [exact Hn| |].
  - destruct (node_at (view s6) (runs ++ [attempt_staging run_id])) eqn:En; [|done]. by eapply node_at_parent.
  - intros name _ Hbad. apply label_link in Hbad. by rewrite Hl in Hbad.
Qed.

Definition qmp_name (counter : Z) (run_id : string) : string :=
  "sf-" +:+ fmt_dec fs_pid +:+ "-" +:+ fmt_dec counter +:+ "-"
    +:+ str_of (take 16 (as_bytes (sha256_bytes (as_bytes run_id)))).

Lemma create_qmp_Ok run_id s q s' :
  create_qmp run_id s = Some (Ok q, s') ->
  (exists counter, q = ["tmp"; qmp_name counter run_id]) /\ node_at (view s) q = None /\
  forall other, ~ q `prefix_of` other -> label_at (view s') other = label_at (view s) other.
Proof.
  unfold create_qmp. intros (counter&s1&E1&E)%M_bind_Ok. unfold call in E1.
  pose proof (image_counter_frame s) as _. pose proof (runtime_counter_frame s) as Hv1.
  destruct (rf_runtime_counter s) as [c s1'] eqn:Ec. injection E1 as -> ->. cbn in Hv1.
  apply M_bind_Ok in E as ([]&s2&E2&[= <- <-]). unfold create_private_dir in E2.
  apply M_bind_Ok in E2 as (made&s3&E3&Em). destruct made; [done|]. injection Em as <-.
  unfold call in E3. destruct (rf_create_dir _ _ _) as [o s4] eqn:Ek. injection E3 as -> ->.
  fold (qmp_name counter run_id) in *.
  change (["tmp"; qmp_name counter run_id]) with (["tmp"] ++ [qmp_name counter run_id]) in *.
  apply mkdir_law in Ek as [[[] _]|(_&Hn&Hd&owner&mode&Hv)]; [done|].
  rewrite Hv1 in Hn Hd Hv. split; [by exists counter|]. split; [exact Hn|].
  intros other Ho. rewrite Hv. by apply add_entry_apart.
Qed.

(** A directory of the runs directory is apart from a fresh path that bears none of
    its names. *)
Lemma fresh_apart (n : Node) (q runs : Handle) (y : string) rest :
  node_at n q = None -> is_dir (node_at n runs) = true -> y ∉ q ->
  ~ q `prefix_of` ((runs ++ [y]) ++ rest).
Proof.
  intros Hq Hruns Hy Hp. rewrite -app_assoc in Hp. destruct (decide (q `prefix_of` runs)) as [Hr|Hr].
  - by rewrite (below_prefix _ _ _ Hr Hq) in Hruns.
  - destruct Hp as [tail Htail]. symmetry in Htail.
    apply app_eq_app in Htail as (l&[[-> Hl]|[-> Hl]]); [|by apply Hr, prefix_app_r].
    destruct l as [|y' l].
    + apply Hr. by rewrite app_nil_r.
    + injection Hl as -> _. apply Hy. set_solver.
Qed.

(** The names an attempt chooses do not meet. *)
Lemma run_id_apart nanos seed counter run_id : new_run_id nanos seed ∉ ["tmp"; qmp_name counter run_id].
Proof. unfold new_run_id, qmp_name. by intros [H'|[H'|[]%elem_of_nil]%elem_of_cons]%elem_of_cons. Qed.
Lemma staging_name_apart run_id counter : attempt_staging run_id ∉ ["tmp"; qmp_name counter run_id].
Proof. unfold attempt_staging, qmp_name. by intros [H'|[H'|[]%elem_of_nil]%elem_of_cons]%elem_of_cons. Qed.

Lemma remove_quietly_Ok q s s' : remove_quietly q s = Some (Ok tt, s') ->
  forall other, ~ q `prefix_of` other -> label_at (view s') other = label_at (view s) other.
Proof.
  unfold remove_quietly, mbind, M_bind, call. intros E other Ho.
  pose proof (remove_frame q s other Ho) as Hf. destruct (rf_remove_dir_all q s) as [o s1].
  injection E as <-. exact Hf.
Qed.
End attempt.

(** ** The recorded run *)

(** A tree that has the files of another beneath a directory holds the same run. *)
Section same.
Context `{Serde NormalizedEvent} `{Serde AssertionReport} `{Serde Manifest} `{Serde ChoicePlan}.
Context `{Sha256} `{DebugStr} `{PrettyDebug}.

Lemma described_same n n' d manifest :
  (forall rest, file_at n' (d ++ rest) = file_at n (d ++ rest)) ->
  described n d manifest -> described n' d manifest.
Proof.
  intros Hf [(data&Hm&?) ?? Hart ??]. constructor; [|done|done| |done..].
  - exists data. unfold join in *. by rewrite Hf.
  - intros name digest Hd. destruct (Hart name digest Hd) as (x&Hx&?). exists x. unfold join in *. by rewrite Hf.
Qed.

Lemma recorded_network_same toml n n' d manifest busybox p :
  (forall rest, file_at n' (d ++ rest) = file_at n (d ++ rest)) ->
  recorded_network toml n d manifest busybox p -> recorded_network toml n' d manifest busybox p.
Proof.
  intros Hf [?????? ?? [? ? ? ?] [? ? ?] ????]. unfold join in *.
  by repeat (constructor; unfold join; rewrite ?Hf).
Qed.
End same.

Section recorded.
Context {S T : Type} `{RunFsLaws S} `{!RunFrames S} `{HostFs T} `{Sha256Laws} `{DebugStr} `{PrettyDebug} `{Gzip}.
Context {V : Type} `{VmLog V} `{!VmAdapter S V} `{!MachineFrames S V}.
Context `{SerdeLaws NormalizedEvent normalized_readable} `{!SerdeLine NormalizedEvent}.
Context `{SerdePrettyLaws AssertionReport} `{SerdePrettyLaws Manifest} `{SerdePrettyLaws ChoicePlan}.
Context `{SerdePretty WorkloadChoicePlan} `{SerdePretty WorkloadLock} `{Serde CommandFrame} `{Serde EventFrame}.
Context `{OciDecoders} `{Serde CanonicalBinarySpec} `{Serde Closure} `{Serde DerivedLock}.
Context `{SerdePretty FailureReport} `{EscapeUnicode} `{ReportDebug}.
Variable toml_scenario : string -> Scenario + TomlError.
Variable toml_workload : string -> WorkloadScenario + TomlError.
#[local] Set Default Proof Using "All".

End recorded.

(** ** The sample recording *)

#[local] Existing Instance toy_sha256.
#[local] Existing Instance toy_sha256_laws.
#[local] Existing Instance mem_view.
#[local] Existing Instance run_fs.
#[local] Existing Instance run_paths.
#[local] Existing Instance run_debug.
#[local] Existing Instance recorded_event_serde.
#[local] Existing Instance recorded_report_serde.
#[local] Existing Instance recorded_report_text.
#[local] Existing Instance recorded_plan_serde.
#[local] Existing Instance recorded_plan_text.
#[local] Instance attempt_laws : FsLaws Mem := mem_laws 7 "runs".
#[local] Instance attempt_path_laws : RunFsLaws Mem := mem_run_laws 7 "runs".
#[local] Instance attempt_frames : RunFrames Mem := mem_frames 7 "runs".
#[local] Instance attempt_adapter : VmAdapter Mem ScriptVm := script_adapter recorded_vm small_frames.
#[local] Instance attempt_machine : MachineFrames Mem ScriptVm.
Proof. by apply script_frames; vm_compute. Qed.

Definition attempt_outcome : RecordOutcome := {|
  ro_scenario_name := "small"; ro_executable_sha256 := sha256_bytes sample_elf;
  ro_identity := recorded_vm; ro_events := recorded_events; ro_assertions := recorded_report;
  ro_workload := None |}.
Definition attempt_manifest : Manifest :=
  run_manifest recorded_id 11 "/simferret" attempt_outcome recorded_semantic
    (list_to_map (map (fun f => (f.1, sha256_bytes f.2)) recorded_files)).
#[local] Instance attempt_manifest_serde : Serde Manifest := pretty_serde [attempt_manifest].
#[local] Instance attempt_manifest_text : SerdePretty Manifest := pretty_text [attempt_manifest].
#[local] Instance attempt_manifest_laws : SerdePrettyLaws Manifest := pretty_laws _.
#[local] Instance attempt_event_laws : SerdeLaws NormalizedEvent normalized_readable := table_serde_laws _ _.
#[local] Instance attempt_event_line : SerdeLine NormalizedEvent := table_serde_line _.
#[local] Instance attempt_report_laws : SerdePrettyLaws AssertionReport := pretty_laws _.
#[local] Instance attempt_plan_laws : SerdePrettyLaws ChoicePlan := pretty_laws _.
#[local] Instance attempt_text : DebugStr := {| debug_str s := s |}.
#[local] Instance attempt_report : ReportDebug := {| report_debug _ := "report" |}.
(** A compressor that stores, and codecs of the types this run does not write. *)
#[local] Instance attempt_gzip : Gzip := {| gzip := Ok |}.
#[local] Instance attempt_unicode : EscapeUnicode := {| escape_unicode _ c := c |}.
#[local] Instance attempt_decoders : OciDecoders := sample_decoders.
#[local] Instance attempt_choice_text : SerdePretty WorkloadChoicePlan := {| to_vec_pretty _ := inr "none" |}.
#[local] Instance attempt_lock_text : SerdePretty WorkloadLock := {| to_vec_pretty _ := inr "none" |}.
#[local] Instance attempt_failure_text : SerdePretty FailureReport := {| to_vec_pretty _ := inr "none" |}.
#[local] Instance attempt_command : Serde CommandFrame := table_serde [].
#[local] Instance attempt_event : Serde EventFrame := table_serde [].
#[local] Instance attempt_spec : Serde CanonicalBinarySpec := table_serde [].
#[local] Instance attempt_closure : Serde Closure := table_serde [].
#[local] Instance attempt_derived : Serde DerivedLock := table_serde [].

Definition no_workload (text : string) : WorkloadScenario + TomlError := inr {| span := None |}.
Definition sample_attempt : option (result RunResult * (Mem * Mem)) :=
  record_with_adapter_and_assets (V := ScriptVm) recorded_toml no_workload 100 (Ok 1000) attempt_options
    (Some "/simferret") attempt_assets None (attempt_host, attempt_host).
Lemma sample_attempt_returns : match sample_attempt with
  | Some (Ok r, (_, s)) => bool_decide (s.(mem_budget) = None) && bool_decide (r.(rr_run_id) = recorded_id)
  | _ => false end = true.
Proof. vm_compute. reflexivity. Qed.

Lemma recorded_toml_ranges text scenario : recorded_toml text = inl scenario ->
  0 <= scenario.(payload_bytes) /\ 0 <= scenario.(outage_event_bound).
Proof. unfold recorded_toml. case_bool_decide; [intros [= <-]|done]. vm_compute. split; congruence. Qed.
Lemma attempt_names : Forall (fun c => c ∉ MACHINE_FILES) attempt_options.(op_runs_directory).
Proof.
  repeat constructor; unfold MACHINE_FILES; rewrite !not_elem_of_cons; (split_and!; [done..|apply not_elem_of_nil]).
Qed.

