(* ===== verification/Tools.v ===== *)
(** The tools a guest image carries, from [run.rs]: [GuestImageAssets::load], which
    finds the kernel modules beneath a directory and decompresses them. *)

From stdpp Require Import ssreflect.
From Stdlib Require Import Strings.Byte.
From S2P Require Import Prelude Types Std Tree Effects Root MemFs RunFiles Image RunSample.

(** [DirEntry]: its name, and what [file_type] answers. *)
Record DirEntry := { de_name : string; de_type : NodeType + io_error }.
(** [std::process::Output]. *)
Record ToolOutput := { to_success : bool; to_stdout : bytes; to_stderr : bytes }.

(** One method per call. *)
Class ToolHost (S : Type) := {
  th_variable : string -> S -> option Handle * S;      (** [env::var_os], as a path *)
  (** [fs::read_dir] and what its iterator delivers up to its end *)
  th_read_dir : Handle -> S -> (list (DirEntry + io_error) + io_error) * S;
  th_output : string -> list string -> Handle -> S -> (ToolOutput + io_error) * S;  (** [Command::output] *)
}.

Definition MAX_MODULE_BYTES : Z := 16 * 1024 * 1024.

Section tools.
Context {S : Type} `{RunFs S} `{ToolHost S}.

Definition required_environment_path (name : string) : M S Handle :=
  value ← call (th_variable name);
  lift (ok_or value (IoError NotFound (name +:+ " is not set"))).

(** The entries of a directory, whose subdirectories [visit] descends into. *)
Fixpoint visit_entries (visit : Handle -> list Handle -> M S (list Handle)) (directory : Handle)
    (filename : string) (entries : list (DirEntry + io_error)) (matches : list Handle) : M S (list Handle) :=
  match entries with
  | [] => mret matches
  | entry :: entries =>
      entry ← or_other entry;
      file_type ← or_other entry.(de_type);
      let path := directory ++ [entry.(de_name)] in
      if bool_decide (file_type = DirectoryNode) then
        matches ← visit path matches;
        visit_entries visit directory filename entries matches
      else if bool_decide (file_type = RegularNode) && bool_decide (entry.(de_name) = filename) then
        visit_entries visit directory filename entries (matches ++ [path])
      else visit_entries visit directory filename entries matches
  end.

Fixpoint visit (fuel : nat) (filename : string) (directory : Handle) (matches : list Handle)
    : M S (list Handle) :=
  match fuel with
  | O => out_of_fuel
  | Datatypes.S fuel =>
      opened ← call (th_read_dir directory);
      entries ← or_other opened;
      visit_entries (visit fuel filename) directory filename entries matches
  end.

Definition expected_one (filename : string) (modules : Handle) : io_error :=
  IoError InvalidInput ("expected exactly one " +:+ filename +:+ " under " +:+ display modules).

Definition find_kernel_module (fuel : nat) (root : Handle) (filename : string) : M S Handle :=
  let modules := join root "lib/modules" in
  matches ← visit fuel filename modules [];
  match matches with
  | [path] => mret path
  | _ => throw (expected_one filename modules)
  end.

Definition decompress_kernel_module (path : Handle) : M S bytes :=
  output ← call (th_output "xz" ["--decompress"; "--stdout"] path);
  output ← or_other output;
  _ ← fail_if (negb output.(to_success)) (IoError Other ("could not decompress kernel module "
    +:+ display path +:+ ": " +:+ from_utf8_lossy output.(to_stderr)));
  _ ← fail_if (bool_decide (output.(to_stdout) = []) || (MAX_MODULE_BYTES <? zlen output.(to_stdout)))
    (invalid_data ("decompressed kernel module has an invalid size: " +:+ display path));
  mret output.(to_stdout).

Definition load_assets (fuel : nat) : M S GuestImageAssets :=
  busybox ← required_environment_path "SIMFERRET_BUSYBOX";
  kernel_modules ← required_environment_path "SIMFERRET_KERNEL_MODULES";
  busybox ← read_whole busybox;
  path ← find_kernel_module fuel kernel_modules "mii.ko.xz";
  mii ← decompress_kernel_module path;
  path ← find_kernel_module fuel kernel_modules "8139cp.ko.xz";
  rtl8139cp ← decompress_kernel_module path;
  mret {| as_busybox := busybox; as_mii := mii; as_rtl8139cp := rtl8139cp |}.
End tools.

(** ** What a walk finds *)

(** The levels of a tree. *)
Fixpoint node_height (n : Node) : nat :=
  match n with
  | NDir _ _ entries => S (map_fold (fun _ child height => Nat.max (node_height child) height) 0%nat entries)
  | _ => 1
  end.

Lemma child_height (entries : gmap string Node) c child : entries !! c = Some child ->
  (node_height child <= map_fold (fun _ child height => Nat.max (node_height child) height) 0 entries)%nat.
Proof.
  revert c child. apply (map_fold_weak_ind (fun r entries => forall c child, entries !! c = Some child ->
    (node_height child <= r)%nat)); [by intros c child; rewrite lookup_empty|].
  intros c' child' entries' r _ IH c child. destruct (decide (c = c')) as [->|Hne].
  - rewrite lookup_insert_eq. intros [= ->]. lia.
  - rewrite lookup_insert_ne //. intros Hc%IH. lia.
Qed.

(** The regular files of a name beneath a directory. *)
Definition found (n : Node) (directory : Handle) (filename : string) (path : Handle) : Prop :=
  exists rest owner mode data, path = directory ++ rest ++ [filename] /\
    node_at n path = Some (NFile owner mode data).

(** The names and types of a directory's entries. *)
Definition listed (entries : gmap string Node) : list (string * NodeType) :=
  map (fun kv => (kv.1, (stat_of kv.2).(st_type))) (map_to_list entries).
Definition entry_of (nt : string * NodeType) : DirEntry + io_error :=
  inl {| de_name := nt.1; de_type := inl nt.2 |}.

(** Documented behaviour of [read_dir]: it changes nothing; what it lists, when
    every entry and type is answered, are the entries of the directory in some
    order; and a host that fails no call lists every directory. *)
Class ToolLaws (S : Type) `{FsView S} `{ToolHost S} := {
  read_dir_view p s : view (th_read_dir p s).2 = view s;
  read_dir_lists p s nts : (th_read_dir p s).1 = inl (map entry_of nts) ->
    exists owner mode entries, node_at (view s) p = Some (NDir owner mode entries) /\ nts ≡ₚ listed entries;
  read_dir_reliable p s : reliable s -> reliable (th_read_dir p s).2 /\
    (is_dir (node_at (view s) p) = true -> exists nts, (th_read_dir p s).1 = inl (map entry_of nts));
}.

Lemma listed_lookup entries name t : (name, t) ∈ listed entries <->
  exists child, entries !! name = Some child /\ (stat_of child).(st_type) = t.
Proof.
  unfold listed. rewrite list_elem_of_fmap. split.
  - intros ([name' child]&[= -> ->]&Hin%elem_of_map_to_list). by exists child.
  - intros (child&Hc&<-). exists (name, child). by rewrite elem_of_map_to_list.
Qed.
Lemma listed_names entries : NoDup (map fst (listed entries)).
Proof.
  unfold listed. rewrite map_map. exact (NoDup_fst_map_to_list entries).
Qed.

(** What the entries of a directory contribute. *)
Definition entry_found (n : Node) (directory : Handle) (filename : string) (path : Handle)
    (nt : string * NodeType) : Prop :=
  nt.2 = DirectoryNode /\ found n (directory ++ [nt.1]) filename path \/
  nt.2 = RegularNode /\ nt.1 = filename /\ path = directory ++ [nt.1].

Lemma found_entries n directory filename path owner mode entries :
  node_at n directory = Some (NDir owner mode entries) ->
  found n directory filename path <-> Exists (entry_found n directory filename path) (listed entries).
Proof.
  intros Hd. rewrite list.Exists_exists. split.
  - intros (rest&o&m&data&->&Hn). destruct rest as [|c rest].
    + rewrite node_at_app Hd /= in Hn. apply bind_Some in Hn as (child&Hc&[= ->]).
      exists (filename, RegularNode). split; [apply listed_lookup; by eexists|]. by right.
    + assert (Hc : exists child, entries !! c = Some child /\ is_dir (Some child) = true).
      { rewrite node_at_app Hd /= in Hn. apply bind_Some in Hn as (child&Hc&Hn). exists child.
        split; [done|]. by destruct child, rest. }
      destruct Hc as (child&Hc&Hdir). exists (c, DirectoryNode). split.
      * apply listed_lookup. exists child. split; [done|]. by destruct child.
      * left. split; [done|]. exists rest, o, m, data. cbn [fst].
        rewrite -!app_assoc /=. by split.
  - intros ([name t]&Hin&Hf). apply listed_lookup in Hin as (child&Hc&Ht). cbn in *.
    destruct Hf as [[Hdir (rest&o&m&data&->&Hn)]|(Hfile&Hname&->)]; cbn [fst snd] in *.
    + exists (name :: rest), o, m, data. rewrite -app_assoc in Hn |- *. by split.
    + subst name t. destruct child as [o m data| | |]; try done. exists [], o, m, data. split; [done|].
      by rewrite node_at_app Hd /= Hc.
Qed.

Lemma found_below n directory filename path : found n directory filename path -> directory `prefix_of` path.
Proof. intros (rest&?&?&?&->&_). by apply prefix_app_r. Qed.

(** Entries with different names find different paths. *)
Lemma entry_found_name n directory filename path nt nt' :
  entry_found n directory filename path nt -> entry_found n directory filename path nt' -> nt.1 = nt'.1.
Proof.
  assert (Hpre : forall nt, entry_found n directory filename path nt -> directory ++ [nt.1] `prefix_of` path).
  { intros x [[_ Hf]|(_&_&->)]; [by eapply found_below|done]. }
  intros [r ->]%Hpre [r' Hr]%Hpre. rewrite -!app_assoc in Hr. by apply app_inv_head in Hr as [= ->].
Qed.

(** Entries that are all answered. *)
Fixpoint answered (entries : list (DirEntry + io_error)) : option (list (string * NodeType)) :=
  match entries with
  | [] => Some []
  | inl {| de_name := name; de_type := inl t |} :: entries => cons (name, t) <$> answered entries
  | _ :: _ => None
  end.
Lemma answered_Some entries nts : answered entries = Some nts <-> entries = map entry_of nts.
Proof.
  revert nts. induction entries as [|[[name [t|e]]|e] entries IH]; intros nts; cbn.
  - split; [by intros [= <-]|]. by destruct nts.
  - split.
    + intros (l&Hl%IH&->)%fmap_Some. by rewrite Hl.
    + intros Heq. destruct nts as [|[name' t'] nts]; [done|]. injection Heq as -> -> Heq.
      apply IH in Heq. by rewrite Heq.
  - split; [done|]. by destruct nts.
  - split; [done|]. by destruct nts.
Qed.

Lemma entry_of_inj nts nts' : map entry_of nts = map entry_of nts' -> nts = nts'.
Proof.
  intros Heq. assert (Hn : answered (map entry_of nts) = Some nts) by by apply answered_Some.
  apply (answered_Some _ nts') in Heq. congruence.
Qed.

Section walk.
Context {S : Type} `{RunFs S} `{FsView S} `{ToolHost S} `{!ToolLaws S}.
#[local] Set Default Proof Using "All".

(** The paths a walk adds to its matches. *)
Definition adds (n : Node) (m : list Handle -> M S (list Handle)) (P : Handle -> Prop) : Prop :=
  forall before s, view s = n -> match m before s with
  | Some (Ok after, s') => view s' = n /\ exists new, after = before ++ new /\ NoDup new /\ forall q, q ∈ new <-> P q
  | Some (Err _, s') => view s' = n
  | None => True
  end.

Lemma adds_bind n m k P Q : adds n m P -> adds n k Q -> (forall q, P q -> Q q -> False) ->
  adds n (fun before => middle ← m before; k middle) (fun q => P q \/ Q q).
Proof.
  intros Hm Hk Hd before s Hs. specialize (Hm before s Hs). unfold mbind, M_bind.
  destruct (m before s) as [[[middle|e] s1]|]; [|done..]. destruct Hm as (Hs1&new&->&Hnew&Hp).
  specialize (Hk (before ++ new) s1 Hs1). destruct (k (before ++ new) s1) as [[[after|e] s2]|]; [|done..].
  destruct Hk as (Hs2&new'&->&Hnew'&Hq). split; [done|]. exists (new ++ new').
  rewrite app_assoc. split; [done|]. split.
  - apply list.NoDup_app. split_and!; [done| |done]. intros q Hin%Hp Hin'%Hq. by eapply Hd.
  - intros q. by rewrite elem_of_app Hp Hq.
Qed.
Lemma adds_weaken n m P Q : adds n m P -> (forall q, P q <-> Q q) -> adds n m Q.
Proof.
  intros Hm HPQ before s Hs. specialize (Hm before s Hs).
  destruct (m before s) as [[[after|e] s1]|]; [|done..]. destruct Hm as (?&new&?&?&Hq).
  split; [done|]. exists new. split_and!; [done..|]. intros q. by rewrite Hq HPQ.
Qed.
Lemma adds_ret n : adds n mret (fun _ => False).
Proof. intros before s Hs. split; [done|]. exists []. rewrite app_nil_r. split_and!; [done|constructor|set_solver]. Qed.
Lemma adds_one n path : adds n (fun before => mret (before ++ [path])) (eq path).
Proof.
  intros before s Hs. split; [done|]. exists [path]. split_and!; [done|apply list.NoDup_singleton|set_solver].
Qed.

Lemma or_other_adds {A} n (r : A + io_error) (k : A -> list Handle -> M S (list Handle)) P :
  (forall a, r = inl a -> adds n (k a) P) -> adds n (fun before => a ← or_other r; k a before) P.
Proof. intros Hk before s Hs. destruct r as [a|e]; [exact (Hk a eq_refl before s Hs)|done]. Qed.

Lemma visit_entries_cons step directory filename name t entries matches :
  visit_entries step directory filename (inl {| de_name := name; de_type := inl t |} :: entries) matches
  = (let path := directory ++ [name] in
     if bool_decide (t = DirectoryNode) then
       matches ← step path matches; visit_entries step directory filename entries matches
     else if bool_decide (t = RegularNode) && bool_decide (name = filename) then
       visit_entries step directory filename entries (matches ++ [path])
     else visit_entries step directory filename entries matches : M S (list Handle)).
Proof. reflexivity. Qed.

Lemma visit_entries_adds n step directory filename :
  (forall name, adds n (step (directory ++ [name])) (found n (directory ++ [name]) filename)) ->
  forall entries nts, entries = map entry_of nts -> NoDup (map fst nts) ->
  adds n (visit_entries step directory filename entries)
    (fun q => Exists (entry_found n directory filename q) nts).
Proof.
  intros Hstep entries nts -> Hnames. induction nts as [|[name t] nts IH]; cbn [map].
  - eapply adds_weaken; [apply adds_ret|]. intros q. by rewrite Exists_nil.
  - apply list.NoDup_cons in Hnames as [Hnew Hnames]. specialize (IH Hnames).
    assert (Hdis : forall q, entry_found n directory filename q (name, t) ->
      Exists (entry_found n directory filename q) nts -> False).
    { intros q Hq (nt&Hin&Hq')%list.Exists_exists. apply Hnew.
      pose proof (entry_found_name _ _ _ _ _ _ Hq Hq') as Hn. cbn in Hn. subst name. apply list_elem_of_fmap. by exists nt. }
    assert (Hgoal : forall m, adds n m (fun q => entry_found n directory filename q (name, t)) ->
      adds n (fun before => middle ← m before; visit_entries step directory filename (map entry_of nts) middle)
        (fun q => Exists (entry_found n directory filename q) ((name, t) :: nts))).
    { intros m Hm. eapply adds_weaken; [by apply (adds_bind _ _ _ _ _ Hm IH)|].
      intros q. by rewrite Exists_cons. }
    intros before s Hs. change (entry_of (name, t)) with (inl (B := io_error) {| de_name := name; de_type := inl t |}).
    rewrite visit_entries_cons. case_bool_decide as Hdir; [|destruct (_ && _) eqn:Hfile].
    + refine (Hgoal _ _ before s Hs). eapply adds_weaken; [apply Hstep|].
      intros q. split; [intros Hf; by left|]. intros [[_ Hf]|[Hf _]]; [done|]. cbn in *. congruence.
    + apply andb_true_iff in Hfile as [Ht%bool_decide_eq_true Hname%bool_decide_eq_true].
      refine (Hgoal (fun before => mret (before ++ [directory ++ [name]])) _ before s Hs).
      eapply adds_weaken; [apply adds_one|]. intros q. split; [intros <-; by right|].
      intros [[Hf _]|(_&_&->)]; [|done]. cbn in *. congruence.
    + refine (Hgoal mret _ before s Hs). eapply adds_weaken; [apply adds_ret|]. intros q. split; [done|].
      intros [[Hf _]|(Hf&Hn&_)]; cbn in *; [done|]. by rewrite !bool_decide_eq_true_2 in Hfile.
Qed.

(** An entry that is not answered ends the walk. *)
Lemma visit_entries_fails n step directory filename :
  (forall name, adds n (step (directory ++ [name])) (found n (directory ++ [name]) filename)) ->
  forall entries, (forall nts, entries <> map entry_of nts) -> forall before s, view s = n ->
  match visit_entries step directory filename entries before s with
  | Some (Ok _, _) => False | Some (Err _, s') => view s' = n | None => True end.
Proof.
  intros Hstep. induction entries as [|entry entries IH]; intros Hbad before s Hs; [by destruct (Hbad [])|].
  destruct entry as [[name [t|e]]|e]; [|done..]. rewrite visit_entries_cons.
  assert (Hrest : forall nts, entries <> map entry_of nts).
  { intros nts ->. by apply (Hbad ((name, t) :: nts)). }
  specialize (IH Hrest). case_bool_decide; [|by destruct (_ && _); apply IH].
  pose proof (Hstep name before s Hs) as Hd. unfold mbind, M_bind. destruct (step _ before s) as [[[middle|e] s1]|]; [|done..].
  destruct Hd as [Hs1 _]. by apply IH.
Qed.

Lemma visit_adds n fuel filename : forall directory, adds n (visit fuel filename directory) (found n directory filename).
Proof.
  induction fuel as [|fuel IH]; intros directory before s Hs; [done|].
  cbn [visit]. unfold mbind, M_bind, call.
  pose proof (read_dir_view directory s) as Hv. pose proof (read_dir_lists directory s) as Hl.
  destruct (th_read_dir directory s) as [opened s1]. cbn in Hv, Hl. rewrite Hs in Hl, Hv.
  destruct opened as [entries|e]; [|done]. cbn.
  destruct (answered entries) as [nts|] eqn:Ha.
  - apply answered_Some in Ha. destruct (Hl nts) as (owner&mode&m&Hd&Hperm); [by rewrite Ha|].
    refine (adds_weaken _ _ _ _ (visit_entries_adds n (visit fuel filename) directory
      filename (fun name => IH (directory ++ [name])) _ nts Ha _) _ before s1 Hv).
    + rewrite Hperm. apply listed_names.
    + intros q. by rewrite (found_entries _ _ _ _ _ _ _ Hd) Hperm.
  - pose proof (visit_entries_fails n (visit fuel filename) directory filename
      (fun name => IH (directory ++ [name])) entries) as Hf.
    specialize (Hf ltac:(intros nts Hn%answered_Some; congruence) before s1 Hv).
    by destruct (visit_entries _ _ _ _ _ _) as [[[]]|].
Qed.

(** A walk of a host that fails no call returns. *)
Definition walks (n : Node) (m : list Handle -> M S (list Handle)) : Prop :=
  forall before s, reliable s -> view s = n ->
  exists after s', m before s = Some (Ok after, s') /\ reliable s' /\ view s' = n.

Lemma visit_entries_walks n step directory filename nts :
  (forall name, (name, DirectoryNode) ∈ nts -> walks n (step (directory ++ [name]))) ->
  walks n (visit_entries step directory filename (map entry_of nts)).
Proof.
  induction nts as [|[name t] nts IH]; intros Hstep before s Hr Hv; [by exists before, s|].
  cbn [map]. change (entry_of (name, t)) with (inl (B := io_error) {| de_name := name; de_type := inl t |}).
  rewrite visit_entries_cons.
  assert (Hrest : walks n (visit_entries step directory filename (map entry_of nts))).
  { apply IH. intros name' Hin. apply Hstep. by right. }
  case_bool_decide as Ht; [|by destruct (_ && _); apply Hrest].
  subst t. destruct (Hstep name ltac:(left) before s Hr Hv) as (middle&s1&E&Hr1&Hv1).
  unfold mbind, M_bind. rewrite E. by apply Hrest.
Qed.

Lemma visit_walks n filename fuel : forall directory d,
  node_at n directory = Some d -> is_dir (Some d) = true -> (node_height d <= fuel)%nat ->
  walks n (visit fuel filename directory).
Proof.
  induction fuel as [|fuel IH]; intros directory d Hd Hdir Hf before s Hr Hv.
  { destruct d; cbn in Hf; lia. }
  destruct (read_dir_reliable directory s Hr) as [Hr1 Hnts].
  rewrite Hv Hd in Hnts. destruct (Hnts Hdir) as [nts Hl]. apply read_dir_lists in Hl as Hl'.
  destruct Hl' as (owner&mode&m&Hm&Hperm). rewrite Hv Hd in Hm. injection Hm as ->.
  pose proof (read_dir_view directory s) as Hv1.
  cbn [visit]. unfold mbind, M_bind, call. destruct (th_read_dir directory s) as [opened s1].
  cbn in Hl, Hr1, Hv1. subst opened.
  refine (visit_entries_walks n (visit fuel filename) directory filename nts _ before s1 Hr1 _); [|congruence].
  intros name Hin. rewrite Hperm in Hin. apply listed_lookup in Hin as (child&Hc&Ht).
  apply (IH _ child); [by rewrite node_at_app Hd /= Hc|by destruct child|].
  pose proof (child_height _ _ _ Hc). cbn in Hf. lia.
Qed.

(** C37. The lookup of a kernel module finds the one that is there.  When it returns a
    path, the tree is unchanged and that path is the only regular file of the name
    at any depth beneath [lib/modules]; links are not followed.  On a host that
    fails no call, whose [lib/modules] is a directory, the walk ends with as much
    fuel as the tree has levels: it returns the only such file when there is
    exactly one, and otherwise the error that says how many are expected. *)
Theorem find_kernel_module_unique fuel root filename (s : S) :
  let modules := join root "lib/modules" in
  (forall path s', find_kernel_module fuel root filename s = Some (Ok path, s') ->
    view s' = view s /\ forall q, found (view s) modules filename q <-> q = path) /\
  (forall d, reliable s -> node_at (view s) modules = Some d -> is_dir (Some d) = true -> (node_height d <= fuel)%nat ->
    exists r s', find_kernel_module fuel root filename s = Some (r, s') /\ view s' = view s /\
    match r with
    | Ok path => forall q, found (view s) modules filename q <-> q = path
    | Err e => e = expected_one filename modules /\ ~ exists path, forall q, found (view s) modules filename q <-> q = path
    end).
Proof.
  intros modules. unfold find_kernel_module. fold modules.
  pose proof (visit_adds (view s) fuel filename modules [] s eq_refl) as Hadds.
  split.
  - intros path s' (matches&s1&E&E')%M_bind_Ok. rewrite E in Hadds.
    destruct Hadds as (Hv&new&->&_&Hin). destruct new as [|p [|]]; try done.
    injection E' as <- <-. split; [done|]. intros q. rewrite -Hin. set_solver.
  - intros d Hr Hd Hdir Hf.
    destruct (visit_walks (view s) filename fuel modules d Hd Hdir Hf [] s Hr eq_refl) as (matches&s1&E&_&Hv).
    unfold mbind, M_bind. rewrite E in Hadds |- *. destruct Hadds as (_&new&->&Hnd&Hin). cbn [app].
    assert (Hnone : length new <> 1%nat -> ~ exists path, forall q, found (view s) modules filename q <-> q = path).
    { intros Hl [path Hp]. apply Hl. assert (Hperm : new ≡ₚ [path]).
      { apply NoDup_Permutation; [done|apply list.NoDup_singleton|]. intros q. rewrite Hin Hp. set_solver. }
      by rewrite Hperm. }
    destruct new as [|p [|p' new]].
    + exists (Err (expected_one filename modules)), s1. split_and!; [done..|by apply Hnone].
    + exists (Ok p), s1. split_and!; [done..|]. intros q. rewrite -Hin. set_solver.
    + exists (Err (expected_one filename modules)), s1. split_and!; [done..|by apply Hnone].
Qed.
End walk.

(** ** The filesystem in memory *)

Section memory.
Context (pid : Z) (name : string).
#[local] Instance tool_fs : HostFs Mem := mem_fs pid name.
#[local] Existing Instance mem_view.
#[local] Instance tool_run : RunFs Mem := mem_run pid name.

(** Programs that are found, and a decompressor that copies. *)
Definition mem_tools : ToolHost Mem := {|
  th_variable variable s := (Some [variable], s);
  th_read_dir path := mem_reads (fun n =>
    match node_at n path with Some (NDir _ _ entries) => Some (map entry_of (listed entries)) | _ => None end);
  th_output _ _ path := mem_reads (fun n =>
    data ← node_file n path; Some {| to_success := true; to_stdout := data; to_stderr := [] |}) |}.
#[local] Existing Instance mem_tools.

#[local] Instance mem_tool_laws : ToolLaws Mem.
Proof.
  split.
  - intros p s. cbn. unfold mem_reads. destruct (spend s) as [s1|] eqn:E; [|done].
    by destruct (spend_Some _ _ E) as [Hn _].
  - intros p s nts. cbn. unfold mem_reads. destruct (spend s) as [s1|] eqn:E; [|done].
    destruct (spend_Some _ _ E) as [Hn _]. rewrite -Hn.
    destruct (node_at _ p) as [[|owner mode m| |]|]; try done. cbn. intros [= Heq].
    exists owner, mode, m. split; [done|]. by rewrite (entry_of_inj _ _ Heq).
  - intros p s Hr. cbn. unfold mem_reads. destruct (spend s) as [s1|] eqn:E; [|by apply spend_None in E].
    destruct (spend_Some _ _ E) as [Hn Hr1]. rewrite -Hn. split; [by apply Hr1|].
    destruct (node_at _ p) as [[|owner mode m| |]|]; try done. intros _. by exists (listed m).
Qed.
End memory.

Definition module_tree : Node :=
  NDir 1000 493 {[ "lib" := NDir 1000 493 {[ "modules" := NDir 1000 493 {[ "6.12" :=
    NDir 1000 493 (list_to_map [
      ("net", NDir 1000 493 {[ "mii.ko.xz" := NFile 0 292 (as_bytes "module") ]});
      ("mii.ko", NFile 0 292 []); ("8139cp.ko.xz", NLink)])]}]}]}.
Definition module_host : Mem := {| mem_tree := module_tree; mem_count := 0; mem_budget := None |}.

#[local] Existing Instance mem_view.
#[local] Instance module_fs : HostFs Mem := mem_fs 7 "runs".
#[local] Instance module_run : RunFs Mem := mem_run 7 "runs".
#[local] Instance module_tools : ToolHost Mem := mem_tools.
#[local] Instance module_laws : ToolLaws Mem := mem_tool_laws.

Lemma find_kernel_module_unique_witness :
  let modules := ["lib"; "modules"] in let path := modules ++ ["6.12"; "net"; "mii.ko.xz"] in
  (exists s', find_kernel_module (S := Mem) 10 [] "mii.ko.xz" module_host = Some (Ok path, s')) /\
  (forall q, found module_tree modules "mii.ko.xz" q <-> q = path) /\
  (exists s', find_kernel_module (S := Mem) 10 [] "8139cp.ko.xz" module_host
     = Some (Err (expected_one "8139cp.ko.xz" modules), s')).
Proof.
  intros modules path.
  assert (E : find_kernel_module (S := Mem) 10 [] "mii.ko.xz" module_host = Some (Ok path, module_host))
    by (vm_compute; reflexivity).
  split; [by exists module_host|]. split.
  - exact (proj2 (proj1 (find_kernel_module_unique 10 [] "mii.ko.xz" module_host) path module_host E)).
  - assert (Hr : reliable module_host) by reflexivity.
    destruct (proj2 (find_kernel_module_unique 10 [] "8139cp.ko.xz" module_host) _ Hr eq_refl eq_refl)
      as (r&s'&E'&_&Hres); [vm_compute; lia|].
    exists s'. rewrite E'. destruct r as [p|e]; [|by destruct Hres as [-> _]].
    exfalso. vm_compute in E'. discriminate E'.
Defined.
