(* ===== verification/Commands.v ===== *)
(** The entry points of a recording and a replay, from [run.rs]: the platform, the
    emulator and the guest's tools, whose failures leave a bundle of their own. *)

From stdpp Require Import ssreflect.
From Stdlib Require Import Strings.Byte.
From S2P Require Import Prelude Types Std Protocol Scenario Assertions Tree Spec Oci Checker Fixture Effects Vm Driver Identity Root Store RunFiles Image RunBase Text Sanitize Process Failure Qemu Artifacts Recording Replay Tools.

Section commands.
Context {S T V : Type} `{RunFs S} `{ProcessHost S} `{QemuHost S} `{ToolHost S} `{RunningVm V} `{HostFs T}.
Context `{Sha256} `{Gzip} `{DebugStr} `{PrettyDebug} `{ReportDebug} `{EscapeUnicode}.
Context `{SerdeValue} `{Serde NormalizedEvent} `{Serde AssertionReport} `{SerdePretty AssertionReport}.
Context `{Serde Manifest} `{SerdePretty Manifest} `{Serde ChoicePlan} `{SerdePretty ChoicePlan}.
Context `{Serde WorkloadChoicePlan} `{SerdePretty WorkloadChoicePlan} `{Serde WorkloadLock} `{SerdePretty WorkloadLock}.
Context `{Serde CommandFrame} `{Serde EventFrame} `{SerdePretty FailureReport}.
Context `{OciDecoders} `{Serde CanonicalBinarySpec} `{Serde Closure} `{Serde DerivedLock}.
Variable toml_scenario : string -> Scenario + TomlError.
Variable toml_workload : string -> WorkloadScenario + TomlError.
Variable fuel : nat.
(** [std::env::consts::OS] and [ARCH]. *)
Variables OS ARCH : string.

Definition supported_platform : bool := bool_decide (OS = "linux") && bool_decide (ARCH = "x86_64").

Section recording.
(** The machines of an adapter. *)
Context `{!VmAdapter S V}.

Definition record_with_adapter_and_asset_loader (clock : result Z) (nanos : Z) (options : RunOptions)
    (executable_path : option string) (load_assets : M S GuestImageAssets)
    (specification : option (result WorkloadSpec)) : M (T * S) RunResult :=
  loaded ← catch (Recording.on_host load_assets);
  match loaded with
  | Err e =>
      e ← Recording.on_host (dependency_failure e options.(op_runs_directory) "record" nanos);
      throw e
  | Ok assets =>
      record_with_adapter_and_assets (V := V) toml_scenario toml_workload fuel clock options executable_path
        assets specification
  end.

Definition record_with_adapter (clock : result Z) (nanos : Z) (options : RunOptions)
    (executable_path : option string) (specification : option (result WorkloadSpec)) : M (T * S) RunResult :=
  record_with_adapter_and_asset_loader clock nanos options executable_path (load_assets fuel) specification.

Definition replay_with_adapter (nanos : Z) (options : ReplayOptions) : M S ReplayResult :=
  loaded ← catch (load_assets fuel);
  match loaded with
  | Err e => e ← replay_dependency_failure e options nanos; throw e
  | Ok assets => replay_with_adapter_and_assets (V := V) toml_scenario toml_workload nanos options assets
  end.
End recording.

(** The trait object of an adapter that was found. *)
Variable vm_adapter : QemuAdapter -> VmAdapter S V.

Definition record (clock : result Z) (nanos : Z) (options : RunOptions) (executable_path : option string)
    (specification : option (result WorkloadSpec)) : M (T * S) RunResult :=
  _ ← fail_if (negb supported_platform) (IoError Unsupported "record mode supports x86-64 Linux only");
  adapter ← catch (Recording.on_host from_environment);
  match adapter with
  | Err e =>
      e ← Recording.on_host (dependency_failure e options.(op_runs_directory) "record" nanos);
      throw e
  | Ok adapter =>
      record_with_adapter (VmAdapter0 := vm_adapter adapter) clock nanos options executable_path specification
  end.

Definition replay (nanos : Z) (options : ReplayOptions) : M S ReplayResult :=
  _ ← fail_if (negb supported_platform) (IoError Unsupported "replay mode supports x86-64 Linux only");
  adapter ← catch from_environment;
  match adapter with
  | Err e => e ← replay_dependency_failure e options nanos; throw e
  | Ok adapter => replay_with_adapter (VmAdapter0 := vm_adapter adapter) nanos options
  end.
End commands.
