(* ===== verification/Cli.v ===== *)
(** The command line, from [main.rs]: the options of each subcommand, what each
    prints, the exit code, and the command that is printed for a replay. *)

From stdpp Require Import ssreflect.
From Stdlib Require Import Strings.Byte.
From S2P Require Import Prelude Types Std Assertions Tree Spec Effects Root Store RunFiles Artifacts.

(** An argument is a string of the operating system; a path given as one is not
    resolved here. *)
#[local] Notation os_string := bytes.
Definition into_string (argument : os_string) : option string :=
  match from_utf8 argument with inl text => Some text | inr _ => None end.
Definition arg (text : string) : os_string := as_bytes text.

Definition usage : io_error := IoError InvalidInput
  "usage: simferret run --scenario PATH --seed N [--workload SPECIFICATION] [--runs-dir PATH] | simferret replay RUN_DIRECTORY | simferret workload assemble --specification PATH --store PATH | simferret workload verify STORE | simferret guest-agent".

(** ** Options *)

(** The variables of the loop over the options of [run]. *)
Record RunArguments := {
  ra_scenario : option os_string;
  ra_seed : option Z;
  ra_workload : option os_string;
  ra_runs_directory : os_string;
}.
Definition no_run_arguments : RunArguments :=
  {| ra_scenario := None; ra_seed := None; ra_workload := None; ra_runs_directory := arg "runs" |}.

Definition parse_seed (value : os_string) : option Z :=
  text ← into_string value; parse_u64 (as_bytes text).

(** One option with its value. *)
Definition run_option (option value : os_string) (a : RunArguments) : result RunArguments :=
  let o := into_string option in
  if bool_decide (o = Some "--scenario") && bool_decide (a.(ra_scenario) = None) then
    Ok {| ra_scenario := Some value; ra_seed := a.(ra_seed); ra_workload := a.(ra_workload);
          ra_runs_directory := a.(ra_runs_directory) |}
  else if bool_decide (o = Some "--seed") && bool_decide (a.(ra_seed) = None) then
    seed ← ok_or (parse_seed value) usage;
    Ok {| ra_scenario := a.(ra_scenario); ra_seed := Some seed; ra_workload := a.(ra_workload);
          ra_runs_directory := a.(ra_runs_directory) |}
  else if bool_decide (o = Some "--workload") && bool_decide (a.(ra_workload) = None) then
    Ok {| ra_scenario := a.(ra_scenario); ra_seed := a.(ra_seed); ra_workload := Some value;
          ra_runs_directory := a.(ra_runs_directory) |}
  else if bool_decide (o = Some "--runs-dir") then
    Ok {| ra_scenario := a.(ra_scenario); ra_seed := a.(ra_seed); ra_workload := a.(ra_workload);
          ra_runs_directory := value |}
  else Err usage.

Fixpoint run_options (arguments : list os_string) (a : RunArguments) : result RunArguments :=
  match arguments with
  | [] => Ok a
  | [_] => Err usage
  | option :: value :: arguments => a ← run_option option value a; run_options arguments a
  end.

Record AssembleArguments := { aa_specification : option os_string; aa_store : option os_string }.

Definition assemble_option (option value : os_string) (a : AssembleArguments) : result AssembleArguments :=
  let o := into_string option in
  if bool_decide (o = Some "--specification") && bool_decide (a.(aa_specification) = None) then
    Ok {| aa_specification := Some value; aa_store := a.(aa_store) |}
  else if bool_decide (o = Some "--store") && bool_decide (a.(aa_store) = None) then
    Ok {| aa_specification := a.(aa_specification); aa_store := Some value |}
  else Err usage.

Fixpoint assemble_options (arguments : list os_string) (a : AssembleArguments) : result AssembleArguments :=
  match arguments with
  | [] => Ok a
  | [_] => Err usage
  | option :: value :: arguments => a ← assemble_option option value a; assemble_options arguments a
  end.

(** ** The printed command *)

(** The bytes of an apostrophe between double quotes, outside the single quotes. *)
Definition APOSTROPHE : byte := Byte.x27.
Definition QUOTED_APOSTROPHE : bytes := [Byte.x27; Byte.x22; Byte.x27; Byte.x22; Byte.x27].
Definition quote_bytes (text : bytes) : bytes :=
  APOSTROPHE :: flat_map (fun b => if bool_decide (b = APOSTROPHE) then QUOTED_APOSTROPHE else [b]) text
    ++ [APOSTROPHE].
Definition shell_quote (path : Handle) : result string :=
  text ← ok_or (to_str path) (IoError InvalidInput "replay path is not UTF-8");
  Ok (str_of (quote_bytes text)).

(** ** The subcommands *)

(** [RunOptions] and [ReplayOptions], their paths as they were given. *)
Record RunRequest := {
  rq_scenario : os_string; rq_seed : Z; rq_runs_directory : os_string; rq_kernel : os_string;
  rq_executable : os_string; rq_workload : option os_string;
}.
Record ReplayRequest := { rr_recording : os_string; rr_kernel : os_string; rr_executable : os_string }.

(** What the command line calls: the components, and the calls on the process. *)
Class Subcommands (X : Type) := {
  cl_pid : Z;
  cl_variable : string -> X -> option os_string * X;
  cl_current_exe : X -> (os_string + io_error) * X;
  cl_canonicalize : Handle -> X -> (Handle + io_error) * X;
  cl_init : M X Z;                                   (** [guest::init] *)
  cl_agent : os_string -> M X Z;                     (** [agent::run] on the standard streams *)
  cl_record : RunRequest -> M X RunResult;
  cl_replay : ReplayRequest -> M X ReplayResult;
  cl_assemble : os_string -> os_string -> M X AssembledWorkload;
  cl_load : os_string -> M X LoadedWorkload;
}.

Section cli.
Context {X : Type} `{Subcommands X}.

(** The lines on the standard output so far. *)
Definition on_process {A} (m : M X A) : M (X * list string) A := zoom fst (fun x st => (x, st.2)) m.
Definition println (line : string) : M (X * list string) unit := modify (fun st => (st.1, st.2 ++ [line])).

(** [as u8]. *)
Definition as_u8 (code : Z) : Z := code mod 256.

Definition kernel_variable : M (X * list string) os_string :=
  value ← on_process (call (cl_variable "SIMFERRET_KERNEL"));
  lift (ok_or value (IoError NotFound "SIMFERRET_KERNEL is not set")).
Definition current_exe : M (X * list string) os_string :=
  r ← on_process (call cl_current_exe); or_other r.

Definition verdict (report : AssertionReport) : string :=
  "assertions: " +:+ (if report.(passed) then "passed" else "failed").

Definition run_command (arguments : list os_string) : M (X * list string) Z :=
  a ← lift (run_options arguments no_run_arguments);
  kernel ← kernel_variable;
  scenario ← lift (ok_or a.(ra_scenario) usage);
  seed ← lift (ok_or a.(ra_seed) usage);
  executable ← current_exe;
  result ← on_process (cl_record {| rq_scenario := scenario; rq_seed := seed;
    rq_runs_directory := a.(ra_runs_directory); rq_kernel := kernel; rq_executable := executable;
    rq_workload := a.(ra_workload) |});
  _ ← println ("run: " +:+ result.(rr_run_id));
  _ ← println (verdict result.(rr_assertions));
  _ ← println ("artifacts: " +:+ display result.(rr_directory));
  canonical ← on_process (call (cl_canonicalize result.(rr_directory)));
  path ← or_other canonical;
  quoted ← lift (shell_quote path);
  _ ← println ("replay: simferret replay " +:+ quoted);
  mret (as_u8 (exit_code result.(rr_assertions))).

Definition replay_command (arguments : list os_string) : M (X * list string) Z :=
  match arguments with
  | [directory] =>
      kernel ← kernel_variable;
      executable ← current_exe;
      result ← on_process (cl_replay {| rr_recording := directory; rr_kernel := kernel;
                                        rr_executable := executable |});
      _ ← println "replay: verified";
      _ ← println ("run: " +:+ result.(rp_run_id));
      _ ← println ("events: " +:+ fmt_dec result.(rp_event_count) +:+ " byte-identical");
      _ ← println ("semantic outcome: " +:+ result.(rp_semantic_outcome_sha256));
      _ ← println (verdict result.(rp_assertions));
      mret (as_u8 (exit_code result.(rp_assertions)))
  | _ => throw usage
  end.

Fixpoint print_all (lines : list string) : M (X * list string) unit :=
  match lines with [] => mret tt | line :: lines => _ ← println line; print_all lines end.

Definition workload_command (arguments : list os_string) : M (X * list string) Z :=
  match arguments with
  | [] => throw usage
  | subcommand :: arguments =>
      subcommand ← lift (ok_or (into_string subcommand) usage);
      if bool_decide (subcommand = "assemble") then
        a ← lift (assemble_options arguments {| aa_specification := None; aa_store := None |});
        specification ← lift (ok_or a.(aa_specification) usage);
        store ← lift (ok_or a.(aa_store) usage);
        result ← on_process (cl_assemble specification store);
        _ ← print_all ["source: " +:+ SourceKind_name result.(as_source_kind);
                       "canonical: " +:+ result.(as_canonical_digest);
                       "closure: " +:+ result.(as_closure_sha256);
                       "tree: " +:+ result.(as_tree_sha256);
                       "template: " +:+ result.(as_template_sha256);
                       "executable: " +:+ result.(as_launch).(executable);
                       "entries: " +:+ fmt_dec result.(as_entries);
                       "expanded bytes: " +:+ fmt_dec result.(as_expanded_bytes);
                       "raw objects: " +:+ fmt_dec result.(as_raw_objects)];
        mret 0
      else if bool_decide (subcommand = "verify") then
        match arguments with
        | [store] =>
            result ← on_process (cl_load store);
            _ ← print_all ["source: " +:+ SourceKind_name result.(ld_source_kind);
                           "canonical: " +:+ result.(ld_canonical_digest);
                           "closure: " +:+ result.(ld_closure_sha256);
                           "executable: " +:+ result.(ld_launch).(executable);
                           "entries: " +:+ fmt_dec (Tree_len result.(ld_tree));
                           "template bytes: " +:+ fmt_dec (zlen result.(ld_template))];
            mret 0
        | _ => throw usage
        end
      else throw usage
  end.

Definition agent_command (arguments : list os_string) : M (X * list string) Z :=
  match arguments with
  | [] => executable ← current_exe; status ← on_process (cl_agent executable); mret (as_u8 status)
  | _ => throw usage
  end.

(** [run], after the name of the program. *)
Definition run_main (arguments : list os_string) : M (X * list string) Z :=
  match List.head arguments ≫= into_string with
  | None =>
      if cl_pid =? 1 then code ← on_process cl_init; mret (as_u8 code) else throw usage
  | Some command =>
      let arguments := List.tl arguments in
      if bool_decide (command = "guest-agent") then agent_command arguments
      else if bool_decide (command = "run") then run_command arguments
      else if bool_decide (command = "workload") then workload_command arguments
      else if bool_decide (command = "replay") then replay_command arguments
      else throw usage
  end.

(** [main]: the exit code, and the line on the standard error. *)
Definition main (arguments : list os_string) (st : X * list string)
    : option (Z * option string * (X * list string)) :=
  match run_main (List.tl arguments) st with
  | Some (Ok code, st) => Some (code, None, st)
  | Some (Err e, st) => Some (1, Some ("simferret: " +:+ e.(error_message)), st)
  | None => None
  end.
End cli.

(** ** What the options mean *)

(** Options with their values, in order, and the values given to one. *)
Fixpoint flatten (pairs : list (os_string * os_string)) : list os_string :=
  match pairs with [] => [] | (option, value) :: pairs => option :: value :: flatten pairs end.
Definition values (key : string) (pairs : list (os_string * os_string)) : list os_string :=
  flat_map (fun p => if bool_decide (into_string p.1 = Some key) then [p.2] else []) pairs.
Definition known_option (p : os_string * os_string) : Prop :=
  exists key, into_string p.1 = Some key /\ key ∈ ["--scenario"; "--seed"; "--workload"; "--runs-dir"].

(** The arguments [a] that the options [pairs] give, from [a0] on. *)
Record given (pairs : list (os_string * os_string)) (a0 a : RunArguments) : Prop := {
  gv_known : Forall known_option pairs;
  gv_scenario : option_list a0.(ra_scenario) ++ values "--scenario" pairs = option_list a.(ra_scenario);
  gv_seed : map Some (option_list a0.(ra_seed)) ++ map parse_seed (values "--seed" pairs)
    = map Some (option_list a.(ra_seed));
  gv_workload : option_list a0.(ra_workload) ++ values "--workload" pairs = option_list a.(ra_workload);
  gv_runs : a.(ra_runs_directory) = List.last (values "--runs-dir" pairs) a0.(ra_runs_directory);
}.

Lemma values_cons key option value pairs :
  values key ((option, value) :: pairs)
  = (if bool_decide (into_string option = Some key) then [value] else []) ++ values key pairs.
Proof. done. Qed.
Lemma last_app_one {A} (x : A) l d : List.last (x :: l) d = List.last l x.
Proof.
  revert x d. induction l as [|y l IH]; intros x d; [done|].
  change (List.last (x :: y :: l) d) with (List.last (y :: l) d). by rewrite !IH.
Qed.

Lemma known key option value : into_string option = Some key ->
  key ∈ ["--scenario"; "--seed"; "--workload"; "--runs-dir"] -> known_option (option, value).
Proof. intros Ho Hk. by exists key. Qed.

#[local] Ltac decide_keys :=
  repeat match goal with
  | H : context [bool_decide (Some ?a = Some ?b)] |- _ =>
      let v := eval vm_compute in (bool_decide (Some a = Some b)) in
      change (bool_decide (Some a = Some b)) with v in H
  | |- context [bool_decide (Some ?a = Some ?b)] =>
      let v := eval vm_compute in (bool_decide (Some a = Some b)) in
      change (bool_decide (Some a = Some b)) with v
  end.

(** An option that is taken gives its value, and one that is not cannot be given. *)
Lemma run_option_given option value a0 a pairs :
  given ((option, value) :: pairs) a0 a <-> exists a1, run_option option value a0 = Ok a1 /\ given pairs a1 a.
Proof.
  unfold run_option. split.
  - intros [Hk Hsc Hse Hw Hr]. rewrite !values_cons in Hsc, Hse, Hw, Hr.
    apply list.Forall_cons_1 in Hk as [(key&Ho&Hkey) Hk]. cbn [fst] in Ho. rewrite Ho in Hsc, Hse, Hw, Hr |- *.
    destruct a0 as [sc0 se0 w0 r0], a as [sc se w r]. cbn in Hsc, Hse, Hw, Hr |- *.
    rewrite !elem_of_cons elem_of_nil in Hkey. destruct Hkey as [->|[->|[->|[->|[]]]]]; decide_keys; cbn [andb app map] in *.
    + destruct sc0 as [v|]; [by destruct sc|]. cbn. eexists. split; [reflexivity|]. by constructor.
    + destruct se0 as [v|]; [by destruct se|]. cbn in Hse |- *.
      destruct se as [v|]; [|done]. cbn in Hse. injection Hse as Hv Hse. rewrite Hv. cbn.
      eexists. split; [reflexivity|]. constructor; cbn; [done..| |done|done]. by rewrite Hse.
    + destruct w0 as [v|]; [by destruct w|]. cbn. eexists. split; [reflexivity|]. by constructor.
    + eexists. split; [reflexivity|]. constructor; cbn; try done. by rewrite last_app_one in Hr.
  - intros (a1&E&[Hk Hsc Hse Hw Hr]).
    destruct a0 as [sc0 se0 w0 r0], a as [sc se w r]. cbn in E, Hsc, Hse, Hw, Hr.
    assert (Htaken : forall key (b : bool), bool_decide (into_string option = Some key) && b = true ->
      into_string option = Some key /\ b = true).
    { intros key b [Hb%bool_decide_eq_true ?]%andb_true_iff. done. }
    destruct (_ && bool_decide (sc0 = None)) eqn:E1; [|destruct (_ && bool_decide (se0 = None)) eqn:E2;
      [|destruct (_ && bool_decide (w0 = None)) eqn:E3; [|case_bool_decide as E4; [|done]]]].
    + apply Htaken in E1 as [Ho ->%bool_decide_eq_true]. injection E as <-. cbn in *.
      constructor; rewrite ?values_cons ?Ho; decide_keys; try done. constructor; [|done]. eapply known; [done|set_solver].
    + apply Htaken in E2 as [Ho ->%bool_decide_eq_true].
      destruct (parse_seed value) as [v|] eqn:Hv; [|done]. injection E as <-. cbn in *.
      constructor; rewrite ?values_cons ?Ho; decide_keys; try done; [|by cbn; rewrite Hv].
      constructor; [|done]. eapply known; [done|set_solver].
    + apply Htaken in E3 as [Ho ->%bool_decide_eq_true]. injection E as <-. cbn in *.
      constructor; rewrite ?values_cons ?Ho; decide_keys; try done. constructor; [|done]. eapply known; [done|set_solver].
    + injection E as <-. cbn in *. constructor; rewrite ?values_cons ?E4; decide_keys; try done.
      * constructor; [|done]. eapply known; [done|set_solver].
      * cbn [app]. by rewrite last_app_one.
Qed.

Fixpoint pairs_ind (P : list os_string -> Prop) (Hnil : P []) (Hone : forall option, P [option])
    (Hpair : forall option value arguments, P arguments -> P (option :: value :: arguments))
    (arguments : list os_string) : P arguments :=
  match arguments with
  | [] => Hnil
  | [option] => Hone option
  | option :: value :: arguments => Hpair option value arguments (pairs_ind P Hnil Hone Hpair arguments)
  end.

(** The loop accepts exactly the arguments that are options with their values. *)
Lemma run_options_given arguments : forall a0 a,
  run_options arguments a0 = Ok a <-> exists pairs, arguments = flatten pairs /\ given pairs a0 a.
Proof.
  assert (Hnil : forall a0 a, given [] a0 a <-> a0 = a).
  { intros [sc0 se0 w0 r0] [sc se w r]. split.
    - intros [_ Hsc Hse Hw Hr]. cbn in *. rewrite !app_nil_r in Hsc, Hse, Hw.
      subst. f_equal; [by destruct sc0, sc; simplify_eq/=|by destruct se0, se; simplify_eq/=|by destruct w0, w; simplify_eq/=].
    - intros ->. constructor; cbn; rewrite ?app_nil_r; done. }
  induction arguments as [|option|option value arguments IH] using pairs_ind; intros a0 a; cbn [run_options].
  - split.
    + intros [= ->]. exists []. by rewrite Hnil.
    + intros ([|[]]&Hp&Hg); [|done]. by apply Hnil in Hg as ->.
  - split; [done|]. by intros ([|[? ?] [|[]]]&?&_).
  - trans (exists a1, run_option option value a0 = Ok a1 /\ exists pairs, arguments = flatten pairs /\ given pairs a1 a).
    { destruct (run_option option value a0) as [a1|e]; cbn.
      - rewrite IH. split; [by exists a1|]. by intros (?&[= <-]&?).
      - split; [done|]. by intros (?&[=]&_). }
    split.
    + intros (a1&E&pairs&->&Hg). exists ((option, value) :: pairs). split; [done|]. apply run_option_given. by exists a1.
    + intros ([|[o v] pairs]&Hp&Hg); [done|]. injection Hp as -> -> ->.
      apply run_option_given in Hg as (a1&E&Hg). exists a1. split; [done|]. by exists pairs.
Qed.

(** ** How a shell reads a command *)

(** The words of a simple command as a POSIX shell splits them (XCU 2.2): single
    quotes keep every byte, double quotes keep those without a meaning of their
    own there, and outside quotes this reader takes letters, digits and a few
    signs, and gives up on everything else. *)
Inductive Quoting := Between | Bare | Single | Double.
Definition QUOTATION : byte := Byte.x22.
Definition special_in_double (b : byte) : bool := bool_decide (b ∈ ["$"%byte; "`"%byte; "\"%byte]).
Definition plain (b : byte) : bool :=
  is_ascii_digit b || bool_decide (97 <= byte_Z b <= 122) || bool_decide (b ∈ ["-"%byte; "_"%byte; "."%byte; "/"%byte]).

Fixpoint shell_read (mode : Quoting) (word : bytes) (text : bytes) : option (list bytes) :=
  match text with
  | [] => match mode with Between => Some [] | Bare => Some [word] | _ => None end
  | b :: text =>
      match mode with
      | Single => if bool_decide (b = APOSTROPHE) then shell_read Bare word text
                  else shell_read Single (word ++ [b]) text
      | Double => if bool_decide (b = QUOTATION) then shell_read Bare word text
                  else if special_in_double b then None
                  else shell_read Double (word ++ [b]) text
      | _ => if bool_decide (b = APOSTROPHE) then shell_read Single word text
             else if bool_decide (b = QUOTATION) then shell_read Double word text
             else if bool_decide (b = " "%byte) then
               match mode with Bare => cons word <$> shell_read Between [] text | _ => shell_read Between [] text end
             else if plain b then shell_read Bare (word ++ [b]) text
             else None
      end
  end.
Definition shell_words (text : bytes) : option (list bytes) := shell_read Between [] text.

Lemma quoted_read text : forall word rest,
  shell_read Single word (flat_map (fun b => if bool_decide (b = APOSTROPHE) then QUOTED_APOSTROPHE else [b]) text
    ++ APOSTROPHE :: rest) = shell_read Bare (word ++ text) rest.
Proof.
  induction text as [|b text IH]; intros word rest; cbn [flat_map app].
  - cbn [shell_read]. by rewrite bool_decide_eq_true_2 // app_nil_r.
  - case_bool_decide as Hb; cbn [app shell_read].
    + subst b. change (shell_read Single word (QUOTED_APOSTROPHE ++ ?l)) with (shell_read Single (word ++ [APOSTROPHE]) l).
      rewrite -app_assoc. cbn. by rewrite IH -app_assoc.
    + rewrite bool_decide_eq_false_2 // IH. by rewrite -app_assoc.
Qed.
Lemma quote_read text word rest : shell_read Between word (quote_bytes text ++ rest) = shell_read Bare (word ++ text) rest.
Proof.
  unfold quote_bytes. cbn [app shell_read]. rewrite bool_decide_eq_true_2 //.
  rewrite -app_assoc. apply quoted_read.
Qed.

(** The printed command. *)
Definition replay_words (path : bytes) : list os_string := [arg "simferret"; arg "replay"; path].

Lemma printed_words path : shell_words (arg "simferret replay " ++ quote_bytes path) = Some (replay_words path).
Proof.
  unfold shell_words.
  change (shell_read Between [] (arg "simferret replay " ++ quote_bytes path))
    with (cons (arg "simferret") <$> (cons (arg "replay") <$> shell_read Between [] (quote_bytes path))).
  rewrite -(app_nil_r (quote_bytes path)) quote_read. by rewrite app_nil_l.
Qed.

Section printed.
Context {X : Type} `{Subcommands X}.
#[local] Set Default Proof Using "All".

Lemma on_process_Ok {A} (m : M X A) st a st' :
  on_process m st = Some (Ok a, st') <-> exists x, m st.1 = Some (Ok a, x) /\ st' = (x, st.2).
Proof. apply (zoom_Ok fst (fun x st => (x, st.2))). Qed.

Lemma call_other_Ok {A} (f : X -> (A + io_error) * X) st a st' :
  (r ← on_process (call f); or_other r) st = Some (Ok a, st') <->
  exists x, f st.1 = (inl a, x) /\ st' = (x, st.2).
Proof.
  rewrite M_bind_Ok. setoid_rewrite on_process_Ok. unfold call. split.
  - intros (r&s1&(x&E&->)&E'). destruct (f st.1) as [r' x'] eqn:Ef. injection E as -> ->.
    destruct r as [b|e]; [|done]. injection E' as -> <-. by exists x.
  - intros (x&Ef&->). exists (inl a), (x, st.2). split; [exists x; by rewrite Ef|done].
Qed.
Lemma println_Ok line (st st' : X * list string) : println line st = Some (Ok tt, st') <-> st' = (st.1, st.2 ++ [line]).
Proof. unfold println, modify. split; [by intros [= <-]|by intros ->]. Qed.

(** What a run that returned went through. *)
Lemma run_command_Ok arguments st code st' :
  run_command arguments st = Some (Ok code, st') ->
  exists a kernel executable scenario seed x0 x1 result path text,
    run_options arguments no_run_arguments = Ok a /\
    a.(ra_scenario) = Some scenario /\ a.(ra_seed) = Some seed /\
    cl_record {| rq_scenario := scenario; rq_seed := seed; rq_runs_directory := a.(ra_runs_directory);
      rq_kernel := kernel; rq_executable := executable; rq_workload := a.(ra_workload) |} x0 = Some (Ok result, x1) /\
    (cl_canonicalize result.(rr_directory) x1).1 = inl path /\ to_str path = Some text /\
    st'.2 = st.2 ++ ["run: " +:+ result.(rr_run_id); verdict result.(rr_assertions);
      "artifacts: " +:+ display result.(rr_directory);
      "replay: " +:+ ("simferret replay " +:+ str_of (quote_bytes text))] /\
    code = exit_code result.(rr_assertions).
Proof.
  unfold run_command. intros (a&?&[Ha ->]%lift_Ok&E)%M_bind_Ok.
  apply M_bind_Ok in E as (kernel&st1&E1&E). unfold kernel_variable in E1.
  apply M_bind_Ok in E1 as (variable&?&(x&_&->)%on_process_Ok&[_ ->]%lift_Ok).
  apply M_bind_Ok in E as (scenario&?&[Hs ->]%lift_Ok&E). apply M_bind_Ok in E as (seed&?&[Hse ->]%lift_Ok&E).
  apply M_bind_Ok in E as (executable&?&(x0&_&->)%call_other_Ok&E). cbn [fst snd] in *.
  apply M_bind_Ok in E as (result&?&(x1&Erec&->)%on_process_Ok&E). cbn [fst snd] in *.
  do 3 (apply M_bind_Ok in E as ([]&?&->%println_Ok&E)). cbn [fst snd] in *.
  apply M_bind_Ok in E as (canonical&?&(x2&Ec&->)%on_process_Ok&E). cbn [fst snd] in *.
  apply M_bind_Ok in E as (path&p2&Ep&E).
  assert (Hpath : (cl_canonicalize result.(rr_directory) x1).1 = inl path).
  { unfold call in Ec. destruct (cl_canonicalize _ x1) as [r x3]. injection Ec as -> ->.
    destruct canonical; [by injection Ep as ->|done]. }
  assert (Hst : p2 = (x2, st.2 ++ ["run: " +:+ result.(rr_run_id); verdict result.(rr_assertions);
      "artifacts: " +:+ display result.(rr_directory)])).
  { destruct canonical; [|done]. injection Ep as _ <-. by rewrite -!app_assoc. }
  subst p2. apply M_bind_Ok in E as (quoted&?&[Hq ->]%lift_Ok&E). unfold shell_quote in Hq.
  destruct (to_str path) as [text|] eqn:Htext; [|done]. injection Hq as <-.
  apply M_bind_Ok in E as ([]&?&->%println_Ok&[= <- <-]). cbn [fst snd].
  destruct (ra_scenario a) as [scenario'|] eqn:Hsc; [|done]. injection Hs as <-.
  destruct (ra_seed a) as [seed'|] eqn:Hsd; [|done]. injection Hse as <-.
  exists a, kernel, executable, scenario', seed', x0, x1, result, path, text.
  rewrite -!app_assoc. split_and!; try done.
  unfold exit_code, as_u8. by destruct (passed _).
Qed.

Lemma replay_command_Ok directory st code st' :
  replay_command [directory] st = Some (Ok code, st') ->
  exists kernel executable x0 x1 result,
    cl_replay {| rr_recording := directory; rr_kernel := kernel; rr_executable := executable |} x0
      = Some (Ok result, x1) /\
    code = exit_code result.(rp_assertions) /\
    st' = (x1, st.2 ++ ["replay: verified"; "run: " +:+ result.(rp_run_id);
      "events: " +:+ fmt_dec result.(rp_event_count) +:+ " byte-identical";
      "semantic outcome: " +:+ result.(rp_semantic_outcome_sha256); verdict result.(rp_assertions)]).
Proof.
  unfold replay_command, kernel_variable.
  intros (kernel&?&(?&?&(x&_&->)%on_process_Ok&[_ ->]%lift_Ok)%M_bind_Ok&E)%M_bind_Ok.
  apply M_bind_Ok in E as (executable&?&(y0&_&->)%call_other_Ok&E). cbn [fst snd] in *.
  apply M_bind_Ok in E as (result&?&(y1&Erep&->)%on_process_Ok&E). cbn [fst snd] in *.
  do 5 (apply M_bind_Ok in E as ([]&?&->%println_Ok&E)). injection E as <- <-. cbn [fst snd].
  exists kernel, executable, y0, y1, result. rewrite -!app_assoc. split_and!; [done| |done].
  unfold exit_code, as_u8. by destruct (passed _).
Qed.

Lemma run_main_run arguments : run_main (arg "run" :: arguments) = run_command arguments.
Proof. reflexivity. Qed.
Lemma run_main_replay arguments : run_main (arg "replay" :: arguments) = replay_command arguments.
Proof. reflexivity. Qed.

(** C38. The command a recording prints replays that recording.  When [simferret run]
    returns, its arguments were options with their values, each of [--scenario],
    [--seed] and [--workload] at most once and the first two present; the recording
    was made with exactly what they say; and the lines printed after it end in a
    command.  A POSIX shell that reads this command splits it into three words,
    the name of the program, [replay] and the canonical path of the run, whatever
    spaces, quotes or other bytes the path contains; and run again with these
    words the program, if it returns, replayed exactly this path.  Both exit codes
    say whether the assertions passed. *)
Theorem printed_command_replays arguments st code st' :
  main (arg "simferret" :: arg "run" :: arguments) st = Some (code, None, st') ->
  exists pairs a request x0 x1 result path text command,
    arguments = flatten pairs /\ given pairs no_run_arguments a /\
    a.(ra_scenario) = Some request.(rq_scenario) /\ a.(ra_seed) = Some request.(rq_seed) /\
    a.(ra_workload) = request.(rq_workload) /\ a.(ra_runs_directory) = request.(rq_runs_directory) /\
    cl_record request x0 = Some (Ok result, x1) /\ code = exit_code result.(rr_assertions) /\
    (cl_canonicalize result.(rr_directory) x1).1 = inl path /\ to_str path = Some text /\
    (exists lines, st'.2 = st.2 ++ lines ++ ["replay: " +:+ command]) /\
    shell_words (as_bytes command) = Some (replay_words text) /\
    forall st2 code2 st2', main (replay_words text) st2 = Some (code2, None, st2') ->
      exists again x2 x3 result2, again.(rr_recording) = text /\
        cl_replay again x2 = Some (Ok result2, x3) /\ code2 = exit_code result2.(rp_assertions).
Proof.
  unfold main. cbn [List.tl]. intros E.
  destruct (run_main _ st) as [[[c|e] s1]|] eqn:Er; [|done..]. injection E as -> ->.
  rewrite run_main_run in Er. apply run_command_Ok in Er
    as (a&kernel&executable&scenario&seed&x0&x1&result&path&text&Ha&Hs&Hse&Hrec&Hpath&Htext&Hout&Hcode).
  apply run_options_given in Ha as (pairs&->&Hg).
  eexists pairs, a, _, x0, x1, result, path, text, _.
  split_and!; [done|exact Hg| | | | |exact Hrec|done..| | |]; try done.
  - eexists [_; _; _]. exact Hout.
  - rewrite as_bytes_app as_bytes_str_of. apply printed_words.
  - intros st2 code2 st2' E2. cbn [replay_words List.tl] in E2.
    destruct (run_main _ st2) as [[[c2|e2] s2]|] eqn:Er2; [|done..]. injection E2 as -> ->.
    rewrite run_main_replay in Er2. apply replay_command_Ok in Er2 as (kernel2&executable2&x2&x3&result2&Hrep&Hcode2&_).
    eexists {| rr_recording := text |}, x2, x3, result2.
    split; [reflexivity|]. exact (conj Hrep Hcode2).
Qed.
End printed.

(** ** A sample process *)

(** The state counts the runs that were recorded and replayed. *)
Definition sample_report : AssertionReport := {| passed := false; assertions := [] |}.
Definition sample_directory : Handle := ["my runs"; "it's $HOME"; "run-1"].
Definition sample_commands : Subcommands (nat * nat) := {|
  cl_pid := 7;
  cl_variable _ x := (Some (arg "/kernel"), x);
  cl_current_exe x := (inl (arg "/simferret"), x);
  cl_canonicalize path x := (inl path, x);
  cl_init := throw usage;
  cl_agent _ := mret 0;
  cl_record request x := Some (Ok {| rr_run_id := "run-1"; rr_directory := sample_directory;
    rr_assertions := sample_report |}, (S x.1, x.2));
  cl_replay request x := Some (Ok {| rp_run_id := "run-1"; rp_event_count := 9;
    rp_semantic_outcome_sha256 := "0"; rp_assertions := sample_report |}, (x.1, S x.2));
  cl_assemble _ _ := throw usage;
  cl_load _ := throw usage |}.
#[local] Existing Instance sample_commands.

Definition sample_arguments : list os_string :=
  map arg ["--seed"; "+7"; "--runs-dir"; "a"; "--scenario"; "s.toml"; "--runs-dir"; "my runs"].
Definition sample_run : option (Z * option string * ((nat * nat) * list string)) :=
  main (arg "simferret" :: arg "run" :: sample_arguments) ((0%nat, 0%nat), []).

Example sample_printed : (fun r => List.last r.2.2 "") <$> sample_run
  = Some ("replay: simferret replay " +:+ str_of (arg "'/my runs/it'" ++ [Byte.x22; Byte.x27; Byte.x22]
      ++ arg "'s $HOME/run-1'")).
Proof. vm_compute. reflexivity. Qed.

Lemma printed_command_replays_witness : exists st' request text,
  sample_run = Some (1, None, st') /\ request.(rq_scenario) = arg "s.toml" /\ request.(rq_seed) = 7 /\
  request.(rq_runs_directory) = arg "my runs" /\ text = arg "/my runs/it's $HOME/run-1" /\
  exists command, shell_words (as_bytes command) = Some (replay_words text).
Proof.
  assert (E : exists st', sample_run = Some (1, None, st')) by (eexists; vm_compute; reflexivity).
  destruct E as [st' E].
  destruct (printed_command_replays sample_arguments ((0%nat, 0%nat), []) 1 st' E)
    as (pairs&a&request&x0&x1&result&path&text&command&Hf&Hg&Hs&Hse&Hw&Hr&Hrec&_&Hpath&Htext&_&Hwords&_).
  assert (Ha : run_options sample_arguments no_run_arguments = Ok a)
    by (apply run_options_given; by exists pairs).
  vm_compute in Ha. injection Ha as <-. injection Hs as Hs. injection Hse as Hse.
  cbn in Hrec. injection Hrec as <- _. injection Hpath as <-. vm_compute in Htext. injection Htext as <-.
  exists st', request, (arg "/my runs/it's $HOME/run-1"). split; [exact E|].
  split; [by rewrite -Hs|]. split; [by rewrite -Hse|]. split; [by rewrite -Hr|]. split; [reflexivity|].
  exists command. exact Hwords.
Defined.
